(* ===== verification/_CoqProject ===== *)
-Q . S2P
Prelude.v
FileLocks.v
Tcp.v
Packets.v
Uart8250.v
Regions.v
Fragments.v
PageTable.v
VirtualMemory.v
Bitmap.v
RegionArray.v
Layout.v
Ext4Layout.v
FatTable.v
Fdt.v
PersistentState.v
Wal.v
Codec.v
PersistentStore.v
PageStore.v
SparseData.v
Paths.v
LayerIndex.v
Layers.v
ImageTree.v
Initramfs.v
BootAcpi.v
LinuxBoot.v
ArmImage.v
ArmBoot.v
Utf8.v
Terminal.v
TerminalSafety.v
TerminalText.v
GuestMemory.v
Virtqueue.v
VirtioDevice.v
VirtioConsole.v
VirtioRng.v
VirtioBalloon.v
Vsock.v
VsockQueues.v
SimpleVsock.v
Nvme.v
NvmeTransfer.v
NvmeQueues.v
