(* ===== verification/Prelude.v ===== *)
(** * Verification of crumblecracker

    crumblecracker runs small virtual machines on KVM, Hypervisor.framework and the Windows
    Hypervisor Platform.  Around the virtual processors it implements the machine: disks,
    consoles, a network, shared directories, the file-system images the guest boots from, the
    container images these are made of, the memory of the guest at boot, and the terminal that
    shows its output.  This library models the parts of that machine whose behaviour is decided
    by the program itself, as functions on values, and proves what the rest of the program and
    the guest rely on.  File names below are relative to [src/internal/core/].

    ** How code is translated

    A pure function is a function.  A method that changes its receiver takes the receiver and
    returns it; a method under a mutex is one atomic step.  An error is a value of [result]
    ([Ok], [Err], or [Panic] for a run-time panic).  A w-bit integer is a [Z] with its
    wrap-around written out ([wrap], [swrap]); a byte slice is a list of [Z]; a Go map is a
    [gmap]; where pointers are shared (the queues of the NVMe controller) the model has a
    heap.  What is not in the repository is an argument: the clock, the random source, the
    host writer, the bytes a pooled buffer holds, and the outcome of every host system
    call, so that each failure is a case of the theorems.

    ** Parts, files and theorems

    Images for the guest ([fsimage/vm/], [fsimage/fat/], [ext4image/ext4/], [fdt/]):
    - [Regions], [Fragments], [RegionArray], [PageTable], [Bitmap]: the memory regions an
      image is assembled from.  Each reads and writes as the flat bytes it stands for
      ([region_reads_flat], [array_reads_concat]); the page table is a finite map
      ([page_table_is_map]), used through the class [PageTable]; the bit searches and fills
      that work on bytes equal the bit-by-bit ones ([set_range_exact], [find_first_least]).
    - [VirtualMemory]: mapping, writing and reading are overwriting and reading of one flat
      byte string ([memory_refines_flat]), and the sparse writer reproduces it
      ([sparse_image_exact]).
    - [Layout], [Ext4Layout]: the ext4 structures as tables with the place every getter reads
      and every setter writes; each getter gives back what its setter wrote, and no setter
      disturbs another field ([ext4_accessors]).
    - [FatTable]: the allocation table; the chain of a file is what was allocated for it
      ([fat_file_chain]) where cluster numbers are below the end-of-chain mark, and links are
      lost where they are not ([fat16_link_lost]); entries stay in range
      ([fat_table_well_typed]), and writing 12-bit tables loses data ([fat12_write_loses]).
    - [Fdt]: the device tree builder against a reader of the format
      ([device_tree_roundtrip], [build_outcome]).

    Container images ([oci/], [fsmeta/]):
    - [Paths]: slash-separated paths as lists of components ([normalize_canonical]).
    - [LayerIndex]: the binary indexes of images and layers ([fs_index_roundtrip]).
    - [Layers]: a tar stream becomes an index and a file of contents in which every file is
      found ([layer_contents_exact]); the index of a layer applied to the layers below is the
      overlay of the OCI specification ([layer_refines_overlay]) under conditions on the order
      of its entries, outside of which it is not ([root_opaque_ignored],
      [whiteout_removes_own], [implicit_directory_stays]).
    - [ImageTree]: the merged nodes become a complete tree ([namespace_complete]).

    Booting ([linux/initramfs/], [linux/boot/amd64/], [linux/boot/arm64/]):
    - [Initramfs]: the archive of the initial file system against a reader of its format
      ([initramfs_roundtrip]).
    - [BootAcpi], [LinuxBoot]: the ACPI tables and the memory of an amd64 guest; the kernel
      finds everything by the pointers it is given ([acpi_tables_found], [boot_memory]).
    - [ArmImage], [ArmBoot]: the kernel image in its file, with the cache of decompressed
      images ([cache_transparent]), and the memory of an arm64 guest with the device tree
      that describes it ([arm_boot_memory]).

    The terminal ([src/internal/ptyterm/model.go]):
    - [Utf8]: the encoding of characters.
    - [Terminal], [TerminalSafety], [TerminalText]: the emulator; it interprets any output
      without a panic ([terminal_never_panics]), output in pieces as output at once
      ([write_chunks]), and snapshots restore what they show ([snapshot_restore]).

    Shared directories and their storage ([virtio/fs_*.go]):
    - [FileLocks]: the lock table implements byte ranges held by owners
      ([set_refines_table]), excludes conflicts in every reachable state
      ([reachable_exclusive]) and lets every woken waiter settle ([waiters_settle]).
    - [PersistentState], [Wal], [Codec], [PersistentStore]: the durable metadata of a
      persistent file system.  Deltas act node by node ([delta_refines]); fsync and fsyncdir
      store their part only ([fsync_keeps_namespace], [fsyncdir_keeps_data]); with crashes
      at any point, opening the store finds the last acknowledged state or the one being
      written ([crash_recovery]).  Three ways in which acknowledged changes are lost or
      syncs are blocked are proved too ([removed_directory_blocks_sync],
      [failed_append_loses_next], [unsynced_checkpoint_loses_next]).
    - [PageStore], [SparseData]: the pages of writable files, their reference counts, and
      snapshots that share them.  Files and snapshots behave as separate flat files
      ([files_refine_bytes], [reads_return_bytes]), reference counts are exact
      ([page_counts_exact]), and seeks follow the pages ([seeks_by_pages]) except that a
      seek for a hole can stop at data ([seek_hole_in_data]).

    Network ([netstack/]):
    - [Tcp]: reassembly of segments in any order ([any_order_reassembly]), the
      retransmission queue ([ack_releases_prefix]) and the timer bounds
      ([rto_always_bounded]).
    - [Packets]: frames that are sent parse back to what was asked for, with valid
      checksums ([tcp_frame_roundtrip], [udp_frame_roundtrip]); frames that are accepted have
      the source that was checked ([accepted_source_is_lease]).

    Devices ([serial/], [virtio/], [nvme/]):
    - [GuestMemory]: the classes [GuestMemory] and [IRQController] with their laws, which the
      device theorems assume, and the memory of a KVM machine as their instance.
    - [Uart8250]: the identification register and the line report the pending interrupt of
      highest priority ([uart_interrupts_consistent]), and injected bytes arrive in order
      ([injection_in_order]).
    - [Virtqueue], [VirtioDevice], [VirtioConsole], [VirtioRng], [VirtioBalloon]: descriptor
      chains and rings ([chain_exact], [used_ring_fifo], [request_gathers],
      [response_scatters]) and what each device does with a notification
      ([console_transmits], [rng_serves], [balloon_tracks_set], [reclaim_in_runs]).
    - [Vsock]: connections of the guest to the host, with a goroutine per connection whose
      steps interleave with the guest.  A guest is never sent more than it has room for
      ([vsock_flow_control]) and is sent what the host wrote, in order ([vsock_streams]), unless
      it reuses a port at once ([stale_reader_injects]).
    - [VsockQueues]: what a notification of the guest does with its packets, its buffers and
      its memory ([vsock_notified]).
    - [SimpleVsock]: the in-memory backend; each end of a connection reads what the other has
      written ([streams_in_order]).
    - [Nvme], [NvmeTransfer], [NvmeQueues]: the controller, the pages a command transfers
      ([prp_write_scatters], [prp_read_gathers], [direct_read_equals_bounce]), and its queues:
      the completion ring in guest memory ([completion_ring_fifo], [full_ring_overwritten]), the
      interrupt line against an account of the completions a driver has consumed
      ([nvme_irq_level]), and the end of the processing of a queue ([doorbell_returns]).

    [Prelude] has the shared vocabulary: integers, bytes, [encoding/binary], [sort.Search],
    record update, and the tactics and lemmas on them.

    ** Fuel and bounds

    Loops that are not structural take fuel.  Where the code has a counter or a shrinking
    buffer, the fuel is that measure: the bytes left of a read or write ([SparseData],
    [Wal], where a record has at least 40 bytes), the free offsets ([PageStore]), the length
    of an interval ([sortSearch]), the size of the queue ([Virtqueue]), the pending packets
    ([Vsock]), the length of a path ([ImageTree]).  In [VirtualMemory] and [Nvme] a run that
    has not ended is [None], and the theorems give a fuel for which it ends.  Theorems about
    64-bit offsets assume that a file's end does not wrap around, and those about the page
    store that the host file stays below 2^63 bytes; these are the [fits] conditions in the
    statements.

    ** What is assumed

    [Json] (in [Wal]) is the contract of [encoding/json]: what was written reads back; [Codec]
    is an instance.  [reclaim_keeps] (in [PageStore] and [SparseData]) is the contract of hole
    punching: the bytes outside the range and the length stay.  [GuestMemoryLaws] and the
    laws of the interrupt controller are shown for an instance.  In [ArmImage] decompression
    and the hash function are arguments; [cache_transparent] assumes that the hash does not
    confuse the payloads of one run.  The table of non-spacing characters is an argument of
    [Terminal].

    ** Not modelled

    The virtual processors and hypervisor back ends, the graphics renderer, the user
    interface, downloads, image registries and the programs inside the guest are calls of
    host libraries and services.  Of the file server, the request dispatcher and the
    directory trees over host and image files are not modelled: they are a graph of objects
    over host system calls; neither is the copying of live nodes into the durable state,
    which therefore enters [PersistentState] as an argument.  Of the page store, the
    references to the store itself, its close and its usage counters are left out.  Of the
    network stack, connections, sockets, DHCP and DNS run in goroutines over host sockets;
    the modelled parts are the data structures and codecs they use.  The ext4, FAT directory
    and FFS writers above the modelled layers, the network and input devices of virtio, and
    the PCI and platform devices are not modelled. *)

From stdpp Require Export base tactics numbers list list_numbers option sets sorting relations.
From Stdlib Require Export ZArith Lia.
From Stdlib Require Import Btauto.

#[global] Open Scope Z_scope.

(** * Record update *)

(** [Eta R] is the eta-expansion of a record type; [x <| f := v |>] is found
    from it by replacing the projection [f x]. *)
Class Eta (R : Type) := eta : R -> R.
Class Setter {R E : Type} (getter : R -> E) := set_field : (E -> E) -> R -> R.
Arguments set_field {R E} getter {_} _ _.

Ltac solve_setter :=
  lazymatch goal with
  | |- @Setter ?R ?E ?getter =>
      let inst := constr:(_ : Eta R) in
      let body := eval hnf in inst in
      exact (fun (upd : E -> E) (r : R) => ltac:(
        let b := eval cbv beta in (body r) in
        match b with
        | context C [getter r] => let b' := context C [upd (getter r)] in exact b'
        end))
  end.

#[export] Hint Extern 1 (Setter _) => solve_setter : typeclass_instances.

Declare Scope record_scope.
#[global] Open Scope record_scope.
Notation "x <| f := v |>" := (set_field f (fun _ => v) x)
  (at level 12, f at level 9, v at level 200, left associativity,
   format "x  <| f  :=  v |>") : record_scope.

(** * Outcomes of Go calls *)

(** A Go call returns a value, returns a non-nil error, or panics. *)
Inductive result (E A : Type) : Type :=
| Ok (a : A)
| Err (e : E)
| Panic.
Arguments Ok {E A} a.
Arguments Err {E A} e.
Arguments Panic {E A}.

#[export] Instance result_ret {E} : MRet (result E) := fun A a => Ok a.
#[export] Instance result_bind {E} : MBind (result E) := fun A B f r =>
  match r with
  | Ok a => f a
  | Err e => Err e
  | Panic => Panic
  end.

(** Inverts a hypothesis [m ≫= f = Ok b] one bind at a time. *)
Lemma result_bind_Ok {E A B} (r : result E A) (f : A -> result E B) b :
  r ≫= f = Ok b -> exists a, r = Ok a /\ f a = Ok b.
Proof. destruct r; cbn; intros H; try discriminate. eauto. Qed.

Ltac inv_bind :=
  repeat match goal with
  | H : (_ ≫= _) = Ok _ |- _ =>
      apply result_bind_Ok in H as (? & ? & H)
  | H : mbind _ _ = Ok _ |- _ =>
      apply result_bind_Ok in H as (? & ? & H)
  end.

(** * Step relations *)

(** Rule induction on runs: a property every step preserves holds throughout. *)
Lemma rtc_preserves {A} (R : relation A) (P : A -> Prop) x y :
  (forall a b, R a b -> P a -> P b) -> rtc R x y -> P x -> P y.
Proof. intros Hstep Hrun. induction Hrun; eauto. Qed.

(** * Fixed-width integers *)

(** [wrap w z]: conversion of [z] to an unsigned [w]-bit integer. *)
Definition wrap (w z : Z) : Z := z mod 2 ^ w.
Abbreviation u8 := (wrap 8).
Abbreviation u16 := (wrap 16).
Abbreviation u32 := (wrap 32).
Abbreviation u64 := (wrap 64).

(** [swrap w z]: conversion of [z] to a two's complement [w]-bit integer. *)
Definition swrap (w z : Z) : Z :=
  let m := wrap w z in if m <? 2 ^ (w - 1) then m else m - 2 ^ w.
Abbreviation i32 := (swrap 32).
Abbreviation i64 := (swrap 64).

(** Values of the unsigned [w]-bit type. *)
Definition in_width (w z : Z) : Prop := 0 <= z < 2 ^ w.
Abbreviation is_u8 := (in_width 8).
Abbreviation is_u16 := (in_width 16).
Abbreviation is_u32 := (in_width 32).
Abbreviation is_u64 := (in_width 64).

(** Go's [v & m != 0]. *)
Definition hasbits (v m : Z) : bool := negb (Z.land v m =? 0).

(** Makes the powers of two of the machine widths literals. *)
Ltac pow2 :=
  change (2 ^ 64) with 18446744073709551616 in *;
  change (2 ^ 63) with 9223372036854775808 in *;
  change (2 ^ 32) with 4294967296 in *;
  change (2 ^ 31) with 2147483648 in *;
  change (2 ^ 16) with 65536 in *;
  change (2 ^ 8) with 256 in *.

(** [lia] with divisions and remainders by constants. *)
Ltac dlia := Z.to_euclidean_division_equations; lia.

Ltac width := unfold in_width in *; pow2; try lia.

(** Masks with one bit test that bit. *)
Lemma hasbits_pow2 v n : 0 <= n -> hasbits v (2 ^ n) = Z.testbit v n.
Proof.
  intros Hn. unfold hasbits.
  destruct (Z.testbit v n) eqn:Hb; destruct (Z.eqb_spec (Z.land v (2 ^ n)) 0) as [H0|H0];
    try reflexivity; exfalso.
  - assert (Hf : Z.testbit (Z.land v (2 ^ n)) n = false) by (rewrite H0; apply Z.bits_0).
    rewrite Z.land_spec, Hb, Z.pow2_bits_true in Hf by done. discriminate.
  - apply H0. apply Z.bits_inj'. intros m Hm. rewrite Z.land_spec, Z.bits_0.
    destruct (Z.eq_dec m n) as [->|Hne]; [by rewrite Hb|].
    rewrite Z.pow2_bits_false by done. apply andb_false_r.
Qed.

Lemma hasbits_1 v : hasbits v 1 = Z.testbit v 0.
Proof. apply (hasbits_pow2 v 0). lia. Qed.
Lemma hasbits_2 v : hasbits v 2 = Z.testbit v 1.
Proof. apply (hasbits_pow2 v 1). lia. Qed.
Lemma hasbits_4 v : hasbits v 4 = Z.testbit v 2.
Proof. apply (hasbits_pow2 v 2). lia. Qed.
Lemma hasbits_8 v : hasbits v 8 = Z.testbit v 3.
Proof. apply (hasbits_pow2 v 3). lia. Qed.
Lemma hasbits_16 v : hasbits v 16 = Z.testbit v 4.
Proof. apply (hasbits_pow2 v 4). lia. Qed.
Lemma hasbits_32 v : hasbits v 32 = Z.testbit v 5.
Proof. apply (hasbits_pow2 v 5). lia. Qed.
Lemma hasbits_128 v : hasbits v 128 = Z.testbit v 7.
Proof. apply (hasbits_pow2 v 7). lia. Qed.

(** Bit tests of masked and updated flag bytes. *)
Create Rewrite HintDb bits.
#[export] Hint Rewrite hasbits_1 hasbits_2 hasbits_4 hasbits_8 hasbits_16 hasbits_32
  hasbits_128 Z.lor_spec Z.land_spec Z.ldiff_spec : bits.

Lemma wrap_range w z : 0 <= w -> in_width w (wrap w z).
Proof. intros. apply Z.mod_pos_bound. lia. Qed.

Lemma wrap_small w z : in_width w z -> wrap w z = z.
Proof. intros. apply Z.mod_small. done. Qed.

Lemma wrap_wrap w z : 0 <= w -> wrap w (wrap w z) = wrap w z.
Proof. intros. apply wrap_small, wrap_range; done. Qed.

Lemma wrap_add_wrap_l w a b : wrap w (wrap w a + b) = wrap w (a + b).
Proof. apply Zplus_mod_idemp_l. Qed.

Lemma wrap_add_wrap_r w a b : wrap w (a + wrap w b) = wrap w (a + b).
Proof. apply Zplus_mod_idemp_r. Qed.

Lemma wrap_sub_wrap w a b : wrap w (wrap w a - wrap w b) = wrap w (a - b).
Proof. symmetry. apply Zminus_mod. Qed.

Lemma wrap_sub_wrap_l w a b : wrap w (wrap w a - b) = wrap w (a - b).
Proof. unfold wrap. apply Zminus_mod_idemp_l. Qed.

Lemma wrap_inj_near w a b :
  0 <= w -> Z.abs (a - b) < 2 ^ w -> wrap w a = wrap w b -> a = b.
Proof.
  unfold wrap. intros Hw Hd Heq.
  assert (Hp : 0 < 2 ^ w) by lia.
  pose proof (Z.div_mod a (2 ^ w) ltac:(lia)).
  pose proof (Z.div_mod b (2 ^ w) ltac:(lia)).
  assert (a / 2 ^ w = b / 2 ^ w) by nia. nia.
Qed.

Lemma swrap_near w z : 0 < w -> - 2 ^ (w - 1) <= z < 2 ^ (w - 1) -> swrap w z = z.
Proof.
  intros Hw Hz. unfold swrap, wrap.
  assert (Hp : 2 ^ w = 2 * 2 ^ (w - 1)).
  { rewrite <- Z.pow_succ_r by lia. f_equal. lia. }
  destruct (Z_lt_le_dec z 0).
  - assert (Hm : z mod 2 ^ w = z + 2 ^ w)
      by (symmetry; apply Z.mod_unique with (-1); lia).
    rewrite Hm. destruct (Z.ltb_spec (z + 2 ^ w) (2 ^ (w - 1))); lia.
  - rewrite Z.mod_small by lia. destruct (Z.ltb_spec z (2 ^ (w - 1))); lia.
Qed.

Lemma swrap_range w z : 0 < w -> - 2 ^ (w - 1) <= swrap w z < 2 ^ (w - 1).
Proof.
  intros Hw. unfold swrap. pose proof (wrap_range w z ltac:(lia)) as [H1 H2].
  assert (Hp : 2 ^ w = 2 * 2 ^ (w - 1)).
  { rewrite <- Z.pow_succ_r by lia. f_equal. lia. }
  destruct (Z.ltb_spec (wrap w z) (2 ^ (w - 1))); lia.
Qed.

Lemma swrap_wrap w z : 0 <= w -> swrap w (wrap w z) = swrap w z.
Proof. intros. unfold swrap. rewrite wrap_wrap by done. done. Qed.

Lemma swrap_add w a b : 0 <= w -> swrap w (swrap w a + b) = swrap w (a + b).
Proof.
  intros Hw. assert (exists k, swrap w a = a + k * 2 ^ w) as [k ->].
  { unfold swrap, wrap. rewrite Zmod_eq_full by lia.
    case_match; [exists (- (a / 2 ^ w))|exists (- (a / 2 ^ w) - 1)]; lia. }
  unfold swrap, wrap. replace (a + k * 2 ^ w + b) with (a + b + k * 2 ^ w) by lia. by rewrite Z_mod_plus_full.
Qed.

(** The integer divisions of Go truncate toward zero; on non-negative operands
    they are the floor division of [Z]. *)
Definition godiv (a b : Z) : Z := Z.quot a b.

Create HintDb width.
Create Rewrite HintDb width_rw.
#[export] Hint Resolve wrap_range wrap_small swrap_range : width.
#[export] Hint Rewrite wrap_add_wrap_l wrap_add_wrap_r wrap_sub_wrap : width_rw.

(** * Byte slices *)

(** A Go [[]byte] is the list of its bytes. *)
Abbreviation bytes := (list Z).
Definition is_bytes (l : bytes) : Prop := Forall is_u8 l.

(** Length of a slice as Go's [int]. *)
Definition len {A} (l : list A) : Z := Z.of_nat (length l).

(** [l[a:b]]; the callers check the bounds as the source does. *)
Definition slice {A} (l : list A) (a b : Z) : list A :=
  take (Z.to_nat (b - a)) (drop (Z.to_nat a) l).

(** [l[i]] where the source has established the bounds. *)
Definition at_ (l : bytes) (i : Z) : Z :=
  default 0 (l !! Z.to_nat i).

(** [make([]byte, n)]. *)
Definition zeros (n : Z) : bytes := replicate (Z.to_nat n) 0.

(** [copy(dst, src)]: the bytes of [dst] afterwards. *)
Definition copy_into {A} (dst src : list A) : list A :=
  take (length dst) src ++ drop (length src) dst.

(** [copy(dst[off:], src)]. *)
Definition put {A} (dst : list A) (off : Z) (src : list A) : list A :=
  take (Z.to_nat off) dst ++ copy_into (drop (Z.to_nat off) dst) src.

Lemma len_nonneg {A} (l : list A) : 0 <= len l.
Proof. unfold len. lia. Qed.

Lemma len_app {A} (l k : list A) : len (l ++ k) = len l + len k.
Proof. unfold len. rewrite length_app. lia. Qed.

Lemma len_cons {A} (x : A) (l : list A) : len (x :: l) = 1 + len l.
Proof. unfold len. cbn [length]. lia. Qed.

Lemma len_nil {A} : len (@nil A) = 0.
Proof. done. Qed.

Lemma len_take {A} (l : list A) n : len (take n l) = Z.min (Z.of_nat n) (len l).
Proof. unfold len. rewrite length_take. lia. Qed.

Lemma len_drop {A} (l : list A) n : len (drop n l) = Z.max 0 (len l - Z.of_nat n).
Proof. unfold len. rewrite length_drop. lia. Qed.

Lemma len_zeros n : 0 <= n -> len (zeros n) = n.
Proof. intros. unfold len, zeros. rewrite length_replicate. lia. Qed.

Lemma len_0_nil {A} (l : list A) : len l = 0 -> l = [].
Proof. destruct l; [done|]. rewrite len_cons. pose proof (len_nonneg l). lia. Qed.

Lemma length_copy_into {A} (dst src : list A) :
  length (copy_into dst src) = length dst.
Proof. unfold copy_into. rewrite length_app, length_take, length_drop. lia. Qed.

Lemma len_copy_into {A} (dst src : list A) : len (copy_into dst src) = len dst.
Proof. unfold len. by rewrite length_copy_into. Qed.

Lemma length_put {A} (dst : list A) off src : length (put dst off src) = length dst.
Proof.
  unfold put. rewrite length_app, length_copy_into, length_take, length_drop. lia.
Qed.

Lemma len_put {A} (dst : list A) off src : len (put dst off src) = len dst.
Proof. unfold len. by rewrite length_put. Qed.

Lemma len_slice {A} (l : list A) a b :
  0 <= a <= b -> b <= len l -> len (slice l a b) = b - a.
Proof. unfold slice, len. intros. rewrite length_take, length_drop. lia. Qed.

Lemma copy_into_fit {A} (dst src : list A) :
  len src <= len dst -> copy_into dst src = src ++ drop (length src) dst.
Proof. unfold copy_into, len. intros. rewrite take_ge by lia. done. Qed.

Lemma slice_0 {A} (l : list A) b : slice l 0 b = take (Z.to_nat b) l.
Proof. unfold slice. by rewrite Z.sub_0_r. Qed.

Lemma slice_full {A} (l : list A) : slice l 0 (len l) = l.
Proof. rewrite slice_0. apply take_ge. unfold len. lia. Qed.

Lemma slice_app_l {A} (l k : list A) a b :
  0 <= a -> b <= len l -> slice (l ++ k) a b = slice l a b.
Proof.
  intros. unfold slice, len in *. destruct (decide (a <= b)).
  - rewrite drop_app_le by lia. rewrite take_app_le; [done|]. rewrite length_drop. lia.
  - replace (Z.to_nat (b - a)) with 0%nat by lia. done.
Qed.

Lemma slice_app_r {A} (l k : list A) a b :
  len l <= a -> slice (l ++ k) a b = slice k (a - len l) (b - len l).
Proof.
  intros. unfold slice, len in *. rewrite drop_app_ge by lia.
  f_equal; [|f_equal]; lia.
Qed.

Lemma slice_mid {A} (pre l post : list A) b : b = len pre + len l -> slice (pre ++ l ++ post) (len pre) b = l.
Proof.
  intros ->. rewrite slice_app_r by lia. replace (len pre - len pre) with 0 by lia.
  replace (len pre + len l - len pre) with (len l) by lia. rewrite slice_app_l by lia. apply slice_full.
Qed.

Lemma slice_cat {A} (l : list A) a b c :
  0 <= a <= b -> b <= c -> slice l a b ++ slice l b c = slice l a c.
Proof.
  intros. unfold slice.
  replace (Z.to_nat (c - a)) with (Z.to_nat (b - a) + Z.to_nat (c - b))%nat by lia.
  rewrite <- (take_take_drop (drop (Z.to_nat a) l)). f_equal. f_equal.
  rewrite drop_drop. f_equal. lia.
Qed.

Lemma slice_empty {A} (l : list A) a b : b <= a -> slice l a b = [].
Proof. intros. unfold slice. replace (Z.to_nat (b - a)) with 0%nat by lia. done. Qed.

(** Element-wise equality of lists built from [take], [drop], [++], [put] ... *)
Lemma lookup_app_if {A} (l k : list A) i :
  (l ++ k) !! i = if decide (i < length l)%nat then l !! i else k !! (i - length l)%nat.
Proof. case_decide; [by apply lookup_app_l|apply lookup_app_r; lia]. Qed.

Lemma lookup_take_if {A} (l : list A) n i :
  take n l !! i = if decide (i < n)%nat then l !! i else None.
Proof. case_decide; [by apply lookup_take_lt|apply lookup_take_ge; lia]. Qed.

Lemma lookup_replicate_if {A} (x : A) n i :
  replicate n x !! i = if decide (i < n)%nat then Some x else None.
Proof. case_decide; [by apply lookup_replicate_2|apply lookup_ge_None_2; rewrite length_replicate; lia]. Qed.

Lemma lookup_copy_into {A} (d s : list A) i :
  copy_into d s !! i = if decide (i < length d `min` length s)%nat then s !! i else d !! i.
Proof.
  unfold copy_into. rewrite lookup_app_if, length_take, lookup_take_if, lookup_drop.
  repeat case_decide; try (exfalso; lia); [done|].
  destruct (decide (i < length d)%nat); [f_equal; lia|].
  rewrite !lookup_ge_None_2 by lia. done.
Qed.

Lemma lookup_put {A} (d s : list A) off i :
  put d off s !! i =
    if decide (Z.to_nat off <= i < length d `min` (Z.to_nat off + length s))%nat
    then s !! (i - Z.to_nat off)%nat else d !! i.
Proof.
  unfold put. rewrite lookup_app_if, lookup_copy_into, lookup_take_if, lookup_drop,
    length_take, length_drop.
  repeat case_decide; try (exfalso; lia); try done; try (f_equal; lia).
  destruct (decide (i < length d)%nat); [f_equal; lia|].
  rewrite !lookup_ge_None_2 by lia. done.
Qed.

Lemma lookup_slice {A} (l : list A) a b i :
  slice l a b !! i = if decide (i < Z.to_nat (b - a))%nat then l !! (Z.to_nat a + i)%nat else None.
Proof. unfold slice. by rewrite lookup_take_if, lookup_drop. Qed.

Lemma lookup_zeros n i :
  zeros n !! i = if decide (i < Z.to_nat n)%nat then Some 0 else None.
Proof. apply lookup_replicate_if. Qed.

Lemma length_slice {A} (l : list A) a b :
  length (slice l a b) = (Z.to_nat (b - a) `min` (length l - Z.to_nat a))%nat.
Proof. unfold slice. by rewrite length_take, length_drop. Qed.

Lemma length_zeros n : length (zeros n) = Z.to_nat n.
Proof. apply length_replicate. Qed.

Ltac list_len :=
  unfold len in *;
  repeat (rewrite ?length_app, ?length_take, ?length_drop, ?length_replicate, ?length_nil,
    ?length_put, ?length_copy_into, ?length_slice, ?length_zeros in *);
  cbn [length] in *.

Ltac list_ext :=
  apply list_eq; intros ?i;
  repeat (rewrite lookup_app_if || rewrite lookup_take_if || rewrite lookup_drop ||
          rewrite lookup_put || rewrite lookup_copy_into || rewrite lookup_slice ||
          rewrite lookup_zeros || rewrite lookup_replicate_if || rewrite lookup_nil);
  list_len;
  repeat (case_decide; try (exfalso; lia));
  first [ done | exfalso; lia | f_equal; lia | apply lookup_ge_None_2; lia
        | symmetry; apply lookup_ge_None_2; lia
        | rewrite !lookup_ge_None_2 by lia; done
        | match goal with
          | |- ?l !! ?a = ?l !! ?b =>
              destruct (decide (a = b)); [f_equal; lia|rewrite !lookup_ge_None_2 by lia; done]
          end ].

Lemma slice_cut {A} (l : list A) n : 0 <= n <= len l -> l = slice l 0 n ++ slice l n (len l).
Proof. intros H. list_ext. Qed.

Lemma copy_into_nil {A} (dst : list A) : copy_into dst [] = dst.
Proof. list_ext. Qed.

Lemma copy_into_take {A} (p s : list A) k :
  copy_into (take k p) s ++ drop k p = copy_into p (take k s).
Proof. list_ext. Qed.

Lemma copy_into_exact {A} (p s : list A) : len p = len s -> copy_into p s = s.
Proof. intros. list_ext. Qed.

Lemma put_full {A} (l s : list A) : len s = len l -> put l 0 s = s.
Proof. intros. list_ext. Qed.

Lemma put_nil {A} (l : list A) off : put l off [] = l.
Proof. list_ext. Qed.

(** Two adjacent writes make one. *)
Lemma put_app {A} (l s t : list A) off :
  0 <= off -> off + len s + len t <= len l ->
  put (put l off s) (off + len s) t = put l off (s ++ t).
Proof. intros. list_ext. Qed.

Lemma slice_put_same {A} (l s : list A) off :
  0 <= off -> off + len s <= len l -> slice (put l off s) off (off + len s) = s.
Proof. intros. list_ext. Qed.

Lemma slice_put_out {A} (l s : list A) off a b :
  0 <= a -> 0 <= off -> off + len s <= a \/ b <= off -> slice (put l off s) a b = slice l a b.
Proof. intros. list_ext. Qed.

Lemma put_left {A} (a b d : list A) off :
  0 <= off -> off + len d <= len a -> put (a ++ b) off d = put a off d ++ b.
Proof. intros. list_ext. Qed.

Lemma put_right {A} (a b d : list A) off :
  len a <= off -> put (a ++ b) off d = a ++ put b (off - len a) d.
Proof. intros. list_ext. Qed.

Lemma split_at {A} (l : list A) n : 0 <= n <= len l -> exists a b, l = a ++ b /\ len a = n /\ len b = len l - n.
Proof.
  intros H. exists (take (Z.to_nat n) l), (drop (Z.to_nat n) l). rewrite take_drop, len_take, len_drop.
  split; [done|]. lia.
Qed.

Lemma put_field {A} (pre d e post : list A) : len d = len e -> put (pre ++ e ++ post) (len pre) d = pre ++ d ++ post.
Proof.
  intros Hd. rewrite put_right, Z.sub_diag by lia. rewrite put_left, put_full by lia. done.
Qed.

(** Writing within a slice that is put back is writing in the whole. *)
Lemma put_slice_put {A} (l d : list A) a n o :
  0 <= a -> 0 <= o -> o + len d <= n -> a + n <= len l ->
  put l a (put (slice l a (a + n)) o d) = put l (a + o) d.
Proof.
  intros Ha Ho Hd Hn. unfold len in *. apply list_eq. intros i.
  rewrite !lookup_put, lookup_slice, length_put, length_slice.
  replace (Z.to_nat (a + n - a) `min` (length l - Z.to_nat a))%nat with (Z.to_nat n) by lia.
  repeat (case_decide; try (exfalso; lia)); try done; f_equal; lia.
Qed.

Lemma put_slice_same {A} (l : list A) a b :
  0 <= a <= b -> b <= len l -> put l a (slice l a b) = l.
Proof. intros. list_ext. Qed.

Lemma slice_slice {A} (l : list A) a b c d :
  0 <= a -> 0 <= c -> a + d <= b -> slice (slice l a b) c d = slice l (a + c) (a + d).
Proof. intros. list_ext. Qed.

Lemma take_slice {A} (l : list A) a b k :
  0 <= k <= b - a -> take (Z.to_nat k) (slice l a b) = slice l a (a + k).
Proof. intros. list_ext. Qed.

Lemma drop_slice {A} (l : list A) a b k :
  0 <= a -> 0 <= k <= b - a -> drop (Z.to_nat k) (slice l a b) = slice l (a + k) b.
Proof. intros. list_ext. Qed.

Lemma Forall_filter_sub {A} (P Q : A -> Prop) `{!forall x, Decision (P x)} (l : list A) :
  Forall Q l -> Forall Q (filter P l).
Proof. rewrite !Forall_forall. intros HQ x. rewrite list_elem_of_filter. naive_solver. Qed.

(** For a symmetric relation, [StronglySorted] says that it holds between any
    two elements, in whatever order they are listed. *)
Lemma StronglySorted_perm {A} (R : A -> A -> Prop) (l k : list A) :
  (forall a b, R a b -> R b a) -> l ≡ₚ k -> StronglySorted R l -> StronglySorted R k.
Proof.
  intros Hsym Hp. induction Hp as [|a l k Hp IH|a b l|l k p Hp1 IH1 Hp2 IH2]; intros Hs; auto.
  - apply StronglySorted_inv in Hs as [Hs Ha]. constructor; [auto|]. by rewrite <- Hp.
  - apply StronglySorted_inv in Hs as [Hs Ha].
    apply StronglySorted_inv in Hs as [Hs Hb]. apply Forall_cons in Ha as [? ?].
    repeat constructor; auto.
Qed.

(** Sums of lengths, used for the byte counters of buffers and queues. *)
Definition sum_len {A} (ls : list (list A)) : Z := foldr (fun l n => len l + n) 0 ls.

Lemma sum_len_concat {A} (ls : list (list A)) : len (concat ls) = sum_len ls.
Proof. induction ls as [|l ls IH]; [done|]. cbn. rewrite len_app, IH. done. Qed.

Lemma sum_len_nil {A} : sum_len (@nil (list A)) = 0.
Proof. done. Qed.

Lemma sum_len_cons {A} (l : list A) ls : sum_len (l :: ls) = len l + sum_len ls.
Proof. done. Qed.

Lemma sum_len_nonneg {A} (ls : list (list A)) : 0 <= sum_len ls.
Proof. rewrite <- sum_len_concat. apply len_nonneg. Qed.

Lemma sum_len_app {A} (ls ks : list (list A)) :
  sum_len (ls ++ ks) = sum_len ls + sum_len ks.
Proof. rewrite <- !sum_len_concat, concat_app, len_app. done. Qed.

(** * sort.Search *)

(** The binary search of [sort.Search(n, f)]; [fuel] bounds the iterations. *)
Fixpoint searchLoop (fuel : nat) (f : Z -> bool) (i j : Z) : Z :=
  match fuel with
  | O => i
  | S fuel =>
      if i <? j then
        let h := (i + j) / 2 in
        if negb (f h) then searchLoop fuel f (h + 1) j else searchLoop fuel f i h
      else i
  end.

(** The interval at least halves, so [n] iterations are enough. *)
Definition sortSearch (n : Z) (f : Z -> bool) : Z := searchLoop (Z.to_nat n) f 0 n.

Definition monotone (n : Z) (f : Z -> bool) : Prop :=
  forall i j, 0 <= i <= j -> j < n -> f i = true -> f j = true.

Lemma searchLoop_spec fuel f n i j :
  monotone n f -> 0 <= i <= j -> j <= n -> j - i <= Z.of_nat fuel ->
  (forall k, 0 <= k < i -> f k = false) -> (forall k, j <= k < n -> f k = true) ->
  let r := searchLoop fuel f i j in
  i <= r <= j /\ (forall k, 0 <= k < r -> f k = false) /\ (forall k, r <= k < n -> f k = true).
Proof.
  intros Hmono. revert i j. induction fuel as [|fuel IH]; intros i j Hij Hjn Hf Hlo Hhi; cbn.
  { split_and!; try lia; auto. intros k Hk. apply Hhi. lia. }
  destruct (Z.ltb_spec i j) as [Hlt|Hge].
  2: { split_and!; try lia; auto. intros k Hk. apply Hhi. lia. }
  assert (Hh : i <= (i + j) / 2 < j) by dlia.
  destruct (f ((i + j) / 2)) eqn:Hfh; cbn.
  - destruct (IH i ((i + j) / 2)) as (? & ? & ?); try lia; auto.
    + intros k Hk. apply (Hmono ((i + j) / 2)); [lia..|done].
    + split_and!; try lia; auto.
  - destruct (IH ((i + j) / 2 + 1) j) as (? & ? & ?); try lia; auto.
    + intros k Hk. destruct (f k) eqn:Hk'; [|done].
      rewrite (Hmono k ((i + j) / 2)) in Hfh; [done|lia..|done].
    + split_and!; try lia; auto.
Qed.

(** On a monotone predicate the search returns the least index satisfying it. *)
Lemma sortSearch_spec n f :
  0 <= n -> monotone n f ->
  0 <= sortSearch n f <= n /\
  (forall k, 0 <= k < sortSearch n f -> f k = false) /\
  (forall k, sortSearch n f <= k < n -> f k = true).
Proof.
  intros Hn Hmono. unfold sortSearch.
  apply searchLoop_spec; try done; try lia; intros k Hk; lia.
Qed.

(** * encoding/binary *)

(** [le n v]: the [n]-byte little-endian encoding of [v], as written by
    [binary.LittleEndian.PutUint{16,32,64}]. *)
Fixpoint le (n : nat) (v : Z) : bytes :=
  match n with
  | O => []
  | S n => v mod 256 :: le n (v / 256)
  end.

(** [unle l]: [binary.LittleEndian.Uint{16,32,64}]. *)
Fixpoint unle (l : bytes) : Z :=
  match l with
  | [] => 0
  | b :: l => b + 256 * unle l
  end.

Definition be (n : nat) (v : Z) : bytes := rev (le n v).
Definition unbe (l : bytes) : Z := unle (rev l).

Lemma length_le n v : length (le n v) = n.
Proof. revert v; induction n; intros; cbn; auto. Qed.

Lemma length_be n v : length (be n v) = n.
Proof. unfold be. by rewrite length_rev, length_le. Qed.

Lemma len_le n v : len (le n v) = Z.of_nat n.
Proof. unfold len. by rewrite length_le. Qed.

Lemma len_be n v : len (be n v) = Z.of_nat n.
Proof. unfold len. by rewrite length_be. Qed.

Lemma le_is_bytes n v : is_bytes (le n v).
Proof.
  revert v; induction n; intros; constructor; [|apply IHn].
  pose proof (Z.mod_pos_bound v 256). width.
Qed.

Lemma be_is_bytes n v : is_bytes (be n v).
Proof. apply Forall_rev, le_is_bytes. Qed.

Lemma unle_le n v : unle (le n v) = wrap (8 * Z.of_nat n) v.
Proof.
  revert v; induction n as [|n IH]; intros; cbn [le unle].
  - unfold wrap. by rewrite Z.mod_1_r.
  - rewrite IH. unfold wrap.
    replace (8 * Z.of_nat (S n)) with (8 + 8 * Z.of_nat n) by lia.
    rewrite Z.pow_add_r by lia. change (2 ^ 8) with 256.
    rewrite Z.rem_mul_r by lia. done.
Qed.

Lemma unbe_be n v : unbe (be n v) = wrap (8 * Z.of_nat n) v.
Proof. unfold unbe, be. rewrite rev_involutive. apply unle_le. Qed.

Lemma unle_range l : is_bytes l -> in_width (8 * len l) (unle l).
Proof.
  unfold in_width. induction 1 as [|b l Hb Hl IH]; [done|].
  rewrite len_cons. cbn [unle].
  replace (8 * (1 + len l)) with (8 + 8 * len l) by lia.
  pose proof (len_nonneg l). rewrite Z.pow_add_r by lia.
  change (2 ^ 8) with 256. width.
Qed.

Lemma le_unle l : is_bytes l -> le (length l) (unle l) = l.
Proof.
  induction 1 as [|b l Hb Hl IH]; [done|]. cbn [length le unle].
  unfold in_width in Hb. change (2 ^ 8) with 256 in Hb.
  f_equal.
  - replace (b + 256 * unle l) with (b + unle l * 256) by lia.
    rewrite Z.mod_add by lia. apply Z.mod_small. lia.
  - replace (b + 256 * unle l) with (b + unle l * 256) by lia.
    rewrite Z.div_add by lia. rewrite Z.div_small by lia. done.
Qed.

Lemma be_unbe l : is_bytes l -> be (length l) (unbe l) = l.
Proof.
  intros H. unfold be, unbe. rewrite <- (length_rev l).
  rewrite le_unle; [apply rev_involutive | by apply Forall_rev].
Qed.

(** * Strings *)

(** The order of Go strings. *)
Fixpoint stringLess (a b : bytes) : bool :=
  match a, b with
  | _, [] => false
  | [], _ :: _ => true
  | x :: a, y :: b => (x <? y) || ((x =? y) && stringLess a b)
  end.

Definition stringLe (a b : bytes) : Prop := stringLess b a = false.
#[export] Instance stringLe_dec a b : Decision (stringLe a b) := decide (stringLess b a = false).

Lemma stringLess_irrefl a : stringLess a a = false.
Proof. induction a as [|x a IH]; cbn; [done|]. by rewrite Z.ltb_irrefl, Z.eqb_refl, IH. Qed.

Lemma stringLess_asym a : forall b, stringLess a b = true -> stringLess b a = false.
Proof.
  induction a as [|x a IH]; intros [|y b]; cbn; try done. specialize (IH b).
  destruct (Z.ltb_spec x y), (Z.eqb_spec x y), (Z.ltb_spec y x), (Z.eqb_spec y x); cbn; try lia; auto.
Qed.

#[export] Instance stringLe_total : Total stringLe.
Proof.
  intros a b. unfold stringLe. destruct (stringLess b a) eqn:E; [right|by left]. by apply stringLess_asym.
Qed.

Lemma stringLess_trans a : forall b c, stringLess a b = true -> stringLess b c = true -> stringLess a c = true.
Proof.
  induction a as [|x a IH]; intros [|y b] [|z c]; cbn; try done. specialize (IH b c).
  destruct (Z.ltb_spec x y), (Z.eqb_spec x y), (Z.ltb_spec y z), (Z.eqb_spec y z), (Z.ltb_spec x z), (Z.eqb_spec x z);
    cbn; try lia; auto.
Qed.

Lemma stringLess_tri a : forall b, stringLess a b = false -> stringLess b a = false -> a = b.
Proof.
  induction a as [|x a IH]; intros [|y b]; cbn; try done. specialize (IH b).
  destruct (Z.ltb_spec x y), (Z.eqb_spec x y), (Z.ltb_spec y x), (Z.eqb_spec y x); cbn; try lia; try done.
  subst. intros. f_equal. auto.
Qed.

#[export] Instance stringLe_trans : Transitive stringLe.
Proof.
  intros a b c. unfold stringLe. intros H1 H2. destruct (stringLess c a) eqn:E; [|done].
  destruct (stringLess a b) eqn:E1.
  - by rewrite (stringLess_trans c a b E E1) in H2.
  - by rewrite (stringLess_tri a b E1 H1) in E; rewrite E in H2.
Qed.

Lemma stringLe_strict a b : stringLe a b -> a <> b -> stringLess a b = true.
Proof. unfold stringLe. intros L N. destruct (stringLess a b) eqn:E; [done|]. by destruct N; apply stringLess_tri. Qed.

(** A list sorted by a total order on distinct keys is strictly sorted. *)
Lemma sorted_strict {A K} (f : A -> K) (R S : A -> A -> Prop) (l : list A) :
  (forall a b, R a b -> f a <> f b -> S a b) -> NoDup (f <$> l) -> StronglySorted R l -> StronglySorted S l.
Proof.
  intros HS. induction l as [|x l IH]; intros N D; [constructor|].
  apply NoDup_cons in N as [N1 N2]. apply StronglySorted_inv in D as [D1 D2].
  constructor; [by apply IH|]. apply Forall_forall. intros y Hy. apply HS.
  - by eapply Forall_forall in D2.
  - intros E. apply N1. rewrite E. by apply list_elem_of_fmap_2.
Qed.

#[global] Arguments len : simpl never.
#[global] Arguments sum_len : simpl never.
#[global] Arguments slice : simpl never.
#[global] Arguments put : simpl never.
#[global] Arguments copy_into : simpl never.
#[global] Arguments zeros : simpl never.
#[global] Arguments wrap : simpl never.
#[global] Arguments swrap : simpl never.
#[global] Arguments hasbits : simpl never.
#[global] Arguments le : simpl never.
#[global] Arguments be : simpl never.
#[global] Arguments unle : simpl never.
#[global] Arguments unbe : simpl never.

Create Rewrite HintDb len.
#[export] Hint Rewrite @sum_len_cons @len_app @len_cons @len_nil @len_take @len_drop
  @len_copy_into @len_put len_le len_be : len.
