(* ===== verification/FileLocks.v ===== *)
(** Advisory byte-range locks of the FUSE server:
    [src/internal/core/virtio/fs_locks.go].

    [fuseLockManager] keeps the list of held ranges; [set] splits, sorts and
    merges that list.  The file gives the abstract meaning of a lock table
    ([holds]: which owner holds which byte, and how), proves that [set],
    [releaseOwner] and [close] implement the abstract updates, that no two
    owners ever hold conflicting locks, and that no waiter of [F_SETLKW] is left
    asleep while its lock could be granted. *)

From S2P Require Import Prelude.

(** * Data *)

Abbreviation linuxFRdLck := 0%Z.
Abbreviation linuxFWrLck := 1%Z.
Abbreviation linuxFUnlck := 2%Z.
Abbreviation linuxEINTR := 4%Z.
Abbreviation linuxEAGAIN := 11%Z.
Abbreviation linuxEINVAL := 22%Z.

Record fuseFileLock := mkLock {
  nodeID : Z;
  owner : Z;
  start : Z;
  end_ : Z;
  typeID : Z;
  pid : Z;
}.
#[export] Instance eta_fuseFileLock : Eta fuseFileLock := fun l =>
  mkLock (nodeID l) (owner l) (start l) (end_ l) (typeID l) (pid l).

Record fuseLockManager := mkManager {
  locks : list fuseFileLock;
  closed : bool;
}.
#[export] Instance eta_fuseLockManager : Eta fuseLockManager := fun m =>
  mkManager (locks m) (closed m).

(** * Operations *)

Definition newFuseLockManager : fuseLockManager := mkManager [] false.

Definition validFuseLockRange (request : fuseFileLock) : bool :=
  start request <=? end_ request.

Definition validFuseGetLock (request : fuseFileLock) : bool :=
  validFuseLockRange request &&
  ((typeID request =? linuxFRdLck) || (typeID request =? linuxFWrLck)).

Definition lockRangesOverlap (left right : fuseFileLock) : bool :=
  (start left <=? end_ right) && (start right <=? end_ left).

(** The test the loop of [conflictLocked] makes of one held lock. *)
Definition conflictsWith (request held : fuseFileLock) : bool :=
  if negb (nodeID held =? nodeID request) || (owner held =? owner request)
     || negb (lockRangesOverlap held request)
  then false
  else (typeID held =? linuxFWrLck) || (typeID request =? linuxFWrLck).

Fixpoint conflictLocked (held : list fuseFileLock) (request : fuseFileLock)
  : option fuseFileLock :=
  match held with
  | [] => None
  | h :: held => if conflictsWith request h then Some h else conflictLocked held request
  end.

Definition get (m : fuseLockManager) (request : fuseFileLock) : option fuseFileLock :=
  conflictLocked (locks m) request.

(** What the rebuild loop of [replaceOwnerRangeLocked] keeps of one held lock. *)
Definition splitHeld (request held : fuseFileLock) : list fuseFileLock :=
  if negb (nodeID held =? nodeID request) || negb (owner held =? owner request)
     || negb (lockRangesOverlap held request)
  then [held]
  else
    (if start held <? start request
     then [held <| end_ := u64 (start request - 1) |>] else []) ++
    (if negb (end_ request =? 2 ^ 64 - 1) && (end_ request <? end_ held)
     then [held <| start := u64 (end_ request + 1) |>] else []).

Definition rebuilt (held : list fuseFileLock) (request : fuseFileLock)
  : list fuseFileLock :=
  flat_map (splitHeld request) held ++
  (if negb (typeID request =? linuxFUnlck) then [request] else []).

(** The ordering handed to [sort.Slice], read as "not greater". *)
Definition lockLess (a b : fuseFileLock) : bool :=
  if negb (nodeID a =? nodeID b) then nodeID a <? nodeID b
  else if negb (owner a =? owner b) then owner a <? owner b
  else start a <? start b.
Definition lockLe (a b : fuseFileLock) : Prop := lockLess b a = false.
#[export] Instance lockLe_dec a b : Decision (lockLe a b).
Proof. unfold lockLe. apply _. Defined.

Definition sortLocks : list fuseFileLock -> list fuseFileLock := merge_sort lockLe.

Definition mergeable (previous lock : fuseFileLock) : bool :=
  let adjacent := (end_ previous =? 2 ^ 64 - 1)
                  || (start lock <=? u64 (end_ previous + 1)) in
  (nodeID previous =? nodeID lock) && (owner previous =? owner lock)
  && (typeID previous =? typeID lock) && adjacent.

Definition extend (previous lock : fuseFileLock) : fuseFileLock :=
  if end_ previous <? end_ lock then previous <| end_ := end_ lock |> else previous.

(** The merge loop; [previous] is the last element of [merged]. *)
Fixpoint mergeFrom (previous : fuseFileLock) (rest : list fuseFileLock)
  : list fuseFileLock :=
  match rest with
  | [] => [previous]
  | lock :: rest =>
      if mergeable previous lock then mergeFrom (extend previous lock) rest
      else previous :: mergeFrom lock rest
  end.

Definition mergeLocks (l : list fuseFileLock) : list fuseFileLock :=
  match l with
  | [] => []
  | lock :: rest => mergeFrom lock rest
  end.

Definition replaceOwnerRangeLocked (m : fuseLockManager) (request : fuseFileLock)
  : fuseLockManager :=
  m <| locks := mergeLocks (sortLocks (rebuilt (locks m) request)) |>.

(** [set] returns an errno, or releases the mutex and sleeps on the condition
    variable.  [SetReturn c m' b]: code, manager, and whether it broadcast. *)
Inductive setOutcome :=
| SetReturn (code : Z) (m : fuseLockManager) (broadcast : bool)
| SetWait.

(** From the head of the [for] loop on: what a woken waiter runs again. *)
Definition setLoop (m : fuseLockManager) (request : fuseFileLock) (wait : bool)
  : setOutcome :=
  let grant :=
    if closed m then SetReturn (- linuxEINTR) m false
    else SetReturn 0 (replaceOwnerRangeLocked m request) true in
  if typeID request =? linuxFUnlck then grant
  else match conflictLocked (locks m) request with
       | None => grant
       | Some _ =>
           if negb wait then SetReturn (- linuxEAGAIN) m false
           else if closed m then SetReturn (- linuxEINTR) m false
           else SetWait
       end.

Definition set (m : fuseLockManager) (request : fuseFileLock) (wait : bool)
  : setOutcome :=
  if negb (validFuseLockRange request)
     || (negb (typeID request =? linuxFRdLck) && negb (typeID request =? linuxFWrLck)
         && negb (typeID request =? linuxFUnlck))
  then SetReturn (- linuxEINVAL) m false
  else setLoop m request wait.

Definition releaseOwner (m : fuseLockManager) (node own : Z) : fuseLockManager :=
  m <| locks := filter (fun lock => negb (nodeID lock =? node) || negb (owner lock =? own))
                  (locks m) |>.

Definition close (m : fuseLockManager) : fuseLockManager :=
  m <| closed := true |> <| locks := [] |>.

(** * The abstract lock table *)

Definition covers (l : fuseFileLock) (n o x : Z) : Prop :=
  nodeID l = n /\ owner l = o /\ start l <= x <= end_ l.

(** Owner [o] holds byte [x] of file [n] with a lock of type [t]. *)
Definition holds (ls : list fuseFileLock) (n o x t : Z) : Prop :=
  exists l, l ∈ ls /\ covers l n o x /\ typeID l = t.

(** A request or a held lock with machine-width fields and a non-empty range. *)
Definition lock_ok (l : fuseFileLock) : Prop :=
  is_u64 (start l) /\ is_u64 (end_ l) /\ start l <= end_ l /\
  (typeID l = linuxFRdLck \/ typeID l = linuxFWrLck).

Definition request_ok (l : fuseFileLock) : Prop :=
  is_u64 (start l) /\ is_u64 (end_ l) /\ start l <= end_ l /\
  (typeID l = linuxFRdLck \/ typeID l = linuxFWrLck \/ typeID l = linuxFUnlck).

(** Two held ranges never cover the same byte for the same owner. *)
Definition apart (a b : fuseFileLock) : Prop :=
  forall n o x, covers a n o x -> covers b n o x -> False.

Definition table_ok (ls : list fuseFileLock) : Prop :=
  Forall lock_ok ls /\ StronglySorted apart ls.

(** POSIX exclusion: owners that share a byte all hold read locks. *)
Definition exclusive (ls : list fuseFileLock) : Prop :=
  forall n x o1 o2 t1 t2,
    holds ls n o1 x t1 -> holds ls n o2 x t2 -> o1 <> o2 ->
    t1 = linuxFRdLck /\ t2 = linuxFRdLck.

(** * Coverage lemmas *)

Lemma holds_app ls ks n o x t : holds (ls ++ ks) n o x t <-> holds ls n o x t \/ holds ks n o x t.
Proof. unfold holds. set_solver. Qed.

Lemma holds_cons l ls n o x t :
  holds (l :: ls) n o x t <-> (covers l n o x /\ typeID l = t) \/ holds ls n o x t.
Proof. unfold holds. set_solver. Qed.

Lemma holds_nil n o x t : holds [] n o x t <-> False.
Proof. unfold holds. set_solver. Qed.

Lemma holds_perm ls ks n o x t : ls ≡ₚ ks -> holds ls n o x t <-> holds ks n o x t.
Proof. intros Hp. unfold holds. by setoid_rewrite Hp. Qed.

Lemma splitHeld_ok req h :
  lock_ok h -> request_ok req -> Forall lock_ok (splitHeld req h).
Proof.
  intros (Hs & He & Hse & Ht) (Hrs & Hre & Hrse & _).
  unfold splitHeld, lockRangesOverlap. repeat case_match; cbn;
  repeat first [apply Forall_nil_2 | apply Forall_cons_2]; unfold lock_ok; cbn;
  rewrite ?wrap_small by width; width.
Qed.

(** The pieces of a held lock are what the request leaves of it. *)
Lemma splitHeld_covers req h n o x t :
  lock_ok h -> request_ok req ->
  holds (splitHeld req h) n o x t <->
  covers h n o x /\ typeID h = t /\ ~ covers req n o x.
Proof.
  intros (Hs & He & Hse & Ht) (Hrs & Hre & Hrse & _).
  unfold splitHeld, lockRangesOverlap.
  repeat case_match; cbn; rewrite ?holds_cons, holds_nil; unfold covers; cbn;
  rewrite ?wrap_small by width; width.
Qed.

Lemma holds_rebuilt ls req n o x t :
  Forall lock_ok ls -> request_ok req ->
  holds (rebuilt ls req) n o x t <->
  (holds ls n o x t /\ ~ covers req n o x) \/
  (covers req n o x /\ typeID req = t /\ typeID req <> linuxFUnlck).
Proof.
  intros Hls Hreq. unfold rebuilt. rewrite holds_app.
  assert (Hflat : holds (flat_map (splitHeld req) ls) n o x t <->
                  holds ls n o x t /\ ~ covers req n o x).
  { induction Hls as [|h ls Hh Hls IH]; cbn.
    - pose proof (holds_nil n o x t). tauto.
    - rewrite holds_app, IH, holds_cons, splitHeld_covers by done. tauto. }
  rewrite Hflat. pose proof (holds_nil n o x t).
  destruct (Z.eqb_spec (typeID req) linuxFUnlck); cbn;
  rewrite ?holds_cons; tauto.
Qed.

Lemma rebuilt_ok ls req :
  Forall lock_ok ls -> request_ok req -> Forall lock_ok (rebuilt ls req).
Proof.
  intros Hls Hreq. unfold rebuilt. apply Forall_app. split.
  - induction Hls; cbn; [constructor|]. apply Forall_app. auto using splitHeld_ok.
  - destruct (Z.eqb_spec (typeID req) linuxFUnlck); cbn; [constructor|].
    constructor; [|constructor]. unfold lock_ok, request_ok in *. tauto.
Qed.

(** * Disjointness *)

Lemma apart_sym a b : apart a b -> apart b a.
Proof. unfold apart. eauto. Qed.

(** Replacing locks by parts of themselves keeps them disjoint. *)
Definition within (a b : fuseFileLock) : Prop :=
  forall n o x, covers a n o x -> covers b n o x.

Lemma apart_within a a' b b' : within a' a -> within b' b -> apart a b -> apart a' b'.
Proof. unfold within, apart. eauto. Qed.

Lemma splitHeld_apart req h :
  lock_ok h -> request_ok req -> StronglySorted apart (splitHeld req h).
Proof.
  intros (Hs & He & Hse & _) (Hrs & Hre & Hrse & _).
  unfold splitHeld, lockRangesOverlap. repeat case_match; cbn; repeat constructor.
  intros ? ? ? (? & ? & ?) (? & ? & ?). cbn in *.
  rewrite wrap_small in * by width. width.
Qed.

Lemma sorted_apart_app ls ks :
  StronglySorted apart ls -> StronglySorted apart ks ->
  (forall a b, a ∈ ls -> b ∈ ks -> apart a b) -> StronglySorted apart (ls ++ ks).
Proof.
  intros. apply StronglySorted_app_2; [|done|done]. eauto.
Qed.

Lemma rebuilt_apart ls req :
  table_ok ls -> request_ok req -> StronglySorted apart (rebuilt ls req).
Proof.
  intros [Hok Hs] Hreq. unfold rebuilt. apply sorted_apart_app.
  - induction Hs as [|h ls Hs IH Hh]; [constructor|]. cbn.
    apply Forall_cons in Hok as [Hhok Hok].
    apply sorted_apart_app; [by apply splitHeld_apart|auto|].
    intros a b Ha Hb. apply list_elem_of_In, in_flat_map in Hb as (h' & Hh' & Hb).
    apply list_elem_of_In in Hh', Hb.
    rewrite Forall_forall in Hh, Hok. specialize (Hh h' Hh'). specialize (Hok h' Hh').
    apply (apart_within h a h' b); [| |done].
    + intros n o x Hx. apply (splitHeld_covers req h n o x (typeID a)); [done..|].
      exists a; auto.
    + intros n o x Hx. apply (splitHeld_covers req h' n o x (typeID b)); [done..|].
      exists b; auto.
  - case_match; repeat constructor.
  - intros a b Ha Hb. case_match; [|set_solver].
    apply list_elem_of_singleton in Hb as ->.
    apply list_elem_of_In, in_flat_map in Ha as (h & Hh & Ha).
    apply list_elem_of_In in Hh, Ha. rewrite Forall_forall in Hok.
    intros n o x Hx Hy.
    apply (splitHeld_covers req h n o x (typeID a)) in Hy; auto.
    exists a; auto.
Qed.

(** * Sorting and merging *)

#[export] Instance lockLe_total : Total lockLe.
Proof. intros a b. unfold lockLe, lockLess. repeat case_match; lia. Qed.

#[export] Instance lockLe_trans : Transitive lockLe.
Proof. intros a b c. unfold lockLe, lockLess. repeat case_match; lia. Qed.

Lemma sortLocks_perm ls : sortLocks ls ≡ₚ ls.
Proof. apply merge_sort_Permutation. Qed.

Lemma sortLocks_sorted ls : StronglySorted lockLe (sortLocks ls).
Proof. apply StronglySorted_merge_sort; apply _. Qed.

Lemma extend_ok p l : lock_ok p -> lock_ok l -> lock_ok (extend p l).
Proof. unfold lock_ok, extend. intros. case_match; cbn; width. Qed.

Lemma extend_type p l : typeID (extend p l) = typeID p.
Proof. unfold extend. by case_match. Qed.

Lemma lockLe_extend p l q : lockLe (extend p l) q <-> lockLe p q.
Proof. unfold extend, lockLe, lockLess. by destruct (end_ p <? end_ l). Qed.

Lemma extend_covers p l n o x :
  lock_ok p -> lock_ok l -> lockLe p l -> mergeable p l = true ->
  covers (extend p l) n o x <-> covers p n o x \/ covers l n o x.
Proof.
  unfold lock_ok, lockLe, lockLess, mergeable, extend, covers, wrap.
  intros Hp Hl Hle Hm. width. repeat case_match; cbn; try lia;
  (destruct (Z.eqb_spec (end_ p) (2 ^ 64 - 1)); [width|]);
  rewrite Z.mod_small in Hm by width; lia.
Qed.

Lemma mergeFrom_holds rest p n o x t :
  Forall lock_ok (p :: rest) -> StronglySorted lockLe (p :: rest) ->
  holds (mergeFrom p rest) n o x t <-> holds (p :: rest) n o x t.
Proof.
  revert p. induction rest as [|l rest IH]; intros p Hok Hs; [done|]. cbn.
  apply Forall_cons in Hok as [Hp Hok]. apply Forall_cons in Hok as [Hl Hok].
  apply StronglySorted_inv in Hs as [Hs Hle]. apply Forall_cons in Hle as [Hpl Hle].
  pose proof (StronglySorted_inv Hs) as [Hs' Hle'].
  destruct (mergeable p l) eqn:Hm.
  - rewrite IH.
    + rewrite !holds_cons, extend_covers, extend_type by done.
      assert (typeID p = typeID l) by (unfold mergeable in Hm; lia). naive_solver.
    + auto using Forall_cons_2, extend_ok.
    + constructor; [done|]. eapply Forall_impl; [exact Hle|].
      intros. by apply lockLe_extend.
  - rewrite holds_cons, IH, <- holds_cons by (constructor; done). done.
Qed.

Lemma mergeFrom_ok rest p : Forall lock_ok (p :: rest) -> Forall lock_ok (mergeFrom p rest).
Proof.
  revert p. induction rest as [|l rest IH]; intros p Hok; [done|]. cbn.
  apply Forall_cons in Hok as [Hp Hok]. apply Forall_cons in Hok as [Hl Hok].
  destruct (mergeable p l); [apply IH|]; constructor; auto using extend_ok.
Qed.

(** [apart] from every lock of a list is a fact about the bytes it covers. *)
Lemma apart_all p ls :
  Forall (apart p) ls <-> forall n o x t, covers p n o x -> ~ holds ls n o x t.
Proof.
  rewrite Forall_forall. split.
  - intros H n o x t Hp (l & Hl & Hc & _). eapply H; eauto.
  - intros H l Hl n o x Hp Hc. apply (H n o x (typeID l) Hp). exists l; auto.
Qed.

Lemma mergeFrom_apart rest p :
  Forall lock_ok (p :: rest) -> StronglySorted lockLe (p :: rest) ->
  StronglySorted apart (p :: rest) -> StronglySorted apart (mergeFrom p rest).
Proof.
  revert p. induction rest as [|l rest IH]; intros p Hok Hs Ha; [done|]. cbn.
  apply Forall_cons in Hok as [Hp Hok].
  pose proof Hok as Hok'. apply Forall_cons in Hok' as [Hl Hok'].
  apply StronglySorted_inv in Hs as [Hs Hle]. apply Forall_cons in Hle as [Hpl Hle].
  apply StronglySorted_inv in Ha as [Ha Hap].
  destruct (mergeable p l) eqn:Hm.
  - apply StronglySorted_inv in Hs as [Hs Hle'].
    apply StronglySorted_inv in Ha as [Ha Hal]. apply Forall_cons in Hap as [_ Hap].
    apply IH; constructor; auto using extend_ok.
    + eapply Forall_impl; [exact Hle|]. intros. by apply lockLe_extend.
    + rewrite apart_all in *. intros n o x t.
      rewrite extend_covers by done. naive_solver.
  - constructor; [by apply IH|]. rewrite apart_all in *.
    intros n o x t Hx. rewrite mergeFrom_holds by done. eauto.
Qed.

Lemma mergeLocks_spec ls :
  Forall lock_ok ls -> StronglySorted lockLe ls -> StronglySorted apart ls ->
  table_ok (mergeLocks ls) /\
  forall n o x t, holds (mergeLocks ls) n o x t <-> holds ls n o x t.
Proof.
  destruct ls as [|p rest]; cbn; [repeat split; auto|]. intros. split; [split|].
  - by apply mergeFrom_ok.
  - by apply mergeFrom_apart.
  - intros. by apply mergeFrom_holds.
Qed.

(** The rebuilt table: well formed, with exactly the bytes of the request
    replaced for the requesting owner. *)
Lemma replaceOwnerRange_spec m req :
  table_ok (locks m) -> request_ok req ->
  let m' := replaceOwnerRangeLocked m req in
  table_ok (locks m') /\ closed m' = closed m /\
  forall n o x t, holds (locks m') n o x t <->
    (holds (locks m) n o x t /\ ~ covers req n o x) \/
    (covers req n o x /\ typeID req = t /\ typeID req <> linuxFUnlck).
Proof.
  intros Htab Hreq. cbn. pose proof Htab as [Hok _].
  destruct (mergeLocks_spec (sortLocks (rebuilt (locks m) req))) as [Ht Hh].
  - rewrite sortLocks_perm. by apply rebuilt_ok.
  - apply sortLocks_sorted.
  - eapply StronglySorted_perm; [apply apart_sym|symmetry; apply sortLocks_perm|]. by apply rebuilt_apart.
  - split; [done|]. split; [done|]. intros.
    rewrite Hh, (holds_perm _ _ _ _ _ _ (sortLocks_perm _)). by apply holds_rebuilt.
Qed.

(** * Conflicts *)

Lemma conflictLocked_None ls req :
  conflictLocked ls req = None <-> Forall (fun h => conflictsWith req h = false) ls.
Proof.
  induction ls as [|h ls IH]; cbn; [by split|].
  rewrite Forall_cons. case_match; [|tauto]. split; [done|]. naive_solver.
Qed.

Lemma conflictLocked_Some ls req h :
  conflictLocked ls req = Some h -> h ∈ ls /\ conflictsWith req h = true.
Proof.
  induction ls as [|k ls IH]; cbn; [done|]. case_match; [|set_solver].
  intros [= ->]. split; [left|done].
Qed.

(** A held lock conflicts exactly when some byte is shared with another owner
    and one of the two locks is a write lock. *)
Lemma conflictsWith_iff req h :
  lock_ok h -> request_ok req ->
  conflictsWith req h = true <->
  (exists x, covers h (nodeID req) (owner h) x /\ covers req (nodeID req) (owner req) x) /\
  owner h <> owner req /\ (typeID h = linuxFWrLck \/ typeID req = linuxFWrLck).
Proof.
  intros Hh Hr. unfold lock_ok, request_ok in *. unfold conflictsWith, lockRangesOverlap, covers.
  split.
  - intros Hc. split.
    + exists (Z.max (start h) (start req)). case_match; [done|]. lia.
    + case_match; [done|]. lia.
  - intros [(x & Hx & Hy) Ht]. case_match; lia.
Qed.

(** In terms of the abstract table. *)
Lemma conflict_iff ls req :
  Forall lock_ok ls -> request_ok req ->
  conflictLocked ls req <> None <->
  exists x o t, holds ls (nodeID req) o x t /\ start req <= x <= end_ req /\
    o <> owner req /\ (t = linuxFWrLck \/ typeID req = linuxFWrLck).
Proof.
  intros Hok Hreq. rewrite Forall_forall in Hok. split.
  - intros Hc. destruct (conflictLocked ls req) as [h|] eqn:Hf; [|done].
    apply conflictLocked_Some in Hf as [Hin Hf].
    apply conflictsWith_iff in Hf as ((x & Hx & Hy) & Hne & Ht); auto.
    exists x, (owner h), (typeID h). split; [by exists h|].
    unfold covers in Hy. tauto.
  - intros (x & o & t & (h & Hin & Hc & <-) & Hx & Hne & Ht) Hnone.
    rewrite conflictLocked_None, Forall_forall in Hnone. specialize (Hnone h Hin).
    apply not_true_iff_false in Hnone. apply Hnone, conflictsWith_iff; auto.
    destruct Hc as (Hn & <- & Hr). split; [|done]. exists x. by unfold covers.
Qed.

(** * The manager with its sleeping callers *)

(** [parked]: requests asleep in [cond.Wait]; [woken]: requests a broadcast has
    made runnable and that have not taken the mutex again. *)
Record lockSystem := mkSystem {
  manager : fuseLockManager;
  parked : list fuseFileLock;
  woken : list fuseFileLock;
}.

Definition wake (b : bool) (s : lockSystem) : lockSystem :=
  if b then mkSystem (manager s) [] (woken s ++ parked s) else s.

Definition request_widths (req : fuseFileLock) : Prop :=
  is_u64 (start req) /\ is_u64 (end_ req).

(** One critical section of the mutex. *)
Inductive lockStep : lockSystem -> lockSystem -> Prop :=
| step_set m p w req wait c m' b :
    request_widths req -> set m req wait = SetReturn c m' b ->
    lockStep (mkSystem m p w) (wake b (mkSystem m' p w))
| step_set_sleep m p w req :
    request_widths req -> set m req true = SetWait ->
    lockStep (mkSystem m p w) (mkSystem m (req :: p) w)
| step_resume m p w1 w2 req c m' b :
    setLoop m req true = SetReturn c m' b ->
    lockStep (mkSystem m p (w1 ++ req :: w2)) (wake b (mkSystem m' p (w1 ++ w2)))
| step_resume_sleep m p w1 w2 req :
    setLoop m req true = SetWait ->
    lockStep (mkSystem m p (w1 ++ req :: w2)) (mkSystem m (req :: p) (w1 ++ w2))
| step_release m p w node own :
    lockStep (mkSystem m p w) (wake true (mkSystem (releaseOwner m node own) p w))
| step_close m p w :
    lockStep (mkSystem m p w) (wake true (mkSystem (close m) p w)).

Inductive lockReachable : lockSystem -> Prop :=
| reach_new : lockReachable (mkSystem newFuseLockManager [] [])
| reach_step s s' : lockReachable s -> lockStep s s' -> lockReachable s'.

(** * What [set] does, branch by branch *)

Lemma set_request_ok m req wait :
  request_widths req ->
  (request_ok req /\ set m req wait = setLoop m req wait) \/
  (~ request_ok req /\ set m req wait = SetReturn (- linuxEINVAL) m false).
Proof.
  unfold request_widths, request_ok, set, validFuseLockRange. intros [Hs He].
  case_match; [right|left]; (split; [width|done]).
Qed.

(** The abstract update a granted request makes. *)
Definition updated (ls ls' : list fuseFileLock) (req : fuseFileLock) : Prop :=
  forall n o x t, holds ls' n o x t <->
    (holds ls n o x t /\ ~ covers req n o x) \/
    (covers req n o x /\ typeID req = t /\ typeID req <> linuxFUnlck).

Definition blocked (m : fuseLockManager) (req : fuseFileLock) : Prop :=
  typeID req <> linuxFUnlck /\ conflictLocked (locks m) req <> None.

Lemma setLoop_cases m req wait :
  table_ok (locks m) -> request_ok req ->
  match setLoop m req wait with
  | SetReturn c m' b =>
      (c = 0 /\ b = true /\ closed m = false /\ ~ blocked m req /\
       table_ok (locks m') /\ closed m' = false /\ updated (locks m) (locks m') req) \/
      (c = - linuxEAGAIN /\ b = false /\ m' = m /\ wait = false /\ blocked m req) \/
      (c = - linuxEINTR /\ b = false /\ m' = m /\ closed m = true)
  | SetWait => wait = true /\ closed m = false /\ blocked m req
  end.
Proof.
  intros Htab Hreq. pose proof (replaceOwnerRange_spec m req Htab Hreq) as Hr.
  unfold setLoop, blocked, updated. cbn zeta in Hr.
  destruct (Z.eqb_spec (typeID req) linuxFUnlck);
  destruct (conflictLocked (locks m) req) eqn:Hc;
  destruct (closed m) eqn:Hcl; destruct wait; cbn;
  intuition congruence.
Qed.

(** What an exclusive table grants stays exclusive. *)
Lemma updated_exclusive m m' req :
  table_ok (locks m) -> request_ok req -> ~ blocked m req ->
  exclusive (locks m) -> updated (locks m) (locks m') req -> exclusive (locks m').
Proof.
  intros [Hok _] Hreq Hnb Hex Hu n x o1 o2 t1 t2 H1 H2 Hne.
  apply Hu in H1, H2.
  assert (Hfree : forall o t, holds (locks m) n o x t -> covers req n (owner req) x ->
            o <> owner req -> typeID req <> linuxFUnlck ->
            t = linuxFRdLck /\ typeID req = linuxFRdLck).
  { intros o t Hh (Hn & _ & Hx) Ho Htu.
    assert (Hnc : ~ (t = linuxFWrLck \/ typeID req = linuxFWrLck)).
    { intros Hw. apply Hnb. split; [done|]. apply conflict_iff; [done..|].
      exists x, o, t. by rewrite Hn. }
    destruct Hh as (h & Hin & _ & <-). rewrite Forall_forall in Hok.
    specialize (Hok h Hin). unfold lock_ok, request_ok in *. tauto. }
  unfold covers in *.
  destruct H1 as [[H1 _]|((? & <- & ?) & <- & ?)];
  destruct H2 as [[H2 _]|((? & <- & ?) & <- & ?)]; [eauto| | |done].
  - destruct (Hfree o1 t1); auto.
  - destruct (Hfree o2 t2); auto.
Qed.

Lemma holds_filter P `{forall l, Decision (P l)} ls n o x t :
  holds (filter P ls) n o x t <-> exists l, l ∈ ls /\ P l /\ covers l n o x /\ typeID l = t.
Proof. unfold holds. setoid_rewrite list_elem_of_filter. naive_solver. Qed.

Lemma releaseOwner_holds m node own n o x t :
  holds (locks (releaseOwner m node own)) n o x t <->
  holds (locks m) n o x t /\ ~ (n = node /\ o = own).
Proof.
  cbn. rewrite holds_filter. unfold holds, covers. split.
  - intros (l & Hl & HP & Hc & Ht). split; [eauto|]. apply Is_true_true in HP. lia.
  - intros [(l & Hl & Hc & Ht) Hn]. exists l. repeat split; try tauto.
    apply Is_true_true. lia.
Qed.

Lemma releaseOwner_table m node own :
  table_ok (locks m) -> table_ok (locks (releaseOwner m node own)).
Proof.
  intros [Hok Hs]. split; cbn.
  - by apply Forall_filter_sub.
  - induction Hs as [|l ls Hs IH Hl]; [constructor|]. apply Forall_cons in Hok as [_ Hok].
    rewrite filter_cons. case_decide; [|auto]. constructor; [auto|].
    by apply Forall_filter_sub.
Qed.

(** * System invariant *)

Definition system_ok (s : lockSystem) : Prop :=
  table_ok (locks (manager s)) /\ exclusive (locks (manager s)) /\
  Forall request_ok (parked s) /\ Forall request_ok (woken s) /\
  Forall (fun req => closed (manager s) = false /\ blocked (manager s) req) (parked s).

Lemma wake_ok b m m' p w :
  table_ok (locks m') -> exclusive (locks m') ->
  Forall request_ok p -> Forall request_ok w ->
  (b = false -> m' = m) ->
  Forall (fun req => closed m = false /\ blocked m req) p ->
  system_ok (wake b (mkSystem m' p w)).
Proof.
  intros. destruct b; unfold system_ok; cbn.
  - split_and!; auto. by apply Forall_app.
  - rewrite H3 in * by done. done.
Qed.

Lemma setLoop_preserves m p w req wait c m' b :
  system_ok (mkSystem m p w) -> request_ok req ->
  setLoop m req wait = SetReturn c m' b -> system_ok (wake b (mkSystem m' p w)).
Proof.
  intros (Htab & Hex & Hp & Hw & Hpk) Hreq Hset. cbn in *.
  pose proof (setLoop_cases m req wait Htab Hreq) as Hc. rewrite Hset in Hc.
  destruct Hc as [(-> & -> & ? & ? & ? & ? & ?)|[(-> & -> & -> & _)|(-> & -> & -> & _)]];
  apply (wake_ok _ m); eauto using updated_exclusive; done.
Qed.

Lemma lockStep_preserves s s' : system_ok s -> lockStep s s' -> system_ok s'.
Proof.
  intros Hs Hstep. destruct Hstep as
    [m p w req wait c m' b Hr Hset | m p w req Hr Hset
    |m p w1 w2 req c m' b Hset |m p w1 w2 req Hset | m p w node own | m p w].
  - destruct (set_request_ok m req wait Hr) as [[Hok He]|[_ He]]; rewrite He in Hset.
    + eauto using setLoop_preserves.
    + injection Hset as <- <- <-. done.
  - destruct (set_request_ok m req true Hr) as [[Hok He]|[_ He]]; rewrite He in Hset;
    [|done]. destruct Hs as (Htab & Hex & Hp & Hw & Hpk). cbn in Htab, Hex, Hp, Hw, Hpk.
    pose proof (setLoop_cases m req true Htab Hok) as Hc. rewrite Hset in Hc.
    split_and!; cbn; auto; constructor; tauto.
  - destruct Hs as (Htab & Hex & Hp & Hw & Hpk). cbn in Htab, Hex, Hp, Hw, Hpk.
    apply Forall_app in Hw as [Hw1 Hw2]. apply Forall_cons in Hw2 as [Hreq Hw2].
    eapply setLoop_preserves; eauto. split_and!; cbn; auto. by apply Forall_app.
  - destruct Hs as (Htab & Hex & Hp & Hw & Hpk). cbn in Htab, Hex, Hp, Hw, Hpk.
    apply Forall_app in Hw as [Hw1 Hw2]. apply Forall_cons in Hw2 as [Hreq Hw2].
    pose proof (setLoop_cases m req true Htab Hreq) as Hc. rewrite Hset in Hc.
    split; [done|]. split; [done|]. cbn. rewrite !Forall_cons, Forall_app. tauto.
  - destruct Hs as (Htab & Hex & Hp & Hw & Hpk). cbn in Htab, Hex, Hp, Hw, Hpk.
    apply (wake_ok _ m); auto using releaseOwner_table; [|done].
    intros n x o1 o2 t1 t2 H1 H2. apply releaseOwner_holds in H1, H2.
    destruct H1, H2. eauto.
  - destruct Hs as (Htab & Hex & Hp & Hw & Hpk). cbn in Htab, Hex, Hp, Hw, Hpk.
    apply (wake_ok _ m); auto; [repeat constructor| |done].
    intros n x o1 o2 t1 t2 H1. by apply holds_nil in H1.
Qed.

Lemma lockReachable_ok s : lockReachable s -> system_ok s.
Proof.
  induction 1 as [|s s' _ IH Hstep]; [|by eapply lockStep_preserves].
  split; [split; constructor|]. split; [|repeat constructor].
  intros n x o1 o2 t1 t2 H. by apply holds_nil in H.
Qed.

(** * Properties *)

(** C7: [set] implements the abstract lock table.  A granted request ([0]) gives
    the requesting owner exactly the requested bytes with the requested type (or
    frees them, for an unlock) and changes no other byte of any owner; every
    other outcome leaves the manager unchanged and has its documented cause. *)
Theorem set_refines_table m req wait :
  table_ok (locks m) -> request_widths req ->
  match set m req wait with
  | SetReturn c m' b =>
      (c = 0 /\ b = true /\ closed m = false /\ request_ok req /\ ~ blocked m req /\
       table_ok (locks m') /\ closed m' = false /\ updated (locks m) (locks m') req) \/
      (c = - linuxEINVAL /\ b = false /\ m' = m /\ ~ request_ok req) \/
      (c = - linuxEAGAIN /\ b = false /\ m' = m /\ wait = false /\ blocked m req) \/
      (c = - linuxEINTR /\ b = false /\ m' = m /\ closed m = true)
  | SetWait => wait = true /\ closed m = false /\ blocked m req
  end.
Proof.
  intros Htab Hw. destruct (set_request_ok m req wait Hw) as [[Hok ->]|[Hno ->]]; [|tauto].
  pose proof (setLoop_cases m req wait Htab Hok) as Hc.
  destruct (setLoop m req wait); intuition.
Qed.

(** Two owners on file 3: owner 4 read-locks bytes 0-99, then 25-74 is freed. *)
Definition lockExample : fuseLockManager :=
  mkManager [mkLock 3 4 0 99 linuxFRdLck 7] false.
Definition unlockExample : fuseFileLock := mkLock 3 4 25 74 linuxFUnlck 7.

Lemma lockExample_ok : table_ok (locks lockExample).
Proof. split; repeat constructor; cbn; width. Qed.

Lemma set_refines_table_witness :
  set lockExample unlockExample false
  = SetReturn 0 (mkManager [mkLock 3 4 0 24 0 7; mkLock 3 4 75 99 0 7] false) true /\
  updated (locks lockExample) [mkLock 3 4 0 24 0 7; mkLock 3 4 75 99 0 7] unlockExample.
Proof.
  split; [reflexivity|].
  pose proof (set_refines_table lockExample unlockExample false lockExample_ok) as H.
  assert (Hw : request_widths unlockExample) by (split; cbn; width).
  specialize (H Hw). cbn -[table_ok updated request_ok blocked] in H.
  destruct H as [H|[H|[H|H]]]; [apply H|destruct H; discriminate..].
Defined.

(** C30: exclusion.  In every reachable state of the lock manager, two different
    owners that hold a common byte of a file both hold read locks on it. *)
Theorem reachable_exclusive s :
  lockReachable s -> exclusive (locks (manager s)).
Proof. intros H. apply lockReachable_ok in H. apply H. Qed.

Lemma reachable_exclusive_witness :
  exclusive (locks (manager (mkSystem
    (mkManager [mkLock 3 4 0 99 linuxFRdLck 7] false) [] []))).
Proof.
  apply reachable_exclusive.
  apply (reach_step (mkSystem newFuseLockManager [] [])); [apply reach_new|].
  apply (step_set newFuseLockManager [] [] (mkLock 3 4 0 99 linuxFRdLck 7) false 0
           (mkManager [mkLock 3 4 0 99 linuxFRdLck 7] false) true).
  - split; cbn; unfold in_width; lia.
  - reflexivity.
Defined.

(** No lost wake-up.  A caller asleep in [F_SETLKW] conflicts with a lock
    that is held right now, in a manager that is not closed: every change that
    could let it proceed has broadcast and made it runnable. *)
Lemma sleeper_blocked s req :
  lockReachable s -> req ∈ parked s ->
  closed (manager s) = false /\
  exists x o t, holds (locks (manager s)) (nodeID req) o x t /\
    start req <= x <= end_ req /\ o <> owner req /\
    (t = linuxFWrLck \/ typeID req = linuxFWrLck).
Proof.
  intros H Hin. apply lockReachable_ok in H as ([Hok _] & _ & Hp & _ & Hb).
  rewrite Forall_forall in Hp, Hb. destruct (Hb req Hin) as (Hc & _ & Hcf).
  split; [done|]. by apply conflict_iff; auto.
Qed.

Definition parkedExample : lockSystem :=
  mkSystem (mkManager [mkLock 3 4 0 99 linuxFWrLck 7] false)
           [mkLock 3 5 50 60 linuxFRdLck 8] [].

Lemma parkedExample_reachable : lockReachable parkedExample.
Proof.
  apply (reach_step (mkSystem (mkManager [mkLock 3 4 0 99 linuxFWrLck 7] false) [] [])).
  - apply (reach_step (mkSystem newFuseLockManager [] [])); [apply reach_new|].
    apply (step_set newFuseLockManager [] [] (mkLock 3 4 0 99 linuxFWrLck 7) false 0
             (mkManager [mkLock 3 4 0 99 linuxFWrLck 7] false) true).
    + split; cbn; unfold in_width; lia.
    + reflexivity.
  - apply step_set_sleep; [split; cbn; unfold in_width; lia|reflexivity].
Defined.


(** * Woken callers settle *)

(** A woken caller takes the mutex and runs the loop of [set] again. *)
Inductive resume : lockSystem -> lockSystem -> Prop :=
| resume_return m p w1 w2 req c m' b :
    setLoop m req true = SetReturn c m' b ->
    resume (mkSystem m p (w1 ++ req :: w2)) (wake b (mkSystem m' p (w1 ++ w2)))
| resume_sleep m p w1 w2 req :
    setLoop m req true = SetWait ->
    resume (mkSystem m p (w1 ++ req :: w2)) (mkSystem m (req :: p) (w1 ++ w2)).

Lemma resume_lockStep s s' : resume s s' -> lockStep s s'.
Proof. intros []; [by eapply step_resume|by apply step_resume_sleep]. Qed.

(** The callers that have not returned, counted so that every resumption decreases it. *)
Definition pendingWork (s : lockSystem) : nat :=
  let n := (length (parked s) + length (woken s))%nat in n * n + length (woken s).

Lemma resume_decreases s s' : resume s s' -> (pendingWork s' < pendingWork s)%nat.
Proof.
  intros [m p w1 w2 req c m' [] H|m p w1 w2 req H]; unfold pendingWork; cbn;
    rewrite ?length_app; cbn; rewrite ?length_app; nia.
Qed.

Lemma resume_reachable s s' : rtc resume s s' -> lockReachable s -> lockReachable s'.
Proof. apply rtc_preserves. intros a b H Ha. exact (reach_step a b Ha (resume_lockStep a b H)). Qed.

Lemma resume_enabled s : woken s <> [] -> exists s', resume s s'.
Proof.
  destruct s as [m p [|req w]]; [done|]. intros _. destruct (setLoop m req true) as [c m' b|] eqn:E.
  - eexists. exact (resume_return m p [] w req c m' b E).
  - eexists. exact (resume_sleep m p [] w req E).
Qed.

Lemma resume_terminates s : exists s', rtc resume s s' /\ woken s' = [].
Proof.
  induction s as [s IH] using (well_founded_induction (well_founded_ltof _ pendingWork)).
  destruct (woken s) as [|req w] eqn:Ew; [by exists s|].
  destruct (resume_enabled s) as (s1 & H1); [by rewrite Ew|].
  destruct (IH s1 (resume_decreases s s1 H1)) as (s' & Hr & Hw). exists s'. split; [by eapply rtc_l|done].
Qed.

(** C32: Every waiter that can proceed does.  Whatever the order in which woken callers take
    the mutex, they stop after finitely many turns; while one of them is runnable a turn can
    be taken; and once none is, each caller that still sleeps conflicts with a lock another
    owner holds at that moment, and none sleeps if the manager was closed.  So a blocked
    [F_SETLKW] returns when the locks against it are gone. *)
Theorem waiters_settle s :
  lockReachable s ->
  Acc (flip resume) s /\ (exists s', rtc resume s s' /\ woken s' = []) /\
  forall s', rtc resume s s' ->
    (woken s' <> [] -> exists s'', resume s' s'') /\
    (woken s' = [] -> forall req, req ∈ parked s' ->
      closed (manager s') = false /\
      exists x o t, holds (locks (manager s')) (nodeID req) o x t /\ start req <= x <= end_ req /\ o <> owner req /\
        (t = linuxFWrLck \/ typeID req = linuxFWrLck)).
Proof.
  intros Hs. split; [|split; [apply resume_terminates|]].
  - clear Hs. induction s as [s IH] using (well_founded_induction (well_founded_ltof _ pendingWork)).
    constructor. intros s' H. by apply IH, resume_decreases.
  - intros s' Hr. split; [apply resume_enabled|]. intros _ req Hin.
    by apply (sleeper_blocked s' req (resume_reachable _ _ Hr Hs)).
Qed.

(** The lock against the sleeping reader is released. *)
Lemma waiters_settle_witness :
  exists s', rtc resume (wake true (mkSystem (releaseOwner (manager parkedExample) 3 4) (parked parkedExample) [])) s' /\
    woken s' = [].
Proof.
  apply (waiters_settle (wake true (mkSystem (releaseOwner (manager parkedExample) 3 4) (parked parkedExample) []))).
  eapply reach_step; [exact parkedExample_reachable|]. apply step_release.
Defined.
