(* ===== verification/Tcp.v ===== *)
(** TCP building blocks of the user-mode network stack:
    [src/internal/core/netstack/tcp.go].

    Option parsing, the retransmission queue ([tcpSendBuffer]), the out-of-order
    reassembly buffer ([tcpRecvBuffer]), the RTT estimator, Reno congestion
    control and the wrap-around sequence comparisons.  [time.Now] is an argument
    [now]; every mutex-protected method is one state transformer. *)

From S2P Require Import Prelude.

(** * Sequence numbers *)

Definition seqLT (a b : Z) : bool := i32 (u32 (a - b)) <? 0.
Definition seqLTE (a b : Z) : bool := i32 (u32 (a - b)) <=? 0.
Definition seqGT (a b : Z) : bool := 0 <? i32 (u32 (a - b)).
Definition seqOverlap (aStart aEnd bStart bEnd : Z) : bool :=
  seqLT aStart bEnd && seqLT bStart aEnd.

(** * Options *)

Definition tcpOptEnd : Z := 0.
Definition tcpOptNOP : Z := 1.
Definition tcpOptMSS : Z := 2.
Definition tcpOptWndScale : Z := 3.

Record tcpOptions := mkTcpOptions {
  opt_mss : Z;
  opt_wndScale : Z;
  opt_hasMSS : bool;
  opt_hasWndScale : bool;
}.
#[export] Instance eta_tcpOptions : Eta tcpOptions := fun o =>
  mkTcpOptions (opt_mss o) (opt_wndScale o) (opt_hasMSS o) (opt_hasWndScale o).

Definition noOptions : tcpOptions := mkTcpOptions 0 0 false false.

(** One iteration of the loop: return, or go on at another index. *)
Inductive optNext := OptDone (o : tcpOptions) | OptAt (i : Z) (o : tcpOptions).

Definition parseOptionAt (options : bytes) (i : Z) (opts : tcpOptions) : optNext :=
  if negb (i <? len options) then OptDone opts
  else
    let kind := at_ options i in
    let skip o :=
      if i + 1 <? len options then OptAt (i + at_ options (i + 1)) o else OptDone o in
    if kind =? tcpOptEnd then OptDone opts
    else if kind =? tcpOptNOP then OptAt (i + 1) opts
    else if kind =? tcpOptMSS then
      skip (if (i + 4 <=? len options) && (at_ options (i + 1) =? 4)
            then opts <| opt_mss := unbe (slice options (i + 2) (i + 4)) |>
                      <| opt_hasMSS := true |>
            else opts)
    else if kind =? tcpOptWndScale then
      skip (if (i + 3 <=? len options) && (at_ options (i + 1) =? 3)
            then opts <| opt_wndScale := at_ options (i + 2) |>
                      <| opt_hasWndScale := true |>
            else opts)
    else if len options <=? i + 1 then OptDone opts
    else if at_ options (i + 1) <? 2 then OptDone opts
    else OptAt (i + at_ options (i + 1)) opts.

(** The loop; [None] when it is still running after [fuel] iterations. *)
Fixpoint parseOptionsFrom (fuel : nat) (options : bytes) (i : Z) (opts : tcpOptions)
  : option tcpOptions :=
  match fuel with
  | O => None
  | S fuel =>
      match parseOptionAt options i opts with
      | OptDone o => Some o
      | OptAt i o => parseOptionsFrom fuel options i o
      end
  end.

Definition parseTCPOptions (fuel : nat) (options : bytes) : option tcpOptions :=
  parseOptionsFrom fuel options 0 noOptions.

Definition buildSynAckOptions (mss wndScale : Z) (peerHasWndScale : bool) : bytes :=
  if peerHasWndScale
  then [tcpOptMSS; 4] ++ be 2 mss ++ [tcpOptNOP; tcpOptWndScale; 3; wndScale]
  else [tcpOptMSS; 4] ++ be 2 mss.

(** * Retransmission queue *)

Record tcpSendSegment := mkSendSegment {
  ss_seqStart : Z;
  ss_seqEnd : Z;
  ss_payload : bytes;
  ss_sentAt : Z;
  ss_retxCount : Z;
}.
#[export] Instance eta_tcpSendSegment : Eta tcpSendSegment := fun s =>
  mkSendSegment (ss_seqStart s) (ss_seqEnd s) (ss_payload s) (ss_sentAt s) (ss_retxCount s).

Record tcpSendBuffer := mkSendBuffer {
  sb_segments : list tcpSendSegment;
  sb_capacity : Z;
  sb_used : Z;
}.
#[export] Instance eta_tcpSendBuffer : Eta tcpSendBuffer := fun b =>
  mkSendBuffer (sb_segments b) (sb_capacity b) (sb_used b).

Definition newTCPSendBuffer (capacity : Z) : tcpSendBuffer := mkSendBuffer [] capacity 0.

Definition sb_append (sb : tcpSendBuffer) (seg : tcpSendSegment) : tcpSendBuffer * bool :=
  let payloadLen := len (ss_payload seg) in
  if sb_capacity sb <? sb_used sb + payloadLen then (sb, false)
  else (sb <| sb_segments := sb_segments sb ++ [seg] |>
           <| sb_used := sb_used sb + payloadLen |>, true).

(** The loop of [ack]: segments kept, bytes acknowledged, [used], RTT sample. *)
Fixpoint ackLoop (now ackNum : Z) (segs : list tcpSendSegment)
    (bytesAcked used : Z) (rtt : option Z)
  : list tcpSendSegment * Z * Z * option Z :=
  match segs with
  | [] => ([], bytesAcked, used, rtt)
  | seg :: segs =>
      if seqLTE (ss_seqEnd seg) ackNum then
        let n := len (ss_payload seg) in
        let rtt := match rtt with
                   | None => if ss_retxCount seg =? 0 then Some (now - ss_sentAt seg) else None
                   | Some _ => rtt
                   end in
        ackLoop now ackNum segs (bytesAcked + n) (used - n) rtt
      else
        let '(kept, acked, used, rtt) := ackLoop now ackNum segs bytesAcked used rtt in
        (seg :: kept, acked, used, rtt)
  end.

Definition sb_ack (sb : tcpSendBuffer) (now ackNum : Z) : tcpSendBuffer * Z * option Z :=
  let '(kept, acked, used, rtt) := ackLoop now ackNum (sb_segments sb) 0 (sb_used sb) None in
  (sb <| sb_segments := kept |> <| sb_used := used |>, acked, rtt).

Definition sb_oldest (sb : tcpSendBuffer) : option tcpSendSegment := head (sb_segments sb).

Fixpoint markFirst (now : Z) (n : nat) (segs : list tcpSendSegment) : list tcpSendSegment :=
  match n, segs with
  | S n, seg :: segs =>
      seg <| ss_retxCount := ss_retxCount seg + 1 |> <| ss_sentAt := now |>
        :: markFirst now n segs
  | _, _ => segs
  end.

Definition sb_markRetransmittedN (sb : tcpSendBuffer) (now n : Z) : tcpSendBuffer :=
  sb <| sb_segments := markFirst now (Z.to_nat n) (sb_segments sb) |>.

Definition sb_oldestCoalesced (sb : tcpSendBuffer) (maxSize : Z)
  : option (tcpSendSegment * Z) :=
  match sb_segments sb with
  | [] => None
  | seg :: _ => Some (seg, 1)
  end.

Definition sb_len (sb : tcpSendBuffer) : Z := len (sb_segments sb).
Definition sb_inFlight (sb : tcpSendBuffer) : Z := sb_used sb.

Definition sb_clear (sb : tcpSendBuffer) : tcpSendBuffer :=
  sb <| sb_segments := [] |> <| sb_used := 0 |>.

(** * Reassembly buffer *)

Record tcpOOOSegment := mkOOOSegment {
  oo_seqStart : Z;
  oo_seqEnd : Z;
  oo_payload : bytes;
}.

Record tcpRecvBuffer := mkRecvBuffer {
  rb_segments : list tcpOOOSegment;
  rb_maxGaps : Z;
}.
#[export] Instance eta_tcpRecvBuffer : Eta tcpRecvBuffer := fun b =>
  mkRecvBuffer (rb_segments b) (rb_maxGaps b).

Definition newTCPRecvBuffer (maxGaps : Z) : tcpRecvBuffer := mkRecvBuffer [] maxGaps.

(** The scan of [insert]: [None] on an overlap, else the insertion index. *)
Fixpoint insertScan (seg : tcpOOOSegment) (segs : list tcpOOOSegment)
    (i total insertIdx : nat) : option nat :=
  match segs with
  | [] => Some insertIdx
  | existing :: segs =>
      if seqOverlap (oo_seqStart seg) (oo_seqEnd seg)
           (oo_seqStart existing) (oo_seqEnd existing)
      then None
      else
        let insertIdx :=
          if seqLT (oo_seqStart seg) (oo_seqStart existing) && Nat.eqb insertIdx total
          then i else insertIdx in
        insertScan seg segs (S i) total insertIdx
  end.

Definition rb_insert (rb : tcpRecvBuffer) (seg : tcpOOOSegment) : tcpRecvBuffer * bool :=
  let segs := rb_segments rb in
  match insertScan seg segs 0 (length segs) (length segs) with
  | None => (rb, false)
  | Some idx =>
      if rb_maxGaps rb <=? len segs then (rb, false)
      else (rb <| rb_segments := take idx segs ++ seg :: drop idx segs |>, true)
  end.

(** One pass of [collectContiguous] over the buffered segments. *)
Fixpoint collectPass (nextSeq : Z) (segs : list tcpOOOSegment)
  : list tcpOOOSegment * Z * list tcpOOOSegment :=
  match segs with
  | [] => ([], nextSeq, [])
  | seg :: segs =>
      if oo_seqStart seg =? nextSeq then
        let '(got, next, kept) := collectPass (oo_seqEnd seg) segs in
        (seg :: got, next, kept)
      else
        let '(got, next, kept) := collectPass nextSeq segs in
        (got, next, seg :: kept)
  end.

(** The outer loop: passes until one collects nothing. *)
Fixpoint collectLoop (fuel : nat) (nextSeq : Z) (segs : list tcpOOOSegment)
  : option (list tcpOOOSegment * Z * list tcpOOOSegment) :=
  match fuel with
  | O => None
  | S fuel =>
      let '(got, next, kept) := collectPass nextSeq segs in
      match got with
      | [] => Some ([], next, kept)
      | _ =>
          match collectLoop fuel next kept with
          | Some (got', next', kept') => Some (got ++ got', next', kept')
          | None => None
          end
      end
  end.

(** Payloads collected, the new expected sequence number, the buffer left. *)
Definition rb_collectContiguous (rb : tcpRecvBuffer) (nextSeq : Z)
  : option (list bytes * Z * tcpRecvBuffer) :=
  match collectLoop (S (length (rb_segments rb))) nextSeq (rb_segments rb) with
  | Some (got, next, kept) => Some (oo_payload <$> got, next, rb <| rb_segments := kept |>)
  | None => None
  end.

Definition rb_len (rb : tcpRecvBuffer) : Z := len (rb_segments rb).
Definition rb_clear (rb : tcpRecvBuffer) : tcpRecvBuffer := rb <| rb_segments := [] |>.

(** * RTT estimation; durations are [int64] nanoseconds *)

Definition minRTO : Z := 50 * 1000000.
Definition maxRTO : Z := 60 * 1000000000.
Definition initialRTO : Z := 500 * 1000000.
Definition maxBackoffCount : Z := 5.

Record tcpRTTEstimator := mkRTT {
  r_srtt : Z;
  r_rttVar : Z;
  r_rto : Z;
  r_hasInitial : bool;
  r_backoffCount : Z;
}.
#[export] Instance eta_tcpRTTEstimator : Eta tcpRTTEstimator := fun r =>
  mkRTT (r_srtt r) (r_rttVar r) (r_rto r) (r_hasInitial r) (r_backoffCount r).

Definition newTCPRTTEstimator : tcpRTTEstimator := mkRTT 0 0 initialRTO false 0.

Definition rtt_update (r : tcpRTTEstimator) (rtt : Z) : tcpRTTEstimator :=
  let r :=
    if negb (r_hasInitial r)
    then r <| r_srtt := rtt |> <| r_rttVar := godiv rtt 2 |> <| r_hasInitial := true |>
    else
      let delta := i64 (r_srtt r - rtt) in
      let delta := if delta <? 0 then i64 (- delta) else delta in
      r <| r_rttVar := godiv (i64 (i64 (3 * r_rttVar r) + delta)) 4 |>
        <| r_srtt := godiv (i64 (i64 (7 * r_srtt r) + rtt)) 8 |> in
  let rto := i64 (r_srtt r + i64 (4 * r_rttVar r)) in
  let rto := if rto <? minRTO then minRTO else rto in
  let rto := if maxRTO <? rto then maxRTO else rto in
  r <| r_rto := rto |>.

Definition rtt_backoff (r : tcpRTTEstimator) : tcpRTTEstimator :=
  let r :=
    if r_backoffCount r <? maxBackoffCount
    then r <| r_rto := godiv (i64 (r_rto r * 3)) 2 |>
           <| r_backoffCount := r_backoffCount r + 1 |>
    else r in
  if maxRTO <? r_rto r then r <| r_rto := maxRTO |> else r.

Definition rtt_resetBackoff (r : tcpRTTEstimator) : tcpRTTEstimator :=
  r <| r_backoffCount := 0 |>.

Definition rtt_getRTO (r : tcpRTTEstimator) : Z := r_rto r.

(** * Reno congestion control; windows are [uint32] bytes *)

Record tcpCongestionControl := mkCC {
  cc_cwnd : Z;
  cc_ssthresh : Z;
  cc_mss : Z;
  cc_dupAcks : Z;
}.
#[export] Instance eta_tcpCongestionControl : Eta tcpCongestionControl := fun c =>
  mkCC (cc_cwnd c) (cc_ssthresh c) (cc_mss c) (cc_dupAcks c).

Definition initialCwndSegments : Z := 10.
Definition fastRetransmitThreshold : Z := 3.

Definition newTCPCongestionControl (mss : Z) : tcpCongestionControl :=
  mkCC (u32 (initialCwndSegments * mss)) (2 ^ 32 - 1) mss 0.

(** [onAck] divides by [cwnd]; a zero divisor panics. *)
Definition cc_onAck (cc : tcpCongestionControl) (bytesAcked : Z)
  : result unit tcpCongestionControl :=
  let cc := cc <| cc_dupAcks := 0 |> in
  let mss := cc_mss cc in
  if cc_cwnd cc <? cc_ssthresh cc
  then Ok (cc <| cc_cwnd := u32 (cc_cwnd cc + u32 bytesAcked) |>)
  else if cc_cwnd cc =? 0 then Panic
  else
    let increment := u32 (mss * mss) / cc_cwnd cc in
    let increment := if increment <? 1 then 1 else increment in
    Ok (cc <| cc_cwnd := u32 (cc_cwnd cc + increment) |>).

Definition cc_halve (cc : tcpCongestionControl) : tcpCongestionControl :=
  let t := cc_cwnd cc / 2 in
  cc <| cc_ssthresh := if t <? u32 (2 * cc_mss cc) then u32 (2 * cc_mss cc) else t |>.

Definition cc_onDupAck (cc : tcpCongestionControl) : tcpCongestionControl * bool :=
  let cc := cc <| cc_dupAcks := cc_dupAcks cc + 1 |> in
  if cc_dupAcks cc =? fastRetransmitThreshold then
    let cc := cc_halve cc in
    (cc <| cc_cwnd := u32 (cc_ssthresh cc + u32 (fastRetransmitThreshold * cc_mss cc)) |>, true)
  else if fastRetransmitThreshold <? cc_dupAcks cc then
    (cc <| cc_cwnd := u32 (cc_cwnd cc + cc_mss cc) |>, false)
  else (cc, false).

Definition cc_onTimeout (cc : tcpCongestionControl) : tcpCongestionControl :=
  cc_halve cc <| cc_cwnd := cc_mss cc |> <| cc_dupAcks := 0 |>.

Definition cc_getCwnd (cc : tcpCongestionControl) : Z := cc_cwnd cc.

(** * Sequence comparison lemmas *)

(** Sequence numbers at stream offsets [a] and [b] from the initial sequence
    number [isn] compare as the offsets do, while they are within half of the
    sequence space. *)
Lemma seq_diff_near isn a b :
  - 2 ^ 31 <= a - b < 2 ^ 31 -> i32 (u32 (u32 (isn + a) - u32 (isn + b))) = a - b.
Proof.
  intros H. rewrite swrap_wrap by lia. unfold swrap. rewrite wrap_sub_wrap.
  replace (isn + a - (isn + b)) with (a - b) by lia. apply swrap_near; lia.
Qed.

Lemma seqLT_near isn a b :
  - 2 ^ 31 <= a - b < 2 ^ 31 -> seqLT (u32 (isn + a)) (u32 (isn + b)) = (a <? b).
Proof. intros. unfold seqLT. rewrite seq_diff_near by done. lia. Qed.

Lemma seqLTE_near isn a b :
  - 2 ^ 31 <= a - b < 2 ^ 31 -> seqLTE (u32 (isn + a)) (u32 (isn + b)) = (a <=? b).
Proof. intros. unfold seqLTE. rewrite seq_diff_near by done. lia. Qed.

Lemma seqOverlap_near isn a1 a2 b1 b2 :
  - 2 ^ 31 <= a1 - b2 < 2 ^ 31 -> - 2 ^ 31 <= b1 - a2 < 2 ^ 31 ->
  seqOverlap (u32 (isn + a1)) (u32 (isn + a2)) (u32 (isn + b1)) (u32 (isn + b2))
  = (a1 <? b2) && (b1 <? a2).
Proof. intros. unfold seqOverlap. by rewrite !seqLT_near. Qed.

(** * Option parsing lemmas *)

(** Every iteration moves forward, unless an MSS or window-scale option carries
    a zero length byte. *)
Definition no_zero_length (options : bytes) : Prop :=
  forall i, 0 <= i -> i + 1 < len options ->
    at_ options i = tcpOptMSS \/ at_ options i = tcpOptWndScale ->
    at_ options (i + 1) <> 0.

Lemma at_byte l i : is_bytes l -> 0 <= at_ l i < 256.
Proof.
  intros Hl. unfold at_. destruct (l !! Z.to_nat i) as [b|] eqn:Hb; cbn; [|lia].
  pose proof (proj1 (Forall_lookup _ _) Hl _ _ Hb) as H. width.
Qed.

Lemma parseOptionAt_progress options i opts j o :
  is_bytes options -> no_zero_length options -> 0 <= i ->
  parseOptionAt options i opts = OptAt j o -> i < j /\ i < len options.
Proof.
  intros Hb Hz Hi Hp. pose proof (at_byte options (i + 1) Hb) as Hnext.
  specialize (Hz i Hi). unfold parseOptionAt in Hp.
  repeat case_match; simplify_eq; lia.
Qed.

Lemma parseOptionsFrom_total fuel options i opts :
  is_bytes options -> no_zero_length options -> 0 <= i ->
  Z.max 0 (len options - i) < Z.of_nat fuel ->
  is_Some (parseOptionsFrom fuel options i opts).
Proof.
  revert i opts. induction fuel as [|fuel IH]; intros i opts Hb Hz Hi Hf; cbn; [lia|].
  destruct (parseOptionAt options i opts) as [o|j o] eqn:Hp; [eauto|].
  apply parseOptionAt_progress in Hp; [|done..]. apply IH; [done..|lia|lia].
Qed.

(** * Retransmission queue lemmas *)

Definition seg_bytes (segs : list tcpSendSegment) : Z := sum_len (ss_payload <$> segs).

Definition sendBuffer_ok (sb : tcpSendBuffer) : Prop :=
  sb_used sb = seg_bytes (sb_segments sb) /\ 0 <= sb_used sb <= sb_capacity sb.

Lemma seg_bytes_app a b : seg_bytes (a ++ b) = seg_bytes a + seg_bytes b.
Proof. unfold seg_bytes. rewrite fmap_app. apply sum_len_app. Qed.

Lemma seg_bytes_nonneg a : 0 <= seg_bytes a.
Proof. unfold seg_bytes. rewrite <- sum_len_concat. apply len_nonneg. Qed.

Lemma seg_bytes_nil : seg_bytes [] = 0.
Proof. done. Qed.

Lemma seg_bytes_cons s a : seg_bytes (s :: a) = len (ss_payload s) + seg_bytes a.
Proof. done. Qed.

Definition acked (ackNum : Z) (seg : tcpSendSegment) : bool := seqLTE (ss_seqEnd seg) ackNum.

(** The segments an acknowledgment removes and keeps. *)
Definition ackedSegs (ackNum : Z) (segs : list tcpSendSegment) : list tcpSendSegment :=
  List.filter (acked ackNum) segs.
Definition keptSegs (ackNum : Z) (segs : list tcpSendSegment) : list tcpSendSegment :=
  List.filter (fun s => negb (acked ackNum s)) segs.

(** The first acknowledged segment that was never retransmitted (Karn). *)
Fixpoint firstSample (now : Z) (segs : list tcpSendSegment) : option Z :=
  match segs with
  | [] => None
  | s :: segs => if ss_retxCount s =? 0 then Some (now - ss_sentAt s) else firstSample now segs
  end.

Lemma ackLoop_spec now ackNum segs n used rtt :
  ackLoop now ackNum segs n used rtt =
  (keptSegs ackNum segs, n + seg_bytes (ackedSegs ackNum segs),
   used - seg_bytes (ackedSegs ackNum segs),
   match rtt with Some _ => rtt | None => firstSample now (ackedSegs ackNum segs) end).
Proof.
  revert n used rtt. induction segs as [|s segs IH]; intros n used rtt.
  - cbn. rewrite Z.add_0_r, Z.sub_0_r. by destruct rtt.
  - cbn [ackLoop]. unfold keptSegs, ackedSegs in *. cbn [List.filter].
    change (seqLTE (ss_seqEnd s) ackNum) with (acked ackNum s).
    destruct (acked ackNum s); cbn [negb].
    + rewrite IH, seg_bytes_cons. cbn [firstSample].
      f_equal; [f_equal; [f_equal|]|]; [lia|lia|].
      destruct rtt; [done|]. by destruct (ss_retxCount s =? 0).
    + rewrite IH. done.
Qed.

Lemma seg_bytes_split ackNum segs :
  seg_bytes (ackedSegs ackNum segs) + seg_bytes (keptSegs ackNum segs) = seg_bytes segs.
Proof.
  unfold ackedSegs, keptSegs. induction segs as [|s segs IH]; [done|]. cbn [List.filter].
  destruct (acked ackNum s); cbn [negb]; rewrite !seg_bytes_cons; lia.
Qed.

Lemma markFirst_payload now n segs :
  ss_payload <$> markFirst now n segs = ss_payload <$> segs.
Proof. revert n; induction segs; intros [|n]; cbn; f_equal; auto. Qed.

(** The queue holds the stream bytes [una .. nxt) of a connection with initial
    sequence number [isn], in consecutive segments. *)
Inductive inStream (isn : Z) : Z -> list tcpSendSegment -> Z -> Prop :=
| stream_nil a : inStream isn a [] a
| stream_cons a s segs b :
    ss_seqStart s = u32 (isn + a) ->
    ss_seqEnd s = u32 (isn + a + len (ss_payload s)) ->
    0 < len (ss_payload s) ->
    inStream isn (a + len (ss_payload s)) segs b ->
    inStream isn a (s :: segs) b.

Lemma inStream_le isn a segs b : inStream isn a segs b -> a <= b.
Proof. induction 1; lia. Qed.

Lemma inStream_bytes isn a segs b : inStream isn a segs b -> b = a + seg_bytes segs.
Proof.
  induction 1; rewrite ?seg_bytes_cons, ?seg_bytes_nil; lia.
Qed.

Lemma seqEnd_acked isn s a k :
  ss_seqEnd s = u32 (isn + a) -> - 2 ^ 31 <= a - k < 2 ^ 31 ->
  acked (u32 (isn + k)) s = (a <=? k).
Proof. intros H Hw. unfold acked. rewrite H. by apply seqLTE_near. Qed.

Lemma ack_none isn a segs b k :
  inStream isn a segs b -> k <= a -> b - k < 2 ^ 31 ->
  ackedSegs (u32 (isn + k)) segs = [] /\ keptSegs (u32 (isn + k)) segs = segs.
Proof.
  intros Hs. induction Hs as [a|a s segs b Hst Hen Hpos Hs IH]; intros Hk Hw; [done|].
  pose proof (inStream_le _ _ _ _ Hs). destruct IH as [IH1 IH2]; [lia|lia|].
  rewrite <- Z.add_assoc in Hen. unfold ackedSegs, keptSegs in *. cbn.
  rewrite (seqEnd_acked isn s _ k Hen) by lia.
  rewrite (proj2 (Z.leb_gt _ _)) by lia. cbn. by rewrite IH1, IH2.
Qed.

(** A cumulative acknowledgment inside the window splits the queue in two. *)
Lemma ack_splits isn a segs b k :
  inStream isn a segs b -> b - a < 2 ^ 31 -> a <= k <= b ->
  exists mid, inStream isn a (ackedSegs (u32 (isn + k)) segs) mid /\
    inStream isn mid (keptSegs (u32 (isn + k)) segs) b /\ a <= mid <= k /\
    (forall s, head (keptSegs (u32 (isn + k)) segs) = Some s -> k < mid + len (ss_payload s)).
Proof.
  intros Hs. induction Hs as [a|a s segs b Hst Hen Hpos Hs IH]; intros Hw Hk.
  - exists a. split_and!; try constructor; try lia. done.
  - pose proof (inStream_le _ _ _ _ Hs) as Hle.
    pose proof Hen as Hen'. rewrite <- Z.add_assoc in Hen'.
    unfold ackedSegs, keptSegs in *. cbn. rewrite (seqEnd_acked isn s _ k Hen') by lia.
    destruct (Z.leb_spec (a + len (ss_payload s)) k); cbn.
    + destruct IH as (mid & H1 & H2 & H3 & H4); [lia|lia|]. exists mid.
      split_and!; auto; [by constructor|lia|lia].
    + destruct (ack_none isn _ _ _ k Hs) as [Ha Hk']; [lia|lia|].
      unfold ackedSegs, keptSegs in *. rewrite Ha, Hk'. exists a.
      split_and!; try constructor; auto; try lia. intros s' [= <-]. done.
Qed.

(** * Reassembly lemmas *)

Section Reassembly.
Context (isn : Z) (data : bytes).

(** [seg] carries the bytes of the stream [data] from offset [a]. *)
Definition piece (seg : tcpOOOSegment) (a : Z) : Prop :=
  0 <= a /\ 0 < len (oo_payload seg) /\ a + len (oo_payload seg) <= len data /\
  oo_seqStart seg = u32 (isn + a) /\
  oo_seqEnd seg = u32 (isn + (a + len (oo_payload seg))) /\
  oo_payload seg = slice data a (a + len (oo_payload seg)).

Definition seq_at (k : Z) : Z := u32 (isn + k).

Lemma piece_start_eq seg a k :
  len data < 2 ^ 32 -> piece seg a -> 0 <= k <= len data ->
  oo_seqStart seg = seq_at k -> a = k.
Proof.
  intros Hd (Ha & Hp & Hle & Hst & _) Hk Heq. rewrite Hst in Heq.
  apply wrap_inj_near in Heq; lia.
Qed.

(** What one pass, and then the whole loop, collects from offset [k] on. *)
Definition collected (k k' : Z) (segs got kept : list tcpOOOSegment) : Prop :=
  k <= k' <= len data /\ concat (oo_payload <$> got) = slice data k k' /\
  got ++ kept ≡ₚ segs /\
  Forall (fun g => exists a, piece g a /\ a < k') got /\
  (k' = k \/ exists g a, g ∈ got /\ piece g a /\ a + len (oo_payload g) = k').

Lemma collectPass_spec segs k got next kept :
  len data < 2 ^ 32 -> Forall (fun s => exists a, piece s a) segs -> 0 <= k <= len data ->
  collectPass (seq_at k) segs = (got, next, kept) ->
  exists k', next = seq_at k' /\ collected k k' segs got kept /\
    (got = [] -> k' = k /\ Forall (fun s => oo_seqStart s <> seq_at k) segs).
Proof.
  intros Hd Hall. revert k got next kept.
  induction Hall as [|s segs [a Hs] Hall IH]; intros k got next kept Hk; cbn.
  - intros [= <- <- <-]. exists k. unfold collected. rewrite slice_empty by lia.
    split_and!; auto; lia.
  - destruct (Z.eqb_spec (oo_seqStart s) (seq_at k)) as [Heq|Hne].
    + pose proof (piece_start_eq s a k Hd Hs Hk Heq) as ->.
      pose proof Hs as (_ & Hp & Hle & _ & Hen & Hpay).
      destruct (collectPass (oo_seqEnd s) segs) as [[got' next'] kept'] eqn:Hc.
      intros [= <- <- <-]. rewrite Hen in Hc.
      apply IH in Hc as (k' & -> & (Hkk & Hcat & Hperm & Hgot & Hend) & _); [|lia].
      exists k'. split; [done|]. split; [|done].
      split; [lia|]. split; [|split; [|split]]; cbn.
      * rewrite Hcat, Hpay at 1. rewrite slice_cat by lia. done.
      * by rewrite Hperm.
      * constructor; [|done]. exists k. split; [done|lia].
      * right. destruct Hend as [->|(g & b & Hg & Hb)].
        -- exists s, k. split; [left|done].
        -- exists g, b. split; [by right|done].
    + destruct (collectPass (seq_at k) segs) as [[got' next'] kept'] eqn:Hc.
      intros [= <- <- <-].
      apply IH in Hc as (k' & -> & (Hkk & Hcat & Hperm & Hgot & Hend) & Hnil); [|done].
      exists k'. split; [done|]. split.
      * split; [lia|]. split; [done|]. split; [|done].
        rewrite <- Hperm. symmetry. apply Permutation_middle.
      * intros ->. destruct Hnil as [-> Hnil]; [done|]. auto.
Qed.

Lemma collected_trans k k1 k2 segs got1 kept1 got2 kept2 :
  0 <= k -> collected k k1 segs got1 kept1 -> collected k1 k2 kept1 got2 kept2 ->
  collected k k2 segs (got1 ++ got2) kept2.
Proof.
  intros Hk (Hle1 & Hcat1 & Hp1 & Hg1 & He1) (Hle2 & Hcat2 & Hp2 & Hg2 & He2).
  split; [lia|]. split; [|split; [|split]].
  - by rewrite fmap_app, concat_app, Hcat1, Hcat2, slice_cat by lia.
  - by rewrite <- app_assoc, Hp2.
  - apply Forall_app. split; [|done]. eapply Forall_impl; [exact Hg1|].
    intros g (a & Ha & Hlt). exists a. split; [done|lia].
  - destruct He2 as [->|(g & a & Hg & Ha)].
    + destruct He1 as [->|(g & a & Hg & Ha)]; [by left|].
      right. exists g, a. split; [set_solver|done].
    + right. exists g, a. split; [set_solver|done].
Qed.

Lemma collected_pieces k k' segs got kept :
  collected k k' segs got kept -> Forall (fun s => exists a, piece s a) segs ->
  Forall (fun s => exists a, piece s a) kept.
Proof. intros (_ & _ & Hp & _) Hall. rewrite <- Hp in Hall. by apply Forall_app in Hall as [_ ?]. Qed.

Lemma collectLoop_spec fuel segs k :
  len data < 2 ^ 32 -> Forall (fun s => exists a, piece s a) segs -> 0 <= k <= len data ->
  (length segs < fuel)%nat ->
  exists got k' kept, collectLoop fuel (seq_at k) segs = Some (got, seq_at k', kept) /\
    collected k k' segs got kept /\ Forall (fun s => oo_seqStart s <> seq_at k') kept.
Proof.
  intros Hd. revert segs k. induction fuel as [|fuel IH]; intros segs k Hall Hk Hf; [lia|].
  cbn. destruct (collectPass (seq_at k) segs) as [[got next] kept] eqn:Hc.
  apply collectPass_spec in Hc as (k1 & -> & Hcol & Hnil); [|done..].
  destruct got as [|g got].
  - destruct Hnil as [-> Hnil]; [done|]. pose proof Hcol as (_ & _ & Hp & _). cbn in Hp.
    exists [], k, kept. split_and!; [done|done|]. by rewrite Hp.
  - pose proof Hcol as (Hle & _ & Hp & _). apply Permutation_length in Hp. cbn in Hp.
    rewrite length_app in Hp.
    destruct (IH kept k1) as (got2 & k2 & kept2 & -> & Hcol2 & Hlast);
      [by eapply collected_pieces|lia|lia|].
    exists (g :: got ++ got2), k2, kept2. split_and!; [done| |done].
    apply (collected_trans k k1 k2 segs (g :: got) kept); [lia|done|done].
Qed.

(** The buffered segments are pieces of the stream, ordered and disjoint, the
    first of them at or after offset [lo]. *)
Inductive chain : Z -> list tcpOOOSegment -> Prop :=
| chain_nil lo : chain lo []
| chain_cons lo a s segs :
    piece s a -> lo <= a -> chain (a + len (oo_payload s)) segs -> chain lo (s :: segs).

Definition recvBuffer_ok (rb : tcpRecvBuffer) : Prop :=
  chain 0 (rb_segments rb) /\ len (rb_segments rb) <= rb_maxGaps rb.

Definition overlaps (seg e : tcpOOOSegment) : bool :=
  seqOverlap (oo_seqStart seg) (oo_seqEnd seg) (oo_seqStart e) (oo_seqEnd e).

(** The index [insert] looks for. *)
Fixpoint firstAfter (seg : tcpOOOSegment) (segs : list tcpOOOSegment) : nat :=
  match segs with
  | [] => 0
  | e :: segs => if seqLT (oo_seqStart seg) (oo_seqStart e) then 0 else S (firstAfter seg segs)
  end.

Lemma insertScan_found seg segs i total idx :
  idx <> total ->
  insertScan seg segs i total idx = if existsb (overlaps seg) segs then None else Some idx.
Proof.
  intros Hne. revert i. induction segs as [|e segs IH]; intros i; [done|]. cbn.
  fold (overlaps seg e). destruct (overlaps seg e); [done|]. cbn.
  rewrite (proj2 (Nat.eqb_neq idx total) Hne), andb_false_r. apply IH.
Qed.

Lemma insertScan_spec seg segs i total :
  (i + length segs = total)%nat ->
  insertScan seg segs i total total =
  if existsb (overlaps seg) segs then None else Some (i + firstAfter seg segs)%nat.
Proof.
  revert i. induction segs as [|e segs IH]; intros i Ht; cbn in *; [f_equal; lia|].
  fold (overlaps seg e). destruct (overlaps seg e); [done|]. cbn. rewrite Nat.eqb_refl, andb_true_r.
  destruct (seqLT _ _).
  - rewrite insertScan_found by lia. by rewrite Nat.add_0_r.
  - rewrite IH by lia. by rewrite Nat.add_succ_r.
Qed.

Lemma overlaps_pieces s a e b :
  len data < 2 ^ 31 -> piece s a -> piece e b ->
  overlaps s e = (a <? b + len (oo_payload e)) && (b <? a + len (oo_payload s)).
Proof.
  intros Hd (Ha & Hp & Hle & Hst & Hen & _) (Hb & Hp' & Hle' & Hst' & Hen' & _).
  unfold overlaps. rewrite Hst, Hen, Hst', Hen'. apply seqOverlap_near; lia.
Qed.

Lemma chain_insert s a segs lo :
  len data < 2 ^ 31 -> piece s a -> lo <= a -> chain lo segs ->
  existsb (overlaps s) segs = false ->
  chain lo (take (firstAfter s segs) segs ++ s :: drop (firstAfter s segs) segs).
Proof.
  intros Hd Hs Hlo Hc. revert Hlo. induction Hc as [lo|lo b e segs He Hb Hc IH];
    intros Hlo Hov; cbn; [by eapply chain_cons; eauto; constructor|].
  cbn in Hov. apply orb_false_iff in Hov as [Hov Hrest].
  rewrite (overlaps_pieces s a e b) in Hov by done.
  pose proof Hs as (Ha & Hp & Hle & Hst & _). pose proof He as (Hb0 & Hp' & Hle' & Hst' & _).
  rewrite Hst, Hst', seqLT_near by lia. destruct (Z.ltb_spec a b); cbn.
  - apply (chain_cons lo a); [done|lia|]. apply (chain_cons _ b); [done|lia|done].
  - apply (chain_cons lo b); [done|lia|]. apply IH; [lia|done].
Qed.

Lemma chain_pieces lo segs : chain lo segs -> Forall (fun s => exists a, piece s a) segs.
Proof. induction 1; constructor; eauto. Qed.

(** Segments that share no byte, whichever comes first. *)
Definition clear_of (s e : tcpOOOSegment) : Prop := overlaps s e = false.

Lemma clear_of_sym s e : clear_of s e -> clear_of e s.
Proof. unfold clear_of, overlaps, seqOverlap. by rewrite andb_comm. Qed.

Lemma rb_insert_clear rb s a :
  len data < 2 ^ 31 -> recvBuffer_ok rb -> piece s a ->
  Forall (clear_of s) (rb_segments rb) -> len (rb_segments rb) < rb_maxGaps rb ->
  exists rb', rb_insert rb s = (rb', true) /\ recvBuffer_ok rb' /\
    rb_segments rb' ≡ₚ s :: rb_segments rb /\ rb_maxGaps rb' = rb_maxGaps rb.
Proof.
  intros Hd [Hc Hlen] Hs Hcl Hroom. unfold rb_insert.
  assert (Hov : existsb (overlaps s) (rb_segments rb) = false).
  { apply not_true_iff_false. intros He. apply existsb_exists in He as (e & He & Ho).
    rewrite Forall_forall in Hcl. apply list_elem_of_In in He.
    specialize (Hcl e He). unfold clear_of in Hcl. congruence. }
  rewrite insertScan_spec by done. rewrite Hov. cbn [Nat.add].
  rewrite (proj2 (Z.leb_gt _ _)) by lia. eexists. split; [done|].
  set (i := firstAfter s (rb_segments rb)).
  assert (Hperm : take i (rb_segments rb) ++ s :: drop i (rb_segments rb)
                  ≡ₚ s :: rb_segments rb).
  { rewrite <- Permutation_middle. by rewrite take_drop. }
  split; [|done]. split; cbn.
  - apply (chain_insert s a); auto. apply Hs.
  - unfold len in *. rewrite Hperm. cbn. lia.
Qed.

(** Delivers segments to the buffer one by one, noting whether each was taken. *)
Fixpoint insertAll (rb : tcpRecvBuffer) (arrivals : list tcpOOOSegment)
  : tcpRecvBuffer * bool :=
  match arrivals with
  | [] => (rb, true)
  | s :: arrivals =>
      let '(rb, ok) := rb_insert rb s in
      let '(rb, oks) := insertAll rb arrivals in (rb, ok && oks)
  end.

Lemma insertAll_spec arrivals rb :
  len data < 2 ^ 31 -> recvBuffer_ok rb ->
  Forall (fun s => exists a, piece s a) arrivals ->
  StronglySorted clear_of arrivals ->
  Forall (fun s => Forall (clear_of s) (rb_segments rb)) arrivals ->
  len (rb_segments rb) + len arrivals <= rb_maxGaps rb ->
  exists rb', insertAll rb arrivals = (rb', true) /\ recvBuffer_ok rb' /\
    rb_segments rb' ≡ₚ arrivals ++ rb_segments rb /\ rb_maxGaps rb' = rb_maxGaps rb.
Proof.
  intros Hd. revert rb. induction arrivals as [|s arrivals IH]; intros rb Hok Hp Hs Hcl Hroom.
  - by exists rb.
  - apply Forall_cons in Hp as [[a Ha] Hp]. apply StronglySorted_inv in Hs as [Hs Hsa].
    apply Forall_cons in Hcl as [Hcls Hcl]. rewrite len_cons in Hroom.
    pose proof (len_nonneg arrivals).
    destruct (rb_insert_clear rb s a) as (rb1 & Hins1 & Hok1 & Hperm1 & Hmax1); auto; [lia|].
    destruct (IH rb1) as (rb2 & Hins & Hok2 & Hperm2 & Hmax2); auto.
    + rewrite Forall_forall in *. intros e He. rewrite Hperm1. constructor.
      * apply clear_of_sym. auto.
      * auto.
    + unfold len in *. rewrite Hperm1, Hmax1. cbn. lia.
    + exists rb2. cbn. rewrite Hins1, Hins. split_and!; auto; [|congruence].
      rewrite Hperm2, Hperm1. symmetry. apply Permutation_middle.
Qed.

End Reassembly.

(** The segments of a stream cut into [chunks], the first at offset [a]. *)
Fixpoint segmentsOf (isn a : Z) (chunks : list bytes) : list tcpOOOSegment :=
  match chunks with
  | [] => []
  | c :: chunks =>
      mkOOOSegment (u32 (isn + a)) (u32 (isn + (a + len c))) c
        :: segmentsOf isn (a + len c) chunks
  end.

Lemma segmentsOf_chain isn pre chunks :
  Forall (fun c => 0 < len c) chunks ->
  chain isn (pre ++ concat chunks) (len pre) (segmentsOf isn (len pre) chunks).
Proof.
  intros Hc. revert pre. induction Hc as [|c chunks Hc Hall IH]; intros pre; cbn; [constructor|].
  apply (chain_cons _ _ _ (len pre)); [|lia|].
  - unfold piece. cbn. rewrite !len_app. pose proof (len_nonneg pre).
    pose proof (len_nonneg (concat chunks)). split_and!; auto; try lia.
    rewrite slice_app_r by lia.
    replace (len pre - len pre) with 0 by lia.
    replace (len pre + len c - len pre) with (len c) by lia.
    rewrite slice_app_l by lia. by rewrite slice_full.
  - cbn. specialize (IH (pre ++ c)). rewrite <- app_assoc, len_app in IH. done.
Qed.

(** Each segment of a cut stream ends at the end of the stream or where another
    segment starts. *)
Lemma segmentsOf_next isn a chunks s :
  s ∈ segmentsOf isn a chunks ->
  exists b, oo_seqStart s = seq_at isn b /\ a <= b <= a + sum_len chunks /\
    (b + len (oo_payload s) = a + sum_len chunks \/
     exists s', s' ∈ segmentsOf isn a chunks /\
       oo_seqStart s' = seq_at isn (b + len (oo_payload s))).
Proof.
  revert a. induction chunks as [|c chunks IH]; intros a; cbn; [set_solver|].
  pose proof (sum_len_nonneg chunks).
  pose proof (len_nonneg c). rewrite sum_len_cons, elem_of_cons. intros [->|Hs]; cbn.
  - exists a. split_and!; [done|lia|lia|]. destruct chunks as [|c' chunks]; cbn.
    + left. rewrite sum_len_nil. lia.
    + right. eexists. split; [right; left|]. done.
  - destruct (IH (a + len c) Hs) as (b & Hst & Hle & Hend). exists b.
    split_and!; [done|lia|lia|]. destruct Hend as [He|(s' & Hs' & He)]; [left; lia|].
    right. exists s'. split; [by right|done].
Qed.

Lemma segmentsOf_payloads isn a chunks : oo_payload <$> segmentsOf isn a chunks = chunks.
Proof. revert a; induction chunks; intros; cbn; f_equal; auto. Qed.

Lemma chain_clear isn data lo segs :
  len data < 2 ^ 31 -> chain isn data lo segs -> StronglySorted clear_of segs.
Proof.
  intros Hd. induction 1 as [|lo a s segs Hs Hlo Hc IH]; constructor; [done|].
  assert (Hfar : forall lo', a + len (oo_payload s) <= lo' -> chain isn data lo' segs ->
                 Forall (clear_of s) segs).
  { clear IH Hc. intros lo' Hle Hc. induction Hc as [|lo' b e segs He Hlo' Hc IH]; constructor.
    - unfold clear_of. rewrite (overlaps_pieces isn data s a e b) by done. lia.
    - apply IH. destruct He as (_ & ? & _). lia. }
  by apply (Hfar _ (Z.le_refl _)).
Qed.

(** * Properties *)

Lemma delivered_all isn chunks k' got kept :
  let data := concat chunks in
  len data < 2 ^ 31 -> Forall (fun c => 0 < len c) chunks ->
  collected isn data 0 k' (segmentsOf isn 0 chunks) got kept ->
  Forall (fun s => oo_seqStart s <> seq_at isn k') kept ->
  k' = len data /\ kept = [].
Proof.
  intros data Hd Hne Hcol Hlast. pose proof (segmentsOf_chain isn [] chunks Hne) as Hch.
  rewrite len_nil in Hch. change ([] ++ concat chunks) with data in Hch.
  pose proof (chain_pieces _ _ _ _ Hch) as Hpieces.
  destruct Hcol as (Hle & Hcat & Hperm & Hgot & Hend).
  assert (Hlen : len data = sum_len chunks) by apply sum_len_concat.
  assert (Hk : k' = len data).
  { destruct (decide (k' = len data)) as [|Hk]; [done|exfalso].
    assert (Hstart : exists s, s ∈ segmentsOf isn 0 chunks /\ oo_seqStart s = seq_at isn k').
    { destruct Hend as [->|(g & a & Hg & Hpg & Ha)].
      - destruct chunks as [|c chunks]; [done|]. eexists. split; [left|done].
      - assert (Hg' : g ∈ segmentsOf isn 0 chunks) by (rewrite <- Hperm; set_solver).
        destruct (segmentsOf_next _ _ _ _ Hg') as (b & Hst & Hb & Hnext).
        rewrite <- (piece_start_eq isn data g a b) in Hnext by (auto; lia).
        rewrite Ha in Hnext. destruct Hnext as [?|?]; [lia|done]. }
    destruct Hstart as (s & Hs & Hst). rewrite <- Hperm in Hs.
    apply elem_of_app in Hs as [Hs|Hs].
    - rewrite Forall_forall in Hgot. destruct (Hgot s Hs) as (a & Hpa & Hlt).
      rewrite (piece_start_eq isn data s a k') in Hlt by (auto; lia). lia.
    - rewrite Forall_forall in Hlast. by apply (Hlast s Hs). }
  split; [done|]. destruct kept as [|s kept]; [done|exfalso].
  assert (Hsum : sum_len (oo_payload <$> got) + sum_len (oo_payload <$> s :: kept) = sum_len chunks).
  { rewrite <- sum_len_app, <- fmap_app, <- (segmentsOf_payloads isn 0 chunks) at 1.
    rewrite <- !sum_len_concat. unfold len. f_equal.
    assert (Hp : oo_payload <$> (got ++ s :: kept) ≡ₚ oo_payload <$> segmentsOf isn 0 chunks)
      by (by rewrite Hperm).
    revert Hp. generalize (oo_payload <$> (got ++ s :: kept)), (oo_payload <$> segmentsOf isn 0 chunks).
    intros l1 l2 Hp. induction Hp; cbn; rewrite ?length_app; lia. }
  rewrite <- Hperm in Hpieces. apply Forall_app in Hpieces as [_ Hpieces].
  apply Forall_cons in Hpieces as [(a & _ & Hpos & _) _].
  rewrite <- (sum_len_concat (oo_payload <$> got)), Hcat, len_slice in Hsum by lia.
  cbn in Hsum. rewrite sum_len_cons in Hsum.
  pose proof (sum_len_nonneg (oo_payload <$> kept)). unfold fmap in *. lia.
Qed.

(** C14: reassembly.  A stream cut into non-empty segments and delivered to an
    empty buffer in any order (with room for all of them) is accepted whole, and
    [collectContiguous] then returns the stream in order, advances the expected
    sequence number past it (across the 2^32 wrap), and leaves nothing behind. *)
Theorem any_order_reassembly isn maxGaps chunks arrivals :
  len (concat chunks) < 2 ^ 31 -> Forall (fun c => 0 < len c) chunks ->
  arrivals ≡ₚ segmentsOf isn 0 chunks -> len arrivals <= maxGaps ->
  exists rb payloads,
    insertAll (newTCPRecvBuffer maxGaps) arrivals = (rb, true) /\
    rb_collectContiguous rb (u32 isn) =
      Some (payloads, u32 (isn + len (concat chunks)), newTCPRecvBuffer maxGaps) /\
    concat payloads = concat chunks.
Proof.
  intros Hd Hne Hperm Hroom. set (data := concat chunks) in *.
  pose proof (segmentsOf_chain isn [] chunks Hne) as Hch.
  rewrite len_nil in Hch. change ([] ++ concat chunks) with data in Hch.
  pose proof (chain_pieces _ _ _ _ Hch) as Hpieces.
  destruct (insertAll_spec isn data arrivals (newTCPRecvBuffer maxGaps)) as
    (rb & Hins & _ & Hsegs & Hmax); auto.
  - split; [constructor|]. cbn. rewrite len_nil. pose proof (len_nonneg arrivals). lia.
  - by rewrite Hperm.
  - eapply StronglySorted_perm; [apply clear_of_sym|symmetry; exact Hperm|].
    by eapply chain_clear.
  - apply Forall_forall. intros. constructor.
  - cbn in Hsegs. rewrite app_nil_r, Hperm in Hsegs.
    pose proof (len_nonneg data) as Hd0.
    destruct (collectLoop_spec isn data (S (length (rb_segments rb))) (rb_segments rb) 0)
      as (got & k' & kept & Hloop & Hcol & Hlast); [lia| |lia|lia|].
    { by rewrite Hsegs. }
    assert (Hcol' : collected isn data 0 k' (segmentsOf isn 0 chunks) got kept).
    { destruct Hcol as (? & ? & Hp & ?). split; [done|]. split; [done|]. split; [|done].
      by rewrite Hp. }
    destruct (delivered_all isn chunks k' got kept Hd Hne Hcol' Hlast) as [-> ->].
    exists rb, (oo_payload <$> got). split; [done|]. unfold rb_collectContiguous.
    unfold seq_at in Hloop. rewrite Z.add_0_r in Hloop. rewrite Hloop.
    destruct Hcol as (_ & Hcat & _). rewrite Hcat. split; [|by rewrite slice_full].
    destruct rb as [segs mg]; cbn in *. by rewrite Hmax.
Qed.

Lemma any_order_reassembly_witness :
  exists rb payloads,
    insertAll (newTCPRecvBuffer 4) [mkOOOSegment 1 3 [12; 13]; mkOOOSegment (2 ^ 32 - 1) 1 [10; 11]]
      = (rb, true) /\
    rb_collectContiguous rb (u32 (2 ^ 32 - 1)) =
      Some (payloads, u32 (2 ^ 32 - 1 + len (concat [[10; 11]; [12; 13]])), newTCPRecvBuffer 4) /\
    concat payloads = concat [[10; 11]; [12; 13]].
Proof.
  apply any_order_reassembly.
  - reflexivity.
  - repeat constructor.
  - apply Permutation_swap.
  - reflexivity || (cbn; discriminate).
Defined.

(** [insert] keeps the buffer ordered and disjoint.  It takes a segment of
    the stream exactly when no buffered segment shares a byte with it and fewer
    than [maxGaps] segments are buffered; a refused segment changes nothing. *)
Theorem insert_ordered isn data rb s a :
  len data < 2 ^ 31 -> recvBuffer_ok isn data rb -> piece isn data s a ->
  let '(rb', ok) := rb_insert rb s in
  recvBuffer_ok isn data rb' /\
  (if ok
   then rb_segments rb' ≡ₚ s :: rb_segments rb
   else rb' = rb /\
        (len (rb_segments rb) = rb_maxGaps rb \/
         exists e b, e ∈ rb_segments rb /\ piece isn data e b /\
           a < b + len (oo_payload e) /\ b < a + len (oo_payload s))).
Proof.
  intros Hd Hok Hs. pose proof Hok as [Hc Hlen].
  destruct (existsb (overlaps s) (rb_segments rb)) eqn:Hov.
  - unfold rb_insert. rewrite insertScan_spec by done. rewrite Hov. split; [done|].
    split; [done|]. right. apply existsb_exists in Hov as (e & He & Ho).
    apply list_elem_of_In in He. pose proof (chain_pieces _ _ _ _ Hc) as Hp.
    rewrite Forall_forall in Hp. destruct (Hp e He) as [b Hb]. exists e, b.
    rewrite (overlaps_pieces isn data s a e b) in Ho by done. split_and!; auto; lia.
  - destruct (decide (len (rb_segments rb) < rb_maxGaps rb)) as [Hroom|Hfull].
    + destruct (rb_insert_clear isn data rb s a) as (rb' & -> & Hok' & Hperm & _); auto.
      apply Forall_forall. intros e He. unfold clear_of. apply not_true_iff_false.
      intros Ho. apply not_true_iff_false in Hov. apply Hov, existsb_exists.
      exists e. split; [by apply list_elem_of_In|done].
    + unfold rb_insert. rewrite insertScan_spec by done. rewrite Hov.
      rewrite (proj2 (Z.leb_le _ _)) by lia. split; [done|]. split; [done|]. left. lia.
Qed.

(** A cumulative acknowledgment inside the window removes exactly the
    segments that end at or before it, a prefix of the queue; the oldest segment
    left is the first with unacknowledged bytes; the bytes acknowledged and the
    bytes still in flight add up to what was in flight. *)
Theorem ack_releases_prefix isn sb una nxt now k :
  sendBuffer_ok sb -> inStream isn una (sb_segments sb) nxt ->
  nxt - una < 2 ^ 31 -> una <= k <= nxt ->
  let '(sb', bytesAcked, _) := sb_ack sb now (u32 (isn + k)) in
  sendBuffer_ok sb' /\
  (exists gone, sb_segments sb = gone ++ sb_segments sb' /\ seg_bytes gone = bytesAcked) /\
  (exists una', inStream isn una' (sb_segments sb') nxt /\ una <= una' <= k /\
    una' = una + bytesAcked /\
    forall s, sb_oldest sb' = Some s -> k < una' + len (ss_payload s)) /\
  bytesAcked + sb_inFlight sb' = sb_inFlight sb.
Proof.
  intros [Hused Hcap] Hs Hw Hk. unfold sb_ack. rewrite ackLoop_spec.
  set (segs := sb_segments sb) in *. set (n := u32 (isn + k)) in *.
  pose proof (seg_bytes_split n segs) as Hsplit. pose proof (seg_bytes_nonneg (keptSegs n segs)).
  pose proof (seg_bytes_nonneg (ackedSegs n segs)).
  destruct (ack_splits isn una segs nxt k Hs Hw Hk) as (mid & Ha & Hkp & Hm & Hhead).
  fold n in Ha, Hkp, Hhead. split; [|split; [|split]].
  - unfold sendBuffer_ok; cbn. lia.
  - exists (ackedSegs n segs). split; [|by rewrite Z.add_0_l].
    cbn. clear -Hs Hw Hk. subst n.
    induction Hs as [a|a s segs b Hst Hen Hpos Hs IH]; [done|].
    pose proof (inStream_le _ _ _ _ Hs) as Hle. pose proof Hen as Hen'.
    rewrite <- Z.add_assoc in Hen'. unfold ackedSegs, keptSegs in *. cbn.
    rewrite (seqEnd_acked isn s _ k Hen') by lia.
    destruct (Z.leb_spec (a + len (ss_payload s)) k); cbn.
    + f_equal. apply IH; lia.
    + destruct (ack_none isn _ _ _ k Hs) as [E1 E2]; [lia|lia|].
      unfold ackedSegs, keptSegs in *. by rewrite E1, E2.
  - exists mid. apply inStream_bytes in Ha. unfold sb_oldest. cbn.
    split_and!; auto; lia.
  - unfold sb_inFlight. cbn. lia.
Qed.

Definition sendExample : tcpSendBuffer :=
  mkSendBuffer [mkSendSegment (2 ^ 32 - 1) 2 [1; 2; 3] 0 0; mkSendSegment 2 4 [4; 5] 1 0] 100 5.

(** * Option parsing properties *)

(** The options built for a SYN-ACK parse back to the announced MSS and, if
    the peer offered window scaling, the announced scale. *)
Theorem synack_options_roundtrip mss wndScale has :
  is_u16 mss -> is_u8 wndScale ->
  parseTCPOptions 4 (buildSynAckOptions mss wndScale has) =
  Some (mkTcpOptions mss (if has then wndScale else 0) true has).
Proof.
  intros Hm Hw. pose proof (unbe_be 2 mss) as Hbe.
  change (8 * Z.of_nat 2) with 16 in Hbe. rewrite wrap_small in Hbe by done.
  unfold buildSynAckOptions. pose proof (length_be 2 mss) as Hl.
  destruct (be 2 mss) as [|b1 [|b2 [|]]] eqn:Hb; try done.
  destruct has; lazy -[unbe]; rewrite Hbe; done.
Qed.

(** The option parser returns within one iteration per byte plus one, for
    every option block in which no MSS or window-scale option has length 0. *)
Theorem parse_options_terminates options :
  is_bytes options -> no_zero_length options ->
  is_Some (parseTCPOptions (S (length options)) options).
Proof.
  intros Hb Hz. apply parseOptionsFrom_total; [done|done|lia|]. unfold len. lia.
Qed.

(** A guest SYN whose option block starts with an MSS option of length 0
    keeps the parser in its loop: no number of iterations returns. *)
Theorem parse_options_stuck fuel rest :
  parseTCPOptions fuel (tcpOptMSS :: 0 :: rest) = None.
Proof.
  unfold parseTCPOptions. generalize noOptions.
  induction fuel as [|fuel IH]; intros opts; [done|]. cbn [parseOptionsFrom].
  unfold parseOptionAt. rewrite !len_cons. pose proof (len_nonneg rest).
  rewrite (proj2 (Z.ltb_lt 0 (1 + (1 + len rest)))) by lia. cbn [negb].
  change (at_ (tcpOptMSS :: 0 :: rest) 0) with tcpOptMSS.
  change (at_ (tcpOptMSS :: 0 :: rest) (0 + 1)) with 0. cbn -[Z.ltb Z.leb Z.add].
  rewrite (proj2 (Z.ltb_lt (0 + 1) (1 + (1 + len rest)))) by lia.
  rewrite andb_false_r. apply IH.
Qed.

(** * RTT estimator *)

Inductive rttOp := RttUpdate (rtt : Z) | RttBackoff | RttReset.

Definition rttStep (r : tcpRTTEstimator) (op : rttOp) : tcpRTTEstimator :=
  match op with
  | RttUpdate rtt => rtt_update r rtt
  | RttBackoff => rtt_backoff r
  | RttReset => rtt_resetBackoff r
  end.

(** Samples up to [B] nanoseconds; nothing overflows [int64] below 2^59. *)
Definition sample_ok (B : Z) (op : rttOp) : Prop :=
  match op with RttUpdate rtt => 0 <= rtt <= B | _ => True end.

Definition rtt_ok (B : Z) (r : tcpRTTEstimator) : Prop :=
  minRTO <= r_rto r <= maxRTO /\ 0 <= r_backoffCount r <= maxBackoffCount /\
  0 <= r_srtt r <= B /\ 0 <= r_rttVar r <= B.

Lemma i64_small z : - 2 ^ 63 <= z < 2 ^ 63 -> i64 z = z.
Proof. intros. apply swrap_near; lia. Qed.

Lemma godiv_pos a b : 0 <= a -> 0 < b -> godiv a b = a / b.
Proof. intros. apply Z.quot_div_nonneg; lia. Qed.

Lemma rtt_update_ok B r rtt : B < 2 ^ 59 -> 0 <= rtt <= B -> rtt_ok B r -> rtt_ok B (rtt_update r rtt).
Proof.
  unfold rtt_ok, rtt_update, minRTO, maxRTO. change (2 ^ 59) with 576460752303423488.
  intros HB Hrtt (Hrto & Hbk & Hs & Hv).
  destruct (r_hasInitial r); cbn;
  repeat match goal with
  | |- context [i64 ?z] => rewrite (i64_small z) by (pow2; repeat case_match; dlia)
  | |- context [godiv ?a ?b] => rewrite (godiv_pos a b) by (repeat case_match; dlia)
  end; repeat case_match; dlia.
Qed.

Lemma rtt_backoff_ok B r : rtt_ok B r -> rtt_ok B (rtt_backoff r).
Proof.
  unfold rtt_ok, rtt_backoff, minRTO, maxRTO, maxBackoffCount. intros (Hrto & Hbk & Hs & Hv).
  rewrite i64_small by (pow2; lia). rewrite godiv_pos by lia.
  destruct (Z.ltb_spec (r_backoffCount r) 5); cbn; case_match; cbn; dlia.
Qed.

(** C40: whatever samples (up to 2^59 ns), timeouts and resets a connection sees,
    the retransmission timeout stays between 50 ms and 60 s, at most five
    backoffs are counted, and the smoothed RTT and its variance stay within the
    range of the samples, so no [int64] arithmetic overflows. *)
Theorem rto_always_bounded B ops :
  0 <= B < 2 ^ 59 -> Forall (sample_ok B) ops ->
  rtt_ok B (foldl rttStep newTCPRTTEstimator ops).
Proof.
  intros HB Hops. assert (Hinit : rtt_ok B newTCPRTTEstimator).
  { unfold rtt_ok, newTCPRTTEstimator, minRTO, maxRTO, initialRTO, maxBackoffCount. cbn. lia. }
  revert Hinit. generalize newTCPRTTEstimator.
  induction Hops as [|op ops Hop Hops IH]; intros r Hr; cbn; [done|]. apply IH.
  destruct op; cbn.
  - apply rtt_update_ok; [lia|done|done].
  - by apply rtt_backoff_ok.
  - destruct Hr as (? & ? & ?). unfold rtt_ok. cbn. unfold maxBackoffCount. split_and!; lia.
Qed.

Lemma rto_always_bounded_witness :
  rtt_ok 2000000000 (foldl rttStep newTCPRTTEstimator
    [RttUpdate 30000000; RttBackoff; RttUpdate 2000000000; RttReset]).
Proof.
  apply rto_always_bounded; [cbn; lia|]. repeat constructor; cbn; lia.
Defined.

(** * Congestion control *)

Inductive ccOp := CCAck (bytesAcked : Z) | CCDupAck | CCTimeout.

Definition ccStep (cc : tcpCongestionControl) (op : ccOp) : result unit tcpCongestionControl :=
  match op with
  | CCAck n => cc_onAck cc n
  | CCDupAck => Ok (fst (cc_onDupAck cc))
  | CCTimeout => Ok (cc_onTimeout cc)
  end.

Fixpoint ccRun (cc : tcpCongestionControl) (ops : list ccOp) : result unit tcpCongestionControl :=
  match ops with
  | [] => Ok cc
  | op :: ops => cc ← ccStep cc op; ccRun cc ops
  end.

(** [uint32] windows and a positive slow-start threshold. *)
Definition cc_ok (mss : Z) (cc : tcpCongestionControl) : Prop :=
  is_u32 (cc_cwnd cc) /\ is_u32 (cc_ssthresh cc) /\ 0 < cc_ssthresh cc /\
  cc_mss cc = mss /\ 0 <= cc_dupAcks cc.

Lemma cc_halve_ok mss cc : 0 < mss < 2 ^ 16 -> cc_ok mss cc -> cc_ok mss (cc_halve cc).
Proof.
  unfold cc_ok, cc_halve. intros Hm (Hc & Hs & Hp & Hms & Hd). cbn.
  rewrite Hms, !wrap_small by width. unfold in_width in *. pow2. case_match; dlia.
Qed.

Lemma ccStep_ok mss cc op :
  0 < mss < 2 ^ 16 -> cc_ok mss cc -> exists cc', ccStep cc op = Ok cc' /\ cc_ok mss cc'.
Proof.
  intros Hm Hok. pose proof (cc_halve_ok mss cc Hm Hok) as Hh.
  destruct Hok as (Hc & Hs & Hp & Hms & Hd). destruct op as [n| |]; cbn.
  - unfold cc_onAck. cbn. destruct (Z.ltb_spec (cc_cwnd cc) (cc_ssthresh cc)).
    + eexists. split; [done|]. unfold cc_ok. cbn. auto using wrap_range with lia.
    + rewrite (proj2 (Z.eqb_neq _ _)) by lia. eexists. split; [done|].
      unfold cc_ok. cbn. auto using wrap_range with lia.
  - eexists. split; [done|]. unfold cc_onDupAck. cbn.
    destruct (cc_dupAcks cc + 1 =? fastRetransmitThreshold); [|destruct (_ <? _)]; cbn.
    + destruct Hh as (? & ? & ? & ? & ?). unfold cc_ok, cc_halve in *. cbn in *.
      split_and!; auto using wrap_range with lia.
    + unfold cc_ok. cbn. split_and!; auto using wrap_range with lia.
    + unfold cc_ok. cbn. split_and!; auto. lia.
  - eexists. split; [done|]. destruct Hh as (? & ? & ? & ? & ?).
    unfold cc_ok, cc_onTimeout, cc_halve in *. cbn in *. split_and!; auto; width.
Qed.

(** For every positive MSS, no sequence of acknowledgments (of any size),
    duplicate acknowledgments and timeouts makes congestion control divide by
    zero; the windows stay [uint32] values and the threshold stays positive. *)
Theorem congestion_never_panics mss ops :
  0 < mss < 2 ^ 16 ->
  exists cc, ccRun (newTCPCongestionControl mss) ops = Ok cc /\ cc_ok mss cc.
Proof.
  intros Hm. assert (Hinit : cc_ok mss (newTCPCongestionControl mss)).
  { unfold cc_ok. cbn. rewrite wrap_small by (unfold initialCwndSegments; width).
    unfold initialCwndSegments. width. }
  revert Hinit. generalize (newTCPCongestionControl mss).
  induction ops as [|op ops IH]; intros cc Hok; cbn; [eauto|].
  destruct (ccStep_ok mss cc op Hm Hok) as (cc' & -> & Hok'). cbn. by apply IH.
Qed.

Lemma onDupAck_counts cc : cc_dupAcks (fst (cc_onDupAck cc)) = cc_dupAcks cc + 1.
Proof. unfold cc_onDupAck. cbn. by repeat case_match. Qed.

Lemma onDupAck_retransmits cc :
  snd (cc_onDupAck cc) = (cc_dupAcks cc + 1 =? fastRetransmitThreshold).
Proof. unfold cc_onDupAck. cbn. by repeat case_match. Qed.

(** Fast retransmit.  After an acknowledgment of new data or a timeout, of
    [n] duplicate acknowledgments exactly the third asks for a retransmission. *)
Theorem fast_retransmit_once cc n :
  cc_dupAcks cc = 0 ->
  snd <$> imap (fun i _ => cc_onDupAck (Nat.iter i (fun c => fst (cc_onDupAck c)) cc))
            (replicate n ())
  = imap (fun i _ => Nat.eqb i 2) (replicate n ()).
Proof.
  intros H0. assert (Hcount : forall i, cc_dupAcks (Nat.iter i (fun c => fst (cc_onDupAck c)) cc)
                                        = Z.of_nat i).
  { induction i as [|i IH]; [done|]. rewrite Nat.iter_succ, onDupAck_counts, IH. lia. }
  apply list_eq. intros i. rewrite list_lookup_fmap, !list_lookup_imap.
  destruct (replicate n () !! i) as [[]|]; cbn; [|done]. f_equal.
  rewrite onDupAck_retransmits, Hcount. unfold fastRetransmitThreshold.
  destruct (Nat.eqb_spec i 2); [apply Z.eqb_eq | apply Z.eqb_neq]; lia.
Qed.
