(* ===== verification/Packets.v ===== *)
(** Packets of the user-mode network stack: the header codecs, checksums, source checks and
    senders of [src/internal/core/netstack/netstack.go] and [source_validation.go].

    A frame is built in a pooled buffer that still holds bytes of an earlier one; the
    buffer is an argument of the senders.  [tcp_frame_roundtrip] and [udp_frame_roundtrip]:
    whatever it held, the frame that is sent parses back to exactly what was asked for and
    all its checksums verify.  [accepted_source_is_lease]: the parser of the stack sees
    in an accepted guest frame the source address that was checked. *)

From S2P Require Import Prelude.

(** * Constants *)

Abbreviation etherTypeIPv4 := 0x0800%Z.
Abbreviation etherTypeIPv6 := 0x86dd%Z.
Abbreviation etherTypeARP := 0x0806%Z.
Abbreviation tcpProtocolNumber := 6%Z.
Abbreviation udpProtocolNumber := 17%Z.
Abbreviation icmpProtocol := 1%Z.
Abbreviation arpHardwareEthernet := 1%Z.
Abbreviation arpProtoIPv4 := 0x0800%Z.
Definition tcpHeaderLen := 20.
Definition udpHeaderLen := 8.
Definition ipv4HeaderLen := 20.
Definition ethernetHeaderLen := 14.

(** A [uint64] that holds a 48-bit address or the value that means none. *)
Abbreviation macMask := (2 ^ 48 - 1)%Z.
Abbreviation macUnset := (2 ^ 64 - 1)%Z.

Inductive netError :=
| HeaderTooShort
| BadVersion
| LengthMismatch
| BufferTooSmall
| GuestMACUnknown
| HostMACUnknown
| Detached.

Abbreviation R := (result netError).

(** [net.IP.To4]. *)
Definition To4 (ip : bytes) : option bytes :=
  if len ip =? 4 then Some ip
  else if (len ip =? 16) && bool_decide (slice ip 0 12 = zeros 10 ++ [0xff; 0xff]) then Some (slice ip 12 16)
  else None.

Definition IPv4zero : bytes := zeros 10 ++ [0xff; 0xff] ++ zeros 4.

(** [net.IP.Equal]: a 16-byte address that embeds an IPv4 address equals the 4-byte one. *)
Definition Equal (a b : bytes) : bool :=
  if len a =? len b then bool_decide (a = b)
  else if (len a =? 4) && (len b =? 16) then bool_decide (slice b 0 12 = zeros 10 ++ [0xff; 0xff] /\ a = slice b 12 16)
  else if (len a =? 16) && (len b =? 4) then bool_decide (slice a 0 12 = zeros 10 ++ [0xff; 0xff] /\ b = slice a 12 16)
  else false.

(** * Hardware addresses *)

Definition macToUint64 (mac : bytes) : option Z := if len mac =? 6 then Some (unbe mac) else None.

Definition macIsSet (v : Z) : bool := negb (v =? macUnset).

Definition writeMAC (dst : bytes) (mac : Z) : bytes :=
  if (len dst <? 6) || negb (macIsSet mac) then dst else put dst 0 (be 6 mac).

Definition isBroadcast (addr : bytes) : bool := forallb (fun b => b =? 0xff) addr.

Definition equalHardwareAddr (a b : bytes) : bool :=
  if negb (len a =? 6) || negb (len b =? 6) then false else bool_decide (a = b).

(** * Checksums *)

(** The summation loops, in 32 bits; an odd last byte counts as the high half of a word. *)
Fixpoint sumWords (data : bytes) (sum : Z) : Z :=
  match data with
  | [] => sum
  | [a] => wrap 32 (sum + Z.shiftl a 8)
  | a :: b :: data => sumWords data (wrap 32 (sum + unbe [a; b]))
  end.

(** The carry loop; a 32-bit sum needs two rounds. *)
Fixpoint foldCarry (fuel : nat) (sum : Z) : Z :=
  match fuel with
  | O => sum
  | S fuel =>
      if negb (Z.shiftr sum 16 =? 0) then foldCarry fuel (wrap 32 (Z.land sum 0xffff + Z.shiftr sum 16)) else sum
  end.

Definition checksumWithInitial (data : bytes) (initial : Z) : Z :=
  wrap 16 (Z.lnot (wrap 16 (foldCarry 2 (sumWords data initial)))).

Definition checksum (data : bytes) : Z := checksumWithInitial data 0.

(** The same loop with the test [sum > 0xffff]. *)
Fixpoint foldCarryIPv4 (fuel : nat) (sum : Z) : Z :=
  match fuel with
  | O => sum
  | S fuel =>
      if 0xffff <? sum then foldCarryIPv4 fuel (wrap 32 (Z.shiftr sum 16 + Z.land sum 0xffff)) else sum
  end.

Definition ipv4Checksum (data : bytes) : Z :=
  wrap 16 (Z.lnot (wrap 16 (foldCarryIPv4 2 (sumWords data 0)))).

(** Slicing the nil that [To4] returns for other addresses panics. *)
Definition pseudoHeaderChecksum (src dst : bytes) (protocol length : Z) : R Z :=
  match To4 src, To4 dst with
  | Some ip4, Some dst4 =>
      let sum := wrap 32 (unbe (slice ip4 0 2)) in
      let sum := wrap 32 (sum + unbe (slice ip4 2 4)) in
      let sum := wrap 32 (sum + unbe (slice dst4 0 2)) in
      let sum := wrap 32 (sum + unbe (slice dst4 2 4)) in
      let sum := wrap 32 (sum + protocol) in
      Ok (wrap 32 (sum + wrap 32 length))
  | _, _ => Panic
  end.

Definition udpChecksum (src dst payload : bytes) : R Z :=
  ps ← pseudoHeaderChecksum src dst udpProtocolNumber (len payload);
  Ok (checksumWithInitial payload ps).

Definition tcpChecksum (src dst payload : bytes) : R Z :=
  ps ← pseudoHeaderChecksum src dst tcpProtocolNumber (len payload);
  Ok (checksumWithInitial payload ps).

(** * IPv4 and Ethernet headers *)

Record ipv4Header := mkIPv4Header {
  version : Z; ihl : Z; tos : Z; length_ : Z; ident : Z; flags : Z; ttl : Z; protocol : Z;
  hchecksum : Z; src : bytes; dst : bytes; options : bytes; payload : bytes;
}.

Definition parseIPv4Header (data : bytes) : R ipv4Header :=
  if len data <? ipv4HeaderLen then Err HeaderTooShort
  else
    let verIHL := at_ data 0 in
    let v := Z.shiftr verIHL 4 in
    let ihl := Z.land verIHL 0x0f in
    if negb (v =? 4) then Err BadVersion
    else
      let headerLen := ihl * 4 in
      if len data <? headerLen then Err LengthMismatch
      else
        Ok (mkIPv4Header v ihl (at_ data 1) (unbe (slice data 2 4)) (unbe (slice data 4 6))
              (unbe (slice data 6 8)) (at_ data 8) (at_ data 9) (unbe (slice data 10 12))
              (slice data 12 16) (slice data 16 20)
              (if ipv4HeaderLen <? headerLen then slice data ipv4HeaderLen headerLen else [])
              (slice data headerLen (len data))).

Definition buildEthernetHeaderInto (buf : bytes) (dstMac srcMac etherType : Z) : R bytes :=
  if len buf <? ethernetHeaderLen then Panic
  else
    let buf := put buf 0 (writeMAC (slice buf 0 6) dstMac) in
    let buf := put buf 6 (writeMAC (slice buf 6 12) srcMac) in
    Ok (put buf 12 (be 2 etherType)).

(** The fields before the checksum is known. *)
Definition ipv4Fields (packet src dst : bytes) (protocol payloadLen : Z) : bytes :=
  let packet := put packet 0 [Z.lor (Z.shiftl 4 4) (ipv4HeaderLen / 4)] in
  let packet := put packet 1 [0] in
  let packet := put packet 2 (be 2 (wrap 16 (ipv4HeaderLen + payloadLen))) in
  let packet := put packet 4 (be 2 0) in
  let packet := put packet 6 (be 2 0) in
  let packet := put packet 8 [64] in
  let packet := put packet 9 [protocol] in
  let packet := put packet 12 (take 4 (default [] (To4 src))) in
  let packet := put packet 16 (take 4 (default [] (To4 dst))) in
  put (put packet 10 [0]) 11 [0].

Definition buildIPv4HeaderInto (packet src dst : bytes) (protocol payloadLen : Z) : R bytes :=
  if len packet <? ipv4HeaderLen then Panic
  else
    let packet := ipv4Fields packet src dst protocol payloadLen in
    let check := ipv4Checksum (slice packet 0 ipv4HeaderLen) in
    Ok (put packet 10 (be 2 check)).

(** * TCP headers *)

Record tcpHeader := mkTCPHeader {
  srcPort : Z; dstPort : Z; seq : Z; ack : Z; dataOff : Z; tflags : Z; window : Z;
  tchecksum : Z; urgent : Z; toptions : bytes; tpayload : bytes;
}.

Definition parseTCPHeader (data : bytes) : R tcpHeader :=
  if len data <? tcpHeaderLen then Err HeaderTooShort
  else
    let hdrLen := wrap 8 (Z.shiftr (at_ data 12) 4 * 4) in
    if len data <? hdrLen then Err LengthMismatch
    else
      Ok (mkTCPHeader (unbe (slice data 0 2)) (unbe (slice data 2 4)) (unbe (slice data 4 8))
            (unbe (slice data 8 12)) (at_ data 12) (at_ data 13) (unbe (slice data 14 16))
            (unbe (slice data 16 18)) (unbe (slice data 18 20))
            (if tcpHeaderLen <? hdrLen then slice data tcpHeaderLen hdrLen else [])
            (slice data hdrLen (len data))).

(** * Sending *)

(** The addresses of the stack that the senders use. *)
Record NetStack := mkNetStack {
  hostMAC : Z;
  guestMAC : Z;
  observedGuestMAC : Z;
  attached : bool;
}.

Definition guestMACForTransmit (ns : NetStack) : Z :=
  if macIsSet (observedGuestMAC ns) then observedGuestMAC ns
  else if macIsSet (guestMAC ns) then guestMAC ns
  else macUnset.

(** The frame handed to the interface. *)
Definition sendFrame (ns : NetStack) (frame : bytes) : R bytes :=
  if attached ns then Ok frame else Err Detached.

Record tcpFourTuple := mkFourTuple { srcIP : bytes; dstIP : bytes; tupleSrc : Z; tupleDst : Z }.

(** Options padded to whole words. *)
Definition padOptions (options : bytes) : bytes :=
  if negb (len options mod 4 =? 0) then copy_into (zeros ((len options + 3) / 4 * 4)) options else options.

(** The segment before its checksum is known; [packet] is the part of the pooled buffer. *)
Definition tcpFields (packet : bytes) (sport dport seq ack flags : Z) (payload options : bytes) : bytes :=
  let headerLen := tcpHeaderLen + len options in
  let packet := put packet 0 (zeros headerLen) in
  let packet := put packet 0 (be 2 sport) in
  let packet := put packet 2 (be 2 dport) in
  let packet := put packet 4 (be 4 seq) in
  let packet := put packet 8 (be 4 ack) in
  let packet := put packet 12 [wrap 8 (Z.shiftl (wrap 8 (headerLen / 4)) 4)] in
  let packet := put packet 13 [wrap 8 flags] in
  let packet := put packet 14 (be 2 0xffff) in
  let packet := if 0 <? len options then put packet tcpHeaderLen options else packet in
  let packet := put packet headerLen payload in
  put packet 16 (be 2 0).

(** [frame] is the buffer [getEthernetFrameBuffer] returns. *)
Definition sendTCPPacketWithOptions (ns : NetStack) (frame localIPv4 : bytes) (key : tcpFourTuple)
    (seq ack flags : Z) (payload options : bytes) : R bytes :=
  let srcIP_ := localIPv4 in
  let dstIP_ := srcIP key in
  let options := padOptions options in
  let tcpLen := tcpHeaderLen + len options + len payload in
  let start := ethernetHeaderLen + ipv4HeaderLen in
  let packet := tcpFields (slice frame start (start + tcpLen)) (tupleDst key) (tupleSrc key) seq ack flags
                  payload options in
  check ← tcpChecksum srcIP_ dstIP_ packet;
  let packet := put packet 16 (be 2 check) in
  let frame := put frame start packet in
  header ← buildIPv4HeaderInto (slice frame ethernetHeaderLen start) srcIP_ dstIP_ tcpProtocolNumber (len packet);
  let frame := put frame ethernetHeaderLen header in
  let dstMAC := guestMACForTransmit ns in
  if negb (macIsSet dstMAC) then Err GuestMACUnknown
  else
    eth ← buildEthernetHeaderInto (slice frame 0 ethernetHeaderLen) dstMAC (hostMAC ns) etherTypeIPv4;
    sendFrame ns (put frame 0 eth).

Definition sendTCPPacket (ns : NetStack) (frame localIPv4 : bytes) (key : tcpFourTuple)
    (seq ack flags : Z) (payload : bytes) : R bytes :=
  sendTCPPacketWithOptions ns frame localIPv4 key seq ack flags payload [].

(** The reset that answers an unexpected segment. *)
Definition sendRST (ns : NetStack) (frame hostIPv4 : bytes) (h : ipv4Header) (hdr : tcpHeader) : R bytes :=
  let key := mkFourTuple (copy_into (zeros 4) (default [] (To4 (src h)))) (copy_into (zeros 4) (default [] (To4 (dst h))))
               (srcPort hdr) (dstPort hdr) in
  let localIPv4 := copy_into (zeros 4) (default hostIPv4 (To4 (dst h))) in
  sendTCPPacket ns frame localIPv4 key (ack hdr) (wrap 32 (seq hdr + 1)) (Z.lor 4 16) [].

(** [buf] holds the payload behind the headers. *)
Definition sendUDP (ns : NetStack) (buf : bytes) (sport dport : Z) (src dst : bytes) (payloadLen : Z) : R bytes :=
  let start := ethernetHeaderLen + ipv4HeaderLen in
  if len buf <? start + udpHeaderLen + payloadLen then Err BufferTooSmall
  else
    let packet := slice buf start (start + udpHeaderLen + payloadLen) in
    let packet := put packet 0 (be 2 sport) in
    let packet := put packet 2 (be 2 dport) in
    let packet := put packet 4 (be 2 (wrap 16 (8 + payloadLen))) in
    let packet := put packet 8 (slice buf (start + udpHeaderLen) (len buf)) in
    let packet := put (put packet 6 [0]) 7 [0] in
    check ← udpChecksum src dst packet;
    let packet := put packet 6 (be 2 check) in
    let buf := put buf start packet in
    header ← buildIPv4HeaderInto (slice buf ethernetHeaderLen start) src dst udpProtocolNumber (len packet);
    let buf := put buf ethernetHeaderLen header in
    let dstMAC := guestMACForTransmit ns in
    if negb (macIsSet dstMAC) then Err GuestMACUnknown
    else if negb (macIsSet (hostMAC ns)) then Err HostMACUnknown
    else
      eth ← buildEthernetHeaderInto (slice buf 0 ethernetHeaderLen) dstMAC (hostMAC ns) etherTypeIPv4;
      sendFrame ns (put buf 0 eth).

Definition sendICMPEchoReply (ns : NetStack) (frame src dst request : bytes) : R bytes :=
  let start := ethernetHeaderLen + ipv4HeaderLen in
  let reply := zeros (len request) in
  let reply := put reply 0 [0] in
  let reply := put reply 1 [at_ request 1] in
  let reply := put reply 4 (slice request 4 (len request)) in
  let check := checksum reply in
  let reply := put reply 2 (be 2 check) in
  let frame := put frame start reply in
  header ← buildIPv4HeaderInto (slice frame ethernetHeaderLen start) src dst icmpProtocol (len reply);
  let frame := put frame ethernetHeaderLen header in
  let dstMAC := guestMACForTransmit ns in
  if negb (macIsSet dstMAC) then Err GuestMACUnknown
  else
    eth ← buildEthernetHeaderInto (slice frame 0 ethernetHeaderLen) dstMAC (hostMAC ns) etherTypeIPv4;
    sendFrame ns (put frame 0 eth).

(** The part of [handleUDPWithReuse] before the lookup of a socket: the ports and the data,
    nothing for a datagram that is dropped. *)
Definition udpDatagram (validateChecksums : bool) (h : ipv4Header) : R (option (Z * Z * bytes)) :=
  let payload := payload h in
  if len payload <? 8 then Err HeaderTooShort
  else
    let length := unbe (slice payload 4 6) in
    if length <? udpHeaderLen then Err LengthMismatch
    else if len payload <? length then Err LengthMismatch
    else
      ok ← (if validateChecksums && negb (unbe (slice payload 6 8) =? 0) then
              computed ← udpChecksum (src h) (dst h) (slice payload 0 length); Ok (computed =? 0)
            else Ok true);
      if ok : bool then Ok (Some (unbe (slice payload 0 2), unbe (slice payload 2 4), slice payload 8 length))
      else Ok None.

(** The reply to an echo request; nothing for other packets. *)
Definition handleICMP (ns : NetStack) (validateChecksums : bool) (frame : bytes) (h : ipv4Header) : R (option bytes) :=
  let payload := payload h in
  if len payload <? 8 then Ok None
  else if negb (at_ payload 0 =? 8) then Ok None
  else if validateChecksums && negb (unbe (slice payload 2 4) =? checksum (put payload 2 (be 2 0))) then Ok None
  else
    reply ← sendICMPEchoReply ns frame (dst h) (src h) payload;
    Ok (Some reply).

(** * Source validation *)

Inductive SourceViolation :=
| SourceValid | SourceMalformed | SourceMACViolation | SourceARPViolation | SourceIPv4Violation
| SourceUnsupportedProtocol.

Definition validateARPSource (packet expectedMAC expectedIPv4 : bytes) : SourceViolation :=
  if (len packet <? 28) || negb (unbe (slice packet 0 2) =? arpHardwareEthernet) ||
     negb (unbe (slice packet 2 4) =? arpProtoIPv4) || negb (at_ packet 4 =? 6) || negb (at_ packet 5 =? 4)
  then SourceMalformed
  else if negb (equalHardwareAddr (slice packet 8 14) expectedMAC) then SourceARPViolation
  else
    let senderIP := slice packet 14 18 in
    if Equal senderIP expectedIPv4 then SourceValid
    else if Equal senderIP IPv4zero && Equal (slice packet 24 28) expectedIPv4 then SourceValid
    else SourceARPViolation.

Definition validateIPv4Source (packet expectedIPv4 : bytes) : SourceViolation :=
  if (len packet <? ipv4HeaderLen) || negb (Z.shiftr (at_ packet 0) 4 =? 4) then SourceMalformed
  else
    let headerLen := Z.land (at_ packet 0) 0x0f * 4 in
    if (headerLen <? ipv4HeaderLen) || (len packet <? headerLen) then SourceMalformed
    else
      let sourceIP := slice packet 12 16 in
      if Equal sourceIP expectedIPv4 then SourceValid
      else if negb (Equal sourceIP IPv4zero) || negb (at_ packet 9 =? udpProtocolNumber) ||
              (len packet <? headerLen + udpHeaderLen) then SourceIPv4Violation
      else
        let udp := slice packet headerLen (len packet) in
        if (unbe (slice udp 0 2) =? 68) && (unbe (slice udp 2 4) =? 67) then SourceValid
        else SourceIPv4Violation.

Definition ValidateGuestSource (frame expectedMAC expectedIPv4 : bytes) : SourceViolation :=
  match To4 expectedIPv4 with
  | None => SourceMalformed
  | Some ip4 =>
      if (len frame <? ethernetHeaderLen) || negb (len expectedMAC =? 6) then SourceMalformed
      else if negb (equalHardwareAddr (slice frame 6 12) expectedMAC) then SourceMACViolation
      else
        let etherType := unbe (slice frame 12 14) in
        let rest := slice frame ethernetHeaderLen (len frame) in
        if etherType =? etherTypeARP then validateARPSource rest expectedMAC ip4
        else if etherType =? etherTypeIPv4 then validateIPv4Source rest ip4
        else if etherType =? 0x86dd then SourceUnsupportedProtocol
        else SourceValid
  end.

(** * The arithmetic of checksums *)

(** The sum of the big-endian words, unbounded. *)
Fixpoint wordSum (data : bytes) : Z :=
  match data with
  | [] => 0
  | [a] => a * 256
  | a :: b :: data => unbe [a; b] + wordSum data
  end.

(** Induction two elements at a time. *)
Lemma pair_ind {A} (P : list A -> Prop) :
  P [] -> (forall a, P [a]) -> (forall a b l, P l -> P (a :: b :: l)) -> forall l, P l.
Proof.
  intros H0 H1 H2 l. assert (P l /\ forall a, P (a :: l)) as [? _]; [|done].
  induction l as [|a l [IH1 IH2]]; split; auto.
Qed.

Lemma unbe2 a b : unbe [a; b] = a * 256 + b.
Proof. change (unbe [a; b]) with (b + 256 * (a + 256 * 0)). lia. Qed.

Lemma wordSum_range data : is_bytes data -> 0 <= 2 * wordSum data <= 65535 * (len data + 1).
Proof.
  intros H. induction data as [|a|a b data IH] using pair_ind.
  - cbn [wordSum]. change (len (@nil Z)) with 0. lia.
  - apply Forall_cons in H as [Ha _]. unfold in_width in Ha. cbn [wordSum]. change (len [a]) with 1. lia.
  - apply Forall_cons in H as [Ha H]. apply Forall_cons in H as [Hb H]. unfold in_width in *.
    rewrite !len_cons. cbn [wordSum]. rewrite unbe2. specialize (IH H). lia.
Qed.

Lemma sumWords_eq data : forall sum,
  is_bytes data -> 0 <= sum -> sum + wordSum data < 2 ^ 32 -> sumWords data sum = sum + wordSum data.
Proof.
  induction data as [|a|a b data IH] using pair_ind; intros sum H H0 Hs; cbn [sumWords wordSum] in *.
  - lia.
  - apply Forall_cons in H as [Ha _]. rewrite Z.shiftl_mul_pow2 by lia. change (2 ^ 8) with 256.
    rewrite wrap_small; [done|]. unfold in_width in *. lia.
  - apply Forall_cons in H as [Ha H]. apply Forall_cons in H as [Hb H]. unfold in_width in *.
    pose proof (wordSum_range data H). pose proof (len_nonneg data). rewrite unbe2 in *.
    rewrite wrap_small by (unfold in_width; lia). rewrite IH; [lia|done|lia|lia].
Qed.

Lemma wordSum_app a b : len a mod 2 = 0 -> wordSum (a ++ b) = wordSum a + wordSum b.
Proof.
  induction a as [|x|x y a IH] using pair_ind; cbn [app wordSum]; intros H; [done|done|].
  rewrite IH; [lia|]. rewrite !len_cons in H. dlia.
Qed.

(** What the carry loop computes: the remainder modulo 65535, with 65535 for a positive
    multiple. *)
Lemma foldCarry_spec sum : 0 <= sum < 2 ^ 32 ->
  let r := foldCarry 2 sum in 0 <= r <= 65535 /\ r mod 65535 = sum mod 65535 /\ (r = 0 <-> sum = 0).
Proof.
  intros Hs. assert (forall s, 0 <= s < 2 ^ 32 ->
    negb (Z.shiftr s 16 =? 0) = (65535 <? s) /\
    wrap 32 (Z.land s 0xffff + Z.shiftr s 16) = s mod 65536 + s / 65536) as Hstep.
  { intros s H. rewrite Z.shiftr_div_pow2 by lia. change (Z.land s 0xffff) with (Z.land s (Z.ones 16)).
    rewrite Z.land_ones by lia.
    change (2 ^ 16) with 65536. split; [|apply wrap_small; unfold in_width; revert H; pow2; dlia].
    destruct (Z.eqb_spec (s / 65536) 0), (Z.ltb_spec 65535 s); cbn; try done; dlia. }
  cbn [foldCarry]. destruct (Hstep sum Hs) as [-> ->]. destruct (Z.ltb_spec 65535 sum) as [H1|H1].
  - assert (0 <= sum mod 65536 + sum / 65536 <= 131070) as H2 by (revert Hs; pow2; dlia).
    destruct (Hstep (sum mod 65536 + sum / 65536)) as [-> ->]; [lia|].
    set (s1 := sum mod 65536 + sum / 65536) in *.
    assert (s1 mod 65535 = sum mod 65535 /\ 0 < s1) as [E1 E2] by (unfold s1; clear -H1 Hs; dlia).
    clearbody s1. destruct (Z.ltb_spec 65535 s1).
    + split; [dlia|]. split; [rewrite <- E1; dlia|]. split; [dlia|lia].
    + split; [lia|]. split; [done|]. lia.
  - split; [lia|]. split; [done|]. done.
Qed.

Lemma foldCarry_same sum : 0 <= sum < 2 ^ 32 -> foldCarryIPv4 2 sum = foldCarry 2 sum.
Proof.
  assert (forall s, 0 <= s < 2 ^ 32 -> negb (Z.shiftr s 16 =? 0) = (65535 <? s)) as Hstep.
  { intros s H. rewrite Z.shiftr_div_pow2 by lia. change (2 ^ 16) with 65536.
    destruct (Z.eqb_spec (s / 65536) 0), (Z.ltb_spec 65535 s); cbn; try done; dlia. }
  intros Hs. cbn [foldCarry foldCarryIPv4]. rewrite (Hstep sum Hs), (Z.add_comm (Z.land sum 0xffff)).
  pose proof (wrap_range 32 (Z.shiftr sum 16 + Z.land sum 0xffff) ltac:(lia)) as Hw.
  rewrite (Hstep _ Hw). by rewrite (Z.add_comm (Z.land (wrap _ _) _)).
Qed.

(** The data is short enough for a 32-bit sum. *)
Definition sumFits (data : bytes) (initial : Z) : Prop :=
  is_bytes data /\ 0 <= initial < 2 ^ 20 /\ len data <= 2 ^ 16.

Lemma sumFits_range data initial : sumFits data initial ->
  sumWords data initial = initial + wordSum data /\ 0 <= initial + wordSum data < 2 ^ 32.
Proof.
  intros (Hb & Hi & Hl). pose proof (wordSum_range data Hb). revert Hi Hl.
  change (2 ^ 20) with 1048576. pow2. intros Hi Hl. split; [|lia]. apply sumWords_eq; [done|lia|]. pow2. lia.
Qed.

Lemma complement r : 0 <= r <= 65535 -> wrap 16 (Z.lnot (wrap 16 r)) = 65535 - r.
Proof.
  intros H. rewrite (wrap_small 16 r) by (unfold in_width; pow2; lia). unfold Z.lnot, wrap. pow2. dlia.
Qed.

Lemma checksum_value data initial : sumFits data initial ->
  let c := checksumWithInitial data initial in
  0 <= c <= 65535 /\ (c + (initial + wordSum data)) mod 65535 = 0 /\ (c = 65535 <-> initial + wordSum data = 0).
Proof.
  intros [E Hr]%sumFits_range. unfold checksumWithInitial. rewrite E.
  destruct (foldCarry_spec (initial + wordSum data)) as (Hf & Hm & Hz); [revert Hr; pow2; lia|].
  rewrite complement by done. split; [lia|]. split; [|lia].
  set (r := foldCarry 2 _) in *. set (S := initial + wordSum data) in *. clearbody r S. clear -Hm. dlia.
Qed.

(** A buffer verifies exactly when its words add up to a positive multiple of 65535. *)
Lemma checksum_zero data initial : sumFits data initial ->
  checksumWithInitial data initial = 0 <-> (initial + wordSum data) mod 65535 = 0 /\ 0 < initial + wordSum data.
Proof.
  intros Hf. destruct (checksum_value data initial Hf) as (Hc & Hm & Hz).
  apply sumFits_range in Hf as [_ Hr]. set (c := checksumWithInitial _ _) in *. set (S := initial + wordSum data) in *.
  clearbody c S. split.
  - intros ->. split; [done|]. destruct (decide (S = 0)); lia.
  - intros [Hs Hp]. clear Hr. assert (c <> 65535) by lia. dlia.
Qed.

Lemma ipv4Checksum_eq data : sumFits data 0 -> ipv4Checksum data = checksum data.
Proof.
  intros [E Hr]%sumFits_range. unfold ipv4Checksum, checksum, checksumWithInitial.
  rewrite foldCarry_same; [done|]. rewrite E. revert Hr. pow2. lia.
Qed.

Lemma wordSum_be c : in_width 16 c -> wordSum (be 2 c) = c.
Proof.
  intros H. change (wordSum (be 2 c)) with (unbe (be 2 c) + 0). rewrite unbe_be.
  change (8 * Z.of_nat 2) with 16. rewrite wrap_small by done. lia.
Qed.

Lemma wordSum_field pre post c : len pre mod 2 = 0 -> in_width 16 c ->
  wordSum (pre ++ be 2 c ++ post) = wordSum (pre ++ [0; 0] ++ post) + c.
Proof.
  intros He Hc. rewrite !wordSum_app by (done || by rewrite len_be). rewrite wordSum_be by done.
  change (wordSum [0; 0]) with 0. lia.
Qed.

(** Storing the checksum in its field, which was zero, makes the buffer verify. *)
Lemma checksum_verifies pre post initial :
  len pre mod 2 = 0 -> sumFits (pre ++ [0; 0] ++ post) initial ->
  checksumWithInitial (pre ++ be 2 (checksumWithInitial (pre ++ [0; 0] ++ post) initial) ++ post) initial = 0.
Proof.
  intros He Hf. destruct (checksum_value _ _ Hf) as (Hc & Hm & Hz).
  apply sumFits_range in Hf as Hr. destruct Hr as [_ Hr]. destruct Hf as (Hb & Hi & Hl).
  set (c := checksumWithInitial _ _) in *. clearbody c.
  assert (in_width 16 c) as Hw by (unfold in_width; pow2; lia).
  apply checksum_zero.
  - split; [|split; [done|]].
    + unfold is_bytes in *. rewrite !Forall_app in Hb |- *. destruct Hb as (? & _ & ?).
      split; [done|]. split; [apply be_is_bytes|done].
    + revert Hl. by rewrite !len_app, len_be.
  - rewrite wordSum_field by done. set (S := wordSum (pre ++ [0; 0] ++ post)) in *. clearbody S.
    split; [|lia]. rewrite <- Hm. f_equal. lia.
Qed.

(** Changing one word of a buffer that verifies is noticed, unless it exchanges the two
    representations of zero. *)
Theorem checksum_detects (pre post : bytes) (initial w w' : Z) :
  len pre mod 2 = 0 -> in_width 16 w -> in_width 16 w' -> sumFits (pre ++ be 2 w ++ post) initial ->
  checksumWithInitial (pre ++ be 2 w ++ post) initial = 0 ->
  checksumWithInitial (pre ++ be 2 w' ++ post) initial = 0 ->
  w = w' \/ (w = 0 /\ w' = 65535) \/ (w = 65535 /\ w' = 0).
Proof.
  intros He Hw Hw' Hf. assert (sumFits (pre ++ be 2 w' ++ post) initial) as Hf'.
  { destruct Hf as (Hb & Hi & Hl). split; [|split; [done|by rewrite !len_app, !len_be in *]].
    unfold is_bytes in *. rewrite !Forall_app in Hb |- *. destruct Hb as (? & _ & ?).
    split; [done|]. split; [apply be_is_bytes|done]. }
  rewrite !checksum_zero, !wordSum_field by done. intros [H _] [H' _].
  set (S := wordSum _) in *. clearbody S. unfold in_width in *. revert Hw Hw'. pow2. intros Hw Hw'. clear Hf Hf' He. dlia.
Qed.

(** * Building in a used buffer *)

(** Opens a list of a known length. *)
Ltac open_list l :=
  lazymatch goal with
  | H : len l = _ |- _ =>
      unfold len in H; repeat (destruct l as [|? l]; [cbn in H; (lia || clear H)|]; try (cbn in H; lia));
      try (destruct l; [clear H|cbn in H; lia])
  end.

(** Literal bytes and encoded integers. *)
Ltac solve_bytes :=
  repeat match goal with |- _ /\ _ => split end;
  match goal with
  | |- Forall _ (be _ _) => apply be_is_bytes
  | |- Forall _ (_ :: _) => repeat (apply Forall_cons_2; [done|]); apply Forall_nil_2
  | |- _ => done
  end.

Definition ipv4Bytes (src dst : bytes) (protocol total check : Z) : bytes :=
  ([69; 0] ++ be 2 (wrap 16 total) ++ [0; 0; 0; 0; 64; protocol]) ++ be 2 check ++ src ++ dst.

Lemma ipv4Fields_eq packet src dst protocol n :
  len packet = 20 -> len src = 4 -> len dst = 4 ->
  ipv4Fields packet src dst protocol n = ipv4Bytes src dst protocol (20 + n) 0.
Proof.
  intros Hp Hs Hd. open_list src. open_list dst. open_list packet. reflexivity.
Qed.

Lemma len_ipv4Bytes src dst protocol total check :
  len src = 4 -> len dst = 4 -> len (ipv4Bytes src dst protocol total check) = 20.
Proof. intros Hs Hd. unfold ipv4Bytes. rewrite !len_app, Hs, Hd, !len_be. done. Qed.

Lemma buildIPv4_ok packet src dst protocol n :
  len packet = 20 -> len src = 4 -> len dst = 4 ->
  buildIPv4HeaderInto packet src dst protocol n =
  Ok (ipv4Bytes src dst protocol (20 + n) (ipv4Checksum (ipv4Bytes src dst protocol (20 + n) 0))).
Proof.
  intros Hp Hs Hd. unfold buildIPv4HeaderInto. rewrite Hp, ipv4Fields_eq by done.
  change (20 <? ipv4HeaderLen) with false. cbv beta iota.
  pose proof (len_ipv4Bytes src dst protocol (20 + n) 0 Hs Hd) as Hl.
  assert (slice (ipv4Bytes src dst protocol (20 + n) 0) 0 ipv4HeaderLen = ipv4Bytes src dst protocol (20 + n) 0) as ->.
  { transitivity (slice (ipv4Bytes src dst protocol (20 + n) 0) 0 (len (ipv4Bytes src dst protocol (20 + n) 0)));
      [by rewrite Hl|apply slice_full]. }
  f_equal.
  set (c := ipv4Checksum _). clearbody c. clear Hp Hl. open_list src. open_list dst. reflexivity.
Qed.

Lemma sumFits_small data : is_bytes data -> len data <= 2 ^ 16 -> sumFits data 0.
Proof. intros H Hl. split; [done|]. split; [done|done]. Qed.

(** The header of the stack verifies. *)
Lemma ipv4Bytes_verifies src dst protocol total :
  len src = 4 -> len dst = 4 -> is_bytes src -> is_bytes dst -> is_u8 protocol ->
  ipv4Checksum (ipv4Bytes src dst protocol total (ipv4Checksum (ipv4Bytes src dst protocol total 0))) = 0.
Proof.
  intros Hs Hd Hbs Hbd Hp.
  assert (forall c, sumFits (ipv4Bytes src dst protocol total c) 0) as Hf.
  { intros c. apply sumFits_small; [|by rewrite len_ipv4Bytes]. unfold ipv4Bytes, is_bytes.
    rewrite !Forall_app. solve_bytes. }
  rewrite (ipv4Checksum_eq (ipv4Bytes src dst protocol total 0) (Hf 0)), (ipv4Checksum_eq _ (Hf _)).
  exact (checksum_verifies ([69; 0] ++ be 2 (wrap 16 total) ++ [0; 0; 0; 0; 64; protocol]) (src ++ dst) 0 eq_refl (Hf 0)).
Qed.

Lemma ipv4Bytes_parses src dst protocol total check seg :
  len src = 4 -> len dst = 4 -> in_width 16 check ->
  parseIPv4Header (ipv4Bytes src dst protocol total check ++ seg) =
  Ok (mkIPv4Header 4 5 0 (wrap 16 total) 0 0 64 protocol check src dst [] seg).
Proof.
  intros Hs Hd Hc. pose proof (len_ipv4Bytes src dst protocol total check Hs Hd) as Hl.
  unfold parseIPv4Header. rewrite len_app, Hl. pose proof (len_nonneg seg).
  destruct (Z.ltb_spec (20 + len seg) ipv4HeaderLen) as [Hx|_]; [unfold ipv4HeaderLen in Hx; lia|].
  change (at_ (ipv4Bytes src dst protocol total check ++ seg) 0) with 69.
  change (negb (Z.shiftr 69 4 =? 4)) with false. change (Z.land 69 0x0f * 4) with 20. cbv beta iota zeta.
  destruct (Z.ltb_spec (20 + len seg) 20); [lia|]. change (ipv4HeaderLen <? 20) with false. cbv iota.
  rewrite (slice_app_r _ _ 20) by lia. rewrite Hl. replace (20 + len seg - 20) with (len seg) by lia.
  change (20 - 20) with 0. rewrite slice_full.
  rewrite !slice_app_l by lia.
  assert (unbe (be 2 (wrap 16 total)) = wrap 16 total /\ unbe (be 2 check) = check) as [E1 E2].
  { rewrite !unbe_be. change (8 * Z.of_nat 2) with 16. rewrite wrap_wrap, (wrap_small 16 check) by done || lia. done. }
  clear Hl. open_list src. open_list dst. f_equal.
  change (slice (ipv4Bytes _ _ _ _ _) 2 4) with (be 2 (wrap 16 total)).
  change (slice (ipv4Bytes _ _ _ _ _) 10 12) with (be 2 check). rewrite E1, E2. reflexivity.
Qed.

Definition ethernetBytes (dstMac srcMac etherType : Z) : bytes := be 6 dstMac ++ be 6 srcMac ++ be 2 etherType.

Lemma buildEthernet_ok buf d s t :
  len buf = 14 -> macIsSet d = true -> macIsSet s = true ->
  buildEthernetHeaderInto buf d s t = Ok (ethernetBytes d s t).
Proof.
  intros Hb Hd Hs. unfold buildEthernetHeaderInto. rewrite Hb. change (14 <? ethernetHeaderLen) with false. cbv iota.
  unfold writeMAC. rewrite Hd, Hs. open_list buf. reflexivity.
Qed.

(** The steps all senders end with: the transport packet is put behind the headers. *)
Lemma frame_assembled (frame seg header eth : bytes) :
  len frame = 34 + len seg -> len header = 20 -> len eth = 14 ->
  let f1 := put frame 34 seg in
  let f2 := put f1 14 header in
  len (slice f1 14 34) = 20 /\ len (slice f2 0 14) = 14 /\ put f2 0 eth = eth ++ header ++ seg.
Proof.
  intros Hf Hh He. pose proof (len_nonneg seg). cbv zeta. rewrite !len_slice by (rewrite ?len_put; lia).
  split; [lia|]. split; [lia|].
  destruct (split_at frame 14) as (f0 & r & -> & L0 & Lr); [lia|].
  destruct (split_at r 20) as (f1 & f2 & -> & L1 & L2); [lia|].
  rewrite !len_app in *. rewrite (put_right f0), L0 by lia. rewrite (put_right f1), L1 by lia.
  change (34 - 14 - 20) with 0. rewrite (put_full f2) by lia. rewrite (put_right f0), L0 by lia.
  change (14 - 14) with 0. rewrite (put_left f1) by lia. rewrite (put_full f1) by lia.
  rewrite put_left by lia. by rewrite put_full by lia.
Qed.

Definition tcpBytes (sport dport seq ack flags : Z) (options payload : bytes) (check : Z) : bytes :=
  (be 2 sport ++ be 2 dport ++ be 4 seq ++ be 4 ack ++
   [wrap 8 (Z.shiftl (wrap 8 ((20 + len options) / 4)) 4); wrap 8 flags] ++ be 2 0xffff) ++
  be 2 check ++ [0; 0] ++ options ++ payload.

Lemma tcpFields_eq packet sport dport seq ack flags payload options :
  len packet = 20 + len options + len payload ->
  tcpFields packet sport dport seq ack flags payload options = tcpBytes sport dport seq ack flags options payload 0.
Proof.
  intros Hp. pose proof (len_nonneg options). pose proof (len_nonneg payload). unfold tcpFields.
  destruct (split_at packet (20 + len options)) as (h & q & -> & Lh & Lq); [lia|].
  change tcpHeaderLen with 20. cbv zeta. rewrite (put_left h), (put_full h) by (rewrite ?len_zeros; lia).
  assert (zeros (20 + len options) = zeros 20 ++ zeros (len options)) as ->.
  { unfold zeros. rewrite <- replicate_add. f_equal. lia. }
  rewrite <- app_assoc.
  do 7 (rewrite put_left by (rewrite ?len_put, ?len_be, ?len_cons, ?len_nil; change (len (zeros 20)) with 20; lia)).
  set (head := put _ 14 _). assert (len head = 20) as Hh by done.
  assert ((if 0 <? len options then put (head ++ zeros (len options) ++ q) 20 options
           else head ++ zeros (len options) ++ q) = head ++ options ++ q) as ->.
  { destruct (Z.ltb_spec 0 (len options)).
    - rewrite put_right, Hh by lia. change (20 - 20) with 0. by rewrite put_left, put_full by (rewrite ?len_zeros; lia).
    - by rewrite (len_0_nil options) by lia. }
  rewrite (put_right head (options ++ q)), Hh by lia. rewrite (put_right options) by lia.
  replace (20 + len options - 20 - len options) with 0 by lia. rewrite (put_full q) by lia.
  rewrite put_left by (rewrite ?Hh, ?len_be; lia). unfold tcpBytes. rewrite !app_assoc. by f_equal.
Qed.

Lemma len_tcpBytes sport dport seq ack flags options payload check :
  len (tcpBytes sport dport seq ack flags options payload check) = 20 + len options + len payload.
Proof. unfold tcpBytes. rewrite !len_app, !len_be, !len_cons, !len_nil. lia. Qed.

(** The pseudo header of two IPv4 addresses. *)
Lemma pseudo_ok src dst protocol n :
  len src = 4 -> len dst = 4 -> is_bytes src -> is_bytes dst -> is_u8 protocol -> 0 <= n < 2 ^ 16 ->
  exists ps, pseudoHeaderChecksum src dst protocol n = Ok ps /\ 0 <= ps < 2 ^ 20.
Proof.
  intros Hs Hd Hbs Hbd Hp Hn. unfold pseudoHeaderChecksum, To4. rewrite Hs, Hd. cbn [Z.eqb]. cbv beta iota.
  eexists. split; [reflexivity|].
  assert (forall l a, is_bytes l -> len l = 4 -> 0 <= a <= 2 -> 0 <= unbe (slice l a (a + 2)) < 2 ^ 16) as Hu.
  { intros l a Hb Hl Ha. unfold unbe. assert (is_bytes (rev (slice l a (a + 2)))) as Hr.
    { apply List.Forall_rev, Forall_take, Forall_drop. exact Hb. }
    apply unle_range in Hr. unfold in_width, len in Hr. rewrite length_rev in Hr. fold (len (slice l a (a + 2))) in Hr.
    rewrite len_slice in Hr by lia. by replace (8 * (a + 2 - a)) with 16 in Hr by lia. }
  pose proof (Hu src 0 Hbs Hs) as H1. pose proof (Hu src 2 Hbs Hs) as H2.
  pose proof (Hu dst 0 Hbd Hd) as H3. pose proof (Hu dst 2 Hbd Hd) as H4. unfold in_width in Hp. cbn in H1, H2, H3, H4.
  revert H1 H2 H3 H4 Hp Hn. set (a := unbe _). set (b := unbe _). set (c := unbe _). set (e := unbe _).
  change (2 ^ 20) with 1048576. unfold wrap. pow2. clearbody a b c e. intros. dlia.
Qed.

(** A transport checksum over the pseudo header: storing it makes the packet verify. *)
Lemma transport_verifies src dst protocol pre post :
  len src = 4 -> len dst = 4 -> is_bytes src -> is_bytes dst -> is_u8 protocol ->
  len pre mod 2 = 0 -> is_bytes pre -> is_bytes post -> len pre + 2 + len post < 2 ^ 16 ->
  exists ps c, in_width 16 c /\
    pseudoHeaderChecksum src dst protocol (len (pre ++ be 2 0 ++ post)) = Ok ps /\
    pseudoHeaderChecksum src dst protocol (len (pre ++ be 2 c ++ post)) = Ok ps /\
    c = checksumWithInitial (pre ++ be 2 0 ++ post) ps /\
    checksumWithInitial (pre ++ be 2 c ++ post) ps = 0.
Proof.
  intros Hs Hd Hbs Hbd Hp He Hb1 Hb2 Hl. pose proof (len_nonneg pre). pose proof (len_nonneg post).
  destruct (pseudo_ok src dst protocol (len pre + (2 + len post)) Hs Hd Hbs Hbd Hp) as (ps & Eps & Hps); [lia|].
  assert (sumFits (pre ++ [0; 0] ++ post) ps) as Hf.
  { split; [|split; [done|]].
    - unfold is_bytes in *. rewrite !Forall_app. split; [done|]. split; [|done].
      repeat (apply Forall_cons_2; [done|]). apply Forall_nil_2.
    - rewrite !len_app. change (len [0; 0]) with 2. lia. }
  exists ps, (checksumWithInitial (pre ++ [0; 0] ++ post) ps).
  destruct (checksum_value _ _ Hf) as (Hc & _ & _).
  split; [unfold in_width; pow2; lia|]. rewrite !len_app, !len_be. change (Z.of_nat 2) with 2.
  split; [done|]. split; [done|]. split; [done|]. by apply checksum_verifies.
Qed.

Lemma tcpBytes_parses sport dport seq ack flags options payload check :
  is_u16 sport -> is_u16 dport -> is_u32 seq -> is_u32 ack -> is_u8 flags -> in_width 16 check ->
  len options mod 4 = 0 -> len options <= 40 ->
  parseTCPHeader (tcpBytes sport dport seq ack flags options payload check) =
  Ok (mkTCPHeader sport dport seq ack (16 * ((20 + len options) / 4)) flags 0xffff check 0 options payload).
Proof.
  intros H1 H2 H3 H4 H5 Hc Ho4 Ho. pose proof (len_nonneg options). pose proof (len_nonneg payload).
  unfold parseTCPHeader. rewrite len_tcpBytes.
  destruct (Z.ltb_spec (20 + len options + len payload) tcpHeaderLen) as [Hx|_]; [unfold tcpHeaderLen in Hx; lia|].
  set (o := wrap 8 (Z.shiftl (wrap 8 ((20 + len options) / 4)) 4)).
  assert (o = 16 * ((20 + len options) / 4) /\ wrap 8 (Z.shiftr o 4 * 4) = 20 + len options) as [Eo Eh].
  { assert (o = 16 * ((20 + len options) / 4)) as E.
    { unfold o. rewrite Z.shiftl_mul_pow2 by lia. unfold wrap. pow2. change (2 ^ 4) with 16. dlia. }
    split; [done|]. rewrite E, Z.shiftr_div_pow2 by lia. unfold wrap. pow2. change (2 ^ 4) with 16. dlia. }
  change (at_ (tcpBytes sport dport seq ack flags options payload check) 12) with o. rewrite Eh. cbv zeta.
  destruct (Z.ltb_spec (20 + len options + len payload) (20 + len options)); [lia|].
  assert (tcpBytes sport dport seq ack flags options payload check =
    (be 2 sport ++ be 2 dport ++ be 4 seq ++ be 4 ack ++ [o; wrap 8 flags] ++ be 2 0xffff ++ be 2 check ++ [0; 0]) ++
    options ++ payload) as E by (unfold tcpBytes, o; rewrite <- !app_assoc; reflexivity).
  set (head := be 2 sport ++ _) in E. assert (len head = 20) as Hh by done.
  assert ((if tcpHeaderLen <? 20 + len options then slice (tcpBytes sport dport seq ack flags options payload check)
             tcpHeaderLen (20 + len options) else []) = options) as ->.
  { unfold tcpHeaderLen. destruct (Z.ltb_spec 20 (20 + len options)).
    - rewrite E, slice_app_r, Hh by lia. replace (20 + len options - 20) with (len options) by lia.
      change (20 - 20) with 0. by rewrite slice_app_l, slice_full by lia.
    - by rewrite (len_0_nil options) by lia. }
  assert (slice (tcpBytes sport dport seq ack flags options payload check) (20 + len options)
            (20 + len options + len payload) = payload) as ->.
  { rewrite E, app_assoc, slice_app_r; rewrite len_app, Hh; [|lia].
    replace (20 + len options + len payload - (20 + len options)) with (len payload) by lia.
    rewrite Z.sub_diag. apply slice_full. }
  assert (forall w v, w = 2%nat \/ w = 4%nat -> in_width (8 * Z.of_nat w) v -> unbe (be w v) = v) as Hbe.
  { intros w v _ Hv. rewrite unbe_be. by apply wrap_small. }
  f_equal. change (mkTCPHeader (unbe (be 2 sport)) (unbe (be 2 dport)) (unbe (be 4 seq)) (unbe (be 4 ack)) o (wrap 8 flags)
    (unbe (be 2 0xffff)) (unbe (be 2 check)) (unbe [0; 0]) options payload =
    mkTCPHeader sport dport seq ack (16 * ((20 + len options) / 4)) flags 0xffff check 0 options payload).
  rewrite !Hbe, (wrap_small 8 flags), Eo by (done || auto). reflexivity.
Qed.

(** * Frames *)

(** The stack has an interface and knows both hardware addresses. *)
Definition sendable (ns : NetStack) : Prop :=
  attached ns = true /\ macIsSet (guestMACForTransmit ns) = true /\ macIsSet (hostMAC ns) = true.

Definition address (ip : bytes) : Prop := len ip = 4 /\ is_bytes ip.

(** What a receiver finds in a frame with the transport packet [seg]. *)
Definition carries (ns : NetStack) (frame src_ dst_ : bytes) (protocol_ : Z) (seg : bytes) : Prop :=
  exists header h,
    frame = ethernetBytes (guestMACForTransmit ns) (hostMAC ns) etherTypeIPv4 ++ header ++ seg /\
    len header = 20 /\ ipv4Checksum header = 0 /\ parseIPv4Header (header ++ seg) = Ok h /\
    src h = src_ /\ dst h = dst_ /\ protocol h = protocol_ /\ length_ h = len (header ++ seg) /\ payload h = seg.

Lemma ipv4_carries ns src dst protocol seg :
  address src -> address dst -> is_u8 protocol -> 20 + len seg < 2 ^ 16 ->
  let header := ipv4Bytes src dst protocol (20 + len seg) (ipv4Checksum (ipv4Bytes src dst protocol (20 + len seg) 0)) in
  carries ns (ethernetBytes (guestMACForTransmit ns) (hostMAC ns) etherTypeIPv4 ++ header ++ seg) src dst protocol seg.
Proof.
  intros [Ls Bs] [Ld Bd] Hp Hn header. pose proof (len_nonneg seg).
  assert (in_width 16 (ipv4Checksum (ipv4Bytes src dst protocol (20 + len seg) 0))) as Hc by (apply wrap_range; lia).
  eexists header, _. split; [done|]. split; [by apply len_ipv4Bytes|]. split; [by apply ipv4Bytes_verifies|].
  split; [by apply ipv4Bytes_parses|].
  split; [done|]. split; [done|]. split; [done|]. split; [|done].
  change (wrap 16 (20 + len seg) = len (header ++ seg)). rewrite len_app. unfold header.
  rewrite len_ipv4Bytes by done. apply wrap_small. unfold in_width. lia.
Qed.

(** The end of every sender, with the segment already in the buffer. *)
Lemma frame_sent ns frame src dst protocol seg :
  sendable ns -> address src -> address dst -> is_u8 protocol -> 20 + len seg < 2 ^ 16 -> len frame = 34 + len seg ->
  exists out,
    (header ← buildIPv4HeaderInto (slice (put frame 34 seg) 14 34) src dst protocol (len seg);
     let frame := put (put frame 34 seg) 14 header in
     if negb (macIsSet (guestMACForTransmit ns)) then Err GuestMACUnknown
     else eth ← buildEthernetHeaderInto (slice frame 0 14) (guestMACForTransmit ns) (hostMAC ns) etherTypeIPv4;
          sendFrame ns (put frame 0 eth)) = Ok out /\
    carries ns out src dst protocol seg.
Proof.
  intros (Hatt & Hg & Hh) Hs Hd Hp Hn Hf. pose proof Hs as [Ls _]. pose proof Hd as [Ld _].
  set (header := ipv4Bytes src dst protocol (20 + len seg) (ipv4Checksum (ipv4Bytes src dst protocol (20 + len seg) 0))).
  assert (len header = 20) as Lh by (by apply len_ipv4Bytes).
  set (eth := ethernetBytes (guestMACForTransmit ns) (hostMAC ns) etherTypeIPv4).
  destruct (frame_assembled frame seg header eth Hf Lh eq_refl) as (L1 & L2 & E).
  rewrite buildIPv4_ok by done. fold header. cbn [mbind result_bind]. rewrite Hg. cbn [negb].
  rewrite buildEthernet_ok by done. fold eth. cbn [mbind result_bind]. rewrite E. unfold sendFrame. rewrite Hatt.
  eexists. split; [done|]. by apply ipv4_carries.
Qed.

Lemma padOptions_spec options : is_bytes options -> len options <= 40 ->
  is_bytes (padOptions options) /\ len (padOptions options) mod 4 = 0 /\ len (padOptions options) <= 40 /\
  exists k, padOptions options = options ++ zeros k.
Proof.
  intros Hb Hl. pose proof (len_nonneg options). unfold padOptions.
  destruct (Z.eqb_spec (len options mod 4) 0) as [E|E]; cbn [negb].
  - split; [done|]. split; [done|]. split; [done|]. exists 0. by rewrite app_nil_r.
  - assert (copy_into (zeros ((len options + 3) / 4 * 4)) options =
            options ++ zeros ((len options + 3) / 4 * 4 - len options)) as ->.
    { unfold copy_into. rewrite length_zeros. rewrite take_ge by (unfold len in *; dlia). f_equal.
      unfold zeros. rewrite drop_replicate. f_equal. unfold len in *. lia. }
    assert (len options <= (len options + 3) / 4 * 4) by dlia.
    split; [|split; [|split; [|by eexists]]].
    + apply Forall_app. split; [done|]. by apply Forall_replicate.
    + rewrite len_app, len_zeros by lia. dlia.
    + rewrite len_app, len_zeros by lia. dlia.
Qed.


Definition udpBytes (sport dport : Z) (data : bytes) (check : Z) : bytes :=
  (be 2 sport ++ be 2 dport ++ be 2 (wrap 16 (8 + len data))) ++ be 2 check ++ data.

(** The datagram in the buffer before its checksum is known. *)
Lemma udpFields_eq buf sport dport n :
  0 <= n -> len buf = 42 + n ->
  let packet := slice buf 34 (34 + 8 + n) in
  let packet := put packet 0 (be 2 sport) in
  let packet := put packet 2 (be 2 dport) in
  let packet := put packet 4 (be 2 (wrap 16 (8 + n))) in
  let packet := put packet 8 (slice buf (34 + 8) (len buf)) in
  put (put packet 6 [0]) 7 [0] = udpBytes sport dport (slice buf 42 (42 + n)) 0.
Proof.
  intros Hn Hb. cbv zeta. destruct (split_at buf 34) as (b0 & r & -> & L0 & Lr); [lia|].
  destruct (split_at r 8) as (h & data & -> & Lh & Ld); [lia|]. rewrite !len_app in *.
  rewrite !(slice_app_r b0), L0 by lia. change (34 - 34) with 0.
  replace (34 + 8 + n - 34) with (len (h ++ data)) by (rewrite len_app; lia).
  rewrite slice_full, !(slice_app_r h), Lh by lia.
  replace (42 - 34 - 8) with 0 by lia. replace (34 + 8 - 34 - 8) with 0 by lia.
  replace (42 + n - 34 - 8) with (len data) by lia. replace (34 + (8 + len data) - 34 - 8) with (len data) by lia.
  rewrite slice_full.
  do 3 rewrite (put_left _ data) by (rewrite ?len_put, ?len_be; lia).
  rewrite (put_right _ data) by (rewrite !len_put; lia). rewrite !len_put, Lh.
  change (8 - 8) with 0. rewrite (put_full data) by done.
  rewrite !(put_left _ data) by (rewrite ?len_put, ?len_cons, ?len_nil; lia).
  unfold udpBytes. rewrite (app_assoc _ (be 2 0)). f_equal.
  replace (8 + len data) with (8 + n) by lia. clear Hb L0 Lr. open_list h. reflexivity.
Qed.

Lemma len_udpBytes sport dport data check : len (udpBytes sport dport data check) = 8 + len data.
Proof. unfold udpBytes. rewrite !len_app, !len_be. lia. Qed.

Lemma udpBytes_received v h sport dport data check :
  payload h = udpBytes sport dport data check -> is_u16 sport -> is_u16 dport -> 8 + len data < 2 ^ 16 ->
  udpChecksum (src h) (dst h) (payload h) = Ok 0 -> udpDatagram v h = Ok (Some (sport, dport, data)).
Proof.
  intros Hp Hs Hd Hn Hc. pose proof (len_nonneg data). unfold udpDatagram. rewrite Hp in *.
  rewrite len_udpBytes. destruct (Z.ltb_spec (8 + len data) 8); [lia|].
  change (slice (udpBytes sport dport data check) 4 6) with (be 2 (wrap 16 (8 + len data))).
  change (slice (udpBytes sport dport data check) 0 2) with (be 2 sport).
  change (slice (udpBytes sport dport data check) 2 4) with (be 2 dport).
  rewrite !unbe_be. change (8 * Z.of_nat 2) with 16. rewrite wrap_wrap by lia.
  rewrite (wrap_small 16 (8 + len data)) by (unfold in_width; lia).
  unfold udpHeaderLen. destruct (Z.ltb_spec (8 + len data) 8); [lia|]. rewrite Z.ltb_irrefl.
  assert (slice (udpBytes sport dport data check) 0 (8 + len data) = udpBytes sport dport data check) as ->.
  { rewrite <- (len_udpBytes sport dport data check). apply slice_full. }
  assert (slice (udpBytes sport dport data check) 8 (8 + len data) = data) as ->.
  { unfold udpBytes. rewrite app_assoc, slice_app_r; change (len (_ ++ be 2 check)) with 8; [|lia].
    replace (8 + len data - 8) with (len data) by lia. apply slice_full. }
  rewrite Hc, (wrap_small 16 sport), (wrap_small 16 dport) by done. by destruct (v && _).
Qed.

(** Whatever the headers of the buffer held before, a UDP datagram the stack sends arrives:
    the frame carries the addresses, and the receiving side of the stack, with checksum
    validation on or off, finds the ports and exactly the data that was behind the
    headers. *)
Theorem udp_frame_roundtrip (ns : NetStack) (buf from to : bytes) (sport dport n : Z) (v : bool)
    (Hns : sendable ns) (Hfrom : address from) (Hto : address to) (Hports : is_u16 sport /\ is_u16 dport)
    (Hn : 0 <= n /\ 28 + n < 2 ^ 16) (Hbuf : len buf = 42 + n) (Hdata : is_bytes (slice buf 42 (42 + n))) :
  exists out seg,
    sendUDP ns buf sport dport from to n = Ok out /\ carries ns out from to udpProtocolNumber seg /\
    forall h, src h = from -> dst h = to -> payload h = seg ->
      udpDatagram v h = Ok (Some (sport, dport, slice buf 42 (42 + n))).
Proof.
  destruct Hn as [Hn0 Hn], Hports as [Hs Hd]. unfold sendUDP, ethernetHeaderLen, ipv4HeaderLen, udpHeaderLen.
  change (14 + 20) with 34. destruct (Z.ltb_spec (len buf) (34 + 8 + n)); [lia|]. cbv zeta.
  rewrite (udpFields_eq buf sport dport n Hn0 Hbuf). set (data := slice buf 42 (42 + n)) in *.
  assert (len data = n) as Ld by (unfold data; rewrite len_slice; lia).
  set (pre := be 2 sport ++ be 2 dport ++ be 2 (wrap 16 (8 + len data))).
  pose proof Hfrom as [Lf Bf]. pose proof Hto as [Lt Bt].
  assert (is_bytes pre) as Bpre by (unfold pre, is_bytes; rewrite !Forall_app; split_and!; apply be_is_bytes).
  destruct (transport_verifies from to udpProtocolNumber pre data) as (ps & c & Hc & E0 & Ec & Ev & Ez);
    [done..|change (len pre) with 6; lia|].
  assert (udpChecksum from to (udpBytes sport dport data 0) = Ok c) as ->.
  { unfold udpChecksum. change (udpBytes _ _ _ _) with (pre ++ be 2 0 ++ data).
    rewrite E0. cbn [mbind result_bind]. by rewrite <- Ev. }
  cbn [mbind result_bind]. set (seg := udpBytes sport dport data c).
  assert (put (udpBytes sport dport data 0) 6 (be 2 c) = seg) as ->.
  { exact (put_field pre (be 2 c) (be 2 0) data eq_refl). }
  assert (len seg = 8 + n) as Ls by (unfold seg; rewrite len_udpBytes; lia).
  destruct (frame_sent ns buf from to udpProtocolNumber seg) as (out & Eout & Hcar); [done..|lia|lia|].
  exists out, seg. split; [|split; [done|]].
  - destruct Hns as (_ & _ & Hh). rewrite Hh. exact Eout.
  - intros h <- <- Hp. apply (udpBytes_received v h sport dport data c); [done|done|done|lia|].
    rewrite Hp. unfold udpChecksum. change seg with (pre ++ be 2 c ++ data). rewrite Ec. cbn [mbind result_bind].
    by rewrite Ez.
Qed.

(** An echo request is answered with its identifier, sequence number and data. *)
Theorem icmp_echo_roundtrip (ns : NetStack) (v : bool) (frame : bytes) (h : ipv4Header) :
  sendable ns -> address (src h) -> address (dst h) -> is_bytes (payload h) ->
  8 <= len (payload h) -> 20 + len (payload h) < 2 ^ 16 -> len frame = 34 + len (payload h) ->
  at_ (payload h) 0 = 8 -> unbe (slice (payload h) 2 4) = checksum (put (payload h) 2 (be 2 0)) ->
  exists out c,
    let seg := [0; at_ (payload h) 1] ++ be 2 c ++ slice (payload h) 4 (len (payload h)) in
    handleICMP ns v frame h = Ok (Some out) /\ carries ns out (dst h) (src h) icmpProtocol seg /\ checksum seg = 0.
Proof.
  intros Hns Hs Hd Hb H8 Hn Hf Ht Hc. set (p := payload h) in *. unfold handleICMP. fold p.
  destruct (Z.ltb_spec (len p) 8); [lia|]. rewrite Ht. cbn [Z.eqb Pos.eqb negb]. rewrite Hc, Z.eqb_refl, andb_false_r.
  set (rest := slice p 4 (len p)). assert (len rest = len p - 4) as Lr by (unfold rest; rewrite len_slice; lia).
  assert (is_u8 (at_ p 1)) as H1.
  { unfold at_. destruct (lookup_lt_is_Some_2 p (Z.to_nat 1)) as [x E]; [unfold len in *; lia|]. rewrite E.
    by eapply Forall_lookup_1 in E. }
  assert (is_bytes rest) as Br by (apply Forall_take, Forall_drop; done).
  set (pre := [0; at_ p 1]).
  assert (put (put (put (zeros (len p)) 0 [0]) 1 [at_ p 1]) 4 rest = pre ++ [0; 0] ++ rest) as E.
  { assert (zeros (len p) = zeros 4 ++ zeros (len p - 4)) as ->.
    { unfold zeros. rewrite <- replicate_add. f_equal. lia. }
    do 2 rewrite put_left by done. rewrite put_right by (by rewrite !len_put). rewrite !len_put. change (4 - len (zeros 4)) with 0. rewrite (put_full (zeros (len p - 4))) by (rewrite len_zeros; lia). reflexivity. }
  assert (sumFits (pre ++ [0; 0] ++ rest) 0) as Hfit.
  { apply sumFits_small; [|rewrite !len_app; change (len pre) with 2; change (len [0; 0]) with 2; lia].
    repeat (apply Forall_cons_2; [done|]). exact Br. }
  unfold sendICMPEchoReply. cbv zeta. fold rest. rewrite E. set (c := checksum (pre ++ [0; 0] ++ rest)).
  assert (put (pre ++ [0; 0] ++ rest) 2 (be 2 c) = pre ++ be 2 c ++ rest) as ->.
  { exact (put_field pre (be 2 c) [0; 0] rest eq_refl). }
  set (seg := pre ++ be 2 c ++ rest). assert (len seg = len p) as Ls.
  { unfold seg. rewrite !len_app. change (len pre) with 2. change (len (be 2 c)) with 2. lia. }
  destruct (frame_sent ns frame (dst h) (src h) icmpProtocol seg) as (out & Eout & Hcar); [done..|lia|lia|].
  exists out, c. split; [|split; [exact Hcar|exact (checksum_verifies pre rest 0 eq_refl Hfit)]].
  unfold ethernetHeaderLen, ipv4HeaderLen. change (14 + 20) with 34. cbv zeta in Eout. rewrite Eout. reflexivity.
Qed.

(** * Sources of guest frames *)

Lemma Equal_4 a b : len a = 4 -> len b = 4 -> Equal a b = true -> a = b.
Proof. intros Ha Hb. unfold Equal. rewrite Ha, Hb. cbn. apply bool_decide_eq_true. Qed.

Lemma Equal_zero a : len a = 4 -> Equal a IPv4zero = true -> a = zeros 4.
Proof.
  intros Ha. unfold Equal. rewrite Ha. change (len IPv4zero) with 16. cbn [Z.eqb Pos.eqb andb].
  rewrite bool_decide_eq_true. intros [_ ->]. reflexivity.
Qed.

Lemma equalHardwareAddr_eq a b : equalHardwareAddr a b = true -> a = b.
Proof. unfold equalHardwareAddr. destruct (_ || _); [done|]. apply bool_decide_eq_true. Qed.

(** The parser accepts what the check accepts, and reads the source the check read. *)
Lemma ipv4_source packet ip :
  len ip = 4 -> validateIPv4Source packet ip = SourceValid ->
  exists h, parseIPv4Header packet = Ok h /\ 5 <= ihl h /\
    (src h = ip \/ (src h = zeros 4 /\ protocol h = udpProtocolNumber /\
       unbe (slice (payload h) 0 2) = 68 /\ unbe (slice (payload h) 2 4) = 67)).
Proof.
  intros Hip. unfold validateIPv4Source, parseIPv4Header.
  destruct (Z.ltb_spec (len packet) ipv4HeaderLen) as [|Hl]; [done|]. cbn [orb].
  destruct (Z.shiftr (at_ packet 0) 4 =? 4); [|done]. cbn [negb].
  set (n := Z.land (at_ packet 0) 0x0f). unfold ipv4HeaderLen in *.
  destruct (Z.ltb_spec (n * 4) 20) as [|Hn]; [done|]. cbn [orb].
  destruct (Z.ltb_spec (len packet) (n * 4)) as [|Hp]; [done|].
  assert (len (slice packet 12 16) = 4) as Ls by (rewrite len_slice; lia).
  destruct (Equal (slice packet 12 16) ip) eqn:E1.
  - intros _. eexists. split; [done|]. split; [cbn; lia|]. left. by apply Equal_4.
  - destruct (Equal (slice packet 12 16) IPv4zero) eqn:E2; [|done].
    destruct (Z.eqb_spec (at_ packet 9) udpProtocolNumber) as [E3|]; [|done]. cbn [negb orb].
    destruct (len packet <? n * 4 + udpHeaderLen); [done|].
    destruct (Z.eqb_spec (unbe (slice (slice packet (n * 4) (len packet)) 0 2)) 68) as [E4|]; [|done].
    destruct (Z.eqb_spec (unbe (slice (slice packet (n * 4) (len packet)) 2 4)) 67) as [E5|]; [|done].
    intros _. eexists. split; [done|]. split; [cbn; lia|]. right. cbn. by apply Equal_zero in E2.
Qed.

Lemma arp_source packet mac ip :
  len ip = 4 -> validateARPSource packet mac ip = SourceValid ->
  slice packet 8 14 = mac /\
  (slice packet 14 18 = ip \/ (slice packet 14 18 = zeros 4 /\ slice packet 24 28 = ip)).
Proof.
  intros Hip. unfold validateARPSource. destruct (Z.ltb_spec (len packet) 28) as [|Hl]; [done|]. cbn [orb].
  destruct (_ || _ || _ || _); [done|].
  destruct (equalHardwareAddr (slice packet 8 14) mac) eqn:E0; [|done]. cbn [negb].
  apply equalHardwareAddr_eq in E0.
  assert (len (slice packet 14 18) = 4 /\ len (slice packet 24 28) = 4) as [L1 L2] by (rewrite !len_slice; lia).
  destruct (Equal (slice packet 14 18) ip) eqn:E1; [intros _; split; [done|]; left; by apply Equal_4|].
  destruct (Equal (slice packet 14 18) IPv4zero) eqn:E2; [|done].
  destruct (Equal (slice packet 24 28) ip) eqn:E3; [|done].
  intros _. split; [done|]. right. split; [by apply Equal_zero|by apply Equal_4].
Qed.

(** C33: A guest cannot speak for others.  A frame that passes the source check comes from
    the guest's hardware address; if it is an IPv4 frame then the parser of the stack
    accepts the same bytes, and the source address it reads is the guest's lease, or the
    unspecified address of a DHCP request; an ARP frame claims nothing but the lease, or
    probes it; IPv6 never passes. *)
Theorem accepted_source_is_lease (frame mac ip : bytes)
    (Hip : len ip = 4) (Hvalid : ValidateGuestSource frame mac ip = SourceValid) :
  let etherType := unbe (slice frame 12 14) in
  let packet := slice frame ethernetHeaderLen (len frame) in
  slice frame 6 12 = mac /\ etherType <> etherTypeIPv6 /\
  (etherType = etherTypeIPv4 -> exists h, parseIPv4Header packet = Ok h /\ 5 <= ihl h /\
    (src h = ip \/ (src h = zeros 4 /\ protocol h = udpProtocolNumber /\
       unbe (slice (payload h) 0 2) = 68 /\ unbe (slice (payload h) 2 4) = 67))) /\
  (etherType = etherTypeARP -> slice packet 8 14 = mac /\
    (slice packet 14 18 = ip \/ (slice packet 14 18 = zeros 4 /\ slice packet 24 28 = ip))).
Proof.
  intros t packet. revert Hvalid. unfold ValidateGuestSource, To4. rewrite Hip. cbn [Z.eqb Pos.eqb].
  destruct (_ || _); [done|]. destruct (equalHardwareAddr (slice frame 6 12) mac) eqn:E0; [|done].
  apply equalHardwareAddr_eq in E0. cbn [negb]. cbv zeta. fold t. fold packet.
  destruct (Z.eqb_spec t etherTypeARP) as [->|Ha].
  - intros H. split; [done|]. split; [done|]. split; [done|]. intros _. by apply arp_source.
  - destruct (Z.eqb_spec t etherTypeIPv4) as [->|Hi].
    + intros H. split; [done|]. split; [done|]. split; [|done]. intros _. by apply ipv4_source.
    + destruct (Z.eqb_spec t 0x86dd) as [->|H6]; [done|]. intros _. done.
Qed.

(** * Samples *)

Definition sampleStack : NetStack := mkNetStack 0x020000000001 0x020000000002 macUnset true.
Definition hostIP : bytes := [10; 42; 0; 1].
Definition guestIP : bytes := [10; 42; 0; 2].

(** A buffer full of bytes of an earlier frame. *)
Definition usedBuffer (n : nat) : bytes := replicate n 0xa5.

Lemma sample_addresses : sendable sampleStack /\ address hostIP /\ address guestIP.
Proof.
  split; [done|]. split; (split; [done|]); repeat (apply Forall_cons_2; [done|]); apply Forall_nil_2.
Qed.


(** A DHCP request: no address yet, from port 68 to port 67. *)
Definition dhcpFrame : bytes :=
  replicate 6 0xff ++ be 6 0x020000000002 ++ be 2 0x0800 ++
  ipv4Bytes (zeros 4) (replicate 4 0xff) 17 28 0 ++ be 2 68 ++ be 2 67 ++ be 2 8 ++ be 2 0.

Lemma accepted_source_is_lease_witness :
  ValidateGuestSource dhcpFrame (be 6 0x020000000002) guestIP = SourceValid /\
  exists h, parseIPv4Header (slice dhcpFrame ethernetHeaderLen (len dhcpFrame)) = Ok h /\ 5 <= ihl h.
Proof.
  split; [vm_compute; reflexivity|].
  destruct (accepted_source_is_lease dhcpFrame (be 6 0x020000000002) guestIP) as (_ & _ & H & _).
  - reflexivity.
  - vm_compute; reflexivity.
  - destruct H as (h & E & Hh & _); [vm_compute; reflexivity|]. exists h. split; [exact E|exact Hh].
Defined.
