(* ===== verification/Uart8250.v ===== *)
(** The 8250 serial port: [src/internal/core/serial/uart8250.go].

    The register file, the interrupt identification logic, the transmit path
    with its newline translation, loopback, and byte injection from the host.
    The [io.Writer] is the list of bytes handed to it and the interrupt
    controller the list of its [SetIRQ] calls; the code ignores the errors of
    both.  Each method that takes the mutex is one state transformer. *)

From S2P Require Import Prelude.

Definition UART8250Size : Z := 0x1000.
Definition uartRegisterCount : Z := 8.
Definition uartLCRDLAB : Z := 128.
Definition uartMCRLoop : Z := 16.
Definition uartLSRDataReady : Z := 1.
Definition uartLSRTHRE : Z := 32.
Definition uartLSRTEMT : Z := 64.

Record UART8250 := mkUART {
  base : Z;
  size : Z;
  stride : Z;
  out : option bytes;              (* [None]: nil writer *)
  irq : option (list (Z * bool));  (* [None]: nil controller *)
  irqLine : Z;
  dll : Z;
  dlm : Z;
  ier : Z;
  fcr : Z;
  lcr : Z;
  mcr : Z;
  lsr : Z;
  msrStatus : Z;
  msrDelta : Z;
  scr : Z;
  rbr : Z;
  pendingIIR : Z;
  fifoEnabled : bool;
  skipLF : bool;
}.
#[export] Instance eta_UART8250 : Eta UART8250 := fun u =>
  mkUART (base u) (size u) (stride u) (out u) (irq u) (irqLine u) (dll u) (dlm u) (ier u)
    (fcr u) (lcr u) (mcr u) (lsr u) (msrStatus u) (msrDelta u) (scr u) (rbr u)
    (pendingIIR u) (fifoEnabled u) (skipLF u).

(** * Interrupts and modem status *)

(** The [switch] of [updateInterrupts]: the source of highest priority. *)
Definition interruptID (u : UART8250) : Z :=
  if hasbits (ier u) 0x04 && hasbits (lsr u) 0x1e then 0x06
  else if hasbits (ier u) 0x01 && hasbits (lsr u) uartLSRDataReady then 0x04
  else if hasbits (ier u) 0x02 && hasbits (lsr u) uartLSRTHRE then 0x02
  else if hasbits (ier u) 0x08 && negb (msrDelta u =? 0) then 0x00
  else 0x01.

Definition updateInterrupts (u : UART8250) : UART8250 :=
  let interrupt := interruptID u in
  let u := u <| pendingIIR := interrupt |> in
  match irq u with
  | Some calls =>
      if negb (irqLine u =? 0)
      then u <| irq := Some (calls ++ [(irqLine u, negb (interrupt =? 0x01))]) |>
      else u
  | None => u
  end.

Definition updateModemStatus (u : UART8250) : UART8250 :=
  let bits := Z.lor 16 (Z.lor 32 128) in
  u <| msrStatus := if hasbits (mcr u) 0x04 then Z.lor bits 64 else bits |>.

Definition modemStatus (u : UART8250) : Z * UART8250 :=
  (Z.lor (msrStatus u) (msrDelta u), u <| msrDelta := 0 |>).

Definition NewUART8250 (base regShift : Z) (out : option bytes) : UART8250 :=
  let stride := u64 (Z.shiftl 1 regShift) in
  let stride := if stride =? 0 then 1 else stride in
  let u := mkUART base UART8250Size stride out None 0 0 0 0 0 0 0
             (Z.lor uartLSRTHRE uartLSRTEMT) 0 0 0 0 0x01 false false in
  updateInterrupts (updateModemStatus u).

Definition AttachIRQ (u : UART8250) (controller : list (Z * bool)) (line : Z) : UART8250 :=
  updateInterrupts (u <| irq := Some controller |> <| irqLine := line |>).

(** * Registers *)

Definition clearRX (u : UART8250) : UART8250 :=
  updateInterrupts (u <| rbr := 0 |> <| lsr := Z.ldiff (lsr u) uartLSRDataReady |>).

Definition setIER (u : UART8250) (value : Z) : UART8250 :=
  updateInterrupts (u <| ier := Z.land value 0x0f |>).

Definition setFCR (u : UART8250) (value : Z) : UART8250 :=
  let u := if hasbits value 0x02 then clearRX u else u in
  u <| fcr := value |> <| fifoEnabled := hasbits value 0x01 |>.

Definition setMCR (u : UART8250) (value : Z) : UART8250 :=
  let prev := mcr u in
  let u := u <| mcr := Z.land value 0x1f |> in
  let u := if hasbits prev uartMCRLoop && negb (hasbits (mcr u) uartMCRLoop)
           then clearRX u else u in
  updateInterrupts (updateModemStatus u).

(** [out.Write]; [written] are the bytes the writer has received. *)
Definition writeOut (u : UART8250) (b : bytes) : UART8250 :=
  match out u with
  | Some written => u <| out := Some (written ++ b) |>
  | None => u
  end.

Definition CR : Z := 13.
Definition LF : Z := 10.

Definition transmit (u : UART8250) (value : Z) : UART8250 :=
  if hasbits (mcr u) uartMCRLoop
  then updateInterrupts (u <| rbr := value |> <| lsr := Z.lor (lsr u) uartLSRDataReady |>)
  else
    let u :=
      match out u with
      | None => u
      | Some _ =>
          if value =? CR then writeOut u [LF] <| skipLF := true |>
          else if value =? LF then
            if skipLF u then u <| skipLF := false |> else writeOut u [LF]
          else writeOut (u <| skipLF := false |>) [value]
      end in
    updateInterrupts (u <| lsr := Z.lor (lsr u) (Z.lor uartLSRTHRE uartLSRTEMT) |>).

Definition writeRegister (u : UART8250) (reg value : Z) : UART8250 :=
  match reg with
  | 0 =>
      if hasbits (lcr u) uartLCRDLAB then u <| dll := value |>
      else transmit (updateInterrupts (u <| lsr := Z.ldiff (lsr u) uartLSRTHRE |>)) value
  | 1 => if hasbits (lcr u) uartLCRDLAB then u <| dlm := value |> else setIER u value
  | 2 => setFCR u value
  | 3 => u <| lcr := value |>
  | 4 => setMCR u value
  | 7 => u <| scr := value |>
  | _ => u
  end.

Definition readRegister (u : UART8250) (reg : Z) : Z * UART8250 :=
  match reg with
  | 0 => if hasbits (lcr u) uartLCRDLAB then (dll u, u) else (rbr u, clearRX u)
  | 1 => if hasbits (lcr u) uartLCRDLAB then (dlm u, u) else (ier u, u)
  | 2 => (pendingIIR u, u)
  | 3 => (lcr u, u)
  | 4 => (mcr u, u)
  | 5 => (lsr u, u)
  | 6 => modemStatus u
  | 7 => (scr u, u)
  | _ => (0, u)
  end.

(** * MMIO *)

Inductive uartError :=
| OutsideRange (addr : Z)
| NotAligned (addr : Z)
| BadRegister (reg : Z)
| InvalidSize (n : Z).

Definition Contains (u : UART8250) (addr n : Z) : bool :=
  if n <=? 0 then false
  else
    let e := u64 (addr + n) in
    (base u <=? addr) && (addr <? e) && (e <=? u64 (base u + size u)).

Definition registerAt (u : UART8250) (addr : Z) : result uartError Z :=
  if (addr <? base u) || (u64 (base u + size u) <=? addr) then Err (OutsideRange addr)
  else
    let offset := addr - base u in
    if stride u =? 0 then Panic
    else if negb (offset mod stride u =? 0) then Err (NotAligned addr)
    else
      let reg := offset / stride u in
      if uartRegisterCount <=? reg then Err (BadRegister reg) else Ok (u16 reg).

Definition writeByte (u : UART8250) (addr value : Z) : result uartError UART8250 :=
  match registerAt u addr with
  | Ok reg => Ok (writeRegister u reg value)
  | Err e => Err e
  | Panic => Panic
  end.

Definition readByte (u : UART8250) (addr : Z) : result uartError (Z * UART8250) :=
  match registerAt u addr with
  | Ok reg => Ok (readRegister u reg)
  | Err e => Err e
  | Panic => Panic
  end.

(** [Write]: bytes in order from [addr + i] on; the bytes before a failing one
    have taken effect. *)
Fixpoint Write_ (u : UART8250) (addr : Z) (data : bytes) (i : Z) : UART8250 * result uartError () :=
  match data with
  | [] => (u, Ok ())
  | value :: data =>
      match writeByte u (u64 (addr + i)) value with
      | Ok u => Write_ u addr data (i + 1)
      | Err e => (u, Err e)
      | Panic => (u, Panic)
      end
  end.

(** [Read] of [n] bytes from [addr + i] on: the bytes stored in [data]. *)
Fixpoint Read_ (u : UART8250) (addr : Z) (n : nat) (i : Z) : UART8250 * result uartError bytes :=
  match n with
  | O => (u, Ok [])
  | S n =>
      match readByte u (u64 (addr + i)) with
      | Ok (value, u) =>
          let '(u, rest) := Read_ u addr n (i + 1) in
          (u, rest ≫= fun rest => Ok (value :: rest))
      | Err e => (u, Err e)
      | Panic => (u, Panic)
      end
  end.

Definition WriteValue (u : UART8250) (addr n value : Z) : UART8250 * result uartError () :=
  if (n <=? 0) || (8 <? n) then (u, Err (InvalidSize n))
  else Write_ u addr (take (Z.to_nat n) (le 8 value)) 0.

Definition ReadValue (u : UART8250) (addr n : Z) : UART8250 * result uartError Z :=
  if (n <=? 0) || (8 <? n) then (u, Err (InvalidSize n))
  else
    let '(u, got) := Read_ u addr (Z.to_nat n) 0 in
    (u, got ≫= fun got => Ok (unle (got ++ zeros (8 - n)))).

(** * Injection from the host *)

Definition InjectRXByte (u : UART8250) (value : Z) : UART8250 :=
  updateInterrupts (u <| rbr := value |> <| lsr := Z.lor (lsr u) uartLSRDataReady |>).

(** One poll of the inner loop of [InjectRXBytes] under the mutex: the byte is
    stored if the receiver is empty, else the loop sleeps and polls again. *)
Definition injectPoll (u : UART8250) (value : Z) : option UART8250 :=
  if negb (hasbits (lsr u) uartLSRDataReady)
  then Some (updateInterrupts (u <| rbr := value |> <| lsr := Z.lor (lsr u) uartLSRDataReady |>))
  else None.

(** * The interrupt invariant *)

(** The last [SetIRQ] call on the attached line carries the pending state. *)
Definition irqAgrees (u : UART8250) : Prop :=
  match irq u with
  | Some calls => irqLine u <> 0 -> last calls = Some (irqLine u, negb (interruptID u =? 1))
  | None => True
  end.

Definition uart_ok (u : UART8250) : Prop :=
  pendingIIR u = interruptID u /\ msrDelta u = 0 /\ 0 < stride u /\ irqAgrees u.

(** Fields [updateInterrupts] leaves alone. *)
Ltac frame := intros; unfold updateInterrupts; repeat case_match; reflexivity.

Lemma updateInterrupts_lsr u : lsr (updateInterrupts u) = lsr u.
Proof. frame. Qed.
Lemma updateInterrupts_rbr u : rbr (updateInterrupts u) = rbr u.
Proof. frame. Qed.
Lemma updateInterrupts_mcr u : mcr (updateInterrupts u) = mcr u.
Proof. frame. Qed.
Lemma updateInterrupts_lcr u : lcr (updateInterrupts u) = lcr u.
Proof. frame. Qed.
Lemma updateInterrupts_ier u : ier (updateInterrupts u) = ier u.
Proof. frame. Qed.
Lemma updateInterrupts_out u : out (updateInterrupts u) = out u.
Proof. frame. Qed.
Lemma updateInterrupts_skipLF u : skipLF (updateInterrupts u) = skipLF u.
Proof. frame. Qed.
Lemma updateInterrupts_delta u : msrDelta (updateInterrupts u) = msrDelta u.
Proof. frame. Qed.
Lemma updateInterrupts_base u : base (updateInterrupts u) = base u.
Proof. frame. Qed.
Lemma updateInterrupts_size u : size (updateInterrupts u) = size u.
Proof. frame. Qed.
Lemma updateInterrupts_stride u : stride (updateInterrupts u) = stride u.
Proof. frame. Qed.
Lemma updateInterrupts_line u : irqLine (updateInterrupts u) = irqLine u.
Proof. frame. Qed.

Create Rewrite HintDb uart.
#[export] Hint Rewrite updateInterrupts_lsr updateInterrupts_rbr updateInterrupts_mcr
  updateInterrupts_lcr updateInterrupts_ier updateInterrupts_out updateInterrupts_skipLF
  updateInterrupts_delta updateInterrupts_base updateInterrupts_size updateInterrupts_stride
  updateInterrupts_line : uart.

Lemma updateInterrupts_ok u : msrDelta u = 0 -> 0 < stride u -> uart_ok (updateInterrupts u).
Proof.
  intros Hd Hs. unfold uart_ok.
  assert (Hid : interruptID (updateInterrupts u) = interruptID u)
    by (unfold interruptID; by autorewrite with uart).
  autorewrite with uart. split_and!; [|done..|].
  - rewrite Hid. unfold updateInterrupts. repeat case_match; reflexivity.
  - unfold irqAgrees. rewrite Hid. autorewrite with uart.
    unfold updateInterrupts. cbn. destruct (irq u) as [calls|] eqn:Hi; cbn.
    + destruct (Z.eqb_spec (irqLine u) 0); cbn; [by rewrite Hi|].
      intros _. by rewrite last_snoc.
    + by rewrite Hi.
Qed.

Create HintDb uart_inv.
#[export] Hint Resolve updateInterrupts_ok : uart_inv.

Lemma uart_ok_delta u : uart_ok u -> msrDelta u = 0.
Proof. intros H; apply H. Qed.
Lemma uart_ok_stride u : uart_ok u -> 0 < stride u.
Proof. intros H; apply H. Qed.
#[export] Hint Resolve uart_ok_delta uart_ok_stride : uart_inv.

Lemma transmit_delta u v : msrDelta (transmit u v) = msrDelta u.
Proof.
  unfold transmit, writeOut. repeat case_match; autorewrite with uart; reflexivity.
Qed.

Lemma transmit_stride u v : stride (transmit u v) = stride u.
Proof.
  unfold transmit, writeOut. repeat case_match; autorewrite with uart; reflexivity.
Qed.

Lemma transmit_ok u v : msrDelta u = 0 -> 0 < stride u -> uart_ok (transmit u v).
Proof.
  intros Hd Hs. unfold transmit, writeOut.
  repeat case_match; apply updateInterrupts_ok; done.
Qed.

Lemma writeRegister_ok u reg v : uart_ok u -> uart_ok (writeRegister u reg v).
Proof.
  intros Hok. pose proof (uart_ok_delta _ Hok). pose proof (uart_ok_stride _ Hok).
  assert (Hclear : uart_ok (clearRX u)) by (apply updateInterrupts_ok; done).
  unfold writeRegister, setIER, setFCR, setMCR.
  repeat case_match; try done;
    solve [apply transmit_ok; autorewrite with uart; done
          | apply updateInterrupts_ok; unfold clearRX; cbn; autorewrite with uart; done].
Qed.

Lemma readRegister_ok u reg : uart_ok u -> uart_ok (readRegister u reg).2.
Proof.
  intros Hok. pose proof (uart_ok_delta _ Hok) as Hd. pose proof (uart_ok_stride _ Hok).
  unfold readRegister, modemStatus.
  repeat case_match; cbn; try done.
  - apply updateInterrupts_ok; done.
  - destruct u. cbn in *. by subst.
Qed.

Lemma Write_ok data u addr i : uart_ok u -> uart_ok (Write_ u addr data i).1.
Proof.
  revert u i. induction data as [|v data IH]; intros u i Hok; cbn; [done|].
  unfold writeByte. destruct (registerAt u _); cbn; [|done..].
  apply IH, writeRegister_ok, Hok.
Qed.

Lemma Read_ok n u addr i : uart_ok u -> uart_ok (Read_ u addr n i).1.
Proof.
  revert u i. induction n as [|n IH]; intros u i Hok; cbn; [done|].
  unfold readByte. destruct (registerAt u _) as [reg| |]; cbn; [|done..].
  pose proof (readRegister_ok u reg Hok) as Hr.
  destruct (readRegister u reg) as [v u']. cbn in Hr.
  specialize (IH u' (i + 1) Hr). by destruct (Read_ u' addr n (i + 1)).
Qed.

(** Everything the bus and the host may do to a port, one call at a time. *)
Inductive uartStep : UART8250 -> UART8250 -> Prop :=
| step_attach u controller line : uartStep u (AttachIRQ u controller line)
| step_write u addr data : uartStep u (Write_ u addr data 0).1
| step_read u addr n : uartStep u (Read_ u addr n 0).1
| step_writeValue u addr n v : uartStep u (WriteValue u addr n v).1
| step_readValue u addr n : uartStep u (ReadValue u addr n).1
| step_inject u v : uartStep u (InjectRXByte u v)
| step_poll u v u' : injectPoll u v = Some u' -> uartStep u u'.

Lemma uartStep_ok u u' : uartStep u u' -> uart_ok u -> uart_ok u'.
Proof.
  intros Hstep Hok. pose proof (uart_ok_delta _ Hok). pose proof (uart_ok_stride _ Hok).
  destruct Hstep as [u c l|u a d|u a n|u a n v|u a n|u v|u v u' Hp].
  - apply updateInterrupts_ok; done.
  - apply Write_ok, Hok.
  - apply Read_ok, Hok.
  - unfold WriteValue. case_match; [done|]. apply Write_ok, Hok.
  - unfold ReadValue. case_match; [done|].
    pose proof (Read_ok (Z.to_nat n) u a 0 Hok). by destruct (Read_ u a _ 0).
  - apply updateInterrupts_ok; done.
  - unfold injectPoll in Hp. case_match; [|done]. injection Hp as <-.
    apply updateInterrupts_ok; done.
Qed.

Lemma NewUART8250_ok b s o : uart_ok (NewUART8250 b s o).
Proof.
  apply updateInterrupts_ok; [reflexivity|]. cbn.
  pose proof (wrap_range 64 (Z.shiftl 1 s) ltac:(lia)). width.
  destruct (Z.eqb_spec (u64 (Z.shiftl 1 s)) 0); lia.
Qed.

(** * Console output *)

(** What the console shows for the bytes a guest transmits: CR LF and a lone CR
    both become one LF. *)
Fixpoint normalise (l : bytes) : bytes :=
  match l with
  | [] => []
  | c :: l =>
      if c =? CR then
        LF :: match l with
              | d :: l' => if d =? LF then normalise l' else normalise l
              | [] => []
              end
      else c :: normalise l
  end.

(** The bytes still to be shown when [skipLF] is set. *)
Definition normaliseFrom (skip : bool) (l : bytes) : bytes :=
  match l with
  | d :: l' => if skip && (d =? LF) then normalise l' else normalise l
  | [] => []
  end.

Lemma normalise_cons skip c l :
  normaliseFrom skip (c :: l) =
    (if (c =? LF) && skip then []
     else if c =? CR then [LF] else [c]) ++
    normaliseFrom (c =? CR) l.
Proof.
  unfold normaliseFrom. destruct (Z.eqb_spec c LF) as [->|Hlf]; destruct skip; cbn.
  - by destruct l.
  - by destruct l.
  - destruct (Z.eqb_spec c CR); destruct l; cbn; repeat case_match; done.
  - destruct (Z.eqb_spec c CR); destruct l; cbn; repeat case_match; done.
Qed.

(** A port in normal operation: DLAB and loopback off, a writer attached. *)
Definition consoleMode (u : UART8250) (written : bytes) : Prop :=
  hasbits (lcr u) uartLCRDLAB = false /\ hasbits (mcr u) uartMCRLoop = false /\
  out u = Some written.

Lemma transmit_console u v written :
  consoleMode u written ->
  consoleMode (writeRegister u 0 v)
    (written ++ (if (v =? LF) && skipLF u then [] else if v =? CR then [LF] else [v])) /\
  skipLF (writeRegister u 0 v) = (v =? CR) /\
  base (writeRegister u 0 v) = base u /\ size (writeRegister u 0 v) = size u /\
  stride (writeRegister u 0 v) = stride u.
Proof.
  intros (Hl & Hm & Ho). unfold consoleMode, writeRegister. rewrite Hl.
  unfold transmit. autorewrite with uart.
  change (mcr (u <| lsr := _ |>)) with (mcr u). rewrite Hm.
  change (out (u <| lsr := _ |>)) with (out u). rewrite Ho.
  change (skipLF (u <| lsr := _ |>)) with (skipLF u).
  unfold writeOut.
  destruct (Z.eqb_spec v CR) as [->|Hcr]; [|destruct (Z.eqb_spec v LF) as [->|Hlf]];
    [..|]; try (destruct (skipLF u) eqn:Hs); autorewrite with uart; cbn;
    autorewrite with uart; cbn; rewrite ?Ho, ?Hl, ?Hm, ?Hs; cbn; autorewrite with uart; cbn;
    rewrite ?Ho, ?Hl, ?Hm, ?Hs, ?app_nil_r; done.
Qed.

(** A port whose eight registers are reachable without address wrap-around. *)
Definition mappedAt (u : UART8250) : Prop :=
  0 <= base u /\ size u = UART8250Size /\ base u + UART8250Size < 2 ^ 64 /\ 0 < stride u.

Lemma registerAt_reg u reg :
  mappedAt u -> 0 <= reg < 8 -> reg * stride u < UART8250Size ->
  registerAt u (u64 (base u + reg * stride u + 0)) = Ok reg.
Proof.
  intros (Hb & Hsz & Hend & Hs) Hr Hfit. unfold registerAt, UART8250Size, uartRegisterCount in *.
  rewrite Hsz, Z.add_0_r.
  rewrite (wrap_small 64 (base u + reg * stride u)) by (width; nia).
  rewrite (wrap_small 64 (base u + 0x1000)) by width.
  destruct (Z.ltb_spec (base u + reg * stride u) (base u)); [nia|].
  destruct (Z.leb_spec (base u + 0x1000) (base u + reg * stride u)); [lia|]. cbn [orb].
  destruct (Z.eqb_spec (stride u) 0); [lia|].
  replace (base u + reg * stride u - base u) with (reg * stride u) by lia.
  rewrite Z.mod_mul, Z.div_mul by lia.
  destruct (Z.leb_spec 8 reg); [lia|]. cbn. by rewrite wrap_small by width.
Qed.

Lemma WriteValue_reg u reg v :
  mappedAt u -> 0 <= reg < 8 -> reg * stride u < UART8250Size -> is_u8 v ->
  WriteValue u (base u + reg * stride u) 1 v = (writeRegister u reg v, Ok ()).
Proof.
  intros Hm Hr Hfit Hv. unfold WriteValue.
  change ((1 <=? 0) || (8 <? 1)) with false.
  change (take (Z.to_nat 1) (le 8 v)) with [u8 v]. rewrite (wrap_small 8 v) by done.
  cbn [Write_]. unfold writeByte. by rewrite registerAt_reg.
Qed.

Lemma ReadValue_reg u reg :
  mappedAt u -> 0 <= reg < 8 -> reg * stride u < UART8250Size ->
  ReadValue u (base u + reg * stride u) 1 = ((readRegister u reg).2, Ok (readRegister u reg).1).
Proof.
  intros Hm Hr Hfit. unfold ReadValue.
  change ((1 <=? 0) || (8 <? 1)) with false. change (Z.to_nat 1) with 1%nat.
  cbn [Read_]. unfold readByte. rewrite registerAt_reg by done.
  destruct (readRegister u reg) as [v u']. cbn [fst snd mbind result_bind].
  change (zeros (8 - 1)) with [0; 0; 0; 0; 0; 0; 0]. unfold unle. cbn [app].
  do 2 f_equal. lia.
Qed.

(** One byte stored in the transmit holding register by the bus. *)
Definition storeTHR (u : UART8250) (v : Z) : UART8250 :=
  (WriteValue u (base u + 0 * stride u) 1 v).1.

Lemma storeAll_console data u written :
  mappedAt u -> consoleMode u written -> is_bytes data ->
  out (foldl storeTHR u data) = Some (written ++ normaliseFrom (skipLF u) data).
Proof.
  revert u written. induction data as [|v data IH]; intros u written Hm Hc Hd.
  - cbn. destruct Hc as (_ & _ & ->). by rewrite app_nil_r.
  - apply Forall_cons in Hd as [Hv Hd]. cbn [foldl].
    assert (Hst : storeTHR u v = writeRegister u 0 v).
    { unfold storeTHR. rewrite WriteValue_reg; [done..| |done]; unfold UART8250Size; lia. }
    rewrite Hst. destruct (transmit_console u v written Hc) as (Hc' & Hs & Hb & Hz & Hst').
    rewrite (IH _ _ ltac:(unfold mappedAt in *; by rewrite Hb, Hz, Hst') Hc' Hd).
    rewrite Hs, normalise_cons, app_assoc. done.
Qed.

(** * Injection of a byte string *)

(** The goroutine in [InjectRXBytes] with the bytes it has left, and the bytes
    the guest has taken from the receive buffer. *)
Record injection := mkInjection { port : UART8250; todo : bytes; received : bytes }.

(** The byte waiting in the receiver. *)
Definition waiting (u : UART8250) : bytes :=
  if hasbits (lsr u) uartLSRDataReady then [rbr u] else [].

(** What a guest read of [reg] takes from the receiver. *)
Definition taken (u : UART8250) (reg : Z) : bytes :=
  if (reg =? 0) && negb (hasbits (lcr u) uartLCRDLAB) then waiting u else [].

(** Polls of the goroutine interleaved with guest register accesses.  The guest
    neither resets the receiver through FCR nor enters loopback. *)
Inductive injectStep : injection -> injection -> Prop :=
| inj_store u v rest got u' :
    injectPoll u v = Some u' ->
    injectStep (mkInjection u (v :: rest) got) (mkInjection u' rest got)
| inj_sleep u v rest got :
    injectPoll u v = None ->
    injectStep (mkInjection u (v :: rest) got) (mkInjection u (v :: rest) got)
| inj_guestRead u rest got reg :
    injectStep (mkInjection u rest got)
      (mkInjection (readRegister u reg).2 rest (got ++ taken u reg))
| inj_guestWrite u rest got reg v :
    (reg = 2 -> hasbits v 0x02 = false) ->
    (reg = 4 -> hasbits v uartMCRLoop = false) ->
    injectStep (mkInjection u rest got) (mkInjection (writeRegister u reg v) rest got).

Definition injectInv (data : bytes) (s : injection) : Prop :=
  received s ++ waiting (port s) ++ todo s = data /\
  hasbits (mcr (port s)) uartMCRLoop = false.

Lemma clearRX_waiting u : waiting (clearRX u) = [].
Proof.
  unfold waiting, clearRX. autorewrite with uart. cbn.
  unfold uartLSRDataReady. autorewrite with bits. cbn. by rewrite andb_false_r.
Qed.

Lemma receive_waiting u v :
  waiting (updateInterrupts (u <| rbr := v |> <| lsr := Z.lor (lsr u) uartLSRDataReady |>)) = [v].
Proof.
  unfold waiting. autorewrite with uart. cbn.
  unfold uartLSRDataReady. autorewrite with bits. cbn. by rewrite orb_true_r.
Qed.

(** Outside loopback, transmitting does not disturb the receiver. *)
Lemma transmit_waiting u v :
  hasbits (mcr u) uartMCRLoop = false ->
  waiting (transmit u v) = waiting u /\ mcr (transmit u v) = mcr u.
Proof.
  intros Hm. unfold transmit. rewrite Hm. unfold waiting, writeOut, uartLSRDataReady,
    uartLSRTHRE, uartLSRTEMT.
  split; [autorewrite with uart; cbn; autorewrite with bits; cbn|];
    repeat case_match; autorewrite with uart in *; cbn in *; autorewrite with bits in *;
    cbn in *; rewrite ?orb_false_r in *; congruence.
Qed.

Lemma guestRead_inv u reg :
  taken u reg ++ waiting (readRegister u reg).2 = waiting u /\
  mcr (readRegister u reg).2 = mcr u.
Proof.
  unfold taken, readRegister, modemStatus.
  destruct (Z.eqb_spec reg 0) as [->|Hr]; cbn [andb].
  - destruct (hasbits (lcr u) uartLCRDLAB); cbn [negb snd]; [done|].
    rewrite clearRX_waiting, app_nil_r. split; [done|]. unfold clearRX.
    by autorewrite with uart.
  - repeat case_match; cbn; done.
Qed.

Lemma guestWrite_inv u reg v :
  hasbits (mcr u) uartMCRLoop = false ->
  (reg = 2 -> hasbits v 0x02 = false) ->
  (reg = 4 -> hasbits v uartMCRLoop = false) ->
  waiting (writeRegister u reg v) = waiting u /\
  hasbits (mcr (writeRegister u reg v)) uartMCRLoop = false.
Proof.
  intros Hm H2 H4. unfold writeRegister.
  assert (Hthr : waiting (updateInterrupts (u <| lsr := Z.ldiff (lsr u) uartLSRTHRE |>)) = waiting u).
  { unfold waiting, uartLSRDataReady, uartLSRTHRE. autorewrite with uart. cbn.
    autorewrite with bits. cbn. by rewrite andb_true_r. }
  destruct reg as [|reg|reg]; [|do 3 (try destruct reg as [reg|reg|])|]; try done;
    try (destruct (hasbits (lcr u) uartLCRDLAB); [done|]).
  - destruct (transmit_waiting (updateInterrupts (u <| lsr := Z.ldiff (lsr u) uartLSRTHRE |>)) v)
      as [-> ->]; autorewrite with uart; done.
  - unfold setMCR. rewrite Hm. cbn. unfold waiting. autorewrite with uart. cbn.
    split; [done|]. specialize (H4 eq_refl). unfold uartMCRLoop in *.
    autorewrite with bits in *. by rewrite H4.
  - unfold setFCR. by rewrite (H2 eq_refl).
  - unfold setIER, waiting. by autorewrite with uart.
Qed.

Lemma injectStep_inv data s s' : injectStep s s' -> injectInv data s -> injectInv data s'.
Proof.
  intros Hstep. destruct Hstep as [u v rest got u' Hp|u v rest got Hp|u rest got reg|u rest got reg v H2 H4];
    unfold injectInv; cbn; intros [Hd Hm]; [|done|..].
  - unfold injectPoll in Hp. destruct (hasbits (lsr u) uartLSRDataReady) eqn:Hdr; [done|].
    injection Hp as <-. rewrite receive_waiting. autorewrite with uart. split; [|done].
    rewrite <- Hd. unfold waiting. by rewrite Hdr.
  - destruct (guestRead_inv u reg) as [Hw ->]. split; [|done].
    by rewrite <- Hd, <- Hw, <- !app_assoc.
  - destruct (guestWrite_inv u reg v Hm H2 H4) as [-> ?]. done.
Qed.

(** From any state the guest can drain the receiver: clear DLAB, read RBR. *)
Lemma guestDrain s data :
  injectInv data s ->
  exists u, rtc injectStep s (mkInjection u (todo s) (received s ++ waiting (port s))) /\
    waiting u = [] /\ hasbits (mcr u) uartMCRLoop = false.
Proof.
  intros [_ Hm]. destruct s as [u rest got]; cbn in *.
  set (u1 := writeRegister u 3 0).
  assert (Ht : taken u1 0 = waiting u) by reflexivity.
  exists (readRegister u1 0).2. split_and!.
  - eapply rtc_l; [apply (inj_guestWrite _ _ _ 3 0); lia|].
    eapply rtc_l; [apply (inj_guestRead _ _ _ 0)|]. fold u1. rewrite Ht. reflexivity.
  - apply clearRX_waiting.
  - destruct (guestRead_inv u1 0) as [_ ->]. done.
Qed.

Lemma inject_completes data s :
  injectInv data s -> exists u, rtc injectStep s (mkInjection u [] data).
Proof.
  remember (todo s) as rest eqn:Hrest. revert s Hrest.
  induction rest as [|v rest IH]; intros s Hrest Hinv;
    destruct (guestDrain s data Hinv) as (u & Hrun & Hw & Hm); rewrite <- Hrest in Hrun;
    destruct Hinv as [Hd _]; rewrite <- Hrest in Hd.
  - exists u. by rewrite <- Hd, app_nil_r.
  - destruct (injectPoll u v) as [u'|] eqn:Hp; unfold injectPoll in Hp;
      destruct (hasbits (lsr u) uartLSRDataReady) eqn:Hdr; try done;
      [|by unfold waiting in Hw; rewrite Hdr in Hw].
    assert (Hstep : injectStep (mkInjection u (v :: rest) (received s ++ waiting (port s)))
                      (mkInjection u' rest (received s ++ waiting (port s)))).
    { apply inj_store. unfold injectPoll. by rewrite Hdr. }
    destruct (IH (mkInjection u' rest (received s ++ waiting (port s))) eq_refl) as [uf Huf].
    + eapply injectStep_inv; [exact Hstep|]. split; [|done]. cbn.
      by rewrite Hw, <- Hd, <- app_assoc.
    + exists uf. etrans; [exact Hrun|]. by eapply rtc_l.
Qed.

(** * Loopback *)

Inductive access := Rd (reg : Z) | Wr (reg v : Z).

Definition runAccess (u : UART8250) (a : access) : UART8250 :=
  match a with
  | Rd reg => (readRegister u reg).2
  | Wr reg v => writeRegister u reg v
  end.

Definition thre (u : UART8250) : bool := hasbits (lsr u) uartLSRTHRE.

Lemma runAccess_thre u a :
  (forall v, a <> Wr 0 v) -> thre u = false -> thre (runAccess u a) = false.
Proof.
  intros Ha Ht.
  assert (Hclear : thre (clearRX u) = false).
  { unfold clearRX, thre, uartLSRTHRE, uartLSRDataReady in *. autorewrite with uart. cbn.
    autorewrite with bits in *. by rewrite Ht. }
  destruct a as [reg|reg v]; cbn [runAccess].
  - unfold readRegister, modemStatus. repeat case_match; done.
  - unfold writeRegister, setIER, setFCR, setMCR, thre in *.
    destruct (Z.eqb_spec reg 0) as [->|Hr]; [by specialize (Ha v)|].
    repeat case_match; autorewrite with uart; try done; try (cbn; rewrite ?Hclear; done).
    unfold clearRX, updateModemStatus, uartLSRTHRE, uartLSRDataReady in *.
    cbn. autorewrite with uart in *. cbn in *. autorewrite with bits in *. by rewrite Ht.
Qed.

Lemma loopback_thre u v :
  hasbits (lcr u) uartLCRDLAB = false -> hasbits (mcr u) uartMCRLoop = true ->
  thre (writeRegister u 0 v) = false.
Proof.
  intros Hl Hm. unfold writeRegister, transmit, thre. rewrite Hl. autorewrite with uart.
  change (mcr (u <| lsr := _ |>)) with (mcr u). rewrite Hm. autorewrite with uart. cbn.
  autorewrite with uart. cbn. unfold uartLSRTHRE, uartLSRDataReady. autorewrite with bits. cbn.
  by rewrite andb_false_r.
Qed.

(** * Read-back of the registers *)

(** The value a register shows after [v] is stored in it, where it is readable. *)
Definition readback (u : UART8250) (reg v : Z) : option Z :=
  match reg with
  | 0 => if hasbits (lcr u) uartLCRDLAB then Some v else None
  | 1 => Some (if hasbits (lcr u) uartLCRDLAB then v else Z.land v 0x0f)
  | 3 | 7 => Some v
  | 4 => Some (Z.land v 0x1f)
  | _ => None
  end.

Lemma writeRegister_place u reg v :
  base (writeRegister u reg v) = base u /\ size (writeRegister u reg v) = size u /\
  stride (writeRegister u reg v) = stride u.
Proof.
  unfold writeRegister, setIER, setFCR, setMCR, transmit, writeOut, clearRX, updateModemStatus.
  repeat case_match; split_and!; repeat (autorewrite with uart; cbn); done.
Qed.

Lemma readback_register u reg v w :
  readback u reg v = Some w -> (readRegister (writeRegister u reg v) reg).1 = w.
Proof.
  unfold readback, writeRegister, readRegister.
  repeat case_match; intros Hw; simplify_eq; try done;
    unfold setIER, setMCR in *; autorewrite with uart in *; cbn in *; try congruence.
  repeat case_match; unfold clearRX, updateModemStatus in *;
    repeat (autorewrite with uart in *; cbn in *); congruence.
Qed.

(** * Properties *)

(** The interrupt sources of the 16550 data sheet: the bit of the enable register for each, when it is asserted, its priority (1 is the
    highest) and its identification. *)
Inductive source := LineStatus | ReceivedData | TransmitterEmpty | ModemStatus.

Definition enableBit (s : source) : Z :=
  match s with ReceivedData => 0 | TransmitterEmpty => 1 | LineStatus => 2 | ModemStatus => 3 end.

Definition asserted (u : UART8250) (s : source) : Prop :=
  match s with
  | LineStatus => exists i, 1 <= i <= 4 /\ Z.testbit (lsr u) i = true
  | ReceivedData => Z.testbit (lsr u) 0 = true
  | TransmitterEmpty => Z.testbit (lsr u) 5 = true
  | ModemStatus => msrDelta u <> 0
  end.

Definition priority (s : source) : Z :=
  match s with LineStatus => 1 | ReceivedData => 2 | TransmitterEmpty => 3 | ModemStatus => 4 end.

Definition identification (s : source) : Z :=
  match s with LineStatus => 6 | ReceivedData => 4 | TransmitterEmpty => 2 | ModemStatus => 0 end.

Definition pending (u : UART8250) (s : source) : Prop := Z.testbit (ier u) (enableBit s) = true /\ asserted u s.

(** The source whose identification the register shows, if it shows one. *)
Definition chosen (u : UART8250) (s : source) : Prop := pending u s /\ forall s', pending u s' -> priority s <= priority s'.

(** An error or break: one of four bits of the line status. *)
Lemma line_status_bits v : hasbits v 0x1e = true <-> exists i, 1 <= i <= 4 /\ Z.testbit v i = true.
Proof.
  unfold hasbits. rewrite negb_true_iff, Z.eqb_neq.
  assert (B : forall i, Z.testbit 0x1e i = true -> 1 <= i <= 4).
  { intros i Hi. assert (0 <= i) by (destruct (Z.neg_nonneg_cases i); [by rewrite Z.testbit_neg_r in Hi|done]).
    assert (i <= 4) by (destruct (Z.le_gt_cases i 4); [done|by rewrite Z.bits_above_log2 in Hi by (cbn; lia)]).
    destruct (Z.eq_dec i 0) as [->|]; [done|lia]. }
  split.
  - intros H. destruct (Z.testbit v 1) eqn:E1; [by exists 1|]. destruct (Z.testbit v 2) eqn:E2; [by exists 2|].
    destruct (Z.testbit v 3) eqn:E3; [by exists 3|]. destruct (Z.testbit v 4) eqn:E4; [by exists 4|].
    destruct H. apply Z.bits_inj'. intros i _. rewrite Z.land_spec, Z.bits_0. destruct (Z.testbit 0x1e i) eqn:E; [|apply andb_false_r].
    apply B in E. assert (i = 1 \/ i = 2 \/ i = 3 \/ i = 4) as [->|[->|[->| ->]]] by lia; by rewrite ?E1, ?E2, ?E3, ?E4.
  - intros (i & Hi & Hv) H. apply (f_equal (fun z => Z.testbit z i)) in H. rewrite Z.land_spec, Hv, Z.bits_0 in H.
    assert (i = 1 \/ i = 2 \/ i = 3 \/ i = 4) as [->|[->|[->| ->]]] by lia; discriminate H.
Qed.

(** The conditions of the cases of the switch. *)
Lemma pending_cases u s : pending u s <-> match s with
  | LineStatus => hasbits (ier u) 0x04 && hasbits (lsr u) 0x1e
  | ReceivedData => hasbits (ier u) 0x01 && hasbits (lsr u) uartLSRDataReady
  | TransmitterEmpty => hasbits (ier u) 0x02 && hasbits (lsr u) uartLSRTHRE
  | ModemStatus => hasbits (ier u) 0x08 && negb (msrDelta u =? 0)
  end = true.
Proof.
  unfold pending, uartLSRDataReady, uartLSRTHRE. destruct s; cbn [enableBit asserted]; rewrite andb_true_iff.
  - by rewrite hasbits_4, line_status_bits.
  - by rewrite !hasbits_1.
  - by rewrite hasbits_2, hasbits_32.
  - change 8 with (2 ^ 3). by rewrite (hasbits_pow2 (ier u) 3), negb_true_iff, Z.eqb_neq by lia.
Qed.

Lemma interruptID_spec u :
  (exists s, chosen u s /\ interruptID u = identification s) \/ (forall s, ~ pending u s) /\ interruptID u = 1.
Proof.
  pose proof (pending_cases u LineStatus) as F1. pose proof (pending_cases u ReceivedData) as F2.
  pose proof (pending_cases u TransmitterEmpty) as F3. pose proof (pending_cases u ModemStatus) as F4. cbn beta iota in *. unfold interruptID.
  destruct (hasbits (ier u) 4 && _) eqn:E1; [left; exists LineStatus|destruct (hasbits (ier u) 1 && _) eqn:E2; [left; exists ReceivedData|
    destruct (hasbits (ier u) 2 && _) eqn:E3; [left; exists TransmitterEmpty|destruct (hasbits (ier u) 8 && _) eqn:E4; [left; exists ModemStatus|right]]]].
  - split; [|reflexivity]. split; [by apply F1|]. intros [] _; cbn [priority]; lia.
  - split; [|reflexivity]. split; [by apply F2|]. intros [] H; cbn [priority]; try lia. apply F1 in H. congruence.
  - split; [|reflexivity]. split; [by apply F3|]. intros [] H; cbn [priority]; try lia; [apply F1 in H|apply F2 in H]; congruence.
  - split; [|reflexivity]. split; [by apply F4|]. intros [] H; cbn [priority]; try lia; [apply F1 in H|apply F2 in H|apply F3 in H]; congruence.
  - split; [|reflexivity]. intros [] H; [apply F1 in H|apply F2 in H|apply F3 in H|apply F4 in H]; congruence.
Qed.

(** C36: Whatever sequence of bus accesses, interrupt attachments and injections
    a port goes through, its identification register shows the interrupt source
    that is enabled, asserted and of highest priority among those, in the order of
    the data sheet (line status, received data, transmitter empty, modem status),
    or 1 when there is none; and the last level driven on the attached interrupt
    line is high exactly when some enabled source is asserted. *)
Theorem uart_interrupts_consistent b shift w u :
  rtc uartStep (NewUART8250 b shift w) u ->
  (forall s, pendingIIR u = identification s <-> chosen u s) /\ (pendingIIR u = 1 <-> forall s, ~ pending u s) /\
  forall calls, irq u = Some calls -> irqLine u <> 0 ->
    exists high, last calls = Some (irqLine u, high) /\ (high = true <-> exists s, pending u s).
Proof.
  intros Hrun.
  destruct (rtc_preserves _ uart_ok _ _ uartStep_ok Hrun (NewUART8250_ok b shift w)) as (-> & _ & _ & Hirq).
  assert (U : forall s s', chosen u s -> chosen u s' -> s = s').
  { intros s s' [H1 H2] [H1' H2']. specialize (H2 _ H1'). specialize (H2' _ H1). destruct s, s'; cbn [priority] in *; done || lia. }
  assert (L : forall calls, irq u = Some calls -> irqLine u <> 0 -> last calls = Some (irqLine u, negb (interruptID u =? 1))).
  { intros calls E Hl. unfold irqAgrees in Hirq. rewrite E in Hirq. by apply Hirq. }
  destruct (interruptID_spec u) as [(s & Hs & E)|[Hn E]]; rewrite E in *.
  - split; [|split].
    + intros s'. split; [intros Hi; replace s' with s by (by destruct s, s'); exact Hs|]. intros Hs'. by rewrite (U _ _ Hs Hs').
    + split; [by destruct s|]. intros H. by destruct (H s (proj1 Hs)).
    + intros calls Hc Hl. eexists. split; [by apply L|]. split; [intros _; exists s; apply Hs|]. by destruct s.
  - split; [|split].
    + intros s. split; [by destruct s|]. intros [Hs _]. by destruct (Hn s Hs).
    + done.
    + intros calls Hc Hl. eexists. split; [by apply L|]. split; [done|]. intros [s Hs]. by destruct (Hn s Hs).
Qed.

(** Received data and an empty transmitter, both enabled. *)
Definition sampleUART : UART8250 :=
  InjectRXByte (WriteValue (AttachIRQ (NewUART8250 0x1000 0 (Some [])) [] 4) 0x1001 1 0x03).1 65.

Lemma uart_interrupts_consistent_witness :
  pendingIIR sampleUART = 4 /\ pending sampleUART TransmitterEmpty /\
  (forall s, pendingIIR sampleUART = identification s <-> chosen sampleUART s) /\
  (pendingIIR sampleUART = 1 <-> forall s, ~ pending sampleUART s) /\
  forall calls, irq sampleUART = Some calls -> irqLine sampleUART <> 0 ->
    exists high, last calls = Some (irqLine sampleUART, high) /\ (high = true <-> exists s, pending sampleUART s).
Proof.
  split; [reflexivity|]. split; [split; reflexivity|].
  apply (uart_interrupts_consistent 0x1000 0 (Some [])).
  eapply rtc_l; [apply (step_attach _ [] 4)|].
  eapply rtc_l; [apply (step_writeValue _ 0x1001 1 0x03)|].
  eapply rtc_l; [apply (step_inject _ 65)|]. unfold sampleUART. apply rtc_refl.
Defined.

(** The bytes a guest stores in the transmit register of a port in normal
    operation reach the console in order, with CR LF and lone CR both shown as a
    single LF and every other byte unchanged. *)
Theorem console_output u written data :
  mappedAt u -> consoleMode u written -> skipLF u = false -> is_bytes data ->
  out (foldl storeTHR u data) = Some (written ++ normalise data).
Proof.
  intros Hm Hc Hs Hd. rewrite (storeAll_console data u written Hm Hc Hd), Hs.
  by destruct data.
Qed.

(** While the host injects a byte string and the guest accesses registers in
    any interleaving (without resetting the receiver or entering loopback), the
    bytes taken by the guest, the byte waiting in the receiver and the bytes
    still to be injected are always the injected string in order: none is lost,
    repeated or reordered; and the guest can always still receive all of it. *)
Theorem injection_in_order u data s :
  hasbits (lsr u) uartLSRDataReady = false -> hasbits (mcr u) uartMCRLoop = false ->
  rtc injectStep (mkInjection u data []) s ->
  received s ++ waiting (port s) ++ todo s = data /\
  exists u', rtc injectStep s (mkInjection u' [] data).
Proof.
  intros Hdr Hm Hrun.
  assert (Hinv : injectInv data s).
  { apply (rtc_preserves _ _ _ _ (injectStep_inv data) Hrun).
    split; [|done]. cbn. unfold waiting. by rewrite Hdr. }
  split; [apply Hinv|]. by apply inject_completes.
Qed.

Lemma injection_in_order_witness :
  let u0 := NewUART8250 0 0 None in
  let s := mkInjection (InjectRXByte u0 104) [105] [] in
  received s ++ waiting (port s) ++ todo s = [104; 105] /\
  exists u', rtc injectStep s (mkInjection u' [] [104; 105]).
Proof.
  apply (injection_in_order (NewUART8250 0 0 None) [104; 105]
           (mkInjection (InjectRXByte (NewUART8250 0 0 None) 104) [105] []));
    [vm_compute; reflexivity..|].
  eapply rtc_l; [apply inj_store; vm_compute; reflexivity|].
  apply rtc_refl.
Defined.

(** Storing a byte in a readable register through the bus and loading it
    back yields the byte with the bits the register does not implement cleared;
    the divisor latches and the interrupt enable register share addresses under
    DLAB. *)
Theorem register_readback u reg v w :
  mappedAt u -> 0 <= reg < 8 -> reg * stride u < UART8250Size -> is_u8 v ->
  readback u reg v = Some w ->
  (ReadValue (WriteValue u (base u + reg * stride u) 1 v).1 (base u + reg * stride u) 1).2 = Ok w.
Proof.
  intros Hm Hr Hfit Hv Hw. rewrite WriteValue_reg by done. cbn [fst].
  destruct (writeRegister_place u reg v) as (Hb & Hz & Hs).
  rewrite <- Hb, <- Hs at 1. rewrite ReadValue_reg; [|unfold mappedAt in *; by rewrite ?Hb, ?Hz, ?Hs..].
  cbn [snd]. f_equal. by apply readback_register.
Qed.

(** In loopback a store to the transmit register clears the transmitter
    empty bit of LSR, and no register access other than another store to the
    transmit register sets it again: a driver that polls the bit waits forever. *)
Theorem loopback_loses_thre u v accesses :
  hasbits (lcr u) uartLCRDLAB = false -> hasbits (mcr u) uartMCRLoop = true ->
  (forall a, a ∈ accesses -> forall w, a <> Wr 0 w) ->
  hasbits (readRegister (foldl runAccess (writeRegister u 0 v) accesses) 5).1 uartLSRTHRE = false.
Proof.
  intros Hl Hm Ha. change (thre (foldl runAccess (writeRegister u 0 v) accesses) = false).
  pose proof (loopback_thre u v Hl Hm) as Ht. generalize dependent (writeRegister u 0 v).
  induction accesses as [|a accesses IH]; intros u' Ht; cbn; [done|].
  apply IH; [set_solver|]. apply runAccess_thre; [apply Ha; set_solver|done].
Qed.
