(* ===== verification/Regions.v ===== *)
(** Memory regions: [src/internal/core/fsimage/vm/] [common.go], [raw.go],
    [offset.go], [padded.go], [truncated.go], [direct_slice.go], [file.go] and
    the byte access of [bitmap.go].

    The file-system images are assembled from regions that read and write bytes
    at offsets.  A region of this package is a tree whose leaves hold their
    bytes; a region type of another package is a [foreignRegion], a record of
    the interface's operations over a state [W] that this package does not own,
    and a file is an [io.ReaderAt] over the same state.  [ReadAt] takes the
    buffer [p] as it is before the call and returns it as it is afterwards,
    together with [n] and the error.  Offsets are exact integers: [boundsCheck]
    keeps every sum below the size of a region, which is an [int64]. *)

From S2P Require Import Prelude.

Inductive ioError := EOF | NegativeOffset | ReadOnly | OverRead | Failed.

#[export] Instance ioError_eq_dec : EqDecision ioError.
Proof. solve_decision. Defined.

(** The result of [ReadAt]: the buffer afterwards, [n], the error. *)
Abbreviation readResult := (bytes * Z * option ioError)%type.

Definition boundsCheck (size off : Z) : option ioError :=
  if off <? 0 then Some NegativeOffset
  else if size <=? off then Some EOF
  else None.

(** [RawRegion.ReadAt] and [BitmapRegion.ReadAt]. *)
Definition rawRead (t p : bytes) (off : Z) : readResult :=
  match boundsCheck (len t) off with
  | Some e => (p, 0, Some e)
  | None => (copy_into p (drop (Z.to_nat off) t), Z.min (len p) (len t - off), None)
  end.

(** [RawRegion.WriteAt] and [BitmapRegion.WriteAt]. *)
Definition rawWrite (t p : bytes) (off : Z) : bytes * Z * option ioError :=
  match boundsCheck (len t) off with
  | Some e => (t, 0, Some e)
  | None => (put t off p, Z.min (len p) (len t - off), None)
  end.

Section regions.

(** The state behind regions of other packages and files. *)
Context {W : Type}.

Record foreignRegion := mkForeign {
  fr_size : W -> Z;
  fr_read : W -> bytes -> Z -> readResult;
  fr_write : W -> bytes -> Z -> W * Z * option ioError;
}.

Definition readerAt : Type := W -> bytes -> Z -> readResult.

Inductive region :=
| RawRegion (t : bytes)
| BitmapRegion (t : bytes)
| OffsetRegion (base : region) (offset : Z)
| PaddedRegion (inner : region) (regionSize : Z)
| TruncatedRegion (inner : region) (maxSize : Z)
| directSliceRegion (base : region) (offset size : Z)
| FileRegion (f : readerAt) (totalSize : Z)
| ForeignRegion (f : foreignRegion).

Fixpoint size (w : W) (r : region) : Z :=
  match r with
  | RawRegion t | BitmapRegion t => len t
  | OffsetRegion base offset => size w base - offset
  | PaddedRegion _ regionSize => regionSize
  | TruncatedRegion _ maxSize => maxSize
  | directSliceRegion _ _ size => size
  | FileRegion _ totalSize => totalSize
  | ForeignRegion f => fr_size f w
  end.

(** A read into [p[:k]]; the rest of [p] is not touched. *)
Definition limited (k : Z) (p : bytes) (read : bytes -> readResult) : readResult :=
  if k <? len p then
    let '(p1, n, e) := read (take (Z.to_nat k) p) in (p1 ++ drop (Z.to_nat k) p, n, e)
  else read p.

(** The [boundsCheck] guard at the head of a [ReadAt]. *)
Definition guarded (n off : Z) (p : bytes) (read : readResult) : readResult :=
  match boundsCheck n off with
  | Some e => (p, 0, Some e)
  | None => read
  end.

(** [OffsetRegion.ReadAt], over the [ReadAt] of its base. *)
Definition offsetReadAt (n offset : Z) (base : bytes -> Z -> readResult) (p : bytes) (off : Z)
  : readResult :=
  guarded n off p (base p (off + offset)).

(** [PaddedRegion.ReadAt]; a failing inner read returns [-1]. *)
Definition paddedReadAt (regionSize innerSize : Z) (inner : bytes -> Z -> readResult)
    (p : bytes) (off : Z) : readResult :=
  guarded regionSize off p
    (let '(p1, n, e) := if off <? innerSize then inner p off else (p, 0, None) in
     match e with
     | Some e => (p1, -1, Some e)
     | None =>
         let padSize := Z.min (len p) (regionSize - off) in
         (if n <? padSize then put p1 n (zeros (padSize - n)) else p1, padSize, None)
     end).

Definition truncatedReadAt (maxSize : Z) (inner : bytes -> Z -> readResult) (p : bytes) (off : Z)
  : readResult :=
  guarded maxSize off p (limited (maxSize - off) p (fun p => inner p off)).

Definition sliceReadAt (offset n : Z) (base : bytes -> Z -> readResult) (p : bytes) (off : Z)
  : readResult :=
  guarded n off p (limited (n - off) p (fun p => base p (offset + off))).

(** [FileRegion.ReadAt]: [io.EOF] from the file is not an error. *)
Definition fileReadAt (totalSize : Z) (f : bytes -> Z -> readResult) (p : bytes) (off : Z)
  : readResult :=
  guarded totalSize off p
    (let '(p1, n, e) := f p off in (p1, n, if decide (e = Some EOF) then None else e)).

Fixpoint readAt (w : W) (r : region) (p : bytes) (off : Z) : readResult :=
  match r with
  | RawRegion t | BitmapRegion t => rawRead t p off
  | OffsetRegion base offset => offsetReadAt (size w r) offset (readAt w base) p off
  | PaddedRegion inner regionSize =>
      paddedReadAt regionSize (size w inner) (readAt w inner) p off
  | TruncatedRegion inner maxSize => truncatedReadAt maxSize (readAt w inner) p off
  | directSliceRegion base offset n => sliceReadAt offset n (readAt w base) p off
  | FileRegion f totalSize => fileReadAt totalSize (f w) p off
  | ForeignRegion f => fr_read f w p off
  end.

(** [WriteAt]: the region and the outside state afterwards, [n], the error. *)
Definition writeResult : Type := region * W * Z * option ioError.

Definition rewrap (f : region -> region) (x : writeResult) : writeResult :=
  let '(r, w, n, e) := x in (f r, w, n, e).

Definition guardedWrite (n off : Z) (r : region) (w : W) (write : writeResult) : writeResult :=
  match boundsCheck n off with
  | Some e => (r, w, 0, Some e)
  | None => write
  end.

(** [p[:k]] when [p] is longer than [k]. *)
Definition cut (k : Z) (p : bytes) : bytes := if k <? len p then take (Z.to_nat k) p else p.

Definition offsetWriteAt (w : W) (base : region) (n offset : Z)
    (write : bytes -> Z -> writeResult) (p : bytes) (off : Z) : writeResult :=
  guardedWrite n off (OffsetRegion base offset) w
    (rewrap (fun b => OffsetRegion b offset) (write p (off + offset))).

Definition paddedWriteAt (w : W) (inner : region) (regionSize : Z)
    (write : bytes -> Z -> writeResult) (p : bytes) (off : Z) : writeResult :=
  guardedWrite regionSize off (PaddedRegion inner regionSize) w
    (if size w inner <? off
     then (PaddedRegion inner regionSize, w, Z.min (regionSize - size w inner) (len p), None)
     else
       let '(inner, w, childN, e) := write p off in
       match e with
       | Some e => (PaddedRegion inner regionSize, w, childN, Some e)
       | None =>
           (PaddedRegion inner regionSize, w,
            childN + (Z.min (regionSize - size w inner) (len p) - childN), None)
       end).

Definition truncatedWriteAt (w : W) (inner : region) (maxSize : Z)
    (write : bytes -> Z -> writeResult) (p : bytes) (off : Z) : writeResult :=
  guardedWrite maxSize off (TruncatedRegion inner maxSize) w
    (rewrap (fun i => TruncatedRegion i maxSize) (write (cut (maxSize - off) p) off)).

Definition sliceWriteAt (w : W) (base : region) (offset n : Z)
    (write : bytes -> Z -> writeResult) (p : bytes) (off : Z) : writeResult :=
  guardedWrite n off (directSliceRegion base offset n) w
    (rewrap (fun b => directSliceRegion b offset n) (write (cut (n - off) p) (offset + off))).

Definition fileWriteAt (w : W) (f : readerAt) (totalSize off : Z) : writeResult :=
  guardedWrite totalSize off (FileRegion f totalSize) w
    (FileRegion f totalSize, w, 0, Some ReadOnly).

Fixpoint writeAt (w : W) (r : region) (p : bytes) (off : Z) : writeResult :=
  match r with
  | RawRegion t => let '(t', n, e) := rawWrite t p off in (RawRegion t', w, n, e)
  | BitmapRegion t => let '(t', n, e) := rawWrite t p off in (BitmapRegion t', w, n, e)
  | OffsetRegion base offset => offsetWriteAt w base (size w r) offset (writeAt w base) p off
  | PaddedRegion inner regionSize => paddedWriteAt w inner regionSize (writeAt w inner) p off
  | TruncatedRegion inner maxSize => truncatedWriteAt w inner maxSize (writeAt w inner) p off
  | directSliceRegion base offset n => sliceWriteAt w base offset n (writeAt w base) p off
  | FileRegion f totalSize => fileWriteAt w f totalSize off
  | ForeignRegion f => let '(w', n, e) := fr_write f w p off in (r, w', n, e)
  end.

Definition NewOffsetRegion (base : region) (offset : Z) : region :=
  if offset =? 0 then base
  else match base with
       | OffsetRegion base' offset' => OffsetRegion base' (offset' + offset)
       | _ => OffsetRegion base offset
       end.

Definition NewTruncatedRegion (w : W) (r : region) (n : Z) : region :=
  if size w r <? n then r else TruncatedRegion r n.

Definition NewPaddedRegion (r : region) (n : Z) : region := PaddedRegion r n.

(** * What a region contains *)

(** An [io.ReaderAt] over the bytes [c]: it fills the buffer from the offset as
    far as the bytes go, with [io.EOF] at the latest when they end. *)
Definition reader_holds (w : W) (f : readerAt) (c : bytes) : Prop :=
  forall p off, 0 <= off < len c ->
    exists e, f w p off = (copy_into p (drop (Z.to_nat off) c), Z.min (len p) (len c - off), e) /\
      (e = None \/ e = Some EOF).

(** The promise of the [MemoryRegion] interface for a region that reads as [c]. *)
Definition foreign_holds (w : W) (f : foreignRegion) (c : bytes) : Prop :=
  fr_size f w = len c /\ forall p off, fr_read f w p off = rawRead c p off.

Inductive region_is (w : W) : region -> bytes -> Prop :=
| is_raw t : region_is w (RawRegion t) t
| is_bitmap t : region_is w (BitmapRegion t) t
| is_offset base offset c :
    region_is w base c -> 0 <= offset <= len c ->
    region_is w (OffsetRegion base offset) (drop (Z.to_nat offset) c)
| is_padded inner n c :
    region_is w inner c -> len c <= n ->
    region_is w (PaddedRegion inner n) (c ++ zeros (n - len c))
| is_truncated inner n c :
    region_is w inner c -> 0 <= n <= len c ->
    region_is w (TruncatedRegion inner n) (take (Z.to_nat n) c)
| is_slice base offset n c :
    region_is w base c -> 0 <= offset -> 0 <= n -> offset + n <= len c ->
    region_is w (directSliceRegion base offset n) (slice c offset (offset + n))
| is_file f n c : len c = n -> reader_holds w f c -> region_is w (FileRegion f n) c
| is_foreign f c : foreign_holds w f c -> region_is w (ForeignRegion f) c.

Lemma region_size w r c : region_is w r c -> size w r = len c.
Proof.
  induction 1; cbn [size]; try done; try (list_len; lia).
  - destruct H as [-> _]. done.
Qed.

(** Reading within bounds. *)
Lemma rawRead_in c p off :
  0 <= off < len c ->
  rawRead c p off = (copy_into p (drop (Z.to_nat off) c), Z.min (len p) (len c - off), None).
Proof.
  intros. unfold rawRead, boundsCheck.
  destruct (Z.ltb_spec off 0), (Z.leb_spec (len c) off); try lia. done.
Qed.

Lemma guarded_read n c p off x :
  n = len c -> (0 <= off < len c -> x = rawRead c p off) ->
  guarded n off p x = rawRead c p off.
Proof.
  intros -> Hx. unfold guarded, rawRead, boundsCheck in *.
  destruct (Z.ltb_spec off 0); [done|].
  destruct (Z.leb_spec (len c) off); [done|]. apply Hx. lia.
Qed.

Lemma limited_read k c p off :
  0 <= k -> 0 <= off < len c -> off + k <= len c ->
  limited k p (fun p => rawRead c p off) =
    (copy_into p (take (Z.to_nat k) (drop (Z.to_nat off) c)), Z.min (len p) k, None).
Proof.
  intros. unfold limited. destruct (Z.ltb_spec k (len p)); rewrite rawRead_in by done.
  - rewrite copy_into_take. f_equal. f_equal. list_len. lia.
  - f_equal. f_equal; [list_ext|lia].
Qed.

Lemma limited_ext k p (f g : bytes -> readResult) :
  0 <= k -> (forall p, len p <= k -> f p = g p) -> limited k p f = limited k p g.
Proof.
  intros Hk Hfg. unfold limited. destruct (Z.ltb_spec k (len p)); rewrite Hfg; try done.
  list_len. lia.
Qed.

Lemma readAt_contents w r c :
  region_is w r c -> forall p off, readAt w r p off = rawRead c p off.
Proof.
  intros Hr. induction Hr as [t|t|base o c Hb IH Ho|inner n c Hi IH Hn|inner n c Hi IH Hn
    |base o n c Hb IH Ho Hn Hfit|f n c Hn Hf|f c Hf]; intros p off; cbn [readAt]; try done;
    unfold offsetReadAt, paddedReadAt, truncatedReadAt, sliceReadAt, fileReadAt.
  - apply guarded_read; [apply (region_size w (OffsetRegion base o)); by constructor|]. intros Hin.
    rewrite IH, !rawRead_in by (list_len; lia). rewrite drop_drop.
    f_equal. f_equal; [|list_len; lia]. do 2 f_equal. lia.
  - apply guarded_read; [apply (region_size w (PaddedRegion inner n)); by constructor|].
    intros Hin. rewrite (region_size w inner c Hi), (rawRead_in (c ++ _)) by done.
    destruct (Z.ltb_spec off (len c)).
    + rewrite IH, rawRead_in by lia.
      assert (Hpad : len (c ++ zeros (n - len c)) = n) by (list_len; lia).
      rewrite Hpad. f_equal. f_equal.
      destruct (Z.ltb_spec (Z.min (len p) (len c - off)) (Z.min (len p) (n - off))); list_ext.
    + assert (Hpad : len (c ++ zeros (n - len c)) = n) by (list_len; lia).
      rewrite Hpad in *. f_equal. f_equal.
      destruct (Z.ltb_spec 0 (Z.min (len p) (n - off))); list_ext.
  - apply guarded_read; [cbn [size]; list_len; lia|]. intros Hin.
    assert (Hl : len (take (Z.to_nat n) c) = n) by (list_len; lia). rewrite Hl in Hin.
    transitivity (limited (n - off) p (fun p => rawRead c p off)).
    { unfold limited. by rewrite !IH. }
    rewrite limited_read, rawRead_in, Hl by lia. f_equal. f_equal. list_ext.
  - apply guarded_read; [cbn [size]; list_len; lia|]. intros Hin.
    assert (Hl : len (slice c o (o + n)) = n) by (rewrite len_slice; lia). rewrite Hl in Hin.
    transitivity (limited (n - off) p (fun p => rawRead c p (o + off))).
    { unfold limited. by rewrite !IH. }
    rewrite limited_read, rawRead_in, Hl by lia. f_equal. f_equal. list_ext.
  - apply guarded_read; [done|]. intros Hin. rewrite rawRead_in by done.
    destruct (Hf p off Hin) as (e & -> & [-> | ->]); done.
  - apply Hf.
Qed.

(** * Writing *)

(** Regions whose bytes are all in this package's own buffers, unpadded. *)
Fixpoint buffered (r : region) : bool :=
  match r with
  | RawRegion _ | BitmapRegion _ => true
  | OffsetRegion base _ => buffered base
  | TruncatedRegion inner _ => buffered inner
  | directSliceRegion base _ _ => buffered base
  | _ => false
  end.

Lemma boundsCheck_in n off : 0 <= off < n -> boundsCheck n off = None.
Proof.
  intros. unfold boundsCheck. destruct (Z.ltb_spec off 0), (Z.leb_spec n off); try lia. done.
Qed.

Lemma cut_eq k p : 0 <= k -> cut k p = take (Z.to_nat k) p.
Proof.
  intros. unfold cut. destruct (Z.ltb_spec k (len p)); [done|]. rewrite take_ge; [done|].
  list_len. lia.
Qed.

Lemma writeAt_contents w r c :
  region_is w r c -> buffered r = true -> forall p off, 0 <= off < len c ->
  exists r', writeAt w r p off = (r', w, Z.min (len p) (len c - off), None) /\
    region_is w r' (put c off p) /\ buffered r' = true.
Proof.
  intros Hr. induction Hr as [t|t|base o c Hb IH Ho|inner n c Hi IH Hn|inner n c Hi IH Hn
    |base o n c Hb IH Ho Hn Hfit|f n c Hn Hf|f c Hf]; intros Hbuf p off Hin; cbn [writeAt];
    try done; unfold offsetWriteAt, truncatedWriteAt, sliceWriteAt, rawWrite, guardedWrite.
  - rewrite boundsCheck_in by done. eexists. split_and!; [done|constructor|done].
  - rewrite boundsCheck_in by done. eexists. split_and!; [done|constructor|done].
  - rewrite (region_size w (OffsetRegion base o) _ ltac:(by constructor)).
    rewrite boundsCheck_in by done.
    destruct (IH Hbuf p (off + o)) as (r' & -> & Hr' & Hb'); [list_len; lia|].
    exists (OffsetRegion r' o). split_and!; [|..|done].
    + cbn. do 2 f_equal. list_len. lia.
    + replace (put (drop (Z.to_nat o) c) off p) with (drop (Z.to_nat o) (put c (off + o) p))
        by list_ext.
      constructor; [done|]. rewrite len_put. lia.
  - assert (Hl : len (take (Z.to_nat n) c) = n) by (list_len; lia). rewrite Hl in *.
    cbn [size]. rewrite boundsCheck_in by done. rewrite cut_eq by lia.
    destruct (IH Hbuf (take (Z.to_nat (n - off)) p) off) as (r' & -> & Hr' & Hb'); [lia|].
    exists (TruncatedRegion r' n). split_and!; [|..|done].
    + cbn. do 2 f_equal. list_len. lia.
    + replace (put (take (Z.to_nat n) c) off p)
        with (take (Z.to_nat n) (put c off (take (Z.to_nat (n - off)) p))) by list_ext.
      constructor; [done|]. rewrite len_put. lia.
  - assert (Hl : len (slice c o (o + n)) = n) by (rewrite len_slice; lia). rewrite Hl in *.
    cbn [size]. rewrite boundsCheck_in by done. rewrite cut_eq by lia.
    destruct (IH Hbuf (take (Z.to_nat (n - off)) p) (o + off)) as (r' & -> & Hr' & Hb'); [lia|].
    exists (directSliceRegion r' o n). split_and!; [|..|done].
    + cbn. do 2 f_equal. list_len. lia.
    + replace (put (slice c o (o + n)) off p)
        with (slice (put c (o + off) (take (Z.to_nat (n - off)) p)) o (o + n)) by list_ext.
      constructor; [done|lia..|]. rewrite len_put. lia.
Qed.

(** The constructors keep their promise. *)
Lemma NewOffsetRegion_is w r c o :
  region_is w r c -> 0 <= o <= len c -> region_is w (NewOffsetRegion r o) (drop (Z.to_nat o) c).
Proof.
  intros Hr Ho. unfold NewOffsetRegion. destruct (Z.eqb_spec o 0) as [->|Hne]; [done|].
  destruct r; try by constructor.
  inversion Hr as [| |b o' c' Hb Ho' Heq1 Heq2| | | | |]; subst.
  rewrite drop_drop. replace (Z.to_nat offset + Z.to_nat o)%nat with (Z.to_nat (offset + o)) by lia.
  constructor; [done|]. list_len. lia.
Qed.

Lemma NewTruncatedRegion_is w r c n :
  region_is w r c -> 0 <= n <= len c ->
  region_is w (NewTruncatedRegion w r n) (take (Z.to_nat n) c).
Proof.
  intros Hr Hn. unfold NewTruncatedRegion. rewrite (region_size w r c Hr).
  destruct (Z.ltb_spec (len c) n); [lia|]. by constructor.
Qed.

End regions.

Arguments foreignRegion : clear implicits.
Arguments region : clear implicits.
Arguments readerAt : clear implicits.

Create HintDb regions.
#[export] Hint Constructors region_is : regions.
#[export] Hint Resolve NewOffsetRegion_is NewTruncatedRegion_is : regions.

(** * Properties *)

(** Reading any region of the package, however offsets, truncations, slices
    and paddings are nested over buffers, files and regions of other packages,
    is copying from one flat byte string: the bytes delivered, their number, the
    untouched rest of the buffer and the bounds errors all agree. *)
Theorem region_reads_flat {W} (w : W) (r : region W) c p off :
  region_is w r c ->
  size w r = len c /\ readAt w r p off = rawRead c p off.
Proof. intros Hr. split; [by apply region_size|by apply readAt_contents]. Qed.

(** Writing within a region over the package's own buffers, through any
    nesting of offsets, truncations and slices, changes its contents as writing
    the flat byte string does and reports the number of bytes that fit. *)
Theorem region_writes_flat {W} (w : W) (r : region W) c p off :
  region_is w r c -> buffered r = true -> 0 <= off < len c ->
  exists r', writeAt w r p off = (r', w, Z.min (len p) (len c - off), None) /\
    region_is w r' (put c off p).
Proof.
  intros Hr Hb Hoff. destruct (writeAt_contents w r c Hr Hb p off Hoff) as (r' & ? & ? & _).
  by exists r'.
Qed.

(** A write to a padded region that starts exactly where the inner region
    ends fails with io.EOF, although the offset is inside the padding and a
    write one byte further on succeeds. *)
Theorem padded_write_boundary {W} (w : W) (t : bytes) n p :
  0 <= len t -> len t + 1 < n ->
  writeAt w (PaddedRegion (RawRegion t) n) p (len t)
    = (PaddedRegion (RawRegion t) n, w, 0, Some EOF) /\
  (writeAt w (PaddedRegion (RawRegion t) n) p (len t + 1)).2 = None.
Proof.
  intros Ht Hn. cbn [writeAt]. unfold paddedWriteAt, guardedWrite. cbn [writeAt size].
  rewrite !boundsCheck_in, Z.ltb_irrefl by lia. split.
  - unfold rawWrite, boundsCheck.
    destruct (Z.ltb_spec (len t) 0), (Z.leb_spec (len t) (len t)); try lia. done.
  - destruct (Z.ltb_spec (len t) (len t + 1)); [done|lia].
Qed.
