(* ===== verification/Fragments.v ===== *)
(** Pages made of several regions: [src/internal/core/fsimage/vm/fragmented.go].

    A fragmented region is a list of extents sorted by offset.  It starts as one
    extent of zeros, so its extents always tile the page; [tiles] says so and
    gives the bytes the page reads as. *)

From S2P Require Import Prelude Regions.

Section fragments.
Context {W : Type}.

Record regionFragment := mkFragment {
  f_region : region W;
  f_offset : Z;
  f_size : Z;
}.

Definition start (f : regionFragment) : Z := f_offset f.
Definition end_ (f : regionFragment) : Z := f_offset f + f_size f.

Definition offsetAt (f : regionFragment) (off : Z) : option regionFragment :=
  if (off <? 0) || (f_size f <? off) then None
  else Some (mkFragment (NewOffsetRegion (f_region f) off) (f_offset f + off) (f_size f - off)).

Definition cutAt (f : regionFragment) (off : Z) : option regionFragment :=
  if (off <? 0) || (f_size f <? off) then None
  else Some (mkFragment (f_region f) (f_offset f) off).

Record fragmentedRegion := mkFragmented {
  fragments : list regionFragment;
  fragTotal : Z;
}.

(** The counting loop of [findFragmentsForRange]. *)
Fixpoint countBefore (rangeEnd : Z) (fs : list regionFragment) : nat :=
  match fs with
  | [] => 0
  | f :: fs => if rangeEnd <=? start f then 0 else S (countBefore rangeEnd fs)
  end.

Definition endsAfter (fs : list regionFragment) (off i : Z) : bool :=
  match fs !! Z.to_nat i with
  | Some f => off <? end_ f
  | None => false
  end.

Definition findFragmentsForRange (fs : list regionFragment) (off length : Z) : nat * nat :=
  if len fs =? 0 then (0, 0)%nat
  else
    let rangeEnd := off + length in
    let startIdx := sortSearch (len fs) (endsAfter fs off) in
    if len fs <=? startIdx then (Z.to_nat startIdx, 0%nat)
    else (Z.to_nat startIdx, countBefore rangeEnd (drop (Z.to_nat startIdx) fs)).

(** The loop of [ReadAt] over the overlapping extents. *)
Fixpoint readFragments (w : W) (p : bytes) (requestStart : Z) (fs : list regionFragment)
  : bytes * option ioError :=
  match fs with
  | [] => (p, None)
  | frag :: fs =>
      let readStart := if start frag <? requestStart then requestStart else start frag in
      let requestEnd := requestStart + len p in
      let readEnd := if requestEnd <? end_ frag then requestEnd else end_ frag in
      if readEnd <=? readStart then readFragments w p requestStart fs
      else
        let dstStart := readStart - requestStart in
        let fragOffset := readStart - start frag in
        let readSize := readEnd - readStart in
        let '(q, childN, childErr) :=
          readAt w (f_region frag) (slice p dstStart (dstStart + readSize)) fragOffset in
        let p := put p dstStart q in
        match childErr with
        | Some e => if decide (e = EOF) then readFragments w p requestStart fs else (p, Some e)
        | None => readFragments w p requestStart fs
        end
  end.

Definition fragReadAt (w : W) (f : fragmentedRegion) (p : bytes) (off : Z) : readResult :=
  guarded (fragTotal f) off p
    (limited (fragTotal f - off) p (fun p =>
       if len p =? 0 then (p, 0, None)
       else
         let p := zeros (len p) in
         let '(startIdx, count) := findFragmentsForRange (fragments f) off (len p) in
         let '(p, e) := readFragments w p off (take count (drop startIdx (fragments f))) in
         match e with
         | Some e => (p, 0, Some e)
         | None => (p, len p, None)
         end)).

(** The loop of [WriteAt] over the overlapping extents: the extents and the
    outside state afterwards, the count and the error. *)
Fixpoint writeFragments (w : W) (p : bytes) (off n : Z) (fs : list regionFragment)
  : list regionFragment * W * Z * option ioError :=
  match fs with
  | [] => ([], w, n, None)
  | frag :: fs =>
      if f_offset frag + f_size frag <=? off then
        let '(fs', w, n, e) := writeFragments w p off n fs in (frag :: fs', w, n, e)
      else
        let fragOffset := off - f_offset frag in
        let q := if f_size frag <? len p then take (Z.to_nat (f_size frag)) p else p in
        let '(r, w, childN, e) := writeAt w (f_region frag) q fragOffset in
        let frag := mkFragment r (f_offset frag) (f_size frag) in
        let n := n + childN in
        match e with
        | Some e => (frag :: fs, w, n, Some e)
        | None =>
            let p := drop (Z.to_nat childN) p in
            if len p =? 0 then (frag :: fs, w, n, None)
            else
              let '(fs', w, n, e) :=
                writeFragments w p (f_offset frag + f_size frag) n fs in
              (frag :: fs', w, n, e)
        end
  end.

Definition fragWriteAt (w : W) (f : fragmentedRegion) (p : bytes) (off : Z)
  : fragmentedRegion * W * Z * option ioError :=
  match boundsCheck (fragTotal f) off with
  | Some e => (f, w, 0, Some e)
  | None =>
      let '(startIdx, count) := findFragmentsForRange (fragments f) off (len p) in
      let '(fs, w, n, e) :=
        writeFragments w p off 0 (take count (drop startIdx (fragments f))) in
      (mkFragmented (take startIdx (fragments f) ++ fs ++
                       drop count (drop startIdx (fragments f))) (fragTotal f), w, n, e)
  end.

Inductive mapError := BadOffset | BadSize | BadSplit.

(** The loop of [mapFragment] over the old extents. *)
Fixpoint mapLoop (new : regionFragment) (inserted : bool) (olds : list regionFragment)
  : result mapError (list regionFragment) :=
  match olds with
  | [] => Ok (if inserted then [] else [new])
  | old :: olds =>
      if (end_ old <=? start new) || (end_ new <=? start old) then
        let here := negb inserted && (end_ new <=? start old) in
        rest ← mapLoop new (inserted || here) olds;
        Ok ((if here then [new] else []) ++ old :: rest)
      else
        left ← (if start old <? start new then
                  match cutAt old (start new - start old) with
                  | Some f => Ok [f]
                  | None => Err BadSplit
                  end
                else Ok []);
        right ← (if end_ new <? end_ old then
                   match offsetAt old (end_ new - start old) with
                   | Some f => Ok [f]
                   | None => Err BadSplit
                   end
                 else Ok []);
        rest ← mapLoop new true olds;
        Ok (left ++ (if inserted then [] else [new]) ++ right ++ rest)
  end.

Definition mapFragment (w : W) (f : fragmentedRegion) (frag : region W) (off : Z)
  : result mapError fragmentedRegion :=
  let limit := fragTotal f in
  if (off <? 0) || (limit <? off) then Err BadOffset
  else
    let n := size w frag in
    if (n <? 0) || (limit - off <? n) then Err BadSize
    else if n =? 0 then Ok f
    else
      fs ← mapLoop (mkFragment frag off n) false (fragments f);
      Ok (mkFragmented fs limit).

Definition newFragmentRegion (pageSize : Z) : fragmentedRegion :=
  mkFragmented [mkFragment (RawRegion (zeros pageSize)) 0 pageSize] pageSize.

(** * The extents tile the page *)

(** [tiles w a fs b c]: the extents [fs] cover [[a, b)] without gap or overlap
    and read as [c]. *)
Inductive tiles (w : W) : Z -> list regionFragment -> Z -> bytes -> Prop :=
| tiles_nil a : tiles w a [] a []
| tiles_cons a r n c fs b cs :
    0 < n <= len c -> region_is w r c -> tiles w (a + n) fs b cs ->
    tiles w a (mkFragment r a n :: fs) b (take (Z.to_nat n) c ++ cs).

Definition fragmented_is (w : W) (f : fragmentedRegion) (c : bytes) : Prop :=
  0 < fragTotal f /\ tiles w 0 (fragments f) (fragTotal f) c.

Lemma tiles_len w a fs b c : tiles w a fs b c -> len c = b - a.
Proof. induction 1; list_len; lia. Qed.

Lemma newFragmentRegion_is w pageSize :
  0 < pageSize -> fragmented_is w (newFragmentRegion pageSize) (zeros pageSize).
Proof.
  intros Hp. split; [done|]. cbn.
  replace (zeros pageSize) with (take (Z.to_nat pageSize) (zeros pageSize) ++ []) at 2
    by (rewrite app_nil_r; apply take_ge; list_len; lia).
  constructor; [list_len; lia|constructor|]. rewrite Z.add_0_l. constructor.
Qed.

(** * Mapping a fragment *)

Lemma tiles_le w a fs b c : tiles w a fs b c -> a <= b.
Proof. induction 1; lia. Qed.

(** The part of an extent that starts [k] bytes in. *)
Lemma tiles_offset w a b r n c fs cs k :
  0 <= k < n -> n <= len c -> region_is w r c -> tiles w (a + n) fs b cs ->
  tiles w (a + k) (mkFragment (NewOffsetRegion r k) (a + k) (n - k) :: fs) b
    (drop (Z.to_nat k) (take (Z.to_nat n) c) ++ cs).
Proof.
  intros Hk Hn Hr Ht.
  replace (drop (Z.to_nat k) (take (Z.to_nat n) c))
    with (take (Z.to_nat (n - k)) (drop (Z.to_nat k) c)) by list_ext.
  constructor; [list_len; lia|apply NewOffsetRegion_is; [done|lia]|].
  by replace (a + k + (n - k)) with (a + n) by lia.
Qed.

(** Once the new extent is in place, what it covers of the old ones is dropped. *)
Lemma mapLoop_after w new a fs b cs :
  tiles w a fs b cs -> start new <= a -> start new < end_ new -> end_ new <= b ->
  exists fs', mapLoop new true fs = Ok fs' /\
    tiles w (Z.max a (end_ new)) fs' b (drop (Z.to_nat (end_ new - a)) cs).
Proof.
  induction 1 as [a|a r n c fs b cs Hn Hr Ht IH]; intros Hs Hlt Hb; cbn [mapLoop].
  { exists []. rewrite drop_nil. replace (Z.max a (end_ new)) with a by lia.
    split; [done|constructor]. }
  pose proof (tiles_le _ _ _ _ _ Ht) as Hab. change (start (mkFragment r a n)) with a.
  change (end_ (mkFragment r a n)) with (a + n).
  destruct IH as (fs' & Hmap & Ht'); [lia..|].
  destruct (Z.leb_spec (a + n) (start new)); [lia|]. cbn [orb negb andb].
  destruct (Z.leb_spec (end_ new) a) as [Hge|Hov].
  - rewrite Hmap. eexists. split; [reflexivity|]. cbn [app].
    replace (Z.to_nat (end_ new - a)) with 0%nat by lia. rewrite drop_0.
    replace (Z.max a (end_ new)) with a by lia.
    apply tiles_cons; [done..|]. replace (Z.to_nat (end_ new - (a + n))) with 0%nat in Ht' by lia.
    by replace (Z.max (a + n) (end_ new)) with (a + n) in Ht' by lia.
  - destruct (Z.ltb_spec a (start new)); [lia|]. cbn [mbind result_bind].
    destruct (Z.ltb_spec (end_ new) (a + n)) as [Hin|Hout].
    + unfold offsetAt. cbn [f_size f_offset f_region].
      destruct (Z.ltb_spec (end_ new - a) 0), (Z.ltb_spec n (end_ new - a)); try lia.
      cbn [orb mbind result_bind]. rewrite Hmap. eexists. split; [reflexivity|]. cbn [app].
      replace (Z.to_nat (end_ new - (a + n))) with 0%nat in Ht' by lia. rewrite drop_0 in Ht'.
      replace (Z.max (a + n) (end_ new)) with (a + n) in Ht' by lia.
      replace (Z.max a (end_ new)) with (a + (end_ new - a)) by lia.
      rewrite drop_app_le by (list_len; lia). apply tiles_offset; [lia..|done|done].
    + cbn [mbind result_bind]. rewrite Hmap. eexists. split; [reflexivity|]. cbn [app].
      rewrite drop_app_ge by (list_len; lia).
      replace (Z.max a (end_ new)) with (Z.max (a + n) (end_ new)) by lia.
      replace (Z.to_nat (end_ new - a) - length (take (Z.to_nat n) c))%nat
        with (Z.to_nat (end_ new - (a + n))) by (list_len; lia). done.
Qed.

(** What is left of an overlapped extent and its successors behind [e]. *)
Definition rightPart (r : region W) (a n e : Z) : list regionFragment :=
  if e <? a + n then [mkFragment (NewOffsetRegion r (e - a)) e (n - (e - a))] else [].

Lemma rightPart_tiles w r a n e c fs b cs :
  a <= e -> 0 < n <= len c -> region_is w r c ->
  tiles w (Z.max (a + n) e) fs b (drop (Z.to_nat (e - (a + n))) cs) ->
  tiles w e (rightPart r a n e ++ fs) b (drop (Z.to_nat (e - a)) (take (Z.to_nat n) c ++ cs)).
Proof.
  intros He Hn Hr Ht. unfold rightPart. destruct (Z.ltb_spec e (a + n)).
  - rewrite drop_app_le by (list_len; lia).
    replace (Z.to_nat (e - (a + n))) with 0%nat in Ht by lia. rewrite drop_0 in Ht.
    replace (Z.max (a + n) e) with (a + n) in Ht by lia.
    replace e with (a + (e - a)) at 1 3 by lia.
    apply tiles_offset; [lia..|done|done].
  - rewrite drop_app_ge by (list_len; lia).
    replace (Z.to_nat (e - a) - length (take (Z.to_nat n) c))%nat
      with (Z.to_nat (e - (a + n))) by (list_len; lia).
    by replace (Z.max (a + n) e) with e in Ht by lia.
Qed.

Lemma mapLoop_tiles w r off c a fs b cs :
  tiles w a fs b cs -> region_is w r c -> 0 < len c -> a <= off -> off + len c <= b ->
  exists fs', mapLoop (mkFragment r off (len c)) false fs = Ok fs' /\
    tiles w a fs' b (put cs (off - a) c).
Proof.
  intros Ht Hr Hc. induction Ht as [a|a r' n c' fs b cs Hn Hr' Ht IH]; intros Ha Hb; [lia|].
  cbn [mapLoop]. pose proof (tiles_le _ _ _ _ _ Ht) as Hab.
  pose proof (tiles_len _ _ _ _ _ Ht) as Hl.
  change (start (mkFragment r' a n)) with a. change (end_ (mkFragment r' a n)) with (a + n).
  change (start (mkFragment r off (len c))) with off.
  change (end_ (mkFragment r off (len c))) with (off + len c).
  destruct (Z.leb_spec (off + len c) a); [lia|].
  destruct (Z.leb_spec (a + n) off) as [Hbefore|Hov]; cbn [orb negb andb].
  - destruct IH as (fs' & -> & Ht'); [lia..|]. eexists. split; [reflexivity|]. cbn [app].
    replace (put (take (Z.to_nat n) c' ++ cs) (off - a) c)
      with (take (Z.to_nat n) c' ++ put cs (off - (a + n)) c) by list_ext.
    by apply tiles_cons.
  - destruct (mapLoop_after w (mkFragment r off (len c)) (a + n) fs b cs Ht) as (fs' & Hmap & Ht');
      try (change (end_ (mkFragment r off (len c))) with (off + len c) ||
           change (start (mkFragment r off (len c))) with off); try (cbn; lia).
    change (end_ (mkFragment r off (len c))) with (off + len c) in Ht'.
    set (new := mkFragment r off (len c)) in *.
    set (right := rightPart r' a n (off + len c)).
    assert (Htail : tiles w (off + len c) (right ++ fs') b
                      (drop (Z.to_nat (off + len c - a)) (take (Z.to_nat n) c' ++ cs)))
      by (apply rightPart_tiles; [lia|done..]).
    assert (Hmid : tiles w off (new :: right ++ fs') b
       (c ++ drop (Z.to_nat (off + len c - a)) (take (Z.to_nat n) c' ++ cs))).
    { replace c with (take (Z.to_nat (len c)) c) at 1 by (apply take_ge; list_len; lia).
      apply tiles_cons; [lia|done|done]. }
    exists ((if a <? off then [mkFragment r' a (off - a)] else []) ++ new :: right ++ fs').
    split.
    + unfold cutAt, offsetAt. cbn [f_size f_offset f_region].
      subst right. unfold rightPart. rewrite Hmap.
      destruct (Z.ltb_spec (off - a) 0), (Z.ltb_spec n (off - a)),
        (Z.ltb_spec (off + len c - a) 0), (Z.ltb_spec n (off + len c - a)),
        (Z.ltb_spec a off), (Z.ltb_spec (off + len c) (a + n)); try lia; cbn;
        rewrite ?Zplus_minus; reflexivity.
    + destruct (Z.ltb_spec a off).
      * replace (put (take (Z.to_nat n) c' ++ cs) (off - a) c)
          with (take (Z.to_nat (off - a)) c' ++ c ++
                drop (Z.to_nat (off + len c - a)) (take (Z.to_nat n) c' ++ cs)) by list_ext.
        cbn [app]. apply tiles_cons; [lia|done|]. by rewrite Zplus_minus.
      * assert (off = a) as -> by lia. cbn [app].
        replace (put (take (Z.to_nat n) c' ++ cs) (a - a) c)
          with (c ++ drop (Z.to_nat (a + len c - a)) (take (Z.to_nat n) c' ++ cs)) by list_ext.
        done.
Qed.

(** Mapping a region into a page overwrites exactly the bytes it covers. *)
Lemma mapFragment_is w f cs r c off :
  fragmented_is w f cs -> region_is w r c -> 0 <= off -> off + len c <= fragTotal f ->
  exists f', mapFragment w f r off = Ok f' /\ fragTotal f' = fragTotal f /\
    fragmented_is w f' (put cs off c).
Proof.
  intros [Hpos Ht] Hr Ho Hfit. pose proof (len_nonneg c). unfold mapFragment.
  rewrite (region_size w r c Hr).
  destruct (Z.ltb_spec off 0), (Z.ltb_spec (fragTotal f) off), (Z.ltb_spec (len c) 0),
    (Z.ltb_spec (fragTotal f - off) (len c)); try lia. cbn [orb].
  destruct (Z.eqb_spec (len c) 0) as [Hz|Hz].
  - exists f. rewrite (len_0_nil c Hz), put_nil. done.
  - destruct (mapLoop_tiles w r off c 0 (fragments f) (fragTotal f) cs) as (fs' & -> & Ht');
      try done; try lia.
    eexists. split_and!; [reflexivity|done|]. split; [done|]. by rewrite Z.sub_0_r in Ht'.
Qed.

(** * Reading a page *)

(** The bytes [c] from position [a] on, laid over a buffer that starts at
    position [at0]. *)
Definition overlay (p : bytes) (at0 a : Z) (c : bytes) : bytes :=
  put p (a - at0) (drop (Z.to_nat (at0 - a)) c).

Lemma overlay_app p at0 a x y :
  overlay (overlay p at0 a x) at0 (a + len x) y = overlay p at0 a (x ++ y).
Proof. unfold overlay. list_ext. Qed.

Lemma len_overlay p at0 a c : len (overlay p at0 a c) = len p.
Proof. unfold overlay. by rewrite len_put. Qed.

(** An extent outside the request is skipped. *)
Lemma overlay_outside p at0 a c :
  a + len c <= at0 \/ at0 + len p <= a \/ len p = 0 -> overlay p at0 a c = p.
Proof. intros. unfold overlay. list_ext. Qed.

Lemma overlay_inside p at0 a n c :
  0 < n <= len c ->
  let readStart := if a <? at0 then at0 else a in
  let readEnd := if at0 + len p <? a + n then at0 + len p else a + n in
  readStart < readEnd ->
  put p (readStart - at0)
    (copy_into (slice p (readStart - at0) (readStart - at0 + (readEnd - readStart)))
       (drop (Z.to_nat (readStart - a)) c)) = overlay p at0 a (take (Z.to_nat n) c).
Proof.
  intros Hn. cbn. unfold overlay.
  destruct (Z.ltb_spec a at0), (Z.ltb_spec (at0 + len p) (a + n)); intros; list_ext.
Qed.

Lemma readFragments_tiles w fs : forall p at0 a b c,
  tiles w a fs b c -> readFragments w p at0 fs = (overlay p at0 a c, None).
Proof.
  induction fs as [|f fs IH]; intros p at0 a b c Ht; inversion Ht as [|? r n c' ? ? cs Hn Hr Ht']; subst.
  { unfold overlay. cbn. rewrite drop_nil, put_nil. done. }
  cbn [readFragments]. change (start (mkFragment r a n)) with a.
  change (end_ (mkFragment r a n)) with (a + n). cbn [f_region].
  assert (Hl : len (take (Z.to_nat n) c') = n) by (list_len; lia).
  destruct (Z.leb_spec (if at0 + len p <? a + n then at0 + len p else a + n)
              (if a <? at0 then at0 else a)) as [Hout|Hin].
  - rewrite (IH p at0 (a + n) b cs Ht').
    rewrite <- overlay_app, Hl, (overlay_outside p at0 a); [done|]. pose proof (len_nonneg p).
    revert Hout; destruct (Z.ltb_spec a at0), (Z.ltb_spec (at0 + len p) (a + n)); lia.
  - rewrite (readAt_contents w r c' Hr), rawRead_in;
      [|revert Hin; destruct (Z.ltb_spec a at0), (Z.ltb_spec (at0 + len p) (a + n)); lia].
    rewrite overlay_inside, (IH _ at0 (a + n) b cs Ht') by done.
    by rewrite <- overlay_app, Hl.
Qed.

Lemma readFragments_skip w p at0 fs :
  Forall (fun f => end_ f <= at0 \/ at0 + len p <= start f) fs ->
  readFragments w p at0 fs = (p, None).
Proof.
  induction 1 as [|f fs Hf _ IH]; [done|]. cbn [readFragments].
  destruct (Z.leb_spec (if at0 + len p <? end_ f then at0 + len p else end_ f)
              (if start f <? at0 then at0 else start f)) as [Hout|Hin]; [done|].
  revert Hin; destruct (Z.ltb_spec (start f) at0), (Z.ltb_spec (at0 + len p) (end_ f)); lia.
Qed.

(** Searching for the overlapping extents loses none of them. *)
Lemma tiles_sorted w a fs b c :
  tiles w a fs b c -> forall i j f g, (i <= j)%nat -> fs !! i = Some f -> fs !! j = Some g ->
  a <= start f /\ start f < end_ f /\ end_ f <= end_ g /\ start f <= start g.
Proof.
  induction 1 as [|a r n c fs b cs Hn Hr Ht IH]; intros i j f g Hij Hf Hg; [done|].
  destruct i as [|i], j as [|j]; cbn in Hf, Hg; simplify_eq; try lia.
  - unfold start, end_; cbn. lia.
  - destruct (IH j j g g) as (? & ? & ? & ?); try done. unfold start, end_ in *; cbn in *. lia.
  - destruct (IH i j f g) as (? & ? & ? & ?); try done; lia.
Qed.

Lemma countBefore_split e fs :
  (forall i j f g, (i <= j)%nat -> fs !! i = Some f -> fs !! j = Some g -> start f <= start g) ->
  Forall (fun f => e <= start f) (drop (countBefore e fs) fs).
Proof.
  induction fs as [|f fs IH]; intros Hs; cbn; [constructor|].
  destruct (Z.leb_spec e (start f)); cbn [drop].
  - apply Forall_lookup. intros i g Hg. pose proof (Hs 0%nat i f g ltac:(lia) eq_refl Hg). lia.
  - apply IH. intros i j x y Hij Hx Hy. apply (Hs (S i) (S j)); [lia|done..].
Qed.

Lemma find_split w a fs b c off n :
  tiles w a fs b c ->
  let '(s, k) := findFragmentsForRange fs off n in
  Forall (fun f => end_ f <= off) (take s fs) /\
  Forall (fun f => off + n <= start f) (drop k (drop s fs)).
Proof.
  intros Ht. unfold findFragmentsForRange.
  destruct (Z.eqb_spec (len fs) 0) as [H0|H0].
  { rewrite (len_0_nil fs H0). split; constructor. }
  pose proof (tiles_sorted w a fs b c Ht) as Hsort.
  destruct (sortSearch_spec (len fs) (endsAfter fs off)) as (Hr & Hlo & _); [apply len_nonneg|..].
  { intros i j Hij Hj. unfold endsAfter.
    destruct (fs !! Z.to_nat i) as [f|] eqn:Hf; [|done].
    destruct (lookup_lt_is_Some_2 fs (Z.to_nat j)) as [g Hg]; [list_len; lia|].
    rewrite Hg.
    destruct (Hsort (Z.to_nat i) (Z.to_nat j) f g) as (_ & _ & ? & _); [lia|done..|lia]. }
  set (s := sortSearch (len fs) (endsAfter fs off)) in *.
  assert (Hpre : Forall (fun f => end_ f <= off) (take (Z.to_nat s) fs)).
  { apply Forall_lookup. intros i f Hf. apply lookup_take_Some in Hf as [Hf Hi].
    specialize (Hlo (Z.of_nat i) ltac:(lia)). unfold endsAfter in Hlo.
    rewrite Nat2Z.id, Hf in Hlo. lia. }
  destruct (Z.leb_spec (len fs) s).
  - split; [done|]. rewrite drop_ge; [constructor|]. list_len; lia.
  - split; [done|]. apply countBefore_split. intros i j f g Hij Hf Hg.
    rewrite lookup_drop in Hf, Hg.
    destruct (Hsort (Z.to_nat s + i)%nat (Z.to_nat s + j)%nat f g) as (_ & _ & _ & ?);
      [lia|done..].
Qed.

Lemma readFragments_app w p at0 fs gs :
  readFragments w p at0 (fs ++ gs) =
    let '(p1, e) := readFragments w p at0 fs in
    match e with
    | None => readFragments w p1 at0 gs
    | Some e => (p1, Some e)
    end.
Proof.
  revert p. induction fs as [|f fs IH]; intros p; [done|]. cbn [app readFragments].
  destruct (_ <=? _); [apply IH|].
  destruct (readAt w _ _ _) as [[q n] [e|]]; [|apply IH].
  destruct (decide (e = EOF)); [apply IH|done].
Qed.

Lemma readFragments_len w fs : forall p at0 p' e,
  readFragments w p at0 fs = (p', e) -> len p' = len p.
Proof.
  induction fs as [|f fs IH]; intros p at0 p' e; cbn [readFragments]; [by intros [= -> _]|].
  destruct (_ <=? _); [apply IH|].
  destruct (readAt w _ _ _) as [[q n] [e'|]]; [destruct (decide (e' = EOF))|];
    intros Hrun; try (apply IH in Hrun; rewrite Hrun; apply len_put).
  injection Hrun as <- _. apply len_put.
Qed.

(** The extents found for a request fill it with the bytes of the page. *)
Lemma readFound_contents w f c p off :
  fragmented_is w f c -> 0 <= off < fragTotal f -> 0 < len p <= fragTotal f - off ->
  let '(s, k) := findFragmentsForRange (fragments f) off (len p) in
  readFragments w (zeros (len p)) off (take k (drop s (fragments f))) =
    (copy_into p (drop (Z.to_nat off) c), None).
Proof.
  intros [Hpos Ht] Hin Hp. pose proof (tiles_len _ _ _ _ _ Ht) as Hl.
  pose proof (find_split w 0 (fragments f) (fragTotal f) c off (len p) Ht) as Hsplit.
  destruct (findFragmentsForRange _ _ _) as [s k]. destruct Hsplit as [Hpre Hsuf].
  pose proof (readFragments_tiles w (fragments f) (zeros (len p)) off 0 _ c Ht) as Hall.
  rewrite <- (take_drop s (fragments f)) in Hall at 1.
  rewrite <- (take_drop k (drop s (fragments f))) in Hall at 1.
  rewrite readFragments_app, readFragments_skip in Hall.
  2: { eapply Forall_impl; [exact Hpre|]. cbn. intros. lia. }
  cbv beta iota in Hall. rewrite readFragments_app in Hall.
  destruct (readFragments w (zeros (len p)) off (take k _)) as [q [e|]] eqn:Hq; [discriminate|].
  apply readFragments_len in Hq. rewrite len_zeros in Hq by lia.
  rewrite readFragments_skip in Hall.
  - injection Hall as ->. f_equal. unfold overlay. list_ext.
  - eapply Forall_impl; [exact Hsuf|]. cbn. intros. lia.
Qed.

(** A fragmented page reads as its tiles. *)
Lemma fragReadAt_contents w f c :
  fragmented_is w f c -> forall p off, fragReadAt w f p off = rawRead c p off.
Proof.
  intros Hf p off. pose proof Hf as [Hpos Ht].
  pose proof (tiles_len _ _ _ _ _ Ht) as Hl. rewrite Z.sub_0_r in Hl.
  unfold fragReadAt. apply guarded_read; [done|]. intros Hin.
  transitivity (limited (fragTotal f - off) p (fun p => rawRead c p off)).
  2: { rewrite limited_read, rawRead_in, Hl by lia. f_equal. f_equal. list_ext. }
  apply limited_ext; [lia|]. clear p. intros p Hp. rewrite rawRead_in by lia.
  pose proof (len_nonneg p). destruct (Z.eqb_spec (len p) 0) as [H0|H0].
  { rewrite (len_0_nil p H0). f_equal. f_equal; [list_ext|]. change (len (@nil Z)) with 0. lia. }
  rewrite len_zeros by lia. pose proof (readFound_contents w f c p off Hf ltac:(lia) ltac:(lia)).
  destruct (findFragmentsForRange _ _ _) as [s k]. rewrite H1, len_copy_into.
  do 2 f_equal. lia.
Qed.

End fragments.

Arguments regionFragment : clear implicits.
Arguments fragmentedRegion : clear implicits.
