(* ===== verification/PageTable.v ===== *)
(** Page tables: the interface [PageTable] of
    [src/internal/core/fsimage/vm/vm.go] and its two-level implementation
    [MultiLevelPageTable].

    [PageTable] has the interface's operations and [PageTableLaws] what the
    virtual memory relies on: a table is a finite map on the page numbers below
    its bound.  The instance at the end shows that the lazily allocated
    two-level table keeps that promise. *)

From S2P Require Import Prelude.

(** The interface; [pt_ForEach] is the sequence of entries the callback sees, and
    [pt_Unallocated] the check of [WriteSparseTo] for a table without lists. *)
Class PageTable (T V : Type) := {
  pt_Get : T -> Z -> option V;
  pt_Set : T -> Z -> option V -> T;
  pt_Clear : T -> T;
  pt_ForEach : T -> list (Z * V);
  pt_Unallocated : T -> bool;
}.

Class PageTableLaws (T V : Type) `{PageTable T V} := {
  pt_ok : T -> Z -> Prop;
  pt_set_ok t n i v : pt_ok t n -> 0 <= i -> pt_ok (pt_Set t i v) n;
  pt_clear_ok t n : pt_ok t n -> pt_ok (pt_Clear t) n;
  pt_get_set t n i j v :
    pt_ok t n -> 0 <= i < n -> 0 <= j ->
    pt_Get (pt_Set t i v) j = if decide (i = j) then v else pt_Get t j;
  pt_get_beyond t n i : pt_ok t n -> n <= i -> pt_Get t i = None;
  pt_set_beyond t n i v : pt_ok t n -> n <= i -> pt_Set t i v = t;
  pt_get_clear t i : pt_Get (pt_Clear t) i = None;
  pt_forEach_sorted t n : pt_ok t n -> StronglySorted Z.lt (pt_ForEach t).*1;
  pt_forEach_get t n i v :
    pt_ok t n -> (i, v) ∈ pt_ForEach t <-> 0 <= i < n /\ pt_Get t i = Some v;
  pt_unallocated t : pt_Unallocated t = true -> pt_ForEach t = [];
}.

(** * The two-level table *)

Section multilevel.
Context {V : Type}.

(** [PageList]: an array of 256 entries. *)
Abbreviation PageList := (list (option V)).
Definition emptyPageList : PageList := replicate 256 None.
#[local] Arguments emptyPageList : simpl never.

Record MultiLevelPageTable := mkPageTable {
  pageListCapacity : Z;
  totalPages : Z;
  topLevel : list (option PageList);
}.

Definition Get (pt : MultiLevelPageTable) (index : Z) : option V :=
  if totalPages pt <=? index then None
  else
    let topIndex := index / pageListCapacity pt in
    let pageIndex := index mod pageListCapacity pt in
    match topLevel pt !! Z.to_nat topIndex with
    | Some (Some pageList) => mjoin (pageList !! Z.to_nat pageIndex)
    | _ => None
    end.

(** The [append] loop: nil entries until [topIndex] is inside. *)
Definition grow (top : list (option PageList)) (topIndex : Z) : list (option PageList) :=
  top ++ replicate (Z.to_nat (topIndex + 1 - len top)) None.

Definition Set_ (pt : MultiLevelPageTable) (index : Z) (region : option V)
  : MultiLevelPageTable :=
  if totalPages pt <=? index then pt
  else
    let topIndex := index / pageListCapacity pt in
    let pageIndex := index mod pageListCapacity pt in
    let top := grow (topLevel pt) topIndex in
    let pageList := default emptyPageList (mjoin (top !! Z.to_nat topIndex)) in
    mkPageTable (pageListCapacity pt) (totalPages pt)
      (<[Z.to_nat topIndex := Some (<[Z.to_nat pageIndex := region]> pageList)]> top).

Definition Clear (pt : MultiLevelPageTable) : MultiLevelPageTable :=
  mkPageTable (pageListCapacity pt) (totalPages pt) [].

(** The entries of one [PageList] that starts at page number [first]. *)
Fixpoint listEntries (first : Z) (l : PageList) : list (Z * V) :=
  match l with
  | [] => []
  | None :: l => listEntries (first + 1) l
  | Some v :: l => (first, v) :: listEntries (first + 1) l
  end.

Fixpoint topEntries (capacity topIndex : Z) (top : list (option PageList)) : list (Z * V) :=
  match top with
  | [] => []
  | None :: top => topEntries capacity (topIndex + 1) top
  | Some l :: top =>
      listEntries (topIndex * capacity) l ++ topEntries capacity (topIndex + 1) top
  end.

Definition ForEach (pt : MultiLevelPageTable) : list (Z * V) :=
  topEntries (pageListCapacity pt) 0 (topLevel pt).

Definition NewMultiLevelPageTable (totalPages : Z) : MultiLevelPageTable :=
  mkPageTable 256 totalPages [].

(** Every allocated list has 256 entries, and none at or beyond the bound. *)
Definition table_ok (pt : MultiLevelPageTable) (n : Z) : Prop :=
  pageListCapacity pt = 256 /\ totalPages pt = n /\
  (forall t l, topLevel pt !! t = Some (Some l) -> length l = 256%nat /\
     forall k v, l !! k = Some (Some v) -> Z.of_nat t * 256 + Z.of_nat k < n).

Lemma NewMultiLevelPageTable_ok n : table_ok (NewMultiLevelPageTable n) n.
Proof. by split_and!. Qed.

Lemma index_split i : 0 <= i -> i = i / 256 * 256 + i mod 256 /\ 0 <= i mod 256 < 256 /\ 0 <= i / 256.
Proof. intros. dlia. Qed.

Lemma grow_lookup top t i :
  0 <= t -> mjoin (grow top t !! i) = mjoin (top !! i).
Proof.
  intros. unfold grow. rewrite lookup_app_if, lookup_replicate_if. repeat case_decide; try done.
  all: by rewrite (lookup_ge_None_2 top) by lia.
Qed.

Lemma grow_length top t : 0 <= t -> (Z.to_nat t < length (grow top t))%nat.
Proof. intros. unfold grow. list_len. lia. Qed.

Lemma emptyPageList_spec :
  length emptyPageList = 256%nat /\ forall k v, emptyPageList !! k <> Some (Some v).
Proof.
  unfold emptyPageList. split; [apply length_replicate|].
  intros k v. rewrite lookup_replicate_if. by case_decide.
Qed.

(** The list that [Set] updates: the existing one or an empty one. *)
Lemma default_list_ok pt n t :
  table_ok pt n ->
  let l := default emptyPageList (mjoin (topLevel pt !! t)) in
  length l = 256%nat /\
  (forall k v, l !! k = Some (Some v) -> Z.of_nat t * 256 + Z.of_nat k < n).
Proof.
  intros (_ & _ & Hl). destruct emptyPageList_spec as [He1 He2].
  destruct (topLevel pt !! t) as [[l|]|] eqn:Ht; cbn; [by apply Hl|..];
    (split; [done|]; intros k v Hk; by destruct (He2 k v)).
Qed.

Lemma Set_ok pt n i v : table_ok pt n -> 0 <= i -> table_ok (Set_ pt i v) n.
Proof.
  intros Hok Hi. pose proof Hok as (Hc & Ht & Hl). unfold Set_.
  destruct (Z.leb_spec (totalPages pt) i); [done|]. split_and!; [done..|]. cbn. rewrite Hc.
  destruct (index_split i Hi) as (Hsplit & Hm & Hq).
  intros t l Hlook. destruct (decide (t = Z.to_nat (i / 256))) as [->|Hne].
  - rewrite list_lookup_insert_eq in Hlook by (by apply grow_length). simplify_eq.
    rewrite grow_lookup by done.
    destruct (default_list_ok pt _ (Z.to_nat (i / 256)) Hok) as [Hlen Hb].
    rewrite length_insert. split; [done|]. intros k x Hk.
    destruct (decide (k = Z.to_nat (i mod 256))) as [->|Hk']; [lia|].
    rewrite list_lookup_insert_ne in Hk by done. eauto.
  - rewrite list_lookup_insert_ne in Hlook by done.
    apply (Hl t l). pose proof (grow_lookup (topLevel pt) (i / 256) t Hq) as Hg.
    rewrite Hlook in Hg. cbn in Hg. by destruct (topLevel pt !! t) as [[|]|]; cbn in Hg; simplify_eq.
Qed.

Lemma Get_Set pt n i j v :
  table_ok pt n -> 0 <= i < n -> 0 <= j ->
  Get (Set_ pt i v) j = if decide (i = j) then v else Get pt j.
Proof.
  intros Hok Hi Hj. pose proof Hok as (Hc & Ht & Hl). unfold Set_.
  destruct (Z.leb_spec (totalPages pt) i); [lia|]. unfold Get. cbn. rewrite Hc, Ht.
  destruct (index_split i) as (Hsi & Hmi & Hqi); [lia|].
  destruct (index_split j) as (Hsj & Hmj & Hqj); [lia|].
  destruct (default_list_ok pt _ (Z.to_nat (i / 256)) Hok) as [Hlen _].
  destruct (Z.leb_spec n j); [by rewrite decide_False by lia|].
  destruct (decide (Z.to_nat (j / 256) = Z.to_nat (i / 256))) as [Heq|Hne].
  - rewrite Heq, list_lookup_insert_eq by (by apply grow_length). rewrite grow_lookup by done.
    case_decide as Hij; subst.
    + rewrite list_lookup_insert_eq by lia. done.
    + rewrite list_lookup_insert_ne by lia.
      destruct emptyPageList_spec as [_ He].
      destruct (topLevel pt !! Z.to_nat (i / 256)) as [[l|]|]; cbn; try done;
        destruct (emptyPageList !! _) as [[v'|]|] eqn:Hv; try done; by destruct (He _ _ Hv).
  - rewrite decide_False by (intros ->; done). rewrite list_lookup_insert_ne by done.
    pose proof (grow_lookup (topLevel pt) (i / 256) (Z.to_nat (j / 256)) Hqi) as Hg.
    destruct (grow _ _ !! Z.to_nat (j / 256)) as [[l|]|], (topLevel pt !! Z.to_nat (j / 256)) as [[l'|]|];
      cbn in Hg; simplify_eq; done.
Qed.

Lemma Get_beyond pt n i : table_ok pt n -> n <= i -> Get pt i = None.
Proof. intros (_ & Ht & _) Hi. unfold Get. by rewrite (proj2 (Z.leb_le _ _)) by lia. Qed.

Lemma Set_beyond pt n i v : table_ok pt n -> n <= i -> Set_ pt i v = pt.
Proof. intros (_ & Ht & _) Hi. unfold Set_. by rewrite (proj2 (Z.leb_le _ _)) by lia. Qed.

(** * Enumeration *)

Lemma listEntries_elem l first i v :
  (i, v) ∈ listEntries first l <-> exists k, l !! k = Some (Some v) /\ i = first + Z.of_nat k.
Proof.
  revert first. induction l as [|[x|] l IH]; intros first; cbn [listEntries].
  - split; [intros []%not_elem_of_nil|intros (k & Hk & _); done].
  - rewrite elem_of_cons, IH. split.
    + intros [Heq|(k & Hk & ->)]; [simplify_eq; exists 0%nat; split; [done|lia]|].
      exists (S k). split; [done|lia].
    + intros ([|k] & Hk & ->); cbn in Hk; [left; simplify_eq; f_equal; lia|].
      right. exists k. split; [done|lia].
  - rewrite IH. split.
    + intros (k & Hk & ->). exists (S k). split; [done|lia].
    + intros ([|k] & Hk & ->); cbn in Hk; [done|]. exists k. split; [done|lia].
Qed.

Lemma topEntries_elem top t0 i v :
  (i, v) ∈ topEntries 256 t0 top <->
  exists t l k, top !! t = Some (Some l) /\ l !! k = Some (Some v) /\
    i = (t0 + Z.of_nat t) * 256 + Z.of_nat k.
Proof.
  revert t0. induction top as [|[l|] top IH]; intros t0; cbn [topEntries].
  - split; [intros []%not_elem_of_nil|intros (t & l & k & Ht & _); done].
  - rewrite elem_of_app, listEntries_elem, IH. split.
    + intros [(k & Hk & ->)|(t & l' & k & Ht & Hk & ->)];
        [exists 0%nat, l, k|exists (S t), l', k]; (split_and!; [done..|lia]).
    + intros ([|t] & l' & k & Ht & Hk & ->); cbn in Ht; simplify_eq; [left|right].
      * exists k. split; [done|lia].
      * exists t, l', k. split_and!; [done..|lia].
  - rewrite IH. split.
    + intros (t & l' & k & Ht & Hk & ->). exists (S t), l', k. split_and!; [done..|lia].
    + intros ([|t] & l' & k & Ht & Hk & ->); cbn in Ht; [done|].
      exists t, l', k. split_and!; [done..|lia].
Qed.

Lemma StronglySorted_app_lt (l k : list Z) :
  StronglySorted Z.lt l -> StronglySorted Z.lt k ->
  (forall x y, x ∈ l -> y ∈ k -> x < y) -> StronglySorted Z.lt (l ++ k).
Proof.
  induction 1 as [|x l Hl IH Hx]; intros Hk Hlt; cbn; [done|].
  constructor; [apply IH; set_solver|]. apply Forall_app. split; [done|].
  apply Forall_forall. set_solver.
Qed.

Lemma listEntries_sorted l first : StronglySorted Z.lt (listEntries first l).*1.
Proof.
  revert first. induction l as [|[x|] l IH]; intros first; cbn; [constructor| |apply IH].
  constructor; [apply IH|]. apply Forall_forall. intros j Hj.
  apply list_elem_of_fmap in Hj as ([j' v] & -> & Hj).
  apply listEntries_elem in Hj as (k & _ & ->). cbn. lia.
Qed.

Lemma topEntries_sorted top t0 :
  (forall t l, top !! t = Some (Some l) -> length l = 256%nat) ->
  StronglySorted Z.lt (topEntries 256 t0 top).*1.
Proof.
  revert t0. induction top as [|[l|] top IH]; intros t0 Hlen; cbn [topEntries].
  - constructor.
  - rewrite fmap_app. apply StronglySorted_app_lt.
    + apply listEntries_sorted.
    + apply IH. intros t l' Ht. apply (Hlen (S t) l' Ht).
    + intros x y Hx Hy. apply list_elem_of_fmap in Hx as ([? ?] & -> & Hx).
      apply list_elem_of_fmap in Hy as ([? ?] & -> & Hy).
      apply listEntries_elem in Hx as (k & Hk & ->).
      apply topEntries_elem in Hy as (t & l' & k' & _ & _ & ->). cbn.
      apply lookup_lt_Some in Hk. rewrite (Hlen 0%nat l eq_refl) in Hk. lia.
  - apply IH. intros t l' Ht. apply (Hlen (S t) l' Ht).
Qed.

Lemma ForEach_sorted pt n : table_ok pt n -> StronglySorted Z.lt (ForEach pt).*1.
Proof.
  intros (Hc & Ht & Hl). unfold ForEach. rewrite Hc.
  apply topEntries_sorted. intros k l Hk. by apply (Hl k l).
Qed.

Lemma ForEach_Get pt n i v :
  table_ok pt n -> (i, v) ∈ ForEach pt <-> 0 <= i < n /\ Get pt i = Some v.
Proof.
  intros (Hc & Ht & Hl). unfold ForEach, Get. rewrite Hc, Ht, topEntries_elem. split.
  - intros (t & l & k & Hlt & Hk & ->). destruct (Hl t l Hlt) as [Hlen Hb].
    specialize (Hb k v Hk). apply lookup_lt_Some in Hk as Hk'. rewrite Hlen in Hk'.
    destruct (Z.leb_spec n ((0 + Z.of_nat t) * 256 + Z.of_nat k)); [lia|].
    replace (Z.to_nat (((0 + Z.of_nat t) * 256 + Z.of_nat k) / 256)) with t by dlia.
    replace (Z.to_nat (((0 + Z.of_nat t) * 256 + Z.of_nat k) mod 256)) with k by dlia.
    rewrite Hlt, Hk. split; [lia|done].
  - intros [Hi Hg]. destruct (Z.leb_spec n i); [lia|].
    destruct (index_split i) as (Hs & Hm & Hq); [lia|].
    destruct (topLevel pt !! Z.to_nat (i / 256)) as [[l|]|] eqn:Hlt; try done.
    destruct (l !! Z.to_nat (i mod 256)) as [[x|]|] eqn:Hk; cbn in Hg; simplify_eq.
    exists (Z.to_nat (i / 256)), l, (Z.to_nat (i mod 256)). split_and!; [done..|lia].
Qed.

(** The two-level table is a page table. *)
#[export] Instance multiLevel_table : PageTable MultiLevelPageTable V := {|
  pt_Get := Get;
  pt_Set := Set_;
  pt_Clear := Clear;
  pt_ForEach := ForEach;
  pt_Unallocated pt := len (topLevel pt) =? 0;
|}.

#[export] Instance multiLevel_laws : PageTableLaws MultiLevelPageTable V.
Proof.
  refine (Build_PageTableLaws _ _ _ table_ok _ _ _ _ _ _ _ _ _).
  - apply Set_ok.
  - intros t n (Hc & Ht & Hl). by split_and!.
  - apply Get_Set.
  - apply Get_beyond.
  - apply Set_beyond.
  - intros t i. cbn. unfold Get, Clear. cbn. by case_match.
  - apply ForEach_sorted.
  - intros. by apply ForEach_Get.
  - intros t Ht. cbn in *. unfold ForEach. by rewrite (len_0_nil (topLevel t)) by lia.
Defined.

End multilevel.

Arguments MultiLevelPageTable : clear implicits.

(** * Properties *)

(** The lazily allocated two-level page table is a finite map on the page
    numbers below its bound: after any sequence of stores it returns for each
    page the last region stored there, and enumerates exactly the pages that
    hold a region, in increasing order. *)
Theorem page_table_is_map {V} n (stores : list (Z * option V)) i :
  0 <= i -> Forall (fun s => 0 <= s.1) stores ->
  let pt := foldl (fun t s => Set_ t s.1 s.2) (NewMultiLevelPageTable n) stores in
  Get pt i = (if n <=? i then None
              else foldl (fun v s => if decide (s.1 = i) then s.2 else v) None stores) /\
  (forall v, (i, v) ∈ ForEach pt <-> 0 <= i < n /\ Get pt i = Some v) /\
  StronglySorted Z.lt (ForEach pt).*1.
Proof.
  intros Hi Hstores.
  assert (Hrun : forall pt v, table_ok pt n -> Get pt i = (if n <=? i then None else v) ->
    let pt' := foldl (fun t s => Set_ t s.1 s.2) pt stores in
    table_ok pt' n /\
    Get pt' i = if n <=? i then None
                else foldl (fun v s => if decide (s.1 = i) then s.2 else v) v stores).
  { induction Hstores as [|[k x] stores Hk _ IH]; intros pt v Hok Hg; cbn; [done|].
    apply IH; [by apply Set_ok|]. destruct (Z.leb_spec n i) as [Hn|Hn].
    - apply (Get_beyond _ n i); [by apply (Set_ok pt n)|done].
    - cbn in Hk. destruct (Z.leb_spec n k) as [Hkn|Hkn].
      + rewrite (Set_beyond pt n k x Hok Hkn). by rewrite decide_False by lia.
      + rewrite (Get_Set pt n) by (done || lia). by case_decide. }
  destruct (Hrun (NewMultiLevelPageTable n) None) as [Hok Hget];
    [apply NewMultiLevelPageTable_ok|unfold Get; cbn; by case_match|].
  cbn. split_and!; [done| |].
  - intros v. by apply ForEach_Get.
  - by apply (ForEach_sorted _ n).
Qed.
