(* ===== verification/VirtualMemory.v ===== *)
(** The sparse memory file-system images are laid out in:
    [src/internal/core/fsimage/vm/vm.go], type [VirtualMemory].

    Regions are mapped at byte offsets; a page is a region, a fragmented region
    or unmapped; writes go to private copies of pages.  [vm_is w vm c] says that
    the memory reads as the flat byte string [c], and the theorems are that
    [Map], [WriteAt] and [ReadAt] are overwriting and reading of a flat byte
    string, and that [WriteSparseTo] reproduces it in a zeroed file.

    The page tables are used through the [PageTable] interface.  The write pages
    and fragmented pages are reachable only from this memory, so the model keeps
    them by value.  Loops take fuel; [None] is a run that has not returned yet,
    and every correctness theorem shows that the fuel given suffices. *)

From stdpp Require Import gmap.
From S2P Require Import Prelude Regions Fragments PageTable.

Section virtualMemory.
Context {W T : Type}.

Inductive page :=
| PRegion (r : region W)
| PFragmented (f : fragmentedRegion W).

Context `{Laws : PageTableLaws T page}.

Definition pageReadAt (w : W) (pg : page) (p : bytes) (off : Z) : readResult :=
  match pg with
  | PRegion r => readAt w r p off
  | PFragmented f => fragReadAt w f p off
  end.

Definition pageWriteAt (w : W) (pg : page) (p : bytes) (off : Z)
  : page * W * Z * option ioError :=
  match pg with
  | PRegion r => let '(r, w, n, e) := writeAt w r p off in (PRegion r, w, n, e)
  | PFragmented f => let '(f, w, n, e) := fragWriteAt w f p off in (PFragmented f, w, n, e)
  end.

Inductive vmError :=
| NilRegion | ExceedsSize | Unaligned | UnmappedPage
| FragmentError (e : mapError) | IOError (e : ioError) | ShortPage.

Record VirtualMemory := mkVM {
  pageSize : Z;
  pages : T;
  writePages : T;
  totalSize : Z;
  totalMaps : Z;
  totalMapRegions : Z;
  totalMapFragments : Z;
}.
#[local] Instance eta_vm : Eta VirtualMemory := fun v =>
  mkVM (pageSize v) (pages v) (writePages v) (totalSize v) (totalMaps v) (totalMapRegions v)
    (totalMapFragments v).

(** * Mapping *)

(** Puts a page in place of whatever was there. *)
Definition setPage (vm : VirtualMemory) (index : Z) (pg : page) : VirtualMemory :=
  vm <| pages := pt_Set (pages vm) (u64 index) (Some pg) |>
     <| writePages := pt_Set (writePages vm) (u64 index) None |>.

Definition existingPage (vm : VirtualMemory) (index : Z) : option page :=
  match pt_Get (writePages vm) (u64 index) with
  | Some pg => Some pg
  | None => pt_Get (pages vm) (u64 index)
  end.

(** The page that [mapFragment] adds to: the existing fragmented page, or a new
    one holding the existing region, or a new one of zeros. *)
Definition baseFragments (w : W) (vm : VirtualMemory) (existing : option page)
  : result mapError (fragmentedRegion W) :=
  match existing with
  | Some (PFragmented frag) => Ok frag
  | Some (PRegion r) =>
      mapFragment w (newFragmentRegion (pageSize vm)) (NewTruncatedRegion w r (pageSize vm)) 0
  | None => Ok (newFragmentRegion (pageSize vm))
  end.

Definition vm_mapFragment (w : W) (vm : VirtualMemory) (r : region W) (offset : Z)
  : VirtualMemory * option vmError :=
  let vm := vm <| totalMapFragments := totalMapFragments vm + 1 |> in
  let regionIndex := Z.quot offset (pageSize vm) in
  let regionOffset := Z.rem offset (pageSize vm) in
  match (base ← baseFragments w vm (existingPage vm regionIndex);
         mapFragment w base r regionOffset) with
  | Ok frag => (setPage vm regionIndex (PFragmented frag), None)
  | Err e => (vm, Some (FragmentError e))
  | Panic => (vm, None)
  end.

Definition vm_mapRegion (vm : VirtualMemory) (r : region W) (offset : Z)
  : VirtualMemory * option vmError :=
  let vm := vm <| totalMapRegions := totalMapRegions vm + 1 |> in
  if negb (Z.rem offset (pageSize vm) =? 0) then (vm, Some Unaligned)
  else (setPage vm (Z.quot offset (pageSize vm)) (PRegion r), None).

(** The loop over full pages; the region, and how much of it is mapped. *)
Fixpoint mapPages (fuel : nat) (vm : VirtualMemory) (r : region W) (regionSize regionOffset offset : Z)
  : option (VirtualMemory * Z * Z * option vmError) :=
  match fuel with
  | O => None
  | S fuel =>
      if regionSize - regionOffset <? pageSize vm then Some (vm, regionOffset, offset, None)
      else
        let r' := if regionOffset =? 0 then r else NewOffsetRegion r regionOffset in
        match vm_mapRegion vm r' offset with
        | (vm, Some e) => Some (vm, regionOffset, offset, Some e)
        | (vm, None) =>
            mapPages fuel vm r regionSize (regionOffset + pageSize vm) (offset + pageSize vm)
        end
  end.

(** The leading fragment of [Map], for an offset inside a page. *)
Definition mapLeading (w : W) (vm : VirtualMemory) (r : region W) (regionSize offset : Z)
  : VirtualMemory * Z * option vmError :=
  if negb (Z.rem offset (pageSize vm) =? 0) then
    let fragmentSize := pageSize vm - Z.rem offset (pageSize vm) in
    let fragmentSize := if regionSize <? fragmentSize then regionSize else fragmentSize in
    let '(vm, e) := vm_mapFragment w vm (NewTruncatedRegion w r fragmentSize) offset in
    (vm, fragmentSize, e)
  else (vm, 0, None).

Definition Map (w : W) (vm : VirtualMemory) (r : option (region W)) (offset : Z)
  : option (VirtualMemory * option vmError) :=
  let vm := vm <| totalMaps := totalMaps vm + 1 |> in
  match r with
  | None => Some (vm, Some NilRegion)
  | Some r =>
      let regionSize := size w r in
      if (offset <? 0) || (regionSize <? 0) || (totalSize vm <? offset)
         || (totalSize vm - offset <? regionSize)
      then Some (vm, Some ExceedsSize)
      else
        match mapLeading w vm r regionSize offset with
        | (vm, _, Some e) => Some (vm, Some e)
        | (vm, regionOffset, None) =>
            match mapPages (Z.to_nat (regionSize / pageSize vm) + 1) vm r regionSize
                    regionOffset (offset + regionOffset) with
            | None => None
            | Some (vm, _, _, Some e) => Some (vm, Some e)
            | Some (vm, regionOffset, offset, None) =>
                if 0 <? regionSize - regionOffset
                then Some (vm_mapFragment w vm (NewOffsetRegion r regionOffset) offset)
                else Some (vm, None)
            end
        end
  end.

Definition MapSlice (w : W) (vm : VirtualMemory) (r : region W) (srcOffset n dstOffset : Z)
  : option (VirtualMemory * option vmError) :=
  if (srcOffset =? 0) && (n =? size w r) then Map w vm (Some r) dstOffset
  else Map w vm (Some (directSliceRegion r srcOffset n)) dstOffset.

Definition MapFile (w : W) (vm : VirtualMemory) (f : readerAt W) (offset n : Z)
  : option (VirtualMemory * option vmError) :=
  Map w vm (Some (FileRegion f n)) offset.

(** * Access *)

(** [getRegion]: the memory afterwards, and the page with the offset into it. *)
Definition getRegion (w : W) (vm : VirtualMemory) (offset : Z) (isWrite : bool)
  : VirtualMemory * result vmError (option page * Z) :=
  if totalSize vm <? offset then (vm, Err (IOError EOF))
  else
    let regionIndex := Z.quot offset (pageSize vm) in
    let regionOffset := Z.rem offset (pageSize vm) in
    match pt_Get (writePages vm) (u64 regionIndex) with
    | Some pg => (vm, Ok (Some pg, regionOffset))
    | None =>
        if isWrite then
          let newWritePage := zeros (pageSize vm) in
          let '(newWritePage, e) :=
            match pt_Get (pages vm) (u64 regionIndex) with
            | Some pg => let '(p, _, e) := pageReadAt w pg newWritePage 0 in (p, e)
            | None => (newWritePage, None)
            end in
          match e with
          | Some e => (vm, Err (IOError e))
          | None =>
              let vm := vm <| writePages := pt_Set (writePages vm) (u64 regionIndex)
                                              (Some (PRegion (RawRegion newWritePage))) |> in
              (vm, Ok (pt_Get (writePages vm) (u64 regionIndex), regionOffset))
          end
        else (vm, Ok (pt_Get (pages vm) (u64 regionIndex), regionOffset))
    end.

(** One round of [ReadAt]: the buffer afterwards, [readSize], the error. *)
Definition readRound (w : W) (vm : VirtualMemory) (rg : option page) (regionOffset : Z) (p : bytes)
  : readResult :=
  match rg with
  | Some pg =>
      let e := if len p + regionOffset <? pageSize vm then len p + regionOffset else pageSize vm in
      let k := Z.to_nat (e - regionOffset) in
      let '(q, readSize, err) := pageReadAt w pg (take k p) regionOffset in
      (q ++ drop k p, readSize, err)
  | None =>
      let readSize := pageSize vm - regionOffset in
      let readSize := if len p <? readSize then len p else readSize in
      (copy_into p (zeros readSize), readSize, None)
  end.

Fixpoint readLoop (fuel : nat) (w : W) (vm : VirtualMemory) (p : bytes) (off n : Z)
  : option (bytes * Z * option vmError) :=
  match fuel with
  | O => None
  | S fuel =>
      match getRegion w vm off false with
      | (_, Err e) => Some (p, 0, Some e)
      | (_, Panic) => None
      | (_, Ok (rg, regionOffset)) =>
          match readRound w vm rg regionOffset p with
          | (q, _, Some e) => Some (q, 0, Some (IOError e))
          | (q, readSize, None) =>
              let rest := drop (Z.to_nat readSize) q in
              if len rest =? 0 then Some (q, n + readSize, None)
              else
                match readLoop fuel w vm rest (off + readSize) (n + readSize) with
                | Some (rest, n, e) => Some (take (Z.to_nat readSize) q ++ rest, n, e)
                | None => None
                end
          end
      end
  end.

(** The pages a request of [n] bytes can touch. *)
Definition rounds (vm : VirtualMemory) (n : Z) : nat := Z.to_nat (n / pageSize vm) + 2.

Definition ReadAt (w : W) (vm : VirtualMemory) (p : bytes) (off : Z)
  : option (bytes * Z * option vmError) :=
  readLoop (rounds vm (len p)) w vm p off 0.

(** [WriteAt] changes the page that [getRegion] returned, a write page. *)
Fixpoint writeLoop (fuel : nat) (w : W) (vm : VirtualMemory) (p : bytes) (off n : Z)
  : option (VirtualMemory * W * Z * option vmError) :=
  match fuel with
  | O => None
  | S fuel =>
      match getRegion w vm off true with
      | (vm, Err e) => Some (vm, w, 0, Some e)
      | (_, Panic) => None
      | (vm, Ok (None, _)) => Some (vm, w, 0, Some UnmappedPage)
      | (vm, Ok (Some pg, regionOffset)) =>
          let e := if len p + regionOffset <? pageSize vm then len p + regionOffset else pageSize vm in
          let '(pg, w, writeSize, err) :=
            pageWriteAt w pg (take (Z.to_nat (e - regionOffset)) p) regionOffset in
          let vm := vm <| writePages := pt_Set (writePages vm)
                            (u64 (Z.quot off (pageSize vm))) (Some pg) |> in
          match err with
          | Some err => Some (vm, w, 0, Some (IOError err))
          | None =>
              let rest := drop (Z.to_nat writeSize) p in
              if len rest =? 0 then Some (vm, w, n + writeSize, None)
              else writeLoop fuel w vm rest (off + writeSize) (n + writeSize)
          end
      end
  end.

Definition WriteAt (w : W) (vm : VirtualMemory) (p : bytes) (off : Z)
  : option (VirtualMemory * W * Z * option vmError) :=
  writeLoop (rounds vm (len p)) w vm p off 0.

Definition Reset_ (vm : VirtualMemory) : VirtualMemory :=
  vm <| pages := pt_Clear (pages vm) |> <| writePages := pt_Clear (writePages vm) |>.

(** * Writing the image *)

(** [forEachMappedPage]: the map of all pages, write pages in preference, sorted
    by page number. *)
Definition addPages (m : gmap Z page) (l : list (Z * page)) : gmap Z page :=
  foldl (fun m kv => <[kv.1 := kv.2]> m) m l.

Definition indexLe (a b : Z * page) : Prop := a.1 <= b.1.
#[local] Instance indexLe_dec : RelDecision indexLe.
Proof. intros a b. unfold indexLe. apply _. Defined.

Definition mappedPages (vm : VirtualMemory) : list (Z * page) :=
  merge_sort indexLe
    (map_to_list (addPages (addPages ∅ (pt_ForEach (pages vm))) (pt_ForEach (writePages vm)))).

(** The file, an [io.WriterAt] with state [F]. *)
Context {F : Type} (fhWrite : F -> bytes -> Z -> F * Z * option ioError).

Record batch := mkBatch {
  fh : F;
  written : Z;
  batchBuf : bytes;
  batchStartOffset : Z;
  batchPageCount : Z;
  lastPageIndex : Z;
}.

Definition flushBatch (vm : VirtualMemory) (b : batch) : batch * option ioError :=
  if batchPageCount b =? 0 then (b, None)
  else
    let bytesToWrite := batchPageCount b * pageSize vm in
    let '(f, n, e) := fhWrite (fh b) (take (Z.to_nat bytesToWrite) (batchBuf b)) (batchStartOffset b) in
    match e with
    | Some e => (mkBatch f (written b) (batchBuf b) (batchStartOffset b) (batchPageCount b) (lastPageIndex b), Some e)
    | None => (mkBatch f (written b + n) (batchBuf b) (batchStartOffset b) 0 (lastPageIndex b), None)
    end.

Definition maxPagesPerBatch (vm : VirtualMemory) (b : batch) : Z :=
  let m := len (batchBuf b) / pageSize vm in if m =? 0 then 1 else m.

(** The page starts a new batch, or continues the current one. *)
Definition startBatch (vm : VirtualMemory) (b : batch) (pageIndex : Z) : batch * option ioError :=
  let isConsecutive := negb (lastPageIndex b =? 2 ^ 64 - 1) &&
                       (pageIndex =? u64 (lastPageIndex b + 1)) in
  if negb isConsecutive || (maxPagesPerBatch vm b <=? batchPageCount b) then
    let '(b, e) := flushBatch vm b in
    match e with
    | Some e => (b, Some e)
    | None => (mkBatch (fh b) (written b) (batchBuf b) (pageIndex * pageSize vm)
                 (batchPageCount b) (lastPageIndex b), None)
    end
  else (b, None).

(** The callback for one page. *)
Definition writePage (w : W) (vm : VirtualMemory) (b : batch) (pageIndex : Z) (pg : page)
  : batch * result vmError () :=
  match startBatch vm b pageIndex with
  | (b, Some e) => (b, Err (IOError e))
  | (b, None) =>
      let bufOffset := batchPageCount b * pageSize vm in
      if len (batchBuf b) <? bufOffset + pageSize vm then (b, Panic)
      else
        let '(q, n, e) :=
          pageReadAt w pg (slice (batchBuf b) bufOffset (bufOffset + pageSize vm)) 0 in
        let b := mkBatch (fh b) (written b) (put (batchBuf b) bufOffset q) (batchStartOffset b)
                   (batchPageCount b) (lastPageIndex b) in
        match e with
        | Some e => (b, Err (IOError e))
        | None =>
            if negb (n =? pageSize vm) then (b, Err ShortPage)
            else (mkBatch (fh b) (written b) (batchBuf b) (batchStartOffset b)
                    (batchPageCount b + 1) pageIndex, Ok ())
        end
  end.

Fixpoint writeMapped (w : W) (vm : VirtualMemory) (b : batch) (l : list (Z * page))
  : batch * result vmError () :=
  match l with
  | [] =>
      let '(b, e) := flushBatch vm b in
      (b, match e with Some e => Err (IOError e) | None => Ok () end)
  | (pageIndex, pg) :: l =>
      match writePage w vm b pageIndex pg with
      | (b, Ok _) => writeMapped w vm b l
      | (b, r) => (b, r)
      end
  end.

(** [buf] is the buffer taken from the pool. *)
Definition WriteSparseTo (w : W) (vm : VirtualMemory) (buf : bytes) (f : F)
  : F * Z * result vmError () :=
  if pt_Unallocated (pages vm) && pt_Unallocated (writePages vm) then (f, 0, Ok ())
  else
    let '(b, r) := writeMapped w vm (mkBatch f 0 buf 0 0 (2 ^ 64 - 1)) (mappedPages vm) in
    (fh b, written b, r).

(** * What the memory contains *)

Definition page_is (w : W) (ps : Z) (pg : page) (c : bytes) : Prop :=
  match pg with
  | PRegion r => region_is w r c
  | PFragmented f => fragmented_is w f c /\ fragTotal f = ps
  end.

(** Page [i] reads as [b]. *)
Definition pageView (w : W) (vm : VirtualMemory) (i : Z) (b : bytes) : Prop :=
  match pt_Get (writePages vm) i with
  | Some pg => pg = PRegion (RawRegion b)
  | None =>
      match pt_Get (pages vm) i with
      | Some pg => exists c, page_is w (pageSize vm) pg c /\ pageSize vm <= len c /\
                             b = take (Z.to_nat (pageSize vm)) c
      | None => b = zeros (pageSize vm)
      end
  end.

Definition pageOf (ps : Z) (c : bytes) (i : Z) : bytes := slice c (i * ps) (i * ps + ps).

Definition pageTotal (vm : VirtualMemory) : Z := totalSize vm / pageSize vm.

Record vm_ok (vm : VirtualMemory) : Prop := {
  ok_pageSize : 0 < pageSize vm;
  ok_total : totalSize vm = pageTotal vm * pageSize vm;
  ok_bound : 0 <= totalSize vm < 2 ^ 63;
  ok_pages : pt_ok (pages vm) (pageTotal vm);
  ok_writePages : pt_ok (writePages vm) (pageTotal vm);
}.

Record vm_is (w : W) (vm : VirtualMemory) (c : bytes) : Prop := {
  is_ok : vm_ok vm;
  is_len : len c = totalSize vm;
  is_view : forall i, 0 <= i < pageTotal vm -> pageView w vm i (pageOf (pageSize vm) c i);
}.

Lemma page_bounds vm i :
  vm_ok vm -> 0 <= i < pageTotal vm ->
  0 <= i * pageSize vm /\ i * pageSize vm + pageSize vm <= totalSize vm /\ u64 i = i.
Proof.
  intros [Hps Htot Hb _ _] Hi. split_and!; [nia|nia|].
  apply wrap_small. width. nia.
Qed.

Lemma page_of_offset vm off :
  vm_ok vm -> 0 <= off < totalSize vm ->
  exists i o, off = i * pageSize vm + o /\ 0 <= o < pageSize vm /\ 0 <= i < pageTotal vm /\
    Z.quot off (pageSize vm) = i /\ Z.rem off (pageSize vm) = o.
Proof.
  intros [Hps Htot Hb _ _] Hoff. exists (off / pageSize vm), (off mod pageSize vm).
  pose proof (Z.div_mod off (pageSize vm) ltac:(lia)).
  pose proof (Z.mod_pos_bound off (pageSize vm) Hps).
  rewrite Z.quot_div_nonneg, Z.rem_mod_nonneg by lia.
  split_and!; try lia; try nia.
Qed.

Lemma pageOf_put ps c i j b :
  0 < ps -> 0 <= i -> 0 <= j -> i * ps + ps <= len c -> len b = ps ->
  pageOf ps (put c (i * ps) b) j = if decide (i = j) then b else pageOf ps c j.
Proof.
  intros Hps Hi Hj Hfit Hb. unfold pageOf. case_decide as Hij.
  - subst j. subst ps. apply slice_put_same; lia.
  - apply slice_put_out; [lia..|]. assert (i < j \/ j < i) as [|] by lia; nia.
Qed.

(** Changing one page changes its bytes and no others. *)
Lemma vm_is_update w vm vm' c i b :
  vm_is w vm c -> vm_ok vm' -> 0 <= i < pageTotal vm ->
  pageSize vm' = pageSize vm -> totalSize vm' = totalSize vm ->
  (forall j, 0 <= j -> j <> i -> pt_Get (pages vm') j = pt_Get (pages vm) j) ->
  (forall j, 0 <= j -> j <> i -> pt_Get (writePages vm') j = pt_Get (writePages vm) j) ->
  len b = pageSize vm -> pageView w vm' i b ->
  vm_is w vm' (put c (i * pageSize vm) b).
Proof.
  intros [Hok Hlen Hview] Hok' Hi Hps Htot Hp Hw Hb Hv.
  destruct (page_bounds vm i Hok Hi) as (? & ? & _). pose proof (ok_pageSize _ Hok).
  assert (Hn : pageTotal vm' = pageTotal vm) by (unfold pageTotal; congruence).
  split; [done|rewrite len_put; congruence|].
  intros j Hj. rewrite Hps, pageOf_put by lia. case_decide as Hij; [by subst|].
  rewrite Hn in Hj. specialize (Hview j Hj). unfold pageView in *.
  by rewrite Hw, Hp, Hps by lia.
Qed.

Lemma vm_is_slice_len w vm c i :
  vm_is w vm c -> 0 <= i < pageTotal vm -> len (pageOf (pageSize vm) c i) = pageSize vm.
Proof.
  intros [Hok Hlen _] Hi. destruct (page_bounds vm i Hok Hi) as (? & ? & _).
  pose proof (ok_pageSize _ Hok). unfold pageOf. rewrite len_slice by lia. lia.
Qed.

(** The counters do not matter. *)
Lemma vm_is_stats w vm c a1 a2 a3 :
  vm_is w vm c ->
  vm_is w (mkVM (pageSize vm) (pages vm) (writePages vm) (totalSize vm) a1 a2 a3) c.
Proof. by intros [[]]. Qed.

(** Installing a page that reads as at least a page of bytes. *)
Lemma setPage_is w vm c i pg d :
  vm_is w vm c -> 0 <= i < pageTotal vm -> page_is w (pageSize vm) pg d -> pageSize vm <= len d ->
  vm_is w (setPage vm i pg)
    (put c (i * pageSize vm) (take (Z.to_nat (pageSize vm)) d)).
Proof.
  intros Hvm Hi Hpg Hd. pose proof Hvm as [Hok _ _]. pose proof Hok as [Hps Htot Hb Hp Hw].
  destruct (page_bounds vm i Hok Hi) as (_ & _ & Hu).
  apply (vm_is_update w vm); try done; unfold setPage; rewrite ?Hu; cbn.
  - split; cbn; try done; by apply pt_set_ok; [|lia].
  - intros j Hj Hne. rewrite (pt_get_set _ (pageTotal vm)), decide_False by (done || lia). done.
  - intros j Hj Hne. rewrite (pt_get_set _ (pageTotal vm)), decide_False by (done || lia). done.
  - list_len. lia.
  - unfold pageView. cbn.
    rewrite !(pt_get_set _ (pageTotal vm)), !decide_True by (done || lia). by exists d.
Qed.

(** * Mapping refines overwriting *)

(** The fragmented page that [mapFragment] starts from reads as the page. *)
Lemma baseFragments_is w vm c i :
  vm_is w vm c -> 0 <= i < pageTotal vm ->
  exists f, baseFragments w vm (existingPage vm i) = Ok f /\ fragTotal f = pageSize vm /\
    fragmented_is w f (pageOf (pageSize vm) c i).
Proof.
  intros Hvm Hi. pose proof Hvm as [Hok Hlen Hview]. pose proof (ok_pageSize _ Hok) as Hps.
  destruct (page_bounds vm i Hok Hi) as (_ & _ & Hu).
  pose proof (vm_is_slice_len _ _ _ _ Hvm Hi) as Hpl. specialize (Hview i Hi).
  unfold existingPage, pageView in *. rewrite Hu.
  assert (Hnew : forall r d, region_is w r d -> pageSize vm <= len d ->
    exists f, mapFragment w (newFragmentRegion (pageSize vm)) (NewTruncatedRegion w r (pageSize vm)) 0 = Ok f /\
      fragTotal f = pageSize vm /\ fragmented_is w f (take (Z.to_nat (pageSize vm)) d)).
  { intros r d Hr Hd.
    destruct (mapFragment_is w (newFragmentRegion (pageSize vm)) (zeros (pageSize vm))
      (NewTruncatedRegion w r (pageSize vm)) (take (Z.to_nat (pageSize vm)) d) 0) as (f & -> & Ht & Hf).
    - by apply newFragmentRegion_is.
    - apply NewTruncatedRegion_is; [done|lia].
    - lia.
    - cbn. list_len. lia.
    - exists f. split_and!; [done|done|]. rewrite put_full in Hf; [done|]. list_len. lia. }
  destruct (pt_Get (writePages vm) i) as [pg|].
  - subst pg. cbn [baseFragments].
    destruct (Hnew (RawRegion (pageOf (pageSize vm) c i)) (pageOf (pageSize vm) c i))
      as (f & -> & ? & Hf); [constructor|lia|].
    exists f. split_and!; [done..|]. rewrite take_ge in Hf; [done|]. unfold len in Hpl. lia.
  - destruct (pt_Get (pages vm) i) as [[r|f]|]; cbn [baseFragments].
    + destruct Hview as (d & Hr & Hd & ->). by apply Hnew.
    + destruct Hview as (d & [Hf Ht] & Hd & ->). exists f. split_and!; [done..|].
      rewrite take_ge; [done|]. pose proof (tiles_len _ _ _ _ _ (proj2 Hf)).
      unfold len in *. lia.
    + exists (newFragmentRegion (pageSize vm)). split_and!; [done..|]. rewrite Hview.
      by apply newFragmentRegion_is.
Qed.

Lemma vm_mapFragment_is w vm c r d off :
  vm_is w vm c -> region_is w r d -> 0 <= off < totalSize vm ->
  Z.rem off (pageSize vm) + len d <= pageSize vm ->
  exists vm', vm_mapFragment w vm r off = (vm', None) /\ vm_is w vm' (put c off d) /\
    pageSize vm' = pageSize vm /\ totalSize vm' = totalSize vm.
Proof.
  intros Hvm0 Hr Hoff Hfit. unfold vm_mapFragment.
  set (vm1 := vm <| totalMapFragments := _ |>).
  assert (Hvm : vm_is w vm1 c) by (by apply vm_is_stats).
  pose proof Hvm as [Hok Hlen _]. pose proof (ok_pageSize _ Hok).
  destruct (page_of_offset vm1 off Hok Hoff) as (i & o & -> & Ho & Hi & Hq & Hrm).
  change (pageSize vm1) with (pageSize vm) in *. rewrite Hq, Hrm in *.
  destruct (baseFragments_is w vm1 c i Hvm Hi) as (f & -> & Ht & Hf).
  destruct (page_bounds vm1 i Hok Hi) as (? & ? & _).
  pose proof (vm_is_slice_len _ _ _ _ Hvm Hi) as Hpl.
  destruct (mapFragment_is w f (pageOf (pageSize vm1) c i) r d o) as (f' & Hmap & Ht' & Hf');
    [done|done|lia|rewrite Ht; done|].
  cbn [mbind result_bind]. rewrite Hmap. eexists. split; [reflexivity|]. split; [|done].
  replace (put c (i * pageSize vm + o) d) with
    (put c (i * pageSize vm) (take (Z.to_nat (pageSize vm)) (put (pageOf (pageSize vm) c i) o d))).
  - apply (setPage_is w vm1); [done..| |rewrite len_put; change (pageSize vm1) with (pageSize vm) in *; lia].
    split; [done|]. by rewrite Ht'.
  - change (pageSize vm1) with (pageSize vm) in *. change (totalSize vm1) with (totalSize vm) in *.
    rewrite take_ge by (rewrite length_put; unfold len in Hpl; lia).
    apply put_slice_put; lia.
Qed.

Lemma vm_mapRegion_is w vm c r d i :
  vm_is w vm c -> region_is w r d -> pageSize vm <= len d -> 0 <= i < pageTotal vm ->
  exists vm', vm_mapRegion vm r (i * pageSize vm) = (vm', None) /\
    vm_is w vm' (put c (i * pageSize vm) (take (Z.to_nat (pageSize vm)) d)) /\
    pageSize vm' = pageSize vm /\ totalSize vm' = totalSize vm.
Proof.
  intros Hvm Hr Hd Hi. pose proof Hvm as [Hok _ _]. pose proof (ok_pageSize _ Hok).
  unfold vm_mapRegion. set (vm1 := vm <| totalMapRegions := _ |>).
  assert (Hvm1 : vm_is w vm1 c) by (by apply vm_is_stats).
  change (pageSize vm1) with (pageSize vm). rewrite Z.rem_mul, Z.quot_mul by lia. cbn [Z.eqb negb].
  eexists. split; [reflexivity|]. split; [|done].
  by apply (setPage_is w vm1).
Qed.

(** The full pages of a region. *)
Lemma mapPages_is w r d : forall fuel vm c i ro,
  vm_is w vm c -> region_is w r d -> 0 <= i -> 0 <= ro <= len d ->
  i * pageSize vm + (len d - ro) <= totalSize vm ->
  len d - ro < Z.of_nat fuel * pageSize vm ->
  exists vm' ro' i', mapPages fuel vm r (len d) ro (i * pageSize vm)
      = Some (vm', ro', i' * pageSize vm, None) /\
    vm_is w vm' (put c (i * pageSize vm) (slice d ro ro')) /\
    pageSize vm' = pageSize vm /\ totalSize vm' = totalSize vm /\
    ro <= ro' <= len d /\ len d - ro' < pageSize vm /\
    i' * pageSize vm = i * pageSize vm + (ro' - ro).
Proof.
  induction fuel as [|fuel IH]; intros vm c i ro Hvm Hr Hi Hro Hfit Hfuel; [lia|].
  pose proof Hvm as [Hok Hlen _]. pose proof (ok_pageSize _ Hok) as Hps. cbn [mapPages].
  destruct (Z.ltb_spec (len d - ro) (pageSize vm)) as [Hlt|Hge].
  { exists vm, ro, i. split; [done|]. rewrite (slice_empty d), put_nil by lia.
    split_and!; try done; lia. }
  assert (Hi' : 0 <= i < pageTotal vm) by (pose proof (ok_total _ Hok); nia).
  assert (Hreg : region_is w (if ro =? 0 then r else NewOffsetRegion r ro) (drop (Z.to_nat ro) d)).
  { destruct (Z.eqb_spec ro 0) as [->|]; [done|]. by apply NewOffsetRegion_is. }
  destruct (vm_mapRegion_is w vm c _ _ i Hvm Hreg) as (vm1 & -> & Hvm1 & Hps1 & Ht1);
    [list_len; lia|done|].
  replace (i * pageSize vm + pageSize vm1) with ((i + 1) * pageSize vm1) by (rewrite Hps1; ring).
  destruct (IH vm1 _ (i + 1) (ro + pageSize vm1) Hvm1 Hr) as (vm' & ro' & i' & Hrun & Hvm' & Hps' & Ht' & Hro' & Hrest & Hi2);
    rewrite ?Hps1, ?Ht1 in *; try nia.
  exists vm', ro', i'. rewrite Hrun. split; [done|]. split; [|split_and!; [done|done|lia..|nia]].
  destruct (page_bounds vm i Hok Hi') as (? & ? & _).
  rewrite <- (slice_cat d ro (ro + pageSize vm) ro') by lia.
  rewrite <- put_app; [| |].
  - rewrite len_slice by lia. replace (i * pageSize vm + (ro + pageSize vm - ro)) with ((i + 1) * pageSize vm) by ring.
    replace (slice d ro (ro + pageSize vm)) with (take (Z.to_nat (pageSize vm)) (drop (Z.to_nat ro) d)); [done|].
    unfold slice. f_equal. lia.
  - lia.
  - rewrite !len_slice by lia. nia.
Qed.

Lemma mapLeading_is w vm c r d off :
  vm_is w vm c -> region_is w r d -> 0 <= off -> off + len d <= totalSize vm ->
  exists vm' k, mapLeading w vm r (len d) off = (vm', k, None) /\
    vm_is w vm' (put c off (take (Z.to_nat k) d)) /\
    pageSize vm' = pageSize vm /\ totalSize vm' = totalSize vm /\ 0 <= k <= len d /\
    (k = len d \/ exists i, 0 <= i /\ off + k = i * pageSize vm).
Proof.
  intros Hvm Hr Hoff Hfit. pose proof Hvm as [Hok Hlen _]. pose proof (ok_pageSize _ Hok) as Hps.
  pose proof (len_nonneg d). unfold mapLeading.
  pose proof (Z.quot_rem off (pageSize vm) ltac:(lia)) as Hqr.
  pose proof (Z.rem_bound_pos off (pageSize vm) ltac:(lia) ltac:(lia)) as Hrb.
  pose proof (Z.quot_pos off (pageSize vm) ltac:(lia) ltac:(lia)) as Hqp.
  destruct (Z.eqb_spec (Z.rem off (pageSize vm)) 0) as [Hz|Hz]; cbn [negb].
  { exists vm, 0. split; [done|]. rewrite take_0, put_nil. split_and!; try done; try lia.
    right. exists (Z.quot off (pageSize vm)). lia. }
  set (k := if len d <? pageSize vm - Z.rem off (pageSize vm) then len d
            else pageSize vm - Z.rem off (pageSize vm)).
  assert (Hk : 0 <= k <= len d /\ k <= pageSize vm - Z.rem off (pageSize vm) /\
    (k = len d \/ k = pageSize vm - Z.rem off (pageSize vm))).
  { subst k. destruct (Z.ltb_spec (len d) (pageSize vm - Z.rem off (pageSize vm))); lia. }
  assert (Hlt : off < totalSize vm).
  { destruct (Z.eq_dec off (totalSize vm)) as [He|]; [|lia]. exfalso. apply Hz.
    rewrite He, (ok_total _ Hok). apply Z.rem_mul. lia. }
  destruct (vm_mapFragment_is w vm c (NewTruncatedRegion w r k) (take (Z.to_nat k) d) off)
    as (vm' & -> & Hvm' & ? & ?); [done|apply NewTruncatedRegion_is; [done|lia]|lia|list_len; lia|].
  exists vm', k. split; [done|]. split_and!; try done; try lia.
  destruct Hk as (_ & _ & [?|Hk]); [by left|right].
  exists (Z.quot off (pageSize vm) + 1). split; [lia|]. rewrite Hk, Hqr at 1. ring.
Qed.

Lemma Map_is w vm c r d off :
  vm_is w vm c -> region_is w r d -> 0 <= off -> off + len d <= totalSize vm ->
  exists vm', Map w vm (Some r) off = Some (vm', None) /\ vm_is w vm' (put c off d) /\
    pageSize vm' = pageSize vm /\ totalSize vm' = totalSize vm.
Proof.
  intros Hvm Hr Hoff Hfit. unfold Map. set (vm0 := vm <| totalMaps := _ |>).
  assert (Hvm0 : vm_is w vm0 c) by (by apply vm_is_stats). pose proof (len_nonneg d).
  change (pageSize vm) with (pageSize vm0) in *. change (totalSize vm) with (totalSize vm0) in *.
  pose proof (ok_pageSize _ (is_ok _ _ _ Hvm0)) as Hps.
  rewrite (region_size w r d Hr).
  destruct (Z.ltb_spec off 0), (Z.ltb_spec (len d) 0), (Z.ltb_spec (totalSize vm0) off),
    (Z.ltb_spec (totalSize vm0 - off) (len d)); try lia. cbn [orb].
  destruct (mapLeading_is w vm0 c r d off) as (vm1 & k & -> & Hvm1 & Hps1 & Ht1 & Hk & Halign);
    [done..|]. pose proof (is_len _ _ _ Hvm0) as Hlc.
  assert (Hfuel : len d - k < Z.of_nat (Z.to_nat (len d / pageSize vm1) + 1) * pageSize vm1).
  { rewrite Hps1. pose proof (Z.div_mod (len d) (pageSize vm0) ltac:(lia)).
    pose proof (Z.mod_pos_bound (len d) (pageSize vm0) Hps).
    pose proof (Z.div_pos (len d) (pageSize vm0) ltac:(lia) Hps). nia. }
  destruct Halign as [->|(i & Hi & Hki)].
  - (* the leading fragment was all of it *)
    rewrite Nat.add_1_r. cbn [mapPages]. rewrite Z.sub_diag, Hps1.
    destruct (Z.ltb_spec 0 (pageSize vm0)); [|lia]. rewrite Z.sub_diag.
    exists vm1. split_and!; try done. rewrite take_ge in Hvm1; [done|]. unfold len; lia.
  - rewrite Hki, <- Hps1.
    destruct (mapPages_is w r d (Z.to_nat (len d / pageSize vm1) + 1) vm1 _ i k Hvm1 Hr)
      as (vm2 & ro & i' & -> & Hvm2 & Hps2 & Ht2 & Hro & Hrest & Hi'); try lia.
    rewrite Hps1, <- Hki in Hvm2.
    assert (Hdone : vm_is w vm2 (put c off (take (Z.to_nat ro) d))).
    { replace (take (Z.to_nat ro) d) with (take (Z.to_nat k) d ++ slice d k ro) by list_ext.
      rewrite <- put_app; rewrite ?len_slice; try (list_len; lia).
      replace (len (take (Z.to_nat k) d)) with k by (list_len; lia). done. }
    destruct (Z.ltb_spec 0 (len d - ro)) as [Hmore|Hall].
    + destruct (vm_mapFragment_is w vm2 _ (NewOffsetRegion r ro) (drop (Z.to_nat ro) d) (i' * pageSize vm1) Hdone)
        as (vm3 & -> & Hvm3 & ? & ?).
      * apply NewOffsetRegion_is; [done|lia].
      * lia.
      * rewrite Hps2, Z.rem_mul by lia. list_len. lia.
      * exists vm3. split_and!; try congruence.
        rewrite Hi', Hps1, <- Hki in Hvm3.
        replace (off + k + (ro - k)) with (off + len (take (Z.to_nat ro) d)) in Hvm3 by (list_len; lia).
        rewrite put_app, take_drop in Hvm3 by (list_len; lia). done.
    + exists vm2. split_and!; try congruence. rewrite take_ge in Hdone; [done|]. unfold len in *; lia.
Qed.

(** * Reading refines reading *)

(** A mapped page read at [o] delivers the bytes of its view. *)
Lemma pageReadAt_view w ps pg d p o :
  page_is w ps pg d -> 0 <= o < ps -> ps <= len d ->
  pageReadAt w pg p o = (copy_into p (drop (Z.to_nat o) d), Z.min (len p) (len d - o), None).
Proof.
  intros Hpg Ho Hd. destruct pg as [r|f]; cbn in *.
  - rewrite (readAt_contents w r d Hpg). apply rawRead_in. lia.
  - rewrite (fragReadAt_contents w f d (proj1 Hpg)). apply rawRead_in. lia.
Qed.

Lemma readRound_page w vm pg d p o :
  page_is w (pageSize vm) pg d -> 0 <= o < pageSize vm -> pageSize vm <= len d ->
  let k := Z.min (len p) (pageSize vm - o) in
  readRound w vm (Some pg) o p =
    (copy_into p (slice (take (Z.to_nat (pageSize vm)) d) o (o + k)), k, None).
Proof.
  intros Hpg Ho Hd k. unfold readRound. pose proof (len_nonneg p).
  assert (Hk : (if len p + o <? pageSize vm then len p + o else pageSize vm) - o = k)
    by (subst k; destruct (Z.ltb_spec (len p + o) (pageSize vm)); lia).
  rewrite Hk, (pageReadAt_view w _ _ _ _ _ Hpg Ho Hd), copy_into_take.
  do 2 f_equal; [|subst k; list_len; lia]. f_equal. subst k. clear Hk Hpg. list_ext.
Qed.

(** The page [getRegion] finds for reading, and what a round delivers. *)
Lemma readRound_is w vm c i o p :
  vm_is w vm c -> 0 <= i < pageTotal vm -> 0 <= o < pageSize vm ->
  let off := i * pageSize vm + o in let k := Z.min (len p) (pageSize vm - o) in
  exists rg, getRegion w vm off false = (vm, Ok (rg, o)) /\
    readRound w vm rg o p = (copy_into p (slice c off (off + k)), k, None).
Proof.
  intros Hvm Hi Ho off k. pose proof Hvm as [Hok Hlen Hview]. pose proof (len_nonneg p).
  destruct (page_bounds vm i Hok Hi) as (? & ? & Hu).
  pose proof (vm_is_slice_len _ _ _ _ Hvm Hi) as Hpl.
  assert (Hq : Z.quot off (pageSize vm) = i /\ Z.rem off (pageSize vm) = o).
  { unfold off. rewrite Z.quot_div_nonneg, Z.rem_mod_nonneg by lia.
    rewrite Z.add_comm, Z.div_add, Z.mod_add, Z.div_small, Z.mod_small by lia. lia. }
  destruct Hq as [Hq Hr]. unfold getRegion. rewrite Hq, Hr, Hu.
  destruct (Z.ltb_spec (totalSize vm) off); [lia|].
  assert (Hsl : slice c off (off + k) = slice (pageOf (pageSize vm) c i) o (o + k)).
  { unfold pageOf, off, k. rewrite slice_slice by lia. f_equal. lia. }
  rewrite Hsl. specialize (Hview i Hi). unfold pageView in Hview.
  destruct (pt_Get (writePages vm) i) as [pg|].
  - subst pg. eexists. split; [reflexivity|].
    rewrite (readRound_page w vm _ (pageOf (pageSize vm) c i)); [|constructor|done|lia].
    fold k. rewrite take_ge by (unfold len in Hpl; lia). done.
  - destruct (pt_Get (pages vm) i) as [pg|].
    + destruct Hview as (d & Hpg & Hd & ->). eexists. split; [reflexivity|].
      by apply readRound_page.
    + eexists. split; [reflexivity|]. unfold readRound. rewrite Hview.
      replace (if len p <? pageSize vm - o then len p else pageSize vm - o) with k
        by (unfold k; destruct (Z.ltb_spec (len p) (pageSize vm - o)); lia).
      do 3 f_equal. unfold k. list_ext.
Qed.

Lemma readLoop_is w vm c : forall fuel p i o n,
  vm_is w vm c -> 0 <= i < pageTotal vm -> 0 <= o < pageSize vm ->
  let off := i * pageSize vm + o in
  off + len p <= totalSize vm -> o + len p <= Z.of_nat fuel * pageSize vm ->
  (0 < fuel)%nat ->
  readLoop fuel w vm p off n = Some (slice c off (off + len p), n + len p, None).
Proof.
  induction fuel as [|fuel IH]; intros p i o n Hvm Hi Ho off Hfit Hfuel Hpos; [lia|].
  pose proof Hvm as [Hok Hlen _]. pose proof (ok_pageSize _ Hok). pose proof (len_nonneg p).
  destruct (page_bounds vm i Hok Hi) as (? & ? & _). cbn [readLoop].
  destruct (readRound_is w vm c i o p Hvm Hi Ho) as (rg & Hg & Hr). fold off in Hg, Hr.
  rewrite Hg, Hr.
  set (k := Z.min (len p) (pageSize vm - o)).
  assert (Hsk : len (slice c off (off + k)) = k) by (rewrite len_slice; lia).
  rewrite copy_into_fit by lia.
  replace (length (slice c off (off + k))) with (Z.to_nat k) by (unfold len in Hsk; lia).
  rewrite drop_app_length' by (unfold len in Hsk; lia).
  rewrite take_app_length' by (unfold len in Hsk; lia).
  destruct (Z.eqb_spec (len (drop (Z.to_nat k) p)) 0) as [Hz|Hz]; rewrite len_drop in Hz.
  - rewrite (drop_ge p) by (unfold len in *; lia). rewrite app_nil_r.
    replace k with (len p) by lia. done.
  - assert (Hnext : off + k = (i + 1) * pageSize vm + 0) by lia. rewrite Hnext at 1.
    rewrite (IH (drop (Z.to_nat k) p) (i + 1) 0); try (rewrite ?len_drop; lia); [|done|].
    + f_equal. f_equal. f_equal; [|rewrite len_drop; lia].
      rewrite <- Hnext, len_drop, slice_cat by lia. f_equal. lia.
    + pose proof (ok_total _ Hok). nia.
Qed.

Lemma ReadAt_is w vm c p off :
  vm_is w vm c -> 0 <= off < totalSize vm -> off + len p <= totalSize vm ->
  ReadAt w vm p off = Some (slice c off (off + len p), len p, None).
Proof.
  intros Hvm Hoff Hfit. pose proof (is_ok _ _ _ Hvm) as Hok. pose proof (ok_pageSize _ Hok) as Hps.
  destruct (page_of_offset vm off Hok Hoff) as (i & o & -> & Ho & Hi & _).
  unfold ReadAt, rounds. pose proof (len_nonneg p).
  pose proof (Z.div_mod (len p) (pageSize vm) ltac:(lia)).
  pose proof (Z.mod_pos_bound (len p) (pageSize vm) Hps).
  pose proof (Z.div_pos (len p) (pageSize vm) ltac:(lia) Hps).
  rewrite (readLoop_is w vm c _ p i o 0); [by rewrite Z.add_0_l|done..|nia|lia].
Qed.

(** * Writing refines overwriting *)

Definition setWritePage (vm : VirtualMemory) (i : Z) (b : bytes) : VirtualMemory :=
  vm <| writePages := pt_Set (writePages vm) i (Some (PRegion (RawRegion b))) |>.

Lemma setWritePage_is w vm c i b :
  vm_is w vm c -> 0 <= i < pageTotal vm -> len b = pageSize vm ->
  vm_is w (setWritePage vm i b) (put c (i * pageSize vm) b) /\
  pt_Get (writePages (setWritePage vm i b)) i = Some (PRegion (RawRegion b)).
Proof.
  intros Hvm Hi Hb. pose proof Hvm as [Hok _ _]. pose proof Hok as [Hps Htot Hbd Hp Hw].
  assert (Hget : pt_Get (writePages (setWritePage vm i b)) i = Some (PRegion (RawRegion b))).
  { cbn. by rewrite (pt_get_set _ (pageTotal vm)), decide_True by (done || lia). }
  split; [|done]. apply (vm_is_update w vm); try done.
  - split; cbn; try done. by apply pt_set_ok; [|lia].
  - intros j Hj Hne. cbn. by rewrite (pt_get_set _ (pageTotal vm)), decide_False by (done || lia).
  - unfold pageView. by rewrite Hget.
Qed.

(** [getRegion] for writing returns a private copy of the page. *)
Lemma getRegion_write w vm c i o :
  vm_is w vm c -> 0 <= i < pageTotal vm -> 0 <= o < pageSize vm ->
  exists vm', getRegion w vm (i * pageSize vm + o) true =
      (vm', Ok (Some (PRegion (RawRegion (pageOf (pageSize vm) c i))), o)) /\
    vm_is w vm' c /\ pageSize vm' = pageSize vm /\ totalSize vm' = totalSize vm.
Proof.
  intros Hvm Hi Ho. pose proof Hvm as [Hok Hlen Hview]. pose proof (ok_pageSize _ Hok).
  destruct (page_bounds vm i Hok Hi) as (? & ? & Hu).
  pose proof (vm_is_slice_len _ _ _ _ Hvm Hi) as Hpl.
  unfold getRegion. rewrite Z.quot_div_nonneg, Z.rem_mod_nonneg by lia.
  rewrite Z.add_comm, Z.div_add, Z.mod_add, Z.div_small, Z.mod_small by lia.
  rewrite Z.add_0_l, Hu. destruct (Z.ltb_spec (totalSize vm) (o + i * pageSize vm)); [lia|].
  specialize (Hview i Hi). unfold pageView in Hview.
  destruct (pt_Get (writePages vm) i) as [pg|] eqn:Hw; [subst pg; by eexists|].
  assert (Hcopy : (match pt_Get (pages vm) i with
     | Some pg => let '(p, _, e) := pageReadAt w pg (zeros (pageSize vm)) 0 in (p, e)
     | None => (zeros (pageSize vm), None) end) = (pageOf (pageSize vm) c i, None)).
  { destruct (pt_Get (pages vm) i) as [pg|]; [|by rewrite Hview].
    destruct Hview as (d & Hpg & Hd & ->).
    rewrite (pageReadAt_view w _ _ _ _ _ Hpg) by lia. f_equal. list_ext. }
  rewrite Hcopy.
  destruct (setWritePage_is w vm c i (pageOf (pageSize vm) c i) Hvm Hi Hpl) as [Hvm' Hget].
  exists (setWritePage vm i (pageOf (pageSize vm) c i)). unfold setWritePage in *.
  rewrite Hget. split_and!; [done| |done|done].
  unfold pageOf in Hvm' at 2. rewrite put_slice_same in Hvm' by lia. done.
Qed.

Lemma writeLoop_is w : forall fuel vm c p i o n,
  vm_is w vm c -> 0 <= i < pageTotal vm -> 0 <= o < pageSize vm ->
  let off := i * pageSize vm + o in
  off + len p <= totalSize vm -> o + len p <= Z.of_nat fuel * pageSize vm ->
  (0 < fuel)%nat ->
  exists vm', writeLoop fuel w vm p off n = Some (vm', w, n + len p, None) /\
    vm_is w vm' (put c off p) /\ pageSize vm' = pageSize vm /\ totalSize vm' = totalSize vm.
Proof.
  induction fuel as [|fuel IH]; intros vm c p i o n Hvm Hi Ho off Hfit Hfuel Hpos; [lia|].
  pose proof Hvm as [Hok Hlen _]. pose proof (ok_pageSize _ Hok). pose proof (len_nonneg p).
  destruct (page_bounds vm i Hok Hi) as (? & ? & Hu). cbn [writeLoop].
  destruct (getRegion_write w vm c i o Hvm Hi Ho) as (vm1 & Hg & Hvm1 & Hps1 & Ht1).
  fold off in Hg. rewrite Hg, Hps1. pose proof (vm_is_slice_len _ _ _ _ Hvm Hi) as Hpl.
  set (k := Z.min (len p) (pageSize vm - o)).
  replace ((if len p + o <? pageSize vm then len p + o else pageSize vm) - o) with k
    by (unfold k; destruct (Z.ltb_spec (len p + o) (pageSize vm)); lia).
  cbn [pageWriteAt writeAt]. unfold rawWrite. rewrite boundsCheck_in by lia. cbn [fst snd].
  assert (Hq : Z.quot off (pageSize vm) = i).
  { unfold off. rewrite Z.quot_div_nonneg, Z.add_comm, Z.div_add, Z.div_small by lia. lia. }
  rewrite Hq, Hu. assert (Hn1 : pageTotal vm1 = pageTotal vm) by (unfold pageTotal; congruence).
  destruct (setWritePage_is w vm1 c i (put (pageOf (pageSize vm) c i) o (take (Z.to_nat k) p)) Hvm1)
    as [Hvm2 _]; [lia|rewrite len_put; lia|].
  rewrite Hps1 in Hvm2. fold (setWritePage vm1 i (put (pageOf (pageSize vm) c i) o (take (Z.to_nat k) p))).
  set (vm2 := setWritePage vm1 i _) in *.
  assert (Hput : put c (i * pageSize vm) (put (pageOf (pageSize vm) c i) o (take (Z.to_nat k) p))
                 = put c off (take (Z.to_nat k) p)).
  { unfold pageOf. apply put_slice_put; try lia. list_len. lia. }
  rewrite Hput in Hvm2.
  replace (Z.min (len (take (Z.to_nat k) p)) (len (pageOf (pageSize vm) c i) - o)) with k
    by (unfold k; list_len; lia).
  destruct (Z.eqb_spec (len (drop (Z.to_nat k) p)) 0) as [Hz|Hz]; rewrite len_drop in Hz.
  - exists vm2. split_and!; [by replace k with (len p) by lia| |done|done].
    rewrite take_ge in Hvm2 by (unfold len in *; lia). done.
  - assert (Hnext : off + k = (i + 1) * pageSize vm2 + 0) by (cbn; rewrite Hps1; lia).
    rewrite Hnext.
    destruct (IH vm2 _ (drop (Z.to_nat k) p) (i + 1) 0 (n + k) Hvm2) as (vm3 & -> & Hvm3 & ? & ?);
      try (change (pageTotal vm2) with (pageTotal vm1); change (pageSize vm2) with (pageSize vm1);
           change (totalSize vm2) with (totalSize vm1); rewrite ?Hps1, ?Hn1, ?Ht1, ?len_drop; lia || nia).
    + change (pageTotal vm2) with (pageTotal vm1). rewrite Hn1. pose proof (ok_total _ Hok). nia.
    + exists vm3. split_and!; [do 3 f_equal; rewrite len_drop; lia| |cbn in *; congruence..].
      rewrite <- Hnext in Hvm3.
      replace (off + k) with (off + len (take (Z.to_nat k) p)) in Hvm3 by (list_len; lia).
      rewrite put_app, take_drop in Hvm3 by (list_len; lia). done.
Qed.

Lemma WriteAt_is w vm c p off :
  vm_is w vm c -> 0 <= off < totalSize vm -> off + len p <= totalSize vm ->
  exists vm', WriteAt w vm p off = Some (vm', w, len p, None) /\ vm_is w vm' (put c off p) /\
    pageSize vm' = pageSize vm /\ totalSize vm' = totalSize vm.
Proof.
  intros Hvm Hoff Hfit. pose proof (is_ok _ _ _ Hvm) as Hok. pose proof (ok_pageSize _ Hok) as Hps.
  destruct (page_of_offset vm off Hok Hoff) as (i & o & -> & Ho & Hi & _).
  unfold WriteAt, rounds. pose proof (len_nonneg p).
  pose proof (Z.div_mod (len p) (pageSize vm) ltac:(lia)).
  pose proof (Z.mod_pos_bound (len p) (pageSize vm) Hps).
  pose proof (Z.div_pos (len p) (pageSize vm) ltac:(lia) Hps).
  apply (writeLoop_is w _ vm c p i o 0); [done..|nia|lia].
Qed.

(** * The image file *)

(** The contents of the file; [WriteAt] within it stores the bytes and reports
    their number, as [io.WriterAt] documents. *)
Context (fileBytes : F -> bytes).

Definition writer_law : Prop :=
  forall f p off, 0 <= off -> off + len p <= len (fileBytes f) ->
    exists f', fhWrite f p off = (f', len p, None) /\ fileBytes f' = put (fileBytes f) off p.

(** The batch [b] stands for the file contents [E]: the file with the pending
    pages written. *)
Record batch_is (vm : VirtualMemory) (b : batch) (E : bytes) : Prop := {
  b_file : len (fileBytes (fh b)) = totalSize vm;
  b_count : 0 <= batchPageCount b;
  b_start : 0 <= batchStartOffset b;
  b_fit : batchPageCount b * pageSize vm <= len (batchBuf b);
  b_inside : batchStartOffset b + batchPageCount b * pageSize vm <= totalSize vm \/ batchPageCount b = 0;
  b_last : batchPageCount b = 0 \/
    (0 <= lastPageIndex b < pageTotal vm /\
     batchStartOffset b + batchPageCount b * pageSize vm = (lastPageIndex b + 1) * pageSize vm);
  b_bytes : put (fileBytes (fh b)) (batchStartOffset b)
              (take (Z.to_nat (batchPageCount b * pageSize vm)) (batchBuf b)) = E;
}.

Lemma flushBatch_is vm b E :
  writer_law -> 0 < pageSize vm -> batch_is vm b E ->
  exists f n, flushBatch vm b =
    (mkBatch f n (batchBuf b) (batchStartOffset b) 0 (lastPageIndex b), None) /\ fileBytes f = E.
Proof.
  intros Hlaw Hps [Hfile Hcnt Hst Hfit Hin Hlast Hbytes]. unfold flushBatch.
  destruct (Z.eqb_spec (batchPageCount b) 0) as [Hz|Hz].
  - exists (fh b), (written b). split; [destruct b; cbn in *; by subst|].
    rewrite <- Hbytes, Hz. by rewrite take_0, put_nil.
  - destruct (Hlaw (fh b) (take (Z.to_nat (batchPageCount b * pageSize vm)) (batchBuf b))
                (batchStartOffset b)) as (f & -> & Hf); [done|list_len; nia|].
    eexists f, _. split; [reflexivity|]. by rewrite Hf.
Qed.

(** The buffer holds at least one page, and a batch that is not full has room. *)
Lemma batch_room vm b :
  0 < pageSize vm -> pageSize vm <= len (batchBuf b) -> 0 <= batchPageCount b ->
  batchPageCount b < maxPagesPerBatch vm b ->
  batchPageCount b * pageSize vm + pageSize vm <= len (batchBuf b).
Proof.
  intros Hps Hbuf Hc. unfold maxPagesPerBatch.
  pose proof (Z.div_mod (len (batchBuf b)) (pageSize vm) ltac:(lia)).
  pose proof (Z.mod_pos_bound (len (batchBuf b)) (pageSize vm) Hps).
  destruct (Z.eqb_spec (len (batchBuf b) / pageSize vm) 0); nia.
Qed.

(** Reading a page into the batch, once there is room for it at its place. *)
Lemma appendPage_is w vm b E i pg d :
  vm_ok vm -> batch_is vm b E -> 0 <= i < pageTotal vm ->
  batchStartOffset b + batchPageCount b * pageSize vm = i * pageSize vm ->
  batchPageCount b * pageSize vm + pageSize vm <= len (batchBuf b) ->
  page_is w (pageSize vm) pg d -> pageSize vm <= len d ->
  let q := take (Z.to_nat (pageSize vm)) d in
  pageReadAt w pg (slice (batchBuf b) (batchPageCount b * pageSize vm)
                     (batchPageCount b * pageSize vm + pageSize vm)) 0 = (q, pageSize vm, None) /\
  batch_is vm (mkBatch (fh b) (written b) (put (batchBuf b) (batchPageCount b * pageSize vm) q)
                 (batchStartOffset b) (batchPageCount b + 1) i)
    (put E (i * pageSize vm) q).
Proof.
  intros Hok [Hfile Hcnt Hst Hfit Hin Hlast Hbytes] Hi Hat Hroom Hpg Hd q.
  pose proof (ok_pageSize _ Hok) as Hps. pose proof (ok_bound _ Hok).
  destruct (page_bounds vm i Hok Hi) as (? & ? & _).
  assert (Hc0 : 0 <= batchPageCount b * pageSize vm) by nia.
  set (k := batchPageCount b * pageSize vm) in *.
  assert (Hsl : len (slice (batchBuf b) k (k + pageSize vm)) = pageSize vm) by (rewrite len_slice; lia).
  split.
  - rewrite (pageReadAt_view w _ _ _ _ _ Hpg) by lia. rewrite Hsl, drop_0.
    do 2 f_equal; [|lia]. unfold q. generalize dependent (slice (batchBuf b) k (k + pageSize vm)).
    intros s Hs. list_ext.
  - assert (Hk1 : (batchPageCount b + 1) * pageSize vm = k + pageSize vm) by (unfold k; ring).
    assert (Hql : len q = pageSize vm) by (unfold q; list_len; lia).
    split; cbn; try done; rewrite ?Hk1, ?len_put; try lia.
    + rewrite <- Hbytes, <- Hat, <- Hql.
      replace k with (len (take (Z.to_nat k) (batchBuf b))) at 4 by (list_len; lia).
      rewrite put_app; [|lia|list_len; lia]. f_equal. rewrite Hql.
      clear -Hc0 Hroom Hql Hps. list_ext.
Qed.

(** Nothing is pending only before the first page. *)
Definition fresh (b : batch) : Prop := batchPageCount b = 0 -> lastPageIndex b = 2 ^ 64 - 1.

Lemma startBatch_is vm b E i :
  writer_law -> vm_ok vm -> batch_is vm b E -> fresh b -> 0 <= i < pageTotal vm ->
  pageSize vm <= len (batchBuf b) ->
  exists b1, startBatch vm b i = (b1, None) /\ batch_is vm b1 E /\ batchBuf b1 = batchBuf b /\
    batchStartOffset b1 + batchPageCount b1 * pageSize vm = i * pageSize vm /\
    batchPageCount b1 * pageSize vm + pageSize vm <= len (batchBuf b1).
Proof.
  intros Hlaw Hok Hb Hfr Hi Hbuf. pose proof (ok_pageSize _ Hok) as Hps.
  destruct (page_bounds vm i Hok Hi) as (? & ? & Hu). pose proof (ok_bound _ Hok) as Hbd.
  unfold startBatch.
  destruct (negb (lastPageIndex b =? 2 ^ 64 - 1) && (i =? u64 (lastPageIndex b + 1))) eqn:Hcons;
    [destruct (Z.leb_spec (maxPagesPerBatch vm b) (batchPageCount b)) as [Hfull|Hroom]|];
    cbn [negb orb].
  2: { exists b. apply andb_prop in Hcons as [Hne Heq]. unfold fresh in Hfr.
       destruct (b_last _ _ _ Hb) as [Hz|[Hl Hat]]; [rewrite (Hfr Hz) in Hne; done|].
       assert (pageTotal vm <= totalSize vm) by (pose proof (ok_total _ Hok); nia).
       rewrite wrap_small in Heq by width.
       assert (i = lastPageIndex b + 1) as -> by lia.
       split_and!; try done. apply batch_room; try done. apply Hb. }
  all: destruct (flushBatch_is vm b E Hlaw Hps Hb) as (f & n & -> & Hf);
    eexists; split; [reflexivity|]; cbn; split_and!; try lia; try done;
    pose proof (f_equal len (b_bytes _ _ _ Hb)) as Hl; rewrite len_put, (b_file _ _ _ Hb) in Hl;
    split; cbn; try lia; [by rewrite Hf|by rewrite take_0, put_nil].
Qed.

Lemma writePage_is w vm b E i pg d :
  writer_law -> vm_ok vm -> batch_is vm b E -> fresh b -> 0 <= i < pageTotal vm ->
  pageSize vm <= len (batchBuf b) -> page_is w (pageSize vm) pg d -> pageSize vm <= len d ->
  exists b', writePage w vm b i pg = (b', Ok ()) /\ len (batchBuf b') = len (batchBuf b) /\
    fresh b' /\ batch_is vm b' (put E (i * pageSize vm) (take (Z.to_nat (pageSize vm)) d)).
Proof.
  intros Hlaw Hok Hb Hfr Hi Hbuf Hpg Hd.
  destruct (startBatch_is vm b E i Hlaw Hok Hb Hfr Hi Hbuf) as (b1 & Hs & Hb1 & Hbb & Hat & Hroom).
  unfold writePage. rewrite Hs.
  destruct (Z.ltb_spec (len (batchBuf b1)) (batchPageCount b1 * pageSize vm + pageSize vm)); [lia|].
  destruct (appendPage_is w vm b1 E i pg d Hok Hb1 Hi Hat Hroom Hpg Hd) as [Hr Hb2].
  rewrite Hr, Z.eqb_refl. cbn [negb fh written batchBuf batchStartOffset batchPageCount lastPageIndex].
  eexists. split; [reflexivity|]. cbn. rewrite len_put, Hbb. split_and!; [done| |by rewrite Hbb in Hb2].
  intros Hz. cbn in Hz. pose proof (b_count _ _ _ Hb1). lia.
Qed.

(** The effect of writing all pages of a list. *)
Definition overwrite (vm : VirtualMemory) (view : Z -> bytes) (E : bytes) (l : list (Z * page)) : bytes :=
  foldl (fun E kv => put E (kv.1 * pageSize vm) (view kv.1)) E l.

Lemma writeMapped_is w vm view l : forall b E,
  writer_law -> vm_ok vm -> batch_is vm b E -> fresh b -> pageSize vm <= len (batchBuf b) ->
  (forall i pg, (i, pg) ∈ l -> 0 <= i < pageTotal vm /\
     exists d, page_is w (pageSize vm) pg d /\ pageSize vm <= len d /\
       view i = take (Z.to_nat (pageSize vm)) d) ->
  exists b', writeMapped w vm b l = (b', Ok ()) /\ fileBytes (fh b') = overwrite vm view E l.
Proof.
  induction l as [|[i pg] l IH]; intros b E Hlaw Hok Hb Hfr Hbuf Hl; cbn [writeMapped].
  - destruct (flushBatch_is vm b E Hlaw (ok_pageSize _ Hok) Hb) as (f & n & -> & Hf).
    eexists. split; [reflexivity|]. done.
  - destruct (Hl i pg) as (Hi & d & Hpg & Hd & Hv); [set_solver|].
    destruct (writePage_is w vm b E i pg d) as (b' & -> & Hlen & Hfr' & Hb'); try done.
    rewrite <- Hv in Hb'.
    destruct (IH b' (put E (i * pageSize vm) (view i))) as (b'' & Hrun & Hfile); try done; [lia| |].
    + intros j pg' Hj. apply Hl. set_solver.
    + exists b''. rewrite Hrun, Hfile. done.
Qed.

(** * All mapped pages *)

Lemma addPages_lookup l : forall m i v,
  NoDup l.*1 ->
  addPages m l !! i = Some v <-> (i, v) ∈ l \/ ((i ∉ l.*1) /\ m !! i = Some v).
Proof.
  unfold addPages. induction l as [|[k x] l IH]; intros m i v Hnd; cbn.
  - set_solver.
  - apply NoDup_cons in Hnd as [Hk Hnd]. rewrite (IH _ i v Hnd).
    rewrite elem_of_cons, not_elem_of_cons. destruct (decide (i = k)) as [->|Hne].
    + rewrite lookup_insert_eq. split.
      * intros [Hin|[_ Heq]]; [|simplify_eq; by left; left].
        exfalso. apply Hk. apply list_elem_of_fmap. by exists (k, v).
      * intros [[Heq|Hin]|[[] _]]; [simplify_eq; by right|by left|done].
    + rewrite lookup_insert_ne by done. split; [|naive_solver]. naive_solver.
Qed.

Lemma forEach_nodup t n : pt_ok t n -> NoDup (pt_ForEach t).*1.
Proof.
  intros Hok. pose proof (pt_forEach_sorted t n Hok) as Hs.
  induction Hs as [|x l Hs IH Hx]; [constructor|]. constructor; [|done].
  intros Hin. rewrite Forall_forall in Hx. specialize (Hx x Hin). lia.
Qed.

Lemma mappedPages_elem vm i pg :
  vm_ok vm ->
  (i, pg) ∈ mappedPages vm <->
  0 <= i < pageTotal vm /\
  (pt_Get (writePages vm) i = Some pg \/
   pt_Get (writePages vm) i = None /\ pt_Get (pages vm) i = Some pg).
Proof.
  intros [_ _ _ Hp Hw]. unfold mappedPages.
  rewrite (merge_sort_Permutation indexLe), elem_of_map_to_list.
  rewrite addPages_lookup by (by eapply forEach_nodup).
  rewrite addPages_lookup by (by eapply forEach_nodup). rewrite lookup_empty.
  rewrite (pt_forEach_get _ _ _ _ Hw), (pt_forEach_get _ _ _ _ Hp).
  split.
  - intros [[Hi Hg]|[Hni [[Hi Hg]|[_ Hn]]]]; [split; [done|by left]| |done].
    split; [done|right; split; [|done]].
    destruct (pt_Get (writePages vm) i) as [pg'|] eqn:Hgw; [|done].
    exfalso. apply Hni, list_elem_of_fmap. exists (i, pg'). split; [done|].
    by apply (pt_forEach_get _ _ _ _ Hw).
  - intros [Hi [Hg|[Hn Hg]]]; [by left|right]. split; [|by left].
    intros Hin. apply list_elem_of_fmap in Hin as ([i' pg'] & Heq & Hin). cbn in Heq. subst i'.
    apply (pt_forEach_get _ _ _ _ Hw) in Hin as [_ Hin]. congruence.
Qed.

(** Two byte strings of the memory's size are equal when their pages are. *)
Lemma pages_eq vm c d :
  vm_ok vm -> len c = totalSize vm -> len d = totalSize vm ->
  (forall i, 0 <= i < pageTotal vm -> pageOf (pageSize vm) c i = pageOf (pageSize vm) d i) -> c = d.
Proof.
  intros Hok Hc Hd Hpages. apply list_eq. intros k. pose proof (ok_pageSize _ Hok) as Hps.
  destruct (decide (Z.of_nat k < totalSize vm)).
  2: { rewrite !lookup_ge_None_2 by (unfold len in *; lia). done. }
  destruct (page_of_offset vm (Z.of_nat k) Hok) as (i & o & Hk & Ho & Hi & _); [lia|].
  pose proof (f_equal (lookup (Z.to_nat o)) (Hpages i Hi)) as Heq.
  destruct (page_bounds vm i Hok Hi) as (? & ? & _).
  unfold pageOf in Heq. rewrite !lookup_slice, !decide_True in Heq by lia.
  replace (Z.to_nat (i * pageSize vm) + Z.to_nat o)%nat with k in Heq by lia. done.
Qed.

Lemma overwrite_pageOf vm c l : forall E i,
  vm_ok vm -> len c = totalSize vm -> len E = totalSize vm -> 0 <= i < pageTotal vm ->
  (forall j pg, (j, pg) ∈ l -> 0 <= j < pageTotal vm) ->
  len (overwrite vm (pageOf (pageSize vm) c) E l) = totalSize vm /\
  pageOf (pageSize vm) (overwrite vm (pageOf (pageSize vm) c) E l) i =
    if decide (i ∈ l.*1) then pageOf (pageSize vm) c i else pageOf (pageSize vm) E i.
Proof.
  unfold overwrite. induction l as [|[j pg] l IH]; intros E i Hok Hc HE Hi Hl; cbn.
  - by rewrite decide_False by set_solver.
  - destruct (Hl j pg) as [Hj1 Hj2]; [set_solver|]. pose proof (ok_pageSize _ Hok) as Hps.
    destruct (page_bounds vm j Hok ltac:(done)) as (? & ? & _).
    assert (Hlp : len (pageOf (pageSize vm) c j) = pageSize vm)
      by (unfold pageOf; rewrite len_slice; lia).
    destruct (IH (put E (j * pageSize vm) (pageOf (pageSize vm) c j)) i) as [Hlen Hpage];
      [done|done|by rewrite len_put|done|intros j' pg' Hin; apply (Hl j' pg'); set_solver|].
    split; [done|]. rewrite Hpage, pageOf_put by lia.
    repeat case_decide; subst; set_solver.
Qed.

Lemma mappedPages_view w vm c i pg :
  vm_is w vm c -> (i, pg) ∈ mappedPages vm ->
  0 <= i < pageTotal vm /\
  exists d, page_is w (pageSize vm) pg d /\ pageSize vm <= len d /\
    pageOf (pageSize vm) c i = take (Z.to_nat (pageSize vm)) d.
Proof.
  intros Hvm Hin. pose proof Hvm as [Hok Hlen Hview].
  apply (mappedPages_elem vm i pg Hok) in Hin as [Hi Hg]. split; [done|].
  pose proof (vm_is_slice_len _ _ _ _ Hvm Hi) as Hpl. specialize (Hview i Hi). unfold pageView in Hview.
  destruct Hg as [Hg|[Hgn Hg]]; [rewrite Hg in Hview|rewrite Hgn, Hg in Hview; done].
  subst pg. exists (pageOf (pageSize vm) c i). split_and!; [constructor|lia|].
  symmetry. apply take_ge. unfold len in Hpl. lia.
Qed.

Lemma overwrite_all w vm c :
  vm_is w vm c ->
  overwrite vm (pageOf (pageSize vm) c) (zeros (totalSize vm)) (mappedPages vm) = c.
Proof.
  intros Hvm. pose proof Hvm as [Hok Hlen Hview]. pose proof Hok as [Hps Htot Hbd Hp Hw].
  assert (Hz : len (zeros (totalSize vm)) = totalSize vm) by (apply len_zeros; lia).
  assert (Hb : forall j pg, (j, pg) ∈ mappedPages vm -> 0 <= j < pageTotal vm)
    by (intros j pg Hj; by apply (mappedPages_view w vm c j pg)).
  destruct (decide (pageTotal vm = 0)) as [H0|H0].
  { rewrite H0 in Htot. rewrite (len_0_nil c) by lia.
    destruct (mappedPages vm) as [|[j pg] l]; [by rewrite Htot|].
    specialize (Hb j pg ltac:(set_solver)). lia. }
  pose proof (overwrite_pageOf vm c (mappedPages vm) (zeros (totalSize vm))) as Hover.
  apply (pages_eq vm); [done|apply (Hover 0); done || nia|done|].
  intros i Hi. destruct (Hover i Hok Hlen Hz Hi Hb) as [_ ->]. case_decide as Hin; [done|].
  specialize (Hview i Hi). unfold pageView in Hview.
  destruct (page_bounds vm i Hok Hi) as (? & ? & _).
  assert (Hnone : pt_Get (writePages vm) i = None /\ pt_Get (pages vm) i = None).
  { destruct (pt_Get (writePages vm) i) as [pg|] eqn:Hgw; [|destruct (pt_Get (pages vm) i) as [pg|] eqn:Hgp; [|done]];
      exfalso; apply Hin, list_elem_of_fmap; exists (i, pg); (split; [done|]);
      apply mappedPages_elem; auto. }
  destruct Hnone as [Hn1 Hn2]. rewrite Hn1, Hn2 in Hview. rewrite Hview. unfold pageOf. list_ext.
Qed.

Lemma WriteSparseTo_is w vm c buf f :
  writer_law -> vm_is w vm c -> pageSize vm <= len buf -> fileBytes f = zeros (totalSize vm) ->
  exists f' n, WriteSparseTo w vm buf f = (f', n, Ok ()) /\ fileBytes f' = c.
Proof.
  intros Hlaw Hvm Hbuf Hf. pose proof Hvm as [Hok Hlen Hview]. pose proof Hok as [Hps Htot Hbd Hp Hw].
  assert (Hz : len (zeros (totalSize vm)) = totalSize vm) by (apply len_zeros; lia).
  unfold WriteSparseTo. destruct (pt_Unallocated (pages vm) && pt_Unallocated (writePages vm)) eqn:Hun.
  - apply andb_prop in Hun as [Hu1 Hu2]. exists f, 0. split; [done|].
    rewrite Hf, <- (overwrite_all w vm c Hvm). unfold mappedPages.
    by rewrite (pt_unallocated _ Hu1), (pt_unallocated _ Hu2).
  - destruct (writeMapped_is w vm (pageOf (pageSize vm) c) (mappedPages vm)
      (mkBatch f 0 buf 0 0 (2 ^ 64 - 1)) (zeros (totalSize vm))) as (b' & -> & Hfile); try done.
    + split; cbn; try lia; [by rewrite Hf|by rewrite take_0, put_nil].
    + intros i pg Hin. by apply mappedPages_view.
    + exists (fh b'), (written b'). split; [done|]. by rewrite Hfile, (overwrite_all w).
Qed.

Lemma Reset_is w vm c : vm_is w vm c -> vm_is w (Reset_ vm) (zeros (totalSize vm)).
Proof.
  intros [Hok Hlen Hview]. pose proof Hok as [Hps Htot Hb Hp Hw].
  split; [split; cbn; try done; by apply pt_clear_ok|cbn; rewrite len_zeros; lia|].
  intros i Hi. destruct (page_bounds vm i Hok Hi) as (? & ? & _).
  unfold pageView, Reset_; cbn. rewrite !pt_get_clear. unfold pageOf. list_ext.
Qed.

End virtualMemory.

Arguments page : clear implicits.
Arguments VirtualMemory : clear implicits.

(** * A memory over the two-level page table *)

Section images.
Context {W : Type}.
Abbreviation Memory := (VirtualMemory (MultiLevelPageTable (page W))).

Definition NewVirtualMemory (totalSize pageSize : Z) : result unit Memory :=
  if pageSize =? 0 then Panic
  else if negb (Z.rem totalSize pageSize =? 0) then Panic
  else
    let totalPages := u64 (Z.quot totalSize pageSize) in
    Ok (mkVM pageSize (NewMultiLevelPageTable totalPages) (NewMultiLevelPageTable totalPages)
          totalSize 0 0 0).

Lemma NewVirtualMemory_is w total ps vm :
  0 <= total < 2 ^ 63 -> 0 < ps -> NewVirtualMemory total ps = Ok vm ->
  vm_is w vm (zeros total) /\ totalSize vm = total /\ pageSize vm = ps.
Proof.
  intros Ht Hps Hnew. unfold NewVirtualMemory in Hnew.
  destruct (Z.eqb_spec ps 0); [lia|].
  destruct (Z.eqb_spec (Z.rem total ps) 0) as [Hz|]; [|done]. injection Hnew as <-.
  assert (Hq : total = Z.quot total ps * ps) by (pose proof (Z.quot_rem total ps); lia).
  assert (Hd : total / ps = Z.quot total ps) by (rewrite Z.quot_div_nonneg; lia).
  assert (Hu : u64 (Z.quot total ps) = total / ps).
  { rewrite Hd. apply wrap_small. width. }
  rewrite Hu. split; [|done]. split.
  - split; cbn; unfold pageTotal; cbn; try lia; apply NewMultiLevelPageTable_ok.
  - rewrite len_zeros by lia. done.
  - intros i Hi. unfold pageTotal in Hi; cbn in Hi. unfold pageView; cbn.
    assert (Hg : Get (NewMultiLevelPageTable (V := page W) (total / ps)) i = None)
      by (unfold Get; cbn; by case_match).
    rewrite Hg. unfold pageOf. assert (0 <= i * ps /\ i * ps + ps <= total) as [? ?] by nia.
    list_ext.
Qed.

(** The operations an image writer performs. *)
Inductive vmOp :=
| OpMap (r : region W) (off : Z)
| OpMapSlice (r : region W) (src n dst : Z)
| OpWrite (p : bytes) (off : Z)
| OpReset.

Definition runOp (w : W) (vm : Memory) (op : vmOp) : option Memory :=
  match op with
  | OpMap r off => match Map w vm (Some r) off with Some (vm, None) => Some vm | _ => None end
  | OpMapSlice r src n dst =>
      match MapSlice w vm r src n dst with Some (vm, None) => Some vm | _ => None end
  | OpWrite p off => match WriteAt w vm p off with Some (vm, _, _, None) => Some vm | _ => None end
  | OpReset => Some (Reset_ vm)
  end.

Fixpoint runOps (w : W) (vm : Memory) (ops : list vmOp) : option Memory :=
  match ops with
  | [] => Some vm
  | op :: ops => match runOp w vm op with Some vm => runOps w vm ops | None => None end
  end.

(** The same operations on a flat byte string. *)
Inductive flatOp (w : W) : vmOp -> bytes -> bytes -> Prop :=
| flat_map r d off c :
    region_is w r d -> 0 <= off -> off + len d <= len c ->
    flatOp w (OpMap r off) c (put c off d)
| flat_mapSlice r d src n dst c :
    region_is w r d -> 0 <= src -> 0 <= n -> src + n <= len d -> 0 <= dst -> dst + n <= len c ->
    flatOp w (OpMapSlice r src n dst) c (put c dst (slice d src (src + n)))
| flat_write p off c :
    0 <= off < len c -> off + len p <= len c -> flatOp w (OpWrite p off) c (put c off p)
| flat_reset c : flatOp w OpReset c (zeros (len c)).

Inductive flatOps (w : W) : list vmOp -> bytes -> bytes -> Prop :=
| flat_done c : flatOps w [] c c
| flat_step op ops c c1 c2 : flatOp w op c c1 -> flatOps w ops c1 c2 -> flatOps w (op :: ops) c c2.

Lemma MapSlice_is w (vm : Memory) c r d src n dst :
  vm_is w vm c -> region_is w r d -> 0 <= src -> 0 <= n -> src + n <= len d ->
  0 <= dst -> dst + n <= totalSize vm ->
  exists vm', MapSlice w vm r src n dst = Some (vm', None) /\
    vm_is w vm' (put c dst (slice d src (src + n))) /\
    pageSize vm' = pageSize vm /\ totalSize vm' = totalSize vm.
Proof.
  intros Hvm Hr Hsrc Hn Hfit Hdst Hd. unfold MapSlice. rewrite (region_size w r d Hr).
  destruct (Z.eqb_spec src 0) as [->|]; [destruct (Z.eqb_spec n (len d)) as [->|]|]; cbn [andb].
  1: rewrite Z.add_0_l, slice_full; apply Map_is; done.
  all: apply Map_is; [done|by constructor|done|rewrite len_slice; lia].
Qed.

Lemma runOp_is w vm op c c' :
  vm_is w vm c -> flatOp w op c c' ->
  exists vm', runOp w vm op = Some vm' /\ vm_is w vm' c' /\
    pageSize vm' = pageSize vm /\ totalSize vm' = totalSize vm.
Proof.
  intros Hvm Hop. pose proof (is_len _ _ _ Hvm) as Hlen. destruct Hop; cbn [runOp]; rewrite Hlen in *.
  - destruct (Map_is w vm c r d off) as (vm' & -> & ? & ? & ?); eauto.
  - destruct (MapSlice_is w vm c r d src n dst) as (vm' & -> & ? & ? & ?); eauto.
  - destruct (WriteAt_is w vm c p off) as (vm' & -> & ? & ? & ?); eauto.
  - exists (Reset_ vm). split_and!; try done. by apply Reset_is with c.
Qed.

Lemma runOps_is w ops : forall vm c c',
  vm_is w vm c -> flatOps w ops c c' ->
  exists vm', runOps w vm ops = Some vm' /\ vm_is w vm' c' /\
    pageSize vm' = pageSize vm /\ totalSize vm' = totalSize vm.
Proof.
  induction ops as [|op ops IH]; intros vm c c' Hvm Hflat;
    inversion Hflat as [|? ? ? c1 ? Hop Hops]; subst; cbn [runOps]; [by exists vm|].
  destruct (runOp_is w vm op c c1 Hvm Hop) as (vm1 & -> & Hvm1 & Hp1 & Ht1).
  destruct (IH vm1 c1 c' Hvm1 Hops) as (vm2 & -> & ? & ? & ?). exists vm2.
  split_and!; try done; congruence.
Qed.

End images.

(** * Properties *)

(** C1: A new memory, after any sequence of mappings, slice mappings, writes and
    resets that stay within it, reads as the flat byte string that starts as
    zeros and undergoes the same overwrites: later operations win, bytes never
    written read as zero, and every access returns. *)
Theorem memory_refines_flat {W} (w : W) total ps vm ops c :
  0 <= total < 2 ^ 63 -> 0 < ps -> NewVirtualMemory total ps = Ok vm ->
  flatOps w ops (zeros total) c ->
  exists vm', runOps w vm ops = Some vm' /\
    forall p off, 0 <= off < total -> off + len p <= total ->
      ReadAt w vm' p off = Some (slice c off (off + len p), len p, None).
Proof.
  intros Ht Hps Hnew Hflat.
  destruct (NewVirtualMemory_is w total ps vm Ht Hps Hnew) as (Hvm & Htot & Hp).
  destruct (runOps_is w ops vm _ c Hvm Hflat) as (vm' & Hrun & Hvm' & _ & Ht').
  exists vm'. split; [done|]. intros p off Hoff Hfit. apply ReadAt_is; [done|lia..].
Qed.

(** An image of two pages of four bytes: a mapping across the page boundary, a
    write over part of it, and a slice of another region over the rest. *)
Definition exampleOps : list (@vmOp unit) :=
  [OpMap (RawRegion [1; 2; 3; 4; 5]) 2; OpWrite [9; 9] 3; OpMapSlice (RawRegion [7; 8; 6]) 1 2 6].

Lemma exampleOps_flat :
  flatOps () exampleOps (zeros 8) [0; 0; 1; 9; 9; 4; 8; 6].
Proof.
  eapply flat_step; [eapply flat_map; [constructor|by vm_compute..]|].
  eapply flat_step; [eapply flat_write; by vm_compute|].
  eapply flat_step; [eapply flat_mapSlice; [constructor|by vm_compute..]|].
  apply flat_done.
Qed.

Lemma memory_refines_flat_witness :
  exists vm vm', NewVirtualMemory (W := unit) 8 4 = Ok vm /\ runOps () vm exampleOps = Some vm' /\
    forall p off, 0 <= off < 8 -> off + len p <= 8 ->
      ReadAt () vm' p off = Some (slice [0; 0; 1; 9; 9; 4; 8; 6] off (off + len p), len p, None).
Proof.
  eexists. destruct (memory_refines_flat () 8 4 _ exampleOps [0; 0; 1; 9; 9; 4; 8; 6]
    ltac:(lia) ltac:(lia) eq_refl exampleOps_flat) as (vm' & Hrun & Hread).
  exists vm'. split; [reflexivity|]. split; [exact Hrun|exact Hread].
Defined.

(** Writing the memory sparsely to a file of the same size that starts as
    zeros leaves exactly the bytes of the memory in the file, whatever the
    content of the pooled buffer and however the pages fall into batches. *)
Theorem sparse_image_exact {W F} (w : W) (fhWrite : F -> bytes -> Z -> F * Z * option ioError)
    (fileBytes : F -> bytes) total ps vm vm' ops c buf f :
  writer_law fhWrite fileBytes ->
  0 <= total < 2 ^ 63 -> 0 < ps -> NewVirtualMemory total ps = Ok vm ->
  flatOps w ops (zeros total) c -> runOps w vm ops = Some vm' ->
  ps <= len buf -> fileBytes f = zeros total ->
  exists f' n, WriteSparseTo fhWrite w vm' buf f = (f', n, Ok ()) /\ fileBytes f' = c.
Proof.
  intros Hlaw Ht Hps Hnew Hflat Hrun Hbuf Hf.
  destruct (NewVirtualMemory_is w total ps vm Ht Hps Hnew) as (Hvm & Htot & Hp).
  destruct (runOps_is w ops vm _ c Hvm Hflat) as (vm2 & Hrun2 & Hvm' & Hp' & Ht').
  assert (vm2 = vm') as -> by congruence.
  eapply WriteSparseTo_is; [done..|lia|congruence].
Qed.

(** A file kept as its bytes. *)
Definition flatFile (f p : bytes) (off : Z) : bytes * Z * option ioError :=
  (put f off p, len p, None).

Definition exampleMemory : VirtualMemory (MultiLevelPageTable (page unit)) :=
  mkVM 4 (NewMultiLevelPageTable 2) (NewMultiLevelPageTable 2) 8 0 0 0.

Lemma sparse_image_exact_witness :
  exists vm' f n, runOps () exampleMemory exampleOps = Some vm' /\
    WriteSparseTo flatFile () vm' (zeros 4) (zeros 8) = (f, n, Ok ()) /\
    f = [0; 0; 1; 9; 9; 4; 8; 6].
Proof.
  assert (Hex : exists vm', runOps () exampleMemory exampleOps = Some vm')
    by (eexists; vm_compute; reflexivity).
  destruct Hex as [vm' Hrun].
  destruct (sparse_image_exact () flatFile (fun f => f) 8 4 exampleMemory vm' exampleOps
    [0; 0; 1; 9; 9; 4; 8; 6] (zeros 4) (zeros 8)) as (f & n & Hw & Hc);
    [intros g p off _ _; exists (put g off p); split; reflexivity|lia|lia|vm_compute; reflexivity
    |apply exampleOps_flat|exact Hrun|vm_compute; discriminate|reflexivity|].
  exists vm', f, n. split; [exact Hrun|]. split; [exact Hw|exact Hc].
Defined.

(** A mapping that does not fit in the memory, or has a negative offset, is
    refused and leaves pages and contents alone. *)
Theorem map_out_of_range {W} (w : W) (vm : VirtualMemory (MultiLevelPageTable (page W))) r off :
  off < 0 \/ totalSize vm - off < size w r \/ size w r < 0 ->
  exists vm', Map w vm (Some r) off = Some (vm', Some ExceedsSize) /\
    pages vm' = pages vm /\ writePages vm' = writePages vm.
Proof.
  intros Hbad. unfold Map.
  exists (mkVM (pageSize vm) (pages vm) (writePages vm) (totalSize vm) (totalMaps vm + 1)
            (totalMapRegions vm) (totalMapFragments vm)).
  split; [|split; reflexivity].
  match goal with |- (if ?b then _ else _) = _ => replace b with true end; [reflexivity|].
  cbn. destruct (Z.ltb_spec off 0), (Z.ltb_spec (size w r) 0), (Z.ltb_spec (totalSize vm) off),
    (Z.ltb_spec (totalSize vm - off) (size w r)); try reflexivity; lia.
Qed.

(** A read that starts exactly at the end of the memory and asks for at most
    a page delivers zeros and reports success instead of io.EOF. *)
Theorem read_at_end_succeeds {W} (w : W) total ps vm ops c vm' p :
  0 <= total < 2 ^ 63 -> 0 < ps -> NewVirtualMemory total ps = Ok vm ->
  flatOps w ops (zeros total) c -> runOps w vm ops = Some vm' -> len p <= ps ->
  ReadAt w vm' p total = Some (zeros (len p), len p, None).
Proof.
  intros Ht Hps Hnew Hflat Hrun Hp.
  destruct (NewVirtualMemory_is w total ps vm Ht Hps Hnew) as (Hvm & Htot & Hpsv).
  destruct (runOps_is w ops vm _ c Hvm Hflat) as (vm2 & Hrun2 & Hvm' & Hp' & Ht').
  assert (vm2 = vm') as -> by congruence.
  assert (Hps' : pageSize vm' = ps) by congruence.
  assert (Hts : totalSize vm' = total) by congruence.
  pose proof (is_ok _ _ _ Hvm') as [_ Htotal Hb Hpg Hw]. rewrite Hps', Hts in Htotal.
  assert (Hq : Z.quot total ps = pageTotal vm' /\ Z.rem total ps = 0)
    by (rewrite Htotal, Z.quot_mul, Z.rem_mul by lia; done).
  destruct Hq as [Hq Hr]. pose proof (len_nonneg p).
  assert (Hu : u64 (pageTotal vm') = pageTotal vm') by (apply wrap_small; width; nia).
  unfold ReadAt, rounds. rewrite Nat.add_succ_r. cbn [readLoop]. unfold getRegion.
  rewrite Hps', Hts, Hq, Hr, Hu, Z.ltb_irrefl.
  rewrite !(pt_get_beyond _ (pageTotal vm')) by (done || lia). unfold readRound. rewrite Hps'.
  replace (if len p <? ps - 0 then len p else ps - 0) with (len p)
    by (destruct (Z.ltb_spec (len p) (ps - 0)); lia).
  rewrite copy_into_exact by (rewrite len_zeros; lia).
  rewrite len_drop, len_zeros by lia.
  by replace (Z.max 0 (len p - Z.of_nat (Z.to_nat (len p)))) with 0 by lia.
Qed.
