(* ===== verification/Bitmap.v ===== *)
(** Bitmaps: [src/internal/core/fsimage/vm/bitmap.go], the bit operations.

    Bit [i] of a bitmap is bit [i mod 8] of byte [i / 8].  [SetRange] and the two
    searches work on whole bytes where they can; the theorems compare them with
    bit-by-bit definitions.  The byte-level [ReadAt] and [WriteAt] are in the
    region file. *)

From S2P Require Import Prelude Regions.

Definition maxBits (r : bytes) : Z := u64 (len r * 8).

Definition Get (r : bytes) (i : Z) : result ioError bool :=
  if maxBits r <=? i then Err EOF
  else Ok (negb (Z.land (Z.shiftr (at_ r (i / 8)) (i mod 8)) 1 =? 0)).

(** [r[index] = v]. *)
Definition store (r : bytes) (index v : Z) : bytes := <[Z.to_nat index := v]> r.

(** [r[index] |= mask] or [&^= mask]. *)
Definition applyMask (r : bytes) (index mask : Z) (value : bool) : bytes :=
  store r index (if value then Z.lor (at_ r index) mask else Z.ldiff (at_ r index) mask).

Definition Set_ (r : bytes) (i : Z) (value : bool) : result ioError bytes :=
  if maxBits r <=? i then Err EOF
  else Ok (applyMask r (i / 8) (u8 (Z.shiftl 1 (i mod 8))) value).

Definition SetAll (r : bytes) (value : bool) : bytes :=
  (fun _ => if value then 0xff else 0x00) <$> r.

(** [for i := lo; i < hi; i++ { mask |= 1 << i }], [n] being [hi - lo]. *)
Fixpoint maskLoop (n : nat) (lo mask : Z) : Z :=
  match n with
  | O => mask
  | S n => maskLoop n (lo + 1) (Z.lor mask (u8 (Z.shiftl 1 lo)))
  end.
Definition bitMask (lo hi : Z) : Z := maskLoop (Z.to_nat (hi - lo)) lo 0.

(** The fill loop; an index past the end panics, after the bytes before it. *)
Definition fillBytes (r : bytes) (startByte endByte fillByte : Z) : result ioError bytes :=
  if (len r <? endByte) && (startByte <? endByte) then Panic
  else Ok (put r startByte (replicate (Z.to_nat (endByte - startByte)) fillByte)).

(** The bits [start .. last], more than one, where [last] is [end - 1]. *)
Definition setSpan (r : bytes) (start last : Z) (value : bool) : result ioError bytes :=
  let startByte := start / 8 in
  let endByte := last / 8 in
  let startBit := start mod 8 in
  let endBit := last mod 8 in
  let fillByte := if value then 0xff else 0x00 in
  if startByte =? endByte then Ok (applyMask r startByte (bitMask startBit (endBit + 1)) value)
  else
    let '(r, startByte) :=
      if negb (startBit =? 0) then (applyMask r startByte (bitMask startBit 8) value, startByte + 1)
      else (r, startByte) in
    if negb (endBit =? 7) && (len r <=? endByte) then Panic
    else
      let '(r, endByte) :=
        if negb (endBit =? 7) then (applyMask r endByte (bitMask 0 (endBit + 1)) value, endByte)
        else (r, endByte + 1) in
      fillBytes r startByte endByte fillByte.

Definition SetRange (r : bytes) (start end_ : Z) (value : bool) : result ioError bytes :=
  if end_ <? start then Ok r
  else if maxBits r <=? start then Err EOF
  else
    let end_ := if maxBits r <? end_ then maxBits r else end_ in
    let last := u64 (end_ - 1) in
    if start =? last then Set_ r start value else setSpan r start last value.

(** * Searching *)

Definition bitOf (b i : Z) : bool := negb (Z.land (Z.shiftr b i) 1 =? 0).

(** The loop over the bits of a partial first byte; [None]: not found. *)
Fixpoint scanPartial (n : nat) (want : bool) (b byteIdx bit end_ : Z) : option Z :=
  match n with
  | O => None
  | S n =>
      let bitIndex := byteIdx * 8 + bit in
      if end_ <=? bitIndex then None
      else if Bool.eqb (bitOf b bit) want then Some bitIndex
      else scanPartial n want b byteIdx (bit + 1) end_
  end.

Inductive scan := Found (i : Z) | Stop | Next.

(** The loop over the bits of a full byte. *)
Fixpoint scanByte (n : nat) (want : bool) (b byteIdx bit start end_ : Z) : scan :=
  match n with
  | O => Next
  | S n =>
      let bitIndex := byteIdx * 8 + bit in
      if end_ <=? bitIndex then Stop
      else if bitIndex <? start then scanByte n want b byteIdx (bit + 1) start end_
      else if Bool.eqb (bitOf b bit) want then Found bitIndex
      else scanByte n want b byteIdx (bit + 1) start end_
  end.

(** The loop over the bytes [byteIdx .. endByte], [n] of them. *)
Fixpoint scanBytes (n : nat) (want : bool) (r : bytes) (byteIdx start end_ : Z) : option Z :=
  match n with
  | O => None
  | S n =>
      let b := at_ r byteIdx in
      if b =? (if want then 0x00 else 0xff) then scanBytes n want r (byteIdx + 1) start end_
      else
        match scanByte 8 want b byteIdx 0 start end_ with
        | Found i => Some i
        | Stop => None
        | Next => scanBytes n want r (byteIdx + 1) start end_
        end
  end.

(** The common text of [FindFirstClear] and [FindFirstSet]. *)
Definition findFirst (want : bool) (r : bytes) (start end_ : Z) : option Z :=
  if maxBits r <=? start then None
  else
    let end_ := if maxBits r <? end_ then maxBits r else end_ in
    if end_ <=? start then None
    else
      let startByte := start / 8 in
      let endByte := (end_ - 1) / 8 in
      if negb (start mod 8 =? 0) then
        match scanPartial (Z.to_nat (8 - start mod 8)) want (at_ r startByte) startByte (start mod 8) end_ with
        | Some i => Some i
        | None => scanBytes (Z.to_nat (endByte - startByte)) want r (startByte + 1) start end_
        end
      else scanBytes (Z.to_nat (endByte - startByte + 1)) want r startByte start end_.

Definition FindFirstClear := findFirst false.
Definition FindFirstSet := findFirst true.

Definition NewBitmap (size : Z) : bytes := zeros (size / 8).

(** * Bits *)

Definition bit (r : bytes) (i : Z) : bool := Z.testbit (at_ r (i / 8)) (i mod 8).

Definition bitmap_ok (r : bytes) : Prop := is_bytes r /\ len r * 8 < 2 ^ 64.

Lemma maxBits_ok r : bitmap_ok r -> maxBits r = len r * 8.
Proof.
  intros [_ Hl]. unfold maxBits. apply wrap_small. pose proof (len_nonneg r). width.
Qed.

Lemma bitOf_testbit b i : 0 <= i -> bitOf b i = Z.testbit b i.
Proof.
  intros Hi. unfold bitOf. change (negb (Z.land (Z.shiftr b i) 1 =? 0)) with (hasbits (Z.shiftr b i) 1).
  rewrite hasbits_1, Z.shiftr_spec by lia. done.
Qed.

Lemma Get_bit r i : bitmap_ok r -> 0 <= i < len r * 8 -> Get r i = Ok (bit r i).
Proof.
  intros Hr Hi. unfold Get. rewrite maxBits_ok by done.
  destruct (Z.leb_spec (len r * 8) i); [lia|]. f_equal. apply (bitOf_testbit _ (i mod 8)). dlia.
Qed.

Lemma at_store r k j v :
  0 <= k < len r -> 0 <= j -> at_ (store r k v) j = if decide (k = j) then v else at_ r j.
Proof.
  intros Hk Hj. unfold at_, store, len in *. case_decide; subst.
  - by rewrite list_lookup_insert_eq by lia.
  - by rewrite list_lookup_insert_ne by lia.
Qed.

Lemma len_store r k v : len (store r k v) = len r.
Proof. unfold len, store. by rewrite length_insert. Qed.

Lemma len_applyMask r k m v : len (applyMask r k m v) = len r.
Proof. apply len_store. Qed.

(** A mask sets or clears the bits it has, in its byte. *)
Lemma bit_applyMask r k m v i :
  0 <= k < len r -> 0 <= i ->
  bit (applyMask r k m v) i =
    if decide (i / 8 = k) then (if Z.testbit m (i mod 8) then v else bit r i) else bit r i.
Proof.
  intros Hk Hi. unfold bit, applyMask. rewrite at_store by (lia || dlia).
  case_decide as H1; case_decide as H2; try congruence.
  subst k. assert (0 <= i mod 8) by dlia.
  destruct v; rewrite ?Z.lor_spec, ?Z.ldiff_spec; destruct (Z.testbit m (i mod 8)); cbn;
    rewrite ?orb_true_r, ?orb_false_r, ?andb_true_r, ?andb_false_r; done.
Qed.

Lemma testbit_one k i : 0 <= k < 8 -> 0 <= i -> Z.testbit (u8 (Z.shiftl 1 k)) i = (i =? k).
Proof.
  intros Hk Hi. unfold wrap. rewrite Z.shiftl_1_l.
  rewrite Z.mod_small by (split; [lia|apply Z.pow_lt_mono_r; lia]).
  destruct (Z.eqb_spec i k) as [->|Hne]; [by apply Z.pow2_bits_true|by apply Z.pow2_bits_false].
Qed.

Lemma maskLoop_bits n : forall lo m i,
  0 <= lo -> lo + Z.of_nat n <= 8 -> 0 <= i ->
  Z.testbit (maskLoop n lo m) i = Z.testbit m i || ((lo <=? i) && (i <? lo + Z.of_nat n)).
Proof.
  induction n as [|n IH]; intros lo m i Hlo Hn Hi; cbn [maskLoop].
  - change (Z.of_nat 0) with 0.
    replace ((lo <=? i) && (i <? lo + 0)) with false by lia. by rewrite orb_false_r.
  - rewrite IH by lia. rewrite Z.lor_spec, testbit_one by lia. rewrite <- orb_assoc.
    replace (Z.of_nat (S n)) with (Z.of_nat n + 1) by lia. pose proof (Nat2Z.is_nonneg n).
    f_equal. lia.
Qed.

Lemma bitMask_bits lo hi i :
  0 <= lo -> hi <= 8 -> 0 <= i -> Z.testbit (bitMask lo hi) i = (lo <=? i) && (i <? hi).
Proof.
  intros. unfold bitMask. destruct (decide (lo <= hi)).
  - rewrite maskLoop_bits by lia. rewrite Z.bits_0, Z2Nat.id by lia. cbn. lia.
  - replace (Z.to_nat (hi - lo)) with 0%nat by lia. cbn. rewrite Z.bits_0. lia.
Qed.

(** * SetRange *)

Lemma at_put r s n v j :
  0 <= s -> 0 <= n -> s + n <= len r -> 0 <= j ->
  at_ (put r s (replicate (Z.to_nat n) v)) j = if decide (s <= j < s + n) then v else at_ r j.
Proof.
  intros Hs Hn Hfit Hj. unfold at_, len in *. rewrite lookup_put, lookup_replicate_if, length_replicate.
  repeat case_decide; try lia; done.
Qed.

Lemma bit_put r s n (v : bool) i :
  0 <= s -> 0 <= n -> s + n <= len r -> 0 <= i ->
  bit (put r s (replicate (Z.to_nat n) (if v then 0xff else 0x00))) i =
    if decide (s <= i / 8 < s + n) then v else bit r i.
Proof.
  intros Hs Hn Hfit Hi. unfold bit. rewrite at_put by (lia || dlia). case_decide; [|done].
  assert (0 <= i mod 8 < 8) by dlia. destruct v; [|apply Z.bits_0].
  change 0xff with (Z.ones 8). apply Z.ones_spec_low. lia.
Qed.

Lemma fillBytes_bit r s e (v : bool) :
  0 <= s -> e <= len r -> exists r', fillBytes r s e (if v then 0xff else 0x00) = Ok r' /\
    len r' = len r /\
    forall i, 0 <= i -> bit r' i = if decide (s <= i / 8 < e) then v else bit r i.
Proof.
  intros Hs He. unfold fillBytes. destruct (Z.ltb_spec (len r) e); [lia|]. cbn [andb].
  eexists. split; [reflexivity|]. rewrite len_put. split; [done|]. intros i Hi.
  destruct (decide (s <= e)).
  - rewrite bit_put by lia. repeat case_decide; try lia; done.
  - replace (Z.to_nat (e - s)) with 0%nat by lia. cbn. rewrite put_nil, decide_False by lia. done.
Qed.

(** The positions of a bit. *)
Lemma split8 i : 0 <= i -> exists q o, i = 8 * q + o /\ 0 <= o < 8 /\ 0 <= q /\ i / 8 = q /\ i mod 8 = o.
Proof. intros. exists (i / 8), (i mod 8). split_and!; dlia. Qed.

Definition bits_set (r r' : bytes) (start end_ : Z) (v : bool) : Prop :=
  len r' = len r /\
  forall i, 0 <= i < len r * 8 -> bit r' i = if decide (start <= i < end_) then v else bit r i.

Lemma Set_bits r i v :
  bitmap_ok r -> 0 <= i < len r * 8 -> exists r', Set_ r i v = Ok r' /\ bits_set r r' i (i + 1) v.
Proof.
  intros Hr Hi. unfold Set_. rewrite maxBits_ok by done.
  destruct (Z.leb_spec (len r * 8) i); [lia|]. eexists. split; [reflexivity|].
  split; [apply len_applyMask|]. intros j Hj. rewrite bit_applyMask, testbit_one by (lia || dlia).
  destruct (split8 i) as (qi & oi & -> & ? & ? & -> & ->); [lia|].
  destruct (split8 j) as (qj & oj & -> & ? & ? & -> & ->); [lia|].
  destruct (Z.eqb_spec oj oi); repeat case_decide; try done; lia.
Qed.

(** The two partial bytes at the ends of a span. *)
Lemma spanStart_bits r start (v : bool) :
  0 <= start < len r * 8 ->
  exists r1 sb, (if negb (start mod 8 =? 0)
                 then (applyMask r (start / 8) (bitMask (start mod 8) 8) v, start / 8 + 1)
                 else (r, start / 8)) = (r1, sb) /\
    len r1 = len r /\ 8 * sb - 8 < start <= 8 * sb /\
    forall i, 0 <= i -> bit r1 i = if decide (start <= i < 8 * sb) then v else bit r i.
Proof.
  intros Hs. destruct (split8 start) as (q & o & -> & ? & ? & -> & ->); [lia|].
  destruct (Z.eqb_spec o 0) as [->|Ho]; cbn [negb]; eexists _, _; (split; [reflexivity|]).
  - split_and!; try lia. intros i Hi. rewrite decide_False by lia. done.
  - rewrite len_applyMask. split_and!; try lia. intros i Hi.
    rewrite bit_applyMask, bitMask_bits by (lia || dlia).
    destruct (split8 i) as (qi & oi & -> & ? & ? & -> & ->); [lia|].
    destruct (Z.leb_spec o oi), (Z.ltb_spec oi 8); cbn [andb]; repeat case_decide; try done; lia.
Qed.

Lemma spanEnd_bits r last (v : bool) :
  0 <= last < len r * 8 ->
  exists r1 eb, (if negb (last mod 8 =? 7)
                 then (applyMask r (last / 8) (bitMask 0 (last mod 8 + 1)) v, last / 8)
                 else (r, last / 8 + 1)) = (r1, eb) /\
    len r1 = len r /\ 8 * eb <= last + 1 < 8 * eb + 8 /\ eb <= len r /\
    forall i, 0 <= i -> bit r1 i = if decide (8 * eb <= i <= last) then v else bit r i.
Proof.
  intros Hs. destruct (split8 last) as (q & o & -> & ? & ? & -> & ->); [lia|].
  destruct (Z.eqb_spec o 7) as [->|Ho]; cbn [negb]; eexists _, _; (split; [reflexivity|]).
  - split_and!; try lia. intros i Hi. rewrite decide_False by lia. done.
  - rewrite len_applyMask. split_and!; try lia. intros i Hi.
    rewrite bit_applyMask, bitMask_bits by (lia || dlia).
    destruct (split8 i) as (qi & oi & -> & ? & ? & -> & ->); [lia|].
    destruct (Z.leb_spec 0 oi), (Z.ltb_spec oi (o + 1)); cbn [andb]; repeat case_decide; try done; lia.
Qed.

Lemma setSpan_bits r start last v :
  0 <= start < last -> last < len r * 8 ->
  exists r', setSpan r start last v = Ok r' /\ bits_set r r' start (last + 1) v.
Proof.
  intros Hsl Hl. unfold setSpan. destruct (Z.eqb_spec (start / 8) (last / 8)) as [Heq|Hne].
  - eexists. split; [reflexivity|]. split; [apply len_applyMask|]. intros i Hi.
    rewrite bit_applyMask, bitMask_bits by (lia || dlia).
    destruct (split8 start) as (qs & os & -> & ? & ? & Hqs & ->); [lia|].
    destruct (split8 last) as (ql & ol & -> & ? & ? & Hql & ->); [lia|].
    destruct (split8 i) as (qi & oi & -> & ? & ? & -> & ->); [lia|].
    destruct (Z.leb_spec os oi), (Z.ltb_spec oi (ol + 1)); cbn [andb]; repeat case_decide; try done; lia.
  - destruct (spanStart_bits r start v) as (r1 & sb & -> & Hl1 & Hsb & Hb1); [lia|].
    assert (Hin : negb (last mod 8 =? 7) && (len r1 <=? last / 8) = false).
    { rewrite Hl1. destruct (Z.leb_spec (len r) (last / 8)); [dlia|]. by rewrite andb_false_r. }
    rewrite Hin.
    destruct (spanEnd_bits r1 last v) as (r2 & eb & -> & Hl2 & Heb & Hle & Hb2); [lia|].
    destruct (fillBytes_bit r2 sb eb v) as (r3 & -> & Hl3 & Hb3); [lia..|].
    exists r3. split; [done|]. split; [congruence|]. intros i Hi.
    rewrite Hb3, Hb2, Hb1 by lia.
    assert (Hib : 8 * (i / 8) <= i < 8 * (i / 8) + 8) by dlia.
    assert (Hord : sb <= eb) by dlia.
    repeat case_decide; try done; lia.
Qed.

Lemma SetRange_bits r start end_ v :
  bitmap_ok r -> 0 <= start < end_ -> start < len r * 8 -> end_ < 2 ^ 64 ->
  exists r', SetRange r start end_ v = Ok r' /\ bits_set r r' start end_ v.
Proof.
  intros Hr Hse Hs He. unfold SetRange. rewrite maxBits_ok by done. pose proof (proj2 Hr) as Hmax.
  destruct (Z.ltb_spec end_ start); [lia|]. destruct (Z.leb_spec (len r * 8) start); [lia|].
  set (e := if len r * 8 <? end_ then len r * 8 else end_).
  assert (Hb : start < e <= len r * 8 /\ e <= end_ /\ (e = end_ \/ e = len r * 8))
    by (subst e; destruct (Z.ltb_spec (len r * 8) end_); lia).
  rewrite (wrap_small 64 (e - 1)) by width.
  assert (Hgoal : exists r', (if start =? e - 1 then Set_ r start v else setSpan r start (e - 1) v) = Ok r' /\
                             bits_set r r' start e v).
  { destruct (Z.eqb_spec start (e - 1)) as [Heq|Hne].
    - destruct (Set_bits r start v Hr) as (r' & -> & Hset); [lia|].
      exists r'. split; [done|]. by replace e with (start + 1) by lia.
    - destruct (setSpan_bits r start (e - 1) v) as (r' & -> & Hset); [lia..|].
      exists r'. split; [done|]. by replace (e - 1 + 1) with e in Hset by lia. }
  destruct Hgoal as (r' & -> & Hlen & Hbits). exists r'. split; [done|]. split; [done|].
  intros i Hi. rewrite Hbits by done. repeat case_decide; try done; lia.
Qed.

(** * Searching, bit by bit *)

(** The first of the [n] positions from [a] on that satisfies [P]. *)
Fixpoint firstFrom (P : Z -> bool) (a : Z) (n : nat) : option Z :=
  match n with
  | O => None
  | S n => if P a then Some a else firstFrom P (a + 1) n
  end.

Lemma firstFrom_add P n m : forall a,
  firstFrom P a (n + m) =
    match firstFrom P a n with
    | Some i => Some i
    | None => firstFrom P (a + Z.of_nat n) m
    end.
Proof.
  induction n as [|n IH]; intros a; cbn; [by rewrite Z.add_0_r|].
  destruct (P a); [done|]. rewrite IH. destruct (firstFrom P (a + 1) n); [done|].
  f_equal. lia.
Qed.

Lemma firstFrom_Some P n : forall a i,
  firstFrom P a n = Some i <->
  (a <= i < a + Z.of_nat n /\ P i = true /\ forall j, a <= j < i -> P j = false).
Proof.
  induction n as [|n IH]; intros a i; cbn [firstFrom]; [split; [done|lia]|].
  destruct (P a) eqn:Ha.
  - split; [intros [= <-]; split_and!; [lia|lia|done|intros; lia]|].
    intros (Hi & Hp & Hlt). destruct (decide (a = i)); [congruence|].
    specialize (Hlt a ltac:(lia)). congruence.
  - rewrite IH. split; intros (Hi & Hp & Hlt).
    + split_and!; [lia|lia|done|]. intros j Hj. destruct (decide (j = a)); [congruence|]. apply Hlt. lia.
    + destruct (decide (a = i)); [congruence|]. split_and!; [lia|lia|done|]. intros j Hj. apply Hlt. lia.
Qed.

Lemma firstFrom_None P n : forall a,
  firstFrom P a n = None <-> forall j, a <= j < a + Z.of_nat n -> P j = false.
Proof.
  induction n as [|n IH]; intros a; cbn [firstFrom]; [split; [lia|done]|].
  destruct (P a) eqn:Ha.
  - split; [done|]. intros Hall. specialize (Hall a ltac:(lia)). congruence.
  - rewrite IH. split; intros Hall j Hj.
    + destruct (decide (j = a)); [congruence|]. apply Hall. lia.
    + apply Hall. lia.
Qed.

Section searching.
Context (want : bool) (r : bytes).

Definition wanted (i : Z) : bool := Bool.eqb (bit r i) want.

Lemma wanted_byte k o : 0 <= k -> 0 <= o < 8 -> wanted (k * 8 + o) = Bool.eqb (bitOf (at_ r k) o) want.
Proof.
  intros Hk Ho. unfold wanted, bit. rewrite bitOf_testbit by lia.
  replace ((k * 8 + o) / 8) with k by dlia. by replace ((k * 8 + o) mod 8) with o by dlia.
Qed.

Lemma scanPartial_first k e n : forall o,
  0 <= k -> 0 <= o -> o + Z.of_nat n <= 8 ->
  scanPartial n want (at_ r k) k o e =
    firstFrom wanted (k * 8 + o) (n `min` Z.to_nat (e - (k * 8 + o))).
Proof.
  induction n as [|n IH]; intros o Hk Ho Hn; cbn [scanPartial]; [done|].
  destruct (Z.leb_spec e (k * 8 + o)).
  - by replace (S n `min` Z.to_nat (e - (k * 8 + o)))%nat with 0%nat by lia.
  - replace (S n `min` Z.to_nat (e - (k * 8 + o)))%nat
      with (S (n `min` Z.to_nat (e - (k * 8 + (o + 1))))) by lia.
    cbn [firstFrom]. rewrite wanted_byte by lia. destruct (Bool.eqb _ _); [done|].
    rewrite IH by lia. f_equal. lia.
Qed.

Lemma scanByte_first k start e n : forall o,
  0 <= k -> 0 <= o -> o + Z.of_nat n <= 8 -> start <= k * 8 + o ->
  scanByte n want (at_ r k) k o start e =
    match firstFrom wanted (k * 8 + o) (n `min` Z.to_nat (e - (k * 8 + o))) with
    | Some i => Found i
    | None => if decide (Z.max 0 (e - (k * 8 + o)) < Z.of_nat n) then Stop else Next
    end.
Proof.
  induction n as [|n IH]; intros o Hk Ho Hn Hs; cbn [scanByte].
  { cbn. by rewrite decide_False by lia. }
  destruct (Z.leb_spec e (k * 8 + o)).
  - replace (S n `min` Z.to_nat (e - (k * 8 + o)))%nat with 0%nat by lia. cbn [firstFrom].
    by rewrite decide_True by lia.
  - destruct (Z.ltb_spec (k * 8 + o) start); [lia|].
    replace (S n `min` Z.to_nat (e - (k * 8 + o)))%nat
      with (S (n `min` Z.to_nat (e - (k * 8 + (o + 1))))) by lia.
    cbn [firstFrom]. rewrite wanted_byte by lia. destruct (Bool.eqb _ _); [done|].
    rewrite IH by lia. replace (k * 8 + o + 1) with (k * 8 + (o + 1)) by lia.
    destruct (firstFrom _ _ _); [done|]. repeat case_decide; try done; lia.
Qed.

(** A byte without the wanted value has no wanted bit. *)
Lemma skipByte_none k n :
  0 <= k -> (n <= 8)%nat -> at_ r k = (if want then 0x00 else 0xff) ->
  firstFrom wanted (k * 8) n = None.
Proof.
  intros Hk Hn Hb. apply firstFrom_None. intros j Hj.
  replace j with (k * 8 + (j - k * 8)) by lia. rewrite wanted_byte, Hb, bitOf_testbit by lia.
  destruct want; [by rewrite Z.bits_0|]. change 0xff with (Z.ones 8).
  by rewrite Z.ones_spec_low by lia.
Qed.

Lemma scanBytes_first start e n : forall k,
  0 <= k -> start <= k * 8 -> e <= (k + Z.of_nat n) * 8 ->
  scanBytes n want r k start e = firstFrom wanted (k * 8) (Z.to_nat (e - k * 8)).
Proof.
  induction n as [|n IH]; intros k Hk Hs He; cbn [scanBytes].
  { by replace (Z.to_nat (e - k * 8)) with 0%nat by lia. }
  set (m := (8 `min` Z.to_nat (e - k * 8))%nat).
  assert (Hsplit : Z.to_nat (e - k * 8) = (m + Z.to_nat (e - (k + 1) * 8))%nat) by lia.
  assert (Hrest : scanBytes n want r (k + 1) start e
    = firstFrom wanted (k * 8 + Z.of_nat m) (Z.to_nat (e - (k + 1) * 8))).
  { rewrite IH by lia. destruct (decide (e <= (k + 1) * 8)).
    - by replace (Z.to_nat (e - (k + 1) * 8)) with 0%nat by lia.
    - f_equal. lia. }
  rewrite Hsplit, firstFrom_add.
  destruct (Z.eqb_spec (at_ r k) (if want then 0x00 else 0xff)) as [Hskip|Hne].
  - rewrite (skipByte_none k m) by (done || lia). done.
  - pose proof (scanByte_first k start e 8 0 Hk) as Hsb. rewrite Z.add_0_r in Hsb.
    rewrite Hsb by lia. fold m. destruct (firstFrom wanted (k * 8) m); [done|].
    case_decide; [|done]. by replace (Z.to_nat (e - (k + 1) * 8)) with 0%nat by lia.
Qed.

Lemma findFirst_first start end_ :
  bitmap_ok r -> 0 <= start ->
  findFirst want r start end_ =
    firstFrom wanted start (Z.to_nat (Z.min end_ (len r * 8) - start)).
Proof.
  intros Hr Hs. unfold findFirst. rewrite maxBits_ok by done.
  destruct (Z.leb_spec (len r * 8) start).
  { by replace (Z.to_nat _) with 0%nat by lia. }
  replace (if len r * 8 <? end_ then len r * 8 else end_) with (Z.min end_ (len r * 8))
    by (destruct (Z.ltb_spec (len r * 8) end_); lia).
  set (e := Z.min end_ (len r * 8)).
  destruct (Z.leb_spec e start); [by replace (Z.to_nat (e - start)) with 0%nat by lia|].
  destruct (split8 start) as (q & o & Hst & Ho & Hq & -> & ->); [lia|].
  assert (Hlast : e <= ((e - 1) / 8 + 1) * 8) by dlia.
  destruct (Z.eqb_spec o 0) as [Hz|Hz]; cbn [negb].
  - rewrite scanBytes_first by (lia || dlia). f_equal; lia.
  - rewrite scanPartial_first by lia. replace (q * 8 + o) with start by lia.
    set (m := (Z.to_nat (8 - o) `min` Z.to_nat (e - start))%nat).
    assert (Hm : Z.to_nat (e - start) = (m + Z.to_nat (e - (q + 1) * 8))%nat) by lia.
    rewrite Hm, firstFrom_add. destruct (firstFrom wanted start m); [done|].
    rewrite scanBytes_first by (lia || dlia). destruct (decide (e <= (q + 1) * 8)).
    + by replace (Z.to_nat (e - (q + 1) * 8)) with 0%nat by lia.
    + f_equal. lia.
Qed.

End searching.

(** * Properties *)

(** Setting a range of bits changes exactly the bits of the range that exist
    in the bitmap and no others, although whole bytes are filled at once. *)
Theorem set_range_exact r start end_ v :
  bitmap_ok r -> 0 <= start < end_ -> start < len r * 8 -> end_ < 2 ^ 64 ->
  exists r', SetRange r start end_ v = Ok r' /\ len r' = len r /\
    forall i, 0 <= i < len r * 8 -> bit r' i = if decide (start <= i < end_) then v else bit r i.
Proof. apply SetRange_bits. Qed.

Lemma set_range_exact_witness :
  exists r', SetRange [0; 0; 0; 0] 5 19 true = Ok r' /\ len r' = 4 /\
    forall i, 0 <= i < 32 -> bit r' i = if decide (5 <= i < 19) then true else bit [0; 0; 0; 0] i.
Proof.
  apply (set_range_exact [0; 0; 0; 0] 5 19 true).
  - split; [repeat (apply Forall_cons_2; [width|]); apply Forall_nil_2|reflexivity].
  - lia.
  - reflexivity.
  - reflexivity.
Defined.

(** The byte-wise searches return the first bit of the range that is clear
    (or set), and fail only when the range has none: they agree with the search
    bit by bit. *)
Theorem find_first_least (want : bool) r start end_ :
  bitmap_ok r -> 0 <= start ->
  match (if want then FindFirstSet else FindFirstClear) r start end_ with
  | Some i =>
      (start <= i < Z.min end_ (len r * 8) /\ bit r i = want) /\
      forall j, start <= j < i -> bit r j = negb want
  | None => forall j, start <= j < Z.min end_ (len r * 8) -> bit r j = negb want
  end.
Proof.
  intros Hr Hs.
  replace ((if want then FindFirstSet else FindFirstClear) r start end_)
    with (findFirst want r start end_) by (by destruct want).
  rewrite findFirst_first by done.
  assert (Hneg : forall j, wanted want r j = false -> bit r j = negb want)
    by (intros j; unfold wanted; by destruct (bit r j), want).
  destruct (firstFrom _ _ _) as [i|] eqn:Hf.
  - apply firstFrom_Some in Hf as (Hi & Hw & Hlt). split; [split; [lia|]|].
    + unfold wanted in Hw. by apply Bool.eqb_prop in Hw.
    + intros j Hj. apply Hneg, Hlt, Hj.
  - rewrite firstFrom_None in Hf. intros j Hj. apply Hneg, Hf. lia.
Qed.

(** Setting the empty range from bit 0 to bit 0, which contains no bit,
    panics: the last bit wraps around to the largest 64-bit number. *)
Theorem set_empty_range_panics r v :
  bitmap_ok r -> 0 < len r -> SetRange r 0 0 v = Panic.
Proof.
  intros Hr Hl. unfold SetRange. rewrite maxBits_ok by done. cbn [Z.ltb Z.compare].
  destruct (Z.leb_spec (len r * 8) 0); [lia|]. destruct (Z.ltb_spec (len r * 8) 0); [lia|].
  change (u64 (0 - 1)) with (2 ^ 64 - 1). change (0 =? 2 ^ 64 - 1) with false.
  unfold setSpan, fillBytes. change ((2 ^ 64 - 1) / 8) with (2 ^ 61 - 1).
  change ((2 ^ 64 - 1) mod 8) with 7. change (0 / 8) with 0. change (0 mod 8) with 0.
  change (0 =? 0) with true. change (7 =? 7) with true. change (0 =? 2 ^ 61 - 1) with false.
  cbn [negb andb]. destruct Hr as [_ Hmax].
  replace (len r <? 2 ^ 61 - 1 + 1) with true by (pow2; lia). done.
Qed.
