(* ===== verification/RegionArray.v ===== *)
(** Arrays of regions: [src/internal/core/fsimage/vm/array.go].

    An array is a sequence of regions laid out one after the other, with a cache
    of their offsets that [Append] and [Set] invalidate and every access rebuilds
    when needed.  The read-write lock makes each method atomic. *)

From S2P Require Import Prelude Regions.

Section array.
Context {W : Type}.

Record RegionArray := mkArray {
  regions : list (region W);
  cumulativeOffsets : list Z;
  cachedTotal : Z;
  offsetsValid : bool;
}.

Definition GetRegions (t : RegionArray) : list (region W) := regions t.

(** The loop of [rebuildCache]: the offsets of the regions, and the end. *)
Fixpoint offsetsFrom (w : W) (offset : Z) (rs : list (region W)) : list Z * Z :=
  match rs with
  | [] => ([], offset)
  | r :: rs => let '(offs, total) := offsetsFrom w (offset + size w r) rs in (offset :: offs, total)
  end.

Definition rebuildCache (w : W) (t : RegionArray) : RegionArray :=
  if offsetsValid t then t
  else if len (regions t) =? 0 then mkArray (regions t) [] 0 true
  else
    let '(offs, total) := offsetsFrom w 0 (regions t) in
    mkArray (regions t) offs total true.

Definition ensureCache (w : W) (t : RegionArray) : RegionArray := rebuildCache w t.

Definition startsAfter (offs : list Z) (offset i : Z) : bool :=
  match offs !! Z.to_nat i with
  | Some o => offset <? o
  | None => false
  end.

(** On a valid cache. *)
Definition findRegionIndex (t : RegionArray) (offset : Z) : Z :=
  if len (cumulativeOffsets t) =? 0 then -1
  else
    let idx := sortSearch (len (cumulativeOffsets t)) (startsAfter (cumulativeOffsets t) offset) - 1 in
    if idx <? 0 then 0 else idx.

(** The loop of [ReadAt] over the regions from the starting one on. *)
Fixpoint readChildren (w : W) (rs : list (region W)) (p : bytes) (off currentOffset n : Z)
  : readResult :=
  match rs with
  | [] => (p, n, None)
  | child :: rs =>
      if len p =? 0 then (p, n, None)
      else
        let childLen := size w child in
        if currentOffset + childLen <=? off
        then readChildren w rs p off (currentOffset + childLen) n
        else
          let childOffset := off - currentOffset in
          let '(q, childN, e) := readAt w child p childOffset in
          let n := n + childN in
          match e with
          | Some e => (q, n, Some e)
          | None =>
              if childLen <? childN + childOffset then (q, -1, Some OverRead)
              else
                let '(rest, n, e) :=
                  readChildren w rs (drop (Z.to_nat childN) q) (off + childN)
                    (currentOffset + childLen) n in
                (take (Z.to_nat childN) q ++ rest, n, e)
          end
  end.

Definition ReadAt (w : W) (t : RegionArray) (p : bytes) (off : Z) : RegionArray * readResult :=
  let t := ensureCache w t in
  match boundsCheck (cachedTotal t) off with
  | Some e => (t, (p, 0, Some e))
  | None =>
      let startIdx := findRegionIndex t off in
      if (startIdx <? 0) || (len (regions t) <=? startIdx) then (t, (p, 0, None))
      else
        let currentOffset := default 0 (cumulativeOffsets t !! Z.to_nat startIdx) in
        (t, readChildren w (drop (Z.to_nat startIdx) (regions t)) p off currentOffset 0)
  end.

Definition Size (w : W) (t : RegionArray) : RegionArray * Z :=
  let t := ensureCache w t in (t, cachedTotal t).

(** The loop of [WriteAt]: the regions and the outside state afterwards. *)
Fixpoint writeChildren (w : W) (rs : list (region W)) (p : bytes) (off currentOffset n : Z)
  : list (region W) * W * Z * option ioError :=
  match rs with
  | [] => ([], w, n, None)
  | child :: rs =>
      if len p =? 0 then (child :: rs, w, n, None)
      else
        let childLen := size w child in
        if currentOffset + childLen <=? off then
          let '(rs, w, n, e) := writeChildren w rs p off (currentOffset + childLen) n in
          (child :: rs, w, n, e)
        else
          let childOffset := off - currentOffset in
          let '(child, w, childN, e) := writeAt w child p childOffset in
          let n := n + childN in
          match e with
          | Some e => (child :: rs, w, n, Some e)
          | None =>
              let '(rs, w, n, e) :=
                writeChildren w rs (drop (Z.to_nat childN) p) (off + childN)
                  (currentOffset + childLen) n in
              (child :: rs, w, n, e)
          end
  end.

Definition WriteAt (w : W) (t : RegionArray) (p : bytes) (off : Z)
  : RegionArray * W * Z * option ioError :=
  let t := ensureCache w t in
  match boundsCheck (cachedTotal t) off with
  | Some e => (t, w, 0, Some e)
  | None =>
      let startIdx := findRegionIndex t off in
      if (startIdx <? 0) || (len (regions t) <=? startIdx) then (t, w, 0, None)
      else
        let currentOffset := default 0 (cumulativeOffsets t !! Z.to_nat startIdx) in
        let '(rs, w, n, e) :=
          writeChildren w (drop (Z.to_nat startIdx) (regions t)) p off currentOffset 0 in
        (mkArray (take (Z.to_nat startIdx) (regions t) ++ rs) (cumulativeOffsets t) (cachedTotal t)
           (offsetsValid t), w, n, e)
  end.

Definition Append (t : RegionArray) (r : region W) : RegionArray :=
  mkArray (regions t ++ [r]) (cumulativeOffsets t) (cachedTotal t) false.

Definition Set_ (t : RegionArray) (index : Z) (r : region W) : RegionArray :=
  if (0 <=? index) && (index <? len (regions t))
  then mkArray (<[Z.to_nat index := r]> (regions t)) (cumulativeOffsets t) (cachedTotal t) false
  else t.

Definition Len (t : RegionArray) : Z := len (regions t).

Definition Get (t : RegionArray) (index : Z) : option (region W) :=
  if (0 <=? index) && (index <? len (regions t)) then regions t !! Z.to_nat index else None.

Definition NewRegionArray (initial : list (region W)) : RegionArray := mkArray initial [] 0 false.

(** * The cache *)

(** Offsets of regions with contents [cs] laid out from [a] on. *)
Fixpoint prefixes (a : Z) (cs : list bytes) : list Z :=
  match cs with
  | [] => []
  | c :: cs => a :: prefixes (a + len c) cs
  end.

(** The array holds regions that read as [cs], and its cache, if valid, is right. *)
Definition array_is (w : W) (t : RegionArray) (cs : list bytes) : Prop :=
  Forall2 (region_is w) (regions t) cs /\
  (offsetsValid t = true -> cumulativeOffsets t = prefixes 0 cs /\ cachedTotal t = sum_len cs).

Lemma offsetsFrom_prefixes w rs cs : forall a,
  Forall2 (region_is w) rs cs -> offsetsFrom w a rs = (prefixes a cs, a + sum_len cs).
Proof.
  intros a Hf. revert a. induction Hf as [|r c rs cs Hr _ IH]; intros a; cbn.
  - f_equal. rewrite sum_len_nil. lia.
  - rewrite (region_size w r c Hr), IH, sum_len_cons. f_equal. lia.
Qed.

Lemma rebuildCache_is w t cs :
  array_is w t cs ->
  array_is w (rebuildCache w t) cs /\ offsetsValid (rebuildCache w t) = true /\
  regions (rebuildCache w t) = regions t.
Proof.
  intros [Hf Hc]. unfold rebuildCache. destruct (offsetsValid t) eqn:Hv.
  - split; [|done]. split; [done|]. intros _. by apply Hc.
  - destruct (Z.eqb_spec (len (regions t)) 0) as [Hz|Hz].
    + rewrite (len_0_nil _ Hz) in *. inversion Hf; subst. by split_and!.
    + rewrite (offsetsFrom_prefixes w (regions t) cs 0 Hf). by split_and!.
Qed.

Lemma prefixes_length a cs : length (prefixes a cs) = length cs.
Proof. revert a. induction cs as [|c cs IH]; intros a; cbn; [done|]. by rewrite IH. Qed.

Lemma prefixes_lookup cs : forall a i,
  (i < length cs)%nat -> prefixes a cs !! i = Some (a + sum_len (take i cs)).
Proof.
  induction cs as [|c cs IH]; intros a i Hi; cbn in Hi; [lia|]. destruct i as [|i]; cbn.
  - rewrite sum_len_nil. f_equal. lia.
  - rewrite IH by lia. rewrite sum_len_cons. f_equal. lia.
Qed.

Lemma sum_len_take_mono {A} (cs : list (list A)) i j :
  (i <= j)%nat -> sum_len (take i cs) <= sum_len (take j cs).
Proof.
  intros Hij. replace (take j cs) with (take i cs ++ drop i (take j cs)).
  - rewrite sum_len_app. pose proof (sum_len_nonneg (drop i (take j cs))). lia.
  - replace (take i cs) with (take i (take j cs)) by (rewrite take_take; f_equal; lia).
    apply take_drop.
Qed.

(** The search finds the region that contains an offset. *)
Lemma findRegionIndex_is w t cs off :
  array_is w t cs -> offsetsValid t = true -> 0 <= off < sum_len cs ->
  exists i, findRegionIndex t off = Z.of_nat i /\ (i < length cs)%nat /\
    sum_len (take i cs) <= off.
Proof.
  intros [Hf Hc] Hv Hoff. destruct (Hc Hv) as [Hoffs _]. unfold findRegionIndex. rewrite Hoffs.
  assert (Hlen : len (prefixes 0 cs) = len cs) by (unfold len; by rewrite prefixes_length).
  rewrite Hlen. destruct (Z.eqb_spec (len cs) 0) as [Hz|Hz].
  { apply len_0_nil in Hz. subst cs. change (sum_len (@nil bytes)) with 0 in Hoff. lia. }
  pose proof (len_nonneg cs).
  destruct (sortSearch_spec (len cs) (startsAfter (prefixes 0 cs) off)) as (Hr & Hlo & _); [done|..].
  { intros i j Hij Hj. unfold startsAfter. rewrite !prefixes_lookup by (unfold len in *; lia).
    pose proof (sum_len_take_mono cs (Z.to_nat i) (Z.to_nat j) ltac:(lia)). lia. }
  set (s := sortSearch _ _) in *.
  destruct (Z.ltb_spec (s - 1) 0).
  - exists 0%nat. split_and!; [done|unfold len in *; lia|].
    rewrite take_0. change (sum_len (@nil bytes)) with 0. lia.
  - exists (Z.to_nat (s - 1)). split_and!; [lia|unfold len in *; lia|].
    specialize (Hlo (s - 1) ltac:(lia)). unfold startsAfter in Hlo.
    rewrite prefixes_lookup in Hlo by (unfold len in *; lia). lia.
Qed.

(** * Reading *)

(** Filling a buffer from two consecutive byte strings. *)
Lemma copy_cat_one {A} (p c d : list A) o :
  0 <= o -> len p <= len c - o ->
  take (Z.to_nat (len p)) (copy_into p (drop (Z.to_nat o) c)) = copy_into p (drop (Z.to_nat o) (c ++ d)).
Proof. intros. list_ext. Qed.

Lemma copy_cat_two {A} (p c d : list A) o k :
  0 <= o -> k = len c - o -> 0 <= k <= len p ->
  take (Z.to_nat k) (copy_into p (drop (Z.to_nat o) c)) ++
    copy_into (drop (Z.to_nat k) (copy_into p (drop (Z.to_nat o) c))) d
  = copy_into p (drop (Z.to_nat o) (c ++ d)).
Proof. intros. list_ext. Qed.

Lemma readChildren_full w rs off cur n : readChildren w rs [] off cur n = ([], n, None).
Proof. by destruct rs. Qed.

Lemma readChildren_is w rs cs : forall p off cur n,
  Forall2 (region_is w) rs cs -> cur <= off ->
  readChildren w rs p off cur n =
    (copy_into p (drop (Z.to_nat (off - cur)) (concat cs)),
     n + Z.min (len p) (Z.max 0 (sum_len cs - (off - cur))), None).
Proof.
  intros p off cur n Hf. revert p off cur n.
  induction Hf as [|r c rs cs Hr Hf IH]; intros p off cur n Hcur; cbn [readChildren concat].
  { rewrite drop_nil, copy_into_nil. change (sum_len (@nil bytes)) with 0.
    pose proof (len_nonneg p). do 2 f_equal. lia. }
  rewrite sum_len_cons. pose proof (len_nonneg p). pose proof (sum_len_nonneg cs).
  pose proof (sum_len_concat cs) as Hsc. pose proof (len_nonneg c).
  destruct (Z.eqb_spec (len p) 0) as [Hz|Hz].
  { rewrite (len_0_nil p Hz). change (len (@nil Z)) with 0. f_equal. f_equal; [list_ext|lia]. }
  rewrite (region_size w r c Hr).
  destruct (Z.leb_spec (cur + len c) off) as [Hskip|Hin].
  - rewrite IH by lia. f_equal. f_equal; [|lia]. f_equal.
    rewrite drop_app_ge by (unfold len in *; lia). f_equal. unfold len; lia.
  - rewrite (readAt_contents w r c Hr), rawRead_in by lia.
    set (o := off - cur). set (k := Z.min (len p) (len c - o)).
    destruct (Z.ltb_spec (len c) (k + o)); [lia|].
    destruct (decide (k = len p)) as [Hfull|Hmore].
    + rewrite (drop_ge (copy_into _ _)) by (rewrite length_copy_into; unfold len in *; lia).
      rewrite readChildren_full, app_nil_r, Hfull. f_equal. f_equal; [apply copy_cat_one|]; lia.
    + assert (Hk : k = len c - o) by lia. rewrite IH by lia.
      replace (len (drop (Z.to_nat k) (copy_into p (drop (Z.to_nat o) c)))) with (len p - k)
        by (list_len; lia).
      replace (off + k - (cur + len c)) with 0 by lia. rewrite drop_0.
      f_equal. f_equal; [apply copy_cat_two|]; lia.
Qed.

Lemma arrayReadAt_is w t cs p off :
  array_is w t cs ->
  array_is w (ReadAt w t p off).1 cs /\ (ReadAt w t p off).2 = rawRead (concat cs) p off.
Proof.
  intros Ht. destruct (rebuildCache_is w t cs Ht) as (Ht' & Hv & Hregs).
  unfold ReadAt, ensureCache. set (t' := rebuildCache w t) in *.
  destruct (proj2 Ht' Hv) as [Hoffs Htot]. unfold rawRead. rewrite sum_len_concat, Htot.
  destruct (boundsCheck (sum_len cs) off) as [e|] eqn:Hb; [done|].
  assert (Hoff : 0 <= off < sum_len cs).
  { unfold boundsCheck in Hb. destruct (Z.ltb_spec off 0); [done|].
    destruct (Z.leb_spec (sum_len cs) off); [done|lia]. }
  destruct (findRegionIndex_is w t' cs off Ht' Hv Hoff) as (i & -> & Hi & Hle).
  pose proof (Forall2_length _ _ _ (proj1 Ht')) as Hlen.
  destruct (Z.ltb_spec (Z.of_nat i) 0); [lia|].
  destruct (Z.leb_spec (len (regions t')) (Z.of_nat i)); [unfold len in *; lia|].
  cbn [orb fst snd]. split; [done|]. rewrite Nat2Z.id, Hoffs, prefixes_lookup by done. cbn [from_option id].
  rewrite (readChildren_is w _ (drop i cs)); [|apply Forall2_drop, Ht'|cbn; lia].
  assert (Hsum : sum_len cs = sum_len (take i cs) + sum_len (drop i cs))
    by (rewrite <- sum_len_app, take_drop; done).
  assert (Hcat : drop (Z.to_nat off) (concat cs) =
    drop (Z.to_nat (off - (0 + sum_len (take i cs)))) (concat (drop i cs))).
  { rewrite <- (take_drop i cs) at 1. rewrite concat_app.
    pose proof (sum_len_concat (take i cs)) as Hc. unfold len in Hc.
    rewrite drop_app_ge by lia. f_equal. lia. }
  rewrite Hcat. do 2 f_equal. lia.
Qed.

(** * Writing *)

Lemma writeChildren_full w rs off cur n : writeChildren w rs [] off cur n = (rs, w, n, None).
Proof. by destruct rs. Qed.

(** The contents of the regions after bytes are written [o] bytes into them. *)
Lemma writeChildren_is w rs cs : forall p off cur n,
  Forall2 (region_is w) rs cs -> forallb buffered rs = true -> cur <= off ->
  exists rs' cs', writeChildren w rs p off cur n
      = (rs', w, n + Z.min (len p) (Z.max 0 (sum_len cs - (off - cur))), None) /\
    Forall2 (region_is w) rs' cs' /\ forallb buffered rs' = true /\ len <$> cs' = len <$> cs /\
    concat cs' = put (concat cs) (off - cur) p.
Proof.
  intros p off cur n Hf. revert p off cur n.
  induction Hf as [|r c rs cs Hr Hf IH]; intros p off cur n Hbuf Hcur; cbn [writeChildren concat].
  { exists [], []. change (sum_len (@nil bytes)) with 0. pose proof (len_nonneg p).
    split_and!; try done; [do 2 f_equal; lia|]. cbn. list_ext. }
  cbn [forallb] in Hbuf. apply andb_prop in Hbuf as [Hb Hbs].
  rewrite sum_len_cons. pose proof (len_nonneg p). pose proof (sum_len_nonneg cs).
  pose proof (sum_len_concat cs) as Hsc. pose proof (len_nonneg c).
  destruct (Z.eqb_spec (len p) 0) as [Hz|Hz].
  { exists (r :: rs), (c :: cs). rewrite (len_0_nil p Hz). change (len (@nil Z)) with 0.
    split_and!; [do 2 f_equal; lia|by constructor|cbn; by rewrite Hb|done|]. by rewrite put_nil. }
  rewrite (region_size w r c Hr).
  destruct (Z.leb_spec (cur + len c) off) as [Hskip|Hin].
  - destruct (IH p off (cur + len c) n) as (rs' & cs' & -> & Hf' & Hb' & Hl' & Hc'); [done|lia|].
    exists (r :: rs'), (c :: cs'). split_and!; [do 2 f_equal; lia|by constructor|cbn; by rewrite Hb| |].
    + cbn. by rewrite Hl'.
    + cbn. rewrite Hc'. clear -Hskip. generalize (concat cs). intros d. list_ext.
  - destruct (writeAt_contents w r c Hr Hb p (off - cur)) as (r' & -> & Hr' & Hb'); [lia|].
    set (o := off - cur). set (k := Z.min (len p) (len c - o)).
    destruct (decide (k = len p)) as [Hfull|Hmore].
    + rewrite drop_ge by (unfold len in *; lia). rewrite writeChildren_full.
      exists (r' :: rs), (put c o p :: cs).
      split_and!; [do 2 f_equal; lia|by constructor|cbn; by rewrite Hb'|cbn; by rewrite len_put|].
      cbn. assert (Hk : 0 <= o /\ o + len p <= len c) by lia.
      clear -Hk. clearbody o. generalize (concat cs). intros d. list_ext.
    + destruct (IH (drop (Z.to_nat k) p) (off + k) (cur + len c) (n + k))
        as (rs' & cs' & -> & Hf' & Hbs' & Hl' & Hc'); [done|lia|].
      exists (r' :: rs'), (put c o p :: cs').
      split_and!; [do 2 f_equal; rewrite len_drop; lia|by constructor|cbn; by rewrite Hb'|cbn; by rewrite len_put, Hl'|].
      cbn. rewrite Hc'. replace (off + k - (cur + len c)) with 0 by lia.
      assert (Hk : k = len c - o /\ 0 <= o /\ 0 <= k <= len p) by lia.
      clear -Hk. clearbody o k. generalize (concat cs). intros d. list_ext.
Qed.

Lemma prefixes_lens a cs cs' : len <$> cs = len <$> cs' -> prefixes a cs = prefixes a cs'.
Proof.
  revert a cs'. induction cs as [|c cs IH]; intros a [|c' cs'] Hl; cbn in *; simplify_eq; [done|].
  f_equal. rewrite H. by apply IH.
Qed.

Lemma arrayWriteAt_is w t cs p off :
  array_is w t cs -> forallb buffered (regions t) = true -> 0 <= off < sum_len cs ->
  exists t' cs', WriteAt w t p off = (t', w, Z.min (len p) (sum_len cs - off), None) /\
    array_is w t' cs' /\ forallb buffered (regions t') = true /\ concat cs' = put (concat cs) off p.
Proof.
  intros Ht Hbuf Hoff. destruct (rebuildCache_is w t cs Ht) as (Ht' & Hv & Hregs).
  unfold WriteAt, ensureCache. rewrite <- Hregs in Hbuf. set (t' := rebuildCache w t) in *.
  destruct (proj2 Ht' Hv) as [Hoffs Htot]. rewrite Htot, boundsCheck_in by done.
  destruct (findRegionIndex_is w t' cs off Ht' Hv Hoff) as (i & -> & Hi & Hle).
  pose proof (Forall2_length _ _ _ (proj1 Ht')) as Hlen.
  destruct (Z.ltb_spec (Z.of_nat i) 0); [lia|].
  destruct (Z.leb_spec (len (regions t')) (Z.of_nat i)); [unfold len in *; lia|].
  cbn [orb]. rewrite Nat2Z.id, Hoffs, prefixes_lookup by done. cbn [from_option id].
  rewrite <- (take_drop i (regions t')), forallb_app in Hbuf. apply andb_prop in Hbuf as [Hb1 Hb2].
  destruct (writeChildren_is w (drop i (regions t')) (drop i cs) p off (0 + sum_len (take i cs)) 0)
    as (rs' & cs' & -> & Hf' & Hb' & Hl' & Hc'); [apply Forall2_drop, Ht'|done|lia|].
  pose proof (sum_len_concat (take i cs)) as Hs1. pose proof (sum_len_concat (drop i cs)) as Hs2.
  assert (Hsum : sum_len cs = sum_len (take i cs) + sum_len (drop i cs))
    by (rewrite <- sum_len_app, take_drop; done).
  eexists _, (take i cs ++ cs'). split_and!; [do 2 f_equal; lia|split; cbn| |].
  - apply Forall2_app; [apply Forall2_take, Ht'|done].
  - intros _. assert (Hall : len <$> (take i cs ++ cs') = len <$> cs)
      by (rewrite fmap_app, Hl', <- fmap_app, take_drop; done).
    split; [by apply prefixes_lens|]. rewrite Hsum, sum_len_app. f_equal.
    rewrite <- (sum_len_concat cs'), Hc', len_put. done.
  - cbn. by rewrite forallb_app, Hb1.
  - rewrite concat_app, Hc'.
    replace (concat cs) with (concat (take i cs) ++ concat (drop i cs))
      by (rewrite <- concat_app, take_drop; done).
    clear -Hs1 Hle. generalize dependent (concat (take i cs)). generalize (concat (drop i cs)).
    intros d x Hs1. replace (off - (0 + sum_len (take i cs))) with (off - len x) by lia.
    rewrite <- Hs1 in Hle. clear -Hle. list_ext.
Qed.

End array.

Arguments RegionArray : clear implicits.

(** * Using an array *)

Inductive arrayOp {W} :=
| OpAppend (r : region W)
| OpSet (index : Z) (r : region W)
| OpRead (p : bytes) (off : Z)
| OpSize.
Arguments arrayOp : clear implicits.

Definition runArrayOp {W} (w : W) (t : RegionArray W) (op : arrayOp W) : RegionArray W :=
  match op with
  | OpAppend r => Append t r
  | OpSet index r => Set_ t index r
  | OpRead p off => (ReadAt w t p off).1
  | OpSize => (Size w t).1
  end.

(** The effect on the list of the regions' contents. *)
Inductive contentsOp {W} (w : W) : arrayOp W -> list bytes -> list bytes -> Prop :=
| c_append r c cs : region_is w r c -> contentsOp w (OpAppend r) cs (cs ++ [c])
| c_set index r c cs :
    region_is w r c -> 0 <= index < len cs ->
    contentsOp w (OpSet index r) cs (<[Z.to_nat index := c]> cs)
| c_setOut index r cs :
    ~ (0 <= index < len cs) -> contentsOp w (OpSet index r) cs cs
| c_read p off cs : contentsOp w (OpRead p off) cs cs
| c_size cs : contentsOp w OpSize cs cs.

Inductive contentsOps {W} (w : W) : list (arrayOp W) -> list bytes -> list bytes -> Prop :=
| c_done cs : contentsOps w [] cs cs
| c_step op ops cs cs1 cs2 :
    contentsOp w op cs cs1 -> contentsOps w ops cs1 cs2 -> contentsOps w (op :: ops) cs cs2.

Lemma runArrayOp_is {W} (w : W) t op cs cs' :
  array_is w t cs -> contentsOp w op cs cs' -> array_is w (runArrayOp w t op) cs'.
Proof.
  intros Ht Hop. pose proof (Forall2_length _ _ _ (proj1 Ht)) as Hlen.
  destruct Hop as [r c cs Hr|i r c cs Hr Hi|i r cs Hi|p off cs|cs]; cbn.
  - split; [|done]. cbn. apply Forall2_app; [apply Ht|by repeat constructor].
  - unfold Set_. unfold len in *. destruct (Z.leb_spec 0 i), (Z.ltb_spec i (Z.of_nat (length (regions t)))); try lia.
    split; [|done]. cbn. apply Forall2_insert; [apply Ht|done].
  - unfold Set_. unfold len in *. destruct (Z.leb_spec 0 i), (Z.ltb_spec i (Z.of_nat (length (regions t)))); try lia; done.
  - by apply arrayReadAt_is.
  - by apply rebuildCache_is.
Qed.

Lemma runArrayOps_is {W} (w : W) ops : forall t cs cs',
  array_is w t cs -> contentsOps w ops cs cs' -> array_is w (foldl (runArrayOp w) t ops) cs'.
Proof.
  induction ops as [|op ops IH]; intros t cs cs' Ht Hops; inversion Hops; subst; cbn; [done|].
  eapply IH; [|done]. by eapply runArrayOp_is.
Qed.

(** * Properties *)

(** An array reads as the concatenation of the current contents of its
    regions, whatever appends, replacements and reads preceded: the cached
    offsets are never used after they have become stale, and the binary search
    starts at the region that holds the offset. *)
Theorem array_reads_concat {W} (w : W) initial cs0 ops cs p off :
  Forall2 (region_is w) initial cs0 -> contentsOps w ops cs0 cs ->
  let t := foldl (runArrayOp w) (NewRegionArray initial) ops in
  (ReadAt w t p off).2 = rawRead (concat cs) p off /\ (Size w t).2 = len (concat cs).
Proof.
  intros Hinit Hops t.
  assert (Ht : array_is w t cs) by (eapply runArrayOps_is; [|done]; by split).
  split; [by apply arrayReadAt_is|]. destruct (rebuildCache_is w t cs Ht) as (Ht' & Hv & _).
  cbn. rewrite sum_len_concat. by apply (proj2 Ht').
Qed.

(** Writing through an array over buffers and reading it back anywhere gives
    the concatenated contents with the written bytes in place, across region
    boundaries. *)
Theorem array_write_read {W} (w : W) initial cs p off q off' :
  Forall2 (region_is w) initial cs -> forallb buffered initial = true ->
  0 <= off < len (concat cs) ->
  exists t, WriteAt w (NewRegionArray initial) p off
      = (t, w, Z.min (len p) (len (concat cs) - off), None) /\
    (ReadAt w t q off').2 = rawRead (put (concat cs) off p) q off'.
Proof.
  intros Hinit Hbuf Hoff. rewrite sum_len_concat in *.
  destruct (arrayWriteAt_is w (NewRegionArray initial) cs p off) as (t & cs' & -> & Ht & _ & Hc);
    [by split|done|done|].
  exists t. split; [done|]. rewrite <- Hc. by apply arrayReadAt_is.
Qed.
