(* ===== verification/Layout.v ===== *)
(** On-disk structures as tables of accessors.

    The generated accessors of [src/internal/core/ext4image/ext4/ext4_gen.go] read and
    write little-endian integers at fixed places of a byte array.  A structure is modelled
    by the table of its fields; a field has the place its getter reads and the place its
    setter writes, each as it stands in the code.  [layoutOk] checks a table: getter and
    setter of a field use the same place, and the fields do not overlap and lie inside the
    structure; it implies that every getter gives back what its setter wrote and that no
    setter disturbs another field ([layout_get_set], [layout_join]). *)

From Stdlib Require Import String.
From S2P Require Import Prelude.

#[local] Open Scope string_scope.
#[local] Open Scope Z_scope.

(** The slice an accessor takes of the array, and the number of bytes of its integer:
    [t[lo:hi]], or [t[(lo + (i * step)):(lo' + ((i + 1) * step'))]] for [i] below [n]. *)
Inductive place :=
  | At (lo hi bytes : Z)
  | Nth (lo step lo' step' bytes n : Z).

Record field := mkField {
  fname : string;
  fget : place;
  fset : place;
}.

(** A field that is stored in two: how the getter joins the low and the high half, and how
    the setter splits, with the widths of the halves in bytes. *)
Record joined := mkJoined {
  jname : string;
  jget : Z * Z * string * string;
  jset : Z * Z * string * string;
}.

Record struct := mkStruct {
  sname : string;
  ssize : Z;
  sfields : list field;
  sjoins : list joined;
}.

(** * Accessors *)

Definition first (p : place) (i : Z) : Z := match p with At lo _ _ => lo | Nth lo step _ _ _ _ => lo + i * step end.
Definition last (p : place) (i : Z) : Z := match p with At _ hi _ => hi | Nth _ _ lo' step' _ _ => lo' + (i + 1) * step' end.
Definition bytesAt (p : place) : Z := match p with At _ _ w => w | Nth _ _ _ _ w _ => w end.
Definition countOf (p : place) : Z := match p with At _ _ _ => 1 | Nth _ _ _ _ _ n => n end.

(** The slice is inside the array and has room for the integer; otherwise it panics. *)
Definition inBounds (p : place) (i : Z) (b : bytes) : bool :=
  (0 <=? first p i) && (first p i <=? last p i) && (last p i <=? len b) && (bytesAt p <=? last p i - first p i).

(** [Err] is the result [false] for an index outside the array field. *)
Definition getElem (f : field) (i : Z) (b : bytes) : result unit Z :=
  let p := fget f in
  if countOf p <=? i then Err tt
  else if inBounds p i b then Ok (unle (slice b (first p i) (first p i + bytesAt p)))
  else Panic.

Definition setElem (f : field) (i v : Z) (b : bytes) : result unit bytes :=
  let p := fset f in
  if countOf p <=? i then Err tt
  else if inBounds p i b then Ok (put b (first p i) (le (Z.to_nat (bytesAt p)) v))
  else Panic.

(** Accessors of a scalar field take no index. *)
Definition getField (f : field) (b : bytes) : result unit Z := getElem f 0 b.
Definition setField (f : field) (v : Z) (b : bytes) : result unit bytes := setElem f 0 v b.

Definition findField (s : struct) (name : string) : option field :=
  List.find (fun f => fname f =? name)%string (sfields s).

(** [join_uint32_uint16] and the like: the low half has [w] bytes. *)
Definition join (w lo hi : Z) : Z := Z.lor lo (Z.shiftl hi (8 * w)).
Definition split (w wh v : Z) : Z * Z := (Z.land v (Z.ones (8 * w)), wrap (8 * wh) (Z.shiftr v (8 * w))).

(** A method of the structure by its name. *)
Definition getNamed (s : struct) (name : string) (b : bytes) : result unit Z :=
  match findField s name with Some f => getField f b | None => Panic end.
Definition setNamed (s : struct) (name : string) (v : Z) (b : bytes) : result unit bytes :=
  match findField s name with Some f => setField f v b | None => Panic end.

Definition getJoin (s : struct) (j : joined) (b : bytes) : result unit Z :=
  let '(w, wh, lo, hi) := jget j in
  x ← getNamed s lo b;
  y ← getNamed s hi b;
  Ok (join w x y).

Definition setJoin (s : struct) (j : joined) (v : Z) (b : bytes) : result unit bytes :=
  let '(w, wh, lo, hi) := jset j in
  let '(x, y) := split w wh v in
  b ← setNamed s lo x b;
  setNamed s hi y b.

(** [ReadAt] and [WriteAt] of a generated structure: the buffer, or the structure,
    after the call, and the count; [None] is the error at the end. *)
Definition structReadAt (s : struct) (b p : bytes) (o : Z) : result unit (bytes * Z) :=
  if ssize s <? o then Err tt
  else if o <? 0 then Panic
  else Ok (copy_into p (drop (Z.to_nat o) b), Z.min (len p) (len b - o)).

Definition structWriteAt (s : struct) (b p : bytes) (o : Z) : result unit (bytes * Z) :=
  if ssize s <? o then Err tt
  else if o <? 0 then Panic
  else Ok (put b o p, Z.min (len p) (len b - o)).

(** * Well-formed tables *)

Definition foff (f : field) : Z := first (fget f) 0.
Definition fwidth (f : field) : Z := bytesAt (fget f).
Definition fcount (f : field) : Z := countOf (fget f).

(** Consecutive integers of the width that is read. *)
Definition placeOk (p : place) : bool :=
  match p with
  | At lo hi w => hi =? lo + w
  | Nth lo step lo' step' w _ => (lo' =? lo) && (step =? w) && (step' =? w)
  end.

Definition place_eqb (p q : place) : bool :=
  match p, q with
  | At a b c, At a' b' c' => (a =? a') && (b =? b') && (c =? c')
  | Nth a b c d e f, Nth a' b' c' d' e' f' =>
      (a =? a') && (b =? b') && (c =? c') && (d =? d') && (e =? e') && (f =? f')
  | _, _ => false
  end.

(** Getter and setter use the same place. *)
Definition fieldOk (f : field) : bool := placeOk (fget f) && place_eqb (fset f) (fget f).

(** Each field starts where the one before it ends. *)
Fixpoint tiles (o : Z) (fs : list field) (n : Z) : bool :=
  match fs with
  | [] => o =? n
  | f :: fs =>
      (foff f =? o) && (0 <? fwidth f) && (0 <? fcount f) && tiles (o + fwidth f * fcount f) fs n
  end.

(** Fields may leave gaps but come in order of their offsets. *)
Fixpoint ordered (o : Z) (fs : list field) (n : Z) : bool :=
  match fs with
  | [] => o <=? n
  | f :: fs =>
      (o <=? foff f) && (0 <? fwidth f) && (0 <? fcount f) &&
      ordered (foff f + fwidth f * fcount f) fs n
  end.

Fixpoint distinct (l : list string) : bool :=
  match l with
  | [] => true
  | x :: l => negb (existsb (fun y => x =? y)%string l) && distinct l
  end.

(** The halves of a joined field are two scalar fields of the structure, of the widths they
    are joined with, and getter and setter use the same. *)
Definition joinOk (s : struct) (j : joined) : bool :=
  let '(w, wh, lo, hi) := jget j in
  let '(w', wh', lo', hi') := jset j in
  (w' =? w) && (wh' =? wh) && (lo' =? lo)%string && (hi' =? hi)%string && negb (lo =? hi)%string &&
  match findField s lo, findField s hi with
  | Some l, Some h => (fcount l =? 1) && (fcount h =? 1) && (fwidth l =? w) && (fwidth h =? wh)
  | _, _ => false
  end.

Definition layoutOk (s : struct) : bool :=
  forallb fieldOk (sfields s) && ordered 0 (sfields s) (ssize s) && distinct (map fname (sfields s)) &&
  forallb (joinOk s) (sjoins s).

(** * What a well-formed table guarantees *)

Lemma layoutOk_parts s : layoutOk s = true ->
  (forall f, f ∈ sfields s -> fieldOk f = true) /\ ordered 0 (sfields s) (ssize s) = true /\
  distinct (map fname (sfields s)) = true /\ (forall j, j ∈ sjoins s -> joinOk s j = true).
Proof.
  unfold layoutOk. rewrite !andb_true_iff, !forallb_forall. intros (((Hf & Ho) & Hd) & Hj).
  split; [|split; [done|split; [done|]]]; intros x Hx; apply list_elem_of_In in Hx; auto.
Qed.

Lemma place_eqb_eq p q : place_eqb p q = true -> p = q.
Proof.
  destruct p, q; cbn; try done; rewrite !andb_true_iff, !Z.eqb_eq; intros; f_equal; tauto.
Qed.

(** The cell of an element, for both accessors. *)
Lemma field_cell f i : fieldOk f = true -> 0 <= i < fcount f ->
  fset f = fget f /\ first (fget f) i = foff f + i * fwidth f /\ last (fget f) i = foff f + i * fwidth f + fwidth f.
Proof.
  unfold fieldOk. rewrite andb_true_iff. intros [Hp ->%place_eqb_eq] Hi. split; [done|].
  unfold fcount, foff, fwidth in *. destruct (fget f); cbn in *.
  - apply Z.eqb_eq in Hp. assert (i = 0) as -> by lia. lia.
  - rewrite !andb_true_iff, !Z.eqb_eq in Hp. destruct Hp as [[-> ->] ->]. lia.
Qed.

Lemma getElem_cell f i b : fieldOk f = true -> 0 <= i < fcount f -> 0 <= foff f -> 0 < fwidth f ->
  foff f + i * fwidth f + fwidth f <= len b ->
  getElem f i b = Ok (unle (slice b (foff f + i * fwidth f) (foff f + i * fwidth f + fwidth f))).
Proof.
  intros Hf Hi Ho Hw Hb. destruct (field_cell f i Hf Hi) as (_ & E1 & E2). unfold getElem, inBounds. cbv zeta.
  fold (fcount f) (fwidth f). rewrite E1, E2. destruct (Z.leb_spec (fcount f) i); [lia|].
  rewrite !(proj2 (Z.leb_le _ _)) by nia. done.
Qed.

Lemma setElem_cell f i v b : fieldOk f = true -> 0 <= i < fcount f -> 0 <= foff f -> 0 < fwidth f ->
  foff f + i * fwidth f + fwidth f <= len b ->
  setElem f i v b = Ok (put b (foff f + i * fwidth f) (le (Z.to_nat (fwidth f)) v)).
Proof.
  intros Hf Hi Ho Hw Hb. destruct (field_cell f i Hf Hi) as (E0 & E1 & E2). unfold setElem, inBounds. cbv zeta.
  rewrite E0. fold (fcount f) (fwidth f). rewrite E1, E2. destruct (Z.leb_spec (fcount f) i); [lia|].
  rewrite !(proj2 (Z.leb_le _ _)) by nia. done.
Qed.

Lemma load_store o w v b : 0 <= o -> 0 < w -> o + w <= len b ->
  unle (slice (put b o (le (Z.to_nat w) v)) o (o + w)) = wrap (8 * w) v.
Proof.
  intros Ho Hw Hb. assert (len (le (Z.to_nat w) v) = w) as Hl by (rewrite len_le; lia).
  replace (o + w) with (o + len (le (Z.to_nat w) v)) by lia.
  rewrite slice_put_same by lia. rewrite unle_le. f_equal. lia.
Qed.

Lemma load_store_other o w v p k b : 0 <= o -> 0 <= p -> 0 < w -> 0 < k -> o + w <= p \/ p + k <= o ->
  slice (put b o (le (Z.to_nat w) v)) p (p + k) = slice b p (p + k).
Proof. intros Ho Hp Hw Hk Hd. apply slice_put_out; [done..|]. rewrite len_le. lia. Qed.

(** A cell of a table: one element of one field. *)
Definition isCell (s : struct) (f : field) (i : Z) : Prop := f ∈ sfields s /\ 0 <= i < fcount f.

Lemma ordered_range o fs n f :
  ordered o fs n = true -> f ∈ fs -> o <= foff f /\ 0 < fwidth f /\ 0 < fcount f /\
    foff f + fwidth f * fcount f <= n.
Proof.
  revert o. induction fs as [|g fs IH]; intros o Ht Hf; [by apply elem_of_nil in Hf|].
  cbn in Ht. rewrite !andb_true_iff, Z.leb_le, !Z.ltb_lt in Ht. destruct Ht as (((Ho & Hw) & Hc) & Ht).
  assert (foff g + fwidth g * fcount g <= n) as Hend.
  { clear -Ht. revert Ht. generalize (foff g + fwidth g * fcount g). induction fs as [|h fs IH]; intros z; cbn.
    - rewrite Z.leb_le. lia.
    - rewrite !andb_true_iff, Z.leb_le, !Z.ltb_lt. intros (((Ho & Hw) & Hc) & Ht). apply IH in Ht. nia. }
  apply elem_of_cons in Hf as [->|Hf]; [lia|]. apply (IH _ Ht) in Hf. nia.
Qed.

(** Fields of different names are disjoint. *)
Lemma ordered_disjoint o fs n f g :
  ordered o fs n = true -> f ∈ fs -> g ∈ fs -> fname f <> fname g ->
  foff f + fwidth f * fcount f <= foff g \/ foff g + fwidth g * fcount g <= foff f.
Proof.
  revert o. induction fs as [|h fs IH]; intros o Ht Hf Hg Hne; [by apply elem_of_nil in Hf|].
  cbn in Ht. rewrite !andb_true_iff in Ht. destruct Ht as (_ & Ht).
  apply elem_of_cons in Hf as [->|Hf], Hg as [->|Hg]; [done|..].
  - apply (ordered_range _ _ _ g Ht) in Hg. lia.
  - apply (ordered_range _ _ _ f Ht) in Hf. lia.
  - by apply (IH _ Ht).
Qed.

(** Different cells of a well-formed table do not overlap. *)
Lemma cells_disjoint s f g i j :
  layoutOk s = true -> isCell s f i -> isCell s g j -> (fname f, i) <> (fname g, j) ->
  (fname f = fname g -> f = g) ->
  foff f + i * fwidth f + fwidth f <= foff g + j * fwidth g \/
  foff g + j * fwidth g + fwidth g <= foff f + i * fwidth f.
Proof.
  intros (_ & Ht & _)%layoutOk_parts [Hf Hi] [Hg Hj] Hne Hsame.
  pose proof (ordered_range _ _ _ f Ht Hf). pose proof (ordered_range _ _ _ g Ht Hg).
  destruct (String.string_dec (fname f) (fname g)) as [E|E].
  - specialize (Hsame E). subst g. assert (i <> j) by congruence. nia.
  - destruct (ordered_disjoint _ _ _ f g Ht Hf Hg E); nia.
Qed.

Lemma distinct_inj fs f g :
  distinct (map fname fs) = true -> f ∈ fs -> g ∈ fs -> fname f = fname g -> f = g.
Proof.
  induction fs as [|h fs IH]; intros Hd Hf Hg E; [by apply elem_of_nil in Hf|].
  cbn in Hd. rewrite andb_true_iff, negb_true_iff in Hd. destruct Hd as [Hh Hd].
  assert (forall x, x ∈ fs -> fname h <> fname x) as Hnew.
  { intros x Hx Ex. enough (existsb (fun y => fname h =? y)%string (map fname fs) = true) by congruence.
    apply existsb_exists. exists (fname x). split; [|by apply String.eqb_eq].
    apply in_map. by apply list_elem_of_In. }
  apply elem_of_cons in Hf as [->|Hf], Hg as [->|Hg]; [done|..].
  - by destruct (Hnew g Hg).
  - by destruct (Hnew f Hf).
  - by apply IH.
Qed.

(** A cell is inside the structure. *)
Lemma cell_range s f i : layoutOk s = true -> isCell s f i ->
  fieldOk f = true /\ 0 <= foff f /\ 0 < fwidth f /\ foff f + i * fwidth f + fwidth f <= ssize s.
Proof.
  intros (Hok & Ht & _)%layoutOk_parts [Hf Hi]. pose proof (ordered_range _ _ _ f Ht Hf).
  split; [by apply Hok|]. split; [lia|]. split; [lia|]. nia.
Qed.

(** Writing a cell reads back, and disturbs no other cell. *)
Lemma layout_get_set s f g i j v b :
  layoutOk s = true -> len b = ssize s -> isCell s f i -> isCell s g j ->
  exists b', setElem f i v b = Ok b' /\ len b' = ssize s /\
    getElem f i b' = Ok (wrap (8 * fwidth f) v) /\
    ((fname f, i) <> (fname g, j) -> getElem g j b' = getElem g j b).
Proof.
  intros Hok Hb Hf Hg. destruct (cell_range s f i Hok Hf) as (Ff & Of & Wf & Rf).
  destruct (cell_range s g j Hok Hg) as (Fg & Og & Wg & Rg). pose proof Hf as [Ef Hi]. pose proof Hg as [Eg Hj].
  rewrite (setElem_cell f i v b) by (done || lia). eexists. split; [done|]. split; [by rewrite len_put|]. split.
  - rewrite getElem_cell by (done || rewrite ?len_put; lia). by rewrite load_store by (done || nia).
  - intros Hne. rewrite !(getElem_cell g j) by (done || rewrite ?len_put; lia).
    rewrite load_store_other; [done|nia|nia|done|done|].
    apply (cells_disjoint s f g i j Hok Hf Hg Hne). pose proof (layoutOk_parts s Hok) as (_ & _ & Hd & _).
    by apply (distinct_inj (sfields s)).
Qed.

Lemma join_split w wh v :
  0 < w -> 0 < wh -> let '(x, y) := split w wh v in
  in_width (8 * w) x /\ in_width (8 * wh) y /\ join w x y = wrap (8 * (w + wh)) v.
Proof.
  intros Hw Hh. cbn. split; [|split].
  - unfold in_width. rewrite Z.land_ones by lia. apply Z.mod_pos_bound. lia.
  - apply wrap_range. lia.
  - unfold join, wrap. rewrite <- !Z.land_ones by lia. apply Z.bits_inj'. intros k Hk.
    rewrite Z.lor_spec, Z.shiftl_spec, !Z.land_spec by lia.
    destruct (Z.ltb_spec k (8 * w)).
    + rewrite (Z.testbit_neg_r _ (k - 8 * w)), orb_false_r by lia.
      rewrite !Z.ones_spec_low by lia. done.
    + rewrite (Z.ones_spec_high (8 * w)), andb_false_r by lia. cbn [orb].
      rewrite Z.shiftr_spec by lia. replace (k - 8 * w + 8 * w) with k by lia.
      f_equal. destruct (Z.ltb_spec k (8 * (w + wh))).
      * rewrite !Z.ones_spec_low by lia. done.
      * rewrite !Z.ones_spec_high by lia. done.
Qed.

Lemma findField_cell s name f : findField s name = Some f -> fcount f = 1 -> isCell s f 0 /\ fname f = name.
Proof.
  intros [Hin E]%List.find_some Hc. apply String.eqb_eq in E. split; [|done]. split; [by apply list_elem_of_In|lia].
Qed.

(** A joined field reads back what was written through both halves, and no other
    field changes. *)
Lemma layout_join s j g i v b (lo := (jget j).1.2) (hi := (jget j).2) (n := (jget j).1.1.1 + (jget j).1.1.2) :
  layoutOk s = true -> len b = ssize s -> j ∈ sjoins s -> isCell s g i ->
  exists b', setJoin s j v b = Ok b' /\ len b' = ssize s /\ getJoin s j b' = Ok (wrap (8 * n) v) /\
    (fname g <> lo -> fname g <> hi -> getElem g i b' = getElem g i b).
Proof.
  intros Hok Hb Hj Hg. pose proof (layoutOk_parts s Hok) as (_ & _ & _ & Hjs). specialize (Hjs j Hj).
  unfold joinOk in Hjs. unfold setJoin, getJoin, lo, hi, n in *. clear lo hi n.
  destruct (jget j) as [[[w wh] lo] hi], (jset j) as [[[w' wh'] lo'] hi']. cbn [fst snd].
  rewrite !andb_true_iff, !Z.eqb_eq, negb_true_iff, !String.eqb_eq, String.eqb_neq in Hjs.
  destruct Hjs as (((((-> & ->) & ->) & ->) & Hne) & Hjs). unfold setNamed, getNamed, setField, getField.
  destruct (findField s lo) as [l|] eqn:El; [|done]. destruct (findField s hi) as [h|] eqn:Eh; [|done].
  rewrite !andb_true_iff, !Z.eqb_eq in Hjs. destruct Hjs as (((Cl & Ch) & <-) & <-).
  apply findField_cell in El as [Hl <-]; [|done]. apply findField_cell in Eh as [Hh <-]; [|done].
  pose proof (cell_range s l 0 Hok Hl) as (_ & _ & Wl & _). pose proof (cell_range s h 0 Hok Hh) as (_ & _ & Wh & _).
  pose proof (join_split (fwidth l) (fwidth h) v Wl Wh) as Hs. destruct (split _ _ v) as [x y]. destruct Hs as (Hx & Hy & Hxy).
  destruct (layout_get_set s l h 0 0 x b Hok Hb Hl Hh) as (b1 & E1 & L1 & G1 & _).
  destruct (layout_get_set s h l 0 0 y b1 Hok L1 Hh Hl) as (b2 & E2 & L2 & G2 & O2).
  exists b2. cbv [mbind result_bind]. rewrite E1. split; [done|]. split; [done|]. split.
  - rewrite O2 by congruence. rewrite G1, G2. rewrite !wrap_small by done. by rewrite Hxy.
  - intros Nl Nh. destruct (layout_get_set s l g 0 i x b Hok Hb Hl Hg) as (b1' & E1' & _ & _ & O1').
    destruct (layout_get_set s h g 0 i y b1 Hok L1 Hh Hg) as (b2' & E2' & _ & _ & O2').
    rewrite E1 in E1'. injection E1' as <-. rewrite E2 in E2'. injection E2' as <-.
    rewrite O2' by congruence. apply O1'. congruence.
Qed.
