(* ===== verification/Ext4Layout.v ===== *)
(** The structures of the ext4 file system:
    [src/internal/core/ext4image/ext4/ext4_gen.go], one table per structure in the
    vocabulary of [Layout]: for every field the place its getter reads and the place its
    setter writes.  [ext4_accessors]: every accessor of every structure reads back what its
    setter wrote, and no setter disturbs another field; [ext4_split_fields]: so do the
    accessors of the quantities that are stored in two fields. *)

From Stdlib Require Import String.
From S2P Require Import Prelude Layout.

#[local] Open Scope string_scope.
#[local] Open Scope Z_scope.

Definition BlockGroupDescriptor_fields1 : list field := [
  mkField "BlockBitmapLo" (At 0 4 4) (At 0 4 4); mkField "InodeBitmapLo" (At 4 8 4) (At 4 8 4);
  mkField "InodeTableLo" (At 8 12 4) (At 8 12 4);
  mkField "FreeBlocksCountLo" (At 12 14 2) (At 12 14 2);
  mkField "FreeInodesCountLo" (At 14 16 2) (At 14 16 2);
  mkField "UsedDirsCountLo" (At 16 18 2) (At 16 18 2);
  mkField "Flags" (At 18 20 2) (At 18 20 2);
  mkField "ExcludeBitmapLo" (At 20 24 4) (At 20 24 4);
  mkField "BlockBitmapCsumLo" (At 24 26 2) (At 24 26 2);
  mkField "InodeBitmapCsumLo" (At 26 28 2) (At 26 28 2);
  mkField "ItableUnusedLo" (At 28 30 2) (At 28 30 2);
  mkField "Checksum" (At 30 32 2) (At 30 32 2);
  mkField "BlockBitmapHi" (At 32 36 4) (At 32 36 4);
  mkField "InodeBitmapHi" (At 36 40 4) (At 36 40 4);
  mkField "InodeTableHi" (At 40 44 4) (At 40 44 4);
  mkField "FreeBlocksCountHi" (At 44 46 2) (At 44 46 2);
  mkField "FreeInodesCountHi" (At 46 48 2) (At 46 48 2);
  mkField "UsedDirsCountHi" (At 48 50 2) (At 48 50 2);
  mkField "ItableUnusedHi" (At 50 52 2) (At 50 52 2);
  mkField "ExcludeBitmapHi" (At 52 56 4) (At 52 56 4);
  mkField "BlockBitmapCsumHi" (At 56 58 2) (At 56 58 2)
].

Definition BlockGroupDescriptor_fields2 : list field := [
  mkField "InodeBitmapCsumHi" (At 58 60 2) (At 58 60 2);
  mkField "Reserved" (At 60 64 4) (At 60 64 4)
].

Definition BlockGroupDescriptor_joins : list joined := [
  mkJoined "BlockBitmap" (4, 4, "BlockBitmapLo", "BlockBitmapHi") (4, 4, "BlockBitmapLo", "BlockBitmapHi");
  mkJoined "InodeBitmap" (4, 4, "InodeBitmapLo", "InodeBitmapHi") (4, 4, "InodeBitmapLo", "InodeBitmapHi");
  mkJoined "InodeTable" (4, 4, "InodeTableLo", "InodeTableHi") (4, 4, "InodeTableLo", "InodeTableHi");
  mkJoined "FreeBlocksCount" (2, 2, "FreeBlocksCountLo", "FreeBlocksCountHi") (2, 2, "FreeBlocksCountLo", "FreeBlocksCountHi");
  mkJoined "FreeInodesCount" (2, 2, "FreeInodesCountLo", "FreeInodesCountHi") (2, 2, "FreeInodesCountLo", "FreeInodesCountHi");
  mkJoined "UsedDirsCount" (2, 2, "UsedDirsCountLo", "UsedDirsCountHi") (2, 2, "UsedDirsCountLo", "UsedDirsCountHi")
].

Definition BlockGroupDescriptor : struct := mkStruct "BlockGroupDescriptor" 64
  (BlockGroupDescriptor_fields1 ++ BlockGroupDescriptor_fields2)
  BlockGroupDescriptor_joins.

Definition DirEntry2_fields : list field := [
  mkField "Inode" (At 0 4 4) (At 0 4 4); mkField "RecLen" (At 4 6 2) (At 4 6 2);
  mkField "NameLen" (At 6 7 1) (At 6 7 1); mkField "FileType" (At 7 8 1) (At 7 8 1)
].

Definition DirEntry2 : struct :=
  mkStruct "DirEntry2" 8 DirEntry2_fields [].

Definition ExtentTreeHeader_fields : list field := [
  mkField "Magic" (At 0 2 2) (At 0 2 2); mkField "Entries" (At 2 4 2) (At 2 4 2);
  mkField "Max" (At 4 6 2) (At 4 6 2); mkField "Depth" (At 6 8 2) (At 6 8 2);
  mkField "Generation" (At 8 12 4) (At 8 12 4)
].

Definition ExtentTreeHeader : struct :=
  mkStruct "ExtentTreeHeader" 12 ExtentTreeHeader_fields [].

Definition ExtentTreeIdx_fields : list field := [
  mkField "Block" (At 0 4 4) (At 0 4 4); mkField "LeafLo" (At 4 8 4) (At 4 8 4);
  mkField "LeafHi" (At 8 10 2) (At 8 10 2); mkField "Unused" (At 10 12 2) (At 10 12 2)
].

Definition ExtentTreeIdx : struct :=
  mkStruct "ExtentTreeIdx" 12 ExtentTreeIdx_fields [].

Definition ExtentTreeNode_fields : list field := [
  mkField "Block" (At 0 4 4) (At 0 4 4); mkField "Len" (At 4 6 2) (At 4 6 2);
  mkField "StartHi" (At 6 8 2) (At 6 8 2); mkField "StartLo" (At 8 12 4) (At 8 12 4)
].

Definition ExtentTreeNode_joins : list joined := [
  mkJoined "Start" (4, 2, "StartLo", "StartHi") (4, 2, "StartLo", "StartHi")
].

Definition ExtentTreeNode : struct :=
  mkStruct "ExtentTreeNode" 12 ExtentTreeNode_fields ExtentTreeNode_joins.

Definition ExtentTreeTail_fields : list field := [
  mkField "Checksum" (At 0 4 4) (At 0 4 4)
].

Definition ExtentTreeTail : struct :=
  mkStruct "ExtentTreeTail" 4 ExtentTreeTail_fields [].

Definition Inode_fields1 : list field := [
  mkField "Mode" (At 0 2 2) (At 0 2 2); mkField "Uid" (At 2 4 2) (At 2 4 2);
  mkField "SizeLo" (At 4 8 4) (At 4 8 4); mkField "Atime" (At 8 12 4) (At 8 12 4);
  mkField "Ctime" (At 12 16 4) (At 12 16 4); mkField "Mtime" (At 16 20 4) (At 16 20 4);
  mkField "Dtime" (At 20 24 4) (At 20 24 4); mkField "Gid" (At 24 26 2) (At 24 26 2);
  mkField "LinksCount" (At 26 28 2) (At 26 28 2); mkField "BlocksLo" (At 28 32 4) (At 28 32 4);
  mkField "Flags" (At 32 36 4) (At 32 36 4); mkField "IVersion" (At 36 40 4) (At 36 40 4);
  mkField "BlockMagic" (At 40 42 2) (At 40 42 2);
  mkField "BlockEntries" (At 42 44 2) (At 42 44 2);
  mkField "BlockMax" (At 44 46 2) (At 44 46 2); mkField "BlockDepth" (At 46 48 2) (At 46 48 2);
  mkField "BlockGeneration" (At 48 52 4) (At 48 52 4);
  mkField "Block0Block" (At 52 56 4) (At 52 56 4);
  mkField "Block0Len" (At 56 58 2) (At 56 58 2);
  mkField "Block0StartHi" (At 58 60 2) (At 58 60 2);
  mkField "Block0StartLo" (At 60 64 4) (At 60 64 4)
].

Definition Inode_fields2 : list field := [
  mkField "Block1Block" (At 64 68 4) (At 64 68 4);
  mkField "Block1Len" (At 68 70 2) (At 68 70 2);
  mkField "Block1StartHi" (At 70 72 2) (At 70 72 2);
  mkField "Block1StartLo" (At 72 76 4) (At 72 76 4);
  mkField "Block2Block" (At 76 80 4) (At 76 80 4);
  mkField "Block2Len" (At 80 82 2) (At 80 82 2);
  mkField "Block2StartHi" (At 82 84 2) (At 82 84 2);
  mkField "Block2StartLo" (At 84 88 4) (At 84 88 4);
  mkField "Block3Block" (At 88 92 4) (At 88 92 4);
  mkField "Block3Len" (At 92 94 2) (At 92 94 2);
  mkField "Block3StartHi" (At 94 96 2) (At 94 96 2);
  mkField "Block3StartLo" (At 96 100 4) (At 96 100 4);
  mkField "Generation" (At 100 104 4) (At 100 104 4);
  mkField "FileAclLo" (At 104 108 4) (At 104 108 4);
  mkField "SizeHigh" (At 108 112 4) (At 108 112 4);
  mkField "ObsoFaddr" (At 112 116 4) (At 112 116 4);
  mkField "BlocksHigh" (At 116 118 2) (At 116 118 2);
  mkField "FileAclHigh" (At 118 120 2) (At 118 120 2);
  mkField "UidHigh" (At 120 122 2) (At 120 122 2);
  mkField "GidHigh" (At 122 124 2) (At 122 124 2);
  mkField "ChecksumLo" (At 124 126 2) (At 124 126 2)
].

Definition Inode_fields3 : list field := [
  mkField "Reserved" (At 126 128 2) (At 126 128 2);
  mkField "ExtraIsize" (At 128 130 2) (At 128 130 2);
  mkField "ChecksumHi" (At 130 132 2) (At 130 132 2);
  mkField "CtimeExtra" (At 132 136 4) (At 132 136 4);
  mkField "MtimeExtra" (At 136 140 4) (At 136 140 4);
  mkField "AtimeExtra" (At 140 144 4) (At 140 144 4);
  mkField "Crtime" (At 144 148 4) (At 144 148 4);
  mkField "CrtimeExtra" (At 148 152 4) (At 148 152 4);
  mkField "VersionHi" (At 152 156 4) (At 152 156 4);
  mkField "Projid" (At 156 160 4) (At 156 160 4);
  mkField "Extra" (Nth 160 1 160 1 1 96) (Nth 160 1 160 1 1 96)
].

Definition Inode_joins : list joined := [
  mkJoined "Block0Start" (4, 2, "Block0StartLo", "Block0StartHi") (4, 2, "Block0StartLo", "Block0StartHi");
  mkJoined "Block1Start" (4, 2, "Block1StartLo", "Block1StartHi") (4, 2, "Block1StartLo", "Block1StartHi");
  mkJoined "Block2Start" (4, 2, "Block2StartLo", "Block2StartHi") (4, 2, "Block2StartLo", "Block2StartHi");
  mkJoined "Block3Start" (4, 2, "Block3StartLo", "Block3StartHi") (4, 2, "Block3StartLo", "Block3StartHi");
  mkJoined "NSize" (4, 4, "SizeLo", "SizeHigh") (4, 4, "SizeLo", "SizeHigh");
  mkJoined "Blocks" (4, 2, "BlocksLo", "BlocksHigh") (4, 2, "BlocksLo", "BlocksHigh")
].

Definition Inode : struct := mkStruct "Inode" 256
  (Inode_fields1 ++ Inode_fields2 ++ Inode_fields3)
  Inode_joins.

Definition Superblock_fields1 : list field := [
  mkField "InodesCount" (At 0 4 4) (At 0 4 4); mkField "BlocksCountLo" (At 4 8 4) (At 4 8 4);
  mkField "RBlocksCountLo" (At 8 12 4) (At 8 12 4);
  mkField "FreeBlocksCountLo" (At 12 16 4) (At 12 16 4);
  mkField "FreeInodesCount" (At 16 20 4) (At 16 20 4);
  mkField "FirstDataBlock" (At 20 24 4) (At 20 24 4);
  mkField "LogBlockSize" (At 24 28 4) (At 24 28 4);
  mkField "LogClusterSize" (At 28 32 4) (At 28 32 4);
  mkField "BlocksPerGroup" (At 32 36 4) (At 32 36 4);
  mkField "ClustersPerGroup" (At 36 40 4) (At 36 40 4);
  mkField "InodesPerGroup" (At 40 44 4) (At 40 44 4);
  mkField "Mtime" (At 44 48 4) (At 44 48 4); mkField "Wtime" (At 48 52 4) (At 48 52 4);
  mkField "MntCount" (At 52 54 2) (At 52 54 2);
  mkField "MaxMntCount" (At 54 56 2) (At 54 56 2); mkField "Magic" (At 56 58 2) (At 56 58 2);
  mkField "State" (At 58 60 2) (At 58 60 2); mkField "Errors" (At 60 62 2) (At 60 62 2);
  mkField "MinorRevLevel" (At 62 64 2) (At 62 64 2);
  mkField "Lastcheck" (At 64 68 4) (At 64 68 4);
  mkField "Checkinterval" (At 68 72 4) (At 68 72 4)
].

Definition Superblock_fields2 : list field := [
  mkField "CreatorOs" (At 72 76 4) (At 72 76 4); mkField "RevLevel" (At 76 80 4) (At 76 80 4);
  mkField "DefResuid" (At 80 82 2) (At 80 82 2); mkField "DefResgid" (At 82 84 2) (At 82 84 2);
  mkField "FirstIno" (At 84 88 4) (At 84 88 4); mkField "InodeSize" (At 88 90 2) (At 88 90 2);
  mkField "BlockGroupNr" (At 90 92 2) (At 90 92 2);
  mkField "FeatureCompat" (At 92 96 4) (At 92 96 4);
  mkField "FeatureIncompat" (At 96 100 4) (At 96 100 4);
  mkField "FeatureRoCompat" (At 100 104 4) (At 100 104 4);
  mkField "Uuid" (Nth 104 1 104 1 1 16) (Nth 104 1 104 1 1 16);
  mkField "VolumeName" (Nth 120 1 120 1 1 16) (Nth 120 1 120 1 1 16);
  mkField "LastMounted" (Nth 136 1 136 1 1 64) (Nth 136 1 136 1 1 64);
  mkField "AlgorithmUsageBitmap" (At 200 204 4) (At 200 204 4);
  mkField "PreallocBlocks" (At 204 205 1) (At 204 205 1);
  mkField "PreallocDirBlocks" (At 205 206 1) (At 205 206 1);
  mkField "ReservedGdtBlocks" (At 206 208 2) (At 206 208 2)
].

Definition Superblock_fields3 : list field := [
  mkField "JournalUuid" (Nth 208 1 208 1 1 16) (Nth 208 1 208 1 1 16);
  mkField "JournalInum" (At 224 228 4) (At 224 228 4);
  mkField "JournalDev" (At 228 232 4) (At 228 232 4);
  mkField "LastOrphan" (At 232 236 4) (At 232 236 4);
  mkField "HashSeed" (Nth 236 4 236 4 4 4) (Nth 236 4 236 4 4 4);
  mkField "DefHashVersion" (At 252 253 1) (At 252 253 1);
  mkField "JnlBackupType" (At 253 254 1) (At 253 254 1);
  mkField "DescSize" (At 254 256 2) (At 254 256 2);
  mkField "SDefaultMountOpts" (At 256 260 4) (At 256 260 4);
  mkField "FirstMetaBg" (At 260 264 4) (At 260 264 4);
  mkField "MkfsTime" (At 264 268 4) (At 264 268 4);
  mkField "JnlBlocks" (Nth 268 4 268 4 4 17) (Nth 268 4 268 4 4 17);
  mkField "BlocksCountHi" (At 336 340 4) (At 336 340 4);
  mkField "RBlocksCountHi" (At 340 344 4) (At 340 344 4);
  mkField "FreeBlocksCountHi" (At 344 348 4) (At 344 348 4);
  mkField "MinExtraIsize" (At 348 350 2) (At 348 350 2);
  mkField "WantExtraIsize" (At 350 352 2) (At 350 352 2)
].

Definition Superblock_fields4 : list field := [
  mkField "Flags" (At 352 356 4) (At 352 356 4);
  mkField "RaidStride" (At 356 358 2) (At 356 358 2);
  mkField "MmpUpdateInterval" (At 358 360 2) (At 358 360 2);
  mkField "MmpBlock" (At 360 368 8) (At 360 368 8);
  mkField "RaidStripeWidth" (At 368 372 4) (At 368 372 4);
  mkField "LogGroupsPerFlex" (At 372 373 1) (At 372 373 1);
  mkField "ChecksumType" (At 373 374 1) (At 373 374 1);
  mkField "EncryptionLevel" (At 374 375 1) (At 374 375 1);
  mkField "ReservedPad" (At 375 376 1) (At 375 376 1);
  mkField "KbytesWritten" (At 376 384 8) (At 376 384 8);
  mkField "SnapshotInum" (At 384 388 4) (At 384 388 4);
  mkField "SnapshotId" (At 388 392 4) (At 388 392 4);
  mkField "SnapshotRBlocksCount" (At 392 400 8) (At 392 400 8);
  mkField "SnapshotList" (At 400 404 4) (At 400 404 4);
  mkField "ErrorCount" (At 404 408 4) (At 404 408 4);
  mkField "FirstErrorTime" (At 408 412 4) (At 408 412 4);
  mkField "FirstErrorIno" (At 412 416 4) (At 412 416 4);
  mkField "FirstErrorBlock" (At 416 424 8) (At 416 424 8);
  mkField "FirstErrorFunc" (Nth 424 1 424 1 1 32) (Nth 424 1 424 1 1 32)
].

Definition Superblock_fields5 : list field := [
  mkField "FirstErrorLine" (At 456 460 4) (At 456 460 4);
  mkField "LastErrorTime" (At 460 464 4) (At 460 464 4);
  mkField "LastErrorIno" (At 464 468 4) (At 464 468 4);
  mkField "LastErrorLine" (At 468 472 4) (At 468 472 4);
  mkField "LastErrorBlock" (At 472 480 8) (At 472 480 8);
  mkField "LastErrorFunc" (Nth 480 1 480 1 1 32) (Nth 480 1 480 1 1 32);
  mkField "MountOpts" (Nth 512 1 512 1 1 64) (Nth 512 1 512 1 1 64);
  mkField "UsrQuotaInum" (At 576 580 4) (At 576 580 4);
  mkField "GrpQuotaInum" (At 580 584 4) (At 580 584 4);
  mkField "OverheadClusters" (At 584 588 4) (At 584 588 4);
  mkField "BackupBgs" (Nth 588 4 588 4 4 2) (Nth 588 4 588 4 4 2);
  mkField "EncryptAlgos" (Nth 596 1 596 1 1 4) (Nth 596 1 596 1 1 4);
  mkField "EncryptPwSalt" (Nth 600 1 600 1 1 16) (Nth 600 1 600 1 1 16);
  mkField "LpfIno" (At 616 620 4) (At 616 620 4)
].

Definition Superblock_fields6 : list field := [
  mkField "PrjQuotaInum" (At 620 624 4) (At 620 624 4);
  mkField "ChecksumSeed" (At 624 628 4) (At 624 628 4);
  mkField "WtimeHi" (At 628 629 1) (At 628 629 1);
  mkField "MtimeHi" (At 629 630 1) (At 629 630 1);
  mkField "MkfsTimeHi" (At 630 631 1) (At 630 631 1);
  mkField "LastcheckHi" (At 631 632 1) (At 631 632 1);
  mkField "FirstErrorTimeHi" (At 632 633 1) (At 632 633 1);
  mkField "LastErrorTimeHi" (At 633 634 1) (At 633 634 1);
  mkField "FirstErrorErrcode" (At 634 635 1) (At 634 635 1);
  mkField "LastErrorErrcode" (At 635 636 1) (At 635 636 1);
  mkField "Encoding" (At 636 638 2) (At 636 638 2);
  mkField "EncodingFlags" (At 638 640 2) (At 638 640 2);
  mkField "OrphanFileInum" (At 640 644 4) (At 640 644 4);
  mkField "Reserved" (Nth 644 4 644 4 4 94) (Nth 644 4 644 4 4 94);
  mkField "Checksum" (At 1020 1024 4) (At 1020 1024 4)
].

Definition Superblock_joins : list joined := [
  mkJoined "BlocksCount" (4, 4, "BlocksCountLo", "BlocksCountHi") (4, 4, "BlocksCountLo", "BlocksCountHi");
  mkJoined "RBlocksCount" (4, 4, "RBlocksCountLo", "RBlocksCountHi") (4, 4, "RBlocksCountLo", "RBlocksCountHi");
  mkJoined "FreeBlocksCount" (4, 4, "FreeBlocksCountLo", "FreeBlocksCountHi") (4, 4, "FreeBlocksCountLo", "FreeBlocksCountHi")
].

Definition Superblock : struct := mkStruct "Superblock" 1024
  (Superblock_fields1 ++ Superblock_fields2 ++ Superblock_fields3 ++ Superblock_fields4 ++
   Superblock_fields5 ++ Superblock_fields6)
  Superblock_joins.

Definition ext4Structs : list struct :=
  [BlockGroupDescriptor; DirEntry2; ExtentTreeHeader; ExtentTreeIdx; ExtentTreeNode; ExtentTreeTail;
   Inode; Superblock].

Definition tableOk (s : struct) : bool := layoutOk s && tiles 0 (sfields s) (ssize s).

Lemma ext4_tables_ok : forallb tableOk ext4Structs = true.
Proof. vm_compute. reflexivity. Qed.

Lemma ext4_layout s : s ∈ ext4Structs -> layoutOk s = true /\ tiles 0 (sfields s) (ssize s) = true.
Proof.
  intros Hs. apply list_elem_of_In in Hs. apply andb_true_iff.
  by apply (proj1 (forallb_forall _ _) ext4_tables_ok).
Qed.

(** C39: in every ext4 structure the fields fill the structure without gap or
    overlap; writing through a setter and reading through the getter of the same field
    gives the value at the field's width, and the getters of every other field and array
    element give what they gave before. *)
Theorem ext4_accessors (s : struct) (f g : field) (i j v : Z) (b : bytes) :
  s ∈ ext4Structs -> len b = ssize s -> isCell s f i -> isCell s g j ->
  tiles 0 (sfields s) (ssize s) = true /\
  exists b', setElem f i v b = Ok b' /\ len b' = ssize s /\
    getElem f i b' = Ok (wrap (8 * fwidth f) v) /\
    ((fname f, i) <> (fname g, j) -> getElem g j b' = getElem g j b).
Proof. intros [Hok Ht]%ext4_layout ???. split; [done|]. by apply (layout_get_set s). Qed.

(** A 64-bit or 48-bit quantity that ext4 stores in two fields (block numbers,
    sizes, counts) reads back exactly what was written through both halves, and
    writing it leaves every other field alone. *)
Theorem ext4_split_fields (s : struct) (j : joined) (g : field) (i v : Z) (b : bytes)
    (n := (jget j).1.1.1 + (jget j).1.1.2) :
  s ∈ ext4Structs -> len b = ssize s -> j ∈ sjoins s -> isCell s g i ->
  exists b', setJoin s j v b = Ok b' /\ len b' = ssize s /\ getJoin s j b' = Ok (wrap (8 * n) v) /\
    (fname g <> (jget j).1.2 -> fname g <> (jget j).2 -> getElem g i b' = getElem g i b).
Proof. intros [Hok _]%ext4_layout. by apply layout_join. Qed.

(** The inode's mode and its extra area. *)
Lemma ext4_accessors_witness :
  let mode := mkField "Mode" (At 0 2 2) (At 0 2 2) in
  let extra := mkField "Extra" (Nth 160 1 160 1 1 96) (Nth 160 1 160 1 1 96) in
  exists b', setElem mode 0 0x81a4 (zeros 256) = Ok b' /\ len b' = 256 /\ getElem mode 0 b' = Ok (wrap 16 0x81a4) /\
    (("Mode", 0) <> ("Extra", 3) -> getElem extra 3 b' = getElem extra 3 (zeros 256)).
Proof.
  intros mode extra. apply (ext4_accessors Inode mode extra 0 3 0x81a4 (zeros 256)).
  - do 6 right. left.
  - reflexivity.
  - split; [left|done].
  - split; [apply list_elem_of_In; vm_compute; tauto|done].
Defined.
