(* ===== verification/FatTable.v ===== *)
(** The file allocation table of a FAT image:
    [src/internal/core/fsimage/fat/fat_table.go], type [FATTableRegion].

    The table keeps its entries as integers and is read and written as bytes in
    the packing of its type.  The theorems: clusters are allocated at most once
    and allocation fails only when none is free; reads deliver the on-disk image;
    chains are followed to their end; writing a 12-bit table loses data. *)

From S2P Require Import Prelude.

(** The three names [NewFATTableRegion] accepts; it panics for any other. *)
Inductive fatType := FAT12 | FAT16 | FAT32.
#[export] Instance fatType_eq_dec : EqDecision fatType.
Proof. solve_decision. Defined.

Abbreviation FAT12_EOC := 4088.
Abbreviation FAT16_EOC := 65528.
Abbreviation FAT32_EOC := 268435448.

Record FATTableRegion := mkFAT {
  ftype : fatType;
  entries : list Z;
  totalSize : Z;
  eocValue : Z;
  freeValue : Z;
  allocatedValue : Z;
  nextFree : Z;
}.
#[export] Instance eta_fat : Eta FATTableRegion := fun f =>
  mkFAT (ftype f) (entries f) (totalSize f) (eocValue f) (freeValue f) (allocatedValue f) (nextFree f).

Definition eocOf (t : fatType) : Z :=
  match t with FAT12 => FAT12_EOC | FAT16 => FAT16_EOC | FAT32 => FAT32_EOC end.

(** The mask of an entry, which is also the marker of an allocated cluster. *)
Definition maskOf (t : fatType) : Z :=
  match t with FAT12 => 0xfff | FAT16 => 0xffff | FAT32 => 0x0fffffff end.

Definition NewFATTableRegion (t : fatType) (totalClusters : Z) : FATTableRegion := {|
  ftype := t;
  entries := replicate (Z.to_nat totalClusters) 0;
  totalSize :=
    match t with
    | FAT12 => wrap 32 (wrap 32 (totalClusters * 3) + 1) / 2
    | FAT16 => totalClusters * 2
    | FAT32 => totalClusters * 4
    end;
  eocValue := eocOf t;
  freeValue := 0;
  allocatedValue := maskOf t;
  nextFree := 2;
|}.

(** * Entries *)

Definition count (f : FATTableRegion) : Z := len (entries f).

Definition entry (f : FATTableRegion) (c : Z) : Z := nth (Z.to_nat c) (entries f) 0.

Definition setRaw (f : FATTableRegion) (c v : Z) : FATTableRegion :=
  f <| entries := <[Z.to_nat c := v]> (entries f) |>.

Inductive fatError := OutOfRange | NoFreeClusters | ZeroClusters | FatEOF | FatUnexpectedEOF.

Definition SetEntry (f : FATTableRegion) (cluster value : Z) : FATTableRegion * result fatError unit :=
  if count f <=? cluster then (f, Err OutOfRange)
  else (setRaw f cluster (Z.land value (maskOf (ftype f))), Ok tt).

Definition GetEntry (f : FATTableRegion) (cluster : Z) : Z :=
  if count f <=? cluster then eocValue f else entry f cluster.

Definition MarkEndOfChain (f : FATTableRegion) (cluster : Z) : FATTableRegion * result fatError unit :=
  SetEntry f cluster (eocValue f).

Definition MarkFree (f : FATTableRegion) (cluster : Z) : FATTableRegion * result fatError unit :=
  SetEntry f cluster (freeValue f).

Definition IsAllocated (f : FATTableRegion) (cluster : Z) : bool :=
  if count f <=? cluster then false else entry f cluster =? allocatedValue f.

Definition IsFree (f : FATTableRegion) (cluster : Z) : bool :=
  if count f <=? cluster then false else entry f cluster =? freeValue f.

(** The clusters from 2 whose entry is [v]. *)
Definition countEntries (f : FATTableRegion) (v : Z) : Z :=
  wrap 32 (len (filter (fun e => e = v) (drop 2 (entries f)))).

Definition GetFreeClusterCount (f : FATTableRegion) : Z := countEntries f (freeValue f).

Definition GetAllocatedClusterCount (f : FATTableRegion) : Z := countEntries f (allocatedValue f).

(** The first free cluster at or after [c] among the next [n]. *)
Fixpoint scanFree (n : nat) (f : FATTableRegion) (c : Z) : option Z :=
  match n with
  | O => None
  | S n => if entry f c =? freeValue f then Some c else scanFree n f (c + 1)
  end.

Definition takeCluster (f : FATTableRegion) (c : Z) : FATTableRegion :=
  setRaw f c (allocatedValue f) <| nextFree := wrap 32 (c + 1) |>.

Definition AllocateCluster (f : FATTableRegion) : FATTableRegion * result fatError Z :=
  match scanFree (Z.to_nat (count f - nextFree f)) f (nextFree f) with
  | Some c => (takeCluster f c, Ok c)
  | None =>
      match scanFree (Z.to_nat (nextFree f - 2)) f 2 with
      | Some c => (takeCluster f c, Ok c)
      | None => (f, Err NoFreeClusters)
      end
  end.

Definition IsEndOfChain (f : FATTableRegion) (value : Z) : bool := eocOf (ftype f) <=? value.

(** The loop of [GetClusterChain]; [None] is a run that has not returned. *)
Fixpoint chainLoop (fuel : nat) (f : FATTableRegion) (current : Z) (chain : list Z) : option (list Z) :=
  match fuel with
  | O => None
  | S fuel =>
      if IsEndOfChain f current || (current <? 2) then Some chain
      else
        let next := GetEntry f current in
        if next =? current then Some (chain ++ [current])
        else chainLoop fuel f next (chain ++ [current])
  end.

Definition GetClusterChain (fuel : nat) (f : FATTableRegion) (start : Z) : option (list Z) :=
  if start <? 2 then Some [] else chainLoop fuel f start [].

(** The loop of [allocateMultipleClusters] in writer.go: [n] more clusters, each linked
    from the one before, then the end of the chain. *)
Fixpoint chainRest (n : nat) (f : FATTableRegion) (previous : Z) : FATTableRegion * result fatError unit :=
  match n with
  | O => MarkEndOfChain f previous
  | S n =>
      match AllocateCluster f with
      | (f, Ok next) =>
          match SetEntry f previous next with
          | (f, Ok _) => chainRest n f next
          | (f, Err e) => (f, Err e)
          | (f, Panic) => (f, Panic)
          end
      | (f, Err e) => (f, Err e)
      | (f, Panic) => (f, Panic)
      end
  end.

Definition allocateMultipleClusters (f : FATTableRegion) (n : Z) : FATTableRegion * result fatError Z :=
  if n =? 0 then (f, Err ZeroClusters)
  else
    match AllocateCluster f with
    | (f, Ok first) =>
        match chainRest (Z.to_nat (n - 1)) f first with
        | (f, Ok _) => (f, Ok first)
        | (f, Err e) => (f, Err e)
        | (f, Panic) => (f, Panic)
        end
    | (f, Err e) => (f, Err e)
    | (f, Panic) => (f, Panic)
    end.

(** * Bytes *)

(** The three bytes of a pair of 12-bit entries, and the pair of three bytes. *)
Definition pack12 (e0 e1 : Z) : bytes :=
  let e0 := Z.land e0 0xfff in
  let e1 := Z.land e1 0xfff in
  [Z.land e0 0xff;
   Z.lor (Z.land (Z.shiftr e0 8) 0x0f) (Z.shiftl (Z.land e1 0x0f) 4);
   Z.land (Z.shiftr e1 4) 0xff].

Definition unpack12 (b : bytes) : Z * Z :=
  (Z.land (Z.lor (at_ b 0) (Z.shiftl (Z.land (at_ b 1) 0x0f) 8)) 0xfff,
   Z.land (Z.lor (Z.shiftr (at_ b 1) 4) (Z.shiftl (at_ b 2) 4)) 0xfff).

(** [n] more bytes from table byte [i], one at a time. *)
Fixpoint readFAT12 (n : nat) (f : FATTableRegion) (i : Z) : bytes :=
  match n with
  | O => []
  | S n =>
      let pair := i / 3 * 2 in
      if count f - 1 <=? pair then []
      else at_ (pack12 (entry f pair) (entry f (pair + 1))) (i mod 3) :: readFAT12 n f (i + 1)
  end.

Fixpoint writeFAT12 (f : FATTableRegion) (p : bytes) (i : Z) : FATTableRegion * Z :=
  match p with
  | [] => (f, 0)
  | x :: p =>
      let pair := i / 3 * 2 in
      if count f - 1 <=? pair then (f, 0)
      else
        let group := if i mod 3 =? 0 then pack12 (entry f pair) (entry f (pair + 1)) else [0; 0; 0] in
        let '(e0, e1) := unpack12 (put group (i mod 3) [x]) in
        let '(f, n) := writeFAT12 (setRaw (setRaw f pair e0) (pair + 1) e1) p (i + 1) in
        (f, n + 1)
  end.

(** 16- and 32-bit tables move whole entries of [w] bytes while [remaining] allows. *)
Fixpoint readWide (fuel : nat) (f : FATTableRegion) (w i remaining : Z) : bytes :=
  match fuel with
  | O => []
  | S fuel =>
      if remaining <? w then []
      else
        let index := i / w in
        if count f <=? index then []
        else le (Z.to_nat w) (Z.land (entry f index) (maskOf (ftype f))) ++
             readWide fuel f w (i + w) (remaining - w)
  end.

Fixpoint writeWide (fuel : nat) (f : FATTableRegion) (w : Z) (p : bytes) (i : Z)
  : FATTableRegion * Z :=
  match fuel with
  | O => (f, 0)
  | S fuel =>
      if len p <? w then (f, 0)
      else
        let index := i / w in
        if count f <=? index then (f, 0)
        else
          let value := Z.land (unle (take (Z.to_nat w) p)) (maskOf (ftype f)) in
          let '(f, n) := writeWide fuel (setRaw f index value) w (drop (Z.to_nat w) p) (i + w) in
          (f, n + w)
  end.

(** The buffer after the call, the count and the error. *)
Definition ReadAt (f : FATTableRegion) (p : bytes) (off : Z) : bytes * Z * option fatError :=
  if (off <? 0) || (totalSize f <=? off) then (p, 0, Some FatEOF)
  else
    let maxRead := if totalSize f <? off + len p then totalSize f - off else len p in
    let data :=
      match ftype f with
      | FAT12 => readFAT12 (Z.to_nat maxRead) f off
      | FAT16 => readWide (Z.to_nat maxRead) f 2 off maxRead
      | FAT32 => readWide (Z.to_nat maxRead) f 4 off maxRead
      end in
    (copy_into p data, len data, None).

Definition WriteAt (f : FATTableRegion) (p : bytes) (off : Z) : FATTableRegion * Z * option fatError :=
  if (off <? 0) || (totalSize f <=? off) then (f, 0, Some FatUnexpectedEOF)
  else
    let maxWrite := if totalSize f <? off + len p then totalSize f - off else len p in
    let p := take (Z.to_nat maxWrite) p in
    let '(f, n) :=
      match ftype f with
      | FAT12 => writeFAT12 f p off
      | FAT16 => writeWide (length p) f 2 p off
      | FAT32 => writeWide (length p) f 4 p off
      end in
    (f, n, None).

(** * Allocation *)

(** The hint is a cluster number within the table or just past it. *)
Definition fatOk (f : FATTableRegion) : Prop :=
  freeValue f = 0 /\ 0 < allocatedValue f /\ count f < 2 ^ 32 /\ 2 <= nextFree f /\
  (nextFree f <= count f \/ nextFree f = 2).

Lemma scanFree_spec n : forall f c,
  match scanFree n f c with
  | Some k => c <= k < c + Z.of_nat n /\ entry f k = freeValue f
  | None => forall k, c <= k < c + Z.of_nat n -> entry f k <> freeValue f
  end.
Proof.
  induction n as [|n IH]; intros f c; cbn [scanFree]; [lia|].
  destruct (Z.eqb_spec (entry f c) (freeValue f)) as [E|E]; [split; [lia|done]|].
  specialize (IH f (c + 1)). destruct (scanFree n f (c + 1)) as [k|].
  - destruct IH. split; [lia|done].
  - intros k Hk. destruct (decide (k = c)) as [->|]; [done|]. apply IH. lia.
Qed.

Lemma entry_setRaw f c v k :
  0 <= c < count f -> 0 <= k ->
  entry (setRaw f c v) k = if k =? c then v else entry f k.
Proof.
  intros Hc Hk. unfold entry, setRaw, count, len in *. cbn.
  rewrite !nth_lookup. destruct (Z.eqb_spec k c) as [->|E].
  - rewrite list_lookup_insert_eq by lia. done.
  - rewrite list_lookup_insert_ne by lia. done.
Qed.

Lemma count_setRaw f c v : count (setRaw f c v) = count f.
Proof. unfold count, setRaw, len. cbn. by rewrite length_insert. Qed.

Lemma takeCluster_ok f c :
  fatOk f -> 2 <= c < count f -> fatOk (takeCluster f c).
Proof.
  intros (Hf & Ha & Hn & Hlo & Hhi) Hc. unfold fatOk, takeCluster.
  change (count (setRaw f c (allocatedValue f) <| nextFree := wrap 32 (c + 1) |>))
    with (count (setRaw f c (allocatedValue f))). rewrite count_setRaw. cbn.
  rewrite wrap_small by (unfold in_width; lia). lia.
Qed.

Lemma allocate_spec f :
  fatOk f ->
  match AllocateCluster f with
  | (f', Ok c) => 2 <= c < count f /\ entry f c = 0 /\ f' = takeCluster f c /\ fatOk f'
  | (f', Err e) => f' = f /\ e = NoFreeClusters /\ forall c, 2 <= c < count f -> entry f c <> 0
  | (f', Panic) => False
  end.
Proof.
  intros Hok. pose proof Hok as (Hf & Ha & Hn & Hlo & Hhi). unfold AllocateCluster.
  pose proof (scanFree_spec (Z.to_nat (count f - nextFree f)) f (nextFree f)) as H1.
  pose proof (scanFree_spec (Z.to_nat (nextFree f - 2)) f 2) as H2.
  destruct (scanFree _ f (nextFree f)) as [k|].
  - rewrite Hf in H1. destruct H1. assert (2 <= k < count f) by lia.
    split; [done|]. split; [done|]. split; [done|]. by apply takeCluster_ok.
  - destruct (scanFree _ f 2) as [k|].
    + rewrite Hf in H2. destruct H2. assert (2 <= k < count f) by lia.
      split; [done|]. split; [done|]. split; [done|]. by apply takeCluster_ok.
    + split; [done|]. split; [done|]. rewrite Hf in *. intros c Hc.
      destruct (Z.lt_ge_cases c (nextFree f)); [apply H2|apply H1]; lia.
Qed.

(** The free clusters, in order. *)
Definition freeClusters (f : FATTableRegion) : list Z :=
  filter (fun c => entry f c = 0) (seqZ 2 (count f - 2)).

(** Allocating [n] clusters one after the other. *)
Fixpoint allocateMany (n : nat) (f : FATTableRegion) : FATTableRegion * result fatError (list Z) :=
  match n with
  | O => (f, Ok [])
  | S n =>
      match AllocateCluster f with
      | (f, Ok c) =>
          match allocateMany n f with
          | (f, Ok cs) => (f, Ok (c :: cs))
          | (f, Err e) => (f, Err e)
          | (f, Panic) => (f, Panic)
          end
      | (f, Err e) => (f, Err e)
      | (f, Panic) => (f, Panic)
      end
  end.

Lemma elem_of_freeClusters f c : c ∈ freeClusters f <-> 2 <= c < count f /\ entry f c = 0.
Proof.
  unfold freeClusters. rewrite list_elem_of_filter, elem_of_seqZ. split; intros [??]; split; lia || done.
Qed.

Lemma freeClusters_none f : (forall c, 2 <= c < count f -> entry f c <> 0) -> freeClusters f = [].
Proof.
  intros Hnone. destruct (freeClusters f) as [|c l] eqn:E; [done|]. exfalso.
  assert (c ∈ freeClusters f) as Hin by (rewrite E; left).
  apply elem_of_freeClusters in Hin as [Hc He]. by apply (Hnone c).
Qed.

Lemma NoDup_freeClusters f : NoDup (freeClusters f).
Proof. apply NoDup_filter, NoDup_seqZ. Qed.

Lemma entry_take f c k :
  2 <= c < count f -> 0 <= k ->
  entry (takeCluster f c) k = if k =? c then allocatedValue f else entry f k.
Proof. intros. apply entry_setRaw; lia. Qed.

Lemma freeClusters_take f c :
  fatOk f -> 2 <= c < count f -> entry f c = 0 ->
  freeClusters f ≡ₚ c :: freeClusters (takeCluster f c).
Proof.
  intros (Hf & Ha & _) Hc He.
  assert (count (takeCluster f c) = count f) as Ec by apply count_setRaw.
  assert (forall k, 0 <= k -> entry (takeCluster f c) k = if k =? c then allocatedValue f else entry f k)
    as Ee by (intros; by apply entry_take).
  apply NoDup_Permutation; [apply NoDup_freeClusters| |].
  - constructor; [|apply NoDup_freeClusters]. rewrite elem_of_freeClusters, Ee, Z.eqb_refl by lia. lia.
  - intros k. rewrite elem_of_cons, !elem_of_freeClusters, Ec. split.
    + intros [Hk Hz]. destruct (decide (k = c)) as [->|Hne]; [by left|right].
      rewrite Ee by lia. by destruct (Z.eqb_spec k c).
    + intros [->|[Hk Hz]]; [done|]. rewrite Ee in Hz by lia.
      destruct (Z.eqb_spec k c); [lia|done].
Qed.

Lemma allocateMany_spec n : forall f, fatOk f ->
  match allocateMany n f with
  | (f', Ok cs) =>
      length cs = n /\ freeClusters f ≡ₚ cs ++ freeClusters f' /\ fatOk f' /\
      count f' = count f /\ allocatedValue f' = allocatedValue f /\
      forall k, 0 <= k -> entry f' k = if decide (k ∈ cs) then allocatedValue f else entry f k
  | (f', Err e) => e = NoFreeClusters /\ (length (freeClusters f) < n)%nat
  | (f', Panic) => False
  end.
Proof.
  induction n as [|n IH]; intros f Hok; cbn [allocateMany]; [done|].
  pose proof (allocate_spec f Hok) as H1.
  destruct (AllocateCluster f) as [f1 [c|e|]]; [|destruct H1 as (-> & -> & Hnone)|done].
  - destruct H1 as (Hc & He & -> & Hok1). pose proof (freeClusters_take f c Hok Hc He) as Hp.
    specialize (IH _ Hok1). destruct (allocateMany n _) as [f2 [cs|e|]]; [| |done].
    + destruct IH as (Hl & Hp2 & Hok2 & Hcnt & Hav & Hent). split; [cbn; lia|].
      split; [rewrite Hp; cbn; by rewrite Hp2|]. split; [done|].
      split; [by rewrite Hcnt; apply count_setRaw|]. split; [done|].
      intros k Hk. rewrite (Hent k Hk), entry_take by lia.
      destruct (Z.eqb_spec k c); repeat case_decide; set_solver.
    + destruct IH as [-> Hl]. split; [done|]. rewrite Hp. cbn. lia.
  - split; [done|]. rewrite (freeClusters_none f Hnone). cbn. lia.
Qed.

Lemma freeCount_len f :
  freeValue f = 0 -> count f < 2 ^ 32 -> GetFreeClusterCount f = len (freeClusters f).
Proof.
  intros Hf Hn. unfold GetFreeClusterCount, countEntries, freeClusters. rewrite Hf.
  assert (len (filter (fun e => e = 0) (drop 2 (entries f))) =
          len (filter (fun c => entry f c = 0) (seqZ 2 (count f - 2)))) as E.
  { assert (drop 2 (entries f) = entry f <$> seqZ 2 (count f - 2)) as ->.
    { apply list_eq. intros i. rewrite lookup_drop, list_lookup_fmap.
      destruct (decide (Z.of_nat i < count f - 2)) as [Hi|Hi].
      - rewrite lookup_seqZ_lt by lia. cbn. unfold entry, count, len in *.
        replace (Z.to_nat (2 + Z.of_nat i)) with (2 + i)%nat by lia. rewrite nth_lookup.
        destruct (lookup_lt_is_Some_2 (entries f) (2 + i)) as [x Hx]; [lia|]. by rewrite Hx.
      - rewrite lookup_seqZ_ge by lia. cbn. apply lookup_ge_None_2. unfold count, len in *. lia. }
    generalize (seqZ 2 (count f - 2)). intros l. induction l as [|x l IH]; [done|].
    rewrite fmap_cons, !filter_cons. repeat case_decide; rewrite ?len_cons, ?IH; done. }
  rewrite E. apply wrap_small. unfold in_width. pose proof (len_nonneg (filter (fun c => entry f c = 0) (seqZ 2 (count f - 2)))).
  split; [lia|]. eapply Z.le_lt_trans; [|exact Hn]. unfold len.
  pose proof (length_filter (fun c => entry f c = 0) (seqZ 2 (count f - 2))) as Hle.
  rewrite length_seqZ in Hle. pose proof (len_nonneg (entries f)). fold (count f) in *. lia.
Qed.

(** Allocating clusters one after the other hands out pairwise distinct clusters
    that were all free, marks exactly those as allocated and leaves every other
    entry alone, lowers the free count by their number, and fails, with the error for
    a full table, only when there are fewer free clusters than asked for. *)
Theorem fat_allocations_distinct (n : nat) (f : FATTableRegion) (Hok : fatOk f) :
  match allocateMany n f with
  | (f', Ok cs) =>
      length cs = n /\ NoDup cs /\
      (forall c, c ∈ cs -> 2 <= c /\ IsFree f c = true /\ IsAllocated f' c = true) /\
      (forall c, 0 <= c -> c ∉ cs -> GetEntry f' c = if count f <=? c then eocValue f' else entry f c) /\
      GetFreeClusterCount f' = GetFreeClusterCount f - Z.of_nat n
  | (_, Err e) => e = NoFreeClusters /\ GetFreeClusterCount f < Z.of_nat n
  | (_, Panic) => False
  end.
Proof.
  pose proof (allocateMany_spec n f Hok) as H. pose proof Hok as (Hf & _ & Hn & _).
  rewrite (freeCount_len f Hf Hn).
  destruct (allocateMany n f) as [f' [cs|e|]]; [|destruct H; split; [done|unfold len; lia]|done].
  destruct H as (Hl & Hp & (Hf' & _ & Hn' & _) & Hc & Ha & He).
  assert (NoDup (cs ++ freeClusters f')) as Hnd by (rewrite <- Hp; apply NoDup_freeClusters).
  apply NoDup_app in Hnd as (Hnd & _ & _). split; [done|]. split; [done|]. split; [|split].
  - intros c Hin. assert (c ∈ freeClusters f) as Hfree by (rewrite Hp; set_solver).
    apply elem_of_freeClusters in Hfree as [Hr Hz]. unfold IsFree, IsAllocated.
    rewrite Hc, (proj2 (Z.leb_gt (count f) c)), He, decide_True, Hz, Hf, Ha by (done || lia).
    rewrite !Z.eqb_refl. split; [lia|done].
  - intros c H0 Hni. unfold GetEntry. rewrite Hc, He, decide_False by done. done.
  - rewrite (freeCount_len f' Hf' Hn'). apply Permutation_length in Hp.
    rewrite length_app in Hp. unfold len. lia.
Qed.

Lemma new_fat_ok t n : 2 <= n < 2 ^ 32 -> fatOk (NewFATTableRegion t n).
Proof.
  intros Hn. unfold fatOk, count, len. cbn. rewrite length_replicate.
  destruct t; cbn; lia.
Qed.

(** * The bytes of 16- and 32-bit tables *)

(** The bytes of the words [ws], [w] bytes each. *)
Definition words (w : Z) (ws : list Z) : bytes := concat (le (Z.to_nat w) <$> ws).

Definition masked (f : FATTableRegion) (ws : list Z) : list Z :=
  (fun v => Z.land v (maskOf (ftype f))) <$> ws.

Definition setMany (f : FATTableRegion) (k : Z) (ws : list Z) : FATTableRegion :=
  f <| entries := put (entries f) k ws |>.

Lemma len_words w ws : 0 <= w -> len (words w ws) = w * len ws.
Proof.
  intros Hw. induction ws as [|v ws IH]; [cbn; unfold len; cbn; lia|].
  unfold words in *. rewrite fmap_cons. cbn [concat]. rewrite len_app, len_le, IH, len_cons. lia.
Qed.

Lemma words_cons w v ws : words w (v :: ws) = le (Z.to_nat w) v ++ words w ws.
Proof. done. Qed.

Lemma setMany_nil f k : setMany f k [] = f.
Proof. unfold setMany. cbn. rewrite put_nil. by destruct f. Qed.

Lemma setRaw_setMany f k v ws :
  0 <= k -> k + 1 + len ws <= count f ->
  setMany (setRaw f k v) (k + 1) ws = setMany f k (v :: ws).
Proof.
  intros Hk Hl. unfold setMany, setRaw, count in *.
  assert (put (<[Z.to_nat k := v]> (entries f)) (k + 1) ws = put (entries f) k (v :: ws)) as E;
    [|cbn; by rewrite E].
  apply list_eq. intros i. rewrite !lookup_put, length_insert. list_len.
  destruct (decide (i = Z.to_nat k)) as [->|Hne].
  - rewrite decide_False, decide_True by lia. rewrite Nat.sub_diag, list_lookup_insert_eq by lia. done.
  - rewrite list_lookup_insert_ne by done. repeat case_decide; try lia; [|done].
    replace (i - Z.to_nat k)%nat with (S (i - Z.to_nat (k + 1))) by lia. done.
Qed.

Lemma writeWide_spec w ws : 0 < w -> forall fuel f k,
  (length ws <= fuel)%nat -> 0 <= k -> k + len ws <= count f -> Forall (in_width (8 * w)) ws ->
  writeWide fuel f w (words w ws) (k * w) = (setMany f k (masked f ws), w * len ws).
Proof.
  intros Hw. induction ws as [|v ws IH]; intros [|fuel] f k Hf Hk Hl Hws; cbn [length] in Hf; try lia;
    cbn [writeWide].
  - by rewrite setMany_nil, Z.mul_0_r.
  - destruct (Z.ltb_spec (len (words w [])) w) as [|H]; [|unfold len in H; cbn in H; lia].
    by rewrite setMany_nil, Z.mul_0_r.
  - inversion Hws as [|?? Hv Hws']; subst. rewrite len_words by lia. rewrite len_cons in *.
    pose proof (len_nonneg ws). destruct (Z.ltb_spec (w * (1 + len ws)) w); [nia|].
    rewrite Z.div_mul by lia. destruct (Z.leb_spec (count f) k); [lia|].
    rewrite words_cons, take_app_length', drop_app_length' by (by rewrite length_le).
    rewrite unle_le, Z2Nat.id, wrap_small by (done || lia).
    replace (k * w + w) with ((k + 1) * w) by lia.
    rewrite IH; [| lia | lia | rewrite count_setRaw; lia | done].
    change (masked f (v :: ws)) with (Z.land v (maskOf (ftype f)) :: masked f ws).
    rewrite <- setRaw_setMany; [|lia|unfold masked, len in *; rewrite length_fmap; lia].
    f_equal. lia.
Qed.

Lemma slice_cons (l : list Z) k n :
  0 <= k < len l -> 0 <= n -> slice l k (k + 1 + n) = nth (Z.to_nat k) l 0 :: slice l (k + 1) (k + 1 + n).
Proof.
  intros Hk Hn. unfold slice. rewrite (drop_S l (nth (Z.to_nat k) l 0) (Z.to_nat k)).
  - replace (Z.to_nat (k + 1 + n - k)) with (S (Z.to_nat (k + 1 + n - (k + 1)))) by lia.
    cbn [take]. do 2 f_equal. f_equal. lia.
  - unfold len in Hk. destruct (lookup_lt_is_Some_2 l (Z.to_nat k)) as [x Hx]; [lia|].
    by rewrite nth_lookup, Hx.
Qed.

Lemma readWide_spec w f n : 0 < w -> forall fuel k,
  (n <= fuel)%nat -> 0 <= k -> k + Z.of_nat n <= count f ->
  readWide fuel f w (k * w) (w * Z.of_nat n) =
    words w (masked f (slice (entries f) k (k + Z.of_nat n))).
Proof.
  intros Hw. induction n as [|n IH]; intros [|fuel] k Hf Hk Hl; try lia; cbn [readWide].
  - by rewrite slice_empty by lia.
  - destruct (Z.ltb_spec (w * Z.of_nat 0) w); [|lia]. by rewrite slice_empty by lia.
  - destruct (Z.ltb_spec (w * Z.of_nat (S n)) w); [nia|].
    rewrite Z.div_mul by lia. destruct (Z.leb_spec (count f) k); [lia|].
    replace (k * w + w) with ((k + 1) * w) by lia.
    replace (w * Z.of_nat (S n) - w) with (w * Z.of_nat n) by lia.
    rewrite IH by lia. replace (k + Z.of_nat (S n)) with (k + 1 + Z.of_nat n) by lia.
    rewrite slice_cons by (unfold count in *; lia). done.
Qed.

(** Writing words [ws] over the aligned entries from [k] of a 16- or 32-bit table
    stores exactly the words masked to the table's width in those entries, touches no
    other entry, and reading the same range back delivers the masked words: a 16-bit
    table returns the bytes written, a 32-bit one clears the top four bits of each
    word. *)
Theorem fat_wide_roundtrip (f : FATTableRegion) (w k : Z) (ws : list Z)
    (Hw : ftype f = FAT16 /\ w = 2 \/ ftype f = FAT32 /\ w = 4)
    (Hsize : totalSize f = count f * w)
    (Hws : Forall (in_width (8 * w)) ws) (Hne : ws <> [])
    (Hk : 0 <= k) (Hr : k + len ws <= count f) :
  exists f',
    WriteAt f (words w ws) (k * w) = (f', w * len ws, None) /\
    entries f' = put (entries f) k (masked f ws) /\
    ReadAt f' (zeros (w * len ws)) (k * w) = (words w (masked f ws), w * len ws, None).
Proof.
  exists (setMany f k (masked f ws)). set (f' := setMany f k (masked f ws)).
  assert (0 < w) as Hw0 by lia.
  assert (0 < len ws) as Hl by (destruct ws; [done|rewrite len_cons; pose proof (len_nonneg ws); lia]).
  assert (len (masked f ws) = len ws) as Hm by (unfold masked, len; by rewrite length_fmap).
  assert (forall p : bytes, len p = w * len ws ->
            (if totalSize f <? k * w + len p then totalSize f - k * w else len p) = w * len ws) as Hmax.
  { intros p ->. rewrite Hsize. destruct (Z.ltb_spec (count f * w) (k * w + w * len ws)); nia. }
  assert ((k * w <? 0) || (totalSize f <=? k * w) = false) as Hg.
  { rewrite Hsize. apply orb_false_iff. split; [apply Z.ltb_ge|apply Z.leb_gt]; nia. }
  assert (masked f' (slice (entries f') k (k + Z.of_nat (length ws))) = masked f ws) as Hread.
  { change (entries f') with (put (entries f) k (masked f ws)).
    replace (Z.of_nat (length ws)) with (len (masked f ws)) by done.
    rewrite slice_put_same by (unfold count in *; lia).
    unfold masked. rewrite <- list_fmap_compose. apply list_fmap_ext. intros i v _. cbn.
    rewrite <- Z.land_assoc, Z.land_diag. done. }
  split; [|split; [done|]].
  - unfold WriteAt. rewrite Hg, Hmax by (apply len_words; lia).
    rewrite firstn_all2 by (pose proof (len_words w ws ltac:(lia)); unfold len in *; lia).
    destruct Hw as [[-> ->]|[-> ->]]; rewrite writeWide_spec; try done;
      pose proof (len_words 2 ws ltac:(lia)); pose proof (len_words 4 ws ltac:(lia));
      unfold len in *; lia.
  - unfold ReadAt. change (totalSize f') with (totalSize f). change (ftype f') with (ftype f).
    rewrite Hg, Hmax by (rewrite len_zeros; lia).
    assert (forall fuel, (length ws <= fuel)%nat ->
              readWide fuel f' w (k * w) (w * len ws) = words w (masked f ws)) as Hrw.
    { intros fuel Hfu. unfold len. rewrite readWide_spec, Hread; try done.
      unfold f', count. cbn. rewrite len_put. unfold count, len in *. lia. }
    destruct Hw as [[-> ->]|[-> ->]]; rewrite Hrw by (unfold len; lia);
      rewrite copy_into_exact, len_words, Hm by (rewrite ?len_zeros, ?len_words, ?Hm; lia); done.
Qed.

(** * The bytes of 12-bit tables *)

Lemma pack12_top b :
  0 <= b < 256 ->
  pack12 (fst (unpack12 [0; 0; b])) (snd (unpack12 [0; 0; b])) = [0; 0; b] /\
  fst (unpack12 [0; 0; b]) = 0.
Proof.
  intros Hb. assert (b ∈ seqZ 0 256) as Hin by (apply elem_of_seqZ; lia).
  clear Hb. revert b Hin. apply Forall_forall.
  eapply bool_decide_unpack. vm_compute. reflexivity.
Qed.

(** One byte written into the group of the pair [j]. *)
Lemma writeFAT12_cons f x p i j r :
  i = 3 * j + r -> 0 <= r < 3 -> 2 * j < count f - 1 ->
  writeFAT12 f (x :: p) i =
    let group := if r =? 0 then pack12 (entry f (2 * j)) (entry f (2 * j + 1)) else [0; 0; 0] in
    let '(e0, e1) := unpack12 (put group r [x]) in
    let '(f', n) := writeFAT12 (setRaw (setRaw f (2 * j) e0) (2 * j + 1) e1) p (i + 1) in
    (f', n + 1).
Proof.
  intros Hi Hr Hc. cbn [writeFAT12].
  replace (i / 3 * 2) with (2 * j) by dlia. replace (i mod 3) with r by dlia.
  destruct (Z.leb_spec (count f - 1) (2 * j)); [lia|done].
Qed.

Lemma readFAT12_cons f n i j r :
  i = 3 * j + r -> 0 <= r < 3 -> 2 * j < count f - 1 ->
  readFAT12 (S n) f i = at_ (pack12 (entry f (2 * j)) (entry f (2 * j + 1))) r :: readFAT12 n f (i + 1).
Proof.
  intros Hi Hr Hc. cbn [readFAT12].
  replace (i / 3 * 2) with (2 * j) by dlia. replace (i mod 3) with r by dlia.
  destruct (Z.leb_spec (count f - 1) (2 * j)); [lia|done].
Qed.

(** A pair of entries written and read back. *)
Lemma entry_pair f j a b :
  0 <= j -> 2 * j < count f - 1 ->
  entry (setRaw (setRaw f (2 * j) a) (2 * j + 1) b) (2 * j) = a /\
  entry (setRaw (setRaw f (2 * j) a) (2 * j + 1) b) (2 * j + 1) = b.
Proof.
  intros Hj Hc. rewrite !entry_setRaw by (rewrite ?count_setRaw; lia).
  rewrite !Z.eqb_refl. by replace (2 * j =? 2 * j + 1) with false by lia.
Qed.

(** Writing the three bytes of a pair of entries into a 12-bit table stores only the
    last of them: the write reports three bytes and no error, but the pair's first
    entry is zero afterwards, and reading the same three bytes back gives zero, zero
    and the last byte, whatever was written before it. *)
Theorem fat12_write_loses (f : FATTableRegion) (j b0 b1 b2 : Z)
    (Ht : ftype f = FAT12) (Hj : 0 <= j) (Hc : 2 * j + 1 < count f)
    (Hsize : 3 * j + 3 <= totalSize f) (Hb : 0 <= b2 < 256) :
  exists f',
    WriteAt f [b0; b1; b2] (3 * j) = (f', 3, None) /\
    GetEntry f' (2 * j) = 0 /\
    ReadAt f' (zeros 3) (3 * j) = ([0; 0; b2], 3, None).
Proof.
  pose proof (pack12_top b2 Hb) as [Hp H0].
  unfold WriteAt, ReadAt.
  replace (len [b0; b1; b2]) with 3 by done. rewrite len_zeros by lia.
  destruct (Z.ltb_spec (3 * j) 0); [lia|]. destruct (Z.leb_spec (totalSize f) (3 * j)); [lia|].
  destruct (Z.ltb_spec (totalSize f) (3 * j + 3)); [lia|]. rewrite Ht. cbn [orb].
  change (take (Z.to_nat 3) [b0; b1; b2]) with [b0; b1; b2].
  rewrite (writeFAT12_cons f b0 _ _ j 0) by lia. cbv zeta. destruct (unpack12 (put _ 0 [b0])) as [x0 y0].
  set (f1 := setRaw (setRaw f _ x0) _ y0).
  assert (count f1 = count f) as C1 by (unfold f1; by rewrite !count_setRaw).
  rewrite (writeFAT12_cons f1 b1 _ _ j 1) by lia. cbv zeta. destruct (unpack12 (put _ 1 [b1])) as [x1 y1].
  set (f2 := setRaw (setRaw f1 _ x1) _ y1).
  assert (count f2 = count f) as C2 by (unfold f2; by rewrite !count_setRaw).
  rewrite (writeFAT12_cons f2 b2 _ _ j 2) by lia. cbv zeta.
  change (put (if 2 =? 0 then _ else [0; 0; 0]) 2 [b2]) with [0; 0; b2].
  destruct (unpack12 [0; 0; b2]) as [x2 y2]. cbn [fst snd] in *.
  set (f3 := setRaw (setRaw f2 _ x2) _ y2).
  assert (count f3 = count f) as C3 by (unfold f3; by rewrite !count_setRaw).
  destruct (entry_pair f2 j x2 y2) as [E0 E1]; [lia..|]. fold f3 in E0, E1.
  exists f3. split; [done|].
  split; [unfold GetEntry; rewrite C3, E0; destruct (Z.leb_spec (count f) (2 * j)); [lia|done]|].
  change (ftype f3) with (ftype f). change (totalSize f3) with (totalSize f). rewrite Ht.
  destruct (Z.ltb_spec (3 * j) 0); [lia|]. destruct (Z.leb_spec (totalSize f) (3 * j)); [lia|].
  destruct (Z.ltb_spec (totalSize f) (3 * j + 3)); [lia|]. cbn [orb].
  change (Z.to_nat 3) with 3%nat.
  rewrite (readFAT12_cons f3 2 _ j 0), (readFAT12_cons f3 1 _ j 1), (readFAT12_cons f3 0 _ j 2) by lia.
  rewrite E0, E1, Hp. done.
Qed.

(** * Chains *)

(** A table whose clusters are all below the end-of-chain values of its type. *)
Definition chainable (f : FATTableRegion) : Prop :=
  eocValue f = eocOf (ftype f) /\ count f <= eocOf (ftype f).

Lemma eoc_masked t : Z.land (eocOf t) (maskOf t) = eocOf t.
Proof. by destruct t. Qed.

Lemma link_masked f c : chainable f -> 0 <= c < count f -> Z.land c (maskOf (ftype f)) = c.
Proof.
  intros [_ Hc] Hr. destruct (ftype f); cbn in *.
  - change 0xfff with (Z.ones 12). rewrite Z.land_ones, Z.mod_small; lia.
  - change 0xffff with (Z.ones 16). rewrite Z.land_ones, Z.mod_small; lia.
  - change 0x0fffffff with (Z.ones 28). rewrite Z.land_ones, Z.mod_small; lia.
Qed.

(** The entries of [prev :: cs] lead from one to the next and end the chain. *)
Fixpoint linked (f : FATTableRegion) (prev : Z) (cs : list Z) : Prop :=
  match cs with
  | [] => entry f prev = eocValue f
  | c :: cs => entry f prev = c /\ linked f c cs
  end.

Lemma chainLoop_linked f cs : chainable f -> forall prev acc fuel,
  (length cs + 2 <= fuel)%nat -> NoDup (prev :: cs) ->
  Forall (fun c => 2 <= c < count f) (prev :: cs) -> linked f prev cs ->
  chainLoop fuel f prev acc = Some (acc ++ prev :: cs).
Proof.
  intros [He Hc]. induction cs as [|c cs IH]; intros prev acc [|fuel] Hfu Hnd Hr Hl;
    cbn [length] in Hfu; try lia; cbn [chainLoop]; unfold IsEndOfChain at 1, GetEntry;
    inversion Hr as [|?? Hp Hr']; subst;
    destruct (Z.leb_spec (eocOf (ftype f)) prev); try lia;
    destruct (Z.ltb_spec prev 2); try lia; destruct (Z.leb_spec (count f) prev); try lia; cbn [orb].
  - cbn [linked] in Hl. rewrite Hl, He. destruct (Z.eqb_spec (eocOf (ftype f)) prev); [done|].
    destruct fuel; [lia|]. cbn [chainLoop]. unfold IsEndOfChain. by rewrite Z.leb_refl.
  - destruct Hl as [Hl Hls]. rewrite Hl. inversion Hnd as [|?? Hni Hnd']; subst.
    destruct (Z.eqb_spec (entry f prev) prev) as [E|E]; [rewrite E in Hni; set_solver|].
    rewrite IH; try done; [|lia]. by rewrite <- app_assoc.
Qed.

Lemma freeClusters_used f c v :
  0 <= c < count f -> entry f c <> 0 -> v <> 0 -> freeClusters (setRaw f c v) ≡ₚ freeClusters f.
Proof.
  intros Hc He Hv. apply NoDup_Permutation; try apply NoDup_freeClusters.
  intros k. rewrite !elem_of_freeClusters, count_setRaw.
  split; intros [Hk Hz]; (split; [done|]); rewrite entry_setRaw in * by lia;
    destruct (Z.eqb_spec k c) as [->|]; congruence.
Qed.

Lemma setEntry_link f prev c :
  chainable f -> 0 <= prev < count f -> 0 <= c < count f -> SetEntry f prev c = (setRaw f prev c, Ok tt).
Proof.
  intros Hch Hp Hc. unfold SetEntry. rewrite link_masked by done.
  destruct (Z.leb_spec (count f) prev); [lia|done].
Qed.

Lemma fatOk_setRaw f c v : fatOk f -> fatOk (setRaw f c v).
Proof. unfold fatOk. rewrite count_setRaw. done. Qed.

Lemma chainable_setRaw f c v : chainable f -> chainable (setRaw f c v).
Proof. unfold chainable. rewrite count_setRaw. done. Qed.

Lemma chainable_take f c : chainable f -> chainable (takeCluster f c).
Proof. apply (chainable_setRaw f c (allocatedValue f)). Qed.

Lemma count_take f c : count (takeCluster f c) = count f.
Proof. apply (count_setRaw f c (allocatedValue f)). Qed.

(** One round of the loop: a free cluster taken and linked from the one before. *)
Lemma extend_spec f prev c (f2 := setRaw (takeCluster f c) prev c) :
  fatOk f -> chainable f -> 2 <= prev < count f -> entry f prev <> 0 ->
  2 <= c < count f -> entry f c = 0 ->
  fatOk f2 /\ chainable f2 /\ count f2 = count f /\ freeClusters f ≡ₚ c :: freeClusters f2 /\
  (forall k, 0 <= k -> entry f2 k = if k =? prev then c else if k =? c then allocatedValue f else entry f k).
Proof.
  intros Hok Hch Hp Hnz Hc Hz. pose proof Hok as (_ & Ha & _).
  split; [by apply fatOk_setRaw, takeCluster_ok|].
  split; [by apply chainable_setRaw, chainable_take|].
  split; [unfold f2; by rewrite count_setRaw, count_take|]. split.
  - rewrite (freeClusters_take f c) by done. f_equiv. symmetry.
    apply freeClusters_used; [rewrite count_take; lia| |lia].
    rewrite entry_take by lia. destruct (Z.eqb_spec prev c); congruence.
  - intros k Hk. unfold f2. rewrite entry_setRaw, entry_take by (rewrite ?count_take; lia). done.
Qed.

(** What the loop that extends a chain leaves behind: [cs] linked after [prev]. *)
Definition extended (f : FATTableRegion) (prev : Z) (cs : list Z) (f' : FATTableRegion) : Prop :=
  NoDup (prev :: cs) /\ Forall (fun c => c ∈ freeClusters f) cs /\ linked f' prev cs /\
  fatOk f' /\ chainable f' /\ count f' = count f /\ ftype f' = ftype f /\
  forall k, 0 <= k -> k ∉ prev :: cs -> entry f' k = entry f k.

Lemma extended_nil f prev :
  fatOk f -> chainable f -> 2 <= prev < count f ->
  extended f prev [] (setRaw f prev (eocOf (ftype f))).
Proof.
  intros Hok Hch Hp. pose proof Hch as [He _].
  assert (forall k, 0 <= k -> entry (setRaw f prev (eocOf (ftype f))) k =
            if k =? prev then eocOf (ftype f) else entry f k) as Hen by (intros; apply entry_setRaw; lia).
  split; [apply NoDup_singleton|]. split; [done|].
  split; [cbn [linked]; rewrite Hen, Z.eqb_refl by lia; done|].
  split; [by apply fatOk_setRaw|]. split; [by apply chainable_setRaw|].
  split; [apply count_setRaw|]. split; [done|]. intros k Hk Hni. rewrite Hen by done.
  destruct (Z.eqb_spec k prev); [set_solver|done].
Qed.

Lemma extended_cons f prev c cs f' (f2 := setRaw (takeCluster f c) prev c) :
  fatOk f -> chainable f -> 2 <= prev < count f -> entry f prev <> 0 ->
  2 <= c < count f -> entry f c = 0 -> extended f2 c cs f' -> extended f prev (c :: cs) f'.
Proof.
  intros Hok Hch Hp Hnz Hc Hz (Hnd & Hfree & Hlk & Hok' & Hch' & Hcnt' & Hty & Hout).
  destruct (extend_spec f prev c) as (_ & _ & Hcnt & Hperm & Hen); try done. fold f2 in Hcnt, Hperm, Hen.
  assert (prev ∉ c :: cs) as Hni.
  { rewrite not_elem_of_cons. split; [congruence|]. intros Hin.
    rewrite Forall_forall in Hfree. apply Hfree, elem_of_freeClusters in Hin as [_ Hin].
    rewrite Hen, Z.eqb_refl in Hin by lia. lia. }
  split; [by constructor|]. split.
  { constructor; [by apply elem_of_freeClusters|].
    eapply Forall_impl; [exact Hfree|]. intros x Hx. cbn in Hx. rewrite Hperm. by right. }
  split; [split; [|done]|].
  { rewrite Hout by (done || lia). rewrite Hen, Z.eqb_refl by lia. done. }
  split; [done|]. split; [done|]. split; [congruence|]. split; [done|].
  intros k Hk Hnk. rewrite Hout by set_solver. rewrite Hen by done.
  destruct (Z.eqb_spec k prev); [set_solver|]. destruct (Z.eqb_spec k c); [set_solver|done].
Qed.

Lemma chainRest_spec n : forall f prev,
  fatOk f -> chainable f -> 2 <= prev < count f -> entry f prev <> 0 ->
  match chainRest n f prev with
  | (f', Ok _) => exists cs, length cs = n /\ extended f prev cs f'
  | (f', Err e) => e = NoFreeClusters /\ (length (freeClusters f) < n)%nat
  | (f', Panic) => False
  end.
Proof.
  induction n as [|n IH]; intros f prev Hok Hch Hp Hnz; cbn [chainRest].
  - unfold MarkEndOfChain, SetEntry. rewrite (proj1 Hch), eoc_masked.
    destruct (Z.leb_spec (count f) prev); [lia|].
    exists []. split; [done|]. by apply extended_nil.
  - pose proof (allocate_spec f Hok) as H1.
    destruct (AllocateCluster f) as [f1 [c|e|]]; [|destruct H1 as (-> & -> & Hnone)|done].
    + destruct H1 as (Hc & Hz & -> & Hok1). pose proof Hok as (_ & Ha & _).
      rewrite setEntry_link by (try apply chainable_take; rewrite ?count_take; try done; lia).
      destruct (extend_spec f prev c) as (Hok2 & Hch2 & Hcnt & Hperm & Hen); try done.
      specialize (IH _ c Hok2 Hch2). rewrite Hcnt, Hen, Z.eqb_refl in IH by lia.
      destruct (Z.eqb_spec c prev); [congruence|]. specialize (IH Hc ltac:(lia)).
      destruct (chainRest n _ c) as [f' [u|e|]]; [| |done].
      * destruct IH as (cs & Hl & Hx). exists (c :: cs). split; [cbn; lia|]. by apply extended_cons.
      * destruct IH as [-> IH]. split; [done|]. rewrite Hperm. cbn. lia.
    + split; [done|]. rewrite (freeClusters_none f Hnone). cbn. lia.
Qed.

(** C12: In a table whose cluster numbers are all below the end-of-chain mark of its type (4088,
    65528 or 268435448), allocating a file of [n] clusters, at least one, either fails, with the
    error for a full table and only when fewer than [n] clusters are free, or builds a chain of
    [n] distinct clusters that were all free: following the chain from the returned first
    cluster terminates and lists exactly these, and no entry of any other file changes.  The
    writer makes 16-bit tables that are larger; there links are lost ([fat16_link_lost]). *)
Theorem fat_file_chain (f : FATTableRegion) (n : Z)
    (Hok : fatOk f) (Hch : chainable f) (Hn : 1 <= n) :
  match allocateMultipleClusters f n with
  | (f', Ok first) => exists cs,
      len cs = n /\ NoDup cs /\ (forall c, c ∈ cs -> 2 <= c /\ IsFree f c = true) /\
      (forall fuel, (Z.to_nat n + 1 <= fuel)%nat -> GetClusterChain fuel f' first = Some cs) /\
      (forall k, 0 <= k -> k ∉ cs -> GetEntry f' k = GetEntry f k)
  | (_, Err e) => e = NoFreeClusters /\ GetFreeClusterCount f < n
  | (_, Panic) => False
  end.
Proof.
  pose proof Hok as (Hf & Ha & Hcn & _). unfold allocateMultipleClusters.
  destruct (Z.eqb_spec n 0); [lia|]. rewrite (freeCount_len f Hf Hcn).
  pose proof (allocate_spec f Hok) as H1.
  destruct (AllocateCluster f) as [f1 [c|e|]]; [|destruct H1 as (-> & -> & Hnone)|done].
  2:{ rewrite (freeClusters_none f Hnone). split; [done|unfold len; cbn; lia]. }
  destruct H1 as (Hc & Hz & -> & Hok1). pose proof (freeClusters_take f c Hok Hc Hz) as Hperm.
  pose proof (chainRest_spec (Z.to_nat (n - 1)) (takeCluster f c) c Hok1 (chainable_take f c Hch)) as H2.
  rewrite count_take, entry_take, Z.eqb_refl in H2 by lia. specialize (H2 Hc ltac:(lia)).
  destruct (chainRest _ _ c) as [f' [u|e|]]; [| |done].
  2:{ destruct H2 as [-> H2]. split; [done|]. unfold len. rewrite Hperm. cbn. lia. }
  destruct H2 as (cs & Hl & Hnd & Hfree & Hlk & _ & Hch' & Hcnt & Hty & Hout). rewrite count_take in Hcnt.
  assert (Forall (fun k => k ∈ freeClusters f) (c :: cs)) as Hall.
  { constructor; [by apply elem_of_freeClusters|]. eapply Forall_impl; [exact Hfree|].
    intros x Hx. cbn in Hx. rewrite Hperm. by right. }
  exists (c :: cs). split; [rewrite len_cons; unfold len; lia|]. split; [done|].
  rewrite Forall_forall in Hall. split; [|split].
  - intros k Hk. apply Hall, elem_of_freeClusters in Hk as [Hr He]. split; [lia|].
    unfold IsFree. rewrite He, Hf. by destruct (Z.leb_spec (count f) k); [lia|].
  - intros fuel Hfu. unfold GetClusterChain. destruct (Z.ltb_spec c 2); [lia|].
    apply (chainLoop_linked f' cs Hch' c []); try done; [lia|].
    apply Forall_forall. intros k Hk. rewrite Hcnt. by apply Hall, elem_of_freeClusters in Hk as [Hr _].
  - intros k Hk Hni. unfold GetEntry. rewrite Hcnt, Hout, entry_take by (done || lia).
    rewrite (proj1 Hch'), (proj1 Hch), Hty. by destruct (Z.eqb_spec k c); [set_solver|].
Qed.

(** A 16-bit table with more clusters than the end-of-chain mark, as the writer makes for images of 256 to 512 MiB: a link to a cluster
    behind the mark reads as the end of the chain, and one to a cluster from 65536 on as a link to another cluster. *)
Theorem fat16_link_lost (f : FATTableRegion) (prev c : Z) :
  ftype f = FAT16 -> 0 <= prev < count f -> eocOf FAT16 <= c < Z.min (count f) 131072 ->
  exists f', SetEntry f prev c = (f', Ok tt) /\
    if c <? 65536 then IsEndOfChain f' (GetEntry f' prev) = true else GetEntry f' prev = c - 65536.
Proof.
  intros Ht Hp Hc. exists (setRaw f prev (Z.land c (maskOf FAT16))).
  unfold SetEntry. rewrite Ht, (proj2 (Z.leb_gt (count f) prev)) by lia. split; [done|]. unfold GetEntry, IsEndOfChain. rewrite count_setRaw, (proj2 (Z.leb_gt (count f) prev)) by lia.
  rewrite entry_setRaw, Z.eqb_refl by lia. change (maskOf FAT16) with (Z.ones 16). rewrite Z.land_ones by lia. change (ftype (setRaw _ _ _)) with (ftype f). rewrite Ht.
  change (2 ^ 16) with 65536. unfold eocOf in *. destruct (Z.ltb_spec c 65536).
  - rewrite Z.mod_small by lia. lia.
  - rewrite <- (Z_mod_plus_full c (-1)). apply Z.mod_small. lia.
Qed.

Lemma new_chainable t n : 0 <= n <= eocOf t -> chainable (NewFATTableRegion t n).
Proof. intros Hn. split; [done|]. unfold count, len. cbn. rewrite length_replicate. lia. Qed.

Lemma fat_file_chain_witness :
  exists f' cs, allocateMultipleClusters (NewFATTableRegion FAT32 9) 4 = (f', Ok 2) /\
    GetClusterChain 5 f' 2 = Some cs /\ len cs = 4.
Proof.
  pose proof (fat_file_chain (NewFATTableRegion FAT32 9) 4 (new_fat_ok FAT32 9 ltac:(lia))
                (new_chainable FAT32 9 ltac:(unfold eocOf; lia)) ltac:(lia)) as H.
  destruct (allocateMultipleClusters _ 4) as [f' [c|e|]] eqn:E; [|vm_compute in E; congruence|done].
  assert (c = 2) as -> by (vm_compute in E; congruence).
  destruct H as (cs & Hl & _ & _ & Hch & _). exists f', cs. auto.
Defined.

(** Two clusters whose entries name each other are followed forever: only a cluster that
    names itself stops the loop. *)
Theorem chain_two_cycle (f : FATTableRegion) (a b : Z) :
  2 <= a < count f -> 2 <= b < count f -> a <> b -> count f <= eocOf (ftype f) ->
  entry f a = b -> entry f b = a -> forall fuel, GetClusterChain fuel f a = None.
Proof.
  intros Ha Hb Hab Hc Ea Eb fuel. unfold GetClusterChain. destruct (Z.ltb_spec a 2); [lia|].
  generalize (@nil Z) as acc. revert a b Ha Hb Hab Ea Eb H.
  induction fuel as [|fuel IH]; intros a b Ha Hb Hab Ea Eb H acc; [done|].
  cbn [chainLoop]. unfold IsEndOfChain, GetEntry.
  destruct (Z.leb_spec (eocOf (ftype f)) a); [lia|]. destruct (Z.ltb_spec a 2); [lia|].
  destruct (Z.leb_spec (count f) a); [lia|]. cbn [orb]. rewrite Ea.
  destruct (Z.eqb_spec b a); [done|]. eapply (IH b a); done || lia.
Qed.

(** * Reachable tables *)

(** What the methods of the region can do to a table. *)
Inductive fatStep : relation FATTableRegion :=
  | step_set f c v : fatStep f (fst (SetEntry f c v))
  | step_end f c : fatStep f (fst (MarkEndOfChain f c))
  | step_free f c : fatStep f (fst (MarkFree f c))
  | step_allocate f : fatStep f (fst (AllocateCluster f))
  | step_file f n : fatStep f (fst (allocateMultipleClusters f n))
  | step_write f p off : fatStep f (fst (fst (WriteAt f p off))).

Definition fitsEntry (t : fatType) (e : Z) : Prop := 0 <= e <= maskOf t.

(** The table of the type [t] with [n] entries, each of them within its width. *)
Definition fatTyped (t : fatType) (n : Z) (f : FATTableRegion) : Prop :=
  ftype f = t /\ count f = n /\ totalSize f = totalSize (NewFATTableRegion t n) /\
  eocValue f = eocOf t /\ allocatedValue f = maskOf t /\ fatOk f /\ Forall (fitsEntry t) (entries f).

Lemma land_mask t v : fitsEntry t (Z.land v (maskOf t)).
Proof.
  unfold fitsEntry. destruct t; cbn.
  - change 0xfff with (Z.ones 12). rewrite Z.land_ones by lia. change (Z.ones 12) with (2 ^ 12 - 1).
    pose proof (Z.mod_pos_bound v (2 ^ 12)). lia.
  - change 0xffff with (Z.ones 16). rewrite Z.land_ones by lia. change (Z.ones 16) with (2 ^ 16 - 1).
    pose proof (Z.mod_pos_bound v (2 ^ 16)). lia.
  - change 0x0fffffff with (Z.ones 28). rewrite Z.land_ones by lia. change (Z.ones 28) with (2 ^ 28 - 1).
    pose proof (Z.mod_pos_bound v (2 ^ 28)). lia.
Qed.

Lemma typed_setRaw t n f c v : fitsEntry t v -> fatTyped t n f -> fatTyped t n (setRaw f c v).
Proof.
  intros Hv (Ht & Hn & Hs & He & Ha & Hok & Hf). unfold fatTyped. rewrite count_setRaw.
  do 5 (split; [done|]). split; [by apply fatOk_setRaw|]. by apply Forall_insert.
Qed.

Lemma typed_set t n f c v : fatTyped t n f -> fatTyped t n (fst (SetEntry f c v)).
Proof.
  intros Hf. unfold SetEntry. destruct (_ <=? _); [done|]. cbn [fst].
  apply typed_setRaw; [|done]. rewrite (proj1 Hf). apply land_mask.
Qed.

Lemma typed_allocate t n f : fatTyped t n f -> fatTyped t n (fst (AllocateCluster f)).
Proof.
  intros Hf. pose proof Hf as (Ht & Hn & Hs & He & Ha & Hok & Hes).
  pose proof (allocate_spec f Hok) as H. destruct (AllocateCluster f) as [f' [c|e|]]; cbn [fst].
  - destruct H as (Hc & Hz & -> & Hok'). unfold fatTyped. rewrite count_take.
    do 5 (split; [done|]). split; [done|]. apply Forall_insert; [done|].
    rewrite Ha. destruct t; unfold fitsEntry; cbn; lia.
  - by destruct H as [-> _].
  - done.
Qed.

Lemma typed_chainRest t n m : forall f prev,
  fatTyped t n f -> fatTyped t n (fst (chainRest m f prev)).
Proof.
  induction m as [|m IH]; intros f prev Hf; cbn [chainRest].
  - by apply typed_set.
  - pose proof (typed_allocate t n f Hf) as H1. destruct (AllocateCluster f) as [f1 [c|e|]]; [|done..].
    pose proof (typed_set t n f1 prev c H1) as H2. destruct (SetEntry f1 prev c) as [f2 [u|e|]]; [|done..].
    by apply IH.
Qed.

Lemma typed_file t n f m : fatTyped t n f -> fatTyped t n (fst (allocateMultipleClusters f m)).
Proof.
  intros Hf. unfold allocateMultipleClusters. destruct (m =? 0); [done|].
  pose proof (typed_allocate t n f Hf) as H1. destruct (AllocateCluster f) as [f1 [c|e|]]; [|done..].
  pose proof (typed_chainRest t n (Z.to_nat (m - 1)) f1 c H1) as H2.
  by destruct (chainRest _ f1 c) as [f2 [u|e|]].
Qed.

Lemma typed_write12 n p : forall f i, fatTyped FAT12 n f -> fatTyped FAT12 n (fst (writeFAT12 f p i)).
Proof.
  induction p as [|x p IH]; intros f i Hf; cbn [writeFAT12]; [done|].
  destruct (_ <=? _); [done|]. unfold unpack12.
  match goal with
  | |- context [writeFAT12 (setRaw (setRaw _ ?a ?v) ?b ?u) p _] =>
      assert (fatTyped FAT12 n (setRaw (setRaw f a v) b u)) as H
        by (do 2 (apply typed_setRaw; [apply (land_mask FAT12)|]); done)
  end.
  specialize (IH _ (i + 1) H). by destruct (writeFAT12 _ p (i + 1)).
Qed.

Lemma typed_writeWide t n fuel w : forall f p i,
  fatTyped t n f -> fatTyped t n (fst (writeWide fuel f w p i)).
Proof.
  induction fuel as [|fuel IH]; intros f p i Hf; cbn [writeWide]; [done|].
  destruct (_ <? _); [done|]. destruct (_ <=? _); [done|].
  match goal with
  | |- context [writeWide _ (setRaw _ ?a (Z.land ?v _)) _ ?q _] =>
      assert (fatTyped t n (setRaw f a (Z.land v (maskOf (ftype f))))) as H
        by (apply typed_setRaw; [rewrite (proj1 Hf); apply land_mask|done]);
      specialize (IH _ q (i + w) H)
  end.
  by destruct (writeWide fuel _ w _ (i + w)).
Qed.

Lemma typed_write t n f p off : fatTyped t n f -> fatTyped t n (fst (fst (WriteAt f p off))).
Proof.
  intros Hf. unfold WriteAt. destruct (_ || _); [done|]. rewrite (proj1 Hf).
  set (q := take _ p). destruct t.
  - pose proof (typed_write12 n q f off Hf). by destruct (writeFAT12 f q off).
  - pose proof (typed_writeWide FAT16 n (length q) 2 f q off Hf). by destruct (writeWide _ f 2 q off).
  - pose proof (typed_writeWide FAT32 n (length q) 4 f q off Hf). by destruct (writeWide _ f 4 q off).
Qed.

(** C37: Whatever sequence of entry updates, allocations and byte writes a new table goes
    through, it keeps its type, its number of entries and its size, every entry stays
    within the width of the type (12, 16 or 28 bits), and the allocation hint stays
    within the table. *)
Theorem fat_table_well_typed (t : fatType) (n : Z) (f : FATTableRegion)
    (Hn : 2 <= n < 2 ^ 32) (Hs : rtc fatStep (NewFATTableRegion t n) f) :
  fatTyped t n f.
Proof.
  refine (rtc_preserves fatStep (fatTyped t n) _ _ _ Hs _).
  - intros g h [] Hg; eauto using typed_set, typed_allocate, typed_file, typed_write;
      by apply typed_set.
  - split; [done|]. split; [unfold count, len; cbn; rewrite length_replicate; lia|].
    do 3 (split; [done|]). split; [by apply new_fat_ok|]. cbn. apply Forall_replicate. destruct t; unfold fitsEntry; cbn; lia.
Qed.

Lemma fat_table_well_typed_witness :
  fatTyped FAT16 4 (fst (SetEntry (NewFATTableRegion FAT16 4) 3 70000)).
Proof.
  apply (fat_table_well_typed FAT16 4); [lia|]. eapply rtc_l; [apply step_set|apply rtc_refl].
Defined.
