(* ===== verification/Fdt.v ===== *)
(** Flattened device trees: [src/internal/core/fdt/build.go] and [node.go].

    [Build] writes a tree of nodes and properties as the blob the guest kernel reads at
    boot.  The file models the whole package and, as the contract, the reader of the
    device tree format ([readBlob]): a header with the block offsets, a structure block of
    aligned tokens and a block of property names.  [device_tree_roundtrip]: the blob reads
    back as the tree; [build_outcome]: [Build] fails exactly on a property without a
    single kind of value. *)

From stdpp Require Import gmap.
From S2P Require Import Prelude.

(** * Nodes and properties ([node.go]) *)

Record Property := mkProperty {
  Strings : list bytes;
  U32 : list Z;
  U64 : list Z;
  Bytes : bytes;
  Flag : bool;
}.

(** The strings [Kind] returns; [NoKind] is the empty one. *)
Inductive kind := StringsKind | U32Kind | U64Kind | BytesKind | FlagKind | NoKind.

Definition Kind (p : Property) : kind :=
  if 0 <? len (Strings p) then StringsKind
  else if 0 <? len (U32 p) then U32Kind
  else if 0 <? len (U64 p) then U64Kind
  else if 0 <? len (Bytes p) then BytesKind
  else if Flag p then FlagKind
  else NoKind.

Definition DefinedCount (p : Property) : Z :=
  let count := 0 in
  let count := if 0 <? len (Strings p) then count + 1 else count in
  let count := if 0 <? len (U32 p) then count + 1 else count in
  let count := if 0 <? len (U64 p) then count + 1 else count in
  let count := if 0 <? len (Bytes p) then count + 1 else count in
  if Flag p then count + 1 else count.

Inductive Node := mkNode (Name : bytes) (Properties : gmap bytes Property) (Children : list Node).

(** * The builder ([build.go]) *)

Abbreviation headerSize := 0x28.
Abbreviation version := 17%Z.
Abbreviation lastCompVer := 16%Z.
Abbreviation magic := 0xd00dfeed%Z.
Abbreviation beginNodeToken := 1%Z.
Abbreviation endNodeToken := 2%Z.
Abbreviation propToken := 3%Z.
Abbreviation endToken := 9%Z.

Inductive fdtError :=
| NoValues (name : bytes)
| MultipleKinds (name : bytes)
| UnsupportedKind (name : bytes).

Record builder := mkBuilder {
  structBuf : bytes;
  strings : bytes;
  stringsOff : gmap bytes Z;
}.
#[export] Instance eta_builder : Eta builder := fun b => mkBuilder (structBuf b) (strings b) (stringsOff b).

Definition writeStruct (d : bytes) (b : builder) : builder := b <| structBuf := structBuf b ++ d |>.

Definition writeToken (token : Z) (b : builder) : builder := writeStruct (be 4 token) b.

(** The loop of [padStruct]: at most three bytes are missing. *)
Fixpoint padLoop (fuel : nat) (b : builder) : builder :=
  match fuel with
  | O => b
  | S fuel => if negb (len (structBuf b) mod 4 =? 0) then padLoop fuel (writeStruct [0] b) else b
  end.

Definition padStruct (b : builder) : builder := padLoop 3 b.

Definition beginNode (name : bytes) (b : builder) : builder :=
  padStruct (writeStruct [0] (writeStruct name (writeToken beginNodeToken b))).

Definition endNode (b : builder) : builder := writeToken endNodeToken b.

Definition stringOffset (name : bytes) (b : builder) : builder * Z :=
  match stringsOff b !! name with
  | Some off => (b, off)
  | None =>
      let off := wrap 32 (len (strings b)) in
      (b <| strings := strings b ++ name ++ [0] |> <| stringsOff := <[name := off]> (stringsOff b) |>, off)
  end.

Definition property (name value : bytes) (b : builder) : builder :=
  let b := writeStruct (be 4 (wrap 32 (len value))) (writeToken propToken b) in
  let '(b, off) := stringOffset name b in
  padStruct (writeStruct value (writeStruct (be 4 off) b)).

(** The bytes of a value of one kind; [None] where the source's switch has no case. *)
Definition valueBytes (p : Property) : option bytes :=
  match Kind p with
  | StringsKind => Some (concat ((fun v => v ++ [0]) <$> Strings p))
  | U32Kind => Some (concat (be 4 <$> U32 p))
  | U64Kind => Some (concat (be 8 <$> U64 p))
  | BytesKind => Some (Bytes p)
  | FlagKind => Some []
  | NoKind => None
  end.

Definition emitProperty (name : bytes) (prop : Property) (b : builder) : result fdtError builder :=
  if DefinedCount prop =? 0 then Err (NoValues name)
  else if 1 <? DefinedCount prop then Err (MultipleKinds name)
  else
    match valueBytes prop with
    | Some data => Ok (property name data b)
    | None => Err (UnsupportedKind name)
    end.

(** The keys of the map after [sort.Strings]. *)
Definition sortedKeys (ps : gmap bytes Property) : list bytes := merge_sort stringLe (map_to_list ps).*1.

Fixpoint emitProperties (ps : gmap bytes Property) (keys : list bytes) (b : builder)
  : result fdtError builder :=
  match keys with
  | [] => Ok b
  | name :: keys =>
      b ← emitProperty name (default (mkProperty [] [] [] [] false) (ps !! name)) b;
      emitProperties ps keys b
  end.

Fixpoint emitNode (n : Node) (b : builder) : result fdtError builder :=
  match n with
  | mkNode name ps children =>
      let b := beginNode name b in
      b ← (if 0 <? Z.of_nat (size ps) then emitProperties ps (sortedKeys ps) b else Ok b);
      b ← (fix emitChildren (cs : list Node) (b : builder) : result fdtError builder :=
             match cs with
             | [] => Ok b
             | c :: cs => b ← emitNode c b; emitChildren cs b
             end) children b;
      Ok (endNode b)
  end.

Definition finish (b : builder) : bytes :=
  let b := padStruct (writeToken endToken b) in
  let structBytes := structBuf b in
  let stringsBytes := strings b in
  let memReserve := zeros 16 in
  let offMemReserve := headerSize in
  let offStruct := offMemReserve + len memReserve in
  let offStrings := offStruct + len structBytes in
  let totalSize := offStrings + len stringsBytes in
  let blob := zeros totalSize in
  let blob := put blob 0 (be 4 magic) in
  let blob := put blob 4 (be 4 (wrap 32 totalSize)) in
  let blob := put blob 8 (be 4 (wrap 32 offStruct)) in
  let blob := put blob 12 (be 4 (wrap 32 offStrings)) in
  let blob := put blob 16 (be 4 (wrap 32 offMemReserve)) in
  let blob := put blob 20 (be 4 version) in
  let blob := put blob 24 (be 4 lastCompVer) in
  let blob := put blob 28 (be 4 0) in
  let blob := put blob 32 (be 4 (wrap 32 (len stringsBytes))) in
  let blob := put blob 36 (be 4 (wrap 32 (len structBytes))) in
  let blob := put blob offMemReserve memReserve in
  let blob := put blob offStruct structBytes in
  put blob offStrings stringsBytes.

Definition Build (root : Node) : result fdtError bytes :=
  b ← emitNode root (mkBuilder [] [] ∅);
  Ok (finish b).

(** * The format *)

(** A tree as a reader of the blob sees it: property values are bytes. *)
Inductive tree := TNode (name : bytes) (props : list (bytes * bytes)) (children : list tree).

Definition readN (n : Z) (s : bytes) : option (bytes * bytes) :=
  if (0 <=? n) && (n <=? len s) then Some (take (Z.to_nat n) s, drop (Z.to_nat n) s) else None.

Definition readCell (s : bytes) : option (Z * bytes) :=
  '(w, s) ← readN 4 s; Some (unbe w, s).

(** A string and what follows its terminator. *)
Fixpoint readString (s : bytes) : option (bytes * bytes) :=
  match s with
  | [] => None
  | c :: s => if c =? 0 then Some ([], s) else '(n, r) ← readString s; Some (c :: n, r)
  end.

Definition pad (n : Z) : Z := (- n) mod 4.

(** [n] bytes and the padding after them. *)
Definition readPadded (n : Z) (s : bytes) : option (bytes * bytes) :=
  '(d, s) ← readN n s; '(_, s) ← readN (pad n) s; Some (d, s).

Definition nameAt (names : bytes) (off : Z) : option bytes :=
  if off <? len names then fst <$> readString (drop (Z.to_nat off) names) else None.

Fixpoint readProps (fuel : nat) (names s : bytes) : option (list (bytes * bytes) * bytes) :=
  match fuel with
  | O => None
  | S fuel =>
      '(t, r) ← readCell s;
      if negb (t =? 3) then Some ([], s)
      else
        '(n, r) ← readCell r;
        '(o, r) ← readCell r;
        '(v, r) ← readPadded n r;
        name ← nameAt names o;
        '(ps, r) ← readProps fuel names r;
        Some ((name, v) :: ps, r)
  end.

Fixpoint readList {A} (one : bytes -> option (A * bytes)) (fuel : nat) (s : bytes) : option (list A * bytes) :=
  match fuel with
  | O => None
  | S fuel =>
      '(t, _) ← readCell s;
      if negb (t =? 1) then Some ([], s)
      else '(x, r) ← one s; '(xs, r) ← readList one fuel r; Some (x :: xs, r)
  end.

Fixpoint readNode (fuel : nat) (names s : bytes) : option (tree * bytes) :=
  match fuel with
  | O => None
  | S fuel =>
      '(t, r) ← readCell s;
      if negb (t =? 1) then None
      else
        '(name, r) ← readString r;
        '(_, r) ← readN (pad (len name + 1)) r;
        '(ps, r) ← readProps fuel names r;
        '(cs, r) ← readList (readNode fuel names) fuel r;
        '(t, r) ← readCell r;
        if t =? 2 then Some (TNode name ps cs, r) else None
  end.

(** The 32-bit header field at an offset. *)
Definition field (blob : bytes) (off : Z) : Z := unbe (slice blob off (off + 4)).

Definition readBlob (blob : bytes) : option tree :=
  if negb (field blob 0 =? 0xd00dfeed) || negb (field blob 4 =? len blob) ||
     (17 <? field blob 24) || negb (field blob 8 mod 4 =? 0) then None
  else
    let struct := slice blob (field blob 8) (field blob 8 + field blob 36) in
    let names := slice blob (field blob 12) (field blob 12 + field blob 32) in
    '(t, r) ← readNode (length blob) names struct;
    '(token, _) ← readCell r;
    if token =? 9 then Some t else None.

(** * The tree a node stands for *)

Definition propsOf (ps : gmap bytes Property) : list (bytes * bytes) :=
  (fun k => (k, default [] (p ← ps !! k; valueBytes p))) <$> sortedKeys ps.

Fixpoint treeOf (n : Node) : tree :=
  match n with
  | mkNode name ps children => TNode name (propsOf ps) (treeOf <$> children)
  end.

Definition nulFree (s : bytes) : Prop := Forall (fun c => c <> 0) s.

(** A node and all nodes below it. *)
Fixpoint nodes (n : Node) : list Node :=
  match n with
  | mkNode _ _ children => n :: concat (nodes <$> children)
  end.

(** Names are C strings. *)
Definition namesOk (root : Node) : Prop :=
  Forall (fun '(mkNode name ps _) => nulFree name /\ map_Forall (fun k _ => nulFree k) ps) (nodes root).

(** Every property of the tree has exactly one kind of value. *)
Definition singleKinds (root : Node) : Prop :=
  Forall (fun '(mkNode _ ps _) => map_Forall (fun _ p => DefinedCount p = 1) ps) (nodes root).

Lemma nodes_Forall (P : Node -> Prop) name ps cs :
  Forall P (nodes (mkNode name ps cs)) <-> P (mkNode name ps cs) /\ Forall (fun c => Forall P (nodes c)) cs.
Proof. cbn [nodes]. by rewrite Forall_cons, Forall_concat, Forall_fmap. Qed.

Section node_ind.
Context (P : Node -> Prop) (step : forall name ps cs, Forall P cs -> P (mkNode name ps cs)).

Fixpoint node_rect (n : Node) : P n :=
  match n with
  | mkNode name ps cs =>
      step name ps cs ((fix each (cs : list Node) : Forall P cs :=
        match cs with
        | [] => Forall_nil_2 P
        | c :: cs => Forall_cons_2 P c cs (node_rect c) (each cs)
        end) cs)
  end.
End node_ind.

(** The children of a node, one after another. *)
Fixpoint emitChildren (cs : list Node) (b : builder) : result fdtError builder :=
  match cs with
  | [] => Ok b
  | c :: cs => b ← emitNode c b; emitChildren cs b
  end.

Lemma emitNode_eq name ps cs b :
  emitNode (mkNode name ps cs) b =
  (b ← emitProperties ps (sortedKeys ps) (beginNode name b); b ← emitChildren cs b; Ok (endNode b)).
Proof.
  cbn [emitNode]. destruct (Z.ltb_spec 0 (Z.of_nat (size ps))) as [|Hz].
  - done.
  - assert (ps = ∅) as -> by (apply map_size_empty_inv; lia). done.
Qed.

(** * Which trees can be built *)

Lemma kind_known p : DefinedCount p = 1 -> is_Some (valueBytes p).
Proof.
  unfold DefinedCount, valueBytes, Kind. intros H.
  repeat match goal with
  | |- context [if ?b then _ else _] => destruct b; eauto
  end. done.
Qed.

Lemma count_nonneg p : 0 <= DefinedCount p.
Proof. unfold DefinedCount. repeat case_match; lia. Qed.

Lemma emitProperty_Ok name p b b' :
  emitProperty name p b = Ok b' <->
  DefinedCount p = 1 /\ exists v, valueBytes p = Some v /\ b' = property name v b.
Proof.
  unfold emitProperty. pose proof (count_nonneg p). split.
  - destruct (Z.eqb_spec (DefinedCount p) 0); [done|]. destruct (Z.ltb_spec 1 (DefinedCount p)); [done|].
    intros E. split; [lia|]. destruct (valueBytes p) as [v|]; [|done]. injection E as <-. eauto.
  - intros (E & v & -> & ->). by rewrite E.
Qed.

(** The property an error is about, and what is wrong with it. *)
Definition fault (e : fdtError) (k : bytes) (p : Property) : Prop :=
  match e with
  | NoValues name => name = k /\ DefinedCount p = 0
  | MultipleKinds name => name = k /\ 1 < DefinedCount p
  | UnsupportedKind _ => False
  end.

Lemma fault_not_single e k p : fault e k p -> DefinedCount p <> 1.
Proof. destruct e; cbn; lia || done. Qed.

Lemma emitProperty_outcome name p b :
  match emitProperty name p b with
  | Ok _ => DefinedCount p = 1
  | Err e => fault e name p
  | Panic => False
  end.
Proof.
  unfold emitProperty. pose proof (count_nonneg p).
  destruct (Z.eqb_spec (DefinedCount p) 0); [done|]. destruct (Z.ltb_spec 1 (DefinedCount p)); [done|].
  destruct (kind_known p) as [v ->]; lia.
Qed.

Lemma elem_sortedKeys ps k : k ∈ sortedKeys ps <-> is_Some (ps !! k).
Proof.
  unfold sortedKeys. rewrite merge_sort_Permutation, list_elem_of_fmap. split.
  - intros [[k' p] [-> H%elem_of_map_to_list]]. eauto.
  - intros [p H]. exists (k, p). split; [done|]. by apply elem_of_map_to_list.
Qed.

Lemma emitProperties_outcome ps keys b :
  Forall (fun k => is_Some (ps !! k)) keys ->
  match emitProperties ps keys b with
  | Ok _ => forall k p, k ∈ keys -> ps !! k = Some p -> DefinedCount p = 1
  | Err e => exists k p, ps !! k = Some p /\ fault e k p
  | Panic => False
  end.
Proof.
  intros Hk. revert b. induction Hk as [|k keys [p Hp] _ IH]; intros b; cbn [emitProperties].
  { intros k p Hin. by apply elem_of_nil in Hin. }
  rewrite Hp. cbn [default]. pose proof (emitProperty_outcome k p b) as H1.
  unfold from_option, id. destruct (emitProperty k p b) as [b1|e|]; cbn; [|eauto|done].
  specialize (IH b1). destruct (emitProperties ps keys b1) as [b2|e|]; [|done..].
  intros k' p' [->|Hin]%elem_of_cons Hp'; [congruence|eauto].
Qed.

(** What [Build] may answer for a tree. *)
Definition outcome {A} (root : Node) (r : result fdtError A) : Prop :=
  match r with
  | Ok _ => singleKinds root
  | Err e => exists name ps cs k p, mkNode name ps cs ∈ nodes root /\ ps !! k = Some p /\ fault e k p
  | Panic => False
  end.

Lemma emitNode_outcome n : forall b, outcome n (emitNode n b).
Proof.
  induction n as [name ps cs IH] using node_rect. intros b. rewrite emitNode_eq.
  pose proof (emitProperties_outcome ps (sortedKeys ps) (beginNode name b)) as H1.
  destruct (emitProperties _ _ _) as [b1|e|]; cbn [mbind result_bind].
  - assert (match emitChildren cs b1 with
            | Ok _ => Forall singleKinds cs
            | Err e => exists c, c ∈ cs /\ outcome (A := unit) c (Err e)
            | Panic => False
            end) as H2.
    { clear H1. revert b1. induction IH as [|c cs Hc _ IHcs]; intros b1; cbn [emitChildren]; [done|].
      specialize (Hc b1). destruct (emitNode c b1) as [b2|e|]; cbn [mbind result_bind]; [|exists c|done].
      - specialize (IHcs b2). destruct (emitChildren cs b2) as [b3|e|]; [by constructor| |done].
        destruct IHcs as (c' & Hin & Hc'). exists c'. split; [by right|done].
      - split; [by left|done]. }
    destruct (emitChildren cs b1) as [b2|e|]; [|destruct H2 as (c & Hin & nm & q & ds & k & p & Hn & Hp & Hf)|done].
    + apply nodes_Forall. split; [|done]. intros k p Hp.
      apply (H1 ltac:(apply Forall_forall; intros; by apply elem_sortedKeys) k p); [|done].
      apply elem_sortedKeys. eauto.
    + exists nm, q, ds, k, p. split; [|done]. cbn. right. apply list_elem_of_In, in_concat.
      exists (nodes c). split; [apply in_map|]; by apply list_elem_of_In.
  - destruct H1 as (k & p & Hp & Hf); [apply Forall_forall; intros; by apply elem_sortedKeys|].
    exists name, ps, cs, k, p. split; [by left|done].
  - apply H1. apply Forall_forall. intros. by apply elem_sortedKeys.
Qed.

(** [Build] produces a blob exactly for the trees in which every property of every node
    has one kind of value; for every other tree it returns the error that names a property
    of the tree that has none or several, and it never panics or reports an unsupported
    kind. *)
Theorem build_outcome (root : Node) :
  match Build root with
  | Ok _ => singleKinds root
  | Err e => ~ singleKinds root /\
      exists name ps cs k p, mkNode name ps cs ∈ nodes root /\ ps !! k = Some p /\ fault e k p
  | Panic => False
  end.
Proof.
  unfold Build. pose proof (emitNode_outcome root (mkBuilder [] [] ∅)) as H.
  destruct (emitNode root _) as [b|e|]; cbn; [done| |done]. split; [|done].
  destruct H as (name & ps & cs & k & p & Hin & Hp & Hf). unfold singleKinds. rewrite Forall_forall.
  intros Hs. apply Hs in Hin. by apply fault_not_single in Hf as []; apply (Hin k).
Qed.

(** * What the builder writes *)

Lemma pad_range n : 0 <= pad n < 4.
Proof. unfold pad. dlia. Qed.

Lemma pad_aligned a n : a mod 4 = 0 -> pad (a + n) = pad n.
Proof. unfold pad. intros H. dlia. Qed.

Lemma padded_aligned n : (n + pad n) mod 4 = 0.
Proof. unfold pad. dlia. Qed.

Lemma writeStruct_app d e b : writeStruct e (writeStruct d b) = writeStruct (d ++ e) b.
Proof. unfold writeStruct. destruct b. cbn. by rewrite app_assoc. Qed.

Lemma len_write d b : len (structBuf (writeStruct d b)) = len (structBuf b) + len d.
Proof. apply len_app. Qed.

Lemma writeStruct_nil b : writeStruct [] b = b.
Proof. unfold writeStruct. destruct b. cbn. by rewrite app_nil_r. Qed.

(** Three rounds always suffice. *)
Lemma padLoop_eq fuel : forall b, pad (len (structBuf b)) <= Z.of_nat fuel ->
  padLoop fuel b = writeStruct (zeros (pad (len (structBuf b)))) b.
Proof.
  induction fuel as [|fuel IH]; intros b Hb; cbn [padLoop]; pose proof (pad_range (len (structBuf b))) as Hp.
  { replace (pad (len (structBuf b))) with 0 by lia. by rewrite writeStruct_nil. }
  destruct (Z.eqb_spec (len (structBuf b) mod 4) 0) as [Hz|Hz]; cbn [negb].
  { replace (pad (len (structBuf b))) with 0 by (unfold pad; dlia). by rewrite writeStruct_nil. }
  assert (pad (len (structBuf (writeStruct [0] b))) = pad (len (structBuf b)) - 1 /\
          1 <= pad (len (structBuf b))) as [E1 E2].
  { rewrite len_write. change (len [0]) with 1. unfold pad in *. dlia. }
  rewrite IH, writeStruct_app, E1 by lia. f_equal. cbn [app]. unfold zeros.
  rewrite <- replicate_S. f_equal. lia.
Qed.

Lemma padStruct_eq b : padStruct b = writeStruct (zeros (pad (len (structBuf b)))) b.
Proof. apply padLoop_eq. pose proof (pad_range (len (structBuf b))). lia. Qed.

Definition aligned (b : builder) : Prop := len (structBuf b) mod 4 = 0.

Lemma writePadded b d e : aligned b -> len d mod 4 = 0 ->
  padStruct (writeStruct e (writeStruct d b)) = writeStruct (d ++ e ++ zeros (pad (len e))) b /\
  aligned (writeStruct (d ++ e ++ zeros (pad (len e))) b).
Proof.
  intros Ha Hd. unfold aligned in *. rewrite padStruct_eq, !writeStruct_app, !len_write, !len_app.
  rewrite len_zeros by apply pad_range. split.
  - by rewrite !pad_aligned.
  - pose proof (padded_aligned (len e)). dlia.
Qed.

(** The name [k] is in the table [names] at [off]. *)
Definition named (names k : bytes) (off : Z) : Prop :=
  nulFree k /\ exists pre post, names = pre ++ k ++ 0 :: post /\ off = wrap 32 (len pre).

Definition tableOk (b : builder) : Prop :=
  map_Forall (fun k off => named (strings b) k off) (stringsOff b).

Lemma named_grows names names' k off : names `prefix_of` names' -> named names k off -> named names' k off.
Proof.
  intros [t ->] [Hk (pre & post & -> & ->)]. split; [done|]. exists pre, (post ++ t).
  split; [|done]. by rewrite <- !app_assoc.
Qed.

Lemma stringOffset_ok k b b' off :
  tableOk b -> nulFree k -> stringOffset k b = (b', off) ->
  tableOk b' /\ strings b `prefix_of` strings b' /\ named (strings b') k off /\ structBuf b' = structBuf b.
Proof.
  intros Ht Hk. unfold stringOffset. destruct (stringsOff b !! k) as [o|] eqn:E.
  - intros [= <- <-]. split; [done|]. split; [done|]. split; [by apply (Ht k)|done].
  - intros [= <- <-]. cbn. split; [|split; [by exists (k ++ [0])|split; [|done]]].
    + intros k' o. cbn. rewrite lookup_insert_Some. intros [[<- <-]|[_ H]].
      * split; [done|]. by exists (strings b), [].
      * eapply named_grows; [|by apply (Ht k')]. by exists (k ++ [0]).
    + split; [done|]. by exists (strings b), [].
Qed.

(** The encodings of a property, of a node and of lists of them, with the names in [names]. *)
Definition encProp (names : bytes) (kv : bytes * bytes) (s : bytes) : Prop :=
  exists off, named names kv.1 off /\
    s = be 4 3 ++ be 4 (wrap 32 (len kv.2)) ++ be 4 off ++ kv.2 ++ zeros (pad (len kv.2)).

Definition encList {A} (enc : A -> bytes -> Prop) (l : list A) (s : bytes) : Prop :=
  exists ss, Forall2 enc l ss /\ s = concat ss.

Inductive encNode (names : bytes) : tree -> bytes -> Prop :=
| enc_node name ps cs sp sc :
    nulFree name -> Forall2 (encProp names) ps sp -> Forall2 (encNode names) cs sc ->
    encNode names (TNode name ps cs)
      (be 4 1 ++ (name ++ [0]) ++ zeros (pad (len name + 1)) ++ concat sp ++ concat sc ++ be 4 2).

(** From [b] to [b'] the builder appends a string related by [E] to the names, whatever
    names are added later. *)
Definition emits (b b' : builder) (E : bytes -> bytes -> Prop) : Prop :=
  aligned b' /\ tableOk b' /\ strings b `prefix_of` strings b' /\
  exists s, structBuf b' = structBuf b ++ s /\ forall names, strings b' `prefix_of` names -> E names s.

Lemma emits_trans b b1 b2 E1 E2 :
  emits b b1 E1 -> emits b1 b2 E2 ->
  emits b b2 (fun names s => exists s1 s2, s = s1 ++ s2 /\ E1 names s1 /\ E2 names s2).
Proof.
  intros (_ & _ & Hp1 & s1 & Hs1 & H1) (Ha & Ht & Hp2 & s2 & Hs2 & H2). split; [done|]. split; [done|].
  split; [by etrans|]. exists (s1 ++ s2). split; [by rewrite Hs2, Hs1, app_assoc|].
  intros names Hn. exists s1, s2. split; [done|]. split; [apply H1; by etrans|by apply H2].
Qed.

Lemma emits_impl b b' (E E' : bytes -> bytes -> Prop) :
  (forall names s, E names s -> E' names s) -> emits b b' E -> emits b b' E'.
Proof. intros H (Ha & Ht & Hp & s & Hs & HE). split; [done|]. split; [done|]. split; [done|]. exists s. auto. Qed.

Lemma emits_cons {A} (enc : bytes -> A -> bytes -> Prop) b b1 b2 x l :
  emits b b1 (fun names => enc names x) -> emits b1 b2 (fun names => encList (enc names) l) ->
  emits b b2 (fun names => encList (enc names) (x :: l)).
Proof.
  intros H1 H2. eapply emits_impl; [|exact (emits_trans _ _ _ _ _ H1 H2)].
  intros names s (s1 & s2 & -> & Hs1 & ss & Hss & ->). exists (s1 :: ss). split; [by constructor|done].
Qed.

Lemma emits_nil {A} (enc : bytes -> A -> bytes -> Prop) b :
  aligned b -> tableOk b -> emits b b (fun names => encList (enc names) []).
Proof.
  intros Ha Ht. split; [done|]. split; [done|]. split; [done|]. exists [].
  split; [by rewrite app_nil_r|]. intros names _. by exists [].
Qed.

Lemma property_emits k v b :
  aligned b -> tableOk b -> nulFree k -> emits b (property k v b) (fun names => encProp names (k, v)).
Proof.
  intros Ha Ht Hk. unfold property, writeToken. rewrite writeStruct_app.
  set (d := be 4 propToken ++ be 4 (wrap 32 (len v))).
  destruct (stringOffset k (writeStruct d b)) as [b1 off] eqn:E.
  destruct (stringOffset_ok k (writeStruct d b) b1 off Ht Hk E) as (Ht1 & Hp & Hn & Hs).
  assert (aligned b1) as Ha1.
  { unfold aligned in *. rewrite Hs, len_write. unfold d. rewrite len_app, !len_be. dlia. }
  destruct (writePadded b1 (be 4 off) v Ha1) as [-> Ha2]; [by rewrite len_be|].
  split; [done|]. split; [exact Ht1|]. split; [exact Hp|].
  exists (d ++ be 4 off ++ v ++ zeros (pad (len v))). split.
  - cbn. rewrite Hs. cbn. by rewrite <- app_assoc.
  - intros names Hnames. exists off. split; [by eapply named_grows|]. unfold d. by rewrite <- app_assoc.
Qed.

Lemma emitProperties_emits ps keys : forall b b',
  emitProperties ps keys b = Ok b' -> aligned b -> tableOk b -> Forall nulFree keys ->
  emits b b' (fun names =>
    encList (encProp names) ((fun k => (k, default [] (p ← ps !! k; valueBytes p))) <$> keys)).
Proof.
  induction keys as [|k keys IH]; intros b b'; cbn [emitProperties fmap list_fmap].
  - intros [= <-] Ha Ht _. by apply emits_nil.
  - intros [b1 [[Hc (v & Hv & ->)]%emitProperty_Ok H]]%result_bind_Ok Ha Ht [Hk Hks]%Forall_cons.
    destruct (ps !! k) as [p|]; [|done]. cbn in Hv |- *. rewrite Hv.
    pose proof (property_emits k v b Ha Ht Hk) as H1.
    eapply (emits_cons encProp); [exact H1|]. destruct H1 as (? & ? & _). by apply IH.
Qed.

Lemma beginNode_emits name b :
  aligned b -> tableOk b ->
  emits b (beginNode name b) (fun _ s => s = be 4 1 ++ (name ++ [0]) ++ zeros (pad (len name + 1))).
Proof.
  intros Ha Ht. unfold beginNode, writeToken.
  rewrite (writeStruct_app name [0]).
  destruct (writePadded b (be 4 beginNodeToken) (name ++ [0]) Ha) as [-> Ha2]; [by rewrite len_be|].
  split; [done|]. split; [exact Ht|]. split; [done|]. eexists. split; [reflexivity|].
  intros _ _. by rewrite len_app.
Qed.

Lemma endNode_emits b : aligned b -> tableOk b -> emits b (endNode b) (fun _ s => s = be 4 2).
Proof.
  intros Ha Ht. split; [|split; [exact Ht|split; [done|]]].
  - unfold aligned, endNode, writeToken in *. rewrite len_write, len_be. dlia.
  - by exists (be 4 2).
Qed.

Lemma emitNode_emits n : forall b b',
  emitNode n b = Ok b' -> namesOk n -> aligned b -> tableOk b ->
  emits b b' (fun names => encNode names (treeOf n)).
Proof.
  induction n as [name ps cs IH] using node_rect. intros b b' E [[Hname Hps] Hcs]%nodes_Forall Ha Ht.
  rewrite emitNode_eq in E. apply result_bind_Ok in E as (b1 & E1 & (b2 & E2 & [= <-])%result_bind_Ok).
  pose proof (beginNode_emits name b Ha Ht) as H0. pose proof H0 as (Ha0 & Ht0 & _).
  pose proof (emitProperties_emits ps _ _ _ E1 Ha0 Ht0) as H1.
  assert (Forall nulFree (sortedKeys ps)) as Hkeys.
  { apply Forall_forall. intros k [p Hp]%elem_sortedKeys. by apply (Hps k p). }
  specialize (H1 Hkeys). pose proof H1 as (Ha1 & Ht1 & _).
  assert (emits b1 b2 (fun names => encList (encNode names) (treeOf <$> cs))) as H2.
  { clear - IH Hcs E2 Ha1 Ht1. revert b1 E2 Ha1 Ht1.
    induction IH as [|c cs Hc _ IHcs]; intros b1; cbn [emitChildren fmap list_fmap].
    - intros [= <-] Ha Ht. by apply emits_nil.
    - apply Forall_cons in Hcs as [Hn Hcs]. intros (b3 & E3 & E4)%result_bind_Ok Ha Ht.
      pose proof (Hc b1 b3 E3 Hn Ha Ht) as H3. eapply (emits_cons encNode); [exact H3|].
      destruct H3 as (? & ? & _). by apply IHcs. }
  pose proof H2 as (Ha2 & Ht2 & _). pose proof (endNode_emits b2 Ha2 Ht2) as H3.
  eapply emits_impl; [|exact (emits_trans _ _ _ _ _ H0 (emits_trans _ _ _ _ _ H1 (emits_trans _ _ _ _ _ H2 H3)))].
  intros names s (s0 & s1 & -> & -> & s2 & s3 & -> & (sp & Hsp & ->) & s4 & s5 & -> & (sc & Hsc & ->) & ->).
  rewrite <- !app_assoc. pose proof (enc_node names name (propsOf ps) (treeOf <$> cs) sp sc Hname Hsp Hsc) as H.
  by rewrite <- !app_assoc in H.
Qed.

(** * Reading it back *)

Lemma readN_app d r n : n = len d -> readN n (d ++ r) = Some (d, r).
Proof.
  intros ->. unfold readN. rewrite len_app. pose proof (len_nonneg d). pose proof (len_nonneg r).
  destruct (Z.leb_spec 0 (len d)), (Z.leb_spec (len d) (len d + len r)); try lia. cbn.
  unfold len. by rewrite Nat2Z.id, take_app_length, drop_app_length.
Qed.

Lemma readCell_be v r : readCell (be 4 v ++ r) = Some (wrap 32 v, r).
Proof. unfold readCell. rewrite readN_app by done. cbn. by rewrite unbe_be. Qed.

Lemma readString_app k r : nulFree k -> readString (k ++ 0 :: r) = Some (k, r).
Proof.
  induction 1 as [|c k Hc _ IH]; cbn; [done|]. destruct (Z.eqb_spec c 0); [done|]. by rewrite IH.
Qed.

Lemma readPadded_app d r n : n = len d -> readPadded n (d ++ zeros (pad n) ++ r) = Some (d, r).
Proof.
  intros ->. unfold readPadded. rewrite readN_app by done. cbn.
  rewrite readN_app by (by rewrite len_zeros by apply pad_range). done.
Qed.

Lemma named_found names k off :
  len names < 2 ^ 32 -> named names k off -> in_width 32 off /\ nameAt names off = Some k.
Proof.
  intros Hl [Hk (pre & post & -> & ->)]. rewrite !len_app, len_cons in Hl.
  pose proof (len_nonneg pre). pose proof (len_nonneg k). pose proof (len_nonneg post).
  assert (in_width 32 (len pre)) as Hw by (unfold in_width; lia).
  rewrite wrap_small by done. split; [done|]. unfold nameAt. rewrite !len_app, len_cons.
  destruct (Z.ltb_spec (len pre) (len pre + (len k + (1 + len post)))); [|lia].
  unfold len. rewrite Nat2Z.id, drop_app_length. by rewrite readString_app.
Qed.

Lemma readProps_enc names ps ss : len names < 2 ^ 32 -> Forall2 (encProp names) ps ss ->
  forall fuel r t r', (length (concat ss) < fuel)%nat -> len (concat ss) < 2 ^ 32 ->
  readCell r = Some (t, r') -> t <> 3 ->
  readProps fuel names (concat ss ++ r) = Some (ps, r).
Proof.
  intros Hn. induction 1 as [|[k v] s ps ss (off & Hnm & ->) _ IH]; intros fuel r t r' Hf Hs Hr Ht;
    (destruct fuel as [|fuel]; [cbn in Hf; lia|]); cbn [readProps concat].
  - cbn [app]. rewrite Hr. cbn. by destruct (Z.eqb_spec t 3).
  - cbn [fst snd] in *. destruct (named_found names k off Hn Hnm) as [Hw Hat].
    cbn [concat] in Hf, Hs. rewrite !length_app, !length_be in Hf. rewrite !len_app, !len_be in Hs.
    pose proof (len_nonneg v). pose proof (len_nonneg (zeros (pad (len v)))). pose proof (len_nonneg (concat ss)).
    rewrite <- !app_assoc, readCell_be. cbn [mbind option_bind]. change (wrap 32 3 =? 3) with true. cbn [negb].
    rewrite readCell_be. cbn [mbind option_bind]. rewrite readCell_be. cbn [mbind option_bind].
    rewrite wrap_wrap, (wrap_small 32 (len v)) by (unfold in_width; lia).
    rewrite readPadded_app by done. cbn [mbind option_bind]. rewrite (wrap_small 32 off), Hat by done.
    cbn [mbind option_bind]. rewrite (IH fuel r t r'); [done|lia|lia|done|done].
Qed.

Lemma readList_enc {A} (one : bytes -> option (A * bytes)) xs ss :
  Forall2 (fun x s => (exists tl, s = be 4 1 ++ tl) /\ forall r, one (s ++ r) = Some (x, r)) xs ss ->
  forall fuel r t r', (length (concat ss) < fuel)%nat -> readCell r = Some (t, r') -> t <> 1 ->
  readList one fuel (concat ss ++ r) = Some (xs, r).
Proof.
  induction 1 as [|x s xs ss [[tl ->] Hone] _ IH]; intros fuel r t r' Hf Hr Ht;
    (destruct fuel as [|fuel]; [cbn in Hf; lia|]); cbn [readList concat].
  - cbn [app]. rewrite Hr. cbn. by destruct (Z.eqb_spec t 1).
  - cbn [concat] in Hf. rewrite !length_app, length_be in Hf. rewrite <- (app_assoc (be 4 1 ++ tl)), Hone.
    rewrite <- (app_assoc (be 4 1)), readCell_be. cbn [mbind option_bind]. change (wrap 32 1 =? 1) with true.
    cbn [negb]. rewrite (IH fuel r t r'); [done|lia|done|done].
Qed.

Lemma encNode_head names t s : encNode names t s -> exists tl, s = be 4 1 ++ tl.
Proof. destruct 1. eauto. Qed.

Lemma concat_member {A} (ss : list (list A)) s : s ∈ ss -> (length s <= length (concat ss))%nat.
Proof.
  induction 1 as [s ss|s s' ss _ IH]; cbn [concat]; rewrite length_app; lia.
Qed.

(** After the properties of a node comes a child or the end of the node. *)
Lemma next_token names cs sc r : Forall2 (encNode names) cs sc ->
  exists t r', readCell (concat sc ++ be 4 2 ++ r) = Some (t, r') /\ t <> 3.
Proof.
  destruct 1 as [|c s cs sc [tl ->]%encNode_head _]; cbn [concat app].
  - rewrite readCell_be. eauto.
  - rewrite <- !app_assoc, readCell_be. eauto.
Qed.

Lemma readNode_enc names : len names < 2 ^ 32 -> forall fuel t s r,
  encNode names t s -> (length s <= fuel)%nat -> len s < 2 ^ 32 -> readNode fuel names (s ++ r) = Some (t, r).
Proof.
  intros Hn. induction fuel as [|fuel IH]; intros t s r He Hf Hs.
  { apply encNode_head in He as [tl ->]. rewrite length_app, length_be in Hf. lia. }
  destruct He as [name ps cs sp sc Hname Hps Hcs]. cbn [readNode].
  assert (length (concat sp) < fuel /\ length (concat sc) < fuel)%nat as [Hf1 Hf2].
  { rewrite !length_app, !length_be in Hf. cbn [length] in Hf. lia. }
  assert (len (concat sp) < 2 ^ 32 /\ len (concat sc) < 2 ^ 32) as [Hs1 Hs2].
  { rewrite !len_app in Hs. pose proof (len_nonneg name). pose proof (len_nonneg (concat sp)).
    pose proof (len_nonneg (concat sc)). pose proof (len_nonneg (zeros (pad (len name + 1)))).
    rewrite !len_be in Hs. change (len [0]) with 1 in Hs. lia. }
  rewrite <- !app_assoc, readCell_be. cbn [mbind option_bind]. change (wrap 32 1 =? 1) with true. cbn [negb app].
  rewrite readString_app by done. cbn [mbind option_bind].
  rewrite readN_app by (by rewrite len_zeros by apply pad_range). cbn [mbind option_bind].
  destruct (next_token names cs sc r Hcs) as (tk & r' & Htk & Hne).
  rewrite (readProps_enc names ps sp Hn Hps fuel _ tk r') by done. cbn [mbind option_bind].
  rewrite (readList_enc (readNode fuel names) cs sc) with (t := wrap 32 2) (r' := r);
    [|  |done|apply readCell_be|done].
  - cbn [mbind option_bind]. rewrite readCell_be. done.
  - apply Forall2_same_length_lookup. split; [by eapply Forall2_length|]. intros i c s Hc Hlk.
    pose proof (Forall2_lookup_lr _ _ _ _ _ _ Hcs Hc Hlk) as He. split; [by eapply encNode_head|].
    intros r0. pose proof (concat_member sc s ltac:(by eapply list_elem_of_lookup_2)) as Hm.
    apply IH; [done|lia|]. unfold len in *. lia.
Qed.

(** * The blob *)

Lemma put_fill pre n off d : off = len pre -> len d <= n ->
  put (pre ++ zeros n) off d = (pre ++ d) ++ zeros (n - len d).
Proof.
  intros -> Hd. pose proof (len_nonneg d). apply list_eq. intros i. rewrite lookup_put, !lookup_app_if, !lookup_zeros.
  unfold len in *. rewrite ?length_app, ?length_zeros.
  repeat case_decide; try lia; try done; f_equal; lia.
Qed.

(** The ten cells of the header. *)
Definition headerCells (structLen stringsLen : Z) : list Z :=
  [magic; 56 + structLen + stringsLen; 56; 56 + structLen; 40; version; lastCompVer; 0; stringsLen; structLen].

Lemma finish_eq b : aligned b ->
  let s := structBuf b ++ be 4 9 in
  finish b = concat ((fun c => be 4 (wrap 32 c)) <$> headerCells (len s) (len (strings b))) ++ zeros 16 ++ s ++ strings b.
Proof.
  intros Ha s. unfold finish. rewrite padStruct_eq.
  assert (pad (len (structBuf (writeToken endToken b))) = 0) as ->.
  { unfold writeToken. rewrite len_write, len_be. unfold aligned in Ha. by rewrite pad_aligned. }
  change (zeros 0) with (@nil Z). rewrite writeStruct_nil.
  change (structBuf (writeToken endToken b)) with s. change (strings (writeToken endToken b)) with (strings b).
  clearbody s. cbv zeta. change (len (zeros 16)) with 16. change (40 + 16) with 56.
  pose proof (len_nonneg s). pose proof (len_nonneg (strings b)).
  change (zeros (56 + len s + len (strings b))) with ([] ++ zeros (56 + len s + len (strings b))).
  do 13 (rewrite put_fill by (rewrite ?len_app, ?len_be; change (len (@nil Z)) with 0; change (len (zeros 16)) with 16; lia)).
  match goal with |- _ ++ zeros ?n = _ => replace n with 0 by (rewrite ?len_be, ?len_zeros by lia; lia) end.
  change (zeros 0) with (@nil Z). rewrite app_nil_r. cbn [app]. unfold headerCells. cbn [fmap list_fmap concat].
  rewrite app_nil_r, <- !app_assoc. reflexivity.
Qed.

Lemma field_cells cs rest i v : cs !! i = Some v ->
  field (concat ((fun c => be 4 (wrap 32 c)) <$> cs) ++ rest) (4 * Z.of_nat i) = wrap 32 v.
Proof.
  revert i. induction cs as [|c cs IH]; intros [|i] Hi; cbn in Hi; simplify_eq; cbn [fmap list_fmap concat].
  - rewrite <- app_assoc. unfold field. rewrite slice_app_l by (rewrite ?len_be; lia).
    change (4 * Z.of_nat 0 + 4) with (len (be 4 (wrap 32 v))).
    change (4 * Z.of_nat 0) with 0. rewrite slice_full, unbe_be. apply wrap_wrap. lia.
  - rewrite <- app_assoc. rewrite <- (IH i Hi). unfold field. rewrite slice_app_r by (rewrite ?len_be; lia).
    rewrite len_be. f_equal. f_equal; lia.
Qed.

(** The reader finds the two blocks where the header says they are. *)
Lemma readBlob_parts st names :
  56 + len st + len names < 2 ^ 32 ->
  let blob := concat ((fun c => be 4 (wrap 32 c)) <$> headerCells (len st) (len names)) ++ zeros 16 ++ st ++ names in
  len blob = 56 + len st + len names /\
  readBlob blob = ('(t, r) ← readNode (length blob) names st;
                   '(token, _) ← readCell r;
                   if token =? 9 then Some t else None).
Proof.
  intros Hsize blob. pose proof (len_nonneg st) as Hs0. pose proof (len_nonneg names) as Hn0.
  set (cells := headerCells (len st) (len names)) in *.
  assert (len (concat ((fun c => be 4 (wrap 32 c)) <$> cells)) = 40) as Hhead by done.
  assert (len blob = 56 + len st + len names) as Hlen.
  { unfold blob. rewrite !len_app, Hhead. change (len (zeros 16)) with 16. lia. }
  assert (forall i v, cells !! i = Some v -> in_width 32 v -> field blob (4 * Z.of_nat i) = v) as Hfield.
  { intros i v Hi Hv. unfold blob. rewrite (field_cells cells _ i v Hi). by apply wrap_small. }
  assert (forall a c, 56 <= a -> slice blob a c = slice (st ++ names) (a - 56) (c - 56)) as Hsl.
  { intros a c Ha. unfold blob. rewrite slice_app_r by lia. rewrite Hhead, slice_app_r by (change (len (zeros 16)) with 16; lia).
    change (len (zeros 16)) with 16. f_equal; lia. }
  clearbody blob. split; [done|]. unfold readBlob. rewrite Hlen.
  assert (field blob 0 = magic) as -> by (by apply (Hfield 0%nat)).
  assert (field blob 4 = 56 + len st + len names) as -> by (apply (Hfield 1%nat); unfold in_width; done || lia).
  assert (field blob 8 = 56) as -> by (by apply (Hfield 2%nat)).
  assert (field blob 12 = 56 + len st) as -> by (apply (Hfield 3%nat); unfold in_width; done || lia).
  assert (field blob 24 = lastCompVer) as -> by (by apply (Hfield 6%nat)).
  assert (field blob 32 = len names) as -> by (apply (Hfield 8%nat); unfold in_width; done || lia).
  assert (field blob 36 = len st) as -> by (apply (Hfield 9%nat); unfold in_width; done || lia).
  rewrite Z.eqb_refl. cbn [negb orb]. change (magic =? 0xd00dfeed) with true.
  change (17 <? lastCompVer) with false. change (56 mod 4 =? 0) with true. cbn [negb orb].
  rewrite !Hsl by lia. change (56 - 56) with 0. replace (56 + len st - 56) with (len st) by lia.
  rewrite (slice_app_l st names 0), (slice_app_r st names (len st)) by lia.
  replace (len st - len st) with 0 by lia.
  replace (56 + len st + len names - 56 - len st) with (len names) by lia. by rewrite Z.eqb_refl, !slice_full.
Qed.

(** The reader inverts [Build]. *)
Lemma blob_reads_back (root : Node) (blob : bytes)
    (Hnames : namesOk root) (Hbuild : Build root = Ok blob) (Hsize : len blob < 2 ^ 32) :
  readBlob blob = Some (treeOf root).
Proof.
  apply result_bind_Ok in Hbuild as (b & Hb & [= <-]).
  destruct (emitNode_emits root _ b Hb Hnames) as (Ha & _ & _ & s & Hs & Henc); [done|done|].
  cbn [structBuf app] in Hs. specialize (Henc (strings b) ltac:(done)).
  rewrite finish_eq, Hs in * by done. cbv zeta in *. pose proof (len_nonneg s). pose proof (len_nonneg (strings b)).
  assert (56 + len (s ++ be 4 9) + len (strings b) < 2 ^ 32) as Hfit.
  { revert Hsize. rewrite !len_app. change (len (concat _)) with 40. change (len (zeros 16)) with 16. lia. }
  destruct (readBlob_parts (s ++ be 4 9) (strings b) Hfit) as [Hlen ->].
  rewrite len_app, len_be in Hfit. rewrite (readNode_enc (strings b)) with (t := treeOf root); [|lia|done| |lia].
  - cbn [mbind option_bind]. rewrite <- (app_nil_r (be 4 9)), readCell_be. done.
  - pose proof (len_app s (be 4 9)) as H9. rewrite len_be in H9. unfold len in *. lia.
Qed.

(** C19: [Build] is inverted by a reader of the format: the blob of a tree whose names are C
    strings reads back as the same tree, with the properties of each node in the order of
    their names and the values encoded as their kind says.  The only other condition is
    that the blob fits the 32-bit sizes and offsets of the format. *)
Theorem device_tree_roundtrip (root : Node) (blob : bytes)
    (Hnames : namesOk root) (Hbuild : Build root = Ok blob) (Hsize : len blob < 2 ^ 32) :
  readBlob blob = Some (treeOf root).
Proof. exact (blob_reads_back root blob Hnames Hbuild Hsize). Qed.

(** A tree with a flag, cells and strings, two properties of which share a name. *)
Definition sampleTree : Node :=
  mkNode [] {[ [114; 101; 103] := mkProperty [] [1; 0x40000000] [] [] false ]}
    [mkNode [117; 64; 57]
       (<[ [115] := mkProperty [[97]; [98; 99]] [] [] [] false ]>
          {[ [114; 101; 103] := mkProperty [] [] [0x9000000] [] false ]})
       [mkNode [120] {[ [100] := mkProperty [] [] [] [] true ]} []];
     mkNode [121] ∅ []].

Lemma sampleTree_names : namesOk sampleTree.
Proof.
  unfold namesOk. cbn [nodes sampleTree fmap list_fmap concat app].
  repeat (apply Forall_cons; split); try apply Forall_nil; split;
    try (repeat constructor; done); try apply map_Forall_empty; try apply map_Forall_singleton;
    try (apply map_Forall_insert_2; [|apply map_Forall_singleton]); repeat constructor; done.
Qed.

Lemma device_tree_roundtrip_witness :
  exists blob, Build sampleTree = Ok blob /\ len blob = 188 /\ readBlob blob = Some (treeOf sampleTree).
Proof.
  eexists. split; [vm_compute; reflexivity|]. split; [vm_compute; reflexivity|].
  apply device_tree_roundtrip; [exact sampleTree_names|vm_compute; reflexivity|vm_compute; reflexivity].
Defined.

(** * Values and order *)

(** The values of [w]-byte cells. *)
Fixpoint readCells (fuel : nat) (w : Z) (s : bytes) : option (list Z) :=
  match fuel, s with
  | _, [] => Some []
  | O, _ => None
  | S fuel, _ => '(c, s) ← readN w s; (cons (unbe c)) <$> readCells fuel w s
  end.

Fixpoint readStrings (fuel : nat) (s : bytes) : option (list bytes) :=
  match fuel, s with
  | _, [] => Some []
  | O, _ => None
  | S fuel, _ => '(c, s) ← readString s; (cons c) <$> readStrings fuel s
  end.

(** A reader that knows the kind of a property. *)
Definition readValue (k : kind) (s : bytes) : option Property :=
  match k with
  | StringsKind => (fun l => mkProperty l [] [] [] false) <$> readStrings (length s) s
  | U32Kind => (fun l => mkProperty [] l [] [] false) <$> readCells (length s) 4 s
  | U64Kind => (fun l => mkProperty [] [] l [] false) <$> readCells (length s) 8 s
  | BytesKind => Some (mkProperty [] [] [] s false)
  | FlagKind => Some (mkProperty [] [] [] [] true)
  | NoKind => None
  end.

Lemma readCells_be w n l : n = Z.to_nat w -> 0 < w -> Forall (in_width (8 * w)) l ->
  forall fuel, (length (concat (be n <$> l)) <= fuel)%nat -> readCells fuel w (concat (be n <$> l)) = Some l.
Proof.
  intros -> Hw. induction 1 as [|v l Hv _ IH]; intros fuel Hf; [by destruct fuel|].
  cbn [fmap list_fmap concat] in *. pose proof (length_be (Z.to_nat w) v) as Hl. rewrite length_app, Hl in Hf.
  destruct fuel as [|fuel]; [lia|].
  destruct (be (Z.to_nat w) v) as [|x d] eqn:E; [cbn in Hl; lia|]. cbn [app readCells].
  change (x :: d ++ concat (be (Z.to_nat w) <$> l)) with ((x :: d) ++ concat (be (Z.to_nat w) <$> l)).
  rewrite readN_app by (unfold len; lia). cbn [mbind option_bind]. rewrite IH by lia.
  rewrite <- E, unbe_be, Z2Nat.id, wrap_small by (done || lia). done.
Qed.

Lemma readStrings_nul l : Forall nulFree l -> forall fuel,
  (length (concat ((fun v => v ++ [0%Z]) <$> l)) <= fuel)%nat ->
  readStrings fuel (concat ((fun v => v ++ [0]) <$> l)) = Some l.
Proof.
  induction 1 as [|v l Hv _ IH]; intros fuel Hf; [by destruct fuel|].
  cbn [fmap list_fmap concat] in *. rewrite !length_app in Hf. cbn [length] in Hf.
  destruct fuel as [|fuel]; [lia|]. cbn [readStrings]. rewrite <- app_assoc. cbn [app].
  destruct (v ++ 0 :: concat ((fun v => v ++ [0]) <$> l)) eqn:E; [by destruct v|].
  rewrite <- E, readString_app by done. cbn [mbind option_bind]. by rewrite IH by lia.
Qed.

(** What a property holds can be recovered from its bytes by a reader that knows its kind. *)
Theorem property_value_roundtrip (p : Property) (v : bytes) :
  DefinedCount p = 1 -> valueBytes p = Some v ->
  Forall nulFree (Strings p) -> Forall (in_width 32) (U32 p) -> Forall (in_width 64) (U64 p) ->
  readValue (Kind p) v = Some p.
Proof.
  destruct p as [ss c4 c8 bs fl]. unfold DefinedCount, valueBytes, Kind. cbn [Strings U32 U64 Bytes Flag].
  assert (forall {A} (l : list A), (0 <? len l) = false -> l = []) as Hnil.
  { intros A l H. apply len_0_nil. pose proof (len_nonneg l). lia. }
  intros Hc Hv Hs H4 H8. revert Hc Hv.
  destruct (0 <? len ss) eqn:E1, (0 <? len c4) eqn:E2, (0 <? len c8) eqn:E3, (0 <? len bs) eqn:E4, fl;
    intros Hc [= <-]; try lia; repeat match goal with H : _ = false |- _ => apply Hnil in H; subst end; cbn [readValue].
  - by rewrite (readStrings_nul ss) by done.
  - by rewrite (readCells_be 4 4) by done.
  - by rewrite (readCells_be 8 8) by done.
  - done.
  - done.
Qed.

(** The properties of a node are written in the order of their names, each once. *)
Lemma sortedKeys_order ps : Sorted stringLe (sortedKeys ps) /\ NoDup (sortedKeys ps).
Proof.
  unfold sortedKeys. split; [apply Sorted_merge_sort; apply _|].
  rewrite merge_sort_Permutation. apply NoDup_fst_map_to_list.
Qed.
