(* ===== verification/PersistentState.v ===== *)
(** The durable metadata of a persistent file system and its deltas:
    [src/internal/core/virtio/fs_persistent_store.go] (the state) and
    [fs_persistent_wal.go] ([applyPersistentImageDelta] and the pending changes).

    The state is a list of nodes in the order of their numbers, with directory entries and
    whiteouts in the order of their names.  A delta replaces nodes, deletes nodes and edits
    directories, through maps that are built from the lists and sorted back.
    [delta_refines]: the result of a delta is described node by node, so changes of
    different nodes do not interfere, and the lists stay in order.  [fsync_keeps_namespace]
    and [fsyncdir_keeps_data]: syncing a file and syncing a directory store only their own
    part.  [removed_directory_blocks_sync]: a removed directory with pending entries makes
    every later sync fail. *)

From stdpp Require Import gmap.
From S2P Require Import Prelude.

(** * The state *)

Record persistentImageDirent := mkDirent { deName : bytes; deInode : Z }.
Record persistentImageXattr := mkXattr { xaName : bytes; xaValue : bytes }.
Record persistentImageExtent := mkExtent { exPage : Z; exCount : Z }.

Record persistentImageNode := mkNode {
  ID : Z;
  Parent : Z;
  Name : bytes;
  Kind : bytes;
  Mode : Z;
  RawMode : Z;
  UID : Z;
  GID : Z;
  RDev : Z;
  Size : Z;
  NLink : Z;
  SymlinkTarget : bytes;
  GuestPath : bytes;
  LowerPath : bytes;
  Entries : list persistentImageDirent;
  Whiteouts : list bytes;
  Xattrs : list persistentImageXattr;
  Data : list persistentImageExtent;
  EntriesDone : bool;
  CopiedUp : bool;
  Independent : bool;
  LowerSize : Z;
  ATimeUnixNano : Z;
  MTimeUnixNano : Z;
  CTimeUnixNano : Z;
  PreserveNamespace : bool;
}.
#[export] Instance eta_persistentImageNode : Eta persistentImageNode := fun n =>
  mkNode (ID n) (Parent n) (Name n) (Kind n) (Mode n) (RawMode n) (UID n) (GID n) (RDev n) (Size n) (NLink n)
    (SymlinkTarget n) (GuestPath n) (LowerPath n) (Entries n) (Whiteouts n) (Xattrs n) (Data n) (EntriesDone n)
    (CopiedUp n) (Independent n) (LowerSize n) (ATimeUnixNano n) (MTimeUnixNano n) (CTimeUnixNano n)
    (PreserveNamespace n).

Record persistentImageRecovery := mkRecovery { Status : bytes; QuarantinePath : bytes; DiscardedBytes : Z }.

Record persistentImageState := mkState {
  Version : Z;
  Sequence : Z;
  LowerID : bytes;
  NextNodeID : Z;
  Nodes : list persistentImageNode;
  RemovedNodes : list Z;
  Recovery : persistentImageRecovery;
  LastError : bytes;
}.
#[export] Instance eta_persistentImageState : Eta persistentImageState := fun s =>
  mkState (Version s) (Sequence s) (LowerID s) (NextNodeID s) (Nodes s) (RemovedNodes s) (Recovery s) (LastError s).

(** * Deltas *)

Record persistentImageDirentOp := mkDirentOp { doParent : Z; doName : bytes; doInode : Z; doPresent : bool }.
Record persistentImageWhiteoutOp := mkWhiteoutOp { woParent : Z; woName : bytes; woPresent : bool }.

Record persistentImageDelta := mkDelta {
  dVersion : Z;
  dSequence : Z;
  dNextNodeID : Z;
  Committed : bool;
  dNodes : list persistentImageNode;
  Deleted : list Z;
  Dirents : list persistentImageDirentOp;
  dWhiteouts : list persistentImageWhiteoutOp;
}.
#[export] Instance eta_persistentImageDelta : Eta persistentImageDelta := fun d =>
  mkDelta (dVersion d) (dSequence d) (dNextNodeID d) (Committed d) (dNodes d) (Deleted d) (Dirents d) (dWhiteouts d).

Inductive stateError :=
| DirentParentMissing (id : Z)
| WhiteoutParentMissing (id : Z).

Definition nodeMap (l : list persistentImageNode) : gmap Z persistentImageNode :=
  foldl (fun m n => <[ID n := n]> m) ∅ l.

Definition nodeLe (a b : persistentImageNode) : Prop := ID a <= ID b.
#[export] Instance nodeLe_dec a b : Decision (nodeLe a b) := decide (ID a <= ID b).

Definition nodeList (m : gmap Z persistentImageNode) : list persistentImageNode :=
  merge_sort nodeLe (map_to_list m).*2.

(** A node of the delta over the node it replaces. *)
Definition mergeNode (old : option persistentImageNode) (update : persistentImageNode) : persistentImageNode :=
  (match old with
   | Some old =>
       (if PreserveNamespace update
        then update <| Parent := Parent old |> <| Name := Name old |> <| GuestPath := GuestPath old |>
                    <| NLink := NLink old |>
        else update) <| Entries := Entries old |> <| Whiteouts := Whiteouts old |>
   | None => update
   end) <| PreserveNamespace := false |>.

Definition applyNode (m : gmap Z persistentImageNode) (update : persistentImageNode) : gmap Z persistentImageNode :=
  <[ID update := mergeNode (m !! ID update) update]> m.

Definition entryMap (l : list persistentImageDirent) : gmap bytes Z :=
  foldl (fun m e => <[deName e := deInode e]> m) ∅ l.

Definition direntLe (a b : persistentImageDirent) : Prop := stringLe (deName a) (deName b).
#[export] Instance direntLe_dec a b : Decision (direntLe a b) := stringLe_dec (deName a) (deName b).

Definition entryList (m : gmap bytes Z) : list persistentImageDirent :=
  merge_sort direntLe ((fun kv => mkDirent kv.1 kv.2) <$> map_to_list m).

Definition editEntries (op : persistentImageDirentOp) (m : gmap bytes Z) : gmap bytes Z :=
  if doPresent op then <[doName op := doInode op]> m else delete (doName op) m.

Definition applyDirent (m : gmap Z persistentImageNode) (op : persistentImageDirentOp)
  : result stateError (gmap Z persistentImageNode) :=
  match m !! doParent op with
  | None => Err (DirentParentMissing (doParent op))
  | Some parent =>
      let parent := parent <| Entries := entryList (editEntries op (entryMap (Entries parent))) |> in
      Ok (<[ID parent := parent]> m)
  end.

Definition whiteoutSet (l : list bytes) : gset bytes := list_to_set l.

Definition whiteoutList (s : gset bytes) : list bytes := merge_sort stringLe (elements s).

Definition editWhiteouts (op : persistentImageWhiteoutOp) (s : gset bytes) : gset bytes :=
  if woPresent op then {[woName op]} ∪ s else s ∖ {[woName op]}.

Definition applyWhiteout (m : gmap Z persistentImageNode) (op : persistentImageWhiteoutOp)
  : result stateError (gmap Z persistentImageNode) :=
  match m !! woParent op with
  | None => Err (WhiteoutParentMissing (woParent op))
  | Some parent =>
      let parent := parent <| Whiteouts := whiteoutList (editWhiteouts op (whiteoutSet (Whiteouts parent))) |> in
      Ok (<[ID parent := parent]> m)
  end.

(** A loop that stops at the first error. *)
Fixpoint eachOp {A B} (f : B -> A -> result stateError B) (m : B) (l : list A) : result stateError B :=
  match l with
  | [] => Ok m
  | x :: l => m ← f m x; eachOp f m l
  end.

Definition applyPersistentImageDelta (state : persistentImageState) (delta : persistentImageDelta)
  : result stateError persistentImageState :=
  let nodes := nodeMap (Nodes state) in
  let nodes := foldl applyNode nodes (dNodes delta) in
  let nodes := foldl (fun m id => delete id m) nodes (Deleted delta) in
  nodes ← eachOp applyDirent nodes (Dirents delta);
  nodes ← eachOp applyWhiteout nodes (dWhiteouts delta);
  Ok (state <| Nodes := nodeList nodes |> <| NextNodeID := Z.max (NextNodeID state) (dNextNodeID delta) |>
            <| Sequence := dSequence delta |>).

(** * Pending changes *)

Abbreviation persistentDirentKey := (Z * bytes)%type.

Record persistentImagePending := mkPending {
  pNodes : gset Z;
  pDeleted : gset Z;
  pDirents : gmap persistentDirentKey persistentImageDirentOp;
  pWhiteouts : gmap persistentDirentKey persistentImageWhiteoutOp;
}.
#[export] Instance eta_persistentImagePending : Eta persistentImagePending := fun p =>
  mkPending (pNodes p) (pDeleted p) (pDirents p) (pWhiteouts p).

(** The pending record of a store; nil before the first change. *)
Definition ensurePending (p : option persistentImagePending) : persistentImagePending :=
  default (mkPending ∅ ∅ ∅ ∅) p.

Definition markNode (id : Z) (p : option persistentImagePending) : option persistentImagePending :=
  if id =? 0 then p
  else
    let pending := ensurePending p in
    if bool_decide (id ∈ pDeleted pending) then Some pending
    else Some (pending <| pNodes := {[id]} ∪ pNodes pending |>).

Definition markDeleted (id : Z) (p : option persistentImagePending) : option persistentImagePending :=
  if id =? 0 then p
  else
    let pending := ensurePending p in
    Some (pending <| pNodes := pNodes pending ∖ {[id]} |> <| pDeleted := {[id]} ∪ pDeleted pending |>).

Definition markDirent (parent : Z) (name : bytes) (inode : Z) (present : bool) (p : option persistentImagePending)
  : option persistentImagePending :=
  let pending := ensurePending p in
  Some (pending <| pDirents := <[(parent, name) := mkDirentOp parent name inode present]> (pDirents pending) |>).

Definition markWhiteout (parent : Z) (name : bytes) (present : bool) (p : option persistentImagePending)
  : option persistentImagePending :=
  let pending := ensurePending p in
  Some (pending <| pWhiteouts := <[(parent, name) := mkWhiteoutOp parent name present]> (pWhiteouts pending) |>).

Definition pendingEmpty (p : persistentImagePending) : bool :=
  bool_decide (pNodes p = ∅) && bool_decide (pDeleted p = ∅) && bool_decide (pDirents p = ∅) &&
  bool_decide (pWhiteouts p = ∅).

Definition opLe (a b : persistentImageDirentOp) : Prop :=
  doParent a < doParent b \/ (doParent a = doParent b /\ stringLe (doName a) (doName b)).
#[export] Instance opLe_dec a b : Decision (opLe a b).
Proof. unfold opLe. apply _. Defined.

Definition whiteoutOpLe (a b : persistentImageWhiteoutOp) : Prop :=
  woParent a < woParent b \/ (woParent a = woParent b /\ stringLe (woName a) (woName b)).
#[export] Instance whiteoutOpLe_dec a b : Decision (whiteoutOpLe a b).
Proof. unfold whiteoutOpLe. apply _. Defined.

(** The delta of all pending changes; [saved id] is the node the live file system would save. *)
Definition persistentDeltaLocked (nextNodeID : Z) (saved : Z -> option persistentImageNode)
    (p : option persistentImagePending) : option persistentImageDelta :=
  match p with
  | None => None
  | Some pending =>
      if pendingEmpty pending then None
      else
        Some (mkDelta 1 0 nextNodeID false
          (omap (fun id => (fun n => n <| Entries := [] |> <| Whiteouts := [] |>) <$> saved id)
             (merge_sort Z.le (elements (pNodes pending))))
          (merge_sort Z.le (elements (pDeleted pending)))
          (merge_sort opLe (map_to_list (pDirents pending)).*2)
          (merge_sort whiteoutOpLe (map_to_list (pWhiteouts pending)).*2))
  end.

Definition durableNode (state : option persistentImageState) (id : Z) : option persistentImageNode :=
  state ← state; snd <$> list_find (fun n => ID n = id) (Nodes state).

Definition preservePersistentNodeData (target durable : persistentImageNode) : persistentImageNode :=
  target <| Size := Size durable |> <| Data := Data durable |> <| CopiedUp := CopiedUp durable |>
         <| Independent := Independent durable |> <| LowerSize := LowerSize durable |>
         <| LowerPath := LowerPath durable |>.

Abbreviation fileKind := ([102; 105; 108; 101] : bytes).

(** A dirty file in a delta for a directory: its contents stay what they durably were. *)
Definition withoutDirtyData (dirty : gset Z) (state : option persistentImageState) (n : persistentImageNode)
  : persistentImageNode :=
  if negb (bool_decide (ID n ∈ dirty)) || negb (bool_decide (Kind n = fileKind)) then n
  else
    match durableNode state (ID n) with
    | Some durable => preservePersistentNodeData n durable
    | None =>
        (if negb (len (LowerPath n) =? 0)
         then n <| Size := LowerSize n |> <| CopiedUp := false |> <| Independent := false |>
         else n <| Size := 0 |> <| LowerSize := 0 |> <| Independent := true |>) <| Data := [] |>
    end.

Definition persistentNamespaceDeltaLocked (nextNodeID : Z) (saved : Z -> option persistentImageNode)
    (dirty : gset Z) (state : option persistentImageState) (p : option persistentImagePending)
  : option persistentImageDelta :=
  (fun delta => delta <| dNodes := withoutDirtyData dirty state <$> dNodes delta |>) <$>
    persistentDeltaLocked nextNodeID saved p.

Definition clearNamespacePending (dirty : gset Z) (p : option persistentImagePending) : option persistentImagePending :=
  match p with
  | None => None
  | Some pending =>
      let dirty := dirty ∖ pDeleted pending in
      if bool_decide (dirty = ∅) then None else Some (mkPending dirty ∅ ∅ ∅)
  end.

Abbreviation dirKind := ([100; 105; 114] : bytes).

(** The delta of one file's fsync; [imageNode id] is what would be saved for a live node.  The
    pending whiteouts are taken in the map's order, which the code leaves open. *)
Definition persistentFileDeltaLocked (nextNodeID : Z) (imageNode : Z -> option persistentImageNode)
    (state : option persistentImageState) (p : option persistentImagePending) (nodeID : Z)
  : option persistentImageDelta :=
  let bare n := n <| Entries := [] |> <| Whiteouts := [] |> in
  match imageNode nodeID with
  | None => None
  | Some node =>
      if bool_decide (Kind node = dirKind) then None
      else
        let saved := bare node in
        let preserved := mkDelta 1 0 nextNodeID false [saved <| PreserveNamespace := true |>] [] [] [] in
        match durableNode state nodeID, p with
        | Some _, _ => Some preserved
        | None, None => Some preserved
        | None, Some pending =>
            let selected := filter (fun kv => doInode kv.2 = nodeID) (pDirents pending) in
            if bool_decide (selected = ∅) then Some preserved
            else
              let dirents := (map_to_list selected).*2 in
              let whiteouts := (map_to_list (filter (fun kv => is_Some (selected !! kv.1)) (pWhiteouts pending))).*2 in
              let parents := elements (list_to_set (doParent <$> dirents) : gset Z) in
              Some (mkDelta 1 0 nextNodeID false
                (merge_sort nodeLe (saved :: omap (fun id => bare <$> imageNode id) parents))
                (if bool_decide (nodeID ∈ pDeleted pending) then [nodeID] else [])
                (merge_sort opLe dirents) whiteouts)
        end
  end.

Definition clearFilePending (nodeID : Z) (committedCreation : bool) (p : option persistentImagePending)
  : option persistentImagePending :=
  match p with
  | None => None
  | Some pending =>
      let created := filter (fun kv => doInode kv.2 = nodeID) (pDirents pending) in
      let pending :=
        if committedCreation
        then pending <| pDirents := pDirents pending ∖ created |> <| pWhiteouts := filter (fun kv => created !! kv.1 = None) (pWhiteouts pending) |>
                     <| pDeleted := pDeleted pending ∖ {[nodeID]} |>
        else pending in
      let keepNodeForNamespace :=
        negb committedCreation && (bool_decide (nodeID ∈ pDeleted pending) || negb (bool_decide (created = ∅))) in
      let pending := if keepNodeForNamespace then pending else pending <| pNodes := pNodes pending ∖ {[nodeID]} |> in
      if pendingEmpty pending then None else Some pending
  end.

(** * The abstract namespace: nodes by number, directories as maps *)

Record nodeView := mkView { meta : persistentImageNode; names : gmap bytes Z; hidden : gset bytes }.

Definition viewNode (n : persistentImageNode) : nodeView :=
  mkView (n <| Entries := [] |> <| Whiteouts := [] |>) (entryMap (Entries n)) (whiteoutSet (Whiteouts n)).

Definition view (s : persistentImageState) : gmap Z nodeView := viewNode <$> nodeMap (Nodes s).

Definition specUpdate (v : gmap Z nodeView) (u : persistentImageNode) : gmap Z nodeView :=
  <[ID u := match v !! ID u with
            | Some old => mkView (meta (viewNode (mergeNode (Some (meta old)) u))) (names old) (hidden old)
            | None => viewNode (mergeNode None u)
            end]> v.

Definition namesAfter (ops : list persistentImageDirentOp) (id : Z) (m : gmap bytes Z) : gmap bytes Z :=
  foldl (fun m op => if doParent op =? id then editEntries op m else m) m ops.

Definition hiddenAfter (ops : list persistentImageWhiteoutOp) (id : Z) (s : gset bytes) : gset bytes :=
  foldl (fun s op => if woParent op =? id then editWhiteouts op s else s) s ops.

(** The nodes a delta leaves, before its directory edits. *)
Definition specNodes (d : persistentImageDelta) (v : gmap Z nodeView) : gmap Z nodeView :=
  filter (fun kv => kv.1 ∉ Deleted d) (foldl specUpdate v (dNodes d)).

Definition specDelta (d : persistentImageDelta) (v : gmap Z nodeView) : gmap Z nodeView :=
  map_imap (fun id n => Some (mkView (meta n) (namesAfter (Dirents d) id (names n)) (hiddenAfter (dWhiteouts d) id (hidden n))))
    (specNodes d v).

Definition parentsPresent (d : persistentImageDelta) (v : gmap Z nodeView) : Prop :=
  Forall (fun op => is_Some (specNodes d v !! doParent op)) (Dirents d) /\
  Forall (fun op => is_Some (specNodes d v !! woParent op)) (dWhiteouts d).

(** The lists are strictly ordered: by number, and by name. *)
Definition canonicalNode (n : persistentImageNode) : Prop :=
  StronglySorted (fun a b => stringLess (deName a) (deName b) = true) (Entries n) /\
  StronglySorted (fun a b => stringLess a b = true) (Whiteouts n).

Definition canonical (s : persistentImageState) : Prop :=
  StronglySorted (fun a b => ID a < ID b) (Nodes s) /\ Forall canonicalNode (Nodes s).

(** * Maps from lists and back *)

#[export] Instance nodeLe_total : Total nodeLe.
Proof. intros a b. unfold nodeLe. lia. Qed.
#[export] Instance nodeLe_trans : Transitive nodeLe.
Proof. intros a b c. unfold nodeLe. lia. Qed.
#[export] Instance direntLe_total : Total direntLe.
Proof. intros a b. apply stringLe_total. Qed.
#[export] Instance direntLe_trans : Transitive direntLe.
Proof. intros a b c. apply stringLe_trans. Qed.

Section Keyed.
Context {K V A : Type} `{Countable K} (f : A -> K) (g : A -> V).

Definition keyMap (l : list A) : gmap K V := foldl (fun m x => <[f x := g x]> m) ∅ l.

Lemma keyMap_list_to_map l : keyMap l = list_to_map ((fun x => (f x, g x)) <$> reverse l).
Proof.
  unfold keyMap. induction l as [|x l IH] using rev_ind; [done|].
  rewrite foldl_app, reverse_snoc. cbn. by rewrite IH.
Qed.

Lemma keyMap_perm (m : gmap K V) l :
  map_to_list m ≡ₚ (fun x => (f x, g x)) <$> l -> keyMap l = m.
Proof. intros P. rewrite keyMap_list_to_map. symmetry. apply list_to_map_flip. by rewrite reverse_Permutation. Qed.
End Keyed.

Lemma entryMap_entryList m : entryMap (entryList m) = m.
Proof.
  apply (keyMap_perm deName deInode). unfold entryList. rewrite merge_sort_Permutation, <- list_fmap_compose.
  rewrite <- (list_fmap_id (map_to_list m)) at 1. erewrite list_fmap_ext; [done|]. by intros ? [].
Qed.

Lemma entryList_sorted m : StronglySorted (fun a b => stringLess (deName a) (deName b) = true) (entryList m).
Proof.
  apply (sorted_strict deName direntLe).
  - intros a b. apply stringLe_strict.
  - unfold entryList. rewrite merge_sort_Permutation, <- list_fmap_compose. apply NoDup_fst_map_to_list.
  - apply StronglySorted_merge_sort; apply _.
Qed.

Lemma whiteoutSet_whiteoutList s : whiteoutSet (whiteoutList s) = s.
Proof.
  unfold whiteoutSet, whiteoutList. apply set_eq. intros x.
  by rewrite elem_of_list_to_set, merge_sort_Permutation, elem_of_elements.
Qed.

Lemma whiteoutList_sorted s : StronglySorted (fun a b => stringLess a b = true) (whiteoutList s).
Proof.
  apply (sorted_strict id stringLe).
  - intros a b. apply stringLe_strict.
  - rewrite list_fmap_id. unfold whiteoutList. rewrite merge_sort_Permutation. apply NoDup_elements.
  - apply StronglySorted_merge_sort; apply _.
Qed.

Definition keyed (m : gmap Z persistentImageNode) : Prop := map_Forall (fun k n => ID n = k) m.

Lemma keyed_values m : keyed m -> (fun n => (ID n, n)) <$> (map_to_list m).*2 = map_to_list m.
Proof.
  intros Hm. rewrite <- list_fmap_compose. rewrite <- (list_fmap_id (map_to_list m)) at 2.
  apply list_fmap_ext. intros i [k n] E. apply list_elem_of_lookup_2, elem_of_map_to_list in E.
  cbn. by rewrite (Hm k n E).
Qed.

Lemma nodeMap_nodeList m : keyed m -> nodeMap (nodeList m) = m.
Proof.
  intros Hm. apply (keyMap_perm ID (fun n => n)). unfold nodeList. by rewrite merge_sort_Permutation, keyed_values.
Qed.

Lemma nodeList_sorted m : keyed m -> StronglySorted (fun a b => ID a < ID b) (nodeList m).
Proof.
  intros Hm. apply (sorted_strict ID nodeLe).
  - unfold nodeLe. lia.
  - unfold nodeList. rewrite merge_sort_Permutation.
    replace (ID <$> (map_to_list m).*2) with (map_to_list m).*1; [apply NoDup_fst_map_to_list|].
    rewrite <- (keyed_values m Hm) at 1. by rewrite <- list_fmap_compose.
  - apply StronglySorted_merge_sort; apply _.
Qed.

Lemma elem_of_nodeList m n : n ∈ nodeList m <-> exists k, m !! k = Some n.
Proof.
  unfold nodeList. rewrite merge_sort_Permutation, list_elem_of_fmap. split.
  - intros ([k n'] & -> & E). exists k. by apply elem_of_map_to_list.
  - intros (k & E). exists (k, n). by rewrite elem_of_map_to_list.
Qed.

Lemma nodeMap_keyed l : keyed (nodeMap l).
Proof.
  unfold nodeMap. induction l as [|x l IH] using rev_ind; [apply map_Forall_empty|].
  rewrite foldl_app. cbn. by apply map_Forall_insert_2.
Qed.

(** * Directory edits *)

Section Edits.
Context {A : Type} (key : A -> Z) (edit : A -> persistentImageNode -> persistentImageNode) (err : Z -> stateError).
Context (edit_ID : forall a n, ID (edit a n) = ID n).

Definition applyEdit (m : gmap Z persistentImageNode) (a : A) : result stateError (gmap Z persistentImageNode) :=
  match m !! key a with
  | None => Err (err (key a))
  | Some n => Ok (<[ID (edit a n) := edit a n]> m)
  end.

Definition editAll (ops : list A) (id : Z) (n : persistentImageNode) : persistentImageNode :=
  foldl (fun n op => if key op =? id then edit op n else n) n ops.

Lemma editAll_ID ops id n : ID (editAll ops id n) = ID n.
Proof.
  unfold editAll. revert n. induction ops as [|op ops IH]; intros n; [done|]. cbn.
  destruct (key op =? id); rewrite IH; [apply edit_ID|done].
Qed.

Lemma editAll_keyed ops m : keyed m -> keyed (map_imap (fun id n => Some (editAll ops id n)) m).
Proof.
  intros Hm k n E. rewrite map_lookup_imap in E. destruct (m !! k) as [n'|] eqn:En; [|done].
  injection E as <-. rewrite editAll_ID. by apply Hm.
Qed.

Lemma eachOp_ok ops : forall m, keyed m -> Forall (fun op => is_Some (m !! key op)) ops ->
  eachOp applyEdit m ops = Ok (map_imap (fun id n => Some (editAll ops id n)) m).
Proof.
  induction ops as [|a ops IH]; intros m Hm F.
  { cbn. f_equal. apply map_eq. intros k. rewrite map_lookup_imap. by destruct (m !! k). }
  apply Forall_cons in F as [[n En] F]. cbn [eachOp].
  replace (applyEdit m a) with (@Ok stateError _ (<[ID (edit a n) := edit a n]> m)) by (unfold applyEdit; by rewrite En). cbn.
  rewrite edit_ID, (Hm _ _ En). rewrite IH.
  - f_equal. apply map_eq. intros k. rewrite !map_lookup_imap. destruct (decide (k = key a)) as [->|Hk].
    + rewrite lookup_insert_eq, En. cbn. by rewrite Z.eqb_refl.
    + rewrite lookup_insert_ne by done. destruct (m !! k); [|done]. cbn.
      by rewrite (proj2 (Z.eqb_neq _ _)) by congruence.
  - apply map_Forall_insert_2; [|done]. rewrite edit_ID. by apply Hm.
  - eapply Forall_impl; [exact F|]. intros op Hop. rewrite lookup_insert_is_Some'. by right.
Qed.

Lemma eachOp_err ops : forall m, keyed m -> ~ Forall (fun op => is_Some (m !! key op)) ops ->
  exists id, id ∈ key <$> ops /\ eachOp applyEdit m ops = Err (err id).
Proof.
  induction ops as [|a ops IH]; intros m Hm F; [by destruct F|].
  cbn [eachOp]. destruct (applyEdit m a) as [m'|e|] eqn:Ea; unfold applyEdit in Ea;
    destruct (m !! key a) as [n|] eqn:En; simplify_eq.
  - cbn. rewrite edit_ID, (Hm _ _ En). destruct (IH (<[key a := edit a n]> m)) as (id & Hid & E).
    + apply map_Forall_insert_2; [|done]. rewrite edit_ID. by apply Hm.
    + contradict F. constructor; [by eexists|]. eapply Forall_impl; [exact F|]. intros op.
      rewrite lookup_insert_is_Some. intros [<-|[_ ?]]; [by eexists|done].
    + exists id. split; [set_solver|done].
  - exists (key a). split; [set_solver|done].
Qed.
End Edits.

Definition editDirent (op : persistentImageDirentOp) (n : persistentImageNode) : persistentImageNode :=
  n <| Entries := entryList (editEntries op (entryMap (Entries n))) |>.

Definition editWhiteout (op : persistentImageWhiteoutOp) (n : persistentImageNode) : persistentImageNode :=
  n <| Whiteouts := whiteoutList (editWhiteouts op (whiteoutSet (Whiteouts n))) |>.

Lemma view_editDirents ops id n :
  viewNode (editAll doParent editDirent ops id n) =
  mkView (meta (viewNode n)) (namesAfter ops id (entryMap (Entries n))) (whiteoutSet (Whiteouts n)).
Proof.
  unfold editAll, namesAfter. revert n. induction ops as [|op ops IH]; intros n; [done|]. cbn [foldl].
  destruct (doParent op =? id); [|apply IH]. rewrite IH. cbn. by rewrite entryMap_entryList.
Qed.

Lemma view_editWhiteouts ops id n :
  viewNode (editAll woParent editWhiteout ops id n) =
  mkView (meta (viewNode n)) (entryMap (Entries n)) (hiddenAfter ops id (whiteoutSet (Whiteouts n))).
Proof.
  unfold editAll, hiddenAfter. revert n. induction ops as [|op ops IH]; intros n; [done|]. cbn [foldl].
  destruct (woParent op =? id); [|apply IH]. rewrite IH. cbn. by rewrite whiteoutSet_whiteoutList.
Qed.

Lemma view_updates l : forall m, viewNode <$> foldl applyNode m l = foldl specUpdate (viewNode <$> m) l.
Proof.
  induction l as [|u l IH]; intros m; [done|]. cbn [foldl]. rewrite IH. f_equal.
  unfold applyNode, specUpdate. rewrite fmap_insert, lookup_fmap. f_equal.
  destruct (m !! ID u) as [o|]; [|done]. cbn. by destruct (PreserveNamespace u).
Qed.

Lemma foldl_delete {V} (ids : list Z) : forall m : gmap Z V,
  foldl (fun m id => delete id m) m ids = filter (fun kv => kv.1 ∉ ids) m.
Proof.
  induction ids as [|i ids IH]; intros m; cbn [foldl].
  - symmetry. apply map_filter_id. set_solver.
  - rewrite IH. apply map_eq. intros k. apply option_eq. intros v.
    rewrite !map_lookup_filter_Some, lookup_delete_Some, not_elem_of_cons. cbn. naive_solver.
Qed.

(** The nodes before the directory edits, as the code computes them. *)
Definition baseNodes (s : persistentImageState) (d : persistentImageDelta) : gmap Z persistentImageNode :=
  filter (fun kv => kv.1 ∉ Deleted d) (foldl applyNode (nodeMap (Nodes s)) (dNodes d)).

Lemma baseNodes_keyed s d : keyed (baseNodes s d).
Proof.
  intros k n E. unfold baseNodes in E. apply map_lookup_filter_Some in E as [E _]. revert k n E.
  change (keyed (foldl applyNode (nodeMap (Nodes s)) (dNodes d))).
  generalize (nodeMap_keyed (Nodes s)). generalize (nodeMap (Nodes s)).
  induction (dNodes d) as [|u l IH]; intros m Hm; [done|]. apply IH. apply map_Forall_insert_2; [|done].
  unfold mergeNode. destruct (m !! ID u); [|done]. cbn. by destruct (PreserveNamespace u).
Qed.

Lemma view_baseNodes s d : viewNode <$> baseNodes s d = specNodes d (view s).
Proof.
  unfold baseNodes, specNodes, view. rewrite <- view_updates. apply map_eq. intros k. apply option_eq. intros v.
  rewrite lookup_fmap, fmap_Some, map_lookup_filter_Some, lookup_fmap, fmap_Some. setoid_rewrite map_lookup_filter_Some.
  cbn. naive_solver.
Qed.

Lemma baseNodes_present s d id : is_Some (baseNodes s d !! id) <-> is_Some (specNodes d (view s) !! id).
Proof. by rewrite <- view_baseNodes, lookup_fmap, fmap_is_Some. Qed.

(** * The delta against its specification *)

(** The nodes a delta produces when every edited directory is present. *)
Definition editedNodes (s : persistentImageState) (d : persistentImageDelta) : gmap Z persistentImageNode :=
  map_imap (fun id n => Some (editAll woParent editWhiteout (dWhiteouts d) id (editAll doParent editDirent (Dirents d) id n)))
    (baseNodes s d).

Lemma editedNodes_keyed s d : keyed (editedNodes s d).
Proof.
  intros k n E. unfold editedNodes in E. rewrite map_lookup_imap in E.
  destruct (baseNodes s d !! k) as [b|] eqn:Eb; [|done]. injection E as <-.
  rewrite !editAll_ID by done. by eapply baseNodes_keyed.
Qed.

#[export] Instance parentsPresent_dec d v : Decision (parentsPresent d v).
Proof. unfold parentsPresent. apply _. Defined.

Lemma delta_run s d :
  parentsPresent d (view s) ->
  applyPersistentImageDelta s d =
  Ok (s <| Nodes := nodeList (editedNodes s d) |> <| NextNodeID := Z.max (NextNodeID s) (dNextNodeID d) |>
        <| Sequence := dSequence d |>).
Proof.
  intros [P1 P2]. unfold applyPersistentImageDelta. rewrite foldl_delete. fold (baseNodes s d).
  change applyDirent with (applyEdit doParent editDirent DirentParentMissing).
  change applyWhiteout with (applyEdit woParent editWhiteout WhiteoutParentMissing).
  rewrite eachOp_ok; [cbn|done|apply baseNodes_keyed|by setoid_rewrite baseNodes_present].
  rewrite eachOp_ok; [cbn|done|by apply editAll_keyed, baseNodes_keyed|].
  - match goal with |- context [nodeList ?m] => replace m with (editedNodes s d); [done|] end.
    unfold editedNodes. apply map_eq. intros k. rewrite !map_lookup_imap. by destruct (baseNodes s d !! k).
  - eapply Forall_impl; [exact P2|]. intros op. cbn. rewrite <- baseNodes_present, map_lookup_imap.
    intros [n ->]. by eexists.
Qed.

Lemma delta_fails s d : ~ parentsPresent d (view s) -> exists e, applyPersistentImageDelta s d = Err e.
Proof.
  intros NP. unfold applyPersistentImageDelta. rewrite foldl_delete. fold (baseNodes s d).
  change applyDirent with (applyEdit doParent editDirent DirentParentMissing).
  change applyWhiteout with (applyEdit woParent editWhiteout WhiteoutParentMissing).
  destruct (decide (Forall (fun op => is_Some (baseNodes s d !! doParent op)) (Dirents d))) as [F|F].
  - rewrite eachOp_ok by (done || apply baseNodes_keyed). cbn.
    edestruct (eachOp_err woParent editWhiteout WhiteoutParentMissing) as (id & _ & ->); [done| | |by eexists].
    + by apply editAll_keyed, baseNodes_keyed.
    + intros F2. apply NP. split; [by setoid_rewrite <- baseNodes_present|].
      eapply Forall_impl; [exact F2|]. intros op. cbn. rewrite <- baseNodes_present, map_lookup_imap.
      by destruct (baseNodes s d !! woParent op).
  - edestruct (eachOp_err doParent editDirent DirentParentMissing) as (id & _ & ->);
      [done|apply baseNodes_keyed|exact F|by eexists].
Qed.

Lemma view_editedNodes s d : viewNode <$> editedNodes s d = specDelta d (view s).
Proof.
  unfold editedNodes, specDelta. rewrite <- view_baseNodes. apply map_eq. intros k.
  rewrite lookup_fmap, !map_lookup_imap, lookup_fmap. destruct (baseNodes s d !! k) as [n|]; [|done]. cbn [fmap option_fmap option_map mbind option_bind].
  rewrite view_editWhiteouts. pose proof (view_editDirents (Dirents d) k n) as E.
  set (x := editAll doParent _ _ _ _) in *. f_equal.
  change (mkView (meta (viewNode x)) (names (viewNode x)) (hiddenAfter (dWhiteouts d) k (hidden (viewNode x))) = mkView (meta (viewNode n)) (namesAfter (Dirents d) k (names (viewNode n))) (hiddenAfter (dWhiteouts d) k (hidden (viewNode n)))).
  by rewrite E.
Qed.

(** The directory lists stay strictly ordered. *)
Definition canonicalDelta (d : persistentImageDelta) : Prop := Forall canonicalNode (dNodes d).

Lemma editAll_canonical {A} (key : A -> Z) edit ops id n :
  (forall op n, canonicalNode n -> canonicalNode (edit op n)) -> canonicalNode n -> canonicalNode (editAll key edit ops id n).
Proof.
  intros He. unfold editAll. revert n. induction ops as [|op ops IH]; intros n Hn; [done|]. cbn.
  destruct (key op =? id); auto.
Qed.

Lemma nodeMap_canonical l : Forall canonicalNode l -> map_Forall (fun _ => canonicalNode) (nodeMap l).
Proof.
  unfold nodeMap. induction l as [|x l IH] using rev_ind; intros F; [apply map_Forall_empty|].
  rewrite foldl_app. cbn. apply Forall_app in F as [F1 F2]. apply Forall_cons in F2 as [F2 _].
  apply map_Forall_insert_2; [exact F2|exact (IH F1)].
Qed.

Lemma updates_canonical l : forall m, Forall canonicalNode l -> map_Forall (fun _ => canonicalNode) m ->
  map_Forall (fun _ => canonicalNode) (foldl applyNode m l).
Proof.
  induction l as [|u l IH]; intros m F Hm; [done|]. apply Forall_cons in F as [Hu F]. cbn [foldl]. apply IH; [done|].
  apply map_Forall_insert_2; [|done]. unfold mergeNode. destruct (m !! ID u) as [o|] eqn:Eo; [|done].
  pose proof (Hm _ _ Eo) as Ho. cbn. by destruct (PreserveNamespace u).
Qed.

Lemma editedNodes_canonical s d : canonical s -> canonicalDelta d -> map_Forall (fun _ => canonicalNode) (editedNodes s d).
Proof.
  intros [_ Hs] Hd k n E. unfold editedNodes in E. rewrite map_lookup_imap in E.
  destruct (baseNodes s d !! k) as [b|] eqn:Eb; [|done]. injection E as <-.
  apply editAll_canonical. { intros op m [? _]. split; [done|apply whiteoutList_sorted]. }
  apply editAll_canonical. { intros op m [_ ?]. split; [apply entryList_sorted|done]. }
  unfold baseNodes in Eb. apply map_lookup_filter_Some in Eb as [Eb _].
  exact (updates_canonical (dNodes d) _ Hd (nodeMap_canonical _ Hs) k b Eb).
Qed.

Lemma delta_ok s d s' : applyPersistentImageDelta s d = Ok s' ->
  parentsPresent d (view s) /\
  s' = s <| Nodes := nodeList (editedNodes s d) |> <| NextNodeID := Z.max (NextNodeID s) (dNextNodeID d) |>
        <| Sequence := dSequence d |>.
Proof.
  intros E. assert (P : parentsPresent d (view s)).
  { destruct (decide (parentsPresent d (view s))) as [P|P]; [done|]. destruct (delta_fails s d P). congruence. }
  split; [done|]. rewrite (delta_run s d P) in E. by injection E as <-.
Qed.


(** * What the pending changes commit *)

Inductive mark :=
| MarkNode (id : Z)
| MarkDeleted (id : Z)
| MarkDirent (parent : Z) (name : bytes) (inode : Z) (present : bool)
| MarkWhiteout (parent : Z) (name : bytes) (present : bool).

Definition applyMark (p : option persistentImagePending) (m : mark) : option persistentImagePending :=
  match m with
  | MarkNode id => markNode id p
  | MarkDeleted id => markDeleted id p
  | MarkDirent parent name inode present => markDirent parent name inode present p
  | MarkWhiteout parent name present => markWhiteout parent name present p
  end.

(** A pending edit of a directory that is itself pending deletion. *)
Definition blockedBy (dir : Z) (name : bytes) (p : option persistentImagePending) : Prop :=
  exists pending op, p = Some pending /\ pDirents pending !! (dir, name) = Some op /\ doParent op = dir /\
    dir ∈ pDeleted pending.

Lemma blockedBy_mark dir name p m : blockedBy dir name p -> blockedBy dir name (applyMark p m).
Proof.
  intros (pending & op & -> & Ho & Hp & Hd). destruct m as [id|id|parent nm inode present|parent nm present]; cbn.
  - unfold markNode. destruct (id =? 0); [by exists pending, op|]. cbn.
    destruct (bool_decide _); eexists _, op; exact (conj eq_refl (conj Ho (conj Hp Hd))).
  - unfold markDeleted. destruct (id =? 0); [by exists pending, op|]. eexists _, op.
    refine (conj eq_refl (conj Ho (conj Hp _))). cbn. set_solver.
  - destruct (decide ((parent, nm) = (dir, name))) as [E|E].
    + injection E as -> ->. eexists _, (mkDirentOp dir name inode present).
      refine (conj eq_refl (conj _ (conj eq_refl Hd))). cbn. by rewrite lookup_insert_eq.
    + eexists _, op. refine (conj eq_refl (conj _ (conj Hp Hd))). cbn. by rewrite lookup_insert_ne.
  - eexists _, op. exact (conj eq_refl (conj Ho (conj Hp Hd))).
Qed.

Lemma blockedBy_marks dir name marks : forall p, blockedBy dir name p -> blockedBy dir name (foldl applyMark p marks).
Proof. induction marks as [|m marks IH]; intros p H; [done|]. by apply IH, blockedBy_mark. Qed.

Lemma blocked_delta next live dir name p : blockedBy dir name p ->
  exists delta op, persistentDeltaLocked next live p = Some delta /\ op ∈ Dirents delta /\ doParent op = dir /\
    dir ∈ Deleted delta.
Proof.
  intros (pending & op & -> & Ho & Hp & Hd). cbn. destruct (pendingEmpty pending) eqn:Ee.
  { unfold pendingEmpty in Ee. rewrite !andb_true_iff, !bool_decide_eq_true in Ee. set_solver. }
  eexists _, op. split_and!; [done| |done|]; cbn; rewrite merge_sort_Permutation.
  - apply list_elem_of_fmap. exists ((dir, name), op). by rewrite elem_of_map_to_list.
  - by apply elem_of_elements.
Qed.

Lemma deleted_parent_absent d v id : id ∈ Deleted d -> specNodes d v !! id = None.
Proof. intros H. apply map_lookup_filter_None. right. intros n _ F. by apply F. Qed.

(** Removing a directory after a change inside it blocks every later sync.  Deletions are
    applied before directory edits and [markDeleted] keeps the pending edits of what it deletes:
    once an entry of a directory was changed and the directory removed, no matter what is
    changed afterwards, the delta of all pending changes cannot be applied to any durable state. *)
Theorem removed_directory_blocks_sync (dir : Z) (name : bytes) (inode : Z) p marks next live s q :
  dir <> 0 ->
  exists delta e,
    persistentDeltaLocked next live
      (foldl applyMark (markDeleted dir (markDirent dir name inode false p)) marks) = Some delta /\
    applyPersistentImageDelta s (delta <| dSequence := q |> <| Committed := true |>) = Err e.
Proof.
  intros Hd. destruct (blocked_delta next live dir name
    (foldl applyMark (markDeleted dir (markDirent dir name inode false p)) marks)) as (delta & op & E & Ho & Hp & Hdel).
  { apply blockedBy_marks. unfold markDeleted. rewrite (proj2 (Z.eqb_neq _ _) Hd).
    eexists _, (mkDirentOp dir name inode false). refine (conj eq_refl (conj _ (conj eq_refl _))); cbn.
    - by rewrite lookup_insert_eq.
    - set_solver. }
  destruct (delta_fails s (delta <| dSequence := q |> <| Committed := true |>)) as (e & Ee); [|by exists delta, e].
  intros [F _]. rewrite Forall_forall in F. specialize (F op Ho).
  rewrite Hp, deleted_parent_absent in F by done. by destruct F.
Qed.

(** Directory 7 was created, its file removed, then the directory: as [rm -r] does. *)
Lemma removed_directory_blocks_sync_witness :
  exists delta e,
    persistentDeltaLocked 10 (fun _ => None)
      (foldl applyMark (markDeleted 7 (markDirent 7 [102] 8 false None)) [MarkDirent 1 [100] 7 false]) = Some delta /\
    applyPersistentImageDelta (mkState 1 4 [] 9 [] [] (mkRecovery [] [] 0) [])
      (delta <| dSequence := 5 |> <| Committed := true |>) = Err e.
Proof. apply (removed_directory_blocks_sync 7 [102] 8 None [MarkDirent 1 [100] 7 false] 10). lia. Defined.

Lemma sorted_distinct (l : list persistentImageNode) : StronglySorted (fun a b => ID a < ID b) l -> NoDup (ID <$> l).
Proof.
  induction 1 as [|x l S IH F]; cbn; constructor; [|done].
  intros Hin. apply list_elem_of_fmap in Hin as (y & E & Hy). rewrite Forall_forall in F. specialize (F y Hy). lia.
Qed.

Lemma nodeMap_lookup l id n : NoDup (ID <$> l) -> nodeMap l !! id = Some n <-> n ∈ l /\ ID n = id.
Proof.
  intros N. change (nodeMap l) with (keyMap ID (fun n => n) l). rewrite keyMap_list_to_map.
  rewrite <- elem_of_list_to_map.
  - rewrite list_elem_of_fmap. setoid_rewrite elem_of_reverse. naive_solver.
  - rewrite <- list_fmap_compose, reverse_Permutation. exact N.
Qed.

Lemma durableNode_view s id : canonical s -> (fun n => viewNode n) <$> durableNode (Some s) id = view s !! id.
Proof.
  intros [S _]. unfold view, durableNode. rewrite lookup_fmap. cbn.
  destruct (list_find _ _) as [[i n]|] eqn:E; cbn.
  - apply list_find_Some in E as (Ei & Hid & _). symmetry. apply fmap_Some. exists n. split; [|done].
    apply nodeMap_lookup; [by apply sorted_distinct|]. split; [by eapply list_elem_of_lookup_2|done].
  - apply list_find_None in E. rewrite Forall_forall in E. symmetry. apply fmap_None, eq_None_not_Some.
    intros [n En]. apply nodeMap_lookup in En as [? ?]; [by eapply E|by apply sorted_distinct].
Qed.

(** The fields of a file's contents. *)
Definition dataOf (n : persistentImageNode) :=
  (Size n, Data n, CopiedUp n, Independent n, LowerSize n, LowerPath n).

Lemma specUpdate_data (D : persistentImageNode -> Prop) id l : forall v,
  (forall u, u ∈ l -> ID u = id -> forall o, D (meta (viewNode (mergeNode o u)))) ->
  (forall n, v !! id = Some n -> D (meta n)) ->
  forall n, foldl specUpdate v l !! id = Some n -> D (meta n).
Proof.
  induction l as [|u l IH]; intros v Hl Hv n E; [by apply Hv|]. cbn [foldl] in E.
  eapply IH; [| |exact E]; [set_solver|]. intros m Em. unfold specUpdate in Em.
  destruct (decide (ID u = id)) as [Hu|Hu].
  - rewrite Hu, lookup_insert_eq in Em. injection Em as <-.
    destruct (v !! id) as [o|]; cbn [meta]; apply (Hl u); set_solver.
  - rewrite lookup_insert_ne in Em by done. by apply Hv.
Qed.

Lemma mergeNode_data o u : dataOf (meta (viewNode (mergeNode o u))) = dataOf u.
Proof. unfold mergeNode. destruct o; [destruct (PreserveNamespace u)|]; reflexivity. Qed.

Lemma pending_nodes next live p delta : persistentDeltaLocked next live p = Some delta ->
  forall u, u ∈ dNodes delta -> exists id m, live id = Some m /\ u = m <| Entries := [] |> <| Whiteouts := [] |>.
Proof.
  destruct p as [pending|]; [|done]. cbn. destruct (pendingEmpty pending); [done|]. intros [= <-] u. cbn.
  rewrite list_elem_of_omap. intros (id & _ & E). destruct (live id) as [m|] eqn:El; [|done].
  injection E as <-. by exists id, m.
Qed.

(** What a directory sync may record for a file whose contents are not synced. *)
Definition unsyncedData (durable : option persistentImageNode) (m : persistentImageNode) :=
  match durable with
  | Some n => dataOf n
  | None =>
      if negb (len (LowerPath m) =? 0) then (LowerSize m, [], false, false, LowerSize m, LowerPath m)
      else (0, [], CopiedUp m, true, 0, LowerPath m)
  end.

Lemma withoutDirtyData_ID dirty state n : ID (withoutDirtyData dirty state n) = ID n.
Proof.
  unfold withoutDirtyData. destruct (_ || _); [done|]. destruct (durableNode _ _); [done|].
  by destruct (negb (len (LowerPath n) =? 0)).
Qed.

Lemma withoutDirtyData_data dirty state n : ID n ∈ dirty -> Kind n = fileKind ->
  dataOf (withoutDirtyData dirty state n) = unsyncedData (durableNode state (ID n)) n.
Proof.
  intros H1 H2. unfold withoutDirtyData, unsyncedData. rewrite !bool_decide_eq_true_2 by done. cbn [negb orb].
  destruct (durableNode state (ID n)); [done|]. by destruct (negb (len (LowerPath n) =? 0)).
Qed.

(** Syncing a directory does not make unsynced file contents durable.  After the namespace
    delta is applied, a file with unsynced data that was durable keeps the size, extents and
    lower file it durably had; a new one is empty, or still its lower file. *)
Theorem fsyncdir_keeps_data next live dirty s p delta q s' id m v' :
  canonical s ->
  (forall k n, live k = Some n -> ID n = k) ->
  persistentNamespaceDeltaLocked next live dirty (Some s) p = Some delta ->
  applyPersistentImageDelta s (delta <| dSequence := q |> <| Committed := true |>) = Ok s' ->
  id ∈ dirty -> live id = Some m -> Kind m = fileKind ->
  view s' !! id = Some v' ->
  dataOf (meta v') = unsyncedData (durableNode (Some s) id) m.
Proof.
  intros Hs Hlive Hdelta Happly Hdirty Hm Hk Hv.
  apply delta_ok in Happly as [_ ->]. unfold view in Hv. cbn in Hv.
  rewrite nodeMap_nodeList, view_editedNodes in Hv by apply editedNodes_keyed.
  unfold specDelta in Hv. rewrite map_lookup_imap in Hv. apply bind_Some in Hv as (n & En & [= <-]). cbn [meta].
  unfold specNodes in En. apply map_lookup_filter_Some in En as [En _]. cbn [dNodes] in En.
  unfold persistentNamespaceDeltaLocked in Hdelta. apply fmap_Some in Hdelta as (d0 & Hd0 & ->).
  eapply (specUpdate_data (fun n => dataOf n = _) id); [| |exact En].
  - intros u Hu Hid o. cbn in Hu. apply list_elem_of_fmap in Hu as (u0 & -> & Hu0).
    destruct (pending_nodes _ _ _ _ Hd0 u0 Hu0) as (k & m0 & Hl & ->). rewrite mergeNode_data.
    rewrite withoutDirtyData_ID in Hid. cbn in Hid. rewrite (Hlive k m0 Hl) in Hid. subst k.
    assert (m0 = m) as -> by congruence. pose proof (Hlive id m Hm) as Hmid.
    rewrite withoutDirtyData_data by (cbn; by rewrite ?Hmid). cbn [ID]. by rewrite <- Hmid.
  - intros o Ho. rewrite <- durableNode_view in Ho by done. destruct (durableNode (Some s) id) as [b|]; [|done].
    injection Ho as <-. done.
Qed.

Definition emptyState (nodes : list persistentImageNode) : persistentImageState :=
  mkState 1 4 [] 9 nodes [] (mkRecovery [] [] 0) [].

(** Node [id] of kind [kind], at [name] in directory [parent]. *)
Definition plainNode (id parent : Z) (name kind : bytes) (size : Z) : persistentImageNode :=
  mkNode id parent name kind 420 33188 0 0 0 size 1 [] (47 :: name) [] [] [] [] [] false false true 0 0 0 0 false.

(** File 2 was durable with 5 bytes and now has 9 unsynced ones. *)
Lemma fsyncdir_keeps_data_witness :
  exists s' v', view s' !! 2 = Some v' /\ Size (meta v') = 5.
Proof.
  set (s := emptyState [plainNode 1 1 [] dirKind 0; plainNode 2 1 [97] fileKind 5]).
  set (live := fun k : Z => if k =? 2 then Some (plainNode 2 1 [97] fileKind 9) else None).
  set (p := markDirent 1 [98] 2 true (markNode 2 None)).
  destruct (persistentNamespaceDeltaLocked 9 live {[2]} (Some s) p) as [delta|] eqn:Ed; [|vm_compute in Ed; done].
  destruct (applyPersistentImageDelta s (delta <| dSequence := 5 |> <| Committed := true |>)) as [s'|e|] eqn:Ea;
    vm_compute in Ed; injection Ed as <-; [|vm_compute in Ea; done|vm_compute in Ea; done].
  destruct (view s' !! 2) as [v'|] eqn:Ev.
  - exists s', v'. split; [done|].
    assert (C : canonical s) by (split; repeat constructor).
    assert (L : forall k n, live k = Some n -> ID n = k).
    { intros k n. subst live. cbn. destruct (Z.eqb_spec k 2); [by intros [= <-]|done]. }
    pose proof (fsyncdir_keeps_data 9 live {[2]} s p _ 5 s' 2 (plainNode 2 1 [97] fileKind 9) v' C L
      (ltac:(vm_compute; reflexivity)) Ea (ltac:(set_solver)) eq_refl eq_refl Ev) as H.
    vm_compute in H. by injection H.
  - exfalso. vm_compute in Ea. injection Ea as <-. by vm_compute in Ev.
Defined.

(** Syncing a file changes nothing of the namespace.  For a durable file the delta of its
    fsync always applies, and the durable state changes at that node only: its data and
    attributes are the live ones, while its parent, name, path, link count and directory lists
    are the durable ones, so an unsynced rename or link stays unsynced. *)
Theorem fsync_keeps_namespace next imageNode s p delta q id n m :
  canonical s -> imageNode id = Some m -> ID m = id ->
  durableNode (Some s) id = Some n ->
  persistentFileDeltaLocked next imageNode (Some s) p id = Some delta ->
  exists s', applyPersistentImageDelta s (delta <| dSequence := q |> <| Committed := true |>) = Ok s' /\
    view s' = <[id := viewNode (m <| Parent := Parent n |> <| Name := Name n |> <| GuestPath := GuestPath n |>
                                  <| NLink := NLink n |> <| Entries := Entries n |> <| Whiteouts := Whiteouts n |>
                                  <| PreserveNamespace := false |>)]> (view s).
Proof.
  intros Hs Hm Hid Hn Hd. unfold persistentFileDeltaLocked in Hd. rewrite Hm, Hn in Hd.
  destruct (bool_decide (Kind m = dirKind)); [done|]. injection Hd as <-.
  pose proof (durableNode_view s id Hs) as Hv. rewrite Hn in Hv. cbn in Hv.
  match goal with |- context [applyPersistentImageDelta s ?d] => rewrite (delta_run s d) by (split; constructor) end.
  eexists. split; [reflexivity|]. unfold view at 1. cbn.
  rewrite nodeMap_nodeList, view_editedNodes by apply editedNodes_keyed.
  unfold specDelta, specNodes. cbn [dNodes Deleted Dirents dWhiteouts set_field]. cbn [foldl]. unfold specUpdate. cbn [ID set_field].
  rewrite Hid, <- Hv. apply map_eq. intros k.
  rewrite map_lookup_imap, map_filter_id by set_solver.
  destruct (decide (k = id)) as [->|Hk]; [by rewrite !lookup_insert_eq|].
  rewrite !lookup_insert_ne by done. by destruct (view s !! k) as [[]|].
Qed.

(** The durable file 2 was renamed, then synced. *)
Lemma fsync_keeps_namespace_witness :
  exists s' v, view s' !! 2 = Some v /\ Name (meta v) = [97] /\ Size (meta v) = 9.
Proof.
  set (s := emptyState [plainNode 1 1 [] dirKind 0; plainNode 2 1 [97] fileKind 5]).
  assert (C : canonical s) by (split; repeat constructor).
  destruct (fsync_keeps_namespace 9 (fun _ => Some (plainNode 2 1 [98] fileKind 9)) s None _ 5 2
    (plainNode 2 1 [97] fileKind 5) (plainNode 2 1 [98] fileKind 9) C eq_refl eq_refl eq_refl eq_refl) as (s' & _ & E).
  exists s'. eexists. rewrite E, lookup_insert_eq. split; [reflexivity|done].
Defined.
