(* ===== verification/Wal.v ===== *)
(** The metadata log of a persistent file system:
    [src/internal/core/virtio/fs_persistent_wal.go] ([appendDelta], [replayWAL],
    [quarantineWALTail]) with the record format it shares with the metadata snapshots.

    A record is a 40-byte header (magic, version, sequence, payload length, CRC-32) and a
    JSON payload.  Replay scans records from the start, stops at the first one that does not
    check, applies the committed ones the snapshot does not include, and cuts the rest off.
    [replay_written]: a log of complete records with any torn tail replays to exactly the state
    the records describe.

    [encoding/json] appears through the class [Json]: what is relied on is that a value that
    was written reads back. *)

From stdpp Require Import gmap.
From S2P Require Import Prelude PersistentState.

Class Json (A : Type) := {
  Marshal : A -> bytes;
  Unmarshal : bytes -> option A;
  encodable : A -> Prop;
  marshal_bytes a : is_bytes (Marshal a);
  unmarshal_marshal a : encodable a -> Unmarshal (Marshal a) = Some a;
}.

(** * CRC-32, as [hash/crc32] computes it with the IEEE polynomial *)

Fixpoint crcBits (n : nat) (c : Z) : Z :=
  match n with
  | O => c
  | S n => crcBits n (if Z.odd c then Z.lxor (Z.shiftr c 1) 0xEDB88320 else Z.shiftr c 1)
  end.

Definition crcByte (c b : Z) : Z := crcBits 8 (Z.lxor c b).

Definition ChecksumIEEE (p : bytes) : Z := Z.lxor (foldl crcByte 0xFFFFFFFF p) 0xFFFFFFFF.

(** * Records *)

Abbreviation persistentImageFormatVersion := 1%Z.
Abbreviation persistentImageHeaderSize := 40%Z.
Abbreviation persistentImageMaxMetadata := (2 ^ 30)%Z.
Abbreviation persistentImageWALMagic := ([67; 67; 72; 87; 65; 76; 48; 49] : bytes).

Definition recordHeader (magic : bytes) (sequence : Z) (payload : bytes) : bytes :=
  magic ++ le 4 persistentImageFormatVersion ++ zeros 4 ++ le 8 sequence ++ le 8 (len payload) ++
  le 4 (ChecksumIEEE payload) ++ zeros 4.

Inductive walReason :=
| TruncatedHeader
| InvalidMagic
| InvalidLength
| TruncatedPayload
| BadChecksum
| InvalidPayload
| InvalidRecord
| Uncommitted
| SequenceGap
| InvalidDelta.

Lemma lxor_width w a b : 0 <= w -> in_width w a -> in_width w b -> in_width w (Z.lxor a b).
Proof.
  intros Hw A B. rewrite <- (wrap_small w a A), <- (wrap_small w b B).
  replace (Z.lxor (wrap w a) (wrap w b)) with (wrap w (Z.lxor a b)) by
    (unfold wrap; apply Z.bits_inj'; intros n Hn; rewrite Z.lxor_spec; destruct (Z.lt_ge_cases n w);
     rewrite ?Z.mod_pow2_bits_low, ?Z.mod_pow2_bits_high by lia; rewrite ?Z.lxor_spec; done).
  by apply wrap_range.
Qed.

Lemma crcBits_width n c : in_width 32 c -> in_width 32 (crcBits n c).
Proof.
  revert c. induction n as [|n IH]; intros c Hc; [done|]. apply IH.
  assert (in_width 32 (Z.shiftr c 1)) by (rewrite Z.shiftr_div_pow2 by lia; width; dlia).
  destruct (Z.odd c); [|done]. apply lxor_width; [lia|done|width].
Qed.

Lemma ChecksumIEEE_width p : is_bytes p -> in_width 32 (ChecksumIEEE p).
Proof.
  intros Hp. apply lxor_width; [lia| |width].
  assert (H : in_width 32 0xFFFFFFFF) by width. revert H. generalize 0xFFFFFFFF.
  induction Hp as [|b p Hb Hp IH]; intros c Hc; [done|]. cbn [foldl]. apply IH.
  apply crcBits_width, lxor_width; [lia|done|]. unfold is_u8 in Hb. width.
Qed.

Section Log.
Context `{Json persistentImageDelta}.

Definition walRecord (delta : persistentImageDelta) : bytes :=
  recordHeader persistentImageWALMagic (dSequence delta) (Marshal delta) ++ Marshal delta.

(** The checks of one record at [offset]: the delta and where the record ends. *)
Definition readRecord (file : bytes) (offset : Z) : walReason + (persistentImageDelta * Z) :=
  if len file - offset <? persistentImageHeaderSize then inl TruncatedHeader
  else
    let header := slice file offset (offset + persistentImageHeaderSize) in
    if negb (bool_decide (slice header 0 8 = persistentImageWALMagic)) then inl InvalidMagic
    else
      let length := unle (slice header 24 32) in
      if length >? persistentImageMaxMetadata then inl InvalidLength
      else
        let recordEnd := offset + persistentImageHeaderSize + length in
        if (recordEnd <? offset) || (recordEnd >? len file) then inl TruncatedPayload
        else
          let payload := slice file (offset + persistentImageHeaderSize) recordEnd in
          if negb (ChecksumIEEE payload =? unle (slice header 32 36)) then inl BadChecksum
          else
            match Unmarshal payload with
            | None => inl InvalidPayload
            | Some delta =>
                if negb (dVersion delta =? persistentImageFormatVersion) ||
                   negb (dSequence delta =? unle (slice header 16 24))
                then inl InvalidRecord
                else inr (delta, recordEnd)
            end.

(** The scan: the records with their offsets, and where and why the rest is discarded. *)
Fixpoint scan (fuel : nat) (file : bytes) (offset : Z) (records : list (Z * persistentImageDelta))
  : list (Z * persistentImageDelta) * Z * option walReason :=
  match fuel with
  | O => (records, len file, None)
  | S fuel =>
      if offset <? len file then
        match readRecord file offset with
        | inl reason => (records, offset, Some reason)
        | inr (delta, recordEnd) => scan fuel file recordEnd (records ++ [(offset, delta)])
        end
      else (records, len file, None)
  end.

Definition scanWAL (file : bytes) : list (Z * persistentImageDelta) * Z * option walReason :=
  scan (S (length file)) file 0 [].

(** [firstPostSnapshot] and [lastCommitted], as the loop over the records leaves them. *)
Fixpoint selectRecords (sequence : Z) (index : Z) (records : list (Z * persistentImageDelta)) (fl : Z * Z) : Z * Z :=
  match records with
  | [] => fl
  | (_, delta) :: records =>
      let fl :=
        if dSequence delta <=? sequence then fl
        else
          (if fl.1 =? -1 then index else fl.1, if Committed delta then index else fl.2) in
      selectRecords sequence (index + 1) records fl
  end.

(** Lower the discard offset to [offset], if that is lower. *)
Definition discardFrom (offset : Z) (reason : walReason) (discard : Z * option walReason) : Z * option walReason :=
  if offset <? discard.1 then (offset, Some reason) else discard.

Fixpoint replayRecords (records : list (Z * persistentImageDelta)) (candidate state : persistentImageState)
    (groupOffset : Z) (discard : Z * option walReason) : persistentImageState * (Z * option walReason) :=
  match records with
  | [] => (state, discard)
  | (_, delta) :: rest =>
      if negb (dSequence delta =? wrap 64 (Sequence candidate + 1))
      then (state, discardFrom groupOffset SequenceGap discard)
      else
        match applyPersistentImageDelta candidate delta with
        | Ok candidate =>
            if Committed delta
            then replayRecords rest candidate candidate
                   (match rest with (offset, _) :: _ => offset | [] => groupOffset end) discard
            else replayRecords rest candidate state groupOffset discard
        | _ => (state, discardFrom groupOffset InvalidDelta discard)
        end
  end.

Definition offsetAt (records : list (Z * persistentImageDelta)) (index : Z) : Z :=
  default 0 (fst <$> records !! Z.to_nat index).

(** Records after the last committed one are not replayed. *)
Definition discardUncommitted (records : list (Z * persistentImageDelta)) (first last : Z)
    (discard : Z * option walReason) : Z * option walReason :=
  if negb (first =? -1) && (last <? first) then discardFrom (offsetAt records first) Uncommitted discard
  else if (first <=? last) && (last + 1 <? len records)
  then discardFrom (offsetAt records (last + 1)) Uncommitted discard
  else discard.

(** What is kept of the log, and why and how much of it was cut off. *)
Definition quarantineWALTail (file : bytes) (discard : Z * option walReason) : bytes * option (walReason * Z) :=
  if discard.1 <? len file
  then (slice file 0 discard.1, Some (default Uncommitted discard.2, len file - discard.1))
  else (file, None).

(** The recovered state, the log that is kept, and what was cut off. *)
Definition replayWAL (state : persistentImageState) (file : option bytes)
  : persistentImageState * option bytes * option (walReason * Z) :=
  match file with
  | None => (state, None, None)
  | Some file =>
      let '(records, discardOffset, discardReason) := scanWAL file in
      let '(first, last) := selectRecords (Sequence state) 0 records (-1, -1) in
      let discard := discardUncommitted records first last (discardOffset, discardReason) in
      let '(state, discard) :=
        if negb (first =? -1) && (first <=? last)
        then replayRecords (slice records first (last + 1)) state state (offsetAt records first) discard
        else (state, discard) in
      let '(kept, report) := quarantineWALTail file discard in
      (state, Some kept, report)
  end.

(** * Reading back what was written *)

(** A record as [appendDelta] writes it. *)
Definition validRecord (delta : persistentImageDelta) : Prop :=
  encodable delta /\ dVersion delta = persistentImageFormatVersion /\ in_width 64 (dSequence delta) /\
  len (Marshal delta) <= persistentImageMaxMetadata.

Definition encodeAll (ds : list persistentImageDelta) : bytes := concat (walRecord <$> ds).

(** Bytes after the last complete record that are no record, whatever comes before them. *)
Definition torn (t : bytes) : Prop :=
  t = [] \/ forall pre, exists reason, readRecord (pre ++ t) (len pre) = inl reason.

Lemma len_recordHeader magic q p : len magic = 8 -> len (recordHeader magic q p) = 40.
Proof. intros E. unfold recordHeader. rewrite !len_app, !len_le, !len_zeros, E; lia. Qed.

Lemma header_fields magic q p : len magic = 8 ->
  slice (recordHeader magic q p) 0 8 = magic /\
  slice (recordHeader magic q p) 8 12 = le 4 persistentImageFormatVersion /\
  slice (recordHeader magic q p) 16 24 = le 8 q /\
  slice (recordHeader magic q p) 24 32 = le 8 (len p) /\
  slice (recordHeader magic q p) 32 36 = le 4 (ChecksumIEEE p).
Proof.
  intros E. assert (L : length magic = 8%nat) by (unfold len in E; lia).
  do 8 (destruct magic as [|? magic]; [done|]). destruct magic; [|done]. repeat split.
Qed.

Lemma len_walRecord d : len (walRecord d) = 40 + len (Marshal d).
Proof. unfold walRecord. by rewrite len_app, len_recordHeader. Qed.

Lemma readRecord_written pre d post : validRecord d ->
  readRecord (pre ++ walRecord d ++ post) (len pre) = inr (d, len pre + len (walRecord d)).
Proof.
  intros (He & Hv & Hq & Hl). unfold readRecord. rewrite len_walRecord, !len_app, len_walRecord.
  pose proof (len_nonneg (Marshal d)). pose proof (len_nonneg post). pose proof (len_nonneg pre).
  rewrite (proj2 (Z.ltb_ge _ _)) by lia. cbv zeta.
  destruct (header_fields persistentImageWALMagic (dSequence d) (Marshal d) eq_refl) as (F1 & _ & F3 & F4 & F5).
  assert (S1 : slice (pre ++ walRecord d ++ post) (len pre) (len pre + 40) =
               recordHeader persistentImageWALMagic (dSequence d) (Marshal d)).
  { unfold walRecord. rewrite <- !app_assoc. apply slice_mid. by rewrite len_recordHeader. }
  rewrite S1, F1, F3, F4, F5, !unle_le, bool_decide_eq_true_2 by done. cbn [negb].
  rewrite (wrap_small _ (len (Marshal d))) by (width).
  rewrite Z.gtb_ltb, (proj2 (Z.ltb_ge _ _)) by lia.
  rewrite Z.gtb_ltb, !(proj2 (Z.ltb_ge _ _)) by lia. cbn [orb].
  assert (S2 : slice (pre ++ walRecord d ++ post) (len pre + 40) (len pre + 40 + len (Marshal d)) = Marshal d).
  { unfold walRecord. rewrite <- !app_assoc, (app_assoc pre).
    replace (len pre + 40) with (len (pre ++ recordHeader persistentImageWALMagic (dSequence d) (Marshal d))) by
      by rewrite len_app, len_recordHeader.
    by apply slice_mid. }
  rewrite S2, (wrap_small _ (ChecksumIEEE _)) by apply ChecksumIEEE_width, marshal_bytes.
  rewrite Z.eqb_refl, unmarshal_marshal, Hv, (wrap_small _ (dSequence d)), !Z.eqb_refl by done.
  cbn [negb orb]. do 2 f_equal. lia.
Qed.

(** A record cut short is torn. *)
Lemma prefix_torn d k : validRecord d -> 0 <= k < len (walRecord d) -> torn (slice (walRecord d) 0 k).
Proof.
  intros (He & Hv & Hq & Hl) Hk. destruct (decide (k = 0)) as [->|Hk0]; [left; by rewrite slice_0|]. right. intros pre.
  rewrite len_walRecord in Hk. pose proof (len_nonneg pre).
  assert (Lt : len (slice (walRecord d) 0 k) = k) by (rewrite len_slice; rewrite ?len_walRecord; lia).
  unfold readRecord. rewrite len_app, Lt.
  destruct (Z.ltb_spec (len pre + k - len pre) 40) as [|Hk40]; [by eexists|]. cbv zeta.
  destruct (header_fields persistentImageWALMagic (dSequence d) (Marshal d) eq_refl) as (F1 & _ & F3 & F4 & F5).
  assert (Lh : len (recordHeader persistentImageWALMagic (dSequence d) (Marshal d)) = 40) by by apply len_recordHeader.
  assert (S1 : slice (pre ++ slice (walRecord d) 0 k) (len pre) (len pre + 40) =
               recordHeader persistentImageWALMagic (dSequence d) (Marshal d)).
  { rewrite <- (slice_cat (walRecord d) 0 40 k) by lia. rewrite slice_mid by (rewrite len_slice; rewrite ?len_walRecord; lia).
    unfold walRecord. rewrite slice_app_l, <- Lh by lia. apply slice_full. }
  rewrite S1, F1, F4, unle_le, bool_decide_eq_true_2 by done. cbn [negb].
  rewrite (wrap_small _ (len (Marshal d))) by (pose proof (len_nonneg (Marshal d)); width).
  destruct (len (Marshal d) >? persistentImageMaxMetadata); [by eexists|].
  rewrite orb_comm, Z.gtb_ltb, (proj2 (Z.ltb_lt _ _)) by lia. by eexists.
Qed.

Lemma encodeAll_cons d ds : encodeAll (d :: ds) = walRecord d ++ encodeAll ds.
Proof. done. Qed.

Lemma encodeAll_one d : encodeAll [d] = walRecord d.
Proof. unfold encodeAll. cbn. by rewrite app_nil_r. Qed.

Lemma encodeAll_app ds es : encodeAll (ds ++ es) = encodeAll ds ++ encodeAll es.
Proof. unfold encodeAll. by rewrite fmap_app, concat_app. Qed.

(** The records of a log with their offsets. *)
Fixpoint positions (offset : Z) (ds : list persistentImageDelta) : list (Z * persistentImageDelta) :=
  match ds with
  | [] => []
  | d :: ds => (offset, d) :: positions (offset + len (walRecord d)) ds
  end.

Lemma positions_app ds es : forall offset,
  positions offset (ds ++ es) = positions offset ds ++ positions (offset + len (encodeAll ds)) es.
Proof.
  induction ds as [|d ds IH]; intros offset; cbn [app positions].
  - cbn. by rewrite Z.add_0_r.
  - rewrite IH, encodeAll_cons, len_app. cbn [app]. do 3 f_equal. lia.
Qed.

Lemma len_positions ds : forall offset, len (positions offset ds) = len ds.
Proof. induction ds as [|d ds IH]; intros offset; [done|]. cbn [positions]. rewrite !len_cons. by rewrite IH. Qed.

Lemma scan_written ds t : torn t -> Forall validRecord ds -> forall fuel pre acc,
  (length (encodeAll ds ++ t) < fuel)%nat ->
  exists reason, scan fuel (pre ++ encodeAll ds ++ t) (len pre) acc =
    (acc ++ positions (len pre) ds, len pre + len (encodeAll ds), reason).
Proof.
  intros Ht F. induction F as [|d ds Hd F IH]; intros fuel pre acc Hfuel; (destruct fuel as [|fuel]; [lia|]); cbn [scan].
  - unfold encodeAll. cbn. rewrite app_nil_r, Z.add_0_r, len_app. destruct Ht as [->|Ht].
    + rewrite len_nil, Z.add_0_r, Z.ltb_irrefl. by eexists.
    + destruct (Ht pre) as (reason & ->). destruct (Z.ltb_spec (len pre) (len pre + len t)) as [|Hl]; [by eexists|].
      assert (len t = 0) by (pose proof (len_nonneg t); lia). exists None. do 2 f_equal. lia.
  - rewrite encodeAll_cons, <- app_assoc in Hfuel |- *. rewrite readRecord_written by done.
    pose proof (len_walRecord d). pose proof (len_nonneg (Marshal d)). pose proof (len_nonneg (encodeAll ds ++ t)).
    rewrite (proj2 (Z.ltb_lt _ _)) by (rewrite !len_app in *; lia).
    destruct (IH fuel (pre ++ walRecord d) (acc ++ [(len pre, d)])) as (reason & E).
    { rewrite length_app in Hfuel. unfold len in *. lia. }
    rewrite <- app_assoc, !len_app in E. exists reason. rewrite E, len_app, <- app_assoc. cbn [positions app].
    do 2 f_equal. lia.
Qed.

Lemma scanWAL_written ds t : torn t -> Forall validRecord ds ->
  exists reason, scanWAL (encodeAll ds ++ t) = (positions 0 ds, len (encodeAll ds), reason).
Proof. intros Ht F. apply (scan_written ds t Ht F _ [] []). lia. Qed.

(** The scan's fuel is enough for any file: each record takes 40 bytes or more. *)
Lemma readRecord_advances file offset d e : is_bytes file -> readRecord file offset = inr (d, e) -> offset + 40 <= e.
Proof.
  intros Hf. unfold readRecord. cbv zeta. repeat (case_match; try done). intros [= <- <-].
  assert (0 <= unle (slice (slice file offset (offset + 40)) 24 32)); [|lia].
  apply unle_range. unfold slice. by repeat (apply Forall_take || apply Forall_drop).
Qed.

Lemma scan_fuel fuel : forall file offset acc, is_bytes file -> len file - offset < Z.of_nat fuel ->
  scan (S fuel) file offset acc = scan fuel file offset acc.
Proof.
  induction fuel as [|fuel IH]; intros file offset acc Hf Hl.
  - cbn [scan]. by rewrite (proj2 (Z.ltb_ge _ _)) by lia.
  - cbn [scan]. destruct (offset <? len file); [|done].
    destruct (readRecord file offset) as [|[d e]] eqn:E; [done|].
    apply readRecord_advances in E; [|done]. apply IH; [done|lia].
Qed.

(** * Replay *)

(** The committed records [ds] lead from one state to another. *)
Inductive applied : persistentImageState -> list persistentImageDelta -> persistentImageState -> Prop :=
| applied_nil st : applied st [] st
| applied_cons st d ds st' fin :
    dSequence d = Sequence st + 1 -> Committed d = true -> applyPersistentImageDelta st d = Ok st' ->
    applied st' ds fin -> applied st (d :: ds) fin.

Lemma applied_snoc st ds mid d fin :
  applied st ds mid -> dSequence d = Sequence mid + 1 -> Committed d = true ->
  applyPersistentImageDelta mid d = Ok fin -> applied st (ds ++ [d]) fin.
Proof. induction 1; cbn; intros; econstructor; eauto using applied. Qed.

Lemma apply_sequence st d st' : applyPersistentImageDelta st d = Ok st' -> Sequence st' = dSequence d.
Proof. intros E. apply delta_ok in E as [_ ->]. done. Qed.

Lemma applied_sequence st ds fin : applied st ds fin -> Sequence fin = Sequence st + len ds.
Proof.
  induction 1 as [|st d ds st' fin Hq Hc E A IH]; [rewrite len_nil; lia|]. rewrite IH, len_cons, (apply_sequence _ _ _ E). lia.
Qed.

Lemma applied_above st ds fin : applied st ds fin -> Forall (fun d => Sequence st < dSequence d /\ Committed d = true) ds.
Proof.
  induction 1 as [|st d ds st' fin Hq Hc E A IH]; constructor; [split; [lia|done]|].
  eapply Forall_impl; [exact IH|]. rewrite (apply_sequence _ _ _ E). intros ? [? ?]. split; [lia|done].
Qed.

Lemma select_stale q ds : Forall (fun d => dSequence d <= q) ds -> forall offset i rest fl,
  selectRecords q i (positions offset ds ++ rest) fl = selectRecords q (i + len ds) rest fl.
Proof.
  induction 1 as [|d ds Hd F IH]; intros offset i rest fl; cbn [positions app selectRecords].
  - by rewrite len_nil, Z.add_0_r.
  - rewrite (proj2 (Z.leb_le _ _)), IH, len_cons by done. f_equal. lia.
Qed.

Lemma select_live q ds : Forall (fun d => q < dSequence d /\ Committed d = true) ds -> forall offset i fl,
  0 <= i -> selectRecords q i (positions offset ds) fl =
    match ds with [] => fl | _ => (if fl.1 =? -1 then i else fl.1, i + len ds - 1) end.
Proof.
  induction 1 as [|d ds [Hd Hc] F IH]; intros offset i fl Hi; [done|]. cbn [positions selectRecords].
  rewrite (proj2 (Z.leb_gt _ _)) by done. rewrite Hc, IH, len_cons by lia.
  destruct ds as [|e ds]; cbn [fst snd]; [f_equal; rewrite len_nil; lia|].
  rewrite len_cons. f_equal; [|lia]. destruct (fl.1 =? -1) eqn:E; [|by rewrite E].
  by rewrite (proj2 (Z.eqb_neq _ _)) by lia.
Qed.

Lemma replay_live st ds fin : applied st ds fin -> Forall validRecord ds -> forall offset g discard,
  replayRecords (positions offset ds) st st g discard = (fin, discard).
Proof.
  induction 1 as [|st d ds st' fin Hq Hc E A IH]; intros F offset g discard; [done|].
  apply Forall_cons in F as [(_ & _ & Hw & _) F]. cbn [positions replayRecords].
  rewrite <- Hq, wrap_small, Z.eqb_refl, E, Hc by done. cbn [negb]. by apply IH.
Qed.

(** What replay keeps of a log. *)
Definition keptLog (stale live : list persistentImageDelta) : list persistentImageDelta :=
  match live with [] => [] | _ => stale ++ live end.

Lemma quarantine_prefix (kept rest : bytes) reason :
  exists report, quarantineWALTail (kept ++ rest) (len kept, reason) = (kept, report).
Proof.
  unfold quarantineWALTail. rewrite len_app. cbn [fst].
  destruct (Z.ltb_spec (len kept) (len kept + len rest)) as [|Hl]; eexists.
  - by rewrite slice_app_l, slice_full by lia.
  - assert (rest = []) as -> by (apply len_0_nil; pose proof (len_nonneg rest); lia). by rewrite app_nil_r.
Qed.

Lemma discard_stale records reason n : 0 <= n -> offsetAt records 0 = 0 -> (len records = 0 -> n = 0) ->
  exists reason', discardUncommitted records (-1) (-1) (n, reason) = (0, reason').
Proof.
  intros Hn E0 He. unfold discardUncommitted, discardFrom. cbn [Z.eqb negb andb Z.leb Z.compare Z.add Pos.compare].
  change (-1 + 1) with 0. cbn. rewrite E0. pose proof (len_nonneg records).
  destruct (Z.ltb_spec 0 (len records)); [destruct (Z.ltb_spec 0 n)|]; eexists; f_equal; lia.
Qed.

Lemma replay_written base stale live fin t :
  Forall validRecord (stale ++ live) -> Forall (fun d => dSequence d <= Sequence base) stale ->
  applied base live fin -> torn t ->
  exists report, replayWAL base (Some (encodeAll (stale ++ live) ++ t)) = (fin, Some (encodeAll (keptLog stale live)), report).
Proof.
  intros F Hs A Ht. unfold replayWAL. destruct (scanWAL_written (stale ++ live) t Ht F) as (reason & ->).
  pose proof (len_nonneg stale) as Ls. pose proof (len_nonneg live) as Ll. pose proof (len_nonneg (encodeAll (stale ++ live))) as Le.
  rewrite positions_app, (select_stale _ _ Hs), (select_live _ _ (applied_above _ _ _ A)) by lia.
  destruct live as [|d live]; cbn [keptLog fst].
  - inversion A; subst. rewrite app_nil_r in *. cbn [positions]. rewrite app_nil_r.
    destruct (discard_stale (positions 0 stale) reason (len (encodeAll stale)) Le) as (reason' & ->).
    { by destruct stale. }
    { rewrite len_positions. intros E. by apply len_0_nil in E as ->. }
    change (negb (-1 =? -1)) with false. cbn [andb].
    destruct (quarantine_prefix [] (encodeAll stale ++ t) reason') as (report & E). exists report.
    change (len []) with 0 in E. cbn [app] in E. by rewrite E.
  - rewrite Z.eqb_refl, Z.add_0_l, len_cons in *. pose proof (len_nonneg live).
    rewrite (proj2 (Z.eqb_neq (len stale) (-1))), (proj2 (Z.leb_le (len stale) _)) by lia. cbn [negb andb].
    replace (discardUncommitted _ _ _ _) with (len (encodeAll (stale ++ d :: live)), reason).
    2: { unfold discardUncommitted. rewrite (proj2 (Z.ltb_ge (len stale + _ - 1) _)), andb_false_r by lia.
      rewrite (proj2 (Z.ltb_ge _ _)), andb_false_r by (rewrite len_app, !len_positions, len_cons; lia). done. }
    rewrite slice_app_r by (rewrite len_positions; lia).
    replace (slice (positions _ (d :: live)) _ _) with (positions (len (encodeAll stale)) (d :: live)).
    2: { rewrite len_positions. replace (len stale - len stale) with 0 by lia.
      replace (len stale + (1 + len live) - 1 + 1 - len stale) with (len (positions (len (encodeAll stale)) (d :: live))) by
        (rewrite len_positions, len_cons; lia). by rewrite slice_full. }
    rewrite (replay_live _ _ _ A) by (by apply Forall_app in F as [_ F]).
    destruct (quarantine_prefix (encodeAll (stale ++ d :: live)) t reason) as (report & ->). by exists report.
Qed.

End Log.

Example crc_check_value : ChecksumIEEE [49; 50; 51; 52; 53; 54; 55; 56; 57] = 0xCBF43926.
Proof. vm_compute. reflexivity. Qed.
