(* ===== verification/Codec.v ===== *)
(** A concrete encoding of the store's records, an instance of the interface [Json] on which
    the theorems about the log and the store are instantiated.  Values are written one after
    the other, each with a decoder that returns what follows it. *)

From stdpp Require Import gmap.
From S2P Require Import Prelude PersistentState Wal.

Class Serial (A : Type) := {
  ser : A -> bytes;
  deser : bytes -> option (A * bytes);
  ser_bytes a : is_bytes (ser a);
  deser_ser a rest : deser (ser a ++ rest) = Some (a, rest);
}.

(** * Numbers, bit by bit *)

Fixpoint serPos (p : positive) : bytes :=
  match p with
  | xH => [4]
  | xO p => 5 :: serPos p
  | xI p => 6 :: serPos p
  end.

Fixpoint deserPos (b : bytes) : option (positive * bytes) :=
  match b with
  | 4 :: b => Some (xH, b)
  | 5 :: b => '(p, b) ← deserPos b; Some (xO p, b)
  | 6 :: b => '(p, b) ← deserPos b; Some (xI p, b)
  | _ => None
  end.

Lemma serPos_bytes p : is_bytes (serPos p).
Proof. induction p; cbn; repeat (constructor; [unfold is_u8; width|]); first [done|constructor]. Qed.

Lemma deserPos_serPos p rest : deserPos (serPos p ++ rest) = Some (p, rest).
Proof. induction p as [p IH|p IH|]; cbn; by rewrite ?IH. Qed.

Definition serZ (z : Z) : bytes :=
  match z with Z0 => [0] | Zpos p => 1 :: serPos p | Zneg p => 2 :: serPos p end.

Definition deserZ (b : bytes) : option (Z * bytes) :=
  match b with
  | 0 :: b => Some (0, b)
  | 1 :: b => '(p, b) ← deserPos b; Some (Zpos p, b)
  | 2 :: b => '(p, b) ← deserPos b; Some (Zneg p, b)
  | _ => None
  end.

Lemma serZ_bytes z : is_bytes (serZ z).
Proof. destruct z; cbn; (constructor; [unfold is_u8; width|]); [constructor|apply serPos_bytes|apply serPos_bytes]. Qed.

Lemma deserZ_serZ z rest : deserZ (serZ z ++ rest) = Some (z, rest).
Proof. destruct z; cbn; by rewrite ?deserPos_serPos. Qed.

#[export] Instance serial_Z : Serial Z :=
  {| ser := serZ; deser := deserZ; ser_bytes := serZ_bytes; deser_ser := deserZ_serZ |}.

(** * Structured values *)

#[export] Program Instance serial_bool : Serial bool :=
  {| ser b := serZ (if b then 1 else 0); deser b := '(z, b) ← deserZ b; Some (z =? 1, b) |}.
Next Obligation. intros []; apply serZ_bytes. Qed.
Next Obligation. intros [] rest; done. Qed.

#[export] Program Instance serial_prod {A B} `{Serial A} `{Serial B} : Serial (A * B) :=
  {| ser x := ser x.1 ++ ser x.2; deser b := '(x, b) ← deser b; '(y, b) ← deser b; Some ((x, y), b) |}.
Next Obligation. intros. apply Forall_app. split; apply ser_bytes. Qed.
Next Obligation. intros A B ? ? [x y] rest. cbn. rewrite <- app_assoc, deser_ser. cbn. by rewrite deser_ser. Qed.

Fixpoint deserN {A} `{Serial A} (n : nat) (b : bytes) : option (list A * bytes) :=
  match n with
  | O => Some ([], b)
  | S n => '(x, b) ← deser b; '(l, b) ← deserN n b; Some (x :: l, b)
  end.

Definition serList {A} `{Serial A} (l : list A) : bytes := serZ (len l) ++ concat (ser <$> l).

Definition deserList {A} `{Serial A} (b : bytes) : option (list A * bytes) :=
  '(n, b) ← deserZ b; deserN (Z.to_nat n) b.

Lemma serList_bytes {A} `{Serial A} (l : list A) : is_bytes (serList l).
Proof.
  apply Forall_app. split; [apply serZ_bytes|].
  induction l; cbn; [constructor|]. apply Forall_app. split; [apply ser_bytes|done].
Qed.

Lemma deserList_serList {A} `{Serial A} (l : list A) rest : deserList (serList l ++ rest) = Some (l, rest).
Proof.
  unfold deserList, serList. rewrite <- app_assoc, deserZ_serZ. cbn [mbind option_bind]. unfold len. rewrite Nat2Z.id.
  induction l as [|x l IH]; [done|]. cbn [length fmap list_fmap concat deserN].
  rewrite <- app_assoc, deser_ser. cbn [mbind option_bind]. by rewrite IH.
Qed.

#[export] Instance serial_list {A} `{Serial A} : Serial (list A) :=
  {| ser := serList; deser := deserList; ser_bytes := serList_bytes; deser_ser := deserList_serList |}.

(** A type that is a product up to renaming of its fields. *)
Lemma deser_iso {A B} `{Serial B} (f : A -> B) (g : B -> A) (gf : forall a, g (f a) = a) a rest :
  ('(x, b) ← deser (ser (f a) ++ rest); Some (g x, b)) = Some (a, rest).
Proof. rewrite deser_ser. cbn. by rewrite gf. Qed.

Definition serial_iso {A B} `{Serial B} (f : A -> B) (g : B -> A) (gf : forall a, g (f a) = a) : Serial A :=
  {| ser a := ser (f a); deser b := '(x, b) ← deser b; Some (g x, b); ser_bytes a := ser_bytes (f a);
     deser_ser := deser_iso f g gf |}.

(** * The records of the store *)

#[export] Instance serial_dirent : Serial persistentImageDirent := serial_iso (fun x => (deName x, deInode x)) (fun
  '(x0, x1) => mkDirent x0 x1) (fun x => match x with mkDirent _ _ => eq_refl end).
#[export] Instance serial_xattr : Serial persistentImageXattr := serial_iso (fun x => (xaName x, xaValue x)) (fun
  '(x0, x1) => mkXattr x0 x1) (fun x => match x with mkXattr _ _ => eq_refl end).
#[export] Instance serial_extent : Serial persistentImageExtent := serial_iso (fun x => (exPage x, exCount x)) (fun
  '(x0, x1) => mkExtent x0 x1) (fun x => match x with mkExtent _ _ => eq_refl end).
#[export] Instance serial_node : Serial persistentImageNode := serial_iso (fun x => (ID x, Parent x, Name x, Kind x,
  Mode x, RawMode x, UID x, GID x, RDev x, Size x, NLink x, SymlinkTarget x, GuestPath x, LowerPath x, Entries x,
  Whiteouts x, Xattrs x, Data x, EntriesDone x, CopiedUp x, Independent x, LowerSize x, ATimeUnixNano x,
  MTimeUnixNano x, CTimeUnixNano x, PreserveNamespace x)) (fun '(x0, x1, x2, x3, x4, x5, x6, x7, x8, x9, x10, x11,
  x12, x13, x14, x15, x16, x17, x18, x19, x20, x21, x22, x23, x24, x25) => mkNode x0 x1 x2 x3 x4 x5 x6 x7 x8 x9 x10
  x11 x12 x13 x14 x15 x16 x17 x18 x19 x20 x21 x22 x23 x24 x25) (fun x => match x with mkNode _ _ _ _ _ _ _ _ _ _ _ _
  _ _ _ _ _ _ _ _ _ _ _ _ _ _ => eq_refl end).
#[export] Instance serial_recovery : Serial persistentImageRecovery := serial_iso (fun x => (Status x,
  QuarantinePath x, DiscardedBytes x)) (fun '(x0, x1, x2) => mkRecovery x0 x1 x2) (fun x => match x with mkRecovery
  _ _ _ => eq_refl end).
#[export] Instance serial_state : Serial persistentImageState := serial_iso (fun x => (Version x, Sequence x,
  LowerID x, NextNodeID x, Nodes x, RemovedNodes x, Recovery x, LastError x)) (fun '(x0, x1, x2, x3, x4, x5, x6, x7)
  => mkState x0 x1 x2 x3 x4 x5 x6 x7) (fun x => match x with mkState _ _ _ _ _ _ _ _ => eq_refl end).
#[export] Instance serial_direntOp : Serial persistentImageDirentOp := serial_iso (fun x => (doParent x, doName x,
  doInode x, doPresent x)) (fun '(x0, x1, x2, x3) => mkDirentOp x0 x1 x2 x3) (fun x => match x with mkDirentOp _ _ _
  _ => eq_refl end).
#[export] Instance serial_whiteoutOp : Serial persistentImageWhiteoutOp := serial_iso (fun x => (woParent x, woName
  x, woPresent x)) (fun '(x0, x1, x2) => mkWhiteoutOp x0 x1 x2) (fun x => match x with mkWhiteoutOp _ _ _ => eq_refl
  end).
#[export] Instance serial_delta : Serial persistentImageDelta := serial_iso (fun x => (dVersion x, dSequence x,
  dNextNodeID x, Committed x, dNodes x, Deleted x, Dirents x, dWhiteouts x)) (fun '(x0, x1, x2, x3, x4, x5, x6, x7)
  => mkDelta x0 x1 x2 x3 x4 x5 x6 x7) (fun x => match x with mkDelta _ _ _ _ _ _ _ _ => eq_refl end).

(** Every value of a serial type reads back. *)
Lemma deser_whole {A} `{Serial A} (a : A) : True -> fst <$> deser (ser a) = Some a.
Proof. intros _. rewrite <- (app_nil_r (ser a)). by rewrite deser_ser. Qed.

Definition json_serial (A : Type) `{Serial A} : Json A :=
  {| Marshal := ser; Unmarshal b := fst <$> deser b; encodable _ := True; marshal_bytes := ser_bytes;
     unmarshal_marshal := deser_whole |}.

Example delta_reads_back :
  let d := mkDelta 1 7 9 true [plainNode 2 1 [97] fileKind 5] [3] [mkDirentOp 1 [97] 2 true] [mkWhiteoutOp 1 [98] false] in
  fst <$> deser (ser d) = Some d.
Proof. vm_compute. reflexivity. Qed.
