(* ===== verification/PersistentStore.v ===== *)
(** The store of a persistent file system on disk and its recovery:
    [src/internal/core/virtio/fs_persistent_store.go] ([load], [save],
    [openPersistentImageStore]) and [fs_persistent_wal.go] ([appendDelta], [resetWAL],
    [maybeCheckpointPersistentLocked]).

    The disk holds two metadata slots, written in turn through a rename, and the log.  Each
    operation takes the outcome of its system calls as an argument, so that a failure or a
    crash at any point is a case.  [crash_recovery]: however the operations and crashes are
    interleaved, opening the store finds the last acknowledged state, or the one whose
    record was being written.  [failed_append_loses_next] and [unsynced_checkpoint_loses_next]:
    the store goes on after a failed append or checkpoint, and what it acknowledges next is lost. *)

From stdpp Require Import gmap.
From S2P Require Import Prelude PersistentState Wal Codec.

(** * The disk and the store *)

(** The files of the store: the metadata slots, the log, the marker [INITIALIZED], and
    whether there are data files. *)
Record disk := mkDisk {
  slot0 : option bytes;
  slot1 : option bytes;
  wal : option bytes;
  initialized : bool;
  hasData : bool;
}.
#[export] Instance eta_disk : Eta disk := fun d => mkDisk (slot0 d) (slot1 d) (wal d) (initialized d) (hasData d).

Record persistentImageStore := mkStore {
  lowerID : bytes;
  sequence : Z;
  durableSequence : Z;
  metadataSlot : Z;
  durableState : option persistentImageState;
}.
#[export] Instance eta_persistentImageStore : Eta persistentImageStore := fun s =>
  mkStore (lowerID s) (sequence s) (durableSequence s) (metadataSlot s) (durableState s).

(** The slot files, by the low bit of the slot number. *)
Definition metadataAt (slot : Z) (d : disk) : option bytes :=
  if Z.land slot 1 =? 0 then slot0 d else slot1 d.

Definition setMetadata (slot : Z) (file : bytes) (d : disk) : disk :=
  if Z.land slot 1 =? 0 then d <| slot0 := Some file |> else d <| slot1 := Some file |>.

Inductive storeError :=
| ReadHeader
| BadMagic
| UnsupportedVersion
| MetadataTooLong
| PayloadLength
| ChecksumMismatch
| DecodePayload
| PayloadVersion
| PayloadSequence
| NoValidMetadata
| SnapshotsMissing
| ApplyDelta
| DeltaTooLong
| WriteFailed.

Abbreviation persistentImageMagic := ([67; 67; 72; 79; 77; 69; 48; 49] : bytes).

(** What the system calls of an operation did. *)
Inductive appendIO :=
| AppendDone
| AppendFailed (written : Z).

Inductive saveIO :=
| SaveDone
| SaveFailed
| SaveUnsynced.

#[export] Instance saveIO_eq_dec : EqDecision saveIO.
Proof. solve_decision. Defined.

Inductive resetIO :=
| ResetDone
| ResetFailed
| ResetUnsynced.

Section Store.
Context `{Json persistentImageDelta} `{Json persistentImageState}.

(** * Snapshots *)

Definition snapshotFile (state : persistentImageState) : bytes :=
  recordHeader persistentImageMagic (Sequence state) (Marshal state) ++ Marshal state.

Definition readPersistentImageState (file : bytes) : result storeError persistentImageState :=
  if len file <? persistentImageHeaderSize then Err ReadHeader
  else
    let header := slice file 0 persistentImageHeaderSize in
    if negb (bool_decide (slice header 0 8 = persistentImageMagic)) then Err BadMagic
    else if negb (unle (slice header 8 12) =? persistentImageFormatVersion) then Err UnsupportedVersion
    else
      let length := unle (slice header 24 32) in
      if length >? persistentImageMaxMetadata then Err MetadataTooLong
      else
        let available := len file - persistentImageHeaderSize in
        if (available <? 0) || negb (length =? available) then Err PayloadLength
        else
          let payload := slice file persistentImageHeaderSize (len file) in
          if negb (ChecksumIEEE payload =? unle (slice header 32 36)) then Err ChecksumMismatch
          else
            match Unmarshal payload with
            | None => Err DecodePayload
            | Some state =>
                if negb (Version state =? persistentImageFormatVersion) then Err PayloadVersion
                else if negb (Sequence state =? unle (slice header 16 24)) then Err PayloadSequence
                else Ok state
            end.

(** One slot of [load]: the best state so far with its slot, and whether a slot was invalid. *)
Definition loadSlot (d : disk) (acc : option (persistentImageState * Z) * bool) (slot : Z)
  : option (persistentImageState * Z) * bool :=
  match metadataAt slot d with
  | None => acc
  | Some file =>
      match readPersistentImageState file with
      | Ok state =>
          match acc.1 with
          | Some (best, _) => if Sequence state >? Sequence best then (Some (state, slot), acc.2) else acc
          | None => (Some (state, slot), acc.2)
          end
      | _ => (acc.1, true)
      end
  end.

Definition load (d : disk) : result storeError (option (persistentImageState * Z)) :=
  match foldl (loadSlot d) (None, false) [0; 1] with
  | (Some best, _) => Ok (Some best)
  | (None, true) => Err NoValidMetadata
  | (None, false) => Ok None
  end.

(** The state as [save] stamps it. *)
Definition stampState (s : persistentImageStore) (state : persistentImageState) : persistentImageState :=
  state <| Version := persistentImageFormatVersion |> <| Sequence := wrap 64 (sequence s + 1) |>
        <| LowerID := lowerID s |>.

(** Whether the staged file reads back with the same sequence and number of nodes. *)
Definition verifyStaged (state : persistentImageState) (file : bytes) : result storeError unit :=
  verified ← readPersistentImageState file;
  if negb (Sequence verified =? Sequence state) || negb (len (Nodes verified) =? len (Nodes state))
  then Err WriteFailed else Ok tt.

Definition save (io : saveIO) (state : persistentImageState) (durable : bool) (s : persistentImageStore) (d : disk)
  : result storeError unit * persistentImageStore * disk :=
  let state := stampState s state in
  if len (Marshal state) >? persistentImageMaxMetadata then (Err MetadataTooLong, s, d)
  else
    let slot := Z.land (metadataSlot s + 1) 1 in
    match io with
    | SaveFailed => (Err WriteFailed, s, d)
    | _ =>
        match verifyStaged state (snapshotFile state) with
        | Ok _ =>
            let d := setMetadata slot (snapshotFile state) d in
            match io with
            | SaveUnsynced => (Err WriteFailed, s, d)
            | _ =>
                let s := s <| sequence := Sequence state |> <| metadataSlot := slot |> in
                (Ok tt, if durable then s <| durableSequence := sequence s |> <| durableState := Some state |> else s, d)
            end
        | Err e => (Err e, s, d)
        | Panic => (Panic, s, d)
        end
    end.

(** * The log *)

Definition stampDelta (s : persistentImageStore) (durable : bool) (delta : persistentImageDelta) : persistentImageDelta :=
  delta <| dVersion := persistentImageFormatVersion |> <| dSequence := wrap 64 (sequence s + 1) |> <| Committed := durable |>.

(** Bytes added to the log file, which is created when missing. *)
Definition appendWAL (b : bytes) (d : disk) : disk := d <| wal := Some (default [] (wal d) ++ b) |>.

Definition barrier : persistentImageDelta := mkDelta persistentImageFormatVersion 0 0 false [] [] [] [].

(** The durable state a delta is applied to: a fresh one when there is none. *)
Definition durableBase (s : persistentImageStore) : persistentImageState :=
  default (mkState persistentImageFormatVersion 0 (lowerID s) 0 [] [] (mkRecovery [] [] 0) []) (durableState s).

(** Append a stamped delta; a committed one is first applied to the durable state. *)
Definition appendStamped (io : appendIO) (delta : persistentImageDelta) (durable : bool)
    (s : persistentImageStore) (d : disk) : result storeError unit * persistentImageStore * disk :=
  match (if durable then state ← applyPersistentImageDelta (durableBase s) delta; Ok (Some state) else Ok None) with
  | Ok nextDurable =>
      if len (Marshal delta) >? persistentImageMaxMetadata then (Err DeltaTooLong, s, d)
      else
        match io with
        | AppendFailed written => (Err WriteFailed, s, appendWAL (slice (walRecord delta) 0 written) d)
        | AppendDone =>
            let s := s <| sequence := dSequence delta |> in
            (Ok tt, if durable then s <| durableSequence := sequence s |> <| durableState := nextDurable |> else s,
             appendWAL (walRecord delta) d)
        end
  | _ => (Err ApplyDelta, s, d)
  end.

Definition appendDelta (io : appendIO) (delta : option persistentImageDelta) (durable : bool)
    (s : persistentImageStore) (d : disk) : result storeError unit * persistentImageStore * disk :=
  match delta with
  | None => if durable then appendStamped io (stampDelta s durable barrier) durable s d else (Ok tt, s, d)
  | Some delta => appendStamped io (stampDelta s durable delta) durable s d
  end.

Definition resetWAL (io : resetIO) (d : disk) : result storeError unit * disk :=
  match io with
  | ResetDone => (Ok tt, d <| wal := Some [] |>)
  | ResetFailed => (Err WriteFailed, d)
  | ResetUnsynced => (Err WriteFailed, d <| wal := Some [] |>)
  end.

(** Save a state and, if that worked, empty the log. *)
Definition saveAndReset (sio : saveIO) (rio : resetIO) (state : persistentImageState)
    (s : persistentImageStore) (d : disk) : result storeError unit * persistentImageStore * disk :=
  match save sio state true s d with
  | (Ok _, s, d) => let '(r, d) := resetWAL rio d in (r, s, d)
  | r => r
  end.

(** Compaction of the durable state once the log has [limit] bytes. *)
Definition maybeCheckpointPersistentLocked (limit : Z) (sio : saveIO) (rio : resetIO)
    (s : persistentImageStore) (d : disk) : result storeError unit * persistentImageStore * disk :=
  if limit <=? 0 then (Ok tt, s, d)
  else
    match wal d, durableState s with
    | Some file, Some state => if len file <? limit then (Ok tt, s, d) else saveAndReset sio rio state s d
    | _, _ => (Ok tt, s, d)
    end.

(** The checkpoint of the whole live file system: flush [delta], save [live], empty the log.
    The data files, which are synced before the flush, are not part of the disk modelled here. *)
Definition checkpointPersistentLocked (aio : appendIO) (sio : saveIO) (rio : resetIO)
    (delta : option persistentImageDelta) (live : persistentImageState) (s : persistentImageStore) (d : disk)
  : result storeError unit * persistentImageStore * disk :=
  match appendDelta aio delta true s d with
  | (Ok _, s, d) => saveAndReset sio rio live s d
  | r => r
  end.

(** * Opening *)

Definition ensureEmptyUninitialized (d : disk) : result storeError unit :=
  if initialized d then Err SnapshotsMissing
  else if negb (len (default [] (wal d)) =? 0) then Err SnapshotsMissing
  else if hasData d then Err SnapshotsMissing
  else Ok tt.

Definition openPersistentImageStore (id : bytes) (d : disk)
  : result storeError (persistentImageStore * option persistentImageState * disk) :=
  best ← load d;
  match best with
  | None =>
      _ ← ensureEmptyUninitialized d;
      Ok (mkStore id 0 0 0 None, None, d)
  | Some (state, slot) =>
      let '(state, file, _) := replayWAL state (wal d) in
      Ok (mkStore id (Sequence state) (Sequence state) slot (Some state), Some state, d <| wal := file |>)
  end.

(** * What a disk recovers to *)

Definition goodSnapshot (st : persistentImageState) : Prop :=
  encodable st /\ Version st = persistentImageFormatVersion /\ in_width 64 (Sequence st) /\
  len (Marshal st) <= persistentImageMaxMetadata.

Lemma read_snapshot st : goodSnapshot st -> readPersistentImageState (snapshotFile st) = Ok st.
Proof.
  intros (He & Hv & Hq & Hl). unfold readPersistentImageState, snapshotFile.
  destruct (header_fields persistentImageMagic (Sequence st) (Marshal st) eq_refl) as (F1 & F2 & F3 & F4 & F5).
  set (h := recordHeader _ _ _) in *. assert (Lh : len h = 40) by by apply len_recordHeader.
  pose proof (len_nonneg (Marshal st)). rewrite len_app, Lh, (proj2 (Z.ltb_ge _ _)) by lia. cbv zeta.
  rewrite slice_app_l by lia. replace (slice h 0 40) with h by (rewrite <- Lh; by rewrite slice_full).
  rewrite F1, F2, F3, F4, F5, !unle_le, bool_decide_eq_true_2 by done. cbn [negb].
  rewrite (wrap_small _ persistentImageFormatVersion), Z.eqb_refl by (width). cbn [negb].
  rewrite (wrap_small _ (len (Marshal st))) by (width).
  rewrite Z.gtb_ltb, !(proj2 (Z.ltb_ge _ _)) by lia. replace (40 + len (Marshal st) - 40) with (len (Marshal st)) by lia.
  rewrite Z.eqb_refl. cbn [negb orb]. rewrite slice_app_r by lia. rewrite Lh.
  replace (40 + len (Marshal st) - 40) with (len (Marshal st)) by lia. replace (40 - 40) with 0 by lia. rewrite slice_full.
  rewrite (wrap_small _ (ChecksumIEEE _)) by apply ChecksumIEEE_width, marshal_bytes.
  rewrite Z.eqb_refl, unmarshal_marshal, Hv, (wrap_small _ (Sequence st)), !Z.eqb_refl by done. done.
Qed.

(** The slot holds no valid state, or one older than [q]. *)
Definition slotBelow (q : Z) (d : disk) (slot : Z) : Prop :=
  match metadataAt slot d with
  | None => True
  | Some file => match readPersistentImageState file with Ok st => Sequence st < q | _ => True end
  end.

(** The disk holds the snapshot [base] in [slot] and, after records the snapshot includes, the
    committed records [live] from [base] to [st], then torn bytes. *)
Record holds (d : disk) (slot : Z) (base : persistentImageState) (stale live : list persistentImageDelta)
    (t : bytes) (st : persistentImageState) : Prop := {
  holds_slot : slot = 0 \/ slot = 1;
  holds_base : metadataAt slot d = Some (snapshotFile base);
  holds_good : goodSnapshot base;
  holds_other : slotBelow (Sequence base) d (1 - slot);
  holds_wal : default [] (wal d) = encodeAll (stale ++ live) ++ t;
  holds_valid : Forall validRecord (stale ++ live);
  holds_stale : Forall (fun e => dSequence e <= Sequence base) stale;
  holds_live : applied base live st;
  holds_torn : torn t;
}.

Lemma load_holds d slot base stale live t st : holds d slot base stale live t st -> load d = Ok (Some (base, slot)).
Proof.
  intros H1. destruct (holds_slot _ _ _ _ _ _ _ H1) as [->| ->];
    pose proof (holds_base _ _ _ _ _ _ _ H1) as Hb; pose proof (holds_other _ _ _ _ _ _ _ H1) as Ho;
    unfold slotBelow in Ho; unfold load; cbn [foldl]; unfold loadSlot.
  - rewrite Hb, read_snapshot by apply H1. cbn [fst snd]. change (1 - 0) with 1 in Ho.
    destruct (metadataAt 1 d) as [file|]; [|done]. destruct (readPersistentImageState file) as [st1| |]; cbn [fst]; try done.
    by rewrite Z.gtb_ltb, (proj2 (Z.ltb_ge _ _)) by lia.
  - rewrite Hb, read_snapshot by apply H1. change (1 - 1) with 0 in Ho.
    destruct (metadataAt 0 d) as [file|]; [|done]. destruct (readPersistentImageState file) as [st1| |]; cbn [fst snd]; try done.
    by rewrite Z.gtb_ltb, (proj2 (Z.ltb_lt _ _)) by lia.
Qed.

Lemma encodeAll_nil_inv ds : encodeAll ds = [] -> ds = [].
Proof.
  destruct ds as [|e ds]; [done|]. rewrite encodeAll_cons. intros E. apply (f_equal len) in E.
  rewrite len_app, len_walRecord in E. pose proof (len_nonneg (Marshal e)). pose proof (len_nonneg (encodeAll ds)).
  rewrite len_nil in E. lia.
Qed.

(** A disk that holds [st] opens to [st], and then holds it with a clean log. *)
Lemma open_holds id d slot base stale live t st : holds d slot base stale live t st ->
  exists d', openPersistentImageStore id d = Ok (mkStore id (Sequence st) (Sequence st) slot (Some st), Some st, d') /\
    exists stale', holds d' slot base stale' live [] st.
Proof.
  intros H1. unfold openPersistentImageStore. rewrite (load_holds _ _ _ _ _ _ _ H1). cbn.
  pose proof (holds_wal _ _ _ _ _ _ _ H1) as Hw. pose proof (holds_live _ _ _ _ _ _ _ H1) as Ha.
  destruct (wal d) as [file|] eqn:Ew; cbn in Hw.
  - subst file. destruct (replay_written base stale live st t) as (report & E); try apply H1. rewrite E.
    eexists. split; [done|]. exists (match live with [] => [] | _ => stale end).
    destruct H1 as [H1a H1b H1c H1d H1e H1f H1g H1h H1i]. split; try done; cbn.
    + rewrite app_nil_r. by destruct live.
    + by destruct live.
    + by destruct live.
    + by left.
  - assert (E : encodeAll (stale ++ live) = []) by (by destruct (encodeAll (stale ++ live))).
    apply encodeAll_nil_inv in E. apply app_eq_nil in E as [-> ->]. inversion Ha; subst. cbn.
    eexists. split; [done|]. exists []. destruct H1. split; try done. by left.
Qed.

(** * The operations of an attached store *)

Definition attached (s : persistentImageStore) (d : disk) (st : persistentImageState) : Prop :=
  durableState s = Some st /\ sequence s = Sequence st /\
  exists base stale live, holds d (metadataSlot s) base stale live [] st.

Lemma holds_sequence d slot base stale live t st : holds d slot base stale live t st -> Sequence base <= Sequence st.
Proof. intros H1. rewrite (applied_sequence _ _ _ (holds_live _ _ _ _ _ _ _ H1)). pose proof (len_nonneg live). lia. Qed.

Lemma wal_append b d : default [] (wal (appendWAL b d)) = default [] (wal d) ++ b.
Proof. done. Qed.

(** Adding a record to the log. *)
Lemma holds_append d slot base stale live st e st' :
  holds d slot base stale live [] st -> validRecord e -> dSequence e = Sequence st + 1 -> Committed e = true ->
  applyPersistentImageDelta st e = Ok st' ->
  holds (appendWAL (walRecord e) d) slot base stale (live ++ [e]) [] st'.
Proof.
  intros [? ? ? ? Hw Hv ? Ha _] He Hq Hc Ea. split; try done.
  - cbn. rewrite Hw, !app_nil_r, !encodeAll_app, <- app_assoc. do 2 f_equal. unfold encodeAll. cbn. by rewrite app_nil_r.
  - rewrite app_assoc. apply Forall_app. split; [exact Hv|]. constructor; [exact He|constructor].
  - by eapply applied_snoc.
  - by left.
Qed.

(** Adding bytes that are no record. *)
Lemma holds_tear d slot base stale live st t :
  holds d slot base stale live [] st -> torn t -> holds (appendWAL t d) slot base stale live t st.
Proof. intros [? ? ? ? Hw Hv ? Ha _] Ht. split; try done. cbn. by rewrite Hw, app_nil_r. Qed.

Lemma other_slot slot : slot = 0 \/ slot = 1 -> Z.land (slot + 1) 1 = 1 - slot.
Proof. intros [->| ->]; done. Qed.

(** Publishing a newer snapshot makes every record of the log stale. *)
Lemma holds_publish d slot base stale live t st new :
  holds d slot base stale live t st -> goodSnapshot new -> Sequence st < Sequence new ->
  holds (setMetadata (1 - slot) (snapshotFile new) d) (1 - slot) new (stale ++ live) [] t new.
Proof.
  intros H1 Hn Hq. pose proof (holds_sequence _ _ _ _ _ _ _ H1) as Hle.
  destruct H1 as [Hs Hb Hg Ho Hw Hv Hst Ha Ht].
  assert (slotBelow (Sequence new) (setMetadata (1 - slot) (snapshotFile new) d) (1 - (1 - slot))) as Hbelow.
  { unfold slotBelow. replace (1 - (1 - slot)) with slot by lia.
    replace (metadataAt slot (setMetadata (1 - slot) (snapshotFile new) d)) with (metadataAt slot d) by (by destruct Hs as [->| ->]).
    rewrite Hb, read_snapshot by done. lia. }
  split; try done.
  - lia.
  - by destruct Hs as [->| ->].
  - rewrite app_nil_r, <- Hw. by destruct Hs as [->| ->].
  - by rewrite app_nil_r.
  - apply Forall_app. split; [eapply Forall_impl; [exact Hst|]; cbn; lia|].
    clear -Ha Hq. induction Ha as [|st e ds st' fin E1 E2 E3 A IH]; constructor; [|by apply IH].
    pose proof (applied_sequence _ _ _ A) as E. rewrite (apply_sequence _ _ _ E3) in E. pose proof (len_nonneg ds). lia.
  - constructor.
Qed.

(** Emptying a log whose records are all stale. *)
Lemma holds_reset d slot base stale t st : holds d slot base stale [] t st ->
  holds (d <| wal := Some [] |>) slot base [] [] [] st.
Proof. intros [? ? ? ? Hw Hv ? Ha Ht]. split; try done. by left. Qed.

Lemma save_result sio state s d :
  goodSnapshot (stampState s state) ->
  save sio state true s d =
  match sio with
  | SaveDone =>
      (Ok tt, s <| sequence := wrap 64 (sequence s + 1) |> <| metadataSlot := Z.land (metadataSlot s + 1) 1 |>
                <| durableSequence := wrap 64 (sequence s + 1) |> <| durableState := Some (stampState s state) |>,
       setMetadata (Z.land (metadataSlot s + 1) 1) (snapshotFile (stampState s state)) d)
  | SaveFailed => (Err WriteFailed, s, d)
  | SaveUnsynced =>
      (Err WriteFailed, s, setMetadata (Z.land (metadataSlot s + 1) 1) (snapshotFile (stampState s state)) d)
  end.
Proof.
  intros G. pose proof G as (_ & _ & _ & Hl). unfold save. rewrite Z.gtb_ltb, (proj2 (Z.ltb_ge _ _)) by done.
  unfold verifyStaged. rewrite (read_snapshot _ G). cbn [mbind result_bind]. rewrite !Z.eqb_refl. by destruct sio.
Qed.

Lemma stampState_sequence s state st : sequence s = Sequence st -> in_width 64 (Sequence st + 1) ->
  Sequence (stampState s state) = Sequence st + 1.
Proof. intros E W. cbn. by rewrite E, wrap_small. Qed.

(** A checkpoint of [state], with its directory sync not failing: the store stays attached,
    with what it had or with [state]. *)
Lemma saveAndReset_attached sio rio state s d st r s' d' :
  attached s d st -> goodSnapshot (stampState s state) -> in_width 64 (Sequence st + 1) -> sio <> SaveUnsynced ->
  saveAndReset sio rio state s d = (r, s', d') ->
  attached s' d' st \/ attached s' d' (stampState s state).
Proof.
  intros (Hds & Hq & base & stale & live & H1) G W Hio. unfold saveAndReset. rewrite save_result by done.
  pose proof (stampState_sequence s state st Hq W) as Es.
  destruct sio; [|intros [= <- <- <-]; left; split; [done|split; [done|by exists base, stale, live]]|done].
  rewrite (other_slot _ (holds_slot _ _ _ _ _ _ _ H1)).
  assert (H2 := holds_publish _ _ _ _ _ _ _ (stampState s state) H1 G ltac:(lia)).
  intros E. right. destruct rio; cbn in E; injection E as <- <- <-; (split; [done|split; [done|]]);
    eexists _, _, _; [exact (holds_reset _ _ _ _ _ _ H2)|exact H2|exact (holds_reset _ _ _ _ _ _ H2)].
Qed.

(** The record a durable append writes. *)
Definition stamped (s : persistentImageStore) (delta : option persistentImageDelta) : persistentImageDelta :=
  stampDelta s true (default barrier delta).

Lemma appendDelta_durable io delta s d : appendDelta io delta true s d = appendStamped io (stamped s delta) true s d.
Proof. by destruct delta. Qed.

Lemma stamped_valid s delta st : sequence s = Sequence st -> in_width 64 (Sequence st + 1) -> encodable (stamped s delta) ->
  len (Marshal (stamped s delta)) <= persistentImageMaxMetadata ->
  validRecord (stamped s delta) /\ dSequence (stamped s delta) = Sequence st + 1.
Proof.
  intros Hq W He Hl. assert (E : dSequence (stamped s delta) = Sequence st + 1) by (cbn; by rewrite Hq, wrap_small).
  split; [|done]. split; [done|split; [done|split; [by rewrite E|done]]].
Qed.

Lemma append_attached delta s d st r s' d' :
  attached s d st -> encodable (stamped s delta) -> in_width 64 (Sequence st + 1) ->
  appendDelta AppendDone delta true s d = (r, s', d') ->
  (exists st', r = Ok tt /\ applyPersistentImageDelta st (stamped s delta) = Ok st' /\ attached s' d' st') \/
  (s' = s /\ d' = d).
Proof.
  intros (Hds & Hq & base & stale & live & H1) He W. rewrite appendDelta_durable. unfold appendStamped.
  replace (durableBase s) with st by (unfold durableBase; by rewrite Hds).
  destruct (applyPersistentImageDelta st (stamped s delta)) as [st'| |] eqn:Ea; cbn [mbind result_bind];
    [|by intros [= <- <- <-]; right|by intros [= <- <- <-]; right].
  rewrite Z.gtb_ltb. destruct (Z.ltb_spec persistentImageMaxMetadata (len (Marshal (stamped s delta)))) as [|Hl];
    [by intros [= <- <- <-]; right|]. intros [= <- <- <-]. left. exists st'. do 2 (split; [done|]).
  destruct (stamped_valid s delta st Hq W He Hl) as [Hv Es].
  split; [done|]. split; [by rewrite (apply_sequence _ _ _ Ea)|].
  eexists base, stale, _. by eapply holds_append.
Qed.

(** A log append that stopped after some bytes. *)
Lemma append_crash k delta s d st r s' d' :
  attached s d st -> encodable (stamped s delta) -> in_width 64 (Sequence st + 1) ->
  appendDelta (AppendFailed k) delta true s d = (r, s', d') ->
  exists slot base stale live t st', holds d' slot base stale live t st' /\
    (st' = st \/ applyPersistentImageDelta st (stamped s delta) = Ok st').
Proof.
  intros (Hds & Hq & base & stale & live & H1) He W. rewrite appendDelta_durable. unfold appendStamped.
  replace (durableBase s) with st by (unfold durableBase; by rewrite Hds).
  assert (Hsame : d' = d -> exists slot base stale live t st', holds d' slot base stale live t st' /\
    (st' = st \/ applyPersistentImageDelta st (stamped s delta) = Ok st')).
  { intros ->. do 6 eexists. split; [exact H1|by left]. }
  destruct (applyPersistentImageDelta st (stamped s delta)) as [st'| |] eqn:Ea; cbn [mbind result_bind];
    [|by intros [= <- <- <-]; apply Hsame|by intros [= <- <- <-]; apply Hsame].
  rewrite Z.gtb_ltb. destruct (Z.ltb_spec persistentImageMaxMetadata (len (Marshal (stamped s delta)))) as [|Hl];
    [by intros [= <- <- <-]; apply Hsame|]. intros [= <- <- <-].
  destruct (stamped_valid s delta st Hq W He Hl) as [Hv Es].
  destruct (Z.lt_ge_cases k (len (walRecord (stamped s delta)))) as [Hk|Hk].
  - do 6 eexists. split; [|by left]. apply holds_tear; [exact H1|].
    destruct (Z.le_gt_cases 0 k); [by apply prefix_torn|]. left. by apply slice_empty; lia.
  - do 6 eexists. split; [|by right]. rewrite slice_0, take_ge by (unfold len in Hk; lia). by eapply holds_append.
Qed.

(** * Runs with crashes *)

(** A running store, or a disk after a crash with the states recovery may find. *)
Inductive config :=
| Running (s : persistentImageStore) (d : disk)
| Crashed (d : disk) (allowed : persistentImageState -> Prop).

(** The durable state of a store. *)
Definition acknowledged (s : persistentImageStore) (st : persistentImageState) : Prop := durableState s = Some st.

(** The values a store writes are values the JSON encoder keeps, and its counter does not wrap. *)
Definition deltaFits (s : persistentImageStore) (delta : option persistentImageDelta) : Prop :=
  encodable (stamped s delta) /\ in_width 64 (sequence s + 1).

Definition stateFits (s : persistentImageStore) (state : persistentImageState) : Prop :=
  encodable (stampState s state) /\ in_width 64 (sequence s + 1) /\
  len (Marshal (stampState s state)) <= persistentImageMaxMetadata.

Inductive step : config -> config -> Prop :=
| step_append delta s d r s' d' :
    deltaFits s delta -> appendDelta AppendDone delta true s d = (r, s', d') ->
    step (Running s d) (Running s' d')
| step_checkpoint limit sio rio s d r s' d' :
    (forall st, durableState s = Some st -> stateFits s st) -> sio <> SaveUnsynced ->
    maybeCheckpointPersistentLocked limit sio rio s d = (r, s', d') ->
    step (Running s d) (Running s' d')
| step_save sio rio live s d r s' d' :
    stateFits s live -> sio <> SaveUnsynced -> saveAndReset sio rio live s d = (r, s', d') ->
    step (Running s d) (Running s' d')
| crash_idle s d : step (Running s d) (Crashed d (acknowledged s))
| crash_append k delta s d r s' d' :
    deltaFits s delta -> appendDelta (AppendFailed k) delta true s d = (r, s', d') ->
    step (Running s d)
      (Crashed d' (fun st' => acknowledged s st' \/
        exists st, acknowledged s st /\ applyPersistentImageDelta st (stamped s delta) = Ok st'))
| crash_save sio rio live s d r s' d' :
    stateFits s live -> saveAndReset sio rio live s d = (r, s', d') ->
    step (Running s d) (Crashed d' (fun st' => acknowledged s st' \/ st' = stampState s live))
| crash_recovering id d allowed s' st d' :
    openPersistentImageStore id d = Ok (s', st, d') -> step (Crashed d allowed) (Crashed d' allowed)
| step_recover id d allowed s' st d' :
    openPersistentImageStore id d = Ok (s', st, d') -> step (Crashed d allowed) (Running s' d').

(** What recovery finds on the disk of a configuration. *)
Definition recoverable (c : config) : Prop :=
  match c with
  | Running s d => exists st, attached s d st
  | Crashed d allowed => exists slot base stale live t st, holds d slot base stale live t st /\ allowed st
  end.

Lemma stateFits_good s state st : sequence s = Sequence st -> stateFits s state ->
  goodSnapshot (stampState s state) /\ in_width 64 (Sequence st + 1).
Proof.
  intros Hq (He & W & Hl). split; [|by rewrite <- Hq]. split; [done|split; [done|split; [|done]]]. cbn.
  apply wrap_range. lia.
Qed.

Lemma save_crash sio rio live s d st r s' d' :
  attached s d st -> stateFits s live -> saveAndReset sio rio live s d = (r, s', d') ->
  exists slot base stale lv t st', holds d' slot base stale lv t st' /\ (acknowledged s st' \/ st' = stampState s live).
Proof.
  intros A F E. pose proof A as (Hds & Hq & base & stale & lv & H1).
  destruct (stateFits_good _ _ _ Hq F) as [G W]. pose proof (stampState_sequence s live st Hq W) as Es.
  destruct (decide (sio = SaveUnsynced)) as [->|Hio].
  - unfold saveAndReset in E. rewrite save_result in E by done. injection E as <- <- <-.
    rewrite (other_slot _ (holds_slot _ _ _ _ _ _ _ H1)).
    do 6 eexists. split; [|by right]. apply (holds_publish _ _ _ _ _ _ _ _ H1 G). lia.
  - destruct (saveAndReset_attached _ _ _ _ _ _ _ _ _ A G W Hio E) as [(?&?&?&?&?&?)|(?&?&?&?&?&?)];
      do 6 eexists; (split; [eassumption|]); [by left|by right].
Qed.

Lemma open_inv id d slot base stale live t st s' st' d' : holds d slot base stale live t st ->
  openPersistentImageStore id d = Ok (s', st', d') -> attached s' d' st.
Proof.
  intros H1 E. destruct (open_holds id _ _ _ _ _ _ _ H1) as (d2 & E2 & stale' & H2).
  rewrite E2 in E. injection E as <- <- <-. split; [done|]. split; [done|]. by exists base, stale', live.
Qed.

Lemma step_recoverable c c' : step c c' -> recoverable c -> recoverable c'.
Proof.
  intros Hstep. destruct Hstep as [delta s d r s' d' [He W] E|limit sio rio s d r s' d' F Hio E|sio rio live s d r s' d' F Hio E
    |s d|k delta s d r s' d' [He W] E|sio rio live s d r s' d' F E|id d allowed s' st d' E|id d allowed s' st d' E].
  - intros [st A]. pose proof A as (_ & Hq & _). rewrite Hq in W.
    destruct (append_attached _ _ _ _ _ _ _ A He W E) as [(st' & _ & _ & A')|[-> ->]]; by eexists.
  - intros [st A]. pose proof A as (Hds & Hq & _). specialize (F st Hds). unfold maybeCheckpointPersistentLocked in E.
    rewrite Hds in E. destruct (limit <=? 0); [injection E as <- <- <-; by exists st|].
    destruct (wal d) as [file|]; [|injection E as <- <- <-; by exists st].
    destruct (len file <? limit); [injection E as <- <- <-; by exists st|].
    destruct (stateFits_good _ _ _ Hq F) as [G W].
    destruct (saveAndReset_attached _ _ _ _ _ _ _ _ _ A G W Hio E); by eexists.
  - intros [st A]. pose proof A as (_ & Hq & _). destruct (stateFits_good _ _ _ Hq F) as [G W].
    destruct (saveAndReset_attached _ _ _ _ _ _ _ _ _ A G W Hio E); by eexists.
  - intros [st (Hds & _ & base & stale & live & H1)]. by exists (metadataSlot s), base, stale, live, [], st.
  - intros [st A]. pose proof A as (Hds & Hq & _). rewrite Hq in W.
    destruct (append_crash _ _ _ _ _ _ _ _ A He W E) as (slot & base & stale & live & t & st' & H1 & Hor).
    exists slot, base, stale, live, t, st'. split; [done|]. destruct Hor as [->|]; [by left|right; by exists st].
  - intros [st A]. exact (save_crash _ _ _ _ _ _ _ _ _ A F E).
  - intros (slot & base & stale & live & t & st1 & H1 & Hall).
    destruct (open_holds id _ _ _ _ _ _ _ H1) as (d2 & E2 & stale' & H2). rewrite E2 in E. injection E as <- <- <-.
    by exists slot, base, stale', live, [], st1.
  - intros (slot & base & stale & live & t & st1 & H1 & _). exists st1. by eapply open_inv.
Qed.

(** * Initialisation *)

Definition emptyDisk : disk := mkDisk None None None false false.

Definition markInitialized (d : disk) : disk := d <| initialized := true |>.

(** A store opened on an empty directory, checkpointed and marked, as [NewPersistentImageFS] does. *)
Definition initialize (id : bytes) (live : persistentImageState) : result storeError unit * persistentImageStore * disk :=
  match checkpointPersistentLocked AppendDone SaveDone ResetDone None live (mkStore id 0 0 0 None) emptyDisk with
  | (Ok _, s, d) => (Ok tt, s, markInitialized d)
  | r => r
  end.

Lemma attached_marked s d st : attached s d st -> attached s (markInitialized d) st.
Proof.
  intros (Hds & Hq & base & stale & live & []). split; [done|]. split; [done|]. exists base, stale, live. by split.
Qed.

Lemma save_fresh state s d : slot0 d = None -> metadataSlot s = 0 -> goodSnapshot (stampState s state) ->
  Sequence (stampState s state) = sequence s + 1 ->
  forall r s' d', saveAndReset SaveDone ResetDone state s d = (r, s', d') -> attached s' d' (stampState s state).
Proof.
  intros H0s Hm G Hq r s' d'. unfold saveAndReset. rewrite save_result, Hm by done. cbn. intros [= <- <- <-].
  split; [done|]. split; [done|]. exists (stampState s state), [], []. split; try done; cbn.
  - by right.
  - unfold slotBelow, metadataAt. change (Z.land (1 - Z.land (0 + 1) 1) 1 =? 0) with true. cbn [slot0]. by destruct d; cbn in *; subst.
  - constructor.
  - by left.
Qed.

Lemma initialize_attached id live r s d :
  initialize id live = (r, s, d) -> r = Ok tt -> encodable (stampState (mkStore id 1 1 0 None) live) ->
  len (Marshal (stampState (mkStore id 1 1 0 None) live)) <= persistentImageMaxMetadata ->
  attached s d (stampState (mkStore id 1 1 0 None) live).
Proof.
  intros E -> He Hl. unfold initialize, checkpointPersistentLocked in E. rewrite appendDelta_durable in E.
  unfold appendStamped in E.
  destruct (applyPersistentImageDelta _ _) as [st'| |] eqn:Ea; cbn [mbind result_bind] in E; [|done|done].
  destruct (len _ >? _); [done|]. destruct (saveAndReset _ _ _ _ _) as [[[[]| |] s1] d1] eqn:Es; [|done|done].
  injection E as <- <-. apply attached_marked. eapply save_fresh in Es; [exact Es|done|done| |done].
  split; [exact He|]. split; [done|]. split; [|exact Hl]. apply wrap_range. lia.
Qed.

(** C9: Crash recovery.  Start from an initialised store and let durable appends, log
    compactions, full checkpoints, crashes in the middle of any of them (a log record may be
    cut at any byte, a snapshot may or may not have been renamed, the log may or may not have
    been emptied), crashes during recovery and recoveries follow each other in any order.
    Opening the store always succeeds.  On the disk of a running store it finds exactly the
    durable state the store reports; after a crash it finds the acknowledged state or the one
    of the operation that was interrupted. *)
Theorem crash_recovery id live s0 d0 c :
  initialize id live = (Ok tt, s0, d0) ->
  encodable (stampState (mkStore id 1 1 0 None) live) ->
  len (Marshal (stampState (mkStore id 1 1 0 None) live)) <= persistentImageMaxMetadata ->
  rtc step (Running s0 d0) c ->
  forall id', exists s' st d',
    match c with
    | Running s d => openPersistentImageStore id' d = Ok (s', Some st, d') /\ durableState s = Some st
    | Crashed d allowed => openPersistentImageStore id' d = Ok (s', Some st, d') /\ allowed st
    end /\ durableState s' = Some st.
Proof.
  intros Hi He Hl Hr id'.
  assert (Hc : recoverable c).
  { eapply (rtc_preserves step recoverable); [intros ? ? ? ?; by eapply step_recoverable|exact Hr|].
    eexists. by eapply initialize_attached. }
  destruct c as [s d|d allowed].
  - destruct Hc as (st & Hds & _ & base & stale & lv & H1).
    destruct (open_holds id' _ _ _ _ _ _ _ H1) as (d' & E & _). by eexists _, st, d'.
  - destruct Hc as (slot & base & stale & lv & t & st & H1 & Ha).
    destruct (open_holds id' _ _ _ _ _ _ _ H1) as (d' & E & _). by eexists _, st, d'.
Qed.

(** * What is lost after a failure *)

(** Fewer than eight bytes of one record before another: the magic does not match. *)
Lemma misaligned_torn e e' k : 0 < k < 8 -> torn (slice (walRecord e) 0 k ++ walRecord e').
Proof.
  intros Hk. right. intros pre. exists InvalidMagic. unfold readRecord.
  set (x := slice (walRecord e) 0 k ++ walRecord e').
  assert (Hx : 40 <= len x) by (unfold x; rewrite len_app, len_walRecord; pose proof (len_nonneg (Marshal e'));
    pose proof (len_nonneg (slice (walRecord e) 0 k)); lia).
  rewrite len_app, (proj2 (Z.ltb_ge _ _)) by (pose proof (len_nonneg pre); lia). cbv zeta.
  replace (slice (slice (pre ++ x) (len pre) (len pre + 40)) 0 8) with (slice x 0 8).
  2: { pose proof (len_nonneg pre). rewrite slice_slice by lia. rewrite slice_app_r by lia. f_equal; lia. }
  rewrite bool_decide_eq_false_2; [done|]. unfold x.
  assert (k = 1 \/ k = 2 \/ k = 3 \/ k = 4 \/ k = 5 \/ k = 6 \/ k = 7) as Hc by lia.
  by destruct Hc as [->|[->|[->|[->|[->|[->| ->]]]]]].
Qed.

Lemma append_done_inv delta s d s' d' st :
  durableState s = Some st -> appendDelta AppendDone delta true s d = (Ok tt, s', d') ->
  exists st', applyPersistentImageDelta st (stamped s delta) = Ok st' /\ durableState s' = Some st' /\
    len (Marshal (stamped s delta)) <= persistentImageMaxMetadata /\ d' = appendWAL (walRecord (stamped s delta)) d.
Proof.
  intros Hds. rewrite appendDelta_durable. unfold appendStamped.
  replace (durableBase s) with st by (unfold durableBase; by rewrite Hds).
  destruct (applyPersistentImageDelta st (stamped s delta)) as [st'| |]; cbn [mbind result_bind]; [|done|done].
  rewrite Z.gtb_ltb. destruct (Z.ltb_spec persistentImageMaxMetadata (len (Marshal (stamped s delta)))) as [|Hl]; [done|].
  intros [= <- <-]. by exists st'.
Qed.

Lemma append_failed_inv k delta s d s' d' :
  appendDelta (AppendFailed k) delta true s d = (Err WriteFailed, s', d') ->
  s' = s /\ d' = appendWAL (slice (walRecord (stamped s delta)) 0 k) d.
Proof.
  rewrite appendDelta_durable. unfold appendStamped. destruct (_ ← _; _); [|done|done].
  destruct (_ >? _); [done|]. by intros [= <- <-].
Qed.

(** C35: A failed append loses what is acknowledged after it.  When an append fails after
    writing a few bytes (a full disk), the store keeps running and the next append is
    acknowledged with a new durable state; but its record stands behind the torn bytes, and
    opening the store finds the state before it. *)
Theorem failed_append_loses_next k s d st delta1 delta2 s1 d1 s2 d2 :
  attached s d st -> 0 < k < 8 ->
  appendDelta (AppendFailed k) delta1 true s d = (Err WriteFailed, s1, d1) ->
  appendDelta AppendDone delta2 true s1 d1 = (Ok tt, s2, d2) ->
  exists st2, durableState s2 = Some st2 /\ applyPersistentImageDelta st (stamped s delta2) = Ok st2 /\
    forall id, exists s' d', openPersistentImageStore id d2 = Ok (s', Some st, d').
Proof.
  intros (Hds & Hq & base & stale & live & H1) Hk E1 E2. apply append_failed_inv in E1 as [-> ->].
  apply (append_done_inv _ _ _ _ _ st Hds) in E2 as (st2 & Ea & Hds2 & _ & ->).
  exists st2. do 2 (split; [done|]). intros id.
  assert (H2 : holds (appendWAL (walRecord (stamped s delta2)) (appendWAL (slice (walRecord (stamped s delta1)) 0 k) d))
    (metadataSlot s) base stale live (slice (walRecord (stamped s delta1)) 0 k ++ walRecord (stamped s delta2)) st).
  { pose proof (holds_tear _ _ _ _ _ _ _ H1 (misaligned_torn (stamped s delta1) (stamped s delta2) k Hk)) as [].
    split; try done. cbn in *. by rewrite <- app_assoc. }
  destruct (open_holds id _ _ _ _ _ _ _ H2) as (d' & E & _). by eexists _, d'.
Qed.

(** A checkpoint whose directory sync fails loses what is acknowledged after it.  The new
    snapshot is in place with the next sequence number, but the store keeps its old number;
    the next append is acknowledged under the number the snapshot has, and opening the store
    skips it as already included. *)
Theorem unsynced_checkpoint_loses_next rio s d st delta s1 d1 s2 d2 :
  attached s d st -> stateFits s st -> deltaFits s delta ->
  saveAndReset SaveUnsynced rio st s d = (Err WriteFailed, s1, d1) ->
  appendDelta AppendDone delta true s1 d1 = (Ok tt, s2, d2) ->
  exists st2, durableState s2 = Some st2 /\ applyPersistentImageDelta st (stamped s delta) = Ok st2 /\
    forall id, exists s' d', openPersistentImageStore id d2 = Ok (s', Some (stampState s st), d').
Proof.
  intros (Hds & Hq & base & stale & live & H1) F [He W] E1 E2.
  destruct (stateFits_good _ _ _ Hq F) as [G Wst]. pose proof (stampState_sequence s st st Hq Wst) as Es.
  unfold saveAndReset in E1. rewrite save_result in E1 by done. injection E1 as <- <-.
  rewrite (other_slot _ (holds_slot _ _ _ _ _ _ _ H1)) in E2.
  apply (append_done_inv _ _ _ _ _ st Hds) in E2 as (st2 & Ea & Hds2 & Hl & ->).
  exists st2. do 2 (split; [done|]). intros id.
  destruct (stamped_valid s delta st Hq Wst He Hl) as [Hv Esd].
  pose proof (holds_publish _ _ _ _ _ _ _ (stampState s st) H1 G ltac:(lia)) as [Q1 Q2 Q3 Q4 Q5 Q6 Q7 Q8 Q9].
  assert (H2 : holds (appendWAL (walRecord (stamped s delta)) (setMetadata (1 - metadataSlot s) (snapshotFile (stampState s st)) d))
    (1 - metadataSlot s) (stampState s st) ((stale ++ live) ++ [stamped s delta]) [] [] (stampState s st)).
  { split; try done.
    - by rewrite wal_append, Q5, !app_nil_r, (encodeAll_app (stale ++ live)), encodeAll_one.
    - rewrite app_nil_r in *. apply Forall_app. split; [done|]. constructor; [exact Hv|constructor].
    - apply Forall_app. split; [done|]. constructor; [lia|constructor]. }
  destruct (open_holds id _ _ _ _ _ _ _ H2) as (d' & E & _). by eexists _, d'.
Qed.

(** An interrupted first start cannot be repeated.  Initialisation logs a record before it
    writes the first snapshot; if it stops in between, with any byte of the record on disk,
    the store refuses to open. *)
Theorem interrupted_initialization_refused k id id' s d :
  0 < k -> appendDelta (AppendFailed k) None true (mkStore id 0 0 0 None) emptyDisk = (Err WriteFailed, s, d) ->
  openPersistentImageStore id' d = Err SnapshotsMissing.
Proof.
  intros Hk E. apply append_failed_inv in E as [_ ->]. set (e := stamped _ _).
  set (b := slice (walRecord e) 0 k). unfold openPersistentImageStore.
  replace (load (appendWAL b emptyDisk)) with (@Ok storeError (option (persistentImageState * Z)) None) by done.
  cbn [mbind result_bind]. unfold ensureEmptyUninitialized. rewrite wal_append.
  change (initialized (appendWAL b emptyDisk)) with false. change (default [] (wal emptyDisk) ++ b) with b. cbv iota.
  rewrite (proj2 (Z.eqb_neq (len b) 0)); [done|]. unfold b.
  pose proof (len_walRecord e). pose proof (len_nonneg (Marshal e)). rewrite slice_0, len_take. lia.
Qed.
End Store.

(** * A concrete store *)

Section Example.
#[local] Instance json_delta : Json persistentImageDelta := json_serial persistentImageDelta.
#[local] Instance json_state : Json persistentImageState := json_serial persistentImageState.

(** A root directory, and a delta that creates file 2 in it. *)
Definition exampleLive : persistentImageState := emptyState [plainNode 1 1 [] dirKind 0].

Definition exampleDelta : option persistentImageDelta :=
  Some (mkDelta 1 0 3 false [plainNode 2 1 [97] fileKind 5] [] [mkDirentOp 1 [97] 2 true] []).

Definition exampleRun : result storeError unit * persistentImageStore * disk := initialize [] exampleLive.

Definition exampleStore : persistentImageStore := exampleRun.1.2.

Definition exampleDisk : disk := exampleRun.2.

Lemma exampleRun_eq : initialize [] exampleLive = (Ok tt, exampleStore, exampleDisk).
Proof. vm_compute. reflexivity. Qed.

Lemma example_size : len (Marshal (stampState (mkStore [] 1 1 0 None) exampleLive)) <= persistentImageMaxMetadata.
Proof. vm_compute. discriminate. Qed.

Lemma example_attached : attached exampleStore exampleDisk (stampState (mkStore [] 1 1 0 None) exampleLive).
Proof. exact (initialize_attached [] exampleLive _ _ _ exampleRun_eq eq_refl I example_size). Qed.

Lemma example_sequence : sequence exampleStore = 2.
Proof. vm_compute. reflexivity. Qed.

Lemma example_deltaFits : deltaFits exampleStore exampleDelta.
Proof. split; [exact I|]. rewrite example_sequence. width. Qed.

Lemma example_stateFits : stateFits exampleStore (stampState (mkStore [] 1 1 0 None) exampleLive).
Proof. split; [exact I|]. split; [rewrite example_sequence; width|]. vm_compute. discriminate. Qed.

(** The file is created and synced, then a second append is cut after 100 bytes. *)
Lemma crash_recovery_witness :
  exists d s' st d', openPersistentImageStore [] d = Ok (s', Some st, d') /\ durableState s' = Some st.
Proof.
  destruct (appendDelta AppendDone exampleDelta true exampleStore exampleDisk) as [[r1 s1] d1] eqn:E1.
  destruct (appendDelta (AppendFailed 100) exampleDelta true s1 d1) as [[r2 s2] d2] eqn:E2.
  assert (F : deltaFits s1 exampleDelta).
  { split; [exact I|]. replace (sequence s1) with (appendDelta AppendDone exampleDelta true exampleStore exampleDisk).1.2.(sequence) by (by rewrite E1).
    replace (sequence _) with 3 by (vm_compute; reflexivity). width. }
  exists d2. destruct (crash_recovery [] exampleLive exampleStore exampleDisk _ exampleRun_eq I example_size
    (rtc_l _ _ _ _ (step_append exampleDelta _ _ _ _ _ example_deltaFits E1)
      (rtc_once _ _ (crash_append 100 exampleDelta _ _ _ _ _ F E2))) []) as (s' & st & d' & (E & _) & Hs).
  exists s', st, d'. split; [exact E|exact Hs].
Defined.

(** Three bytes of a record were written before the disk was full. *)
Lemma failed_append_loses_next_witness :
  exists d2 s' d', openPersistentImageStore [] d2 = Ok (s', Some (stampState (mkStore [] 1 1 0 None) exampleLive), d').
Proof.
  set (d1 := appendWAL (slice (walRecord (stamped exampleStore exampleDelta)) 0 3) exampleDisk).
  set (r := appendDelta AppendDone exampleDelta true exampleStore d1).
  destruct (failed_append_loses_next 3 exampleStore exampleDisk _ exampleDelta exampleDelta exampleStore d1 r.1.2 r.2
    example_attached ltac:(lia) ltac:(vm_compute; reflexivity) ltac:(vm_compute; reflexivity)) as (st2 & _ & _ & Ho).
  destruct (Ho []) as (s' & d' & E). exists r.2, s', d'. exact E.
Defined.
End Example.
