(* ===== verification/PageStore.v ===== *)
(** The page store of image file systems: [src/internal/core/virtio/fs_image_store.go].

    Pages of 4096 bytes live in a host file and are named by stable tokens ("locations"),
    which are kept in chunks of 256 with the page's file offset and reference count.  Freed
    offsets are reused, the tail of the file is cut, and a file that is mostly holes is
    rewritten.  The outcome of the host's file operations is an argument.
    The lemmas at the end ([held_alloc], [held_retain], [held_release], [held_cow],
    [held_flush]) are the store's promise: whatever happens to offsets, a token names one
    page with the count of its users, and only the operations on that token change it. *)

From stdpp Require Import gmap.
From S2P Require Import Prelude.

Abbreviation imageDataPageSize := 4096%Z.
Abbreviation imageLocationChunkBits := 8%Z.
Abbreviation imageLocationChunkSize := 256%nat.
Abbreviation imageLocationChunkMask := 255%Z.

(** [offsets] holds the file offset plus one, zero for an unused slot. *)
Record imageLocationChunk := mkChunk { offsets : list Z; refs : list Z; live : Z }.
#[export] Instance eta_imageLocationChunk : Eta imageLocationChunk := fun c => mkChunk (offsets c) (refs c) (live c).

(** [free] is the stack of free offsets, its top first. *)
Record imageDataStore := mkPageStore {
  file : option bytes;
  next : Z;
  nextLocation : Z;
  locationChunks : gmap Z imageLocationChunk;
  liveLocations : Z;
  free : list Z;
  freeSet : gset Z;
  pendingReclaim : gset Z;
  current : Z;
  highWater : Z;
  closed : bool;
}.
#[export] Instance eta_imageDataStore : Eta imageDataStore := fun s =>
  mkPageStore (file s) (next s) (nextLocation s) (locationChunks s) (liveLocations s) (free s) (freeSet s)
    (pendingReclaim s) (current s) (highWater s) (closed s).

Inductive pageError := NotExist | Closed | TokensExhausted | RefOverflow | HostError.

(** What the host did: the write was done, no file could be made, or the write stopped after
    some bytes. *)
Inductive hostIO := HostDone | HostNoFile | HostShort (written : Z).

(** A write at an offset, which extends the file with zeros when needed. *)
Definition writeFile (f : bytes) (offset : Z) (data : bytes) : bytes :=
  put (f ++ zeros (offset + len data - len f)) offset data.

(** A file cut, or extended with zeros, to a length. *)
Definition truncateFile (f : bytes) (n : Z) : bytes := slice f 0 n ++ zeros (n - len f).

Definition newImageDataStore : imageDataStore := mkPageStore None 0 0 ∅ 0 [] ∅ ∅ 0 0 false.

Definition imageLocationIndex (location : Z) : Z * Z :=
  (Z.shiftr location imageLocationChunkBits, Z.land location imageLocationChunkMask).

Definition locationEntryLocked (location : Z) (s : imageDataStore) : option (imageLocationChunk * Z) :=
  if location =? 0 then None
  else
    let '(chunkID, slot) := imageLocationIndex location in
    (fun chunk => (chunk, slot)) <$> locationChunks s !! chunkID.

Definition arrayAt (l : list Z) (i : Z) : Z := default 0 (l !! Z.to_nat i).

Definition locationOffsetLocked (location : Z) (s : imageDataStore) : option Z :=
  '(chunk, slot) ← locationEntryLocked location s;
  if arrayAt (offsets chunk) slot =? 0 then None else Some (arrayAt (offsets chunk) slot - 1).

Definition emptyChunk : imageLocationChunk :=
  mkChunk (replicate imageLocationChunkSize 0) (replicate imageLocationChunkSize 0) 0.

(** Store the slot of a location: its encoded offset, its count and the chunk's live count. *)
Definition setSlot (location offset ref lv : Z) (s : imageDataStore) : imageDataStore :=
  let '(chunkID, slot) := imageLocationIndex location in
  let chunk := default emptyChunk (locationChunks s !! chunkID) in
  s <| locationChunks :=
    <[chunkID := mkChunk (<[Z.to_nat slot := offset]> (offsets chunk)) (<[Z.to_nat slot := ref]> (refs chunk)) lv]>
      (locationChunks s) |>.

(** Pop offsets until one is really free. *)
Fixpoint popFree (stack : list Z) (set : gset Z) : option Z * list Z :=
  match stack with
  | [] => (None, [])
  | offset :: stack => if bool_decide (offset ∈ set) then (Some offset, stack) else popFree stack set
  end.

(** The offset of a new page: a free one or the end of the file. *)
Definition takeOffset (s : imageDataStore) : Z * imageDataStore :=
  match popFree (free s) (freeSet s) with
  | (Some offset, stack) =>
      (offset, s <| free := stack |> <| freeSet := freeSet s ∖ {[offset]} |>
                 <| pendingReclaim := pendingReclaim s ∖ {[offset]} |>)
  | (None, stack) => (next s, s <| free := stack |> <| next := wrap 64 (next s + imageDataPageSize) |>)
  end.

Definition allocatePageLocked (io : hostIO) (data : bytes) (s : imageDataStore) : result pageError Z * imageDataStore :=
  if nextLocation s =? 2 ^ 64 - 1 then (Err TokensExhausted, s)
  else if closed s then (Err Closed, s)
  else if match file s, io with None, HostNoFile => true | _, _ => false end then (Err HostError, s)
  else
    let contents := default [] (file s) in
    let '(offset, s) := takeOffset s in
    let page := copy_into (zeros imageDataPageSize) data in
    match io with
    | HostShort written =>
        (Err HostError, s <| file := Some (writeFile contents offset (slice page 0 written)) |>
                          <| free := offset :: free s |> <| freeSet := {[offset]} ∪ freeSet s |>)
    | _ =>
        let location := nextLocation s + 1 in
        let lv := live (default emptyChunk (locationChunks s !! Z.shiftr location imageLocationChunkBits)) in
        (Ok location,
         setSlot location (offset + 1) 1 (lv + 1)
           (s <| file := Some (writeFile contents offset page) |> <| current := current s + imageDataPageSize |>
              <| highWater := Z.max (highWater s) (current s + imageDataPageSize) |> <| nextLocation := location |>
              <| liveLocations := liveLocations s + 1 |>))
    end.

Definition retainPage (location : Z) (s : imageDataStore) : result pageError unit * imageDataStore :=
  match locationEntryLocked location s with
  | None => (Err NotExist, s)
  | Some (chunk, slot) =>
      if arrayAt (refs chunk) slot =? 0 then (Err NotExist, s)
      else if arrayAt (refs chunk) slot =? 2 ^ 32 - 1 then (Err RefOverflow, s)
      else (Ok tt, setSlot location (arrayAt (offsets chunk) slot) (arrayAt (refs chunk) slot + 1) (live chunk) s)
  end.

(** A read of a whole page at an offset; short at the end of the file is an error. *)
Definition readFull (f : bytes) (offset n : Z) : result pageError bytes :=
  if offset + n <=? len f then Ok (slice f offset (offset + n)) else Err HostError.

Definition readPage (location : Z) (n : Z) (s : imageDataStore) : result pageError bytes :=
  match file s with
  | None => Ok (zeros n)
  | Some f =>
      match locationOffsetLocked location s with
      | None => Err NotExist
      | Some offset => readFull f offset n
      end
  end.

Definition writeAtCOW (io : hostIO) (location pageOffset : Z) (data : bytes) (s : imageDataStore)
  : result pageError Z * imageDataStore :=
  match file s, locationOffsetLocked location s, locationEntryLocked location s with
  | Some f, Some offset, Some (chunk, slot) =>
      if arrayAt (refs chunk) slot =? 0 then (Err NotExist, s)
      else if arrayAt (refs chunk) slot =? 1 then
        match io with
        | HostShort written => (Err HostError, s <| file := Some (writeFile f (offset + pageOffset) (slice data 0 written)) |>)
        | _ => (Ok location, s <| file := Some (writeFile f (offset + pageOffset) data) |>)
        end
      else
        match readFull f offset imageDataPageSize with
        | Ok page =>
            match allocatePageLocked io (put page pageOffset data) s with
            | (Ok newLocation, s) =>
                let chunk := default emptyChunk (locationChunks s !! Z.shiftr location imageLocationChunkBits) in
                (Ok newLocation, setSlot location (arrayAt (offsets chunk) slot) (arrayAt (refs chunk) slot - 1) (live chunk) s)
            | r => r
            end
        | Err e => (Err e, s)
        | Panic => (Panic, s)
        end
  | _, _, _ => (Err NotExist, s)
  end.

Definition releasePage (location : Z) (s : imageDataStore) : imageDataStore :=
  if closed s then s
  else
    match locationOffsetLocked location s, locationEntryLocked location s with
    | Some offset, Some (chunk, slot) =>
        if 1 <? arrayAt (refs chunk) slot
        then setSlot location (arrayAt (offsets chunk) slot) (arrayAt (refs chunk) slot - 1) (live chunk) s
        else
          let s := setSlot location 0 0 (live chunk - 1) s in
          let s := s <| liveLocations := liveLocations s - 1 |> in
          let s := if live chunk - 1 =? 0
                   then s <| locationChunks := delete (Z.shiftr location imageLocationChunkBits) (locationChunks s) |> else s in
          s <| free := offset :: free s |> <| freeSet := {[offset]} ∪ freeSet s |>
            <| pendingReclaim := {[offset]} ∪ pendingReclaim s |>
            <| current := if imageDataPageSize <=? current s then current s - imageDataPageSize else current s |>
    | _, _ => s
    end.

(** * Reclaiming space *)

(** Cut free pages off the end: the new end and free set. *)
Fixpoint cutTail (fuel : nat) (n : Z) (set : gset Z) : Z * gset Z :=
  match fuel with
  | O => (n, set)
  | S fuel =>
      if (imageDataPageSize <=? n) && bool_decide (n - imageDataPageSize ∈ set)
      then cutTail fuel (n - imageDataPageSize) (set ∖ {[n - imageDataPageSize]})
      else (n, set)
  end.

(** Extend a run that ends at [stop] over the adjacent offsets that follow. *)
Fixpoint extendRun (limit stop : Z) (offs : list Z) : Z * list Z :=
  match offs with
  | offset :: rest =>
      if (offset =? stop) && (stop <? limit) then extendRun limit (stop + imageDataPageSize) rest else (stop, offs)
  | [] => (stop, [])
  end.

Inductive reclaimOutcome := Reclaimed | RangeUnsupported | RangeError.

Section Reclaim.
(** Deallocation of a range of the host file: the file after it. *)
Context (reclaimFileRange : bytes -> Z -> Z -> bytes * reclaimOutcome).

(** Deallocate the runs of the sorted free offsets below [limit]. *)
Fixpoint punchRuns (fuel : nat) (limit : Z) (offs : list Z) (f : bytes) : bytes :=
  match fuel, offs with
  | S fuel, start :: rest =>
      if limit <=? start then punchRuns fuel limit rest f
      else
        let '(stop, rest) := extendRun limit (start + imageDataPageSize) rest in
        let '(f, outcome) := reclaimFileRange f start (stop - start) in
        match outcome with
        | RangeUnsupported => f
        | _ => punchRuns fuel limit rest f
        end
  | _, _ => f
  end.

Definition shouldCompactPortableImageStore (lv allocated : Z) : bool :=
  if (allocated <? 4 * 2 ^ 20) || (allocated <=? lv) then false
  else (lv + 1) / 2 <=? allocated - lv.

(** Copy the live pages of a chunk behind [acc]: the new encoded offsets and the file so far. *)
Fixpoint compactSlots (old : bytes) (slots : list Z) (acc : bytes) : result pageError (list Z * bytes) :=
  match slots with
  | [] => Ok ([], acc)
  | encoded :: slots =>
      if encoded =? 0 then
        '(slots, acc) ← compactSlots old slots acc;
        Ok (0 :: slots, acc)
      else
        page ← readFull old (encoded - 1) imageDataPageSize;
        '(slots, acc') ← compactSlots old slots (acc ++ page);
        Ok ((len acc + 1) :: slots, acc')
  end.

Fixpoint compactChunks (old : bytes) (chunks : list (Z * imageLocationChunk)) (acc : bytes)
  : result pageError (list (Z * imageLocationChunk) * bytes) :=
  match chunks with
  | [] => Ok ([], acc)
  | (id, chunk) :: chunks =>
      '(slots, acc) ← compactSlots old (offsets chunk) acc;
      '(chunks, acc) ← compactChunks old chunks acc;
      Ok ((id, chunk <| offsets := slots |>) :: chunks, acc)
  end.

(** [copied]: the host created the new file and took every page. *)
Definition compactLocked (copied : bool) (s : imageDataStore) : result pageError unit * imageDataStore :=
  match file s with
  | None => (Ok tt, s)
  | Some f =>
      if liveLocations s =? 0 then (Ok tt, s)
      else
        match compactChunks f (map_to_list (locationChunks s)) [] with
        | Ok (chunks, f') =>
            if copied
            then (Ok tt, s <| file := Some f' |> <| next := len f' |> <| locationChunks := list_to_map chunks |>
                           <| free := [] |> <| freeSet := ∅ |> <| pendingReclaim := ∅ |>)
            else (Err HostError, s)
        | Err e => (Err e, s)
        | Panic => (Panic, s)
        end
  end.

(** Rebuild the stack from the set; when that is done depends on how far it has shrunk. *)
Definition compactMetadataLocked (rebuild : bool) (s : imageDataStore) : imageDataStore :=
  if rebuild then s <| free := elements (freeSet s) |> else s.

(** [truncated]: the host cut the file to its new length. *)
Definition flushReclaimLocked (truncated copied rebuild : bool) (s : imageDataStore) : imageDataStore :=
  match file s with
  | None => s
  | Some f =>
      if bool_decide (pendingReclaim s = ∅) then s
      else
        let offs := merge_sort Z.le (elements (filter (fun offset => offset ∈ freeSet s) (pendingReclaim s))) in
        let '(n, set) := cutTail (size (freeSet s)) (next s) (freeSet s) in
        let f := if negb (n =? next s) && truncated then truncateFile f n else f in
        let f := punchRuns (length offs) n offs f in
        let s := s <| file := Some f |> <| next := n |> <| freeSet := set |> <| pendingReclaim := ∅ |> in
        let s := if shouldCompactPortableImageStore (current s) (next s) then (compactLocked copied s).2 else s in
        compactMetadataLocked rebuild s
  end.
End Reclaim.

(** * Tokens and their pages *)

(** The file offset and count of a live token. *)
Definition entry (s : imageDataStore) (location : Z) : option (Z * Z) :=
  '(chunk, slot) ← locationEntryLocked location s;
  if arrayAt (offsets chunk) slot =? 0 then None
  else Some (arrayAt (offsets chunk) slot - 1, arrayAt (refs chunk) slot).

Definition contents (s : imageDataStore) : bytes := default [] (file s).

(** The page and count of a live token. *)
Definition pageOf (s : imageDataStore) (location : Z) : option (bytes * Z) :=
  '(offset, ref) ← entry s location; Some (slice (contents s) offset (offset + 4096), ref).

Definition used (l : list Z) : Z := len (filter (fun o => o <> 0) l).

Record chunkOK (c : imageLocationChunk) : Prop := {
  chunk_offsets : length (offsets c) = 256%nat;
  chunk_refs : length (refs c) = 256%nat;
  chunk_live : live c = used (offsets c);
  chunk_unused i : 0 <= i -> arrayAt (offsets c) i = 0 -> arrayAt (refs c) i = 0;
  chunk_nonneg i : 0 <= i -> 0 <= arrayAt (offsets c) i;
}.

Definition aligned (s : imageDataStore) (offset : Z) : Prop :=
  offset mod 4096 = 0 /\ 0 <= offset /\ offset + 4096 <= next s.

Record storeOK (s : imageDataStore) : Prop := {
  ok_chunks : map_Forall (fun _ => chunkOK) (locationChunks s);
  ok_entry location offset ref : entry s location = Some (offset, ref) ->
    0 < location <= nextLocation s /\ aligned s offset /\ offset + 4096 <= len (contents s) /\
    1 <= ref < 2 ^ 32 /\ offset ∉ freeSet s;
  ok_distinct l1 l2 o r1 r2 : entry s l1 = Some (o, r1) -> entry s l2 = Some (o, r2) -> l1 = l2;
  ok_free offset : offset ∈ freeSet s -> aligned s offset;
  ok_next : (next s) mod 4096 = 0 /\ 0 <= next s;
  ok_location : 0 <= nextLocation s < 2 ^ 64;
}.

Lemma index_inj a b : imageLocationIndex a = imageLocationIndex b -> a = b.
Proof.
  unfold imageLocationIndex. intros [= E1 E2]. rewrite !Z.shiftr_div_pow2 in E1 by lia.
  change 255 with (Z.ones 8) in E2. rewrite !Z.land_ones in E2 by lia. change (2 ^ 8) with 256 in *. dlia.
Qed.

Lemma slot_range a : 0 <= Z.land a 255 < 256.
Proof. change 255 with (Z.ones 8). rewrite Z.land_ones by lia. apply Z.mod_pos_bound. done. Qed.

Lemma arrayAt_insert l i j v : 0 <= i < Z.of_nat (length l) -> 0 <= j ->
  arrayAt (<[Z.to_nat i := v]> l) j = if decide (j = i) then v else arrayAt l j.
Proof.
  intros Hi Hj. unfold arrayAt. destruct (decide (j = i)) as [->|Hij].
  - rewrite list_lookup_insert_eq by lia. done.
  - by rewrite list_lookup_insert_ne by lia.
Qed.

Lemma arrayAt_empty i : arrayAt (replicate 256 0) i = 0.
Proof.
  unfold arrayAt. destruct (replicate 256 0 !! Z.to_nat i) as [z|] eqn:E; [|done].
  by apply lookup_replicate_1 in E as [-> _].
Qed.

Lemma emptyChunk_ok : chunkOK emptyChunk.
Proof. split; try done. intros i _. cbn [offsets emptyChunk]. by rewrite arrayAt_empty. Qed.

Lemma used_insert l i v : (i < length l)%nat ->
  used (<[i := v]> l) = used l - (if decide (default 0 (l !! i) = 0) then 0 else 1) + (if decide (v = 0) then 0 else 1).
Proof.
  revert i. induction l as [|x l IH]; intros [|i] Hi; cbn in Hi; try lia; unfold used in *.
  - change (<[0%nat := v]> (x :: l)) with (v :: l). change ((x :: l) !! 0%nat) with (Some x). cbn [default from_option].
    rewrite !filter_cons. repeat case_decide; rewrite ?len_cons; unfold id in *; try lia; naive_solver lia.
  - change (<[S i := v]> (x :: l)) with (x :: <[i := v]> l). change ((x :: l) !! S i) with (l !! i).
    rewrite !filter_cons. specialize (IH i ltac:(lia)). destruct (decide (x <> 0)); rewrite ?len_cons; lia.
Qed.

(** The chunk and slot of a location, as [setSlot] finds them. *)
Definition chunkOf (s : imageDataStore) (location : Z) : imageLocationChunk :=
  default emptyChunk (locationChunks s !! Z.shiftr location 8).

Lemma chunkOf_ok s location : storeOK s -> chunkOK (chunkOf s location).
Proof.
  intros H. unfold chunkOf. destruct (locationChunks s !! _) as [c|] eqn:E; cbn; [|apply emptyChunk_ok].
  exact (ok_chunks s H _ _ E).
Qed.

Lemma entry_chunkOf s location : entry s location =
  if decide (location = 0) then None
  else if decide (arrayAt (offsets (chunkOf s location)) (Z.land location 255) = 0) then None
  else Some (arrayAt (offsets (chunkOf s location)) (Z.land location 255) - 1,
             arrayAt (refs (chunkOf s location)) (Z.land location 255)).
Proof.
  unfold entry, locationEntryLocked, imageLocationIndex, chunkOf. destruct (Z.eqb_spec location 0); case_decide; try done.
  destruct (locationChunks s !! _) as [c|]; cbn.
  - destruct (Z.eqb_spec (arrayAt (offsets c) (Z.land location 255)) 0); case_decide; done.
  - case_decide as E; [done|]. by rewrite arrayAt_empty in E.
Qed.

Lemma setSlot_entry s location o r lv location' : chunkOK (chunkOf s location) ->
  entry (setSlot location o r lv s) location' =
  if decide (location' = location) then if decide (location = 0 \/ o = 0) then None else Some (o - 1, r)
  else entry s location'.
Proof.
  intros Hc. rewrite !entry_chunkOf. pose proof (slot_range location) as Hr.
  destruct (decide (location' = 0)) as [->|H0].
  { repeat case_decide; try done; naive_solver. }
  assert (E : chunkOf (setSlot location o r lv s) location' =
    if decide (Z.shiftr location' 8 = Z.shiftr location 8)
    then mkChunk (<[Z.to_nat (Z.land location 255) := o]> (offsets (chunkOf s location)))
                 (<[Z.to_nat (Z.land location 255) := r]> (refs (chunkOf s location))) lv
    else chunkOf s location').
  { unfold chunkOf at 1. cbn. case_decide as Es; [by rewrite Es, lookup_insert_eq|by rewrite lookup_insert_ne]. }
  rewrite E. clear E. destruct (decide (Z.shiftr location' 8 = Z.shiftr location 8)) as [Es|Es].
  2: { rewrite (decide_False (P := location' = location)) by congruence. done. }
  pose proof (slot_range location') as Hr'. cbn [offsets refs].
  rewrite !arrayAt_insert by (rewrite ?(chunk_offsets _ Hc), ?(chunk_refs _ Hc); lia).
  replace (chunkOf s location') with (chunkOf s location) by (unfold chunkOf; by rewrite Es).
  destruct (decide (location' = location)) as [->|Hne].
  - rewrite !(decide_True (P := Z.land location 255 = Z.land location 255)) by done. repeat case_decide; naive_solver.
  - assert (Hs : Z.land location' 255 <> Z.land location 255).
    { intros El. apply Hne, index_inj. unfold imageLocationIndex. congruence. }
    by rewrite !(decide_False (P := Z.land location' 255 = Z.land location 255)) by done.
Qed.

(** * The host file *)

Lemma len_writeFile f off d : 0 <= off -> len (writeFile f off d) = Z.max (len f) (off + len d).
Proof.
  intros H. unfold writeFile. rewrite len_put, len_app. pose proof (len_nonneg d). pose proof (len_nonneg f).
  destruct (Z.le_gt_cases 0 (off + len d - len f)).
  - rewrite len_zeros by done. lia.
  - unfold zeros. replace (Z.to_nat _) with 0%nat by lia. cbn [replicate]. rewrite len_nil. lia.
Qed.

Lemma writeFile_same f off d : 0 <= off -> slice (writeFile f off d) off (off + len d) = d.
Proof.
  intros H. pose proof (len_writeFile f off d H) as L. unfold writeFile in L |- *. rewrite len_put in L.
  apply slice_put_same; lia.
Qed.

Lemma writeFile_other f off d a b : 0 <= off -> 0 <= a -> b <= len f -> b <= off \/ off + len d <= a ->
  slice (writeFile f off d) a b = slice f a b.
Proof.
  intros H Ha Hb Ho. unfold writeFile. rewrite slice_put_out by lia. by rewrite slice_app_l by lia.
Qed.

Lemma slice_truncateFile f n a b : 0 <= a -> b <= n -> b <= len f -> slice (truncateFile f n) a b = slice f a b.
Proof.
  intros Ha Hb Hf. unfold truncateFile. pose proof (len_nonneg f).
  destruct (Z.le_gt_cases b 0); [by rewrite !slice_empty by lia|].
  rewrite slice_app_l by (rewrite ?slice_0, ?len_take; lia). unfold slice at 2. list_ext.
Qed.

Lemma len_truncateFile f n : 0 <= n -> len (truncateFile f n) = n.
Proof.
  intros H. unfold truncateFile. rewrite len_app, slice_0, len_take. pose proof (len_nonneg f).
  destruct (Z.le_gt_cases 0 (n - len f)); [rewrite len_zeros by lia; lia|].
  unfold zeros. replace (Z.to_nat (n - len f)) with 0%nat by lia. cbn [replicate]. rewrite len_nil. lia.
Qed.

(** * Allocation *)

Lemma popFree_spec stack set :
  match popFree stack set with
  | (Some o, _) => o ∈ set
  | (None, _) => True
  end.
Proof. induction stack as [|o stack IH]; cbn; [done|]. by case_bool_decide. Qed.

Lemma entry_ext s s' location : locationChunks s' = locationChunks s -> entry s' location = entry s location.
Proof. intros E. unfold entry, locationEntryLocked. by rewrite E. Qed.

(** Two offsets of pages that differ are a page apart. *)
Lemma pages_apart a b : a mod 4096 = 0 -> b mod 4096 = 0 -> a <> b -> a + 4096 <= b \/ b + 4096 <= a.
Proof. dlia. Qed.

Lemma takeOffset_spec s offset s1 : storeOK s -> next s < 2 ^ 63 -> takeOffset s = (offset, s1) ->
  aligned s1 offset /\ (offset ∉ freeSet s1) /\ next s <= next s1 /\
  (next s1) mod 4096 = 0 /\ freeSet s1 = (freeSet s ∖ {[offset]}) /\ locationChunks s1 = locationChunks s /\ file s1 = file s /\
  nextLocation s1 = nextLocation s /\ closed s1 = closed s /\
  (forall location o r, entry s location = Some (o, r) -> o <> offset).
Proof.
  intros H Hn. unfold takeOffset. pose proof (popFree_spec (free s) (freeSet s)) as Hp. destruct (ok_next s H) as [N1 N2].
  destruct (popFree (free s) (freeSet s)) as [[o|] stack]; intros [= <- <-]; cbn.
  - destruct (ok_free s H o Hp) as (A1 & A2 & A3). split_and!; try done; [set_solver|].
    intros l o' r E ->. by destruct (ok_entry s H _ _ _ E) as (_ & _ & _ & _ & F).
  - assert (Hf : next s ∉ freeSet s) by (intros F; destruct (ok_free s H _ F) as (_ & _ & A); lia).
    rewrite wrap_small by width. split; [by repeat split; cbn; lia|]. split; [done|]. split; [lia|]. split; [dlia|].
    split; [set_solver|]. do 4 (split; [done|]).
    intros l o' r E ->. destruct (ok_entry s H _ _ _ E) as (_ & (_ & _ & A) & _). lia.
Qed.

Lemma setSlot_chunks s location o r lv :
  map_Forall (fun _ => chunkOK) (locationChunks s) -> 0 <= o -> (o = 0 -> r = 0) ->
  lv = live (chunkOf s location) - (if decide (arrayAt (offsets (chunkOf s location)) (Z.land location 255) = 0) then 0 else 1)
       + (if decide (o = 0) then 0 else 1) ->
  map_Forall (fun _ => chunkOK) (locationChunks (setSlot location o r lv s)).
Proof.
  intros Hs Ho0 Ho Hl. assert (Hc : chunkOK (chunkOf s location)).
  { unfold chunkOf. destruct (locationChunks s !! _) as [c|] eqn:E; cbn; [by eapply Hs|apply emptyChunk_ok]. }
  unfold setSlot. cbn. apply map_Forall_insert_2; [|done]. fold (chunkOf s location).
  pose proof (slot_range location) as Hr. destruct Hc as [C1 C2 C3 C4 C5]. split; cbn [offsets refs live].
  - by rewrite length_insert.
  - by rewrite length_insert.
  - rewrite Hl, C3, used_insert by lia. done.
  - intros i Hi. rewrite !arrayAt_insert by lia. destruct (decide (i = Z.land location 255)); [exact Ho|by apply C4].
  - intros i Hi. rewrite arrayAt_insert by lia. destruct (decide (i = Z.land location 255)); [exact Ho0|by apply C5].
Qed.

(** Writing a free page leaves the pages of all tokens. *)
Lemma pageOf_write s s' offset d location :
  storeOK s -> 0 <= offset -> offset mod 4096 = 0 -> len d <= 4096 ->
  (forall location o r, entry s location = Some (o, r) -> o <> offset) ->
  file s' = Some (writeFile (contents s) offset d) -> entry s' location = entry s location ->
  pageOf s' location = pageOf s location.
Proof.
  intros H Ho Ha Hd Hf Ef Ee. unfold pageOf. rewrite Ee. destruct (entry s location) as [[o r]|] eqn:E; [|done]. cbn.
  destruct (ok_entry s H _ _ _ E) as (_ & (A1 & A2 & _) & A3 & _ & _). specialize (Hf _ _ _ E).
  unfold contents at 1. rewrite Ef. cbn. destruct (pages_apart o offset A1 Ha Hf); rewrite writeFile_other by lia; done.
Qed.

Definition padded (data : bytes) : bytes := copy_into (zeros 4096) data.

Lemma len_padded data : len (padded data) = 4096.
Proof. unfold padded. by rewrite len_copy_into. Qed.

Lemma entry_fresh s location : storeOK s -> nextLocation s < location -> entry s location = None.
Proof.
  intros H Hl. destruct (entry s location) as [[o r]|] eqn:E; [|done].
  destruct (ok_entry s H _ _ _ E) as ([_ L] & _). lia.
Qed.

(** The store with a page written where no token points, its tables otherwise as they were. *)
Lemma storeOK_scratch s s' offset d :
  storeOK s -> 0 <= offset -> offset mod 4096 = 0 -> len d <= 4096 ->
  (forall location o r, entry s location = Some (o, r) -> o <> offset) ->
  file s' = Some (writeFile (contents s) offset d) -> locationChunks s' = locationChunks s ->
  nextLocation s' = nextLocation s -> next s <= next s' -> (next s') mod 4096 = 0 -> aligned s' offset ->
  freeSet s' ⊆ {[offset]} ∪ freeSet s ->
  storeOK s' /\ (forall l, pageOf s' l = pageOf s l) /\ (forall l, entry s' l = entry s l).
Proof.
  intros H Ho Ha Hd Hne Ef Ec El En En2 Al Es.
  assert (He : forall l, entry s' l = entry s l) by (intros l; by apply entry_ext).
  split; [|split; [intros l; by eapply pageOf_write|done]]. split.
  - rewrite Ec. apply H.
  - intros l o r E. rewrite He in E. destruct (ok_entry s H _ _ _ E) as (L & (B1 & B2 & B3) & B4 & B5 & B6).
    rewrite El. split; [done|]. split; [by split_and!; [..|lia]|]. split.
    { unfold contents at 1. rewrite Ef. cbn. rewrite len_writeFile by done. lia. }
    split; [done|]. specialize (Hne _ _ _ E). set_solver.
  - intros l1 l2 o r1 r2. rewrite !He. apply (ok_distinct s H).
  - intros o Hin. apply Es, elem_of_union in Hin as [->%elem_of_singleton|Hin]; [done|].
    destruct (ok_free s H o Hin) as (B1 & B2 & B3). split_and!; [done|done|lia].
  - destruct (ok_next s H). split; [done|lia].
  - rewrite El. apply H.
Qed.

(** A new token for a page that was just written. *)
Lemma storeOK_token s s1 location offset :
  storeOK s -> nextLocation s < location < 2 ^ 64 -> nextLocation s1 = location ->
  locationChunks s1 = locationChunks s -> file s1 = file s -> next s1 = next s -> freeSet s1 ⊆ freeSet s ->
  offset ∉ freeSet s1 -> aligned s offset -> offset + 4096 <= len (contents s) ->
  (forall l o r, entry s l = Some (o, r) -> o <> offset) ->
  let s' := setSlot location (offset + 1) 1 (live (chunkOf s location) + 1) s1 in
  storeOK s' /\ pageOf s' location = Some (slice (contents s) offset (offset + 4096), 1) /\
  (forall l, l <> location -> pageOf s' l = pageOf s l) /\ (forall l, l <> location -> entry s' l = entry s l).
Proof.
  intros H Hl El Ec Ef En Es Hf Al Hc Hne s'. pose proof (ok_location s H) as OL.
  assert (Eco : chunkOf s1 location = chunkOf s location) by (unfold chunkOf; by rewrite Ec).
  pose proof (entry_fresh s location H ltac:(lia)) as Hfresh.
  assert (He : forall l, entry s' l = if decide (l = location) then Some (offset, 1) else entry s l).
  { intros l. unfold s'. rewrite setSlot_entry by (rewrite Eco; by apply chunkOf_ok).
    case_decide; [|by apply entry_ext]. destruct Al as (_ & ? & _). rewrite decide_False by lia. do 2 f_equal. lia. }
  assert (Efs : contents s' = contents s) by (unfold contents, s', setSlot; cbn; by rewrite Ef).
  split; [|split_and!].
  - split.
    + apply setSlot_chunks; [rewrite Ec; apply H|destruct Al; lia|destruct Al; lia|]. rewrite Eco. rewrite entry_chunkOf in Hfresh.
      destruct (decide (location = 0)); [lia|]. destruct Al as (_ & ? & _). rewrite (decide_False (P := offset + 1 = 0)) by lia.
      case_decide; [lia|done].
    + intros l o r. rewrite He, Efs. case_decide as Hd.
      * intros [= <- <-]. subst l. cbn. rewrite El. unfold aligned. cbn. rewrite En. split; [lia|]. split; [done|].
        split; [done|]. split; [lia|done].
      * intros E. destruct (ok_entry s H _ _ _ E) as (L & B1 & B4 & B5 & B6). unfold aligned in *. cbn. rewrite El, En.
        split; [lia|]. split; [done|]. split; [done|]. split; [done|]. set_solver.
    + intros l1 l2 o r1 r2. rewrite !He. repeat case_decide; subst; try done.
      * intros [= <- <-] E. by apply Hne in E.
      * intros E [= -> <-]. by apply Hne in E.
      * apply (ok_distinct s H).
    + intros o Hin. unfold aligned. cbn in *. rewrite En. apply (ok_free s H). set_solver.
    + cbn. rewrite En. apply H.
    + cbn. lia.
  - unfold pageOf. rewrite He, decide_True, Efs by done. done.
  - intros l Hne'. unfold pageOf. by rewrite He, decide_False, Efs by done.
  - intros l Hne'. by rewrite He, decide_False by done.
Qed.

Lemma alloc_spec io data s : storeOK s -> next s < 2 ^ 63 ->
  match allocatePageLocked io data s with
  | (Ok location, s') =>
      storeOK s' /\ location = nextLocation s + 1 /\ pageOf s' location = Some (padded data, 1) /\
      (forall l, l <> location -> pageOf s' l = pageOf s l) /\ (forall l, l <> location -> entry s' l = entry s l)
  | (Err _, s') => storeOK s' /\ (forall l, pageOf s' l = pageOf s l) /\ (forall l, entry s' l = entry s l)
  | (Panic, _) => False
  end.
Proof.
  intros H Hn. unfold allocatePageLocked. destruct (nextLocation s =? 2 ^ 64 - 1) eqn:Et; [done|]. apply Z.eqb_neq in Et.
  destruct (closed s); [done|]. destruct (match file s with Some _ => false | None => _ end); [done|].
  destruct (takeOffset s) as [offset s1] eqn:Eo.
  destruct (takeOffset_spec s offset s1 H Hn Eo) as (Al & F1 & N1 & N2 & Fs & C & Fl & L & _ & Hne).
  pose proof Al as (A1 & A2 & A3). fold (contents s). fold (padded data).
  assert (Hdone : let '(location, s') := (nextLocation s1 + 1,
    setSlot (nextLocation s1 + 1) (offset + 1) 1 (live (chunkOf s1 (nextLocation s1 + 1)) + 1)
     (s1 <| file := Some (writeFile (contents s) offset (padded data)) |> <| current := current s1 + 4096 |>
         <| highWater := Z.max (highWater s1) (current s1 + 4096) |> <| nextLocation := nextLocation s1 + 1 |>
         <| liveLocations := liveLocations s1 + 1 |>)) in
    storeOK s' /\ location = nextLocation s + 1 /\ pageOf s' location = Some (padded data, 1) /\
    (forall l, l <> location -> pageOf s' l = pageOf s l) /\ (forall l, l <> location -> entry s' l = entry s l)).
  { set (s2 := s1 <| file := Some (writeFile (contents s) offset (padded data)) |>).
    destruct (storeOK_scratch s s2 offset (padded data)) as (K & P & E); try done; [by rewrite len_padded|cbn; set_solver|].
    pose proof (ok_location s H). cbn. rewrite L.
    destruct (storeOK_token s2 (s2 <| current := current s1 + 4096 |>
      <| highWater := Z.max (highWater s1) (current s1 + 4096) |> <| nextLocation := nextLocation s1 + 1 |>
      <| liveLocations := liveLocations s1 + 1 |>) (nextLocation s1 + 1) offset) as (K' & P1 & P2 & P3); try done.
    - cbn. lia.
    - unfold contents, s2. cbn. rewrite len_writeFile, len_padded by done. lia.
    - intros l o r. rewrite E. apply Hne.
    - rewrite L in *. split; [exact K'|]. split; [done|]. split.
      { etransitivity; [exact P1|]. change (contents s2) with (writeFile (contents s) offset (padded data)).
        replace (offset + 4096) with (offset + len (padded data)) by (rewrite len_padded; lia).
        by rewrite (writeFile_same (contents s) offset (padded data) A2). }
      split; intros l Hl; [by etransitivity; [apply P2|]|by etransitivity; [apply P3|]]. }
  destruct io; [exact Hdone|exact Hdone|].
  eapply (storeOK_scratch s); try done; [|cbn; rewrite Fs; set_solver].
  rewrite slice_0, len_take, len_padded. lia.
Qed.

(** * Counting references *)

Lemma entry_lookup s location o r : entry s location = Some (o, r) ->
  location <> 0 /\ locationEntryLocked location s = Some (chunkOf s location, Z.land location 255) /\
  arrayAt (offsets (chunkOf s location)) (Z.land location 255) = o + 1 /\ o + 1 <> 0 /\
  arrayAt (refs (chunkOf s location)) (Z.land location 255) = r /\ locationOffsetLocked location s = Some o.
Proof.
  unfold entry, locationOffsetLocked, locationEntryLocked, imageLocationIndex, chunkOf.
  destruct (Z.eqb_spec location 0); [done|].
  destruct (locationChunks s !! _) as [c|]; cbn; [|done].
  destruct (Z.eqb_spec (arrayAt (offsets c) (Z.land location 255)) 0); [done|].
  intros [= <- <-]. split_and!; try done; lia.
Qed.

Lemma entry_absent s location : storeOK s -> entry s location = None ->
  locationOffsetLocked location s = None /\
  match locationEntryLocked location s with Some (c, slot) => arrayAt (refs c) slot = 0 | None => True end.
Proof.
  intros H. unfold entry, locationOffsetLocked, locationEntryLocked, imageLocationIndex.
  destruct (Z.eqb_spec location 0); [done|].
  destruct (locationChunks s !! _) as [c|] eqn:E; cbn; [|done].
  destruct (Z.eqb_spec (arrayAt (offsets c) (Z.land location 255)) 0) as [Ez|]; [|done]. intros _. split; [done|].
  exact (chunk_unused c (ok_chunks s H _ _ E) _ (proj1 (slot_range location)) Ez).
Qed.

Lemma pageOf_entry s location page r : pageOf s location = Some (page, r) ->
  exists o, entry s location = Some (o, r) /\ page = slice (contents s) o (o + 4096).
Proof.
  unfold pageOf. destruct (entry s location) as [[o r']|]; [|done]. cbn. intros [= <- <-]. by exists o.
Qed.

(** The count of a live token set to another positive number. *)
Lemma storeOK_recount s location o r0 r :
  storeOK s -> entry s location = Some (o, r0) -> 1 <= r < 2 ^ 32 ->
  let s' := setSlot location (arrayAt (offsets (chunkOf s location)) (Z.land location 255)) r (live (chunkOf s location)) s in
  storeOK s' /\ (forall l, entry s' l = if decide (l = location) then Some (o, r) else entry s l) /\
  (forall l, l <> location -> pageOf s' l = pageOf s l) /\
  pageOf s' location = Some (slice (contents s) o (o + 4096), r).
Proof.
  intros H E Hr s'. destruct (entry_lookup _ _ _ _ E) as (L0 & _ & Eo & Eo0 & _ & _).
  assert (He : forall l, entry s' l = if decide (l = location) then Some (o, r) else entry s l).
  { intros l. unfold s'. rewrite setSlot_entry by by apply chunkOf_ok. case_decide; [|done].
    rewrite Eo, decide_False by lia. do 2 f_equal. lia. }
  split; [|split; [done|split; [intros l Hl; unfold pageOf; by rewrite He, decide_False by done|
    unfold pageOf; by rewrite He, decide_True by done]]].
  split.
  - destruct (ok_entry s H _ _ _ E) as (_ & (_ & A & _) & _).
    apply setSlot_chunks; [apply H|rewrite Eo; lia|rewrite Eo; lia|]. rewrite Eo, !decide_False by lia. lia.
  - intros l o' r'. rewrite He. case_decide as Hd; [|apply (ok_entry s H)]. intros [= <- <-]. subst l.
    destruct (ok_entry s H _ _ _ E) as (B1 & B2 & B3 & B4 & B5). exact (conj B1 (conj B2 (conj B3 (conj Hr B5)))).
  - intros l1 l2 o' r1 r2. rewrite !He. repeat case_decide; subst; try done.
    + intros [= <- <-] E2. by apply (ok_distinct s H _ _ _ _ _ E E2).
    + intros E2 [= -> <-]. by apply (ok_distinct s H _ _ _ _ _ E2 E).
    + apply (ok_distinct s H).
  - apply (ok_free s H).
  - apply (ok_next s H).
  - apply (ok_location s H).
Qed.

Lemma retain_spec location s : storeOK s ->
  match retainPage location s with
  | (Ok _, s') =>
      storeOK s' /\ (forall l, l <> location -> pageOf s' l = pageOf s l) /\
      exists page r, pageOf s location = Some (page, r) /\ pageOf s' location = Some (page, r + 1)
  | (Err _, s') => s' = s /\ (pageOf s location = None \/ exists page, pageOf s location = Some (page, 2 ^ 32 - 1))
  | (Panic, _) => False
  end.
Proof.
  intros H. unfold retainPage, pageOf. destruct (entry s location) as [[o r]|] eqn:E.
  - destruct (entry_lookup _ _ _ _ E) as (L0 & -> & Eo & Eo0 & Er & _). destruct (ok_entry s H _ _ _ E) as (_ & _ & _ & B & _).
    rewrite Er. destruct (Z.eqb_spec r 0); [lia|]. destruct (Z.eqb_spec r (2 ^ 32 - 1)) as [->|]; [split; [done|]; right; by eexists|].
    destruct (storeOK_recount s location o r (r + 1) H E ltac:(lia)) as (K & _ & P1 & P2).
    split; [done|]. split; [done|]. eexists _, r. split; [done|]. exact P2.
  - destruct (entry_absent _ _ H E) as [_ Ha]. destruct (locationEntryLocked location s) as [[c slot]|]; [|by auto].
    rewrite Ha. cbn. by auto.
Qed.

Lemma readPage_spec location s page r : storeOK s -> pageOf s location = Some (page, r) ->
  readPage location 4096 s = Ok page.
Proof.
  intros H E. apply pageOf_entry in E as (o & E & ->). destruct (entry_lookup _ _ _ _ E) as (_ & _ & _ & _ & _ & Eo).
  destruct (ok_entry s H _ _ _ E) as (_ & _ & B & _). unfold readPage, readFull, contents in *.
  destruct (file s) as [f|]; cbn in *; [|rewrite len_nil in B; destruct (ok_entry s H _ _ _ E) as (_ & (_ & ? & _) & _); lia].
  rewrite Eo, (proj2 (Z.leb_le _ _)) by done. done.
Qed.

(** * Copy-on-write *)

Lemma writeFile_page f o po d : 0 <= o -> 0 <= po -> po + len d <= 4096 -> o + 4096 <= len f ->
  slice (writeFile f (o + po) d) o (o + 4096) = put (slice f o (o + 4096)) po d.
Proof.
  intros. unfold writeFile. replace (zeros _) with (@nil Z).
  2: { unfold zeros. replace (Z.to_nat _) with 0%nat by lia. done. }
  rewrite app_nil_r. list_ext.
Qed.

(** A write inside the page of a live token. *)
Lemma storeOK_inplace s location o r po d :
  storeOK s -> entry s location = Some (o, r) -> 0 <= po -> po + len d <= 4096 ->
  let s' := s <| file := Some (writeFile (contents s) (o + po) d) |> in
  storeOK s' /\ (forall l, l <> location -> pageOf s' l = pageOf s l) /\
  pageOf s' location = Some (put (slice (contents s) o (o + 4096)) po d, r).
Proof.
  intros H E H1 H2 s'. destruct (ok_entry s H _ _ _ E) as (B1 & (A1 & A2 & A3) & B3 & B4 & B5).
  pose proof (len_nonneg d). assert (Lf : len (contents s') = len (contents s)).
  { change (contents s') with (writeFile (contents s) (o + po) d). rewrite len_writeFile by lia. lia. }
  split; [|split].
  - destruct H as [K1 K2 K3 K4 K5 K6]. split; try done. intros l o' r' E'. rewrite Lf. by apply (K2 l).
  - intros l Hl. unfold pageOf. change (entry s' l) with (entry s l). destruct (entry s l) as [[o' r']|] eqn:E'; [|done].
    cbn [mbind option_bind]. destruct (ok_entry s H _ _ _ E') as (_ & (C1 & C2 & C3) & C4 & _).
    assert (o' <> o) as Hne by (intros ->; apply Hl; exact (ok_distinct s H _ _ _ _ _ E' E)).
    change (contents s') with (writeFile (contents s) (o + po) d).
    destruct (pages_apart o' o C1 A1 Hne); by rewrite writeFile_other by lia.
  - unfold pageOf. change (entry s' location) with (entry s location). rewrite E. cbn [mbind option_bind].
    change (contents s') with (writeFile (contents s) (o + po) d). by rewrite writeFile_page by lia.
Qed.

Lemma cow_spec io location po d s : storeOK s -> next s < 2 ^ 63 -> 0 <= po -> po + len d <= 4096 ->
  match writeAtCOW io location po d s with
  | (Ok l', s') =>
      storeOK s' /\ (forall l, l <> location -> l <> l' -> pageOf s' l = pageOf s l) /\
      pageOf s' l' = (fun p => (put p.1 po d, 1)) <$> pageOf s location /\
      exists page r, pageOf s location = Some (page, r) /\
        if decide (r = 1) then l' = location
        else 1 < r /\ l' = nextLocation s + 1 /\ pageOf s l' = None /\ pageOf s' location = Some (page, r - 1)
  | (Err _, s') =>
      storeOK s' /\ (forall l, l <> location -> pageOf s' l = pageOf s l) /\
      (pageOf s' location = pageOf s location \/
       exists page n, pageOf s location = Some (page, 1) /\ pageOf s' location = Some (put page po (slice d 0 n), 1))
  | (Panic, _) => False
  end.
Proof.
  intros H Hn H1 H2. unfold writeAtCOW. destruct (entry s location) as [[o r]|] eqn:E.
  2: { destruct (entry_absent _ _ H E) as [-> _]. destruct (file s); (split; [done|]; split; [done|by left]). }
  destruct (entry_lookup _ _ _ _ E) as (L0 & -> & Eo & Eo0 & Er & ->).
  destruct (ok_entry s H _ _ _ E) as (B1 & (A1 & A2 & A3) & B3 & B4 & B5).
  destruct (file s) as [f|] eqn:Ef; 
    [|unfold contents in B3; rewrite Ef in B3; cbn [default] in B3; rewrite len_nil in B3; lia].
  assert (contents s = f) as Ec by (unfold contents; by rewrite Ef). rewrite Er.
  assert (Ep : pageOf s location = Some (slice f o (o + 4096), r)) by (unfold pageOf; by rewrite E, <- Ec).
  destruct (Z.eqb_spec r 0); [lia|]. destruct (Z.eqb_spec r 1) as [->|Hr1].
  - assert (Hdone : let s' := s <| file := Some (writeFile f (o + po) d) |> in
      storeOK s' /\ (forall l, l <> location -> l <> location -> pageOf s' l = pageOf s l) /\
      pageOf s' location = (fun p => (put p.1 po d, 1)) <$> pageOf s location /\
      exists page r, pageOf s location = Some (page, r) /\
        if decide (r = 1) then location = location
        else 1 < r /\ location = nextLocation s + 1 /\ pageOf s location = None /\ pageOf s' location = Some (page, r - 1)).
    { destruct (storeOK_inplace s location o 1 po d H E H1 H2) as (K & P1 & P2). rewrite Ec in *.
      split; [done|]. split; [by auto|]. rewrite Ep. split; [done|]. by eexists _, 1. }
    destruct io as [| |w]; [exact Hdone|exact Hdone|].
    assert (po + len (slice d 0 w) <= 4096) as H2' by (rewrite slice_0, len_take; lia).
    destruct (storeOK_inplace s location o 1 po (slice d 0 w) H E H1 H2') as (K & P1 & P2). rewrite Ec in *.
    split; [done|]. split; [done|]. right. exists (slice f o (o + 4096)), w. done.
  - unfold readFull. rewrite (proj2 (Z.leb_le _ _)) by (by rewrite <- Ec).
    pose proof (alloc_spec io (put (slice f o (o + 4096)) po d) s H Hn) as Ha.
    destruct (allocatePageLocked io _ s) as [[l'|e|] s1]; [|destruct Ha as (K & P & _); split; [done|]; split; [done|by left]|done].
    destruct Ha as (K & El & P1 & P2 & P3). pose proof (ok_location s H).
    assert (location <> l') as Hne by lia. pose proof (P3 location Hne) as E1. rewrite E in E1.
    fold (chunkOf s1 location). destruct (entry_lookup _ _ _ _ E1) as (_ & _ & _ & _ & Er1 & _).
    destruct (storeOK_recount s1 location o r (r - 1) K E1 ltac:(lia)) as (K' & _ & Q1 & Q2). rewrite Er1.
    assert (Ep1 : slice (contents s1) o (o + 4096) = slice f o (o + 4096)).
    { pose proof (P2 location Hne) as Ep2. rewrite Ep in Ep2. unfold pageOf in Ep2. rewrite E1 in Ep2. by injection Ep2. }
    split; [done|]. split; [intros l Hl Hl'; by rewrite Q1, P2 by done|]. split.
    { rewrite Q1, P1, Ep by done. cbn. do 2 f_equal. unfold padded. apply copy_into_exact.
      rewrite len_zeros, len_put, len_slice by (rewrite <- ?Ec; lia). lia. }
    eexists _, r. split; [exact Ep|]. rewrite decide_False by done. split; [lia|]. split; [done|]. split.
    { unfold pageOf. by rewrite (entry_fresh s l' H ltac:(lia)). }
    by rewrite <- Ep1.
Qed.

(** * Release *)

Lemma used_zero l i : used l = 0 -> arrayAt l i = 0.
Proof.
  unfold used, arrayAt. intros E. apply len_0_nil in E.
  destruct (l !! Z.to_nat i) as [v|] eqn:El; [|done]. cbn. destruct (decide (v = 0)); [done|].
  assert (v ∈ filter (fun o => o <> 0) l) as Hin by (apply list_elem_of_filter; split; [done|by eapply list_elem_of_lookup_2]).
  rewrite E in Hin. by apply not_elem_of_nil in Hin.
Qed.

(** Dropping a chunk without live slots changes no token. *)
Lemma entry_dropChunk s id c location : locationChunks s !! id = Some c -> chunkOK c -> live c = 0 ->
  entry (s <| locationChunks := delete id (locationChunks s) |>) location = entry s location.
Proof.
  intros E [_ _ Hl _ _] L0. rewrite !entry_chunkOf. case_decide; [done|]. rewrite Hl in L0.
  destruct (decide (Z.shiftr location 8 = id)) as [<-|Hne].
  - assert (E1 : chunkOf s location = c) by (unfold chunkOf; by rewrite E).
    assert (E2 : chunkOf (s <| locationChunks := delete (Z.shiftr location 8) (locationChunks s) |>) location = emptyChunk)
      by (unfold chunkOf; cbn; by rewrite lookup_delete_eq).
    rewrite E1, E2. cbn [offsets emptyChunk]. rewrite arrayAt_empty, (used_zero _ _ L0). done.
  - replace (chunkOf (s <| locationChunks := delete id (locationChunks s) |>) location) with (chunkOf s location); [done|].
    unfold chunkOf. cbn. by rewrite lookup_delete_ne.
Qed.

(** The store with one token gone and its page free. *)
Lemma storeOK_drop s s' location o r :
  storeOK s -> entry s location = Some (o, r) ->
  map_Forall (fun _ => chunkOK) (locationChunks s') ->
  (forall l, entry s' l = if decide (l = location) then None else entry s l) ->
  file s' = file s -> next s' = next s -> nextLocation s' = nextLocation s -> freeSet s' = {[o]} ∪ freeSet s ->
  storeOK s' /\ pageOf s' location = None /\ (forall l, l <> location -> pageOf s' l = pageOf s l).
Proof.
  intros H E Hc He Ef En El Es.
  assert (Ec : contents s' = contents s) by (unfold contents; by rewrite Ef).
  split; [|split; [unfold pageOf; by rewrite He, decide_True by done|
    intros l Hl; unfold pageOf; by rewrite He, decide_False, Ec by done]].
  destruct (ok_entry s H _ _ _ E) as (B1 & B2 & B3 & B4 & B5). split.
  - done.
  - intros l o' r'. rewrite He. case_decide as Hd; [done|]. intros E'.
    destruct (ok_entry s H _ _ _ E') as (C1 & C2 & C3 & C4 & C5). unfold aligned. rewrite El, En, Ec, Es.
    split; [done|]. split; [done|]. split; [done|]. split; [done|].
    intros [->%elem_of_singleton|]%elem_of_union; [|done]. apply Hd. exact (ok_distinct s H _ _ _ _ _ E' E).
  - intros l1 l2 o' r1 r2. rewrite !He. repeat case_decide; try done. apply (ok_distinct s H).
  - intros o'. rewrite Es. unfold aligned. rewrite En. intros [->%elem_of_singleton|Hin]%elem_of_union; [done|].
    by apply (ok_free s H).
  - rewrite En. apply H.
  - rewrite El. apply H.
Qed.

Lemma release_spec location s : storeOK s -> closed s = false ->
  storeOK (releasePage location s) /\ (forall l, l <> location -> pageOf (releasePage location s) l = pageOf s l) /\
  pageOf (releasePage location s) location =
    match pageOf s location with Some (page, r) => if decide (r = 1) then None else Some (page, r - 1) | None => None end.
Proof.
  intros H Hc. unfold releasePage. rewrite Hc. destruct (entry s location) as [[o r]|] eqn:E.
  2: { destruct (entry_absent _ _ H E) as [-> _]. assert (pageOf s location = None) as -> by (unfold pageOf; by rewrite E). done. }
  destruct (entry_lookup _ _ _ _ E) as (L0 & -> & Eo & Eo0 & Er & ->). rewrite Er.
  destruct (ok_entry s H _ _ _ E) as (B1 & B2 & B3 & B4 & B5).
  assert (Ep : pageOf s location = Some (slice (contents s) o (o + 4096), r)) by (unfold pageOf; by rewrite E).
  rewrite Ep. destruct (Z.ltb_spec 1 r) as [Hr|Hr].
  { rewrite decide_False by lia. destruct (storeOK_recount s location o r (r - 1) H E ltac:(lia)) as (K & _ & P1 & P2). done. }
  rewrite decide_True by lia.
  set (s1 := setSlot location 0 0 (live (chunkOf s location) - 1) s).
  assert (He : forall l, entry s1 l = if decide (l = location) then None else entry s l).
  { intros l. unfold s1. rewrite setSlot_entry by by apply chunkOf_ok. case_decide; [|done]. by rewrite decide_True by auto. }
  assert (Hk : map_Forall (fun _ => chunkOK) (locationChunks s1)).
  { apply setSlot_chunks; [apply H|done|done|]. rewrite Eo, decide_False, decide_True by lia. lia. }
  pose proof (fun s' Hch Hent => storeOK_drop s s' location o r H E Hch Hent) as D.
  destruct (Z.eqb_spec (live (chunkOf s location) - 1) 0) as [Hl|Hl].
  - assert (Hd : forall l, entry (s1 <| locationChunks := delete (Z.shiftr location 8) (locationChunks s1) |>) l = entry s1 l).
    { intros l. eapply entry_dropChunk; [unfold s1, setSlot; cbn; by rewrite lookup_insert_eq| |cbn; exact Hl].
      eapply Hk. unfold s1, setSlot. cbn. by rewrite lookup_insert_eq. }
    match goal with |- storeOK ?x /\ _ =>
      destruct (D x (map_Forall_delete _ _ _ Hk) (fun l => eq_trans (Hd l) (He l)) eq_refl eq_refl eq_refl eq_refl) as (K & P1 & P2)
    end. exact (conj K (conj P2 P1)).
  - match goal with |- storeOK ?x /\ _ => destruct (D x Hk He eq_refl eq_refl eq_refl eq_refl) as (K & P1 & P2) end.
    exact (conj K (conj P2 P1)).
Qed.

(** * Cutting the tail *)

Definition pagesBelow (n : Z) (set : gset Z) : Prop :=
  forall o, o ∈ set -> o mod 4096 = 0 /\ 0 <= o /\ o + 4096 <= n.

(** What is cut was free, and everything that stays free is below the new end. *)
Lemma cutTail_spec fuel : forall n set n' set', pagesBelow n set -> n mod 4096 = 0 -> 0 <= n ->
  cutTail fuel n set = (n', set') ->
  n' <= n /\ 0 <= n' /\ n' mod 4096 = 0 /\ set' ⊆ set /\ pagesBelow n' set' /\
  (forall o, o mod 4096 = 0 -> n' <= o < n -> o ∈ set).
Proof.
  induction fuel as [|fuel IH]; intros n set n' set' Hs Hn H0 E; cbn [cutTail] in E.
  { injection E as <- <-. split_and!; try done; lia. }
  destruct (Z.leb_spec imageDataPageSize n) as [Hle|Hle]; cbn [andb] in E.
  2: { injection E as <- <-. split_and!; try done; lia. }
  case_bool_decide as Hin; [|injection E as <- <-; split_and!; try done; lia].
  apply IH in E as (A & B & C & D & P & F); [|..|dlia|lia].
  - split_and!; [lia|done|done|by intros x [? _]%D%elem_of_difference|done|]. intros o Ho Hr.
    destruct (Z.lt_ge_cases o (n - imageDataPageSize)) as [Hlt|Hge];
      [by destruct (proj1 (elem_of_difference _ _ _) (F o Ho ltac:(lia)))|].
    assert (o = n - imageDataPageSize) as -> by dlia. done.
  - intros o [Ho Hne]%elem_of_difference. destruct (Hs o Ho) as (A1 & A2 & A3). split_and!; try done.
    assert (o <> n - imageDataPageSize) by (intros ->; by apply Hne, elem_of_singleton). dlia.
Qed.

(** The loop runs to its end: the last page is not free. *)
Lemma cutTail_complete fuel : forall n set, (size set <= fuel)%nat ->
  let '(n', set') := cutTail fuel n set in imageDataPageSize <= n' -> n' - imageDataPageSize ∉ set'.
Proof.
  induction fuel as [|fuel IH]; intros n set Hf; cbn [cutTail].
  { intros _. apply Nat.le_0_r, size_empty_inv in Hf. set_solver. }
  destruct (Z.leb_spec imageDataPageSize n) as [Hle|Hle]; cbn [andb]; [|lia].
  case_bool_decide as Hin; [|done]. apply IH. rewrite size_difference by set_solver. rewrite size_singleton. lia.
Qed.

(** * Deallocating holes *)

Lemma extendRun_spec limit : forall offs stop stop' rest, extendRun limit stop offs = (stop', rest) ->
  stop <= stop' /\ (exists pre, offs = pre ++ rest) /\
  (stop mod 4096 = 0 -> forall o, o mod 4096 = 0 -> stop <= o < stop' -> o ∈ offs).
Proof.
  induction offs as [|offset offs IH]; intros stop stop' rest E; cbn [extendRun] in E.
  { injection E as <- <-. split_and!; [lia|by exists []|lia]. }
  destruct (Z.eqb_spec offset stop) as [->|]; cbn [andb] in E; [|injection E as <- <-; split_and!; [lia|by exists []|lia]].
  destruct (stop <? limit); [|injection E as <- <-; split_and!; [lia|by exists []|lia]].
  apply IH in E as (A & (pre & ->) & B). split; [lia|]. split; [by exists (stop :: pre)|].
  intros Hm o Ho Hr. destruct (decide (o = stop)) as [->|]; [set_solver|]. apply elem_of_cons. right. apply B; dlia.
Qed.

Section Reclaiming.
Context (reclaimFileRange : bytes -> Z -> Z -> bytes * reclaimOutcome).

(** Deallocation of a range keeps the length of the file and the bytes outside the range. *)
Context (reclaim_keeps : forall f a n, 0 <= a ->
  len (reclaimFileRange f a n).1 = len f /\
  forall x y, 0 <= x -> y <= a \/ a + n <= x -> slice (reclaimFileRange f a n).1 x y = slice f x y).

Lemma punchRuns_spec limit fuel : forall offs f, Forall (fun o => o mod 4096 = 0 /\ 0 <= o) offs ->
  len (punchRuns reclaimFileRange fuel limit offs f) = len f /\
  forall o, o mod 4096 = 0 -> 0 <= o -> o ∉ offs ->
    slice (punchRuns reclaimFileRange fuel limit offs f) o (o + 4096) = slice f o (o + 4096).
Proof.
  induction fuel as [|fuel IH]; intros [|start rest] f F; cbn [punchRuns]; try done.
  apply Forall_cons in F as [[M1 M2] F]. destruct (limit <=? start).
  { destruct (IH rest f F) as [L S]. split; [done|]. intros o Ho H0 Hn. apply S; set_solver. }
  destruct (extendRun limit (start + imageDataPageSize) rest) as [stop rest'] eqn:Ee.
  apply extendRun_spec in Ee as (A & (pre & Er) & B).
  destruct (reclaim_keeps f start (stop - start) M2) as [Lk Sk].
  destruct (reclaimFileRange f start (stop - start)) as [f' outcome]. cbn [fst] in Lk, Sk.
  assert (Hrun : forall o, o mod 4096 = 0 -> 0 <= o -> o ∉ start :: rest -> slice f' o (o + 4096) = slice f o (o + 4096)).
  { intros o Ho H0 Hn. apply Sk; [done|]. destruct (Z.lt_ge_cases o start) as [|Hge]; [left; dlia|].
    destruct (Z.lt_ge_cases o stop) as [Hlt|]; [|right; lia]. exfalso.
    assert (o <> start) by set_solver. apply Hn, elem_of_cons. right. apply B; [dlia|done|dlia]. }
  destruct outcome; [|by split|]; (rewrite Er in F; apply Forall_app in F as [_ F]; destruct (IH rest' f' F) as [L S];
    split; [by rewrite L|]; intros o Ho H0 Hn; rewrite S, Hrun by set_solver; done).
Qed.

(** * Compaction *)

(** The slots [new] name copies, in [f'] between [lo] and [hi], of the pages [old] names in [f]. *)
Definition copiedSlots (f f' : bytes) (lo hi : Z) (old new : list Z) : Prop :=
  length new = length old /\ used new = used old /\
  (forall i, 0 <= i -> if decide (arrayAt old i = 0) then arrayAt new i = 0
     else lo <= arrayAt new i - 1 /\ arrayAt new i - 1 + 4096 <= hi /\ (arrayAt new i - 1) mod 4096 = 0 /\
       slice f' (arrayAt new i - 1) (arrayAt new i - 1 + 4096) = slice f (arrayAt old i - 1) (arrayAt old i - 1 + 4096)) /\
  (forall i j, 0 <= i -> 0 <= j -> arrayAt new i <> 0 -> arrayAt new i = arrayAt new j -> i = j).

Lemma arrayAt_cons x l i : 0 <= i -> arrayAt (x :: l) i = if decide (i = 0) then x else arrayAt l (i - 1).
Proof.
  intros Hi. unfold arrayAt. case_decide as E; [by subst|]. by replace (Z.to_nat i) with (S (Z.to_nat (i - 1))) by lia.
Qed.

Lemma compactSlots_spec f : forall slots acc new acc', (forall i, 0 <= i -> 0 <= arrayAt slots i) -> (len acc) mod 4096 = 0 ->
  compactSlots f slots acc = Ok (new, acc') ->
  (exists ext, acc' = acc ++ ext) /\ (len acc') mod 4096 = 0 /\ copiedSlots f acc' (len acc) (len acc') slots new.
Proof.
  induction slots as [|encoded slots IH]; intros acc new acc' Hp Hm E; cbn [compactSlots] in E.
  { injection E as <- <-. split; [exists []; by rewrite app_nil_r|]. split; [done|]. split; [done|]. split; [done|].
    split; [intros i _; by rewrite decide_True|done]. }
  assert (Hp' : forall i, 0 <= i -> 0 <= arrayAt slots i).
  { intros i Hi. specialize (Hp (i + 1) ltac:(lia)). rewrite arrayAt_cons, decide_False in Hp by lia.
    by replace (i + 1 - 1) with i in Hp by lia. }
  specialize (Hp 0 ltac:(lia)). rewrite arrayAt_cons, decide_True in Hp by done.
  destruct (Z.eqb_spec encoded 0) as [->|Hne].
  - destruct (compactSlots f slots acc) as [[new1 acc1]| |] eqn:E1; cbn in E; [|done|done]. injection E as <- <-.
    destruct (IH acc new1 acc1 Hp' Hm E1) as (X & M & L & U & S & I). split; [done|]. split; [done|].
    split; [by cbn; rewrite L|]. split; [done|]. split.
    + intros i Hi. rewrite !arrayAt_cons by done. destruct (decide (i = 0)); [by rewrite decide_True|]. apply S. lia.
    + intros i j Hi Hj. rewrite !arrayAt_cons by done. repeat case_decide; try done; try congruence.
      intros N Q. specialize (I (i - 1) (j - 1) ltac:(lia) ltac:(lia) N Q). lia.
  - unfold readFull in E. destruct (Z.leb_spec (encoded - 1 + imageDataPageSize) (len f)) as [Hf|];
      cbn [mbind result_bind] in E; [|done].
    set (page := slice f (encoded - 1) (encoded - 1 + imageDataPageSize)) in *.
    assert (Lp : len page = 4096) by (unfold page; rewrite len_slice by lia; lia).
    destruct (compactSlots f slots (acc ++ page)) as [[new1 acc1]| |] eqn:E1; cbn [mbind result_bind] in E; [|done|done].
    injection E as <- <-. assert (Hm' : (len (acc ++ page)) mod 4096 = 0) by (rewrite len_app, Lp; dlia).
    destruct (IH (acc ++ page) new1 acc1 Hp' Hm' E1) as ((ext & X) & M & L & U & S & I).
    rewrite len_app, Lp in S. pose proof (len_nonneg acc). pose proof (len_nonneg ext).
    assert (La : len acc1 = len acc + 4096 + len ext) by (rewrite X, !len_app, Lp; lia).
    assert (Sp : slice acc1 (len acc) (len acc + 4096) = page).
    { rewrite X, <- app_assoc. apply slice_mid. lia. }
    split; [exists (page ++ ext); by rewrite X, <- app_assoc|]. split; [done|]. split; [by cbn; rewrite L|].
    split; [unfold used in *; rewrite !filter_cons, !decide_True, !len_cons by lia; lia|]. split.
    + intros i Hi. rewrite !arrayAt_cons by done. destruct (decide (i = 0)).
      * rewrite decide_False by done. replace (len acc + 1 - 1) with (len acc) by lia.
        split; [lia|]. split; [lia|]. split; [done|exact Sp].
      * specialize (S (i - 1) ltac:(lia)). case_decide; [done|]. destruct S as (S1 & S2 & S3 & S4).
        split; [lia|]. split; [lia|]. done.
    + intros i j Hi Hj. rewrite !arrayAt_cons by done. destruct (decide (i = 0)) as [->|], (decide (j = 0)) as [->|]; [done|..].
      * intros _ Q. specialize (S (j - 1) ltac:(lia)). case_decide; lia.
      * intros N Q. specialize (S (i - 1) ltac:(lia)). case_decide; lia.
      * intros N Q. specialize (I (i - 1) (j - 1) ltac:(lia) ltac:(lia) N Q). lia.
Qed.

(** Chunks [new] for chunks [old], with their pages copied. *)
Definition copiedChunks (f f' : bytes) (lo : Z) (old new : list (Z * imageLocationChunk)) : Prop :=
  Forall2 (fun a b => b.1 = a.1 /\ refs b.2 = refs a.2 /\ live b.2 = live a.2 /\
    copiedSlots f f' lo (len f') (offsets a.2) (offsets b.2)) old new /\
  (forall a b i j, a ∈ new -> b ∈ new -> 0 <= i -> 0 <= j -> arrayAt (offsets a.2) i <> 0 ->
     arrayAt (offsets a.2) i = arrayAt (offsets b.2) j -> a.1 = b.1 /\ i = j).

(** The new slots lie between the bounds. *)
Lemma copiedSlots_bounds f f' lo hi old new i : copiedSlots f f' lo hi old new -> 0 <= i -> arrayAt new i <> 0 ->
  lo <= arrayAt new i - 1 /\ arrayAt new i - 1 + 4096 <= hi.
Proof.
  intros (_ & _ & S & _) Hi N. specialize (S i Hi). case_decide; [done|]. destruct S as (S1 & S2 & _). done.
Qed.

(** Copies stay copies when the file grows and the bounds widen. *)
Lemma copiedSlots_grow f f' ext lo lo' old new : 0 <= lo' <= lo ->
  copiedSlots f f' lo (len f') old new -> copiedSlots f (f' ++ ext) lo' (len (f' ++ ext)) old new.
Proof.
  intros Hlo (L & U & S & I). split; [done|]. split; [done|]. split; [|done]. intros i Hi. specialize (S i Hi).
  case_decide; [done|]. destruct S as (S1 & S2 & S3 & S4). pose proof (len_nonneg ext). rewrite len_app.
  split; [lia|]. split; [lia|]. split; [done|]. rewrite slice_app_l by lia. done.
Qed.

Lemma copiedChunks_bounds f f' lo old new a i : copiedChunks f f' lo old new -> a ∈ new -> 0 <= i ->
  arrayAt (offsets a.2) i <> 0 -> lo <= arrayAt (offsets a.2) i - 1.
Proof.
  intros [F _] Ha Hi N. apply list_elem_of_lookup in Ha as (k & Ek).
  destruct (Forall2_lookup_r _ _ _ _ _ F Ek) as (b & _ & _ & _ & _ & C). by eapply copiedSlots_bounds in C as [? _].
Qed.

Lemma compactChunks_spec f : forall chunks acc new acc', Forall (fun c => forall i, 0 <= i -> 0 <= arrayAt (offsets c.2) i) chunks ->
  (len acc) mod 4096 = 0 -> compactChunks f chunks acc = Ok (new, acc') ->
  (exists ext, acc' = acc ++ ext) /\ (len acc') mod 4096 = 0 /\ copiedChunks f acc' (len acc) chunks new.
Proof.
  induction chunks as [|[id chunk] chunks IH]; intros acc new acc' F Hm E; cbn [compactChunks] in E.
  { injection E as <- <-. split; [exists []; by rewrite app_nil_r|]. split; [done|]. split; [constructor|]. set_solver. }
  apply Forall_cons in F as [F1 F]. cbn [snd] in F1.
  destruct (compactSlots f (offsets chunk) acc) as [[slots acc1]| |] eqn:E1; cbn [mbind result_bind] in E; [|done|done].
  destruct (compactChunks f chunks acc1) as [[new1 acc2]| |] eqn:E2; cbn [mbind result_bind] in E; [|done|done].
  injection E as <- <-. destruct (compactSlots_spec f _ _ _ _ F1 Hm E1) as ((e1 & X1) & M1 & C1).
  destruct (IH acc1 new1 acc2 F M1 E2) as ((e2 & X2) & M2 & C2). pose proof (len_nonneg acc). pose proof (len_nonneg e1).
  assert (Hle : len acc <= len acc1) by (rewrite X1, len_app; lia).
  split; [exists (e1 ++ e2); by rewrite X2, X1, app_assoc|]. split; [done|].
  assert (C1' : copiedSlots f acc2 (len acc) (len acc2) (offsets chunk) slots).
  { rewrite X2. eapply copiedSlots_grow; [|exact C1]. lia. }
  split.
  - constructor; [done|]. eapply Forall2_impl; [apply C2|]. intros a b (B1 & B2 & B3 & B4). split; [done|]. split; [done|].
    split; [done|]. rewrite <- (app_nil_r acc2). eapply copiedSlots_grow; [|exact B4]. lia.
  - assert (Hhead : forall i, 0 <= i -> arrayAt slots i <> 0 -> arrayAt slots i - 1 + 4096 <= len acc1).
    { intros i Hi N. by eapply copiedSlots_bounds in C1 as [_ ?]. }
    intros a b i j [->|Ha]%elem_of_cons [->|Hb]%elem_of_cons Hi Hj N Q; cbn [fst snd] in *.
    + split; [done|]. destruct C1 as (_ & _ & _ & I). by apply I.
    + pose proof (copiedChunks_bounds _ _ _ _ _ _ j C2 Hb Hj ltac:(congruence)). specialize (Hhead i Hi N).
      cbn [offsets set_field] in *. change (offsets (chunk <| offsets := slots |>)) with slots in *. lia.
    + change (offsets (chunk <| offsets := slots |>)) with slots in *.
      pose proof (copiedChunks_bounds _ _ _ _ _ _ i C2 Ha Hi N). specialize (Hhead j Hj ltac:(congruence)). lia.
    + destruct C2 as [_ I]. by apply I.
Qed.

(** The chunk map after compaction, chunk by chunk. *)
Definition copiedMap (f f' : bytes) (m m' : gmap Z imageLocationChunk) : Prop :=
  (forall id, match m !! id, m' !! id with
     | Some c, Some c' => refs c' = refs c /\ live c' = live c /\ copiedSlots f f' 0 (len f') (offsets c) (offsets c')
     | None, None => True
     | _, _ => False
     end) /\
  (forall id1 id2 c1 c2 i j, m' !! id1 = Some c1 -> m' !! id2 = Some c2 -> 0 <= i -> 0 <= j ->
     arrayAt (offsets c1) i <> 0 -> arrayAt (offsets c1) i = arrayAt (offsets c2) j -> id1 = id2 /\ i = j).

Lemma copiedChunks_map f f' (m : gmap Z imageLocationChunk) new : copiedChunks f f' 0 (map_to_list m) new ->
  copiedMap f f' m (list_to_map new).
Proof.
  intros [F I]. assert (Ei : new.*1 = (map_to_list m).*1).
  { clear I. induction F as [|a b la lb (E & _) F IH]; [done|]. cbn. by rewrite E, IH. }
  assert (N : NoDup new.*1) by (rewrite Ei; apply NoDup_fst_map_to_list).
  assert (Hl : forall id c, (list_to_map new : gmap Z imageLocationChunk) !! id = Some c <-> (id, c) ∈ new)
    by (intros; by rewrite elem_of_list_to_map).
  split.
  - intros id. destruct (m !! id) as [c|] eqn:Em.
    + apply elem_of_map_to_list, list_elem_of_lookup in Em as (k & Ek).
      destruct (Forall2_lookup_l _ _ _ _ _ F Ek) as ([id' c'] & Ek' & E & R). cbn in E. subst id'.
      apply list_elem_of_lookup_2, Hl in Ek'. by rewrite Ek'.
    + destruct ((list_to_map new : gmap Z imageLocationChunk) !! id) as [c'|] eqn:En; [|done].
      apply Hl, list_elem_of_lookup in En as (k & Ek). destruct (Forall2_lookup_r _ _ _ _ _ F Ek) as ([id' c] & Ek' & E & _).
      cbn in E. subst id'. apply list_elem_of_lookup_2, elem_of_map_to_list in Ek'. congruence.
  - intros id1 id2 c1 c2 i j E1 E2. apply Hl in E1, E2. intros Hi Hj. exact (I _ _ i j E1 E2 Hi Hj).
Qed.

Lemma copiedMap_chunkOK f f' m m' : copiedMap f f' m m' -> map_Forall (fun _ => chunkOK) m -> map_Forall (fun _ => chunkOK) m'.
Proof.
  intros [R _] Hm id c' E. specialize (R id). rewrite E in R. destruct (m !! id) as [c|] eqn:Ec; [|done].
  destruct (Hm _ _ Ec) as [K1 K2 K3 K4 K5]. destruct R as (R1 & R2 & L & U & S & _). split.
  - by rewrite L.
  - by rewrite R1.
  - by rewrite R2, U.
  - intros i Hi N. rewrite R1. specialize (S i Hi). case_decide; [by apply K4|]. destruct S as (S1 & _). lia.
  - intros i Hi. specialize (S i Hi). case_decide; [lia|]. destruct S as (S1 & _). lia.
Qed.

(** Tokens after compaction. *)
Lemma copiedMap_entry s s' f f' l : contents s = f -> contents s' = f' -> copiedMap f f' (locationChunks s) (locationChunks s') ->
  match entry s l, entry s' l with
  | Some (o, r), Some (o', r') =>
      r' = r /\ 0 <= o' /\ o' mod 4096 = 0 /\ o' + 4096 <= len f' /\ slice f' o' (o' + 4096) = slice f o (o + 4096) /\
      exists c', locationChunks s' !! Z.shiftr l 8 = Some c' /\ arrayAt (offsets c') (Z.land l 255) = o' + 1
  | None, None => True
  | _, _ => False
  end.
Proof.
  intros <- <- [R _]. rewrite !entry_chunkOf. case_decide as H0; [done|]. specialize (R (Z.shiftr l 8)). unfold chunkOf.
  destruct (locationChunks s !! _) as [c|], (locationChunks s' !! _) as [c'|]; try done; cbn [default from_option id].
  2: { change (offsets emptyChunk) with (replicate 256 0). by rewrite arrayAt_empty. }
  destruct R as (R1 & _ & _ & _ & S & _). specialize (S (Z.land l 255) (proj1 (slot_range l))). unfold id.
  destruct (decide (arrayAt (offsets c) (Z.land l 255) = 0)) as [|Hn]; [by rewrite decide_True|].
  destruct S as (S1 & S2 & S3 & S4). rewrite decide_False by lia. rewrite R1. split; [done|]. split; [done|]. split; [done|].
  split; [done|]. split; [done|]. exists c'. split; [done|]. lia.
Qed.

Lemma compact_spec copied s : storeOK s ->
  storeOK (compactLocked copied s).2 /\ forall l, pageOf (compactLocked copied s).2 l = pageOf s l.
Proof.
  intros H. unfold compactLocked. destruct (file s) as [f|] eqn:Ef; [|done]. destruct (liveLocations s =? 0); [done|].
  destruct (compactChunks f (map_to_list (locationChunks s)) []) as [[new f']| |] eqn:E; [|done|done].
  destruct copied; [|done]. cbn [snd].
  apply compactChunks_spec in E as (_ & Hm & C); [|apply Forall_forall; intros [id c] Hin; apply elem_of_map_to_list in Hin;
    exact (chunk_nonneg c (ok_chunks s H _ _ Hin))|done].
  change (len []) with 0 in C. apply copiedChunks_map in C. set (s' := s <| file := Some f' |> <| next := _ |> <| locationChunks := _ |>
    <| free := _ |> <| freeSet := _ |> <| pendingReclaim := _ |>).
  assert (Ec : contents s = f) by (unfold contents; by rewrite Ef).
  pose proof (fun l => copiedMap_entry s s' f f' l Ec eq_refl C) as He.
  split.
  - split.
    + exact (copiedMap_chunkOK _ _ _ _ C (ok_chunks s H)).
    + intros l o' r' E'. specialize (He l). rewrite E' in He. destruct (entry s l) as [[o r]|] eqn:El; [|done].
      destruct He as (-> & A1 & A2 & A3 & _ & _). destruct (ok_entry s H _ _ _ El) as (B1 & _ & _ & B4 & _).
      split; [done|]. split; [done|]. split; [done|]. split; [done|]. set_solver.
    + intros l1 l2 o r1 r2 E1 E2. pose proof (He l1) as H1. pose proof (He l2) as H2. rewrite E1 in H1. rewrite E2 in H2.
      destruct (entry s l1) as [[]|]; [|done]. destruct (entry s l2) as [[]|]; [|done].
      destruct H1 as (_ & A & _ & _ & _ & c1 & M1 & O1), H2 as (_ & _ & _ & _ & _ & c2 & M2 & O2).
      destruct C as [_ I]. destruct (I _ _ _ _ (Z.land l1 255) (Z.land l2 255) M1 M2 (proj1 (slot_range l1))
        (proj1 (slot_range l2)) ltac:(lia) ltac:(lia)) as [Q1 Q2].
      apply index_inj. unfold imageLocationIndex. by rewrite Q1, Q2.
    + set_solver.
    + split; [exact Hm|]. cbn. apply len_nonneg.
    + apply (ok_location s H).
  - intros l. specialize (He l). unfold pageOf. destruct (entry s l) as [[o r]|], (entry s' l) as [[o' r']|]; try done.
    destruct He as (-> & _ & _ & _ & S & _). cbn [mbind option_bind]. by rewrite Ec, <- S.
Qed.

(** Reclaiming changes no page and no count. *)
Lemma flush_spec truncated copied rebuild s : storeOK s ->
  storeOK (flushReclaimLocked reclaimFileRange truncated copied rebuild s) /\
  forall l, pageOf (flushReclaimLocked reclaimFileRange truncated copied rebuild s) l = pageOf s l.
Proof.
  intros H. unfold flushReclaimLocked. destruct (file s) as [f|] eqn:Ef; [|done]. case_bool_decide; [done|].
  set (offs := merge_sort _ _). destruct (cutTail (size (freeSet s)) (next s) (freeSet s)) as [n set'] eqn:Ec.
  destruct (ok_next s H) as [N1 N2]. apply cutTail_spec in Ec as (T1 & T2 & T3 & T4 & T5 & T6); [|exact (ok_free s H)|done|done].
  assert (Hoffs : forall o, o ∈ offs -> o ∈ freeSet s).
  { intros o. unfold offs. rewrite merge_sort_Permutation, elem_of_elements, elem_of_filter. naive_solver. }
  assert (Foffs : Forall (fun o => o mod 4096 = 0 /\ 0 <= o) offs).
  { apply Forall_forall. intros o Ho. destruct (ok_free s H o (Hoffs o Ho)) as (A1 & A2 & _). done. }
  set (f1 := if negb (n =? next s) && truncated then truncateFile f n else f).
  destruct (punchRuns_spec n (length offs) offs f1 Foffs) as [Lp Sp]. set (f2 := punchRuns _ _ _ _ _) in *.
  set (s1 := s <| file := Some f2 |> <| next := n |> <| freeSet := set' |> <| pendingReclaim := ∅ |>).
  assert (Hlive : forall l o r, entry s l = Some (o, r) ->
    o + 4096 <= n /\ o + 4096 <= len f2 /\ slice f2 o (o + 4096) = slice f o (o + 4096)).
  { intros l o r E. destruct (ok_entry s H _ _ _ E) as (_ & (A1 & A2 & A3) & B3 & _ & B5).
    assert (o < n) as Hon by (destruct (Z.lt_ge_cases o n); [done|]; exfalso; apply B5, T6; [done|lia]).
    assert (o + 4096 <= n) as Hn by dlia. unfold contents in B3. rewrite Ef in B3. change (default [] (Some f)) with f in B3.
    assert (Hf1 : o + 4096 <= len f1 /\ slice f1 o (o + 4096) = slice f o (o + 4096)).
    { unfold f1. destruct (negb (n =? next s) && truncated); [|done].
      rewrite len_truncateFile by done. split; [done|]. apply slice_truncateFile; lia. }
    destruct Hf1 as [L1 S1]. split; [done|]. rewrite Lp. split; [done|]. rewrite Sp; [done|done|done|].
    intros Hin. by apply B5, Hoffs. }
  assert (K1 : storeOK s1 /\ forall l, pageOf s1 l = pageOf s l).
  { split.
    - destruct H as [K1 K2 K3 K4 K5 K6]. split; try done. intros l o r E. destruct (Hlive l o r E) as (L1 & L2 & _).
      destruct (K2 l o r E) as (B1 & (A1 & A2 & _) & _ & B4 & B5).
      split; [done|]. split; [done|]. split; [done|]. split; [done|]. cbn. set_solver.
    - intros l. unfold pageOf. change (entry s1 l) with (entry s l). destruct (entry s l) as [[o r]|] eqn:E; [|done].
      destruct (Hlive l o r E) as (_ & _ & S). cbn [mbind option_bind]. change (contents s1) with f2.
      unfold contents. rewrite Ef. change (default [] (Some f)) with f. by rewrite S. }
  destruct K1 as [K1 P1]. set (s2 := if shouldCompactPortableImageStore _ _ then _ else _).
  assert (K2 : storeOK s2 /\ forall l, pageOf s2 l = pageOf s l).
  { unfold s2. destruct (shouldCompactPortableImageStore _ _); [|done].
    destruct (compact_spec copied s1 K1) as [K P]. split; [done|]. intros l. by rewrite P. }
  destruct K2 as [K2 P2]. unfold compactMetadataLocked. destruct rebuild; [|done]. split; [|exact P2].
  by destruct K2.
Qed.
End Reclaiming.

(** * What the store promises its users *)

(** The page of a token. *)
Definition pageBytes (s : imageDataStore) (l : Z) : option bytes := fst <$> pageOf s l.

(** The store is open and counts exactly the references its users hold. *)
Record held (s : imageDataStore) (c : Z -> Z) : Prop := {
  held_ok : storeOK s;
  held_open : closed s = false;
  held_count l : c l = match pageOf s l with Some (_, r) => r | None => 0 end;
}.

Definition one (l l' : Z) : Z := if decide (l = l') then 1 else 0.

Lemma pageOf_count s l p r : storeOK s -> pageOf s l = Some (p, r) -> 1 <= r /\ 0 < l < 2 ^ 64 /\ len p = 4096.
Proof.
  intros H E. apply pageOf_entry in E as (o & E & ->). destruct (ok_entry s H _ _ _ E) as (A & (_ & B & _) & C & D & _).
  pose proof (ok_location s H). rewrite len_slice by lia. lia.
Qed.

Lemma held_ext s c c' : (forall l, c l = c' l) -> held s c -> held s c'.
Proof. intros E [A B C]. split; [done..|]. intros l. by rewrite <- E. Qed.

Lemma held_page s c l : held s c -> 1 <= c l -> exists p, pageBytes s l = Some p /\ pageOf s l = Some (p, c l) /\ 0 < l < 2 ^ 64 /\ len p = 4096.
Proof.
  intros [A B C] H. unfold pageBytes. specialize (C l). destruct (pageOf s l) as [[p r]|] eqn:E; [|lia]. subst.
  destruct (pageOf_count _ _ _ _ A E) as (_ & ? & ?). by exists p.
Qed.

Lemma held_free s c l : held s c -> c l = 0 -> pageOf s l = None.
Proof.
  intros [A B C] H. specialize (C l). destruct (pageOf s l) as [[p r]|] eqn:E; [|done].
  destruct (pageOf_count _ _ _ _ A E). lia.
Qed.

Lemma takeOffset_meta s : 0 <= next s < 2 ^ 63 ->
  closed (takeOffset s).2 = closed s /\ next s <= next (takeOffset s).2 <= next s + 4096.
Proof.
  intros H. unfold takeOffset. destruct (popFree _ _) as [[o|] st]; cbn; [split; [done|lia]|].
  split; [done|]. rewrite wrap_small by width. lia.
Qed.

Lemma alloc_meta io data s : 0 <= next s < 2 ^ 63 ->
  closed (allocatePageLocked io data s).2 = closed s /\ next s <= next (allocatePageLocked io data s).2 <= next s + 4096.
Proof.
  intros H. unfold allocatePageLocked. destruct (_ =? _); [split; [done|cbn; lia]|]. destruct (closed s) eqn:Ec; [split; [done|cbn; lia]|].
  destruct (match file s with Some _ => false | None => _ end); [split; [done|cbn; lia]|].
  pose proof (takeOffset_meta s H) as [A B]. rewrite Ec in A. destruct (takeOffset s) as [o s1]. by destruct io.
Qed.

Lemma cow_meta io l po d s : 0 <= next s < 2 ^ 63 ->
  closed (writeAtCOW io l po d s).2 = closed s /\ next s <= next (writeAtCOW io l po d s).2 <= next s + 4096.
Proof.
  intros H. assert (Hs : closed s = closed s /\ next s <= next s <= next s + 4096) by (split; [done|lia]). unfold writeAtCOW.
  destruct (file s) as [f|], (locationOffsetLocked l s) as [o|], (locationEntryLocked l s) as [[c slot]|]; try done.
  destruct (_ =? 0); [done|]. destruct (_ =? 1); [by destruct io|].
  destruct (readFull f o _) as [p|e|]; try done. pose proof (alloc_meta io (put p po d) s H) as K.
  destruct (allocatePageLocked io (put p po d) s) as [[l'|e|] s']; done.
Qed.

Lemma held_alloc io data s c : held s c -> next s < 2 ^ 63 ->
  match allocatePageLocked io data s with
  | (Ok l, s') => held s' (fun x => c x + one l x) /\ c l = 0 /\ 0 < l < 2 ^ 64 /\ pageBytes s' l = Some (padded data) /\
      forall x, x <> l -> pageBytes s' x = pageBytes s x
  | (Err _, s') => held s' c /\ forall x, pageBytes s' x = pageBytes s x
  | (Panic, _) => False
  end.
Proof.
  intros [A B C] Hn. pose proof (alloc_spec io data s A Hn) as K. destruct (ok_next s A) as [_ N].
  destruct (alloc_meta io data s ltac:(lia)) as [M _].
  destruct (allocatePageLocked io data s) as [[l|e|] s']; cbn in M; [| |done].
  - destruct K as (K1 & K2 & K3 & K4 & K5). destruct (pageOf_count _ _ _ _ K1 K3) as (_ & Hl & _).
    assert (Hf : pageOf s l = None) by (unfold pageOf; rewrite (entry_fresh s l A) by lia; done).
    pose proof (C l) as Cl. rewrite Hf in Cl. split_and!; try done; try lia.
    + split; [done|congruence|]. intros x. unfold one. destruct (decide (l = x)) as [<-|Hx]; [rewrite K3; lia|].
      rewrite K4 by done. rewrite <- C. lia.
    + unfold pageBytes. by rewrite K3.
    + intros x Hx. unfold pageBytes. by rewrite K4.
  - destruct K as (K1 & K2 & _). split; [split; [done|congruence|intros x; by rewrite K2]|]. intros x. unfold pageBytes. by rewrite K2.
Qed.

Lemma held_retain s c l : held s c ->
  match retainPage l s with
  | (Ok _, s') => held s' (fun x => c x + one l x) /\ forall x, pageBytes s' x = pageBytes s x
  | (Err _, s') => s' = s
  | (Panic, _) => False
  end.
Proof.
  intros [A B C]. pose proof (retain_spec l s A) as K.
  assert (M : closed (retainPage l s).2 = closed s).
  { unfold retainPage. destruct (locationEntryLocked l s) as [[ch sl]|]; [|done].
    destruct (_ =? 0); [done|]. by destruct (_ =? _). }
  destruct (retainPage l s) as [[u|e|] s']; cbn in M; [|tauto|done]. destruct K as (K1 & K2 & p & r & K3 & K4). split.
  - split; [done|congruence|]. intros x. unfold one. destruct (decide (l = x)) as [<-|Hx]; [rewrite C, K3, K4; lia|].
    rewrite K2, <- C by done. lia.
  - intros x. unfold pageBytes. destruct (decide (x = l)) as [->|]; [by rewrite K3, K4|by rewrite K2].
Qed.

Lemma held_release s c l : held s c -> 1 <= c l ->
  held (releasePage l s) (fun x => c x - one l x) /\ next (releasePage l s) = next s /\
  forall x, 1 <= c x - one l x -> pageBytes (releasePage l s) x = pageBytes s x.
Proof.
  intros [A B C] Hl. pose proof (release_spec l s A B) as (K1 & K2 & K3). pose proof (C l) as Cl.
  destruct (pageOf s l) as [[p r]|] eqn:E; [|lia]. subst r.
  assert (M : closed (releasePage l s) = closed s /\ next (releasePage l s) = next s).
  { unfold releasePage. rewrite B. destruct (locationOffsetLocked l s), (locationEntryLocked l s) as [[ch sl]|]; try by rewrite B.
    by destruct (1 <? _), (live ch - 1 =? 0). }
  destruct M as [M1 M2]. split_and!; [|done|].
  - split; [done|congruence|]. intros x. unfold one. destruct (decide (l = x)) as [<-|]; [rewrite K3; case_decide; lia|].
    rewrite K2, <- C by done. lia.
  - intros x. unfold one, pageBytes. destruct (decide (l = x)) as [<-|]; [|by rewrite K2].
    intros Hx. rewrite K3, E, decide_False by lia. done.
Qed.

Lemma held_cow io l po d s c : held s c -> next s < 2 ^ 63 -> 0 <= po -> po + len d <= 4096 -> 1 <= c l ->
  match writeAtCOW io l po d s with
  | (Ok l', s') => exists p, pageBytes s l = Some p /\ 0 < l' < 2 ^ 64 /\ pageBytes s' l' = Some (put p po d) /\
      (forall x, x <> l' -> pageBytes s' x = pageBytes s x) /\
      (l' = l /\ c l = 1 /\ held s' c \/ l' <> l /\ 1 < c l /\ c l' = 0 /\ held s' (fun x => c x - one l x + one l' x))
  | (Err _, s') => held s' c /\ (forall x, x <> l -> pageBytes s' x = pageBytes s x) /\
      (pageBytes s' l = pageBytes s l \/
       c l = 1 /\ exists p n, pageBytes s l = Some p /\ pageBytes s' l = Some (put p po (slice d 0 n)))
  | (Panic, _) => False
  end.
Proof.
  intros H Hn H1 H2 Hl. destruct (held_page s c l H Hl) as (p & Pp & Po & Hl' & Lp). destruct H as [A B C].
  pose proof (cow_spec io l po d s A Hn H1 H2) as K. destruct (ok_next s A) as [_ N].
  destruct (cow_meta io l po d s ltac:(lia)) as [M _].
  destruct (writeAtCOW io l po d s) as [[l'|e|] s']; cbn in M; [| |done].
  - destruct K as (K1 & K2 & K3 & p' & r & K4 & K5). rewrite Po in K4. injection K4 as <- <-. rewrite Po in K3. cbn in K3.
    destruct (pageOf_count _ _ _ _ K1 K3) as (_ & Hl2 & _). exists p. unfold pageBytes in *.
    split_and!; try done; try lia; [by rewrite K3|..]; destruct (decide (c l = 1)) as [E1|E1].
    + subst l'. intros x Hx. by rewrite K2.
    + destruct K5 as (K5 & K6 & K7 & K8). intros x Hx. destruct (decide (x = l)) as [->|]; [by rewrite K8, Po|by rewrite K2].
    + left. subst l'. split_and!; [done..|]. split; [done|congruence|]. intros x.
      destruct (decide (x = l)) as [->|]; [rewrite K3; lia|by rewrite K2, <- C].
    + right. destruct K5 as (K5 & K6 & K7 & K8). assert (l' <> l) by (intros ->; rewrite Po in K7; done).
      pose proof (C l') as Cl'. rewrite K7 in Cl'. split_and!; try done; try lia. split; [done|congruence|]. intros x. unfold one.
      destruct (decide (l = x)) as [<-|]; [rewrite K8, decide_False by done; lia|].
      destruct (decide (l' = x)) as [<-|]; [rewrite K3; lia|]. rewrite K2, <- C by congruence. lia.
  - destruct K as (K1 & K2 & K3). split_and!.
    + split; [done|congruence|]. intros x. destruct (decide (x = l)) as [->|]; [|by rewrite K2].
      destruct K3 as [->|(p' & n & E1 & E2)]; [done|]. rewrite E2, C. by rewrite E1.
    + intros x Hx. unfold pageBytes. by rewrite K2.
    + unfold pageBytes. destruct K3 as [->|(p' & n & E1 & E2)]; [by left|right]. rewrite Po in E1. injection E1 as <- E1. split; [done|].
      exists p, n. by rewrite Po, E2.
Qed.

(** Flushing freed space changes no page and no count. *)
Lemma held_flush reclaimFileRange truncated copied rebuild s c :
  (forall f a n, 0 <= a -> len (reclaimFileRange f a n).1 = len f /\
    forall x y, 0 <= x -> y <= a \/ a + n <= x -> slice (reclaimFileRange f a n).1 x y = slice f x y) ->
  held s c ->
  held (flushReclaimLocked reclaimFileRange truncated copied rebuild s) c /\
  forall x, pageBytes (flushReclaimLocked reclaimFileRange truncated copied rebuild s) x = pageBytes s x.
Proof.
  intros Hr [A B C]. destruct (flush_spec reclaimFileRange Hr truncated copied rebuild s A) as [K1 K2].
  split; [|intros x; unfold pageBytes; by rewrite K2]. split; [done| |intros x; by rewrite K2].
  unfold flushReclaimLocked. destruct (file s); [|done]. case_bool_decide; [done|]. destruct (cutTail _ _ _) as [n set].
  unfold compactMetadataLocked. destruct rebuild, (shouldCompactPortableImageStore _ _); try done.
  all: unfold compactLocked; cbn; destruct (_ =? 0); [done|].
  all: destruct (compactChunks _ _ _) as [[ch f']|e|]; [|done..]; by destruct copied.
Qed.
