(* ===== verification/SparseData.v ===== *)
(** Sparse file contents over the page store: [sparseImageData] of
    [src/internal/core/virtio/fs_backends.go] and the snapshot of a file's pages in
    [snapshot.go].

    A file is a sorted list of extents, runs of pages whose tokens are consecutive too.
    Writes allocate pages or write them in place, copying a page that a snapshot shares.
    [files_refine_bytes]: with any number of files and snapshots over one store, each
    operation has the effect it would have on separate flat files; a snapshot keeps its
    bytes whatever is written to the file it was taken from. *)

From stdpp Require Import gmap.
From S2P Require Import Prelude PageStore.

Record imageDataExtent := mkExtent { page : Z; location : Z; count : Z }.
#[export] Instance eta_imageDataExtent : Eta imageDataExtent := fun e => mkExtent (page e) (location e) (count e).

Abbreviation sparseImageData := (list imageDataExtent).

Definition pageEnd (e : imageDataExtent) : Z := wrap 64 (page e + count e).

(** [sort.Search] for the first extent that ends behind a page. *)
Definition firstEndingAfter (d : sparseImageData) (p : Z) : nat :=
  Z.to_nat (sortSearch (len d) (fun i => match d !! Z.to_nat i with Some e => p <? pageEnd e | None => true end)).

Definition locationOf (d : sparseImageData) (p : Z) : option Z :=
  match d !! firstEndingAfter d p with
  | Some e => if p <? page e then None else Some (wrap 64 (location e + p - page e))
  | None => None
  end.

Definition nextDataPage (d : sparseImageData) (p : Z) : option Z :=
  match d !! firstEndingAfter d p with
  | Some e => if p <? page e then Some (page e) else Some p
  | None => None
  end.

Definition nextHolePage (d : sparseImageData) (p : Z) : Z :=
  match d !! firstEndingAfter d p with
  | Some e => if p <? page e then p else pageEnd e
  | None => p
  end.

(** Whether an extent follows, or is followed by, a page in both numberings. *)
Definition joinsAfter (e : imageDataExtent) (p l : Z) : bool :=
  (pageEnd e =? p) && (wrap 64 (location e + count e) =? l).

Definition joinsBefore (p l : Z) (e : imageDataExtent) : bool :=
  (wrap 64 (p + 1) =? page e) && (wrap 64 (l + 1) =? location e).

(** Insert between the extents before and after: into the next extent or as one of its own. *)
Definition insertBefore (p l : Z) (after : sparseImageData) : sparseImageData :=
  match after with
  | e :: rest => if joinsBefore p l e then mkExtent p l (wrap 64 (count e + 1)) :: rest else mkExtent p l 1 :: after
  | [] => [mkExtent p l 1]
  end.

(** Grow the extent before by the page, and by the extent behind if that follows. *)
Definition growPrevious (previous : imageDataExtent) (p l : Z) (after : sparseImageData) : sparseImageData :=
  let previous := previous <| count := wrap 64 (count previous + 1) |> in
  match after with
  | e :: rest =>
      if joinsBefore p l e then (previous <| count := wrap 64 (count previous + count e) |>) :: rest else previous :: after
  | [] => [previous]
  end.

Definition insert (p l : Z) (d : sparseImageData) : sparseImageData :=
  let i := Z.to_nat (sortSearch (len d) (fun i => match d !! Z.to_nat i with Some e => p <=? page e | None => true end)) in
  let before := take i d in
  let after := drop i d in
  match last before with
  | Some previous =>
      if joinsAfter previous p l then take (i - 1) d ++ growPrevious previous p l after
      else before ++ insertBefore p l after
  | None => before ++ insertBefore p l after
  end.

(** The extents with one page cut out, if one of them holds it. *)
Fixpoint cutPage (p : Z) (d : sparseImageData) : sparseImageData :=
  match d with
  | [] => []
  | e :: rest =>
      if (p <? page e) || (pageEnd e <=? p) then e :: cutPage p rest
      else
        (if p - page e =? 0 then [] else [mkExtent (page e) (location e) (p - page e)]) ++
        (if pageEnd e - p - 1 =? 0 then []
         else [mkExtent (p + 1) (wrap 64 (location e + (p - page e) + 1)) (pageEnd e - p - 1)]) ++ rest
  end.

Definition replace (p l : Z) (d : sparseImageData) : sparseImageData := insert p l (cutPage p d).

(** Read into [dst], whose bytes stay where there is no page. *)
Fixpoint readLoop (fuel : nat) (s : imageDataStore) (d : sparseImageData) (dst : bytes) (off : Z) : result pageError bytes :=
  match fuel, dst with
  | S fuel, _ :: _ =>
      let pageOffset := off mod imageDataPageSize in
      let n := Z.min (len dst) (imageDataPageSize - pageOffset) in
      head ← match locationOf d (off / imageDataPageSize) with
             | Some l => p ← readPage l imageDataPageSize s; Ok (slice p pageOffset (pageOffset + n))
             | None => Ok (slice dst 0 n)
             end;
      tail ← readLoop fuel s d (slice dst n (len dst)) (wrap 64 (off + n));
      Ok (head ++ tail)
  | _, _ => Ok dst
  end.

Definition readAt (s : imageDataStore) (d : sparseImageData) (dst : bytes) (off : Z) : result pageError bytes :=
  readLoop (length dst) s d dst off.

(** Write one piece within a page. *)
Definition writePiece (io : hostIO) (piece : bytes) (off : Z) (d : sparseImageData) (s : imageDataStore)
  : result pageError unit * sparseImageData * imageDataStore :=
  let p := off / imageDataPageSize in
  let pageOffset := off mod imageDataPageSize in
  match locationOf d p with
  | None =>
      match allocatePageLocked io (put (zeros imageDataPageSize) pageOffset piece) s with
      | (Ok l, s) => (Ok tt, insert p l d, s)
      | (Err e, s) => (Err e, d, s)
      | (Panic, s) => (Panic, d, s)
      end
  | Some l =>
      match writeAtCOW io l pageOffset piece s with
      | (Ok l', s) => (Ok tt, if l' =? l then d else replace p l' d, s)
      | (Err e, s) => (Err e, d, s)
      | (Panic, s) => (Panic, d, s)
      end
  end.

(** [ios]: the outcome of the host operations, page by page. *)
Fixpoint writeLoop (fuel : nat) (ios : list hostIO) (src : bytes) (off written : Z) (d : sparseImageData) (s : imageDataStore)
  : result pageError unit * Z * sparseImageData * imageDataStore :=
  match fuel, src with
  | S fuel, _ :: _ =>
      let n := Z.min (len src) (imageDataPageSize - off mod imageDataPageSize) in
      match writePiece (default HostDone (head ios)) (slice src 0 n) off d s with
      | (Ok _, d, s) => writeLoop fuel (tail ios) (slice src n (len src)) (wrap 64 (off + n)) (written + n) d s
      | (Err e, d, s) => (Err e, written, d, s)
      | (Panic, d, s) => (Panic, written, d, s)
      end
  | _, _ => (Ok tt, written, d, s)
  end.

Definition writeAt (ios : list hostIO) (src : bytes) (off : Z) (d : sparseImageData) (s : imageDataStore)
  : result pageError unit * Z * sparseImageData * imageDataStore :=
  writeLoop (length src) ios src off 0 d s.

(** The tokens of the pages of an extent from the [k]-th on. *)
Definition tokens (e : imageDataExtent) (k : Z) : list Z := (fun i => wrap 64 (location e + k + i)) <$> seqZ 0 (count e - k).

Definition releaseAll (ls : list Z) (s : imageDataStore) : imageDataStore := foldl (fun s l => releasePage l s) s ls.

(** How many pages of an extent a truncation keeps. *)
Definition keepCount (keepPages : Z) (e : imageDataExtent) : Z :=
  if keepPages <=? page e then 0 else Z.min (count e) (Z.max 0 (keepPages - Z.min keepPages (page e))).

Definition keepExtents (keepPages : Z) (d : sparseImageData) : sparseImageData :=
  omap (fun e => if keepCount keepPages e =? 0 then None else Some (e <| count := keepCount keepPages e |>)) d.

Definition truncate (io : hostIO) (size : Z) (d : sparseImageData) (s : imageDataStore)
  : result pageError unit * sparseImageData * imageDataStore :=
  let keepPages := size / imageDataPageSize + (if size mod imageDataPageSize =? 0 then 0 else 1) in
  let s := releaseAll (concat ((fun e => tokens e (keepCount keepPages e)) <$> d)) s in
  let d := keepExtents keepPages d in
  if size mod imageDataPageSize =? 0 then (Ok tt, d, s)
  else
    match locationOf d (size / imageDataPageSize) with
    | None => (Ok tt, d, s)
    | Some l =>
        match writeAtCOW io l (size mod imageDataPageSize) (zeros (imageDataPageSize - size mod imageDataPageSize)) s with
        | (Ok l', s) => (Ok tt, if l' =? l then d else replace (size / imageDataPageSize) l' d, s)
        | (Err e, s) => (Err e, d, s)
        | (Panic, s) => (Panic, d, s)
        end
    end.

Definition release (d : sparseImageData) (s : imageDataStore) : imageDataStore :=
  releaseAll (concat ((fun e => tokens e 0) <$> d)) s.

(** The bytes of one extent that lie below the size. *)
Definition addExtent (size allocated : Z) (e : imageDataExtent) : Z :=
  let fullPages := size / imageDataPageSize in
  let partialBytes := size mod imageDataPageSize in
  let allocated :=
    if page e <? fullPages then wrap 64 (allocated + Z.min (count e) (fullPages - page e) * imageDataPageSize) else allocated in
  if negb (partialBytes =? 0) && (page e <=? fullPages) && (fullPages - page e <? count e)
  then wrap 64 (allocated + partialBytes) else allocated.

Definition allocatedBytes (size : Z) (d : sparseImageData) : Z := foldl (addExtent size) 0 d.

(** What [Lseek] looks at in a node. *)
Record seekNode := mkSeekNode { size : Z; lowerSize : Z; abstractFile : bool; lowerFile : bool; data : sparseImageData }.

Inductive seekErrno := EBADF | ENXIO | EINVAL.

(** [node] is [None] when the handle or the node is not there; [whence] 3 looks for data and 4
    for a hole. *)
Definition Lseek (node : option seekNode) (offset whence : Z) : result seekErrno Z :=
  match node with
  | None => Err EBADF
  | Some node =>
      let lower := if abstractFile node then size node else lowerSize node in
      if size node <=? offset then Err ENXIO
      else if (abstractFile node || lowerFile node && (offset <? lowerSize node)) && (offset <? lower) then
        if whence =? 3 then Ok offset else if whence =? 4 then Ok lower else Err EINVAL
      else
        let p := offset / imageDataPageSize in
        if whence =? 3 then
          match locationOf (data node) p with
          | Some _ => Ok offset
          | None =>
              match nextDataPage (data node) (wrap 64 (p + 1)) with
              | Some candidate =>
                  if wrap 64 (candidate * imageDataPageSize) <? size node then Ok (wrap 64 (candidate * imageDataPageSize)) else Err ENXIO
              | None => Err ENXIO
              end
          end
        else if whence =? 4 then
          match locationOf (data node) p with
          | None => Ok offset
          | Some _ =>
              let candidate := nextHolePage (data node) p in
              if wrap 64 (candidate * imageDataPageSize) <? size node then Ok (wrap 64 (candidate * imageDataPageSize)) else Ok (size node)
          end
        else Err EINVAL
  end.

(** The pages of a file with their tokens, in order. *)
Definition pagesOf (d : sparseImageData) : list (Z * Z) :=
  concat ((fun e => (fun i => (wrap 64 (page e + i), wrap 64 (location e + i))) <$> seqZ 0 (count e)) <$> d).

Inductive snapshotError := Cancelled | RetainFailed (e : pageError).

(** Retain every page for a snapshot; on a failure the snapshot's pages are released.
    [cancelled]: what the context says before each page. *)
Fixpoint snapshotLoop (ps : list (Z * Z)) (cancelled : list bool) (copy : sparseImageData) (s : imageDataStore)
  : result snapshotError sparseImageData * imageDataStore :=
  match ps with
  | [] => (Ok copy, s)
  | (p, l) :: ps =>
      if default false (head cancelled) then (Err Cancelled, release copy s)
      else
        match retainPage l s with
        | (Ok _, s) => snapshotLoop ps (tail cancelled) (insert p l copy) s
        | (Err e, s) => (Err (RetainFailed e), release copy s)
        | (Panic, s) => (Panic, s)
        end
  end.

Definition snapshotData (cancelled : list bool) (d : sparseImageData) (s : imageDataStore)
  : result snapshotError sparseImageData * imageDataStore :=
  snapshotLoop (pagesOf d) cancelled [] s.

(** * Extents as a map from pages to tokens *)

Definition extentOK (e : imageDataExtent) : Prop := 1 <= count e /\ 0 < location e /\ location e + count e <= 2 ^ 64.

(** The extents lie in order between two pages. *)
Fixpoint chain (lo : Z) (d : sparseImageData) (hi : Z) : Prop :=
  match d with
  | [] => lo <= hi
  | e :: d => lo <= page e /\ extentOK e /\ chain (page e + count e) d hi
  end.

Abbreviation pageLimit := (2 ^ 52)%Z.
Definition wf (d : sparseImageData) : Prop := chain 0 d pageLimit.

(** The token of a page, by a walk over all extents. *)
Fixpoint locate (d : sparseImageData) (p : Z) : option Z :=
  match d with
  | [] => None
  | e :: d => if (page e <=? p) && (p <? page e + count e) then Some (location e + p - page e) else locate d p
  end.

Lemma chain_bounds lo d hi : chain lo d hi -> lo <= hi.
Proof. revert lo. induction d as [|e d IH]; intros lo; [done|]. intros (H & (Hc & _) & K). apply IH in K. lia. Qed.

Lemma chain_weaken lo lo' d hi hi' : lo' <= lo -> hi <= hi' -> chain lo d hi -> chain lo' d hi'.
Proof.
  revert lo lo'. induction d as [|e d IH]; cbn; intros lo lo' H H'; [lia|]. intros (A & B & C). split_and!; [lia|done|].
  by apply (IH _ (page e + count e)) in C.
Qed.

Lemma chain_app lo a b hi : chain lo (a ++ b) hi <-> exists mid, chain lo a mid /\ chain mid b hi.
Proof.
  revert lo. induction a as [|e a IH]; cbn; intros lo; split.
  - intros H. by exists lo.
  - intros (mid & H & K). by apply (chain_weaken mid lo b hi hi).
  - intros (A & B & (mid & C & D)%IH). by exists mid.
  - intros (mid & (A & B & C) & D). split_and!; [done..|]. apply IH. by exists mid.
Qed.

Lemma locate_app a b p : locate (a ++ b) p = match locate a p with Some l => Some l | None => locate b p end.
Proof. induction a as [|e a IH]; cbn; [done|]. by destruct (_ && _). Qed.

Lemma locate_outside lo d hi p : chain lo d hi -> p < lo \/ hi <= p -> locate d p = None.
Proof.
  revert lo. induction d as [|e d IH]; cbn; intros lo; [done|]. intros (A & (B & _) & C) Hp. pose proof (chain_bounds _ _ _ C).
  destruct (Z.leb_spec (page e) p), (Z.ltb_spec p (page e + count e)); try lia; cbn; apply (IH (page e + count e)); try done; lia.
Qed.

Lemma locate_token lo d hi p l : chain lo d hi -> locate d p = Some l -> 0 < l < 2 ^ 64 /\ lo <= p < hi.
Proof.
  intros H E. split.
  2: { destruct (decide (p < lo \/ hi <= p)) as [K|]; [|lia]. by rewrite (locate_outside _ _ _ _ H K) in E. }
  revert lo H E. induction d as [|e d IH]; cbn; intros lo; [done|]. intros (A & (B & C & D) & K).
  destruct (Z.leb_spec (page e) p), (Z.ltb_spec p (page e + count e)); cbn; [intros [= <-]; lia|by apply (IH _ K)..].
Qed.

Lemma chain_lookup lo d hi i e : chain lo d hi -> d !! i = Some e -> lo <= page e /\ page e + count e <= hi /\ extentOK e.
Proof.
  intros H E. rewrite <- (take_drop_middle _ _ _ E) in H. apply chain_app in H as (mid & A & B & C & D).
  apply chain_bounds in A, D. split_and!; try done; lia.
Qed.

Lemma chain_lookup_lt lo d hi i j e f : chain lo d hi -> d !! i = Some e -> d !! j = Some f -> (i < j)%nat ->
  page e + count e <= page f.
Proof.
  intros H E F Hij. rewrite <- (take_drop_middle _ _ _ E) in H. apply chain_app in H as (mid & A & B & C & D).
  apply (chain_lookup _ _ _ (j - S i) f) in D; [tauto|]. rewrite lookup_drop, <- F. f_equal. lia.
Qed.

Lemma pageEnd_wf d i e : wf d -> d !! i = Some e -> pageEnd e = page e + count e.
Proof.
  intros H E. destruct (chain_lookup _ _ _ _ _ H E) as (A & B & (C & _)). unfold pageEnd. apply wrap_small. width.
Qed.

(** A search over the extents for a predicate that stays true splits them. *)
Lemma search_split d (f : imageDataExtent -> bool) :
  (forall i j e g, d !! i = Some e -> d !! j = Some g -> (i <= j)%nat -> f e = true -> f g = true) ->
  let i := Z.to_nat (sortSearch (len d) (fun i => match d !! Z.to_nat i with Some e => f e | None => true end)) in
  (i <= length d)%nat /\ Forall (fun e => f e = false) (take i d) /\ Forall (fun e => f e = true) (drop i d).
Proof.
  intros Hm i. destruct (sortSearch_spec (len d) (fun i => match d !! Z.to_nat i with Some e => f e | None => true end))
    as (A & B & C); [apply len_nonneg| |].
  { intros j k Hj Hk. destruct (d !! Z.to_nat j) as [e|] eqn:E, (d !! Z.to_nat k) as [g|] eqn:G; [|done| |done].
    - apply (Hm _ _ e g E G). lia.
    - apply lookup_ge_None in E. apply lookup_lt_Some in G. lia. }
  fold i in A. unfold len in *. split; [lia|]. split; apply Forall_lookup; intros j e Hj.
  - apply lookup_take_Some in Hj as [Hj Hi]. specialize (B (Z.of_nat j) ltac:(lia)). by rewrite Nat2Z.id, Hj in B.
  - rewrite lookup_drop in Hj. pose proof (lookup_lt_Some _ _ _ Hj). specialize (C (Z.of_nat (i + j)) ltac:(lia)).
    by rewrite Nat2Z.id, Hj in C.
Qed.

Lemma Forall_head {A} (P : A -> Prop) l x r : Forall P l -> l = x :: r -> P x.
Proof. intros H ->. by apply Forall_cons in H as [? _]. Qed.

(** The first extent that ends behind a page, if there is one: the page is in it or in no extent. *)
Lemma firstEndingAfter_spec d p : wf d ->
  match d !! firstEndingAfter d p with
  | Some e => p < page e + count e /\ extentOK e /\ 0 <= page e /\ page e + count e <= pageLimit /\ pageEnd e = page e + count e /\
      (forall q, p <= q < page e -> locate d q = None) /\
      (forall q, page e <= q < page e + count e -> locate d q = Some (location e + q - page e))
  | None => forall q, p <= q -> locate d q = None
  end.
Proof.
  intros H. unfold firstEndingAfter.
  destruct (search_split d (fun e => p <? pageEnd e)) as (L & B & A).
  { intros i j e g E G Hij. rewrite (pageEnd_wf d i e), (pageEnd_wf d j g) by done. rewrite !Z.ltb_lt.
    destruct (decide (i = j)) as [->|]; [replace g with e by congruence; done|].
    pose proof (chain_lookup_lt _ _ _ i j e g H E G ltac:(lia)). pose proof (chain_lookup _ _ _ _ _ H G) as (_ & _ & (? & _)). lia. }
  set (i := Z.to_nat _) in *.
  assert (Hb : forall q, p <= q -> locate (take i d) q = None).
  { intros q Hq. pose proof H as H'. rewrite <- (take_drop i d) in H'.
    assert (K : forall l, (forall e, e ∈ l -> page e + count e <= p) -> locate l q = None).
    { clear -Hq. induction l as [|e l IH]; intros K; [done|]. cbn. pose proof (K e ltac:(left)).
      rewrite (proj2 (Z.ltb_ge _ _)) by lia. rewrite andb_false_r. apply IH. intros f Hf. apply K. by right. }
    apply K. intros e He. rewrite Forall_forall in B. pose proof (B e He) as Be. apply Z.ltb_ge in Be.
    apply list_elem_of_lookup in He as [j Hj]. apply lookup_take_Some in Hj as [Hj _].
    by rewrite (pageEnd_wf d j e) in Be. }
  destruct (d !! i) as [e|] eqn:E.
  - pose proof (pageEnd_wf d i e H E) as Pe. destruct (chain_lookup _ _ _ _ _ H E) as (C1 & C2 & C3).
    assert (p < page e + count e).
    { rewrite (drop_S _ _ _ E) in A. apply Forall_cons in A as [A _]. apply Z.ltb_lt in A. lia. }
    pose proof H as H'. rewrite <- (take_drop_middle _ _ _ E) in H'. apply chain_app in H' as (mid & D1 & D2 & _ & D3).
    assert (Hr : forall q, p <= q < page e -> locate d q = None).
    { intros q Hq. rewrite <- (take_drop_middle _ _ _ E), locate_app, Hb by lia. cbn.
      rewrite (proj2 (Z.leb_gt _ _)) by lia. cbn. apply (locate_outside _ _ _ _ D3). destruct C3. lia. }
    split_and!; try done.
    intros q Hq. rewrite <- (take_drop_middle _ _ _ E), locate_app. rewrite (locate_outside _ _ _ _ D1) by lia. cbn.
    rewrite (proj2 (Z.leb_le _ _)), (proj2 (Z.ltb_lt _ _)) by lia. done.
  - intros q Hq. rewrite <- (take_drop i d), locate_app, Hb by done. apply lookup_ge_None in E. by rewrite drop_ge.
Qed.

Lemma locationOf_locate d p : wf d -> locationOf d p = locate d p.
Proof.
  intros H. unfold locationOf. pose proof (firstEndingAfter_spec d p H) as K.
  destruct (d !! firstEndingAfter d p) as [e|]; [|by rewrite K].
  destruct K as (K1 & (O1 & O2 & O3) & K3 & K4 & K5 & K7 & K8). destruct (Z.ltb_spec p (page e)) as [L|L]; [by rewrite K7 by lia|].
  rewrite K8, wrap_small by width. done.
Qed.

Lemma nextDataPage_spec d p : wf d -> 0 <= p ->
  match nextDataPage d p with
  | Some q => p <= q < pageLimit /\ locate d q <> None /\ forall r, p <= r < q -> locate d r = None
  | None => forall r, p <= r -> locate d r = None
  end.
Proof.
  intros H Hp. unfold nextDataPage. pose proof (firstEndingAfter_spec d p H) as K.
  destruct (d !! firstEndingAfter d p) as [e|]; [|done].
  destruct K as (K1 & (O1 & _) & K3 & K4 & _ & K7 & K8). destruct (Z.ltb_spec p (page e)).
  - split_and!; [lia|lia|rewrite K8 by lia; done|]. intros r Hr. apply K7. lia.
  - split_and!; [lia|lia|rewrite K8 by lia; done|]. intros; lia.
Qed.

Lemma nextHolePage_spec d p : wf d -> 0 <= p -> locate d p <> None ->
  p < nextHolePage d p <= pageLimit /\ forall r, p <= r < nextHolePage d p -> locate d r <> None.
Proof.
  intros H Hp Hl. unfold nextHolePage. pose proof (firstEndingAfter_spec d p H) as K.
  destruct (d !! firstEndingAfter d p) as [e|]; [|destruct Hl; apply K; lia].
  destruct K as (K1 & (O1 & _) & K3 & K4 & K5 & K7 & K8). destruct (Z.ltb_spec p (page e)); [destruct Hl; apply K7; lia|].
  rewrite K5. split; [lia|]. intros r Hr. rewrite K8 by lia. done.
Qed.

(** A new page between the extents before and behind it. *)
Lemma insertBefore_spec mid after p l : chain (p + 1) after pageLimit -> mid <= p -> 0 <= p -> 0 < l < 2 ^ 64 ->
  chain mid (insertBefore p l after) pageLimit /\
  forall q, locate (insertBefore p l after) q = if decide (q = p) then Some l else locate after q.
Proof.
  intros H H1 H0 H2. unfold insertBefore. pose proof (chain_bounds _ _ _ H) as Hp.
  assert (Hone : forall q r, locate (mkExtent p l 1 :: r) q = if decide (q = p) then Some l else locate r q).
  { intros q r. cbn. destruct (Z.leb_spec p q), (Z.ltb_spec q (p + 1)), (decide (q = p)); cbn; try lia; try done. f_equal. lia. }
  destruct after as [|e rest]; [split; [|intros q; apply Hone]; cbn; unfold extentOK; cbn; lia|].
  destruct H as (A & (B1 & B2 & B3) & C). pose proof (chain_bounds _ _ _ C). unfold joinsBefore.
  rewrite (wrap_small 64 (p + 1)) by width.
  destruct (Z.eqb_spec (p + 1) (page e)) as [E1|]; [destruct (Z.eqb_spec (wrap 64 (l + 1)) (location e)) as [E2|]|]; cbn [andb].
  2,3: split; [|intros q; apply Hone]; cbn; unfold extentOK; cbn; split_and!; try lia; done.
  assert (E3 : l + 1 = location e).
  { destruct (decide (l + 1 = 2 ^ 64)) as [E|]; [rewrite E in E2; change (wrap 64 (2 ^ 64)) with 0 in E2; lia|]. rewrite wrap_small in E2 by width. done. }
  rewrite (wrap_small 64 (count e + 1)) by width. split.
  - cbn. unfold extentOK. cbn. split_and!; try lia. by replace (p + (count e + 1)) with (page e + count e) by lia.
  - intros q. cbn. destruct (Z.leb_spec p q), (Z.ltb_spec q (p + (count e + 1))), (decide (q = p)),
      (Z.leb_spec (page e) q), (Z.ltb_spec q (page e + count e)); cbn; try lia; try done; f_equal; lia.
Qed.

(** The extent before grown by the page, and by the extent behind it. *)
Lemma joinsAfter_spec e p l : 0 <= page e -> extentOK e -> page e + count e <= pageLimit -> 0 < l < 2 ^ 64 ->
  joinsAfter e p l = true -> page e + count e = p /\ location e + count e = l.
Proof.
  intros H0 (H1 & H2 & H3) H4 H5. unfold joinsAfter, pageEnd. rewrite (wrap_small 64 (page e + _)) by width.
  rewrite andb_true_iff, !Z.eqb_eq. intros [-> E]. split; [done|].
  destruct (decide (location e + count e = 2 ^ 64)) as [K|]; [rewrite K in E; change (wrap 64 (2 ^ 64)) with 0 in E; lia|]. by rewrite wrap_small in E by width.
Qed.

Lemma joinsBefore_spec e p l : 0 <= p < pageLimit -> extentOK e -> 0 < l < 2 ^ 64 ->
  joinsBefore p l e = true -> p + 1 = page e /\ l + 1 = location e.
Proof.
  intros H0 (H1 & H2 & H3) H4. unfold joinsBefore. rewrite (wrap_small 64 (p + 1)) by width.
  rewrite andb_true_iff, !Z.eqb_eq. intros [-> E]. split; [done|].
  destruct (decide (l + 1 = 2 ^ 64)) as [K|]; [rewrite K in E; change (wrap 64 (2 ^ 64)) with 0 in E; lia|]. by rewrite wrap_small in E by width.
Qed.

Lemma growPrevious_spec mid prev after p l :
  chain mid (prev :: after) pageLimit -> 0 <= mid -> 0 < l < 2 ^ 64 -> chain (p + 1) after pageLimit -> joinsAfter prev p l = true ->
  chain mid (growPrevious prev p l after) pageLimit /\
  forall q, locate (growPrevious prev p l after) q = if decide (q = p) then Some l else locate (prev :: after) q.
Proof.
  intros (A & B & C) Hm Hl H Hj. pose proof (chain_bounds _ _ _ C) as Hb. pose proof (chain_bounds _ _ _ H) as Hb'.
  apply joinsAfter_spec in Hj as [J1 J2]; [|lia|done|done|done]. destruct B as (B1 & B2 & B3). unfold growPrevious.
  assert (Hw : wrap 64 (count prev + 1) = count prev + 1) by (apply wrap_small; width).
  assert (Hgrow : forall n after', n = count prev + 1 -> chain (p + 1) after' pageLimit ->
    chain mid ((prev <| count := n |>) :: after') pageLimit /\
    forall q, locate ((prev <| count := n |>) :: after') q = if decide (q = p) then Some l else locate (prev :: after') q).
  { intros n after' -> C'. split.
    - cbn. unfold extentOK. cbn. split_and!; try lia. by replace (page prev + (count prev + 1)) with (p + 1) by lia.
    - intros q. cbn. destruct (Z.leb_spec (page prev) q), (Z.ltb_spec q (page prev + (count prev + 1))),
        (Z.ltb_spec q (page prev + count prev)), (decide (q = p)); cbn; try lia; try done. f_equal. lia. }
  destruct after as [|e rest]; [by apply Hgrow|]. destruct (joinsBefore p l e) eqn:E; [|by apply Hgrow].
  destruct H as (D1 & D2 & D3). pose proof (chain_bounds _ _ _ D3). pose proof D2 as (D4 & D5 & D6).
  apply joinsBefore_spec in E as [E1 E2]; [|lia|done|done].
  replace (wrap 64 _) with (count prev + 1 + count e) by (cbn; rewrite Hw, wrap_small by width; done).
  split.
  - cbn. unfold extentOK. cbn. split_and!; try lia. by replace (page prev + (count prev + 1 + count e)) with (page e + count e) by lia.
  - intros q. cbn. destruct (Z.leb_spec (page prev) q), (Z.ltb_spec q (page prev + (count prev + 1 + count e))),
      (Z.ltb_spec q (page prev + count prev)), (decide (q = p)), (Z.leb_spec (page e) q), (Z.ltb_spec q (page e + count e));
      cbn; try lia; try done; f_equal; lia.
Qed.

(** Where the page goes: between the extents that end before it and those that start behind it. *)
Lemma insert_shape d p l : wf d -> locate d p = None -> 0 <= p < pageLimit ->
  exists a b mid, d = a ++ b /\ chain 0 a mid /\ mid <= p /\ chain (p + 1) b pageLimit /\
    (insert p l d = a ++ insertBefore p l b \/
     exists bs prev, a = bs ++ [prev] /\ joinsAfter prev p l = true /\ insert p l d = bs ++ growPrevious prev p l b).
Proof.
  intros H Hn Hp. unfold insert. destruct (search_split d (fun e => p <=? page e)) as (L & B & A).
  { intros i j e g E G Hij. rewrite !Z.leb_le. destruct (decide (i = j)) as [->|]; [replace g with e by congruence; done|].
    pose proof (chain_lookup_lt _ _ _ i j e g H E G ltac:(lia)). pose proof (chain_lookup _ _ _ _ _ H E) as (_ & _ & (? & _)). lia. }
  set (i := Z.to_nat _) in *. cbv zeta.
  unfold wf in H. rewrite <- (take_drop i d) in H, Hn. apply chain_app in H as (mid & C1 & C2).
  rewrite locate_app in Hn. destruct (locate (take i d) p) eqn:Hn1; [done|].
  assert (C3 : chain (p + 1) (drop i d) pageLimit).
  { destruct (drop i d) as [|e rest]; [cbn; lia|]. apply Forall_cons in A as [A _]. apply Z.leb_le in A. destruct C2 as (D1 & D2 & D3).
    split; [|done]. destruct D2 as (D2 & _). cbn in Hn. destruct (Z.leb_spec (page e) p), (Z.ltb_spec p (page e + count e)); cbn in Hn; try done; lia. }
  exists (take i d), (drop i d). destruct (last (take i d)) as [prev|] eqn:El.
  2: { apply last_None in El. rewrite El in *. exists 0. cbn. split_and!; try done; [rewrite <- (take_drop i d) at 1; by rewrite El|lia|by left]. }
  apply last_Some in El as [bs El].
  assert (Hbs : take (i - 1) d = bs).
  { assert (length (take i d) = i) as Li by (rewrite length_take; lia). rewrite El, length_app in Li. cbn in Li.
    replace (i - 1)%nat with (min (i - 1) i) by lia. rewrite <- take_take, El. apply take_app_length'. lia. }
  rewrite El in C1, B, Hn1. apply chain_app in C1 as (m1 & D1 & D2 & D3 & D4). apply Forall_app in B as [_ B].
  apply Forall_cons in B as [B _]. apply Z.leb_gt in B. exists (page prev + count prev). split_and!; [by rewrite take_drop|..|done|].
  - rewrite El. apply chain_app. exists m1. cbn. by split_and!.
  - rewrite locate_app in Hn1. destruct (locate bs p); [done|]. cbn in Hn1.
    destruct (Z.leb_spec (page prev) p), (Z.ltb_spec p (page prev + count prev)); cbn in Hn1; try done; lia.
  - destruct (joinsAfter prev p l) eqn:Ej; [right|by left]. exists bs, prev. by rewrite Hbs.
Qed.

Lemma insert_spec d p l : wf d -> locate d p = None -> 0 <= p < pageLimit -> 0 < l < 2 ^ 64 ->
  wf (insert p l d) /\ forall q, locate (insert p l d) q = if decide (q = p) then Some l else locate d q.
Proof.
  intros H Hn Hp Hl. destruct (insert_shape d p l H Hn Hp) as (a & b & mid & -> & A & M & B & [->|(bs & prev & -> & J & ->)]).
  - destruct (insertBefore_spec mid b p l B M ltac:(lia) Hl) as [I1 I2]. split; [apply chain_app; eauto|].
    intros q. rewrite !locate_app, I2. rewrite locate_app in Hn. destruct (decide (q = p)) as [->|]; [|done]. by destruct (locate a p).
  - rewrite <- app_assoc in *. cbn [app] in *. apply chain_app in H as (m & F1 & F2). pose proof (chain_bounds _ _ _ F1) as M2.
    destruct (growPrevious_spec m prev b p l F2 M2 Hl B J) as [G1 G2].
    split; [apply chain_app; eauto|]. intros q. rewrite !locate_app, G2. rewrite locate_app in Hn.
    destruct (decide (q = p)) as [->|]; [|done]. by destruct (locate bs p).
Qed.

Lemma cutPage_spec lo d p : 0 <= lo -> chain lo d pageLimit ->
  chain lo (cutPage p d) pageLimit /\ forall q, locate (cutPage p d) q = if decide (q = p) then None else locate d q.
Proof.
  revert lo. induction d as [|e d IH]; intros lo H0; cbn; [intros; split; [done|]; intros q; by case_decide|].
  intros (A & B & C). pose proof (chain_bounds _ _ _ C). pose proof B as (B1 & B2 & B3).
  assert (pageEnd e = page e + count e) as -> by (apply wrap_small; width).
  destruct (IH (page e + count e) ltac:(lia) C) as [I1 I2].
  destruct (Z.ltb_spec p (page e)), (Z.leb_spec (page e + count e) p); cbn [orb]; try lia.
  1,2: cbn; split; [done|]; intros q; rewrite I2; destruct (Z.leb_spec (page e) q), (Z.ltb_spec q (page e + count e)), (decide (q = p)); cbn; try lia; done.
  assert (Hd : locate d p = None) by (apply (locate_outside _ _ _ _ C); lia).
  destruct (Z.eqb_spec (p - page e) 0), (Z.eqb_spec (page e + count e - p - 1) 0); try rewrite (wrap_small 64) by width; cbn; unfold extentOK; cbn;
    (split; [split_and?; try lia; apply (chain_weaken (page e + count e) _ d pageLimit pageLimit); try done; lia|]);
    intros q;
    destruct (Z.leb_spec (page e) q), (Z.ltb_spec q (page e + count e)), (decide (q = p)) as [->|];
    repeat (match goal with |- context [?a <=? ?b] => destruct (Z.leb_spec a b) | |- context [?a <? ?b] => destruct (Z.ltb_spec a b) end);
    cbn; try lia; try done; try (f_equal; lia).
Qed.

Lemma replace_spec d p l : wf d -> 0 <= p < pageLimit -> 0 < l < 2 ^ 64 ->
  wf (replace p l d) /\ forall q, locate (replace p l d) q = if decide (q = p) then Some l else locate d q.
Proof.
  intros H Hp Hl. unfold replace. destruct (cutPage_spec 0 d p ltac:(lia) H) as [C1 C2].
  destruct (insert_spec (cutPage p d) p l C1) as [I1 I2]; [by rewrite C2, decide_True|done|done|].
  split; [done|]. intros q. rewrite I2, C2. by case_decide.
Qed.

Lemma keepCount_spec k e : 0 <= page e -> 1 <= count e -> 0 <= k ->
  keepCount k e = Z.max 0 (Z.min (count e) (k - page e)).
Proof. intros. unfold keepCount. destruct (Z.leb_spec k (page e)); lia. Qed.

Lemma keepExtents_spec lo d k : 0 <= lo -> 0 <= k -> chain lo d pageLimit ->
  chain lo (keepExtents k d) pageLimit /\ forall q, locate (keepExtents k d) q = if decide (q < k) then locate d q else None.
Proof.
  revert lo. induction d as [|e d IH]; intros lo H0 Hk; cbn; [intros; split; [done|]; intros q; by case_decide|].
  intros (A & B & C). pose proof (chain_bounds _ _ _ C). pose proof B as (B1 & B2 & B3).
  destruct (IH (page e + count e) ltac:(lia) Hk C) as [I1 I2]. unfold keepExtents in *. rewrite (keepCount_spec k e) by lia.
  destruct (Z.eqb_spec (Z.max 0 (Z.min (count e) (k - page e))) 0); cbn.
  - split; [apply (chain_weaken (page e + count e) _ _ pageLimit pageLimit); try done; lia|]. intros q. rewrite I2.
    destruct (decide (q < k)), (Z.leb_spec (page e) q), (Z.ltb_spec q (page e + count e)); cbn; try lia; done.
  - unfold extentOK. cbn. split; [split_and!; try lia; apply (chain_weaken (page e + count e) _ _ pageLimit pageLimit); try done; lia|].
    intros q. rewrite I2. destruct (decide (q < k)), (Z.leb_spec (page e) q), (Z.ltb_spec q (page e + count e)),
      (Z.ltb_spec q (page e + Z.max 0 (Z.min (count e) (k - page e)))); cbn; try lia; done.
Qed.

(** * The pages of a file as a list *)

Lemma elem_of_pages lo d q l : 0 <= lo -> chain lo d pageLimit -> (q, l) ∈ pagesOf d <-> locate d q = Some l.
Proof.
  intros H0. revert lo H0. induction d as [|e d IH]; intros lo H0 H; cbn; [split; [by intros ?%not_elem_of_nil|done]|].
  destruct H as (A & (B1 & B2 & B3) & C). pose proof (chain_bounds _ _ _ C). unfold pagesOf in *. cbn.
  rewrite elem_of_app, (IH (page e + count e)) by (done || lia).
  assert (K : (q, l) ∈ ((fun i => (wrap 64 (page e + i), wrap 64 (location e + i))) <$> seqZ 0 (count e)) <->
    page e <= q < page e + count e /\ l = location e + q - page e).
  { rewrite list_elem_of_fmap. split.
    - intros (i & [= -> ->] & Hi%elem_of_seqZ). rewrite !wrap_small by width. lia.
    - intros [Hq ->]. exists (q - page e). rewrite elem_of_seqZ. split; [|lia]. rewrite !wrap_small by width. f_equal; lia. }
  rewrite K. destruct (Z.leb_spec (page e) q), (Z.ltb_spec q (page e + count e)); cbn; [|naive_solver lia..].
  assert (locate d q = None) as -> by (apply (locate_outside _ _ _ _ C); lia). naive_solver lia.
Qed.

Lemma elem_pages d q l : wf d -> (q, l) ∈ pagesOf d <-> locate d q = Some l.
Proof. apply elem_of_pages. lia. Qed.

Lemma pages_nodup lo d : 0 <= lo -> chain lo d pageLimit -> NoDup (pagesOf d).
Proof.
  revert lo. induction d as [|e d IH]; intros lo H0 H; [constructor|].
  pose proof H as (A & (B1 & B2 & B3) & C). pose proof (chain_bounds _ _ _ C). change (pagesOf (e :: d)) with
    (((fun i => (wrap 64 (page e + i), wrap 64 (location e + i))) <$> seqZ 0 (count e)) ++ pagesOf d).
  apply NoDup_app. split_and!.
  - apply NoDup_fmap_2_strong; [|apply NoDup_seqZ]. intros i j Hi%elem_of_seqZ Hj%elem_of_seqZ [= E _].
    rewrite !wrap_small in E by width. lia.
  - intros [q l] (i & [= -> ->] & Hi%elem_of_seqZ)%list_elem_of_fmap K.
    apply (elem_of_pages (page e + count e)) in K; [|lia|done]. rewrite wrap_small in K by width.
    apply (locate_token _ _ _ _ _ C) in K. lia.
  - apply (IH (page e + count e)); [lia|done].
Qed.

(** * The bytes of a size that lie in pages *)

Definition bytesIn (sz p : Z) : Z := Z.max 0 (Z.min 4096 (sz - p * 4096)).

Definition sumBytes (sz : Z) (ps : list (Z * Z)) : Z := foldr (fun p n => bytesIn sz p.1 + n) 0 ps.

Lemma sumBytes_app sz a b : sumBytes sz (a ++ b) = sumBytes sz a + sumBytes sz b.
Proof. unfold sumBytes. induction a as [|p a IH]; cbn [app foldr]; [done|]. rewrite IH. lia. Qed.

(** The bytes of [n] pages from [p] on. *)
Lemma sumBytes_run sz p l n : 0 <= sz -> 0 <= p -> 0 <= l -> p + Z.of_nat n <= pageLimit -> l + Z.of_nat n <= 2 ^ 64 ->
  sumBytes sz ((fun i => (wrap 64 (p + i), wrap 64 (l + i))) <$> seqZ 0 (Z.of_nat n)) =
    Z.max 0 (Z.min (Z.of_nat n * 4096) (sz - p * 4096)).
Proof.
  intros Hs Hp Hl. induction n as [|n IH]; intros H1 H2; [change (0 = Z.max 0 (Z.min 0 (sz - p * 4096))); lia|].
  replace (Z.of_nat (S n)) with (Z.of_nat n + 1) in * by lia. rewrite seqZ_app, fmap_app, sumBytes_app, IH by lia.
  rewrite seqZ_cons, (seqZ_nil _ (Z.pred 1)) by lia. unfold sumBytes. cbn [fmap list_fmap foldr fst].
  rewrite wrap_small by width. unfold bytesIn. lia.
Qed.

(** The space a file of some size takes is the number of its bytes that lie in pages. *)
Theorem allocated_bytes_exact d sz : wf d -> 0 <= sz < 2 ^ 64 -> allocatedBytes sz d = sumBytes sz (pagesOf d).
Proof.
  intros H Hs. unfold allocatedBytes.
  enough (K : forall lo acc, 0 <= lo -> chain lo d pageLimit -> 0 <= acc <= sz -> acc <= lo * 4096 ->
    foldl (addExtent sz) acc d = acc + sumBytes sz (pagesOf d)) by (rewrite (K 0 0); [done|lia|done|lia|lia]).
  clear H. induction d as [|e d IH]; intros lo acc H0 H Ha Hb; cbn [foldl]; [change (acc = acc + 0); lia|].
  destruct H as (A & (B1 & B2 & B3) & C). pose proof (chain_bounds _ _ _ C).
  change (pagesOf (e :: d)) with (((fun i => (wrap 64 (page e + i), wrap 64 (location e + i))) <$> seqZ 0 (count e)) ++ pagesOf d).
  pose proof (sumBytes_run sz (page e) (location e) (Z.to_nat (count e))) as R. rewrite Z2Nat.id in R by lia.
  rewrite sumBytes_app, R by lia. clear R.
  assert (Ea : addExtent sz acc e = acc + Z.max 0 (Z.min (count e * 4096) (sz - page e * 4096))).
  { unfold addExtent. clear IH. cbv zeta. assert (Hd : sz = sz / 4096 * 4096 + sz mod 4096 /\ 0 <= sz mod 4096 < 4096) by dlia.
    set (full := sz / 4096) in *. set (part := sz mod 4096) in *. clearbody full part.
    destruct (Z.ltb_spec (page e) full), (Z.eqb_spec part 0), (Z.leb_spec (page e) full), (Z.ltb_spec (full - page e) (count e));
      cbn [negb andb]; try rewrite (wrap_small 64 (acc + Z.min _ _ * 4096)) by width;
      try rewrite (wrap_small 64 (_ + part)) by width; lia. }
  rewrite Ea, (IH (page e + count e)) by (try done; lia). lia.
Qed.

(** Extents with the same pages. *)
Lemma pages_perm d ps : wf d -> NoDup ps -> (forall q l, (q, l) ∈ ps <-> locate d q = Some l) -> pagesOf d ≡ₚ ps.
Proof.
  intros H Hn K. apply NoDup_Permutation; [exact (pages_nodup 0 d ltac:(lia) H)|done|]. intros [q l].
  rewrite (elem_pages d q l H). by rewrite K.
Qed.

Lemma pages_insert d d' p l : wf d -> wf d' -> locate d p = None ->
  (forall q, locate d' q = if decide (q = p) then Some l else locate d q) -> pagesOf d' ≡ₚ (p, l) :: pagesOf d.
Proof.
  intros H H' Hn K. apply pages_perm; [done|..].
  - apply NoDup_cons. split; [|exact (pages_nodup 0 d ltac:(lia) H)]. by rewrite (elem_pages d p l H), Hn.
  - intros q l'. rewrite elem_of_cons, (elem_pages d q l' H), K. case_decide; naive_solver.
Qed.

(** The pages before a page's token is replaced, and after. *)
Lemma pages_replace d d' p l l' : wf d -> wf d' -> 0 <= p < pageLimit -> locate d p = Some l ->
  (forall q, locate d' q = if decide (q = p) then Some l' else locate d q) ->
  exists rest, pagesOf d ≡ₚ (p, l) :: rest /\ pagesOf d' ≡ₚ (p, l') :: rest.
Proof.
  intros H H' Hp E K. destruct (cutPage_spec 0 d p ltac:(lia) H) as [C1 C2]. exists (pagesOf (cutPage p d)).
  split; apply pages_insert; try done; try (by rewrite C2, decide_True); intros q; rewrite ?K, C2; case_decide; congruence.
Qed.

(** How often a token is used. *)
Definition occ (l : Z) (ls : list Z) : Z := len (filter (fun l' => l' = l) ls).
Definition uses (d : sparseImageData) (l : Z) : Z := occ l (pagesOf d).*2.

Lemma occ_nonneg l ls : 0 <= occ l ls.
Proof. apply len_nonneg. Qed.

Lemma occ_cons l x ls : occ l (x :: ls) = (if decide (x = l) then 1 else 0) + occ l ls.
Proof. unfold occ. rewrite filter_cons. case_decide; [by rewrite len_cons|lia]. Qed.

Lemma occ_app l a b : occ l (a ++ b) = occ l a + occ l b.
Proof. unfold occ. by rewrite filter_app, len_app. Qed.

Lemma occ_elem l ls : l ∈ ls <-> 1 <= occ l ls.
Proof.
  induction ls as [|x ls IH]; [split; [by intros ?%not_elem_of_nil|intros K; change (1 <= 0) in K; lia]|].
  rewrite elem_of_cons, occ_cons, IH. pose proof (occ_nonneg l ls). destruct (decide (x = l)) as [->|]; split.
  1,3: lia. { by left. } intros K. right. lia.
Qed.

#[export] Instance occ_perm l : Proper ((≡ₚ) ==> (=)) (occ l).
Proof. intros a b H. unfold occ, len. by rewrite H. Qed.

Lemma uses_nonneg d l : 0 <= uses d l.
Proof. apply occ_nonneg. Qed.

Lemma uses_perm d ps l : pagesOf d ≡ₚ ps -> uses d l = occ l ps.*2.
Proof. intros H. unfold uses. by rewrite H. Qed.

Lemma locate_uses d p l : wf d -> locate d p = Some l -> 1 <= uses d l.
Proof.
  intros H E. apply occ_elem, list_elem_of_fmap. exists (p, l). split; [done|]. by rewrite elem_pages.
Qed.

(** A token used once is the token of one page. *)
Lemma locate_unique d p q l : wf d -> 0 <= p < pageLimit -> locate d p = Some l -> locate d q = Some l -> uses d l <= 1 -> p = q.
Proof.
  intros H Hp E F U. destruct (decide (p = q)) as [|Hne]; [done|].
  destruct (pages_replace d d p l l H H Hp E) as (rest & R & _); [intros x; by case_decide; subst|].
  rewrite (uses_perm _ _ _ R) in U. cbn in U. rewrite occ_cons, decide_True in U by done.
  assert (1 <= occ l rest.*2); [|lia]. apply occ_elem, list_elem_of_fmap. exists (q, l). split; [done|].
  assert (K : (q, l) ∈ (p, l) :: rest) by (rewrite <- R; by rewrite elem_pages).
  apply elem_of_cons in K. naive_solver.
Qed.

(** * The bytes of a file *)

Definition byteAt (s : imageDataStore) (d : sparseImageData) (x : Z) : Z :=
  match locate d (x / 4096) with
  | Some l => at_ (default [] (pageBytes s l)) (x mod 4096)
  | None => 0
  end.

(** A file's pages are its own references; the other users hold [k]. *)
Record owns (k : Z -> Z) (s : imageDataStore) (d : sparseImageData) : Prop := {
  owns_wf : wf d;
  owns_held : held s (fun l => k l + uses d l);
  owns_others l : 0 <= k l;
}.

(** The pages others refer to are unchanged. *)
Definition frame (k : Z -> Z) (s s' : imageDataStore) : Prop := forall l, 1 <= k l -> pageBytes s' l = pageBytes s l.

Lemma frame_trans k s1 s2 s3 : frame k s1 s2 -> frame k s2 s3 -> frame k s1 s3.
Proof. intros A B l H. by rewrite B, A. Qed.

Lemma byte_put p po d i : 0 <= po -> po + len d <= len p -> 0 <= i ->
  at_ (put p po d) i = if decide (po <= i < po + len d) then at_ d (i - po) else at_ p i.
Proof.
  intros H1 H2 Hi. unfold at_. rewrite lookup_put. unfold len in *.
  repeat case_decide; try lia; try done. f_equal. f_equal. lia.
Qed.

Lemma at_zeros n i : at_ (zeros n) i = 0.
Proof. unfold at_. rewrite lookup_zeros. by case_decide. Qed.

Lemma at_slice l a b i : 0 <= a -> 0 <= i < b - a -> at_ (slice l a b) i = at_ l (a + i).
Proof. intros Ha H. unfold at_. rewrite lookup_slice, decide_True by lia. f_equal. f_equal. lia. Qed.

Lemma padded_full data : len data = 4096 -> padded data = data.
Proof. intros H. unfold padded. rewrite copy_into_fit by (rewrite len_zeros; lia). rewrite drop_ge, app_nil_r; [done|]. unfold zeros, len in *. rewrite length_replicate. lia. Qed.

(** One page given a token and contents of its own. *)
Lemma byteAt_update s s' d d' p l pg x :
  (forall q, locate d' q = if decide (q = p) then Some l else locate d q) -> pageBytes s' l = Some pg ->
  (forall q l', q <> p -> locate d q = Some l' -> pageBytes s' l' = pageBytes s l') ->
  byteAt s' d' x = if decide (x / 4096 = p) then at_ pg (x mod 4096) else byteAt s d x.
Proof.
  intros H1 H2 H3. unfold byteAt. rewrite H1. case_decide as E; [by rewrite H2|].
  destruct (locate d (x / 4096)) as [l'|] eqn:El; [|done]. by rewrite (H3 _ _ E El).
Qed.

(** The first [n] bytes of [src] are written at [off], the others perhaps. *)
Definition wrote (off : Z) (src : bytes) (n : Z) (b b' : Z -> Z) : Prop := forall x, 0 <= x ->
  if decide (off <= x < off + n) then b' x = at_ src (x - off)
  else if decide (off + n <= x < off + len src) then b' x = b x \/ b' x = at_ src (x - off)
  else b' x = b x.

(** A page that was [pg] and is [put pg po piece]. *)
Lemma wrote_page s s' d d' p pg off piece :
  off / 4096 = p -> off mod 4096 + len piece <= 4096 -> len pg = 4096 ->
  (forall x, x / 4096 = p -> byteAt s d x = at_ pg (x mod 4096)) ->
  (forall x, byteAt s' d' x = if decide (x / 4096 = p) then at_ (put pg (off mod 4096) piece) (x mod 4096) else byteAt s d x) ->
  wrote off piece (len piece) (byteAt s d) (byteAt s' d').
Proof.
  intros <- H1 H2 H3 H4 x Hx. rewrite H4. pose proof (len_nonneg piece) as Hp.
  destruct (decide (x / 4096 = off / 4096)) as [E|E].
  - rewrite byte_put by dlia. destruct (decide (off <= x < off + len piece)) as [K|K].
    + rewrite decide_True by dlia. f_equal. dlia.
    + rewrite decide_False by lia. rewrite decide_False by dlia. by rewrite H3.
  - rewrite decide_False by (intros K; apply E; dlia). by rewrite decide_False by lia.
Qed.

Lemma owns_page k s d p l : owns k s d -> locate d p = Some l ->
  exists pg, pageBytes s l = Some pg /\ len pg = 4096 /\ 1 <= k l + uses d l /\ 0 < l < 2 ^ 64 /\ 0 <= p < pageLimit.
Proof.
  intros [A B C] E. pose proof (locate_uses d p l A E). specialize (C l).
  destruct (held_page _ _ l B ltac:(lia)) as (pg & P1 & _ & P3 & P4). exists pg.
  destruct (locate_token _ _ _ _ _ A E). split_and!; try done; lia.
Qed.

(** A page with a new token in place of none. *)
Lemma owns_insert k s s' d p l : owns k s d -> locate d p = None -> 0 <= p < pageLimit -> 0 < l < 2 ^ 64 ->
  held s' (fun x => k x + uses d x + one l x) -> owns k s' (insert p l d).
Proof.
  intros [A B C] Hn Hp Hl H. destruct (insert_spec d p l A Hn Hp Hl) as [I1 I2]. split; [done| |done].
  revert H. apply held_ext. intros x. rewrite (uses_perm _ _ x (pages_insert d _ p l A I1 Hn I2)). cbn [fmap list_fmap snd]. rewrite occ_cons. unfold one, uses.
  repeat case_decide; lia.
Qed.

(** A write to a page of the file, in place or to a copy. *)
Lemma owns_cow io po data p l k s d : owns k s d -> next s < 2 ^ 63 -> locate d p = Some l -> 0 <= po -> po + len data <= 4096 ->
  match writeAtCOW io l po data s with
  | (Ok l', s') => let d' := if l' =? l then d else replace p l' d in
      owns k s' d' /\ frame k s s' /\
      exists pg, pageBytes s l = Some pg /\ len pg = 4096 /\
        forall x, byteAt s' d' x = if decide (x / 4096 = p) then at_ (put pg po data) (x mod 4096) else byteAt s d x
  | (Err _, s') => owns k s' d /\ frame k s s' /\
      ((forall x, byteAt s' d x = byteAt s d x) \/
       exists pg n, pageBytes s l = Some pg /\ len pg = 4096 /\
         forall x, byteAt s' d x = if decide (x / 4096 = p) then at_ (put pg po (slice data 0 n)) (x mod 4096) else byteAt s d x)
  | (Panic, _) => False
  end.
Proof.
  intros O Hn E H1 H2. destruct (owns_page k s d p l O E) as (pg & P1 & P2 & P3 & P4 & P5). destruct O as [A B C].
  pose proof (held_cow io l po data s _ B Hn H1 H2 P3) as K. pose proof (locate_uses d p l A E) as Hu. pose proof (C l) as Cl.
  assert (Hsame : forall q, locate d q = if decide (q = p) then Some l else locate d q) by (intros q; by case_decide; subst).
  destruct (writeAtCOW io l po data s) as [[l'|e|] s']; [| |done].
  - destruct K as (pg' & K1 & K2 & K3 & K4 & [(-> & K5 & K6)|(K5 & K6 & K7 & K8)]); rewrite P1 in K1; injection K1 as <-.
    + rewrite Z.eqb_refl. split_and!; [done|intros x Hx; apply K4; intros ->; lia|]. exists pg. split_and!; [done..|]. intros x.
      apply (byteAt_update s s' d d p l _ x Hsame K3). intros q l' Hq El. apply K4. intros ->.
      apply Hq. symmetry. apply (locate_unique d p q l); try done. lia.
    + rewrite (proj2 (Z.eqb_neq _ _) K5). destruct (replace_spec d p l' A P5 K2) as [R1 R2].
      pose proof (uses_nonneg d l'). pose proof (C l') as Cl'. split_and!.
      * split; [done| |done]. revert K8. apply held_ext. intros x.
        destruct (pages_replace d _ p l l' A R1 P5 E R2) as (rest & Q1 & Q2).
        rewrite (uses_perm _ _ x Q1), (uses_perm _ _ x Q2). cbn [fmap list_fmap snd]. rewrite !occ_cons. unfold one. repeat case_decide; lia.
      * intros x Hx. apply K4. intros ->. lia.
      * exists pg. split_and!; [done..|]. intros x. apply (byteAt_update s s' d _ p l' _ x R2 K3).
        intros q l2 Hq El. apply K4. intros ->. pose proof (locate_uses d q l' A El). lia.
  - destruct K as (K1 & K2 & K3). split_and!; [done|..].
    + intros x Hx. destruct (decide (x = l)) as [->|]; [|by apply K2]. destruct K3 as [K3|(K3 & _)]; [done|lia].
    + destruct K3 as [K3|(K3 & pg' & n & K4 & K5)].
      * left. intros x. unfold byteAt. destruct (locate d (x / 4096)) as [l'|]; [|done].
        destruct (decide (l' = l)) as [->|]; [by rewrite K3|by rewrite K2].
      * right. rewrite P1 in K4. injection K4 as <-. exists pg, n. split_and!; [done..|]. intros x.
        apply (byteAt_update s s' d d p l _ x Hsame K5). intros q l' Hq El. apply K2. intros ->.
        apply Hq. symmetry. apply (locate_unique d p q l); try done. lia.
Qed.

Lemma byteAt_page s d p l pg x : locate d p = Some l -> pageBytes s l = Some pg -> x / 4096 = p -> byteAt s d x = at_ pg (x mod 4096).
Proof. intros E P <-. unfold byteAt. by rewrite E, P. Qed.

(** A prefix of the bytes at [off] written, as far as [wrote] tells. *)
Lemma wrote_prefix off src m b b' : 0 <= m -> wrote off (slice src 0 m) (len (slice src 0 m)) b b' -> wrote off src 0 b b'.
Proof.
  intros Hm H x Hx. specialize (H x Hx). rewrite (decide_False (P := off <= x < off + 0)) by lia.
  assert (L : len (slice src 0 m) <= len src /\ len (slice src 0 m) <= m) by (list_len; lia).
  destruct (decide (off <= x < off + len (slice src 0 m))) as [K|K].
  - rewrite decide_True by lia. right. rewrite H. rewrite at_slice by lia. done.
  - rewrite decide_False in H by lia. case_decide; [by left|done].
Qed.

Lemma wrote_weaken_prefix off src m b b' : 0 <= m -> wrote off (slice src 0 m) 0 b b' -> wrote off src 0 b b'.
Proof.
  intros Hm H x Hx. specialize (H x Hx). rewrite (decide_False (P := off <= x < off + 0)) in * by lia.
  assert (L : len (slice src 0 m) <= len src /\ len (slice src 0 m) <= m) by (list_len; lia).
  destruct (decide (off + 0 <= x < off + len (slice src 0 m))) as [K|K].
  - rewrite decide_True by lia. by rewrite at_slice in H by lia.
  - case_decide; [by left|done].
Qed.

Lemma wrote_none off src b b' : (forall x, b' x = b x) -> wrote off src 0 b b'.
Proof. intros H x _. rewrite decide_False by lia. rewrite H. case_decide; [by left|done]. Qed.

Lemma writePiece_spec io piece off k s d : owns k s d -> next s < 2 ^ 63 -> 0 <= off < 2 ^ 64 -> off mod 4096 + len piece <= 4096 ->
  match writePiece io piece off d s with
  | (Ok _, d', s') => owns k s' d' /\ frame k s s' /\ next s' <= next s + 4096 /\ wrote off piece (len piece) (byteAt s d) (byteAt s' d')
  | (Err _, d', s') => owns k s' d' /\ frame k s s' /\ wrote off piece 0 (byteAt s d) (byteAt s' d')
  | (Panic, _, _) => False
  end.
Proof.
  intros O Hn Ho Hl. pose proof O as [A B C]. destruct (ok_next s (held_ok _ _ B)) as [_ Hn0]. unfold writePiece.
  assert (Hp : 0 <= off / 4096 < pageLimit) by dlia. assert (Hm : 0 <= off mod 4096) by dlia. pose proof (len_nonneg piece) as Hlp.
  rewrite (locationOf_locate d _ A). destruct (locate d (off / 4096)) as [l|] eqn:E.
  - pose proof (owns_cow io (off mod 4096) piece _ l k s d O Hn E Hm Hl) as K.
    destruct (cow_meta io l (off mod 4096) piece s ltac:(lia)) as [_ M].
    destruct (writeAtCOW io l (off mod 4096) piece s) as [[l'|e|] s']; [| |done].
    + destruct K as (K1 & K2 & pg & K3 & K4 & K5). split_and!; [done|done|cbn in M; lia|].
      apply (wrote_page s s' d _ (off / 4096) pg); try done. intros x. by apply (byteAt_page _ _ _ l).
    + destruct K as (K1 & K2 & [K3|(pg & n & K3 & K4 & K5)]); (split_and!; [done..|]); [by apply wrote_none|].
      assert (L : len (slice piece 0 n) <= len piece) by (list_len; lia).
      apply (wrote_prefix off piece (Z.max 0 n)); [lia|].
      replace (slice piece 0 (Z.max 0 n)) with (slice piece 0 n) by (unfold slice; f_equal; lia).
      apply (wrote_page s s' d _ (off / 4096) pg); try done; [lia|]. intros x. by apply (byteAt_page _ _ _ l).
  - pose proof (held_alloc io (put (zeros 4096) (off mod 4096) piece) s _ B Hn) as K.
    destruct (alloc_meta io (put (zeros 4096) (off mod 4096) piece) s ltac:(lia)) as [_ M].
    destruct (allocatePageLocked io (put (zeros 4096) (off mod 4096) piece) s) as [[l|e|] s']; [| |done].
    + destruct K as (K1 & K2 & K3 & K4 & K5). rewrite padded_full in K4 by (rewrite len_put, len_zeros; lia).
      pose proof (uses_nonneg d l). pose proof (C l).
      split_and!; [by apply (owns_insert k s)|intros x Hx; apply K5; intros ->; lia|cbn in M; lia|].
      destruct (insert_spec d _ l A E Hp K3) as [I1 I2].
      apply (wrote_page s s' d _ (off / 4096) (zeros 4096)); try done.
      * intros x Hx. unfold byteAt. by rewrite Hx, E, at_zeros.
      * intros x. apply (byteAt_update s s' d _ _ l _ x I2 K4). intros q l2 Hq El. apply K5. intros ->.
        pose proof (locate_uses d q l A El). lia.
    + destruct K as (K1 & K2). split_and!; [by split|by intros x _|]. apply wrote_none. intros x. unfold byteAt.
      destruct (locate d (x / 4096)); [by rewrite K2|done].
Qed.

Lemma wrote_app off a c n b b1 b2 : 0 <= n <= len c ->
  wrote off a (len a) b b1 -> wrote (off + len a) c n b1 b2 -> wrote off (a ++ c) (len a + n) b b2.
Proof.
  intros Hn H1 H2 x Hx. specialize (H1 x Hx). specialize (H2 x Hx). pose proof (len_nonneg a). rewrite len_app.
  assert (Ha : off <= x < off + len a -> at_ (a ++ c) (x - off) = at_ a (x - off)).
  { intros. unfold at_. rewrite lookup_app_l; [done|]. unfold len in *. lia. }
  assert (Hc : off + len a <= x -> at_ (a ++ c) (x - off) = at_ c (x - (off + len a))).
  { intros. unfold at_. rewrite lookup_app_r; [f_equal; f_equal|]; unfold len in *; lia. }
  destruct (decide (off <= x < off + len a)) as [K|K].
  - rewrite decide_False in H2 by lia. rewrite decide_False in H2 by lia. rewrite decide_True by lia. rewrite H2, H1, Ha; done.
  - rewrite decide_False in H1 by lia. destruct (decide (off + len a <= x < off + len a + n)) as [K2|K2].
    + rewrite decide_True by lia. by rewrite Hc by lia.
    + rewrite (decide_False (P := off <= x < off + (len a + n))) by lia.
      destruct (decide (off + len a + n <= x < off + len a + len c)) as [K3|K3].
      * rewrite decide_True by lia. rewrite Hc by lia. by rewrite <- H1.
      * rewrite decide_False by lia. by rewrite H2.
Qed.

(** Every piece takes at least a byte, so as much fuel as there are bytes is enough. *)
Lemma writeLoop_spec k fuel : forall ios src off w d s, owns k s d -> 0 <= off -> off + len src <= 2 ^ 64 ->
  next s + off mod 4096 + len src < 2 ^ 63 -> (length src <= fuel)%nat ->
  let '(r, w', d', s') := writeLoop fuel ios src off w d s in
  owns k s' d' /\ frame k s s' /\ w <= w' <= w + len src /\ r <> Panic /\ (r = Ok tt -> w' = w + len src) /\
  wrote off src (w' - w) (byteAt s d) (byteAt s' d').
Proof.
  induction fuel as [|fuel IH]; intros ios src off w d s O H1 H2 H3 Hf.
  { destruct src; [|cbn in Hf; lia]. cbn. rewrite len_nil. split_and!; try done; try lia. rewrite Z.sub_diag. by apply wrote_none. }
  destruct src as [|b src].
  { cbn. rewrite len_nil. split_and!; try done; try lia. rewrite Z.sub_diag. by apply wrote_none. }
  cbn [writeLoop]. set (src' := b :: src) in *. assert (Hpos : 1 <= len src') by (unfold src'; rewrite len_cons; pose proof (len_nonneg src); lia). clearbody src'.
  set (n := Z.min (len src') (4096 - off mod 4096)). assert (Hmod : 0 <= off mod 4096 < 4096) by dlia.
  assert (Hn : n = Z.min (len src') (4096 - off mod 4096)) by done. clearbody n.
  assert (Ln : len (slice src' 0 n) = n) by (rewrite len_slice; lia).
  assert (Lr : len (slice src' n (len src')) = len src' - n) by (rewrite len_slice; lia).
  assert (Hsplit : src' = slice src' 0 n ++ slice src' n (len src')) by (apply slice_cut; lia).
  pose proof (writePiece_spec (default HostDone (head ios)) (slice src' 0 n) off k s d O ltac:(lia) ltac:(lia) ltac:(lia)) as K.
  destruct (writePiece _ _ _ d s) as [[[u|e|] d1] s1]; [| |done].
  2: { destruct K as (K1 & K2 & K3). split_and!; try done; try lia. rewrite Z.sub_diag. apply (wrote_weaken_prefix off src' n); [lia|done]. }
  destruct K as (K1 & K2 & K3 & K4). rewrite Ln in K4.
  destruct (decide (n = len src')) as [En|En].
  { assert (slice src' n (len src') = []) as -> by (apply len_0_nil; lia).
    assert (writeLoop fuel (tail ios) [] (wrap 64 (off + n)) (w + n) d1 s1 = (Ok tt, w + n, d1, s1)) as -> by (by destruct fuel).
    split_and!; try done; try lia. replace (w + n - w) with n by lia. rewrite En, slice_full in K4. by rewrite En. }
  rewrite wrap_small by width.
  specialize (IH (tail ios) (slice src' n (len src')) (off + n) (w + n) d1 s1 K1 ltac:(lia) ltac:(lia)).
  assert (Hz : (off + n) mod 4096 = 0) by dlia. rewrite Hz in IH.
  specialize (IH ltac:(lia) ltac:(unfold len in *; lia)).
  destruct (writeLoop fuel _ _ _ _ d1 s1) as [[[r w'] d'] s'].
  destruct IH as (I1 & I2 & I3 & I4 & I5 & I6). split_and!; [done|by apply (frame_trans k s s1 s')|lia|lia|done|intros E; specialize (I5 E); lia|].
  rewrite Hsplit. replace (w' - w) with (len (slice src' 0 n) + (w' - (w + n))) by lia.
  apply (wrote_app off _ _ _ _ (byteAt s1 d1)); [lia|by rewrite Ln|by rewrite Ln].
Qed.

(** * Releasing pages *)

Lemma releaseAll_spec ls : forall s c, held s c -> (forall l, occ l ls <= c l) ->
  held (releaseAll ls s) (fun l => c l - occ l ls) /\ next (releaseAll ls s) = next s /\
  forall l, 1 <= c l - occ l ls -> pageBytes (releaseAll ls s) l = pageBytes s l.
Proof.
  induction ls as [|l ls IH]; intros s c H Hc.
  { split_and!; [|done..]. revert H. apply held_ext. intros x. change (occ x []) with 0. lia. }
  change (releaseAll (l :: ls) s) with (releaseAll ls (releasePage l s)).
  destruct (held_release s c l H) as (K1 & K2 & K3).
  { specialize (Hc l). rewrite occ_cons, decide_True in Hc by done. pose proof (occ_nonneg l ls). lia. }
  destruct (IH _ _ K1) as (I1 & I2 & I3).
  { intros x. specialize (Hc x). rewrite occ_cons in Hc. unfold one. lia. }
  split_and!; [|congruence|].
  - revert I1. apply held_ext. intros x. rewrite occ_cons. unfold one. lia.
  - intros x Hx. rewrite occ_cons in Hx. pose proof (occ_nonneg x ls). rewrite I3, K3; [done|unfold one; lia..].
Qed.

Lemma tokens_split e k : 0 <= k <= count e ->
  (fun i => wrap 64 (location e + i)) <$> seqZ 0 (count e) = ((fun i => wrap 64 (location e + i)) <$> seqZ 0 k) ++ tokens e k.
Proof.
  intros H. unfold tokens. replace (count e) with (k + (count e - k)) at 1 by lia. rewrite seqZ_app, fmap_app by lia. f_equal.
  replace (0 + k) with (k + 0) by lia. rewrite <- (fmap_add_seqZ k 0 (count e - k)), <- list_fmap_compose. apply list_fmap_ext. intros _ i _. cbn. f_equal. lia.
Qed.

Lemma pages_tokens e : ((fun i => (wrap 64 (page e + i), wrap 64 (location e + i))) <$> seqZ 0 (count e)).*2 =
  (fun i => wrap 64 (location e + i)) <$> seqZ 0 (count e).
Proof. rewrite <- list_fmap_compose. by apply list_fmap_ext. Qed.

Lemma uses_cons e d l : uses (e :: d) l = occ l ((fun i => wrap 64 (location e + i)) <$> seqZ 0 (count e)) + uses d l.
Proof. unfold uses, pagesOf. cbn [fmap list_fmap concat]. by rewrite fmap_app, occ_app, pages_tokens. Qed.

Lemma uses_keep lo d k l : 0 <= lo -> 0 <= k -> chain lo d pageLimit ->
  uses d l = uses (keepExtents k d) l + occ l (concat ((fun e => tokens e (keepCount k e)) <$> d)).
Proof.
  intros H0 Hk. revert lo H0. induction d as [|e d IH]; intros lo H0 H; [done|].
  destruct H as (A & (B1 & B2 & B3) & C). specialize (IH (page e + count e) ltac:(lia) C). unfold keepExtents in *.
  cbn [fmap list_fmap concat omap list_omap]. rewrite occ_app, uses_cons, IH.
  assert (Hc : 0 <= keepCount k e <= count e) by (rewrite keepCount_spec; lia).
  rewrite (tokens_split e (keepCount k e) Hc), occ_app. destruct (Z.eqb_spec (keepCount k e) 0) as [E|E].
  - rewrite E. change (occ l (_ <$> seqZ 0 0)) with 0. lia.
  - rewrite uses_cons. change (count (e <| count := keepCount k e |>)) with (keepCount k e).
    change (location (e <| count := keepCount k e |>)) with (location e). lia.
Qed.

Lemma uses_all d l : uses d l = occ l (concat ((fun e => tokens e 0) <$> d)).
Proof.
  induction d as [|e d IH]; [done|]. rewrite uses_cons, IH. cbn [fmap list_fmap concat]. rewrite occ_app. f_equal. f_equal.
  unfold tokens. rewrite Z.sub_0_r. apply list_fmap_ext. intros _ i _. f_equal. lia.
Qed.

Lemma release_frame k s d : owns k s d -> owns k (release d s) [] /\ frame k s (release d s).
Proof.
  intros [A B C]. unfold release. destruct (releaseAll_spec (concat ((fun e => tokens e 0) <$> d)) s _ B) as (K1 & _ & K3).
  { intros l. rewrite <- uses_all. specialize (C l). lia. }
  split; [split; [cbn; unfold wf; cbn; lia| |done]|].
  - revert K1. apply held_ext. intros l. rewrite <- uses_all. change (uses [] l) with 0. lia.
  - intros l Hl. apply K3. rewrite <- uses_all. lia.
Qed.

(** Cutting the extents behind a page. *)
Lemma keep_spec kp k s d : owns k s d -> 0 <= kp ->
  let s1 := releaseAll (concat ((fun e => tokens e (keepCount kp e)) <$> d)) s in
  let d1 := keepExtents kp d in
  owns k s1 d1 /\ frame k s s1 /\ next s1 = next s /\
  forall x, byteAt s1 d1 x = if decide (x / 4096 < kp) then byteAt s d x else 0.
Proof.
  intros [A B C] Hkp. set (ls := concat _). cbv zeta. destruct (keepExtents_spec 0 d kp ltac:(lia) Hkp A) as [W1 W2].
  assert (Hu : forall l, uses d l = uses (keepExtents kp d) l + occ l ls) by (intros l; apply (uses_keep 0); [lia|lia|done]).
  destruct (releaseAll_spec ls s _ B) as (K1 & K2 & K3).
  { intros l. rewrite Hu. pose proof (uses_nonneg (keepExtents kp d) l). specialize (C l). lia. }
  split_and!; [split; [done| |done]| |done|].
  - revert K1. apply held_ext. intros l. rewrite (Hu l). lia.
  - intros l Hl. apply K3. rewrite (Hu l). pose proof (uses_nonneg (keepExtents kp d) l). lia.
  - intros x. unfold byteAt. rewrite W2. case_decide; [|done]. destruct (locate d (x / 4096)) as [l|] eqn:E; [|done].
    rewrite K3; [done|]. rewrite (Hu l).
    pose proof (locate_uses (keepExtents kp d) (x / 4096) l W1 ltac:(by rewrite W2, decide_True)). specialize (C l). lia.
Qed.

(** Zeros from [size] to the end of its page. *)
Lemma wrote_zeros size n b b' x : wrote size (zeros n) (len (zeros n)) b b' -> 0 <= n -> 0 <= x ->
  b' x = if decide (size <= x < size + n) then 0 else b x.
Proof.
  intros H Hn Hx. specialize (H x Hx). rewrite len_zeros in H by done. case_decide; [by rewrite H, at_zeros|].
  by rewrite decide_False in H by lia.
Qed.

Lemma truncate_spec io size k s d : owns k s d -> next s < 2 ^ 63 -> 0 <= size < 2 ^ 64 ->
  match truncate io size d s with
  | (Ok _, d', s') => owns k s' d' /\ frame k s s' /\
      forall x, 0 <= x -> byteAt s' d' x = if decide (x < size) then byteAt s d x else 0
  | (Err _, d', s') => owns k s' d' /\ frame k s s' /\
      forall x, 0 <= x -> byteAt s' d' x = byteAt s d x \/ size <= x /\ byteAt s' d' x = 0
  | (Panic, _, _) => False
  end.
Proof.
  intros O Hn Hs. unfold truncate. set (kp := size / 4096 + _). cbv zeta.
  assert (Hkp : size <= kp * 4096 < size + 4096) by (unfold kp; destruct (Z.eqb_spec (size mod 4096) 0); dlia).
  clearbody kp. destruct (keep_spec kp k s d O ltac:(lia)) as (O1 & F1 & N1 & B1).
  set (s1 := releaseAll _ s) in *. set (d1 := keepExtents kp d) in *. clearbody s1 d1.
  destruct (Z.eqb_spec (size mod 4096) 0) as [Ez|Ez].
  { split_and!; try done. intros x Hx. rewrite B1. repeat case_decide; try done; exfalso; dlia. }
  assert (Hmod : 0 <= size mod 4096 < 4096) by dlia.
  rewrite (locationOf_locate d1 _ (owns_wf _ _ _ O1)). destruct (locate d1 (size / 4096)) as [l|] eqn:El.
  2: { split_and!; try done. intros x Hx. destruct (decide (x < size)); [rewrite B1, decide_True by dlia; done|].
       destruct (decide (x / 4096 < kp)) as [Hk|]; [|by rewrite B1, decide_False]. unfold byteAt.
       replace (x / 4096) with (size / 4096) by dlia. by rewrite El. }
  set (z := zeros (4096 - size mod 4096)). assert (Lz : len z = 4096 - size mod 4096) by (apply len_zeros; lia).
  pose proof (owns_cow io (size mod 4096) z _ l k s1 d1 O1 ltac:(lia) El ltac:(lia) ltac:(lia)) as K.
  assert (Hx1 : forall x, 0 <= x -> x / 4096 < kp <-> x < size + (4096 - size mod 4096)) by (intros; dlia).
  destruct (writeAtCOW io l _ z s1) as [[l'|e|] s2]; [| |done].
  - destruct K as (K1 & K2 & pg & K3 & K4 & K5). split_and!; [done|by apply (frame_trans k s s1)|]. intros x Hx.
    rewrite (wrote_zeros size (4096 - size mod 4096) (byteAt s1 d1) _ x); [|..|lia|done].
    + rewrite B1. specialize (Hx1 x Hx). repeat case_decide; try done; lia.
    + apply (wrote_page s1 s2 d1 _ (size / 4096) pg); try done; [fold z; lia|]. intros y. by apply (byteAt_page _ _ _ l).
  - destruct K as (K1 & K2 & K3). split_and!; [done|by apply (frame_trans k s s1)|]. intros x Hx.
    assert (Hb : byteAt s1 d1 x = byteAt s d x \/ size <= x /\ byteAt s1 d1 x = 0).
    { rewrite B1. case_decide; [by left|right]. specialize (Hx1 x Hx). split; [lia|done]. }
    destruct K3 as [K3|(pg & n & K3 & K4 & K5)]; [by rewrite K3|].
    assert (Ls : slice z 0 n = zeros (len (slice z 0 n))) by (unfold z; list_ext).
    assert (len (slice z 0 n) <= len z) by (list_len; lia).
    rewrite (wrote_zeros size (len (slice z 0 n)) (byteAt s1 d1) _ x); [|..|apply len_nonneg|done].
    + case_decide; [right; lia|done].
    + rewrite <- Ls. apply (wrote_page s1 s2 d1 _ (size / 4096) pg); try done; [lia|]. intros y. by apply (byteAt_page _ _ _ l).
Qed.

(** * Snapshots *)

Lemma snapshotLoop_spec k ps : forall cancelled copy s, owns k s copy -> NoDup ps.*1 ->
  (forall p l, (p, l) ∈ ps -> locate copy p = None /\ 0 <= p < pageLimit /\ 0 < l < 2 ^ 64) ->
  match snapshotLoop ps cancelled copy s with
  | (Ok copy', s') => owns k s' copy' /\ (forall x, pageBytes s' x = pageBytes s x) /\
      forall q l, locate copy' q = Some l <-> locate copy q = Some l \/ (q, l) ∈ ps
  | (Err _, s') => owns k s' [] /\ frame k s s'
  | (Panic, _) => False
  end.
Proof.
  induction ps as [|[p l] ps IH]; intros cancelled copy s O Hn Hp; cbn [snapshotLoop].
  { split_and!; [done..|]. intros q l. split; [by left|]. intros [?|?%not_elem_of_nil]; done. }
  destruct (default false (head cancelled)); [by apply release_frame|].
  destruct (Hp p l ltac:(left)) as (P1 & P2 & P3). pose proof (held_retain s _ l (owns_held _ _ _ O)) as K.
  destruct (retainPage l s) as [[u|e|] s1]; [|subst s1; by apply release_frame|done]. destruct K as [K1 K2].
  pose proof (owns_insert k s s1 copy p l O P1 P2 P3 K1) as O1.
  destruct (insert_spec copy p l (owns_wf _ _ _ O) P1 P2 P3) as [I1 I2].
  cbn [fmap list_fmap fst] in Hn. apply NoDup_cons in Hn as [Hn1 Hn2].
  specialize (IH (tail cancelled) (insert p l copy) s1 O1 Hn2).
  assert (Hps : forall p' l', (p', l') ∈ ps -> p' <> p).
  { intros p' l' H ->. apply Hn1, list_elem_of_fmap. by exists (p, l'). }
  assert (Hp' : forall p' l', (p', l') ∈ ps -> locate (insert p l copy) p' = None /\ 0 <= p' < pageLimit /\ 0 < l' < 2 ^ 64).
  { intros p' l' H. rewrite I2, decide_False by (by apply (Hps p' l')). apply Hp. by right. }
  specialize (IH Hp'). destruct (snapshotLoop ps (tail cancelled) (insert p l copy) s1) as [[copy'|e|] s']; [| |done].
  - destruct IH as (J1 & J2 & J3). split_and!; [done|intros x; by rewrite J2, K2|].
    intros q l'. rewrite J3, I2, elem_of_cons. destruct (decide (q = p)) as [->|]; [|naive_solver].
    rewrite P1. split; [intros [[= ->]|H]; [by right; left|by destruct (Hps p l')]|].
    intros [H|[[= ->]|H]]; [done|by left|by destruct (Hps p l')].
  - destruct IH as (J1 & J2). split; [done|]. intros x Hx. by rewrite J2, K2.
Qed.

Lemma snapshotData_spec cancelled k s d : owns k s d ->
  let k' := fun l => k l + uses d l in
  match snapshotData cancelled d s with
  | (Ok copy, s') => owns k' s' copy /\ (forall x, pageBytes s' x = pageBytes s x) /\ forall x, byteAt s' copy x = byteAt s d x
  | (Err _, s') => owns k' s' [] /\ frame k' s s'
  | (Panic, _) => False
  end.
Proof.
  intros [A B C] k'. unfold snapshotData. assert (O : owns k' s []).
  { split; [unfold wf; cbn; lia|revert B; apply held_ext; intros l; unfold k'; change (uses [] l) with 0; lia|].
    intros l. unfold k'. specialize (C l). pose proof (uses_nonneg d l). lia. }
  pose proof (snapshotLoop_spec k' (pagesOf d) cancelled [] s O) as K.
  assert (K1 : NoDup (pagesOf d).*1).
  { apply NoDup_fmap_2_strong; [|exact (pages_nodup 0 d ltac:(lia) A)]. intros [p l] [q l'] E1%elem_pages E2%elem_pages; try done.
    cbn. intros ->. congruence. }
  specialize (K K1). clear K1. assert (K1 : forall p l, (p, l) ∈ pagesOf d -> locate [] p = None /\ 0 <= p < pageLimit /\ 0 < l < 2 ^ 64).
  { intros p l E%elem_pages; [|done]. destruct (locate_token _ _ _ _ _ A E). done. }
  specialize (K K1). destruct (snapshotLoop _ _ _ _) as [[copy|e|] s']; try done. destruct K as (J1 & J2 & J3).
  split_and!; [done..|]. intros x. unfold byteAt. assert (locate copy (x / 4096) = locate d (x / 4096)) as ->.
  { apply option_eq. intros l. rewrite J3, elem_pages by done. naive_solver. }
  destruct (locate d (x / 4096)); [by rewrite J2|done].
Qed.

(** * Reading *)

(** The part of a read within one page. *)
Lemma readPiece_spec k s d dst off n : owns k s d -> 0 <= off -> 0 <= n <= len dst -> off mod 4096 + n <= 4096 ->
  exists hd, match locate d (off / 4096) with
      | Some l => p ← readPage l 4096 s; Ok (slice p (off mod 4096) (off mod 4096 + n))
      | None => Ok (slice dst 0 n) end = Ok hd /\ len hd = n /\
    forall i, 0 <= i < n -> at_ hd i = match locate d ((off + i) / 4096) with Some _ => byteAt s d (off + i) | None => at_ dst i end.
Proof.
  intros O Ho Hn Hm. assert (Hmod : 0 <= off mod 4096 < 4096) by dlia.
  assert (Hdiv : forall i, 0 <= i < n -> (off + i) / 4096 = off / 4096 /\ (off + i) mod 4096 = off mod 4096 + i) by (intros; dlia).
  destruct (locate d (off / 4096)) as [l|] eqn:E.
  - destruct (owns_page k s d _ l O E) as (pg & P1 & P2 & P3 & _). destruct (held_page _ _ l (owns_held _ _ _ O) P3) as (pg' & Q1 & Q2 & _).
    rewrite P1 in Q1. injection Q1 as <-. rewrite (readPage_spec l s pg _ (held_ok _ _ (owns_held _ _ _ O)) Q2). cbn [mbind result_bind].
    eexists. split; [done|]. split; [rewrite len_slice; lia|]. intros i Hi. destruct (Hdiv i Hi) as [D1 D2].
    rewrite D1, E. unfold byteAt. rewrite D1, E, P1, D2. cbn. rewrite at_slice by lia. done.
  - eexists. split; [done|]. split; [rewrite len_slice; lia|]. intros i Hi. destruct (Hdiv i Hi) as [D1 D2]. rewrite D1, E, at_slice by lia. done.
Qed.

Lemma readLoop_spec k s d fuel : owns k s d -> forall dst off, 0 <= off -> off + len dst <= 2 ^ 64 -> (length dst <= fuel)%nat ->
  exists out, readLoop fuel s d dst off = Ok out /\ len out = len dst /\
    forall i, 0 <= i < len dst ->
      at_ out i = match locate d ((off + i) / 4096) with Some _ => byteAt s d (off + i) | None => at_ dst i end.
Proof.
  intros O. induction fuel as [|fuel IH]; intros dst off H1 H2 Hf.
  { destruct dst; [|cbn in Hf; lia]. exists []. rewrite len_nil. split_and!; try done. intros; lia. }
  destruct dst as [|b dst]; [exists []; rewrite len_nil; split_and!; try done; intros; lia|]. cbn [readLoop].
  set (dst' := b :: dst) in *. assert (Hpos : 1 <= len dst') by (unfold dst'; rewrite len_cons; pose proof (len_nonneg dst); lia).
  clearbody dst'. set (n := Z.min _ _). assert (Hmod : 0 <= off mod 4096 < 4096) by dlia.
  assert (Hn : n = Z.min (len dst') (4096 - off mod 4096)) by done. clearbody n.
  rewrite (locationOf_locate d _ (owns_wf _ _ _ O)).
  pose proof (readPiece_spec k s d dst' off n O ltac:(lia) ltac:(lia) ltac:(lia)) as Hh.
  destruct Hh as (hd & -> & Lh & Ah). cbn [mbind result_bind].
  assert (Lr : len (slice dst' n (len dst')) = len dst' - n) by (rewrite len_slice; lia).
  assert (Ht : exists tl, readLoop fuel s d (slice dst' n (len dst')) (wrap 64 (off + n)) = Ok tl /\ len tl = len dst' - n /\
    forall i, 0 <= i < len dst' - n -> at_ tl i = match locate d ((off + n + i) / 4096) with Some _ => byteAt s d (off + n + i) | None => at_ dst' (n + i) end).
  { destruct (decide (n = len dst')) as [En|En].
    - assert (slice dst' n (len dst') = []) as -> by (apply len_0_nil; lia). exists []. split; [by destruct fuel|].
      rewrite len_nil. split; [lia|]. intros; lia.
    - rewrite wrap_small by width. destruct (IH (slice dst' n (len dst')) (off + n)) as (tl & T1 & T2 & T3); [lia|lia|unfold len in *; lia|].
      exists tl. rewrite <- Lr. split_and!; try done. intros i Hi. rewrite T3 by done. rewrite at_slice by lia. done. }
  destruct Ht as (tl & -> & Lt & At). cbn [mbind result_bind]. exists (hd ++ tl). split; [done|]. split; [rewrite len_app; lia|].
  intros i Hi. destruct (decide (i < n)) as [Hin|Hin].
  - rewrite <- Ah by lia. unfold at_. rewrite lookup_app_l; [done|]. unfold len in *. lia.
  - specialize (At (i - n) ltac:(lia)). replace (off + n + (i - n)) with (off + i) in At by lia. replace (n + (i - n)) with i in At by lia.
    rewrite <- At. unfold at_. rewrite lookup_app_r; [f_equal; f_equal|]; unfold len in *; lia.
Qed.

(** * Files and snapshots over one store *)

Record world := mkWorld { pages : imageDataStore; files : list sparseImageData }.

Inductive fileOp :=
  | Create
  | Write (i : nat) (ios : list hostIO) (src : bytes) (off : Z)
  | Truncate (i : nat) (io : hostIO) (size : Z)
  | Snapshot (i : nat) (cancelled : list bool)
  | Release (i : nat)
  | FlushReclaim (truncated copied rebuild : bool).

(** How an operation ended, with the number of bytes it wrote. *)
Inductive outcome := Done (n : Z) | Failed (n : Z) | Panicked.

Definition outcomeOf {E A} (r : result E A) (n : Z) : outcome :=
  match r with Ok _ => Done n | Err _ => Failed n | Panic => Panicked end.

(** Each file as the function from offsets to bytes. *)
Definition flat (w : world) : list (Z -> Z) := byteAt (pages w) <$> files w.

(** The same bytes at every offset. *)
Definition sameBytes (b b' : Z -> Z) : Prop := forall x, 0 <= x -> b' x = b x.

(** What an operation does to flat files that share nothing; it never panics. *)
Definition effect (o : fileOp) (r : outcome) (bs bs' : list (Z -> Z)) : Prop :=
  match o, r with
  | _, Panicked => False
  | Create, _ => Forall2 sameBytes (bs ++ [fun _ => 0]) bs'
  | Write i _ src off, Done n => n = len src /\
      exists b b', bs !! i = Some b /\ wrote off src n b b' /\ Forall2 sameBytes (<[i := b']> bs) bs'
  | Write i _ src off, Failed n => 0 <= n <= len src /\
      exists b b', bs !! i = Some b /\ wrote off src n b b' /\ Forall2 sameBytes (<[i := b']> bs) bs'
  | Truncate i _ size, Done _ =>
      exists b, bs !! i = Some b /\ Forall2 sameBytes (<[i := fun x => if decide (x < size) then b x else 0]> bs) bs'
  | Truncate i _ size, Failed _ =>
      exists b b', bs !! i = Some b /\ (forall x, 0 <= x -> b' x = b x \/ size <= x /\ b' x = 0) /\
        Forall2 sameBytes (<[i := b']> bs) bs'
  | Snapshot i _, Done _ => exists b, bs !! i = Some b /\ Forall2 sameBytes (bs ++ [b]) bs'
  | Snapshot i _, Failed _ => Forall2 sameBytes bs bs'
  | Release i, _ => Forall2 sameBytes (<[i := fun _ => 0]> bs) bs'
  | FlushReclaim _ _ _, _ => Forall2 sameBytes bs bs'
  end.

(** The offsets and the host file stay within their widths. *)
Definition fits (o : fileOp) (w : world) : Prop :=
  match o with
  | Write _ _ src off => 0 <= off /\ off + len src <= 2 ^ 64 /\ next (pages w) + off mod 4096 + len src < 2 ^ 63
  | Truncate _ _ size => 0 <= size < 2 ^ 64 /\ next (pages w) < 2 ^ 63
  | _ => True
  end.

(** All references to a token. *)
Definition references (ds : list sparseImageData) (l : Z) : Z := foldr (fun d n => uses d l + n) 0 ds.

Record worldOK (w : world) : Prop := {
  world_wf : Forall wf (files w);
  world_held : held (pages w) (references (files w));
}.

Lemma references_app a b l : references (a ++ b) l = references a l + references b l.
Proof. induction a as [|d a IH]; cbn [app references foldr]; [done|]. fold (references (a ++ b) l) (references a l). lia. Qed.

Lemma references_nonneg ds l : 0 <= references ds l.
Proof. induction ds as [|d ds IH]; cbn [references foldr]; [done|]. fold (references ds l). pose proof (uses_nonneg d l). lia. Qed.

Lemma references_cons d ds l : references (d :: ds) l = uses d l + references ds l.
Proof. done. Qed.

Lemma references_delete ds i d l : ds !! i = Some d -> references ds l = references (delete i ds) l + uses d l.
Proof.
  intros E. rewrite <- (take_drop_middle _ _ _ E) at 1. rewrite delete_take_drop, !references_app, references_cons. lia.
Qed.

Lemma delete_insert_list {A} (ds : list A) i d : delete i (<[i := d]> ds) = delete i ds.
Proof. revert i. induction ds as [|x ds IH]; intros [|i]; cbn; [done..|]. f_equal. apply IH. Qed.

Lemma references_insert ds i d d' l : ds !! i = Some d -> references (<[i := d']> ds) l = references (delete i ds) l + uses d' l.
Proof.
  intros E. rewrite (references_delete _ i d'); [by rewrite delete_insert_list|]. apply list_lookup_insert_eq. by apply lookup_lt_Some in E.
Qed.

(** The other files hold references of their own. *)
Lemma references_other ds i j d e l : ds !! i = Some d -> ds !! j = Some e -> i <> j -> uses e l <= references (delete i ds) l.
Proof.
  intros E F Hij. assert (K : e ∈ delete i ds).
  { rewrite delete_take_drop. apply elem_of_app. destruct (decide (j < i)%nat).
    - left. apply list_elem_of_lookup. exists j. rewrite lookup_take_lt by lia. done.
    - right. apply list_elem_of_lookup. exists (j - S i)%nat. rewrite lookup_drop, <- F. f_equal. lia. }
  apply list_elem_of_split in K as (a & b & ->). rewrite references_app, references_cons. pose proof (references_nonneg a l). pose proof (references_nonneg b l). lia.
Qed.

Lemma world_owns w i d : worldOK w -> files w !! i = Some d -> owns (references (delete i (files w))) (pages w) d.
Proof.
  intros [A B] E. split; [by apply (Forall_lookup_1 _ _ _ _ A E)| |intros l; apply references_nonneg].
  revert B. apply held_ext. intros l. by apply references_delete.
Qed.

Lemma owns_world w i d d' s' : worldOK w -> files w !! i = Some d -> owns (references (delete i (files w))) s' d' ->
  worldOK (mkWorld s' (<[i := d']> (files w))).
Proof.
  intros [A B] E [O1 O2 O3]. split; [by apply Forall_insert|]. revert O2. apply held_ext. intros l. symmetry. exact (references_insert _ i d d' l E).
Qed.

(** A file whose tokens are held through a step keeps its bytes. *)
Lemma byteAt_frame k s s' d x : wf d -> frame k s s' -> (forall l, uses d l <= k l) -> byteAt s' d x = byteAt s d x.
Proof.
  intros H F K. unfold byteAt. destruct (locate d (x / 4096)) as [l|] eqn:E; [|done]. rewrite F; [done|].
  pose proof (locate_uses d _ l H E). specialize (K l). lia.
Qed.

(** A step on one file, seen from all. *)
Lemma flat_update w i d d' s' b' : worldOK w -> files w !! i = Some d -> frame (references (delete i (files w))) (pages w) s' ->
  sameBytes b' (byteAt s' d') -> Forall2 sameBytes (<[i := b']> (flat w)) (flat (mkWorld s' (<[i := d']> (files w)))).
Proof.
  intros [A B] E F Hb. unfold flat. cbn [pages files]. apply Forall2_same_length_lookup_2; [by rewrite !length_insert, !length_fmap, length_insert|].
  intros j b c Hj Hc. rewrite list_lookup_fmap in Hc. apply lookup_lt_Some in E as Hi. destruct (decide (j = i)) as [->|Hne].
  - rewrite list_lookup_insert_eq in Hj by (by rewrite length_fmap). rewrite list_lookup_insert_eq in Hc by done. cbn in Hc. naive_solver.
  - rewrite list_lookup_insert_ne in Hj by done. rewrite list_lookup_insert_ne in Hc by done. rewrite list_lookup_fmap in Hj.
    destruct (files w !! j) as [e|] eqn:Ej; [|done]. cbn in Hj, Hc. injection Hj as <-. injection Hc as <-. intros x _.
    apply (byteAt_frame (references (delete i (files w)))); [by apply (Forall_lookup_1 _ _ _ _ A Ej)|done|].
    intros l. by apply (references_other _ i j d e l).
Qed.

Lemma flat_same w s' : worldOK w -> frame (references (files w)) (pages w) s' -> Forall2 sameBytes (flat w) (byteAt s' <$> files w).
Proof.
  intros [A B] F. unfold flat. apply Forall2_same_length_lookup_2; [by rewrite !length_fmap|]. intros j b c Hj Hc.
  rewrite list_lookup_fmap in Hj, Hc. destruct (files w !! j) as [e|] eqn:Ej; [|done]. cbn in Hj, Hc. injection Hj as <-. injection Hc as <-.
  intros x _. apply (byteAt_frame (references (files w))); [by apply (Forall_lookup_1 _ _ _ _ A Ej)|done|].
  intros l. rewrite (references_delete _ j e) by done. pose proof (references_nonneg (delete j (files w)) l). lia.
Qed.

Section World.
Context (reclaimFileRange : bytes -> Z -> Z -> bytes * reclaimOutcome).

(** An operation on the world, if there is such a file. *)
Definition exec (o : fileOp) (w : world) : option (outcome * world) :=
  match o with
  | Create => Some (Done 0, mkWorld (pages w) (files w ++ [[]]))
  | Write i ios src off =>
      d ← files w !! i;
      let '(r, n, d, s) := writeAt ios src off d (pages w) in
      Some (outcomeOf r n, mkWorld s (<[i := d]> (files w)))
  | Truncate i io size =>
      d ← files w !! i;
      let '(r, d, s) := truncate io size d (pages w) in
      Some (outcomeOf r 0, mkWorld s (<[i := d]> (files w)))
  | Snapshot i cancelled =>
      d ← files w !! i;
      let '(r, s) := snapshotData cancelled d (pages w) in
      Some (outcomeOf r 0, mkWorld s (match r with Ok copy => files w ++ [copy] | _ => files w end))
  | Release i =>
      d ← files w !! i;
      Some (Done 0, mkWorld (release d (pages w)) (<[i := []]> (files w)))
  | FlushReclaim truncated copied rebuild =>
      Some (Done 0, mkWorld (flushReclaimLocked reclaimFileRange truncated copied rebuild (pages w)) (files w))
  end.

Definition initial : world := mkWorld newImageDataStore [].

Definition fileStep (w w' : world) : Prop := exists o r, fits o w /\ exec o w = Some (r, w').

(** Deallocation of a range keeps the length of the file and the bytes outside the range. *)
Hypothesis reclaim_keeps : forall f a n, 0 <= a ->
  len (reclaimFileRange f a n).1 = len f /\
  forall x y, 0 <= x -> y <= a \/ a + n <= x -> slice (reclaimFileRange f a n).1 x y = slice f x y.

Lemma initial_ok : worldOK initial.
Proof.
  assert (E : forall l, entry newImageDataStore l = None).
  { intros l. unfold entry, locationEntryLocked. destruct (l =? 0); [done|]. cbn. by rewrite lookup_empty. }
  split; [constructor|]. split; [|done|intros l; unfold pageOf; by rewrite E].
  split; [apply map_Forall_empty|intros l o r; by rewrite E|intros l1 l2 o r1 r2; by rewrite E|intros o ?%not_elem_of_empty; done|done|done].
Qed.

Lemma flat_lookup w i d : files w !! i = Some d -> flat w !! i = Some (byteAt (pages w) d).
Proof. intros E. unfold flat. by rewrite list_lookup_fmap, E. Qed.

(** A file added at the end. *)
Lemma world_add w s' d' : worldOK w -> owns (references (files w)) s' d' -> worldOK (mkWorld s' (files w ++ [d'])).
Proof.
  intros [A B] [O1 O2 O3]. split; [apply Forall_app; split; [done|by constructor]|]. revert O2. apply held_ext. intros l.
  cbn [files]. rewrite references_app, references_cons. change (references [] l) with 0. lia.
Qed.

Lemma exec_write i ios src off w r w' : worldOK w -> fits (Write i ios src off) w -> exec (Write i ios src off) w = Some (r, w') ->
  worldOK w' /\ effect (Write i ios src off) r (flat w) (flat w').
Proof.
  intros H (F1 & F2 & F3). cbn [exec]. destruct (files w !! i) as [d|] eqn:E; [|done]. cbn [mbind option_bind].
  pose proof (world_owns w i d H E) as O. unfold writeAt.
  pose proof (writeLoop_spec _ (length src) ios src off 0 d (pages w) O F1 F2 F3 ltac:(lia)) as K.
  destruct (writeLoop _ _ _ _ _ _ _) as [[[x n] d'] s']. destruct K as (K1 & K2 & K3 & K4 & K5 & K6). intros [= <- <-].
  split; [by apply (owns_world w i d)|]. rewrite Z.sub_0_r in K6.
  assert (Hex : exists b b', flat w !! i = Some b /\ wrote off src n b b' /\ Forall2 sameBytes (<[i := b']> (flat w)) (flat (mkWorld s' (<[i := d']> (files w))))).
  { exists (byteAt (pages w) d), (byteAt s' d'). split_and!; [by apply flat_lookup|done|]. by apply (flat_update w i d). }
  destruct x as [[]|e|]; cbn; [|split; [lia|done]|done]. split; [by rewrite K5|done].
Qed.

Lemma exec_truncate i io size w r w' : worldOK w -> fits (Truncate i io size) w -> exec (Truncate i io size) w = Some (r, w') ->
  worldOK w' /\ effect (Truncate i io size) r (flat w) (flat w').
Proof.
  intros H (F1 & F2). cbn [exec]. destruct (files w !! i) as [d|] eqn:E; [|done]. cbn [mbind option_bind].
  pose proof (truncate_spec io size _ _ _ (world_owns w i d H E) F2 F1) as K.
  destruct (truncate io size d (pages w)) as [[x d'] s']. intros [= <- <-].
  destruct x as [u|e|]; [| |done]; destruct K as (K1 & K2 & K3); (split; [by apply (owns_world w i d)|]); cbn.
  - exists (byteAt (pages w) d). split; [by apply flat_lookup|]. apply (flat_update w i d); [done..|exact K3].
  - exists (byteAt (pages w) d), (byteAt s' d'). split_and!; [by apply flat_lookup|done|]. by apply (flat_update w i d).
Qed.

Lemma exec_snapshot i cancelled w r w' : worldOK w -> exec (Snapshot i cancelled) w = Some (r, w') ->
  worldOK w' /\ effect (Snapshot i cancelled) r (flat w) (flat w').
Proof.
  intros H. cbn [exec]. destruct (files w !! i) as [d|] eqn:E; [|done]. cbn [mbind option_bind].
  pose proof (snapshotData_spec cancelled _ _ _ (world_owns w i d H E)) as K. cbv zeta in K.
  destruct (snapshotData cancelled d (pages w)) as [x s']. intros [= <- <-].
  assert (Ht : forall l, references (delete i (files w)) l + uses d l = references (files w) l) by (intros l; symmetry; by apply references_delete).
  destruct x as [copy|e|]; [| |done].
  - destruct K as (K1 & K2 & K3). split.
    + apply world_add; [done|]. destruct K1 as [O1 O2 O3]. split; [done| |intros l; apply references_nonneg].
      revert O2. apply held_ext. intros l. by rewrite Ht.
    + exists (byteAt (pages w) d). split; [by apply flat_lookup|]. unfold flat at 2. cbn [pages files]. rewrite fmap_app.
      apply Forall2_app; [apply flat_same; [done|]; intros l _; apply K2|]. constructor; [|constructor]. intros x _. apply K3.
  - destruct K as (K1 & K2). split.
    + split; [apply H|]. revert K1. intros [_ O2 _]. revert O2. apply held_ext. intros l. rewrite Ht. change (uses [] l) with 0. cbn [files]. lia.
    + cbn. apply flat_same; [done|]. intros l Hl. apply K2. by rewrite Ht.
Qed.

(** Every operation keeps the counts exact and acts as on flat files. *)
Lemma exec_ok o w r w' : worldOK w -> fits o w -> exec o w = Some (r, w') -> worldOK w' /\ effect o r (flat w) (flat w').
Proof.
  intros H F X. destruct o as [|i ios src off|i io size|i cancelled|i|t c rb].
  - injection X as <- <-. split.
    + apply world_add; [done|]. split; [unfold wf; cbn; lia| |intros l; apply references_nonneg].
      pose proof (world_held w H) as B. revert B. apply held_ext. intros l. change (uses [] l) with 0. lia.
    + cbn [effect]. unfold flat at 2. cbn [pages files]. rewrite fmap_app.
      apply Forall2_app; [apply flat_same; [done|]; by intros l _|]. constructor; [|constructor]. by intros x _.
  - by apply exec_write in X.
  - by apply exec_truncate in X.
  - by apply exec_snapshot in X.
  - cbn [exec] in X. destruct (files w !! i) as [d|] eqn:E; [|done]. injection X as <- <-.
    destruct (release_frame _ _ _ (world_owns w i d H E)) as [K1 K2]. split; [by apply (owns_world w i d)|]. by apply (flat_update w i d).
  - injection X as <- <-. destruct (held_flush reclaimFileRange t c rb _ _ reclaim_keeps (world_held w H)) as [K1 K2].
    split; [split; [apply H|done]|]. cbn [effect]. unfold flat at 2. cbn [pages files]. apply flat_same; [done|]. intros l _. apply K2.
Qed.

Lemma reachable_ok w : rtc fileStep initial w -> worldOK w.
Proof.
  intros X. apply (rtc_preserves _ worldOK _ _) in X; [done| |exact initial_ok].
  intros w1 w2 (o & r & F & Y) H. exact (proj1 (exec_ok o w1 r w2 H F Y)).
Qed.

(** C10: on any run of creations, writes, truncations, snapshots, releases and reclaims over one
    page store, with host errors at any page, each operation acts on the bytes of the files as
    on separate flat files: a write changes the bytes it writes in its file and nothing else
    (after an error, the bytes reported written are there and each later one is old or new), a
    truncation keeps the bytes before the size and zeros the rest, a snapshot has the bytes of
    its file and keeps them whatever happens to that file, reclaiming and compacting the
    host file changes no byte, and nothing panics. *)
Theorem files_refine_bytes w o r w' : rtc fileStep initial w -> fits o w -> exec o w = Some (r, w') ->
  effect o r (flat w) (flat w').
Proof. intros H F X. exact (proj2 (exec_ok o w r w' (reachable_ok w H) F X)). Qed.

(** C31: on any such run the reference count of every page is exactly the number of places in
    files and snapshots that refer to it: no page in use is freed or overwritten as free,
    and a page nobody refers to is not kept. *)
Theorem page_counts_exact w l : rtc fileStep initial w ->
  match pageOf (pages w) l with Some (_, refs) => refs = references (files w) l /\ 1 <= refs | None => references (files w) l = 0 end.
Proof.
  intros H. destruct (reachable_ok w H) as [_ K]. pose proof (held_count _ _ K l) as C.
  destruct (pageOf (pages w) l) as [[p n]|] eqn:E; [|done]. split; [done|]. apply (pageOf_count _ _ _ _ (held_ok _ _ K) E).
Qed.

(** On any such run a read of a file, within the 64-bit offsets, succeeds and returns
    the bytes of the file where it has pages, leaving the buffer as it was where it has none. *)
Theorem reads_return_bytes w i d dst off : rtc fileStep initial w -> files w !! i = Some d -> 0 <= off -> off + len dst <= 2 ^ 64 ->
  exists out, readAt (pages w) d dst off = Ok out /\ len out = len dst /\
    forall j, 0 <= j < len dst ->
      at_ out j = match locationOf d ((off + j) / 4096) with Some _ => byteAt (pages w) d (off + j) | None => at_ dst j end.
Proof.
  intros H E H1 H2. pose proof (world_owns w i d (reachable_ok w H) E) as O.
  destruct (readLoop_spec _ _ _ (length dst) O dst off H1 H2 ltac:(lia)) as (out & A & B & C). exists out. split_and!; [done..|].
  intros j Hj. rewrite (locationOf_locate d _ (owns_wf _ _ _ O)). by apply C.
Qed.

(** On any such run a seek for data in a file without a lower file finds the first offset
    from the given one on that lies in a page of the file, and fails only if there is none
    before the size; a seek for a hole only passes over offsets in pages of the file (which
    has none from offset 2^63 on). *)
Theorem seeks_by_pages w i d sz off : rtc fileStep initial w -> files w !! i = Some d -> 0 <= off < sz -> sz < 2 ^ 64 ->
  (forall q, locationOf d q <> None -> q < 2 ^ 51) ->
  let inPage x := locationOf d (x / 4096) <> None in
  match Lseek (Some (mkSeekNode sz 0 false false d)) off 3 with
  | Ok x => off <= x < sz /\ inPage x /\ forall y, off <= y < x -> ~ inPage y
  | Err e => e = ENXIO /\ forall y, off <= y < sz -> ~ inPage y
  | Panic => False
  end /\
  match Lseek (Some (mkSeekNode sz 0 false false d)) off 4 with
  | Ok x => off <= x <= sz /\ forall y, off <= y < x -> inPage y
  | _ => False
  end.
Proof.
  intros H E Ho Hs Hq. pose proof (owns_wf _ _ _ (world_owns w i d (reachable_ok w H) E)) as W. cbv zeta.
  unfold Lseek. cbn [size lowerSize abstractFile lowerFile data orb andb Z.eqb Pos.eqb]. rewrite (proj2 (Z.leb_gt _ _)) by lia.
  assert (Hloc : forall q, locationOf d q = locate d q) by (intros; by apply locationOf_locate).
  assert (Hp : 0 <= off / 4096 < pageLimit) by dlia. rewrite Hloc. split.
  - destruct (locate d (off / 4096)) eqn:El; [rewrite Hloc, El; split_and!; [lia|lia|done|lia]|].
    rewrite wrap_small by width. pose proof (nextDataPage_spec d (off / 4096 + 1) W ltac:(lia)) as K.
    assert (Hnone : forall n y, (forall r, off / 4096 + 1 <= r < n -> locate d r = None) -> off <= y -> y / 4096 < n ->
      ~ locationOf d (y / 4096) <> None).
    { intros n y Kn H1 H2. rewrite Hloc. destruct (decide (y / 4096 = off / 4096)) as [->|]; [rewrite El; tauto|]. rewrite Kn by dlia. tauto. }
    destruct (nextDataPage d _) as [q|].
    + destruct K as (K1 & K2 & K3). rewrite wrap_small by width. assert (q * 4096 / 4096 = q) as Eq by dlia.
      destruct (Z.ltb_spec (q * 4096) sz).
      * rewrite Hloc, Eq. split_and!; [dlia|done|done|]. intros y Hy. apply (Hnone q); [done|lia|dlia].
      * split; [done|]. intros y Hy. apply (Hnone q); [done|lia|dlia].
    + split; [done|]. intros y Hy. apply (Hnone (y / 4096 + 1)); [intros r Hr; apply K; lia|lia|lia].
  - destruct (locate d (off / 4096)) eqn:El; [|split; [lia|lia]].
    destruct (nextHolePage_spec d (off / 4096) W ltac:(lia) ltac:(by rewrite El)) as [K1 K2].
    set (q := nextHolePage d (off / 4096)) in *. clearbody q.
    pose proof (Hq (q - 1) ltac:(rewrite Hloc; apply K2; lia)) as Hq1. rewrite wrap_small by width.
    assert (Hin : forall y, off <= y < q * 4096 -> locationOf d (y / 4096) <> None) by (intros y Hy; rewrite Hloc; apply K2; dlia).
    destruct (Z.ltb_spec (q * 4096) sz); (split; [dlia|]); intros y Hy; apply Hin; lia.
Qed.
End World.

(** * Witnesses *)

(** A host that fills a deallocated range with zeros. *)
Definition punchHole (f : bytes) (a n : Z) : bytes * reclaimOutcome := (put f a (zeros n), Reclaimed).

Lemma punchHole_keeps f a n : 0 <= a ->
  len (punchHole f a n).1 = len f /\
  forall x y, 0 <= x -> y <= a \/ a + n <= x -> slice (punchHole f a n).1 x y = slice f x y.
Proof. intros Ha. cbn [punchHole fst]. split; [apply len_put|]. intros x y Hx H. list_ext. Qed.

#[export] Instance fits_dec o w : Decision (fits o w).
Proof. destruct o; cbn; apply _. Defined.

(** A run of operations that fit. *)
Definition runOps (ops : list fileOp) : option world :=
  foldl (fun w o => w ← w; if decide (fits o w) then snd <$> exec punchHole o w else None) (Some initial) ops.

Lemma runOps_reach ops w : runOps ops = Some w -> rtc (fileStep punchHole) initial w.
Proof.
  revert w. induction ops as [|o ops IH] using rev_ind; intros w; unfold runOps; [by intros [= <-]|].
  rewrite foldl_app. cbn [foldl]. fold (runOps ops). destruct (runOps ops) as [w1|]; cbn [mbind option_bind]; [|done].
  destruct (decide (fits o w1)) as [F|]; [|done]. destruct (exec punchHole o w1) as [[r w2]|] eqn:E; [|done]. intros [= <-].
  apply (rtc_r _ w1); [by apply IH|]. by exists o, r.
Qed.

(** A file written over a page boundary, a snapshot of it, and a write that copies a page. *)
Definition sampleOps : list fileOp :=
  [Create; Write 0 [] [1; 2; 3] 4095; Snapshot 0 []; Write 0 [] [7] 4096; Create; Write 2 [] [9] 0; Release 2;
   FlushReclaim true true false].

Definition sampleWorld : world := default initial (runOps sampleOps).

Lemma sample_runs : runOps sampleOps = Some sampleWorld.
Proof. vm_compute. reflexivity. Qed.

Lemma sample_bytes : (fun b => map b [4094; 4095; 4096; 4097; 4098]) <$> flat sampleWorld =
  [[0; 1; 7; 3; 0]; [0; 1; 2; 3; 0]; [0; 0; 0; 0; 0]].
Proof. vm_compute. reflexivity. Qed.

Definition sampleTruncate : fileOp := Truncate 0 HostDone 4096.

Lemma files_refine_bytes_witness : exists r w', exec punchHole sampleTruncate sampleWorld = Some (r, w') /\
  effect sampleTruncate r (flat sampleWorld) (flat w').
Proof.
  destruct (exec punchHole sampleTruncate sampleWorld) as [[r w']|] eqn:E; [|vm_compute in E; discriminate E].
  exists r, w'. split; [reflexivity|].
  refine (files_refine_bytes punchHole punchHole_keeps sampleWorld sampleTruncate r w' (runOps_reach _ _ sample_runs) _ E).
  apply (bool_decide_unpack _). vm_compute. exact I.
Defined.

Lemma page_counts_exact_witness : exists page, pageOf (pages sampleWorld) 1 = Some (page, 2) /\ references (files sampleWorld) 1 = 2.
Proof.
  pose proof (page_counts_exact punchHole punchHole_keeps sampleWorld 1 (runOps_reach _ _ sample_runs)) as H.
  destruct (pageOf (pages sampleWorld) 1) as [[p n]|] eqn:E; [|vm_compute in E; discriminate E].
  assert (N : n = 2) by (assert (K : (snd <$> pageOf (pages sampleWorld) 1) = Some 2) by (vm_compute; reflexivity);
    rewrite E in K; injection K as K; exact K).
  exists p. destruct H as [H _]. split; [rewrite N; reflexivity|]. rewrite <- H. exact N.
Defined.

Lemma reads_return_bytes_witness : exists d out, files sampleWorld !! 1%nat = Some d /\
  readAt (pages sampleWorld) d (zeros 4) 4095 = Ok out /\ len out = 4.
Proof.
  destruct (files sampleWorld !! 1%nat) as [d|] eqn:E; [|vm_compute in E; discriminate E].
  destruct (reads_return_bytes punchHole punchHole_keeps sampleWorld 1 d (zeros 4) 4095 (runOps_reach _ _ sample_runs) E)
    as (out & A & B & _); [lia|vm_compute; discriminate|].
  exists d, out. split; [reflexivity|]. split; [exact A|exact B].
Defined.

Lemma seeks_by_pages_witness : exists d x, files sampleWorld !! 0%nat = Some d /\
  Lseek (Some (mkSeekNode 4098 0 false false d)) 1 3 = Ok x /\ locationOf d (x / 4096) <> None.
Proof.
  destruct (files sampleWorld !! 0%nat) as [d|] eqn:E; [|vm_compute in E; discriminate E].
  assert (D : d = [mkExtent 0 1 1; mkExtent 1 3 1]) by (vm_compute in E; injection E as E; symmetry; exact E).
  destruct (seeks_by_pages punchHole punchHole_keeps sampleWorld 0 d 4098 1 (runOps_reach _ _ sample_runs) E) as [H _];
    [lia|lia| |].
  - intros q Hq. rewrite locationOf_locate in Hq by (rewrite D; unfold wf; cbn; unfold extentOK; cbn; lia).
    destruct (locate d q) as [l|] eqn:El; [|destruct (Hq eq_refl)].
    apply (locate_token 0 d 2) in El; [lia|]. rewrite D. cbn. unfold extentOK. cbn. lia.
  - exists d. destruct (Lseek (Some (mkSeekNode 4098 0 false false d)) 1 3) as [x|e|] eqn:L; [|rewrite D in L; vm_compute in L; discriminate L|destruct H].
    exists x. split; [reflexivity|]. split; [reflexivity|apply H].
Defined.

(** A seek for a hole can stop at data: pages next to each other whose tokens are not are
    two extents, and the search ends at the end of the first.  In the sample run it reports
    a hole at offset 4096, where the file holds the byte 7. *)
Theorem seek_hole_in_data : exists w d, rtc (fileStep punchHole) initial w /\ files w !! 0%nat = Some d /\
  Lseek (Some (mkSeekNode 4098 0 false false d)) 0 4 = Ok 4096 /\ byteAt (pages w) d 4096 = 7.
Proof.
  exists sampleWorld. destruct (files sampleWorld !! 0%nat) as [d|] eqn:E; [|vm_compute in E; discriminate E].
  exists d. split; [exact (runOps_reach _ _ sample_runs)|]. vm_compute in E. injection E as <-. split; [reflexivity|].
  split; vm_compute; reflexivity.
Qed.
