(* ===== verification/Paths.v ===== *)
(** Slash-separated paths: what the image code uses of the packages [path] and [strings], and
    [src/internal/core/fsmeta/meta.go] and [sanitizeArchivePath] of [oci.go] on top of it.

    A string is its bytes.  [Normalize] yields the absolute path of a list of components
    ([normalize_canonical]); on such paths [path.Dir], [path.Base] and the prefix tests of the
    image code are operations on the list of components. *)

From stdpp Require Import gmap.
From S2P Require Import Prelude.

(** * Package strings *)

Fixpoint hasPrefix (s prefix : bytes) {struct prefix} : bool :=
  match prefix, s with
  | [], _ => true
  | x :: prefix, y :: s => (x =? y) && hasPrefix s prefix
  | _, [] => false
  end.

Definition trimPrefix (s prefix : bytes) : bytes :=
  if hasPrefix s prefix then drop (length prefix) s else s.

(** The parts of a string between the occurrences of [c]. *)
Fixpoint splitOn (c : Z) (s : bytes) : list bytes :=
  match s with
  | [] => [[]]
  | x :: s =>
      if x =? c then [] :: splitOn c s
      else match splitOn c s with w :: ws => (x :: w) :: ws | [] => [[x]] end
  end.

Fixpoint joinWith (c : Z) (ws : list bytes) : bytes :=
  match ws with
  | [] => []
  | [w] => w
  | w :: ws => w ++ c :: joinWith c ws
  end.

(** The UTF-8 encodings of the runes [unicode.IsSpace] accepts. *)
Definition spaces : list bytes :=
  [[0x09]; [0x0a]; [0x0b]; [0x0c]; [0x0d]; [0x20]; [0xc2; 0x85]; [0xc2; 0xa0]; [0xe1; 0x9a; 0x80];
   [0xe2; 0x80; 0x80]; [0xe2; 0x80; 0x81]; [0xe2; 0x80; 0x82]; [0xe2; 0x80; 0x83]; [0xe2; 0x80; 0x84]; [0xe2; 0x80; 0x85];
   [0xe2; 0x80; 0x86]; [0xe2; 0x80; 0x87]; [0xe2; 0x80; 0x88]; [0xe2; 0x80; 0x89]; [0xe2; 0x80; 0x8a];
   [0xe2; 0x80; 0xa8]; [0xe2; 0x80; 0xa9]; [0xe2; 0x80; 0xaf]; [0xe2; 0x81; 0x9f]; [0xe3; 0x80; 0x80]].

Fixpoint trimStart (fuel : nat) (sp : list bytes) (s : bytes) : bytes :=
  match fuel, find (fun p => hasPrefix s p) sp with
  | S fuel, Some p => trimStart fuel sp (drop (length p) s)
  | _, _ => s
  end.

(** Trimming at the end is trimming of the reversed string. *)
Definition trimSpace (s : bytes) : bytes :=
  let s := trimStart (length s) spaces s in
  reverse (trimStart (length s) (reverse <$> spaces) (reverse s)).

(** * Package path *)

Abbreviation slash := 47%Z.
Abbreviation dot := [46]%Z.
Abbreviation dotdot := [46; 46]%Z.

(** One component; [stack] holds the components kept so far, the last one first. *)
Definition cleanStep (rooted : bool) (stack : list bytes) (c : bytes) : list bytes :=
  if bool_decide (c = [] \/ c = dot) then stack
  else if bool_decide (c = dotdot) then
    match stack with
    | top :: rest => if bool_decide (top = dotdot) then c :: stack else rest
    | [] => if rooted then [] else [c]
    end
  else c :: stack.

Definition cleanParts (rooted : bool) (p : bytes) : list bytes := reverse (foldl (cleanStep rooted) [] (splitOn slash p)).

Definition pathClean (p : bytes) : bytes :=
  if bool_decide (p = []) then dot
  else
    let rooted := hasPrefix p [slash] in
    match rooted, cleanParts rooted p with
    | true, cs => slash :: joinWith slash cs
    | false, [] => dot
    | false, cs => joinWith slash cs
    end.

Definition pathDir (p : bytes) : bytes :=
  pathClean (match reverse (splitOn slash p) with _ :: (_ :: _) as ws => joinWith slash (reverse ws) ++ [slash] | _ => [] end).

(** Trailing slashes are cut off first. *)
Fixpoint dropSlashes (r : bytes) : bytes :=
  match r with
  | 47 :: r => dropSlashes r
  | _ => r
  end.

Definition pathBase (p : bytes) : bytes :=
  if bool_decide (p = []) then dot
  else
    let p := reverse (dropSlashes (reverse p)) in
    let p := default [] (last (splitOn slash p)) in
    if bool_decide (p = []) then [slash] else p.

(** Of two elements. *)
Definition pathJoin (a b : bytes) : bytes :=
  if bool_decide (a = []) then (if bool_decide (b = []) then [] else pathClean b)
  else if bool_decide (b = []) then pathClean a
  else pathClean (a ++ slash :: b).

(** * Paths of an image *)

Definition Normalize (name : bytes) : bytes :=
  let clean := pathClean (slash :: name) in
  if bool_decide (clean = dot) then [slash] else clean.

Definition NormalizeSymlinkTarget (target : bytes) : bytes := (fun c => if c =? 92 then slash else c) <$> target.

Inductive pathError := EmptyArchivePath | InvalidArchivePath (name : bytes).

Definition sanitizeArchivePath (name : bytes) : result pathError bytes :=
  let name := trimSpace name in
  if bool_decide (name = []) then Err EmptyArchivePath
  else
    let name := pathClean (trimPrefix name [slash]) in
    if bool_decide (name = dot) || hasPrefix name (dotdot ++ [slash]) then Err (InvalidArchivePath name)
    else Ok name.

(** [strings.HasPrefix(k, p+"/")]. *)
Definition under (p k : bytes) : bool := hasPrefix k (p ++ [slash]).

(** * Lemmas *)

Lemma hasPrefix_spec s prefix : hasPrefix s prefix = true <-> exists t, s = prefix ++ t.
Proof.
  revert s. induction prefix as [|x prefix IH]; intros s; cbn; [split; intros _; [by exists s|reflexivity]|].
  destruct s as [|y s]; [split; [done|by intros [t [=]]]|]. rewrite andb_true_iff, Z.eqb_eq, IH. split.
  - intros (-> & t & ->). by exists t.
  - intros (t & [= -> ->]). split; [done|by exists t].
Qed.

Definition goodPart (c : bytes) : Prop := c <> [] /\ c <> dot /\ c <> dotdot /\ slash ∉ c.

(** The absolute path of a list of components. *)
Definition abs (cs : list bytes) : bytes := slash :: joinWith slash cs.

Definition canonical (p : bytes) : Prop := exists cs, Forall goodPart cs /\ p = abs cs.

Lemma splitOn_no_slash c s : Forall (fun w => c ∉ w) (splitOn c s).
Proof.
  induction s as [|x s IH]; cbn; [repeat constructor; apply not_elem_of_nil|]. destruct (Z.eqb_spec x c) as [->|Hne].
  - constructor; [apply not_elem_of_nil|done].
  - destruct (splitOn c s) as [|w ws]; [repeat constructor; set_solver|]. inversion IH as [|? ? H1 H2]; subst.
    constructor; [set_solver|done].
Qed.

Lemma splitOn_nil c s : splitOn c s <> [].
Proof. destruct s as [|x s]; cbn; [done|]. destruct (x =? c); [done|]. by destruct (splitOn c s). Qed.

Lemma splitOn_word c w s : c ∉ w -> splitOn c (w ++ c :: s) = w :: splitOn c s.
Proof.
  induction w as [|x w IH]; intros H; cbn; [by rewrite Z.eqb_refl|].
  apply not_elem_of_cons in H as [H1 H2]. destruct (Z.eqb_spec x c) as [->|_]; [done|]. by rewrite IH.
Qed.

Lemma splitOn_last c w : c ∉ w -> splitOn c w = [w].
Proof.
  induction w as [|x w IH]; intros H; [done|]. cbn. apply not_elem_of_cons in H as [H1 H2].
  destruct (Z.eqb_spec x c) as [->|_]; [done|]. by rewrite IH.
Qed.

Lemma splitOn_join c ws : ws <> [] -> Forall (fun w => c ∉ w) ws -> splitOn c (joinWith c ws) = ws.
Proof.
  induction ws as [|w ws IH]; intros H F; [done|]. inversion F as [|? ? H1 H2]; subst. destruct ws as [|w' ws].
  - by apply splitOn_last.
  - change (joinWith c (w :: w' :: ws)) with (w ++ c :: joinWith c (w' :: ws)). rewrite splitOn_word by done. by rewrite IH.
Qed.

(** Cleaning from the root leaves good components, and leaves those alone. *)
Lemma cleanStep_good stack c : slash ∉ c -> Forall goodPart stack -> Forall goodPart (cleanStep true stack c).
Proof.
  intros Hc Hs. unfold cleanStep. case_bool_decide as H1; [done|]. case_bool_decide as H2.
  - destruct Hs as [|top rest Ht Hr]; [constructor|]. case_bool_decide as H3; [by destruct Ht as (_ & _ & ? & _)|done].
  - constructor; [|done]. split_and!; [tauto..|done|done].
Qed.

Lemma cleanStep_keep stack c : goodPart c -> cleanStep true stack c = c :: stack.
Proof. intros (H1 & H2 & H3 & _). unfold cleanStep. rewrite !bool_decide_eq_false_2; [done|done|tauto]. Qed.

Lemma cleanParts_good p : Forall goodPart (cleanParts true p).
Proof.
  unfold cleanParts. apply Forall_reverse. assert (H : Forall goodPart (@nil bytes)) by constructor. revert H.
  generalize (@nil bytes). generalize (splitOn_no_slash slash p). generalize (splitOn slash p).
  intros ws. induction ws as [|w ws IH]; intros F acc H; [done|]. inversion F as [|? ? F1 F2]; subst. cbn.
  apply IH; [done|]. by apply cleanStep_good.
Qed.

Lemma clean_fold ws : Forall goodPart ws -> forall stack, foldl (cleanStep true) stack ws = reverse ws ++ stack.
Proof.
  induction 1 as [|w ws Hw _ IH]; intros stack; [done|]. cbn [foldl]. rewrite cleanStep_keep, IH by done.
  by rewrite reverse_cons, <- app_assoc.
Qed.

Lemma pathClean_abs p : pathClean (slash :: p) = abs (cleanParts true (slash :: p)).
Proof. done. Qed.

(** The part before a leading slash is empty. *)
Lemma cleanParts_slash p : cleanParts true (slash :: p) = cleanParts true p.
Proof. done. Qed.

Lemma cleanParts_join cs : Forall goodPart cs -> cleanParts true (joinWith slash cs) = cs.
Proof.
  intros F. unfold cleanParts. destruct (decide (cs = [])) as [->|H]; [done|].
  rewrite splitOn_join, clean_fold, app_nil_r, reverse_involutive; [done|done|done|]. eapply Forall_impl; [exact F|].
  by intros c (_ & _ & _ & ?).
Qed.

Lemma normalize_abs name : Normalize name = abs (cleanParts true name).
Proof. unfold Normalize. rewrite pathClean_abs, cleanParts_slash, bool_decide_eq_false_2; [done|]. by intros [= ?]. Qed.

Lemma normalize_canonical name : canonical (Normalize name).
Proof. exists (cleanParts true name). split; [apply cleanParts_good|apply normalize_abs]. Qed.

Lemma normalize_id p : canonical p -> Normalize p = p.
Proof. intros (cs & F & ->). rewrite normalize_abs. unfold abs. by rewrite cleanParts_slash, cleanParts_join. Qed.

Lemma abs_inj cs ds : Forall goodPart cs -> Forall goodPart ds -> abs cs = abs ds -> cs = ds.
Proof. intros F1 F2 [= H]. rewrite <- (cleanParts_join cs), <- (cleanParts_join ds) by done. by rewrite H. Qed.

(** * Prefixes *)

(** Each component with its slash. *)
Definition flat (cs : list bytes) : bytes := concat (cons slash <$> cs).

Lemma abs_flat cs : cs <> [] -> abs cs = flat cs.
Proof.
  unfold abs, flat. induction cs as [|c cs IH]; intros H; [done|]. destruct cs as [|d cs]; [cbn; by rewrite app_nil_r|].
  change (joinWith slash (c :: d :: cs)) with (c ++ slash :: joinWith slash (d :: cs)). by rewrite IH.
Qed.

Lemma word_end (c d s t : bytes) : slash ∉ c -> slash ∉ d -> c ++ slash :: s = d ++ slash :: t -> c = d /\ s = t.
Proof.
  revert d. induction c as [|x c IH]; intros d Hc Hd E; destruct d as [|y d]; cbn in E.
  - by injection E.
  - injection E as <- _. set_solver.
  - injection E as -> _. set_solver.
  - injection E as -> E. apply not_elem_of_cons in Hc as [_ Hc]. apply not_elem_of_cons in Hd as [_ Hd].
    destruct (IH d Hc Hd E) as [-> ->]. done.
Qed.

(** [flat] of a longer list starts with a slash. *)
Lemma flat_prefix cs : forall ds t, Forall goodPart cs -> Forall goodPart ds ->
  flat ds = flat cs ++ slash :: t -> exists e rest, ds = cs ++ e :: rest.
Proof.
  induction cs as [|c cs IH]; intros ds t Fc Fd E; destruct ds as [|d ds]; [done|by exists d, ds|done|].
  inversion Fc as [|? ? (_ & _ & _ & Hc) Fc']; inversion Fd as [|? ? (_ & _ & _ & Hd) Fd']; subst.
  change (flat (d :: ds)) with (slash :: d ++ flat ds) in E. change (flat (c :: cs)) with (slash :: c ++ flat cs) in E.
  cbn [app] in E. injection E as E. rewrite <- app_assoc in E.
  assert (H : exists u, flat cs ++ slash :: t = slash :: u) by (destruct cs as [|c' cs]; [by exists t|eexists; reflexivity]).
  destruct H as (u & Hu). destruct ds as [|d' ds].
  - exfalso. rewrite Hu, app_nil_r in E. subst d. set_solver.
  - change (flat (d' :: ds)) with (slash :: d' ++ flat ds) in E. rewrite Hu in E.
    apply word_end in E as [<- E]; [|done|done].
    destruct (IH (d' :: ds) t Fc' Fd') as (e & rest & Er); [|exists e, rest; cbn; by rewrite Er].
    change (flat (d' :: ds)) with (slash :: d' ++ flat ds). by rewrite Hu, E.
Qed.

(** A path is below another when the components of the other are a proper prefix of its own;
    nothing is below the root in this sense. *)
Lemma under_parts cs ds : Forall goodPart cs -> Forall goodPart ds ->
  under (abs cs) (abs ds) = true <-> cs <> [] /\ exists e rest, ds = cs ++ e :: rest.
Proof.
  intros Fc Fd. unfold under. rewrite hasPrefix_spec. split.
  - intros (t & E). destruct (decide (cs = [])) as [->|Hc].
    { exfalso. unfold abs in E. cbn in E. injection E as E. destruct ds as [|d ds]; [done|].
      inversion Fd as [|? ? (Hd & _ & _ & Hd') _]; subst. destruct d as [|x d]; [done|].
      destruct ds; cbn in E; injection E as -> _; set_solver. }
    split; [done|]. destruct (decide (ds = [])) as [->|Hd].
    { exfalso. rewrite (abs_flat cs) in E by done. destruct cs as [|c cs]; [done|].
      inversion Fc as [|? ? (Hc' & _) _]; subst. destruct c; done. }
    rewrite !abs_flat, <- app_assoc in E by done. by eapply flat_prefix.
  - intros (Hc & e & rest & ->). exists (e ++ flat rest). rewrite !abs_flat by (by destruct cs).
    unfold flat. rewrite fmap_app, concat_app, <- app_assoc. done.
Qed.

Lemma reverse_snoc_cons {A} (l : list A) x : reverse (l ++ [x]) = x :: reverse l.
Proof. by rewrite reverse_app. Qed.

Lemma joinWith_snoc ws w : ws <> [] -> joinWith slash (ws ++ [w]) = joinWith slash ws ++ slash :: w.
Proof.
  induction ws as [|v ws IH]; intros H; [done|]. destruct ws as [|v' ws]; [done|].
  change (joinWith slash ((v :: v' :: ws) ++ [w])) with (v ++ slash :: joinWith slash ((v' :: ws) ++ [w])).
  rewrite IH by done. change (joinWith slash (v :: v' :: ws)) with (v ++ slash :: joinWith slash (v' :: ws)).
  by rewrite <- app_assoc.
Qed.

Lemma splitOn_abs cs : Forall goodPart cs -> splitOn slash (abs cs) = [] :: match cs with [] => [[]] | _ => cs end.
Proof.
  intros F. unfold abs. cbn. destruct cs as [|c cs]; [done|]. rewrite splitOn_join; [done|done|].
  eapply Forall_impl; [exact F|]. by intros d (_ & _ & _ & ?).
Qed.

Lemma pathDir_abs cs c : Forall goodPart (cs ++ [c]) -> pathDir (abs (cs ++ [c])) = abs cs.
Proof.
  intros F. pose proof F as Fs. apply Forall_app in Fs as [Fs _]. unfold pathDir. rewrite splitOn_abs by done.
  assert (H : match cs ++ [c] with [] => [[]] | _ => cs ++ [c] end = cs ++ [c]) by (by destruct cs). rewrite H.
  change ([] :: cs ++ [c]) with (([] :: cs) ++ [c]). rewrite reverse_snoc_cons.
  destruct (reverse ([] :: cs)) as [|w ws] eqn:E.
  { apply (f_equal length) in E. rewrite length_reverse in E. done. }
  rewrite <- E, reverse_involutive.
  assert (Hj : joinWith slash ([] :: cs) ++ [slash] = slash :: (if decide (cs = []) then [] else joinWith slash cs ++ [slash])).
  { destruct cs; [done|]. by rewrite decide_False. }
  rewrite Hj, pathClean_abs, cleanParts_slash. f_equal. destruct (decide (cs = [])) as [->|Hc]; [done|].
  unfold cleanParts. rewrite <- (joinWith_snoc cs []) by done. rewrite splitOn_join.
  - rewrite foldl_app, (clean_fold cs Fs), app_nil_r. change (foldl (cleanStep true) (reverse cs) [[]]) with (reverse cs). by rewrite reverse_involutive.
  - by destruct cs.
  - apply Forall_app. split; [|repeat constructor; apply not_elem_of_nil]. eapply Forall_impl; [exact Fs|]. by intros d (_ & _ & _ & ?).
Qed.

Lemma pathDir_root : pathDir (abs []) = abs [].
Proof. done. Qed.

Lemma last_not_slash cs c : goodPart c -> exists p x, abs (cs ++ [c]) = p ++ [x] /\ x <> slash.
Proof.
  intros (Hc & _ & _ & Hs). destruct c as [|x c _] using rev_ind; [done|]. unfold abs.
  assert (E : exists p, joinWith slash (cs ++ [c ++ [x]]) = p ++ [x]).
  { destruct (decide (cs = [])) as [->|H]; [by exists c|]. exists (joinWith slash cs ++ slash :: c). rewrite joinWith_snoc by done.
    by rewrite <- app_assoc. }
  destruct E as (p & ->). exists (slash :: p), x. split; [done|]. set_solver.
Qed.

Lemma pathBase_abs cs c : Forall goodPart (cs ++ [c]) -> pathBase (abs (cs ++ [c])) = c.
Proof.
  intros F. pose proof F as Fc. apply Forall_app in Fc as [_ Fc]. inversion Fc as [|? ? Hc _]; subst. unfold pathBase.
  rewrite bool_decide_eq_false_2 by done. destruct (last_not_slash cs c Hc) as (p & x & E & Hx).
  assert (Hr : reverse (dropSlashes (reverse (abs (cs ++ [c])))) = abs (cs ++ [c])).
  { rewrite E, reverse_snoc_cons. replace (dropSlashes (x :: reverse p)) with (x :: reverse p); [by rewrite reverse_cons, reverse_involutive|].
    symmetry. change (match x :: reverse p with 47 :: r => dropSlashes r | _ => x :: reverse p end = x :: reverse p).
    destruct x as [|q|]; try done. repeat (destruct q as [q|q|]; try done). }
  rewrite Hr, splitOn_abs by done. replace (match cs ++ [c] with [] => [[]] | _ => cs ++ [c] end) with (cs ++ [c]) by (by destruct cs).
  change ([] :: cs ++ [c]) with (([] :: cs) ++ [c]). rewrite last_snoc. cbn. rewrite bool_decide_eq_false_2; [done|]. by destruct Hc.
Qed.

Lemma stringLess_app a b : b <> [] -> stringLess a (a ++ b) = true.
Proof. intros H. induction a as [|x a IH]; cbn; [by destruct b|]. by rewrite Z.ltb_irrefl, Z.eqb_refl, IH. Qed.

(** A directory sorts before what it holds. *)
Lemma parent_less cs c : goodPart c -> stringLess (abs cs) (abs (cs ++ [c])) = true.
Proof.
  intros (Hc & _). destruct (decide (cs = [])) as [->|H].
  - change (abs ([] ++ [c])) with (abs [] ++ c). by apply stringLess_app.
  - unfold abs. rewrite joinWith_snoc by done. apply (stringLess_app (slash :: joinWith slash cs)). done.
Qed.

Lemma abs_snoc_root cs c : goodPart c -> abs (cs ++ [c]) <> [slash].
Proof.
  intros Hc E. pose proof (parent_less cs c Hc) as H. rewrite E in H. unfold abs in H. cbn in H. by destruct (joinWith slash cs).
Qed.

(** Every canonical path but the root has a parent. *)
Lemma canonical_cases p : canonical p -> p = [slash] \/ exists cs c, Forall goodPart (cs ++ [c]) /\ p = abs (cs ++ [c]).
Proof.
  intros (cs & F & ->). destruct cs as [|c cs _] using rev_ind; [by left|]. right. by exists cs, c.
Qed.
