(* ===== verification/LayerIndex.v ===== *)
(** The binary indexes of container images: [src/internal/core/oci/fsindexbinary.go] and the
    records of [layerarchive.go].

    A reader is the bytes that are left; every decoder returns what follows its value, so
    round trips compose.  [fs_index_roundtrip]: the index of a file system decodes to the
    nodes it was made from.  [record_roundtrip]: so do the records of a layer; [cut_record]: a
    record that is cut off between two fields reads as the end of the layer. *)

From stdpp Require Import gmap.
From S2P Require Import Prelude.

(** * Variable-length integers of encoding/binary *)

Inductive readError :=
  | EOF
  | UnexpectedEOF
  | Overflow
  | StringTooLarge (n : Z)
  | UnknownKind (k : Z)
  | BadPacked (b : Z)
  | BadCount (n : Z)
  | TrailingData
  | BadMagic.

Abbreviation R := (result readError).

Definition readByte (r : bytes) : R (Z * bytes) :=
  match r with
  | [] => Err EOF
  | b :: r => Ok (b, r)
  end.

(** [n] more bytes are read at most; the value so far is [x], the next bits go to [s]. *)
Fixpoint readUvarintFrom (n : nat) (s x : Z) (r : bytes) : R (Z * bytes) :=
  match n with
  | O => Err Overflow
  | S n =>
      match r with
      | [] => Err (if s =? 0 then EOF else UnexpectedEOF)
      | b :: r =>
          if b <? 128 then
            if (s =? 63) && (1 <? b) then Err Overflow else Ok (Z.lor x (wrap 64 (Z.shiftl b s)), r)
          else readUvarintFrom n (s + 7) (Z.lor x (wrap 64 (Z.shiftl (Z.land b 127) s))) r
      end
  end.

Definition ReadUvarint : bytes -> R (Z * bytes) := readUvarintFrom 10 0 0.

Definition ReadVarint (r : bytes) : R (Z * bytes) :=
  '(ux, r) ← ReadUvarint r;
  let x := i64 (Z.shiftr ux 1) in
  Ok (if Z.testbit ux 0 then Z.lnot x else x, r).

Fixpoint putUvarintFrom (n : nat) (x : Z) : bytes :=
  match n with
  | O => []
  | S n => if x <? 128 then [x] else Z.lor (wrap 8 x) 128 :: putUvarintFrom n (Z.shiftr x 7)
  end.

(** Ten bytes are enough for 64 bits. *)
Definition PutUvarint (x : Z) : bytes := putUvarintFrom 10 x.

Definition PutVarint (x : Z) : bytes :=
  let ux := wrap 64 (Z.shiftl (wrap 64 x) 1) in
  PutUvarint (if x <? 0 then wrap 64 (Z.lnot ux) else ux).

(** [io.ReadFull]. *)
Definition readFull (n : Z) (r : bytes) : R (bytes * bytes) :=
  if n <=? len r then Ok (slice r 0 n, slice r n (len r))
  else Err (if len r =? 0 then EOF else UnexpectedEOF).

(** * Nodes *)

(** A kind is a string; the zero value is [KindOther []]. *)
Inductive indexedKind := KindDir | KindFile | KindSymlink | KindOther (name : bytes).
#[export] Instance indexedKind_dec : EqDecision indexedKind.
Proof. solve_decision. Defined.

Record indexedNode := mkNode {
  Path : bytes;
  Kind : indexedKind;
  Mode : Z;
  UID : Z;
  GID : Z;
  RDev : Z;
  Size : Z;
  ModTimeNS : Z;
  LinkTarget : bytes;
  TarPath : bytes;
  TarOffset : Z;
  CVMFSTarget : bytes;
  Packed : bool;
  PackedOffset : Z;
}.
#[export] Instance eta_indexedNode : Eta indexedNode := fun n =>
  mkNode (Path n) (Kind n) (Mode n) (UID n) (GID n) (RDev n) (Size n) (ModTimeNS n) (LinkTarget n) (TarPath n) (TarOffset n)
    (CVMFSTarget n) (Packed n) (PackedOffset n).
#[export] Instance indexedNode_dec : EqDecision indexedNode.
Proof. solve_decision. Defined.

(** [indexedNode{Path: path}]. *)
Definition pathNode (path : bytes) : indexedNode := mkNode path (KindOther []) 0 0 0 0 0 0 [] [] 0 [] false 0.

Abbreviation layerRecordAdd := 1%Z.
Abbreviation layerRecordDelete := 2%Z.
Abbreviation layerRecordOpaque := 3%Z.
Abbreviation layerRecordHardlink := 4%Z.
Abbreviation layerKindDirectory := 1%Z.
Abbreviation layerKindFile := 2%Z.
Abbreviation layerKindSymlink := 3%Z.
Abbreviation maxLayerIndexString := 16777216%Z.

Record layerRecord := mkRecord { op : Z; node : indexedNode; hardlinkTarget : bytes }.
#[export] Instance eta_layerRecord : Eta layerRecord := fun r => mkRecord (op r) (node r) (hardlinkTarget r).

(** * Writing *)

Inductive writeError := WStringTooLarge (n : Z) | UnsupportedKind (name : bytes).
Abbreviation W := (result writeError bytes).

Definition writeLayerString (value : bytes) : W :=
  if maxLayerIndexString <? len value then Err (WStringTooLarge (len value))
  else Ok (PutUvarint (len value) ++ value).

Definition kindByte (k : indexedKind) : result writeError Z :=
  match k with
  | KindDir => Ok layerKindDirectory
  | KindFile => Ok layerKindFile
  | KindSymlink => Ok layerKindSymlink
  | KindOther name => Err (UnsupportedKind name)
  end.

Definition writeBinaryIndexedNode (n : indexedNode) : W :=
  path ← writeLayerString (Path n);
  kind ← kindByte (Kind n);
  link ← writeLayerString (LinkTarget n);
  tar ← writeLayerString (TarPath n);
  cvmfs ← writeLayerString (CVMFSTarget n);
  Ok (path ++ [kind] ++ PutUvarint (Mode n) ++ PutUvarint (UID n) ++ PutUvarint (GID n) ++ PutUvarint (RDev n) ++
      PutUvarint (Size n) ++ PutUvarint (TarOffset n) ++ PutUvarint (PackedOffset n) ++ PutVarint (ModTimeNS n) ++
      link ++ tar ++ cvmfs ++ [if Packed n then 1 else 0]).

Fixpoint writeAll {A} (f : A -> W) (l : list A) : W :=
  match l with
  | [] => Ok []
  | x :: l => b ← f x; bs ← writeAll f l; Ok (b ++ bs)
  end.

(** The magic strings are [CCFSIDX1] and [CCLAYER1]. *)
Definition fsIndexMagic : bytes := [67; 67; 70; 83; 73; 68; 88; 49].
Definition layerArchiveMagic : bytes := [67; 67; 76; 65; 89; 69; 82; 49].

Definition encodeBinaryFSIndex (nodes : list indexedNode) : W :=
  body ← writeAll writeBinaryIndexedNode nodes;
  Ok (fsIndexMagic ++ PutUvarint (len nodes) ++ body).

(** The paths in order. *)
Definition sortedNodes (nodes : gmap bytes indexedNode) : list (bytes * indexedNode) :=
  merge_sort (fun a b => stringLe a.1 b.1) (map_to_list nodes).

Definition encodeBinaryFSIndexMap (nodes : gmap bytes indexedNode) : W :=
  encodeBinaryFSIndex (snd <$> sortedNodes nodes).

Definition writeLayerRecord (record : layerRecord) : W :=
  path ← writeLayerString (Path (node record));
  if (op record =? layerRecordDelete) || (op record =? layerRecordOpaque) then Ok (op record :: path)
  else
    kind ← kindByte (Kind (node record));
    link ← writeLayerString (LinkTarget (node record));
    target ← (if op record =? layerRecordHardlink then writeLayerString (hardlinkTarget record) else Ok []);
    let n := node record in
    Ok (op record :: path ++ [kind] ++ PutUvarint (Mode n) ++ PutUvarint (UID n) ++ PutUvarint (GID n) ++ PutUvarint (RDev n) ++
        PutUvarint (Size n) ++ PutUvarint (TarOffset n) ++ PutVarint (ModTimeNS n) ++ link ++ target).

(** * Reading *)

Definition readLayerString (r : bytes) : R (bytes * bytes) :=
  '(size, r) ← ReadUvarint r;
  if maxLayerIndexString <? size then Err (StringTooLarge size)
  else readFull size r.

Definition readKind (r : bytes) : R (indexedKind * bytes) :=
  '(kind, r) ← readByte r;
  if kind =? layerKindDirectory then Ok (KindDir, r)
  else if kind =? layerKindFile then Ok (KindFile, r)
  else if kind =? layerKindSymlink then Ok (KindSymlink, r)
  else Err (UnknownKind kind).

Definition readBinaryIndexedNode (r : bytes) : R (indexedNode * bytes) :=
  '(path, r) ← readLayerString r;
  '(kind, r) ← readKind r;
  '(mode, r) ← ReadUvarint r;
  '(uid, r) ← ReadUvarint r;
  '(gid, r) ← ReadUvarint r;
  '(rdev, r) ← ReadUvarint r;
  '(size, r) ← ReadUvarint r;
  '(tarOffset, r) ← ReadUvarint r;
  '(packedOffset, r) ← ReadUvarint r;
  '(modTime, r) ← ReadVarint r;
  '(link, r) ← readLayerString r;
  '(tar, r) ← readLayerString r;
  '(cvmfs, r) ← readLayerString r;
  '(packed, r) ← readByte r;
  if 1 <? packed then Err (BadPacked packed)
  else Ok (mkNode path kind (u32 mode) (u32 uid) (u32 gid) (u32 rdev) size modTime link tar tarOffset cvmfs (packed =? 1) packedOffset, r).

Fixpoint readNodes (n : nat) (r : bytes) : R (list indexedNode * bytes) :=
  match n with
  | O => Ok ([], r)
  | S n => '(node, r) ← readBinaryIndexedNode r; '(nodes, r) ← readNodes n r; Ok (node :: nodes, r)
  end.

(** The count is at most the length of the data, which bounds the loop. *)
Definition decodeBinaryFSIndex (data : bytes) : R (list indexedNode) :=
  if len data <? len fsIndexMagic then Panic
  else
    '(count, r) ← ReadUvarint (slice data (len fsIndexMagic) (len data));
    if (len data <? count) || (2 ^ 63 - 1 <? count) then Err (BadCount count)
    else
      '(nodes, r) ← readNodes (Z.to_nat count) r;
      match readByte r with
      | Err EOF => Ok nodes
      | Ok _ => Err TrailingData
      | Err e => Err e
      | Panic => Panic
      end.

Definition readLayerRecord (r : bytes) : R (layerRecord * bytes) :=
  '(op, r) ← readByte r;
  '(name, r) ← readLayerString r;
  if (op =? layerRecordDelete) || (op =? layerRecordOpaque) then Ok (mkRecord op (pathNode name) [], r)
  else
    '(kind, r) ← readKind r;
    '(mode, r) ← ReadUvarint r;
    '(uid, r) ← ReadUvarint r;
    '(gid, r) ← ReadUvarint r;
    '(rdev, r) ← ReadUvarint r;
    '(size, r) ← ReadUvarint r;
    '(tarOffset, r) ← ReadUvarint r;
    '(modTime, r) ← ReadVarint r;
    '(link, r) ← readLayerString r;
    '(target, r) ← (if op =? layerRecordHardlink then readLayerString r else Ok ([], r));
    Ok (mkRecord op (mkNode name kind (u32 mode) (u32 uid) (u32 gid) (u32 rdev) size modTime link [] tarOffset [] false 0) target, r).

(** * Round trips *)

Lemma bits_above a s n : 0 <= a < 2 ^ s -> 0 <= s <= n -> Z.testbit a n = false.
Proof.
  intros Ha Hn. destruct (decide (a = 0)) as [->|]; [apply Z.bits_0|]. apply Z.bits_above_log2; [lia|].
  apply Z.lt_le_trans with s; [|lia]. apply Z.log2_lt_pow2; lia.
Qed.

Lemma lor_above a b s : 0 <= s -> 0 <= a < 2 ^ s -> Z.lor a (b * 2 ^ s) = a + b * 2 ^ s.
Proof.
  intros Hs Ha. symmetry. apply Z.add_nocarry_lor. apply Z.bits_inj'. intros n Hn. rewrite Z.land_spec, Z.bits_0.
  destruct (Z.lt_ge_cases n s); [by rewrite Z.mul_pow2_bits_low, andb_false_r|]. by rewrite (bits_above a s).
Qed.

Lemma varint_byte x : 0 <= x -> Z.lor (wrap 8 x) 128 = x mod 128 + 128 /\ Z.land (x mod 128 + 128) 127 = x mod 128.
Proof.
  intros H. split.
  - unfold wrap. replace (x mod 2 ^ 8) with (x mod 128 + ((x / 128) mod 2) * 2 ^ 7) by (pow2; dlia).
    rewrite <- lor_above, <- Z.lor_assoc by (pow2; dlia).
    assert (E : Z.lor (x / 128 mod 2 * 2 ^ 7) 128 = 1 * 2 ^ 7).
    { destruct (Z.mod_pos_bound (x / 128) 2); [lia|]. assert (x / 128 mod 2 = 0 \/ x / 128 mod 2 = 1) as [-> | ->] by lia; done. }
    rewrite E, lor_above by (pow2; dlia). done.
  - change 127 with (Z.ones 7). rewrite Z.land_ones by lia. pow2. dlia.
Qed.

Lemma uvarint_from n : forall s x0 x rest, s = 7 * (10 - Z.of_nat n) -> (1 <= n <= 10)%nat -> 0 <= x0 < 2 ^ s -> 0 <= x < 2 ^ (7 * Z.of_nat n) ->
  x * 2 ^ s < 2 ^ 64 -> readUvarintFrom n s x0 (putUvarintFrom n x ++ rest) = Ok (x0 + x * 2 ^ s, rest).
Proof.
  induction n as [|n IH]; intros s x0 x rest Hs Hn H0 Hx Hw; [lia|]. cbn [putUvarintFrom].
  assert (Hp : 0 < 2 ^ s) by (apply Z.pow_pos_nonneg; lia). destruct (Z.ltb_spec x 128) as [Hl|Hl]; cbn [readUvarintFrom app].
  - rewrite (proj2 (Z.ltb_lt _ _) Hl). destruct ((s =? 63) && (1 <? x)) eqn:E.
    + exfalso. apply andb_true_iff in E as [E1 E2]. apply Z.eqb_eq in E1. apply Z.ltb_lt in E2. rewrite E1 in Hw. nia.
    + rewrite Z.shiftl_mul_pow2, wrap_small, lor_above by (unfold in_width; nia || lia). done.
  - destruct (varint_byte x) as [-> E]; [lia|]. rewrite (proj2 (Z.ltb_ge _ _)), E by dlia.
    rewrite Z.shiftl_mul_pow2 by lia. assert (Hm : 0 <= x mod 128 <= x) by dlia.
    rewrite wrap_small, lor_above by (unfold in_width; nia || lia).
    rewrite Z.shiftr_div_pow2 by lia. change (2 ^ 7) with 128.
    assert (H7 : 2 ^ (s + 7) = 128 * 2 ^ s) by (rewrite Z.pow_add_r by lia; lia).
    rewrite IH; [f_equal; f_equal| | | | |].
    + rewrite H7. pose proof (Z.div_mod x 128). nia.
    + lia.
    + destruct n; [|lia]. change (2 ^ (7 * Z.of_nat 1)) with 128 in Hx. lia.
    + rewrite H7. dlia || (pose proof (Z.mod_pos_bound x 128); nia).
    + split; [dlia|]. apply Z.div_lt_upper_bound; [lia|]. replace (7 * Z.of_nat (S n)) with (7 + 7 * Z.of_nat n) in Hx by lia.
      rewrite Z.pow_add_r in Hx by lia. lia.
    + rewrite H7. pose proof (Z.mul_div_le x 128). nia.
Qed.

Lemma uvarint_roundtrip x rest : is_u64 x -> ReadUvarint (PutUvarint x ++ rest) = Ok (x, rest).
Proof.
  intros H. unfold ReadUvarint, PutUvarint. rewrite uvarint_from; [f_equal; f_equal; lia|done|lia|lia|width|width].
Qed.

Definition is_i64 (x : Z) : Prop := - 2 ^ 63 <= x < 2 ^ 63.

Lemma varint_roundtrip x rest : is_i64 x -> ReadVarint (PutVarint x ++ rest) = Ok (x, rest).
Proof.
  unfold is_i64. intros H. unfold ReadVarint, PutVarint. rewrite uvarint_roundtrip by (destruct (x <? 0); by apply wrap_range).
  cbn [mbind result_bind]. rewrite Z.shiftl_mul_pow2 by lia. f_equal. f_equal. destruct (Z.ltb_spec x 0) as [Hx|Hx].
  - replace (wrap 64 (Z.lnot (wrap 64 (wrap 64 x * 2 ^ 1)))) with (2 * (- x - 1) + 1) by (unfold wrap, Z.lnot; pow2; dlia).
    rewrite Z.testbit_odd_0, Z.shiftr_div_pow2 by lia. replace ((2 * (- x - 1) + 1) / 2 ^ 1) with (- x - 1) by (pow2; dlia).
    rewrite swrap_near by (pow2; lia). unfold Z.lnot. lia.
  - replace (wrap 64 (wrap 64 x * 2 ^ 1)) with (2 * x) by (unfold wrap; pow2; dlia).
    rewrite Z.testbit_even_0, Z.shiftr_div_pow2 by lia. replace (2 * x / 2 ^ 1) with x by (pow2; dlia).
    rewrite swrap_near by (pow2; lia). done.
Qed.

Lemma readFull_app s rest : readFull (len s) (s ++ rest) = Ok (s, rest).
Proof.
  unfold readFull. rewrite len_app. pose proof (len_nonneg rest). rewrite (proj2 (Z.leb_le _ _)) by lia.
  rewrite slice_app_l, slice_full by lia. rewrite slice_app_r by lia.
  replace (len s - len s) with 0 by lia. replace (len s + len rest - len s) with (len rest) by lia. by rewrite slice_full.
Qed.

Definition fitsString (s : bytes) : Prop := len s <= maxLayerIndexString.

Lemma string_roundtrip s rest : fitsString s -> readLayerString (PutUvarint (len s) ++ s ++ rest) = Ok (s, rest).
Proof.
  unfold fitsString. intros H. pose proof (len_nonneg s). unfold readLayerString. rewrite uvarint_roundtrip by width.
  cbn [mbind result_bind]. rewrite (proj2 (Z.ltb_ge _ _)) by lia. apply readFull_app.
Qed.

Lemma write_string s : fitsString s -> writeLayerString s = Ok (PutUvarint (len s) ++ s).
Proof. unfold fitsString. intros H. unfold writeLayerString. by rewrite (proj2 (Z.ltb_ge _ _)). Qed.

Definition knownKind (k : indexedKind) : Prop := match k with KindOther _ => False | _ => True end.

Lemma kind_roundtrip k : knownKind k -> exists b, kindByte k = Ok b /\ forall rest, readKind (b :: rest) = Ok (k, rest).
Proof. destruct k; [..|done]; intros _; eexists; done. Qed.

(** Decodes field by field. *)
Create Rewrite HintDb codec.
#[export] Hint Rewrite uvarint_roundtrip varint_roundtrip string_roundtrip using done : codec.
Ltac roundtrip := repeat (autorewrite with codec; cbn [mbind result_bind]).

(** A node whose fields have their widths. *)
Definition fitsNode (n : indexedNode) : Prop :=
  knownKind (Kind n) /\ is_u32 (Mode n) /\ is_u32 (UID n) /\ is_u32 (GID n) /\ is_u32 (RDev n) /\ is_u64 (Size n) /\
  is_u64 (TarOffset n) /\ is_u64 (PackedOffset n) /\ is_i64 (ModTimeNS n) /\ fitsString (Path n) /\ fitsString (LinkTarget n) /\
  fitsString (TarPath n) /\ fitsString (CVMFSTarget n).

Lemma u32_u64 x : is_u32 x -> is_u64 x.
Proof. width. Qed.

Lemma node_roundtrip n : fitsNode n ->
  exists b, writeBinaryIndexedNode n = Ok b /\ 1 <= len b /\ forall rest, readBinaryIndexedNode (b ++ rest) = Ok (n, rest).
Proof.
  intros (Hk & H1 & H2 & H3 & H4 & H5 & H6 & H7 & H8 & S1 & S2 & S3 & S4). destruct (kind_roundtrip _ Hk) as (k & Ek & Rk).
  unfold writeBinaryIndexedNode. rewrite !write_string, Ek by done. cbn [mbind result_bind]. eexists. split; [reflexivity|].
  split; [rewrite !len_app; change (len [k]) with 1; repeat match goal with |- context [len ?l] => pose proof (len_nonneg l); generalize dependent (len l); intros end; lia|].
  intros rest. rewrite <- !app_assoc. unfold readBinaryIndexedNode.
  pose proof (u32_u64 _ H1). pose proof (u32_u64 _ H2). pose proof (u32_u64 _ H3). pose proof (u32_u64 _ H4).
  rewrite string_roundtrip by done. cbn [mbind result_bind app]. rewrite Rk. roundtrip. cbn [app readByte].
  destruct n as [? ? ? ? ? ? ? ? ? ? ? ? [] ?]; cbn; by rewrite !(wrap_small 32).
Qed.

Lemma nodes_roundtrip nodes : Forall fitsNode nodes ->
  exists b, writeAll writeBinaryIndexedNode nodes = Ok b /\ len nodes <= len b /\
    forall rest, readNodes (length nodes) (b ++ rest) = Ok (nodes, rest).
Proof.
  induction 1 as [|n nodes Hn _ (b & Eb & Hb & IH)]; [by exists []|]. destruct (node_roundtrip n Hn) as (b1 & E1 & Hb1 & R1).
  exists (b1 ++ b). cbn [writeAll]. rewrite E1. cbn [mbind result_bind]. rewrite Eb. split; [done|]. split; [rewrite len_app, len_cons; lia|].
  intros rest. cbn [length readNodes]. rewrite <- app_assoc, R1. cbn [mbind result_bind]. by rewrite IH.
Qed.

Lemma decode_encoded nodes : Forall fitsNode nodes -> len nodes < 2 ^ 63 ->
  exists data, encodeBinaryFSIndex nodes = Ok data /\ decodeBinaryFSIndex data = Ok nodes.
Proof.
  intros F Hl. destruct (nodes_roundtrip nodes F) as (b & Eb & Hb & Rb). unfold encodeBinaryFSIndex. rewrite Eb. cbn [mbind result_bind].
  eexists. split; [reflexivity|]. unfold decodeBinaryFSIndex.
  set (data := fsIndexMagic ++ PutUvarint (len nodes) ++ b).
  assert (Hd : len data = 8 + len (PutUvarint (len nodes)) + len b) by (unfold data; rewrite !len_app; change (len fsIndexMagic) with 8; lia).
  pose proof (len_nonneg nodes). pose proof (len_nonneg (PutUvarint (len nodes))).
  change (len fsIndexMagic) with 8. rewrite (proj2 (Z.ltb_ge (len data) 8)) by lia.
  assert (Hs : slice data 8 (len data) = PutUvarint (len nodes) ++ b ++ []).
  { rewrite app_nil_r. change 8 with (len fsIndexMagic) at 1. unfold data. rewrite slice_app_r by lia. rewrite len_app.
    replace (len fsIndexMagic - len fsIndexMagic) with 0 by lia.
    replace (len fsIndexMagic + len (PutUvarint (len nodes) ++ b) - len fsIndexMagic) with (len (PutUvarint (len nodes) ++ b)) by lia.
    apply slice_full. }
  rewrite Hs, uvarint_roundtrip by (unfold in_width; pow2; lia). cbn [mbind result_bind].
  rewrite (proj2 (Z.ltb_ge (len data) _)), (proj2 (Z.ltb_ge (2 ^ 63 - 1) _)) by lia. cbn [orb].
  unfold len at 1. rewrite Nat2Z.id, Rb. done.
Qed.

(** C22: the index of a file system, written from the map of its nodes with the paths in
    order, decodes without error to exactly those nodes, in the order of their paths. *)
Theorem fs_index_roundtrip (m : gmap bytes indexedNode) :
  map_Forall (fun _ n => fitsNode n) m -> Z.of_nat (size m) < 2 ^ 63 ->
  exists data, encodeBinaryFSIndexMap m = Ok data /\ decodeBinaryFSIndex data = Ok (snd <$> sortedNodes m) /\
    StronglySorted (fun a b => stringLess a.1 b.1 = true) (sortedNodes m) /\ list_to_map (sortedNodes m) = m.
Proof.
  intros F Hl. unfold encodeBinaryFSIndexMap. assert (P : sortedNodes m ≡ₚ map_to_list m) by apply merge_sort_Permutation.
  destruct (decode_encoded (snd <$> sortedNodes m)) as (data & E1 & E2).
  - rewrite P. apply Forall_fmap, Forall_forall. intros [k n] Hin. apply elem_of_map_to_list in Hin. by apply (F k).
  - unfold len. by rewrite length_fmap, P, length_map_to_list.
  - exists data. split_and!; [done|done| |].
    + apply (sorted_strict fst (fun a b => stringLe a.1 b.1)); [intros a b; apply stringLe_strict|rewrite P; apply NoDup_fst_map_to_list|].
      apply StronglySorted_merge_sort; [intros a b c; apply stringLe_trans|intros a b; apply stringLe_total].
    + symmetry. apply list_to_map_flip. by rewrite P.
Qed.

(** * Records *)

Definition pathOnly (r : layerRecord) : bool := (op r =? layerRecordDelete) || (op r =? layerRecordOpaque).

Definition fitsRecord (r : layerRecord) : Prop :=
  fitsString (Path (node r)) /\ (pathOnly r = false -> fitsNode (node r) /\ fitsString (hardlinkTarget r)).

(** What a record keeps of its node. *)
Definition stored (r : layerRecord) : layerRecord :=
  if pathOnly r then mkRecord (op r) (pathNode (Path (node r))) []
  else mkRecord (op r) (node r <| TarPath := [] |> <| CVMFSTarget := [] |> <| Packed := false |> <| PackedOffset := 0 |>)
         (if op r =? layerRecordHardlink then hardlinkTarget r else []).

(** The bytes of an entry, where [link] and [target] are its strings. *)
Definition entryBytes (o : Z) (n : indexedNode) (k : Z) (target : bytes) : bytes :=
  o :: (PutUvarint (len (Path n)) ++ Path n) ++ [k] ++ PutUvarint (Mode n) ++ PutUvarint (UID n) ++ PutUvarint (GID n) ++
    PutUvarint (RDev n) ++ PutUvarint (Size n) ++ PutUvarint (TarOffset n) ++ PutVarint (ModTimeNS n) ++
    (PutUvarint (len (LinkTarget n)) ++ LinkTarget n) ++ target.

Lemma read_entry r k b target : pathOnly r = false -> fitsNode (node r) -> (forall rest, readKind (k :: rest) = Ok (Kind (node r), rest)) ->
  (forall rest, (if op r =? layerRecordHardlink then readLayerString (b ++ rest) else Ok ([], b ++ rest)) = Ok (target, rest)) ->
  forall rest, readLayerRecord (entryBytes (op r) (node r) k b ++ rest) =
    Ok (mkRecord (op r) (node r <| TarPath := [] |> <| CVMFSTarget := [] |> <| Packed := false |> <| PackedOffset := 0 |>) target, rest).
Proof.
  intros E (Hk & H1 & H2 & H3 & H4 & H5 & H6 & H7 & H8 & S1 & S2 & S3 & S4) Rk Hb rest.
  pose proof (u32_u64 _ H1). pose proof (u32_u64 _ H2). pose proof (u32_u64 _ H3). pose proof (u32_u64 _ H4).
  unfold entryBytes, readLayerRecord. cbn [app readByte mbind result_bind]. rewrite <- !app_assoc, string_roundtrip by done.
  cbn [mbind result_bind]. fold (pathOnly r). rewrite E. cbn [app]. rewrite <- ?app_assoc, Rk. roundtrip. rewrite Hb. cbn [mbind result_bind].
  rewrite !(wrap_small 32) by done. by destruct (node r).
Qed.

Lemma len_entry o (b : bytes) : 1 <= len (o :: b).
Proof. rewrite len_cons. pose proof (len_nonneg b). lia. Qed.

Lemma record_roundtrip r : fitsRecord r ->
  exists b, writeLayerRecord r = Ok b /\ 1 <= len b /\ forall rest, readLayerRecord (b ++ rest) = Ok (stored r, rest).
Proof.
  intros [Hp Hn]. unfold writeLayerRecord, stored. rewrite (write_string (Path (node r))) by done. cbn [mbind result_bind]. fold (pathOnly r).
  destruct (pathOnly r) eqn:E.
  - eexists. split; [reflexivity|]. split; [apply len_entry|]. intros rest. unfold readLayerRecord. cbn [app readByte mbind result_bind].
    rewrite <- app_assoc, string_roundtrip by done. cbn [mbind result_bind]. fold (pathOnly r). by rewrite E.
  - destruct (Hn eq_refl) as (F & Ht). pose proof F as (Hk & _ & _ & _ & _ & _ & _ & _ & _ & _ & S2 & _).
    destruct (kind_roundtrip _ Hk) as (k & Ek & Rk). rewrite Ek, (write_string (LinkTarget _)) by done. cbn [mbind result_bind].
    destruct (op r =? layerRecordHardlink) eqn:Eh; [rewrite write_string by done|]; cbn [mbind result_bind];
      eexists; (split; [reflexivity|]); (split; [apply len_entry|]); apply (read_entry r k); try done; rewrite Eh; [|done].
    intros rest. rewrite <- app_assoc. by apply string_roundtrip.
Qed.

(** A record that ends before its kind reads as the end of the index. *)
Lemma cut_record r : fitsRecord r -> pathOnly r = false -> readLayerRecord (op r :: PutUvarint (len (Path (node r))) ++ Path (node r)) = Err EOF.
Proof.
  intros [Hp _] E. unfold readLayerRecord. cbn [readByte mbind result_bind]. rewrite <- (app_nil_r (Path (node r))) at 2.
  rewrite string_roundtrip by done. cbn [mbind result_bind]. fold (pathOnly r). by rewrite E.
Qed.

(** * A sample *)

Definition sampleNode : indexedNode := mkNode [47; 97] KindFile 33188 0 1000 0 5 (-1) [] [108] 300 [] true 7.

Lemma sampleNode_fits : fitsNode sampleNode.
Proof. unfold fitsNode, fitsString, is_i64. cbn. split_and!; done || width. Qed.

Lemma fs_index_roundtrip_witness : exists data, encodeBinaryFSIndexMap {[[47; 97] := sampleNode]} = Ok data /\
  decodeBinaryFSIndex data = Ok (snd <$> sortedNodes {[[47; 97] := sampleNode]}) /\
  StronglySorted (fun a b => stringLess a.1 b.1 = true) (sortedNodes {[[47; 97] := sampleNode]}) /\
  list_to_map (sortedNodes {[[47; 97] := sampleNode]}) = ({[[47; 97] := sampleNode]} : gmap bytes indexedNode).
Proof.
  apply (fs_index_roundtrip {[[47; 97] := sampleNode]}).
  - apply map_Forall_singleton. exact sampleNode_fits.
  - rewrite map_size_singleton. lia.
Defined.
