(* ===== verification/Layers.v ===== *)
(** Layers of container images: [src/internal/core/oci/layerarchive.go] and [removeMergedPath]
    of [indexedfs.go].

    A layer is a tar stream.  [writeLayerArchive] splits it into an index of records and a
    file with the contents of its regular files; [applyLayerArchive] merges the index of a
    layer into the nodes of the layers below.

    [layer_contents_exact]: the index finds the contents of every file.
    [layer_refines_overlay]: a layer whose whiteouts come first acts as the overlay of the OCI
    image specification.  Cases outside its conditions are shown to go wrong:
    [truncated_layer_accepted], [root_opaque_ignored], [whiteout_removes_own],
    [implicit_directory_stays].

    Host errors abort these functions without a result and are not modelled; decompression and
    [archive/tar] are the input, a list of headers with the chunks of their bodies. *)

From stdpp Require Import gmap.
From S2P Require Import Prelude Paths LayerIndex.

(** * Metadata *)

Record Entry := mkEntry { eUID : Z; eGID : Z; eMode : Z; eRDev : Z; eLinkTarget : bytes }.

Record tarHeader := mkHeader {
  Name : bytes;
  Linkname : bytes;
  hdrSize : Z;
  hdrMode : Z;
  Uid : Z;
  Gid : Z;
  ModTime : Z;
  Devmajor : Z;
  Devminor : Z;
  Typeflag : Z;
}.

Abbreviation TypeReg := 48%Z.
Abbreviation TypeRegA := 0%Z.
Abbreviation TypeLink := 49%Z.
Abbreviation TypeSymlink := 50%Z.
Abbreviation TypeChar := 51%Z.
Abbreviation TypeBlock := 52%Z.
Abbreviation TypeDir := 53%Z.
Abbreviation TypeFifo := 54%Z.
Abbreviation TypeXGlobalHeader := 103%Z.

Abbreviation linuxSIFIFO := 4096%Z.
Abbreviation linuxSIFCHR := 8192%Z.
Abbreviation linuxSIFDIR := 16384%Z.
Abbreviation linuxSIFBLK := 24576%Z.
Abbreviation linuxSIFREG := 32768%Z.
Abbreviation linuxSIFLNK := 40960%Z.
Abbreviation linuxPermMask := 4095%Z.

Definition LinuxModeFromTarHeader (hdr : tarHeader) : Z :=
  let mode := Z.land (u32 (hdrMode hdr)) linuxPermMask in
  Z.lor mode
    (if Typeflag hdr =? TypeDir then linuxSIFDIR
     else if Typeflag hdr =? TypeSymlink then linuxSIFLNK
     else if Typeflag hdr =? TypeChar then linuxSIFCHR
     else if Typeflag hdr =? TypeBlock then linuxSIFBLK
     else if Typeflag hdr =? TypeFifo then linuxSIFIFO
     else linuxSIFREG).

(** * The contents file *)

(** A file with its position; writing beyond the end fills with zeros. *)
Record contentsFile := mkFile { fdata : bytes; fpos : Z }.

Definition fileWrite (p : bytes) (f : contentsFile) : contentsFile :=
  let d := fdata f ++ zeros (fpos f + len p - len (fdata f)) in
  mkFile (put d (fpos f) p) (fpos f + len p).

(** [sparseFileWriter.Write]: zeros are skipped. *)
Definition sparseWrite (p : bytes) (f : contentsFile) : contentsFile :=
  if forallb (fun b => b =? 0) p then mkFile (fdata f) (fpos f + len p) else fileWrite p f.

(** [file.Truncate] extends too. *)
Definition fileTruncate (n : Z) (f : contentsFile) : contentsFile :=
  mkFile (slice (fdata f) 0 n ++ zeros (n - len (fdata f))) (fpos f).

Record LimitWriter := mkLimit { dst : contentsFile; limit : Z; written : Z }.

Inductive archiveError :=
  | BadPath (e : pathError)
  | LimitExceeded (n : Z)
  | ShortBody
  | BadEntryType (t : Z)
  | RecordError (e : writeError).

Abbreviation A := (result archiveError).

Definition liftErr {E B} (f : E -> archiveError) (r : result E B) : A B :=
  match r with Ok b => Ok b | Err e => Err (f e) | Panic => Panic end.

Definition limitWrite (p : bytes) (w : LimitWriter) : A LimitWriter :=
  let remaining := limit w - written w in
  if (remaining <=? 0) || (remaining <? len p) then Err (LimitExceeded (limit w))
  else Ok (mkLimit (sparseWrite p (dst w)) (limit w) (written w + len p)).

Fixpoint writeChunks (chunks : list bytes) (w : LimitWriter) : A LimitWriter :=
  match chunks with
  | [] => Ok w
  | p :: chunks => w ← limitWrite p w; writeChunks chunks w
  end.

(** [io.CopyN]: the chunks of the body must make up the size. *)
Definition copyN (chunks : list bytes) (n : Z) (w : LimitWriter) : A LimitWriter :=
  w ← writeChunks chunks w;
  if sum_len chunks =? n then Ok w else Err ShortBody.

(** * Writing a layer *)

Record archiveState := mkArchive { indexBytes : bytes; contents : LimitWriter; contentsOffset : Z }.
#[export] Instance eta_archiveState : Eta archiveState := fun s => mkArchive (indexBytes s) (contents s) (contentsOffset s).

Definition emitRecord (record : layerRecord) (s : archiveState) : A archiveState :=
  b ← liftErr RecordError (writeLayerRecord record);
  Ok (s <| indexBytes := indexBytes s ++ b |>).

(** The names [.wh.] and [.wh..wh..opq]. *)
Definition whiteoutPrefix : bytes := [46; 119; 104; 46].
Definition whiteoutOpaque : bytes := [46; 119; 104; 46; 46; 119; 104; 46; 46; 111; 112; 113].

(** The node every kind of entry starts from. *)
Definition headerNode (name : bytes) (hdr : tarHeader) (offset : Z) : indexedNode :=
  mkNode (Normalize name) (KindOther []) (LinuxModeFromTarHeader hdr) (u32 (Uid hdr)) (u32 (Gid hdr))
    (u32 (Z.lor (i64 (Z.shiftl (Devmajor hdr) 8)) (Devminor hdr))) (u64 (hdrSize hdr)) (ModTime hdr) [] [] offset [] false 0.

Definition writeEntry (hdr : tarHeader) (chunks : list bytes) (s : archiveState) : A archiveState :=
  if bool_decide (pathClean (trimPrefix (Name hdr) [slash]) = dot) then Ok s
  else
    name ← liftErr BadPath (sanitizeArchivePath (Name hdr));
    let base := pathBase name in
    let dir := pathDir name in
    if bool_decide (base = whiteoutOpaque) then emitRecord (mkRecord layerRecordOpaque (pathNode (Normalize dir)) []) s
    else if hasPrefix base whiteoutPrefix then
      emitRecord (mkRecord layerRecordDelete (pathNode (Normalize (pathJoin dir (trimPrefix base whiteoutPrefix)))) []) s
    else
      let n := headerNode name hdr (contentsOffset s) in
      if Typeflag hdr =? TypeDir then
        emitRecord (mkRecord layerRecordAdd (n <| Kind := KindDir |> <| Size := 0 |> <| TarOffset := 0 |>) []) s
      else if (Typeflag hdr =? TypeReg) || (Typeflag hdr =? TypeRegA) then
        w ← copyN chunks (hdrSize hdr) (contents s);
        emitRecord (mkRecord layerRecordAdd (n <| Kind := KindFile |>) [])
          (s <| contents := w |> <| contentsOffset := u64 (contentsOffset s + u64 (hdrSize hdr)) |>)
      else if (Typeflag hdr =? TypeChar) || (Typeflag hdr =? TypeBlock) || (Typeflag hdr =? TypeFifo) then
        emitRecord (mkRecord layerRecordAdd (n <| Kind := KindFile |> <| Size := 0 |> <| TarOffset := 0 |>) []) s
      else if Typeflag hdr =? TypeSymlink then
        emitRecord (mkRecord layerRecordAdd
          (n <| Kind := KindSymlink |> <| LinkTarget := NormalizeSymlinkTarget (Linkname hdr) |>
             <| Size := len (Linkname hdr) |> <| TarOffset := 0 |>) []) s
      else if Typeflag hdr =? TypeLink then
        target ← liftErr BadPath (sanitizeArchivePath (Linkname hdr));
        emitRecord (mkRecord layerRecordHardlink (n <| Kind := KindFile |> <| Size := 0 |> <| TarOffset := 0 |>) (Normalize target)) s
      else if Typeflag hdr =? TypeXGlobalHeader then Ok s
      else Err (BadEntryType (Typeflag hdr)).

Fixpoint writeEntries (es : list (tarHeader * list bytes)) (s : archiveState) : A archiveState :=
  match es with
  | [] => Ok s
  | (hdr, chunks) :: es => s ← writeEntry hdr chunks s; writeEntries es s
  end.

(** The index and the contents of a layer; [budget] is the space of the file system. *)
Definition writeLayerArchive (budget : Z) (es : list (tarHeader * list bytes)) : A (bytes * bytes) :=
  if budget <=? 0 then Err (LimitExceeded budget)
  else
    s ← writeEntries es (mkArchive layerArchiveMagic (mkLimit (mkFile [] 0) budget 0) 0);
    Ok (indexBytes s, fdata (fileTruncate (i64 (contentsOffset s)) (dst (contents s)))).

(** * Merging a layer *)

(** [entries] is nil where the caller does not keep metadata. *)
Record mergeState := mkMerge {
  merged : gmap bytes indexedNode;
  entries : option (gmap bytes Entry);
  layerEntries : gmap bytes indexedNode;
}.
#[export] Instance eta_mergeState : Eta mergeState := fun s => mkMerge (merged s) (entries s) (layerEntries s).

Inductive mergeError := HardlinkTarget (target path : bytes) | UnknownOperation (op : Z) | ReadIndex (e : readError) | BadFormat | OutOfFuel.

(** A merged key with a property. *)
Definition doomed (P : bytes -> bool) (s : mergeState) (k : bytes) : bool := P k && bool_decide (is_Some (merged s !! k)).

(** The loops that delete the merged keys with a property. *)
Definition dropKeys (P : bytes -> bool) (s : mergeState) : mergeState :=
  s <| merged := filter (fun kn => P kn.1 = false) (merged s) |>
    <| entries := filter (fun ke => doomed P s ke.1 = false) <$> entries s |>.

Definition removeMergedPath (target : bytes) : mergeState -> mergeState :=
  dropKeys (fun key => bool_decide (key = target) || under target key).

Definition dropOpaque (path : bytes) (s : mergeState) : mergeState :=
  dropKeys (fun key => negb (bool_decide (key = path)) && under path key && bool_decide (layerEntries s !! key = None)) s.

(** What was below a directory that is replaced. *)
Definition dropBelow (path : bytes) (s : mergeState) : mergeState :=
  dropKeys (under path) s
    <| layerEntries := filter (fun kn => doomed (under path) s kn.1 = false) (layerEntries s) |>.

Definition isDir (n : option indexedNode) : bool :=
  match n with Some n => bool_decide (Kind n = KindDir) | None => false end.

Definition metaOf (n : indexedNode) : Entry :=
  mkEntry (UID n) (GID n) (Mode n) (RDev n) (if bool_decide (Kind n = KindSymlink) then LinkTarget n else []).

Definition insertNode (n : indexedNode) (s : mergeState) : mergeState :=
  let s := if negb (bool_decide (Kind n = KindDir)) && isDir (merged s !! Path n) then dropBelow (Path n) s else s in
  s <| merged := <[Path n := n]> (merged s) |> <| layerEntries := <[Path n := n]> (layerEntries s) |>
    <| entries := (fun m => <[Path n := metaOf n]> m) <$> entries s |>.

(** Where a hard link finds its target: in this layer first. *)
Definition linkTarget (target : bytes) (s : mergeState) : option indexedNode :=
  match layerEntries s !! target with Some n => Some n | None => merged s !! target end.

Definition applyRecord (contentsRef : bytes) (record : layerRecord) (s : mergeState) : result mergeError mergeState :=
  let n := node record in
  if op record =? layerRecordDelete then Ok (removeMergedPath (Path n) s)
  else if op record =? layerRecordOpaque then Ok (dropOpaque (Path n) s)
  else if op record =? layerRecordHardlink then
    match linkTarget (hardlinkTarget record) s with
    | Some t =>
        if bool_decide (Kind t = KindFile)
        then Ok (insertNode (n <| Size := Size t |> <| TarPath := TarPath t |> <| TarOffset := TarOffset t |>) s)
        else Err (HardlinkTarget (hardlinkTarget record) (Path n))
    | None => Err (HardlinkTarget (hardlinkTarget record) (Path n))
    end
  else if op record =? layerRecordAdd then
    Ok (insertNode (if bool_decide (Kind n = KindFile) && negb (Size n =? 0) then n <| TarPath := contentsRef |> else n) s)
  else Err (UnknownOperation (op record)).

(** The records in turn.  The maps are changed in place, also when an error follows.  Every
    record has at least one byte, so the length of the input is enough fuel. *)
Fixpoint applyRecords (fuel : nat) (contentsRef : bytes) (r : bytes) (s : mergeState) : mergeState * result mergeError unit :=
  match fuel with
  | O => (s, Err OutOfFuel)
  | S fuel =>
      match readLayerRecord r with
      | Err EOF => (s, Ok tt)
      | Err e => (s, Err (ReadIndex e))
      | Panic => (s, Panic)
      | Ok (record, r) =>
          match applyRecord contentsRef record s with
          | Ok s => applyRecords fuel contentsRef r s
          | Err e => (s, Err e)
          | Panic => (s, Panic)
          end
      end
  end.

Definition applyLayerArchive (index contentsRef : bytes) (s : mergeState) : mergeState * result mergeError unit :=
  let s := s <| layerEntries := ∅ |> in
  match readFull (len layerArchiveMagic) index with
  | Ok (magic, r) =>
      if bool_decide (magic = layerArchiveMagic) then applyRecords (S (length r)) contentsRef r s
      else (s, Err BadFormat)
  | Err e => (s, Err (ReadIndex e))
  | Panic => (s, Panic)
  end.

(** * The contents of the files *)

(** The file holds [D], its trailing zeros perhaps not written yet. *)
Definition represents (f : contentsFile) (D : bytes) : Prop :=
  fpos f = len D /\ len (fdata f) <= len D /\ fdata f ++ zeros (len D - len (fdata f)) = D.

Lemma zeros_app a b : 0 <= a -> 0 <= b -> zeros (a + b) = zeros a ++ zeros b.
Proof. intros Ha Hb. unfold zeros. rewrite Z2Nat.inj_add by done. apply replicate_add. Qed.

Lemma all_zeros p : forallb (fun b => b =? 0) p = true -> p = zeros (len p).
Proof.
  unfold zeros, len. rewrite Nat2Z.id. induction p as [|x p IH]; cbn; [done|]. rewrite andb_true_iff, Z.eqb_eq. intros [-> H]. by rewrite <- IH.
Qed.

Lemma sparseWrite_represents p f D : represents f D -> represents (sparseWrite p f) (D ++ p).
Proof.
  intros (Hp & Hl & Hd). pose proof (len_nonneg p). unfold sparseWrite. destruct (forallb _ p) eqn:E.
  - apply all_zeros in E. unfold represents. cbn [fpos fdata]. rewrite len_app. split_and!; [lia|lia|].
    replace (len D + len p - len (fdata f)) with ((len D - len (fdata f)) + len p) by lia.
    rewrite zeros_app, app_assoc, Hd, <- E by lia. done.
  - unfold fileWrite, represents. cbn [fpos fdata]. rewrite Hp, len_put, !len_app, len_zeros by lia. split_and!; [lia|lia|].
    replace (len D + len p - len (fdata f)) with ((len D - len (fdata f)) + len p) by lia.
    rewrite zeros_app, app_assoc, Hd by lia. replace (len D + len p - _) with 0 by lia. rewrite app_nil_r.
    rewrite <- (app_nil_r (zeros (len p))). rewrite put_field by (by rewrite len_zeros). by rewrite app_nil_r.
Qed.

(** The writer has taken [D]. *)
Definition took (w : LimitWriter) (D : bytes) : Prop := represents (dst w) D /\ written w = len D /\ len D <= limit w.

Lemma writeChunks_took chunks : forall w D w', took w D -> writeChunks chunks w = Ok w' -> took w' (D ++ concat chunks) /\ limit w' = limit w.
Proof.
  induction chunks as [|p chunks IH]; intros w D w' Hw E; cbn in E; [injection E as <-; by rewrite app_nil_r|]. cbn [concat].
  unfold limitWrite in E. destruct Hw as (Hr & Hw & Hl). destruct ((_ <=? 0) || (_ <? len p)) eqn:Eb; [done|]. cbn in E.
  apply orb_false_iff in Eb as [_ Eb]. apply Z.ltb_ge in Eb. rewrite app_assoc.
  apply (IH _ (D ++ p)) in E; [done|]. unfold took. cbn [dst written limit]. rewrite len_app.
  split_and!; [by apply sparseWrite_represents|lia|lia].
Qed.

(** The nonempty file that an entry of the tar stream is, with its path. *)
Definition fileOf (e : tarHeader * list bytes) : option (bytes * bytes) :=
  let '(hdr, chunks) := e in
  match sanitizeArchivePath (Name hdr) with
  | Ok name =>
      if bool_decide (pathClean (trimPrefix (Name hdr) [slash]) = dot) || bool_decide (pathBase name = whiteoutOpaque) ||
         hasPrefix (pathBase name) whiteoutPrefix || negb ((Typeflag hdr =? TypeReg) || (Typeflag hdr =? TypeRegA)) || bool_decide (concat chunks = [])
      then None else Some (Normalize name, concat chunks)
  | _ => None
  end.

(** The nonempty file that a record finds in the contents. *)
Definition contentsOf (data : bytes) (r : layerRecord) : option (bytes * bytes) :=
  let n := node r in
  if (op r =? layerRecordAdd) && bool_decide (Kind n = KindFile) && negb (Size n =? 0)
  then Some (Path n, slice data (TarOffset n) (TarOffset n + Size n)) else None.

Definition within (D : bytes) (r : layerRecord) : Prop :=
  Size (node r) = 0 \/ Kind (node r) <> KindFile \/ 0 <= TarOffset (node r) /\ 0 <= Size (node r) /\ TarOffset (node r) + Size (node r) <= len D.

Lemma contentsOf_app D x r : within D r -> contentsOf (D ++ x) r = contentsOf D r.
Proof.
  intros H. unfold contentsOf. case_bool_decide as Hk; [|by rewrite andb_false_r]. destruct (op r =? layerRecordAdd); [|done].
  destruct (Z.eqb_spec (Size (node r)) 0) as [|Hz]; [done|]. cbn. destruct H as [H|[H|(H1 & H2 & H3)]]; [done|done|].
  by rewrite slice_app_l by lia.
Qed.

Record archived (s : archiveState) (D : bytes) (rs : list layerRecord) (fs : list (bytes * bytes)) : Prop := {
  archived_took : took (contents s) D;
  archived_limit : limit (contents s) < 2 ^ 63;
  archived_offset : contentsOffset s = len D;
  archived_index : exists body, indexBytes s = layerArchiveMagic ++ body /\ writeAll writeLayerRecord rs = Ok body;
  archived_within : Forall (within D) rs;
  archived_files : omap (contentsOf D) rs = fs;
}.

Lemma writeAll_app {A} (f : A -> W) l k a b : writeAll f l = Ok a -> writeAll f k = Ok b -> writeAll f (l ++ k) = Ok (a ++ b).
Proof.
  revert a. induction l as [|x l IH]; intros a Ha Hb; cbn in *; [by injection Ha as <-|].
  destruct (f x) as [bx| |]; [|done..]. cbn in *. destruct (writeAll f l) as [bl| |]; [|done..]. cbn in *. injection Ha as <-.
  rewrite (IH bl) by done. cbn. by rewrite app_assoc.
Qed.

(** A record that is emitted after [x] was added to the contents. *)
Lemma emit_archived r s D x rs fs s0 s' : archived s0 D rs fs -> emitRecord r s = Ok s' ->
  indexBytes s = indexBytes s0 -> took (contents s) (D ++ x) -> limit (contents s) = limit (contents s0) -> contentsOffset s = len (D ++ x) ->
  within (D ++ x) r -> archived s' (D ++ x) (rs ++ [r]) (fs ++ omap (contentsOf (D ++ x)) [r]).
Proof.
  intros [T L O (body & Ei & Eb) Wi Fi] E Hi Ht Hl Ho Hw. unfold emitRecord in E.
  destruct (writeLayerRecord r) as [b| |] eqn:Er; [|done..]. cbn in E. injection E as <-. split; cbn [contents contentsOffset indexBytes].
  - done.
  - change (limit (contents s) < 2 ^ 63). by rewrite Hl.
  - done.
  - exists (body ++ b). split; [change (indexBytes s ++ b = layerArchiveMagic ++ body ++ b); by rewrite Hi, Ei, <- app_assoc|]. apply writeAll_app; [done|]. cbn. rewrite Er. cbn. by rewrite app_nil_r.
  - apply Forall_app. split; [|by constructor]. eapply Forall_impl; [exact Wi|]. intros r' [H|[H|(H1 & H2 & H3)]]; [by left|by right; left|].
    right. right. rewrite len_app. pose proof (len_nonneg x). lia.
  - rewrite omap_app, <- Fi. f_equal. apply list_omap_ext, Forall_Forall2_diag. eapply Forall_impl; [exact Wi|]. intros r' H. by apply contentsOf_app.
Qed.

Lemma skip_archived s D rs fs : archived s D rs fs -> archived s (D ++ []) (rs ++ []) (fs ++ []).
Proof. by rewrite !app_nil_r. Qed.

(** A record without contents. *)
Lemma quiet_archived r s s' D rs fs : archived s D rs fs -> emitRecord r s = Ok s' -> within D r -> contentsOf D r = None ->
  exists x rs1, archived s' (D ++ x) (rs ++ rs1) (fs ++ []).
Proof.
  intros H E Hw Hc. exists [], [r]. pose proof (emit_archived r s D [] rs fs s s' H E) as X. rewrite !app_nil_r in *.
  cbn in X. rewrite Hc in X. rewrite app_nil_r in X. by destruct H; apply X.
Qed.

(** Sizes are never negative. *)
Definition sized (e : tarHeader * list bytes) : Prop := 0 <= hdrSize e.1 < 2 ^ 63.

(** A regular file. *)
Lemma regular_archived name hdr chunks w s s' D rs fs : archived s D rs fs -> sized (hdr, chunks) -> copyN chunks (hdrSize hdr) (contents s) = Ok w ->
  emitRecord (mkRecord layerRecordAdd (headerNode name hdr (contentsOffset s) <| Kind := KindFile |>) [])
    (s <| contents := w |> <| contentsOffset := u64 (contentsOffset s + u64 (hdrSize hdr)) |>) = Ok s' ->
  exists x rs1, archived s' (D ++ x) (rs ++ rs1)
    (fs ++ if bool_decide (concat chunks = []) then [] else [(Normalize name, concat chunks)]).
Proof.
  intros H Hs Ew E. pose proof H as [T L O _ _ _]. unfold copyN in Ew. destruct (writeChunks chunks (contents s)) as [w'| |] eqn:Ec; [|done..].
  cbn in Ew. destruct (Z.eqb_spec (sum_len chunks) (hdrSize hdr)) as [En|]; [|done]. injection Ew as ->.
  apply (writeChunks_took _ _ D) in Ec as [Tw Hl]; [|done]. destruct Tw as (Tr & Tn & Tl). unfold sized in Hs. cbn in Hs.
  rewrite <- sum_len_concat in En. rewrite len_app in Tl. pose proof (len_nonneg D). pose proof (len_nonneg (concat chunks)).
  exists (concat chunks), [mkRecord layerRecordAdd (headerNode name hdr (contentsOffset s) <| Kind := KindFile |>) []].
  assert (Eu : u64 (hdrSize hdr) = len (concat chunks)) by (rewrite wrap_small by (unfold in_width; pow2; lia); lia).
  pose proof (emit_archived _ _ D (concat chunks) rs fs s s' H E) as X. cbn [omap list_omap contentsOf op node Kind Size TarOffset Path] in X.
  assert (Ef : contentsOf (D ++ concat chunks) (mkRecord layerRecordAdd (headerNode name hdr (contentsOffset s) <| Kind := KindFile |>) []) =
    if bool_decide (concat chunks = []) then None else Some (Normalize name, concat chunks)).
  { unfold contentsOf. cbn. rewrite Eu, O, (bool_decide_eq_true_2 (KindFile = KindFile)) by done. cbn.
    case_bool_decide as Hc; [by rewrite Hc|]. destruct (Z.eqb_spec (len (concat chunks)) 0) as [Ez|Ez].
    - by apply len_0_nil in Ez.
    - cbn. f_equal. f_equal. rewrite slice_app_r by lia. replace (len D - len D) with 0 by lia.
      replace (len D + len (concat chunks) - len D) with (len (concat chunks)) by lia. apply slice_full. }
  rewrite Ef in X. replace (if bool_decide (concat chunks = []) then [] else _) with
    (match (if bool_decide (concat chunks = []) then None else Some (Normalize name, concat chunks)) with Some y => [y] | None => [] end)
    by (by case_bool_decide).
  apply X; [done|split_and!; [done|done|rewrite len_app; cbn; lia]|done| |].
  - cbn. rewrite Eu, O, len_app, wrap_small; [done|]. unfold in_width. pow2. lia.
  - right. right. cbn. rewrite Eu, O, len_app. lia.
Qed.

Lemma entry_archived hdr chunks s s' D rs fs : archived s D rs fs -> sized (hdr, chunks) -> writeEntry hdr chunks s = Ok s' ->
  exists x rs1, archived s' (D ++ x) (rs ++ rs1) (fs ++ omap fileOf [(hdr, chunks)]).
Proof.
  intros H Hs E. unfold writeEntry in E. cbn [omap list_omap fileOf]. case_bool_decide as Hd.
  { injection E as <-. exists [], []. destruct (sanitizeArchivePath (Name hdr)); by apply skip_archived. }
  destruct (sanitizeArchivePath (Name hdr)) as [name| |]; [|done..]. cbn [liftErr mbind result_bind orb] in *.
  case_bool_decide as Ho; [eapply quiet_archived; [exact H|exact E|by left|done]|].
  destruct (hasPrefix _ whiteoutPrefix); [eapply quiet_archived; [exact H|exact E|by left|done]|]. cbn [orb].
  destruct (Z.eqb_spec (Typeflag hdr) TypeDir) as [->|_]; [cbn [negb orb Z.eqb Pos.eqb]; eapply quiet_archived; [exact H|exact E|by left|done]|].
  destruct ((Typeflag hdr =? TypeReg) || (Typeflag hdr =? TypeRegA)) eqn:Er; cbn [negb orb].
  - destruct (copyN chunks (hdrSize hdr) (contents s)) as [w| |] eqn:Ew; [|done..].
    destruct (regular_archived name hdr chunks w s s' D rs fs H Hs Ew E) as (x & rs1 & X). exists x, rs1. by case_bool_decide.
  - destruct (_ || (_ =? TypeFifo)); [eapply quiet_archived; [exact H|exact E|by left|done]|].
    destruct (_ =? TypeSymlink); [eapply quiet_archived; [exact H|exact E|by right; left|done]|].
    destruct (_ =? TypeLink); [destruct (sanitizeArchivePath (Linkname hdr)); [|done..]; eapply quiet_archived; [exact H|exact E|by left|done]|].
    destruct (_ =? TypeXGlobalHeader); [|done]. injection E as <-. exists [], []. by apply skip_archived.
Qed.

Lemma entries_archived es : forall s s' D rs fs, archived s D rs fs -> Forall sized es -> writeEntries es s = Ok s' ->
  exists D' rs', archived s' D' rs' (fs ++ omap fileOf es).
Proof.
  induction es as [|[hdr chunks] es IH]; intros s s' D rs fs H F E; cbn [writeEntries] in E.
  { injection E as <-. exists D, rs. by rewrite app_nil_r. }
  inversion F as [|? ? F1 F2]; subst. destruct (writeEntry hdr chunks s) as [s1| |] eqn:E1; [|done..]. cbn in E.
  destruct (entry_archived _ _ _ _ _ _ _ H F1 E1) as (x & rs1 & H1). destruct (IH _ _ _ _ _ H1 F2 E) as (D' & rs' & X).
  exists D', rs'. rewrite <- app_assoc in X. by rewrite <- omap_app in X.
Qed.

(** C20: when a layer has been archived, its index is a list of records whose files, looked up
    in the contents by offset and size, are the nonempty regular files of the tar stream with
    their normalized paths, in order; runs of zeros that were skipped read as zeros. *)
Theorem layer_contents_exact (budget : Z) (es : list (tarHeader * list bytes)) (index data : bytes) :
  budget < 2 ^ 63 -> Forall sized es -> writeLayerArchive budget es = Ok (index, data) ->
  exists rs body, index = layerArchiveMagic ++ body /\ writeAll writeLayerRecord rs = Ok body /\
    omap (contentsOf data) rs = omap fileOf es.
Proof.
  intros Hb F E. unfold writeLayerArchive in E. destruct (Z.leb_spec budget 0) as [|Hp]; [done|].
  destruct (writeEntries es _) as [s| |] eqn:Es; [|done..]. cbn [mbind result_bind] in E. injection E as <- <-.
  apply (entries_archived es _ s [] [] []) in Es as (D & rs & [((Hf & Hl & Hd) & Hw & Hn) L O (body & Ei & Eb) _ Fi]); [|split; cbn|done].
  - exists rs, body. split_and!; [done|done|]. pose proof (len_nonneg D).
    assert (Hdata : fdata (fileTruncate (i64 (contentsOffset s)) (dst (contents s))) = D).
    { unfold fileTruncate. cbn [fdata]. rewrite O, swrap_near by (pow2; lia). rewrite <- Hd at 3. f_equal. unfold slice. cbn [Z.to_nat drop].
      apply take_ge. rewrite Z.sub_0_r. unfold len in *. lia. }
    change (omap (contentsOf (fdata (fileTruncate (i64 (contentsOffset s)) (dst (contents s))))) rs = omap fileOf es). by rewrite Hdata.
  - split; [done|]. split; [done|]. change (0 <= budget). lia.
  - done.
  - done.
  - by exists [].
  - constructor.
  - done.
Qed.

(** * Layers as overlays *)

(** The OCI image specification: the entries of a layer cover those of the layers below, which
    whiteouts, opaque directories and replaced directories hide. *)
Record overlay := mkOverlay { upper : gmap bytes indexedNode; hidden : bytes -> bool }.

Definition view (lower : gmap bytes indexedNode) (o : overlay) (k : bytes) : option indexedNode :=
  match upper o !! k with
  | Some n => Some n
  | None => if hidden o k then None else lower !! k
  end.

(** Everything is below the root. *)
Definition below (p k : bytes) : bool := if bool_decide (p = [slash]) then negb (bool_decide (k = [slash])) else under p k.

Definition hide (P : bytes -> bool) (o : overlay) : overlay := mkOverlay (upper o) (fun k => hidden o k || P k).

Definition cover (n : indexedNode) (o : overlay) : overlay :=
  let o := if bool_decide (Kind n = KindDir) then o else hide (below (Path n)) o in
  mkOverlay (<[Path n := n]> (upper o)) (hidden o).

Definition overlayRecord (ref : bytes) (lower : gmap bytes indexedNode) (record : layerRecord) (o : overlay) : result mergeError overlay :=
  let n := node record in
  if op record =? layerRecordDelete then Ok (hide (fun k => bool_decide (k = Path n) || below (Path n) k) o)
  else if op record =? layerRecordOpaque then Ok (hide (below (Path n)) o)
  else if op record =? layerRecordHardlink then
    match view lower o (hardlinkTarget record) with
    | Some t =>
        if bool_decide (Kind t = KindFile)
        then Ok (cover (n <| Size := Size t |> <| TarPath := TarPath t |> <| TarOffset := TarOffset t |>) o)
        else Err (HardlinkTarget (hardlinkTarget record) (Path n))
    | None => Err (HardlinkTarget (hardlinkTarget record) (Path n))
    end
  else if op record =? layerRecordAdd then
    Ok (cover (if bool_decide (Kind n = KindFile) && negb (Size n =? 0) then n <| TarPath := ref |> else n) o)
  else Err (UnknownOperation (op record)).

Fixpoint overlayRecords (ref : bytes) (lower : gmap bytes indexedNode) (rs : list layerRecord) (o : overlay) : result mergeError overlay :=
  match rs with
  | [] => Ok o
  | r :: rs => o ← overlayRecord ref lower r o; overlayRecords ref lower rs o
  end.

(** The order of the records: a whiteout comes before the entries it would cover, a
    replacement of a directory before the entries below it; no whiteout is at the root; and
    what is below a path that a file or link takes is below a directory. *)
Definition orderly (lower : gmap bytes indexedNode) (o : overlay) (record : layerRecord) : Prop :=
  let p := Path (node record) in
  if op record =? layerRecordDelete then p <> [slash] /\ forall k, is_Some (upper o !! k) -> k <> p /\ under p k = false
  else if op record =? layerRecordOpaque then p <> [slash]
  else if bool_decide (Kind (node record) = KindDir) then True
  else p <> [slash] /\ (forall k, is_Some (upper o !! k) -> under p k = false) /\
    (isDir (view lower o p) = false -> forall k, is_Some (view lower o k) -> under p k = false).

Fixpoint orderlyAll (ref : bytes) (lower : gmap bytes indexedNode) (o : overlay) (rs : list layerRecord) : Prop :=
  match rs with
  | [] => True
  | r :: rs => orderly lower o r /\ match overlayRecord ref lower r o with Ok o => orderlyAll ref lower o rs | _ => True end
  end.

(** ** Simulation *)

Definition simulates (lower : gmap bytes indexedNode) (s : mergeState) (o : overlay) : Prop :=
  (forall k, merged s !! k = view lower o k) /\ layerEntries s = upper o.

(** The metadata follow the nodes. *)
Definition inStep (s : mergeState) : Prop := forall e, entries s = Some e -> forall k, e !! k = metaOf <$> merged s !! k.

Lemma filter_key {V} (P : bytes -> bool) `{!forall kv : bytes * V, Decision (P kv.1 = false)} (m : gmap bytes V) k :
  filter (fun kv => P kv.1 = false) m !! k = if P k then None else m !! k.
Proof.
  rewrite map_lookup_filter. destruct (m !! k) as [v|]; cbn; [|by destruct (P k)]. case_guard as E; cbn in *.
  - by rewrite E.
  - by destruct (P k).
Qed.

Lemma dropKeys_merged P s k : merged (dropKeys P s) !! k = if P k then None else merged s !! k.
Proof. apply filter_key. Qed.

Lemma dropKeys_entries P s :
  entries (dropKeys P s) = filter (fun ke => doomed P s ke.1 = false) <$> entries s.
Proof. done. Qed.

Lemma dropKeys_inStep P s : inStep s -> inStep (dropKeys P s).
Proof.
  intros H e. rewrite dropKeys_entries. destruct (entries s) as [e'|] eqn:E; [|done]. intros [= <-] k. specialize (H e' E k).
  rewrite (filter_key (doomed P s)), dropKeys_merged, H. unfold doomed.
  destruct (P k); [|done]. destruct (merged s !! k) as [n|]; [by rewrite bool_decide_eq_true_2|by rewrite bool_decide_eq_false_2 by (by intros [? ?])].
Qed.

Lemma under_below p k : p <> [slash] -> below p k = under p k.
Proof. intros H. unfold below. by rewrite bool_decide_eq_false_2. Qed.

Lemma insert_merged n s k : merged (insertNode n s) !! k =
  if decide (k = Path n) then Some n
  else if negb (bool_decide (Kind n = KindDir)) && isDir (merged s !! Path n) && under (Path n) k then None else merged s !! k.
Proof.
  unfold insertNode. cbn. destruct (decide (k = Path n)) as [->|Hne]; [by rewrite lookup_insert_eq|]. rewrite lookup_insert_ne by done.
  destruct (negb _ && isDir _); [|done]. cbn. apply filter_key.
Qed.

Lemma put_inStep n s : inStep s -> inStep (s <| merged := <[Path n := n]> (merged s) |> <| layerEntries := <[Path n := n]> (layerEntries s) |>
    <| entries := (fun m => <[Path n := metaOf n]> m) <$> entries s |>).
Proof.
  intros H e. cbn. destruct (entries s) as [e'|] eqn:E; [|done]. intros [= <-] k. specialize (H e' E k).
  destruct (decide (k = Path n)) as [->|Hne]; [by rewrite !lookup_insert_eq|]. by rewrite !lookup_insert_ne.
Qed.

Lemma insert_inStep n s : inStep s -> inStep (insertNode n s).
Proof.
  intros H. unfold insertNode. apply put_inStep. destruct (_ && _); [|done]. exact (dropKeys_inStep (under (Path n)) s H).
Qed.

(** An entry of the layer. *)
Lemma cover_simulates lower n s o : simulates lower s o ->
  (Kind n <> KindDir -> Path n <> [slash] /\ (forall k, is_Some (upper o !! k) -> under (Path n) k = false) /\
    (isDir (view lower o (Path n)) = false -> forall k, is_Some (view lower o k) -> under (Path n) k = false)) ->
  simulates lower (insertNode n s) (cover n o).
Proof.
  intros [Hm Hl] Ho. assert (Hc : cover n o = mkOverlay (<[Path n := n]> (upper o)) (hidden (if bool_decide (Kind n = KindDir) then o else hide (below (Path n)) o)))
    by (unfold cover; by case_bool_decide).
  split.
  - intros k. rewrite insert_merged, Hc. unfold view. cbn [upper hidden]. destruct (decide (k = Path n)) as [->|Hne]; [by rewrite lookup_insert_eq|].
    rewrite lookup_insert_ne by done. rewrite !Hm. case_bool_decide as Hk; cbn [negb andb]; [done|].
    destruct (Ho Hk) as (H1 & H2 & H3). cbn [hide hidden]. rewrite under_below by done. specialize (H2 k). specialize (H3).
    destruct (under (Path n) k) eqn:Eu; [|by rewrite andb_false_r, orb_false_r]. rewrite andb_true_r, orb_true_r.
    assert (Hu : upper o !! k = None) by (destruct (upper o !! k); [by discriminate H2|done]). rewrite Hu.
    destruct (isDir (view lower o (Path n))) eqn:Ed; [done|]. destruct (view lower o k) as [n'|] eqn:Ev; [|done].
    rewrite (H3 eq_refl k) in Eu; [done|]. by exists n'.
  - rewrite Hc. cbn [upper]. unfold insertNode. cbn. f_equal. destruct (negb _ && isDir _) eqn:E; [|done]. cbn.
    apply andb_true_iff in E as [E _]. apply negb_true_iff, bool_decide_eq_false in E. destruct (Ho E) as (_ & H2 & _).
    rewrite Hl. apply map_filter_id. intros k n' Hk. cbn. unfold doomed. by rewrite (H2 k).
Qed.

Lemma hide_simulates lower P Q s o : simulates lower s o -> (forall k, P k = true -> upper o !! k = None) ->
  (forall k, upper o !! k = None -> Q k = P k) -> simulates lower (dropKeys P s) (hide Q o).
Proof.
  intros [Hm Hl] HP HQ. split; [|done]. intros k. rewrite dropKeys_merged, Hm. unfold view. cbn [hide upper hidden].
  specialize (HP k). specialize (HQ k). destruct (upper o !! k) as [n|] eqn:E; [destruct (P k); [by discriminate HP|done]|].
  rewrite HQ by done. destruct (P k), (hidden o k); done.
Qed.

Lemma link_view lower s o target : simulates lower s o -> linkTarget target s = view lower o target.
Proof.
  intros [Hm Hl]. unfold linkTarget. rewrite Hl, Hm. unfold view. by destruct (upper o !! target).
Qed.

(** One record of a layer. *)
Lemma record_simulates ref lower r s o : simulates lower s o -> inStep s -> orderly lower o r ->
  match overlayRecord ref lower r o with
  | Ok o' => exists s', applyRecord ref r s = Ok s' /\ simulates lower s' o' /\ inStep s'
  | Err e => applyRecord ref r s = Err e
  | Panic => False
  end.
Proof.
  intros Hs He Ho. unfold overlayRecord, applyRecord, orderly in *.
  destruct (op r =? layerRecordDelete); [|destruct (op r =? layerRecordOpaque)].
  - destruct Ho as [Hp Ho]. eexists. split; [reflexivity|]. split; [|by apply dropKeys_inStep]. apply (hide_simulates lower); [done| |].
    + intros k Hk. destruct (upper o !! k) as [n|] eqn:E; [|done]. destruct (Ho k) as [H1 H2]; [by exists n|].
      by rewrite bool_decide_eq_false_2, H2 in Hk.
    + intros k _. by rewrite under_below.
  - eexists. split; [reflexivity|]. split; [|by apply dropKeys_inStep]. unfold dropOpaque. destruct Hs as [Hm Hl].
    apply (hide_simulates lower); [done| |]; rewrite Hl.
    + intros k Hk. apply andb_true_iff in Hk as [_ Hk]. by apply bool_decide_eq_true in Hk.
    + intros k Hk. rewrite (bool_decide_eq_true_2 _ Hk), andb_true_r, under_below by done. destruct (under _ k) eqn:E; [|by rewrite andb_false_r].
      rewrite bool_decide_eq_false_2; [done|]. intros ->. apply hasPrefix_spec in E as (t & E). apply (f_equal length) in E.
      rewrite !length_app in E. cbn in E. lia.
  - assert (Hadd : forall n, Kind n = Kind (node r) -> Path n = Path (node r) ->
      exists s', Ok (insertNode n s) = Ok (E := mergeError) s' /\ simulates lower s' (cover n o) /\ inStep s').
    { intros n Ek Ep. eexists. split; [reflexivity|]. split; [|by apply insert_inStep]. apply cover_simulates; [done|].
      rewrite Ek, Ep. intros Hk. by rewrite bool_decide_eq_false_2 in Ho. }
    destruct (op r =? layerRecordHardlink).
    + rewrite (link_view lower s o) by done. destruct (view lower o (hardlinkTarget r)) as [t|]; [|done].
      destruct (bool_decide (Kind t = KindFile)); [|done]. by apply Hadd.
    + destruct (op r =? layerRecordAdd); [|done]. destruct (_ && _); by apply Hadd.
Qed.

(** The records of an index as they are read. *)
Lemma records_simulate ref lower rs : Forall fitsRecord rs -> exists body, writeAll writeLayerRecord rs = Ok body /\
  forall fuel s o, (length body < fuel)%nat -> simulates lower s o -> inStep s -> orderlyAll ref lower o (stored <$> rs) ->
    match overlayRecords ref lower (stored <$> rs) o with
    | Ok o' => exists s', applyRecords fuel ref body s = (s', Ok tt) /\ simulates lower s' o' /\ inStep s'
    | Err e => (applyRecords fuel ref body s).2 = Err e
    | Panic => False
    end.
Proof.
  induction 1 as [|r rs Hr _ (body & Eb & IH)].
  { exists []. split; [done|]. intros [|fuel] s o Hf Hs He _; [cbn in Hf; lia|]. by exists s. }
  destruct (record_roundtrip r Hr) as (b & Er & Hb & Rb). exists (b ++ body). cbn [writeAll]. rewrite Er. cbn [mbind result_bind].
  rewrite Eb. split; [done|]. intros fuel s o Hf Hs He [Ho Hos]. rewrite length_app in Hf. unfold len in Hb.
  destruct fuel as [|fuel]; [lia|]. cbn [applyRecords]. rewrite Rb. cbn [fmap list_fmap overlayRecords].
  pose proof (record_simulates ref lower (stored r) s o Hs He Ho) as X. destruct (overlayRecord ref lower (stored r) o) as [o'|e|]; [|by rewrite X|done].
  destruct X as (s' & -> & Hs' & He'). apply (IH fuel s' o'); [lia|done|done|done].
Qed.

(** C4: applying the index of a layer to the nodes of the layers below gives the overlay of the
    OCI image specification, for the layers in which order and place do not matter.  These are
    the layers where (1) no whiteout, opaque or not, is for the root; (2) a whiteout of a path
    comes before the entries the layer itself has at that path and below it; (3) an entry
    that is not a directory is not at the root and comes before the entries the layer has
    below its path; (4) when such an entry takes a path that is not a directory of the image so
    far, nothing of the image lies below that path.  An entry that cannot be applied is
    reported as the overlay reports it, and the metadata stay in step with the nodes.  What
    happens outside (1), (2) and (4) is [root_opaque_ignored], [whiteout_removes_own] and
    [implicit_directory_stays]. *)
Theorem layer_refines_overlay (rs : list layerRecord) (ref : bytes) (s : mergeState) :
  Forall fitsRecord rs -> inStep s -> orderlyAll ref (merged s) (mkOverlay ∅ (fun _ => false)) (stored <$> rs) ->
  exists body, writeAll writeLayerRecord rs = Ok body /\
    match overlayRecords ref (merged s) (stored <$> rs) (mkOverlay ∅ (fun _ => false)) with
    | Ok o => exists s', applyLayerArchive (layerArchiveMagic ++ body) ref s = (s', Ok tt) /\
        (forall k, merged s' !! k = view (merged s) o k) /\ inStep s'
    | Err e => (applyLayerArchive (layerArchiveMagic ++ body) ref s).2 = Err e
    | Panic => False
    end.
Proof.
  intros F He Ho. destruct (records_simulate ref (merged s) rs F) as (body & Eb & X). exists body. split; [done|].
  unfold applyLayerArchive. rewrite readFull_app, bool_decide_eq_true_2 by done.
  specialize (X (S (length body)) (s <| layerEntries := ∅ |>) (mkOverlay ∅ (fun _ => false))).
  destruct (overlayRecords _ _ _ _) as [o|e|]; [|apply X|apply X]; try done; try lia.
  - destruct X as (s' & E & [Hm _] & He'); [lia|done|done|done|]. by exists s'.
Qed.

(** * What is outside *)

(** Two inputs that go on with something that reads as the end. *)
Lemma records_tail ref rs : Forall fitsRecord rs -> exists body, writeAll writeLayerRecord rs = Ok body /\
  forall t1 t2 f1 f2 s, readLayerRecord t1 = Err EOF -> readLayerRecord t2 = Err EOF ->
    (length body < f1)%nat -> (length body < f2)%nat -> applyRecords f1 ref (body ++ t1) s = applyRecords f2 ref (body ++ t2) s.
Proof.
  induction 1 as [|r rs Hr _ (body & Eb & IH)].
  { exists []. split; [done|]. intros t1 t2 [|f1] [|f2] s E1 E2 H1 H2; [cbn in *; lia..|]. cbn [applyRecords app]. by rewrite E1, E2. }
  destruct (record_roundtrip r Hr) as (b & Er & Hb & Rb). exists (b ++ body). cbn [writeAll]. rewrite Er. cbn [mbind result_bind].
  rewrite Eb. split; [done|]. intros t1 t2 [|f1] [|f2] s E1 E2 H1 H2; rewrite ?length_app in *; unfold len in Hb; [lia..|].
  cbn [applyRecords]. rewrite <- !app_assoc, !Rb. destruct (applyRecord ref (stored r) s) as [s'| |]; [|done..].
  apply IH; done || lia.
Qed.

(** An index that is cut off inside a record, behind its path, is applied without an error: the
    entry and everything after it are missing. *)
Theorem truncated_layer_accepted (rs : list layerRecord) (r : layerRecord) (ref : bytes) (s : mergeState) :
  Forall fitsRecord rs -> fitsRecord r -> pathOnly r = false -> exists body, writeAll writeLayerRecord rs = Ok body /\
    applyLayerArchive (layerArchiveMagic ++ body ++ op r :: PutUvarint (len (Path (node r))) ++ Path (node r)) ref s =
    applyLayerArchive (layerArchiveMagic ++ body) ref s.
Proof.
  intros F Fr E. destruct (records_tail ref rs F) as (body & Eb & X). exists body. split; [done|].
  unfold applyLayerArchive. rewrite !readFull_app, bool_decide_eq_true_2 by done.
  rewrite <- (app_nil_r body) at 3 4. apply X; [by apply cut_record|done|rewrite !length_app; lia..].
Qed.

Definition fileNode (p : bytes) : indexedNode := pathNode p <| Kind := KindFile |>.
Definition dirNode (p : bytes) : indexedNode := pathNode p <| Kind := KindDir |>.

(** An opaque whiteout in the root directory of a layer hides nothing: its path [/] gives the
    prefix [//], which no path has. *)
Theorem root_opaque_ignored (s : mergeState) :
  (forall k, is_Some (merged s !! k) -> canonical k) ->
  forall ref k, exists s', applyRecord ref (mkRecord layerRecordOpaque (pathNode (Normalize (pathDir whiteoutOpaque))) []) s = Ok s' /\
    merged s' !! k = merged s !! k.
Proof.
  intros H ref k. eexists. split; [reflexivity|]. unfold dropOpaque. rewrite dropKeys_merged.
  destruct (merged s !! k) as [n|] eqn:E; [|by destruct (_ && _)]. destruct (H k) as (cs & F & ->); [by exists n|].
  destruct (under _ (abs cs)) eqn:Eu; [|by rewrite andb_false_r].
  change (under (abs []) (abs cs) = true) in Eu. apply under_parts in Eu as [Hc _]; [done|constructor|done].
Qed.

(** A whiteout that follows an entry of its own layer removes it, though the specification has
    whiteouts apply to the layers below only. *)
Theorem whiteout_removes_own (ref p : bytes) (s : mergeState) :
  exists s1 s2, applyRecord ref (mkRecord layerRecordAdd (fileNode p) []) s = Ok s1 /\ merged s1 !! p = Some (fileNode p) /\
    applyRecord ref (mkRecord layerRecordDelete (pathNode p) []) s1 = Ok s2 /\ merged s2 !! p = None.
Proof.
  eexists _, _. split; [reflexivity|]. split; [|split; [reflexivity|]].
  - rewrite insert_merged. by rewrite decide_True.
  - unfold removeMergedPath. rewrite dropKeys_merged. by rewrite bool_decide_eq_true_2.
Qed.

(** A file that takes the path of a directory the layers below only imply, by an entry inside it,
    leaves that entry in the image, below the file. *)
Theorem implicit_directory_stays (ref p k : bytes) (s : mergeState) n :
  merged s !! p = None -> merged s !! k = Some n -> under p k = true -> k <> p ->
  exists s', applyRecord ref (mkRecord layerRecordAdd (fileNode p) []) s = Ok s' /\
    merged s' !! p = Some (fileNode p) /\ merged s' !! k = Some n.
Proof.
  intros Hp Hk _ Hne. eexists. split; [reflexivity|]. split.
  - rewrite insert_merged. by rewrite decide_True.
  - change (merged (insertNode (fileNode p) s) !! k = Some n). rewrite insert_merged. cbn [Path fileNode pathNode set_field].
    change (Path (fileNode p)) with p. rewrite decide_False by done. by rewrite Hp, andb_false_r.
Qed.

(** The path [..] passes for an archive path, and is the root. *)
Theorem dotdot_accepted : sanitizeArchivePath dotdot = Ok dotdot /\ Normalize dotdot = [slash].
Proof. done. Qed.

(** * Samples *)

Definition sampleRecords : list layerRecord :=
  [mkRecord layerRecordDelete (pathNode [47; 97]) []; mkRecord layerRecordAdd sampleNode []].

Definition sampleLower : mergeState := mkMerge {[[47; 97] := fileNode [47; 97]]} None ∅.

Lemma sampleRecords_orderly : orderlyAll [] (merged sampleLower) (mkOverlay ∅ (fun _ => false)) (stored <$> sampleRecords).
Proof.
  split; [|split; [|done]]; unfold orderly.
  - split; [done|]. intros k [n E]. change ((∅ : gmap bytes indexedNode) !! k = Some n) in E. by rewrite lookup_empty in E.
  - split; [done|]. split; [intros k [n E]; change ((∅ : gmap bytes indexedNode) !! k = Some n) in E; by rewrite lookup_empty in E|]. intros _ k [n E].
    change (under [47; 97] k = false). destruct (under [47; 97] k) eqn:Eu; [|done]. change (view (merged sampleLower) (hide (fun k => bool_decide (k = [47; 97]) || below [47; 97] k) (mkOverlay ∅ (fun _ => false))) k = Some n) in E.
    unfold view, hide, below in E. cbn [upper hidden] in E. rewrite lookup_empty, (bool_decide_eq_false_2 ([47; 97] = [47])), Eu, orb_true_r in E by done. discriminate E.
Qed.

Lemma layer_refines_overlay_witness : exists body, writeAll writeLayerRecord sampleRecords = Ok body /\
  match overlayRecords [] (merged sampleLower) (stored <$> sampleRecords) (mkOverlay ∅ (fun _ => false)) with
  | Ok o => exists s', applyLayerArchive (layerArchiveMagic ++ body) [] sampleLower = (s', Ok tt) /\
      (forall k, merged s' !! k = view (merged sampleLower) o k) /\ inStep s'
  | Err e => (applyLayerArchive (layerArchiveMagic ++ body) [] sampleLower).2 = Err e
  | Panic => False
  end.
Proof.
  apply (layer_refines_overlay sampleRecords [] sampleLower).
  - constructor; [split; [done|by intros]|]. constructor; [|constructor]. split; [done|]. intros _. split; [exact sampleNode_fits|done].
  - intros e E. discriminate E.
  - exact sampleRecords_orderly.
Defined.

(** A file of six bytes, the last four of them zeros in a chunk of their own. *)
Definition sampleTar : list (tarHeader * list bytes) :=
  [(mkHeader [97] [] 6 420 0 0 0 0 0 TypeReg, [[1; 2]; [0; 0; 0; 0]])].

Definition sampleArchive : bytes * bytes := match writeLayerArchive 100 sampleTar with Ok x => x | _ => ([], []) end.

Lemma layer_contents_exact_witness : exists rs body, sampleArchive.1 = layerArchiveMagic ++ body /\
  writeAll writeLayerRecord rs = Ok body /\ omap (contentsOf sampleArchive.2) rs = omap fileOf sampleTar.
Proof.
  apply (layer_contents_exact 100 sampleTar sampleArchive.1 sampleArchive.2).
  - lia.
  - constructor; [|constructor]. unfold sized. cbn. lia.
  - vm_compute. reflexivity.
Defined.
