(* ===== verification/ImageTree.v ===== *)
(** The tree of an image: [ensureIndexedParents] and [buildIndexedRootFS] of
    [src/internal/core/oci/indexedfs.go].

    The merged nodes of all layers get the directories that no layer lists, are stored as an
    index, and are made into directories when the image is opened.  [namespace_complete]: this
    succeeds and loses nothing when no node is below a file or link.
    [implicit_directory_breaks]: a file that takes the place of a directory which no layer has
    listed leads to an image that cannot be opened.

    Opening the contents of a file is a parameter; attaching the finished tree to the file
    server ([imagefs.BuildNamespace]) is not modelled. *)

From stdpp Require Import gmap.
From S2P Require Import Prelude Paths LayerIndex Layers.

(** * Parents and directories *)

Definition parentMode : Z := Z.lor 493 linuxSIFDIR.
Definition parentNode (p : bytes) : indexedNode := pathNode p <| Kind := KindDir |> <| Mode := parentMode |>.

(** The loop over the parents of a path; each step drops a component, which bounds it. *)
Fixpoint addParents (fuel : nat) (parent : bytes) (s : mergeState) : mergeState :=
  match fuel with
  | O => s
  | S fuel =>
      if bool_decide (parent = dot) || bool_decide (parent = [slash]) then s
      else
        let parent := Normalize parent in
        match merged s !! parent with
        | Some _ => s
        | None =>
            addParents fuel (pathDir parent)
              (s <| merged := <[parent := parentNode parent]> (merged s) |>
                 <| entries := (fun m => <[parent := mkEntry 0 0 parentMode 0 []]> m) <$> entries s |>)
        end
  end.

Definition sortedPaths (m : gmap bytes indexedNode) : list bytes := fst <$> sortedNodes m.

Definition ensureIndexedParents (s : mergeState) : mergeState :=
  let s := foldl (fun s path => addParents (length path) (pathDir path) s) s (sortedPaths (merged s)) in
  match merged s !! [slash] with
  | Some _ => s
  | None => s <| merged := <[[slash] := parentNode [slash]]> (merged s) |>
  end.

Inductive buildError := MissingParent (parent path : bytes) | UnknownNodeKind (path : bytes) | FileError.

(** The directories built so far by their paths, each with its entries by name. *)
Abbreviation tree := (gmap bytes (gmap bytes indexedNode)).

(** [openFile] stands for [buildIndexedFile], which looks at the contents of the layers. *)
Definition buildNode (openFile : indexedNode -> bool) (byPath : tree) (n : indexedNode) : result buildError tree :=
  if bool_decide (Path n = [slash]) then Ok byPath
  else
    let parentPath := if bool_decide (pathDir (Path n) = dot) then [slash] else pathDir (Path n) in
    match byPath !! parentPath with
    | None => Err (MissingParent parentPath (Path n))
    | Some es =>
        let added := <[parentPath := <[pathBase (Path n) := n]> es]> byPath in
        match Kind n with
        | KindDir => Ok (<[Path n := ∅]> added)
        | KindFile => if openFile n then Ok added else Err FileError
        | KindSymlink => Ok added
        | KindOther _ => Err (UnknownNodeKind (Path n))
        end
    end.

Fixpoint buildNodes (openFile : indexedNode -> bool) (nodes : list indexedNode) (byPath : tree) : result buildError tree :=
  match nodes with
  | [] => Ok byPath
  | n :: nodes => byPath ← buildNode openFile byPath n; buildNodes openFile nodes byPath
  end.

Definition byPaths (nodes : list indexedNode) : list indexedNode := merge_sort (fun a b => stringLe (Path a) (Path b)) nodes.

(** The nodes in the order of their paths. *)
Definition buildIndexedRootFS (openFile : indexedNode -> bool) (nodes : list indexedNode) : result buildError tree :=
  buildNodes openFile (byPaths nodes) {[[slash] := ∅]}.

(** * Consistent sets of nodes *)

(** Nodes are stored under their paths. *)
Definition wellNamed (m : gmap bytes indexedNode) : Prop := forall k n, m !! k = Some n -> Path n = k /\ canonical k.

(** Only directories have something below them. *)
Definition consistent (m : gmap bytes indexedNode) : Prop :=
  forall k k' n, m !! k = Some n -> is_Some (m !! k') -> under k k' = true -> Kind n = KindDir.

(** The parent of every node is there, except for paths in [todo]. *)
Definition parented (m : gmap bytes indexedNode) (todo : list bytes) : Prop :=
  forall cs c, Forall goodPart (cs ++ [c]) -> is_Some (m !! abs (cs ++ [c])) ->
    abs (cs ++ [c]) ∈ todo \/ cs = [] \/ is_Some (m !! abs cs).

Lemma abs_app_prefix a b : exists t, abs (a ++ b) = abs a ++ t.
Proof.
  induction b as [|c b IH] using rev_ind; [exists []; by rewrite !app_nil_r|]. destruct IH as (t & IH). rewrite app_assoc.
  destruct (decide (a ++ b = [])) as [E|E].
  - apply app_eq_nil in E as [-> ->]. by exists c.
  - exists (t ++ slash :: c). unfold abs in *. rewrite joinWith_snoc by done. rewrite app_assoc, <- IH. done.
Qed.

Lemma length_parts cs : Forall goodPart cs -> (length cs <= length (abs cs))%nat.
Proof.
  induction cs as [|c cs IH] using rev_ind; intros F; [cbn; lia|]. apply Forall_app in F as [F Fc]. inversion Fc as [|? ? Hc _]; subst.
  specialize (IH F). destruct (abs_app_prefix cs [c]) as (t & E). rewrite E, !length_app. cbn [length].
  assert (t <> []); [|destruct t; [done|cbn [length]; lia]]. intros ->. rewrite app_nil_r in E. pose proof (parent_less cs c Hc) as H.
  by rewrite E, stringLess_irrefl in H.
Qed.

(** What adding the parents of a path does. *)
Definition grown (m m' : gmap bytes indexedNode) (ds : list bytes) : Prop :=
  m ⊆ m' /\ (ds = [] \/ is_Some (m' !! abs ds)) /\
  forall k n, m' !! k = Some n -> m !! k = None -> exists cs c b, ds = (cs ++ [c]) ++ b /\ k = abs (cs ++ [c]) /\ n = parentNode k /\
    (cs = [] \/ is_Some (m' !! abs cs)).

Lemma addParents_grows ds : Forall goodPart ds -> forall fuel s, (length ds <= fuel)%nat ->
  grown (merged s) (merged (addParents fuel (abs ds) s)) ds.
Proof.
  induction ds as [|c cs IH] using rev_ind; intros F fuel s Hf.
  { assert (addParents fuel (abs []) s = s) as -> by (by destruct fuel). split_and!; [done|by left|]. intros k n E1 E2. congruence. }
  rewrite length_app in Hf. cbn in Hf. destruct fuel as [|fuel]; [lia|]. cbn [addParents].
  pose proof F as F'. apply Forall_app in F' as [Fc Fx]. inversion Fx as [|? ? Hc _]; subst.
  rewrite (bool_decide_eq_false_2 (abs _ = dot)) by done. rewrite (bool_decide_eq_false_2 (abs _ = [slash])) by (by apply abs_snoc_root). cbn [orb].
  rewrite normalize_id by (by exists (cs ++ [c])). destruct (merged s !! abs (cs ++ [c])) as [n|] eqn:E.
  { split_and!; [done|right; by exists n|]. intros k n' E1 E2. congruence. }
  rewrite pathDir_abs by done. set (s1 := s <| merged := _ |> <| entries := _ |>).
  assert (Hm : merged s1 = <[abs (cs ++ [c]) := parentNode (abs (cs ++ [c]))]> (merged s)) by done.
  destruct (IH Fc fuel s1) as (G1 & G2 & G3); [lia|]. rewrite Hm in *. set (m' := merged (addParents fuel (abs cs) s1)) in *.
  assert (Hi : m' !! abs (cs ++ [c]) = Some (parentNode (abs (cs ++ [c])))) by (eapply lookup_weaken; [apply lookup_insert_eq|done]).
  split_and!.
  - etrans; [by apply insert_subseteq|done].
  - right. by eexists.
  - intros k n E1 E2. destruct (decide (k = abs (cs ++ [c]))) as [->|Hne].
    + exists cs, c, []. rewrite app_nil_r. split_and!; [done|done|congruence|exact G2].
    + destruct (G3 k n E1) as (cs' & c' & b & -> & Hk & Hn & Hp); [by rewrite lookup_insert_ne|]. exists cs', c', (b ++ [c]).
      split_and!; [by rewrite <- !app_assoc|done|done|done].
Qed.

(** All paths in turn: the nodes that are added are parents of nodes that were there. *)
Definition ensured (m m' : gmap bytes indexedNode) : Prop :=
  m ⊆ m' /\ forall k n, m' !! k = Some n -> m !! k = None -> n = parentNode k /\
    exists a b, Forall goodPart (a ++ b) /\ b <> [] /\ k = abs a /\ is_Some (m !! abs (a ++ b)).

Lemma grown_ensured m m1 m2 cs c : ensured m m1 -> Forall goodPart (cs ++ [c]) -> is_Some (m !! abs (cs ++ [c])) -> grown m1 m2 cs -> ensured m m2.
Proof.
  intros [E1 E2] F Hk (G1 & _ & G3). split; [by etrans|]. intros k n Hn Hm. destruct (m1 !! k) as [n1|] eqn:E.
  - apply E2; [|done]. rewrite (lookup_weaken _ _ _ _ E G1) in Hn. congruence.
  - destruct (G3 k n Hn E) as (cs' & c' & b & -> & -> & -> & _). split; [done|]. exists (cs' ++ [c']), (b ++ [c]).
    rewrite app_assoc. split_and!; [done|by destruct b|done|done].
Qed.

Lemma ensure_loop m paths : forall s, wellNamed m -> Forall (fun k => is_Some (m !! k)) paths -> ensured m (merged s) -> parented (merged s) paths ->
  let s' := foldl (fun s path => addParents (length path) (pathDir path) s) s paths in ensured m (merged s') /\ parented (merged s') [].
Proof.
  induction paths as [|path paths IH]; intros s Hw F He Hp; [done|]. inversion F as [|? ? [n Hn] F']; subst. cbn [foldl].
  destruct (canonical_cases path) as [->|(cs & c & Fc & ->)]; [by apply (Hw path n)| |].
  - apply IH; [done|done|done|]. intros cs c Fc Hk. destruct (Hp cs c Fc Hk) as [Hin|H]; [|by right]. apply elem_of_cons in Hin as [Hr|Hin]; [|by left].
    apply abs_snoc_root in Hr; [done|]. apply Forall_app in Fc as [_ Fc]. by inversion Fc.
  - pose proof Fc as Fs. apply Forall_app in Fs as [Fs _]. pose proof (length_parts _ Fc) as Hlen. rewrite length_app in Hlen.
    rewrite pathDir_abs by done.
    pose proof (addParents_grows cs Fs (length (abs (cs ++ [c]))) s ltac:(lia)) as G. apply IH; [done|done|eapply grown_ensured; [done|exact Fc|by exists n|done]|].
    destruct G as (G1 & G2 & G3). intros ds d Fd [n' Hk].
    destruct (merged s !! abs (ds ++ [d])) as [n1|] eqn:E.
    + destruct (Hp ds d Fd) as [Hin|[->|[n2 H]]]; [by exists n1| |by right; left|].
      * apply elem_of_cons in Hin as [Heq|Hin]; [|by left]. apply abs_inj in Heq; [|done|done]. apply app_inj_tail in Heq as [-> _]. right. destruct G2; [by left|by right].
      * right. right. exists n2. by eapply lookup_weaken.
    + destruct (G3 _ _ Hk E) as (cs' & c' & b & -> & Heq & _ & Hx). apply abs_inj in Heq; [|done|by apply Forall_app in Fs as [? _]].
      apply app_inj_tail in Heq as [-> _]. by right.
Qed.

Lemma elem_of_sortedPaths m k : k ∈ sortedPaths m <-> is_Some (m !! k).
Proof.
  unfold sortedPaths, sortedNodes. rewrite (merge_sort_Permutation (fun a b => stringLe a.1 b.1)), list_elem_of_fmap. split.
  - intros ([k' n] & -> & H). apply elem_of_map_to_list in H. by exists n.
  - intros [n H]. exists (k, n). split; [done|]. by apply elem_of_map_to_list.
Qed.

(** A set of nodes with all its directories. *)
Record rooted (m m' : gmap bytes indexedNode) : Prop := {
  rooted_keeps : m ⊆ m';
  rooted_root : is_Some (m' !! [slash]);
  rooted_parent : forall cs c, Forall goodPart (cs ++ [c]) -> is_Some (m' !! abs (cs ++ [c])) -> is_Some (m' !! abs cs);
  rooted_new : forall k n, m' !! k = Some n -> m !! k = None -> n = parentNode k /\
    (k = [slash] \/ exists a b, Forall goodPart (a ++ b) /\ b <> [] /\ k = abs a /\ is_Some (m !! abs (a ++ b)));
}.

Lemma ensure_rooted s : wellNamed (merged s) -> rooted (merged s) (merged (ensureIndexedParents s)).
Proof.
  intros Hw. unfold ensureIndexedParents. destruct (ensure_loop (merged s) (sortedPaths (merged s)) s Hw) as [[E1 E2] P].
  - apply Forall_forall. intros k. by rewrite elem_of_sortedPaths.
  - split; [done|]. intros k n H1 H2. congruence.
  - intros cs c _ H. left. by apply elem_of_sortedPaths.
  - set (s' := foldl _ s _) in *. assert (P' : forall cs c, Forall goodPart (cs ++ [c]) -> is_Some (merged s' !! abs (cs ++ [c])) ->
      cs = [] \/ is_Some (merged s' !! abs cs)) by (intros cs c F H; by destruct (P cs c F H) as [Hin%not_elem_of_nil|]).
    destruct (merged s' !! [slash]) as [n|] eqn:E.
    + split; [done|by exists n| |].
      * intros cs c F H. destruct (P' cs c F H) as [->|]; [by exists n|done].
      * intros k n' H1 H2. destruct (E2 k n' H1 H2) as [-> H]. split; [done|by right].
    + split; cbn.
      * etrans; [done|]. by apply insert_subseteq.
      * rewrite lookup_insert_eq. by eexists.
      * intros cs c F H. rewrite lookup_insert_ne in H by (intros H'; symmetry in H'; revert H'; apply abs_snoc_root; apply Forall_app in F as [_ F]; by inversion F).
        destruct (P' cs c F H) as [->|[n' Hn]]; [rewrite lookup_insert_eq; by eexists|]. exists n'. rewrite lookup_insert_ne; [done|]. intros Heq. congruence.
      * intros k n' H1 H2. destruct (decide (k = [slash])) as [->|Hne].
        { rewrite lookup_insert_eq in H1. injection H1 as <-. split; [done|by left]. }
        rewrite lookup_insert_ne in H1 by done. destruct (E2 k n' H1 H2) as [-> H]. split; [done|by right].
Qed.

Lemma rooted_named m m' : wellNamed m -> rooted m m' -> wellNamed m'.
Proof.
  intros Hw [K _ _ N] k n E. destruct (m !! k) as [n0|] eqn:E0.
  - rewrite (lookup_weaken _ _ _ _ E0 K) in E. injection E as <-. by apply Hw.
  - destruct (N k n E E0) as [-> H]. split; [done|]. destruct H as [->|(a & b & F & _ & -> & _)]; [by exists []|].
    exists a. split; [by apply Forall_app in F as [? _]|done].
Qed.

Lemma rooted_consistent m m' : wellNamed m -> consistent m -> rooted m m' -> consistent m'.
Proof.
  intros Hw Hc R k k' n E [n' E'] Hu. pose proof (rooted_named m m' Hw R) as Hw'. destruct R as [K _ _ N].
  destruct (m !! k) as [n0|] eqn:E0; [|by destruct (N k n E E0) as [-> _]].
  rewrite (lookup_weaken _ _ _ _ E0 K) in E. injection E as <-. destruct (m !! k') as [n1|] eqn:E1.
  - apply (Hc k k' n0 E0); [by exists n1|done].
  - destruct (Hw' k' n' E') as [_ _]. destruct (Hw k n0 E0) as [_ (cs & Fk & ->)].
    destruct (N k' n' E' E1) as [_ [->|(a & b & F & _ & -> & Hab)]].
    + change [slash] with (abs []) in Hu. apply under_parts in Hu as (_ & e & rest & H); [|done|constructor]. by destruct cs.
    + apply (Hc (abs cs) (abs (a ++ b)) n0 E0 Hab). apply under_parts; [done|done|].
      apply under_parts in Hu as (H1 & e & rest & ->); [|done|by apply Forall_app in F as [? _]]. split; [done|].
      exists e, (rest ++ b). by rewrite <- app_assoc.
Qed.

Lemma rooted_fits m m' : map_Forall (fun _ n => fitsNode n) m -> wellNamed m -> rooted m m' -> map_Forall (fun _ n => fitsNode n) m'.
Proof.
  intros Hf Hw [K _ _ N] k n E. destruct (m !! k) as [n0|] eqn:E0.
  - rewrite (lookup_weaken _ _ _ _ E0 K) in E. injection E as <-. by apply (Hf k).
  - destruct (N k n E E0) as [-> H]. assert (Hs : fitsString k).
    { destruct H as [->|(a & b & F & _ & -> & [n1 E1])]; [done|]. destruct (Hw _ _ E1) as [Hp _].
      destruct (Hf _ _ E1) as (_ & _ & _ & _ & _ & _ & _ & _ & _ & Hs & _). rewrite Hp in Hs.
      destruct (abs_app_prefix a b) as (t & Ht). unfold fitsString in *. rewrite Ht, len_app in Hs. pose proof (len_nonneg t). lia. }
    unfold fitsNode, parentNode, fitsString, is_i64. cbn. split_and!; done || width.
Qed.

(** * Building *)

(** The directories after the nodes [dn]. *)
Definition built (dn : list indexedNode) (t : tree) : Prop :=
  (forall p, is_Some (t !! p) <-> p = [slash] \/ exists n, n ∈ dn /\ Path n = p /\ Kind n = KindDir) /\
  forall n, n ∈ dn -> Path n <> [slash] -> t !! pathDir (Path n) ≫= (fun es => es !! pathBase (Path n)) = Some n.

Definition pathLess (a b : indexedNode) : Prop := stringLess (Path a) (Path b) = true.

Section build.
Context (openFile : indexedNode -> bool) (m : gmap bytes indexedNode) (l : list indexedNode).
Hypothesis named : wellNamed m.
Hypothesis whole : forall n, n ∈ l <-> m !! Path n = Some n.
Hypothesis sorted : StronglySorted pathLess l.
Hypothesis closed : forall cs c, Forall goodPart (cs ++ [c]) -> is_Some (m !! abs (cs ++ [c])) -> is_Some (m !! abs cs).
Hypothesis sane : consistent m.
Hypothesis kinds : forall n, n ∈ l -> knownKind (Kind n) /\ openFile n = true.

(** What sorts before the next node has been built. *)
Lemma earlier dn n rest n' : l = dn ++ n :: rest -> n' ∈ l -> pathLess n' n -> n' ∈ dn.
Proof.
  intros E Hin Hl. rewrite E in Hin, sorted. apply elem_of_app in Hin as [|Hin]; [done|]. exfalso. unfold pathLess in *.
  apply elem_of_cons in Hin as [->|Hin]; [by rewrite stringLess_irrefl in Hl|].
  apply StronglySorted_app in sorted as (_ & _ & S). apply StronglySorted_inv in S as [_ S]. rewrite Forall_forall in S.
  apply stringLess_asym in Hl. specialize (S n' Hin). congruence.
Qed.

Lemma other_earlier dn n rest n' : l = dn ++ n :: rest -> n' ∈ dn -> pathLess n' n.
Proof.
  intros E Hin. rewrite E in sorted. apply StronglySorted_app in sorted as (S & _ & _). apply (S n' n); [done|]. apply elem_of_cons. by left.
Qed.

Lemma parent_built dn n rest t cs c : l = dn ++ n :: rest -> built dn t -> Path n = abs (cs ++ [c]) -> Forall goodPart (cs ++ [c]) ->
  is_Some (t !! abs cs).
Proof.
  intros E [B _] Hp F. apply B. destruct (decide (cs = [])) as [->|Hne]; [by left|]. right.
  assert (Hn : m !! Path n = Some n) by (apply whole; rewrite E; set_solver). rewrite Hp in Hn.
  destruct (closed cs c F) as [pn Epn]; [by exists n|]. destruct (named _ _ Epn) as [Hpn _]. exists pn. split_and!; [|done|].
  - apply (earlier dn n rest); [done|apply whole; by rewrite Hpn|]. unfold pathLess. rewrite Hpn, Hp. apply parent_less.
    apply Forall_app in F as [_ F]. by inversion F.
  - apply (sane (abs cs) (abs (cs ++ [c])) pn Epn); [by exists n|]. apply under_parts; [by apply Forall_app in F as [? _]|done|].
    split; [done|]. by exists c, [].
Qed.

(** A node and its entry in its directory leave the entries of the others. *)
Lemma old_entry dn n rest t cs c es n' : l = dn ++ n :: rest -> built dn t -> Path n = abs (cs ++ [c]) -> Forall goodPart (cs ++ [c]) ->
  t !! abs cs = Some es -> n' ∈ dn -> Path n' <> [slash] ->
  (<[abs cs := <[c := n]> es]> t) !! pathDir (Path n') ≫= (fun es => es !! pathBase (Path n')) = Some n' /\ pathDir (Path n') <> abs (cs ++ [c]).
Proof.
  intros E [_ B2] Hp F Ees Hd Hr. pose proof (other_earlier dn n rest n' E Hd) as Hless. specialize (B2 n' Hd Hr). unfold pathLess in Hless.
  assert (Hm' : m !! Path n' = Some n') by (apply whole; rewrite E; apply elem_of_app; by left). destruct (named _ _ Hm') as [_ Hc'].
  destruct (canonical_cases _ Hc') as [|(cs' & c' & F' & Hp')]; [done|]. rewrite Hp', pathDir_abs, pathBase_abs in * by done. split.
  - destruct (decide (abs cs' = abs cs)) as [He|He]; [|by rewrite lookup_insert_ne].
    rewrite He in B2 |- *. rewrite lookup_insert_eq. rewrite Ees in B2. cbn in B2. cbn. rewrite lookup_insert_ne; [done|]. intros ->.
    apply abs_inj in He; [|by apply Forall_app in F' as [? _]|by apply Forall_app in F as [? _]]. subst cs'.
    by rewrite Hp, stringLess_irrefl in Hless.
  - intros He. rewrite Hp, <- He in Hless. apply stringLess_asym in Hless.
    rewrite parent_less in Hless; [done|]. apply Forall_app in F' as [_ F']. by inversion F'.
Qed.

(** The tree with the new node, a directory of its own if it is one. *)
Lemma built_add dn n rest t cs c es : l = dn ++ n :: rest -> built dn t -> Path n = abs (cs ++ [c]) -> Forall goodPart (cs ++ [c]) ->
  t !! abs cs = Some es ->
  let added := <[abs cs := <[c := n]> es]> t in
  built (dn ++ [n]) (if bool_decide (Kind n = KindDir) then <[abs (cs ++ [c]) := ∅]> added else added).
Proof.
  intros E B Hp F Ees added. pose proof (fun n' => old_entry dn n rest t cs c es n' E B Hp F Ees) as Hold. fold added in Hold. destruct B as [B1 _].
  assert (Ha : forall p, is_Some (added !! p) <-> is_Some (t !! p)).
  { intros p. unfold added. destruct (decide (p = abs cs)) as [->|]; [rewrite lookup_insert_eq, Ees; naive_solver|by rewrite lookup_insert_ne]. }
  assert (Hself : abs (cs ++ [c]) <> abs cs).
  { intros Heq. apply abs_inj in Heq; [|done|by apply Forall_app in F as [? _]]. apply (f_equal length) in Heq. rewrite length_app in Heq. cbn in Heq. lia. }
  assert (Hnew : added !! abs cs ≫= (fun es => es !! c) = Some n) by (unfold added; rewrite lookup_insert_eq; cbn; by rewrite lookup_insert_eq).
  split.
  - intros p. assert (Hd : (exists n', n' ∈ dn ++ [n] /\ Path n' = p /\ Kind n' = KindDir) <->
      (exists n', n' ∈ dn /\ Path n' = p /\ Kind n' = KindDir) \/ p = abs (cs ++ [c]) /\ Kind n = KindDir).
    { split; [intros (n' & [H|H%list_elem_of_singleton]%elem_of_app & H1 & H2); [left; eauto|right; split; congruence]|].
      intros [(n' & H & H')|[-> H]]; [exists n'; rewrite elem_of_app; eauto|exists n; rewrite elem_of_app, list_elem_of_singleton; eauto]. }
    rewrite Hd. case_bool_decide as Hk; [|rewrite Ha, B1; naive_solver]. destruct (decide (p = abs (cs ++ [c]))) as [->|Hne].
    + rewrite lookup_insert_eq. naive_solver.
    + rewrite lookup_insert_ne, Ha, B1 by done. naive_solver.
  - intros n' [H| ->%list_elem_of_singleton]%elem_of_app Hr.
    + destruct (Hold n' H Hr) as [H1 H2]. case_bool_decide; [|done]. by rewrite lookup_insert_ne.
    + rewrite Hp, pathDir_abs, pathBase_abs by done. case_bool_decide; [|done]. by rewrite lookup_insert_ne.
Qed.

Lemma built_root dn n t : built dn t -> Path n = [slash] -> built (dn ++ [n]) t.
Proof.
  intros [B1 B2] Hr. split.
  - intros p. rewrite B1. split; [intros [|(n' & H & ?)]; [by left|right; exists n'; rewrite elem_of_app; eauto]|].
    intros [|(n' & [H| ->%list_elem_of_singleton]%elem_of_app & H1 & H2)]; [by left|right; by exists n'|left; congruence].
  - intros n' [H| ->%list_elem_of_singleton]%elem_of_app Hne; [by apply B2|congruence].
Qed.

Lemma build_step dn n rest t : l = dn ++ n :: rest -> built dn t -> exists t', buildNode openFile t n = Ok t' /\ built (dn ++ [n]) t'.
Proof.
  intros E B. assert (Hin : n ∈ l) by (rewrite E; apply elem_of_app; right; apply elem_of_cons; by left).
  destruct (kinds n Hin) as [Hk Ho]. pose proof Hin as Hm. apply whole in Hm. unfold buildNode. case_bool_decide as Hroot.
  { exists t. split; [done|]. by apply built_root. }
  destruct (named _ _ Hm) as [_ Hc]. destruct (canonical_cases _ Hc) as [|(cs & c & F & Hp)]; [done|].
  destruct (parent_built dn n rest t cs c E B Hp F) as [es Ees].
  pose proof (built_add dn n rest t cs c es E B Hp F Ees) as X. cbv zeta in X. rewrite Hp, pathDir_abs, pathBase_abs by done.
  rewrite (bool_decide_eq_false_2 (abs cs = dot)) by done. rewrite Ees, Ho.
  destruct (Kind n) eqn:Ek; [..|done]; eexists; (split; [reflexivity|]); exact X.
Qed.

Lemma build_all rest : forall dn t, l = dn ++ rest -> built dn t -> exists t', buildNodes openFile rest t = Ok t' /\ built l t'.
Proof.
  induction rest as [|n rest IH]; intros dn t E B; cbn [buildNodes].
  { rewrite app_nil_r in E. subst dn. by exists t. }
  destruct (build_step dn n rest t E B) as (t1 & -> & B1). cbn [mbind result_bind]. apply (IH (dn ++ [n])); [|done].
  by rewrite <- app_assoc.
Qed.
End build.

(** The nodes of an index in the order in which they are built. *)
Lemma byPaths_spec m : wellNamed m ->
  (forall n, n ∈ byPaths (snd <$> sortedNodes m) <-> m !! Path n = Some n) /\ StronglySorted pathLess (byPaths (snd <$> sortedNodes m)).
Proof.
  intros Hw. assert (Hl : byPaths (snd <$> sortedNodes m) ≡ₚ snd <$> map_to_list m).
  { unfold byPaths, sortedNodes. rewrite merge_sort_Permutation. by rewrite (merge_sort_Permutation (fun a b => stringLe a.1 b.1)). }
  split.
  - intros n. rewrite Hl, list_elem_of_fmap. split.
    + intros ([k n'] & -> & H). apply elem_of_map_to_list in H. cbn. destruct (Hw k n' H) as [-> _]. done.
    + intros H. exists (Path n, n). split; [done|]. by apply elem_of_map_to_list.
  - apply (sorted_strict Path (fun a b => stringLe (Path a) (Path b))); [intros a b; apply stringLe_strict| |].
    + rewrite Hl. replace (Path <$> (snd <$> map_to_list m)) with (fst <$> map_to_list m); [apply NoDup_fst_map_to_list|].
      rewrite <- list_fmap_compose. apply list_fmap_ext. intros i [k n] E. apply list_elem_of_lookup_2, elem_of_map_to_list in E.
      cbn. by destruct (Hw k n E) as [-> _].
    + apply StronglySorted_merge_sort; [intros a b c; apply stringLe_trans|intros a b; apply stringLe_total].
Qed.

Lemma built_nil : built [] ({[[slash] := ∅]} : tree).
Proof.
  split; [|intros n H; by apply not_elem_of_nil in H]. intros p. rewrite lookup_singleton. destruct (decide ([slash] = p)) as [<-|Hne].
  - split; [by left|by eexists].
  - split; [by intros [? ?]|]. intros [->|(n & H & _)]; [done|by apply not_elem_of_nil in H].
Qed.

(** C15: when only directories have nodes below them, adding the missing directories, storing the
    index, reading it back and building the tree succeeds, and the entry of every node is found
    in the directory of its path; no node is lost or changed on the way. *)
Theorem namespace_complete (openFile : indexedNode -> bool) (s : mergeState) :
  let m := merged (ensureIndexedParents s) in
  wellNamed (merged s) -> map_Forall (fun _ n => fitsNode n) (merged s) -> consistent (merged s) -> Z.of_nat (size m) < 2 ^ 63 ->
  (forall k n, m !! k = Some n -> openFile n = true) ->
  exists data nodes t, merged s ⊆ m /\ encodeBinaryFSIndexMap m = Ok data /\ decodeBinaryFSIndex data = Ok nodes /\
    buildIndexedRootFS openFile nodes = Ok t /\
    forall k n, m !! k = Some n -> k <> [slash] -> t !! pathDir k ≫= (fun es => es !! pathBase k) = Some n.
Proof.
  intros m Hw Hf Hc Hs Ho. pose proof (ensure_rooted s Hw) as R. fold m in R.
  pose proof (rooted_named _ _ Hw R) as Hw'. pose proof (rooted_consistent _ _ Hw Hc R) as Hc'. pose proof (rooted_fits _ _ Hf Hw R) as Hf'.
  assert (P : sortedNodes m ≡ₚ map_to_list m) by apply merge_sort_Permutation.
  destruct (decode_encoded (snd <$> sortedNodes m)) as (data & E1 & E2).
  { rewrite P. apply Forall_fmap, Forall_forall. intros [k n] Hin. apply elem_of_map_to_list in Hin. by apply (Hf' k). }
  { unfold len. by rewrite length_fmap, P, length_map_to_list. }
  destruct (byPaths_spec m Hw') as [Hin Hsort].
  destruct (build_all openFile m _ Hw' Hin Hsort (rooted_parent _ _ R) Hc') with (rest := byPaths (snd <$> sortedNodes m)) (dn := @nil indexedNode)
    (t := {[[slash] := ∅]} : tree) as (t & Et & _ & Bt).
  { intros n Hn. apply Hin in Hn. split; [by apply (Hf' _ _ Hn)|by apply (Ho _ _ Hn)]. }
  { done. }
  { apply built_nil. }
  exists data, (snd <$> sortedNodes m), t. split_and!; [by apply rooted_keeps|done|done|done|]. intros k n E Hk. destruct (Hw' k n E) as [<- _].
  apply Bt; [by apply Hin|done].
Qed.

(** * Layers keep nodes consistent *)

(** An entry is below directories only, and a file or link takes no path that has something
    below it unless a directory is listed there. *)
Definition placed (m : gmap bytes indexedNode) (n : indexedNode) : Prop :=
  canonical (Path n) /\ (forall p n', m !! p = Some n' -> under p (Path n) = true -> Kind n' = KindDir) /\
  (Kind n <> KindDir -> isDir (m !! Path n) = false -> forall k, is_Some (m !! k) -> under (Path n) k = false).

Lemma filtered_consistent m m' : wellNamed m -> consistent m -> m' ⊆ m -> wellNamed m' /\ consistent m'.
Proof.
  intros Hw Hc Hs. split.
  - intros k n E. apply Hw. by eapply lookup_weaken.
  - intros k k' n E [n' E'] Hu. apply (Hc k k' n); [by eapply lookup_weaken| |done]. exists n'. by eapply lookup_weaken.
Qed.

Lemma dropKeys_subset P s : merged (dropKeys P s) ⊆ merged s.
Proof. apply map_filter_subseteq. Qed.

Lemma under_irrefl p : under p p = false.
Proof.
  destruct (under p p) eqn:E; [|done]. apply hasPrefix_spec in E as (t & E). apply (f_equal length) in E. rewrite !length_app in E. cbn in E. lia.
Qed.

Lemma insert_consistent n s : wellNamed (merged s) -> consistent (merged s) -> placed (merged s) n ->
  wellNamed (merged (insertNode n s)) /\ consistent (merged (insertNode n s)).
Proof.
  intros Hw Hc (Hcan & Habove & Hbelow).
  assert (Hold : forall k n', merged (insertNode n s) !! k = Some n' -> k = Path n /\ n' = n \/
    merged s !! k = Some n' /\ (Kind n <> KindDir -> under (Path n) k = false)).
  { intros k n'. rewrite insert_merged. destruct (decide (k = Path n)) as [->|Hne]; [intros [= <-]; by left|].
    case_bool_decide as Hk; cbn; [by right|]. destruct (isDir (merged s !! Path n)) eqn:Ed; cbn.
    - destruct (under (Path n) k); [done|by right].
    - intros E. right. split; [done|]. intros _. apply Hbelow; [done|done|by exists n']. }
  split.
  - intros k n' E. destruct (Hold k n' E) as [[-> ->]|[E' _]]; [done|by apply Hw].
  - intros k k' n1 E [n2 E'] Hu. destruct (Hold k n1 E) as [[-> ->]|[E1 H1]], (Hold k' n2 E') as [[-> ->]|[E2 H2]].
    + by rewrite under_irrefl in Hu.
    + destruct (decide (Kind n = KindDir)); [done|]. by rewrite H2 in Hu.
    + by apply (Habove k n1).
    + apply (Hc k k' n1 E1); [by exists n2|done].
Qed.

(** One record keeps the nodes consistent, as long as its entry is placed so. *)
Lemma record_consistent ref r s s' : wellNamed (merged s) -> consistent (merged s) -> applyRecord ref r s = Ok s' ->
  (pathOnly r = false -> placed (merged s) (node r)) -> wellNamed (merged s') /\ consistent (merged s').
Proof.
  intros Hw Hc E Hp. unfold applyRecord, pathOnly in *.
  destruct (op r =? layerRecordDelete); [injection E as <-; eapply filtered_consistent; [done|done|apply dropKeys_subset]|].
  destruct (op r =? layerRecordOpaque); [injection E as <-; eapply filtered_consistent; [done|done|apply dropKeys_subset]|].
  specialize (Hp eq_refl). destruct (op r =? layerRecordHardlink).
  - destruct (linkTarget _ s) as [t|]; [|done]. destruct (bool_decide (Kind t = KindFile)); [|done]. injection E as <-. by apply insert_consistent.
  - destruct (op r =? layerRecordAdd); [|done]. injection E as <-. destruct (_ && _); by apply insert_consistent.
Qed.

(** ** An image that cannot be opened *)

(** The lower layer has [/a/b] but does not list [/a]; the upper layer makes [/a] a link. *)
Definition lowerLayer : list layerRecord := [mkRecord layerRecordAdd (fileNode [47; 97; 47; 98]) []].
Definition upperLayer : list layerRecord := [mkRecord layerRecordAdd (pathNode [47; 97] <| Kind := KindSymlink |> <| LinkTarget := [98] |>) []].

Definition indexOf (rs : list layerRecord) : bytes :=
  match writeAll writeLayerRecord rs with Ok body => layerArchiveMagic ++ body | _ => [] end.

Definition afterLower : mergeState := (applyLayerArchive (indexOf lowerLayer) [] (mkMerge ∅ None ∅)).1.
Definition afterUpper : mergeState := (applyLayerArchive (indexOf upperLayer) [] afterLower).1.
Definition imageIndex : bytes := match encodeBinaryFSIndexMap (merged (ensureIndexedParents afterUpper)) with Ok data => data | _ => [] end.
Definition imageNodes : list indexedNode := match decodeBinaryFSIndex imageIndex with Ok nodes => nodes | _ => [] end.

(** The nodes below the link are kept, and the tree has no directory for them. *)
Theorem implicit_directory_breaks : exists s1 s2 data nodes,
  applyLayerArchive (indexOf lowerLayer) [] (mkMerge ∅ None ∅) = (s1, Ok tt) /\ applyLayerArchive (indexOf upperLayer) [] s1 = (s2, Ok tt) /\
  encodeBinaryFSIndexMap (merged (ensureIndexedParents s2)) = Ok data /\ decodeBinaryFSIndex data = Ok nodes /\
  buildIndexedRootFS (fun _ => true) nodes = Err (MissingParent [47; 97] [47; 97; 47; 98]).
Proof. exists afterLower, afterUpper, imageIndex, imageNodes. split_and!; vm_compute; reflexivity. Qed.

(** ** An image that can *)

Lemma afterLower_merged : merged afterLower = {[[47; 97; 47; 98] := fileNode [47; 97; 47; 98]]}.
Proof. vm_compute. reflexivity. Qed.

Lemma namespace_complete_witness : let m := merged (ensureIndexedParents afterLower) in
  exists data nodes t, merged afterLower ⊆ m /\ encodeBinaryFSIndexMap m = Ok data /\ decodeBinaryFSIndex data = Ok nodes /\
    buildIndexedRootFS (fun _ => true) nodes = Ok t /\
    forall k n, m !! k = Some n -> k <> [slash] -> t !! pathDir k ≫= (fun es => es !! pathBase k) = Some n.
Proof.
  apply (namespace_complete (fun _ => true) afterLower).
  - rewrite afterLower_merged. intros k n E. apply lookup_singleton_Some in E as [<- <-]. split; [reflexivity|]. exists [[97]; [98]].
    split; [|reflexivity]. repeat constructor; try done; set_solver.
  - rewrite afterLower_merged. apply map_Forall_singleton. unfold fitsNode, fitsString, is_i64. cbn. split_and!; done || width.
  - rewrite afterLower_merged. intros k k' n E [n' E'] Hu. apply lookup_singleton_Some in E as [<- <-]. apply lookup_singleton_Some in E' as [<- _].
    vm_compute in Hu. discriminate Hu.
  - vm_compute. reflexivity.
  - intros k n _. reflexivity.
Defined.
