(* ===== verification/Initramfs.v ===== *)
(** The initial file system of the guest: [src/internal/core/linux/initramfs/initramfs.go].

    [Build] writes a cpio archive in the format newc, which the kernel unpacks at boot.
    [readNewc] is a reader of that format: fields of eight hexadecimal digits, names that end
    in a zero byte, names and data padded to four bytes, a last entry with a reserved name.
    [initramfs_roundtrip]: reading what [Build] wrote gives back every file.
    [oversized_file_corrupts]: a file of 4 GiB or more is written with a size that is too small.

    [BuildFromDirectory], which collects the files of a host directory, is not modelled. *)

From S2P Require Import Prelude Paths.

Inductive FileType := TypeRegular | TypeDirectory | TypeCharDevice | TypeBlockDevice | TypeSymlink | TypeOther (t : Z).
#[export] Instance FileType_eq_dec : EqDecision FileType.
Proof. solve_decision. Defined.

Record File := mkFile {
  filePath : bytes;
  fileMode : Z;
  fileBytes : bytes;
  Linkname : bytes;
  Type_ : FileType;
  DevMajor : Z;
  DevMinor : Z;
}.

#[export] Instance eta_File : Eta File := fun f => mkFile (filePath f) (fileMode f) (fileBytes f) (Linkname f) (Type_ f) (DevMajor f) (DevMinor f).

Record entry := mkEntry {
  ino : Z; mode : Z; uid : Z; gid : Z; nlink : Z; mtime : Z; filesize : Z; devmajor : Z; devminor : Z; rdevmajor : Z; rdevminor : Z;
  name : bytes;
  data : bytes;
}.

#[export] Instance eta_entry : Eta entry := fun e =>
  mkEntry (ino e) (mode e) (uid e) (gid e) (nlink e) (mtime e) (filesize e) (devmajor e) (devminor e) (rdevmajor e) (rdevminor e) (name e) (data e).

Inductive buildError := EmptyPath (idx : Z) | UnsupportedType (idx t : Z) | HeaderLength (idx n : Z).

Definition newcMagic : bytes := [48; 55; 48; 55; 48; 49].
Definition newcTrailerName : bytes := [84; 82; 65; 73; 76; 69; 82; 33; 33; 33].
Abbreviation newcHeaderLen := 110%Z.
Abbreviation newcRegularFileBit := 32768%Z.
Abbreviation newcDirectoryBit := 16384%Z.
Abbreviation newcCharDeviceBit := 8192%Z.
Abbreviation newcBlockDeviceBit := 24576%Z.
Abbreviation newcSymlinkBit := 40960%Z.

(** * Writing *)

Definition hexDigit (d : Z) : Z := if d <? 10 then 48 + d else 87 + d.

(** The digits of a number that is not negative, as few as there are. *)
Fixpoint hexDigits (fuel : nat) (v : Z) : bytes :=
  match fuel with
  | O => []
  | S fuel => if v <? 16 then [hexDigit v] else hexDigits fuel (v / 16) ++ [hexDigit (v mod 16)]
  end.

(** [%08x] of a 64-bit integer. *)
Definition hex08 (v : Z) : bytes :=
  let ds := hexDigits 16 v in replicate (8 - length ds) 48 ++ ds.

Definition alignTo4 (length : Z) : Z := if length mod 4 =? 0 then 0 else 4 - length mod 4.

Definition encodeMode (idx : Z) (file : File) : result buildError Z :=
  let m := Z.land (fileMode file) 511 in
  match Type_ file with
  | TypeRegular => Ok (Z.lor m newcRegularFileBit)
  | TypeDirectory => Ok (Z.lor m newcDirectoryBit)
  | TypeCharDevice => Ok (Z.lor m newcCharDeviceBit)
  | TypeBlockDevice => Ok (Z.lor m newcBlockDeviceBit)
  | TypeSymlink => Ok (Z.lor m newcSymlinkBit)
  | TypeOther t => Err (UnsupportedType idx t)
  end.

Definition fileData (file : File) : bytes := match Type_ file with TypeSymlink => Linkname file | _ => fileBytes file end.

(** The fields of the header, in their order. *)
Definition headerFields (e : entry) : list Z :=
  [ino e; mode e; uid e; gid e; nlink e; mtime e; filesize e; devmajor e; devminor e; rdevmajor e; rdevminor e; len (name e) + 1; 0].

Definition writeEntry (idx : Z) (e : entry) : result buildError bytes :=
  let header := newcMagic ++ concat (hex08 <$> headerFields e) in
  if negb (len header =? newcHeaderLen) then Err (HeaderLength idx (len header))
  else Ok (header ++ name e ++ [0] ++ zeros (alignTo4 (newcHeaderLen + (len (name e) + 1))) ++ data e ++ zeros (alignTo4 (len (data e)))).

Fixpoint buildFiles (idx i : Z) (files : list File) : result buildError bytes :=
  match files with
  | [] => Ok []
  | file :: files =>
      let nm := trimPrefix (filePath file) [47] in
      if len nm =? 0 then Err (EmptyPath idx)
      else
        m ← encodeMode idx file;
        let d := fileData file in
        b ← writeEntry idx (mkEntry i m 0 0 1 0 (u32 (len d)) 0 0 (DevMajor file) (DevMinor file) nm d);
        rest ← buildFiles (idx + 1) (u32 (i + 1)) files;
        Ok (b ++ rest)
  end.

Definition trailer : entry := mkEntry 0 newcRegularFileBit 0 0 1 0 0 0 0 0 0 newcTrailerName [].

Definition Build (files : list File) : result buildError bytes :=
  b ← buildFiles 0 1 files;
  t ← writeEntry (len files) trailer;
  Ok (b ++ t).

(** * A reader of the format *)

Definition hexValue (c : Z) : option Z :=
  if (48 <=? c) && (c <=? 57) then Some (c - 48) else if (97 <=? c) && (c <=? 102) then Some (c - 87) else None.

Fixpoint readHexFrom (acc : Z) (s : bytes) : option Z :=
  match s with
  | [] => Some acc
  | c :: s => d ← hexValue c; readHexFrom (acc * 16 + d) s
  end.

(** So many fields of eight digits, and what follows. *)
Fixpoint readFields (n : nat) (s : bytes) : option (list Z * bytes) :=
  match n with
  | O => Some ([], s)
  | S n =>
      if len s <? 8 then None
      else v ← readHexFrom 0 (take 8 s); '(vs, rest) ← readFields n (drop 8 s); Some (v :: vs, rest)
  end.

(** What is missing to a multiple of four. *)
Definition missing (n : Z) : Z := (- n) mod 4.

(** [n] bytes and the padding after them, where [before] bytes of the same unit precede them: the next unit starts at a multiple of
    four. *)
Definition readPadded (before n : Z) (s : bytes) : option (bytes * bytes) :=
  if len s <? n + missing (before + n) then None
  else Some (take (Z.to_nat n) s, drop (Z.to_nat (n + missing (before + n))) s).

Definition readEntry (s : bytes) : option (entry * bytes) :=
  if negb (bool_decide (take 6 s = [48; 55; 48; 55; 48; 49])) then None
  else
    '(vs, s) ← readFields 13 (drop 6 s);
    match vs with
    | [i; m; u; g; nl; mt; fs; dmaj; dmin; rmaj; rmin; ns; _] =>
        '(nm, s) ← readPadded 110 ns s;
        '(d, s) ← readPadded 0 fs s;
        if negb (bool_decide (last nm = Some 0)) then None
        else Some (mkEntry i m u g nl mt fs dmaj dmin rmaj rmin (take (length nm - 1) nm) d, s)
    | _ => None
    end.

(** The name that ends an archive. *)
Definition reservedName : bytes := [84; 82; 65; 73; 76; 69; 82; 33; 33; 33].

(** The entries up to the last one. *)
Fixpoint readNewc (fuel : nat) (s : bytes) : option (list entry) :=
  match fuel with
  | O => None
  | S fuel =>
      '(e, s) ← readEntry s;
      if bool_decide (name e = reservedName) then Some [] else es ← readNewc fuel s; Some (e :: es)
  end.

(** * Numbers *)

Lemma readHex_app acc s t : readHexFrom acc (s ++ t) = a ← readHexFrom acc s; readHexFrom a t.
Proof.
  revert acc. induction s as [|c s IH]; intros acc; [done|]. cbn [app readHexFrom]. destruct (hexValue c) as [d|]; [|done]. apply IH.
Qed.

Lemma readHex_zeros k : readHexFrom 0 (replicate k 48) = Some 0.
Proof. induction k as [|k IH]; [done|]. cbn. exact IH. Qed.

Lemma hexValue_digit d : 0 <= d < 16 -> hexValue (hexDigit d) = Some d.
Proof. intros H. unfold hexValue, hexDigit. repeat case_match; try lia; f_equal; lia. Qed.

Lemma hexDigits_read fuel v : 0 <= v < 16 ^ Z.of_nat fuel -> readHexFrom 0 (hexDigits fuel v) = Some v.
Proof.
  revert v. induction fuel as [|fuel IH]; intros v Hv; [cbn in *; f_equal; lia|]. cbn [hexDigits].
  destruct (Z.ltb_spec v 16); [cbn [readHexFrom]; rewrite hexValue_digit by lia; done|].
  rewrite Nat2Z.inj_succ, Z.pow_succ_r in Hv by lia. rewrite readHex_app, IH.
  - cbn [mbind option_bind readHexFrom]. rewrite hexValue_digit by (apply Z.mod_pos_bound; lia). cbn. f_equal. pose proof (Z.div_mod v 16). lia.
  - split; [apply Z.div_pos; lia|apply Z.div_lt_upper_bound; lia].
Qed.

Lemma hexDigits_len fuel n v : (n <= fuel)%nat -> 0 <= v < 16 ^ Z.of_nat (S n) -> (length (hexDigits fuel v) <= S n)%nat.
Proof.
  revert fuel v. induction n as [|n IH]; intros fuel v Hn Hv; destruct fuel as [|fuel]; cbn [hexDigits length]; try lia.
  - rewrite (proj2 (Z.ltb_lt v 16)) by (cbn in Hv; lia). done.
  - destruct (v <? 16); [cbn; lia|]. rewrite length_app. cbn [length]. rewrite Nat2Z.inj_succ, Z.pow_succ_r in Hv by lia.
    enough (length (hexDigits fuel (v / 16)) <= S n)%nat by lia.
    apply IH; [lia|]. split; [apply Z.div_pos; lia|apply Z.div_lt_upper_bound; lia].
Qed.

Abbreviation is_u32 := (in_width 32).

Lemma hex08_len v : is_u32 v -> length (hex08 v) = 8%nat.
Proof.
  intros H. unfold hex08. rewrite length_app, length_replicate. pose proof (hexDigits_len 16 7 v ltac:(lia) ltac:(exact H)). lia.
Qed.

Lemma hex08_read v : is_u32 v -> readHexFrom 0 (hex08 v) = Some v.
Proof.
  intros [H1 H2]. unfold hex08. rewrite readHex_app, readHex_zeros. cbn [mbind option_bind]. apply hexDigits_read. cbn in *. lia.
Qed.

Lemma readFields_hex vs rest : Forall is_u32 vs -> readFields (length vs) (concat (hex08 <$> vs) ++ rest) = Some (vs, rest).
Proof.
  induction 1 as [|v vs Hv _ IH]; [done|]. cbn [length readFields fmap list_fmap concat]. rewrite <- app_assoc.
  pose proof (hex08_len v Hv) as Hl. rewrite (proj2 (Z.ltb_ge _ 8)) by (unfold len; rewrite !length_app; lia).
  rewrite take_app_length', drop_app_length' by done. rewrite hex08_read by done. cbn [mbind option_bind]. rewrite IH. done.
Qed.

Lemma header_len e : Forall is_u32 (headerFields e) -> len (newcMagic ++ concat (hex08 <$> headerFields e)) = newcHeaderLen.
Proof.
  intros H. rewrite len_app. enough (G : forall vs, Forall is_u32 vs -> len (concat (hex08 <$> vs)) = 8 * len vs) by (rewrite G by done; done).
  clear. induction 1 as [|v vs Hv _ IH]; [done|]. cbn [fmap list_fmap concat]. rewrite len_app, len_cons, IH. pose proof (hex08_len v Hv). unfold len. lia.
Qed.

(** * Entries *)

(** The code pads up to the next multiple of four. *)
Lemma alignTo4_missing n : alignTo4 n = missing n.
Proof.
  unfold alignTo4, missing. destruct (Z.eqb_spec (n mod 4) 0) as [E|E]; [by rewrite Z.mod_opp_l_z by lia|by rewrite Z.mod_opp_l_nz by lia].
Qed.

Lemma missing_range n : 0 <= missing n < 4.
Proof. apply Z.mod_pos_bound. lia. Qed.

Lemma readPadded_written before x rest : readPadded before (len x) (x ++ zeros (alignTo4 (before + len x)) ++ rest) = Some (x, rest).
Proof.
  rewrite alignTo4_missing. pose proof (missing_range (before + len x)). pose proof (len_nonneg rest). unfold readPadded.
  rewrite (proj2 (Z.ltb_ge _ _)) by (rewrite !len_app, len_zeros by lia; lia). f_equal. f_equal.
  - apply take_app_length'. unfold len. lia.
  - rewrite app_assoc. apply drop_app_length'. rewrite length_app. pose proof (len_zeros (missing (before + len x)) ltac:(lia)). unfold len in *. lia.
Qed.

Definition fitsEntry (e : entry) : Prop := Forall is_u32 (headerFields e) /\ filesize e = len (data e).

(** The reader up to the data. *)
Lemma readEntry_header e body : Forall is_u32 (headerFields e) ->
  readEntry (newcMagic ++ concat (hex08 <$> headerFields e) ++ name e ++ [0] ++ zeros (alignTo4 (newcHeaderLen + (len (name e) + 1))) ++ body) =
  '(d, s) ← readPadded 0 (filesize e) body; Some (e <| data := d |>, s).
Proof.
  intros Hf. unfold readEntry. rewrite (take_app_length' newcMagic), (drop_app_length' newcMagic) by done.
  rewrite bool_decide_eq_true_2 by done. change 13%nat with (length (headerFields e)). rewrite readFields_hex by done.
  cbn [negb mbind option_bind headerFields]. rewrite app_assoc. replace (len (name e) + 1) with (len (name e ++ [0])) by (by rewrite len_app).
  rewrite readPadded_written. cbn [mbind option_bind]. destruct (readPadded 0 (filesize e) body) as [[d s]|]; [|done]. cbn [mbind option_bind].
  rewrite last_snoc, bool_decide_eq_true_2 by done. cbn [negb]. by rewrite length_app, Nat.add_sub, take_app_length.
Qed.

Lemma entry_roundtrip idx e rest : fitsEntry e -> exists b, writeEntry idx e = Ok b /\ readEntry (b ++ rest) = Some (e, rest).
Proof.
  intros [Hf Hd]. unfold writeEntry. rewrite header_len by done. eexists. split; [done|]. rewrite <- !app_assoc, readEntry_header by done.
  pose proof (readPadded_written 0 (data e) rest) as Hp. rewrite Z.add_0_l in Hp. rewrite Hd, Hp. by destruct e.
Qed.

(** * Archives *)

(** What a file holds; a symbolic link holds its target. *)
Definition contentsOf (f : File) : bytes := if bool_decide (Type_ f = TypeSymlink) then Linkname f else fileBytes f.

Record fitsFile (f : File) : Prop := {
  fits_name : trimPrefix (filePath f) [47] <> [] /\ trimPrefix (filePath f) [47] <> reservedName;
  fits_name_len : len (trimPrefix (filePath f) [47]) + 1 < 2 ^ 32;
  fits_data : len (contentsOf f) < 2 ^ 32;
  fits_dev : is_u32 (DevMajor f) /\ is_u32 (DevMinor f);
  fits_type : forall t, Type_ f <> TypeOther t;
}.

(** The type bits of a file in its mode, as [stat] has them. *)
Definition typeBits (t : FileType) : Z :=
  match t with
  | TypeRegular => 0x8000
  | TypeDirectory => 0x4000
  | TypeCharDevice => 0x2000
  | TypeBlockDevice => 0x6000
  | TypeSymlink => 0xa000
  | TypeOther _ => 0
  end.

(** What the kernel is to find: numbered from one, the permissions with the type, one link, owned by root. *)
Fixpoint entriesOf (i : Z) (files : list File) : list entry :=
  match files with
  | [] => []
  | f :: files =>
      mkEntry i (Z.lor (Z.land (fileMode f) 511) (typeBits (Type_ f))) 0 0 1 0 (len (contentsOf f)) 0 0 (DevMajor f) (DevMinor f)
        (trimPrefix (filePath f) [47]) (contentsOf f) :: entriesOf (u32 (i + 1)) files
  end.

Lemma mode_u32 m t : is_u32 (Z.lor (Z.land m 511) (typeBits t)).
Proof.
  assert (H : 0 <= Z.land m 511 < 2 ^ 9) by (change 511 with (Z.ones 9); rewrite Z.land_ones by lia; apply Z.mod_pos_bound; lia).
  assert (Ht : 0 <= typeBits t /\ Z.log2 (typeBits t) < 32) by (by destruct t).
  split; [apply Z.lor_nonneg; lia|]. destruct (Z.eq_dec (Z.lor (Z.land m 511) (typeBits t)) 0) as [->|Hn]; [done|].
  assert (0 <= Z.lor (Z.land m 511) (typeBits t)) by (apply Z.lor_nonneg; lia).
  apply Z.log2_lt_pow2; [lia|]. rewrite Z.log2_lor by lia. apply Z.max_lub_lt; [|lia].
  destruct (Z.eq_dec (Z.land m 511) 0) as [->|]; [done|]. apply Z.log2_lt_pow2; lia.
Qed.

Lemma encodeMode_bits idx f : (forall t, Type_ f <> TypeOther t) -> encodeMode idx f = Ok (Z.lor (Z.land (fileMode f) 511) (typeBits (Type_ f))).
Proof. intros H. unfold encodeMode. destruct (Type_ f) as [| | | | |t]; try done. by destruct (H t). Qed.

Lemma fileData_contents f : fileData f = contentsOf f.
Proof. unfold fileData, contentsOf. by destruct (Type_ f). Qed.

Lemma files_roundtrip idx i files rest : is_u32 i -> Forall fitsFile files ->
  exists b, buildFiles idx i files = Ok b /\ forall fuel, readNewc (length files + fuel) (b ++ rest) = (fun es => entriesOf i files ++ es) <$> readNewc fuel rest.
Proof.
  revert idx i. induction files as [|f files IH]; intros idx i Hi Hf.
  - exists []. split; [done|]. intros fuel. cbn [length Nat.add app entriesOf]. by destruct (readNewc fuel rest).
  - apply Forall_cons in Hf as [[[Hn1 Hn2] Hnl Hd [Hm1 Hm2] Ht] Hfs]. destruct (IH (idx + 1) (u32 (i + 1))) as (b2 & E2 & R2); [apply wrap_range; lia|done|].
    cbn [buildFiles]. set (nm := trimPrefix (filePath f) [47]) in *. pose proof (len_nonneg nm). pose proof (len_nonneg (contentsOf f)).
    rewrite (proj2 (Z.eqb_neq (len nm) 0)) by (intros E; by apply Hn1, len_0_nil). rewrite encodeMode_bits by done. cbn [mbind result_bind].
    rewrite fileData_contents, (wrap_small 32 (len (contentsOf f))) by (unfold in_width; lia).
    match goal with |- context [writeEntry idx ?e] => destruct (entry_roundtrip idx e (b2 ++ rest)) as (b1 & E1 & R1) end.
    { split; [|done]. unfold headerFields. cbn [ino mode uid gid nlink mtime filesize devmajor devminor rdevmajor rdevminor name data].
      repeat (apply Forall_cons_2; [first [done|apply mode_u32|unfold in_width; lia]|]). done. }
    rewrite E1. cbn [mbind result_bind]. rewrite E2. eexists. split; [done|]. intros fuel. rewrite <- app_assoc. cbn [length Nat.add readNewc].
    rewrite R1. cbn [mbind option_bind name]. rewrite bool_decide_eq_false_2 by done. rewrite R2. cbn [entriesOf]. by destruct (readNewc fuel rest).
Qed.

(** C17: the archive with the initial file system reads back as the files it was built from.  For files with names that are not
    empty and not the reserved name, of known types, with names and contents below 4 GiB and 32-bit device numbers, [Build]
    succeeds, and a reader of the cpio format, for which every name and every contents ends at a multiple of four bytes, finds, in their order, every file with its name, its permissions
    and type, its device numbers and its contents (a symbolic link's target), numbered
    from one, and nothing else. *)
Theorem initramfs_roundtrip files : Forall fitsFile files ->
  exists b, Build files = Ok b /\ readNewc (length files + 1) b = Some (entriesOf 1 files).
Proof.
  intros H. destruct (entry_roundtrip (len files) trailer []) as (t & Et & Rt); [split; [repeat (apply Forall_cons_2; [done|]); done|done]|].
  destruct (files_roundtrip 0 1 files t) as (b & Eb & Rb); [done|done|]. unfold Build. rewrite Eb. cbn [mbind result_bind]. rewrite Et.
  eexists. split; [done|]. rewrite app_nil_r in Rt. rewrite Rb. cbn [readNewc]. rewrite Rt. cbn [mbind option_bind name trailer].
  rewrite bool_decide_eq_true_2 by done. cbn. by rewrite app_nil_r.
Qed.

(** A directory, a program and a link to it. *)
Definition sampleFiles : list File :=
  [mkFile [47; 98] 493 [] [] TypeDirectory 0 0; mkFile [47; 98; 47; 97] 493 [1; 2; 3; 0; 5] [] TypeRegular 0 0; mkFile [105] 511 [] [98; 47; 97] TypeSymlink 0 0].

Lemma initramfs_roundtrip_witness : exists b, Build sampleFiles = Ok b /\ readNewc 4 b = Some (entriesOf 1 sampleFiles).
Proof.
  apply (initramfs_roundtrip sampleFiles). repeat (apply Forall_cons_2; [split; try done; try (split; done); by vm_compute|]). apply Forall_nil_2.
Defined.

(** * What goes wrong *)

(** A file of [2 ^ 32] bytes or more is taken without an error, but the header gives its size modulo [2 ^ 32]: the reader finds
    only the beginning, and takes the rest of it for the next entries. *)
Theorem oversized_file_corrupts f : fitsFile (f <| fileBytes := [] |>) -> Type_ f = TypeRegular -> 2 ^ 32 <= len (fileBytes f) ->
  exists b e rest, Build [f] = Ok b /\ readEntry b = Some (e, rest) /\ len (data e) = len (fileBytes f) mod 2 ^ 32.
Proof.
  intros [[Hn1 Hn2] Hnl _ [Hm1 Hm2] Ht] Et Hbig. cbn [filePath DevMajor DevMinor Type_ set_field] in *.
  destruct (entry_roundtrip 1 trailer []) as (t & Ew & _); [split; [repeat (apply Forall_cons_2; [done|]); done|done]|].
  unfold Build. cbn [buildFiles]. set (nm := trimPrefix (filePath f) [47]) in *. pose proof (len_nonneg nm).
  rewrite (proj2 (Z.eqb_neq (len nm) 0)) by (intros E; by apply Hn1, len_0_nil). rewrite encodeMode_bits by done. cbn [mbind result_bind].
  assert (Ed : fileData f = fileBytes f) by (unfold fileData; by rewrite Et). rewrite Ed.
  set (e := mkEntry _ _ _ _ _ _ _ _ _ _ _ _ _). pose proof (wrap_range 32 (len (fileBytes f)) ltac:(lia)) as Hw.
  assert (Hf : Forall is_u32 (headerFields e)).
  { unfold headerFields, e. cbn [ino mode uid gid nlink mtime filesize devmajor devminor rdevmajor rdevminor name data].
    repeat (apply Forall_cons_2; [first [done|apply mode_u32|unfold in_width; lia]|]). done. }
  assert (Ee : exists b, writeEntry 0 e = Ok b /\ forall rest, readEntry (b ++ rest) = '(d, s) ← readPadded 0 (filesize e) (data e ++ zeros (alignTo4 (len (data e))) ++ rest); Some (e <| data := d |>, s)).
  { unfold writeEntry. rewrite header_len by done. eexists. split; [done|]. intros rest. by rewrite <- !app_assoc, readEntry_header. }
  destruct Ee as (b1 & -> & R1). cbn [mbind result_bind]. change (len [f]) with 1. rewrite Ew. cbn [mbind result_bind].
  eexists _, _, _. split; [done|]. rewrite app_nil_r, R1. unfold readPadded. change (filesize e) with (u32 (len (fileBytes f))). change (data e) with (fileBytes f).
  rewrite alignTo4_missing. pose proof (missing_range (len (fileBytes f))). pose proof (len_nonneg t). pose proof (missing_range (0 + u32 (len (fileBytes f)))).
  assert (u32 (len (fileBytes f)) <= len (fileBytes f) - 2 ^ 32).
  { unfold wrap. rewrite Z.mod_eq by lia. assert (1 <= len (fileBytes f) / 2 ^ 32) by (apply Z.div_le_lower_bound; lia). lia. }
  rewrite (proj2 (Z.ltb_ge _ _)) by (rewrite !len_app, len_zeros by lia; lia). split; [done|].
  cbn [data set_field]. rewrite len_take, !len_app. unfold in_width in Hw. pose proof (len_nonneg (zeros (missing (len (fileBytes f))))). unfold wrap in *. lia.
Qed.
