(* ===== verification/BootAcpi.v ===== *)
(** The ACPI tables of an amd64 guest: [src/internal/core/linux/boot/amd64/acpi.go], with
    [writeAt] and [checksum] of [plan.go].

    The tables lie one after the other, each padded to 16 bytes; a pointer structure in low
    memory leads to the list of tables, and this to the tables.  [acpi_tables_found]: an
    operating system that follows the pointers, checking signatures, lengths and checksums,
    finds exactly the tables that were built. *)

From S2P Require Import Prelude.

Inductive bootError :=
| BelowMemory (gpa : Z)
| OutsideMemory (gpa : Z)
| EmptyMemory | EmptyKernel | ImageTooSmall | NoSignature | HeaderPastEnd | HeaderLength | No64BitEntry | PayloadPastEnd
| NoSpaceForInitrd (top : Z) | NoSpaceForStack | HeaderTooLarge | CmdlineTooLong (n : Z) | NoE820 | TooManyE820 (n : Z).

Abbreviation B := (result bootError).

(** A range whose end exceeds 64 bits passes the check, and then the slice panics. *)
Definition writeAt (memory : bytes) (memStart gpa : Z) (data : bytes) : B bytes :=
  if gpa <? memStart then Err (BelowMemory gpa)
  else
    let off := gpa - memStart in
    let stop := u64 (off + len data) in
    if len memory <? stop then Err (OutsideMemory gpa)
    else if stop <? off then Panic
    else Ok (put memory off data).

Definition checksum (buf : bytes) : Z := u8 (- (foldr Z.add 0 buf)).

Abbreviation acpiRSDPAddress := 0x000e0000%Z.
Abbreviation acpiTableAddress := 0x000e1000%Z.
Abbreviation acpiLocalAPICAddress := 0xfee00000%Z.
Abbreviation acpiIOAPICAddress := 0xfec00000%Z.
Abbreviation acpiHPETAddress := 0xfed00000%Z.

(** The names of the tables, in ASCII. *)
Definition sigFACS : bytes := [70; 65; 67; 83].
Definition sigDSDT : bytes := [68; 83; 68; 84].
Definition sigFACP : bytes := [70; 65; 67; 80].
Definition sigAPIC : bytes := [65; 80; 73; 67].
Definition sigHPET : bytes := [72; 80; 69; 84].
Definition sigXSDT : bytes := [88; 83; 68; 84].
Definition sigRSDP : bytes := [82; 83; 68; 32; 80; 84; 82; 32].
Definition oem : bytes := [67; 67; 75; 86; 77; 32].
(** [CCKVM] and three letters. *)
Definition tableID (l : bytes) : bytes := [67; 67; 75; 86; 77] ++ l.

Definition acpiFixedString (value : bytes) (size : Z) : bytes := copy_into (replicate (Z.to_nat size) 32) value.

Record acpiTableWriter := mkWriter { base : Z; wdata : bytes }.

(** Zeros up to the next multiple of 16. *)
Definition pad16 (d : bytes) : bytes := d ++ zeros (- len d mod 16).

Definition appendRaw (table : bytes) (w : acpiTableWriter) : acpiTableWriter * Z :=
  (mkWriter (base w) (pad16 (wdata w ++ table)), u64 (base w + len (wdata w))).

Definition buildACPITable (signature : bytes) (revision : Z) (id body : bytes) : bytes :=
  let t := zeros (36 + len body) in
  let t := put t 0 (acpiFixedString signature 4) in
  let t := put t 4 (le 4 (len t)) in
  let t := put t 8 [revision] in
  let t := put t 10 (acpiFixedString oem 6) in
  let t := put t 16 (acpiFixedString id 8) in
  let t := put t 24 (le 4 1) in
  let t := put t 28 (acpiFixedString [67; 67; 32; 32] 4) in
  let t := put t 32 (le 4 1) in
  let t := put t 36 body in
  put t 9 [checksum t].

Definition append (signature : bytes) (revision : Z) (id body : bytes) (w : acpiTableWriter) : acpiTableWriter * Z :=
  appendRaw (buildACPITable signature revision id body) w.

Definition buildBootDSDT : bytes := [8; 95; 83; 53; 95; 18; 8; 4; 10; 5; 10; 5; 0; 0].

Definition buildBootXSDT (entries : list Z) : bytes := concat (le 8 <$> entries).

Definition appendMADTInterruptOverride (irq gsi flags : Z) : bytes := [2; 10; 0; irq] ++ le 4 gsi ++ le 2 flags.
Definition appendMADTLocalAPICNMI : bytes := [4; 6; 255] ++ le 2 0 ++ [1].

Definition buildBootMADT (numCPUs : Z) : bytes :=
  le 4 acpiLocalAPICAddress ++ le 4 1 ++
  concat ((fun cpu => [0; 8; u8 cpu; u8 cpu] ++ le 4 1) <$> seqZ 0 (Z.min numCPUs 255)) ++
  [1; 12; 0; 0] ++ le 4 acpiIOAPICAddress ++ le 4 0 ++ appendMADTInterruptOverride 0 2 0 ++ appendMADTLocalAPICNMI.

Definition buildBootHPET : bytes :=
  le 4 (Z.lor (Z.lor (Z.lor 1 (Z.shiftl 2 8)) (Z.shiftl 1 13)) (Z.shiftl 0x8086 16)) ++ [0; 64; 0; 0] ++ le 8 acpiHPETAddress ++
  [0] ++ le 2 0x80 ++ [0].

Definition buildBootFACS : bytes := put (put (put (zeros 64) 0 sigFACS) 4 (le 4 64)) 8 (le 4 1).

Definition buildBootFADT (facs dsdt : Z) : bytes :=
  let b := zeros 240 in
  let b := put b 0 (le 4 (u32 facs)) in
  let b := put b 4 (le 4 (u32 dsdt)) in
  let b := put b 9 [0] in
  let b := put b 10 (le 2 9) in
  let b := put b 20 (le 4 0x400) in
  let b := put b 28 (le 4 0x404) in
  let b := put b 52 [4] in
  let b := put b 53 [2] in
  let b := put b 76 (le 4 1) in
  let b := put b 96 (le 8 facs) in
  put b 104 (le 8 dsdt).

Definition buildBootRSDP (xsdt : Z) : bytes :=
  let r := zeros 36 in
  let r := put r 0 sigRSDP in
  let r := put r 9 oem in
  let r := put r 15 [2] in
  let r := put r 20 (le 4 36) in
  let r := put r 24 (le 8 xsdt) in
  let r := put r 8 [checksum (slice r 0 20)] in
  put r 32 [checksum r].

(** The tables in their order, and the address of the list. *)
Definition bootTables (numCPUs : Z) : acpiTableWriter * Z :=
  let '(w, facs) := appendRaw buildBootFACS (mkWriter acpiTableAddress []) in
  let '(w, dsdt) := append sigDSDT 2 (tableID [68; 83; 68]) buildBootDSDT w in
  let '(w, fadt) := append sigFACP 6 (tableID [70; 65; 68]) (buildBootFADT facs dsdt) w in
  let '(w, madt) := append sigAPIC 3 (tableID [65; 80; 67]) (buildBootMADT numCPUs) w in
  let '(w, hpet) := append sigHPET 1 (tableID [72; 80; 84]) buildBootHPET w in
  append sigXSDT 1 (tableID [88; 83; 68]) (buildBootXSDT [fadt; madt; hpet]) w.

Definition installBootACPI (memory : bytes) (memStart numCPUs : Z) : B (bytes * Z) :=
  let numCPUs := if numCPUs <? 1 then 1 else numCPUs in
  let '(w, xsdt) := bootTables numCPUs in
  memory ← writeAt memory memStart acpiTableAddress (wdata w);
  memory ← writeAt memory memStart acpiRSDPAddress (buildBootRSDP xsdt);
  Ok (memory, acpiRSDPAddress).

(** * An operating system that looks for the tables *)

Definition total (l : bytes) : Z := foldr Z.add 0 l.
Definition sound (l : bytes) : bool := total l mod 256 =? 0.

(** The signature and the body of the table at an address. *)
Definition readTable (memory : bytes) (memStart addr : Z) : option (bytes * bytes) :=
  let off := addr - memStart in
  let n := unle (slice memory (off + 4) (off + 8)) in
  if (off <? 0) || (n <? 36) || (len memory <? off + n) then None
  else
    let t := slice memory off (off + n) in
    if sound t then Some (slice t 0 4, slice t 36 n) else None.

(** The address of the list of tables. *)
Definition readRSDP (memory : bytes) (memStart addr : Z) : option Z :=
  let off := addr - memStart in
  let r := slice memory off (off + 36) in
  if (off <? 0) || negb (len r =? 36) || negb (bool_decide (slice r 0 8 = sigRSDP)) || negb (sound (slice r 0 20)) || negb (sound r) then None
  else Some (unle (slice r 24 32)).

Fixpoint readPointers (fuel : nat) (body : bytes) : list Z :=
  match fuel with
  | O => []
  | S fuel => if len body <? 8 then [] else unle (take 8 body) :: readPointers fuel (drop 8 body)
  end.

Definition findTables (memory : bytes) (memStart addr : Z) : option (list (bytes * bytes)) :=
  x ← readRSDP memory memStart addr;
  '(s, body) ← readTable memory memStart x;
  if bool_decide (s = sigXSDT) then mapM (readTable memory memStart) (readPointers (length body) body) else None.

(** * Checksums *)

Lemma total_bytes_app a b : total (a ++ b) = total a + total b.
Proof. unfold total. induction a as [|x a IH]; cbn [app foldr]; lia. Qed.

(** A zero byte that is replaced by the checksum. *)
Lemma checksum_sound t i : 0 <= i < len t -> slice t i (i + 1) = [0] -> sound (put t i [checksum t]) = true.
Proof.
  intros Hi Hz. assert (E : t = slice t 0 i ++ [0] ++ slice t (i + 1) (len t)).
  { rewrite <- Hz, slice_cat by lia. rewrite slice_cat by lia. by rewrite slice_full. }
  set (pre := slice t 0 i) in *. set (post := slice t (i + 1) (len t)) in *.
  assert (Hp : len pre = i) by (unfold pre; rewrite len_slice; lia).
  assert (Ep : put t i [checksum t] = pre ++ [checksum t] ++ post) by (rewrite E at 1; rewrite <- Hp; by apply put_field).
  rewrite Ep. unfold sound. rewrite !total_bytes_app. apply Z.eqb_eq. unfold checksum. fold (total t). rewrite E at 1. rewrite !total_bytes_app.
  change (total [0]) with 0. unfold total at 2. cbn [foldr]. unfold wrap. change (2 ^ 8) with 256.
  rewrite Z.add_comm, <- Z.add_assoc, Z.add_0_r, Zplus_mod_idemp_l. by replace (- (total pre + (0 + total post)) + (total post + total pre)) with 0 by lia.
Qed.

Lemma slice_put_at {A} (l s : list A) off b : 0 <= off -> off + len s <= len l -> b = off + len s -> slice (put l off s) off b = s.
Proof. intros Ho Hl ->. by apply slice_put_same. Qed.

Lemma len_fixed v n : 0 <= n -> len (acpiFixedString v n) = n.
Proof. intros H. unfold acpiFixedString. rewrite len_copy_into. unfold len. rewrite length_replicate. lia. Qed.

Lemma slice_zeros n a b : 0 <= a <= b -> b <= n -> slice (zeros n) a b = zeros (b - a).
Proof. intros Ha Hb. unfold slice, zeros. rewrite drop_replicate, take_replicate. f_equal. lia. Qed.

(** A slice past the writes that do not touch it. *)
Ltac past := repeat rewrite slice_put_out by (rewrite ?len_fixed by lia; autorewrite with len; lia).

Lemma table_facts sig rev id body : len sig = 4 -> len body < 2 ^ 31 ->
  let t := buildACPITable sig rev id body in
  len t = 36 + len body /\ slice t 0 4 = sig /\ unle (slice t 4 8) = 36 + len body /\ slice t 36 (36 + len body) = body /\ sound t = true.
Proof.
  intros Hs Hb. pose proof (len_nonneg body). cbv zeta. unfold buildACPITable.
  assert (Hz : len (zeros (36 + len body)) = 36 + len body) by (rewrite len_zeros; lia).
  split; [autorewrite with len; lia|]. split; [|split; [|split]].
  - past. rewrite slice_put_at by (rewrite ?len_fixed by lia; autorewrite with len; lia). unfold acpiFixedString. apply copy_into_exact.
    unfold len at 1. rewrite length_replicate. lia.
  - past. rewrite slice_put_at by (autorewrite with len; lia). rewrite unle_le, len_put, Hz. apply wrap_small. unfold in_width. cbn. lia.
  - past. rewrite slice_put_at by (autorewrite with len; lia). done.
  - apply checksum_sound; [autorewrite with len; lia|]. past. rewrite slice_zeros by lia. done.
Qed.

Lemma slice_put_in {A} (l s : list A) off n : 0 <= off -> off + len s <= n -> n <= len l -> slice (put l off s) 0 n = put (slice l 0 n) off s.
Proof. intros. list_ext. Qed.

Lemma rsdp_facts x : 0 <= x < 2 ^ 64 ->
  let r := buildBootRSDP x in
  len r = 36 /\ slice r 0 8 = sigRSDP /\ sound (slice r 0 20) = true /\ sound r = true /\ unle (slice r 24 32) = x.
Proof.
  intros Hx. cbv zeta. unfold buildBootRSDP. assert (Hz : len (zeros 36) = 36) by done.
  assert (Hs : len sigRSDP = 8) by done. assert (Ho : len oem = 6) by done.
  split; [autorewrite with len; lia|]. split; [|split; [|split]].
  - past. by rewrite slice_put_at by (autorewrite with len; lia).
  - rewrite slice_put_out by (autorewrite with len; lia). rewrite slice_put_in by (autorewrite with len; lia). apply checksum_sound.
    + rewrite len_slice by (autorewrite with len; lia). lia.
    + rewrite slice_slice by lia. past. by rewrite slice_zeros by lia.
  - apply checksum_sound; [autorewrite with len; lia|]. past. by rewrite slice_zeros by lia.
  - past. rewrite slice_put_at by (autorewrite with len; lia). rewrite unle_le. by apply wrap_small.
Qed.

(** * Where the tables are *)

(** What [writeAt] has done when it succeeds. *)
Lemma writeAt_ok memory memStart gpa data memory' : 0 <= memStart -> gpa + len data < 2 ^ 64 -> writeAt memory memStart gpa data = Ok memory' ->
  memStart <= gpa /\ gpa - memStart + len data <= len memory /\ memory' = put memory (gpa - memStart) data.
Proof.
  intros H0 Hl. unfold writeAt. pose proof (len_nonneg data). destruct (Z.ltb_spec gpa memStart); [done|].
  rewrite wrap_small by (unfold in_width; lia). destruct (Z.ltb_spec (len memory) (gpa - memStart + len data)); [done|].
  rewrite (proj2 (Z.ltb_ge _ _)) by lia. intros [= <-]. done.
Qed.

(** [D] is in memory at the address [T]. *)
Definition holds (memory : bytes) (memStart T : Z) (D : bytes) : Prop :=
  memStart <= T /\ T - memStart + len D <= len memory /\ slice memory (T - memStart) (T - memStart + len D) = D.

Lemma holds_part memory memStart T pre d post : holds memory memStart T (pre ++ d ++ post) -> holds memory memStart (T + len pre) d.
Proof.
  intros (H1 & H2 & H3). pose proof (len_nonneg pre). pose proof (len_nonneg d). pose proof (len_nonneg post). rewrite !len_app in *.
  split; [lia|]. split; [lia|]. replace (T + len pre - memStart) with (T - memStart + len pre) by lia.
  replace (T - memStart + len pre + len d) with (T - memStart + (len pre + len d)) by lia.
  rewrite <- (slice_slice memory (T - memStart) (T - memStart + (len pre + (len d + len post)))) by lia. rewrite H3. by apply slice_mid.
Qed.

Lemma holds_slice memory memStart T D a b : holds memory memStart T D -> 0 <= a -> b <= len D ->
  slice memory (T - memStart + a) (T - memStart + b) = slice D a b.
Proof. intros (H1 & H2 & H3) Ha Hb. transitivity (slice (slice memory (T - memStart) (T - memStart + len D)) a b); [by rewrite slice_slice by lia|by rewrite H3]. Qed.

Lemma readTable_holds memory memStart T sig rev id body : len sig = 4 -> len body < 2 ^ 31 ->
  holds memory memStart T (buildACPITable sig rev id body) -> readTable memory memStart T = Some (sig, body).
Proof.
  intros Hs Hb H. destruct (table_facts sig rev id body Hs Hb) as (F1 & F2 & F3 & F4 & F5). pose proof (len_nonneg body).
  set (t := buildACPITable _ _ _ _) in *. unfold readTable. rewrite (holds_slice _ _ _ _ _ _ H) by lia. rewrite F3.
  pose proof H as (H1 & H2 & H3). rewrite F1 in *. rewrite (proj2 (Z.ltb_ge (T - memStart) 0)), (proj2 (Z.ltb_ge _ 36)), (proj2 (Z.ltb_ge (len memory) _)) by lia.
  cbn [orb]. rewrite H3, F5, F2, F4. done.
Qed.

Lemma readRSDP_holds memory memStart T x : 0 <= x < 2 ^ 64 -> holds memory memStart T (buildBootRSDP x) -> readRSDP memory memStart T = Some x.
Proof.
  intros Hx H. destruct (rsdp_facts x Hx) as (F1 & F2 & F3 & F4 & F5). set (r := buildBootRSDP x) in *. destruct H as (H1 & H2 & H3). rewrite F1 in *.
  unfold readRSDP. rewrite H3, F1, F2, F3, F4, F5. rewrite (proj2 (Z.ltb_ge (T - memStart) 0)) by lia. rewrite bool_decide_eq_true_2 by done. done.
Qed.

Lemma readPointers_list ps n : Forall (fun p => 0 <= p < 2 ^ 64) ps -> (length ps <= n)%nat -> readPointers n (buildBootXSDT ps) = ps.
Proof.
  intros H. revert n. unfold buildBootXSDT. induction H as [|p ps Hp Hps IH]; intros n Hn; [by destruct n|]. destruct n as [|n]; [cbn in Hn; lia|].
  cbn [fmap list_fmap concat readPointers]. rewrite (proj2 (Z.ltb_ge _ 8)) by (rewrite len_app, len_le; pose proof (len_nonneg (concat (le 8 <$> ps))); lia).
  rewrite take_app_length', drop_app_length' by (by rewrite length_le). rewrite unle_le, wrap_small by done. f_equal. apply IH. cbn in Hn. lia.
Qed.

(** A table goes behind those before it, at the address that is returned. *)
Lemma appendRaw_spec t w : len (wdata w) + base w < 2 ^ 64 -> 0 <= base w -> exists z,
  appendRaw t w = (mkWriter (base w) (wdata w ++ t ++ z), base w + len (wdata w)) /\ len z < 16.
Proof.
  intros H Hb. pose proof (len_nonneg (wdata w)). exists (zeros (- len (wdata w ++ t) mod 16)).
  pose proof (Z.mod_pos_bound (- len (wdata w ++ t)) 16 ltac:(lia)). unfold appendRaw, pad16. rewrite wrap_small by (unfold in_width; lia).
  rewrite <- app_assoc. split; [done|]. rewrite len_zeros; lia.
Qed.

Lemma len_MADT n : 0 <= n -> len (buildBootMADT n) <= 36 + 8 * 255.
Proof.
  intros Hn. unfold buildBootMADT, appendMADTInterruptOverride, appendMADTLocalAPICNMI.
  assert (H : forall l, len (concat ((fun cpu => [0; 8; u8 cpu; u8 cpu] ++ le 4 1) <$> l)) = 8 * len l).
  { induction l as [|c l IH]; [done|]. cbn [fmap list_fmap concat]. rewrite len_app, IH. autorewrite with len. lia. }
  rewrite !len_app, H. autorewrite with len. unfold len. rewrite length_seqZ. lia.
Qed.

(** The area of the tables: every table lies behind the address that was returned for it. *)
Record laidOut (n : Z) (D : bytes) (facs dsdt fadt madt hpet xsdt : Z) : Prop := {
  laid_len : len D < 0x2000;
  laid_parts : forall memory memStart, holds memory memStart acpiTableAddress D ->
    holds memory memStart facs buildBootFACS /\
    holds memory memStart dsdt (buildACPITable sigDSDT 2 (tableID [68; 83; 68]) buildBootDSDT) /\
    holds memory memStart fadt (buildACPITable sigFACP 6 (tableID [70; 65; 68]) (buildBootFADT facs dsdt)) /\
    holds memory memStart madt (buildACPITable sigAPIC 3 (tableID [65; 80; 67]) (buildBootMADT n)) /\
    holds memory memStart hpet (buildACPITable sigHPET 1 (tableID [72; 80; 84]) buildBootHPET) /\
    holds memory memStart xsdt (buildACPITable sigXSDT 1 (tableID [88; 83; 68]) (buildBootXSDT [fadt; madt; hpet]));
  laid_range : Forall (fun a => 0 <= a < 2 ^ 64) [facs; dsdt; fadt; madt; hpet; xsdt];
}.

Lemma bootTables_laidOut n : 0 <= n -> exists w facs dsdt fadt madt hpet xsdt, bootTables n = (w, xsdt) /\ laidOut n (wdata w) facs dsdt fadt madt hpet xsdt.
Proof.
  intros Hn. unfold bootTables, append. pose proof (len_MADT n Hn) as Hm.
  assert (Ht : forall s r i b, len (buildACPITable s r i b) = 36 + len b).
  { intros. unfold buildACPITable. autorewrite with len. pose proof (len_nonneg b). rewrite len_zeros; lia. }
  assert (L0 : len buildBootFACS = 64) by done. assert (L1 : len buildBootDSDT = 14) by done. assert (L4 : len buildBootHPET = 20) by done.
  assert (L2 : forall a b, len (buildBootFADT a b) = 240) by (intros; unfold buildBootFADT; autorewrite with len; done).
  destruct (appendRaw_spec buildBootFACS (mkWriter acpiTableAddress [])) as (z0 & -> & Z0); [done..|]. cbn [base wdata app].
  set (d0 := buildBootFACS ++ z0). assert (D0 : len d0 < 80) by (unfold d0; rewrite len_app; lia).
  match goal with |- context [appendRaw ?t ?w] => destruct (appendRaw_spec t w) as (z1 & -> & Z1) end; cbn [base wdata]; [lia..|].
  set (t1 := buildACPITable sigDSDT _ _ _). set (d1 := d0 ++ t1 ++ z1). assert (D1 : len d1 < 160) by (unfold d1, t1; rewrite !len_app, Ht; lia).
  match goal with |- context [appendRaw ?t ?w] => destruct (appendRaw_spec t w) as (z2 & -> & Z2) end; cbn [base wdata]; [lia..|].
  set (t2 := buildACPITable sigFACP _ _ _). set (d2 := d1 ++ t2 ++ z2). assert (D2 : len d2 < 460) by (unfold d2, t2; rewrite !len_app, Ht, L2; lia).
  match goal with |- context [appendRaw ?t ?w] => destruct (appendRaw_spec t w) as (z3 & -> & Z3) end; cbn [base wdata]; [lia..|].
  set (t3 := buildACPITable sigAPIC _ _ _). set (d3 := d2 ++ t3 ++ z3). assert (D3 : len d3 < 3000) by (unfold d3, t3; rewrite !len_app, Ht; lia).
  match goal with |- context [appendRaw ?t ?w] => destruct (appendRaw_spec t w) as (z4 & -> & Z4) end; cbn [base wdata]; [lia..|].
  set (t4 := buildACPITable sigHPET _ _ _). set (d4 := d3 ++ t4 ++ z4). assert (D4 : len d4 < 3100) by (unfold d4, t4; rewrite !len_app, Ht; lia).
  match goal with |- context [appendRaw ?t ?w] => destruct (appendRaw_spec t w) as (z5 & -> & Z5) end; cbn [base wdata]; [lia..|].
  set (t5 := buildACPITable sigXSDT _ _ _). pose proof (len_nonneg d0). pose proof (len_nonneg d1). pose proof (len_nonneg d2). pose proof (len_nonneg d3). pose proof (len_nonneg d4).
  eexists _, acpiTableAddress, (acpiTableAddress + len d0), (acpiTableAddress + len d1), (acpiTableAddress + len d2), (acpiTableAddress + len d3), _.
  split; [done|]. split; [cbn [wdata]; rewrite !len_app; unfold t5; rewrite Ht; unfold buildBootXSDT; cbn [fmap list_fmap concat]; autorewrite with len; lia| |
    repeat (apply Forall_cons; split; [lia|]); apply Forall_nil_2].
  intros memory memStart Hold. cbn [wdata] in Hold. split; [|split; [|split; [|split; [|split]]]].
  - apply (holds_part memory memStart acpiTableAddress [] buildBootFACS (z0 ++ (t1 ++ z1) ++ (t2 ++ z2) ++ (t3 ++ z3) ++ (t4 ++ z4) ++ t5 ++ z5)).
    cbn [app]. revert Hold. unfold d4, d3, d2, d1, d0. by rewrite <- !app_assoc.
  - apply (holds_part _ _ _ d0 t1 (z1 ++ (t2 ++ z2) ++ (t3 ++ z3) ++ (t4 ++ z4) ++ t5 ++ z5)). revert Hold. unfold d4, d3, d2, d1. by rewrite <- !app_assoc.
  - apply (holds_part _ _ _ d1 t2 (z2 ++ (t3 ++ z3) ++ (t4 ++ z4) ++ t5 ++ z5)). revert Hold. unfold d4, d3, d2. by rewrite <- !app_assoc.
  - apply (holds_part _ _ _ d2 t3 (z3 ++ (t4 ++ z4) ++ t5 ++ z5)). revert Hold. unfold d4, d3. by rewrite <- !app_assoc.
  - apply (holds_part _ _ _ d3 t4 (z4 ++ t5 ++ z5)). revert Hold. unfold d4. by rewrite <- !app_assoc.
  - by apply (holds_part _ _ _ d4 t5 z5).
Qed.

(** Following the pointers, where the tables and the pointer structure are in memory. *)
Lemma found_when_held n D facs dsdt fadt madt hpet xsdt memory memStart : 0 <= n -> laidOut n D facs dsdt fadt madt hpet xsdt ->
  holds memory memStart acpiTableAddress D -> holds memory memStart acpiRSDPAddress (buildBootRSDP xsdt) ->
  findTables memory memStart acpiRSDPAddress = Some [(sigFACP, buildBootFADT facs dsdt); (sigAPIC, buildBootMADT n); (sigHPET, buildBootHPET)] /\
  readTable memory memStart dsdt = Some (sigDSDT, buildBootDSDT) /\ holds memory memStart facs buildBootFACS.
Proof.
  intros Hn [L1 L2 L3] Hd Hr. rewrite !Forall_cons in L3. destruct L3 as (R1 & R2 & R3 & R4 & R5 & R6 & _).
  destruct (L2 _ _ Hd) as (P1 & P2 & P3 & P4 & P5 & P6). pose proof (len_MADT n ltac:(lia)).
  assert (Q : forall T sig rev id body, holds memory memStart T (buildACPITable sig rev id body) -> len sig = 4 -> len body < 2 ^ 31 ->
    readTable memory memStart T = Some (sig, body)) by (intros; by eapply readTable_holds).
  split; [|split; [by eapply Q|done]]. unfold findTables. rewrite (readRSDP_holds _ _ _ _ R6 Hr). cbn [mbind option_bind].
  rewrite (Q _ _ _ _ _ P6) by done. cbn [mbind option_bind]. rewrite bool_decide_eq_true_2 by done.
  rewrite readPointers_list; [|by rewrite !Forall_cons|unfold buildBootXSDT; cbn [fmap list_fmap concat]; rewrite !length_app, !length_le; cbn; lia].
  cbn [mapM]. rewrite (Q _ _ _ _ _ P3) by done. rewrite (Q _ _ _ _ _ P4) by (done || lia). by rewrite (Q _ _ _ _ _ P5).
Qed.

(** The ranges of writes. *)
Lemma holds_put memory memStart T D : memStart <= T -> T - memStart + len D <= len memory -> holds (put memory (T - memStart) D) memStart T D.
Proof. intros H1 H2. split; [done|]. rewrite len_put. split; [done|]. apply slice_put_same; lia. Qed.

Lemma holds_put_out memory memStart T D off d : holds memory memStart T D -> 0 <= off ->
  off + len d <= T - memStart \/ T - memStart + len D <= off -> holds (put memory off d) memStart T D.
Proof. intros (H1 & H2 & H3) Ho Hd. split; [done|]. rewrite len_put. split; [done|]. rewrite slice_put_out by lia. done. Qed.

(** The guest finds its ACPI tables.  When the tables have been installed, an operating system that starts from the address
    returned, and checks every signature, length and checksum on the way, finds the list of
    tables and through it exactly the table of fixed hardware, the one with an interrupt
    controller for every processor (at most 255) and the timer's, with the bodies that were
    built; and the two tables the first one points to are there, too. *)
Theorem acpi_tables_found memory memStart n memory' a : 0 <= memStart -> 1 <= n -> installBootACPI memory memStart n = Ok (memory', a) ->
  exists facs dsdt,
    findTables memory' memStart a = Some [(sigFACP, buildBootFADT facs dsdt); (sigAPIC, buildBootMADT n); (sigHPET, buildBootHPET)] /\
    readTable memory' memStart dsdt = Some (sigDSDT, buildBootDSDT) /\ holds memory' memStart facs buildBootFACS.
Proof.
  intros H0 Hn. unfold installBootACPI. rewrite (proj2 (Z.ltb_ge n 1)) by lia.
  destruct (bootTables_laidOut n ltac:(lia)) as (w & facs & dsdt & fadt & madt & hpet & xsdt & -> & L). pose proof L as [L1 _ L3].
  rewrite !Forall_cons in L3. destruct L3 as (_ & _ & _ & _ & _ & R6 & _). destruct (rsdp_facts xsdt R6) as (E36 & _).
  destruct (writeAt memory memStart acpiTableAddress (wdata w)) as [m1| |] eqn:W1; [|done|done]. cbn [mbind result_bind].
  destruct (writeAt m1 memStart acpiRSDPAddress (buildBootRSDP xsdt)) as [m2| |] eqn:W2; [|done|done]. cbn [mbind result_bind]. intros [= <- <-].
  apply writeAt_ok in W1 as (A1 & A2 & ->); [|done|lia]. apply writeAt_ok in W2 as (B1 & B2 & ->); [|done|rewrite E36; lia]. rewrite len_put in B2.
  exists facs, dsdt. apply (found_when_held n (wdata w) facs dsdt fadt madt hpet xsdt); [lia|done| |].
  - apply holds_put_out; [by apply holds_put|lia|left; lia].
  - apply holds_put; [done|by rewrite len_put].
Qed.

(** The memory from the pointer structure to the end of the tables, for two processors. *)
Definition sampleInstalled : B (bytes * Z) := installBootACPI (zeros 0x1280) acpiRSDPAddress 2.

Lemma acpi_tables_found_witness : exists memory' a facs dsdt, sampleInstalled = Ok (memory', a) /\
  findTables memory' acpiRSDPAddress a = Some [(sigFACP, buildBootFADT facs dsdt); (sigAPIC, buildBootMADT 2); (sigHPET, buildBootHPET)].
Proof.
  assert (H : match sampleInstalled with Ok _ => true | _ => false end = true) by (vm_compute; reflexivity).
  destruct sampleInstalled as [[memory' a]| |] eqn:E; [|discriminate H|discriminate H]. unfold sampleInstalled in E.
  destruct (acpi_tables_found (zeros 0x1280) acpiRSDPAddress 2 memory' a) as (facs & dsdt & F & _); [lia|lia|exact E|].
  exists memory', a, facs, dsdt. split; [reflexivity|exact F].
Defined.
