(* ===== verification/ArmImage.v ===== *)
(** Kernel images for arm64: [src/internal/core/linux/boot/arm64/image.go].

    A kernel file is an image with its header, or has a gzip member with one inside;
    [ProbeKernelImage] finds out which and [ExtractImage] returns the image, with a cache of
    the last four images that were decompressed.  [cache_transparent]: the cache changes no
    result as long as the hash function does not confuse the payloads it has seen.

    Decompression and the hash are arguments.  [gunzip] is the first member of a compressed
    stream: nothing if the stream does not start with a gzip header, otherwise the bytes the
    reader delivers and whether it then reports the end of the member and not an error. *)

From stdpp Require Import gmap.
From S2P Require Import Prelude.

Abbreviation imageHeaderSizeBytes := 64%Z.
Abbreviation ImageLoadAlignment := 0x200000%Z.
Abbreviation arm64ImageMagic := 0x644d5241%Z.
Abbreviation maxGzipScanBytes := 0x100000%Z.
Abbreviation maxCachedImages := 4%Z.

Record KernelHeader := mkHeader {
  Code0 : Z;
  Code1 : Z;
  TextOffset : Z;
  ImageSize : Z;
  Flags : Z;
  Res2 : Z;
  Res3 : Z;
  Res4 : Z;
  Magic : Z;
  Res5 : Z;
}.

Record ImageProbe := mkProbe { probeHeader : KernelHeader; NeedsDecompression : bool; CompressedOffset : Z }.

Inductive imageError :=
| BaseNotAligned (base : Z)
| SizeNotPositive
| HeaderTruncated
| BadMagic (m : Z)
| EndOfImage
| GzipNotFound
| HeaderNotFound (raw : imageError)
| OpenGzip
| ReadGzipHeader
| BadPayloadOffset (off : Z)
| UnexpectedEnd
| Decompress.

Definition imageCacheKey : Type := Z * Z * bytes.

Record imageCache := mkCache { entries : gmap imageCacheKey bytes; order : list imageCacheKey }.

(** * The header *)

Definition EntryPoint (h : KernelHeader) (base : Z) : result imageError Z :=
  if negb (Z.land base (ImageLoadAlignment - 1) =? 0) then Err (BaseNotAligned base) else Ok (u64 (base + TextOffset h)).

Definition parseKernelHeader (header : bytes) : result imageError KernelHeader :=
  if len header <? imageHeaderSizeBytes then Err HeaderTruncated
  else
    let f a b := unle (slice header a b) in
    let h := mkHeader (f 0 4) (f 4 8) (f 8 16) (f 16 24) (f 24 32) (f 32 40) (f 40 48) (f 48 56) (f 56 60) (f 60 64) in
    if negb (Magic h =? arm64ImageMagic) then Err (BadMagic (Magic h)) else Ok h.

(** [ReadAt] of a [bytes.Reader] into [n] bytes at an offset that is not negative: what is read, and whether the end of the data
    was reached before the buffer was full. *)
Definition ReadAt (file : bytes) (n off : Z) : bytes * bool :=
  let b := slice file off (off + n) in (b, (len file <=? off) || (len b <? n)).

Definition readKernelHeaderAt (file : bytes) (offset : Z) : result imageError KernelHeader :=
  let '(buf, eof) := ReadAt file imageHeaderSizeBytes offset in
  if eof then Err EndOfImage else parseKernelHeader buf.

(** [bytes.Index] of the two bytes that start a gzip member. *)
Fixpoint gzipIndex (i : Z) (buf : bytes) : option Z :=
  match buf with
  | a :: ((b :: _) as buf) => if (a =? 0x1f) && (b =? 0x8b) then Some i else gzipIndex (i + 1) buf
  | _ => None
  end.

Definition findGzipPayload (file : bytes) (size : Z) : result imageError Z :=
  let scan := if maxGzipScanBytes <? size then maxGzipScanBytes else size in
  let '(buf, _) := ReadAt file scan 0 in
  match gzipIndex 0 buf with Some idx => Ok idx | None => Err GzipNotFound end.

Definition readCompressedPayload (file : bytes) (offset size : Z) : result imageError bytes :=
  if (offset <? 0) || (size <? offset) then Err (BadPayloadOffset offset)
  else
    let '(data, _) := ReadAt file (size - offset) offset in
    if negb (len data =? size - offset) then Err UnexpectedEnd else Ok data.

(** * The cache *)

Definition cachedExtractedImage (key : imageCacheKey) (c : imageCache) : option bytes := entries c !! key.

Definition storeExtractedImage (key : imageCacheKey) (data : bytes) (c : imageCache) : imageCache :=
  match entries c !! key with
  | Some _ => c
  | None =>
      let c :=
        if maxCachedImages <=? len (order c) then
          match order c with
          | evict :: rest => mkCache (delete evict (entries c)) rest
          | [] => c
          end
        else c in
      mkCache (<[key := data]> (entries c)) (order c ++ [key])
  end.

Section image.
Context (gunzip : bytes -> option (bytes * bool)) (sha256 : bytes -> bytes).

(** * Probing and extraction *)

Definition readGzipKernelHeader (file : bytes) (offset size : Z) : result imageError KernelHeader :=
  match gunzip (slice file offset size) with
  | None => Err OpenGzip
  | Some (data, _) => if len data <? imageHeaderSizeBytes then Err ReadGzipHeader else parseKernelHeader (slice data 0 imageHeaderSizeBytes)
  end.

Definition ProbeKernelImage (file : bytes) (size : Z) : result imageError ImageProbe :=
  if size <=? 0 then Err SizeNotPositive
  else
    match readKernelHeaderAt file 0 with
    | Ok header => Ok (mkProbe header false 0)
    | Panic => Panic
    | Err rawErr =>
        match findGzipPayload file size with
        | Ok offset => header ← readGzipKernelHeader file offset size; Ok (mkProbe header true offset)
        | _ => Err (HeaderNotFound rawErr)
        end
    end.

Definition payloadKey (offset : Z) (compressed : bytes) : imageCacheKey := (offset, len compressed, sha256 compressed).

Definition ExtractImage (p : ImageProbe) (file : bytes) (size : Z) (c : imageCache) : imageCache * result imageError bytes :=
  if negb (NeedsDecompression p) then
    let '(data, eof) := ReadAt file size 0 in (c, if eof then Err EndOfImage else Ok data)
  else
    match readCompressedPayload file (CompressedOffset p) size with
    | Err e => (c, Err e)
    | Panic => (c, Panic)
    | Ok compressed =>
        let key := payloadKey (CompressedOffset p) compressed in
        match cachedExtractedImage key c with
        | Some data => (c, Ok data)
        | None =>
            match gunzip compressed with
            | None => (c, Err OpenGzip)
            | Some (_, false) => (c, Err Decompress)
            | Some (data, true) => (storeExtractedImage key data c, Ok data)
            end
        end
    end.

(** * The cache changes no result *)

(** The caches that extractions leave, in any order of their lookups and stores, with the payloads they decompressed. *)
Inductive extracted : imageCache -> list bytes -> Prop :=
| extracted_none : extracted (mkCache ∅ []) []
| extracted_store c ps offset p data : extracted c ps -> gunzip p = Some (data, true) ->
    extracted (storeExtractedImage (payloadKey offset p) data c) (p :: ps).

(** The order lists the keys of the entries, at most four, and an entry is what its payload decompresses to. *)
Record cacheOK (c : imageCache) (ps : list bytes) : Prop := {
  ok_bound : len (order c) <= maxCachedImages;
  ok_nodup : NoDup (order c);
  ok_keys : forall k, k ∈ order c <-> is_Some (entries c !! k);
  ok_entries : forall k data, entries c !! k = Some data ->
    exists offset p, p ∈ ps /\ k = payloadKey offset p /\ gunzip p = Some (data, true);
}.

(** Dropping the oldest key makes room. *)
Lemma cacheOK_evict c ps k rest : cacheOK c ps -> order c = k :: rest -> cacheOK (mkCache (delete k (entries c)) rest) ps.
Proof.
  intros [H1 H2 H3 H4] E. rewrite E in *. rewrite len_cons in H1. apply NoDup_cons in H2 as [Hk H2]. split; cbn; [lia|done| |].
  - intros k'. destruct (decide (k' = k)) as [->|Hn].
    + rewrite lookup_delete_eq. split; [done|]. by intros [? [=]].
    + rewrite lookup_delete_ne by done. rewrite <- H3, elem_of_cons. naive_solver.
  - intros k' data [_ H]%lookup_delete_Some. by apply H4.
Qed.

Lemma cacheOK_insert c ps offset p data : cacheOK c ps -> len (order c) < maxCachedImages -> gunzip p = Some (data, true) ->
  entries c !! payloadKey offset p = None ->
  cacheOK (mkCache (<[payloadKey offset p := data]> (entries c)) (order c ++ [payloadKey offset p])) (p :: ps).
Proof.
  intros [H1 H2 H3 H4] Hl Hg Hn. set (k := payloadKey offset p) in *. split; cbn.
  - rewrite len_app, len_cons, len_nil. lia.
  - apply NoDup_app. split; [done|]. split; [|apply NoDup_singleton]. intros k' Hk' ->%list_elem_of_singleton. apply H3 in Hk' as [? ?]. congruence.
  - intros k'. rewrite elem_of_app, list_elem_of_singleton, lookup_insert_is_Some, H3. destruct (decide (k = k')) as [->|]; naive_solver.
  - intros k' d [[<- <-]|[_ H]]%lookup_insert_Some; [exists offset, p; split; [left|done]|].
    apply H4 in H as (o & q & Hq & -> & Hd). exists o, q. split; [by right|done].
Qed.

Lemma cacheOK_more c ps p : cacheOK c ps -> cacheOK c (p :: ps).
Proof. intros [H1 H2 H3 H4]. split; [done..|]. intros k data H. apply H4 in H as (o & q & Hq & H). exists o, q. split; [by right|done]. Qed.

Lemma extracted_cacheOK c ps : extracted c ps -> cacheOK c ps.
Proof.
  induction 1 as [|c ps offset p data _ IH Hg].
  - split; cbn [order entries]; [rewrite len_nil; lia|apply NoDup_nil_2| |].
    + intros k. rewrite lookup_empty. split; [by intros ?%elem_of_nil|by intros [? [=]]].
    + intros k data. by rewrite lookup_empty.
  - unfold storeExtractedImage. destruct (entries c !! _) eqn:E; [by apply cacheOK_more|].
    destruct (Z.leb_spec maxCachedImages (len (order c))) as [Hf|Hf]; [|by apply cacheOK_insert].
    destruct (order c) as [|k rest] eqn:Eo; [rewrite len_nil in Hf; lia|]. apply cacheOK_insert; [by apply cacheOK_evict| |done|].
    + destruct IH as [H1 _ _ _]. rewrite Eo, len_cons in H1. cbn [order]. lia.
    + cbn [entries]. apply lookup_delete_None. by right.
Qed.

(** Extraction through the cache returns what it returns without one, errors included, in every state the extractions
    before it may have left the cache in, as long as the hash distinguishes the payload from those before it.  The cache
    never holds more than four images, and stays such a state. *)
Theorem cache_transparent c ps p file size : extracted c ps ->
  (forall payload q, readCompressedPayload file (CompressedOffset p) size = Ok payload -> q ∈ ps ->
     len q = len payload -> sha256 q = sha256 payload -> q = payload) ->
  let '(c', image) := ExtractImage p file size c in
  image = (ExtractImage p file size (mkCache ∅ [])).2 /\ len (order c') <= maxCachedImages /\
  exists ps', extracted c' ps' /\ ps `suffix_of` ps'.
Proof.
  intros He Hh. assert (Same : len (order c) <= maxCachedImages /\ exists ps', extracted c ps' /\ ps `suffix_of` ps').
  { split; [exact (ok_bound _ _ (extracted_cacheOK _ _ He))|by exists ps]. }
  unfold ExtractImage. destruct (NeedsDecompression p); cbn [negb]; [|by destruct (ReadAt file size 0)].
  destruct (readCompressedPayload file (CompressedOffset p) size) as [payload|e|] eqn:Ep; [|done|done].
  unfold cachedExtractedImage at 2. cbn [entries]. rewrite lookup_empty. unfold cachedExtractedImage.
  destruct (entries c !! _) as [data|] eqn:Ec.
  - apply (ok_entries _ _ (extracted_cacheOK _ _ He)) in Ec as (o & q & Hq & [= <- Hl Hs] & Hg).
    rewrite (Hh payload q eq_refl Hq (eq_sym Hl) (eq_sym Hs)) in Hg. by rewrite Hg.
  - destruct (gunzip payload) as [[data [|]]|] eqn:Eg; [|done|done]. split; [done|].
    assert (Hn : extracted (storeExtractedImage (payloadKey (CompressedOffset p) payload) data c) (payload :: ps)) by by constructor.
    split; [exact (ok_bound _ _ (extracted_cacheOK _ _ Hn))|]. exists (payload :: ps). split; [done|]. by exists [payload].
Qed.
End image.

(** A compression that only adds the mark of gzip, and a hash of one byte; an image that has been extracted is extracted again. *)
Definition storedGzip (s : bytes) : option (bytes * bool) :=
  match s with 0x1f :: 0x8b :: data => Some (data, true) | _ => None end.
Definition byteSum (s : bytes) : bytes := [u8 (foldr Z.add 0 s)].
Definition sampleFile : bytes := [77; 90; 0x1f; 0x8b; 5; 6; 7].
Definition sampleProbe : ImageProbe := mkProbe (mkHeader 0 0 0 0 0 0 0 0 0 0) true 2.
Definition sampleCache : imageCache := (ExtractImage storedGzip byteSum sampleProbe sampleFile 7 (mkCache ∅ [])).1.

Lemma cache_transparent_witness : len (order sampleCache) = 1 /\
  let '(c', image) := ExtractImage storedGzip byteSum sampleProbe sampleFile 7 sampleCache in
  image = (ExtractImage storedGzip byteSum sampleProbe sampleFile 7 (mkCache ∅ [])).2 /\ len (order c') <= maxCachedImages /\
  exists ps', extracted storedGzip byteSum c' ps' /\ [[0x1f; 0x8b; 5; 6; 7]] `suffix_of` ps'.
Proof.
  split; [vm_compute; reflexivity|]. apply (cache_transparent storedGzip byteSum sampleCache [[0x1f; 0x8b; 5; 6; 7]] sampleProbe sampleFile 7).
  - exact (extracted_store storedGzip byteSum (mkCache ∅ []) [] 2 [0x1f; 0x8b; 5; 6; 7] [5; 6; 7] (extracted_none storedGzip byteSum) eq_refl).
  - intros payload q E Hq _ _. apply list_elem_of_singleton in Hq as ->. vm_compute in E. by injection E.
Defined.
