(* ===== verification/ArmBoot.v ===== *)
(** Booting Linux on arm64: [src/internal/core/linux/boot/arm64/plan.go].

    [PrepareBoot] finds the kernel in its file, puts it at the first aligned address of
    guest memory, the initial file system behind it and behind this the device tree, which
    tells the kernel about everything else.  [arm_boot_memory]: the parts are in memory and
    keep off each other and the stack, and the device tree in memory reads back with the
    memory, the processors, the command line and the place of the initial file system.

    The callback that records durations is left out. *)

From Stdlib Require Import String Ascii.
From stdpp Require Import gmap.
From S2P Require Import Prelude Initramfs Fdt BootAcpi ArmImage.

#[local] Open Scope string_scope.
#[local] Open Scope list_scope.
#[local] Open Scope Z_scope.

(** The bytes of a string of the source. *)
Definition str (s : string) : bytes := (fun a => Z.of_N (N_of_ascii a)) <$> list_ascii_of_string s.

(** * Options *)

Inductive gicVersion := GICVersionDefault | GICVersionV2 | GICVersionV3.

Record InterruptSpec := mkInterrupt { irqType : Z; irqNum : Z; irqFlags : Z }.

Record UARTConfig := mkUART {
  uartBase : Z;
  uartSize : Z;
  ClockHz : Z;
  RegShift : Z;
  BaudRate : Z;
  Interrupt : InterruptSpec;
}.

Record BootOptions := mkOptions {
  MemoryBase : Z;
  MemorySize : Z;
  Cmdline : bytes;
  NumCPUs : Z;
  GICVersion : gicVersion;
  UART : option UARTConfig;
  DisableUART : bool;
  Console : bool;
  HyperVTimer : bool;
  Initrd : bytes;
  InitrdGPA : Z;
  ExtraNodes : list Node;
}.

Record BootPlan := mkPlan {
  EntryGPA : Z;
  StackTopGPA : Z;
  DeviceTreeGPA : Z;
  KernelGPA : Z;
  planInitrdGPA : Z;
  InitrdSize : Z;
  KernelBytes : bytes;
  DeviceTree : bytes;
}.

Inductive armError :=
| GuestMemoryEmpty
| KernelFileEmpty
| ImageError (e : imageError)
| KernelBelowMemory (a : Z)
| KernelDoesNotFit
| InitrdDoesNotFit
| TreeError (e : fdtError)
| TreeDoesNotFit
| StackOverlapsTree.

(** * The device tree *)

Record deviceTreeConfig := mkConfig {
  cMemoryBase : Z;
  cMemorySize : Z;
  cNumCPUs : Z;
  cCmdline : bytes;
  cGICVersion : gicVersion;
  cUART : option UARTConfig;
  cConsole : bool;
  cHyperVTimer : bool;
  cInitrdGPA : Z;
  cInitrdSize : Z;
  cExtraNodes : list Node;
}.

(** [%d] of a number that is not negative, below [10 ^ 20]. *)
Fixpoint decDigits (fuel : nat) (v : Z) : bytes :=
  match fuel with
  | O => []
  | S fuel => if v <? 10 then [48 + v] else decDigits fuel (v / 10) ++ [48 + v mod 10]
  end.

Definition decimal (v : Z) : bytes := decDigits 20 v.

(** [%x] of a 64-bit number. *)
Definition hex (v : Z) : bytes := hexDigits 16 v.

Definition pStrings (l : list bytes) : Property := mkProperty l [] [] [] false.
Definition pU32 (l : list Z) : Property := mkProperty [] l [] [] false.
Definition pU64 (l : list Z) : Property := mkProperty [] [] l [] false.
Definition pFlag : Property := mkProperty [] [] [] [] true.

(** A map literal, with its keys distinct. *)
Definition props (l : list (string * Property)) : gmap bytes Property := list_to_map (prod_map str id <$> l).

Abbreviation gicDefaultPhandle := 1%Z.
Abbreviation defaultGICDistributorBase := 0x08000000%Z.
Abbreviation defaultGICDistributorSize := 0x00010000%Z.
Abbreviation defaultGICv2CPUInterfaceBase := 0x08010000%Z.
Abbreviation defaultGICv2CPUInterfaceSize := 0x00002000%Z.
Abbreviation defaultGICRedistributorBase := 0x080a0000%Z.
Abbreviation defaultGICRedistributorSize := 0x00020000%Z.
Abbreviation defaultGICMaintenanceIntNum := 9%Z.

Definition cpuNode (cpu : Z) : Node :=
  mkNode (str "cpu@" ++ decimal cpu) (props [
    ("device_type", pStrings [str "cpu"]); ("compatible", pStrings [str "arm,armv8"]);
    ("reg", pU64 [cpu]); ("enable-method", pStrings [str "psci"])]) [].

Definition cpusNode (numCPUs : Z) : Node :=
  mkNode (str "cpus") (props [("#address-cells", pU32 [2]); ("#size-cells", pU32 [0])]) (cpuNode <$> seqZ 0 numCPUs).

Definition memoryNode (cfg : deviceTreeConfig) : Node :=
  mkNode (str "memory@" ++ hex (cMemoryBase cfg)) (props [
    ("device_type", pStrings [str "memory"]); ("reg", pU64 [cMemoryBase cfg; cMemorySize cfg])]) [].

Definition noInterrupt (i : InterruptSpec) : bool := (irqType i =? 0) && (irqNum i =? 0) && (irqFlags i =? 0).

Definition serialName (u : UARTConfig) : bytes := str "serial@" ++ hex (uartBase u).

Definition serialNodes (u : UARTConfig) : list Node :=
  let ps := props [("compatible", pStrings [str "ns16550a"]); ("reg", pU64 [uartBase u; uartSize u]);
    ("reg-io-width", pU32 [1]); ("status", pStrings [str "okay"])] in
  let ps := if negb (ClockHz u =? 0) then <[str "clock-frequency" := pU32 [ClockHz u]]> ps else ps in
  let ps := if negb (RegShift u =? 0) then <[str "reg-shift" := pU32 [RegShift u]]> ps else ps in
  let ps :=
    if negb (noInterrupt (Interrupt u)) then
      <[str "interrupt-parent" := pU32 [gicDefaultPhandle]]>
        (<[str "interrupts" := pU32 [irqType (Interrupt u); irqNum (Interrupt u); irqFlags (Interrupt u)]]> ps)
    else ps in
  [mkNode (serialName u) ps [];
   mkNode (str "aliases") (props [("serial0", pStrings [str "/" ++ serialName u])]) []].

Definition chosenNode (cfg : deviceTreeConfig) : Node :=
  let ps := props [("bootargs", pStrings [cCmdline cfg])] in
  let ps :=
    match cUART cfg with
    | Some u =>
        if cConsole cfg then
          let consolePath := str "serial0:" ++ decimal (BaudRate u) ++ str "n8" in
          <[str "linux,stdout-path" := pStrings [consolePath]]> (<[str "stdout-path" := pStrings [consolePath]]> ps)
        else ps
    | None => ps
    end in
  mkNode (str "chosen") ps [].

(** The loop that looks for the first node of that name, or adds one, and the two properties it gets. *)
Fixpoint setInitrd (start stop : Z) (children : list Node) : list Node :=
  let add (ps : gmap bytes Property) := <[str "linux,initrd-end" := pU64 [stop]]> (<[str "linux,initrd-start" := pU64 [start]]> ps) in
  match children with
  | [] => [mkNode (str "chosen") (add ∅) []]
  | mkNode name ps cs :: children =>
      if bool_decide (name = str "chosen") then mkNode name (add ps) cs :: children
      else mkNode name ps cs :: setInitrd start stop children
  end.

Definition psciNode : Node :=
  mkNode (str "psci") (props [("compatible", pStrings [str "arm,psci-0.2"; str "arm,psci"]); ("method", pStrings [str "hvc"])]) [].

Definition timerNode (hyperV : bool) : Node :=
  let ps := props [("compatible", pStrings [str "arm,armv8-timer"]); ("always-on", pFlag);
    ("interrupts", pU32 [1; 13; 4; 1; 14; 4; 1; 11; 4; 1; 10; 4])] in
  let ps :=
    if hyperV then <[str "interrupts" := pU32 [1; 4; 8]]> (<[str "interrupt-names" := pStrings [str "virt"]]> ps) else ps in
  mkNode (str "timer") ps [].

Definition gicNode (version : gicVersion) (numCPUs : Z) : Node :=
  let ps := props [("#interrupt-cells", pU32 [3]); ("#address-cells", pU32 [2]); ("#size-cells", pU32 [2]);
    ("interrupt-controller", pFlag); ("phandle", pU32 [gicDefaultPhandle]); ("linux,phandle", pU32 [gicDefaultPhandle]);
    ("interrupts", pU32 [1; defaultGICMaintenanceIntNum; 0xf04])] in
  let ps :=
    match version with
    | GICVersionV2 =>
        <[str "reg" := pU64 [defaultGICDistributorBase; defaultGICDistributorSize;
                             defaultGICv2CPUInterfaceBase; defaultGICv2CPUInterfaceSize]]>
          (<[str "compatible" := pStrings [str "arm,gic-400"]]> ps)
    | _ =>
        <[str "reg" := pU64 [defaultGICDistributorBase; defaultGICDistributorSize;
                             defaultGICRedistributorBase; u64 (defaultGICRedistributorSize * numCPUs)]]>
          (<[str "compatible" := pStrings [str "arm,gic-v3"]]> ps)
    end in
  mkNode (str "interrupt-controller@" ++ hex defaultGICDistributorBase) ps [].

Definition deviceTree (cfg : deviceTreeConfig) : Node :=
  let children := [cpusNode (cNumCPUs cfg); memoryNode cfg] in
  let children := match cUART cfg with Some u => children ++ serialNodes u | None => children end in
  let children := children ++ [chosenNode cfg] in
  let children :=
    if 0 <? cInitrdSize cfg then setInitrd (cInitrdGPA cfg) (u64 (cInitrdGPA cfg + cInitrdSize cfg)) children else children in
  mkNode [] (props [("#address-cells", pU32 [2]); ("#size-cells", pU32 [2]); ("compatible", pStrings [str "ccx3,arm64"]);
      ("model", pStrings [str "ccx3-arm64"]); ("interrupt-parent", pU32 [gicDefaultPhandle])])
    (children ++ [psciNode; timerNode (cHyperVTimer cfg); gicNode (cGICVersion cfg) (cNumCPUs cfg)] ++ cExtraNodes cfg).

Definition buildDeviceTree (cfg : deviceTreeConfig) : result fdtError bytes := Build (deviceTree cfg).

(** * The plan *)

#[export] Instance eta_BootOptions : Eta BootOptions := fun o =>
  mkOptions (MemoryBase o) (MemorySize o) (Cmdline o) (NumCPUs o) (GICVersion o) (UART o) (DisableUART o) (Console o) (HyperVTimer o)
    (Initrd o) (InitrdGPA o) (ExtraNodes o).

Definition alignUp (value align : Z) : Z := if align =? 0 then value else Z.ldiff (u64 (value + (align - 1))) (align - 1).
Definition alignDown (value align : Z) : Z := if align =? 0 then value else Z.ldiff value (align - 1).

Definition defaultUART : UARTConfig := mkUART 0x09000000 0x1000 1843200 0 115200 (mkInterrupt 0 33 4).

Definition withDefaults (memory : bytes) (opts : BootOptions) : BootOptions :=
  let opts := if MemorySize opts =? 0 then opts <| MemorySize := len memory |> else opts in
  let opts := if NumCPUs opts <=? 0 then opts <| NumCPUs := 1 |> else opts in
  match UART opts with
  | None => if negb (DisableUART opts) then opts <| UART := Some defaultUART |> else opts
  | Some _ => opts
  end.

(** [copy(memory[off:off+len(data)], data)]: the slice panics unless the range is inside. *)
Definition copyTo (memory : bytes) (off : Z) (data : bytes) : result armError bytes :=
  let stop := u64 (off + len data) in
  if (stop <? off) || (len memory <? stop) then Panic else Ok (put memory off data).

Definition mapError {E F A} (f : E -> F) (x : result E A) : result F A :=
  match x with Ok a => Ok a | Err e => Err (f e) | Panic => Panic end.

Definition treeConfig (opts : BootOptions) (initrdAddr : Z) : deviceTreeConfig :=
  mkConfig (MemoryBase opts) (MemorySize opts) (NumCPUs opts) (Cmdline opts) (GICVersion opts) (UART opts) (Console opts) (HyperVTimer opts)
    initrdAddr (len (Initrd opts)) (ExtraNodes opts).

(** The room the kernel needs: its image, and what its header says. *)
Definition reserveSize (h : KernelHeader) (image : bytes) : Z := if len image <? ImageSize h then ImageSize h else len image.

(** The part of [PrepareBoot] after the kernel image has been extracted. *)
Definition layOut (memory : bytes) (opts : BootOptions) (h : KernelHeader) (image : bytes) : result armError (bytes * BootPlan) :=
  let base := alignUp (MemoryBase opts) ImageLoadAlignment in
  let loadAddr := u64 (base + TextOffset h) in
  if loadAddr <? MemoryBase opts then Err (KernelBelowMemory loadAddr)
  else
    let loadOff := loadAddr - MemoryBase opts in
    if len memory <? u64 (loadOff + reserveSize h image) then Err KernelDoesNotFit
    else
      memory ← copyTo memory loadOff image;
      '(memory, initrdAddr) ← (if 0 <? len (Initrd opts) then
          let initrdAddr := if InitrdGPA opts =? 0 then alignUp (u64 (loadAddr + reserveSize h image)) 0x1000 else InitrdGPA opts in
          let initrdOff := u64 (initrdAddr - MemoryBase opts) in
          if (initrdAddr <? MemoryBase opts) || (len memory <? u64 (initrdOff + len (Initrd opts))) then Err InitrdDoesNotFit
          else memory ← copyTo memory initrdOff (Initrd opts); Ok (memory, initrdAddr)
        else Ok (memory, InitrdGPA opts));
      dtb ← mapError TreeError (buildDeviceTree (treeConfig opts initrdAddr));
      let dtbStart := if 0 <? len (Initrd opts) then u64 (initrdAddr + len (Initrd opts)) else u64 (loadAddr + reserveSize h image) in
      let dtbAddr := alignUp dtbStart 8 in
      let dtbOff := u64 (dtbAddr - MemoryBase opts) in
      if len memory <? u64 (dtbOff + len dtb) then Err TreeDoesNotFit
      else
        memory ← copyTo memory dtbOff dtb;
        let stackTop := alignDown (u64 (MemoryBase opts + MemorySize opts)) 16 in
        if stackTop <=? u64 (dtbAddr + len dtb + 0x2000) then Err StackOverlapsTree
        else
          entry ← mapError ImageError (EntryPoint h base);
          Ok (memory, mkPlan entry stackTop dtbAddr loadAddr initrdAddr (len (Initrd opts)) image dtb).

Definition PrepareBoot (gunzip : bytes -> option (bytes * bool)) (sha256 : bytes -> bytes) (memory kernelFile : bytes) (opts : BootOptions)
    (cache : imageCache) : imageCache * result armError (bytes * BootPlan) :=
  if len memory =? 0 then (cache, Err GuestMemoryEmpty)
  else if len kernelFile =? 0 then (cache, Err KernelFileEmpty)
  else
    let opts := withDefaults memory opts in
    match ProbeKernelImage gunzip kernelFile (len kernelFile) with
    | Err e => (cache, Err (ImageError e))
    | Panic => (cache, Panic)
    | Ok probe =>
        let '(cache, image) := ExtractImage gunzip sha256 probe kernelFile (len kernelFile) cache in
        (cache, image ← mapError ImageError image; layOut memory opts (probeHeader probe) image)
    end.

(** * What a kernel reads in the tree *)

Definition treeName (t : tree) : bytes := let '(TNode name _ _) := t in name.
Definition treeChildren (t : tree) : list tree := let '(TNode _ _ cs) := t in cs.

Fixpoint childNamed (name : bytes) (ts : list tree) : option tree :=
  match ts with
  | [] => None
  | t :: ts => if bool_decide (treeName t = name) then Some t else childNamed name ts
  end.

Fixpoint propNamed (name : bytes) (ps : list (bytes * bytes)) : option bytes :=
  match ps with
  | [] => None
  | (k, v) :: ps => if bool_decide (k = name) then Some v else propNamed name ps
  end.

(** The property of a child of the root. *)
Definition treeProp (t : tree) (node name : bytes) : option bytes :=
  c ← childNamed node (treeChildren t); let '(TNode _ ps _) := c in propNamed name ps.

Lemma propNamed_props k ps : propNamed k (propsOf ps) = (fun p => default [] (valueBytes p)) <$> ps !! k.
Proof.
  unfold propsOf. assert (H := elem_sortedKeys ps k). destruct (ps !! k) as [p|] eqn:E.
  - assert (Hk : k ∈ sortedKeys ps) by (apply H; eauto). clear H. induction (sortedKeys ps) as [|k' l IH]; [by apply elem_of_nil in Hk|].
    cbn [fmap list_fmap propNamed]. destruct (decide (k' = k)) as [->|Hn]; [rewrite bool_decide_eq_true_2 by done; by rewrite E|].
    rewrite bool_decide_eq_false_2 by done. apply IH. apply elem_of_cons in Hk as [->|Hk]; done.
  - assert (Hk : k ∉ sortedKeys ps) by (intros Hk%H; by destruct Hk). clear H. induction (sortedKeys ps) as [|k' l IH]; [done|].
    cbn [fmap list_fmap propNamed]. apply not_elem_of_cons in Hk as [Hn Hk]. rewrite bool_decide_eq_false_2 by done. by apply IH.
Qed.

(** * The tree is well-formed *)

(** Names are C strings and every property has one kind of value. *)
Definition goodProps (ps : gmap bytes Property) : Prop := map_Forall (fun k p => nulFree k /\ DefinedCount p = 1) ps.
Definition goodNode (n : Node) : Prop := let '(mkNode name ps _) := n in nulFree name /\ goodProps ps.
Definition goodTree (n : Node) : Prop := Forall goodNode (nodes n).

Lemma goodTree_iff n : goodTree n <-> namesOk n /\ singleKinds n.
Proof.
  unfold goodTree, namesOk, singleKinds. rewrite <- Forall_and. apply Forall_iff. intros [name ps cs]. unfold goodNode, goodProps.
  split; [intros [H1 H2]; split; [split; [done|]|]; intros k p Hp; by destruct (H2 k p Hp)|].
  intros [[H1 H2] H3]. split; [done|]. intros k p Hp. split; [exact (H2 k p Hp)|exact (H3 k p Hp)].
Qed.

Lemma goodTree_node name ps cs : nulFree name -> goodProps ps -> Forall goodTree cs -> goodTree (mkNode name ps cs).
Proof. intros H1 H2 H3. by apply nodes_Forall. Qed.

Definition cString (s : string) : bool := forallb (fun c => negb (c =? 0)) (str s).

Lemma cString_ok s : cString s = true -> nulFree (str s).
Proof. intros H. apply Forall_forall. intros c Hc E. unfold cString in H. rewrite forallb_forall in H. apply list_elem_of_In, H in Hc. by rewrite E in Hc. Qed.

Lemma goodProps_insert ps s p : cString s = true -> DefinedCount p = 1 -> goodProps ps -> goodProps (<[str s := p]> ps).
Proof. intros Hs Hp H. apply map_Forall_insert_2; [|done]. split; [by apply cString_ok|done]. Qed.

Lemma goodProps_props l : Forall (fun '(s, p) => cString s = true /\ DefinedCount p = 1) l -> goodProps (props l).
Proof.
  induction 1 as [|[s p] l [Hs Hp] _ IH]; [apply map_Forall_empty|]. unfold props. cbn [fmap list_fmap list_to_map foldr prod_map fst snd].
  by apply goodProps_insert.
Qed.

Lemma nulFree_str s b : cString s = true -> nulFree b -> nulFree (str s ++ b).
Proof. intros Hs Hb. apply Forall_app. split; [by apply cString_ok|done]. Qed.

Lemma hex_nulFree v : 0 <= v -> nulFree (hex v).
Proof.
  unfold hex. generalize 16%nat. intros n. revert v. induction n as [|n IH]; intros v Hv; [constructor|]. cbn [hexDigits].
  assert (D : forall d, 0 <= d -> hexDigit d <> 0) by (intros d; unfold hexDigit; destruct (d <? 10); lia).
  destruct (Z.ltb_spec v 16); [by repeat constructor; apply D|]. apply Forall_app. split; [apply IH; apply Z.div_pos; lia|].
  repeat constructor. apply D. apply Z.mod_pos_bound. lia.
Qed.

Lemma decimal_nulFree v : 0 <= v -> nulFree (decimal v).
Proof.
  unfold decimal. generalize 20%nat. intros n. revert v. induction n as [|n IH]; intros v Hv; [constructor|]. cbn [decDigits].
  destruct (Z.ltb_spec v 10); [repeat constructor; lia|]. apply Forall_app. split; [apply IH; apply Z.div_pos; lia|].
  repeat constructor. pose proof (Z.mod_pos_bound v 10). lia.
Qed.

(** Map literals and the assignments to them. *)
Ltac good_props :=
  repeat match goal with
  | |- goodProps (match ?x with _ => _ end) => destruct x
  | |- goodProps (<[_ := _]> _) => apply goodProps_insert; [reflexivity|reflexivity|]
  | |- goodProps (props _) => apply goodProps_props; repeat (apply Forall_cons; split; [split; reflexivity|]); apply Forall_nil_2
  end.
Ltac good_name := first [apply cString_ok; reflexivity | apply nulFree_str; [reflexivity|]; first [apply hex_nulFree|apply decimal_nulFree]; try lia].
Ltac good_tree := apply goodTree_node; [good_name|good_props|try apply Forall_nil_2].

Lemma cpusNode_good n : goodTree (cpusNode n).
Proof.
  good_tree. apply Forall_fmap, Forall_forall. intros c Hc%elem_of_seqZ. unfold compose, cpuNode. good_tree.
Qed.

Lemma memoryNode_good cfg : 0 <= cMemoryBase cfg -> goodTree (memoryNode cfg).
Proof. intros H. unfold memoryNode. good_tree. Qed.

Lemma serialNodes_good u : 0 <= uartBase u -> Forall goodTree (serialNodes u).
Proof. intros H. unfold serialNodes. cbv zeta. apply Forall_cons. split; [unfold serialName; good_tree|]. apply Forall_cons. split; [good_tree|apply Forall_nil_2]. Qed.

Lemma chosenNode_good cfg : goodTree (chosenNode cfg).
Proof. unfold chosenNode. cbv zeta. good_tree. Qed.

Lemma setInitrd_good a b cs : Forall goodTree cs -> Forall goodTree (setInitrd a b cs).
Proof.
  induction 1 as [|[name ps sub] cs H Hcs IH]; cbn [setInitrd].
  - apply Forall_cons. split; [|apply Forall_nil_2]. good_tree. apply map_Forall_empty.
  - apply nodes_Forall in H as [[H1 H2] H3]. case_bool_decide; (apply Forall_cons; split; [apply goodTree_node; [done|good_props; done|done]|done]).
Qed.

Lemma deviceTree_good cfg : 0 <= cMemoryBase cfg -> match cUART cfg with Some u => 0 <= uartBase u | None => True end ->
  Forall goodTree (cExtraNodes cfg) -> goodTree (deviceTree cfg).
Proof.
  intros Hm Hu He. unfold deviceTree. cbv zeta. apply goodTree_node; [apply Forall_nil_2|good_props|]. apply Forall_app. split.
  - set (cs := match cUART cfg with Some u => _ | None => _ end).
    assert (Hc : Forall goodTree (cs ++ [chosenNode cfg])).
    { apply Forall_app. split; [|apply Forall_cons; split; [apply chosenNode_good|apply Forall_nil_2]].
      assert (H0 : Forall goodTree [cpusNode (cNumCPUs cfg); memoryNode cfg]).
      { apply Forall_cons_2; [apply cpusNode_good|]. apply Forall_cons_2; [by apply memoryNode_good|apply Forall_nil_2]. }
      unfold cs. destruct (cUART cfg) as [u|]; [|done]. apply Forall_app. split; [done|by apply serialNodes_good]. }
    destruct (0 <? cInitrdSize cfg); [by apply setInitrd_good|done].
  - unfold psciNode, timerNode, gicNode. cbv zeta. apply Forall_app. split; [|done].
    do 3 (apply Forall_cons_2; [good_tree|]). apply Forall_nil_2.
Qed.

(** * The tree describes the machine *)

Record describes (cfg : deviceTreeConfig) (t : tree) : Prop := {
  tells_cmdline : treeProp t (str "chosen") (str "bootargs") = Some (cCmdline cfg ++ [0]);
  tells_initrd : 0 < cInitrdSize cfg ->
    treeProp t (str "chosen") (str "linux,initrd-start") = Some (be 8 (cInitrdGPA cfg)) /\
    treeProp t (str "chosen") (str "linux,initrd-end") = Some (be 8 (u64 (cInitrdGPA cfg + cInitrdSize cfg)));
  tells_memory : treeProp t (str "memory@" ++ hex (cMemoryBase cfg)) (str "reg") = Some (be 8 (cMemoryBase cfg) ++ be 8 (cMemorySize cfg));
  tells_cpus : exists cpus, childNamed (str "cpus") (treeChildren t) = Some cpus /\
    (fun '(TNode _ ps _) => propNamed (str "reg") ps) <$> treeChildren cpus = (fun cpu => Some (be 8 cpu)) <$> seqZ 0 (cNumCPUs cfg);
}.

Lemma childNamed_here name ps cs l : childNamed name (treeOf <$> mkNode name ps cs :: l) = Some (TNode name (propsOf ps) (treeOf <$> cs)).
Proof. cbn [fmap list_fmap treeOf childNamed treeName]. by rewrite bool_decide_eq_true_2. Qed.

Lemma childNamed_skip name n ps cs l : n <> name -> childNamed name (treeOf <$> mkNode n ps cs :: l) = childNamed name (treeOf <$> l).
Proof. intros H. cbn [fmap list_fmap treeOf childNamed treeName]. by rewrite bool_decide_eq_false_2. Qed.

Lemma setInitrd_here a b ps cs l : setInitrd a b (mkNode (str "chosen") ps cs :: l) =
  mkNode (str "chosen") (<[str "linux,initrd-end" := pU64 [b]]> (<[str "linux,initrd-start" := pU64 [a]]> ps)) cs :: l.
Proof. cbn [setInitrd]. by rewrite bool_decide_eq_true_2. Qed.

Lemma setInitrd_skip a b n ps cs l : n <> str "chosen" -> setInitrd a b (mkNode n ps cs :: l) = mkNode n ps cs :: setInitrd a b l.
Proof. intros H. cbn [setInitrd]. by rewrite bool_decide_eq_false_2. Qed.

Ltac other_name := let H := fresh in intros H; apply (f_equal (take 2)) in H; lazy in H; discriminate H.

(** The properties of the node for the kernel itself. *)
Definition chosenProps (cfg : deviceTreeConfig) : gmap bytes Property :=
  let '(mkNode _ ps _) := chosenNode cfg in
  if 0 <? cInitrdSize cfg then
    <[str "linux,initrd-end" := pU64 [u64 (cInitrdGPA cfg + cInitrdSize cfg)]]> (<[str "linux,initrd-start" := pU64 [cInitrdGPA cfg]]> ps)
  else ps.

(** The nodes before that one, and those after it. *)
Lemma tree_children cfg : exists ps rest, deviceTree cfg = mkNode [] ps
  (cpusNode (cNumCPUs cfg) :: memoryNode cfg :: from_option serialNodes [] (cUART cfg) ++ mkNode (str "chosen") (chosenProps cfg) [] :: rest).
Proof.
  unfold deviceTree, chosenProps, chosenNode, cpusNode, memoryNode. cbv zeta. eexists _, _. f_equal.
  destruct (cUART cfg) as [u|]; cbn [from_option]; unfold serialNodes; cbv zeta; cbn [app];
    (destruct (0 <? cInitrdSize cfg); [|cbn [app]; reflexivity]);
    repeat (rewrite setInitrd_skip by other_name); rewrite setInitrd_here; cbn [app]; reflexivity.
Qed.

Lemma chosen_found cfg : childNamed (str "chosen") (treeChildren (treeOf (deviceTree cfg))) = Some (TNode (str "chosen") (propsOf (chosenProps cfg)) []).
Proof.
  destruct (tree_children cfg) as (ps & rest & ->). cbn [treeOf treeChildren]. unfold cpusNode, memoryNode.
  rewrite !childNamed_skip by other_name. destruct (cUART cfg) as [u|]; cbn [from_option]; unfold serialNodes; cbv zeta; cbn [app].
  - rewrite !childNamed_skip by other_name. apply childNamed_here.
  - apply childNamed_here.
Qed.

(** The value of cells and of strings. *)
Lemma value_u64 x l : default [] (valueBytes (pU64 (x :: l))) = be 8 x ++ concat (be 8 <$> l).
Proof. reflexivity. Qed.
Lemma value_string x : default [] (valueBytes (pStrings [x])) = x ++ [0].
Proof. cbn [pStrings valueBytes Kind Strings len length]. apply app_nil_r. Qed.

Lemma deviceTree_describes cfg : describes cfg (treeOf (deviceTree cfg)).
Proof.
  split.
  - unfold treeProp. rewrite chosen_found. cbn [mbind option_bind]. rewrite propNamed_props.
    replace (chosenProps cfg !! str "bootargs") with (Some (pStrings [cCmdline cfg])); [cbn [fmap option_fmap option_map]; by rewrite value_string|].
    unfold chosenProps, chosenNode. cbv zeta. destruct (cUART cfg), (cConsole cfg), (0 <? cInitrdSize cfg); reflexivity.
  - intros Hs. unfold treeProp. rewrite chosen_found. cbn [mbind option_bind]. rewrite !propNamed_props. unfold chosenProps. destruct (chosenNode cfg) as [? ps ?].
    rewrite (proj2 (Z.ltb_lt _ _) Hs). rewrite lookup_insert_eq, lookup_insert_ne, lookup_insert_eq by done.
    cbn [fmap option_fmap option_map]. by rewrite !value_u64, !app_nil_r.
  - destruct (tree_children cfg) as (ps & rest & ->). unfold treeProp. cbn [treeOf treeChildren]. unfold cpusNode. rewrite childNamed_skip by other_name.
    unfold memoryNode. rewrite childNamed_here. cbn [mbind option_bind]. rewrite propNamed_props. reflexivity.
  - destruct (tree_children cfg) as (ps & rest & ->). cbn [treeOf treeChildren]. unfold cpusNode at 1. rewrite childNamed_here. eexists. split; [reflexivity|].
    cbn [treeChildren]. rewrite <- !list_fmap_compose. apply list_fmap_ext. intros i c _. unfold compose, cpuNode. cbn [treeOf]. rewrite propNamed_props. reflexivity.
Qed.

(** * The layout of memory *)

Definition roundUp (v a : Z) : Z := (v + (a - 1)) / a * a.

Lemma roundUp_spec v a : 0 < a -> v <= roundUp v a < v + a /\ roundUp v a mod a = 0.
Proof.
  intros Ha. unfold roundUp. split; [|apply Z.mod_mul; lia]. pose proof (Z.div_mod (v + (a - 1)) a). pose proof (Z.mod_pos_bound (v + (a - 1)) a Ha). lia.
Qed.

Lemma ldiff_pow2 v k : 0 <= k -> Z.ldiff v (2 ^ k - 1) = v / 2 ^ k * 2 ^ k.
Proof.
  intros Hk. replace (2 ^ k - 1) with (Z.ones k) by (rewrite Z.ones_equiv; lia).
  by rewrite Z.ldiff_ones_r, Z.shiftl_mul_pow2, Z.shiftr_div_pow2 by lia.
Qed.

Lemma alignUp_roundUp v k : 0 <= k < 64 -> 0 <= v -> v + 2 ^ k <= 2 ^ 64 -> alignUp v (2 ^ k) = roundUp v (2 ^ k).
Proof.
  intros Hk Hv Hl. unfold alignUp, roundUp. assert (0 < 2 ^ k) by (apply Z.pow_pos_nonneg; lia). rewrite (proj2 (Z.eqb_neq (2 ^ k) 0)), ldiff_pow2 by lia.
  by rewrite wrap_small by (unfold in_width; lia).
Qed.

Lemma alignDown_spec v k : 0 <= k -> v - 2 ^ k < alignDown v (2 ^ k) <= v /\ alignDown v (2 ^ k) mod 2 ^ k = 0.
Proof.
  intros Hk. unfold alignDown. assert (0 < 2 ^ k) by (apply Z.pow_pos_nonneg; lia). rewrite (proj2 (Z.eqb_neq (2 ^ k) 0)), ldiff_pow2 by lia.
  split; [|apply Z.mod_mul; lia]. pose proof (Z.div_mod v (2 ^ k)). pose proof (Z.mod_pos_bound v (2 ^ k)). lia.
Qed.

Lemma copyTo_ok memory off data : 0 <= off -> off + len data <= len memory -> len memory < 2 ^ 63 -> copyTo memory off data = Ok (put memory off data).
Proof.
  intros H1 H2 H3. pose proof (len_nonneg data). unfold copyTo. rewrite wrap_small by (unfold in_width; lia).
  by rewrite (proj2 (Z.ltb_ge _ off)), (proj2 (Z.ltb_ge (len memory) _)) by lia.
Qed.

(** The places of the parts, in numbers without a width. *)
Section places.
Context (opts : BootOptions) (h : KernelHeader) (image : bytes).

Definition kernelPlace : Z := roundUp (MemoryBase opts) ImageLoadAlignment + TextOffset h.
Definition kernelStop : Z := kernelPlace + reserveSize h image.
Definition initrdPlace : Z :=
  if (InitrdGPA opts =? 0) && (0 <? len (Initrd opts)) then roundUp kernelStop 0x1000 else InitrdGPA opts.
Definition initrdStop : Z := if 0 <? len (Initrd opts) then initrdPlace + len (Initrd opts) else kernelStop.
Definition treePlace : Z := roundUp initrdStop 8.

(** The parts have room in memory, with an initial file system that has a place of its own behind the kernel. *)
Record fits (memory dtb : bytes) : Prop := {
  fits_base : 0 <= MemoryBase opts /\ MemoryBase opts + len memory < 2 ^ 63;
  fits_size : MemorySize opts = len memory;
  fits_header : 0 <= TextOffset h /\ 0 <= ImageSize h;
  fits_initrd : 0 < len (Initrd opts) -> kernelStop <= initrdPlace;
  fits_tree : treePlace + len dtb + 0x2000 + 16 <= MemoryBase opts + len memory;
}.

(** Memory as [layOut] leaves it. *)
Definition laidOut (memory dtb : bytes) : bytes :=
  let m := put memory (kernelPlace - MemoryBase opts) image in
  let m := if 0 <? len (Initrd opts) then put m (initrdPlace - MemoryBase opts) (Initrd opts) else m in
  put m (treePlace - MemoryBase opts) dtb.

Lemma places memory dtb : fits memory dtb ->
  MemoryBase opts <= roundUp (MemoryBase opts) ImageLoadAlignment <= kernelPlace /\ kernelPlace + len image <= kernelStop <= initrdStop /\
  initrdStop <= treePlace < initrdStop + 8.
Proof.
  intros [F1 F2 F3 F4 F5]. pose proof (roundUp_spec (MemoryBase opts) ImageLoadAlignment ltac:(lia)). pose proof (roundUp_spec initrdStop 8 ltac:(lia)).
  pose proof (len_nonneg image). pose proof (len_nonneg (Initrd opts)). split; [unfold kernelPlace; lia|]. split; [|unfold treePlace; lia].
  split; [unfold kernelStop, reserveSize; destruct (Z.ltb_spec (len image) (ImageSize h)); lia|].
  unfold initrdStop. destruct (Z.ltb_spec 0 (len (Initrd opts))); lia.
Qed.
End places.

Lemma alignUp_place v k : 0 <= k < 32 -> 0 <= v < 2 ^ 63 -> alignUp v (2 ^ k) = roundUp v (2 ^ k).
Proof. intros Hk Hv. apply alignUp_roundUp; [lia|lia|]. assert (2 ^ k <= 2 ^ 32) by (apply Z.pow_le_mono_r; lia). lia. Qed.

Lemma entry_point h b : 0 <= b -> b + ImageLoadAlignment + TextOffset h < 2 ^ 64 -> 0 <= TextOffset h ->
  EntryPoint h (roundUp b ImageLoadAlignment) = Ok (roundUp b ImageLoadAlignment + TextOffset h).
Proof.
  intros Hb Hl Ht. destruct (roundUp_spec b ImageLoadAlignment ltac:(lia)) as [R1 R2]. unfold EntryPoint.
  change (ImageLoadAlignment - 1) with (Z.ones 21). rewrite Z.land_ones by lia. change (2 ^ 21) with ImageLoadAlignment. rewrite R2. cbn [Z.eqb negb].
  by rewrite wrap_small by (unfold in_width; lia).
Qed.

Lemma layOut_ok memory opts h image dtb : fits opts h image memory dtb -> buildDeviceTree (treeConfig opts (initrdPlace opts h image)) = Ok dtb ->
  layOut memory opts h image = Ok (laidOut opts h image memory dtb,
    mkPlan (kernelPlace opts h) (alignDown (MemoryBase opts + len memory) 16) (treePlace opts h image) (kernelPlace opts h) (initrdPlace opts h image)
      (len (Initrd opts)) image dtb).
Proof.
  intros F Hd. pose proof (places _ _ _ _ _ F) as (P1 & P2 & P3). destruct F as [F1 F2 F3 F4 F5].
  pose proof (len_nonneg dtb). pose proof (len_nonneg image). pose proof (len_nonneg (Initrd opts)). unfold layOut. cbv zeta.
  assert (E1 : alignUp (MemoryBase opts) ImageLoadAlignment = roundUp (MemoryBase opts) ImageLoadAlignment) by (apply (alignUp_place _ 21); lia).
  assert (E2 : u64 (roundUp (MemoryBase opts) ImageLoadAlignment + TextOffset h) = kernelPlace opts h) by (apply wrap_small; unfold in_width, kernelPlace in *; lia).
  assert (E3 : u64 (kernelPlace opts h + reserveSize h image) = kernelStop opts h image) by (apply wrap_small; unfold in_width, kernelStop in *; lia).
  rewrite E1, E2, E3. rewrite (proj2 (Z.ltb_ge (kernelPlace opts h) _)) by lia.
  assert (E4 : u64 (kernelPlace opts h - MemoryBase opts + reserveSize h image) = kernelStop opts h image - MemoryBase opts)
    by (rewrite wrap_small; unfold in_width, kernelStop in *; lia).
  rewrite E4, (proj2 (Z.ltb_ge (len memory) _)), copyTo_ok by lia. cbn [mbind result_bind].
  set (m1 := put memory _ image). assert (L1 : len m1 = len memory) by apply len_put. set (b := MemoryBase opts) in *.
  set (m2 := if 0 <? len (Initrd opts) then put m1 (initrdPlace opts h image - b) (Initrd opts) else m1).
  assert (L2 : len m2 = len memory) by (unfold m2; destruct (0 <? len (Initrd opts)); [by rewrite len_put|done]).
  match goal with |- (?I ≫= _) = _ => assert (EI : I = Ok (m2, initrdPlace opts h image)) end.
  { unfold m2. destruct (Z.ltb_spec 0 (len (Initrd opts))) as [Hi|Hi]; [|unfold initrdPlace; by rewrite (proj2 (Z.ltb_ge _ _) Hi), andb_false_r].
    assert (E5 : alignUp (kernelStop opts h image) 0x1000 = roundUp (kernelStop opts h image) 0x1000) by (apply (alignUp_place _ 12); lia).
    assert (Ea : (if InitrdGPA opts =? 0 then roundUp (kernelStop opts h image) 0x1000 else InitrdGPA opts) = initrdPlace opts h image)
      by (unfold initrdPlace; by rewrite (proj2 (Z.ltb_lt _ _) Hi), andb_true_r).
    assert (Es : initrdStop opts h image = initrdPlace opts h image + len (Initrd opts)) by (unfold initrdStop; by rewrite (proj2 (Z.ltb_lt _ _) Hi)).
    specialize (F4 Hi). rewrite E5, Ea. set (a := initrdPlace opts h image) in *. rewrite (wrap_small 64 (a - b)) by (unfold in_width; lia).
    rewrite (wrap_small 64 (a - b + _)), (proj2 (Z.ltb_ge a b)), (proj2 (Z.ltb_ge (len m1) _)) by (unfold in_width; lia). cbn [orb].
    by rewrite copyTo_ok by lia. }
  rewrite EI. cbn [mbind result_bind]. rewrite Hd. cbn [mapError mbind result_bind].
  assert (E6 : (if 0 <? len (Initrd opts) then u64 (initrdPlace opts h image + len (Initrd opts)) else kernelStop opts h image) = initrdStop opts h image).
  { unfold initrdStop in *. destruct (Z.ltb_spec 0 (len (Initrd opts))); [|done]. apply wrap_small. unfold in_width. lia. }
  assert (E7 : alignUp (initrdStop opts h image) 8 = treePlace opts h image) by (apply (alignUp_place _ 3); lia).
  rewrite E6, E7. rewrite (wrap_small 64 (treePlace opts h image - b)) by (unfold in_width; lia).
  rewrite (wrap_small 64 (_ + len dtb)), (proj2 (Z.ltb_ge (len m2) _)), copyTo_ok by (unfold in_width; lia). cbn [mbind result_bind].
  rewrite F2, (wrap_small 64 (b + len memory)), (wrap_small 64 (_ + 0x2000)) by (unfold in_width; lia).
  pose proof (alignDown_spec (b + len memory) 4 ltac:(lia)) as [S1 _]. change (2 ^ 4) with 16 in S1. rewrite (proj2 (Z.leb_gt _ _)) by lia.
  rewrite entry_point by (unfold kernelPlace, b in *; lia). reflexivity.
Qed.

(** * What the kernel finds *)

Section prepare.
Context (gunzip : bytes -> option (bytes * bool)) (sha256 : bytes -> bytes).

(** A kernel file with an image in it, nodes of the caller that are well-formed, and room in memory. *)
Record usualBoot (memory kernelFile : bytes) (opts : BootOptions) (cache : imageCache) (probe : ImageProbe) (image : bytes) : Prop := {
  usual_base : 0 <= MemoryBase opts;
  usual_file : 0 < len kernelFile;
  usual_probe : ProbeKernelImage gunzip kernelFile (len kernelFile) = Ok probe;
  usual_image : (ExtractImage gunzip sha256 probe kernelFile (len kernelFile) cache).2 = Ok image;
  usual_nodes : Forall goodTree (ExtraNodes opts) /\ match UART opts with Some u => 0 <= uartBase u | None => True end;
  usual_fits : forall dtb, let o := withDefaults memory opts in
    buildDeviceTree (treeConfig o (initrdPlace o (probeHeader probe) image)) = Ok dtb -> len dtb < 2 ^ 32 /\ fits o (probeHeader probe) image memory dtb;
}.

Record readyToBoot (opts : BootOptions) (h : KernelHeader) (image m : bytes) (plan : BootPlan) : Prop := {
  ready_kernel : EntryGPA plan = KernelGPA plan /\ (KernelGPA plan - TextOffset h) mod ImageLoadAlignment = 0 /\
    holds m (MemoryBase opts) (KernelGPA plan) image;
  ready_initrd : 0 < len (Initrd opts) -> holds m (MemoryBase opts) (planInitrdGPA plan) (Initrd opts) /\
    KernelGPA plan + reserveSize h image <= planInitrdGPA plan /\ planInitrdGPA plan + len (Initrd opts) <= DeviceTreeGPA plan;
  ready_tree : DeviceTreeGPA plan mod 8 = 0 /\ holds m (MemoryBase opts) (DeviceTreeGPA plan) (DeviceTree plan) /\
    KernelGPA plan + reserveSize h image <= DeviceTreeGPA plan /\
    exists t, readBlob (DeviceTree plan) = Some t /\ describes (treeConfig (withDefaults m opts) (planInitrdGPA plan)) t;
  ready_stack : StackTopGPA plan mod 16 = 0 /\ DeviceTreeGPA plan + len (DeviceTree plan) + 0x2000 < StackTopGPA plan <= MemoryBase opts + len m;
}.

Lemma withDefaults_fields memory opts : let o := withDefaults memory opts in
  MemoryBase o = MemoryBase opts /\ Initrd o = Initrd opts /\ ExtraNodes o = ExtraNodes opts /\
  (match UART opts with Some u => 0 <= uartBase u | None => True end -> match UART o with Some u => 0 <= uartBase u | None => True end).
Proof.
  unfold withDefaults. cbv zeta. set (o1 := if MemorySize opts =? 0 then _ else _). set (o2 := if NumCPUs o1 <=? 0 then _ else _).
  assert (E : MemoryBase o2 = MemoryBase opts /\ Initrd o2 = Initrd opts /\ ExtraNodes o2 = ExtraNodes opts /\ UART o2 = UART opts)
    by (unfold o2, o1; destruct (MemorySize opts =? 0), (_ <=? 0); done).
  destruct E as (E1 & E2 & E3 & <-). destruct (UART o2) as [u|] eqn:Eu; [by rewrite Eu|]. destruct (negb (DisableUART o2)); [|by rewrite Eu]. done.
Qed.

Lemma withDefaults_len m m' opts : len m = len m' -> withDefaults m opts = withDefaults m' opts.
Proof. intros E. unfold withDefaults. by rewrite E. Qed.

Lemma laidOut_holds opts h image memory dtb : fits opts h image memory dtb -> let m := laidOut opts h image memory dtb in
  len m = len memory /\ holds m (MemoryBase opts) (kernelPlace opts h) image /\
  (0 < len (Initrd opts) -> holds m (MemoryBase opts) (initrdPlace opts h image) (Initrd opts)) /\ holds m (MemoryBase opts) (treePlace opts h image) dtb.
Proof.
  intros F. pose proof (places _ _ _ _ _ F) as (P1 & P2 & P3). destruct F as [F1 F2 F3 F4 F5]. pose proof (len_nonneg dtb). pose proof (len_nonneg image).
  unfold laidOut. cbv zeta. set (m1 := put memory _ image). assert (L1 : len m1 = len memory) by apply len_put.
  assert (H1 : holds m1 (MemoryBase opts) (kernelPlace opts h) image) by (apply holds_put; lia).
  destruct (Z.ltb_spec 0 (len (Initrd opts))) as [Hi|Hi].
  - assert (Es : initrdStop opts h image = initrdPlace opts h image + len (Initrd opts)) by (unfold initrdStop; by rewrite (proj2 (Z.ltb_lt _ _) Hi)).
    specialize (F4 Hi). set (m2 := put m1 _ (Initrd opts)). assert (L2 : len m2 = len memory) by (unfold m2; by rewrite len_put).
    split; [by rewrite len_put|]. split; [apply holds_put_out; [apply holds_put_out; [done|lia|lia]|lia|lia]|].
    split; [intros _; apply holds_put_out; [apply holds_put; lia|lia|lia]|apply holds_put; lia].
  - split; [by rewrite len_put|]. split; [apply holds_put_out; [done|lia|lia]|]. split; [lia|]. apply holds_put; lia.
Qed.

End prepare.

(** A compressed kernel of 80 bytes, a machine with two processors and an initial file system of three bytes. *)
Definition sampleImage : bytes := put (put (put (zeros 80) 16 (le 8 0x100)) 56 (le 4 arm64ImageMagic)) 64 [1; 2; 3; 4].
Definition sampleKernel : bytes := [0x1f; 0x8b] ++ sampleImage.
Definition sampleMemory : bytes := zeros 0x8000.
Definition sampleOptions : BootOptions :=
  mkOptions 0x40000000 0 (str "quiet") 2 GICVersionDefault None false true false [1; 2; 3] 0 [mkNode (str "extra") (props [("reg", pU64 [7])]) []].
Definition sampleBoot : ImageProbe :=
  match ProbeKernelImage storedGzip sampleKernel (len sampleKernel) with Ok p => p | _ => mkProbe (mkHeader 0 0 0 0 0 0 0 0 0 0) false 0 end.
Definition sampleBlob : bytes :=
  let o := withDefaults sampleMemory sampleOptions in
  match buildDeviceTree (treeConfig o (initrdPlace o (probeHeader sampleBoot) sampleImage)) with Ok d => d | _ => [] end.


(** * What goes wrong *)

(** The check that the kernel fits adds in 64 bits: a header with a size close to [2 ^ 64] passes it, and the initial file
    system is then written over the kernel. *)
Theorem image_size_wraps :
  match layOut (zeros 0x8000) (sampleOptions <| MemorySize := 0x8000 |> <| Initrd := replicate 16 255 |>)
          (mkHeader 0 0 8 (2 ^ 64 - 8) 0 0 0 0 0 0) [1; 2; 3] with
  | Ok (m, plan) => KernelGPA plan = 0x40000008 /\ slice m 8 11 = [255; 255; 255]
  | _ => False
  end.
Proof. vm_compute. split; reflexivity. Qed.

(** The registers of the interrupt controller grow with the number of processors; with 124 of them they reach the default
    serial port. *)
Theorem redistributors_reach_uart n : 124 <= n <= 2 ^ 32 ->
  exists name ps size, gicNode GICVersionV3 n = mkNode name ps [] /\
    ps !! str "reg" = Some (pU64 [defaultGICDistributorBase; defaultGICDistributorSize; defaultGICRedistributorBase; size]) /\
    defaultGICRedistributorBase <= uartBase defaultUART < defaultGICRedistributorBase + size.
Proof.
  intros Hn. eexists _, _, (u64 (defaultGICRedistributorSize * n)). split; [reflexivity|]. split; [apply lookup_insert_eq|].
  rewrite wrap_small by (unfold in_width; lia). cbn [uartBase defaultUART]. lia.
Qed.
