(* ===== verification/Utf8.v ===== *)
(** UTF-8, as the package [unicode/utf8] and [range] over a string have it.

    A byte that does not start a valid sequence decodes to [RuneError] and counts as one.
    [decode_encode]: the encoding of a valid rune decodes to it, whatever follows. *)

From S2P Require Import Prelude.

Abbreviation RuneError := 0xfffd%Z.

Definition validRune (r : Z) : Prop := 0 <= r < 0xd800 \/ 0xdfff < r <= 0x10ffff.
#[export] Instance validRune_dec r : Decision (validRune r).
Proof. unfold validRune. solve_decision. Defined.

Definition between (a b x : Z) : bool := (a <=? x) && (x <=? b).
Abbreviation continues := (between 0x80 0xbf).

(** The rune and its width; nothing at the end of the input. *)
Definition decodeRune (p : bytes) : Z * Z :=
  match p with
  | [] => (RuneError, 0)
  | b0 :: p =>
      if b0 <? 0x80 then (b0, 1)
      else if between 0xc2 0xdf b0 then
        match p with
        | b1 :: _ => if continues b1 then (b0 mod 32 * 64 + b1 mod 64, 2) else (RuneError, 1)
        | _ => (RuneError, 1)
        end
      else if between 0xe0 0xef b0 then
        match p with
        | b1 :: b2 :: _ =>
            if between (if b0 =? 0xe0 then 0xa0 else 0x80) (if b0 =? 0xed then 0x9f else 0xbf) b1 && continues b2
            then (b0 mod 16 * 4096 + b1 mod 64 * 64 + b2 mod 64, 3) else (RuneError, 1)
        | _ => (RuneError, 1)
        end
      else if between 0xf0 0xf4 b0 then
        match p with
        | b1 :: b2 :: b3 :: _ =>
            if between (if b0 =? 0xf0 then 0x90 else 0x80) (if b0 =? 0xf4 then 0x8f else 0xbf) b1 && continues b2 && continues b3
            then (b0 mod 8 * 262144 + b1 mod 64 * 4096 + b2 mod 64 * 64 + b3 mod 64, 4) else (RuneError, 1)
        | _ => (RuneError, 1)
        end
      else (RuneError, 1)
  end.

(** [utf8.AppendRune] to nothing; an invalid rune is written as [RuneError]. *)
Definition encodeRune (r : Z) : bytes :=
  if negb (bool_decide (validRune r)) then [0xef; 0xbf; 0xbd]
  else if r <? 0x80 then [r]
  else if r <? 0x800 then [0xc0 + r / 64; 0x80 + r mod 64]
  else if r <? 0x10000 then [0xe0 + r / 4096; 0x80 + r / 64 mod 64; 0x80 + r mod 64]
  else [0xf0 + r / 262144; 0x80 + r / 4096 mod 64; 0x80 + r / 64 mod 64; 0x80 + r mod 64].

(** The runes [range] yields; every step takes at least a byte. *)
Fixpoint runesFrom (fuel : nat) (s : bytes) : list Z :=
  match fuel, s with
  | S fuel, _ :: _ => let '(r, n) := decodeRune s in r :: runesFrom fuel (drop (Z.to_nat n) s)
  | _, _ => []
  end.

Definition runesOf (s : bytes) : list Z := runesFrom (length s) s.

(** * Round trips *)

Lemma decode_width p : p <> [] -> 1 <= (decodeRune p).2 <= 4.
Proof.
  intros H. destruct p as [|b0 p]; [done|]. unfold decodeRune. repeat (case_match; cbn [snd]; try lia).
Qed.

(** The payload of a byte. *)
Lemma payload k base d : 0 < k -> 0 <= d < k -> (base * k + d) mod k = d.
Proof. intros Hk Hd. rewrite Z.add_comm, Z_mod_plus_full. by apply Z.mod_small. Qed.

(** The digits of a rune to the base 64. *)
Lemma digits r : 0 <= r -> exists d b a c, r = d * 262144 + b * 4096 + a * 64 + c /\ 0 <= d /\ 0 <= b < 64 /\ 0 <= a < 64 /\ 0 <= c < 64 /\
  r mod 64 = c /\ r / 64 mod 64 = a /\ r / 4096 mod 64 = b /\ r / 262144 = d /\ r / 4096 = d * 64 + b /\ r / 64 = (d * 64 + b) * 64 + a.
Proof.
  intros H. exists (r / 262144), (r / 4096 mod 64), (r / 64 mod 64), (r mod 64).
  assert (E1 : r / 4096 = r / 64 / 64) by (by rewrite Z.div_div by lia).
  assert (E2 : r / 262144 = r / 64 / 64 / 64) by (by rewrite !Z.div_div by lia).
  rewrite E1, E2. pose proof (Z.div_mod r 64). pose proof (Z.div_mod (r / 64) 64). pose proof (Z.div_mod (r / 64 / 64) 64).
  pose proof (Z.mod_pos_bound r 64). pose proof (Z.mod_pos_bound (r / 64) 64). pose proof (Z.mod_pos_bound (r / 64 / 64) 64).
  assert (0 <= r / 64) by (apply Z.div_pos; lia). assert (0 <= r / 64 / 64) by (apply Z.div_pos; lia).
  assert (0 <= r / 64 / 64 / 64) by (apply Z.div_pos; lia). split_and!; lia.
Qed.

Ltac branch := repeat match goal with
  | |- context [?a =? ?b] => destruct (Z.eqb_spec a b); [try (exfalso; lia)|try (exfalso; lia)]
  | |- context [?a <? ?b] => destruct (Z.ltb_spec a b); [try (exfalso; lia)|try (exfalso; lia)]
  | |- context [?a <=? ?b] => destruct (Z.leb_spec a b); [try (exfalso; lia)|try (exfalso; lia)]
  end; cbn [andb].

Lemma decode_encode r rest : validRune r -> decodeRune (encodeRune r ++ rest) = (r, len (encodeRune r)).
Proof.
  intros H. unfold encodeRune. rewrite bool_decide_eq_true_2 by done. cbn [negb]. unfold validRune in H.
  destruct (digits r) as (d & b & a & c & E & Hd & Hb & Ha & Hc & -> & -> & -> & -> & -> & ->); [lia|].
  assert (Hm : forall x, 0 <= x < 64 -> (0x80 + x) mod 64 = x) by (intros x; apply (payload 64 2); lia).
  destruct (Z.ltb_spec r 0x80); [|destruct (Z.ltb_spec r 0x800); [|destruct (Z.ltb_spec r 0x10000)]]; cbn [app decodeRune]; unfold between; rewrite ?Hm by done.
  - by branch.
  - rewrite (payload 32 6) by lia. branch; f_equal; lia.
  - rewrite (payload 16 14) by lia. branch; f_equal; lia.
  - rewrite (payload 8 30) by lia. branch; f_equal; lia.
Qed.

Lemma encode_nonempty r : encodeRune r <> [].
Proof. unfold encodeRune. by repeat case_match. Qed.

Lemma runes_encoded rs : Forall validRune rs -> forall fuel, (length (concat (encodeRune <$> rs)) <= fuel)%nat ->
  runesFrom fuel (concat (encodeRune <$> rs)) = rs.
Proof.
  induction 1 as [|r rs Hr _ IH]; intros fuel Hf; [by destruct fuel|]. cbn [fmap list_fmap concat] in *. rewrite length_app in Hf.
  pose proof (encode_nonempty r) as Hn. destruct (encodeRune r) as [|b bs] eqn:E; [done|]. cbn [length] in Hf. destruct fuel as [|fuel]; [lia|].
  cbn [app runesFrom]. change (b :: bs ++ concat (encodeRune <$> rs)) with ((b :: bs) ++ concat (encodeRune <$> rs)).
  rewrite <- E, decode_encode by done. unfold len. rewrite Nat2Z.id, drop_app_length. f_equal. apply IH. lia.
Qed.

Lemma runesOf_encoded rs : Forall validRune rs -> runesOf (concat (encodeRune <$> rs)) = rs.
Proof. intros H. by apply runes_encoded. Qed.

(** * Text in pieces *)

Lemma decode_len p : (decodeRune p).2 <= len p.
Proof.
  destruct p as [|b0 [|b1 [|b2 [|b3 p]]]]; [done|..]; try pose proof (len_nonneg p); rewrite ?len_cons, ?len_nil; unfold decodeRune.
  all: repeat (case_match; cbn [snd]; try lia).
Qed.

(** Whether [p] starts with a whole encoding; one that is invalid whatever follows is whole. *)
Definition fullRune (p : bytes) : bool :=
  match p with
  | [] => false
  | b0 :: p =>
      if b0 <? 0x80 then true
      else if between 0xc2 0xdf b0 then match p with [] => false | _ => true end
      else if between 0xe0 0xef b0 then
        match p with
        | [] => false
        | [b1] => negb (between (if b0 =? 0xe0 then 0xa0 else 0x80) (if b0 =? 0xed then 0x9f else 0xbf) b1)
        | _ => true
        end
      else if between 0xf0 0xf4 b0 then
        match p with
        | [] => false
        | [b1] => negb (between (if b0 =? 0xf0 then 0x90 else 0x80) (if b0 =? 0xf4 then 0x8f else 0xbf) b1)
        | [b1; b2] => negb (between (if b0 =? 0xf0 then 0x90 else 0x80) (if b0 =? 0xf4 then 0x8f else 0xbf) b1 && continues b2)
        | _ => true
        end
      else true
  end.

(** What follows a whole encoding does not change it. *)
Lemma decode_app p q : fullRune p = true -> decodeRune (p ++ q) = decodeRune p.
Proof.
  destruct p as [|b0 p]; [done|]. unfold fullRune, decodeRune. cbn [app].
  destruct (b0 <? 0x80); [done|]. destruct (between 0xc2 0xdf b0); [by destruct p|].
  destruct (between 0xe0 0xef b0).
  { destruct p as [|b1 [|b2 p]]; [done| |done]. intros H%negb_true_iff. cbn [app]. destruct q; [done|]. by rewrite H. }
  destruct (between 0xf0 0xf4 b0); [|done].
  destruct p as [|b1 [|b2 [|b3 p]]]; [done| | |done]; intros H%negb_true_iff; cbn [app]; destruct q as [|q0 [|q1 q]]; try done; by rewrite H.
Qed.

Lemma full_app p q : fullRune p = true -> fullRune (p ++ q) = true.
Proof.
  destruct p as [|b0 p]; [done|]. unfold fullRune. cbn [app].
  destruct (b0 <? 0x80); [done|]. destruct (between 0xc2 0xdf b0); [by destruct p|].
  destruct (between 0xe0 0xef b0).
  { destruct p as [|b1 [|b2 p]]; [done| |done]. intros H. cbn [app]. by destruct q. }
  destruct (between 0xf0 0xf4 b0); [|done].
  destruct p as [|b1 [|b2 [|b3 p]]]; [done| | |done]; intros H; cbn [app]; destruct q as [|q0 [|q1 q]]; try done.
  apply negb_true_iff in H. by rewrite H.
Qed.

(** No encoding is cut off at the end. *)
Fixpoint wholeText (p : bytes) : bool :=
  match p with
  | [] => true
  | _ :: p' => fullRune p && wholeText p'
  end.

Lemma whole_app p q : wholeText p = true -> wholeText q = true -> wholeText (p ++ q) = true.
Proof.
  induction p as [|b p IH]; [done|]. cbn [wholeText app]. intros [H1 H2]%andb_true_iff Hq. rewrite IH by done.
  change (b :: p ++ q) with ((b :: p) ++ q). by rewrite full_app.
Qed.

Lemma whole_drop k p : wholeText p = true -> wholeText (drop k p) = true.
Proof. revert k. induction p as [|b p IH]; intros [|k] H; [done|done|done|]. cbn in H. apply andb_true_iff in H as [_ H]. by apply IH. Qed.

(** Text is whole. *)
Lemma whole_encoded rs : wholeText (concat (encodeRune <$> rs)) = true.
Proof.
  induction rs as [|r rs IH]; [done|]. cbn [fmap list_fmap concat]. apply whole_app; [|done]. clear IH.
  assert (Hc : forall x p, 0 <= x < 64 -> fullRune (0x80 + x :: p) = true).
  { intros x p Hx. unfold fullRune, between. repeat case_match; lia. }
  assert (Hm : forall x, 0 <= x mod 64 < 64) by (intros; apply Z.mod_pos_bound; lia).
  unfold encodeRune. case_match eqn:Hv; [done|]. apply negb_false_iff, bool_decide_eq_true in Hv. unfold validRune in Hv.
  destruct (digits r) as (d & b & a & c & E & Hd & Hb & Ha & Hc' & E0 & E1 & E2 & E3 & E4 & E5); [lia|].
  repeat case_match; cbn [wholeText]; rewrite ?Hc by done; rewrite ?andb_true_r; rewrite ?E3, ?E4, ?E5; unfold fullRune, between;
    repeat case_match; done || lia.
Qed.
