(* ===== verification/Terminal.v ===== *)
(** The terminal emulator: [src/internal/ptyterm/model.go].

    The emulator interprets the output of programs in the guest, bytes that nobody has checked.
    [None] is a run-time panic: an index or a slice that is out of range.  Lines are values:
    wherever the code moves lines inside the array it replaces those left behind by fresh ones,
    so no line is ever shared.  Integers are 64 bits wide; the parameters of a sequence wrap
    around as they are parsed.

    The table of non-spacing marks of package [unicode] is the parameter [isMn].  The mutex
    makes every method one step.  The sizes and the limits are taken to be those of arrays that
    fit in memory: of the arithmetic, what depends on the parameters of a sequence wraps around.
    The theorems are in [TerminalSafety.v] and [TerminalText.v]. *)

From S2P Require Import Prelude Paths Utf8.

Record Size := mkSize { Cols : Z; Rows : Z }.
Record Cursor := mkCursor { X : Z; Y : Z }.
#[export] Instance eta_Cursor : Eta Cursor := fun c => mkCursor (X c) (Y c).

Record Attr := mkAttr { Bold : bool; Underline : bool; Inverse : bool; FG : Z; BG : Z }.
#[export] Instance eta_Attr : Eta Attr := fun a => mkAttr (Bold a) (Underline a) (Inverse a) (FG a) (BG a).

Record Cell := mkCell { R : Z; cellAttr : Attr }.
Abbreviation line := (list Cell).

Definition defaultAttr : Attr := mkAttr false false false (-1) (-1).
Definition zeroAttr : Attr := mkAttr false false false 0 0.

Inductive parserState := stateGround | stateEscape | stateCSI | stateOSC | stateCharsetG0 | stateCharsetG1.

Record screenBuffer := mkScreen { lines : list line; hist : list line }.
#[export] Instance eta_screenBuffer : Eta screenBuffer := fun b => mkScreen (lines b) (hist b).

Record Emulator := mkEmulator {
  size : Size;
  historyLimit : Z;
  cursor : Cursor;
  savedCursor : Cursor;
  altSavedCursor : Cursor;
  cursorVisible : bool;
  attr : Attr;
  main : screenBuffer;
  alt : screenBuffer;
  altScreen : bool;
  scrollTop : Z;
  scrollBottom : Z;
  insertMode : bool;
  originMode : bool;
  autoWrap : bool;
  activeSet : Z;
  g0LineDraw : bool;
  g1LineDraw : bool;
  lastRune : Z;
  lastAttr : Attr;
  lastValid : bool;
  title : bytes;
  rawTail : bytes;
  bytesRead : Z;
  state : parserState;
  esc : bytes;
  osc : bytes;
}.
#[export] Instance eta_Emulator : Eta Emulator := fun e =>
  mkEmulator (size e) (historyLimit e) (cursor e) (savedCursor e) (altSavedCursor e) (cursorVisible e) (attr e) (main e) (alt e)
    (altScreen e) (scrollTop e) (scrollBottom e) (insertMode e) (originMode e) (autoWrap e) (activeSet e) (g0LineDraw e) (g1LineDraw e)
    (lastRune e) (lastAttr e) (lastValid e) (title e) (rawTail e) (bytesRead e) (state e) (esc e) (osc e).

Record Snapshot := mkSnapshot {
  sSize : Size;
  sCursor : Cursor;
  sCursorVisible : bool;
  sAltScreen : bool;
  sLines : list bytes;
  sCells : list line;
  sHistory : list bytes;
  sTitle : bytes;
  sRawTail : bytes;
  sBytesRead : Z;
}.

(** * Lines *)

Definition blankLineWithAttr (cols : Z) (a : Attr) : line := replicate (Z.to_nat cols) (mkCell 32 a).
Definition blankLine (cols : Z) : line := blankLineWithAttr cols defaultAttr.

(** The cells from [start] up to [stop] that there are. *)
Definition clearRange (l : line) (start stop : Z) (a : Attr) : line :=
  imap (fun i c => if (start <=? Z.of_nat i) && (Z.of_nat i <? stop) then mkCell 32 a else c) l.

Definition setCell (l : line) (x : Z) (c : Cell) : option line :=
  if (0 <=? x) && (x <? len l) then Some (<[Z.to_nat x := c]> l) else None.

(** A negative [n] makes a slice longer than the line. *)
Definition insertCells (l : line) (start n : Z) (a : Attr) : option line :=
  let start := if start <? 0 then 0 else start in
  if len l <=? start then Some l
  else
    let n := if len l - start <? n then len l - start else n in
    if n <? 0 then None
    else Some (clearRange (slice l 0 (start + n) ++ slice l start (len l - n)) start (start + n) a).

Definition deleteCells (l : line) (x n : Z) (a : Attr) : option line :=
  if len l <=? x then Some l
  else if x <? 0 then None
  else
    let n := if len l - x <? n then len l - x else n in
    Some (clearRange (slice l 0 x ++ slice l (x + n) (len l) ++ slice l (len l - n) (len l)) (len l - n) (len l) a).

(** * Screens *)

Definition newScreenBuffer (sz : Size) : screenBuffer := mkScreen (replicate (Z.to_nat (Rows sz)) (blankLine (Cols sz))) [].

Definition trimHistory (n : Z) (b : screenBuffer) : screenBuffer :=
  if n <=? 0 then b <| hist := [] |>
  else if n <? len (hist b) then b <| hist := slice (hist b) (len (hist b) - n) (len (hist b)) |>
  else b.

(** A fresh line in place of one. *)
Definition blanked (a : Attr) (l : line) : line := blankLineWithAttr (len l) a.

Definition scrollRegion (top bottom limit : Z) (a : Attr) (b : screenBuffer) : screenBuffer :=
  let n := len (lines b) in
  if n =? 0 then b
  else
    let top := if top <? 0 then 0 else top in
    let bottom := if n <=? bottom then n - 1 else bottom in
    if bottom <? top then b
    else
      let b :=
        if (0 <? limit) && (top =? 0) && (bottom =? n - 1)
        then trimHistory limit (b <| hist := hist b ++ slice (lines b) 0 1 |>) else b in
      b <| lines := slice (lines b) 0 top ++ slice (lines b) (top + 1) (bottom + 1) ++ (blanked a <$> slice (lines b) bottom (bottom + 1)) ++
             slice (lines b) (bottom + 1) n |>.

Definition scrollRegionDown (top bottom : Z) (a : Attr) (b : screenBuffer) : screenBuffer :=
  let n := len (lines b) in
  if n =? 0 then b
  else
    let top := if top <? 0 then 0 else top in
    let bottom := if n <=? bottom then n - 1 else bottom in
    if bottom <? top then b
    else
      b <| lines := slice (lines b) 0 top ++ (blanked a <$> slice (lines b) top (top + 1)) ++ slice (lines b) top bottom ++
             slice (lines b) (bottom + 1) n |>.

Definition insertLines (y bottom n : Z) (a : Attr) (b : screenBuffer) : screenBuffer :=
  let k := len (lines b) in
  if (k =? 0) || (y <? 0) || (k <=? y) then b
  else
    let bottom := if k <=? bottom then k - 1 else bottom in
    let bottom := if bottom <? y then k - 1 else bottom in
    let n := if bottom - y + 1 <? n then bottom - y + 1 else n in
    b <| lines := slice (lines b) 0 y ++ (blanked a <$> slice (lines b) y (y + n)) ++ slice (lines b) y (bottom + 1 - n) ++
           slice (lines b) (bottom + 1) k |>.

Definition deleteLines (y bottom n : Z) (a : Attr) (b : screenBuffer) : screenBuffer :=
  let k := len (lines b) in
  if (k =? 0) || (y <? 0) || (k <=? y) then b
  else
    let bottom := if k <=? bottom then k - 1 else bottom in
    let bottom := if bottom <? y then k - 1 else bottom in
    let n := if bottom - y + 1 <? n then bottom - y + 1 else n in
    b <| lines := slice (lines b) 0 y ++ slice (lines b) (y + n) (bottom + 1) ++ (blanked a <$> slice (lines b) (bottom - n + 1) (bottom + 1)) ++
           slice (lines b) (bottom + 1) k |>.

Definition resize (sz : Size) (limit : Z) (b : screenBuffer) : screenBuffer :=
  let old := lines b in
  let fresh := (fun y => copy_into (blankLine (Cols sz)) (default [] (old !! y))) <$> seq 0 (Z.to_nat (Rows sz)) in
  let h := if (Rows sz <? len old) && (0 <? limit) then hist b ++ slice old 0 (len old - Rows sz) else hist b in
  trimHistory limit (mkScreen fresh h).

(** * Sizes and cursors *)

Definition normalizeSize (sz : Size) : Size :=
  mkSize (if Cols sz <=? 0 then 80 else Cols sz) (if Rows sz <=? 0 then 24 else Rows sz).

Definition clampCursor (c : Cursor) (sz : Size) : Cursor :=
  let x := if X c <? 0 then 0 else X c in
  let y := if Y c <? 0 then 0 else Y c in
  mkCursor (if Cols sz <=? x then Cols sz - 1 else x) (if Rows sz <=? y then Rows sz - 1 else y).

Definition NewEmulator (sz : Size) (limit : Z) : Emulator :=
  let sz := normalizeSize sz in
  let limit := if limit <? 0 then 0 else limit in
  mkEmulator sz limit (mkCursor 0 0) (mkCursor 0 0) (mkCursor 0 0) true defaultAttr (newScreenBuffer sz) (newScreenBuffer sz) false
    0 (Rows sz - 1) false false true 0 false false 0 zeroAttr false [] [] 0 stateGround [] [].

Definition active (e : Emulator) : screenBuffer := if altScreen e then alt e else main e.

Definition onActive (f : screenBuffer -> screenBuffer) (e : Emulator) : Emulator :=
  if altScreen e then e <| alt := f (alt e) |> else e <| main := f (main e) |>.

Definition lineAt (y : Z) (b : screenBuffer) : option line := if y <? 0 then None else lines b !! Z.to_nat y.

(** The line under the cursor is changed in place. *)
Definition onCursorLine (f : line -> option line) (e : Emulator) : option Emulator :=
  l ← lineAt (Y (cursor e)) (active e);
  l ← f l;
  Some (onActive (fun b => b <| lines := <[Z.to_nat (Y (cursor e)) := l]> (lines b) |>) e).

Definition setX (x : Z) (e : Emulator) : Emulator := e <| cursor := cursor e <| X := x |> |>.
Definition setY (y : Z) (e : Emulator) : Emulator := e <| cursor := cursor e <| Y := y |> |>.

(** * Moving *)

Definition lineFeed (e : Emulator) : Emulator :=
  if Y (cursor e) =? scrollBottom e then onActive (scrollRegion (scrollTop e) (scrollBottom e) (historyLimit e) (attr e)) e
  else if Y (cursor e) <? Rows (size e) - 1 then setY (Y (cursor e) + 1) e
  else e.

Definition control (b : Z) (e : Emulator) : Emulator :=
  if b =? 8 then if 0 <? X (cursor e) then setX (X (cursor e) - 1) e else e
  else if b =? 9 then
    let next := (X (cursor e) ÷ 8 + 1) * 8 in
    setX (if Cols (size e) <=? next then Cols (size e) - 1 else next) e
  else if (b =? 10) || (b =? 11) || (b =? 12) then lineFeed e
  else if b =? 13 then setX 0 e
  else if b =? 14 then e <| activeSet := 1 |>
  else if b =? 15 then e <| activeSet := 0 |>
  else e.

Definition saveCursor (e : Emulator) : Emulator := e <| savedCursor := cursor e |>.
Definition restoreCursor (e : Emulator) : Emulator := e <| cursor := clampCursor (savedCursor e) (size e) |>.

Definition reverseIndex (e : Emulator) : Emulator :=
  if negb (Y (cursor e) =? scrollTop e) then
    if 0 <? Y (cursor e) then setY (Y (cursor e) - 1) e else e
  else onActive (scrollRegionDown (scrollTop e) (scrollBottom e) (attr e)) e.

Definition atLeast1 (n : Z) : Z := if n <? 1 then 1 else n.
Definition inRegion (e : Emulator) : bool := (scrollTop e <=? Y (cursor e)) && (Y (cursor e) <=? scrollBottom e).

Definition cursorUp (n : Z) (e : Emulator) : Emulator :=
  let limit := if inRegion e then scrollTop e else 0 in
  let y := i64 (Y (cursor e) - atLeast1 n) in
  setY (if y <? limit then limit else y) e.

Definition cursorDown (n : Z) (e : Emulator) : Emulator :=
  let limit := if inRegion e then scrollBottom e else Rows (size e) - 1 in
  let y := i64 (Y (cursor e) + atLeast1 n) in
  setY (if limit <? y then limit else y) e.

Definition setScrollRegion (top bottom : Z) (e : Emulator) : Emulator :=
  let top := if top <? 0 then 0 else top in
  let bottom := if Rows (size e) <=? bottom then Rows (size e) - 1 else bottom in
  if bottom <=? top then e
  else e <| scrollTop := top |> <| scrollBottom := bottom |> <| cursor := mkCursor 0 0 |>.

(** * Editing *)

Definition insertCharacter (n : Z) (e : Emulator) : option Emulator :=
  onCursorLine (fun l => insertCells l (X (cursor e)) (atLeast1 n) (attr e)) e.

Definition deleteCharacter (n : Z) (e : Emulator) : option Emulator :=
  onCursorLine (fun l => deleteCells l (X (cursor e)) (atLeast1 n) (attr e)) e.

Definition eraseCharacters (n : Z) (e : Emulator) : option Emulator :=
  onCursorLine (fun l => Some (clearRange l (X (cursor e)) (i64 (X (cursor e) + atLeast1 n)) (attr e))) e.

Definition insertLine (n : Z) (e : Emulator) : Emulator :=
  onActive (insertLines (Y (cursor e)) (scrollBottom e) (atLeast1 n) (attr e)) e.

Definition deleteLine (n : Z) (e : Emulator) : Emulator :=
  onActive (deleteLines (Y (cursor e)) (scrollBottom e) (atLeast1 n) (attr e)) e.

Definition scrollUp (n : Z) (e : Emulator) : Emulator :=
  Z.iter (atLeast1 n) (onActive (scrollRegion (scrollTop e) (scrollBottom e) (historyLimit e) (attr e))) e.

Definition scrollDown (n : Z) (e : Emulator) : Emulator :=
  Z.iter (atLeast1 n) (onActive (scrollRegionDown (scrollTop e) (scrollBottom e) (attr e))) e.

Definition eraseDisplay (mode : Z) (e : Emulator) : option Emulator :=
  let c := cursor e in
  if (mode =? 2) || (mode =? 3) then
    Some (onActive (fun b => mkScreen ((fun _ => blankLineWithAttr (Cols (size e)) (attr e)) <$> lines b) (if mode =? 3 then [] else hist b)) e)
  else if mode =? 1 then
    Some (onActive (fun b => b <| lines := imap (fun y l =>
      if Z.of_nat y <=? Y c then clearRange l 0 (if Z.of_nat y =? Y c then X c + 1 else Cols (size e)) (attr e) else l) (lines b) |>) e)
  else if Y c <? 0 then None
  else
    Some (onActive (fun b => b <| lines := imap (fun y l =>
      if Y c <=? Z.of_nat y then clearRange l (if Z.of_nat y =? Y c then X c else 0) (Cols (size e)) (attr e) else l) (lines b) |>) e).

Definition eraseLine (mode : Z) (e : Emulator) : option Emulator :=
  onCursorLine (fun l => Some (
    if mode =? 1 then clearRange l 0 (X (cursor e) + 1) (attr e)
    else if mode =? 2 then clearRange l 0 (Cols (size e)) (attr e)
    else clearRange l (X (cursor e)) (Cols (size e)) (attr e))) e.

(** * Attributes and modes *)

Abbreviation trueColorBase := (2 ^ 24)%Z.

Definition clampColorComponent (v : Z) : Z := if v <? 0 then 0 else if 255 <? v then 255 else v.
Definition rgb (r g b : Z) : Z :=
  Z.lor (Z.lor (Z.lor trueColorBase (Z.shiftl (clampColorComponent r) 16)) (Z.shiftl (clampColorComponent g) 8)) (clampColorComponent b).

(** The parameters after a 38 or a 48: the colour and those that are left. *)
Definition extendedColor (ps : list Z) : option (Z * list Z) :=
  match ps with
  | [] => None
  | mode :: ps =>
      if mode =? 5 then
        match ps with
        | c :: ps => Some (clampColorComponent c, ps)
        | [] => None
        end
      else if mode =? 2 then
        match ps with
        | r :: g :: b :: ps =>
            match ps with
            | b' :: ps' => if r =? 0 then Some (rgb g b b', ps') else Some (rgb r g b, ps)
            | [] => Some (rgb r g b, [])
            end
        | _ => None
        end
      else None
  end.

(** Every turn takes a parameter at least. *)
Fixpoint sgrFrom (fuel : nat) (ps : list Z) (a : Attr) : Attr :=
  match fuel, ps with
  | S fuel, p :: ps =>
      if p =? 0 then sgrFrom fuel ps defaultAttr
      else if p =? 1 then sgrFrom fuel ps (a <| Bold := true |>)
      else if p =? 4 then sgrFrom fuel ps (a <| Underline := true |>)
      else if p =? 7 then sgrFrom fuel ps (a <| Inverse := true |>)
      else if p =? 22 then sgrFrom fuel ps (a <| Bold := false |>)
      else if p =? 24 then sgrFrom fuel ps (a <| Underline := false |>)
      else if p =? 27 then sgrFrom fuel ps (a <| Inverse := false |>)
      else if p =? 39 then sgrFrom fuel ps (a <| FG := -1 |>)
      else if p =? 49 then sgrFrom fuel ps (a <| BG := -1 |>)
      else if p =? 38 then
        match extendedColor ps with Some (c, ps) => sgrFrom fuel ps (a <| FG := c |>) | None => sgrFrom fuel ps a end
      else if p =? 48 then
        match extendedColor ps with Some (c, ps) => sgrFrom fuel ps (a <| BG := c |>) | None => sgrFrom fuel ps a end
      else if between 30 37 p then sgrFrom fuel ps (a <| FG := p - 30 |>)
      else if between 40 47 p then sgrFrom fuel ps (a <| BG := p - 40 |>)
      else if between 90 97 p then sgrFrom fuel ps (a <| FG := p - 90 + 8 |>)
      else if between 100 107 p then sgrFrom fuel ps (a <| BG := p - 100 + 8 |>)
      else sgrFrom fuel ps a
  | _, _ => a
  end.

Definition setSGR (ps : list Z) (e : Emulator) : Emulator :=
  let ps := match ps with [] => [0] | _ => ps end in
  e <| attr := sgrFrom (length ps) ps (attr e) |>.

Definition privateMode (enabled : bool) (e : Emulator) (p : Z) : Emulator :=
  if p =? 6 then e <| originMode := enabled |> <| cursor := mkCursor 0 (if enabled then scrollTop e else 0) |>
  else if p =? 7 then e <| autoWrap := enabled |>
  else if p =? 25 then e <| cursorVisible := enabled |>
  else if (p =? 47) || (p =? 1047) then
    let e := e <| altScreen := enabled |> <| cursor := mkCursor 0 0 |> in
    if enabled then e <| alt := newScreenBuffer (size e) |> else e
  else if p =? 1048 then if enabled then saveCursor e else restoreCursor e
  else if p =? 1049 then
    if enabled then
      e <| altSavedCursor := cursor e |> <| altScreen := true |> <| cursor := mkCursor 0 0 |> <| alt := newScreenBuffer (size e) |>
    else e <| altScreen := false |> <| cursor := clampCursor (altSavedCursor e) (size e) |>
  else e.

Definition setPrivateMode (ps : list Z) (enabled : bool) (e : Emulator) : Emulator := foldl (privateMode enabled) e ps.

Definition setMode (ps : list Z) (enabled : bool) (e : Emulator) : Emulator :=
  foldl (fun e p => if p =? 4 then e <| insertMode := enabled |> else e) e ps.

Definition reset (e : Emulator) : Emulator :=
  mkEmulator (size e) (historyLimit e) (mkCursor 0 0) (mkCursor 0 0) (mkCursor 0 0) true defaultAttr
    (newScreenBuffer (size e)) (newScreenBuffer (size e)) false 0 (Rows (size e) - 1) false false true 0 false false 0 zeroAttr false
    [] (rawTail e) (bytesRead e) (state e) (esc e) (osc e).

(** The line drawing characters. *)
Definition lineDrawing : list (Z * Z) :=
  [(96, 0x25c6); (97, 0x2592); (102, 0xb0); (103, 0xb1); (106, 0x2518); (107, 0x2510); (108, 0x250c); (109, 0x2514); (110, 0x253c);
   (113, 0x2500); (116, 0x251c); (117, 0x2524); (118, 0x2534); (119, 0x252c); (120, 0x2502)].

Definition mapCharset (e : Emulator) (r : Z) : Z :=
  if negb (if activeSet e =? 1 then g1LineDraw e else g0LineDraw e) then r
  else match list_find (fun c => c.1 = r) lineDrawing with Some (_, (_, r')) => r' | None => r end.

(** * Sequences *)

(** The digits at the front of a field. *)
Fixpoint parseDigits (n : Z) (f : bytes) : Z :=
  match f with
  | d :: f => if (d <? 48) || (57 <? d) then n else parseDigits (i64 (n * 10 + (d - 48))) f
  | [] => n
  end.

Definition parseCSIParams (body : bytes) : list Z :=
  match body with
  | [] => []
  | _ => parseDigits 0 <$> splitOn 59 ((fun c => if c =? 58 then 59 else c) <$> body)
  end.

Definition paramDefault (ps : list Z) (index : nat) (fallback : Z) : Z :=
  match ps !! index with
  | Some p => if p =? 0 then fallback else p
  | None => fallback
  end.

Definition handleOSC (seq : bytes) (e : Emulator) : Emulator :=
  if hasPrefix seq [48; 59] || hasPrefix seq [50; 59] then e <| title := drop 2 seq |> else e.

Definition handleEscapeByte (b : Z) (e : Emulator) : Emulator :=
  let ground e := e <| state := stateGround |> in
  if b =? 91 then e <| state := stateCSI |> <| esc := [] |>
  else if b =? 93 then e <| state := stateOSC |> <| osc := [] |>
  else if b =? 99 then ground (reset e)
  else if b =? 68 then ground (lineFeed e)
  else if b =? 69 then ground (lineFeed (setX 0 e))
  else if b =? 72 then ground e
  else if b =? 77 then ground (reverseIndex e)
  else if b =? 55 then ground (saveCursor e)
  else if b =? 56 then ground (restoreCursor e)
  else if b =? 40 then e <| state := stateCharsetG0 |>
  else if b =? 41 then e <| state := stateCharsetG1 |>
  else ground e.

Abbreviation tailLimit := (64 * 1024)%Z.

Definition appendRawTail (data : bytes) (e : Emulator) : Emulator :=
  let t := rawTail e ++ data in
  e <| rawTail := if tailLimit <? len t then slice t (len t - tailLimit) (len t) else t |>.

Section emulator.
Variable isMn : Z -> bool.

Definition runeWidth (r : Z) : Z :=
  if (r =? 0) || isMn r then 0
  else if (0x1100 <=? r) &&
    ((r <=? 0x115f) || (r =? 0x2329) || (r =? 0x232a) || between 0x2e80 0xa4cf r || between 0xac00 0xd7a3 r || between 0xf900 0xfaff r ||
     between 0xfe10 0xfe19 r || between 0xfe30 0xfe6f r || between 0xff00 0xff60 r || between 0xffe0 0xffe6 r) then 2
  else 1.

(** The cell of the rune and the empty ones of its further columns. *)
Definition putRune (r width : Z) (e : Emulator) (l : line) : option line :=
  let x := X (cursor e) in
  l ← (if insertMode e then insertCells l x width (attr e) else Some l);
  l ← setCell l x (mkCell r (attr e));
  foldl (fun m i => l ← m; setCell l (x + i) (mkCell 0 (attr e))) (Some l) (seqZ 1 (Z.min width (Cols (size e) - x) - 1)).

(** To the next line where the rune does not fit. *)
Definition wrapCursor (width : Z) (e : Emulator) : Emulator :=
  let e :=
    if Cols (size e) <=? X (cursor e) then
      if autoWrap e then lineFeed (setX 0 e) else setX (Cols (size e) - 1) e
    else e in
  if (Cols (size e) <? X (cursor e) + width) && autoWrap e then lineFeed (setX 0 e) else e.

Definition printRune (r : Z) (e : Emulator) : option Emulator :=
  if r =? 0 then Some e
  else if isMn r then Some e
  else
    let width := runeWidth r in
    if width <=? 0 then Some e
    else
      let e := wrapCursor width e in
      let r := mapCharset e r in
      e ← onCursorLine (putRune r width e) e;
      let e := e <| lastRune := r |> <| lastAttr := attr e |> <| lastValid := true |> in
      let x := X (cursor e) + width in
      Some (setX (if Cols (size e) <=? x then if autoWrap e then Cols (size e) else Cols (size e) - 1 else x) e).

Definition repeatLast (n : Z) (e : Emulator) : option Emulator :=
  if negb (lastValid e) then Some e
  else
    let a := attr e in
    e ← Z.iter (atLeast1 n) (fun m => e ← m; printRune (lastRune e) e) (Some (e <| attr := lastAttr e |>));
    Some (e <| attr := a |>).

Definition dispatchCSI (final : Z) (private : bool) (ps : list Z) (e : Emulator) : option Emulator :=
  let p := paramDefault ps in
  let row := let y := i64 (p 0%nat 1 - 1) in if originMode e then i64 (y + scrollTop e) else y in
  if final =? 64 then insertCharacter (p 0%nat 1) e
  else if final =? 65 then Some (cursorUp (p 0%nat 1) e)
  else if final =? 66 then Some (cursorDown (p 0%nat 1) e)
  else if final =? 67 then Some (setX (i64 (X (cursor e) + p 0%nat 1)) e)
  else if final =? 68 then Some (setX (i64 (X (cursor e) - p 0%nat 1)) e)
  else if final =? 69 then Some (cursorDown (p 0%nat 1) (setX 0 e))
  else if final =? 70 then Some (cursorUp (p 0%nat 1) (setX 0 e))
  else if final =? 71 then Some (setX (i64 (p 0%nat 1 - 1)) e)
  else if (final =? 72) || (final =? 102) then Some (setX (i64 (p 1%nat 1 - 1)) (setY row e))
  else if final =? 74 then eraseDisplay (p 0%nat 0) e
  else if final =? 75 then eraseLine (p 0%nat 0) e
  else if final =? 76 then Some (insertLine (p 0%nat 1) e)
  else if final =? 77 then Some (deleteLine (p 0%nat 1) e)
  else if final =? 80 then deleteCharacter (p 0%nat 1) e
  else if final =? 83 then Some (scrollUp (p 0%nat 1) e)
  else if final =? 84 then Some (scrollDown (p 0%nat 1) e)
  else if final =? 88 then eraseCharacters (p 0%nat 1) e
  else if final =? 98 then repeatLast (p 0%nat 1) e
  else if final =? 100 then Some (setY row e)
  else if final =? 109 then Some (setSGR ps e)
  else if final =? 114 then Some (setScrollRegion (i64 (p 0%nat 1 - 1)) (i64 (p 1%nat (Rows (size e)) - 1)) e)
  else if final =? 115 then Some (saveCursor e)
  else if final =? 117 then Some (restoreCursor e)
  else if final =? 104 then Some (if private then setPrivateMode ps true e else setMode ps true e)
  else if final =? 108 then Some (if private then setPrivateMode ps false e else setMode ps false e)
  else Some e.

(** [body] without its last byte [final]. *)
Definition handleCSI (body : bytes) (final : Z) (e : Emulator) : option Emulator :=
  let private := hasPrefix body [63] in
  e ← dispatchCSI final private (parseCSIParams (trimPrefix body [63])) e;
  Some (e <| cursor := clampCursor (cursor e) (size e) |>).

(** One turn of the loop of [Write]: what it does with the bytes that are left, and how many of them it takes. *)
Definition consume (b : Z) (data : bytes) (e : Emulator) : option (Emulator * Z) :=
  match state e with
  | stateGround =>
      if b =? 27 then Some (e <| state := stateEscape |> <| esc := [] |>, 1)
      else if (b <? 32) || (b =? 127) then Some (control b e, 1)
      else let '(r, n) := decodeRune (b :: data) in e ← printRune r e; Some (e, n)
  | stateEscape => Some (handleEscapeByte b e, 1)
  | stateCSI =>
      let body := esc e in
      let e := e <| esc := body ++ [b] |> in
      if between 64 126 b then e ← handleCSI body b e; Some (e <| state := stateGround |>, 1)
      else Some (e, 1)
  | stateOSC =>
      if b =? 7 then Some (handleOSC (osc e) e <| state := stateGround |>, 1)
      else if (b =? 27) && bool_decide (head data = Some 92) then Some (handleOSC (osc e) e <| state := stateGround |>, 2)
      else Some (e <| osc := osc e ++ [b] |>, 1)
  | stateCharsetG0 => Some (e <| g0LineDraw := b =? 48 |> <| state := stateGround |>, 1)
  | stateCharsetG1 => Some (e <| g1LineDraw := b =? 48 |> <| state := stateGround |>, 1)
  end.

Fixpoint interpret (fuel : nat) (data : bytes) (e : Emulator) : option Emulator :=
  match data with
  | [] => Some e
  | b :: rest =>
      match fuel with
      | O => None
      | S fuel => '(e, n) ← consume b rest e; interpret fuel (drop (Z.to_nat n) data) e
      end
  end.

Definition Write (data : bytes) (e : Emulator) : option Emulator :=
  interpret (length data) data (appendRawTail data (e <| bytesRead := i64 (bytesRead e + len data) |>)).

(** * Sizes and snapshots *)

Definition Resize (sz : Size) (e : Emulator) : Emulator :=
  let sz := normalizeSize sz in
  e <| size := sz |> <| main := resize sz (historyLimit e) (main e) |> <| alt := resize sz 0 (alt e) |>
    <| cursor := clampCursor (cursor e) sz |> <| savedCursor := clampCursor (savedCursor e) sz |>
    <| altSavedCursor := clampCursor (altSavedCursor e) sz |> <| scrollTop := 0 |> <| scrollBottom := Rows sz - 1 |>.

Fixpoint trimRight (s : bytes) : bytes :=
  match s with
  | [] => []
  | c :: s => match trimRight s with [] => if c =? 32 then [] else [c] | s => c :: s end
  end.

Definition cellsString (l : line) : bytes :=
  trimRight (concat ((fun c => if R c =? 0 then [] else encodeRune (R c)) <$> l)).

Fixpoint placeRunes (cols x : Z) (a : Attr) (rs : list Z) (l : line) : line :=
  match rs with
  | r :: rs => if cols <=? x then l else placeRunes cols (x + runeWidth r) a rs (<[Z.to_nat x := mkCell r a]> l)
  | [] => l
  end.

Definition cellsFromString (s : bytes) (cols : Z) (a : Attr) : line := placeRunes cols 0 a (runesOf s) (blankLine cols).

Definition takeSnapshot (e : Emulator) : Snapshot :=
  let b := active e in
  mkSnapshot (size e) (cursor e) (cursorVisible e) (altScreen e) (cellsString <$> lines b) (lines b) (cellsString <$> hist b)
    (title e) (rawTail e) (bytesRead e).

(** The first lines of the screen, as many as there are given. *)
Definition restoredLines (sz : Size) (s : Snapshot) : list line :=
  match sCells s with
  | _ :: _ => (fun l => copy_into (blankLine (Cols sz)) l) <$> sCells s
  | [] => (fun l => cellsFromString l (Cols sz) defaultAttr) <$> sLines s
  end.

Definition Restore (s : Snapshot) (limit : Z) : Emulator :=
  let e := NewEmulator (sSize s) limit in
  let nothing := negb (sCursorVisible s) && (sBytesRead s =? 0) && (len (sLines s) =? 0) && (len (sCells s) =? 0) in
  let e := e <| cursor := clampCursor (sCursor s) (size e) |> <| cursorVisible := if nothing then true else sCursorVisible s |>
             <| altScreen := sAltScreen s |> <| title := sTitle s |> <| rawTail := sRawTail s |> <| bytesRead := sBytesRead s |> in
  onActive (fun b => trimHistory limit
    (mkScreen (copy_into (lines b) (restoredLines (size e) s)) (hist b ++ ((fun l => cellsFromString l (Cols (size e)) defaultAttr) <$> sHistory s)))) e.
End emulator.
