(* ===== verification/TerminalSafety.v ===== *)
(** What the terminal emulator of [Terminal.v] keeps.

    [emulatorOK] is its invariant, and every operation keeps it: [terminal_never_panics] says
    that whatever is written, resized and restored, the next write is interpreted to its end,
    every index in range.  [tap_interpret]: the interpreter neither reads nor writes the raw tail
    and the count of bytes. *)

From S2P Require Import Prelude Paths Utf8 Terminal.

(** * The invariant *)

Record screenOK (sz : Size) (limit : Z) (b : screenBuffer) : Prop := {
  screen_rows : len (lines b) = Rows sz;
  screen_cols : Forall (fun l => len l = Cols sz) (lines b);
  screen_hist : len (hist b) <= limit;
}.

Record shapeOK (sz : Size) (limit : Z) (m a : screenBuffer) (top bottom : Z) : Prop := {
  body_cols : 0 < Cols sz;
  body_rows : 0 < Rows sz;
  body_limit : 0 <= limit;
  body_main : screenOK sz limit m;
  body_alt : screenOK sz limit a;
  body_region : 0 <= top /\ top <= bottom < Rows sz;
}.
Arguments body_cols {_ _ _ _ _ _}.
Arguments body_rows {_ _ _ _ _ _}.

Definition bodyOK (e : Emulator) : Prop := shapeOK (size e) (historyLimit e) (main e) (alt e) (scrollTop e) (scrollBottom e).

(** A cursor one column behind the last waits to wrap. *)
Definition cursorOK (e : Emulator) : Prop := 0 <= X (cursor e) <= Cols (size e) /\ 0 <= Y (cursor e) < Rows (size e).
Definition emulatorOK (e : Emulator) : Prop := bodyOK e /\ cursorOK e.

(** * Lines keep their length *)

Lemma len_blank n a : 0 <= n -> len (blankLineWithAttr n a) = n.
Proof. intros H. unfold len, blankLineWithAttr. rewrite length_replicate. lia. Qed.

Lemma len_clearRange l s t a : len (clearRange l s t a) = len l.
Proof. unfold len, clearRange. by rewrite length_imap. Qed.

Lemma len_setCell l x c : 0 <= x < len l -> exists l', setCell l x c = Some l' /\ len l' = len l.
Proof.
  intros H. unfold setCell. rewrite (proj2 (Z.leb_le 0 x)), (proj2 (Z.ltb_lt x (len l))) by lia.
  eexists. split; [done|]. unfold len. by rewrite length_insert.
Qed.

Lemma len_insertCells l s n a : 0 <= n -> exists l', insertCells l s n a = Some l' /\ len l' = len l.
Proof.
  intros H. unfold insertCells. set (s' := if s <? 0 then 0 else s). assert (0 <= s') by (unfold s'; case_match; lia).
  case_match; [by eexists|]. set (n' := if len l - s' <? n then _ else n).
  assert (0 <= n' <= len l - s') by (unfold n'; case_match; lia).
  rewrite (proj2 (Z.ltb_ge n' 0)) by lia. eexists. split; [done|].
  rewrite len_clearRange, len_app, !len_slice by lia. lia.
Qed.

Lemma len_deleteCells l x n a : 0 <= x -> 0 <= n -> exists l', deleteCells l x n a = Some l' /\ len l' = len l.
Proof.
  intros Hx H. unfold deleteCells. case_match; [by eexists|]. rewrite (proj2 (Z.ltb_ge x 0)) by lia.
  set (n' := if len l - x <? n then _ else n).
  assert (0 <= n' <= len l - x) by (unfold n'; case_match; lia).
  eexists. split; [done|]. rewrite len_clearRange, !len_app, !len_slice by lia. lia.
Qed.

(** * Screens keep their shape *)

Lemma Forall_slice {A} (P : A -> Prop) l a b : Forall P l -> Forall P (slice l a b).
Proof. intros H. unfold slice. by apply Forall_take, Forall_drop. Qed.

Lemma Forall_blanked n a ls : Forall (fun l => len l = n) ls -> Forall (fun l => len l = n) (blanked a <$> ls).
Proof.
  intros H. apply Forall_fmap. eapply Forall_impl; [exact H|]. intros l Hl. unfold compose, blanked. rewrite <- Hl. apply len_blank, len_nonneg.
Qed.

Lemma len_fmap {A B} (f : A -> B) l : len (f <$> l) = len l.
Proof. unfold len. by rewrite length_fmap. Qed.

Section screens.
Context (sz : Size) (limit : Z).
Implicit Types b : screenBuffer.

Lemma trimHistory_len n b : 0 <= n -> len (hist (trimHistory n b)) <= n.
Proof.
  intros H. unfold trimHistory. case_match; cbn -[len]; [rewrite len_nil; lia|]. case_match; cbn -[len]; [rewrite len_slice|]; lia.
Qed.

Lemma trimHistory_lines n b : lines (trimHistory n b) = lines b.
Proof. unfold trimHistory. by repeat case_match. Qed.

(** The shape of a screen whose lines are rearranged. *)
Lemma rearranged b ls : screenOK sz limit b -> len ls = len (lines b) -> Forall (fun l => len l = Cols sz) ls ->
  screenOK sz limit (b <| lines := ls |>).
Proof. intros [H1 H2 H3] Hl Hf. split; cbn; [congruence|done|done]. Qed.

Ltac solve_lines :=
  apply rearranged; [done| |repeat apply Forall_app_2; auto using Forall_slice, Forall_blanked];
  rewrite !len_app, ?len_fmap, !len_slice by lia; lia.

Lemma scrollRegion_ok top bottom a b : screenOK sz limit b -> screenOK sz limit (scrollRegion top bottom limit a b).
Proof.
  intros H. pose proof (screen_cols _ _ _ H) as Hc. pose proof (len_nonneg (lines b)). unfold scrollRegion. case_match; [done|].
  set (t := if top <? 0 then 0 else top). set (m := if len (lines b) <=? bottom then _ else bottom).
  assert (0 <= t) by (unfold t; case_match; lia). assert (m < len (lines b)) by (unfold m; case_match; lia).
  case_match; [done|]. set (b' := if _ && _ && _ then _ else b).
  assert (E : lines b' = lines b) by (unfold b'; case_match; [by rewrite trimHistory_lines|done]).
  assert (H' : screenOK sz limit b').
  { destruct H as [H1' H2' H3']. split; rewrite ?E; [done|done|]. unfold b'. case_match; [|done]. apply trimHistory_len. lia. }
  rewrite E. apply rearranged; [done| |repeat apply Forall_app_2; auto using Forall_slice, Forall_blanked].
  rewrite E, !len_app, len_fmap, !len_slice by lia. lia.
Qed.

Lemma scrollRegionDown_ok top bottom a b : screenOK sz limit b -> screenOK sz limit (scrollRegionDown top bottom a b).
Proof.
  intros H. pose proof (screen_cols _ _ _ H) as Hc. pose proof (len_nonneg (lines b)). unfold scrollRegionDown. case_match; [done|].
  set (t := if top <? 0 then 0 else top). set (m := if len (lines b) <=? bottom then _ else bottom).
  assert (0 <= t) by (unfold t; case_match; lia). assert (m < len (lines b)) by (unfold m; case_match; lia).
  case_match; [done|]. solve_lines.
Qed.

(** The lines that [insertLines] and [deleteLines] work on. *)
Lemma edited_region (y bottom n k : Z) : 0 <= y < k -> 0 <= n ->
  let m := (let m := if k <=? bottom then k - 1 else bottom in if m <? y then k - 1 else m) in
  y <= m < k /\ 0 <= (if m - y + 1 <? n then m - y + 1 else n) <= m - y + 1.
Proof. intros Hy Hn. cbv zeta. repeat case_match; lia. Qed.

Lemma insertLines_ok y bottom n a b : 0 <= n -> screenOK sz limit b -> screenOK sz limit (insertLines y bottom n a b).
Proof.
  intros Hn H. pose proof (screen_cols _ _ _ H) as Hc. unfold insertLines. case_match eqn:E; [done|].
  destruct (edited_region y bottom n (len (lines b))) as [Hm Hk]; [lia|done|].
  set (m := if _ <? y then _ else _) in *. set (k := if m - y + 1 <? n then _ else n) in *.
  solve_lines.
Qed.

Lemma deleteLines_ok y bottom n a b : 0 <= n -> screenOK sz limit b -> screenOK sz limit (deleteLines y bottom n a b).
Proof.
  intros Hn H. pose proof (screen_cols _ _ _ H) as Hc. unfold deleteLines. case_match eqn:E; [done|].
  destruct (edited_region y bottom n (len (lines b))) as [Hm Hk]; [lia|done|].
  set (m := if _ <? y then _ else _) in *. set (k := if m - y + 1 <? n then _ else n) in *.
  solve_lines.
Qed.

Lemma newScreen_ok : 0 < Cols sz -> 0 < Rows sz -> 0 <= limit -> screenOK sz limit (newScreenBuffer sz).
Proof.
  intros Hc Hr Hl. split; cbn; [|apply Forall_replicate, len_blank; lia|done]. unfold len. rewrite length_replicate. lia.
Qed.

Lemma resize_ok n b : 0 < Cols sz -> 0 < Rows sz -> 0 <= n <= limit -> screenOK sz limit (resize sz n b).
Proof.
  intros Hc Hr Hl. unfold resize. split; rewrite ?trimHistory_lines; cbn [lines].
  - rewrite len_fmap. unfold len. rewrite length_seq. lia.
  - apply Forall_fmap, Forall_true. intros y. unfold compose. rewrite len_copy_into. apply len_blank. lia.
  - pose proof (trimHistory_len n (mkScreen ((fun y => copy_into (blankLine (Cols sz)) (default [] (lines b !! y))) <$> seq 0 (Z.to_nat (Rows sz)))
      (if (Rows sz <? len (lines b)) && (0 <? n) then hist b ++ slice (lines b) 0 (len (lines b) - Rows sz) else hist b))). lia.
Qed.
End screens.

(** * The operations keep the invariant *)

(** Work on the active screen; nothing else of the emulator changes. *)
Lemma onActive_body f e : (forall b, screenOK (size e) (historyLimit e) b -> screenOK (size e) (historyLimit e) (f b)) ->
  bodyOK e -> bodyOK (onActive f e).
Proof. intros Hf [H1 H2 H3 H4 H5 H6]. unfold onActive. destruct (altScreen e); split; cbn; auto. Qed.

Lemma onActive_cursor f e : cursor (onActive f e) = cursor e.
Proof. unfold onActive. by destruct (altScreen e). Qed.

Lemma onActive_size f e : size (onActive f e) = size e.
Proof. unfold onActive. by destruct (altScreen e). Qed.

Lemma onActive_autoWrap f e : autoWrap (onActive f e) = autoWrap e.
Proof. unfold onActive. by destruct (altScreen e). Qed.

Lemma onActive_ok f e : (forall b, screenOK (size e) (historyLimit e) b -> screenOK (size e) (historyLimit e) (f b)) ->
  emulatorOK e -> emulatorOK (onActive f e).
Proof. intros Hf [Hb Hc]. split; [by apply onActive_body|]. unfold cursorOK. by rewrite onActive_cursor, onActive_size. Qed.

Lemma active_ok e : bodyOK e -> screenOK (size e) (historyLimit e) (active e).
Proof. intros H. unfold active. destruct (altScreen e); apply H. Qed.

(** The line under the cursor. *)
Lemma cursor_line e : emulatorOK e -> exists l, lineAt (Y (cursor e)) (active e) = Some l /\ len l = Cols (size e).
Proof.
  intros [Hb [_ Hy]]. pose proof (active_ok e Hb) as [Hr Hc _]. unfold lineAt. rewrite (proj2 (Z.ltb_ge _ 0)) by lia.
  destruct (lookup_lt_is_Some_2 (lines (active e)) (Z.to_nat (Y (cursor e)))) as [l Hl]; [unfold len in Hr; lia|].
  exists l. split; [done|]. by eapply (Forall_lookup_1 _ _ _ _ Hc).
Qed.

(** Any change of the line under the cursor that keeps its length. *)
Lemma onCursorLine_ok f e : emulatorOK e -> (forall l, len l = Cols (size e) -> exists l', f l = Some l' /\ len l' = len l) ->
  exists e', onCursorLine f e = Some e' /\ emulatorOK e' /\ size e' = size e /\ cursor e' = cursor e /\ autoWrap e' = autoWrap e.
Proof.
  intros H Hf. destruct (cursor_line e H) as (l & Hl & Hlen). destruct (Hf l Hlen) as (l' & Hl' & Hlen').
  unfold onCursorLine. rewrite Hl. cbn [mbind option_bind]. rewrite Hl'. cbn [mbind option_bind].
  eexists. split; [done|]. rewrite onActive_size, onActive_cursor, onActive_autoWrap. split; [|done]. apply onActive_ok; [|done].
  intros b Hb. apply rearranged; [done|unfold len; by rewrite length_insert|]. apply Forall_insert; [apply Hb|congruence].
Qed.

Lemma setX_ok x e : 0 <= x <= Cols (size e) -> emulatorOK e -> emulatorOK (setX x e).
Proof. intros Hx [Hb [_ Hy]]. split; [exact Hb|]. split; [exact Hx|exact Hy]. Qed.

Lemma setY_ok y e : 0 <= y < Rows (size e) -> emulatorOK e -> emulatorOK (setY y e).
Proof. intros Hx [Hb [Hy _]]. split; [exact Hb|]. split; [exact Hy|exact Hx]. Qed.

Lemma lineFeed_ok e : emulatorOK e -> emulatorOK (lineFeed e).
Proof.
  intros H. unfold lineFeed. case_match; [apply onActive_ok; [intros; by apply scrollRegion_ok|done]|].
  case_match; [|done]. apply setY_ok; [|done]. destruct H as [_ [_ H]]. lia.
Qed.

Lemma lineFeed_size e : size (lineFeed e) = size e.
Proof. unfold lineFeed. repeat case_match; [apply onActive_size|done|done]. Qed.

Lemma lineFeed_X e : X (cursor (lineFeed e)) = X (cursor e).
Proof. unfold lineFeed. repeat case_match; [by rewrite onActive_cursor|done|done]. Qed.

Lemma lineFeed_autoWrap e : autoWrap (lineFeed e) = autoWrap e.
Proof. unfold lineFeed. repeat case_match; [by rewrite onActive_autoWrap|done|done]. Qed.

Lemma control_ok b e : emulatorOK e -> emulatorOK (control b e).
Proof.
  intros H. pose proof H as [Hb [Hx Hy]]. pose proof (body_cols Hb). unfold control.
  assert (0 <= X (cursor e) ÷ 8) by (apply Z.quot_pos; lia).
  repeat case_match; try exact H; try (by apply lineFeed_ok); apply setX_ok; try exact H; lia.
Qed.

Lemma clamp_ok c e : bodyOK e -> bodyOK (e <| cursor := clampCursor c (size e) |>) /\ cursorOK (e <| cursor := clampCursor c (size e) |>).
Proof.
  intros H. split; [exact H|]. pose proof (body_cols H). pose proof (body_rows H).
  unfold cursorOK, clampCursor. cbn -[Z.leb Z.ltb]. repeat case_match; lia.
Qed.

Lemma restoreCursor_ok e : bodyOK e -> emulatorOK (restoreCursor e).
Proof. apply clamp_ok. Qed.

Lemma reverseIndex_ok e : emulatorOK e -> emulatorOK (reverseIndex e).
Proof.
  intros H. unfold reverseIndex. case_match.
  - case_match; [|done]. apply setY_ok; [|done]. destruct H as [_ [_ H]]. lia.
  - apply onActive_ok; [|done]. intros. by apply scrollRegionDown_ok.
Qed.

Lemma reset_ok e : bodyOK e -> emulatorOK (reset e).
Proof.
  intros [H1 H2 H3 H4 H5 H6]. split; [split; cbn; auto using newScreen_ok; lia|]. split; cbn; lia.
Qed.

Lemma handleEscapeByte_ok b e : emulatorOK e -> emulatorOK (handleEscapeByte b e).
Proof.
  intros H. pose proof H as [Hb [Hx Hy]]. unfold handleEscapeByte. repeat case_match; try exact H.
  - exact (reset_ok e Hb).
  - exact (lineFeed_ok e H).
  - refine (lineFeed_ok (setX 0 e) _). apply setX_ok; [lia|done].
  - exact (reverseIndex_ok e H).
  - exact (restoreCursor_ok e Hb).
Qed.

Lemma iter_keeps {A} (P : A -> Prop) (f : A -> A) n x : (forall x, P x -> P (f x)) -> P x -> P (Z.iter n f x).
Proof. intros Hf Hx. destruct n; cbn; [done| |done]. by apply Pos.iter_invariant. Qed.

Lemma atLeast1_pos n : 1 <= atLeast1 n.
Proof. unfold atLeast1. case_match; lia. Qed.

Lemma clampCursor_ok e : bodyOK e -> emulatorOK (e <| cursor := clampCursor (cursor e) (size e) |>).
Proof. apply clamp_ok. Qed.

Lemma eraseDisplay_ok mode e : emulatorOK e -> exists e', eraseDisplay mode e = Some e' /\ bodyOK e'.
Proof.
  intros [Hb [Hx Hy]]. pose proof (body_cols Hb). unfold eraseDisplay.
  assert (Hi : forall f b, (forall y l, len (f y l) = len l) -> screenOK (size e) (historyLimit e) b ->
    screenOK (size e) (historyLimit e) (b <| lines := imap f (lines b) |>)).
  { intros f b Hf Hs. apply rearranged; [done|unfold len; by rewrite length_imap|].
    apply Forall_lookup_2. intros i l Hl. apply list_lookup_imap_Some in Hl as (l0 & Hl0 & ->). rewrite Hf.
    exact (Forall_lookup_1 _ _ _ _ (screen_cols _ _ _ Hs) Hl0). }
  repeat case_match; try lia; eexists; (split; [done|]); apply onActive_body; try exact Hb; intros b Hs.
  1, 2: destruct Hs as [Hs1 Hs2 Hs3]; split; cbn -[len]; [by rewrite len_fmap|apply Forall_fmap, Forall_true; intros; apply len_blank; lia|rewrite ?len_nil; apply Hb || done].
  all: apply Hi; [|done]; intros y l; case_match; by rewrite ?len_clearRange.
Qed.

Lemma privateMode_ok enabled p e : emulatorOK e -> emulatorOK (privateMode enabled e p).
Proof.
  intros H. pose proof H as [Hb [Hx Hy]]. pose proof Hb as [H1 H2 H3 H4 H5 H6]. unfold privateMode.
  destruct (p =? 6); [split; [exact Hb|]; destruct enabled; split; cbn; lia|].
  destruct (p =? 7); [exact H|]. destruct (p =? 25); [exact H|].
  destruct (_ || _); [destruct enabled; (split; [split; cbn; auto using newScreen_ok|split; cbn; lia])|].
  destruct (p =? 1048); [destruct enabled; [exact H|by apply restoreCursor_ok]|].
  destruct (p =? 1049); [|done].
  destruct enabled; [split; [split; cbn; auto using newScreen_ok|split; cbn; lia]|exact (clamp_ok (altSavedCursor e) e Hb)].
Qed.

Lemma setPrivateMode_ok ps enabled e : emulatorOK e -> emulatorOK (setPrivateMode ps enabled e).
Proof. unfold setPrivateMode. revert e. induction ps as [|p ps IH]; intros e H; [done|]. cbn. by apply IH, privateMode_ok. Qed.

Lemma setMode_ok ps enabled e : emulatorOK e -> emulatorOK (setMode ps enabled e).
Proof. unfold setMode. revert e. induction ps as [|p ps IH]; intros e H; [done|]. cbn [foldl]. apply IH. by case_match. Qed.

Lemma setScrollRegion_ok top bottom e : emulatorOK e -> emulatorOK (setScrollRegion top bottom e).
Proof.
  intros H. pose proof H as [[H1 H2 H3 H4 H5 H6] _]. unfold setScrollRegion. set (t := if top <? 0 then _ else _). set (m := if _ <=? bottom then _ else _).
  case_match; [done|]. assert (0 <= t) by (unfold t; case_match; lia). assert (m < Rows (size e)) by (unfold m; case_match; lia).
  split; [split; cbn; auto; lia|split; cbn; lia].
Qed.

Section printing.
Context (isMn : Z -> bool).

Lemma runeWidth_cases r : runeWidth isMn r = 0 \/ runeWidth isMn r = 1 \/ runeWidth isMn r = 2.
Proof. unfold runeWidth. repeat case_match; auto. Qed.

Lemma wrapCursor_ok w e : 0 < w -> emulatorOK e ->
  emulatorOK (wrapCursor w e) /\ size (wrapCursor w e) = size e /\ X (cursor (wrapCursor w e)) < Cols (size e).
Proof.
  intros Hw H. pose proof H as [Hb [Hx _]]. pose proof (body_cols Hb). unfold wrapCursor.
  set (e1 := if Cols (size e) <=? X (cursor e) then _ else e).
  assert (H1 : emulatorOK e1 /\ size e1 = size e /\ X (cursor e1) < Cols (size e)).
  { unfold e1. case_match; [case_match|]; [| |split; [done|split; [done|lia]]].
    - rewrite lineFeed_X, lineFeed_size. split; [apply lineFeed_ok, setX_ok; [lia|done]|]. split; [done|]. cbn. lia.
    - split; [apply setX_ok; [lia|done]|]. split; [done|]. cbn. lia. }
  destruct H1 as (H1 & E & H2). rewrite E. case_match; [|done].
  rewrite lineFeed_X, lineFeed_size. split; [apply lineFeed_ok, setX_ok; [rewrite E; lia|done]|]. split; [done|]. cbn. lia.
Qed.

Lemma putRune_len r w e l : 0 <= w -> emulatorOK e -> X (cursor e) < Cols (size e) -> len l = Cols (size e) ->
  exists l', putRune r w e l = Some l' /\ len l' = len l.
Proof.
  intros Hw [_ [Hx _]] Hlt Hl. unfold putRune.
  assert (H1 : exists l1, (if insertMode e then insertCells l (X (cursor e)) w (attr e) else Some l) = Some l1 /\ len l1 = len l).
  { case_match; [by apply len_insertCells|by eexists]. }
  destruct H1 as (l1 & -> & H1). cbn [mbind option_bind].
  destruct (len_setCell l1 (X (cursor e)) (mkCell r (attr e))) as (l2 & -> & H2); [lia|]. cbn [mbind option_bind].
  rewrite <- H1, <- H2. assert (Hi : forall i, i ∈ seqZ 1 (Z.min w (Cols (size e) - X (cursor e)) - 1) -> 0 <= X (cursor e) + i < Cols (size e)).
  { intros i Hi%elem_of_seqZ. lia. }
  assert (Hl2 : len l2 = Cols (size e)) by lia. clear H1 H2 Hl. revert l2 Hi Hl2.
  generalize (seqZ 1 (Z.min w (Cols (size e) - X (cursor e)) - 1)). intros ks.
  induction ks as [|i ks IH]; intros l2 Hi Hl2; [by eexists|]. cbn [foldl mbind option_bind].
  destruct (len_setCell l2 (X (cursor e) + i) (mkCell 0 (attr e))) as (l3 & -> & H3); [rewrite Hl2; apply Hi; by left|].
  destruct (IH l3) as (l4 & H4 & H5); [intros; apply Hi; by right|lia|]. exists l4. split; [done|lia].
Qed.

Lemma printRune_ok r e : emulatorOK e -> exists e', printRune isMn r e = Some e' /\ emulatorOK e' /\ size e' = size e.
Proof.
  intros H. unfold printRune. do 3 (case_match; [by eexists|]).
  set (w := runeWidth isMn r) in *. destruct (wrapCursor_ok w e) as (Ho & E1 & Hlt); [lia|done|].
  set (e1 := wrapCursor w e) in *.
  destruct (onCursorLine_ok (putRune (mapCharset e1 r) w e1) e1 Ho) as (e2 & -> & Ho2 & E2 & E3 & E4).
  { intros l Hl. apply putRune_len; [lia|done|by rewrite E1|done]. }
  cbn [mbind option_bind]. eexists. split; [done|]. split; [|cbn; congruence].
  apply setX_ok; [|exact Ho2]. cbn -[Z.leb]. rewrite E2, E3.
  destruct Ho as [Hb [Hx _]]. pose proof (body_cols Hb). repeat case_match; lia.
Qed.

Lemma repeatLast_ok n e : emulatorOK e -> exists e', repeatLast isMn n e = Some e' /\ emulatorOK e'.
Proof.
  intros H. unfold repeatLast. case_match; [by eexists|].
  set (m := Z.iter _ _ _). assert (Hm : exists e', m = Some e' /\ emulatorOK e').
  { apply (iter_keeps (fun m => exists e', m = Some e' /\ emulatorOK e')); [|by eexists].
    intros x (e1 & -> & H1). cbn [mbind option_bind]. destruct (printRune_ok (lastRune e1) e1 H1) as (e2 & E & H2 & _). by exists e2. }
  destruct Hm as (e' & -> & H'). cbn [mbind option_bind]. by eexists.
Qed.

Lemma dispatchCSI_ok final private ps e : emulatorOK e -> exists e', dispatchCSI isMn final private ps e = Some e' /\ bodyOK e'.
Proof.
  intros H. pose proof H as [Hb [Hx Hy]]. unfold dispatchCSI. set (p := paramDefault ps).
  assert (Hline : forall f, (forall l, len l = Cols (size e) -> exists l', f l = Some l' /\ len l' = len l) ->
    exists e', onCursorLine f e = Some e' /\ bodyOK e').
  { intros f Hf. destruct (onCursorLine_ok f e H Hf) as (e' & E & H' & _). exists e'. split; [done|apply H']. }
  assert (Hone : forall n, 0 <= atLeast1 n) by (intros n; pose proof (atLeast1_pos n); lia).
  assert (Hsome : forall e1, bodyOK e1 -> exists e', Some e1 = Some e' /\ bodyOK e') by eauto.
  repeat match goal with |- exists _, (if ?c then _ else _) = _ /\ _ => destruct c end; try (apply Hsome; exact Hb).
  - apply Hline. intros. by apply len_insertCells.
  - by apply eraseDisplay_ok.
  - apply Hline. intros l Hl. eexists. split; [done|]. repeat case_match; apply len_clearRange.
  - apply Hsome, onActive_body; [|exact Hb]. intros. by apply insertLines_ok.
  - apply Hsome, onActive_body; [|exact Hb]. intros. by apply deleteLines_ok.
  - apply Hline. intros. apply len_deleteCells; [lia|done].
  - apply Hsome. unfold scrollUp. apply (iter_keeps (fun x => bodyOK x /\ size x = size e /\ historyLimit x = historyLimit e)); [|done].
    intros x (H1 & E1 & E2). rewrite onActive_size. split; [apply onActive_body; [|done]|split; [done|]].
    + rewrite <- E2. intros. by apply scrollRegion_ok.
    + unfold onActive. by case_match.
  - apply Hsome. unfold scrollDown. apply iter_keeps; [|exact Hb]. intros x Hx'. apply onActive_body; [|done]. intros. by apply scrollRegionDown_ok.
  - apply Hline. intros l Hl. eexists. split; [done|]. apply len_clearRange.
  - destruct (repeatLast_ok (p 0%nat 1) e H) as (e' & -> & H'). apply Hsome, H'.
  - apply Hsome. by apply setScrollRegion_ok.
  - apply Hsome. destruct private; [by apply setPrivateMode_ok|by apply setMode_ok].
  - apply Hsome. destruct private; [by apply setPrivateMode_ok|by apply setMode_ok].
Qed.

Lemma handleCSI_ok body final e : emulatorOK e -> exists e', handleCSI isMn body final e = Some e' /\ emulatorOK e'.
Proof.
  intros H. unfold handleCSI. destruct (dispatchCSI_ok final (hasPrefix body [63]) (parseCSIParams (trimPrefix body [63])) e H) as (e' & -> & H').
  eexists. split; [done|]. by apply clampCursor_ok.
Qed.

Lemma handleOSC_ok s e : emulatorOK e -> emulatorOK (handleOSC s e).
Proof. intros H. unfold handleOSC. by case_match. Qed.

(** A turn of the loop takes a byte at least. *)
Lemma consume_ok b data e : emulatorOK e -> exists e' n, consume isMn b data e = Some (e', n) /\ 1 <= n /\ emulatorOK e'.
Proof.
  intros H. unfold consume. destruct (state e).
  - case_match; [by eexists _, _|]. case_match; [eexists _, _; split; [done|]; split; [done|by apply control_ok]|].
    pose proof (decode_width (b :: data) ltac:(done)) as Hw. destruct (decodeRune (b :: data)) as [r n]. cbn [snd] in Hw.
    destruct (printRune_ok r e H) as (e' & -> & H' & _). eexists _, _. split; [done|]. split; [lia|done].
  - eexists _, _. split; [done|]. split; [done|by apply handleEscapeByte_ok].
  - cbv zeta. case_match; [|by eexists _, _]. 
    match goal with |- context [handleCSI _ _ _ ?e'] => destruct (handleCSI_ok (esc e) b e' H) as (e1 & -> & H') end.
    eexists _, _. split; [done|]. split; [done|exact H'].
  - repeat case_match; eexists _, _; (split; [done|]); (split; [done|]); try exact H; exact (handleOSC_ok _ e H).
  - by eexists _, _.
  - by eexists _, _.
Qed.

Lemma interpret_ok fuel data e : (length data <= fuel)%nat -> emulatorOK e -> exists e', interpret isMn fuel data e = Some e' /\ emulatorOK e'.
Proof.
  revert data e. induction fuel as [|fuel IH]; intros data e Hf H; destruct data as [|b data]; cbn [length] in Hf; try lia; try by eexists.
  cbn [interpret]. destruct (consume_ok b data e H) as (e1 & n & -> & Hn & H1). cbn [mbind option_bind].
  apply IH; [|done]. rewrite length_drop. cbn [length]. lia.
Qed.

Lemma appendRawTail_len data e : len (rawTail (appendRawTail data e)) <= tailLimit.
Proof. unfold appendRawTail. cbn -[len Z.ltb]. case_match; [rewrite len_slice|]; lia. Qed.
End printing.

(** * What the interpreter leaves alone *)

(** The raw tail and the count of bytes, which no operation reads. *)
Definition tap (r : bytes) (n : Z) (e : Emulator) : Emulator := e <| rawTail := r |> <| bytesRead := n |>.

Section tapping.
Context (isMn : Z -> bool) (raw : bytes) (count : Z).
Local Abbreviation t := (tap raw count).

(** The cases of an operation, which are the same on both sides. *)
Ltac framed e := destruct e; cbv [tap]; cbn -[Z.add Z.sub Z.mul Z.leb Z.ltb Z.eqb Z.quot len i64 clampCursor newScreenBuffer]; repeat case_match; try done.

Lemma tap_onActive f e : onActive f (t e) = t (onActive f e).
Proof. unfold onActive. framed e. Qed.

Lemma tap_onCursorLine f e : onCursorLine f (t e) = t <$> onCursorLine f e.
Proof.
  unfold onCursorLine. change (lineAt (Y (cursor (t e))) (active (t e))) with (lineAt (Y (cursor e)) (active e)).
  destruct (lineAt _ _) as [l|]; [|done]. cbn [mbind option_bind]. destruct (f l) as [l'|]; [|done]. cbn [mbind option_bind fmap option_fmap option_map].
  by rewrite tap_onActive.
Qed.

Lemma tap_lineFeed e : lineFeed (t e) = t (lineFeed e).
Proof. unfold lineFeed, setY, onActive. framed e. Qed.

Lemma tap_control b e : control b (t e) = t (control b e).
Proof. unfold control, setX, lineFeed, setY, onActive. framed e. Qed.

Lemma tap_reverseIndex e : reverseIndex (t e) = t (reverseIndex e).
Proof. unfold reverseIndex, setY, onActive. framed e. Qed.

Lemma tap_handleEscapeByte b e : handleEscapeByte b (t e) = t (handleEscapeByte b e).
Proof.
  unfold handleEscapeByte. repeat (destruct (b =? _); [try done|]); try done.
  - by rewrite tap_lineFeed.
  - change (setX 0 (t e)) with (t (setX 0 e)). by rewrite tap_lineFeed.
  - by rewrite tap_reverseIndex.
Qed.

Lemma tap_iter (f : Emulator -> Emulator) k e : (forall e, f (t e) = t (f e)) -> Z.iter k f (t e) = t (Z.iter k f e).
Proof. intros H. destruct k as [|p|p]; cbn; [done| |done]. symmetry. by apply Pos.iter_swap_gen. Qed.

Lemma tap_wrapCursor w e : wrapCursor w (t e) = t (wrapCursor w e).
Proof.
  assert (H : forall e, lineFeed (setX 0 (t e)) = t (lineFeed (setX 0 e))) by (intros e1; exact (tap_lineFeed (setX 0 e1))).
  unfold wrapCursor. rewrite H. set (e1 := if Cols (size e) <=? _ then _ else e).
  replace (if Cols (size (t e)) <=? _ then _ else _) with (t e1).
  - rewrite H. change (size (t e1)) with (size e1). change (autoWrap (t e1)) with (autoWrap e1). change (cursor (t e1)) with (cursor e1).
    by destruct (_ && _).
  - unfold e1. change (size (t e)) with (size e). change (autoWrap (t e)) with (autoWrap e). change (cursor (t e)) with (cursor e).
    by repeat case_match.
Qed.

Lemma tap_printRune c e : printRune isMn c (t e) = t <$> printRune isMn c e.
Proof.
  unfold printRune. do 3 (case_match; [done|]). rewrite tap_wrapCursor. set (e1 := wrapCursor _ e).
  change (putRune (mapCharset (t e1) c) (runeWidth isMn c) (t e1)) with (putRune (mapCharset e1 c) (runeWidth isMn c) e1).
  rewrite tap_onCursorLine. by destruct (onCursorLine _ e1).
Qed.

Lemma tap_repeatLast k e : repeatLast isMn k (t e) = t <$> repeatLast isMn k e.
Proof.
  unfold repeatLast. change (lastValid (t e)) with (lastValid e). case_match; [done|].
  change (Some (t e <| attr := lastAttr (t e) |>)) with (t <$> Some (e <| attr := lastAttr e |>)).
  change (attr (t e)) with (attr e). set (step := fun m => e ← m; printRune isMn (lastRune e) e).
  assert (Hi : forall m, Z.iter (atLeast1 k) step (t <$> m) = t <$> Z.iter (atLeast1 k) step m).
  { intros m. destruct (atLeast1 k) as [|p|p]; cbn; [done| |done]. symmetry. apply Pos.iter_swap_gen.
    intros [e1|]; [|done]. cbn [step mbind option_bind fmap option_fmap option_map]. symmetry. apply tap_printRune. }
  rewrite Hi. by destruct (Z.iter _ _ _).
Qed.

Lemma tap_privateMode enabled p e : privateMode enabled (t e) p = t (privateMode enabled e p).
Proof. unfold privateMode, saveCursor, restoreCursor. framed e. Qed.

Lemma tap_setPrivateMode ps enabled e : setPrivateMode ps enabled (t e) = t (setPrivateMode ps enabled e).
Proof. unfold setPrivateMode. revert e. induction ps as [|p ps IH]; intros e; [done|]. cbn [foldl]. by rewrite tap_privateMode, IH. Qed.

Lemma tap_setMode ps enabled e : setMode ps enabled (t e) = t (setMode ps enabled e).
Proof. unfold setMode. revert e. induction ps as [|p ps IH]; intros e; [done|]. cbn [foldl]. rewrite <- IH. by case_match. Qed.

Lemma tap_setScrollRegion top bottom e : setScrollRegion top bottom (t e) = t (setScrollRegion top bottom e).
Proof. unfold setScrollRegion. framed e. Qed.

Lemma tap_eraseDisplay mode e : eraseDisplay mode (t e) = t <$> eraseDisplay mode e.
Proof.
  unfold eraseDisplay. change (cursor (t e)) with (cursor e).
  repeat match goal with |- (if ?c then _ else _) = _ => destruct c; try done end; exact (f_equal Some (tap_onActive _ e)).
Qed.

Lemma tap_dispatchCSI final private ps e : dispatchCSI isMn final private ps (t e) = t <$> dispatchCSI isMn final private ps e.
Proof.
  unfold dispatchCSI. set (p := paramDefault ps).
  repeat match goal with |- (if ?c then _ else _) = _ => destruct c; try done end.
  - exact (tap_onCursorLine _ e).
  - apply tap_eraseDisplay.
  - exact (tap_onCursorLine _ e).
  - exact (f_equal Some (tap_onActive _ e)).
  - exact (f_equal Some (tap_onActive _ e)).
  - exact (tap_onCursorLine _ e).
  - refine (f_equal Some (tap_iter _ _ e _)). intros. apply tap_onActive.
  - refine (f_equal Some (tap_iter _ _ e _)). intros. apply tap_onActive.
  - exact (tap_onCursorLine _ e).
  - apply tap_repeatLast.
  - refine (f_equal Some _). apply tap_setScrollRegion.
  - refine (f_equal Some _). destruct private; [apply tap_setPrivateMode|apply tap_setMode].
  - refine (f_equal Some _). destruct private; [apply tap_setPrivateMode|apply tap_setMode].
Qed.

Lemma tap_handleCSI body final e : handleCSI isMn body final (t e) = t <$> handleCSI isMn body final e.
Proof. unfold handleCSI. rewrite tap_dispatchCSI. by destruct (dispatchCSI _ _ _ _ e). Qed.

Lemma tap_handleOSC s e : handleOSC s (t e) = t (handleOSC s e).
Proof. unfold handleOSC. by case_match. Qed.

Lemma tap_consume b data e : consume isMn b data (t e) = prod_map t id <$> consume isMn b data e.
Proof.
  unfold consume. change (state (t e)) with (state e). destruct (state e); try done.
  - case_match; [done|]. case_match; [by rewrite tap_control|]. destruct (decodeRune _) as [c k].
    rewrite tap_printRune. by destruct (printRune isMn c e).
  - by rewrite tap_handleEscapeByte.
  - cbv zeta. case_match; [|done]. change (t e <| esc := esc (t e) ++ [b] |>) with (t (e <| esc := esc e ++ [b] |>)).
    change (esc (t e)) with (esc e). rewrite tap_handleCSI. by destruct (handleCSI _ _ _ _).
  - change (osc (t e)) with (osc e). rewrite tap_handleOSC. by repeat case_match.
Qed.

Lemma tap_interpret fuel data e : interpret isMn fuel data (t e) = t <$> interpret isMn fuel data e.
Proof.
  revert data e. induction fuel as [|fuel IH]; intros [|b data] e; cbn [interpret]; try done.
  rewrite tap_consume. destruct (consume isMn b data e) as [[e1 k]|]; [|done]. cbn [prod_map id mbind option_bind fmap option_fmap option_map fst snd].
  apply IH.
Qed.
End tapping.

(** * Every emulator there can be *)

Lemma normalizeSize_pos sz : 0 < Cols (normalizeSize sz) /\ 0 < Rows (normalizeSize sz).
Proof. unfold normalizeSize. cbn -[Z.leb]. repeat case_match; lia. Qed.

Lemma NewEmulator_ok sz limit : emulatorOK (NewEmulator sz limit).
Proof.
  pose proof (normalizeSize_pos sz) as [Hc Hr]. unfold NewEmulator. set (s := normalizeSize sz) in *. set (n := if limit <? 0 then 0 else limit).
  assert (0 <= n) by (unfold n; case_match; lia). clearbody s n. split; [split; cbn; auto using newScreen_ok; lia|split; cbn; lia].
Qed.

Lemma Resize_ok sz e : emulatorOK e -> emulatorOK (Resize sz e).
Proof.
  intros [[_ _ Hl _ _ _] _]. pose proof (normalizeSize_pos sz) as [Hc Hr]. unfold Resize. set (s := normalizeSize sz) in *. clearbody s.
  split; [split; cbn -[resize]; try apply resize_ok; auto; lia|]. unfold cursorOK, clampCursor. cbn -[Z.leb Z.ltb]. repeat case_match; lia.
Qed.

Lemma placeRunes_len isMn cols x a rs l : len (placeRunes isMn cols x a rs l) = len l.
Proof.
  revert x l. induction rs as [|c rs IH]; intros x l; cbn [placeRunes]; [done|]. case_match; [done|]. rewrite IH. unfold len. by rewrite length_insert.
Qed.

Lemma restoredLines_len isMn sz s : 0 < Cols sz -> Forall (fun l => len l = Cols sz) (restoredLines isMn sz s).
Proof.
  intros H. unfold restoredLines. destruct (sCells s); apply Forall_fmap, Forall_true; intros ?; unfold compose.
  - unfold cellsFromString. rewrite placeRunes_len. apply len_blank. lia.
  - rewrite len_copy_into. apply len_blank. lia.
Qed.

Lemma Restore_ok isMn s limit : emulatorOK (Restore isMn s limit).
Proof.
  pose proof (NewEmulator_ok (sSize s) limit) as [Hb _]. unfold Restore. set (e := NewEmulator _ _) in *.
  assert (Hl : historyLimit e = Z.max 0 limit) by (unfold e; cbn; case_match; lia).
  apply onActive_ok; [|exact (clamp_ok (sCursor s) e Hb)].
  change (forall b, screenOK (size e) (historyLimit e) b -> screenOK (size e) (historyLimit e) (trimHistory limit (mkScreen
    (copy_into (lines b) (restoredLines isMn (size e) s)) (hist b ++ ((fun l => cellsFromString isMn l (Cols (size e)) defaultAttr) <$> sHistory s))))).
  intros b [H1 H2 H3]. split; rewrite ?trimHistory_lines; cbn [lines].
  - by rewrite len_copy_into.
  - unfold copy_into. apply Forall_app_2; [apply Forall_take, restoredLines_len, Hb|by apply Forall_drop].
  - rewrite Hl. destruct (Z.leb_spec limit 0); [|rewrite Z.max_r by lia; apply trimHistory_len; lia].
    unfold trimHistory. rewrite (proj2 (Z.leb_le limit 0)) by done. cbn -[Z.max len]. rewrite len_nil. lia.
Qed.

(** Whatever is done with an emulator. *)
Inductive reachable (isMn : Z -> bool) : Emulator -> Prop :=
| reach_new sz limit : reachable isMn (NewEmulator sz limit)
| reach_restore s limit : reachable isMn (Restore isMn s limit)
| reach_write data e e' : reachable isMn e -> Write isMn data e = Some e' -> reachable isMn e'
| reach_resize sz e : reachable isMn e -> reachable isMn (Resize sz e).

Lemma interpret_taps isMn fuel data e e' : interpret isMn fuel data e = Some e' -> rawTail e' = rawTail e /\ bytesRead e' = bytesRead e.
Proof.
  intros H. pose proof (tap_interpret isMn (rawTail e) (bytesRead e) fuel data e) as Ht.
  replace (tap (rawTail e) (bytesRead e) e) with e in Ht by (by destruct e). rewrite H in Ht. cbn in Ht. injection Ht as ->. done.
Qed.

Lemma emulatorWrite_ok isMn data e : emulatorOK e -> exists e', Write isMn data e = Some e' /\ emulatorOK e' /\ len (rawTail e') <= tailLimit.
Proof.
  intros H. unfold Write. set (e1 := appendRawTail _ _). assert (H1 : emulatorOK e1) by exact H.
  destruct (interpret_ok isMn (length data) data e1) as (e' & E & H'); [lia|done|]. exists e'. split; [done|]. split; [done|].
  apply interpret_taps in E as [-> _]. apply appendRawTail_len.
Qed.

Lemma reachable_emulator isMn e : reachable isMn e -> emulatorOK e.
Proof.
  induction 1 as [sz limit|s limit|data e e' _ IH E|sz e _ IH]; [apply NewEmulator_ok|apply Restore_ok| |by apply Resize_ok].
  destruct (emulatorWrite_ok isMn data e IH) as (e1 & E1 & H1 & _). congruence.
Qed.

(** C8: no output of the guest brings the terminal emulator down.  However an emulator came to be, new or
    restored from any snapshot, written to and resized any number of times, whatever bytes are
    written next are interpreted to their end with every index in range; before and after, both
    screens have the rows and columns of the terminal, the cursor is on the screen or one column
    behind it, the scroll region lies inside, and the history keeps to its limit.  After the
    write, the raw tail is at most 64 KiB; a snapshot may have brought a longer one. *)
Theorem terminal_never_panics isMn e : reachable isMn e ->
  emulatorOK e /\ forall data, exists e', Write isMn data e = Some e' /\ emulatorOK e' /\ len (rawTail e') <= tailLimit.
Proof. intros H%reachable_emulator. split; [done|]. intros data. by apply emulatorWrite_ok. Qed.

(** A scroll region, wide characters, a repeat count and a cursor far outside. *)
Definition wildOutput : bytes :=
  [27; 91; 50; 59; 51; 114; 27; 91; 57; 57; 57; 57; 72; 65; 66; 0xe4; 0xb8; 0xad; 27; 91; 53; 98; 10; 10; 27; 91; 49; 59; 57; 57; 57; 72; 67; 68].

Lemma terminal_never_panics_witness :
  emulatorOK (Resize (mkSize 0 2) (NewEmulator (mkSize 4 3) 10)) /\
  exists e', Write (fun _ => false) wildOutput (Resize (mkSize 0 2) (NewEmulator (mkSize 4 3) 10)) = Some e' /\ emulatorOK e' /\ len (rawTail e') <= tailLimit.
Proof.
  destruct (terminal_never_panics (fun _ => false) (Resize (mkSize 0 2) (NewEmulator (mkSize 4 3) 10))) as [H1 H2].
  - apply reach_resize, reach_new.
  - split; [exact H1|exact (H2 wildOutput)].
Defined.
