(* ===== verification/TerminalText.v ===== *)
(** What the terminal emulator of [Terminal.v] makes of output in pieces and of snapshots.

    [write_chunks]: output that is split anywhere but inside a character or after an escape is
    interpreted as if it had come at once.  [snapshot_restore]: the snapshot of an emulator
    restored from a snapshot is that snapshot.  The examples at the end show what is lost
    where the conditions fail, and what shrinking the screen does. *)

From S2P Require Import Prelude Paths Utf8 Terminal TerminalSafety.

(** * Output in pieces *)

Section pieces.
Context (isMn : Z -> bool).

Lemma consume_takes b data e e' n : consume isMn b data e = Some (e', n) -> 1 <= n <= len (b :: data).
Proof.
  pose proof (len_nonneg data). pose proof (decode_width (b :: data) ltac:(done)). pose proof (decode_len (b :: data)).
  unfold consume. destruct (state e); try (intros [= <- <-]; rewrite len_cons; lia).
  - case_match; [intros [= <- <-]; rewrite len_cons; lia|]. case_match; [intros [= <- <-]; rewrite len_cons; lia|].
    destruct (decodeRune (b :: data)) as [r k]. cbn [snd] in *. destruct (printRune isMn r e); [|done]. intros [= <- <-]. lia.
  - cbv zeta. case_match; [|intros [= <- <-]; rewrite len_cons; lia]. destruct (handleCSI _ _ _ _); [|done]. intros [= <- <-]. rewrite len_cons. lia.
  - case_match; [intros [= <- <-]; rewrite len_cons; lia|]. case_match eqn:E; [|intros [= <- <-]; rewrite len_cons; lia].
    intros [= <- <-]. apply andb_true_iff in E as [_ E%bool_decide_eq_true]. destruct data; [done|]. rewrite !len_cons. pose proof (len_nonneg data). lia.
Qed.

(** More fuel than bytes makes no difference. *)
Lemma interpret_fuel f g data e : (length data <= f)%nat -> (length data <= g)%nat -> interpret isMn f data e = interpret isMn g data e.
Proof.
  revert g data e. induction f as [|f IH]; intros [|g] [|b data] e Hf Hg; cbn [length] in *; try lia; try done.
  cbn [interpret]. destruct (consume isMn b data e) as [[e1 n]|] eqn:E; [|done]. apply consume_takes in E. cbn [mbind option_bind].
  rewrite len_cons in E. apply IH; rewrite length_drop; cbn [length]; unfold len in E; lia.
Qed.

(** A turn does not see past a piece that ends well. *)
Lemma consume_app b data more e : fullRune (b :: data) = true -> last (b :: data) <> Some 27 ->
  consume isMn b (data ++ more) e = consume isMn b data e.
Proof.
  intros Hf Hl. unfold consume. change (b :: data ++ more) with ((b :: data) ++ more). rewrite (decode_app (b :: data)) by done.
  replace ((b =? 27) && bool_decide (head (data ++ more) = Some 92)) with ((b =? 27) && bool_decide (head data = Some 92)); [done|].
  destruct data; [|done]. destruct (Z.eqb_spec b 27); [by subst|done].
Qed.

Lemma last_drop {A} (l : list A) k x : last (drop k l) = Some x -> last l = Some x.
Proof.
  intros H. rewrite <- (take_drop k l), last_app. by rewrite H.
Qed.

Lemma interpret_app f g h a b e : (length (a ++ b) <= f)%nat -> (length a <= g)%nat -> (length b <= h)%nat ->
  wholeText a = true -> last a <> Some 27 -> interpret isMn f (a ++ b) e = interpret isMn g a e ≫= interpret isMn h b.
Proof.
  revert f a e. induction g as [|g IH]; intros f a e Hf Hg Hh Hw Hl; (destruct a as [|x a]; [by apply interpret_fuel|]); cbn [length] in Hg; [lia|].
  destruct f as [|f]; [cbn in Hf; lia|]. cbn [app interpret]. cbn [wholeText] in Hw. apply andb_true_iff in Hw as [Hx Hw].
  rewrite consume_app by done. destruct (consume isMn x a e) as [[e1 n]|] eqn:E; [|done]. cbn [mbind option_bind].
  apply consume_takes in E. unfold len in E. cbn [length] in E.
  change (x :: a ++ b) with ((x :: a) ++ b). rewrite drop_app_le by (cbn [length]; lia). cbn [app length] in Hf. rewrite length_app in Hf.
  apply IH; [rewrite length_app, length_drop; cbn [length]; lia|rewrite length_drop; cbn [length]; lia|done| |].
  - apply whole_drop. cbn [wholeText]. by rewrite Hx, Hw.
  - intros H%last_drop. done.
Qed.

(** The last of the bytes. *)
Definition lastBytes (t : bytes) : bytes := drop (Z.to_nat (len t - tailLimit)) t.

Lemma lastBytes_cut t : (if tailLimit <? len t then slice t (len t - tailLimit) (len t) else t) = lastBytes t.
Proof.
  unfold lastBytes, slice. destruct (Z.ltb_spec tailLimit (len t)).
  - apply take_ge. rewrite length_drop. unfold len in *. lia.
  - by replace (Z.to_nat (len t - tailLimit)) with 0%nat by lia.
Qed.

Lemma lastBytes_app l b : lastBytes (lastBytes l ++ b) = lastBytes (l ++ b).
Proof.
  unfold lastBytes. rewrite !len_app, len_drop, <- drop_app_le by (unfold len; lia). rewrite drop_drop. f_equal.
  pose proof (len_nonneg l). pose proof (len_nonneg b). lia.
Qed.

(** Bytes that are taken note of in two steps. *)
Definition noted (data : bytes) (e : Emulator) : Emulator :=
  tap (lastBytes (rawTail e ++ data)) (i64 (bytesRead e + len data)) e.

Lemma Write_noted data e : Write isMn data e = interpret isMn (length data) data (noted data e).
Proof. unfold Write. f_equal. unfold appendRawTail. cbv zeta. rewrite lastBytes_cut. by destruct e. Qed.

Lemma noted_app a b e : noted b (noted a e) = noted (a ++ b) e.
Proof.
  unfold noted, tap, set_field. cbn -[Z.add len app i64]. rewrite swrap_add, lastBytes_app by done. by rewrite app_assoc, len_app, Z.add_assoc.
Qed.

(** C18: how the output of the guest is cut into pieces makes no difference to the terminal emulator.  Where a piece ends neither
    inside the encoding of a character nor with an escape, writing it and then what follows leaves
    the emulator exactly as writing both at once: the screens, the parser in the middle
    of a sequence, the raw tail and the count of bytes. *)
Theorem write_chunks a b e : wholeText a = true -> last a <> Some 27 -> Write isMn (a ++ b) e = Write isMn a e ≫= Write isMn b.
Proof.
  intros Hw Hl. rewrite !Write_noted, <- noted_app. rewrite (interpret_app _ (length a) (length b)) by done.
  unfold noted at 1. rewrite tap_interpret. destruct (interpret isMn (length a) a (noted a e)) as [e1|] eqn:E; [|done].
  cbn [fmap option_fmap option_map mbind option_bind]. rewrite Write_noted. unfold noted at 3.
  by apply interpret_taps in E as [-> ->].
Qed.
End pieces.

(** "a\027[1" and "mb": a sequence in two pieces. *)
Lemma write_chunks_witness :
  Write (fun _ => false) ([97; 0xc3; 0xa9; 27; 91; 49] ++ [109; 98]) (NewEmulator (mkSize 4 2) 10) =
  Write (fun _ => false) [97; 0xc3; 0xa9; 27; 91; 49] (NewEmulator (mkSize 4 2) 10) ≫= Write (fun _ => false) [109; 98].
Proof. apply write_chunks; [reflexivity|discriminate]. Defined.

(** * Snapshots *)

(** [strings.TrimRight] of a space. *)
Lemma trimRight_app p q : trimRight (p ++ q) = match trimRight q with [] => trimRight p | t => p ++ t end.
Proof.
  induction p as [|x p IH]; cbn [app trimRight]; [by destruct (trimRight q)|]. rewrite IH.
  destruct (trimRight q) as [|y t]; [done|]. by destruct p.
Qed.

Lemma trimRight_spaces k : trimRight (replicate k 32) = [].
Proof. induction k as [|k IH]; [done|]. cbn [replicate trimRight]. by rewrite IH. Qed.

Lemma trimRight_idemp s : trimRight (trimRight s) = trimRight s.
Proof.
  induction s as [|x s IH]; [done|]. cbn [trimRight]. destruct (trimRight s) as [|y t] eqn:E.
  - destruct (x =? 32) eqn:Ex; cbn [trimRight]; by rewrite ?Ex.
  - change (trimRight (x :: y :: t)) with (match trimRight (y :: t) with [] => if x =? 32 then [] else [x] | s => x :: s end). by rewrite IH.
Qed.

Local Abbreviation text rs := (concat (encodeRune <$> rs)).

Lemma trimRight_rune r : validRune r -> r <> 32 -> trimRight (encodeRune r) = encodeRune r.
Proof.
  intros Hv Hr. assert (Hm : forall x, 0 <= x mod 64) by (intros; apply Z.mod_pos_bound; lia).
  pose proof (Hm r). unfold encodeRune. case_match; [done|]. unfold validRune in Hv.
  repeat case_match; cbn [trimRight]; rewrite (proj2 (Z.eqb_neq _ 32)) by lia; done.
Qed.

(** What is left of a text is a text. *)
Lemma trimRight_text rs : Forall validRune rs -> exists rs', trimRight (text rs) = text rs' /\ rs' `prefix_of` rs.
Proof.
  induction 1 as [|r rs Hr Hrs IH]; [by exists []|]. destruct IH as (rs' & E & Hp). cbn [fmap list_fmap concat]. rewrite trimRight_app, E.
  destruct rs' as [|r' rs'].
  - cbn [fmap list_fmap concat]. destruct (decide (r = 32)) as [->|Hn]; [exists []; split; [done|apply prefix_nil]|].
    exists [r]. cbn [fmap list_fmap concat]. rewrite trimRight_rune, app_nil_r by done. split; [done|]. apply prefix_cons, prefix_nil.
  - exists (r :: r' :: rs'). split; [|by apply prefix_cons]. destruct (text (r' :: rs')) eqn:Et; [|by cbn [fmap list_fmap concat] in *; rewrite Et].
    cbn [fmap list_fmap concat] in Et. apply app_eq_nil in Et as [Et _]. by apply encode_nonempty in Et.
Qed.

Section snapshots.
Context (isMn : Z -> bool).

(** A character of one column. *)
Definition narrow (c : Cell) : Prop := validRune (R c) /\ runeWidth isMn (R c) = 1.
Definition narrowLine (cols : Z) (l : line) : Prop := len l <= cols /\ Forall narrow l.

#[global] Instance narrowLine_dec cols l : Decision (narrowLine cols l).
Proof. unfold narrowLine, narrow. solve_decision. Defined.

Lemma narrow_nonzero c : narrow c -> R c <> 0.
Proof. intros [_ H] E. by rewrite E in H. Qed.

Lemma line_text l : Forall (fun c => R c <> 0) l -> cellsString l = trimRight (text (R <$> l)).
Proof.
  intros H. unfold cellsString. f_equal. induction H as [|c l Hc Hl IH]; [done|]. cbn [fmap list_fmap concat]. f_equal; [|done].
  by rewrite (proj2 (Z.eqb_neq _ 0)).
Qed.

Lemma placeRunes_narrow a rs pre n : Forall (fun r => runeWidth isMn r = 1) rs -> (length rs <= n)%nat ->
  placeRunes isMn (len pre + Z.of_nat n) (len pre) a rs (pre ++ replicate n (mkCell 32 a)) =
  pre ++ ((fun r => mkCell r a) <$> rs) ++ replicate (n - length rs) (mkCell 32 a).
Proof.
  intros H. revert pre n. induction H as [|r rs Hr Hrs IH]; intros pre n Hn; cbn [placeRunes length fmap list_fmap app].
  - by rewrite Nat.sub_0_r.
  - destruct n as [|n]; [cbn in Hn; lia|]. cbn [length] in Hn. rewrite (proj2 (Z.leb_gt _ _)) by lia. rewrite Hr.
    replace (<[Z.to_nat (len pre) := mkCell r a]> (pre ++ replicate (S n) (mkCell 32 a))) with ((pre ++ [mkCell r a]) ++ replicate n (mkCell 32 a)).
    + specialize (IH (pre ++ [mkCell r a]) n ltac:(lia)). rewrite len_app, len_cons, len_nil in IH.
      replace (len pre + 1) with (len pre + (1 + 0)) by lia. replace (len pre + Z.of_nat (S n)) with (len pre + (1 + 0) + Z.of_nat n) by lia.
      rewrite IH. by rewrite <- app_assoc.
    + rewrite <- app_assoc. cbn [replicate app]. rewrite insert_app_r_alt by (unfold len; lia).
      by replace (Z.to_nat (len pre) - length pre)%nat with 0%nat by (unfold len; lia).
Qed.

(** The text of a line of narrow characters makes a line with that text. *)
Lemma narrow_roundtrip cols l : 0 < cols -> narrowLine cols l -> cellsString (cellsFromString isMn (cellsString l) cols defaultAttr) = cellsString l.
Proof.
  intros Hc [Hlen Hn]. rewrite (line_text l) by (eapply Forall_impl; [exact Hn|exact narrow_nonzero]).
  assert (Hv : Forall validRune (R <$> l)) by (apply Forall_fmap; eapply Forall_impl; [exact Hn|]; by intros c [H _]).
  assert (Hw : Forall (fun r => runeWidth isMn r = 1) (R <$> l)) by (apply Forall_fmap; eapply Forall_impl; [exact Hn|]; by intros c [_ H]).
  destruct (trimRight_text _ Hv) as (rs & E & [post Hp]). pose proof (trimRight_idemp (text (R <$> l))) as Hi. rewrite E in *.
  rewrite Hp in Hv, Hw. apply Forall_app in Hv as [Hv _]. apply Forall_app in Hw as [Hw _].
  assert (Hlr : (length rs <= Z.to_nat cols)%nat).
  { apply (f_equal length) in Hp. rewrite length_fmap, length_app in Hp. unfold len in Hlen. lia. }
  unfold cellsFromString. rewrite runesOf_encoded by done.
  pose proof (placeRunes_narrow defaultAttr rs [] (Z.to_nat cols) Hw Hlr) as Hpl. rewrite len_nil, Z2Nat.id, Z.add_0_l in Hpl by lia. cbn [app] in Hpl.
  unfold blankLine, blankLineWithAttr. rewrite Hpl, line_text.
  - assert (Er : R <$> ((fun r => mkCell r defaultAttr) <$> rs) = rs) by (rewrite <- list_fmap_compose; apply list_fmap_id).
    rewrite fmap_app, Er, fmap_replicate, fmap_app, concat_app, fmap_replicate, trimRight_app. cbn [R].
    replace (concat (replicate _ (encodeRune 32))) with (replicate (Z.to_nat cols - length rs) 32); [by rewrite trimRight_spaces|].
    generalize (Z.to_nat cols - length rs)%nat. intros k. induction k as [|k IH]; [done|]. cbn [replicate concat]. by rewrite <- IH.
  - apply Forall_app_2; [|by apply Forall_replicate]. apply Forall_fmap. eapply Forall_impl; [exact Hw|].
    intros r Hr H0. cbn in H0. by rewrite H0 in Hr.
Qed.

Lemma copy_same sz limit b (ls : list line) : screenOK sz limit b -> len ls = len (lines b) ->
  copy_into ls ((fun l => copy_into (blankLine (Cols sz)) l) <$> lines b) = lines b.
Proof.
  intros [_ H _] Hl. rewrite copy_into_exact by (by rewrite len_fmap). rewrite <- (list_fmap_id (lines b)) at 2. apply Forall_fmap_ext.
  eapply Forall_impl; [exact H|]. intros l Hc. cbn beta in Hc |- *. apply copy_into_exact. unfold blankLine. rewrite len_blank; [done|].
  pose proof (len_nonneg l). lia.
Qed.

Lemma trimHistory_fits n b : len (hist b) <= n -> hist (trimHistory n b) = hist b.
Proof.
  intros H. unfold trimHistory. pose proof (len_nonneg (hist b)). case_match; [|case_match; [lia|done]].
  symmetry. apply (len_0_nil (hist b)). lia.
Qed.

(** A snapshot with another screen. *)
Definition withScreen (b : screenBuffer) (s : Snapshot) : Snapshot :=
  mkSnapshot (sSize s) (sCursor s) (sCursorVisible s) (sAltScreen s) (cellsString <$> lines b) (lines b) (cellsString <$> hist b)
    (sTitle s) (sRawTail s) (sBytesRead s).

Lemma onActive_snapshot f e : takeSnapshot (onActive f e) = withScreen (f (active e)) (takeSnapshot e).
Proof. unfold onActive, takeSnapshot, active. destruct (altScreen e) eqn:E; cbn; by rewrite ?E. Qed.

Lemma normalizeSize_id sz : 0 < Cols sz -> 0 < Rows sz -> normalizeSize sz = sz.
Proof. destruct sz as [c r]. cbn [Cols Rows]. intros. unfold normalizeSize. cbn [Cols Rows]. by rewrite !(proj2 (Z.leb_gt _ 0)). Qed.

Lemma clampCursor_id c sz : 0 <= X c < Cols sz -> 0 <= Y c < Rows sz -> clampCursor c sz = c.
Proof.
  destruct c as [x y]. cbn [X Y]. intros. unfold clampCursor. cbn [X Y]. rewrite !(proj2 (Z.ltb_ge _ 0)) by lia.
  by rewrite !(proj2 (Z.leb_gt _ _)) by lia.
Qed.

(** C24: a snapshot of the terminal survives being restored.  Where the cursor is on the screen and the history holds only
    characters of one column in lines no wider than the screen, restoring the snapshot of an
    emulator and taking a snapshot again gives the same: the size, the cursor, every
    cell of the active screen with its attributes, the text of the screen and of the history,
    the title, the raw tail and the count of bytes. *)
Theorem snapshot_restore e : emulatorOK e -> X (cursor e) < Cols (size e) -> Forall (narrowLine (Cols (size e))) (hist (active e)) ->
  takeSnapshot (Restore isMn (takeSnapshot e) (historyLimit e)) = takeSnapshot e.
Proof.
  intros [Hb [Hx Hy]] Hlt Hh. pose proof (body_cols Hb) as H1. pose proof (body_rows Hb) as H2. pose proof (active_ok e Hb) as Ha.
  assert (Hne : exists l ls, lines (active e) = l :: ls).
  { pose proof (screen_rows _ _ _ Ha) as Hr. destruct (lines (active e)) as [|l ls]; [rewrite len_nil in Hr; lia|by eexists _, _]. }
  destruct Hne as (l0 & ls & E0). unfold Restore. rewrite onActive_snapshot. set (e0 := NewEmulator _ _).
  match goal with |- withScreen _ (takeSnapshot ?x) = _ => set (e1 := x) end.
  assert (Hn : size e1 = size e) by (by apply normalizeSize_id).
  assert (Hc : cursor e1 = cursor e) by (change (clampCursor (cursor e) (size e1) = cursor e); rewrite Hn; apply clampCursor_id; lia).
  assert (Hv : cursorVisible e1 = cursorVisible e).
  { change (cursorVisible e1) with (if negb (cursorVisible e) && (bytesRead e =? 0) && (len (cellsString <$> lines (active e)) =? 0) &&
      (len (lines (active e)) =? 0) then true else cursorVisible e).
    rewrite E0, (len_cons l0), (proj2 (Z.eqb_neq (1 + len ls) 0)) by (pose proof (len_nonneg ls); lia). by rewrite andb_false_r. }
  assert (Ha1 : active e1 = newScreenBuffer (size e)) by (rewrite <- Hn; unfold active; by destruct (altScreen e1)).
  assert (Hr : restoredLines isMn (size e) (takeSnapshot e) = (fun l => copy_into (blankLine (Cols (size e))) l) <$> lines (active e)).
  { unfold restoredLines. change (sCells (takeSnapshot e)) with (lines (active e)). by rewrite E0. }
  rewrite Ha1, Hn, Hr. rewrite (copy_same _ _ _ _ Ha).
  2: { rewrite (screen_rows _ _ _ Ha). cbn [lines newScreenBuffer]. unfold len. rewrite length_replicate. lia. }
  unfold withScreen. rewrite trimHistory_lines, trimHistory_fits; cbn [hist lines newScreenBuffer app].
  2: { rewrite len_fmap. change (sHistory (takeSnapshot e)) with (cellsString <$> hist (active e)). rewrite len_fmap. apply Ha. }
  change (sHistory (takeSnapshot e)) with (cellsString <$> hist (active e)).
  replace (cellsString <$> ((fun l => cellsFromString isMn l (Cols (size e)) defaultAttr) <$> (cellsString <$> hist (active e))))
    with (cellsString <$> hist (active e)).
  - unfold takeSnapshot at 1 2 3 4 5 6 7. cbn [sSize sCursor sCursorVisible sAltScreen sTitle sRawTail sBytesRead]. by rewrite Hn, Hc, Hv.
  - rewrite <- !list_fmap_compose. apply Forall_fmap_ext. eapply Forall_impl; [exact Hh|]. intros l Hl. symmetry. by apply narrow_roundtrip.
Qed.
End snapshots.

(** Three lines on a screen of two: the first is in the history. *)
Definition threeLines : option Emulator := Write (fun _ => false) [120; 13; 10; 97; 98; 13; 10; 99] (NewEmulator (mkSize 3 2) 10).

Lemma snapshot_restore_witness : exists e, threeLines = Some e /\ hist (active e) <> [] /\
  takeSnapshot (Restore (fun _ => false) (takeSnapshot e) (historyLimit e)) = takeSnapshot e.
Proof.
  destruct (emulatorWrite_ok (fun _ => false) [120; 13; 10; 97; 98; 13; 10; 99] _ (NewEmulator_ok (mkSize 3 2) 10)) as (e & E & H & _).
  assert (Hf : match threeLines with
    | Some e => bool_decide (hist (active e) <> [] /\ X (cursor e) < Cols (size e) /\ Forall (narrowLine (fun _ => false) (Cols (size e))) (hist (active e)))
    | None => false
    end = true) by (vm_compute; reflexivity).
  unfold threeLines in *. rewrite E in Hf. apply bool_decide_eq_true in Hf as (H1 & H2 & H3).
  exists e. split; [exact E|]. split; [exact H1|]. exact (snapshot_restore (fun _ => false) e H H2 H3).
Defined.

(** * What is lost *)

Local Abbreviation write := (Write (fun _ => false)).
Local Abbreviation screenText := (fun e => sLines (takeSnapshot e)).
Local Abbreviation historyText := (fun e => sHistory (takeSnapshot e)).

(** A character of two bytes that comes in two pieces is shown as two replacement characters. *)
Theorem split_character_lost :
  screenText <$> write [0xc3; 0xa9] (NewEmulator (mkSize 4 1) 10) = Some [[0xc3; 0xa9]] /\
  screenText <$> (write [0xc3] (NewEmulator (mkSize 4 1) 10) ≫= write [0xa9]) = Some [[0xef; 0xbf; 0xbd; 0xef; 0xbf; 0xbd]].
Proof. split; vm_compute; reflexivity. Qed.

(** A title whose terminator, escape and backslash, comes in two pieces goes on: the text that follows is not shown. *)
Theorem split_terminator_missed :
  (screenText <$> write [27; 93; 48; 59; 116; 27; 92; 97] (NewEmulator (mkSize 4 1) 10) = Some [[97]]) /\
  screenText <$> (write [27; 93; 48; 59; 116; 27] (NewEmulator (mkSize 4 1) 10) ≫= write [92; 97]) = Some [[]].
Proof. split; vm_compute; reflexivity. Qed.

(** A wide character in the history has a blank behind it once it is restored. *)
Theorem wide_history_widened :
  (fun e => (historyText e, historyText (Restore (fun _ => false) (takeSnapshot e) 10))) <$>
    write [0xe4; 0xb8; 0xad; 97; 13; 10] (NewEmulator (mkSize 4 1) 10) =
  Some ([[0xe4; 0xb8; 0xad; 97]], [[0xe4; 0xb8; 0xad; 32; 97]]).
Proof. vm_compute. reflexivity. Qed.

(** A screen of three lines that shrinks to two: the first line is in the history and on the screen, the last one nowhere. *)
Theorem shrink_duplicates_top :
  (fun e => (historyText e, screenText e)) <$> (Resize (mkSize 4 2) <$> write [97; 13; 10; 98; 13; 10; 99] (NewEmulator (mkSize 4 3) 10)) =
  Some ([[97]], [[97]; [98]]).
Proof. vm_compute. reflexivity. Qed.
