(* ===== verification/GuestMemory.v ===== *)
(** What the device models use of the machine around them: guest physical
    memory, interrupt lines, and the effect of a Go method that changes its
    receiver.

    [GuestMemory] and [IRQController] are the interfaces of
    [src/internal/core/virtio/console.go] (with the optional [ReadIPAInto] and
    [SliceIPA] of [src/internal/core/nvme/controller.go]) as type classes;
    [GuestMemoryLaws] states what a device relies on, in terms of the byte at
    each guest physical address.  The memory of the KVM arm64 machine
    ([src/internal/core/hv/kvm/vm_linux_arm64.go]) is an instance of both. *)

From S2P Require Import Prelude.

(** * Methods with state *)

(** A method on a receiver of type [S]: the state after it, and its outcome. *)
Definition proc (S E A : Type) : Type := S -> S * result E A.

#[export] Instance proc_ret {S E} : MRet (proc S E) := fun A a s => (s, Ok a).
#[export] Instance proc_bind {S E} : MBind (proc S E) := fun A B f m s =>
  match m s with
  | (s', Ok a) => f a s'
  | (s', Err e) => (s', Err e)
  | (s', Panic) => (s', Panic)
  end.

Definition getState {S E} : proc S E S := fun s => (s, Ok s).
Definition modify {S E} (f : S -> S) : proc S E unit := fun s => (f s, Ok tt).
Definition lift {S E A} (r : result E A) : proc S E A := fun s => (s, r).
Definition throw {S E A} (e : E) : proc S E A := lift (Err e).
Definition gopanic {S E A} : proc S E A := lift Panic.

Lemma proc_bind_Ok {S E A B} (m : proc S E A) (f : A -> proc S E B) s s' b :
  (m ≫= f) s = (s', Ok b) -> exists s1 a, m s = (s1, Ok a) /\ f a s1 = (s', Ok b).
Proof. cbv [mbind proc_bind]. destruct (m s) as [s1 []]; intros; simplify_eq; eauto. Qed.

Lemma proc_bind_run {S E A B} (m : proc S E A) (f : A -> proc S E B) s s1 a :
  m s = (s1, Ok a) -> (m ≫= f) s = f a s1.
Proof. cbv [mbind proc_bind]. by intros ->. Qed.

Lemma proc_bind_assoc {S E A B C} (m : proc S E A) (f : A -> proc S E B)
    (g : B -> proc S E C) s :
  ((m ≫= f) ≫= g) s = (m ≫= (fun a => f a ≫= g)) s.
Proof. cbv [mbind proc_bind]. by destruct (m s) as [s1 []]. Qed.

(** Inverts a successful run of a method one call at a time. *)
Ltac inv_proc :=
  repeat match goal with
  | H : (_ ≫= _) _ = (_, Ok _) |- _ => apply proc_bind_Ok in H as (? & ? & ? & H)
  | H : mbind _ _ _ = (_, Ok _) |- _ => apply proc_bind_Ok in H as (? & ? & ? & H)
  | H : mret _ _ = (_, Ok _) |- _ => cbv [mret proc_ret] in H; simplify_eq
  | H : getState _ = (_, Ok _) |- _ => cbv [getState] in H; simplify_eq
  | H : modify _ _ = (_, Ok _) |- _ => cbv [modify] in H; simplify_eq
  | H : throw _ _ = (_, Ok _) |- _ => discriminate H
  | H : gopanic _ = (_, Ok _) |- _ => discriminate H
  end.

(** * Guest memory *)

Inductive memError :=
| Unmapped
| InvalidSize.

(** [SliceIPA] hands out a window on the guest's own memory: [sliceLoad] and
    [sliceStore] are reading and assigning its elements. *)
Class GuestMemory (G : Type) := {
  window : Type;
  ReadIPA : Z -> Z -> G -> result memError bytes;
  WriteIPA : Z -> bytes -> G -> G * result memError unit;
  ReadIPAInto : option (Z -> Z -> G -> result memError bytes);
  SliceIPA : option (Z -> Z -> G -> result memError window);
  sliceLen : window -> Z;
  sliceLoad : window -> Z -> Z -> G -> bytes;
  sliceStore : window -> Z -> bytes -> G -> G;
}.

(** Reading byte by byte through a partial map from addresses to bytes. *)
Definition gather (f : Z -> option Z) (a n : Z) : option bytes := mapM f (seqZ a n).

(** The map after [d] has been stored at [a]. *)
Definition scatter (f : Z -> option Z) (a : Z) (d : bytes) (x : Z) : option Z :=
  if (a <=? x) && (x <? a + len d) then d !! Z.to_nat (x - a) else f x.

(** What the devices rely on: memory is a partial map [byteAt] from addresses
    below 2^64 to bytes; a non-empty access succeeds exactly when every address
    of its range is mapped, and accesses that bit of the map. *)
Class GuestMemoryLaws (G : Type) `{GuestMemory G} := {
  memory_ok : G -> Prop;
  byteAt : G -> Z -> option Z;
  byteAt_range m x : memory_ok m -> is_Some (byteAt m x) -> in_width 64 x;
  byteAt_u8 m x y : memory_ok m -> byteAt m x = Some y -> is_u8 y;
  read_law m a n d : memory_ok m -> in_width 64 a -> 0 < n < 2 ^ 63 ->
    ReadIPA a n m = Ok d <-> gather (byteAt m) a n = Some d;
  readInto_law m a n d f : memory_ok m -> in_width 64 a -> 0 < n < 2 ^ 63 ->
    ReadIPAInto = Some f -> f a n m = Ok d <-> gather (byteAt m) a n = Some d;
  write_law m a d : memory_ok m -> in_width 64 a -> 0 < len d < 2 ^ 63 -> is_bytes d ->
    is_Some (gather (byteAt m) a (len d)) ->
    exists m', WriteIPA a d m = (m', Ok tt) /\ memory_ok m' /\
      forall x, byteAt m' x = scatter (byteAt m) a d x;
  write_fails m a d m' : memory_ok m -> in_width 64 a -> 0 < len d < 2 ^ 63 ->
    WriteIPA a d m = (m', Ok tt) -> is_Some (gather (byteAt m) a (len d));
  (** [window_at m w a n]: in [m], [w] is the [n] bytes at [a]. *)
  window_at : G -> window -> Z -> Z -> Prop;
  slice_law m a n f w : memory_ok m -> in_width 64 a -> 0 < n < 2 ^ 63 ->
    SliceIPA = Some f -> f a n m = Ok w -> window_at m w a n;
  window_len m w a n : window_at m w a n -> sliceLen w = n;
  load_law m w a n off k : memory_ok m -> window_at m w a n ->
    0 <= off -> 0 < k -> off + k <= n ->
    gather (byteAt m) (a + off) k = Some (sliceLoad w off k m);
  store_law m w a n off d : memory_ok m -> window_at m w a n ->
    0 <= off -> 0 < len d -> off + len d <= n -> is_bytes d ->
    memory_ok (sliceStore w off d m) /\
    (forall x, byteAt (sliceStore w off d m) x = scatter (byteAt m) (a + off) d x) /\
    (forall w' a' n', window_at m w' a' n' -> window_at (sliceStore w off d m) w' a' n');
  write_keeps m b d m' w a n : WriteIPA b d m = (m', Ok tt) ->
    window_at m w a n -> window_at m' w a n;
}.

Lemma gather_Some f a n d :
  gather f a n = Some d <->
  len d = Z.max 0 n /\ forall i, 0 <= i < n -> f (a + i) = d !! Z.to_nat i.
Proof.
  unfold gather. rewrite mapM_Some, Forall2_lookup. split.
  - intros H. split.
    + enough (length (seqZ a n) = length d) as E by (rewrite length_seqZ in E; unfold len; lia).
      apply (Forall2_length (fun x y => f x = Some y)). by apply Forall2_lookup.
    + intros i Hi. specialize (H (Z.to_nat i)).
      rewrite lookup_seqZ_lt, Z2Nat.id in H by lia. by inversion H as [x y E|].
  - intros [Hl H] i. destruct (decide (Z.of_nat i < n)) as [Hi|Hi].
    + specialize (H (Z.of_nat i) ltac:(lia)). rewrite Nat2Z.id in H.
      rewrite lookup_seqZ_lt by lia.
      destruct (lookup_lt_is_Some_2 d i) as [y Hy]; [unfold len in Hl; lia|].
      rewrite Hy in *. by constructor.
    + rewrite lookup_seqZ_ge, lookup_ge_None_2 by (unfold len in Hl; lia). constructor.
Qed.

(** Two adjacent ranges are read by reading one after the other. *)
Lemma gather_app f a n k :
  0 <= n -> 0 <= k ->
  gather f a (n + k) =
  (d ← gather f a n; e ← gather f (a + n) k; Some (d ++ e)).
Proof.
  intros Hn Hk. unfold gather. rewrite seqZ_app by lia.
  induction (seqZ a n) as [|x l IH]; cbn [app mapM].
  - by destruct (mapM f (seqZ (a + n) k)).
  - rewrite IH. destruct (f x); cbn; [|done].
    destruct (mapM f l); cbn; [|done]. by destruct (mapM f (seqZ (a + n) k)).
Qed.

Lemma gather_len f a n d : 0 <= n -> gather f a n = Some d -> len d = n.
Proof. intros Hn [H _]%gather_Some. lia. Qed.

Lemma gather_ext f g a n :
  (forall x, a <= x < a + n -> f x = g x) -> gather f a n = gather g a n.
Proof.
  intros H. unfold gather.
  assert (Forall (fun x => f x = g x) (seqZ a n)) as Hall.
  { apply Forall_forall. intros x Hx%elem_of_seqZ. apply H. lia. }
  induction Hall as [|x l Hx _ IH]; cbn [mapM]; [done|]. by rewrite Hx, IH.
Qed.

(** Reading back what was stored, and what is stored elsewhere. *)
Lemma gather_scatter f a d : gather (scatter f a d) a (len d) = Some d.
Proof.
  apply gather_Some. split; [pose proof (len_nonneg d); lia|].
  intros i Hi. unfold scatter.
  destruct (Z.leb_spec a (a + i)); [|lia]. destruct (Z.ltb_spec (a + i) (a + len d)); [|lia].
  cbn. do 2 f_equal. lia.
Qed.

Lemma gather_scatter_other f a d b n :
  b + n <= a \/ a + len d <= b -> gather (scatter f a d) b n = gather f b n.
Proof.
  intros H. apply gather_ext. intros x Hx. unfold scatter.
  destruct (Z.leb_spec a x), (Z.ltb_spec x (a + len d)); cbn; done || lia.
Qed.

Lemma scatter_app f a d e x :
  scatter f a (d ++ e) x = scatter (scatter f a d) (a + len d) e x.
Proof.
  unfold scatter. rewrite len_app. pose proof (len_nonneg d). pose proof (len_nonneg e).
  destruct (Z.leb_spec a x), (Z.ltb_spec x (a + (len d + len e))),
    (Z.leb_spec (a + len d) x), (Z.ltb_spec x (a + len d + len e)),
    (Z.ltb_spec x (a + len d)); cbn; try lia; try done.
  - rewrite lookup_app_r by (unfold len in *; lia). f_equal. unfold len in *. lia.
  - by rewrite lookup_app_l by (unfold len in *; lia).
Qed.

Lemma scatter_ext f g a d x : (forall y, f y = g y) -> scatter f a d x = scatter g a d x.
Proof. intros H. unfold scatter. by rewrite H. Qed.

Lemma gather_is_Some f a n :
  is_Some (gather f a n) <-> forall x, a <= x < a + n -> is_Some (f x).
Proof.
  unfold gather. rewrite mapM_is_Some, Forall_forall. split; intros Hx x.
  - intros Hr. apply Hx, elem_of_seqZ. lia.
  - intros Hr%elem_of_seqZ. apply Hx. lia.
Qed.

Lemma gather_bytes f a n d :
  (forall x y, f x = Some y -> is_u8 y) -> gather f a n = Some d -> is_bytes d.
Proof.
  intros Hf. unfold gather. rewrite mapM_Some. induction 1; constructor; eauto.
Qed.

(** Storing over mapped addresses maps no new ones. *)
Lemma scatter_dom f a d x :
  is_Some (gather f a (len d)) -> is_Some (scatter f a d x) <-> is_Some (f x).
Proof.
  intros Hg. unfold scatter.
  destruct (Z.leb_spec a x), (Z.ltb_spec x (a + len d)); cbn; try done.
  pose proof (proj1 (gather_is_Some _ _ _) Hg x ltac:(lia)).
  split; [done|]. intros _. apply lookup_lt_is_Some. unfold len in *. lia.
Qed.

(** * Lists of ranges *)

(** Reading the ranges one after the other. *)
Fixpoint gatherAll (f : Z -> option Z) (segs : list (Z * Z)) : option bytes :=
  match segs with
  | [] => Some []
  | (a, n) :: segs => d ← gather f a n; e ← gatherAll f segs; Some (d ++ e)
  end.

(** Storing [d] in the ranges, one after the other. *)
Fixpoint scatterAll (f : Z -> option Z) (segs : list (Z * Z)) (d : bytes) : Z -> option Z :=
  match segs with
  | [] => f
  | (a, n) :: segs =>
      scatterAll (scatter f a (take (Z.to_nat n) d)) segs (drop (Z.to_nat n) d)
  end.

Definition total (segs : list (Z * Z)) : Z := foldr (fun s t => s.2 + t) 0 segs.

#[global] Arguments total : simpl never.

Lemma total_cons s segs : total (s :: segs) = s.2 + total segs.
Proof. done. Qed.

Lemma total_app l k : total (l ++ k) = total l + total k.
Proof. induction l as [|[a n] l IH]; cbn [app]; rewrite ?total_cons, ?IH; [done|lia]. Qed.

Lemma total_pos segs : Forall (fun s => 0 <= s.2) segs -> 0 <= total segs.
Proof. induction 1; [done|]. rewrite total_cons. lia. Qed.

Lemma total_nonneg segs : Forall (fun s => 0 < s.2) segs -> 0 <= total segs.
Proof. intros Hs. apply total_pos. eapply Forall_impl; [exact Hs|]. cbn. lia. Qed.

Lemma gatherAll_length f segs d :
  Forall (fun s => 0 <= s.2) segs -> gatherAll f segs = Some d -> len d = total segs.
Proof.
  intros Hs. revert d. induction Hs as [|[a n] segs Hn Hs IH]; intros d; cbn [gatherAll].
  - by intros [= <-].
  - destruct (gather f a n) as [d1|] eqn:E1; [|done]. cbn.
    destruct (gatherAll f segs) as [d2|]; [|done]. intros [= <-].
    cbn in Hn. apply gather_len in E1; [|lia]. rewrite len_app, total_cons, (IH d2); [|done].
    cbn. lia.
Qed.

Lemma gatherAll_len f segs d :
  Forall (fun s => in_width 64 s.1 /\ 0 < s.2) segs -> gatherAll f segs = Some d -> len d = total segs.
Proof.
  intros Hs. apply gatherAll_length. eapply Forall_impl; [exact Hs|]. cbn. lia.
Qed.

Lemma scatterAll_ext f g segs d x :
  (forall y, f y = g y) -> scatterAll f segs d x = scatterAll g segs d x.
Proof.
  revert f g d. induction segs as [|[a n] segs IH]; intros f g d Hfg; cbn [scatterAll]; [done|].
  apply IH. intros y. by apply scatter_ext.
Qed.

Lemma slice_to_end (l : bytes) k : 0 <= k <= len l -> slice l k (len l) = drop (Z.to_nat k) l.
Proof. intros Hk. unfold slice. apply take_ge. rewrite length_drop. unfold len in *. lia. Qed.

Lemma slice_is_bytes (l : bytes) a b : is_bytes l -> is_bytes (slice l a b).
Proof. intros Hl. unfold slice, is_bytes. by apply Forall_take, Forall_drop. Qed.

(** * The memory of a KVM arm64 machine *)

(** One region of [MemorySize] bytes at [GuestPhysAddr]; [mem] is the host
    mapping that backs it. *)
Record VM := mkRAM {
  GuestPhysAddr : Z;
  MemorySize : Z;
  mem : bytes;
}.
#[export] Instance eta_VM : Eta VM := fun v => mkRAM (GuestPhysAddr v) (MemorySize v) (mem v).

(** The Go slice expression [mem[lo:hi]], which panics out of range. *)
Definition goSlice (l : bytes) (lo hi : Z) : result memError (Z * Z) :=
  if (lo <=? hi) && (hi <=? len l) then Ok (lo, hi - lo) else Panic.

Definition vmRange (addr size : Z) (v : VM) : result memError (Z * Z) :=
  let start := GuestPhysAddr v in
  let finish := wrap 64 (start + MemorySize v) in
  if (addr <? start) || (finish <? wrap 64 (addr + wrap 64 size)) then Err Unmapped
  else
    let off := wrap 64 (addr - start) in
    goSlice (mem v) off (wrap 64 (off + wrap 64 size)).

Definition vmReadIPAInto (addr size : Z) (v : VM) : result memError bytes :=
  if size =? 0 then Ok []
  else
    '(off, n) ← vmRange addr size v;
    Ok (slice (mem v) off (off + n)).

Definition vmReadIPA (addr size : Z) (v : VM) : result memError bytes :=
  if size <? 0 then Err InvalidSize
  else if size =? 0 then Ok []
  else vmReadIPAInto addr size v.

(** The window is an offset and a length in [mem]. *)
Definition vmSliceIPA (addr size : Z) (v : VM) : result memError (Z * Z) :=
  if size <? 0 then Err InvalidSize
  else if size =? 0 then Ok (0, 0)
  else vmRange addr size v.

Definition vmWriteIPA (addr : Z) (data : bytes) (v : VM) : VM * result memError unit :=
  if len data =? 0 then (v, Ok tt)
  else
    match vmRange addr (len data) v with
    | Ok (off, _) => (v <| mem := put (mem v) off data |>, Ok tt)
    | Err e => (v, Err e)
    | Panic => (v, Panic)
    end.

#[export] Instance vm_memory : GuestMemory VM := {|
  window := Z * Z;
  ReadIPA := vmReadIPA;
  WriteIPA := vmWriteIPA;
  ReadIPAInto := Some vmReadIPAInto;
  SliceIPA := Some vmSliceIPA;
  sliceLen w := w.2;
  sliceLoad w off n v := slice (mem v) (w.1 + off) (w.1 + off + n);
  sliceStore w off d v := v <| mem := put (mem v) (w.1 + off) d |>;
|}.

(** The bytes of a range of guest addresses inside the region. *)
Definition inRegion (v : VM) (a n : Z) : Prop :=
  GuestPhysAddr v <= a /\ a + n <= GuestPhysAddr v + len (mem v).

Definition vmOk (v : VM) : Prop :=
  0 <= GuestPhysAddr v /\ MemorySize v = len (mem v) /\ GuestPhysAddr v + len (mem v) < 2 ^ 64 /\
  is_bytes (mem v).

Definition vmByteAt (v : VM) (x : Z) : option Z :=
  if GuestPhysAddr v <=? x then mem v !! Z.to_nat (x - GuestPhysAddr v) else None.

Lemma vmRange_Ok v a n w :
  vmOk v -> in_width 64 a -> 0 < n < 2 ^ 63 ->
  vmRange a n v = Ok w <-> inRegion v a n /\ w = (a - GuestPhysAddr v, n).
Proof.
  intros (Hs & Hsz & He & _) Ha Hn. unfold in_width in *. unfold vmRange, goSlice, inRegion.
  rewrite Hsz.
  pose proof (len_nonneg (mem v)).
  rewrite (wrap_small 64 n), (wrap_small 64 (_ + len _)) by (unfold in_width; lia).
  destruct (Z.ltb_spec a (GuestPhysAddr v)); cbn [orb]; [split; [done|lia]|].
  rewrite (wrap_small 64 (a - _)) by (unfold in_width; lia).
  destruct (decide (a + n < 2 ^ 64)) as [Hw|Hw].
  - rewrite !wrap_small by (unfold in_width; lia).
    destruct (Z.ltb_spec (GuestPhysAddr v + len (mem v)) (a + n)); [split; [done|lia]|].
    destruct (Z.leb_spec (a - GuestPhysAddr v) (a - GuestPhysAddr v + n)); [|lia].
    destruct (Z.leb_spec (a - GuestPhysAddr v + n) (len (mem v))); [|lia]. cbn [andb].
    replace (a - GuestPhysAddr v + n - (a - GuestPhysAddr v)) with n by lia.
    split; [intros [= <-]|intros [_ ->]]; done || (split; [lia|done]).
  - destruct (_ <? _) eqn:E1; [split; [done|lia]|].
    destruct (decide (a - GuestPhysAddr v + n < 2 ^ 64)) as [Hx|Hx].
    + rewrite (wrap_small 64 (a - _ + n)) by (unfold in_width; lia).
      destruct (Z.leb_spec (a - GuestPhysAddr v + n) (len (mem v))); [lia|].
      rewrite andb_false_r. split; [done|lia].
    + unfold wrap. destruct (Z.leb_spec (a - GuestPhysAddr v) ((a - GuestPhysAddr v + n) mod 2 ^ 64)).
      * exfalso. revert H1. pow2. dlia.
      * cbn [andb]. split; [done|lia].
Qed.

Lemma vm_gather v a n d :
  0 < n -> gather (vmByteAt v) a n = Some d <->
  inRegion v a n /\ d = slice (mem v) (a - GuestPhysAddr v) (a - GuestPhysAddr v + n).
Proof.
  intros Hn. rewrite gather_Some. unfold inRegion. split.
  - intros [Hl H].
    assert (Hin : forall i, 0 <= i < n -> GuestPhysAddr v <= a + i < GuestPhysAddr v + len (mem v)).
    { intros i Hi. specialize (H i Hi). unfold vmByteAt in H.
      destruct (lookup_lt_is_Some_2 d (Z.to_nat i)) as [y Hy]; [unfold len in *; lia|].
      rewrite Hy in H. destruct (Z.leb_spec (GuestPhysAddr v) (a + i)); [|done].
      apply lookup_lt_Some in H. unfold len. lia. }
    pose proof (Hin 0 ltac:(lia)). pose proof (Hin (n - 1) ltac:(lia)). split; [lia|].
    apply list_eq. intros i. rewrite lookup_slice.
    destruct (decide (Z.of_nat i < n)) as [Hi|Hi].
    + specialize (H (Z.of_nat i) ltac:(lia)). rewrite Nat2Z.id in H. rewrite <- H.
      unfold vmByteAt. destruct (Z.leb_spec (GuestPhysAddr v) (a + Z.of_nat i)); [|lia].
      case_match; [|lia]. f_equal. lia.
    + rewrite lookup_ge_None_2 by (unfold len in Hl; lia). case_match; [lia|done].
  - intros [Hr ->]. split; [rewrite len_slice; lia|]. intros i Hi. rewrite lookup_slice.
    unfold vmByteAt. destruct (Z.leb_spec (GuestPhysAddr v) (a + i)); [|lia].
    case_match; [|lia]. f_equal. lia.
Qed.

Lemma vm_readInto_law v a n d :
  vmOk v -> in_width 64 a -> 0 < n < 2 ^ 63 ->
  vmReadIPA a n v = Ok d <-> gather (vmByteAt v) a n = Some d.
Proof.
  intros Hv Ha Hn. unfold vmReadIPA, vmReadIPAInto.
  destruct (Z.ltb_spec n 0); [lia|]. destruct (Z.eqb_spec n 0); [lia|].
  rewrite vm_gather by lia. split.
  - intros Hd. inv_bind. destruct x as [off k]. simplify_eq.
    match goal with E : vmRange _ _ _ = _ |- _ => apply vmRange_Ok in E as [? [= -> ->]] end; done.
  - intros [Hr ->]. by rewrite (proj2 (vmRange_Ok v a n _ Hv Ha Hn) (conj Hr eq_refl)).
Qed.

Lemma vm_write v a d :
  vmOk v -> in_width 64 a -> 0 < len d < 2 ^ 63 ->
  vmWriteIPA a d v =
  match vmRange a (len d) v with
  | Ok _ => (v <| mem := put (mem v) (a - GuestPhysAddr v) d |>, Ok tt)
  | Err e => (v, Err e)
  | Panic => (v, Panic)
  end.
Proof.
  intros Hok Ha Hd. unfold vmWriteIPA. destruct (Z.eqb_spec (len d) 0); [lia|].
  destruct (vmRange a (len d) v) as [w|e|] eqn:E; [|done..].
  apply vmRange_Ok in E as [_ ->]; done.
Qed.

Lemma vm_put v a d :
  0 < len d -> inRegion v a (len d) ->
  forall x, vmByteAt (v <| mem := put (mem v) (a - GuestPhysAddr v) d |>) x =
    scatter (vmByteAt v) a d x.
Proof.
  intros Hd Hr x. unfold inRegion in Hr. unfold vmByteAt, scatter. cbn [GuestPhysAddr mem].
  cbv [set_field eta_VM]; cbn [GuestPhysAddr mem].
  destruct (Z.leb_spec (GuestPhysAddr v) x), (Z.leb_spec a x), (Z.ltb_spec x (a + len d));
    cbn [andb]; try done; try lia.
  all: rewrite lookup_put; repeat case_decide; unfold len in *; try lia; try done.
  f_equal. lia.
Qed.

Lemma put_is_bytes l off d : is_bytes l -> is_bytes d -> is_bytes (put l off d).
Proof.
  unfold is_bytes. rewrite !Forall_lookup. intros Hl Hd i x. rewrite lookup_put.
  repeat case_decide; eauto.
Qed.

Lemma vm_put_ok v off d : vmOk v -> is_bytes d -> vmOk (v <| mem := put (mem v) off d |>).
Proof.
  unfold vmOk. cbv [set_field eta_VM]; cbn [GuestPhysAddr mem MemorySize]. rewrite len_put.
  intros (? & ? & ? & ?) ?. repeat split; try done. by apply put_is_bytes.
Qed.

Definition vmWindowAt (v : VM) (w : Z * Z) (a n : Z) : Prop :=
  inRegion v a n /\ w = (a - GuestPhysAddr v, n).

Lemma vm_put_window v off d w a n :
  vmWindowAt v w a n -> vmWindowAt (v <| mem := put (mem v) off d |>) w a n.
Proof.
  unfold vmWindowAt, inRegion. cbv [set_field eta_VM]; cbn [GuestPhysAddr mem MemorySize].
  by rewrite len_put.
Qed.

(** The KVM machine's memory is what the devices rely on. *)
#[export] Instance vm_memory_laws : GuestMemoryLaws VM.
Proof.
  refine {| memory_ok := vmOk; byteAt := vmByteAt; window_at := vmWindowAt |}; cbn.
  - intros v x (Hs & _ & He & _) [y Hy]. unfold vmByteAt in Hy.
    destruct (Z.leb_spec (GuestPhysAddr v) x); [|done].
    apply lookup_lt_Some in Hy. unfold len in He. unfold in_width. lia.
  - intros v x y (_ & _ & _ & Hb) Hy. unfold vmByteAt in Hy.
    destruct (GuestPhysAddr v <=? x); [|done]. by eapply Forall_lookup_1 in Hy.
  - intros v a n d Hv Ha Hn. apply vm_readInto_law; done.
  - intros v a n d f Hv Ha Hn [= <-]. rewrite <- vm_readInto_law by done.
    unfold vmReadIPA. destruct (Z.ltb_spec n 0); [lia|]. by destruct (Z.eqb_spec n 0); [lia|].
  - intros v a d Hv Ha Hd Hb [e [Hr _]%vm_gather]; [|lia].
    rewrite vm_write by done.
    rewrite (proj2 (vmRange_Ok v a (len d) _ Hv Ha Hd) (conj Hr eq_refl)).
    eexists. split; [done|]. split; [by apply vm_put_ok|]. apply vm_put; [lia|done].
  - intros v a d v' Hv Ha Hd. rewrite vm_write by done.
    destruct (vmRange a (len d) v) as [w|e|] eqn:E; [|done..]. intros _.
    apply vmRange_Ok in E as [Hr _]; [|done..]. eexists. apply vm_gather; [lia|done].
  - intros v a n f w Hv Ha Hn [= <-] H. unfold vmSliceIPA in H.
    destruct (Z.ltb_spec n 0); [lia|]. destruct (Z.eqb_spec n 0); [lia|].
    by apply vmRange_Ok in H.
  - by intros v w a n [_ ->].
  - intros v w a n off k Hv [Hr ->] Ho Hk Hn. apply vm_gather; [lia|].
    unfold inRegion in *. split; [lia|]. cbn. f_equal; lia.
  - intros v w a n off d Hv [Hr ->] Ho Hd Hn Hb. cbn [fst].
    replace (a - GuestPhysAddr v + off) with (a + off - GuestPhysAddr v) by lia.
    split; [by apply vm_put_ok|]. split; [|intros; by apply vm_put_window].
    apply vm_put; [done|]. unfold inRegion in *. lia.
  - intros v b d v' w a n H Hw. unfold vmWriteIPA in H.
    destruct (len d =? 0); [by simplify_eq|].
    destruct (vmRange b (len d) v) as [[off k]|e|]; simplify_eq. by apply vm_put_window.
Defined.

(** * Interrupt lines *)

Inductive irqError := IRQFailed.

(** [SetMSI] is the optional method the NVMe controller looks for. *)
Class IRQController (I : Type) := {
  SetIRQ : Z -> bool -> I -> I * result irqError unit;
  SetMSI : option (Z -> Z -> I -> I * result irqError unit);
}.

(** A controller that keeps the level of each line it was told. *)
Class IRQLaws (I : Type) `{IRQController I} := {
  level : I -> Z -> bool;
  setIRQ_law i n b i' : SetIRQ n b i = (i', Ok tt) ->
    forall k, level i' k = if k =? n then b else level i k;
}.

(** * The machine's memory, end to end *)

(** A write to the KVM machine's memory succeeds exactly when the range lies
    in the region; afterwards the same range reads back the data, and every range
    disjoint from it reads as before. *)
Theorem ram_write_read (v : VM) (a : Z) (d : bytes) :
  vmOk v -> in_width 64 a -> 0 < len d < 2 ^ 63 -> is_bytes d ->
  ((exists v', vmWriteIPA a d v = (v', Ok tt)) <-> inRegion v a (len d)) /\
  forall v', vmWriteIPA a d v = (v', Ok tt) ->
    vmOk v' /\ vmReadIPA a (len d) v' = Ok d /\
    forall b n, in_width 64 b -> 0 < n < 2 ^ 63 -> b + n <= a \/ a + len d <= b ->
      forall e, vmReadIPA b n v' = Ok e <-> vmReadIPA b n v = Ok e.
Proof.
  intros Hv Ha Hd Hby. split.
  - rewrite vm_write by done. split.
    + intros [v' H]. destruct (vmRange a (len d) v) as [w|e|] eqn:E; [|done..].
      by apply vmRange_Ok in E as [Hr _].
    + intros Hr. rewrite (proj2 (vmRange_Ok v a (len d) _ Hv Ha Hd) (conj Hr eq_refl)). eauto.
  - intros v' Hw. pose proof (write_fails (G:=VM) v a d v' Hv Ha Hd Hw) as Hin.
    pose proof (write_law (G:=VM) v a d Hv Ha Hd Hby Hin) as (v'' & Hw' & Hv' & Hb).
    cbn in Hw'. rewrite Hw in Hw'. injection Hw' as <-. cbn in Hv', Hb.
    split; [done|]. split.
    + apply vm_readInto_law; [done..|]. rewrite <- (gather_scatter (vmByteAt v) a d).
      apply gather_ext. intros; apply Hb.
    + intros b n Hb' Hn Hdis e. rewrite !vm_readInto_law by done.
      rewrite <- (gather_scatter_other (vmByteAt v) a d b n Hdis).
      by rewrite (gather_ext (vmByteAt v') (scatter (vmByteAt v) a d)) by (intros; apply Hb).
Qed.

(** The range check of the KVM machine's memory adds the access size to the
    address in 64 bits; an access that runs over the top of the address space
    passes it, and the slice expression behind it panics instead of returning the
    unmapped error, for reads, writes and slices alike. *)
Theorem address_wrap_panics (v : VM) (a : Z) (d : bytes) :
  vmOk v -> in_width 64 a -> 0 < len d < 2 ^ 63 -> GuestPhysAddr v <= a ->
  2 ^ 64 <= a + len d <= 2 ^ 64 + GuestPhysAddr v + MemorySize v ->
  vmReadIPA a (len d) v = Panic /\ vmWriteIPA a d v = (v, Panic) /\
  vmSliceIPA a (len d) v = Panic.
Proof.
  intros Hv Ha Hd Hs Hw.
  assert (vmRange a (len d) v = Panic) as E.
  { assert (vmRange a (len d) v <> Err Unmapped) as Hne.
    { destruct Hv as (H0 & Hsz & He & _). unfold in_width in Ha. unfold vmRange.
      rewrite (wrap_small 64 (len d)), (wrap_small 64 (_ + MemorySize v)) by (unfold in_width; lia).
      destruct (Z.ltb_spec a (GuestPhysAddr v)); [lia|]. cbn [orb].
      assert (wrap 64 (a + len d) = a + len d - 2 ^ 64) as -> by (unfold wrap; revert Ha Hd Hw; pow2; dlia).
      destruct (Z.ltb_spec (GuestPhysAddr v + MemorySize v) (a + len d - 2 ^ 64)); [lia|].
      unfold goSlice. by destruct (_ && _). }
    assert (forall e, vmRange a (len d) v = Err e -> e = Unmapped) as Hu.
    { intros e. unfold vmRange, goSlice. destruct (_ || _); [by intros [= <-]|].
      by destruct (_ && _). }
    destruct (vmRange a (len d) v) as [w|e|] eqn:E; [|by rewrite (Hu e) in Hne|done].
    apply vmRange_Ok in E as [Hr _]; [|done..]. destruct Hv as (_ & _ & He & _).
    unfold inRegion in Hr. lia. }
  unfold vmReadIPA, vmReadIPAInto, vmWriteIPA, vmSliceIPA.
  destruct (Z.ltb_spec (len d) 0); [lia|]. destruct (Z.eqb_spec (len d) 0); [lia|].
  by rewrite E.
Qed.

(** A machine with 8 KiB of memory at 1 GiB. *)
Definition sampleRAM : VM := mkRAM 0x40000000 8192 (zeros 8192).

Lemma sampleRAM_ok : vmOk sampleRAM.
Proof.
  repeat split; try (vm_compute; congruence). apply Forall_replicate. done.
Qed.

(** Interrupt lines that remember their level. *)
Record lines := mkLines { levels : list (Z * bool) }.

Fixpoint lineLevel (l : list (Z * bool)) (k : Z) : bool :=
  match l with
  | [] => false
  | (n, b) :: l => if k =? n then b else lineLevel l k
  end.

#[export] Instance lines_irq : IRQController lines := {|
  SetIRQ n b i := (mkLines ((n, b) :: levels i), Ok tt);
  SetMSI := None;
|}.

#[export] Instance lines_laws : IRQLaws lines.
Proof.
  refine {| level i k := lineLevel (levels i) k |}.
  intros i n b i' [= <-] k. done.
Defined.
