(* ===== verification/Virtqueue.v ===== *)
(** Split virtqueues: [src/internal/core/virtio/queue_io.go], with the queue and
    descriptor types of [console.go] and the queue part of [state.go] beside it.

    A queue is three tables in guest memory: descriptors, the ring of available
    chains and the ring of used ones.  The theorems: a descriptor chain is read
    exactly when it is finite, and refused as a loop exactly when it is not
    ([chain_exact]); requests gather and responses scatter the buffers of a chain
    in order ([request_gathers], [response_scatters]); what the device puts in the
    used ring a driver finds there in order ([used_ring_fifo]). *)

From S2P Require Import Prelude GuestMemory.

Abbreviation descFNext := 1%Z.
Abbreviation descFWrite := 2%Z.
Abbreviation maxQueueRequestBytes := (2 ^ 20).

(** The cached windows of [queue] are used by other devices only. *)
Record queue := mkQueue {
  size : Z;
  ready : bool;
  descAddr : Z;
  availAddr : Z;
  usedAddr : Z;
  lastAvailIdx : Z;
  usedIdx : Z;
  noNotify : bool;
}.
#[export] Instance eta_queue : Eta queue := fun q =>
  mkQueue (size q) (ready q) (descAddr q) (availAddr q) (usedAddr q) (lastAvailIdx q) (usedIdx q)
    (noNotify q).

(** [queue{}]. *)
Definition zeroQueue : queue := mkQueue 0 false 0 0 0 0 0 false.

Record descriptor := mkDescriptor {
  addr : Z;
  length_ : Z;
  flags : Z;
  next : Z;
}.

Record queueBuffer := mkBuffer {
  baddr : Z;
  blength : Z;
  bwrite : bool;
}.

Inductive queueError :=
| QMem (e : memError)
| DescriptorOutOfRange (index : Z)
| NoGuestMemory
| ChainLoop
| ReadableAfterWritable
| RequestTooLarge
| RequestExceeds
| NoReadableBytes
| ResponseNeeds (needs has : Z).

Definition liftMem {A} (r : result memError A) : result queueError A :=
  match r with Ok a => Ok a | Err e => Err (QMem e) | Panic => Panic end.

(** The four fields of a 16-byte descriptor. *)
Definition parseDescriptor (raw : bytes) : descriptor := {|
  addr := unle (slice raw 0 8);
  length_ := unle (slice raw 8 12);
  flags := unle (slice raw 12 14);
  next := unle (slice raw 14 16);
|}.

Section queues.
Context {G : Type} `{GM : GuestMemory G}.

Definition descriptorAddr (q : queue) (index : Z) : Z := wrap 64 (descAddr q + index * 16).

Definition readQueueDescriptor (m : G) (q : queue) (index : Z) : result queueError descriptor :=
  if (size q =? 0) || (size q <=? index) then Err (DescriptorOutOfRange index)
  else
    raw ← liftMem (ReadIPA (descriptorAddr q index) 16 m);
    Ok (parseDescriptor raw).

Definition bufferOf (d : descriptor) : queueBuffer :=
  mkBuffer (addr d) (length_ d) (hasbits (flags d) descFWrite).

(** [n] more descriptors may be followed. *)
Fixpoint chainFrom (n : nat) (m : G) (q : queue) (index : Z) (out : list queueBuffer)
  : result queueError (list queueBuffer) :=
  match n with
  | O => Err ChainLoop
  | S n =>
      desc ← readQueueDescriptor m q index;
      let out := out ++ [bufferOf desc] in
      if hasbits (flags desc) descFNext then chainFrom n m q (next desc) out
      else Ok out
  end.

Definition readQueueChain (mem : option G) (q : queue) (head : Z) : result queueError (list queueBuffer) :=
  match mem with
  | None => Err NoGuestMemory
  | Some m => chainFrom (Z.to_nat (size q)) m q head []
  end.

(** The first loop of [readQueueRequest]: the number of readable bytes. *)
Fixpoint requestSize (buffers : list queueBuffer) (total : Z) (sawWritable : bool)
  : result queueError Z :=
  match buffers with
  | [] => Ok total
  | b :: buffers =>
      if bwrite b then requestSize buffers total true
      else if sawWritable then Err ReadableAfterWritable
      else
        let total := wrap 64 (total + blength b) in
        if 2 ^ 63 - 1 <? total then Err RequestTooLarge
        else if maxQueueRequestBytes <? total then Err RequestExceeds
        else requestSize buffers total sawWritable
  end.

(** The second loop: the readable buffers copied one after the other. *)
Fixpoint fillRequest (m : G) (buffers : list queueBuffer) (out : bytes) (offset : Z)
  : result queueError bytes :=
  match buffers with
  | [] => Ok out
  | b :: buffers =>
      if bwrite b then Ok out
      else if blength b =? 0 then fillRequest m buffers out offset
      else
        raw ← liftMem (ReadIPA (baddr b) (blength b) m);
        fillRequest m buffers (put out offset raw) (offset + len raw)
  end.

Definition readQueueRequest (m : G) (buffers : list queueBuffer) : result queueError bytes :=
  total ← requestSize buffers 0 false;
  if total =? 0 then Err NoReadableBytes
  else fillRequest m buffers (zeros total) 0.

(** The number of bytes written so far comes with an error. *)
Fixpoint fillResponse (m : G) (buffers : list queueBuffer) (data : bytes) (offset : Z)
  : G * result (Z * queueError) Z :=
  match buffers with
  | [] => (m, Ok offset)
  | b :: buffers =>
      if negb (bwrite b) || (blength b =? 0) then fillResponse m buffers data offset
      else
        let count := len data - offset in
        if count <=? 0 then (m, Ok offset)
        else
          let count := if blength b <? count then blength b else count in
          match WriteIPA (baddr b) (slice data offset (offset + count)) m with
          | (m, Ok _) => fillResponse m buffers data (offset + count)
          | (m, Err e) => (m, Err (wrap 32 offset, QMem e))
          | (m, Panic) => (m, Panic)
          end
  end.

Definition writeQueueResponse (m : G) (buffers : list queueBuffer) (data : bytes)
  : G * result (Z * queueError) Z :=
  match fillResponse m buffers data 0 with
  | (m, Ok offset) =>
      if offset =? len data then (m, Ok (wrap 32 offset))
      else (m, Err (wrap 32 offset, ResponseNeeds (len data) offset))
  | r => r
  end.

Definition readAvailableIndex (m : G) (q : queue) : result queueError Z :=
  raw ← liftMem (ReadIPA (wrap 64 (availAddr q + 2)) 2 m);
  Ok (unle raw).

(** A remainder by a queue size of zero panics. *)
Definition ringSlot (q : queue) (index : Z) : result queueError Z :=
  if size q =? 0 then Panic else Ok (index mod size q).

Definition readAvailableHead (m : G) (q : queue) (index : Z) : result queueError Z :=
  slot ← ringSlot q index;
  raw ← liftMem (ReadIPA (wrap 64 (availAddr q + 4 + slot * 2)) 2 m);
  Ok (unle raw).

Definition storeQ (a : Z) (d : bytes) : proc (G * queue) queueError unit := fun '(m, q) =>
  let '(m, r) := WriteIPA a d m in ((m, q), liftMem r).

Definition writeQueueUsed (head usedLen : Z) : proc (G * queue) queueError unit :=
  '(_, q) ← getState;
  slot ← lift (ringSlot q (usedIdx q));
  _ ← storeQ (wrap 64 (usedAddr q + 4 + slot * 8)) (le 4 head ++ le 4 usedLen);
  let index := wrap 16 (usedIdx q + 1) in
  _ ← modify (fun '(m, q) => (m, q <| usedIdx := index |>));
  storeQ (wrap 64 (usedAddr q + 2)) (le 2 index).

End queues.

(** * Snapshots of queues *)

Record QueueState := mkQueueState {
  Size : Z;
  Ready : bool;
  DescAddr : Z;
  AvailAddr : Z;
  UsedAddr : Z;
  LastAvailIdx : Z;
  UsedIdx : Z;
  NoNotify : bool;
}.

Definition snapshotQueue (q : queue) : QueueState := {|
  Size := size q;
  Ready := ready q;
  DescAddr := descAddr q;
  AvailAddr := availAddr q;
  UsedAddr := usedAddr q;
  LastAvailIdx := lastAvailIdx q;
  UsedIdx := usedIdx q;
  NoNotify := noNotify q;
|}.

Definition snapshotQueues (queues : list queue) : list QueueState := snapshotQueue <$> queues.

(** [hasMem]: the device is attached to a memory. *)
Definition restoreQueue (state : QueueState) (hasMem : bool) : queue :=
  let q := mkQueue (Size state) (Ready state) (DescAddr state) (AvailAddr state) (UsedAddr state)
             (LastAvailIdx state) (UsedIdx state) (NoNotify state) in
  if negb (ready q) || (size q =? 0) || negb hasMem then q <| lastAvailIdx := 0 |> <| usedIdx := 0 |>
  else q.

(** The states that are left over are ignored, the queues left over reset. *)
Fixpoint restoreQueues (queues : list queue) (states : list QueueState) (hasMem : bool) : list queue :=
  match queues, states with
  | [], _ => []
  | _ :: queues, [] => zeroQueue :: restoreQueues queues [] hasMem
  | _ :: queues, s :: states => restoreQueue s hasMem :: restoreQueues queues states hasMem
  end.

(** * Descriptor chains *)

Section proofs.
Context {G : Type} `{GM : GuestMemory G, GL : !GuestMemoryLaws G}.

(** The descriptor the guest has put at [i] of the table. *)
Definition descAt (m : G) (q : queue) (i : Z) : option descriptor :=
  if (size q =? 0) || (size q <=? i) then None
  else parseDescriptor <$> gather (byteAt m) (descriptorAddr q i) 16.

(** [walk m q i l bs]: following the chain from [i] visits the descriptors [l] in
    order, with the buffers [bs], and ends. *)
Inductive walk (m : G) (q : queue) : Z -> list Z -> list queueBuffer -> Prop :=
  | walk_last i d : descAt m q i = Some d -> hasbits (flags d) descFNext = false ->
      walk m q i [i] [bufferOf d]
  | walk_next i d l bs : descAt m q i = Some d -> hasbits (flags d) descFNext = true ->
      walk m q (next d) l bs -> walk m q i (i :: l) (bufferOf d :: bs).

Lemma read_descriptor m q i d :
  memory_ok m -> readQueueDescriptor m q i = Ok d <-> descAt m q i = Some d.
Proof.
  intros Hm. unfold readQueueDescriptor, descAt. destruct (_ || _); [done|].
  assert (in_width 64 (descriptorAddr q i)) as Hw by (apply wrap_range; lia).
  split.
  - intros H. destruct (ReadIPA _ 16 m) as [raw|e|] eqn:E; [|done..].
    apply read_law in E as ->; [|done..]. cbn in *. congruence.
  - destruct (gather _ _ 16) as [raw|] eqn:E; [|done]. apply read_law in E as ->; [|done..].
    cbn. congruence.
Qed.

Lemma descAt_next m q i d : memory_ok m -> descAt m q i = Some d -> 0 <= next d.
Proof.
  intros Hm. unfold descAt. destruct (_ || _); [done|].
  destruct (gather _ _ 16) as [raw|] eqn:E; [|done]. intros [= <-]. cbn.
  apply unle_range, slice_is_bytes. eapply gather_bytes; [|exact E]. intros x y. by apply byteAt_u8.
Qed.

Lemma walk_det m q i l bs : walk m q i l bs -> forall l' bs', walk m q i l' bs' -> l' = l /\ bs' = bs.
Proof.
  induction 1 as [i d Hd Hf|i d l bs Hd Hf _ IH]; intros l' bs' Hw;
    inversion Hw as [? d' Hd' Hf'|? d' l1 bs1 Hd' Hf' Hw']; subst;
    rewrite Hd in Hd'; injection Hd' as <-; try congruence; [done|].
  by destruct (IH _ _ Hw') as [-> ->].
Qed.

Lemma walk_suffix m q i l bs j :
  walk m q i l bs -> j ∈ l -> exists l' bs', walk m q j l' bs' /\ (length l' <= length l)%nat.
Proof.
  induction 1 as [i d Hd Hf|i d l bs Hd Hf Hw IH]; intros Hj.
  - apply list_elem_of_singleton in Hj as ->. eauto using walk_last.
  - apply elem_of_cons in Hj as [->|Hj]; [eauto using walk_next|].
    destruct (IH Hj) as (l' & bs' & Hw' & Hl). exists l', bs'. split; [done|]. cbn. lia.
Qed.

Lemma walk_nodup m q i l bs : walk m q i l bs -> NoDup l.
Proof.
  intros Hw. induction Hw as [i d Hd Hf|i d l bs Hd Hf Hw IH]; [apply NoDup_singleton|].
  constructor; [|done]. intros Hin.
  destruct (walk_suffix _ _ _ _ _ _ Hw Hin) as (l' & bs' & Hw' & Hl).
  destruct (walk_det _ _ _ _ _ Hw' (i :: l) (bufferOf d :: bs)) as [<- _]; [by eapply walk_next|].
  cbn in Hl. lia.
Qed.

Lemma walk_range m q i l bs :
  memory_ok m -> 0 <= i -> walk m q i l bs -> Forall (fun j => 0 <= j < size q) l.
Proof.
  intros Hm Hi Hw. induction Hw as [i d Hd Hf|i d l bs Hd Hf _ IH]; constructor; eauto using descAt_next.
  all: unfold descAt in Hd; destruct (Z.leb_spec (size q) i); [by rewrite orb_true_r in Hd|lia].
Qed.

(** A finite chain is no longer than the table: it visits no descriptor twice. *)
Lemma walk_length m q i l bs :
  memory_ok m -> 0 <= i -> walk m q i l bs -> (length l <= Z.to_nat (size q))%nat.
Proof.
  intros Hm Hi Hw. pose proof (walk_range m q i l bs Hm Hi Hw) as Hr. rewrite Forall_forall in Hr.
  rewrite <- (length_seqZ 0 (size q)). apply submseteq_length, NoDup_submseteq; [by eapply walk_nodup|].
  intros j Hj. apply elem_of_seqZ. specialize (Hr j Hj). lia.
Qed.

Lemma chainFrom_walk n m q : memory_ok m -> forall i out bs,
  chainFrom n m q i out = Ok bs <->
  exists l bs', walk m q i l bs' /\ (length l <= n)%nat /\ bs = out ++ bs'.
Proof.
  intros Hm. induction n as [|n IH]; intros i out bs; cbn [chainFrom].
  - split; [done|]. intros (l & bs' & Hw & Hl & _). inversion Hw; subst; cbn in Hl; lia.
  - split.
    + intros H. apply result_bind_Ok in H as (d & Hd & H). apply read_descriptor in Hd; [|done].
      destruct (hasbits (flags d) descFNext) eqn:Hf.
      * apply IH in H as (l & bs' & Hw & Hl & ->). exists (i :: l), (bufferOf d :: bs').
        split; [by eapply walk_next|]. split; [cbn; lia|]. by rewrite <- app_assoc.
      * injection H as <-. exists [i], [bufferOf d]. split; [by apply walk_last|]. split; [cbn; lia|done].
    + intros (l & bs' & Hw & Hl & ->).
      inversion Hw as [? d Hd Hf|? d l1 bs1 Hd Hf Hw1]; subst;
        apply read_descriptor in Hd as ->; try done; cbn; rewrite Hf; [done|].
      apply IH. exists l1, bs1. split; [done|]. split; [cbn in Hl; lia|]. by rewrite <- app_assoc.
Qed.

(** A chain that goes on forever, descriptor after descriptor. *)
Definition endless (m : G) (q : queue) (f : nat -> Z) : Prop :=
  forall k, exists d, descAt m q (f k) = Some d /\
    hasbits (flags d) descFNext = true /\ f (S k) = next d.

Lemma chainFrom_endless n m q : memory_ok m -> forall f out,
  endless m q f -> chainFrom n m q (f 0%nat) out = Err ChainLoop.
Proof.
  intros Hm. induction n as [|n IH]; intros f out Hf; cbn [chainFrom]; [done|].
  destruct (Hf 0%nat) as (d & Hd & Hn & Hs). apply read_descriptor in Hd as ->; [|done].
  cbn. rewrite Hn, <- Hs. apply (IH (fun k => f (S k))). intros k. apply Hf.
Qed.

(** C23: Reading a descriptor chain returns buffers exactly when the chain in guest
    memory is finite, and then those of its descriptors in order, each visited
    once: no finite chain is mistaken for a loop, whatever its length.  A chain that
    goes on forever is refused as a loop after at most as many steps as the queue
    has descriptors. *)
Theorem chain_exact (m : G) (q : queue) (head : Z) (Hm : memory_ok m) (Hh : 0 <= head) :
  (forall bs, readQueueChain (Some m) q head = Ok bs <->
     exists l, walk m q head l bs /\ NoDup l) /\
  (forall f, f 0%nat = head -> endless m q f -> readQueueChain (Some m) q head = Err ChainLoop).
Proof.
  unfold readQueueChain. split.
  - intros bs. rewrite chainFrom_walk by done. split.
    + intros (l & bs' & Hw & _ & ->). exists l. split; [done|]. by eapply walk_nodup.
    + intros (l & Hw & _). exists l, bs. eauto using walk_length.
  - intros f <- Hf. by apply chainFrom_endless.
Qed.

(** * Requests and responses *)

Definition range (b : queueBuffer) : Z * Z := (baddr b, blength b).

(** Buffers as descriptors hold them: 64-bit addresses, 32-bit lengths. *)
Definition bufferOk (b : queueBuffer) : Prop := in_width 64 (baddr b) /\ in_width 32 (blength b).

Lemma ranges_nonneg bs : Forall bufferOk bs -> Forall (fun s => 0 <= s.2) (range <$> bs).
Proof.
  intros Hb. rewrite Forall_fmap. eapply Forall_impl; [exact Hb|]. intros b [_ Hl]. unfold in_width in Hl. cbn. lia.
Qed.

(** The buffers are readable ones followed by writable ones. *)
Definition splits (bs rs ws : list queueBuffer) : Prop :=
  bs = rs ++ ws /\ Forall (fun b => bwrite b = false) rs /\ Forall (fun b => bwrite b = true) ws.

Lemma splits_write b bs rs ws : bwrite b = true ->
  splits (b :: bs) rs ws <-> rs = [] /\ exists ws', ws = b :: ws' /\ splits bs [] ws'.
Proof.
  intros Hb. unfold splits. split.
  - intros (E & Hr & Hw). destruct rs as [|r rs]; cbn in E.
    + subst ws. inversion Hw; subst. split; [done|]. by exists bs.
    + injection E as <- ->. inversion Hr; congruence.
  - intros (-> & ws' & -> & -> & Hr & Hw). split; [done|]. split; [done|]. by constructor.
Qed.

Lemma splits_read b bs rs ws : bwrite b = false ->
  splits (b :: bs) rs ws <-> exists rs', rs = b :: rs' /\ splits bs rs' ws.
Proof.
  intros Hb. unfold splits. split.
  - intros (E & Hr & Hw). destruct rs as [|r rs]; cbn in E.
    + subst ws. inversion Hw; congruence.
    + injection E as <- ->. inversion Hr; subst. by exists rs.
  - intros (rs' & -> & -> & Hr & Hw). split; [done|]. split; [by constructor|done].
Qed.

Lemma splits_nil rs ws : splits [] rs ws <-> rs = [] /\ ws = [].
Proof.
  unfold splits. split; [intros (E & _)|intros [-> ->]; done].
  symmetry in E. by apply app_eq_nil in E.
Qed.

Lemma splits_nonneg bs rs ws :
  Forall bufferOk bs -> splits bs rs ws -> Forall (fun s => 0 <= s.2) (range <$> rs).
Proof. intros Hbs [-> _]. apply ranges_nonneg. by apply Forall_app in Hbs as [? _]. Qed.

Lemma requestSize_spec bs : Forall bufferOk bs -> forall t saw n,
  0 <= t <= maxQueueRequestBytes ->
  requestSize bs t saw = Ok n <->
  exists rs ws, splits bs rs ws /\ (saw = true -> rs = []) /\
    n = t + total (range <$> rs) /\ n <= maxQueueRequestBytes.
Proof.
  induction 1 as [|b bs Hb Hbs IH]; intros t saw n Ht; cbn [requestSize].
  - split.
    + intros [= <-]. exists [], []. rewrite splits_nil. cbn. unfold total. cbn. repeat split; try done; lia.
    + intros (rs & ws & [-> ->]%splits_nil & _ & -> & _). unfold total. cbn. f_equal. lia.
  - destruct (bwrite b) eqn:Ew.
    + rewrite IH by done. split.
      * intros (rs & ws & Hs & Hrs & Hn). rewrite (Hrs eq_refl) in *.
        exists [], (b :: ws). rewrite splits_write by done. split; [eauto|done].
      * intros (rs & ws & Hs & _ & Hn). apply splits_write in Hs as (-> & ws' & -> & Hs); [|done].
        exists [], ws'. done.
    + destruct saw.
      { split; [done|]. intros (rs & ws & Hs & Hrs & _).
        apply splits_read in Hs as (rs' & -> & _); [|done]. by specialize (Hrs eq_refl). }
      destruct Hb as [_ Hl]. unfold in_width in Hl.
      rewrite wrap_small by (unfold in_width; lia).
      destruct (Z.ltb_spec (2 ^ 63 - 1) (t + blength b)); [lia|].
      destruct (Z.ltb_spec (2 ^ 20) (t + blength b)) as [Hbig|Hbig].
      * split; [done|]. intros (rs & ws & Hs & _ & -> & Hn).
        apply splits_read in Hs as (rs' & -> & Hs); [|done]. rewrite fmap_cons, total_cons in Hn. cbn in Hn.
        pose proof (total_pos _ (splits_nonneg _ _ _ Hbs Hs)). lia.
      * rewrite IH by lia. split.
        -- intros (rs & ws & Hs & _ & -> & Hn). exists (b :: rs), ws. rewrite splits_read by done.
           rewrite fmap_cons, total_cons. cbn. split; [eauto|]. split; [done|]. lia.
        -- intros (rs & ws & Hs & _ & -> & Hn). apply splits_read in Hs as (rs' & -> & Hs); [|done].
           rewrite fmap_cons, total_cons in Hn |- *. cbn in Hn |- *. exists rs', ws. split; [done|]. split; [done|]. lia.
Qed.

Lemma read_buffer m b raw :
  memory_ok m -> bufferOk b -> blength b <> 0 ->
  liftMem (ReadIPA (baddr b) (blength b) m) = Ok raw <->
  gather (byteAt m) (baddr b) (blength b) = Some raw.
Proof.
  intros Hm [Ha Hl] Hz. unfold in_width in Hl. rewrite <- read_law by (done || lia).
  destruct (ReadIPA _ _ m); cbn; split; congruence.
Qed.

Lemma fillRequest_spec m bs : memory_ok m -> Forall bufferOk bs -> forall rs ws out off d,
  splits bs rs ws -> 0 <= off -> off + total (range <$> rs) <= len out ->
  fillRequest m bs out off = Ok d <->
  exists data, gatherAll (byteAt m) (range <$> rs) = Some data /\ d = put out off data.
Proof.
  intros Hm. induction 1 as [|b bs Hb Hbs IH]; intros rs ws out off d Hs Ho Hl; cbn [fillRequest].
  - apply splits_nil in Hs as [-> ->]. cbn.
    split; [intros [= <-]; exists []|intros (? & [= <-] & ->)]; by rewrite put_nil.
  - destruct (bwrite b) eqn:Ew.
    + apply splits_write in Hs as (-> & ws' & -> & Hs); [|done]. cbn.
      split; [intros [= <-]; exists []|intros (? & [= <-] & ->)]; by rewrite put_nil.
    + apply splits_read in Hs as (rs' & -> & Hs); [|done]. rewrite fmap_cons, total_cons in Hl.
      rewrite fmap_cons. cbn [gatherAll range snd] in *.
      pose proof (splits_nonneg _ _ _ Hbs Hs) as Hnn. pose proof (total_pos _ Hnn) as Hp.
      destruct (Z.eqb_spec (blength b) 0) as [E|E].
      { rewrite E in *. rewrite (IH rs' ws) by (done || lia). cbn.
        destruct (gatherAll (byteAt m) (range <$> rs')) as [x|]; cbn; split; intros (? & [= <-] & ->); eauto. }
      destruct Hb as [Ha Hw]. unfold in_width in Hw.
      split.
      * intros H. apply result_bind_Ok in H as (raw & Hr & H). apply read_buffer in Hr; [|done..].
        pose proof (gather_len _ _ _ _ (ltac:(lia) : 0 <= blength b) Hr) as Lr.
        apply (IH rs' ws) in H as (data & Hg & ->); [|done|lia|rewrite len_put; lia].
        pose proof (gatherAll_length _ _ _ Hnn Hg) as Ld.
        exists (raw ++ data). rewrite Hr. cbn. rewrite Hg. cbn. split; [done|]. rewrite put_app by lia. done.
      * intros (data & Hg & ->). destruct (gather (byteAt m) (baddr b) (blength b)) as [raw|] eqn:Hr; [|done].
        cbn in Hg. destruct (gatherAll (byteAt m) (range <$> rs')) as [data'|] eqn:Hg'; [|done].
        injection Hg as <-. pose proof (gather_len _ _ _ _ (ltac:(lia) : 0 <= blength b) Hr) as Lr.
        pose proof (gatherAll_length _ _ _ Hnn Hg') as Ld.
        apply read_buffer in Hr as ->; [|done..]. cbn.
        apply (IH rs' ws); [done|lia|rewrite len_put; lia|]. exists data'. split; [done|].
        by rewrite put_app by lia.
Qed.

(** Reading a request succeeds exactly when the chain's readable buffers all precede
    its writable ones, hold between one byte and one mebibyte in total, and lie in
    mapped memory; the request is then their bytes, one buffer after the other. *)
Theorem request_gathers (m : G) (bs : list queueBuffer) (data : bytes)
    (Hm : memory_ok m) (Hbs : Forall bufferOk bs) :
  readQueueRequest m bs = Ok data <->
  exists rs ws, splits bs rs ws /\ 0 < len data <= maxQueueRequestBytes /\
    gatherAll (byteAt m) (range <$> rs) = Some data.
Proof.
  unfold readQueueRequest.
  pose proof (fun rs ws => splits_nonneg bs rs ws Hbs) as Hnn.
  split.
  - intros H. apply result_bind_Ok in H as (n & Hn & H).
    apply requestSize_spec in Hn as (rs & ws & Hs & _ & -> & Hmax);
      [|done|lia]. pose proof (total_pos _ (Hnn rs ws Hs)) as Hp.
    destruct (Z.eqb_spec (0 + total (range <$> rs)) 0); [done|].
    apply (fillRequest_spec m bs Hm Hbs rs ws) in H as (d & Hg & ->); [|done|lia|rewrite len_zeros; lia].
    pose proof (gatherAll_length _ _ _ (Hnn rs ws Hs) Hg) as Ld.
    rewrite put_full by (rewrite len_zeros; lia). exists rs, ws. split; [done|]. split; [lia|done].
  - intros (rs & ws & Hs & Hl & Hg). pose proof (gatherAll_length _ _ _ (Hnn rs ws Hs) Hg) as Ld.
    rewrite (proj2 (requestSize_spec bs Hbs 0 false (total (range <$> rs)) ltac:(lia))).
    + cbn. destruct (Z.eqb_spec (total (range <$> rs)) 0); [lia|].
      apply (fillRequest_spec m bs Hm Hbs rs ws); [done|lia|rewrite len_zeros; lia|].
      exists data. split; [done|]. rewrite put_full by (rewrite len_zeros; lia). done.
    + exists rs, ws. split; [done|]. split; [done|]. lia.
Qed.

(** The ranges a response may use. *)
Definition writable (bs : list queueBuffer) : list (Z * Z) :=
  range <$> filter (fun b => bwrite b = true /\ blength b <> 0) bs.

Lemma scatter_nil f a x : scatter f a [] x = f x.
Proof.
  unfold scatter. rewrite len_nil.
  destruct (Z.leb_spec a x), (Z.ltb_spec x (a + 0)); cbn; done || lia.
Qed.

Lemma scatterAll_nil f segs x : scatterAll f segs [] x = f x.
Proof.
  revert f. induction segs as [|[a n] segs IH]; intros f; cbn [scatterAll]; [done|].
  rewrite take_nil, drop_nil, IH. apply scatter_nil.
Qed.

Lemma writable_skip b bs : bwrite b = false \/ blength b = 0 -> writable (b :: bs) = writable bs.
Proof. intros H. unfold writable. rewrite filter_cons_False; [done|]. intros [? ?]. destruct H; congruence. Qed.

Lemma writable_take b bs :
  bwrite b = true -> blength b <> 0 -> writable (b :: bs) = range b :: writable bs.
Proof. intros. unfold writable. by rewrite filter_cons_True. Qed.

Lemma writable_nonneg bs : Forall bufferOk bs -> Forall (fun s => 0 <= s.2) (writable bs).
Proof. intros Hb. apply ranges_nonneg. by apply Forall_filter_sub. Qed.

Definition mapped (f : Z -> option Z) (segs : list (Z * Z)) : Prop :=
  Forall (fun s => is_Some (gather f s.1 s.2)) segs.

Lemma mapped_scatter (f g : Z -> option Z) a d segs :
  (forall x, g x = scatter f a d x) -> is_Some (gather f a (len d)) -> mapped f segs -> mapped g segs.
Proof.
  intros Hg Hd Hs. eapply Forall_impl; [exact Hs|]. intros [b n]. cbn. rewrite !gather_is_Some.
  intros Hb x Hx. rewrite Hg. apply scatter_dom; [done|]. by apply Hb.
Qed.

(** One chunk of a response: at most a buffer's worth of what is left. *)
Lemma chunk_slice (data : bytes) off n :
  0 <= off < len data -> 0 < n ->
  let count := if n <? len data - off then n else len data - off in
  slice data off (off + count) = take (Z.to_nat n) (drop (Z.to_nat off) data) /\
  drop (Z.to_nat n) (drop (Z.to_nat off) data) = drop (Z.to_nat (off + count)) data /\
  len (slice data off (off + count)) = count /\ 0 < count <= n /\ off + count <= len data.
Proof.
  intros Ho Hn. cbn zeta. set (count := if _ <? _ then _ else _).
  assert (count = Z.min n (len data - off)) as E by (unfold count; destruct (Z.ltb_spec n (len data - off)); lia).
  rewrite E. clearbody count. subst count. unfold slice.
  rewrite len_take, len_drop, drop_drop. unfold len in *. split; [|split; [|lia]].
  - destruct (decide (n <= Z.of_nat (length data) - off)).
    + f_equal. lia.
    + rewrite !take_ge by (rewrite length_drop; lia). done.
  - destruct (decide (n <= Z.of_nat (length data) - off)).
    + f_equal. lia.
    + rewrite !drop_ge by lia. done.
Qed.

Lemma fillResponse_spec bs data : Forall bufferOk bs -> is_bytes data -> len data < 2 ^ 63 ->
  forall m off, memory_ok m -> 0 <= off <= len data -> mapped (byteAt m) (writable bs) ->
  exists m', memory_ok m' /\
    fillResponse m bs data off = (m', Ok (off + Z.min (total (writable bs)) (len data - off))) /\
    forall x, byteAt m' x = scatterAll (byteAt m) (writable bs) (drop (Z.to_nat off) data) x.
Proof.
  intros Hbs Hd Hlen. induction Hbs as [|b bs Hb Hbs IH]; intros m off Hm Ho Hmap; cbn [fillResponse].
  - exists m. split; [done|]. split; [|done]. unfold writable, total. cbn. do 2 f_equal. lia.
  - destruct (negb (bwrite b) || (blength b =? 0)) eqn:Eb.
    { rewrite writable_skip in *; [by apply IH|..];
        apply orb_true_iff in Eb as [Eb|Eb]; [left; by destruct (bwrite b)|right; lia|left; by destruct (bwrite b)|right; lia]. }
    apply orb_false_iff in Eb as [Ew El]. rewrite writable_take in * by (destruct (bwrite b); done || lia).
    destruct Hb as [Ha Hl]. unfold in_width in Hl. apply Forall_cons in Hmap as [Hmb Hmap].
    pose proof (total_pos _ (writable_nonneg bs Hbs)) as Hp. rewrite total_cons. cbn [scatterAll range fst snd] in *.
    destruct (Z.leb_spec (len data - off) 0) as [Hz|Hz].
    { exists m. split; [done|]. split; [do 2 f_equal; lia|]. intros x.
      rewrite (drop_ge data) by (unfold len in *; lia). rewrite take_nil, drop_nil, scatterAll_nil.
      by rewrite scatter_nil. }
    destruct (chunk_slice data off (blength b)) as (Es & Ed & Els & Hc & Hoc); [lia..|]. cbn zeta in *.
    set (count := if blength b <? len data - off then _ else _) in *.
    assert (is_Some (gather (byteAt m) (baddr b) count)) as Hg.
    { rewrite gather_is_Some in *. intros x Hx. apply Hmb. lia. }
    destruct (write_law m (baddr b) (slice data off (off + count))) as (m1 & -> & Hm1 & Hx1);
      [done|done|lia|by apply slice_is_bytes|by rewrite Els|].
    destruct (IH m1 (off + count)) as (m' & Hm' & -> & Hx'); [done|lia|..].
    { eapply mapped_scatter; [exact Hx1|by rewrite Els|done]. }
    exists m'. split; [done|]. split.
    + do 2 f_equal. subst count. destruct (Z.ltb_spec (blength b) (len data - off)); lia.
    + intros x. rewrite Hx', Ed. apply scatterAll_ext. intros y. by rewrite Hx1, Es.
Qed.

(** A response goes, in order, into the writable buffers of the chain and nowhere
    else: if they have room for it the whole response is stored and its length
    reported, otherwise as much as fits is stored and the error tells how much. *)
Theorem response_scatters (m : G) (bs : list queueBuffer) (data : bytes)
    (Hm : memory_ok m) (Hbs : Forall bufferOk bs) (Hd : is_bytes data) (Hl : len data < 2 ^ 63)
    (Hmap : mapped (byteAt m) (writable bs)) :
  let room := total (writable bs) in
  exists m', memory_ok m' /\
    writeQueueResponse m bs data =
      (m', if len data <=? room then Ok (wrap 32 (len data))
           else Err (wrap 32 room, ResponseNeeds (len data) room)) /\
    forall x, byteAt m' x = scatterAll (byteAt m) (writable bs) data x.
Proof.
  intros room. pose proof (len_nonneg data). pose proof (total_pos _ (writable_nonneg bs Hbs)) as Hp.
  destruct (fillResponse_spec bs data Hbs Hd Hl m 0) as (m' & Hm' & E & Hx); [done|lia|done|].
  exists m'. split; [done|]. split; [|exact Hx]. unfold writeQueueResponse. rewrite E.
  fold room in Hp |- *. replace (0 + Z.min room (len data - 0)) with (Z.min room (len data)) by lia.
  destruct (Z.leb_spec (len data) room).
  - rewrite Z.min_r by lia. by rewrite Z.eqb_refl.
  - rewrite Z.min_l by lia. destruct (Z.eqb_spec room (len data)); [lia|done].
Qed.

(** * The used ring *)

(** A used ring a driver may set up: a power of two of slots, mapped, below the top
    of the address space. *)
Definition usedRingOk (m : G) (q : queue) : Prop :=
  memory_ok m /\ (exists k, 0 <= k <= 15 /\ size q = 2 ^ k) /\ 0 <= usedAddr q /\
  usedAddr q + 4 + size q * 8 < 2 ^ 64 /\
  is_Some (gather (byteAt m) (usedAddr q) (4 + size q * 8)).

Definition usedElem (u : Z * Z) : bytes := le 4 u.1 ++ le 4 u.2.

Definition usedSlot (q : queue) (i : Z) : Z := usedAddr q + 4 + (i mod size q) * 8.

(** The ring after the device has used [hist], oldest first: the index counts them all,
    and the slots hold the last ones. *)
Definition usedRing (m : G) (q : queue) (hist : list (Z * Z)) : Prop :=
  usedRingOk m q /\ usedIdx q = wrap 16 (len hist) /\
  gather (byteAt m) (usedAddr q + 2) 2 = Some (le 2 (usedIdx q)) /\
  forall i u, len hist - size q <= Z.of_nat i -> hist !! i = Some u ->
    gather (byteAt m) (usedSlot q (Z.of_nat i)) 8 = Some (usedElem u).

Lemma mod_near n i s : 0 < n - i < s -> n mod s <> i mod s.
Proof.
  intros H E. assert ((n - i) mod s = 0) as Hz by (rewrite Zminus_mod, E, Z.sub_diag; apply Z.mod_0_l; lia).
  rewrite Z.mod_small in Hz; lia.
Qed.

Lemma len_usedElem u : len (usedElem u) = 8.
Proof. unfold usedElem. by rewrite len_app, !len_le. Qed.

Lemma usedElem_bytes u : is_bytes (usedElem u).
Proof. apply Forall_app. split; apply le_is_bytes. Qed.

Lemma gather_sub (f : Z -> option Z) a n b k :
  is_Some (gather f a n) -> a <= b -> b + k <= a + n -> is_Some (gather f b k).
Proof. rewrite !gather_is_Some. intros H Ha Hb x Hx. apply H. lia. Qed.

(** Storing in a mapped range keeps the ring's memory well formed. *)
Lemma usedRingOk_store m q a d :
  usedRingOk m q -> in_width 64 a -> is_bytes d -> 0 < len d < 2 ^ 63 ->
  is_Some (gather (byteAt m) a (len d)) ->
  exists m', WriteIPA a d m = (m', Ok tt) /\ usedRingOk m' q /\
    forall x, byteAt m' x = scatter (byteAt m) a d x.
Proof.
  intros (Hm & Hk & Ha & Htop & Hmap) Hw Hb Hl Hg.
  destruct (write_law m a d Hm Hw Hl Hb Hg) as (m' & E & Hm' & Hx). exists m'. split; [done|]. split; [|done].
  split; [done|]. split; [done|]. split; [done|]. split; [done|].
  rewrite gather_is_Some in *. intros x Hx'. rewrite Hx. apply scatter_dom; [by rewrite gather_is_Some|]. by apply Hmap.
Qed.

Lemma usedRing_next m m2 q hist u (idx := wrap 16 (usedIdx q + 1)) :
  usedRing m q hist -> usedRingOk m2 q ->
  (forall x, byteAt m2 x =
     scatter (scatter (byteAt m) (usedSlot q (len hist)) (usedElem u)) (usedAddr q + 2) (le 2 idx) x) ->
  usedRing m2 (q <| usedIdx := idx |>) (hist ++ [u]).
Proof.
  intros (Hok & Hidx & Hfield & Hslots) Hok2 Hx. pose proof Hok as (_ & (k & Hk & Hsize) & _).
  assert (0 < size q) as Hs by (rewrite Hsize; lia).
  pose proof (fun i => Z.mod_pos_bound i (size q) Hs) as Hb.
  split; [exact Hok2|]. split; [|split].
  - cbn. unfold idx. rewrite Hidx, len_app, wrap_add_wrap_l. done.
  - cbn. rewrite (gather_ext _ _ _ _ (fun x _ => Hx x)). apply (gather_scatter _ _ (le 2 idx)).
  - intros i v Hi Hv. cbn [size set_field] in Hi. change (usedSlot (q <| usedIdx := idx |>)) with (usedSlot q).
    change (size (q <| usedIdx := idx |>)) with (size q) in Hi.
    rewrite (gather_ext _ _ _ _ (fun x _ => Hx x)).
    rewrite gather_scatter_other by (rewrite len_le; unfold usedSlot; specialize (Hb (Z.of_nat i)); lia).
    rewrite len_app in Hi. change (len [u]) with 1 in Hi.
    apply lookup_app_Some in Hv as [Hv|[Hge Hv]].
    + apply lookup_lt_Some in Hv as Hlt. rewrite gather_scatter_other; [apply Hslots; [lia|done]|].
      rewrite len_usedElem. unfold usedSlot.
      pose proof (mod_near (len hist) (Z.of_nat i) (size q) ltac:(unfold len in *; lia)).
      pose proof (Hb (len hist)). pose proof (Hb (Z.of_nat i)). lia.
    + apply list_lookup_singleton_Some in Hv as [Hi0 <-].
      replace (Z.of_nat i) with (len hist) by (unfold len; lia).
      rewrite <- (len_usedElem u). apply gather_scatter.
Qed.

Lemma usedRing_post m q hist u :
  usedRing m q hist ->
  exists m', writeQueueUsed u.1 u.2 (m, q) = ((m', q <| usedIdx := wrap 16 (usedIdx q + 1) |>), Ok tt) /\
    usedRing m' (q <| usedIdx := wrap 16 (usedIdx q + 1) |>) (hist ++ [u]) /\
    forall x, x < usedAddr q + 2 \/ usedAddr q + 4 + size q * 8 <= x -> byteAt m' x = byteAt m x.
Proof.
  intros Hring. pose proof Hring as (Hok & Hidx & _).
  pose proof Hok as (Hm & (k & Hk & Hsize) & Ha & Htop & Hmap).
  assert (0 < size q) as Hs by (rewrite Hsize; lia).
  assert (usedIdx q mod size q = len hist mod size q) as Hslot.
  { rewrite Hidx. apply Z.mod_mod_divide. rewrite Hsize. exists (2 ^ (16 - k)).
    rewrite <- Z.pow_add_r by lia. f_equal. lia. }
  pose proof (Z.mod_pos_bound (len hist) (size q) Hs) as Hb.
  unfold writeQueueUsed. cbv [mbind proc_bind getState lift ringSlot modify storeQ].
  destruct (Z.eqb_spec (size q) 0); [lia|]. rewrite Hslot. fold (usedElem u).
  rewrite wrap_small by (unfold in_width; lia). fold (usedSlot q (len hist)).
  destruct (usedRingOk_store m q (usedSlot q (len hist)) (usedElem u)) as (m1 & -> & Hok1 & Hx1);
    [done|unfold in_width, usedSlot; lia|apply usedElem_bytes|rewrite len_usedElem; lia| |].
  { rewrite len_usedElem. eapply gather_sub; [exact Hmap|unfold usedSlot; lia..]. }
  cbn [liftMem]. cbn [usedAddr set_field]. rewrite wrap_small by (unfold in_width; cbn; lia).
  set (idx := wrap 16 (usedIdx q + 1)).
  destruct (usedRingOk_store m1 q (usedAddr q + 2) (le 2 idx)) as (m2 & -> & Hok2 & Hx2);
    [done|unfold in_width; lia|apply le_is_bytes|rewrite len_le; lia| |].
  { rewrite len_le. destruct Hok1 as (_ & _ & _ & _ & Hmap1). eapply gather_sub; [exact Hmap1|lia..]. }
  exists m2. split; [done|]. split.
  - apply (usedRing_next m m2); [done|done|]. intros x. rewrite Hx2. by apply scatter_ext.
  - intros x Hx. rewrite Hx2. unfold scatter at 1. rewrite len_le.
    destruct (Z.leb_spec (usedAddr q + 2) x), (Z.ltb_spec x (usedAddr q + 2 + Z.of_nat 2)); cbn [andb]; try lia;
      rewrite Hx1; unfold scatter; rewrite len_usedElem; unfold usedSlot;
      destruct (Z.leb_spec (usedAddr q + 4 + len hist mod size q * 8) x),
        (Z.ltb_spec x (usedAddr q + 4 + len hist mod size q * 8 + 8)); cbn [andb]; done || lia.
Qed.

(** The device using chains one after the other. *)
Fixpoint useAll (us : list (Z * Z)) : proc (G * queue) queueError unit :=
  match us with
  | [] => mret tt
  | u :: us => _ ← writeQueueUsed u.1 u.2; useAll us
  end.

Lemma useAll_ring us : forall m q hist,
  usedRing m q hist ->
  exists m' q', useAll us (m, q) = ((m', q'), Ok tt) /\ usedRing m' q' (hist ++ us) /\
    size q' = size q /\ usedAddr q' = usedAddr q /\
    forall x, x < usedAddr q + 2 \/ usedAddr q + 4 + size q * 8 <= x -> byteAt m' x = byteAt m x.
Proof.
  induction us as [|u us IH]; intros m q hist H; cbn [useAll].
  - exists m, q. rewrite app_nil_r. done.
  - destruct (usedRing_post m q hist u H) as (m1 & E & H1 & Hx1).
    destruct (IH _ _ _ H1) as (m' & q' & E' & H' & Hs & Hu & Hx'). exists m', q'.
    cbv [mbind proc_bind]. rewrite E, E'. rewrite <- app_assoc in H'. split; [done|]. split; [done|].
    split; [done|]. split; [done|]. intros x Hx. rewrite Hx' by done. by apply Hx1.
Qed.

(** C34: Whatever chains the device uses, and however often its 16-bit index has wrapped,
    a driver that has so far taken the first [c] of them and is at most a ring behind
    sees in guest memory how many are new, and finds exactly those, in order, in the
    ring's slots; the device stores nothing outside the ring. *)
Theorem used_ring_fifo (m : G) (q : queue) (us : list (Z * Z)) (c : Z)
    (Hinit : usedRing m q []) (Hc : 0 <= c <= len us) (Hlag : len us - c <= size q) :
  exists m' q' idx, useAll us (m, q) = ((m', q'), Ok tt) /\
    gather (byteAt m') (usedAddr q + 2) 2 = Some (le 2 idx) /\ wrap 16 (idx - c) = len us - c /\
    (forall i u, c <= Z.of_nat i -> us !! i = Some u ->
       gather (byteAt m') (usedSlot q (Z.of_nat i)) 8 = Some (usedElem u)) /\
    (forall x, x < usedAddr q + 2 \/ usedAddr q + 4 + size q * 8 <= x -> byteAt m' x = byteAt m x).
Proof.
  destruct (useAll_ring us m q [] Hinit) as (m' & q' & E & H & Hs & Hu & Hx). cbn [app] in H.
  destruct H as ((_ & (k & Hk & Hsize) & _) & Hidx & Hf & Hsl). exists m', q', (usedIdx q').
  assert (size q <= 2 ^ 15) by (rewrite <- Hs, Hsize; apply Z.pow_le_mono_r; lia).
  split; [done|]. split; [by rewrite <- Hu|]. split; [|split; [|done]].
  - rewrite Hidx. rewrite <- (wrap_sub_wrap 16 (wrap 16 _)), wrap_wrap, wrap_sub_wrap by lia.
    apply wrap_small. unfold in_width. lia.
  - intros i u Hi Hl. unfold usedSlot. rewrite <- Hs, <- Hu. apply Hsl; [lia|done].
Qed.

End proofs.

(** * A sample queue *)

(** 512 bytes of memory with a queue of four descriptors: the first leads to the third,
    a readable buffer of three bytes followed by a writable one of four. *)
Definition vqRAM : VM :=
  mkRAM 0x40000000 512
    (put (put (put (zeros 512)
       0 (le 8 0x40000080 ++ le 4 3 ++ le 2 1 ++ le 2 2))
       32 (le 8 0x40000090 ++ le 4 4 ++ le 2 2 ++ le 2 0))
       128 [7; 8; 9]).

Definition vqueue : queue := mkQueue 4 true 0x40000000 0x400000c0 0x40000100 0 0 false.

Definition vqBuffers : list queueBuffer :=
  [mkBuffer 0x40000080 3 false; mkBuffer 0x40000090 4 true].

Lemma vqRAM_ok : vmOk vqRAM.
Proof.
  repeat split; try (vm_compute; congruence).
  repeat apply put_is_bytes; try (repeat (apply Forall_app; split); apply le_is_bytes).
  - by apply Forall_replicate.
  - repeat constructor; done.
Qed.

Lemma vqBuffers_ok : Forall bufferOk vqBuffers.
Proof. repeat constructor; vm_compute; congruence. Qed.

Lemma chain_exact_witness : readQueueChain (Some vqRAM) vqueue 0 = Ok vqBuffers.
Proof.
  apply (chain_exact (G := VM) vqRAM vqueue 0); [exact vqRAM_ok|lia|]. exists [0; 2]. split.
  - eapply (walk_next _ _ 0 (mkDescriptor 0x40000080 3 1 2)); [vm_compute; reflexivity..|].
    eapply (walk_last _ _ 2 (mkDescriptor 0x40000090 4 2 0)); vm_compute; reflexivity.
  - repeat constructor; set_solver.
Defined.

Lemma vqRing : usedRing vqRAM vqueue [].
Proof.
  split; [|split; [done|split; [vm_compute; reflexivity|by intros [|i] u]]].
  split; [exact vqRAM_ok|]. split; [exists 2; split; [lia|done]|].
  split; [vm_compute; congruence|]. split; [done|]. eexists. vm_compute. reflexivity.
Qed.

Lemma used_ring_fifo_witness :
  exists m' q', useAll [(0, 3); (2, 1)] (vqRAM, vqueue) = ((m', q'), Ok tt) /\
    gather (byteAt m') 0x40000104 8 = Some (le 4 0 ++ le 4 3).
Proof.
  destruct (used_ring_fifo (G := VM) vqRAM vqueue [(0, 3); (2, 1)] 0 vqRing)
    as (m' & q' & idx & E & _ & _ & Hs & _); [vm_compute; split; congruence|vm_compute; congruence|].
  exists m', q'. split; [exact E|]. apply (Hs 0%nat (0, 3)); [lia|done].
Defined.

(** * Snapshots *)

(** A queue that is in use, on a device with a memory, is restored as it was; otherwise
    its ring positions start over. *)
Lemma restore_snapshot q :
  restoreQueue (snapshotQueue q) true =
    if ready q && negb (size q =? 0) then q else q <| lastAvailIdx := 0 |> <| usedIdx := 0 |>.
Proof.
  unfold restoreQueue. cbn. rewrite orb_false_r. destruct q as [s r d a u l i n]. cbn.
  destruct r, (s =? 0); done.
Qed.
