(* ===== verification/VirtioDevice.v ===== *)
(** The registers and queues every virtio-mmio device has:
    [src/internal/core/virtio/console.go] (and [rng.go], [balloon.go], [state.go],
    [queue_helpers.go], which repeat the same methods).

    A device is its transport (identification, feature selectors, queues, interrupt
    line) with a state [X] of its own.  The loop that serves a queue takes the handler of
    a chain as an argument.  The lemmas: serving a queue uses every available chain once
    and in order, provided its handler leaves the rings alone ([serve_all]), and the
    level of the interrupt line follows the status register ([lineFollows]) until a
    reset forgets it ([reset_forgets_line]). *)

From S2P Require Import Prelude GuestMemory Virtqueue.

(** * Registers *)

Abbreviation mmioMagicValue := 0x74726976%Z.
Abbreviation mmioVersion := 2%Z.
Abbreviation mmioVendorID := 0x554d4551%Z.

Abbreviation regMagicValue := 0x000%Z.
Abbreviation regVersion := 0x004%Z.
Abbreviation regDeviceID := 0x008%Z.
Abbreviation regVendorID := 0x00c%Z.
Abbreviation regDeviceFeatures := 0x010%Z.
Abbreviation regDeviceFeatSel := 0x014%Z.
Abbreviation regDriverFeatures := 0x020%Z.
Abbreviation regDriverFeatSel := 0x024%Z.
Abbreviation regGuestPageSize := 0x028%Z.
Abbreviation regQueueSel := 0x030%Z.
Abbreviation regQueueNumMax := 0x034%Z.
Abbreviation regQueueNum := 0x038%Z.
Abbreviation regQueueAlign := 0x03c%Z.
Abbreviation regQueuePFN := 0x040%Z.
Abbreviation regQueueReady := 0x044%Z.
Abbreviation regQueueNotify := 0x050%Z.
Abbreviation regInterruptStatus := 0x060%Z.
Abbreviation regInterruptAck := 0x064%Z.
Abbreviation regStatus := 0x070%Z.
Abbreviation regQueueDescLow := 0x080%Z.
Abbreviation regQueueDescHigh := 0x084%Z.
Abbreviation regQueueAvailLow := 0x090%Z.
Abbreviation regQueueAvailHigh := 0x094%Z.
Abbreviation regQueueUsedLow := 0x0a0%Z.
Abbreviation regQueueUsedHigh := 0x0a4%Z.
Abbreviation regConfigGen := 0x0fc%Z.
Abbreviation regConfig := 0x100%Z.

Abbreviation intVring := 0x1%Z.
Abbreviation intConfig := 0x2%Z.

Inductive deviceError :=
| DQueue (e : queueError)
| DIRQ (e : irqError)
| DChainLoop
| DHost
| DBadLength (n : Z)
| OutOfFuel.

Definition truncateValue (value sz : Z) : Z :=
  if sz =? 1 then Z.land value 0xff
  else if sz =? 2 then Z.land value 0xffff
  else if sz =? 4 then Z.land value 0xffffffff
  else value.

(** The little-endian value of the first [sz] bytes; a shorter buffer panics. *)
Definition readConfigValue (buf : bytes) (sz : Z) : result deviceError Z :=
  if len buf <? sz then Panic else Ok (wrap 64 (unle (take (Z.to_nat sz) buf))).

Definition alignVirtio (value alignment : Z) : Z :=
  if alignment =? 0 then value
  else Z.land (wrap 64 (value + alignment - 1)) (wrap 64 (Z.lnot (wrap 64 (alignment - 1)))).

(** Half of a 64-bit register replaced. *)
Definition setHalf (target value : Z) (low : bool) : Z :=
  if low then Z.lor (Z.ldiff target 0xffffffff) value
  else Z.lor (Z.land target 0xffffffff) (Z.shiftl value 32).

(** * Devices *)

Section device.
Context {G I X : Type} `{GM : GuestMemory G, IC : IRQController I}.

Record Device := mkDevice {
  Base : Z;
  Size : Z;
  IRQ : Z;
  mem : option G;
  irq : option I;
  deviceFeatureSel : Z;
  driverFeatureSel : Z;
  driverFeatures : Z;
  queueSel : Z;
  status : Z;
  interruptStatus : Z;
  irqHigh : bool;
  configGeneration : Z;
  queues : list queue;
  ext : X;
}.
#[export] Instance eta_device : Eta Device := fun d =>
  mkDevice (Base d) (Size d) (IRQ d) (mem d) (irq d) (deviceFeatureSel d) (driverFeatureSel d)
    (driverFeatures d) (queueSel d) (status d) (interruptStatus d) (irqHigh d) (configGeneration d)
    (queues d) (ext d).

Abbreviation M := (proc Device deviceError).

Definition mapErr {E A} (f : E -> deviceError) (r : result E A) : result deviceError A :=
  match r with Ok a => Ok a | Err e => Err (f e) | Panic => Panic end.

Definition Contains (d : Device) (a sz : Z) : bool :=
  (Base d <=? a) && (wrap 64 (a + wrap 64 sz) <=? wrap 64 (Base d + Size d)).

Definition Attach (m : option G) (i : option I) (d : Device) : Device := d <| mem := m |> <| irq := i |>.

(** Calls on [mem] and on a queue of the device. *)
Definition readIPA (a n : Z) : M bytes := fun d =>
  match mem d with
  | Some m => (d, mapErr (fun e => DQueue (QMem e)) (ReadIPA a n m))
  | None => (d, Panic)
  end.

Definition writeIPA (a : Z) (b : bytes) : M unit := fun d =>
  match mem d with
  | Some m => let '(m, r) := WriteIPA a b m in (d <| mem := Some m |>, mapErr (fun e => DQueue (QMem e)) r)
  | None => (d, Panic)
  end.

Definition getQueue (i : nat) : M queue := fun d =>
  match queues d !! i with Some q => (d, Ok q) | None => (d, Panic) end.

Definition onQueue (i : nat) (f : queue -> queue) : M unit :=
  modify (fun d => d <| queues := alter f i (queues d) |>).

Definition selectedQueueLocked (d : Device) : option queue := queues d !! Z.to_nat (queueSel d).

(** [if q := selectedQueueLocked(); q != nil]: nothing without a selected queue. *)
Definition onSelected (f : queue -> queue) : M unit :=
  d ← getState; onQueue (Z.to_nat (queueSel d)) f.

Definition readDescriptorLocked (q : queue) (index : Z) : M descriptor :=
  if size q <=? index then throw (DQueue (DescriptorOutOfRange index))
  else
    raw ← readIPA (descriptorAddr q index) 16;
    mret (parseDescriptor raw).

Definition writeUsedLocked (i : nat) (head usedLen : Z) : M unit := fun d =>
  match mem d, queues d !! i with
  | Some m, Some q =>
      let '((m, q), r) := writeQueueUsed head usedLen (m, q) in
      (d <| mem := Some m |> <| queues := <[i := q]> (queues d) |>, mapErr DQueue r)
  | _, _ => (d, Panic)
  end.

Definition callIRQ (level : bool) : M unit := fun d =>
  match irq d with
  | Some i => let '(i, r) := SetIRQ (IRQ d) level i in (d <| irq := Some i |>, mapErr DIRQ r)
  | None => (d, Ok tt)
  end.

Definition updateIRQLocked : M unit :=
  d ← getState;
  match irq d with
  | None => mret tt
  | Some _ =>
      let level := negb (interruptStatus d =? 0) in
      if Bool.eqb (irqHigh d) level then mret tt
      else
        _ ← modify (fun d => d <| irqHigh := level |>);
        callIRQ level
  end.

(** The transport after a reset, with the state [x] of the device. *)
Definition resetLocked (x : X) (d : Device) : Device :=
  d <| deviceFeatureSel := 0 |> <| driverFeatureSel := 0 |> <| driverFeatures := 0 |>
    <| queueSel := 0 |> <| status := 0 |> <| interruptStatus := 0 |> <| irqHigh := false |>
    <| configGeneration := wrap 32 (configGeneration d + 1) |>
    <| queues := replicate (length (queues d)) zeroQueue |> <| ext := x |>.

Definition writeQueueReady (value : Z) (q : queue) : queue :=
  let q := q <| ready := negb (value =? 0) |> in
  if value =? 0 then q <| lastAvailIdx := 0 |> <| usedIdx := 0 |> else q.

(** The registers all devices write alike. *)
Definition writeRegister (offset value : Z) : M unit :=
  let v := wrap 32 value in
  if offset =? regDeviceFeatSel then modify (fun d => d <| deviceFeatureSel := v |>)
  else if offset =? regDriverFeatSel then modify (fun d => d <| driverFeatureSel := v |>)
  else if offset =? regDriverFeatures then
    modify (fun d =>
      if driverFeatureSel d =? 0 then d <| driverFeatures := setHalf (driverFeatures d) v true |>
      else if driverFeatureSel d =? 1 then d <| driverFeatures := setHalf (driverFeatures d) v false |>
      else d)
  else if offset =? regQueueSel then modify (fun d => d <| queueSel := v |>)
  else if offset =? regQueueNum then onSelected (fun q => q <| size := wrap 16 value |>)
  else if offset =? regQueueReady then onSelected (writeQueueReady value)
  else if offset =? regQueueDescLow then onSelected (fun q => q <| descAddr := setHalf (descAddr q) v true |>)
  else if offset =? regQueueDescHigh then onSelected (fun q => q <| descAddr := setHalf (descAddr q) v false |>)
  else if offset =? regQueueAvailLow then onSelected (fun q => q <| availAddr := setHalf (availAddr q) v true |>)
  else if offset =? regQueueAvailHigh then onSelected (fun q => q <| availAddr := setHalf (availAddr q) v false |>)
  else if offset =? regQueueUsedLow then onSelected (fun q => q <| usedAddr := setHalf (usedAddr q) v true |>)
  else if offset =? regQueueUsedHigh then onSelected (fun q => q <| usedAddr := setHalf (usedAddr q) v false |>)
  else if offset =? regInterruptAck then
    _ ← modify (fun d => d <| interruptStatus := Z.ldiff (interruptStatus d) v |>);
    updateIRQLocked
  else mret tt.

(** The registers all devices read alike; [None] for the others. *)
Definition readRegister (d : Device) (deviceID offset sz : Z) : option Z :=
  if offset =? regMagicValue then Some (truncateValue mmioMagicValue sz)
  else if offset =? regVersion then Some (truncateValue mmioVersion sz)
  else if offset =? regDeviceID then Some (truncateValue deviceID sz)
  else if offset =? regVendorID then Some (truncateValue mmioVendorID sz)
  else if offset =? regQueueNumMax then
    Some (match selectedQueueLocked d with Some _ => truncateValue 256 sz | None => 0 end)
  else if offset =? regQueueNum then
    Some (match selectedQueueLocked d with Some q => truncateValue (size q) sz | None => 0 end)
  else if offset =? regQueueReady then
    Some (match selectedQueueLocked d with
          | Some q => if ready q then truncateValue 1 sz else 0
          | None => 0
          end)
  else if offset =? regInterruptStatus then Some (truncateValue (interruptStatus d) sz)
  else if offset =? regStatus then Some (truncateValue (status d) sz)
  else if offset =? regConfigGen then Some (truncateValue (configGeneration d) sz)
  else None.

(** * Serving a queue *)

Definition availHead (q : queue) : M Z :=
  if size q =? 0 then gopanic
  else
    entry ← readIPA (wrap 64 (availAddr q + 4 + lastAvailIdx q mod size q * 2)) 2;
    mret (unle entry).

(** The loop over the available chains; the handler returns the used length. *)
Fixpoint serveLoop (fuel : nat) (i : nat) (availIdx : Z) (handle : queue -> Z -> M Z) : M unit :=
  q ← getQueue i;
  if lastAvailIdx q =? availIdx then mret tt
  else
    match fuel with
    | O => throw OutOfFuel
    | S fuel =>
        head ← availHead q;
        used ← handle q head;
        _ ← writeUsedLocked i head used;
        _ ← onQueue i (fun q => q <| lastAvailIdx := wrap 16 (lastAvailIdx q + 1) |>);
        serveLoop fuel i availIdx handle
    end.

(** The part of [process*Locked] before the interrupt: whether the queue is in use, and
    whether a chain was served.  Each round moves the 16-bit index one step closer to
    the available one, which bounds their number. *)
Definition serveQueue (i : nat) (handle : queue -> Z -> M Z) : M (bool * bool) :=
  q ← getQueue i;
  d ← getState;
  if negb (ready q) || (size q =? 0) then mret (false, false)
  else
    match mem d with
    | None => mret (false, false)
    | Some _ =>
        header ← readIPA (availAddr q) 4;
        let availIdx := unle (slice header 2 4) in
        _ ← serveLoop (Z.to_nat (wrap 16 (availIdx - lastAvailIdx q))) i availIdx handle;
        mret (true, negb (lastAvailIdx q =? availIdx))
    end.

Definition raiseVring : M unit :=
  _ ← modify (fun d => d <| interruptStatus := Z.lor (interruptStatus d) intVring |>);
  updateIRQLocked.

(** * Snapshots *)

(** The part of [MMIOState] every device has; restoring drops a pending interrupt. *)
Record MMIOState := mkMMIOState {
  DeviceFeatureSel : Z;
  DriverFeatureSel : Z;
  DriverFeatures : Z;
  QueueSel : Z;
  Status : Z;
  ConfigGeneration : Z;
  Queues : list QueueState;
}.

Definition SnapshotState (d : Device) : MMIOState := {|
  DeviceFeatureSel := deviceFeatureSel d;
  DriverFeatureSel := driverFeatureSel d;
  DriverFeatures := driverFeatures d;
  QueueSel := queueSel d;
  Status := status d;
  ConfigGeneration := configGeneration d;
  Queues := snapshotQueues (queues d);
|}.

Definition RestoreState (state : MMIOState) (d : Device) : Device :=
  d <| deviceFeatureSel := DeviceFeatureSel state |> <| driverFeatureSel := DriverFeatureSel state |>
    <| driverFeatures := DriverFeatures state |> <| queueSel := QueueSel state |>
    <| status := Status state |> <| interruptStatus := 0 |> <| irqHigh := false |>
    <| configGeneration := ConfigGeneration state |>
    <| queues := restoreQueues (queues d) (Queues state) (match mem d with Some _ => true | None => false end) |>.

End device.
Arguments Device : clear implicits.

(** * Restoring a snapshot *)

(** A queue whose positions a snapshot keeps: in use, or never used. *)
Definition resumable (q : queue) : Prop :=
  ready q && negb (size q =? 0) = true \/ lastAvailIdx q = 0 /\ usedIdx q = 0.

Lemma restoreQueues_snapshot qs qs0 :
  Forall resumable qs -> length qs0 = length qs ->
  restoreQueues qs0 (snapshotQueues qs) true = qs.
Proof.
  intros Hr. revert qs0. induction Hr as [|q qs Hq _ IH]; intros [|q0 qs0] Hl; try discriminate; [done|].
  unfold snapshotQueues in *. cbn [fmap list_fmap restoreQueues].
  rewrite IH by (cbn in Hl; lia). f_equal. rewrite restore_snapshot.
  destruct (_ && _) eqn:E; [done|]. destruct Hq as [Hq|[Hl' Hu]]; [congruence|].
  destruct q. cbn in *. by subst.
Qed.

(** A device restored from a snapshot on a machine that is set up alike is the device the
    snapshot was taken of, except for an interrupt that was pending. *)
Lemma restore_device {G I X} (d d0 : Device G I X) (m : G) :
  Base d0 = Base d -> Size d0 = Size d -> IRQ d0 = IRQ d -> ext d0 = ext d ->
  mem d0 = Some m -> length (queues d0) = length (queues d) -> Forall resumable (queues d) ->
  RestoreState (SnapshotState d) d0 =
    d <| mem := mem d0 |> <| irq := irq d0 |> <| interruptStatus := 0 |> <| irqHigh := false |>.
Proof.
  intros HB HS HI Hx Hm Hl Hr. unfold RestoreState. rewrite Hm. cbn [Queues SnapshotState].
  rewrite restoreQueues_snapshot by done. destruct d, d0. cbn in *. by subst.
Qed.

(** * Serving every available chain *)

Section serving.
Context {G I X : Type} `{GM : GuestMemory G, IC : IRQController I, GL : !GuestMemoryLaws G}.
Local Abbreviation D := (Device G I X).

Definition availSlot (q : queue) (j : Z) : Z := availAddr q + 4 + (j mod size q) * 2.

(** The available ring holds the chains [rest] from the device's position on. *)
Definition availRing (m : G) (q : queue) (rest : list Z) : Prop :=
  in_width 16 (lastAvailIdx q) /\ len rest < 2 ^ 16 /\
  0 <= availAddr q /\ availAddr q + 4 + size q * 2 < 2 ^ 64 /\
  forall k h, rest !! k = Some h -> in_width 16 h /\
    gather (byteAt m) (availSlot q (lastAvailIdx q + Z.of_nat k)) 2 = Some (le 2 h).

Definition inUsedRing (q : queue) (x : Z) : Prop := usedAddr q <= x < usedAddr q + 4 + size q * 8.
Definition inAvailRing (q : queue) (x : Z) : Prop := availAddr q <= x < availAddr q + 4 + size q * 2.

(** The rings of a queue do not overlap. *)
Definition separated (q : queue) : Prop := forall x, inAvailRing q x -> ~ inUsedRing q x.

(** Queue [i] of a device with the memory [m], about to serve [rest] after [hist]. *)
Definition serving (d : D) (i : nat) (m : G) (q : queue) (hist : list (Z * Z)) (rest : list Z) : Prop :=
  mem d = Some m /\ queues d !! i = Some q /\
  usedRing m q hist /\ availRing m q rest /\ separated q.

Lemma usedRing_size m q hist : usedRing m q hist -> 0 < size q <= 2 ^ 15 /\ (size q | 2 ^ 16).
Proof.
  intros ((_ & (k & Hk & Hs) & _) & _). rewrite Hs. split.
  - split; [lia|]. apply Z.pow_le_mono_r; lia.
  - exists (2 ^ (16 - k)). rewrite <- Z.pow_add_r by lia. f_equal. lia.
Qed.

(** Slots do not care whether the index has wrapped. *)
Lemma slot_wrap a k s : (s | 2 ^ 16) -> (wrap 16 a + k) mod s = (a + k) mod s.
Proof.
  intros Hs. unfold wrap. rewrite <- (Zplus_mod_idemp_l (a mod 2 ^ 16)), <- (Zplus_mod_idemp_l a).
  by rewrite (Z.mod_mod_divide a (2 ^ 16) s).
Qed.

Lemma availHead_ok (d : D) i m q hist h rest :
  serving d i m q hist (h :: rest) -> availHead q d = (d, Ok h).
Proof.
  intros (Hm & Hq & Hu & (Hl & _ & Ha & Htop & Hs) & _).
  pose proof (usedRing_size m q hist Hu) as [Hsz _]. destruct Hu as ((Hmok & _) & _).
  destruct (Hs 0%nat h eq_refl) as [Hh Hg]. unfold availHead.
  destruct (Z.eqb_spec (size q) 0); [lia|]. cbv [mbind proc_bind readIPA]. rewrite Hm.
  unfold availSlot in Hg. rewrite Z.add_0_r in Hg.
  pose proof (Z.mod_pos_bound (lastAvailIdx q) (size q)) as Hb.
  rewrite wrap_small by (unfold in_width; lia).
  apply read_law in Hg as ->; [|done|unfold in_width; lia|lia]. cbn [mapErr].
  rewrite unle_le, wrap_small by done. done.
Qed.

(** The ring state after a chain has been put in the used ring. *)
Definition served (q : queue) : queue :=
  q <| usedIdx := wrap 16 (usedIdx q + 1) |> <| lastAvailIdx := wrap 16 (lastAvailIdx q + 1) |>.

Lemma availRing_next m m' q h rest :
  (size q | 2 ^ 16) -> 0 < size q -> availRing m q (h :: rest) -> separated q ->
  (forall x, ~ inUsedRing q x -> byteAt m' x = byteAt m x) -> availRing m' (served q) rest.
Proof.
  intros Hdiv Hsz (Hl & Hn & Ha & Htop & Hs) Hsep Hx. rewrite len_cons in Hn.
  split; [apply wrap_range; lia|]. split; [lia|]. split; [done|]. split; [done|].
  intros k h' Hk. destruct (Hs (S k) h' Hk) as [Hw Hg]. split; [done|]. rewrite <- Hg.
  unfold availSlot. cbn [served lastAvailIdx size availAddr set_field].
  change (size (served q)) with (size q). change (availAddr (served q)) with (availAddr q).
  change (lastAvailIdx (served q)) with (wrap 16 (lastAvailIdx q + 1)).
  rewrite slot_wrap by done.
  replace (lastAvailIdx q + 1 + Z.of_nat k) with (lastAvailIdx q + Z.of_nat (S k)) by lia.
  apply gather_ext. intros x Hin. apply Hx, Hsep.
  pose proof (Z.mod_pos_bound (lastAvailIdx q + Z.of_nat (S k)) (size q) Hsz).
  unfold inAvailRing. lia.
Qed.

Lemma alter_insert {A} (f : A -> A) (l : list A) i x :
  (i < length l)%nat -> alter f i (<[i := x]> l) = <[i := f x]> l.
Proof.
  intros Hi. apply list_eq. intros j. destruct (decide (i = j)) as [<-|Hne].
  - by rewrite list_lookup_alter_eq, !list_lookup_insert_eq by done.
  - by rewrite list_lookup_alter_ne, !list_lookup_insert_ne by done.
Qed.

Lemma serve_used (d : D) i m q hist h n rest :
  serving d i m q hist (h :: rest) ->
  exists m', (_ ← writeUsedLocked i h n;
              onQueue i (fun q => q <| lastAvailIdx := wrap 16 (lastAvailIdx q + 1) |>)) d =
      (d <| mem := Some m' |> <| queues := <[i := served q]> (queues d) |>, Ok tt) /\
    serving (d <| mem := Some m' |> <| queues := <[i := served q]> (queues d) |>) i m' (served q)
      (hist ++ [(h, n)]) rest /\
    forall x, ~ inUsedRing q x -> byteAt m' x = byteAt m x.
Proof.
  intros (Hm & Hq & Hu & Hav & Hsep). pose proof (usedRing_size m q hist Hu) as [Hsz Hdiv].
  destruct (usedRing_post m q hist (h, n) Hu) as (m' & E & Hu' & Hx). cbn [fst snd] in E.
  assert (forall x, ~ inUsedRing q x -> byteAt m' x = byteAt m x) as Hx'.
  { intros x Hnx. apply Hx. unfold inUsedRing in Hnx. lia. }
  assert (i < length (queues d))%nat as Hlt by (by eapply lookup_lt_Some).
  exists m'. split; [|split; [|done]].
  - cbv [mbind proc_bind writeUsedLocked onQueue modify]. rewrite Hm, Hq, E. cbn [mapErr].
    assert (alter (fun q => q <| lastAvailIdx := wrap 16 (lastAvailIdx q + 1) |>) i
              (<[i := q <| usedIdx := wrap 16 (usedIdx q + 1) |>]> (queues d)) =
            <[i := served q]> (queues d)) as Ea by (rewrite alter_insert by done; reflexivity).
    rewrite <- Ea. by destruct d.
  - split; [done|]. split; [cbn; by apply list_lookup_insert_eq|]. split; [|split; [|done]].
    + destruct Hu' as (Hok & Hidx & Hf & Hsl). exact (conj Hok (conj Hidx (conj Hf Hsl))).
    + apply (availRing_next m m' q h rest); done || lia.
Qed.

Definition inRings (q : queue) (x : Z) : Prop := inUsedRing q x \/ inAvailRing q x.

Lemma usedRing_agree (m m1 : G) q hist : usedRing m q hist -> memory_ok m1 ->
  (forall x, inUsedRing q x -> byteAt m1 x = byteAt m x) -> usedRing m1 q hist.
Proof.
  intros Hu Hok1 Hx. pose proof (usedRing_size m q hist Hu) as [Hsz _].
  pose proof (fun i => Z.mod_pos_bound i (size q) ltac:(lia)) as Hb.
  destruct Hu as ((Hmok & Hk & Ha & Htop & Hmap) & Hidx & Hf & Hsl).
  split; [|split; [done|split]].
  - split; [done|]. split; [done|]. split; [done|]. split; [done|].
    erewrite gather_ext; [exact Hmap|]. intros x Hr. apply Hx. unfold inUsedRing. lia.
  - rewrite <- Hf. apply gather_ext. intros x Hr. apply Hx. unfold inUsedRing. lia.
  - intros j u Hj Hl. rewrite <- (Hsl j u Hj Hl). apply gather_ext. intros x Hr. apply Hx.
    unfold inUsedRing, usedSlot in *. specialize (Hb (Z.of_nat j)). lia.
Qed.

(** The rings are as they were when the memory has only changed outside of them. *)
Lemma serving_frame (d d1 : D) i m m1 q hist rest :
  serving d i m q hist rest -> mem d1 = Some m1 -> queues d1 !! i = queues d !! i -> memory_ok m1 ->
  (forall x, inRings q x -> byteAt m1 x = byteAt m x) -> serving d1 i m1 q hist rest.
Proof.
  intros (Hm & Hq & Hu & Hav & Hsep) Hm1 Hq1 Hok1 Hx.
  pose proof (usedRing_size m q hist Hu) as [Hsz _].
  split; [done|]. split; [congruence|]. split; [|split; [|done]].
  - eapply usedRing_agree; [exact Hu|done|]. intros x Hr. apply Hx. by left.
  - destruct Hav as (Hl & Hn & Haa & Hat & Hs). split; [done|]. split; [done|]. split; [done|]. split; [done|].
    intros k h Hk'. destruct (Hs k h Hk') as [Hw Hg]. split; [done|]. rewrite <- Hg. apply gather_ext.
    intros x Hr. apply Hx. right. unfold inAvailRing, availSlot in *.
    pose proof (Z.mod_pos_bound (lastAvailIdx q + Z.of_nat k) (size q) ltac:(lia)). lia.
Qed.

(** What a device's handler owes: in a state of [J] it serves the chain and leaves the
    rings alone, and [J] holds for what remains, wherever the used ring is written. *)
Definition handlerOk (i : nat) (handle : queue -> Z -> proc D deviceError Z)
    (J : D -> G -> queue -> list (Z * Z) -> list Z -> Prop) : Prop :=
  forall d m q hist h rest,
    serving d i m q hist (h :: rest) -> J d m q hist (h :: rest) ->
    exists d1 m1 n, handle q h d = (d1, Ok n) /\ mem d1 = Some m1 /\ queues d1 = queues d /\ memory_ok m1 /\
      (forall x, inRings q x -> byteAt m1 x = byteAt m x) /\
      forall m2, (forall x, ~ inUsedRing q x -> byteAt m2 x = byteAt m1 x) -> memory_ok m2 ->
        J (d1 <| mem := Some m2 |> <| queues := <[i := served q]> (queues d1) |>) m2 (served q)
          (hist ++ [(h, n)]) rest.

(** Serving ends, with every chain used once and in the order they were made available. *)
Lemma serve_all i handle J : handlerOk i handle J -> forall rest fuel d m q hist availIdx,
  serving d i m q hist rest -> J d m q hist rest -> (length rest <= fuel)%nat ->
  availIdx = wrap 16 (lastAvailIdx q + len rest) ->
  exists d' m' q' used, serveLoop fuel i availIdx handle d = (d', Ok tt) /\ length used = length rest /\
    serving d' i m' q' (hist ++ zip rest used) [] /\ J d' m' q' (hist ++ zip rest used) [] /\
    lastAvailIdx q' = availIdx.
Proof.
  intros Hh. induction rest as [|h rest IH]; intros fuel d m q hist availIdx Hs HJ Hf Hidx;
    pose proof Hs as (Hm & Hq & Hu & (Hl & Hn & Hav) & Hsep).
  - exists d, m, q, []. rewrite app_nil_r. rewrite Z.add_0_r, wrap_small in Hidx by done.
    split; [|done]. destruct fuel; cbn [serveLoop]; cbv [mbind proc_bind getQueue];
      rewrite Hq, Hidx, Z.eqb_refl; done.
  - destruct fuel as [|fuel]; cbn [length] in Hf; [lia|]. rewrite len_cons in *. cbn [serveLoop].
    unfold mbind at 1, proc_bind at 1, getQueue at 1. rewrite Hq. cbv beta iota.
    destruct (Z.eqb_spec (lastAvailIdx q) availIdx) as [E|_].
    { exfalso. revert E. rewrite Hidx. pose proof (len_nonneg rest). unfold in_width in Hl.
      assert (0 <= lastAvailIdx q < 2 ^ 16) as Hl' by done. unfold wrap. revert Hl' Hn. pow2. dlia. }
    unfold mbind at 1, proc_bind at 1. rewrite (availHead_ok d i m q hist h rest Hs).
    destruct (Hh d m q hist h rest Hs HJ) as (d1 & m1 & n & E1 & Hm1 & Hq1 & Hok1 & Hx1 & HJ1).
    unfold mbind at 1, proc_bind at 1. rewrite E1.
    destruct (serve_used d1 i m1 q hist h n rest) as (m2 & E2 & Hs2 & Hx2);
      [eapply serving_frame; [exact Hs|done|by rewrite Hq1|done..]|].
    rewrite <- proc_bind_assoc. unfold mbind at 1, proc_bind at 1. rewrite E2.
    pose proof Hs2 as (_ & _ & ((Hmok2 & _) & _) & _).
    destruct (IH fuel _ m2 (served q) (hist ++ [(h, n)]) availIdx Hs2 (HJ1 m2 Hx2 Hmok2))
      as (d' & m' & q' & used & E & Hlen & Hs' & HJ' & Hla); [lia| |].
    { rewrite Hidx. change (lastAvailIdx (served q)) with (wrap 16 (lastAvailIdx q + 1)).
      rewrite wrap_add_wrap_l. f_equal. lia. }
    exists d', m', q', (n :: used). rewrite <- app_assoc in Hs', HJ'. split; [exact E|].
    split; [cbn; lia|]. done.
Qed.

(** The whole of a queue, from the index the guest has published. *)
Lemma serveQueue_all i handle J (d : D) m q hist rest header :
  handlerOk i handle J -> serving d i m q hist rest -> J d m q hist rest -> ready q = true ->
  gather (byteAt m) (availAddr q) 4 = Some header ->
  unle (slice header 2 4) = wrap 16 (lastAvailIdx q + len rest) ->
  exists d' m' q' used,
    serveQueue i handle d = (d', Ok (true, negb (lastAvailIdx q =? unle (slice header 2 4)))) /\
    length used = length rest /\ serving d' i m' q' (hist ++ zip rest used) [] /\
    J d' m' q' (hist ++ zip rest used) [] /\ lastAvailIdx q' = wrap 16 (lastAvailIdx q + len rest).
Proof.
  intros Hh Hs HJ Hr Hg Hidx. pose proof Hs as (Hm & Hq & Hu & (Hl & Hn & Ha & Htop & _) & _).
  pose proof (usedRing_size m q hist Hu) as [Hsz _]. destruct Hu as ((Hok & _) & _).
  destruct (serve_all i handle J Hh rest (Z.to_nat (wrap 16 (unle (slice header 2 4) - lastAvailIdx q)))
              d m q hist (unle (slice header 2 4)) Hs HJ)
    as (d' & m' & q' & used & E & Hlen & Hs' & HJ' & Hla); [|done|].
  { rewrite Hidx, wrap_sub_wrap_l. unfold len in *. rewrite wrap_small; [lia|unfold in_width; lia]. }
  exists d', m', q', used. rewrite Hidx in Hla. split; [|done].
  unfold serveQueue, getQueue, getState. cbv [mbind proc_bind]. rewrite Hq, Hr, Hm.
  destruct (Z.eqb_spec (size q) 0); [lia|]. cbn [negb orb]. unfold readIPA. rewrite Hm.
  apply read_law in Hg as ->; [|done|unfold in_width; lia|lia]. cbn [mapErr]. by rewrite E.
Qed.

(** * Chains the device writes around *)

Definition inTable (q : queue) (x : Z) : Prop :=
  exists i, 0 <= i < size q /\ descriptorAddr q i <= x < descriptorAddr q i + 16.

(** The descriptor table lies outside the used ring. *)
Definition tableClear (q : queue) : Prop := forall x, inTable q x -> ~ inUsedRing q x.

Definition rangesClear (q : queue) (segs : list (Z * Z)) : Prop :=
  Forall (fun s => forall x, s.1 <= x < s.1 + s.2 -> ~ inUsedRing q x) segs.

(** The same table in two memories: [q2] may be the same queue at another position. *)
Definition sameTable (m m2 : G) (q q2 : queue) : Prop :=
  size q2 = size q /\ descAddr q2 = descAddr q /\ forall x, inTable q x -> byteAt m2 x = byteAt m x.

Lemma descAt_agree (m m2 : G) q q2 i :
  sameTable m m2 q q2 -> 0 <= i -> descAt m2 q2 i = descAt m q i.
Proof.
  intros (Hs & Ha & Hx) Hi. unfold descAt, descriptorAddr. rewrite Hs, Ha.
  destruct ((size q =? 0) || (size q <=? i)) eqn:E; [reflexivity|].
  rewrite (gather_ext (byteAt m2) (byteAt m)); [reflexivity|].
  intros x Hr. apply Hx. exists i. split; [lia|exact Hr].
Qed.

Lemma walk_agree (m m2 : G) q q2 i l bs :
  memory_ok m -> sameTable m m2 q q2 -> 0 <= i -> walk m q i l bs -> walk m2 q2 i l bs.
Proof.
  intros Hm Hx Hi Hw. induction Hw as [i d Hd Hf|i d l bs Hd Hf _ IH].
  - apply walk_last; [by rewrite (descAt_agree m m2 q)|done].
  - eapply walk_next; [by rewrite (descAt_agree m m2 q)|done|]. eauto using descAt_next.
Qed.

Lemma served_table (m m2 : G) q :
  (forall x, ~ inUsedRing q x -> byteAt m2 x = byteAt m x) -> tableClear q -> sameTable m m2 q (served q).
Proof. intros Hx Hc. split; [by destruct q|]. split; [by destruct q|]. auto. Qed.

Lemma gatherAll_frame (f g : Z -> option Z) q segs :
  (forall x, ~ inUsedRing q x -> g x = f x) -> rangesClear q segs -> gatherAll g segs = gatherAll f segs.
Proof.
  intros Hx Hc. induction Hc as [|[a n] segs Ha _ IH]; cbn [gatherAll]; [done|].
  rewrite IH. rewrite (gather_ext g f); [done|]. intros x Hr. by apply Hx, Ha.
Qed.

Lemma readDescriptor_ok (c : D) m q i d :
  mem c = Some m -> memory_ok m -> descAt m q i = Some d -> readDescriptorLocked q i c = (c, Ok d).
Proof.
  intros Hm Hok Hd. unfold descAt in Hd. destruct ((size q =? 0) || (size q <=? i)) eqn:E; [done|].
  apply orb_false_iff in E as [_ E]. unfold readDescriptorLocked. rewrite E.
  destruct (gather (byteAt m) (descriptorAddr q i) 16) as [raw|] eqn:Hg; [|done].
  apply read_law in Hg; [|done|apply wrap_range; lia|lia].
  cbv [mbind proc_bind readIPA]. rewrite Hm, Hg. by injection Hd as <-.
Qed.

Lemma readIPA_ok (c : D) m a n raw :
  mem c = Some m -> memory_ok m -> in_width 64 a -> 0 < n < 2 ^ 63 ->
  gather (byteAt m) a n = Some raw -> readIPA a n c = (c, Ok raw).
Proof.
  intros Hm Hok Ha Hn Hg. apply read_law in Hg; [|done..]. unfold readIPA. by rewrite Hm, Hg.
Qed.

(** * The data of a chain *)

(** The ranges of a chain the device reads. *)
Definition readable (bs : list queueBuffer) : list (Z * Z) :=
  range <$> filter (fun b => bwrite b = false /\ blength b <> 0) bs.

(** The chain at [head] is finite, and its readable buffers hold [data], none of it in the
    used ring. *)
Definition chainHas (m : G) (q : queue) (head : Z) (data : bytes) : Prop :=
  0 <= head /\ exists l bs, walk m q head l bs /\ Forall bufferOk bs /\
    gatherAll (byteAt m) (readable bs) = Some data /\ rangesClear q (readable bs).

(** What one descriptor adds to the data of its chain. *)
Lemma readBuffer_ok (c : D) m d bs out data :
  mem c = Some m -> memory_ok m -> bufferOk (bufferOf d) ->
  gatherAll (byteAt m) (readable (bufferOf d :: bs)) = Some data ->
  exists chunk rest, data = chunk ++ rest /\ gatherAll (byteAt m) (readable bs) = Some rest /\
    (if negb (hasbits (flags d) descFWrite) && (0 <? length_ d) then
       (chunk ← readIPA (addr d) (length_ d); mret (out ++ chunk))
     else mret out) c = (c, Ok (out ++ chunk)).
Proof.
  intros Hm Hok [Ha Hl] Hg. unfold in_width in Hl. cbn [baddr blength bufferOf] in Ha, Hl.
  unfold readable in Hg. rewrite filter_cons in Hg. case_decide as Hd; cbn [bwrite blength bufferOf] in Hd.
  - destruct Hd as [Hw Hz]. rewrite fmap_cons in Hg. cbn [gatherAll range baddr blength bufferOf] in Hg.
    destruct (gather (byteAt m) (addr d) (length_ d)) as [chunk|] eqn:E1; [|done]. cbn in Hg.
    destruct (gatherAll _ _) as [rest|] eqn:E2; [|done]. injection Hg as <-.
    exists chunk, rest. split; [done|]. split; [done|]. rewrite Hw. cbn [negb andb].
    destruct (Z.ltb_spec 0 (length_ d)); [|lia]. cbv [mbind proc_bind].
    by rewrite (readIPA_ok c m _ _ chunk) by (done || lia).
  - exists [], data. rewrite app_nil_r. split; [done|]. split; [done|].
    destruct (hasbits (flags d) descFWrite); [done|]. cbn [negb andb].
    destruct (Z.ltb_spec 0 (length_ d)); [|done]. exfalso. apply Hd. split; [done|]. lia.
Qed.

Lemma chainHas_frame m m2 q h data :
  memory_ok m -> (forall x, ~ inUsedRing q x -> byteAt m2 x = byteAt m x) -> tableClear q ->
  chainHas m q h data -> chainHas m2 (served q) h data.
Proof.
  intros Hm Hx Hc (Hh & l & bs & Hw & Hb & Hg & Hcl). split; [done|]. exists l, bs.
  split; [eauto using walk_agree, served_table|]. split; [done|]. split; [|exact Hcl].
  by rewrite (gatherAll_frame (byteAt m) (byteAt m2) q).
Qed.

(** * The buffers of a chain *)

Definition inRanges (segs : list (Z * Z)) (x : Z) : Prop :=
  Exists (fun s => s.1 <= x < s.1 + s.2) segs.

(** The ranges lie outside the descriptor table and the rings. *)
Definition avoids (q : queue) (segs : list (Z * Z)) : Prop :=
  forall x, inRanges segs x -> ~ inTable q x /\ ~ inRings q x.

(** The chain at [head] is finite, and its writable buffers [segs] are mapped and outside
    the queue's own memory. *)
Definition chainFills (m : G) (q : queue) (head : Z) (segs : list (Z * Z)) : Prop :=
  0 <= head /\ exists l bs, walk m q head l bs /\ Forall bufferOk bs /\ segs = writable bs /\
    mapped (byteAt m) segs /\ avoids q segs.

Lemma mapped_dom (f g : Z -> option Z) segs :
  (forall x, is_Some (g x) <-> is_Some (f x)) -> mapped f segs -> mapped g segs.
Proof.
  intros Hd Hs. eapply Forall_impl; [exact Hs|]. intros [a n]. cbn. rewrite !gather_is_Some.
  intros Hg x Hx. by apply Hd, Hg.
Qed.

Lemma scatter_agree (P : Z -> Prop) (f g : Z -> option Z) a buf :
  (forall x, P x -> g x = f x) -> forall x, P x -> scatter g a buf x = scatter f a buf x.
Proof. intros H x Hx. unfold scatter. destruct (_ && _); [done|by apply H]. Qed.

Lemma writable_sizes bs : Forall bufferOk bs -> Forall (fun s => 0 <= s.2) (writable bs).
Proof.
  rewrite !Forall_forall. intros Hb s [b [-> Hin]]%list_elem_of_fmap.
  apply list_elem_of_filter in Hin as [_ [_ Hl]%Hb]. cbn. unfold in_width in Hl. lia.
Qed.

Lemma avoids_table m m2 q segs :
  avoids q segs -> (forall x, ~ inRanges segs x -> byteAt m2 x = byteAt m x) -> sameTable m m2 q q.
Proof.
  intros Ha Hx. split; [done|]. split; [done|]. intros x Ht. apply Hx. intros Hr.
  by apply Ha in Hr as [Hn _].
Qed.

Lemma writable_cons b bs : writable (b :: bs) = writable [b] ++ writable bs.
Proof. unfold writable. change (b :: bs) with ([b] ++ bs). by rewrite filter_app, fmap_app. Qed.

(** A chain can still be filled after another one has been, and the used ring written. *)
Lemma chainFills_frame m m1 m2 q h s s1 :
  memory_ok m -> memory_ok m1 -> tableClear q -> avoids q s1 ->
  (forall x, ~ inRanges s1 x -> byteAt m1 x = byteAt m x) ->
  (forall x, is_Some (byteAt m1 x) <-> is_Some (byteAt m x)) ->
  (forall x, ~ inUsedRing q x -> byteAt m2 x = byteAt m1 x) ->
  chainFills m q h s -> chainFills m2 (served q) h s.
Proof.
  intros Hm Hm1 Ht Hav Ho Hd Hx (Hh & l & bs & Hw & Hb & -> & Hmap & Ha). split; [done|]. exists l, bs.
  split; [|split; [done|split; [done|split; [|exact Ha]]]].
  - eapply (walk_agree m1); [done|by apply served_table|done|].
    eapply (walk_agree m); [done|exact (avoids_table m m1 q s1 Hav Ho)|done..].
  - unfold mapped in *. rewrite Forall_forall in *. intros [a n] Hin. specialize (Hmap _ Hin).
    cbn in *. rewrite gather_is_Some in *. intros x Hr. rewrite Hx; [by apply Hd, Hmap|].
    assert (inRanges (writable bs) x) as Hr' by (apply Exists_exists; exists (a, n); done).
    apply Ha in Hr' as [_ Hn]. intros Hu. apply Hn. by left.
Qed.

(** The parts of the transport that serving a queue leaves alone. *)
Definition lineState (c : D) : Z * option I * bool * Z := (IRQ c, irq c, irqHigh c, interruptStatus c).

(** * The interrupt line *)

Context {IL : IRQLaws I}.

(** The line of the device is where the device thinks it is. *)
Definition lineKnown (d : D) : Prop := forall i, irq d = Some i -> level i (IRQ d) = irqHigh d.

(** ... and that follows the status register. *)
Definition lineFollows (d : D) : Prop :=
  lineKnown d /\ forall i, irq d = Some i -> irqHigh d = negb (interruptStatus d =? 0).

Lemma updateIRQ_follows d d' :
  lineKnown d -> updateIRQLocked d = (d', Ok tt) ->
  lineFollows d' /\ interruptStatus d' = interruptStatus d /\ IRQ d' = IRQ d /\
  mem d' = mem d /\ queues d' = queues d /\ ext d' = ext d /\ status d' = status d.
Proof.
  intros Hk. unfold updateIRQLocked. cbv [mbind proc_bind getState]. destruct (irq d) as [i|] eqn:Ei.
  - destruct (Bool.eqb (irqHigh d) (negb (interruptStatus d =? 0))) eqn:Eh.
    + cbv [mret proc_ret]. intros [= <-]. apply Bool.eqb_prop in Eh. split; [|done]. split; [done|]. by intros.
    + cbv [modify callIRQ]. change (irq (d <| irqHigh := negb (interruptStatus d =? 0) |>)) with (irq d).
      rewrite Ei. change (IRQ (d <| irqHigh := negb (interruptStatus d =? 0) |>)) with (IRQ d).
      destruct (SetIRQ (IRQ d) _ i) as [i' r] eqn:Es.
      destruct r as [[]|e|]; cbn [mapErr]; intros [<- E]%pair_equal_spec; [clear E|discriminate E..].
      split; [|done].
      split; intros k Hk'; cbn in Hk'; injection Hk' as <-; [|done]. cbn.
      rewrite (setIRQ_law _ _ _ _ Es). by rewrite Z.eqb_refl.
  - cbv [mret proc_ret]. intros [= <-]. split; [|done]. split; [done|]. intros i Hi. congruence.
Qed.

(** Where interrupts are delivered without errors. *)
Section working_line.
Context (line_works : forall n b (i : I), exists i', SetIRQ n b i = (i', Ok tt)).

Lemma updateIRQ_ok (c : D) : exists c', updateIRQLocked c = (c', Ok tt).
Proof using line_works.
  unfold updateIRQLocked. cbv [mbind proc_bind getState]. destruct (irq c) as [i|] eqn:Ei; [|eauto].
  destruct (Bool.eqb _ _); [eauto|]. cbv [modify callIRQ].
  change (irq (c <| irqHigh := negb (interruptStatus c =? 0) |>)) with (irq c). rewrite Ei.
  destruct (line_works (IRQ c) (negb (interruptStatus c =? 0)) i) as [i' E].
  change (IRQ (c <| irqHigh := negb (interruptStatus c =? 0) |>)) with (IRQ c). rewrite E. eauto.
Qed.

Lemma lor_bit0 v : Z.lor v intVring <> 0.
Proof. intros H. apply Z.lor_eq_0_iff in H as [_ H]. done. Qed.

Lemma raiseVring_ok (c : D) :
  lineKnown c -> exists c', raiseVring c = (c', Ok tt) /\ lineFollows c' /\
    interruptStatus c' = Z.lor (interruptStatus c) intVring /\ IRQ c' = IRQ c /\
    mem c' = mem c /\ queues c' = queues c /\ ext c' = ext c.
Proof using line_works.
  intros Hk. unfold raiseVring. cbv [mbind proc_bind modify].
  set (c1 := c <| interruptStatus := _ |>). destruct (updateIRQ_ok c1) as [c' E]. exists c'.
  split; [done|]. apply updateIRQ_follows in E as (Hf & Hi & Hn & Hm & Hq & Hx & _); [|exact Hk].
  split; [done|]. split; [exact Hi|]. split; [exact Hn|]. split; [exact Hm|]. split; [exact Hq|exact Hx].
Qed.

(** After a queue has been served, which leaves the line alone. *)
Lemma raiseVring_level (d0 d : D) :
  lineKnown d0 -> lineState d = lineState d0 ->
  exists d', raiseVring d = (d', Ok tt) /\ (forall i, irq d' = Some i -> level i (IRQ d') = true) /\
    mem d' = mem d /\ queues d' = queues d /\ ext d' = ext d.
Proof using line_works.
  intros Hline Hls. apply pair_equal_spec in Hls as [Hls _]. apply pair_equal_spec in Hls as [Hls Hhigh].
  apply pair_equal_spec in Hls as [HI Hirq].
  destruct (raiseVring_ok d) as (d' & Er & [Hk Hf] & Hi' & HI' & Hm & Hq & Hx).
  { intros i Hi. rewrite HI, Hhigh. apply Hline. congruence. }
  exists d'. split; [done|]. split; [|done]. intros i Hi. rewrite (Hk i Hi), (Hf i Hi), Hi'.
  destruct (Z.eqb_spec (Z.lor (interruptStatus d) intVring) 0) as [E0|]; [by apply lor_bit0 in E0|done].
Qed.

End working_line.

End serving.
