(* ===== verification/VirtioConsole.v ===== *)
(** The virtio console: [src/internal/core/virtio/console.go].

    The guest's transmit queue is served by copying the readable buffers of each chain to
    the host writer.  [console_transmits]: a notification writes the data of all
    available chains in order, uses each chain once and raises the interrupt line.
    [reset_forgets_line]: a reset while the line is raised leaves it raised. *)

From S2P Require Import Prelude GuestMemory Virtqueue VirtioDevice.

Abbreviation mmioDeviceIDConsole := 3%Z.
Abbreviation queueRx := (0%nat).
Abbreviation queueTx := (1%nat).
Abbreviation featureSize := 1%Z.

(** The host's [io.Writer]: a write succeeds or fails as a whole. *)
Class Writer (W : Type) := {
  WriteOut : bytes -> W -> W * result unit unit;
}.

Class WriterLaws (W : Type) `{Writer W} := {
  written : W -> bytes;
  write_appends d w w' : WriteOut d w = (w', Ok tt) -> written w' = written w ++ d;
}.

Section console.
Context {G I W : Type} `{GM : GuestMemory G, IC : IRQController I, WR : Writer W}.

(** The state of its own is [Out], the host writer. *)
Definition Console : Type := Device G I (option W).
Abbreviation M := (proc Console deviceError).

Definition NewConsole (base sz irqn : Z) (out : option W) : Console :=
  resetLocked out (mkDevice base sz irqn None None 0 0 0 0 0 0 false 0 [zeroQueue; zeroQueue] out).

Definition configBytesLocked : bytes := le 2 80 ++ le 2 25 ++ le 4 1 ++ le 4 0.

Definition Read (c : Console) (a sz : Z) : result deviceError Z :=
  let offset := wrap 64 (a - Base c) in
  match readRegister c mmioDeviceIDConsole offset sz with
  | Some v => Ok v
  | None =>
      if offset =? regDeviceFeatures then
        Ok (if deviceFeatureSel c =? 0 then truncateValue featureSize sz
            else if deviceFeatureSel c =? 1 then truncateValue 1 sz
            else 0)
      else if (regConfig <=? offset) && (wrap 64 (offset + wrap 64 sz) <=? regConfig + 12) then
        v ← readConfigValue (drop (Z.to_nat (offset - regConfig)) configBytesLocked) sz;
        Ok (truncateValue v sz)
      else Ok 0
  end.

(** [n] more descriptors of a chain; [out] has been read so far. *)
Fixpoint readChainFrom (n : nat) (q : queue) (index : Z) (out : bytes) : M bytes :=
  match n with
  | O => throw DChainLoop
  | S n =>
      desc ← readDescriptorLocked q index;
      out ←
        (if negb (hasbits (flags desc) descFWrite) && (0 <? length_ desc) then
           chunk ← readIPA (addr desc) (length_ desc);
           mret (out ++ chunk)
         else mret out);
      if hasbits (flags desc) descFNext then readChainFrom n q (next desc) out
      else mret out
  end.

Definition readChainLocked (q : queue) (head : Z) : M bytes :=
  readChainFrom (Z.to_nat (size q)) q head [].

Definition writeOut (data : bytes) : M unit := fun c =>
  match ext c with
  | Some w =>
      if 0 <? len data then
        let '(w, r) := WriteOut data w in (c <| ext := Some w |>, mapErr (fun _ => DHost) r)
      else (c, Ok tt)
  | None => (c, Ok tt)
  end.

(** One chain of the transmit queue. *)
Definition transmitChain (q : queue) (head : Z) : M Z :=
  data ← readChainLocked q head;
  _ ← writeOut data;
  mret (wrap 32 (len data)).

Definition processTXLocked : M unit :=
  '(used, _) ← serveQueue queueTx transmitChain;
  if used : bool then raiseVring else mret tt.

Definition Write (a sz value : Z) : M unit :=
  c ← getState;
  let offset := wrap 64 (a - Base c) in
  if offset =? regStatus then
    modify (fun c =>
      let c := c <| status := wrap 32 value |> in
      if status c =? 0 then resetLocked (ext c) c else c)
  else if offset =? regQueueNotify then
    (if value =? Z.of_nat queueTx then processTXLocked else mret tt)
  else writeRegister offset value.

End console.

Section proofs.
Context {G I W : Type} `{GM : GuestMemory G, IC : IRQController I, WR : Writer W}.
Context `{GL : !GuestMemoryLaws G, IL : !IRQLaws I, WL : !WriterLaws W}.
Local Abbreviation C := (@Console G I W).

Lemma readChainFrom_ok (c : C) m q n i l bs out data :
  mem c = Some m -> memory_ok m -> walk m q i l bs -> (length l <= n)%nat -> Forall bufferOk bs ->
  gatherAll (byteAt m) (readable bs) = Some data -> readChainFrom n q i out c = (c, Ok (out ++ data)).
Proof.
  intros Hm Hok Hw. revert n out data.
  induction Hw as [i d Hd Hf|i d l bs Hd Hf _ IH]; intros [|n] out data Hn Hb Hg;
    cbn [length] in Hn; try lia; cbn [readChainFrom]; inversion Hb as [|?? Hb1 Hb2]; subst;
    rewrite (proc_bind_run _ _ _ _ _ (readDescriptor_ok c m q i d Hm Hok Hd));
    destruct (readBuffer_ok c m d _ out data Hm Hok Hb1 Hg) as (chunk & rest & -> & Hr & Hc);
    rewrite (proc_bind_run _ _ _ _ _ Hc), Hf.
  - cbn in Hr. injection Hr as <-. by rewrite app_nil_r.
  - rewrite (IH n _ rest) by (done || lia). by rewrite app_assoc.
Qed.

Lemma readChain_has (c : C) m q h data :
  mem c = Some m -> memory_ok m -> chainHas m q h data -> readChainLocked q h c = (c, Ok data).
Proof.
  intros Hm Hok (Hh & l & bs & Hw & Hb & Hg & _). unfold readChainLocked.
  apply (readChainFrom_ok c m q _ h l bs [] data); try done. by eapply walk_length.
Qed.

(** While serving: what was written and what the remaining chains hold add up to [out],
    what was used and what will be to [used]. *)
Definition transmitting (out : bytes) (used : list (Z * Z)) (line : Z * option I * bool * Z)
    (c : C) (m : G) (q : queue) (hist : list (Z * Z)) (rest : list Z) : Prop :=
  exists w datas, ext c = Some w /\ Forall2 (chainHas m q) rest datas /\ tableClear q /\
    written w ++ concat datas = out /\ hist ++ zip rest (wrap 32 ∘ len <$> datas) = used /\
    lineState c = line.

Section working_writer.
Context (never_fails : forall d (w : W), exists w', WriteOut d w = (w', Ok tt)).

Lemma writeOut_ok (c : C) w data :
  ext c = Some w -> exists w', writeOut data c = (c <| ext := Some w' |>, Ok tt) /\
    written w' = written w ++ data.
Proof using never_fails.
  intros Hw. unfold writeOut. rewrite Hw. destruct (Z.ltb_spec 0 (len data)).
  - destruct (never_fails data w) as [w' E]. rewrite E. exists w'. split; [done|].
    by apply write_appends.
  - exists w. pose proof (len_nonneg data). rewrite (len_0_nil data), app_nil_r by lia. split; [|done].
    destruct c. cbn in *. by rewrite <- Hw.
Qed.

Lemma transmitChain_ok out used line :
  handlerOk queueTx transmitChain (transmitting out used line).
Proof using never_fails.
  intros c m q hist h rest Hs (w & datas & Hw & Hall & Hc & Ho & Hu & Hl).
  inversion Hall as [|? data ? datas' Hhas Hall']; subst.
  pose proof Hs as (Hm & _ & ((Hok & _) & _) & _).
  destruct (writeOut_ok c w data Hw) as (w' & Ew & Hw').
  exists (c <| ext := Some w' |>), m, (wrap 32 (len data)). split.
  { unfold transmitChain. rewrite (proc_bind_run _ _ _ _ _ (readChain_has c m q h data Hm Hok Hhas)).
    by rewrite (proc_bind_run _ _ _ _ _ Ew). }
  split; [done|]. split; [done|]. split; [done|]. split; [done|].
  intros m2 Hx Hok2. exists w', datas'. split; [done|]. split; [|split; [exact Hc|split; [|split]]].
  - eapply Forall2_impl; [exact Hall'|]. intros h' data' Hd. by apply (chainHas_frame m m2 q).
  - rewrite Hw'. cbn [concat]. by rewrite app_assoc.
  - rewrite fmap_cons. cbn [zip zip_with]. by rewrite <- app_assoc.
  - done.
Qed.

Context (line_works : forall n b (i : I), exists i', SetIRQ n b i = (i', Ok tt)).

(** C13: When the guest notifies the console, the data of all chains it has made available,
    chain after chain, is appended to the host's output; every chain is put in the used
    ring once, in order, with the length of its data; the device has caught up with the
    guest, and its interrupt line is raised. *)
Theorem console_transmits (c : C) (m : G) (q : queue) (hist : list (Z * Z)) (heads : list Z)
    (datas : list bytes) (w : W) (header : bytes)
    (Hserve : serving c queueTx m q hist heads) (Hready : ready q = true)
    (Hheader : gather (byteAt m) (availAddr q) 4 = Some header)
    (Hidx : unle (slice header 2 4) = wrap 16 (lastAvailIdx q + len heads))
    (Hchains : Forall2 (chainHas m q) heads datas) (Htable : tableClear q)
    (Hout : ext c = Some w) (Hline : lineKnown c) :
  exists c' m' q' w', processTXLocked c = (c', Ok tt) /\
    ext c' = Some w' /\ written w' = written w ++ concat datas /\
    mem c' = Some m' /\ queues c' !! queueTx = Some q' /\
    usedRing m' q' (hist ++ zip heads (wrap 32 ∘ len <$> datas)) /\
    lastAvailIdx q' = wrap 16 (lastAvailIdx q + len heads) /\
    forall i, irq c' = Some i -> level i (IRQ c') = true.
Proof using never_fails line_works.
  destruct (serveQueue_all queueTx transmitChain _ c m q hist heads header
    (transmitChain_ok (written w ++ concat datas) (hist ++ zip heads (wrap 32 ∘ len <$> datas)) (lineState c)))
    as (c1 & m' & q' & us & E & _ & (Hm' & Hq' & Hu' & _) & (w' & ds & Hw' & Hds & _ & Ho & Hus & Hls) & Hla);
    [done|by exists w, datas|done..|].
  inversion Hds; subst. cbn in Ho, Hus. rewrite app_nil_r in Ho. rewrite app_nil_r in Hus.
  destruct (raiseVring_level line_works c c1 Hline Hls) as (c' & Er & Hlev & Hmc & Hqc & Hxc).
  exists c', m', q', w'. split; [unfold processTXLocked; by rewrite (proc_bind_run _ _ _ _ _ E)|].
  split; [congruence|]. split; [done|]. split; [congruence|]. split; [congruence|].
  split; [congruence|]. done.
Qed.

End working_writer.

(** Interrupt acknowledgments, one after the other. *)
Definition acknowledge (vs : list Z) (c : C) : C :=
  foldl (fun c v => (Write (Base c + regInterruptAck) 4 v c).1) c vs.

Lemma acknowledge_quiet vs : forall c i,
  irq c = Some i -> irqHigh c = false -> interruptStatus c = 0 ->
  irq (acknowledge vs c) = Some i /\ IRQ (acknowledge vs c) = IRQ c.
Proof.
  induction vs as [|v vs IH]; intros c i Hi Hh Hs; [done|].
  enough (exists c', Write (Base c + regInterruptAck) 4 v c = (c', Ok tt) /\
            irq c' = Some i /\ irqHigh c' = false /\ interruptStatus c' = 0 /\ IRQ c' = IRQ c)
    as (c' & E & Hi' & Hh' & Hs' & HI).
  { unfold acknowledge. cbn [foldl]. rewrite E. cbn [fst].
    destruct (IH c' i Hi' Hh' Hs') as [H1 H2]. unfold acknowledge in *. by rewrite H1, H2, HI. }
  exists (c <| interruptStatus := Z.ldiff (interruptStatus c) (wrap 32 v) |>).
  assert (Z.ldiff (interruptStatus c) (wrap 32 v) = 0) as Ez by (rewrite Hs; apply Z.ldiff_0_l).
  split; [|done]. unfold Write. cbv [mbind proc_bind getState].
  replace (wrap 64 (Base c + regInterruptAck - Base c)) with regInterruptAck
    by (rewrite Z.add_simpl_l; reflexivity).
  cbn [Z.eqb Pos.eqb].
  change (writeRegister regInterruptAck v c) with
    ((modify (fun d => d <| interruptStatus := Z.ldiff (interruptStatus d) (wrap 32 v) |>) ≫=
       fun _ : unit => updateIRQLocked) c).
  cbv [mbind proc_bind modify]. unfold updateIRQLocked. cbv [mbind proc_bind getState].
  change (irq (c <| interruptStatus := Z.ldiff (interruptStatus c) (wrap 32 v) |>)) with (irq c).
  change (irqHigh (c <| interruptStatus := Z.ldiff (interruptStatus c) (wrap 32 v) |>)) with (irqHigh c).
  change (interruptStatus (c <| interruptStatus := Z.ldiff (interruptStatus c) (wrap 32 v) |>))
    with (Z.ldiff (interruptStatus c) (wrap 32 v)).
  by rewrite Hi, Hh, Ez.
Qed.

(** A guest that resets the device while its interrupt line is raised finds the status
    register empty, but the line stays raised: the reset clears the device's record of
    the line without lowering it, and no acknowledgment lowers it afterwards. *)
Theorem reset_forgets_line (c : C) (i : I) (Hirq : irq c = Some i) (Hhigh : level i (IRQ c) = true) :
  exists c', Write (Base c + regStatus) 4 0 c = (c', Ok tt) /\
    interruptStatus c' = 0 /\
    forall vs, exists i', irq (acknowledge vs c') = Some i' /\ level i' (IRQ (acknowledge vs c')) = true.
Proof.
  exists (resetLocked (ext c) (c <| status := 0 |>)). split; [|split; [done|]].
  - unfold Write. cbv [mbind proc_bind getState].
    replace (wrap 64 (Base c + regStatus - Base c)) with regStatus by (rewrite Z.add_simpl_l; reflexivity).
    reflexivity.
  - intros vs. destruct (acknowledge_quiet vs (resetLocked (ext c) (c <| status := 0 |>)) i) as [H1 H2];
      [done..|]. exists i. rewrite H1, H2. done.
Qed.

End proofs.

(** * A sample console *)

(** A host that keeps what it is given. *)
#[export] Instance bytes_writer : Writer bytes := {| WriteOut d w := (w ++ d, Ok tt) |}.
#[export] Instance bytes_writer_laws : WriterLaws bytes.
Proof. refine {| written w := w |}. by intros d w w' [= <-]. Defined.

(** The sample queue with its first chain made available. *)
Definition consoleRAM : VM := vqRAM <| GuestMemory.mem := put (GuestMemory.mem vqRAM) 0xc0 [0; 0; 1; 0; 0; 0] |>.

Definition sampleConsole : @Console VM lines bytes :=
  mkDevice 0x9000 0x200 7 (Some consoleRAM) (Some (mkLines [])) 0 0 0 0 15 0 false 1
    [zeroQueue; vqueue] (Some []).

Lemma consoleRAM_ok : vmOk consoleRAM.
Proof.
  destruct vqRAM_ok as (H0 & Hs & Ht & Hb). repeat split; try (vm_compute; congruence).
  apply put_is_bytes; [exact Hb|]. repeat constructor; done.
Qed.

Lemma sampleConsole_serving : serving sampleConsole queueTx consoleRAM vqueue [] [0].
Proof.
  split; [done|]. split; [done|]. split; [|split].
  - split; [|split; [done|split; [vm_compute; reflexivity|by intros [|j] u]]].
    split; [exact consoleRAM_ok|]. split; [exists 2; split; [lia|done]|].
    split; [vm_compute; congruence|]. split; [done|]. eexists. vm_compute. reflexivity.
  - split; [vm_compute; split; congruence|]. split; [done|]. split; [vm_compute; congruence|]. split; [done|].
    intros [|[|k]] h Hk; [injection Hk as <-|discriminate..].
    split; [vm_compute; split; congruence|vm_compute; reflexivity].
  - intros x. unfold inAvailRing, inUsedRing. cbn. lia.
Qed.

Lemma console_transmits_witness :
  exists c', processTXLocked sampleConsole = (c', Ok tt) /\ ext c' = Some [7; 8; 9].
Proof.
  destruct (console_transmits (G := VM) (I := lines) (W := bytes)
    ltac:(intros d w; eexists; reflexivity) ltac:(intros n b i; eexists; reflexivity)
    sampleConsole consoleRAM vqueue [] [0] [[7; 8; 9]] [] [0; 0; 1; 0])
    as (c' & m' & q' & w' & E & Hx & Hw & _).
  - exact sampleConsole_serving.
  - reflexivity.
  - vm_compute; reflexivity.
  - vm_compute; reflexivity.
  - constructor; [|constructor]. split; [lia|]. exists [0; 2], vqBuffers. split; [|split; [|split]].
    + eapply (walk_next _ _ 0 (mkDescriptor 0x40000080 3 1 2)); [vm_compute; reflexivity..|].
      eapply (walk_last _ _ 2 (mkDescriptor 0x40000090 4 2 0)); vm_compute; reflexivity.
    + exact vqBuffers_ok.
    + vm_compute; reflexivity.
    + constructor; [|constructor]. unfold inUsedRing. cbn. lia.
  - intros x (i & Hi & Hx). unfold descriptorAddr, inUsedRing in *. cbn in *.
    rewrite wrap_small in Hx by (unfold in_width; lia). lia.
  - reflexivity.
  - by intros i [= <-].
  - exists c'. split; [exact E|]. cbn in Hw. rewrite Hx, Hw. done.
Defined.
