(* ===== verification/VirtioRng.v ===== *)
(** The virtio entropy device: [src/internal/core/virtio/rng.go].

    Its queue is served by filling the writable buffers of each chain from the host's
    random source; it also speaks the legacy register layout.  [rng_serves]: a
    notification fills the buffers of all available chains with successive reads of the
    source and uses each chain once with the number of bytes it got, and touches no other
    memory. *)

From S2P Require Import Prelude GuestMemory Virtqueue VirtioDevice.

Abbreviation mmioDeviceIDRNG := 4%Z.
Abbreviation rngQueue := (0%nat).

(** [io.ReadFull] on the host's random source. *)
Class RandomReader (R : Type) := {
  ReadFull : Z -> R -> R * result unit bytes;
}.

Class RandomLaws (R : Type) `{RandomReader R} := {
  readFull_law n r r' d : 0 <= n -> ReadFull n r = (r', Ok d) -> len d = n /\ is_bytes d;
}.

Section rng.
Context {G I R : Type} `{GM : GuestMemory G, IC : IRQController I, RR : RandomReader R}.

Record rngState := mkRngState {
  Reader : R;
  LegacyMMIO : bool;
}.
#[export] Instance eta_rngState : Eta rngState := fun s => mkRngState (Reader s) (LegacyMMIO s).

Definition RNG : Type := Device G I rngState.
Abbreviation M := (proc RNG deviceError).

Definition NewRNG (base sz irqn : Z) (r : R) : RNG :=
  let x := mkRngState r false in
  resetLocked x (mkDevice base sz irqn None None 0 0 0 0 0 0 false 0 [zeroQueue] x).

Definition mmioTransportVersion (legacy : bool) : Z := if legacy then 1 else mmioVersion.

Definition Read (r : RNG) (a sz : Z) : Z :=
  let offset := wrap 64 (a - Base r) in
  let legacy := LegacyMMIO (ext r) in
  if offset =? regVersion then truncateValue (mmioTransportVersion legacy) sz
  else if offset =? regDeviceFeatures then
    (if legacy then 0 else if deviceFeatureSel r =? 1 then truncateValue 1 sz else 0)
  else if (offset =? regQueueReady) && legacy then 0
  else if offset =? regQueuePFN then
    match selectedQueueLocked r with
    | Some q => if legacy && ready q then truncateValue (descAddr q / 4096) sz else 0
    | None => 0
    end
  else
    match readRegister r mmioDeviceIDRNG offset sz with
    | Some v => v
    | None => 0
    end.

Definition fillBuffer (desc : descriptor) : M unit := fun r =>
  match ReadFull (length_ desc) (Reader (ext r)) with
  | (s, Ok buf) => writeIPA (addr desc) buf (r <| ext := ext r <| Reader := s |> |>)
  | (s, Err _) => (r <| ext := ext r <| Reader := s |> |>, Err DHost)
  | (s, Panic) => (r <| ext := ext r <| Reader := s |> |>, Panic)
  end.

(** [n] more descriptors of a chain; [written] bytes have been filled so far. *)
Fixpoint fillChainFrom (n : nat) (q : queue) (index written : Z) : M Z :=
  match n with
  | O => throw DChainLoop
  | S n =>
      desc ← readDescriptorLocked q index;
      written ←
        (if hasbits (flags desc) descFWrite && (0 <? length_ desc) then
           _ ← fillBuffer desc;
           mret (wrap 32 (written + length_ desc))
         else mret written);
      if hasbits (flags desc) descFNext then fillChainFrom n q (next desc) written
      else mret written
  end.

Definition fillChainLocked (q : queue) (head : Z) : M Z := fillChainFrom (Z.to_nat (size q)) q head 0.

Definition processQueueLocked : M unit :=
  '(used, _) ← serveQueue rngQueue fillChainLocked;
  if used : bool then raiseVring else mret tt.

Definition configureLegacyQueueLocked (pfn : Z) (q : queue) : queue :=
  let sz := if size q =? 0 then 256 else size q in
  let desc := wrap 64 (pfn * 4096) in
  let avail := wrap 64 (desc + 16 * sz) in
  let used := wrap 64 (avail + 4 + 2 * sz) in
  q <| size := sz |> <| ready := true |> <| descAddr := desc |> <| availAddr := avail |>
    <| usedAddr := alignVirtio used 4096 |> <| lastAvailIdx := 0 |> <| usedIdx := 0 |>.

(** Page number zero takes a legacy queue out of use. *)
Definition writePFN (value : Z) (q : queue) : queue :=
  if value =? 0 then q <| ready := false |> <| descAddr := 0 |> <| availAddr := 0 |> <| usedAddr := 0 |>
  else configureLegacyQueueLocked (wrap 32 value) q.

Definition Write (a sz value : Z) : M unit :=
  r ← getState;
  let offset := wrap 64 (a - Base r) in
  let legacy := LegacyMMIO (ext r) in
  if (offset =? regQueueReady) && legacy then mret tt
  else if offset =? regQueuePFN then
    (if legacy then onSelected (writePFN value) else mret tt)
  else if offset =? regStatus then
    modify (fun r =>
      let r := r <| status := wrap 32 value |> in
      if status r =? 0 then resetLocked (ext r) r else r)
  else if offset =? regQueueNotify then
    (if value =? Z.of_nat rngQueue then processQueueLocked else mret tt)
  else writeRegister offset value.

Definition IRQAsserted (r : RNG) : bool := negb (interruptStatus r =? 0) || irqHigh r.

End rng.

Section proofs.
Context {G I R : Type} `{GM : GuestMemory G, IC : IRQController I, RR : RandomReader R}.
Context `{GL : !GuestMemoryLaws G, IL : !IRQLaws I, RL : !RandomLaws R}.
Local Abbreviation D := (@RNG G I R).

(** The memory and the source after reading the source into each range in turn. *)
Fixpoint fillAll (f : Z -> option Z) (r : R) (segs : list (Z * Z)) : (Z -> option Z) * R :=
  match segs with
  | [] => (f, r)
  | (a, n) :: segs =>
      match ReadFull n r with
      | (r, Ok buf) => fillAll (scatter f a buf) r segs
      | (r, _) => (f, r)
      end
  end.

(** The effect of filling [segs] on memory and source. *)
Definition fills (d d' : D) (m m' : G) (segs : list (Z * Z)) : Prop :=
  memory_ok m' /\ (forall x, byteAt m' x = (fillAll (byteAt m) (Reader (ext d)) segs).1 x) /\
  Reader (ext d') = (fillAll (byteAt m) (Reader (ext d)) segs).2.

Section working_source.
Context (never_fails : forall n (r : R), exists r' d, ReadFull n r = (r', Ok d)).

(** What is filled depends on the memory only where nothing is filled. *)
Lemma fillAll_agree (P : Z -> Prop) segs : forall f g r,
  (forall x, P x -> g x = f x) ->
  (forall x, P x -> (fillAll g r segs).1 x = (fillAll f r segs).1 x) /\ (fillAll g r segs).2 = (fillAll f r segs).2.
Proof.
  induction segs as [|[a n] segs IH]; intros f g r H; cbn [fillAll]; [done|].
  destruct (ReadFull n r) as [r' [buf|e|]]; [|done..]. apply IH. by apply scatter_agree.
Qed.

Lemma fillAll_app s1 s2 f r :
  fillAll f r (s1 ++ s2) = fillAll (fillAll f r s1).1 (fillAll f r s1).2 s2.
Proof using never_fails.
  revert f r. induction s1 as [|[a n] s1 IH]; intros f r; cbn [fillAll app]; [done|].
  destruct (never_fails n r) as (r' & buf & ->). apply IH.
Qed.

Lemma fillAll_other segs : Forall (fun s => 0 <= s.2) segs -> forall f r x,
  ~ inRanges segs x -> (fillAll f r segs).1 x = f x.
Proof using RL.
  induction 1 as [|[a n] segs Hn _ IH]; intros f r x Hx; cbn [fillAll]; [done|]. cbn in Hn.
  unfold inRanges in *. rewrite Exists_cons in Hx.
  destruct (ReadFull n r) as [r' [buf|e|]] eqn:E; [|done..]. apply readFull_law in E as [Hl _]; [|done].
  rewrite IH by auto. unfold scatter. rewrite Hl.
  destruct (Z.leb_spec a x), (Z.ltb_spec x (a + n)); try done. exfalso. apply Hx. left. cbn. lia.
Qed.

Lemma fillAll_dom segs : Forall (fun s => 0 <= s.2) segs -> forall f r, mapped f segs ->
  forall x, is_Some ((fillAll f r segs).1 x) <-> is_Some (f x).
Proof using RL.
  induction 1 as [|[a n] segs Hn _ IH]; intros f r Hm x; cbn [fillAll]; [done|]. cbn in Hn.
  apply Forall_cons in Hm as [Hg Hm]. cbn in Hg.
  destruct (ReadFull n r) as [r' [buf|e|]] eqn:E; [|done..]. apply readFull_law in E as [Hl _]; [|done].
  assert (forall y, is_Some (scatter f a buf y) <-> is_Some (f y)) as Hd.
  { intros y. apply scatter_dom. by rewrite Hl. }
  rewrite IH; [apply Hd|]. by eapply mapped_dom.
Qed.

Lemma fills_trans (d d1 d2 : D) m m1 m2 s1 s2 :
  fills d d1 m m1 s1 -> fills d1 d2 m1 m2 s2 -> fills d d2 m m2 (s1 ++ s2).
Proof using never_fails.
  intros (_ & Hx & Hr) (Hok & Hy & Hr2). split; [done|]. rewrite fillAll_app, <- Hr.
  destruct (fillAll_agree (fun _ => True) s2 (fillAll (byteAt m) (Reader (ext d)) s1).1 (byteAt m1)
    (Reader (ext d1))) as [Ha Hb]; [auto|]. split; [|congruence].
  intros x. rewrite Hy. by apply Ha.
Qed.

(** Serving may draw from the source and store in guest memory. *)
Definition filled (d d' : D) : Prop :=
  queues d' = queues d /\ lineState d' = lineState d.

Lemma fillBuffer_ok (d : D) m desc :
  mem d = Some m -> memory_ok m -> bufferOk (bufferOf desc) -> 0 < length_ desc ->
  is_Some (gather (byteAt m) (addr desc) (length_ desc)) ->
  exists d' m', fillBuffer desc d = (d', Ok tt) /\ mem d' = Some m' /\ filled d d' /\
    fills d d' m m' [(addr desc, length_ desc)].
Proof using never_fails RL.
  intros Hm Hok [Ha Hl] Hp Hg. cbn in Ha, Hl. unfold in_width in Hl.
  destruct (never_fails (length_ desc) (Reader (ext d))) as (r' & buf & E).
  destruct (readFull_law _ _ _ _ (Z.lt_le_incl _ _ Hp) E) as [Lb Hb].
  destruct (write_law m (addr desc) buf Hok Ha) as (m' & Ew & Hok' & Hx); [lia|done|by rewrite Lb|].
  exists (d <| ext := ext d <| Reader := r' |> |> <| mem := Some m' |>), m'. split.
  { unfold fillBuffer. rewrite E. unfold writeIPA.
    change (mem (d <| ext := ext d <| Reader := r' |> |>)) with (mem d). by rewrite Hm, Ew. }
  split; [done|]. split; [done|]. split; [done|]. cbn [fillAll]. rewrite E. done.
Qed.

Lemma fills_other (d d' : D) m m' bs : Forall bufferOk bs -> fills d d' m m' (writable bs) ->
  forall x, ~ inRanges (writable bs) x -> byteAt m' x = byteAt m x.
Proof using RL. intros Hb (_ & Hx & _) x Hn. rewrite Hx. apply fillAll_other; [by apply writable_sizes|done]. Qed.

Lemma fills_dom (d d' : D) m m' bs : Forall bufferOk bs -> mapped (byteAt m) (writable bs) ->
  fills d d' m m' (writable bs) -> forall x, is_Some (byteAt m' x) <-> is_Some (byteAt m x).
Proof using RL. intros Hb Hm (_ & Hx & _) x. rewrite Hx. apply fillAll_dom; [by apply writable_sizes|done]. Qed.

Lemma fillDescriptor_ok (d : D) m desc w :
  mem d = Some m -> memory_ok m -> bufferOk (bufferOf desc) -> in_width 32 w ->
  mapped (byteAt m) (writable [bufferOf desc]) ->
  exists d' m',
    (if hasbits (flags desc) descFWrite && (0 <? length_ desc) then
       (_ ← fillBuffer desc; mret (wrap 32 (w + length_ desc)))
     else mret w) d = (d', Ok (wrap 32 (w + total (writable [bufferOf desc])))) /\
    mem d' = Some m' /\ filled d d' /\ fills d d' m m' (writable [bufferOf desc]).
Proof using never_fails RL.
  intros Hm Hok Hb Hw Hmap. pose proof Hb as [_ Hl]. cbn in Hl. unfold in_width in Hl.
  destruct (hasbits (flags desc) descFWrite) eqn:Ew; cbn [andb].
  - destruct (Z.ltb_spec 0 (length_ desc)) as [Hp|Hp].
    + rewrite writable_take in * by (exact Ew || (cbn [blength bufferOf]; lia)). change (range (bufferOf desc)) with (addr desc, length_ desc) in *.
      apply Forall_cons in Hmap as [Hg _].
      destruct (fillBuffer_ok d m desc) as (d' & m' & E & Hm' & Hf & Hc); [done..|].
      exists d', m'. rewrite (proc_bind_run _ _ _ _ _ E). split; [|done].
      rewrite total_cons. cbn. by rewrite Z.add_0_r.
    + rewrite writable_skip by (right; cbn [blength bufferOf]; lia). exists d, m. split; [|done].
      cbn. by rewrite Z.add_0_r, wrap_small.
  - rewrite writable_skip by (by left). exists d, m. split; [|done].
    cbn. by rewrite Z.add_0_r, wrap_small.
Qed.

Lemma fillChainFrom_ok n : forall (d : D) m q i l bs w,
  mem d = Some m -> memory_ok m -> walk m q i l bs -> (length l <= n)%nat -> 0 <= i ->
  Forall bufferOk bs -> in_width 32 w -> mapped (byteAt m) (writable bs) -> avoids q (writable bs) ->
  exists d' m', fillChainFrom n q i w d = (d', Ok (wrap 32 (w + total (writable bs)))) /\
    mem d' = Some m' /\ filled d d' /\ fills d d' m m' (writable bs).
Proof using never_fails RL.
  induction n as [|n IH]; intros d m q i l bs w Hm Hok Hw Hn Hi Hb Hwd Hmap Hav;
    [inversion Hw; subst; cbn in Hn; lia|].
  inversion Hw as [? desc Hd Hf|? desc l' bs' Hd Hf Hw']; subst; cbn [fillChainFrom];
    rewrite (proc_bind_run _ _ _ _ _ (readDescriptor_ok d m q i desc Hm Hok Hd));
    apply Forall_cons in Hb as [Hb1 Hb2]; rewrite writable_cons in *;
    apply Forall_app in Hmap as [Hmap1 Hmap2];
    destruct (fillDescriptor_ok d m desc w Hm Hok Hb1 Hwd Hmap1) as (d1 & m1 & E1 & Hm1 & Hf1 & Hc1);
    rewrite (proc_bind_run _ _ _ _ _ E1), Hf.
  - exists d1, m1. rewrite app_nil_r. done.
  - assert (avoids q (writable [bufferOf desc]) /\ avoids q (writable bs')) as [Hav1 Hav2].
    { unfold avoids, inRanges in *. split; intros x Hx; apply Hav; rewrite Exists_app; auto. }
    pose proof (Forall_cons_2 _ _ _ Hb1 (Forall_nil_2 _)) as Hb.
    pose proof (fills_other d d1 m m1 [bufferOf desc] Hb Hc1) as Ho1.
    pose proof (fills_dom d d1 m m1 [bufferOf desc] Hb Hmap1 Hc1) as Hd1.
    destruct (IH d1 m1 q (next desc) l' bs' (wrap 32 (w + total (writable [bufferOf desc])))) as
      (d' & m' & E & Hm' & Hf' & Hc'); try done.
    + by destruct Hc1.
    + eapply walk_agree; [exact Hok|exact (avoids_table m m1 q _ Hav1 Ho1)|by eapply descAt_next|done].
    + cbn in Hn. lia.
    + by eapply descAt_next.
    + apply wrap_range. lia.
    + eapply mapped_dom; [exact Hd1|done].
    + exists d', m'. rewrite E, total_app, wrap_add_wrap_l, Z.add_assoc. split; [done|]. split; [done|].
      split; [|by eapply fills_trans]. destruct Hf1, Hf'. split; congruence.
Qed.

(** While serving: the remaining chains can be filled, what was used and what will be add
    up to [used], and filling the rest of the buffers gives the memory [goal], the used
    ring apart, and the source [last]. *)
Definition filling (q0 : queue) (goal : Z -> option Z) (last : R) (used : list (Z * Z))
    (line : Z * option I * bool * Z) (d : D) (m : G) (q : queue) (hist : list (Z * Z)) (rest : list Z) : Prop :=
  exists segs, Forall2 (chainFills m q) rest segs /\ tableClear q /\
    hist ++ zip rest (wrap 32 ∘ total <$> segs) = used /\ lineState d = line /\
    usedAddr q = usedAddr q0 /\ size q = size q0 /\
    (forall x, ~ inUsedRing q0 x -> (fillAll (byteAt m) (Reader (ext d)) (concat segs)).1 x = goal x) /\
    (fillAll (byteAt m) (Reader (ext d)) (concat segs)).2 = last.

Lemma fillChain_ok q0 goal last used line :
  handlerOk rngQueue fillChainLocked (filling q0 goal last used line).
Proof using never_fails RL.
  intros d m q hist h rest Hs (segs & Hall & Ht & Hu & Hl & Hua & Hsz & Hgoal & Hlast).
  inversion Hall as [|? s1 ? segs' Hf1 Hall']; subst. pose proof Hs as (Hm & _ & ((Hok & _) & _) & _).
  pose proof Hf1 as (Hh & l & bs & Hw & Hb & -> & Hmap & Hav).
  destruct (fillChainFrom_ok (Z.to_nat (size q)) d m q h l bs 0) as (d1 & m1 & E & Hm1 & [Hq1 Hl1] & Hc);
    [done..|by eapply walk_length|done|done|unfold in_width; lia|done|done|].
  pose proof (fills_other d d1 m m1 bs Hb Hc) as Ho. pose proof (fills_dom d d1 m m1 bs Hb Hmap Hc) as Hd.
  destruct Hc as (Hok1 & Hc & Hr).
  exists d1, m1, (wrap 32 (total (writable bs))). split; [exact E|]. split; [done|]. split; [done|].
  split; [done|]. split.
  { intros x Hin. apply Ho. intros Hn. by apply Hav in Hn as [_ Hn]. }
  intros m2 Hx Hok2. exists segs'.
  destruct (fillAll_agree (fun x => ~ inUsedRing q x) (concat segs')
    (fillAll (byteAt m) (Reader (ext d)) (writable bs)).1 (byteAt m2) (Reader (ext d1))) as [Ha1 Ha2].
  { intros x Hn. by rewrite Hx, Hc. }
  cbn [concat] in Hgoal. rewrite fillAll_app, <- Hr in Hgoal.
  split; [|split; [exact Ht|split; [|split; [exact Hl1|split; [exact Hua|split; [exact Hsz|split]]]]]].
  - eapply Forall2_impl; [exact Hall'|]. intros h' s' Hf'.
    by apply (chainFills_frame m m1 m2 q h' s' (writable bs)).
  - rewrite fmap_cons. cbn [zip zip_with]. by rewrite <- app_assoc.
  - intros x Hn. rewrite <- Hgoal by done. apply Ha1. unfold inUsedRing in *. by rewrite Hua, Hsz.
  - cbn [concat]. rewrite fillAll_app, <- Hr. exact Ha2.
Qed.

Context (line_works : forall n b (i : I), exists i', SetIRQ n b i = (i', Ok tt)).

(** C25: When the guest notifies the entropy device, the writable buffers of every chain it
    has made available are filled, in order, each with the next bytes of the random source,
    and every chain is put in the used ring once with the number of bytes its buffers hold;
    guest memory changes nowhere else but in the used ring, and the interrupt line is
    raised. *)
Theorem rng_serves (d : D) (m : G) (q : queue) (hist : list (Z * Z)) (heads : list Z)
    (segs : list (list (Z * Z))) (header : bytes)
    (Hserve : serving d rngQueue m q hist heads) (Hready : ready q = true)
    (Hheader : gather (byteAt m) (availAddr q) 4 = Some header)
    (Hidx : unle (slice header 2 4) = wrap 16 (lastAvailIdx q + len heads))
    (Hchains : Forall2 (chainFills m q) heads segs) (Htable : tableClear q) (Hline : lineKnown d) :
  exists d' m' q', processQueueLocked d = (d', Ok tt) /\
    mem d' = Some m' /\ queues d' !! rngQueue = Some q' /\
    usedRing m' q' (hist ++ zip heads (wrap 32 ∘ total <$> segs)) /\
    lastAvailIdx q' = wrap 16 (lastAvailIdx q + len heads) /\
    (forall x, ~ inUsedRing q x ->
      byteAt m' x = (fillAll (byteAt m) (Reader (ext d)) (concat segs)).1 x) /\
    Reader (ext d') = (fillAll (byteAt m) (Reader (ext d)) (concat segs)).2 /\
    forall i, irq d' = Some i -> level i (IRQ d') = true.
Proof using never_fails RL line_works.
  destruct (serveQueue_all rngQueue fillChainLocked _ d m q hist heads header
    (fillChain_ok q (fillAll (byteAt m) (Reader (ext d)) (concat segs)).1
       (fillAll (byteAt m) (Reader (ext d)) (concat segs)).2
       (hist ++ zip heads (wrap 32 ∘ total <$> segs)) (lineState d)))
    as (d1 & m' & q' & us & E & _ & (Hm' & Hq' & Hu' & _) & (ss & Hss & _ & Hus & Hls & _ & _ & Hx & Hr) & Hla);
    [done|by exists segs|done..|].
  inversion Hss; subst. cbn in Hus, Hx, Hr. rewrite app_nil_r in Hus.
  destruct (raiseVring_level line_works d d1 Hline Hls) as (d' & Er & Hlev & Hmc & Hqc & Hxc).
  exists d', m', q'. split; [unfold processQueueLocked; by rewrite (proc_bind_run _ _ _ _ _ E)|].
  split; [congruence|]. split; [congruence|]. split; [congruence|]. split; [done|]. split; [done|].
  split; [by rewrite Hxc|done].
Qed.

End working_source.

End proofs.

(** * A sample device *)

(** A source that counts. *)
#[export] Instance count_reader : RandomReader Z := {|
  ReadFull n r := (r + n, Ok (wrap 8 <$> seqZ r n));
|}.
#[export] Instance count_reader_laws : RandomLaws Z.
Proof.
  split. intros n r r' d Hn [= <- <-]. split.
  - unfold len. rewrite length_fmap, length_seqZ. lia.
  - apply Forall_fmap, Forall_true. intros x. apply wrap_range. lia.
Defined.

(** The sample queue of the console, as the queue of an entropy device. *)
Definition rngRAM : VM := vqRAM <| GuestMemory.mem := put (GuestMemory.mem vqRAM) 0xc0 [0; 0; 1; 0; 0; 0] |>.

Definition sampleRNG : @RNG VM lines Z :=
  mkDevice 0x9000 0x200 7 (Some rngRAM) (Some (mkLines [])) 0 0 0 0 15 0 false 1
    [vqueue] (mkRngState 0 false).

Lemma rngRAM_ok : vmOk rngRAM.
Proof.
  destruct vqRAM_ok as (H0 & Hs & Ht & Hb). repeat split; try (vm_compute; congruence).
  apply put_is_bytes; [exact Hb|]. repeat constructor; done.
Qed.

Lemma sampleRNG_serving : serving sampleRNG rngQueue rngRAM vqueue [] [0].
Proof.
  split; [done|]. split; [done|]. split; [|split].
  - split; [|split; [done|split; [vm_compute; reflexivity|by intros [|j] u]]].
    split; [exact rngRAM_ok|]. split; [exists 2; split; [lia|done]|].
    split; [vm_compute; congruence|]. split; [done|]. eexists. vm_compute. reflexivity.
  - split; [vm_compute; split; congruence|]. split; [done|]. split; [vm_compute; congruence|]. split; [done|].
    intros [|[|k]] h Hk; [injection Hk as <-|discriminate..].
    split; [vm_compute; split; congruence|vm_compute; reflexivity].
  - intros x. unfold inAvailRing, inUsedRing. cbn. lia.
Qed.

Lemma rng_serves_witness :
  exists d' m' q', processQueueLocked sampleRNG = (d', Ok tt) /\ mem d' = Some m' /\ usedRing m' q' [(0, 4)] /\
    byteAt m' 0x40000092 = Some 2.
Proof.
  destruct (rng_serves (G := VM) (I := lines) (R := Z)
    ltac:(intros n r; do 2 eexists; reflexivity) ltac:(intros n b i; eexists; reflexivity)
    sampleRNG rngRAM vqueue [] [0] [[(0x40000090, 4)]] [0; 0; 1; 0])
    as (d' & m' & q' & E & Hm & _ & Hu & _ & Hx & _).
  - exact sampleRNG_serving.
  - reflexivity.
  - vm_compute; reflexivity.
  - vm_compute; reflexivity.
  - constructor; [|constructor]. split; [lia|]. exists [0; 2], vqBuffers. split; [|split; [|split; [|split]]].
    + eapply (walk_next _ _ 0 (mkDescriptor 0x40000080 3 1 2)); [vm_compute; reflexivity..|].
      eapply (walk_last _ _ 2 (mkDescriptor 0x40000090 4 2 0)); vm_compute; reflexivity.
    + exact vqBuffers_ok.
    + vm_compute; reflexivity.
    + constructor; [|constructor]. eexists. vm_compute. reflexivity.
    + intros x Hx. inversion Hx as [? ? Hr|? ? Hr]; [|inversion Hr]; subst. cbn in Hr. split.
      * intros (i & Hi & Ht). unfold descriptorAddr in Ht. cbn in *.
        rewrite wrap_small in Ht by (unfold in_width; lia). lia.
      * unfold inRings, inUsedRing, inAvailRing. cbn. lia.
  - intros x (i & Hi & Hx). unfold descriptorAddr, inUsedRing in *. cbn in *.
    rewrite wrap_small in Hx by (unfold in_width; lia). lia.
  - by intros i [= <-].
  - exists d', m', q'. split; [exact E|]. split; [exact Hm|]. split; [exact Hu|].
    rewrite Hx; [vm_compute; reflexivity|]. unfold inUsedRing. cbn. lia.
Defined.
