(* ===== verification/VirtioBalloon.v ===== *)
(** The virtio memory balloon: [src/internal/core/virtio/balloon.go].

    The guest hands over pages by number and takes them back.  The device records the
    pages it holds in words of 64 bits and asks the host to reclaim or reuse them in
    runs.  The theorems: the words are the set of pages handed over and not taken back
    ([balloon_tracks_set]); the runs are the pages, in order ([reclaim_in_runs]);
    a snapshot restores the device but for a pending interrupt
    ([balloon_snapshot_roundtrip]). *)

From stdpp Require Import gmap sorting.
From S2P Require Import Prelude GuestMemory Virtqueue VirtioDevice.

Abbreviation mmioDeviceIDBalloon := 5%Z.
Abbreviation balloonQueueInflate := (0%nat).
Abbreviation balloonQueueDeflate := (1%nat).
Abbreviation balloonPageSize := 4096.
Abbreviation balloonDriverOK := 0x4%Z.

(** The reclaiming interfaces a guest memory may implement, each for inflating ([true])
    and deflating; the last two are optional. *)
Record pageOps (G : Type) := mkPageOps {
  pageOp : bool -> Z -> G -> G * result unit unit;
  rangeOp : option (bool -> Z * Z -> G -> G * result unit unit);
  vectorOp : option (bool -> list (Z * Z) -> G -> G * result unit unit);
}.
Arguments pageOp {G} _ _ _ _.
Arguments rangeOp {G} _.
Arguments vectorOp {G} _.

(** [mem.(PageReclaimer)]. *)
Class GuestPages (G : Type) := { PageReclaimer : option (pageOps G) }.

(** * Runs of pages *)

(** The loop of [reclaimPFNsLocked] with the run from [start] to [previous] open. *)
Fixpoint runsFrom (start previous : Z) (pfns : list Z) : list (Z * Z) :=
  match pfns with
  | [] => [(wrap 64 (start * balloonPageSize), wrap 64 ((previous - start + 1) * balloonPageSize))]
  | pfn :: pfns =>
      if pfn =? previous + 1 then runsFrom start pfn pfns
      else (wrap 64 (start * balloonPageSize), wrap 64 ((previous - start + 1) * balloonPageSize)) ::
           runsFrom pfn pfn pfns
  end.

(** The little-endian page numbers of a buffer. *)
Fixpoint pfnsOf (fuel : nat) (buf : bytes) : list Z :=
  match fuel, buf with
  | S fuel, _ :: _ => unle (take 4 buf) :: pfnsOf fuel (drop 4 buf)
  | _, _ => []
  end.

(** * The pages in the balloon *)

Definition markInflatedLocked (pfn : Z) (m : gmap Z Z) : gmap Z Z :=
  let word := pfn / 64 in
  <[word := Z.lor (default 0 (m !! word)) (Z.shiftl 1 (pfn mod 64))]> m.

Definition markDeflatedLocked (pfn : Z) (m : gmap Z Z) : gmap Z Z :=
  let word := pfn / 64 in
  let bits := Z.ldiff (default 0 (m !! word)) (Z.shiftl 1 (pfn mod 64)) in
  if bits =? 0 then delete word m else <[word := bits]> m.

(** The order of [sort.Slice] by index. *)
Definition wordLe (a b : Z * Z) : Prop := a.1 <= b.1.
#[export] Instance wordLe_dec a b : Decision (wordLe a b) := decide (a.1 <= b.1).

Definition inflatedPageWordsLocked (m : gmap Z Z) : list (Z * Z) := merge_sort wordLe (map_to_list m).

(** The inflated part of [RestoreState]: the words, or the page list of older snapshots. *)
Definition restoreInflated (words : list (Z * Z)) (pages : list Z) : gmap Z Z :=
  let m := foldl (fun m w => if w.2 =? 0 then m else <[w.1 := w.2]> m) ∅ words in
  match words with
  | [] => foldl (fun m pfn => markInflatedLocked pfn m) m pages
  | _ :: _ => m
  end.

Record balloonState := mkBalloonState {
  reclaimer : bool;
  numPages : Z;
  actualPages : Z;
  inflated : gmap Z Z;
}.
#[export] Instance eta_balloonState : Eta balloonState := fun s =>
  mkBalloonState (reclaimer s) (numPages s) (actualPages s) (inflated s).

Section balloon.
Context {G I : Type} `{GM : GuestMemory G, IC : IRQController I, GP : GuestPages G}.

Definition Balloon : Type := Device G I balloonState.
Abbreviation M := (proc Balloon deviceError).

Definition resetBalloon (b : Balloon) : Balloon :=
  resetLocked (ext b <| actualPages := 0 |> <| inflated := ∅ |>) b.

Definition NewBalloon (base sz irqn : Z) : Balloon :=
  resetBalloon (mkDevice base sz irqn None None 0 0 0 0 0 0 false 0 [zeroQueue; zeroQueue]
    (mkBalloonState false 0 0 ∅)).

Definition AttachBalloon (m : option G) (i : option I) (b : Balloon) : Balloon :=
  let b := b <| mem := m |> <| irq := i |> in
  match m, PageReclaimer with
  | Some _, Some _ => b <| ext := ext b <| reclaimer := true |> |>
  | _, _ => b
  end.

Definition setExt (f : balloonState -> balloonState) : M unit :=
  modify (fun b => b <| ext := f (ext b) |>).

Definition raiseConfig : M unit :=
  _ ← modify (fun b => b <| interruptStatus := Z.lor (interruptStatus b) intConfig |>);
  updateIRQLocked.

Definition SetTargetPages (pages : Z) : M unit :=
  b ← getState;
  if numPages (ext b) =? pages then mret tt
  else
    _ ← setExt (fun s => s <| numPages := pages |>);
    _ ← modify (fun b => b <| configGeneration := wrap 32 (configGeneration b + 1) |>);
    if hasbits (status b) balloonDriverOK then raiseConfig else mret tt.

Definition AtTarget (b : Balloon) : bool := actualPages (ext b) =? numPages (ext b).

Definition State (b : Balloon) : Z * Z * bool :=
  (numPages (ext b), actualPages (ext b), hasbits (status b) balloonDriverOK).

Definition configBytesLocked (b : Balloon) : bytes := le 4 (numPages (ext b)) ++ le 4 (actualPages (ext b)).

Definition Read (b : Balloon) (a sz : Z) : result deviceError Z :=
  let offset := wrap 64 (a - Base b) in
  match readRegister b mmioDeviceIDBalloon offset sz with
  | Some v => Ok v
  | None =>
      if offset =? regDeviceFeatures then
        Ok (if deviceFeatureSel b =? 1 then truncateValue 1 sz else 0)
      else if (regConfig <=? offset) && (wrap 64 (offset + wrap 64 sz) <=? regConfig + 8) then
        v ← readConfigValue (drop (Z.to_nat (offset - regConfig)) (configBytesLocked b)) sz;
        Ok (truncateValue v sz)
      else Ok 0
  end.

(** The configuration bytes from [offset] replaced by those of [value]; an index past the
    eight bytes panics. *)
Definition writeActualLocked (offset sz value : Z) : M unit :=
  b ← getState;
  let cfg := le 4 0 ++ le 4 (actualPages (ext b)) in
  if 8 <? offset + Z.max 0 sz then gopanic
  else setExt (fun s => s <| actualPages := unle (slice (put cfg offset (le (Z.to_nat sz) value)) 4 8) |>).

(** * Reclaiming *)

(** A call on the memory as a page reclaimer. *)
Definition callPages (f : G -> G * result unit unit) : M unit := fun b =>
  match mem b with
  | Some m => let '(m, r) := f m in (b <| mem := Some m |>, mapErr (fun _ => DHost) r)
  | None => (b, Panic)
  end.

Fixpoint eachPage {A} (f : A -> G -> G * result unit unit) (l : list A) : M unit :=
  match l with
  | [] => mret tt
  | x :: l => _ ← callPages (f x); eachPage f l
  end.

Definition reclaimPFNsLocked (inflate : bool) (pfns : list Z) : M unit :=
  b ← getState;
  match PageReclaimer, pfns with
  | Some ops, pfn :: rest =>
      if negb (reclaimer (ext b)) then mret tt
      else
        let ranges := runsFrom pfn pfn rest in
        match vectorOp ops, rangeOp ops with
        | Some f, _ => callPages (f inflate ranges)
        | None, Some f => eachPage (f inflate) ranges
        | None, None => eachPage (fun pfn => pageOp ops inflate (wrap 64 (pfn * balloonPageSize))) pfns
        end
  | _, _ => mret tt
  end.

Definition markAll (inflate : bool) (pfns : list Z) (m : gmap Z Z) : gmap Z Z :=
  foldl (fun m pfn => if inflate then markInflatedLocked pfn m else markDeflatedLocked pfn m) m pfns.

Definition processPFNsLocked (inflate : bool) (a n : Z) : M unit :=
  if negb (n mod 4 =? 0) then throw (DBadLength n)
  else
    buf ← readIPA a n;
    let pfns := pfnsOf (length buf) buf in
    _ ← setExt (fun s => s <| inflated := markAll inflate pfns (inflated s) |>);
    reclaimPFNsLocked inflate pfns.

(** [n] more descriptors of a chain. *)
Fixpoint processChainFrom (n : nat) (inflate : bool) (q : queue) (index : Z) : M unit :=
  match n with
  | O => throw DChainLoop
  | S n =>
      desc ← readDescriptorLocked q index;
      _ ←
        (if negb (hasbits (flags desc) descFWrite) && (0 <? length_ desc) then
           processPFNsLocked inflate (addr desc) (length_ desc)
         else mret tt);
      if hasbits (flags desc) descFNext then processChainFrom n inflate q (next desc)
      else mret tt
  end.

Definition processChainLocked (inflate : bool) (q : queue) (head : Z) : M Z :=
  _ ← processChainFrom (Z.to_nat (size q)) inflate q head;
  mret 0.

Definition processQueueLocked (inflate : bool) : M unit :=
  '(used, processed) ← serveQueue (if inflate then balloonQueueInflate else balloonQueueDeflate)
                         (processChainLocked inflate);
  if (used : bool) && (processed : bool) then raiseVring else mret tt.

Definition writeStatus (value : Z) : M unit :=
  b ← getState;
  let wasReady := hasbits (status b) balloonDriverOK in
  _ ← modify (fun b => b <| status := wrap 32 value |>);
  if wrap 32 value =? 0 then modify resetBalloon
  else if negb wasReady && hasbits (wrap 32 value) balloonDriverOK &&
          negb (actualPages (ext b) =? numPages (ext b)) then raiseConfig
  else mret tt.

Definition Write (a sz value : Z) : M unit :=
  b ← getState;
  let offset := wrap 64 (a - Base b) in
  if offset =? regStatus then writeStatus value
  else if offset =? regQueueNotify then
    (if value =? 0 then processQueueLocked true
     else if value =? 1 then processQueueLocked false
     else mret tt)
  else if (regConfig + 4 <=? offset) && (wrap 64 (offset + wrap 64 sz) <=? regConfig + 8) then
    writeActualLocked (offset - regConfig) sz value
  else writeRegister offset value.

(** * Snapshots *)

Record balloonSnapshot := mkBalloonSnapshot {
  transport : MMIOState;
  NumPages : Z;
  ActualPages : Z;
  InflatedPageWords : list (Z * Z);
  InflatedPages : list Z;
}.

Definition SnapshotBalloon (b : Balloon) : balloonSnapshot := {|
  transport := SnapshotState b;
  NumPages := numPages (ext b);
  ActualPages := actualPages (ext b);
  InflatedPageWords := inflatedPageWordsLocked (inflated (ext b));
  InflatedPages := [];
|}.

Definition RestoreBalloon (state : balloonSnapshot) (b : Balloon) : Balloon :=
  let x := ext b <| numPages := NumPages state |> <| actualPages := ActualPages state |>
             <| inflated := restoreInflated (InflatedPageWords state) (InflatedPages state) |> in
  RestoreState (transport state) (b <| ext := x |>).

End balloon.

(** * The set of pages *)

(** Whether the words record the page. *)
Definition inBalloon (m : gmap Z Z) (pfn : Z) : bool :=
  Z.testbit (default 0 (m !! (pfn / 64))) (pfn mod 64).

(** No empty words are kept, and none exceeds 64 bits. *)
Definition wordsOk (m : gmap Z Z) : Prop := map_Forall (fun _ bits => 0 < bits < 2 ^ 64) m.

(** The words record the pages of [S]. *)
Definition tracks (m : gmap Z Z) (S : gset Z) : Prop :=
  wordsOk m /\ forall pfn, 0 <= pfn -> inBalloon m pfn = bool_decide (pfn ∈ S).

Lemma shifted_one_bit n k : 0 <= n -> 0 <= k -> Z.testbit (Z.shiftl 1 n) k = (k =? n).
Proof.
  intros Hn Hk. rewrite Z.shiftl_1_l, Z.pow2_bits_eqb by done. apply Z.eqb_sym.
Qed.

Lemma same_page a b : a / 64 = b / 64 -> a mod 64 = b mod 64 -> a = b.
Proof. intros Hd Hm. rewrite (Z.div_mod a 64), (Z.div_mod b 64) by lia. lia. Qed.

Lemma inflated_in pfn m x :
  0 <= pfn -> 0 <= x -> inBalloon (markInflatedLocked pfn m) x = (x =? pfn) || inBalloon m x.
Proof.
  intros Hp Hx. unfold inBalloon, markInflatedLocked.
  pose proof (Z.mod_pos_bound x 64). pose proof (Z.mod_pos_bound pfn 64).
  destruct (decide (pfn / 64 = x / 64)) as [E|E].
  - rewrite <- E, lookup_insert_eq. cbn [from_option id]. rewrite Z.lor_spec, shifted_one_bit by lia.
    destruct (Z.eqb_spec (x mod 64) (pfn mod 64)) as [Em|Em], (Z.eqb_spec x pfn) as [->|Ex];
      rewrite ?orb_true_r, ?orb_false_r; try done. exfalso. apply Ex. by apply same_page.
  - rewrite lookup_insert_ne by done. by destruct (Z.eqb_spec x pfn) as [->|].
Qed.

Lemma deflated_in pfn m x :
  0 <= pfn -> 0 <= x -> inBalloon (markDeflatedLocked pfn m) x = negb (x =? pfn) && inBalloon m x.
Proof.
  intros Hp Hx. unfold inBalloon, markDeflatedLocked.
  pose proof (Z.mod_pos_bound x 64). pose proof (Z.mod_pos_bound pfn 64).
  set (bits := Z.ldiff _ _).
  assert (default 0 ((if bits =? 0 then delete (pfn / 64) m else <[pfn / 64 := bits]> m) !! (x / 64)) =
          if decide (pfn / 64 = x / 64) then bits else default 0 (m !! (x / 64))) as ->.
  { destruct (Z.eqb_spec bits 0) as [E0|E0]; destruct (decide (pfn / 64 = x / 64)) as [E|E].
    - by rewrite <- E, lookup_delete_eq.
    - by rewrite lookup_delete_ne.
    - by rewrite <- E, lookup_insert_eq.
    - by rewrite lookup_insert_ne. }
  destruct (decide (pfn / 64 = x / 64)) as [E|E]; [|by destruct (Z.eqb_spec x pfn) as [->|]].
  unfold bits. rewrite E, Z.ldiff_spec, shifted_one_bit by lia.
  destruct (Z.eqb_spec (x mod 64) (pfn mod 64)) as [Em|Em], (Z.eqb_spec x pfn) as [->|Ex];
    rewrite ?andb_false_r, ?andb_true_r; try done. exfalso. apply Ex. by apply same_page.
Qed.

Lemma word_range m w : wordsOk m -> 0 <= default 0 (m !! w) < 2 ^ 64.
Proof.
  intros Hm. destruct (m !! w) as [b|] eqn:E; cbn; [|lia]. specialize (Hm w b E). cbn in Hm. lia.
Qed.

Lemma below_64 v : 0 <= v -> (forall n, 64 <= n -> Z.testbit v n = false) -> v < 2 ^ 64.
Proof.
  intros Hv Hb. destruct (decide (v = 0)) as [->|]; [lia|]. apply Z.log2_lt_pow2; [lia|].
  destruct (decide (Z.log2 v < 64)); [done|]. exfalso.
  pose proof (Z.bit_log2 v ltac:(lia)) as E. rewrite Hb in E by lia. done.
Qed.

Lemma testbit_above v n : 0 <= v < 2 ^ 64 -> 64 <= n -> Z.testbit v n = false.
Proof.
  intros Hv Hn. destruct (decide (v = 0)) as [->|]; [apply Z.bits_0|].
  apply Z.bits_above_log2; [lia|]. enough (Z.log2 v < 64) by lia. apply Z.log2_lt_pow2; lia.
Qed.

Lemma wordsOk_inflate pfn m : wordsOk m -> wordsOk (markInflatedLocked pfn m).
Proof.
  intros Hm. pose proof (word_range m (pfn / 64) Hm) as Hw. pose proof (Z.mod_pos_bound pfn 64).
  apply map_Forall_insert_2; [|done]. set (old := default 0 _) in *.
  assert (0 <= Z.lor old (Z.shiftl 1 (pfn mod 64))) as H0.
  { apply Z.lor_nonneg. split; [lia|]. apply Z.shiftl_nonneg. lia. }
  split.
  - enough (Z.lor old (Z.shiftl 1 (pfn mod 64)) <> 0) by lia. intros E. apply Z.lor_eq_0_iff in E as [_ E].
    rewrite Z.shiftl_1_l in E. lia.
  - apply below_64; [done|]. intros n Hn. rewrite Z.lor_spec, shifted_one_bit, testbit_above by lia.
    destruct (Z.eqb_spec n (pfn mod 64)); [lia|done].
Qed.

Lemma wordsOk_deflate pfn m : wordsOk m -> wordsOk (markDeflatedLocked pfn m).
Proof.
  intros Hm. pose proof (word_range m (pfn / 64) Hm) as Hw. unfold markDeflatedLocked.
  set (bits := Z.ldiff _ _). destruct (Z.eqb_spec bits 0) as [E|E]; [by apply map_Forall_delete|].
  apply map_Forall_insert_2; [|done].
  assert (0 <= bits) as H0 by (apply Z.ldiff_nonneg; left; lia). split; [lia|].
  apply below_64; [done|]. intros n Hn. unfold bits. rewrite Z.ldiff_spec, testbit_above by lia. done.
Qed.

Definition handOver (inflate : bool) (pfns : list Z) (S : gset Z) : gset Z :=
  if inflate then S ∪ list_to_set pfns else S ∖ list_to_set pfns.

Lemma tracks_markAll inflate pfns : Forall (Z.le 0) pfns -> forall m S,
  tracks m S -> tracks (markAll inflate pfns m) (handOver inflate pfns S).
Proof.
  unfold markAll. induction 1 as [|p pfns Hp _ IH]; intros m S [Hok HS]; cbn [foldl].
  - split; [done|]. intros x Hx. rewrite HS by done. apply bool_decide_ext.
    unfold handOver. destruct inflate; set_solver.
  - destruct inflate.
    + destruct (IH (markInflatedLocked p m) (S ∪ {[p]})) as [Hok' HS'].
      { split; [by apply wordsOk_inflate|]. intros x Hx. rewrite inflated_in, HS by done.
        destruct (Z.eqb_spec x p) as [->|]; cbn; [symmetry; apply bool_decide_eq_true; set_solver|].
        apply bool_decide_ext. set_solver. }
      split; [done|]. intros x Hx. rewrite HS' by done. apply bool_decide_ext. unfold handOver. set_solver.
    + destruct (IH (markDeflatedLocked p m) (S ∖ {[p]})) as [Hok' HS'].
      { split; [by apply wordsOk_deflate|]. intros x Hx. rewrite deflated_in, HS by done.
        destruct (Z.eqb_spec x p) as [->|]; cbn; [symmetry; apply bool_decide_eq_false; set_solver|].
        apply bool_decide_ext. set_solver. }
      split; [done|]. intros x Hx. rewrite HS' by done. apply bool_decide_ext. unfold handOver. set_solver.
Qed.

Lemma pfnsOf_nonneg fuel buf : is_bytes buf -> Forall (Z.le 0) (pfnsOf fuel buf).
Proof.
  revert buf. induction fuel as [|fuel IH]; intros buf Hb; cbn [pfnsOf]; [constructor|].
  destruct buf as [|x buf]; [constructor|]. constructor.
  - apply unle_range, Forall_take, Hb.
  - apply IH, Forall_drop, Hb.
Qed.

Section proofs.
Context {G I : Type} `{GM : GuestMemory G, IC : IRQController I, GP : GuestPages G}.
Local Abbreviation B := (@Balloon G I).

Lemma callPages_ext (f : G -> G * result unit unit) (b : B) : ext (callPages f b).1 = ext b.
Proof. unfold callPages. destruct (mem b); [|done]. by destruct (f _). Qed.

Lemma eachPage_ext {A} (f : A -> G -> G * result unit unit) l : forall b : B, ext (eachPage f l b).1 = ext b.
Proof.
  induction l as [|x l IH]; intros b; cbn [eachPage]; [done|]. cbv [mbind proc_bind].
  pose proof (callPages_ext (f x) b) as Hx. destruct (callPages (f x) b) as [b1 [u|e|]]; [|done..].
  cbn [fst] in Hx. by rewrite IH.
Qed.

Lemma reclaim_ext inflate pfns (b : B) : ext (reclaimPFNsLocked inflate pfns b).1 = ext b.
Proof.
  unfold reclaimPFNsLocked. cbv [mbind proc_bind getState]. destruct PageReclaimer as [ops|]; [|done].
  destruct pfns as [|p pfns]; [done|]. destruct (negb _); [done|].
  destruct (vectorOp ops); [apply callPages_ext|]. destruct (rangeOp ops); apply eachPage_ext.
Qed.

(** The balloon's words are exactly the set of pages the guest has handed over and not
    taken back: processing a buffer of page numbers from the inflate queue adds them,
    from the deflate queue removes them, whatever the host's reclaiming says, and no
    empty word is left behind. *)
Theorem balloon_tracks_set (b : B) (m : G) (inflate : bool) (a n : Z) (buf : bytes) (S : gset Z)
    (Hmem : mem b = Some m) (Hread : ReadIPA a n m = Ok buf) (Hbytes : is_bytes buf)
    (Haligned : n mod 4 = 0) (Htracks : tracks (inflated (ext b)) S) :
  tracks (inflated (ext (processPFNsLocked inflate a n b).1))
         (handOver inflate (pfnsOf (length buf) buf) S).
Proof.
  unfold processPFNsLocked. rewrite Haligned. cbn [Z.eqb negb].
  assert (readIPA a n b = (b, Ok buf)) as Er by (unfold readIPA; by rewrite Hmem, Hread).
  rewrite (proc_bind_run _ _ _ _ _ Er). cbv [setExt]. unfold mbind, proc_bind, modify.
  rewrite reclaim_ext. cbn [ext set_field inflated]. apply tracks_markAll; [|done]. by apply pfnsOf_nonneg.
Qed.

(** * Runs *)

(** The pages of a range. *)
Definition pagesOf (r : Z * Z) : list Z := (fun k => r.1 + k * balloonPageSize) <$> seqZ 0 (r.2 / balloonPageSize).

Lemma pagesOf_run s p :
  0 <= s <= p -> p < 2 ^ 32 ->
  pagesOf (wrap 64 (s * balloonPageSize), wrap 64 ((p - s + 1) * balloonPageSize)) =
    (fun x => x * balloonPageSize) <$> seqZ s (p - s + 1).
Proof.
  intros Hs Hp. rewrite !wrap_small by (unfold in_width; lia).
  unfold pagesOf. cbn [fst snd]. rewrite Z.div_mul by lia.
  transitivity ((fun x => x * 4096) <$> seqZ (s + 0) (p - s + 1)); [|do 2 f_equal; lia].
  rewrite <- (fmap_add_seqZ s 0 (p - s + 1)), <- list_fmap_compose. apply list_fmap_ext. intros i x _. cbn. lia.
Qed.

Lemma runsFrom_pages pfns : forall s p,
  0 <= s <= p -> p < 2 ^ 32 -> Forall (fun x => 0 <= x < 2 ^ 32) pfns ->
  concat (pagesOf <$> runsFrom s p pfns) = (fun x => x * balloonPageSize) <$> (seqZ s (p - s + 1) ++ pfns).
Proof.
  induction pfns as [|x pfns IH]; intros s p Hs Hp Hall; cbn [runsFrom].
  - rewrite fmap_cons. cbn [concat fmap list_fmap]. rewrite pagesOf_run by done. by rewrite !app_nil_r.
  - apply Forall_cons in Hall as [Hx Hall]. destruct (Z.eqb_spec x (p + 1)) as [->|Hne].
    + rewrite IH by (done || lia). f_equal.
      replace (p + 1 - s + 1) with ((p - s + 1) + 1) by lia. rewrite seqZ_app by lia.
      rewrite <- app_assoc. f_equal. replace (s + (p - s + 1)) with (p + 1) by lia. done.
    + rewrite fmap_cons. cbn [concat]. rewrite pagesOf_run by done. rewrite IH by (done || lia).
      replace (x - x + 1) with 1 by lia. rewrite !fmap_app. done.
Qed.

(** The reference: page after page until one fails. *)
Fixpoint runAll (f : Z -> G -> G * result unit unit) (pages : list Z) (m : G) : G * result unit unit :=
  match pages with
  | [] => (m, Ok tt)
  | p :: pages =>
      match f p m with
      | (m, Ok _) => runAll f pages m
      | (m, Err e) => (m, Err e)
      | (m, Panic) => (m, Panic)
      end
  end.

(** A memory whose range and vector methods do their pages one after the other. *)
Definition pagewise (ops : pageOps G) : Prop :=
  (forall f inflate r m, rangeOp ops = Some f -> f inflate r m = runAll (pageOp ops inflate) (pagesOf r) m) /\
  (forall f inflate rs m, vectorOp ops = Some f ->
     f inflate rs m = runAll (pageOp ops inflate) (concat (pagesOf <$> rs)) m).

Lemma runAll_app f l k m :
  runAll f (l ++ k) m =
    match runAll f l m with
    | (m, Ok _) => runAll f k m
    | (m, Err e) => (m, Err e)
    | (m, Panic) => (m, Panic)
    end.
Proof.
  revert m. induction l as [|p l IH]; intros m; cbn [runAll app]; [done|].
  destruct (f p m) as [m' [u|e|]]; [apply IH|done..].
Qed.

(** Calls one after the other are one call of their composition. *)
Lemma eachPage_runAll {A} (g : A -> G -> G * result unit unit) f (pages : A -> list Z) (l : list A) :
  Forall (fun x => forall m, g x m = runAll f (pages x) m) l -> forall (b : B) m, mem b = Some m ->
  eachPage g l b = callPages (runAll f (concat (pages <$> l))) b.
Proof.
  induction 1 as [|x l Hg _ IH]; intros b m Hm; cbn [eachPage].
  - unfold callPages. rewrite Hm. cbn. destruct b. cbn in *. by subst.
  - rewrite fmap_cons. cbn [concat]. cbv [mbind proc_bind].
    assert (callPages (g x) b = let '(m1, r) := runAll f (pages x) m in
              (b <| mem := Some m1 |>, mapErr (fun _ => DHost) r)) as ->
      by (unfold callPages; by rewrite Hm, Hg).
    assert (callPages (runAll f (pages x ++ concat (pages <$> l))) b =
              let '(m1, r) := runAll f (pages x ++ concat (pages <$> l)) m in
              (b <| mem := Some m1 |>, mapErr (fun _ => DHost) r)) as ->
      by (unfold callPages; by rewrite Hm).
    rewrite runAll_app. destruct (runAll f (pages x) m) as [m1 [u|e|]]; cbn [mapErr]; [|done..].
    rewrite (IH _ m1) by done. unfold callPages. cbn [mem set_field].
    destruct (runAll f _ m1) as [m2 r]. destruct b. done.
Qed.

(** However the memory reclaims pages - one by one, in ranges, or in a vector of
    ranges - a batch of page numbers is reclaimed as its pages one after the other in the
    order given, each run of consecutive numbers merged into one range and nothing
    else, stopping at the first failure. *)
Theorem reclaim_in_runs (b : B) (m : G) (ops : pageOps G) (inflate : bool) (pfns : list Z)
    (Hops : PageReclaimer = Some ops) (Hmem : mem b = Some m) (Hrec : reclaimer (ext b) = true)
    (Hpage : pagewise ops) (Hpfns : Forall (fun x => 0 <= x < 2 ^ 32) pfns) :
  reclaimPFNsLocked inflate pfns b =
    callPages (runAll (pageOp ops inflate) ((fun x => x * balloonPageSize) <$> pfns)) b.
Proof.
  unfold reclaimPFNsLocked. cbv [mbind proc_bind getState]. rewrite Hops, Hrec. cbn [negb].
  destruct pfns as [|p pfns].
  { unfold callPages. rewrite Hmem. cbn. destruct b. cbn in *. by subst. }
  apply Forall_cons in Hpfns as [Hp Hall]. destruct Hpage as [Hr Hv].
  assert (concat (pagesOf <$> runsFrom p p pfns) = (fun x => x * balloonPageSize) <$> (p :: pfns)) as E.
  { rewrite runsFrom_pages by (done || lia). by replace (p - p + 1) with 1 by lia. }
  destruct (vectorOp ops) as [f|] eqn:Ev.
  - unfold callPages. rewrite Hmem, (Hv f), E by done. done.
  - destruct (rangeOp ops) as [f|] eqn:Erg.
    + rewrite (eachPage_runAll (f inflate) (pageOp ops inflate) pagesOf) with (m := m);
        [by rewrite E|apply Forall_true; auto|done].
    + rewrite (eachPage_runAll _ (pageOp ops inflate) (fun x => [x * balloonPageSize])) with (m := m); [| |done].
      * do 2 f_equal. clear. induction (p :: pfns) as [|y l IH]; [done|]. rewrite !fmap_cons. cbn [concat app]. by f_equal.
      * apply Forall_forall. intros x Hx m0. rewrite wrap_small.
        -- cbn [runAll]. by destruct (pageOp ops inflate _ m0) as [m1 [[]|e|]].
        -- assert (0 <= x < 2 ^ 32) as Hr' by (apply elem_of_cons in Hx as [->|Hx]; [done|];
             rewrite Forall_forall in Hall; by apply Hall).
           unfold in_width. lia.
Qed.

(** * Snapshots of the balloon *)

Lemma restoreWords_lookup (words : list (Z * Z)) : NoDup words.*1 -> forall (m : gmap Z Z) (k : Z),
  foldl (fun m w => if w.2 =? 0 then m else <[w.1 := w.2]> m) m words !! k =
    match list_find (fun w => w.1 = k /\ w.2 <> 0) words with
    | Some (_, w) => Some w.2
    | None => m !! k
    end.
Proof.
  induction words as [|[a v] words IH]; intros Hnd m k; cbn [foldl list_find]; [done|].
  apply NoDup_cons in Hnd as [Hni Hnd]. rewrite IH by done. cbn [fst snd].
  case_decide as Hd.
  - destruct Hd as [<- Hv]. cbn [fst snd].
    destruct (list_find _ words) as [[i w]|] eqn:Ef.
    + apply list_find_Some in Ef as (Hl & [Hk _] & _). exfalso. apply Hni. rewrite <- Hk.
      apply list_elem_of_fmap. exists w. split; [done|]. by eapply list_elem_of_lookup_2.
    + destruct (Z.eqb_spec v 0); [done|]. by rewrite lookup_insert_eq.
  - destruct (list_find _ words) as [[i w]|]; cbn; [done|].
    destruct (Z.eqb_spec v 0); [done|]. rewrite lookup_insert_ne; [done|]. intros ->. by apply Hd.
Qed.

Lemma restore_words (m : gmap Z Z) : wordsOk m -> restoreInflated (inflatedPageWordsLocked m) [] = m.
Proof.
  intros Hok. unfold restoreInflated, inflatedPageWordsLocked.
  set (words := merge_sort wordLe (map_to_list m)).
  assert (words ≡ₚ map_to_list m) as Hp by apply merge_sort_Permutation.
  assert (NoDup words.*1) as Hnd by (rewrite Hp; apply NoDup_fst_map_to_list).
  transitivity (foldl (fun (m : gmap Z Z) (w : Z * Z) => if w.2 =? 0 then m else <[w.1 := w.2]> m) ∅ words);
    [by destruct words|].
  apply map_eq. intros k. rewrite restoreWords_lookup by done. rewrite lookup_empty.
  destruct (list_find _ words) as [[i [a v]]|] eqn:Ef.
  - apply list_find_Some in Ef as (Hl & [Hk _] & _). cbn in *. subst a. symmetry.
    apply elem_of_map_to_list. rewrite <- Hp. by eapply list_elem_of_lookup_2.
  - apply list_find_None in Ef. destruct (m !! k) as [v|] eqn:E; [|done]. exfalso.
    rewrite Forall_forall in Ef. apply (Ef (k, v)).
    + rewrite Hp. by apply elem_of_map_to_list.
    + split; [done|]. specialize (Hok k v E). cbn in *. lia.
Qed.

(** Restoring a snapshot of the balloon on a machine that is set up alike gives the
    balloon back - registers, queues, target, size and the whole set of pages - with one
    exception: an interrupt that was pending when the snapshot was taken is lost. *)
Theorem balloon_snapshot_roundtrip (b b0 : B) (m : G)
    (Hplace : Base b0 = Base b /\ Size b0 = Size b /\ IRQ b0 = IRQ b)
    (Hrec : reclaimer (ext b0) = reclaimer (ext b)) (Hmem : mem b0 = Some m)
    (Hqueues : length (queues b0) = length (queues b)) (Hres : Forall resumable (queues b))
    (Hwords : wordsOk (inflated (ext b))) :
  RestoreBalloon (SnapshotBalloon b) b0 =
    b <| mem := mem b0 |> <| irq := irq b0 |> <| interruptStatus := 0 |> <| irqHigh := false |>.
Proof.
  destruct Hplace as (HB & HS & HI). unfold RestoreBalloon. cbn [transport SnapshotBalloon NumPages ActualPages
    InflatedPageWords InflatedPages]. rewrite restore_words by done.
  rewrite (restore_device _ _ m); try done. cbn. destruct b as [? ? ? ? ? ? ? ? ? ? ? ? ? ? [r n a i]].
  destruct b0 as [? ? ? ? ? ? ? ? ? ? ? ? ? ? [r0 n0 a0 i0]]. cbn in *. by rewrite Hrec.
Qed.

End proofs.

(** * A sample balloon *)

(** Memory that reclaims pages by counting. *)
#[export] Instance vm_pages : GuestPages VM := {|
  PageReclaimer := Some (mkPageOps VM (fun _ _ m => (m, Ok tt)) None None)
|}.

(** 512 bytes of memory holding two page numbers. *)
Definition balloonRAM : VM := mkRAM 0x40000000 512 (put (zeros 512) 16 (le 4 5 ++ le 4 6)).

Definition sampleBalloon : @Balloon VM lines :=
  mkDevice 0xa000 0x200 9 (Some balloonRAM) (Some (mkLines [])) 0 0 0 0 15 1 true 1
    [zeroQueue; zeroQueue] (mkBalloonState true 10 1 {[0 := 2]}).

Lemma sample_tracks : tracks (inflated (ext sampleBalloon)) {[1]}.
Proof.
  split; [apply map_Forall_singleton; lia|]. intros p Hp. unfold inBalloon. cbn [ext sampleBalloon inflated].
  pose proof (Z.mod_pos_bound p 64). destruct (decide (p / 64 = 0)) as [E|E].
  - rewrite E, lookup_singleton_eq. cbn [from_option id]. change 2 with (2 ^ 1).
    rewrite Z.pow2_bits_eqb by lia. destruct (Z.eqb_spec 1 (p mod 64)) as [E1|E1].
    + symmetry. apply bool_decide_eq_true. apply elem_of_singleton. apply same_page; [exact E|symmetry; exact E1].
    + symmetry. apply bool_decide_eq_false. rewrite elem_of_singleton. intros ->. by apply E1.
  - rewrite lookup_singleton_ne by done. cbn [from_option]. rewrite Z.bits_0. symmetry. apply bool_decide_eq_false.
    rewrite elem_of_singleton. intros ->. by apply E.
Qed.

Lemma balloon_tracks_set_witness :
  tracks (inflated (ext (processPFNsLocked true 0x40000010 8 sampleBalloon).1)) (handOver true [5; 6] {[1]}).
Proof.
  apply (balloon_tracks_set sampleBalloon balloonRAM true 0x40000010 8 (le 4 5 ++ le 4 6) {[1]}).
  - reflexivity.
  - vm_compute; reflexivity.
  - apply Forall_app; split; apply le_is_bytes.
  - reflexivity.
  - exact sample_tracks.
Defined.
