(* ===== verification/Vsock.v ===== *)
(** The virtio socket device: [src/internal/core/virtio/vsock.go] and [vsock_protocol.go].

    Guest programs connect to ports of the host.  A connection has a backend on the host and
    a goroutine that reads it and sends what it reads to the guest as far as the guest's
    announced buffer space allows, parking when there is none.  The file models the packet
    codec, the connection table with the handlers of all packets, the goroutines as
    processes whose steps interleave with them, and the queues in guest memory.

    [vsock_flow_control]: whatever the interleaving, a guest that counts correctly is never
    sent more than its buffer holds.  [vsock_streams]: the data packets of a connection are
    what was read from its backend, in order, as long as ports are not reused too early.
    [stale_reader_injects]: when they are, the goroutine of the old connection sends its data
    to the new one, and its end of file closes the new one.  What the queues carry is in
    [VsockQueues].

    The statistics that [Summary] prints are left out. *)

From stdpp Require Import gmap.
From S2P Require Import Prelude GuestMemory Virtqueue VirtioDevice.

(** * Packets *)

Abbreviation vsockHeaderSize := 44%Z.
Abbreviation vsockTypeStream := 1%Z.
Abbreviation vsockOpRequest := 1%Z.
Abbreviation vsockOpResponse := 2%Z.
Abbreviation vsockOpRST := 3%Z.
Abbreviation vsockOpShutdown := 4%Z.
Abbreviation vsockOpRW := 5%Z.
Abbreviation vsockOpCreditUpdate := 6%Z.
Abbreviation vsockOpCreditRequest := 7%Z.
Abbreviation VSockCIDHost := 2%Z.
Abbreviation vsockDefaultBufSize := 65536%Z.

Record vsockHeader := mkHeader {
  SrcCID : Z;
  DstCID : Z;
  SrcPort : Z;
  DstPort : Z;
  Len : Z;
  Type_ : Z;
  Op : Z;
  Flags : Z;
  BufAlloc : Z;
  FwdCnt : Z;
}.

Definition parseVsockHeader (data : bytes) : result unit vsockHeader :=
  if len data <? vsockHeaderSize then Err tt
  else Ok (mkHeader (unle (slice data 0 8)) (unle (slice data 8 16)) (unle (slice data 16 20)) (unle (slice data 20 24))
             (unle (slice data 24 28)) (unle (slice data 28 30)) (unle (slice data 30 32)) (unle (slice data 32 36))
             (unle (slice data 36 40)) (unle (slice data 40 44))).

Definition encodeVsockHeader (hdr : vsockHeader) : bytes :=
  le 8 (SrcCID hdr) ++ le 8 (DstCID hdr) ++ le 4 (SrcPort hdr) ++ le 4 (DstPort hdr) ++ le 4 (Len hdr) ++
  le 2 (Type_ hdr) ++ le 2 (Op hdr) ++ le 4 (Flags hdr) ++ le 4 (BufAlloc hdr) ++ le 4 (FwdCnt hdr).

(** * Connections *)

(** The backend and its connections, objects of the host. *)
Class VsockBackend (B C : Type) := {
  Connect : Z -> B -> B * result unit C;
  WriteConn : C -> bytes -> B -> B * result unit unit;
  CloseConn : C -> B -> B;
}.

Inductive connState := Idle | Connecting | Connected | Closing.
#[export] Instance connState_dec : EqDecision connState.
Proof. solve_decision. Defined.

(** Where the goroutine of a connection is: in [Read], with bytes to send, parked until the
    guest announces space, or gone. *)
Inductive readerState := Reading | Sending (rest : bytes) | Parked (rest : bytes) | Returned.

Section protocol.
Context {B C : Type} `{VB : VsockBackend B C}.

Record vsockConnection := mkConn {
  state : connState;
  peerAlloc : Z;
  peerCnt : Z;
  txCnt : Z;
  rxCnt : Z;
  creditRequestPending : bool;
  cbackend : option C;
}.
#[export] Instance eta_vsockConnection : Eta vsockConnection := fun c =>
  mkConn (state c) (peerAlloc c) (peerCnt c) (txCnt c) (rxCnt c) (creditRequestPending c) (cbackend c).

(** A key is the local and the remote port. *)
Abbreviation vsockConnKey := (Z * Z)%type.

Record reader := mkReader { rkey : vsockConnKey; rconn : C; rstate : readerState }.

(** [readers] are the goroutines started so far. *)
Record Vsock := mkVsock {
  GuestCID : Z;
  backend : option B;
  connections : gmap vsockConnKey vsockConnection;
  pendingRx : list bytes;
  readers : list reader;
  closed : bool;
}.
#[export] Instance eta_Vsock : Eta Vsock := fun v =>
  mkVsock (GuestCID v) (backend v) (connections v) (pendingRx v) (readers v) (closed v).

Definition keyOf (hdr : vsockHeader) : vsockConnKey := (DstPort hdr, SrcPort hdr).

Definition queueRxPacketLocked (packet : bytes) (v : Vsock) : Vsock := v <| pendingRx := pendingRx v ++ [packet] |>.

Definition sendResponseLocked (hdr : vsockHeader) (v : Vsock) : Vsock :=
  queueRxPacketLocked (encodeVsockHeader
    (mkHeader VSockCIDHost (GuestCID v) (DstPort hdr) (SrcPort hdr) 0 vsockTypeStream vsockOpResponse 0 vsockDefaultBufSize 0)) v.

Definition sendResetLocked (hdr : vsockHeader) (v : Vsock) : Vsock :=
  queueRxPacketLocked (encodeVsockHeader
    (mkHeader VSockCIDHost (GuestCID v) (DstPort hdr) (SrcPort hdr) 0 vsockTypeStream vsockOpRST 0 0 0)) v.

Definition sendCreditUpdateLocked (key : vsockConnKey) (conn : vsockConnection) (v : Vsock) : Vsock :=
  queueRxPacketLocked (encodeVsockHeader
    (mkHeader VSockCIDHost (GuestCID v) key.1 key.2 0 vsockTypeStream vsockOpCreditUpdate 0 vsockDefaultBufSize (rxCnt conn))) v.

Definition setConn (key : vsockConnKey) (conn : vsockConnection) (v : Vsock) : Vsock :=
  v <| connections := <[key := conn]> (connections v) |>.

Definition sendCreditRequestLocked (key : vsockConnKey) (conn : vsockConnection) (v : Vsock) : Vsock :=
  if creditRequestPending conn then v
  else
    queueRxPacketLocked (encodeVsockHeader
      (mkHeader VSockCIDHost (GuestCID v) key.1 key.2 0 vsockTypeStream vsockOpCreditRequest 0 vsockDefaultBufSize (rxCnt conn)))
      (setConn key (conn <| creditRequestPending := true |>) v).

Definition sendDataLocked (key : vsockConnKey) (conn : vsockConnection) (data : bytes) (v : Vsock) : Vsock :=
  queueRxPacketLocked (encodeVsockHeader
      (mkHeader VSockCIDHost (GuestCID v) key.1 key.2 (wrap 32 (len data)) vsockTypeStream vsockOpRW 0 vsockDefaultBufSize
         (rxCnt conn)) ++ data)
    (setConn key (conn <| txCnt := wrap 32 (txCnt conn + wrap 32 (len data)) |>) v).

(** [creditCond.Broadcast]. *)
Definition wake (r : reader) : reader :=
  match rstate r with Parked rest => mkReader (rkey r) (rconn r) (Sending rest) | _ => r end.

Definition broadcast (v : Vsock) : Vsock := v <| readers := wake <$> readers v |>.

(** Close the backend of a connection, if it has one. *)
Definition closeBackend (conn : vsockConnection) (v : Vsock) : Vsock :=
  match cbackend conn with
  | Some c => v <| backend := CloseConn c <$> backend v |>
  | None => v
  end.

Definition dropConn (key : vsockConnKey) (v : Vsock) : Vsock := v <| connections := delete key (connections v) |>.

(** * Handlers of packets *)

Definition handleConnectLocked (hdr : vsockHeader) (v : Vsock) : Vsock :=
  match backend v with
  | None => sendResetLocked hdr v
  | Some b =>
      match Connect (DstPort hdr) b with
      | (b, Ok c) =>
          let v := v <| backend := Some b |> in
          let v := setConn (keyOf hdr) (mkConn Connected (BufAlloc hdr) (FwdCnt hdr) 0 0 false (Some c)) v in
          let v := sendResponseLocked hdr v in
          v <| readers := readers v ++ [mkReader (keyOf hdr) c Reading] |>
      | (b, _) => sendResetLocked hdr (v <| backend := Some b |>)
      end
  end.

Definition handleResponseLocked (hdr : vsockHeader) (v : Vsock) : Vsock :=
  match connections v !! keyOf hdr with
  | Some conn =>
      if decide (state conn = Connecting)
      then setConn (keyOf hdr) (conn <| state := Connected |> <| peerAlloc := BufAlloc hdr |> <| peerCnt := FwdCnt hdr |>) v
      else sendResetLocked hdr v
  | None => sendResetLocked hdr v
  end.

Definition handleResetLocked (hdr : vsockHeader) (v : Vsock) : Vsock :=
  match connections v !! keyOf hdr with
  | Some conn => dropConn (keyOf hdr) (closeBackend conn v)
  | None => v
  end.

Definition handleShutdownLocked (hdr : vsockHeader) (v : Vsock) : Vsock :=
  match connections v !! keyOf hdr with
  | Some conn => dropConn (keyOf hdr) (sendResetLocked hdr (closeBackend conn v))
  | None => v
  end.

(** A connection without a backend cannot be written to. *)
Definition handleDataLocked (hdr : vsockHeader) (payload : bytes) (v : Vsock) : result deviceError Vsock :=
  match connections v !! keyOf hdr with
  | Some conn =>
      if decide (state conn = Connected) then
        let conn := conn <| peerAlloc := BufAlloc hdr |> <| peerCnt := FwdCnt hdr |> in
        if 0 <? len payload then
          let conn := conn <| rxCnt := wrap 32 (rxCnt conn + wrap 32 (len payload)) |> in
          match cbackend conn, backend v with
          | Some c, Some b =>
              match WriteConn c payload b with
              | (b, Ok _) =>
                  Ok (sendCreditUpdateLocked (keyOf hdr) conn (setConn (keyOf hdr) conn (v <| backend := Some b |>)))
              | (b, _) => Ok (dropConn (keyOf hdr) (closeBackend conn (sendResetLocked hdr (v <| backend := Some b |>))))
              end
          | _, _ => Panic
          end
        else Ok (sendCreditUpdateLocked (keyOf hdr) conn (setConn (keyOf hdr) conn v))
      else Ok (sendResetLocked hdr v)
  | None => Ok (sendResetLocked hdr v)
  end.

Definition handleCreditUpdateLocked (hdr : vsockHeader) (v : Vsock) : Vsock :=
  match connections v !! keyOf hdr with
  | Some conn =>
      broadcast (setConn (keyOf hdr)
        (conn <| peerAlloc := BufAlloc hdr |> <| peerCnt := FwdCnt hdr |> <| creditRequestPending := false |>) v)
  | None => v
  end.

Definition handleCreditRequestLocked (hdr : vsockHeader) (v : Vsock) : Vsock :=
  match connections v !! keyOf hdr with
  | Some conn => sendCreditUpdateLocked (keyOf hdr) conn v
  | None => v
  end.

Definition handlePacket (hdr : vsockHeader) (payload : bytes) (v : Vsock) : result deviceError Vsock :=
  if Op hdr =? vsockOpRequest then Ok (handleConnectLocked hdr v)
  else if Op hdr =? vsockOpResponse then Ok (handleResponseLocked hdr v)
  else if Op hdr =? vsockOpRST then Ok (handleResetLocked hdr v)
  else if Op hdr =? vsockOpShutdown then Ok (handleShutdownLocked hdr v)
  else if Op hdr =? vsockOpRW then handleDataLocked hdr payload v
  else if Op hdr =? vsockOpCreditUpdate then Ok (handleCreditUpdateLocked hdr v)
  else if Op hdr =? vsockOpCreditRequest then Ok (handleCreditRequestLocked hdr v)
  else Ok v.

(** * The goroutine of a connection *)

Definition vsockPeerCredit (conn : vsockConnection) : Z :=
  if peerAlloc conn =? 0 then 0
  else
    let used := wrap 32 (txCnt conn - peerCnt conn) in
    if peerAlloc conn <=? used then 0 else peerAlloc conn - used.

Definition setReader (id : nat) (st : readerState) (v : Vsock) : Vsock :=
  v <| readers := alter (fun r => mkReader (rkey r) (rconn r) st) id (readers v) |>.

(** The shutdown packet at the end of a backend's data. *)
Definition sendShutdown (key : vsockConnKey) (v : Vsock) : Vsock :=
  queueRxPacketLocked (encodeVsockHeader
    (mkHeader VSockCIDHost (GuestCID v) key.1 key.2 0 vsockTypeStream vsockOpShutdown 3 0 0)) v.

(** [Read] returns [input]; a goroutine that finds the device closed returns.  The flag tells
    whether pending packets are delivered then. *)
Definition readerRead (id : nat) (input : result unit bytes) (v : Vsock) : option (Vsock * bool) :=
  r ← readers v !! id;
  match rstate r, input with
  | Reading, Ok data => if len data =? 0 then Some (v, false) else Some (setReader id (Sending data) v, false)
  | Reading, _ =>
      if closed v then Some (setReader id Returned v, false)
      else
        match connections v !! rkey r with
        | Some conn =>
            if decide (state conn = Connected)
            then Some (setReader id Returned (setConn (rkey r) (conn <| state := Closing |>) (sendShutdown (rkey r) v)), true)
            else Some (setReader id Returned v, false)
        | None => Some (setReader id Returned v, false)
        end
  | _, _ => None
  end.

(** One round of the inner loop. *)
Definition readerSend (id : nat) (v : Vsock) : option (Vsock * bool) :=
  r ← readers v !! id;
  match rstate r with
  | Sending rest =>
      match connections v !! rkey r with
      | Some conn =>
          if decide (state conn = Connected) then
            let credit := vsockPeerCredit conn in
            if credit =? 0 then Some (setReader id (Parked rest) (sendCreditRequestLocked (rkey r) conn v), true)
            else
              let chunk := if credit <? wrap 32 (len rest) then credit else len rest in
              let v := sendDataLocked (rkey r) conn (slice rest 0 chunk) v in
              let rest := slice rest chunk (len rest) in
              Some (setReader id (if len rest =? 0 then Reading else Sending rest) v, true)
          else Some (setReader id Returned v, false)
      | None => Some (setReader id Returned v, false)
      end
  | _ => None
  end.

(** The check of [closed] before the next [Read]. *)
Definition readerStop (id : nat) (v : Vsock) : option (Vsock * bool) :=
  r ← readers v !! id;
  match rstate r with
  | Reading => if closed v then Some (setReader id Returned v, false) else None
  | _ => None
  end.

(** * Reset and close *)

Definition closeAll (v : Vsock) : Vsock := foldr (fun kc => closeBackend kc.2) v (map_to_list (connections v)).

(** The part of [resetLocked] behind the transport. *)
Definition resetConnections (v : Vsock) : Vsock :=
  broadcast (closeAll v <| connections := ∅ |> <| pendingRx := [] |>).

Definition Close (v : Vsock) : Vsock :=
  if closed v then v else broadcast (closeAll (v <| closed := true |>) <| connections := ∅ |>).

End protocol.
Arguments vsockConnection : clear implicits.
Arguments reader : clear implicits.
Arguments Vsock : clear implicits.

(** * The device *)

Abbreviation mmioDeviceIDVsock := 19%Z.
Abbreviation vsockQueueRX := (0%nat).
Abbreviation vsockQueueTX := (1%nat).
Abbreviation vsockQueueSize := 128%Z.

Section device.
Context {G I B C : Type} `{GM : GuestMemory G, IC : IRQController I, VB : VsockBackend B C}.

Definition VsockDevice : Type := Device G I (Vsock B C).
Abbreviation M := (proc VsockDevice deviceError).

Definition NewVsock (base sz irqn guestCID : Z) (b : option B) : VsockDevice :=
  let v := mkVsock guestCID b ∅ [] [] false in
  resetLocked v (mkDevice base sz irqn None None 0 0 0 0 0 0 false 0 [zeroQueue; zeroQueue; zeroQueue] v).

Definition onVsock (f : Vsock B C -> Vsock B C) : M unit := modify (fun d => d <| ext := f (ext d) |>).

Definition Detach (d : VsockDevice) : VsockDevice :=
  d <| mem := None |> <| irq := None |> <| ext := ext d <| pendingRx := [] |> |>.

Definition Read (d : VsockDevice) (a sz : Z) : result deviceError Z :=
  let offset := wrap 64 (a - Base d) in
  if offset =? regDeviceFeatures then Ok (if deviceFeatureSel d =? 1 then truncateValue 1 sz else 0)
  else if offset =? regQueueNumMax then
    Ok (match selectedQueueLocked d with Some _ => truncateValue vsockQueueSize sz | None => 0 end)
  else
    match readRegister d mmioDeviceIDVsock offset sz with
    | Some v => Ok v
    | None =>
        if (regConfig <=? offset) && (wrap 64 (offset + wrap 64 sz) <=? regConfig + 8) then
          v ← readConfigValue (drop (Z.to_nat (offset - regConfig)) (le 8 (GuestCID (ext d)))) sz;
          Ok (truncateValue v sz)
        else Ok 0
    end.

(** A raised line is raised again. *)
Definition updateIRQLocked : M unit :=
  d ← getState;
  match irq d with
  | None => mret tt
  | Some _ =>
      let level := negb (interruptStatus d =? 0) in
      if Bool.eqb (irqHigh d) level then (if level then callIRQ true else mret tt)
      else
        _ ← modify (fun d => d <| irqHigh := level |>);
        callIRQ level
  end.

Definition raiseVring : M unit :=
  _ ← modify (fun d => d <| interruptStatus := Z.lor (interruptStatus d) intVring |>);
  updateIRQLocked.

(** [n] more descriptors of a chain; [out] has been read so far. *)
Fixpoint readChainFrom (n : nat) (q : queue) (index : Z) (out : bytes) : M bytes :=
  match n with
  | O => throw DChainLoop
  | S n =>
      desc ← readDescriptorLocked q index;
      out ←
        (if negb (hasbits (flags desc) descFWrite) && (0 <? length_ desc) then
           chunk ← readIPA (addr desc) (length_ desc);
           mret (out ++ chunk)
         else mret out);
      if hasbits (flags desc) descFNext then readChainFrom n q (next desc) out
      else mret out
  end.

Definition readChainLocked (q : queue) (head : Z) : M bytes := readChainFrom (Z.to_nat (size q)) q head [].

(** [packet] is what is left to store, [offset] the number of bytes stored. *)
Fixpoint fillChainFrom (n : nat) (q : queue) (index offset : Z) (packet : bytes) : M Z :=
  match n with
  | O => throw DChainLoop
  | S n =>
      desc ← readDescriptorLocked q index;
      '(offset, packet) ←
        (if hasbits (flags desc) descFWrite && (0 <? length_ desc) && (0 <? len packet) then
           let chunk := if length_ desc <? len packet then slice packet 0 (length_ desc) else packet in
           _ ← writeIPA (addr desc) chunk;
           mret (offset + len chunk, slice packet (len chunk) (len packet))
         else mret (offset, packet));
      if hasbits (flags desc) descFNext then fillChainFrom n q (next desc) offset packet
      else if 0 <? len packet then throw (DBadLength (wrap 32 offset))
      else mret (wrap 32 offset)
  end.

Definition fillChainLocked (q : queue) (head : Z) (packet : bytes) : M Z :=
  fillChainFrom (Z.to_nat (size q)) q head 0 packet.

Definition handleTXPacketLocked (q : queue) (head : Z) : M Z :=
  data ← readChainLocked q head;
  if len data <? vsockHeaderSize then mret (wrap 32 (len data))
  else
    match parseVsockHeader data with
    | Ok hdr =>
        let payload := slice data vsockHeaderSize (len data) in
        if wrap 32 (len payload) <? Len hdr then throw (DBadLength (wrap 32 (len payload)))
        else
          d ← getState;
          v ← lift (handlePacket hdr (slice payload 0 (Len hdr)) (ext d));
          _ ← onVsock (fun _ => v);
          mret (wrap 32 (len data))
    | _ => throw DHost
    end.

(** Each round takes a packet off [pendingRx], which bounds their number; whether a packet was delivered. *)
Fixpoint rxLoop (fuel : nat) (availIdx : Z) (processed : bool) : M bool :=
  q ← getQueue vsockQueueRX;
  d ← getState;
  match fuel, pendingRx (ext d) with
  | S fuel, packet :: _ =>
      if lastAvailIdx q =? availIdx then mret processed
      else
        head ← availHead q;
        written ← fillChainLocked q head packet;
        _ ← writeUsedLocked vsockQueueRX head written;
        _ ← onVsock (fun v => v <| pendingRx := tail (pendingRx v) |>);
        _ ← onQueue vsockQueueRX (fun q => q <| lastAvailIdx := wrap 16 (lastAvailIdx q + 1) |>);
        rxLoop fuel availIdx true
  | _, _ => mret processed
  end.

Definition processRXLocked : M unit :=
  q ← getQueue vsockQueueRX;
  d ← getState;
  if negb (ready q) || (size q =? 0) then mret tt
  else
    match mem d, pendingRx (ext d) with
    | Some _, _ :: _ =>
        header ← readIPA (availAddr q) 4;
        processed ← rxLoop (length (pendingRx (ext d))) (unle (slice header 2 4)) false;
        if processed : bool then raiseVring else mret tt
    | _, _ => mret tt
    end.

Definition processTXLocked : M unit :=
  '(used, _) ← serveQueue vsockQueueTX handleTXPacketLocked;
  if used : bool then
    _ ← processRXLocked;
    raiseVring
  else mret tt.

Definition Write (a sz value : Z) : M unit :=
  d ← getState;
  let offset := wrap 64 (a - Base d) in
  if offset =? regInterruptAck then
    _ ← modify (fun d => d <| interruptStatus := Z.ldiff (interruptStatus d) (wrap 32 value) |>);
    updateIRQLocked
  else if offset =? regStatus then
    modify (fun d =>
      let d := d <| status := wrap 32 value |> in
      if status d =? 0 then resetLocked (resetConnections (ext d)) d else d)
  else if offset =? regQueueNotify then
    (if value =? Z.of_nat vsockQueueTX then processTXLocked
     else if value =? Z.of_nat vsockQueueRX then processRXLocked
     else mret tt)
  else writeRegister offset value.

(** The line is lowered first, so that a raised one is seen to rise. *)
Definition Poke : M unit :=
  _ ← processRXLocked;
  d ← getState;
  match irq d with
  | None => mret tt
  | Some _ =>
      _ ← modify (fun d => d <| interruptStatus := Z.lor (interruptStatus d) intVring |>);
      _ ← (if irqHigh d then _ ← callIRQ false; modify (fun d => d <| irqHigh := false |>) else mret tt);
      updateIRQLocked
  end.

Definition Kick : M unit := raiseVring.

Definition IRQAsserted (d : VsockDevice) : bool := negb (interruptStatus d =? 0) || irqHigh d.

(** A step of a goroutine on the device; the outcome of a delivery is ignored. *)
Definition onReader (step : Vsock B C -> option (Vsock B C * bool)) (d : VsockDevice) : option VsockDevice :=
  '(v, deliver) ← step (ext d);
  let d := d <| ext := v |> in
  Some (if deliver : bool then (processRXLocked d).1 else d).

End device.

(** * The protocol as a transition system *)

Section steps.
Context {B C : Type} `{VB : VsockBackend B C}.
Local Abbreviation V := (Vsock B C).

(** What can happen to the connections: a packet of the guest, a step of a goroutine,
    delivery of pending packets, a reset by the guest, the end of the device. *)
Inductive event :=
  | Packet (hdr : vsockHeader) (payload : bytes)
  | ReadReturns (id : nat) (input : result unit bytes)
  | SendRound (id : nat)
  | StopCheck (id : nat)
  | Deliver (n : nat)
  | ResetDevice
  | CloseDevice.

Definition happens (e : event) (v : V) : option V :=
  match e with
  | Packet hdr payload => match handlePacket hdr payload v with Ok v => Some v | _ => None end
  | ReadReturns id input => fst <$> readerRead id input v
  | SendRound id => fst <$> readerSend id v
  | StopCheck id => fst <$> readerStop id v
  | Deliver n => Some (v <| pendingRx := drop n (pendingRx v) |>)
  | ResetDevice => Some (resetConnections v)
  | CloseDevice => Some (Close v)
  end.

(** The packets an event queues. *)
Definition queued (e : event) (v v' : V) : list bytes :=
  match e with
  | Deliver _ | ResetDevice => []
  | _ => drop (length (pendingRx v)) (pendingRx v')
  end.

(** The data a packet to the guest carries for a connection. *)
Definition dataFor (key : Z * Z) (packet : bytes) : bytes :=
  match parseVsockHeader packet with
  | Ok hdr =>
      if (Op hdr =? vsockOpRW) && bool_decide ((SrcPort hdr, DstPort hdr) = key)
      then slice packet vsockHeaderSize (len packet) else []
  | _ => []
  end.

(** History of a connection: the buffer size of the guest, the bytes the guest has reported
    as consumed, the data sent to it, and the goroutine that was started for it. *)
Record history := mkHistory { alloc : Z; consumed : Z; out : bytes; owner : nat }.
#[export] Instance eta_history : Eta history := fun h => mkHistory (alloc h) (consumed h) (out h) (owner h).

(** Whether a packet of the guest updates its announced counters. *)
Definition announces (hdr : vsockHeader) (v : V) : bool :=
  match connections v !! keyOf hdr with
  | Some conn => (Op hdr =? vsockOpRW) && bool_decide (state conn = Connected) || (Op hdr =? vsockOpCreditUpdate)
  | None => false
  end.

(** Whether a packet makes a connection. *)
Definition connects (hdr : vsockHeader) (v v' : V) : bool :=
  (Op hdr =? vsockOpRequest) && (length (readers v) <? length (readers v'))%nat.

(** A guest that counts: the fields have their width, a request starts at zero, and an
    announcement repeats the buffer size and reports [f] bytes, no less than before and no
    more than were sent. *)
Definition honest (e : event) (f : Z) (v : V) (h : gmap (Z * Z) history) : Prop :=
  match e with
  | Packet hdr _ =>
      in_width 32 (SrcPort hdr) /\ in_width 32 (DstPort hdr) /\ in_width 32 (BufAlloc hdr) /\
      (Op hdr = vsockOpRequest -> FwdCnt hdr = 0) /\
      (announces hdr v = true -> forall hist, h !! keyOf hdr = Some hist ->
        consumed hist <= f <= len (out hist) /\ FwdCnt hdr = wrap 32 f /\ BufAlloc hdr = alloc hist)
  | ReadReturns _ (Ok data) => len data <= 3072
  | _ => True
  end.

Definition record (e : event) (f : Z) (v v' : V) (h : gmap (Z * Z) history) : gmap (Z * Z) history :=
  let h :=
    match e with
    | Packet hdr _ =>
        if connects hdr v v' then <[keyOf hdr := mkHistory (BufAlloc hdr) 0 [] (length (readers v))]> h
        else if announces hdr v then alter (fun hist => hist <| consumed := f |>) (keyOf hdr) h
        else h
    | _ => h
    end in
  map_imap (fun key hist => Some (hist <| out := out hist ++ concat (dataFor key <$> queued e v v') |>)) h.

(** The bytes each goroutine has read from its backend. *)
Definition recordReads (e : event) (v v' : V) (reads : list bytes) : list bytes :=
  match e with
  | ReadReturns id (Ok data) => alter (fun b => b ++ data) id reads
  | Packet hdr _ => if connects hdr v v' then reads ++ [[]] else reads
  | _ => reads
  end.

Record system := mkSystem { dev : V; histories : gmap (Z * Z) history; reads : list bytes }.

Inductive run : system -> system -> Prop :=
| run_event e f v v' h rs : honest e f v h -> happens e v = Some v' ->
    run (mkSystem v h rs) (mkSystem v' (record e f v v' h) (recordReads e v v' rs)).

Definition started (cid : Z) (b : option B) : system := mkSystem (mkVsock cid b ∅ [] [] false) ∅ [].

(** * What the packets say *)

Lemma field_skip n v rest a b : Z.of_nat n <= a -> slice (le n v ++ rest) a b = slice rest (a - Z.of_nat n) (b - Z.of_nat n).
Proof. intros H. by rewrite slice_app_r, len_le by (by rewrite len_le). Qed.

Lemma field_here n v rest a b : a = 0 -> b = Z.of_nat n -> unle (slice (le n v ++ rest) a b) = wrap (8 * Z.of_nat n) v.
Proof. intros -> ->. rewrite slice_app_l, <- (len_le n v), slice_full, unle_le by (rewrite ?len_le; lia). by rewrite len_le. Qed.

Lemma len_header hdr : len (encodeVsockHeader hdr) = 44.
Proof. unfold encodeVsockHeader. rewrite !len_app, !len_le. lia. Qed.

Lemma parse_encode hdr data :
  parseVsockHeader (encodeVsockHeader hdr ++ data) =
    Ok (mkHeader (wrap 64 (SrcCID hdr)) (wrap 64 (DstCID hdr)) (wrap 32 (SrcPort hdr)) (wrap 32 (DstPort hdr)) (wrap 32 (Len hdr))
          (wrap 16 (Type_ hdr)) (wrap 16 (Op hdr)) (wrap 32 (Flags hdr)) (wrap 32 (BufAlloc hdr)) (wrap 32 (FwdCnt hdr))) /\
  slice (encodeVsockHeader hdr ++ data) vsockHeaderSize (len (encodeVsockHeader hdr ++ data)) = data.
Proof.
  split.
  - unfold parseVsockHeader. rewrite len_app, len_header. pose proof (len_nonneg data). rewrite (proj2 (Z.ltb_ge _ _)) by lia.
    unfold encodeVsockHeader. rewrite <- !app_assoc. f_equal.
    f_equal; repeat (rewrite field_skip by lia); rewrite field_here by lia; done.
  - rewrite slice_app_r by (rewrite len_header; lia). rewrite len_app, len_header.
    replace (44 - 44) with 0 by lia. replace (44 + len data - 44) with (len data) by lia. apply slice_full.
Qed.

(** Control packets carry no data; a data packet carries its payload for its connection. *)
Lemma dataFor_control key hdr : wrap 16 (Op hdr) <> vsockOpRW -> dataFor key (encodeVsockHeader hdr) = [].
Proof.
  intros H. unfold dataFor. rewrite <- (app_nil_r (encodeVsockHeader hdr)).
  destruct (parse_encode hdr []) as [-> _]. cbn [Op]. by rewrite (proj2 (Z.eqb_neq _ _) H).
Qed.

Lemma dataFor_data key hdr data : Op hdr = vsockOpRW -> in_width 32 (SrcPort hdr) -> in_width 32 (DstPort hdr) ->
  dataFor key (encodeVsockHeader hdr ++ data) = if decide ((SrcPort hdr, DstPort hdr) = key) then data else [].
Proof.
  intros H H1 H2. unfold dataFor. destruct (parse_encode hdr data) as [-> ->]. cbn [Op SrcPort DstPort]. rewrite H, !wrap_small by done.
  change (wrap 16 5 =? 5) with true. cbn [andb]. case_bool_decide; case_decide; done.
Qed.

Definition quiet (ps : list bytes) : Prop := Forall (fun p => forall key, dataFor key p = []) ps.

Lemma quiet_data ps key : quiet ps -> concat (dataFor key <$> ps) = [].
Proof. induction 1 as [|p ps H _ IH]; [done|]. cbn. by rewrite H, IH. Qed.

(** Histories after an event that sends no data. *)
Lemma map_imap_same (h : gmap (Z * Z) history) ps : quiet ps ->
  map_imap (fun key hist => Some (hist <| out := out hist ++ concat (dataFor key <$> ps) |>)) h = h.
Proof.
  intros H. apply map_eq. intros key. rewrite map_lookup_imap. destruct (h !! key) as [hist|]; [|done]. cbn.
  rewrite quiet_data, app_nil_r by done. by destruct hist.
Qed.

(** * What a packet of the guest does *)

(** The connections after a packet that makes none: the counters the packet announces are
    replaced, everything else the flow of data depends on stays. *)
Definition keeps (hdr : vsockHeader) (v v' : V) : Prop :=
  forall key c', connections v' !! key = Some c' -> exists c, connections v !! key = Some c /\
    txCnt c' = txCnt c /\ (state c' = state c \/ state c = Connecting) /\
    if decide (announces hdr v = true /\ key = keyOf hdr) then peerAlloc c' = BufAlloc hdr /\ peerCnt c' = FwdCnt hdr
    else state c = Connecting \/ peerAlloc c' = peerAlloc c /\ peerCnt c' = peerCnt c.

Lemma keeps_same hdr v v' : announces hdr v = false -> (forall key c, connections v' !! key = Some c -> connections v !! key = Some c) ->
  keeps hdr v v'.
Proof.
  intros Ha H key c' E. exists c'. split_and!; [by apply H|done|by left|]. rewrite decide_False by (rewrite Ha; naive_solver). by right.
Qed.

Lemma keeps_insert hdr v v' c c' : connections v !! keyOf hdr = Some c -> connections v' = <[keyOf hdr := c']> (connections v) ->
  txCnt c' = txCnt c -> (state c' = state c \/ state c = Connecting) ->
  (if announces hdr v then peerAlloc c' = BufAlloc hdr /\ peerCnt c' = FwdCnt hdr else state c = Connecting) -> keeps hdr v v'.
Proof.
  intros E Ev H1 H2 H3 key k Hk. rewrite Ev in Hk. destruct (decide (key = keyOf hdr)) as [->|Hne].
  - rewrite lookup_insert_eq in Hk. injection Hk as <-. exists c. split_and!; [done..|]. destruct (announces hdr v) eqn:Ea.
    + by rewrite decide_True.
    + rewrite decide_False by naive_solver. by left.
  - rewrite lookup_insert_ne in Hk by done. exists k. split_and!; [done|done|by left|]. rewrite decide_False by naive_solver. by right.
Qed.

Lemma announces_op hdr (v : V) : Op hdr <> vsockOpRW -> Op hdr <> vsockOpCreditUpdate -> announces hdr v = false.
Proof.
  intros H1 H2. unfold announces. destruct (connections v !! keyOf hdr); [|done].
  by rewrite (proj2 (Z.eqb_neq _ _) H1), (proj2 (Z.eqb_neq _ _) H2).
Qed.

(** A packet queues control packets only, and starts a goroutine exactly when it connects. *)
Definition packetEffect (hdr : vsockHeader) (v v' : V) : Prop :=
  (exists ps, pendingRx v' = pendingRx v ++ ps /\ quiet ps) /\
  ((Op hdr = vsockOpRequest /\ exists c, readers v' = readers v ++ [mkReader (keyOf hdr) c Reading] /\
      connections v' = <[keyOf hdr := mkConn Connected (BufAlloc hdr) (FwdCnt hdr) 0 0 false (Some c)]> (connections v)) \/
   (readers v' = readers v \/ readers v' = wake <$> readers v) /\ keeps hdr v v').

Lemma quiet_one hdr : wrap 16 (Op hdr) <> vsockOpRW -> quiet [encodeVsockHeader hdr].
Proof. intros H. constructor; [|constructor]. intros key. by apply dataFor_control. Qed.

(** Effects that leave the connections alone, or drop one. *)
Lemma effect_same hdr (v v' : V) ps : announces hdr v = false -> pendingRx v' = pendingRx v ++ ps -> quiet ps -> readers v' = readers v ->
  (forall key c, connections v' !! key = Some c -> connections v !! key = Some c) -> packetEffect hdr v v'.
Proof. intros Ha Hp Hq Hr Hc. split; [by exists ps|]. right. split; [by left|]. by apply keeps_same. Qed.

Lemma effect_drop hdr (v v' : V) ps : pendingRx v' = pendingRx v ++ ps -> quiet ps -> readers v' = readers v ->
  connections v' = delete (keyOf hdr) (connections v) -> packetEffect hdr v v'.
Proof.
  intros Hp Hq Hr Hc. split; [by exists ps|]. right. split; [by left|]. intros key c' E. rewrite Hc in E.
  apply lookup_delete_Some in E as [Hne E]. exists c'. split_and!; [done|done|by left|]. rewrite decide_False by naive_solver. by right.
Qed.

Lemma closeBackend_same (conn : vsockConnection C) (v : V) : connections (closeBackend conn v) = connections v /\
  pendingRx (closeBackend conn v) = pendingRx v /\ readers (closeBackend conn v) = readers v /\ closed (closeBackend conn v) = closed v.
Proof. unfold closeBackend. by destruct (cbackend conn). Qed.

Lemma connect_effect hdr v : Op hdr = vsockOpRequest -> packetEffect hdr v (handleConnectLocked hdr v).
Proof.
  intros Ho. assert (Ha : announces hdr v = false) by (apply announces_op; lia). unfold handleConnectLocked.
  destruct (backend v) as [b|]; [|eapply effect_same; [exact Ha|reflexivity|by apply quiet_one|done|done]].
  destruct (Connect (DstPort hdr) b) as [b' [c|e|]].
  2,3: eapply effect_same; [exact Ha|reflexivity|by apply quiet_one|done|done].
  split; [eexists; split; [reflexivity|by apply quiet_one]|]. left. split; [done|]. by exists c.
Qed.

Lemma response_effect hdr v : Op hdr = vsockOpResponse -> packetEffect hdr v (handleResponseLocked hdr v).
Proof.
  intros Ho. assert (Ha : announces hdr v = false) by (apply announces_op; lia). unfold handleResponseLocked.
  destruct (connections v !! keyOf hdr) as [conn|] eqn:E; [|eapply effect_same; [exact Ha|reflexivity|by apply quiet_one|done|done]].
  destruct (decide (state conn = Connecting)) as [Es|]; [|eapply effect_same; [exact Ha|reflexivity|by apply quiet_one|done|done]].
  split; [exists []; rewrite app_nil_r; split; [done|constructor]|]. right. split; [by left|].
  eapply (keeps_insert hdr v _ conn); [done|reflexivity|done|by right|by rewrite Ha].
Qed.

Lemma drop_effects hdr v : Op hdr = vsockOpRST \/ Op hdr = vsockOpShutdown ->
  packetEffect hdr v (handleResetLocked hdr v) /\ packetEffect hdr v (handleShutdownLocked hdr v).
Proof.
  intros Ho. assert (Ha : announces hdr v = false) by (apply announces_op; lia). unfold handleResetLocked, handleShutdownLocked.
  assert (Hid : packetEffect hdr v v) by (apply (effect_same _ _ _ [] Ha); [by rewrite app_nil_r|constructor|done|done]).
  destruct (connections v !! keyOf hdr) as [conn|] eqn:E; [|done].
  destruct (closeBackend_same conn v) as (C1 & C2 & C3 & _). split.
  - apply (effect_drop _ _ _ []); [cbn; by rewrite C2, app_nil_r|constructor|done|cbn; by rewrite C1].
  - eapply effect_drop; [cbn; by rewrite C2|by apply quiet_one|done|cbn; by rewrite C1].
Qed.

Lemma data_effect hdr payload v v' : Op hdr = vsockOpRW -> handleDataLocked hdr payload v = Ok v' -> packetEffect hdr v v'.
Proof.
  intros Ho. unfold handleDataLocked.
  destruct (connections v !! keyOf hdr) as [conn|] eqn:E.
  2: { intros [= <-]. eapply effect_same; [unfold announces; by rewrite E|reflexivity|by apply quiet_one|done|done]. }
  destruct (decide (state conn = Connected)) as [Es|Es].
  2: { intros [= <-]. eapply effect_same; [|reflexivity|by apply quiet_one|done|done].
       unfold announces. by rewrite E, Ho, bool_decide_eq_false_2. }
  assert (Ha : announces hdr v = true) by (unfold announces; by rewrite E, Ho, bool_decide_eq_true_2).
  assert (Hset : forall b c', txCnt c' = txCnt conn -> state c' = state conn -> peerAlloc c' = BufAlloc hdr -> peerCnt c' = FwdCnt hdr ->
    packetEffect hdr v (sendCreditUpdateLocked (keyOf hdr) c' (setConn (keyOf hdr) c' (v <| backend := b |>)))).
  { intros b c' H1 H2 H3 H4. split; [eexists; split; [reflexivity|by apply quiet_one]|]. right. split; [by left|].
    eapply (keeps_insert hdr v _ conn); [done|reflexivity|done|by left|by rewrite Ha]. }
  destruct (0 <? len payload).
  - cbn [cbackend]. destruct (cbackend (conn <| peerAlloc := _ |> <| peerCnt := _ |> <| rxCnt := _ |>)) as [c|]; [|done].
    destruct (backend v) as [b|]; [|done].
    destruct (WriteConn c payload b) as [b' [u|e|]]; intros [= <-]; [by apply Hset|..].
    all: set (c1 := conn <| peerAlloc := _ |> <| peerCnt := _ |> <| rxCnt := _ |>);
      destruct (closeBackend_same c1 (sendResetLocked hdr (v <| backend := Some b' |>))) as (C1 & C2 & C3 & _);
      eapply effect_drop; [exact C2|by apply quiet_one|exact C3|].
    all: change (delete (keyOf hdr) (connections (closeBackend c1 (sendResetLocked hdr (v <| backend := Some b' |>)))) =
      delete (keyOf hdr) (connections v)); by rewrite C1.
  - intros [= <-]. specialize (Hset (backend v)). replace (v <| backend := backend v |>) with v in Hset by (by destruct v).
    by apply Hset.
Qed.

Lemma credit_effects hdr v : (Op hdr = vsockOpCreditUpdate -> packetEffect hdr v (handleCreditUpdateLocked hdr v)) /\
  (Op hdr = vsockOpCreditRequest -> packetEffect hdr v (handleCreditRequestLocked hdr v)).
Proof.
  unfold handleCreditUpdateLocked, handleCreditRequestLocked. split; intros Ho.
  - destruct (connections v !! keyOf hdr) as [conn|] eqn:E.
    2: { apply (effect_same _ _ _ []); [unfold announces; by rewrite E|by rewrite app_nil_r|constructor|done|done]. }
    split; [exists []; rewrite app_nil_r; split; [done|constructor]|]. right. split; [by right|].
    eapply (keeps_insert hdr v _ conn); [done|reflexivity|done|by left|].
    assert (announces hdr v = true) as -> by (unfold announces; by rewrite E, Ho, orb_true_r). done.
  - assert (Ha : announces hdr v = false) by (apply announces_op; lia).
    destruct (connections v !! keyOf hdr) as [conn|] eqn:E.
    + eapply effect_same; [done|reflexivity|by apply quiet_one|done|done].
    + apply (effect_same _ _ _ [] Ha); [by rewrite app_nil_r|constructor|done|done].
Qed.

Lemma packet_effect hdr payload v v' : handlePacket hdr payload v = Ok v' -> packetEffect hdr v v'.
Proof.
  unfold handlePacket. repeat match goal with |- context [Op hdr =? ?n] => destruct (Z.eqb_spec (Op hdr) n) as [E|] end.
  - intros [= <-]. by apply connect_effect.
  - intros [= <-]. by apply response_effect.
  - intros [= <-]. apply drop_effects. by left.
  - intros [= <-]. apply drop_effects. by right.
  - by apply data_effect.
  - intros [= <-]. by apply credit_effects.
  - intros [= <-]. by apply credit_effects.
  - intros [= <-]. apply (effect_same _ _ _ []); [by apply announces_op|by rewrite app_nil_r|constructor|done|done].
Qed.

(** * What a goroutine does *)

(** The data sent in a round, for a connection of the goroutine's key. *)
Definition sends (key : Z * Z) (c : vsockConnection C) (data : bytes) (v v' : V) : Prop :=
  connections v !! key = Some c /\ state c = Connected /\ 0 < len data <= vsockPeerCredit c /\
  connections v' = <[key := c <| txCnt := wrap 32 (txCnt c + wrap 32 (len data)) |>]> (connections v) /\
  exists hdr, pendingRx v' = pendingRx v ++ [encodeVsockHeader hdr ++ data] /\ Op hdr = vsockOpRW /\
    SrcPort hdr = key.1 /\ DstPort hdr = key.2.

(** Connections as before, but for their states and pending credit requests. *)
Definition sameFlow (v v' : V) : Prop :=
  (exists ps, pendingRx v' = pendingRx v ++ ps /\ quiet ps) /\
  forall key c', connections v' !! key = Some c' -> exists c, connections v !! key = Some c /\
    txCnt c' = txCnt c /\ peerAlloc c' = peerAlloc c /\ peerCnt c' = peerCnt c /\ (state c' = state c \/ state c' = Closing).

Lemma sameFlow_refl v v' : pendingRx v' = pendingRx v -> connections v' = connections v -> sameFlow v v'.
Proof.
  intros Hp Hc. split; [exists []; rewrite app_nil_r; split; [done|constructor]|]. intros key c' E. rewrite Hc in E.
  exists c'. split_and!; try done. by left.
Qed.

Lemma sameFlow_insert v v' key c c' ps : connections v !! key = Some c -> pendingRx v' = pendingRx v ++ ps -> quiet ps ->
  connections v' = <[key := c']> (connections v) -> txCnt c' = txCnt c -> peerAlloc c' = peerAlloc c -> peerCnt c' = peerCnt c ->
  (state c' = state c \/ state c' = Closing) -> sameFlow v v'.
Proof.
  intros E Hp Hq Hc H1 H2 H3 H4. split; [by exists ps|]. intros key' k Hk. rewrite Hc in Hk.
  destruct (decide (key' = key)) as [->|Hne].
  - rewrite lookup_insert_eq in Hk. injection Hk as <-. by exists c.
  - rewrite lookup_insert_ne in Hk by done. exists k. split_and!; try done. by left.
Qed.

(** One goroutine moves from a state to another; the others stay. *)
Definition moves (id : nat) (r : reader C) (st : readerState) (v v' : V) : Prop :=
  readers v !! id = Some r /\ readers v' = <[id := mkReader (rkey r) (rconn r) st]> (readers v).

Lemma moves_set id r st v w : readers v !! id = Some r -> readers w = readers v -> moves id r st v (setReader id st w).
Proof.
  intros E Hw. split; [done|]. unfold setReader. cbn. rewrite Hw. apply list_eq. intros j. destruct (decide (j = id)) as [->|Hne].
  - rewrite list_lookup_alter_eq, list_lookup_insert_eq, E by (by eapply lookup_lt_Some). done.
  - by rewrite list_lookup_alter_ne, list_lookup_insert_ne by done.
Qed.

Lemma read_effect id input v v' : happens (ReadReturns id input) v = Some v' ->
  exists r, rstate r = Reading /\ readers v !! id = Some r /\ sameFlow v v' /\
    match input with
    | Ok data => if decide (data = []) then v' = v else moves id r (Sending data) v v'
    | _ => moves id r Returned v v'
    end.
Proof.
  cbn. unfold readerRead. destruct (readers v !! id) as [r|] eqn:E; [|done]. cbn [mbind option_bind].
  destruct (rstate r) eqn:Er; try done.
  assert (Hret : forall v1, v1 = setReader id Returned v -> exists r0, rstate r0 = Reading /\ Some r = Some r0 /\ sameFlow v v1 /\ moves id r0 Returned v v1).
  { intros v1 ->. exists r. split_and!; [done|done|by apply sameFlow_refl|]. by apply moves_set. }
  destruct input as [data|e|].
  { destruct data as [|b data]; [intros [= <-]; exists r; split_and!; try done; by apply sameFlow_refl|].
    rewrite (proj2 (Z.eqb_neq _ _)) by (rewrite len_cons; pose proof (len_nonneg data); lia).
    intros [= <-]. exists r. split_and!; [done|done|by apply sameFlow_refl|]. cbn. by apply moves_set. }
  all: destruct (closed v); [by intros [= <-]; apply Hret|].
  all: destruct (connections v !! rkey r) as [conn|] eqn:Ec; [|by intros [= <-]; apply Hret].
  all: destruct (decide (state conn = Connected)); [|by intros [= <-]; apply Hret].
  all: intros [= <-]; exists r; split_and!; [done|done| |by apply moves_set].
  all: eapply sameFlow_insert; [exact Ec|reflexivity|by apply quiet_one|reflexivity|done|done|done|by right].
Qed.

Lemma credit_bound (c : vsockConnection C) : 0 <= peerAlloc c < 2 ^ 32 -> 0 <= vsockPeerCredit c < 2 ^ 32.
Proof.
  intros H. unfold vsockPeerCredit. destruct (_ =? 0); [lia|]. pose proof (wrap_range 32 (txCnt c - peerCnt c) ltac:(lia)) as W.
  unfold in_width in W. destruct (Z.leb_spec (peerAlloc c) (wrap 32 (txCnt c - peerCnt c))); lia.
Qed.

(** A round sends some of the bytes, parks, or ends the goroutine. *)
Lemma send_effect id v v' : happens (SendRound id) v = Some v' ->
  exists r rest, readers v !! id = Some r /\ rstate r = Sending rest /\
    ((exists c data rest', connections v !! rkey r = Some c /\
        (rest <> [] -> len rest < 2 ^ 32 -> 0 <= peerAlloc c < 2 ^ 32 ->
         sends (rkey r) c data v v' /\ rest = data ++ rest') /\
        moves id r (if len rest' =? 0 then Reading else Sending rest') v v') \/
     sameFlow v v' /\ (moves id r (Parked rest) v v' \/ moves id r Returned v v')).
Proof.
  cbn. unfold readerSend. destruct (readers v !! id) as [r|] eqn:E; [|done]. cbn [mbind option_bind].
  destruct (rstate r) as [|rest| |] eqn:Er; try done.
  assert (Hret : forall v1, v1 = setReader id Returned v -> sameFlow v v1 /\ (moves id r (Parked rest) v v1 \/ moves id r Returned v v1)).
  { intros v1 ->. split; [by apply sameFlow_refl|]. right. by apply moves_set. }
  destruct (connections v !! rkey r) as [conn|] eqn:Ec; [|intros [= <-]; exists r, rest; split_and!; [done|done|right; by apply Hret]].
  destruct (decide (state conn = Connected)) as [Es|]; [|intros [= <-]; exists r, rest; split_and!; [done|done|right; by apply Hret]].
  destruct (Z.eqb_spec (vsockPeerCredit conn) 0) as [Ecr|Ecr].
  - intros [= <-]. exists r, rest. split_and!; [done|done|]. right. unfold sendCreditRequestLocked. destruct (creditRequestPending conn).
    + split; [by apply sameFlow_refl|]. left. by apply moves_set.
    + split; [|left; by apply moves_set].
      eapply sameFlow_insert; [exact Ec|reflexivity|by apply quiet_one|reflexivity|done|done|done|by left].
  - set (chunk := if _ <? _ then _ else _). cbv zeta. intros [= <-]. exists r, rest. split_and!; [done|done|]. left.
    exists conn, (slice rest 0 chunk), (slice rest chunk (len rest)). split_and!; [done| |by apply moves_set].
    intros Hne Hlen Ha. pose proof (credit_bound conn Ha) as Hb.
    assert (Hpos : 0 < len rest) by (destruct rest; [done|]; rewrite len_cons; pose proof (len_nonneg rest); lia).
    assert (Hc : 0 < chunk <= vsockPeerCredit conn /\ chunk <= len rest).
    { unfold chunk. rewrite wrap_small by width. destruct (Z.ltb_spec (vsockPeerCredit conn) (len rest)); lia. }
    split; [|apply slice_cut; lia]. split_and!; [done|done|rewrite len_slice; lia|rewrite len_slice; lia|reflexivity|].
    eexists. split; [reflexivity|]. done.
Qed.

(** * Flow control *)

(** The counters of a connection are its history modulo 2^32, and no more is under way than
    the guest has space for. *)
Definition connFlow (key : Z * Z) (c : vsockConnection C) (hist : history) : Prop :=
  in_width 32 key.1 /\ in_width 32 key.2 /\ in_width 32 (alloc hist) /\
  0 <= consumed hist <= len (out hist) /\ len (out hist) <= consumed hist + alloc hist /\
  txCnt c = wrap 32 (len (out hist)) /\ peerCnt c = wrap 32 (consumed hist) /\ peerAlloc c = alloc hist /\ state c <> Connecting.

Definition flowOK (v : V) (h : gmap (Z * Z) history) : Prop :=
  forall key c, connections v !! key = Some c -> exists hist, h !! key = Some hist /\ connFlow key c hist.

(** The credit is the space that is left. *)
Lemma credit_exact key c hist : connFlow key c hist -> vsockPeerCredit c = consumed hist + alloc hist - len (out hist).
Proof.
  intros (_ & _ & H1 & H2 & H3 & H4 & H5 & H6 & _). unfold vsockPeerCredit, in_width in *. rewrite H4, H5, H6, wrap_sub_wrap.
  destruct (Z.eqb_spec (alloc hist) 0); [lia|]. rewrite (wrap_small 32 (len (out hist) - consumed hist)) by width.
  destruct (Z.leb_spec (alloc hist) (len (out hist) - consumed hist)); lia.
Qed.

Lemma flow_same v v' h : sameFlow v v' -> flowOK v h -> flowOK v' h.
Proof.
  intros [_ Hc] H key c' E. destruct (Hc key c' E) as (c & E1 & T & A & P & S). destruct (H key c E1) as (hist & Eh & F).
  exists hist. split; [done|]. destruct F as (F1 & F2 & F3 & F4 & F5 & F6 & F7 & F8 & F9). unfold connFlow. rewrite T, A, P.
  split_and!; try done; try apply F4. destruct S as [S|S]; rewrite S; done.
Qed.

Lemma record_quiet e f v v' h h0 ps : pendingRx v' = pendingRx v ++ ps -> quiet ps ->
  h0 = (match e with
    | Packet hdr _ =>
        if connects hdr v v' then <[keyOf hdr := mkHistory (BufAlloc hdr) 0 [] (length (readers v))]> h
        else if announces hdr v then alter (fun hist => hist <| consumed := f |>) (keyOf hdr) h
        else h
    | _ => h
    end) -> record e f v v' h = h0.
Proof.
  intros Hp Hq ->. unfold record. apply map_imap_same. unfold queued. rewrite Hp, drop_app_length. destruct e; done || constructor.
Qed.

Lemma flow_packet hdr payload f v v' h : honest (Packet hdr payload) f v h -> packetEffect hdr v v' -> flowOK v h ->
  flowOK v' (record (Packet hdr payload) f v v' h).
Proof.
  intros (W1 & W2 & W3 & Hreq & Hann) [(ps & Hp & Hq) [(Ho & c & Hr & Hc)|[Hr Hk]]] H;
    rewrite (record_quiet _ f v v' h _ ps Hp Hq eq_refl); unfold connects.
  - rewrite Ho, Hr, length_app. cbn [length]. rewrite (proj2 (Nat.ltb_lt _ _)) by lia. cbn.
    intros key c' E. rewrite Hc in E. destruct (decide (key = keyOf hdr)) as [->|Hne].
    + rewrite lookup_insert_eq in E. injection E as <-. eexists. split; [apply lookup_insert_eq|].
      unfold connFlow. cbn [alloc consumed out txCnt peerCnt peerAlloc state fst snd keyOf]. rewrite (Hreq Ho).
      change (len (@nil Z)) with 0. unfold in_width in *. split_and!; try done; lia.
    + rewrite lookup_insert_ne in E by done. rewrite lookup_insert_ne by done. by apply H.
  - assert ((length (readers v) <? length (readers v'))%nat = false) as ->.
    { apply Nat.ltb_ge. destruct Hr as [->| ->]; [done|by rewrite length_fmap]. }
    rewrite andb_false_r. intros key c' E. destruct (Hk key c' E) as (c & E1 & T & S & P).
    destruct (H key c E1) as (hist & Eh & F). pose proof F as (F1 & F2 & F3 & F4 & F5 & F6 & F7 & F8 & F9).
    assert (Hst : state c' <> Connecting) by (destruct S as [S|S]; [by rewrite S|done]).
    destruct (announces hdr v) eqn:Ea.
    + destruct (decide (key = keyOf hdr)) as [->|Hne].
      * rewrite decide_True in P by done. destruct P as [P1 P2]. destruct (Hann eq_refl hist Eh) as (A1 & A2 & A3).
        exists (hist <| consumed := f |>). rewrite lookup_alter_eq, Eh. split; [done|]. unfold connFlow.
        change (out (hist <| consumed := f |>)) with (out hist). change (alloc (hist <| consumed := f |>)) with (alloc hist).
        change (consumed (hist <| consumed := f |>)) with f. rewrite T, P1, P2, A2, A3. split_and!; try done; lia.
      * rewrite decide_False in P by naive_solver. destruct P as [P|[P1 P2]]; [done|]. exists hist. rewrite lookup_alter_ne by done.
        split; [done|]. unfold connFlow. rewrite T, P1, P2. split_and!; done || lia.
    + rewrite decide_False in P by naive_solver. destruct P as [P|[P1 P2]]; [done|]. exists hist.
      split; [done|]. unfold connFlow. rewrite T, P1, P2. split_and!; done || lia.
Qed.

(** The data of a round is for the connection of its key. *)
Lemma sends_data id key c data v v' : sends key c data v v' -> in_width 32 key.1 -> in_width 32 key.2 ->
  forall k, concat (dataFor k <$> queued (SendRound id) v v') = if decide (k = key) then data else [].
Proof.
  intros (_ & _ & _ & _ & hdr & Hp & Ho & Hs1 & Hs2) W1 W2 k. unfold queued. rewrite Hp, drop_app_length. cbn.
  rewrite dataFor_data, app_nil_r by (rewrite ?Hs1, ?Hs2; done).
  rewrite Hs1, Hs2, <- surjective_pairing. repeat case_decide; congruence.
Qed.

(** A round that sends data. *)
Lemma flow_send id f v v' h key c data : sends key c data v v' -> flowOK v h -> flowOK v' (record (SendRound id) f v v' h).
Proof.
  intros Hsend H. pose proof Hsend as (E & Es & Hd & Hc & _). destruct (H key c E) as (hist & Eh & F).
  pose proof (credit_exact key c hist F) as Hcr. pose proof F as (F1 & F2 & F3 & F4 & F5 & F6 & F7 & F8 & F9).
  intros k c' E'. rewrite Hc in E'. unfold record. rewrite map_lookup_imap.
  rewrite (sends_data id key c data v v' Hsend F1 F2 k).
  destruct (decide (k = key)) as [->|Hne].
  - rewrite lookup_insert_eq in E'. injection E' as <-. rewrite Eh. eexists. split; [reflexivity|].
    unfold connFlow. cbn [alloc consumed out txCnt peerCnt peerAlloc state set_field].
    rewrite len_app, F6, wrap_add_wrap_l, wrap_add_wrap_r. split_and!; done || lia.
  - rewrite lookup_insert_ne in E' by done. destruct (H k c' E') as (hist' & Eh' & F'). rewrite Eh'. eexists. split; [reflexivity|].
    rewrite app_nil_r. by destruct hist'.
Qed.

(** What a goroutine holds: some bytes, of one read. *)
Definition readersOK (v : V) : Prop :=
  Forall (fun r => match rstate r with Sending rest | Parked rest => 0 < len rest <= 3072 | _ => True end) (readers v).

Lemma readers_wake v : readersOK v -> Forall (fun r => match rstate r with Sending rest | Parked rest => 0 < len rest <= 3072 | _ => True end)
  (wake <$> readers v).
Proof.
  intros H. apply Forall_fmap. eapply Forall_impl; [exact H|]. intros [k c st] Hr. by destruct st.
Qed.

Lemma readers_moves id r st v v' : moves id r st v v' ->
  match st with Sending rest | Parked rest => 0 < len rest <= 3072 | _ => True end -> readersOK v -> readersOK v'.
Proof. intros [_ Hr] Hst H. unfold readersOK. rewrite Hr. by apply Forall_insert. Qed.

(** Events that neither send data nor come from the guest. *)
Lemma record_silent e f v v' h : (forall hdr payload, e <> Packet hdr payload) -> quiet (queued e v v') -> record e f v v' h = h.
Proof. intros He Hq. unfold record. rewrite map_imap_same by done. destruct e; [by edestruct He|done..]. Qed.

Lemma queued_app e v v' ps : (forall n, e <> Deliver n) -> e <> ResetDevice -> pendingRx v' = pendingRx v ++ ps -> queued e v v' = ps.
Proof. intros H1 H2 Hp. unfold queued. rewrite Hp, drop_app_length. by destruct e; [..|edestruct H1|edestruct H2|]. Qed.

Lemma flow_silent e f v v' h : (forall hdr payload, e <> Packet hdr payload) -> (forall n, e <> Deliver n) -> e <> ResetDevice ->
  sameFlow v v' -> flowOK v h -> flowOK v' (record e f v v' h).
Proof.
  intros H1 H2 H3 Hs H. pose proof Hs as [(ps & Hp & Hq) _]. rewrite record_silent; [by apply (flow_same v)|done|].
  by rewrite (queued_app e v v' ps).
Qed.

Lemma closeAll_same v : connections (closeAll v) = connections v /\ pendingRx (closeAll v) = pendingRx v /\ readers (closeAll v) = readers v /\
  closed (closeAll v) = closed v.
Proof.
  unfold closeAll. induction (map_to_list (connections v)) as [|kc l IH]; [done|]. cbn [foldr].
  destruct (closeBackend_same kc.2 (foldr (fun kc => closeBackend kc.2) v l)) as (-> & -> & -> & ->). exact IH.
Qed.

(** What every run keeps, whatever the guest says: a parsed header has 32-bit fields, and a
    read returns at most the buffer of 3072 bytes. *)
Definition wide (e : event) : Prop :=
  match e with
  | Packet hdr _ => in_width 32 (SrcPort hdr) /\ in_width 32 (DstPort hdr) /\ in_width 32 (BufAlloc hdr)
  | ReadReturns _ (Ok data) => len data <= 3072
  | _ => True
  end.

Lemma honest_wide e f v h : honest e f v h -> wide e.
Proof. destruct e as [hdr payload|id [data|u|]|id|id|n| |]; cbn; tauto. Qed.

Definition connsOK (v : V) : Prop :=
  forall key c, connections v !! key = Some c ->
    in_width 32 key.1 /\ in_width 32 key.2 /\ in_width 32 (peerAlloc c) /\ state c <> Connecting.

Lemma flow_conns v h : flowOK v h -> connsOK v.
Proof. intros H key c E. destruct (H key c E) as (hist & _ & F1 & F2 & F3 & _ & _ & _ & _ & F8 & F9). by rewrite F8. Qed.

Lemma conns_same v v' : sameFlow v v' -> connsOK v -> connsOK v'.
Proof.
  intros [_ Hc] H key c' E. destruct (Hc key c' E) as (c & E1 & _ & A & _ & S). destruct (H key c E1) as (H1 & H2 & H3 & H4).
  rewrite A. split_and!; try done. destruct S as [S|S]; by rewrite S.
Qed.

Lemma conns_packet hdr payload v v' : wide (Packet hdr payload) -> packetEffect hdr v v' -> connsOK v -> connsOK v'.
Proof.
  intros (W1 & W2 & W3) [_ [(_ & c & _ & Hc)|[_ Hk]]] H key c' E.
  - rewrite Hc in E. destruct (decide (key = keyOf hdr)) as [->|Hne]; [|rewrite lookup_insert_ne in E by done; by apply H].
    rewrite lookup_insert_eq in E. injection E as <-. done.
  - destruct (Hk key c' E) as (c & E1 & _ & S & P). destruct (H key c E1) as (H1 & H2 & H3 & H4).
    assert (state c' <> Connecting) by (destruct S as [S|S]; [by rewrite S|done]).
    case_decide; [destruct P as [-> _]; done|]. destruct P as [P|[-> _]]; done.
Qed.

Lemma conns_send v v' key c data : sends key c data v v' -> connsOK v -> connsOK v'.
Proof.
  intros (Ec & _ & _ & Hc & _) H k c' E. rewrite Hc in E. destruct (decide (k = key)) as [->|Hne].
  - rewrite lookup_insert_eq in E. injection E as <-. exact (H key c Ec).
  - rewrite lookup_insert_ne in E by done. by apply H.
Qed.

Lemma packet_readers hdr v v' : packetEffect hdr v v' -> readersOK v -> readersOK v'.
Proof.
  intros [_ [(_ & c & Hr & _)|[[Hr|Hr] _]]] H; unfold readersOK; rewrite Hr; [|done|by apply readers_wake].
  apply Forall_app. split; [done|]. by repeat constructor.
Qed.

(** A round of a goroutine, with what it sends. *)
Lemma send_round id v v' : connsOK v -> readersOK v -> happens (SendRound id) v = Some v' ->
  exists r rest, readers v !! id = Some r /\ rstate r = Sending rest /\ 0 < len rest <= 3072 /\
    ((exists c data rest', sends (rkey r) c data v v' /\ rest = data ++ rest' /\
        moves id r (if len rest' =? 0 then Reading else Sending rest') v v') \/
     sameFlow v v' /\ (moves id r (Parked rest) v v' \/ moves id r Returned v v')).
Proof.
  intros H R X. apply send_effect in X as (r & rest & Er & Es & K). pose proof (Forall_lookup_1 _ _ _ _ R Er) as Hr.
  cbv beta in Hr. rewrite Es in Hr. exists r, rest. split_and!; [done|done|lia|lia|].
  destruct K as [(c & data & rest' & Ec & Hk & Hm)|K]; [left|by right]. exists c, data, rest'.
  destruct (H _ c Ec) as (_ & _ & H3 & _). unfold in_width in H3.
  destruct Hk as [Hk Hrest]; [intros ->; change (len (@nil Z)) with 0 in Hr; lia|lia|lia|]. done.
Qed.

Definition wideOK (v : V) : Prop := connsOK v /\ readersOK v.

Lemma wide_step e v v' : wide e -> happens e v = Some v' -> wideOK v -> wideOK v'.
Proof.
  intros Hw X [H R]. destruct e as [hdr payload|id input|id|id|n| |].
  - cbn in X. destruct (handlePacket hdr payload v) as [w| |] eqn:E; [|done..]. injection X as <-. apply packet_effect in E.
    split; [by eapply conns_packet|by eapply packet_readers].
  - apply read_effect in X as (r & _ & _ & Hs & Hm). split; [by eapply conns_same|].
    destruct input as [data|u|]; [|by eapply readers_moves..]. destruct (decide (data = [])) as [->|Hne]; [by subst v'|].
    eapply readers_moves; [exact Hm| |done]. cbn in Hw. destruct data; [done|]. rewrite len_cons in *. pose proof (len_nonneg data). lia.
  - apply send_round in X as (r & rest & Er & Es & Hr & K); [|done..]. destruct K as [(c & data & rest' & Hk & -> & Hm)|[Hs Hm]].
    + split; [by eapply conns_send|]. eapply readers_moves; [exact Hm| |done]. rewrite len_app in Hr.
      destruct (Z.eqb_spec (len rest') 0); [done|]. pose proof (len_nonneg data). pose proof (len_nonneg rest'). lia.
    + split; [by eapply conns_same|]. destruct Hm as [Hm|Hm]; by eapply readers_moves.
  - cbn in X. unfold readerStop in X. destruct (readers v !! id) as [r|] eqn:Er; [|done]. cbn in X.
    destruct (rstate r); try done. destruct (closed v); [|done]. injection X as <-.
    split; [done|]. eapply readers_moves; [by apply (moves_set id r Returned v v)|done|done].
  - injection X as <-. by split.
  - injection X as <-. destruct (closeAll_same v) as (_ & _ & Cr & _).
    split; [intros key c E; cbn in E; by rewrite lookup_empty in E|]. unfold readersOK. cbn. rewrite Cr. by apply readers_wake.
  - cbn in X. unfold Close in X. injection X as <-. destruct (closed v) eqn:Ecl; [done|].
    destruct (closeAll_same (v <| closed := true |>)) as (_ & Cp & Cr & _). split.
    + intros key c E. cbn in E. by rewrite lookup_empty in E.
    + unfold readersOK. cbn. rewrite Cr. by apply readers_wake.
Qed.

Definition systemOK (s : system) : Prop := flowOK (dev s) (histories s) /\ readersOK (dev s).

Lemma system_step s s' : run s s' -> systemOK s -> systemOK s'.
Proof.
  intros [e f v v' h rs Hh X] [H R]. unfold systemOK in *. cbn [dev histories] in *.
  split; [|by apply (wide_step e v v' (honest_wide _ _ _ _ Hh) X); split; [eapply flow_conns|]].
  destruct e as [hdr payload|id input|id|id|n| |].
  - cbn in X. destruct (handlePacket hdr payload v) as [w| |] eqn:E; [|done..]. injection X as <-. apply packet_effect in E.
    by apply flow_packet.
  - apply read_effect in X as (r & _ & _ & Hs & _). by apply flow_silent.
  - apply send_round in X as (r & rest & Er & Es & Hr & K); [|by eapply flow_conns|done].
    destruct K as [(c & data & rest' & Hk & _)|[Hs _]]; [by eapply flow_send|by apply flow_silent].
  - cbn in X. unfold readerStop in X. destruct (readers v !! id) as [r|] eqn:Er; [|done]. cbn in X.
    destruct (rstate r); try done. destruct (closed v); [|done]. injection X as <-.
    apply flow_silent; try done. by apply sameFlow_refl.
  - injection X as <-. by rewrite record_silent by (done || constructor).
  - injection X as <-. rewrite record_silent by (done || constructor). intros key c E. cbn in E. by rewrite lookup_empty in E.
  - cbn in X. unfold Close in X. injection X as <-. destruct (closed v) eqn:Ecl.
    + apply flow_silent; try done. by apply sameFlow_refl.
    + intros key c E. cbn in E. by rewrite lookup_empty in E.
Qed.

Lemma started_ok cid b s : rtc run (started cid b) s -> systemOK s.
Proof.
  intros X. apply (rtc_preserves _ systemOK _ _ system_step) in X; [done|]. split; [|constructor].
  intros key c E. cbn in E. by rewrite lookup_empty in E.
Qed.

(** C11: whatever the interleaving of packets, goroutines, delivery and resets, if the guest
    counts what it has consumed and keeps its buffer size, the data sent on a connection
    never exceeds what the guest has reported as consumed by more than its buffer holds, and
    the credit computed from the 32-bit counters is exactly the space that is left, also
    after they have wrapped around. *)
Theorem vsock_flow_control cid b s key c :
  rtc run (started cid b) s -> connections (dev s) !! key = Some c ->
  exists hist, histories s !! key = Some hist /\ consumed hist <= len (out hist) <= consumed hist + alloc hist /\
    txCnt c = wrap 32 (len (out hist)) /\ vsockPeerCredit c = consumed hist + alloc hist - len (out hist).
Proof.
  intros X E. destruct (started_ok cid b s X) as [H _]. destruct (H key c E) as (hist & Eh & F). exists hist.
  pose proof (credit_exact key c hist F). destruct F as (_ & _ & _ & F4 & F5 & F6 & _). split_and!; done || lia.
Qed.

(** * Streams *)

(** Ports are not reused while a goroutine of an earlier connection is still there. *)
Definition exclusive (e : event) (v : V) : Prop :=
  match e with
  | Packet hdr _ => Op hdr = vsockOpRequest -> Forall (fun r => rkey r = keyOf hdr -> rstate r = Returned) (readers v)
  | _ => True
  end.

Inductive runExclusive : system -> system -> Prop :=
| runExclusive_event e f v v' h rs : exclusive e v -> wide e -> happens e v = Some v' ->
    runExclusive (mkSystem v h rs) (mkSystem v' (record e f v v' h) (recordReads e v v' rs)).

(** What was read is what was sent and what the goroutine holds. *)
Definition holds (st : readerState) (o b : bytes) : Prop :=
  match st with
  | Reading => b = o
  | Sending rest | Parked rest => b = o ++ rest
  | Returned => o `prefix_of` b
  end.

Lemma holds_returned st o b : holds st o b -> holds Returned o b.
Proof. destruct st; cbn; intros; subst; try done; by eexists. Qed.

Definition streamOK (v : V) (h : gmap (Z * Z) history) (rs : list bytes) : Prop :=
  length rs = length (readers v) /\
  (forall key c, connections v !! key = Some c -> exists hist r b, h !! key = Some hist /\
    readers v !! owner hist = Some r /\ rkey r = key /\ rs !! owner hist = Some b /\ holds (rstate r) (out hist) b) /\
  (forall key c hist id r, connections v !! key = Some c -> h !! key = Some hist -> readers v !! id = Some r -> rkey r = key ->
    rstate r <> Returned -> owner hist = id).

(** Histories that differ at most in what the guest reported. *)
Definition sameStreams (h h' : gmap (Z * Z) history) : Prop :=
  forall key, (fun hist => (out hist, owner hist)) <$> h' !! key = (fun hist => (out hist, owner hist)) <$> h !! key.

(** Goroutines that hold what they held, or have returned. *)
Definition quieter (v v' : V) : Prop :=
  length (readers v') = length (readers v) /\
  forall id r', readers v' !! id = Some r' -> exists r, readers v !! id = Some r /\ rkey r' = rkey r /\
    (rstate r' <> Returned -> rstate r <> Returned) /\ forall o b, holds (rstate r) o b -> holds (rstate r') o b.

Lemma stream_keep v v' h h' rs : (forall key, is_Some (connections v' !! key) -> is_Some (connections v !! key)) -> quieter v v' ->
  sameStreams h h' -> streamOK v h rs -> streamOK v' h' rs.
Proof.
  intros Hc [Hl Hr] Hh (S1 & S2 & S3).
  assert (Hh' : forall key hist', h' !! key = Some hist' -> exists hist, h !! key = Some hist /\ out hist' = out hist /\ owner hist' = owner hist).
  { intros key hist' E. specialize (Hh key). rewrite E in Hh. cbn in Hh. destruct (h !! key) as [hist|]; [|done].
    injection Hh as E1 E2. by exists hist. }
  split_and!; [congruence|..].
  - intros key c' E. destruct (Hc key ltac:(by eexists)) as [c Ec]. destruct (S2 key c Ec) as (hist & r & b & Eh & Er & Ek & Eb & Hb).
    pose proof (Hh key) as Hk. rewrite Eh in Hk. destruct (h' !! key) as [hist'|]; [|done]. injection Hk as E1 E2.
    destruct (lookup_lt_is_Some_2 (readers v') (owner hist)) as [r' Er']; [rewrite Hl; by eapply lookup_lt_Some|].
    destruct (Hr _ _ Er') as (r0 & Er0 & Kr & _ & Hold). rewrite Er in Er0. injection Er0 as <-.
    exists hist', r', b. rewrite E1, E2. split_and!; try done; [congruence|]. by apply Hold.
  - intros key c' hist' id r' E Eh' Er' Ek Hn. destruct (Hc key ltac:(by eexists)) as [c Ec].
    destruct (Hh' _ _ Eh') as (hist & Eh & _ & Eo). destruct (Hr _ _ Er') as (r & Er & Kr & Kn & _).
    rewrite Eo. apply (S3 key c hist id r); try done; [congruence|]. by apply Kn.
Qed.

Lemma quieter_same v v' : readers v' = readers v -> quieter v v'.
Proof. intros E. split; [by rewrite E|]. intros id r' Er. rewrite E in Er. by exists r'. Qed.

Lemma quieter_wake v v' : readers v' = wake <$> readers v -> quieter v v'.
Proof.
  intros E. split; [by rewrite E, length_fmap|]. intros id r' Er. rewrite E, list_lookup_fmap in Er.
  destruct (readers v !! id) as [[k c st]|]; [|done]. injection Er as <-. eexists. split; [done|]. by destruct st.
Qed.

Lemma quieter_moves id r st v v' : moves id r st v v' -> (st = Returned \/ rstate r <> Returned /\ forall o b, holds (rstate r) o b -> holds st o b) ->
  quieter v v'.
Proof.
  intros [Er Hr] Hst. split; [by rewrite Hr, length_insert|]. intros j r' Ej. rewrite Hr in Ej.
  destruct (decide (j = id)) as [->|Hne].
  - rewrite list_lookup_insert_eq in Ej by (by eapply lookup_lt_Some). injection Ej as <-. exists r. split_and!; [done|done|..].
    + cbn. destruct Hst as [->|[H _]]; done.
    + cbn. destruct Hst as [->|[_ H]]; [intros o b; apply holds_returned|done].
  - rewrite list_lookup_insert_ne in Ej by done. by exists r'.
Qed.

Lemma sameStreams_refl h : sameStreams h h.
Proof. by intros key. Qed.

Lemma sameFlow_keys v v' key : sameFlow v v' -> is_Some (connections v' !! key) -> is_Some (connections v !! key).
Proof. intros [_ H] [c' E]. destruct (H key c' E) as (c & Ec & _). by exists c. Qed.

(** A new connection: its goroutine has read nothing, and no other one is left for its key. *)
Lemma stream_connect hdr c f v v' h rs ps payload : Op hdr = vsockOpRequest -> exclusive (Packet hdr payload) v ->
  pendingRx v' = pendingRx v ++ ps -> quiet ps -> readers v' = readers v ++ [mkReader (keyOf hdr) c Reading] ->
  connections v' = <[keyOf hdr := mkConn Connected (BufAlloc hdr) (FwdCnt hdr) 0 0 false (Some c)]> (connections v) ->
  streamOK v h rs -> streamOK v' (record (Packet hdr payload) f v v' h) (recordReads (Packet hdr payload) v v' rs).
Proof.
  intros Ho Hex Hp Hq Hr Hc (S1 & S2 & S3). specialize (Hex Ho). rewrite (record_quiet _ f v v' h _ ps Hp Hq eq_refl).
  assert (Hcon : connects hdr v v' = true).
  { unfold connects. rewrite Ho, Hr, length_app. cbn [length]. by rewrite (proj2 (Nat.ltb_lt _ _)) by lia. }
  cbn [recordReads]. rewrite Hcon. cbv iota. split_and!; [rewrite Hr, !length_app; cbn; lia|..].
  - intros key c' E. rewrite Hc in E. destruct (decide (key = keyOf hdr)) as [->|Hne].
    + eexists _, _, []. rewrite lookup_insert_eq. split; [reflexivity|]. cbn [owner out]. rewrite Hr, list_lookup_middle by done.
      split; [reflexivity|]. split; [done|]. split; [|done]. by rewrite list_lookup_middle by done.
    + rewrite lookup_insert_ne in E by done. destruct (S2 key c' E) as (hist & r & b & Eh & Er & Ek & Eb & Hb).
      exists hist, r, b. rewrite lookup_insert_ne, Hr by done. rewrite !lookup_app_l by (by eapply lookup_lt_Some). done.
  - intros key c' hist id r E Eh Er Ek Hn. rewrite Hc in E. rewrite Hr in Er. apply lookup_app_Some in Er as [Er|[Hid Er]].
    + destruct (decide (key = keyOf hdr)) as [->|Hne].
      * exfalso. apply Hn. rewrite Forall_lookup in Hex. by apply (Hex id r).
      * rewrite lookup_insert_ne in E by done. rewrite lookup_insert_ne in Eh by done. by apply (S3 key c' hist id r).
    + destruct (id - length (readers v))%nat as [|k] eqn:Ei; [|done]. injection Er as <-. cbn in Ek. subst key.
      rewrite lookup_insert_eq in Eh. injection Eh as <-. cbn. lia.
Qed.

(** A read that returns data. *)
Lemma stream_read id r data v v' h rs : rstate r = Reading -> moves id r (Sending data) v v' -> sameFlow v v' -> streamOK v h rs ->
  streamOK v' h (alter (fun b => b ++ data) id rs).
Proof.
  intros Hs [Er Hr] Hf (S1 & S2 & S3). split_and!; [by rewrite length_alter, Hr, length_insert|..].
  - intros key c' E. destruct (sameFlow_keys v v' key Hf ltac:(by eexists)) as [c Ec].
    destruct (S2 key c Ec) as (hist & r0 & b & Eh & Er0 & Ek & Eb & Hb). rewrite Hr.
    destruct (decide (owner hist = id)) as [Eo|Hne].
    + rewrite Eo in Er0, Eb. rewrite Er in Er0. injection Er0 as <-. rewrite Hs in Hb. cbn in Hb. subst b.
      exists hist, (mkReader (rkey r) (rconn r) (Sending data)), (out hist ++ data).
      rewrite Eo, list_lookup_insert_eq, list_lookup_alter_eq, Eb by (by eapply lookup_lt_Some). done.
    + exists hist, r0, b. rewrite list_lookup_insert_ne, list_lookup_alter_ne by done. done.
  - intros key c' hist j r' E Eh Ej Ek Hn. destruct (sameFlow_keys v v' key Hf ltac:(by eexists)) as [c Ec].
    rewrite Hr in Ej. destruct (decide (j = id)) as [->|Hne].
    + rewrite list_lookup_insert_eq in Ej by (by eapply lookup_lt_Some). injection Ej as <-.
      apply (S3 key c hist id r); try done. by rewrite Hs.
    + rewrite list_lookup_insert_ne in Ej by done. by apply (S3 key c hist j r').
Qed.

(** A round that sends: the goroutine is the one of the connection. *)
Lemma stream_send id r c data rest' v v' h h' rs : rstate r = Sending (data ++ rest') ->
  moves id r (if len rest' =? 0 then Reading else Sending rest') v v' -> connections v !! rkey r = Some c ->
  (forall key, is_Some (connections v' !! key) -> is_Some (connections v !! key)) ->
  (forall key, h' !! key = (fun hist => if decide (key = rkey r) then hist <| out := out hist ++ data |> else hist) <$> h !! key) ->
  streamOK v h rs -> streamOK v' h' rs.
Proof.
  intros Hs [Er Hr] Ec Hc Hh (S1 & S2 & S3). split_and!; [by rewrite Hr, length_insert|..].
  - intros key c' E. destruct (Hc key ltac:(by eexists)) as [c0 Ec0].
    destruct (S2 key c0 Ec0) as (hist & r0 & b & Eh & Er0 & Ek & Eb & Hb). rewrite Hh, Eh, Hr. cbn [fmap option_fmap option_map].
    destruct (decide (key = rkey r)) as [->|Hne].
    + assert (Eo : owner hist = id) by (apply (S3 (rkey r) c hist id r); try done; by rewrite Hs).
      rewrite Eo in Er0, Eb. rewrite Er in Er0. injection Er0 as <-. rewrite Hs in Hb. cbn in Hb.
      eexists _, _, b. split; [reflexivity|]. cbn [owner out set_field]. rewrite Eo, list_lookup_insert_eq by (by eapply lookup_lt_Some).
      split; [reflexivity|]. split; [done|]. split; [done|]. cbn [rstate]. rewrite app_assoc in Hb.
      destruct (Z.eqb_spec (len rest') 0) as [E0|]; [|exact Hb]. apply len_0_nil in E0. rewrite E0, app_nil_r in Hb. exact Hb.
    + assert (owner hist <> id) by (intros E1; rewrite E1, Er in Er0; injection Er0 as <-; congruence).
      exists hist, r0, b. by rewrite list_lookup_insert_ne by done.
  - intros key c' hist' j r' E Eh Ej Ek Hn. destruct (Hc key ltac:(by eexists)) as [c0 Ec0].
    rewrite Hh in Eh. destruct (h !! key) as [hist|] eqn:Eh0; [|done]. cbn in Eh. injection Eh as <-.
    assert (owner hist = j); [|by case_decide].
    rewrite Hr in Ej. destruct (decide (j = id)) as [->|Hne].
    + rewrite list_lookup_insert_eq in Ej by (by eapply lookup_lt_Some). injection Ej as <-.
      apply (S3 key c0 hist id r); try done. by rewrite Hs.
    + rewrite list_lookup_insert_ne in Ej by done. by apply (S3 key c0 hist j r').
Qed.

(** A packet that makes no connection. *)
Lemma stream_packet hdr payload f v v' h rs : packetEffect hdr v v' -> exclusive (Packet hdr payload) v -> streamOK v h rs ->
  streamOK v' (record (Packet hdr payload) f v v' h) (recordReads (Packet hdr payload) v v' rs).
Proof.
  intros [(ps & Hp & Hq) [(Ho & c & Hr & Hc)|[Hr Hk]]] Hex H; [by eapply stream_connect|].
  assert (Hcon : connects hdr v v' = false).
  { unfold connects. rewrite andb_comm. apply andb_false_intro1, Nat.ltb_ge. destruct Hr as [->| ->]; [done|by rewrite length_fmap]. }
  rewrite (record_quiet _ f v v' h _ ps Hp Hq eq_refl). cbn [recordReads]. rewrite Hcon. cbv iota.
  apply (stream_keep v v' h); [..|done].
  - intros key [c' E]. destruct (Hk key c' E) as (c & Ec & _). by exists c.
  - destruct Hr as [Hr|Hr]; [by apply quieter_same|by apply quieter_wake].
  - destruct (announces hdr v); [|apply sameStreams_refl]. intros key. destruct (decide (key = keyOf hdr)) as [->|Hne].
    + rewrite lookup_alter_eq. by destruct (h !! keyOf hdr).
    + by rewrite lookup_alter_ne.
Qed.

Lemma alter_nil_app (rs : list bytes) id : alter (fun b => b ++ []) id rs = rs.
Proof. apply list_alter_id. intros b. apply app_nil_r. Qed.

(** An event that sends no data and reads none. *)
Lemma stream_silent e f v v' h rs : (forall hdr payload, e <> Packet hdr payload) -> quiet (queued e v v') ->
  (forall key, is_Some (connections v' !! key) -> is_Some (connections v !! key)) -> quieter v v' ->
  streamOK v h rs -> streamOK v' (record e f v v' h) rs.
Proof. intros He Hq Hc Hr H. rewrite record_silent by done. apply (stream_keep v v' h h); [done|done|apply sameStreams_refl|done]. Qed.

Lemma silent_flow e v v' : (forall n, e <> Deliver n) -> e <> ResetDevice -> sameFlow v v' -> quiet (queued e v v').
Proof. intros H1 H2 [(ps & Hp & Hq) _]. by rewrite (queued_app e v v' ps). Qed.

Lemma stream_round id f v v' h rs : wideOK v -> happens (SendRound id) v = Some v' -> streamOK v h rs ->
  streamOK v' (record (SendRound id) f v v' h) rs.
Proof.
  intros [H R] X S. apply send_round in X as (r & rest & Er & Es & _ & K); [|done..].
  destruct K as [(c & data & rest' & Hk & -> & Hm)|[Hs Hm]].
  - pose proof Hk as (Ec & _ & _ & Hc & _). destruct (H _ c Ec) as (F1 & F2 & _).
    apply (stream_send id r c data rest' v v' h _ rs Es Hm Ec); [|..|done].
    + rewrite Hc. intros key [c' E]. destruct (decide (key = rkey r)) as [->|Hne]; [by exists c|].
      rewrite lookup_insert_ne in E by done. by exists c'.
    + intros key. unfold record. rewrite map_lookup_imap, (sends_data id _ c data v v' Hk F1 F2 key).
      destruct (h !! key) as [hist'|]; [|done]. cbn. case_decide; [done|]. rewrite app_nil_r. by destruct hist'.
  - apply stream_silent; try done; [by apply silent_flow|intros key; by apply sameFlow_keys|].
    destruct Hm as [Hm|Hm]; (eapply quieter_moves; [exact Hm|]); [right|by left]. rewrite Es. done.
Qed.

Lemma stream_returns id input f v v' h rs : happens (ReadReturns id input) v = Some v' -> streamOK v h rs ->
  streamOK v' (record (ReadReturns id input) f v v' h) (recordReads (ReadReturns id input) v v' rs).
Proof.
  intros X S. apply read_effect in X as (r & Es & Er & Hs & Hm). pose proof (silent_flow (ReadReturns id input) v v' ltac:(done) ltac:(done) Hs) as Hq.
  destruct input as [data|u|]; cbn [recordReads].
  1: { rewrite record_silent by done. destruct (decide (data = [])) as [->|Hne]; [subst v'; by rewrite alter_nil_app|by eapply stream_read]. }
  all: apply stream_silent; try done; [intros key; by apply sameFlow_keys|eapply quieter_moves; [exact Hm|by left]].
Qed.

Definition exclusiveOK (s : system) : Prop := wideOK (dev s) /\ streamOK (dev s) (histories s) (reads s).

Lemma exclusive_step s s' : runExclusive s s' -> exclusiveOK s -> exclusiveOK s'.
Proof.
  intros [e f v v' h rs Hex Hw X] [K S]. unfold exclusiveOK in *. cbn [dev histories reads] in *.
  split; [by apply (wide_step e v)|]. destruct e as [hdr payload|id input|id|id|n| |].
  - cbn in X. destruct (handlePacket hdr payload v) as [w| |] eqn:E; [|done..]. injection X as <-. apply packet_effect in E.
    by apply stream_packet.
  - by apply stream_returns.
  - by apply stream_round.
  - cbn in X. unfold readerStop in X. destruct (readers v !! id) as [r|] eqn:Er; [|done]. cbn in X.
    destruct (rstate r); try done. destruct (closed v); [|done]. injection X as <-.
    apply (stream_silent (StopCheck id)); try done; [by apply silent_flow, sameFlow_refl|].
    eapply quieter_moves; [by apply (moves_set id r Returned v v)|by left].
  - injection X as <-. apply (stream_silent (Deliver n)); try done; [constructor|by apply quieter_same].
  - injection X as <-. destruct (closeAll_same v) as (_ & _ & Cr & _).
    apply (stream_silent ResetDevice); try done; [constructor| |apply quieter_wake; cbn; by rewrite Cr].
    intros key [c E]. cbn in E. by rewrite lookup_empty in E.
  - cbn in X. injection X as <-. destruct (closeAll_same (v <| closed := true |>)) as (_ & Cp & Cr & _).
    assert (Hp : pendingRx (Close v) = pendingRx v) by (unfold Close; destruct (closed v); [done|exact Cp]).
    apply (stream_silent CloseDevice); try done.
    + rewrite (queued_app _ v _ []); [constructor|done|done|by rewrite app_nil_r].
    + intros key. unfold Close. destruct (closed v); [done|]. intros [c E]. cbn in E. by rewrite lookup_empty in E.
    + unfold Close. destruct (closed v); [by apply quieter_same|]. apply quieter_wake. cbn. by rewrite Cr.
Qed.

Lemma exclusive_ok cid b s : rtc runExclusive (started cid b) s -> exclusiveOK s.
Proof.
  intros X. apply (rtc_preserves _ exclusiveOK _ _ exclusive_step) in X; [done|].
  split; [split; [|constructor]; intros key c E; cbn in E; by rewrite lookup_empty in E|].
  split_and!; [done|..]; intros key c; [|intros hist id r]; cbn; by rewrite lookup_empty.
Qed.

(** C26: whatever the guest says about its buffer and its counters, as long as a guest port
    is not connected again while the goroutine of an earlier connection of the same ports is
    still there, the data packets queued for a connection are what its goroutine has read
    from the backend, in order and without a gap; what is missing is what the goroutine still
    holds, or, when it has returned, an end of what it read.  Header fields have the 32 bits
    they are parsed from, and a read returns at most the 3072 bytes of its buffer. *)
Theorem vsock_streams cid b s key c :
  rtc runExclusive (started cid b) s -> connections (dev s) !! key = Some c ->
  exists hist r got, histories s !! key = Some hist /\ readers (dev s) !! owner hist = Some r /\ rkey r = key /\
    reads s !! owner hist = Some got /\
    match rstate r with
    | Reading => got = out hist
    | Sending rest | Parked rest => got = out hist ++ rest
    | Returned => out hist `prefix_of` got
    end.
Proof. intros X E. destruct (exclusive_ok cid b s X) as [_ (_ & S2 & _)]. exact (S2 key c E). Qed.
End steps.

(** * Goroutines left behind *)

Section parked.
Context {B C : Type} `{VB : VsockBackend B C}.

(** A goroutine that waits for space is not woken when its connection goes. *)
Theorem reset_wakes_none hdr (v : Vsock B C) id r rest :
  readers v !! id = Some r -> rstate r = Parked rest -> rkey r = keyOf hdr -> is_Some (connections v !! keyOf hdr) ->
  (connections (handleResetLocked hdr v) !! rkey r = None /\ readers (handleResetLocked hdr v) !! id = Some r) /\
  (connections (handleShutdownLocked hdr v) !! rkey r = None /\ readers (handleShutdownLocked hdr v) !! id = Some r).
Proof.
  intros Er _ Hk [conn E]. unfold handleResetLocked, handleShutdownLocked. rewrite E, Hk.
  destruct (closeBackend_same conn v) as (_ & _ & Hr & _). cbn. by rewrite !lookup_delete_eq, Hr.
Qed.
End parked.

(** * Runs *)

(** A backend that numbers its connections. *)
#[export] Instance countingBackend : VsockBackend nat nat := {|
  Connect _ n := (S n, Ok n);
  WriteConn _ _ n := (n, Ok tt);
  CloseConn _ n := n
|}.

Section runs.
Local Abbreviation S := (system (B := nat) (C := nat)).

Definition after (e : event) (f : Z) (v : Vsock nat nat) (s : S) : S :=
  mkSystem v (record e f (dev s) v (histories s)) (recordReads e (dev s) v (reads s)).

(** The events of a run with what the guest reports at each. *)
Fixpoint runEvents (es : list (event * Z)) (s : S) : option S :=
  match es with
  | [] => Some s
  | (e, f) :: es => v ← happens e (dev s); runEvents es (after e f v s)
  end.

Fixpoint allowed (P : event -> Z -> S -> Prop) (es : list (event * Z)) (s : S) : Prop :=
  match es with
  | [] => True
  | (e, f) :: es => P e f s /\ match happens e (dev s) with Some v => allowed P es (after e f v s) | None => True end
  end.

Definition isHonest (e : event) (f : Z) (s : S) : Prop := honest e f (dev s) (histories s).
Definition isExclusive (e : event) (f : Z) (s : S) : Prop := exclusive e (dev s) /\ wide e.

Lemma run_allowed (R : S -> S -> Prop) P :
  (forall e f s v, P e f s -> happens e (dev s) = Some v -> R s (after e f v s)) ->
  forall es s s', allowed P es s -> runEvents es s = Some s' -> rtc R s s'.
Proof.
  intros H. induction es as [|[e f] es IH]; intros s s'; cbn; [by intros _ [= <-]|]. intros [Hp Hes] X.
  destruct (happens e (dev s)) as [v|] eqn:E; [|done]. eapply rtc_l; [by apply H|]. by apply IH.
Qed.

Lemma run_honest es s s' : allowed isHonest es s -> runEvents es s = Some s' -> rtc run s s'.
Proof. apply run_allowed. intros e f [v h rs] v' Hh E. by constructor. Qed.

Lemma run_exclusive es s s' : allowed isExclusive es s -> runEvents es s = Some s' -> rtc runExclusive s s'.
Proof. apply run_allowed. intros e f [v h rs] v' [Hx Hh] E. by constructor. Qed.
End runs.

(** A packet without data from port 1024 of the guest to port 80 of the host. *)
Definition control (op bufAlloc fwdCnt : Z) : event :=
  Packet (mkHeader 3 VSockCIDHost 1024 80 0 vsockTypeStream op 0 bufAlloc fwdCnt) [].

(** A guest with room for four bytes is sent six; the goroutine parks in between. *)
Definition slowGuest : list (event * Z) :=
  [(control vsockOpRequest 4 0, 0); (ReadReturns 0 (Ok [1; 2; 3; 4; 5; 6]), 0); (SendRound 0, 0); (SendRound 0, 0);
   (control vsockOpCreditUpdate 4 3, 3); (SendRound 0, 0)].

(** A goroutine has read three bytes when the guest resets the connection and connects again
    from the same port. *)
Definition reusedPort : list (event * Z) :=
  [(control vsockOpRequest 4 0, 0); (ReadReturns 0 (Ok [1; 2; 3]), 0); (control vsockOpRST 0 0, 0);
   (control vsockOpRequest 4 0, 0); (SendRound 0, 0); (ReadReturns 0 (Err tt), 0)].

Definition startedSample : system (B := nat) (C := nat) := started 3 (Some 0%nat).

(** Checks an evaluated run. *)
Ltac check_run :=
  repeat match goal with |- _ /\ _ => split end; try done; try (intros _; by constructor);
  intros ? ? Ex; try discriminate Ex; injection Ex as <-; repeat match goal with |- _ /\ _ => split end; done.

Lemma slowGuest_exclusive : allowed isExclusive slowGuest startedSample.
Proof. vm_compute. check_run. Qed.

Lemma slowGuest_honest : allowed isHonest slowGuest startedSample.
Proof. vm_compute. check_run. Qed.

(** A guest that reuses a port at once is sent data of the old connection on the new one: the
    goroutine of connection 0 finds connection 1 under its key, sends what it has read there,
    and closes it at its end of file, though the goroutine of connection 1 has read nothing
    yet. *)
Theorem stale_reader_injects : exists s conn hist,
  rtc run startedSample s /\ connections (dev s) !! (80, 1024) = Some conn /\ cbackend conn = Some 1%nat /\ state conn = Closing /\
  histories s !! (80, 1024) = Some hist /\ owner hist = 1%nat /\ out hist = [1; 2; 3] /\ reads s = [[1; 2; 3]; []].
Proof.
  destruct (runEvents reusedPort startedSample) as [s|] eqn:E; [|by vm_compute in E]. exists s.
  assert (X : rtc run startedSample s) by (apply (run_honest reusedPort); [vm_compute; check_run|done]).
  vm_compute in E. injection E as <-. eexists _, _. by split_and!.
Qed.

Lemma vsock_flow_control_witness : exists s c, rtc run startedSample s /\ connections (dev s) !! (80, 1024) = Some c /\
  exists hist, histories s !! (80, 1024) = Some hist /\ consumed hist <= len (out hist) <= consumed hist + alloc hist /\
    txCnt c = wrap 32 (len (out hist)) /\ vsockPeerCredit c = consumed hist + alloc hist - len (out hist).
Proof.
  assert (X : exists s c, rtc run startedSample s /\ connections (dev s) !! (80, 1024) = Some c).
  { eexists _, _. split; [apply (run_honest slowGuest); [exact slowGuest_honest|vm_compute; reflexivity]|vm_compute; reflexivity]. }
  destruct X as (s & c & X & E). exists s, c. split_and!; [exact X|exact E|].
  exact (vsock_flow_control 3 (Some 0%nat) s (80, 1024) c X E).
Defined.

Lemma vsock_streams_witness : exists s, rtc runExclusive startedSample s /\ exists hist r got,
    histories s !! (80, 1024) = Some hist /\ readers (dev s) !! owner hist = Some r /\ rkey r = (80, 1024) /\
    reads s !! owner hist = Some got /\
    match rstate r with
    | Reading => got = out hist
    | Sending rest | Parked rest => got = out hist ++ rest
    | Returned => out hist `prefix_of` got
    end.
Proof.
  assert (X : exists s c, rtc runExclusive startedSample s /\ connections (dev s) !! (80, 1024) = Some c).
  { eexists _, _. split; [apply (run_exclusive slowGuest); [exact slowGuest_exclusive|vm_compute; reflexivity]|vm_compute; reflexivity]. }
  destruct X as (s & c & X & E). exists s. split; [exact X|].
  exact (vsock_streams 3 (Some 0%nat) s (80, 1024) c X E).
Defined.
