(* ===== verification/VsockQueues.v ===== *)
(** The socket device and its queues in guest memory:
    [src/internal/core/virtio/vsock.go], [processTXLocked] and [processRXLocked].

    [vsock_notified]: a notification of the transmit queue hands the packets the guest has
    put there to the handlers, in order, and stores the pending packets in the buffers the
    guest has made available for them; every chain is used once, and guest memory changes
    nowhere else. *)

From stdpp Require Import gmap.
From S2P Require Import Prelude GuestMemory Virtqueue VirtioDevice Vsock.

(** * Specification *)

(** The connections after the packets [ps]. *)
Fixpoint takePackets {B C} `{VB : VsockBackend B C} (ps : list (vsockHeader * bytes)) (v : Vsock B C) : option (Vsock B C) :=
  match ps with
  | [] => Some v
  | (hdr, payload) :: ps =>
      match handlePacket hdr payload v with Ok v => takePackets ps v | _ => None end
  end.

(** The bytes of a packet; what follows the payload is ignored. *)
Definition wire (p : vsockHeader * bytes * bytes) : bytes := encodeVsockHeader p.1.1 ++ p.1.2 ++ p.2.

(** The fields of a header have their width, its length is that of the payload. *)
Definition packetOk (p : vsockHeader * bytes * bytes) : Prop :=
  let hdr := p.1.1 in
  in_width 64 (SrcCID hdr) /\ in_width 64 (DstCID hdr) /\ in_width 32 (SrcPort hdr) /\ in_width 32 (DstPort hdr) /\
  in_width 16 (Type_ hdr) /\ in_width 16 (Op hdr) /\ in_width 32 (Flags hdr) /\ in_width 32 (BufAlloc hdr) /\
  in_width 32 (FwdCnt hdr) /\ Len hdr = len p.1.2 /\ len (wire p) < 2 ^ 32.

(** Memory after packets have been stored in the buffers of chains. *)
Fixpoint storeAll (f : Z -> option Z) (l : list (list (Z * Z) * bytes)) : Z -> option Z :=
  match l with
  | [] => f
  | (segs, packet) :: l => storeAll (scatterAll f segs packet) l
  end.

(** * Memory *)

Lemma scatterAll_agree (P : Z -> Prop) segs : forall f g d,
  (forall x, P x -> g x = f x) -> forall x, P x -> scatterAll g segs d x = scatterAll f segs d x.
Proof.
  induction segs as [|[a n] segs IH]; intros f g d H; cbn [scatterAll]; [done|]. apply IH. by apply scatter_agree.
Qed.

Lemma scatterAll_other segs : Forall (fun s => 0 <= s.2) segs -> forall f d x, ~ inRanges segs x -> scatterAll f segs d x = f x.
Proof.
  induction 1 as [|[a n] segs Hn _ IH]; intros f d x Hx; cbn [scatterAll]; [done|]. cbn in Hn. unfold inRanges in *.
  rewrite Exists_cons in Hx. rewrite IH by auto. unfold scatter. rewrite len_take.
  destruct (Z.leb_spec a x), (Z.ltb_spec x (a + Z.min (Z.of_nat (Z.to_nat n)) (len d))); try done.
  exfalso. apply Hx. left. cbn. lia.
Qed.

Lemma gather_shorter (f : Z -> option Z) a n k : is_Some (gather f a n) -> k <= n -> is_Some (gather f a k).
Proof. rewrite !gather_is_Some. intros H Hk x Hx. apply H. lia. Qed.

Lemma scatterAll_dom segs : forall f d, Forall (fun s => 0 <= s.2) segs -> mapped f segs ->
  forall x, is_Some (scatterAll f segs d x) <-> is_Some (f x).
Proof.
  induction segs as [|[a n] segs IH]; intros f d Hn Hm x; cbn [scatterAll]; [done|].
  apply Forall_cons in Hn as [Hn Hs]. apply Forall_cons in Hm as [Hg Hm]. cbn in Hn, Hg.
  assert (Hd : forall y, is_Some (scatter f a (take (Z.to_nat n) d) y) <-> is_Some (f y)).
  { intros y. apply scatter_dom. eapply gather_shorter; [exact Hg|]. rewrite len_take. lia. }
  rewrite IH; [apply Hd|done|]. by eapply mapped_dom.
Qed.

Lemma storeAll_agree (P : Z -> Prop) l : forall f g,
  (forall x, P x -> g x = f x) -> forall x, P x -> storeAll g l x = storeAll f l x.
Proof. induction l as [|[s p] l IH]; intros f g H; cbn [storeAll]; [done|]. apply IH. by apply scatterAll_agree. Qed.

Lemma storeAll_other l : Forall (fun sp => Forall (fun s => 0 <= s.2) sp.1) l -> forall f x,
  ~ inRanges (concat l.*1) x -> storeAll f l x = f x.
Proof.
  induction 1 as [|[s p] l Hs _ IH]; intros f x Hx; cbn [storeAll]; [done|]. cbn in Hx, Hs. unfold inRanges in *.
  rewrite Exists_app in Hx. rewrite IH by auto. apply scatterAll_other; auto.
Qed.

Lemma inRanges_concat (l k : list (list (Z * Z))) x : l `prefix_of` k -> inRanges (concat l) x -> inRanges (concat k) x.
Proof. intros [j ->] H. unfold inRanges. rewrite concat_app, Exists_app. by left. Qed.

Section queues.
Context {G I B C : Type} `{GM : GuestMemory G, IC : IRQController I, VB : VsockBackend B C}.
Context `{GL : !GuestMemoryLaws G, IL : !IRQLaws I}.
Local Abbreviation D := (@VsockDevice G I B C).

(** * Packets of the guest *)

(** The chain at [head] holds the packet [p]. *)
Definition carries (m : G) (q : queue) (head : Z) (p : vsockHeader * bytes * bytes) : Prop :=
  packetOk p /\ chainHas m q head (wire p).

Lemma readPacketFrom_ok (c : D) m q n i l bs out data :
  mem c = Some m -> memory_ok m -> walk m q i l bs -> (length l <= n)%nat -> Forall bufferOk bs ->
  gatherAll (byteAt m) (readable bs) = Some data -> readChainFrom n q i out c = (c, Ok (out ++ data)).
Proof.
  intros Hm Hok Hw. revert n out data.
  induction Hw as [i d Hd Hf|i d l bs Hd Hf _ IH]; intros [|n] out data Hn Hb Hg;
    cbn [length] in Hn; try lia; cbn [readChainFrom]; inversion Hb as [|?? Hb1 Hb2]; subst;
    rewrite (proc_bind_run _ _ _ _ _ (readDescriptor_ok c m q i d Hm Hok Hd));
    destruct (readBuffer_ok c m d _ out data Hm Hok Hb1 Hg) as (chunk & rest & -> & Hr & Hc);
    rewrite (proc_bind_run _ _ _ _ _ Hc), Hf.
  - cbn in Hr. injection Hr as <-. by rewrite app_nil_r.
  - rewrite (IH n _ rest) by (done || lia). by rewrite app_assoc.
Qed.

Lemma readPacket_ok (c : D) m q h data :
  mem c = Some m -> memory_ok m -> chainHas m q h data -> readChainLocked q h c = (c, Ok data).
Proof.
  intros Hm Hok (Hh & l & bs & Hw & Hb & Hg & _). unfold readChainLocked.
  apply (readPacketFrom_ok c m q _ h l bs [] data); try done. by eapply walk_length.
Qed.

Lemma parse_wire p : packetOk p -> parseVsockHeader (wire p) = Ok p.1.1 /\
  slice (wire p) vsockHeaderSize (len (wire p)) = p.1.2 ++ p.2 /\ len (wire p) = 44 + len p.1.2 + len p.2.
Proof.
  intros (W1 & W2 & W3 & W4 & W5 & W6 & W7 & W8 & W9 & HL & Hlen). unfold wire in *.
  destruct (parse_encode p.1.1 (p.1.2 ++ p.2)) as [-> ->]. rewrite !len_app, len_header in *.
  pose proof (len_nonneg p.1.2). pose proof (len_nonneg p.2).
  rewrite HL, !wrap_small by (done || width). rewrite <- HL. split; [by destruct p.1.1|]. split; [done|lia].
Qed.

Lemma handleTX_ok (d : D) m q h p v :
  mem d = Some m -> memory_ok m -> carries m q h p -> handlePacket p.1.1 p.1.2 (ext d) = Ok v ->
  handleTXPacketLocked q h d = (d <| ext := v |>, Ok (wrap 32 (len (wire p)))).
Proof.
  intros Hm Hok [Hp Hc] Hv. unfold handleTXPacketLocked. rewrite (proc_bind_run _ _ _ _ _ (readPacket_ok d m q h _ Hm Hok Hc)).
  destruct (parse_wire p Hp) as (-> & Hs & Hl). destruct Hp as (_ & _ & _ & _ & _ & _ & _ & _ & _ & HL & Hw).
  pose proof (len_nonneg p.1.2). pose proof (len_nonneg p.2).
  rewrite (proj2 (Z.ltb_ge _ _)) by lia. cbv zeta. rewrite Hs, len_app, HL.
  rewrite (proj2 (Z.ltb_ge (wrap 32 _) _)) by (rewrite wrap_small by width; lia).
  rewrite slice_app_l, slice_full by lia. cbv [mbind proc_bind getState lift]. rewrite Hv. done.
Qed.

(** While serving: the packets that are left lead to [v], what was used and what will be
    add up to [used]; memory has changed in the used ring only, other queues not at all. *)
Definition transmitting (v : Vsock B C) (used : list (Z * Z)) (d0 : D) (m0 : G) (q0 : queue)
    (d : D) (m : G) (q : queue) (hist : list (Z * Z)) (rest : list Z) : Prop :=
  exists ps, Forall2 (carries m q) rest ps /\ tableClear q /\ takePackets ps.*1 (ext d) = Some v /\
    hist ++ zip rest (wrap 32 ∘ len <$> (wire <$> ps)) = used /\
    usedAddr q = usedAddr q0 /\ size q = size q0 /\ (forall x, ~ inUsedRing q0 x -> byteAt m x = byteAt m0 x) /\
    forall i, i <> vsockQueueTX -> queues d !! i = queues d0 !! i.

Lemma takePacket_ok v used d0 m0 q0 : handlerOk vsockQueueTX handleTXPacketLocked (transmitting v used d0 m0 q0).
Proof.
  intros d m q hist h rest Hs (ps & Hall & Ht & Hv & Hu & Ha & Hsz & Hx0 & Hqs).
  inversion Hall as [|? p ? ps' Hc Hall']; subst. pose proof Hs as (Hm & _ & ((Hok & _) & _) & _).
  cbn in Hv. destruct p as [[hdr payload] extra]. cbn in Hv.
  destruct (handlePacket hdr payload (ext d)) as [w| |] eqn:E; [|done..].
  exists (d <| ext := w |>), m, (wrap 32 (len (wire (hdr, payload, extra)))).
  split; [by apply (handleTX_ok d m q h (hdr, payload, extra))|]. split; [done|]. split; [done|]. split; [done|]. split; [done|].
  intros m2 Hx Hok2. exists ps'. split; [|split; [exact Ht|split; [exact Hv|]]].
  - eapply Forall2_impl; [exact Hall'|]. intros h' p' [Hp' Hc']. split; [done|]. by apply (chainHas_frame m m2 q).
  - split; [rewrite !fmap_cons; cbn [zip zip_with]; by rewrite <- app_assoc|]. split; [exact Ha|]. split; [exact Hsz|].
    split; [|intros i Hne; cbn; rewrite list_lookup_insert_ne by done; by apply Hqs].
    intros x Hn. rewrite Hx, Hx0; [done|done|]. unfold inUsedRing in *. by rewrite Ha, Hsz.
Qed.
(** * Packets for the guest *)

Lemma mem_same (d : D) m : mem d = Some m -> d <| mem := Some m |> = d.
Proof. intros H. destruct d. cbn in *. by subst. Qed.

Lemma scatterAll_one f b packet x : bwrite b = true -> 0 < blength b ->
  scatterAll f (writable [b]) packet x = scatter f (baddr b) (take (Z.to_nat (blength b)) packet) x.
Proof. intros Hw Hl. rewrite writable_take by (done || lia). done. Qed.

(** What one descriptor takes of a packet. *)
Lemma storeChunk_ok (d : D) m desc off packet (segs := writable [bufferOf desc]) :
  mem d = Some m -> memory_ok m -> bufferOk (bufferOf desc) -> is_bytes packet -> mapped (byteAt m) segs ->
  exists m', (if hasbits (flags desc) descFWrite && (0 <? length_ desc) && (0 <? len packet) then
       let chunk := if length_ desc <? len packet then slice packet 0 (length_ desc) else packet in
       _ ← writeIPA (addr desc) chunk;
       mret (off + len chunk, slice packet (len chunk) (len packet))
     else mret (off, packet)) d =
    (d <| mem := Some m' |>,
     Ok (off + len packet - len (drop (Z.to_nat (total segs)) packet), drop (Z.to_nat (total segs)) packet)) /\
    memory_ok m' /\ forall x, byteAt m' x = scatterAll (byteAt m) segs packet x.
Proof.
  intros Hm Hok [Ha Hl] Hby Hmap. cbn in Ha, Hl. unfold in_width in Hl. pose proof (len_nonneg packet) as Hpos.
  assert (Hskip : scatterAll (byteAt m) segs packet = byteAt m \/ packet = [] -> drop (Z.to_nat (total segs)) packet = packet ->
    exists m', (mret (off, packet) : proc D deviceError (Z * bytes)) d =
      (d <| mem := Some m' |>, Ok (off + len packet - len (drop (Z.to_nat (total segs)) packet), drop (Z.to_nat (total segs)) packet)) /\
      memory_ok m' /\ forall x, byteAt m' x = scatterAll (byteAt m) segs packet x).
  { intros Hs Hd. exists m. rewrite Hd, (mem_same d m Hm). replace (off + len packet - len packet) with off by lia.
    split; [done|]. split; [done|]. intros x. destruct Hs as [-> | ->]; [done|]. by rewrite scatterAll_nil. }
  subst segs. destruct (hasbits (flags desc) descFWrite) eqn:Ew; cbn [andb].
  2: { rewrite (writable_skip (bufferOf desc) []) in * by (left; exact Ew). apply Hskip; [by left|]. apply drop_0. }
  destruct (Z.ltb_spec 0 (length_ desc)) as [Hp|Hp]; cbn [andb].
  2: { rewrite (writable_skip (bufferOf desc) []) in * by (right; cbn [blength bufferOf]; lia). apply Hskip; [by left|]. apply drop_0. }
  destruct (Z.ltb_spec 0 (len packet)) as [Hlp|Hlp].
  2: { assert (packet = []) as Ep by (apply len_0_nil; lia). apply Hskip; [by right|]. by rewrite Ep, drop_nil. }
  clear Hskip. set (n := length_ desc) in *. set (chunk := if n <? len packet then slice packet 0 n else packet).
  assert (Ec : chunk = take (Z.to_nat n) packet).
  { unfold chunk. destruct (Z.ltb_spec n (len packet)); [by rewrite slice_0|]. by rewrite take_ge by (unfold len in *; lia). }
  cbv zeta. assert (Hlc : 0 < len chunk <= n) by (rewrite Ec, len_take; lia).
  rewrite writable_take in Hmap by (exact Ew || (cbn [blength bufferOf]; lia)). apply Forall_cons in Hmap as [Hg _]. cbn in Hg.
  destruct (write_law m (addr desc) chunk Hok Ha) as (m' & Ewr & Hok' & Hx);
    [lia|rewrite Ec; by apply Forall_take|eapply gather_shorter; [exact Hg|lia]|].
  exists m'. rewrite writable_take by (exact Ew || (cbn [blength bufferOf]; lia)).
  rewrite total_cons. cbn [range snd bufferOf blength]. change (total (writable [])) with 0. rewrite Z.add_0_r. fold n.
  split; [|split; [done|intros x; by rewrite Hx, Ec]].
  cbv [mbind proc_bind writeIPA]. rewrite Hm, Ewr. cbn [mapErr]. cbv [mret proc_ret]. f_equal. f_equal.
  assert (Ed : slice packet (len chunk) (len packet) = drop (Z.to_nat n) packet).
  { rewrite slice_to_end by (rewrite Ec, len_take; lia). rewrite Ec, len_take. destruct (Z.le_gt_cases (len packet) n).
    - rewrite !drop_ge by (unfold len in *; lia). done.
    - f_equal. lia. }
  rewrite Ed. f_equal. pose proof (f_equal len (take_drop (Z.to_nat n) packet)) as El. rewrite len_app, <- Ec in El. lia.
Qed.

Lemma scatterAll_app s1 s2 : forall f d x, Forall (fun s => 0 <= s.2) s1 ->
  scatterAll f (s1 ++ s2) d x = scatterAll (scatterAll f s1 d) s2 (drop (Z.to_nat (total s1)) d) x.
Proof.
  induction s1 as [|[a n] s1 IH]; intros f d x Hs; cbn [scatterAll app]; [done|].
  apply Forall_cons in Hs as [Hn Hs]. cbn in Hn. rewrite IH, drop_drop, total_cons by done.
  pose proof (total_pos s1 Hs). cbn [snd]. by rewrite <- Z2Nat.inj_add by lia.
Qed.

Lemma storePacket_ok n : forall (d : D) m q i l bs off packet,
  mem d = Some m -> memory_ok m -> walk m q i l bs -> (length l <= n)%nat -> 0 <= i ->
  Forall bufferOk bs -> is_bytes packet -> len packet <= total (writable bs) ->
  mapped (byteAt m) (writable bs) -> avoids q (writable bs) ->
  exists m', fillChainFrom n q i off packet d = (d <| mem := Some m' |>, Ok (wrap 32 (off + len packet))) /\
    memory_ok m' /\ forall x, byteAt m' x = scatterAll (byteAt m) (writable bs) packet x.
Proof.
  induction n as [|n IH]; intros d m q i l bs off packet Hm Hok Hw Hn Hi Hb Hby Hfit Hmap Hav;
    [inversion Hw; subst; cbn in Hn; lia|].
  inversion Hw as [? desc Hd Hf|? desc l' bs' Hd Hf Hw']; subst; cbn [fillChainFrom];
    rewrite (proc_bind_run _ _ _ _ _ (readDescriptor_ok d m q i desc Hm Hok Hd));
    apply Forall_cons in Hb as [Hb1 Hb2]; rewrite writable_cons in *;
    apply Forall_app in Hmap as [Hmap1 Hmap2];
    destruct (storeChunk_ok d m desc off packet Hm Hok Hb1 Hby Hmap1) as (m1 & E1 & Hok1 & Hx1);
    rewrite (proc_bind_run _ _ _ _ _ E1), Hf.
  - change (writable []) with (@nil (Z * Z)) in *. rewrite app_nil_r in *.
    set (rest := drop _ packet) in *.
    assert (Hr : len rest = 0) by (unfold rest; rewrite len_drop; pose proof (total_pos _ (writable_sizes _ (Forall_cons_2 _ _ _ Hb1 Hb2))); lia).
    exists m1. rewrite Hr. cbn [Z.ltb Z.compare]. rewrite Z.sub_0_r. done.
  - assert (avoids q (writable [bufferOf desc]) /\ avoids q (writable bs')) as [Hav1 Hav2].
    { unfold avoids, inRanges in *. split; intros x Hx; apply Hav; rewrite Exists_app; auto. }
    pose proof (writable_sizes _ (Forall_cons_2 _ _ _ Hb1 (Forall_nil_2 _))) as Hs1.
    pose proof (total_pos _ Hs1) as Ht1. rewrite total_app in Hfit.
    assert (Ho1 : forall x, ~ inRanges (writable [bufferOf desc]) x -> byteAt m1 x = byteAt m x)
      by (intros x Hx; rewrite Hx1; by apply scatterAll_other).
    pose proof (descAt_next m q i desc Hok Hd) as Hnext. set (rest := drop _ packet) in *.
    destruct (IH (d <| mem := Some m1 |>) m1 q (next desc) l' bs' (off + len packet - len rest) rest) as (m' & E & Hok' & Hx');
      [reflexivity|exact Hok1| | |exact Hnext|exact Hb2| | | |exact Hav2|].
    + eapply walk_agree; [exact Hok|exact (avoids_table m m1 q _ Hav1 Ho1)|exact Hnext|exact Hw'].
    + cbn in Hn. lia.
    + by apply Forall_drop.
    + unfold rest. rewrite len_drop. pose proof (total_pos _ (writable_sizes _ Hb2)). lia.
    + eapply mapped_dom; [|exact Hmap2]. intros x. rewrite Hx1. by apply scatterAll_dom.
    + exists m'. rewrite E. split; [|split; [done|]].
      * f_equal. f_equal. f_equal. lia.
      * intros x. rewrite Hx', scatterAll_app by done. by apply scatterAll_ext.
Qed.
(** A chain is used, its packet leaves the pending ones, and the ring moves on. *)
Lemma use_and_pop {A} (d d1 : D) i h n f g (k : proc D deviceError A) :
  (_ ← writeUsedLocked i h n; onQueue i g) d = (d1, Ok tt) ->
  (_ ← writeUsedLocked i h n; _ ← onVsock f; _ ← onQueue i g; k) d = k (d1 <| ext := f (ext d1) |>).
Proof.
  cbv [mbind proc_bind onVsock onQueue modify]. destruct (writeUsedLocked i h n d) as [d0 [[]|e|]]; [|intros E; injection E; discriminate..].
  intros E. injection E as <-. done.
Qed.

(** The device after a part of the pending packets has been delivered. *)
Definition delivered (d : D) (m : G) (q : queue) (n : nat) : D :=
  d <| mem := Some m |> <| queues := <[vsockQueueRX := q]> (queues d) |>
    <| ext := ext d <| pendingRx := drop n (pendingRx (ext d)) |> |>.

Lemma delivered_none (d : D) m q : mem d = Some m -> queues d !! vsockQueueRX = Some q -> delivered d m q 0 = d.
Proof.
  intros Hm Hq. unfold delivered. rewrite list_insert_id by done. destruct d as [? ? ? ? ? ? ? ? ? ? ? ? ? ? []]. cbn in *. by subst.
Qed.

Lemma delivered_more (d : D) m m1 q q1 n : delivered (delivered d m q 1) m1 q1 n = delivered d m1 q1 (S n).
Proof.
  unfold delivered. cbn [queues ext pendingRx set_field]. rewrite list_insert_insert_eq.
  destruct (pendingRx (ext d)) eqn:E; cbn; rewrite ?drop_nil; reflexivity.
Qed.

(** One packet: it is stored in the buffers of the next chain, and the chain is used. *)
Lemma rx_round (d : D) m q hist h heads bs segs packet pend fuel processed availIdx :
  serving d vsockQueueRX m q hist (h :: heads) -> chainFills m q h (writable bs) -> Forall bufferOk bs ->
  Forall2 (chainFills m q) heads segs -> tableClear q -> pendingRx (ext d) = packet :: pend -> is_bytes packet ->
  len packet <= total (writable bs) -> lastAvailIdx q <> availIdx ->
  exists m2, let d2 := delivered d m2 (served q) 1 in
    rxLoop (S fuel) availIdx processed d = rxLoop fuel availIdx true d2 /\
    serving d2 vsockQueueRX m2 (served q) (hist ++ [(h, wrap 32 (len packet))]) heads /\
    Forall2 (chainFills m2 (served q)) heads segs /\
    forall x, ~ inUsedRing q x -> byteAt m2 x = scatterAll (byteAt m) (writable bs) packet x.
Proof.
  intros Hs Hc1 Hbs Hc Ht Hp Hb Hfit Hne. pose proof Hs as (Hm & Hq & ((Hok & _) & _) & _). cbn [rxLoop].
  rewrite (proc_bind_run (getQueue vsockQueueRX) _ d d q) by (unfold getQueue; by rewrite Hq).
  rewrite (proc_bind_run getState _ d d d) by done. rewrite Hp, (proj2 (Z.eqb_neq _ _) Hne).
  rewrite (proc_bind_run _ _ _ _ _ (availHead_ok d vsockQueueRX m q hist h heads Hs)).
  destruct Hc1 as (Hh & l & bs' & Hw & Hbs' & Ew & Hmap & Ha). rewrite Ew in *. clear Ew Hbs bs. rename bs' into bs.
  destruct (storePacket_ok (Z.to_nat (size q)) d m q h l bs 0 packet) as (m1 & E1 & Hok1 & Hx1);
    [done|done|done|by eapply walk_length|done|done|done|done|done|done|].
  assert (Ho : forall x, ~ inRanges (writable bs) x -> byteAt m1 x = byteAt m x)
    by (intros x Hx; rewrite Hx1; apply scatterAll_other; [by apply writable_sizes|done]).
  unfold fillChainLocked. rewrite (proc_bind_run _ _ _ _ _ E1).
  destruct (serve_used (d <| mem := Some m1 |>) vsockQueueRX m1 q hist h (wrap 32 (len packet)) heads) as (m2 & E2 & Hs2 & Hx2).
  { eapply serving_frame; [exact Hs|done..|]. intros x Hr. apply Ho. intros Hx. by apply Ha in Hx as [_ Hx]. }
  exists m2. cbv zeta. rewrite (use_and_pop _ _ _ _ _ _ _ _ E2). split; [|split; [|split]].
  - f_equal.
  - exact Hs2.
  - pose proof Hs2 as (_ & _ & ((Hok2 & _) & _) & _). eapply Forall2_impl; [exact Hc|]. intros h' s' Hf'.
    apply (chainFills_frame m m1 m2 q h' s' (writable bs)); try done. intros x. rewrite Hx1. apply scatterAll_dom; [by apply writable_sizes|done].
  - intros x Hx. by rewrite Hx2, Hx1.
Qed.

Lemma rxLoop_ok pend : forall fuel heads segs (d : D) m q hist processed availIdx,
  serving d vsockQueueRX m q hist heads -> Forall2 (chainFills m q) heads segs -> tableClear q ->
  pendingRx (ext d) = pend -> Forall is_bytes pend -> Forall (fun sp => len sp.2 <= total sp.1) (zip segs pend) ->
  (length pend <= fuel)%nat -> availIdx = wrap 16 (lastAvailIdx q + len heads) ->
  exists m' q' b, rxLoop fuel availIdx processed d = (delivered d m' q' (length heads), Ok b) /\
    usedRing m' q' (hist ++ zip heads (wrap 32 ∘ len <$> pend)) /\
    forall x, ~ inUsedRing q x -> byteAt m' x = storeAll (byteAt m) (zip segs pend) x.
Proof.
  induction pend as [|packet pend IH]; intros fuel heads segs d m q hist processed availIdx Hs Hc Ht Hp Hb Hfit Hf Hidx;
    pose proof Hs as (Hm & Hq & Hu & (Hl & Hn & Hav) & Hsep).
  { exists m, q, processed. rewrite fmap_nil, !zip_with_nil_r, app_nil_r.
    assert (delivered d m q (length heads) = d) as ->.
    { rewrite <- (delivered_none d m q Hm Hq) at 2. unfold delivered. by rewrite Hp, drop_nil. }
    split; [|done]. destruct fuel; cbn [rxLoop]; cbv [mbind proc_bind getQueue getState]; rewrite Hq, ?Hp; done. }
  destruct fuel as [|fuel]; cbn [length] in Hf; [lia|]. destruct heads as [|h heads].
  { exists m, q, processed. inversion Hc; subst. cbn [rxLoop zip zip_with length]. rewrite app_nil_r, (delivered_none d m q Hm Hq).
    cbv [mbind proc_bind getQueue getState]. rewrite Hq, Hp, Z.add_0_r, wrap_small, Z.eqb_refl by done. done. }
  inversion Hc as [|? s ? segs' Hc1 Hc']; subst. apply Forall_cons in Hb as [Hb1 Hb]. cbn [zip zip_with] in Hfit.
  apply Forall_cons in Hfit as [Hfit1 Hfit]. pose proof Hc1 as (_ & l & bs & _ & Hbs & -> & _).
  destruct (rx_round d m q hist h heads bs segs' packet pend fuel processed (wrap 16 (lastAvailIdx q + len (h :: heads))))
    as (m2 & -> & Hs2 & Hc2 & Hx2); try done.
  { rewrite len_cons in *. pose proof (len_nonneg heads). unfold in_width in Hl.
    assert (0 <= lastAvailIdx q < 2 ^ 16) as Hl' by done. unfold wrap. revert Hl' Hn. pow2. dlia. }
  destruct (IH fuel heads segs' (delivered d m2 (served q) 1) m2 (served q) (hist ++ [(h, wrap 32 (len packet))]) true
    (wrap 16 (lastAvailIdx q + len (h :: heads)))) as (m' & q' & b & E & Hu' & Hx'); [done|done|exact Ht| |done|done|lia| |].
  - unfold delivered. cbn [ext pendingRx set_field]. by rewrite Hp.
  - change (lastAvailIdx (served q)) with (wrap 16 (lastAvailIdx q + 1)). rewrite wrap_add_wrap_l, len_cons. f_equal. lia.
  - exists m', q', b. rewrite E, delivered_more. split; [done|]. rewrite <- app_assoc in Hu'. split; [exact Hu'|].
    intros x Hx. rewrite Hx' by exact Hx. cbn [zip zip_with storeAll].
    by apply (storeAll_agree (fun x => ~ inUsedRing q x)).
Qed.

(** * The notification *)

Context (line_works : forall n b (i : I), exists i', SetIRQ n b i = (i', Ok tt)).

(** Devices that differ in their interrupt at most. *)
Definition sameState (d d' : D) : Prop := mem d' = mem d /\ queues d' = queues d /\ ext d' = ext d /\ IRQ d' = IRQ d.

Lemma raise_ok (d : D) : exists d', raiseVring d = (d', Ok tt) /\ sameState d d' /\ forall i, irq d' = Some i -> level i (IRQ d') = true.
Proof using line_works IL.
  unfold raiseVring, updateIRQLocked. cbv [mbind proc_bind modify getState callIRQ].
  set (d1 := d <| interruptStatus := _ |>). change (irq d1) with (irq d). destruct (irq d) as [i|] eqn:Ei.
  2: { exists d1. split; [done|]. split; [done|]. intros i Hi. cbn in Hi. congruence. }
  assert ((interruptStatus d1 =? 0) = false) as -> by (apply Z.eqb_neq, lor_bit0). cbn [negb].
  destruct (line_works (IRQ d) true i) as [i' E].
  assert (L : level i' (IRQ d) = true) by (rewrite (setIRQ_law _ _ _ _ E); by rewrite Z.eqb_refl).
  destruct (Bool.eqb (irqHigh d1) true).
  - change (irq d1) with (irq d). change (IRQ d1) with (IRQ d). rewrite Ei, E. eexists. split; [reflexivity|].
    split; [done|]. intros k Hk. cbn in Hk. injection Hk as <-. exact L.
  - cbn [irq IRQ set_field d1]. change (irq d1) with (irq d). change (IRQ d1) with (IRQ d). rewrite Ei, E. eexists. split; [reflexivity|].
    split; [done|]. intros k Hk. cbn in Hk. injection Hk as <-. exact L.
Qed.

Lemma processRX_ok (d : D) m q hist heads segs header :
  serving d vsockQueueRX m q hist heads -> ready q = true -> gather (byteAt m) (availAddr q) 4 = Some header ->
  unle (slice header 2 4) = wrap 16 (lastAvailIdx q + len heads) -> Forall2 (chainFills m q) heads segs -> tableClear q ->
  Forall is_bytes (pendingRx (ext d)) -> Forall (fun sp => len sp.2 <= total sp.1) (zip segs (pendingRx (ext d))) ->
  exists d' m' q', processRXLocked d = (d', Ok tt) /\ sameState (delivered d m' q' (length heads)) d' /\
    usedRing m' q' (hist ++ zip heads (wrap 32 ∘ len <$> pendingRx (ext d))) /\
    forall x, ~ inUsedRing q x -> byteAt m' x = storeAll (byteAt m) (zip segs (pendingRx (ext d))) x.
Proof using line_works IL.
  intros Hs Hr Hg Hidx Hc Ht Hb Hfit. pose proof Hs as (Hm & Hq & Hu & (_ & _ & Ha & Htop & _) & _).
  pose proof (usedRing_size m q hist Hu) as [Hsz _]. pose proof Hu as ((Hok & _) & _).
  destruct (rxLoop_ok _ (length (pendingRx (ext d))) heads segs d m q hist false _ Hs Hc Ht eq_refl Hb Hfit ltac:(done) Hidx)
    as (m' & q' & b & E & Hu' & Hx').
  unfold processRXLocked. rewrite (proc_bind_run (getQueue vsockQueueRX) _ d d q) by (unfold getQueue; by rewrite Hq).
  rewrite (proc_bind_run getState _ d d d) by done. rewrite Hr, Hm. destruct (Z.eqb_spec (size q) 0); [lia|]. cbn [negb orb].
  destruct (pendingRx (ext d)) as [|packet pend] eqn:Ep.
  { exists d, m', q'. cbn [length] in E. cbn [rxLoop] in E. cbv [mbind proc_bind getQueue getState] in E. rewrite Hq in E.
    injection E as Ed _. split; [done|]. split; [by rewrite <- Ed|]. done. }
  rewrite (proc_bind_run _ _ _ _ _ (readIPA_ok d m (availAddr q) 4 header Hm Hok ltac:(unfold in_width; lia) ltac:(lia) Hg)).
  rewrite (proc_bind_run _ _ _ _ _ E). destruct b.
  - destruct (raise_ok (delivered d m' q' (length heads))) as (d' & Er & Hd & _). by exists d', m', q'.
  - by exists (delivered d m' q' (length heads)), m', q'.
Qed.

(** A chain that lies outside the memory that has changed. *)
Lemma chainFills_apart m m1 q h segs : memory_ok m -> (forall x, inTable q x \/ inRanges segs x -> byteAt m1 x = byteAt m x) ->
  chainFills m q h segs -> chainFills m1 q h segs.
Proof.
  intros Hok Hx (Hh & l & bs & Hw & Hb & -> & Hmap & Ha). split; [done|]. exists l, bs.
  split; [|split; [done|split; [done|split; [|done]]]].
  - eapply walk_agree; [exact Hok| |done|done]. split; [done|]. split; [done|]. intros x Ht. apply Hx. by left.
  - unfold mapped in *. rewrite Forall_forall in *. intros [a n] Hin. specialize (Hmap _ Hin). cbn in *.
    rewrite gather_is_Some in *. intros x Hr. rewrite Hx; [by apply Hmap|]. right. apply Exists_exists. by exists (a, n).
Qed.

Lemma chains_apart m m1 q heads segs : memory_ok m ->
  (forall x, inTable q x \/ inRanges (concat segs) x -> byteAt m1 x = byteAt m x) ->
  Forall2 (chainFills m q) heads segs -> Forall2 (chainFills m1 q) heads segs.
Proof.
  intros Hok Hx H. induction H as [|h s heads segs Hc _ IH]; [constructor|]. unfold inRanges in *. cbn [concat] in Hx.
  setoid_rewrite Exists_app in Hx. constructor; [|apply IH; tauto || (intros x [?|?]; apply Hx; auto)].
  eapply chainFills_apart; [exact Hok| |done]. intros x [?|?]; apply Hx; auto.
Qed.

(** The chains for receiving have sizes. *)
Lemma chains_sizes m q heads segs : Forall2 (chainFills m q) heads segs -> Forall (Forall (fun s => 0 <= s.2)) segs.
Proof. induction 1 as [|h s heads segs (_ & l & bs & _ & Hb & -> & _) _ IH]; constructor; [by apply writable_sizes|done]. Qed.

Lemma zip_segs_other (segs : list (list (Z * Z))) (ps : list bytes) f x : Forall (Forall (fun s => 0 <= s.2)) segs ->
  ~ inRanges (concat segs) x -> storeAll f (zip segs ps) x = f x.
Proof.
  intros Hs Hx. apply storeAll_other.
  - revert ps. induction Hs as [|s segs Hs _ IH]; intros [|p ps]; cbn; constructor; [done|apply IH].
    intros Hn. apply Hx. unfold inRanges in *. cbn. rewrite Exists_app. by right.
  - intros Hn. apply Hx. revert ps Hn. clear Hs Hx. unfold inRanges.
    induction segs as [|s segs IH]; intros [|p ps]; cbn; try (by inversion 1).
    rewrite !Exists_app. intros [Hn|Hn]; [by left|right; by eapply IH].
Qed.

(** The transmit queue has been served: the handlers have seen the packets. *)
Lemma transmit_all (d : D) m q hist heads packets header v :
  serving d vsockQueueTX m q hist heads -> ready q = true -> gather (byteAt m) (availAddr q) 4 = Some header ->
  unle (slice header 2 4) = wrap 16 (lastAvailIdx q + len heads) -> Forall2 (carries m q) heads packets -> tableClear q ->
  takePackets packets.*1 (ext d) = Some v ->
  exists d' m' q' b, serveQueue vsockQueueTX handleTXPacketLocked d = (d', Ok (true, b)) /\ ext d' = v /\ mem d' = Some m' /\
    queues d' !! vsockQueueTX = Some q' /\ usedRing m' q' (hist ++ zip heads (wrap 32 ∘ len <$> (wire <$> packets))) /\
    (forall x, inUsedRing q' x -> inUsedRing q x) /\ (forall x, ~ inUsedRing q x -> byteAt m' x = byteAt m x) /\
    forall i, i <> vsockQueueTX -> queues d' !! i = queues d !! i.
Proof.
  intros Hs Hr Hg Hidx Hc Ht Hv.
  destruct (serveQueue_all vsockQueueTX handleTXPacketLocked _ d m q hist heads header
    (takePacket_ok v (hist ++ zip heads (wrap 32 ∘ len <$> (wire <$> packets))) d m q))
    as (d' & m' & q' & us & E & _ & (Hm' & Hq' & Hu' & _) & (ps & Hps & _ & Hv' & Hus & Ha & Hsz & Hx & Hqs) & _);
    [done|by exists packets|done..|].
  inversion Hps; subst. cbn in Hv', Hus. rewrite app_nil_r in Hus. injection Hv' as Hv'.
  exists d', m', q', (negb (lastAvailIdx q =? unle (slice header 2 4))). split; [exact E|]. split; [done|]. split; [done|]. split; [done|].
  split; [by rewrite <- Hus|]. split; [|done]. intros x. unfold inUsedRing. by rewrite Ha, Hsz.
Qed.

(** C28: When the guest notifies the transmit queue, the packets in the chains it has made
    available are given to the handlers one after the other, each with the header and the
    payload that are in guest memory; then the pending packets, in order, are stored in the
    chains the guest has made available in the receive queue, as many as there are chains,
    and leave the pending ones.  Every chain is put in the used ring of its queue once, in
    order, with the number of bytes read or stored; guest memory changes nowhere else, and the
    interrupt line is raised.  For this both queues are set up and do not overlap, each
    header announces the length of its payload, each chain for receiving has room for its
    packet, no handler panics, and the interrupt controller does not fail. *)
Theorem vsock_notified (d : D) (m : G) (sz : Z) (v : Vsock B C)
    (qt : queue) (histt : list (Z * Z)) (headst : list Z) (packets : list (vsockHeader * bytes * bytes)) (headert : bytes)
    (qr : queue) (histr : list (Z * Z)) (headsr : list Z) (segs : list (list (Z * Z))) (headerr : bytes)
    (Ht : serving d vsockQueueTX m qt histt headst) (Hreadyt : ready qt = true)
    (Hheadert : gather (byteAt m) (availAddr qt) 4 = Some headert)
    (Hidxt : unle (slice headert 2 4) = wrap 16 (lastAvailIdx qt + len headst))
    (Hpackets : Forall2 (carries m qt) headst packets) (Htablet : tableClear qt)
    (Hr : serving d vsockQueueRX m qr histr headsr) (Hreadyr : ready qr = true)
    (Hheaderr : gather (byteAt m) (availAddr qr) 4 = Some headerr)
    (Hidxr : unle (slice headerr 2 4) = wrap 16 (lastAvailIdx qr + len headsr))
    (Hsegs : Forall2 (chainFills m qr) headsr segs) (Htabler : tableClear qr)
    (Hapart : forall x, inUsedRing qt x -> ~ inRings qr x /\ ~ inTable qr x /\ ~ inRanges (concat segs) x)
    (Hv : takePackets packets.*1 (ext d) = Some v) (Hbytes : Forall is_bytes (pendingRx v))
    (Hroom : Forall (fun sp => len sp.2 <= total sp.1) (zip segs (pendingRx v))) :
  exists d' m' qt' qr', Write (Base d + regQueueNotify) sz 1 d = (d', Ok tt) /\
    ext d' = v <| pendingRx := drop (length headsr) (pendingRx v) |> /\
    mem d' = Some m' /\ queues d' !! vsockQueueTX = Some qt' /\ queues d' !! vsockQueueRX = Some qr' /\
    usedRing m' qt' (histt ++ zip headst (wrap 32 ∘ len <$> (wire <$> packets))) /\
    usedRing m' qr' (histr ++ zip headsr (wrap 32 ∘ len <$> pendingRx v)) /\
    (forall x, ~ inUsedRing qt x -> ~ inUsedRing qr x -> byteAt m' x = storeAll (byteAt m) (zip segs (pendingRx v)) x) /\
    forall i, irq d' = Some i -> level i (IRQ d') = true.
Proof using line_works IL GL.
  destruct (transmit_all d m qt histt headst packets headert v Ht Hreadyt Hheadert Hidxt Hpackets Htablet Hv)
    as (d1 & m1 & qt' & b & E1 & Hv1 & Hm1 & Hq1 & Hu1 & Hut & Hx1 & Hqs).
  pose proof Hu1 as ((Hok1 & _) & _). pose proof Ht as (_ & _ & ((Hok & _) & _) & _).
  assert (Hr1 : serving d1 vsockQueueRX m1 qr histr headsr).
  { eapply serving_frame; [exact Hr|done|by apply Hqs|done|]. intros x Hx. apply Hx1. intros Hn. by apply Hapart in Hn as [Hn _]. }
  assert (Hs1 : Forall2 (chainFills m1 qr) headsr segs).
  { eapply chains_apart; [exact Hok| |done]. intros x Hx. apply Hx1. intros Hn. apply Hapart in Hn. tauto. }
  rewrite <- Hv1 in Hbytes, Hroom. pose proof Hr as (_ & _ & _ & (_ & _ & Ha & Htop & _) & _).
  destruct (processRX_ok d1 m1 qr histr headsr segs headerr Hr1 Hreadyr) as (d2 & m2 & qr' & E2 & (Hm2 & Hq2 & He2 & _) & Hu2 & Hx2); try done.
  { rewrite <- Hheaderr. apply gather_ext. intros x Hx. apply Hx1. intros Hn. apply Hapart in Hn as [Hn _]. apply Hn. right.
    unfold inAvailRing. pose proof Hr as (_ & _ & Hu & _). pose proof (usedRing_size _ _ _ Hu). lia. }
  destruct (raise_ok d2) as (d3 & E3 & (Hm3 & Hq3 & He3 & _) & Hl3).
  rewrite Hv1 in *. exists d3, m2, qt', qr'. split.
  { unfold Write. rewrite (proc_bind_run getState _ d d d) by done. cbv zeta.
    replace (Base d + regQueueNotify - Base d) with regQueueNotify by lia. change (wrap 64 regQueueNotify) with regQueueNotify.
    change (processTXLocked d = (d3, Ok tt)). unfold processTXLocked. rewrite (proc_bind_run _ _ _ _ _ E1), (proc_bind_run _ _ _ _ _ E2). exact E3. }
  pose proof Hr1 as (_ & Hqr1 & _). assert (Hlt : (0 < length (queues d1))%nat) by (by eapply lookup_lt_Some).
  split; [rewrite He3, He2; unfold delivered; by rewrite Hv1|]. split; [by rewrite Hm3, Hm2|].
  rewrite Hq3, Hq2. unfold delivered. cbn [queues set_field].
  split; [by rewrite list_lookup_insert_ne|]. split; [by rewrite list_lookup_insert_eq|].
  split; [|split; [done|split; [|done]]].
  - pose proof Hu2 as ((Hok2 & _) & _). eapply usedRing_agree; [exact Hu1|done|]. intros x Hx. apply Hut, Hapart in Hx as (Hn1 & _ & Hn3).
    rewrite Hx2 by (intros Hn; apply Hn1; by left). apply zip_segs_other; [by eapply chains_sizes|done].
  - intros x Hn1 Hn2. rewrite Hx2 by done. by apply (storeAll_agree (fun x => ~ inUsedRing qt x)).
Qed.
End queues.

(** A guest that writes zero to the status register drops every connection and every pending
    packet, and no goroutine is left waiting for space. *)
Theorem status_zero_resets {G I B C : Type} `{GuestMemory G, IRQController I, VsockBackend B C} (d : @VsockDevice G I B C) sz :
  exists d', Write (Base d + regStatus) sz 0 d = (d', Ok tt) /\ connections (ext d') = ∅ /\ pendingRx (ext d') = [] /\
    Forall (fun r => forall rest, rstate r <> Parked rest) (readers (ext d')).
Proof.
  eexists. split.
  { unfold Write. rewrite (proc_bind_run getState _ d d d) by done. cbv zeta.
    replace (Base d + regStatus - Base d) with regStatus by lia. reflexivity. }
  cbn. split; [done|]. split; [done|]. apply Forall_fmap, Forall_true. intros [k c st] w. by destruct st.
Qed.

(** * A sample device *)

(** A connection request from port 1024 of the guest to port 80 of the host. *)
Definition request : vsockHeader := mkHeader 3 VSockCIDHost 1024 80 0 vsockTypeStream vsockOpRequest 0 4096 0.

Definition requestQueue : queue := mkQueue 4 true 0x40000000 0x40000040 0x40000080 0 0 false.
Definition replyQueue : queue := mkQueue 4 true 0x40000200 0x40000240 0x40000280 0 0 false.

(** Guest memory with the request in one chain, and a buffer for a packet in another. *)
Definition requestBytes : bytes :=
  put (put (put (put (put (zeros 1024)
    0 (le 8 0x40000100 ++ le 4 44 ++ le 2 0 ++ le 2 0)) 0x40 (le 2 0 ++ le 2 1 ++ le 2 0)) 0x100 (encodeVsockHeader request))
    0x200 (le 8 0x40000300 ++ le 4 64 ++ le 2 2 ++ le 2 0)) 0x240 (le 2 0 ++ le 2 1 ++ le 2 0).
Definition requestRAM : VM := mkRAM 0x40000000 1024 requestBytes.

Definition requestDevice : @VsockDevice VM lines nat nat :=
  mkDevice 0xa000 0x200 9 (Some requestRAM) (Some (mkLines [])) 0 0 0 0 15 0 false 1
    [replyQueue; requestQueue; zeroQueue] (mkVsock 3 (Some 0%nat) ∅ [] [] false).

Definition connectedVsock : Vsock nat nat := handleConnectLocked request (ext requestDevice).

Lemma requestRAM_ok : vmOk requestRAM.
Proof.
  split; [vm_compute; congruence|]. split; [vm_compute; reflexivity|]. split; [vm_compute; congruence|].
  apply Forall_forall. intros x Hx. assert (forallb (fun x => (0 <=? x) && (x <? 256)) requestBytes = true) as H by (vm_compute; reflexivity).
  rewrite forallb_forall in H. apply list_elem_of_In, H in Hx. unfold is_u8, in_width. lia.
Qed.

(** A queue of the sample whose first chain is available. *)
Lemma sample_serving i q : queues requestDevice !! i = Some q -> q = requestQueue \/ q = replyQueue ->
  serving requestDevice i requestRAM q [] [0].
Proof.
  intros Hi Hq. split; [done|]. split; [done|]. split; [|split].
  - split; [|split; [by destruct Hq as [-> | ->]|split; [by destruct Hq as [-> | ->]; vm_compute|by intros [|j] u]]].
    split; [exact requestRAM_ok|]. split; [exists 2; split; [lia|by destruct Hq as [-> | ->]]|].
    destruct Hq as [-> | ->]; (split; [vm_compute; congruence|]; split; [done|]; eexists; vm_compute; reflexivity).
  - destruct Hq as [-> | ->]; (split; [vm_compute; split; congruence|]; split; [done|]; split; [vm_compute; congruence|]; split; [done|];
      intros [|[|k]] h Hk; [injection Hk as <-|discriminate..]; split; [vm_compute; split; congruence|vm_compute; reflexivity]).
  - destruct Hq as [-> | ->]; intros x; unfold inAvailRing, inUsedRing; cbn; lia.
Qed.

Lemma sample_table x : inTable requestQueue x -> 0x40000000 <= x < 0x40000040.
Proof. intros (i & Hi & Hx). unfold descriptorAddr in Hx. cbn in *. rewrite wrap_small in Hx by (unfold in_width; lia). lia. Qed.
Lemma sample_table_reply x : inTable replyQueue x -> 0x40000200 <= x < 0x40000240.
Proof. intros (i & Hi & Hx). unfold descriptorAddr in Hx. cbn in *. rewrite wrap_small in Hx by (unfold in_width; lia). lia. Qed.

Lemma sample_carries : Forall2 (carries requestRAM requestQueue) [0] [(request, [], [])].
Proof.
  constructor; [|constructor]. split; [repeat split; vm_compute; congruence|]. split; [lia|].
  exists [0], [bufferOf (mkDescriptor 0x40000100 44 0 0)]. split; [|split; [|split]].
  - apply walk_last; vm_compute; reflexivity.
  - repeat constructor; vm_compute; congruence.
  - vm_compute. reflexivity.
  - constructor; [|constructor]. unfold inUsedRing. cbn. lia.
Qed.

Lemma sample_fills : Forall2 (chainFills requestRAM replyQueue) [0] [[(0x40000300, 64)]].
Proof.
  constructor; [|constructor]. split; [lia|].
  exists [0], [bufferOf (mkDescriptor 0x40000300 64 2 0)]. split; [|split; [|split; [|split]]].
  - apply walk_last; vm_compute; reflexivity.
  - repeat constructor; vm_compute; congruence.
  - reflexivity.
  - constructor; [|constructor]. eexists. vm_compute. reflexivity.
  - intros x Hx. inversion Hx as [? ? Hr|? ? Hr]; [|inversion Hr]; subst. cbn in Hr. split.
    + intros Ht%sample_table_reply. lia.
    + unfold inRings, inUsedRing, inAvailRing. cbn. lia.
Qed.

Lemma sample_apart x : inUsedRing requestQueue x ->
  ~ inRings replyQueue x /\ ~ inTable replyQueue x /\ ~ inRanges (concat [[(0x40000300, 64)]]) x.
Proof.
  unfold inRings, inUsedRing, inAvailRing. cbn. intros Hx. split; [lia|]. split.
  - intros Ht%sample_table_reply. lia.
  - intros Hr. inversion Hr as [? ? H|? ? H]; [|inversion H]; subst. cbn in H. lia.
Qed.

(** The request is answered: the connection is there, and the reply in the guest's buffer. *)
Lemma vsock_notified_witness : exists d' m', Write 0xa050 4 1 requestDevice = (d', Ok tt) /\
  connections (ext d') !! (80, 1024) = Some (mkConn Connected 4096 0 0 0 false (Some 0%nat)) /\ pendingRx (ext d') = [] /\
  mem d' = Some m' /\ byteAt m' 0x4000031e = Some vsockOpResponse.
Proof.
  destruct (vsock_notified (G := VM) (I := lines) (B := nat) (C := nat) ltac:(intros n b i; eexists; reflexivity)
    requestDevice requestRAM 4 connectedVsock requestQueue [] [0] [(request, [], [])] [0; 0; 1; 0]
    replyQueue [] [0] [[(0x40000300, 64)]] [0; 0; 1; 0])
    as (d' & m' & qt' & qr' & E & He & Hm & _ & _ & _ & _ & Hx & _).
  - apply sample_serving; [done|by left].
  - reflexivity.
  - vm_compute. reflexivity.
  - vm_compute. reflexivity.
  - exact sample_carries.
  - intros x Hx%sample_table. unfold inUsedRing. cbn. lia.
  - apply sample_serving; [done|by right].
  - reflexivity.
  - vm_compute. reflexivity.
  - vm_compute. reflexivity.
  - exact sample_fills.
  - intros x Hx%sample_table_reply. unfold inUsedRing. cbn. lia.
  - exact sample_apart.
  - reflexivity.
  - vm_compute. repeat constructor; congruence.
  - repeat constructor; vm_compute; congruence.
  - exists d', m'. split; [exact E|]. rewrite He. split; [vm_compute; reflexivity|]. split; [vm_compute; reflexivity|].
    split; [exact Hm|]. rewrite Hx; [vm_compute; reflexivity|unfold inUsedRing; cbn; lia..].
Defined.
