(* ===== verification/SimpleVsock.v ===== *)
(** The in-memory backend of the socket device: [SimpleVsockBackend] of
    [src/internal/core/virtio/vsock.go].

    A connection is a pair of ends; each has a channel of 64 messages that the other end sends
    to.  A method whose [select] has several cases ready may take any of them, so it is a
    function to the list of its possible outcomes; it blocks where there is none.  Listeners
    and ends are named by their number in the order of creation, as pointers are.

    [streams_in_order]: in every run, what an end has read, what it holds and what is in its
    channel is exactly what the other end has written.  [eof_overtakes_data],
    [closed_port_stays_taken], [lost_connection] and [full_channel_blocks] show what the
    backend does not promise. *)

From stdpp Require Import gmap.
From S2P Require Import Prelude.

Record simpleVsockConn := mkSConn {
  localPort : Z;
  remotePort : Z;
  peer : nat;
  readCh : list bytes;
  closed : bool;
  readBuf : bytes;
}.
#[export] Instance eta_simpleVsockConn : Eta simpleVsockConn := fun c =>
  mkSConn (localPort c) (remotePort c) (peer c) (readCh c) (closed c) (readBuf c).

Record simpleVsockListener := mkListener { port : Z; conns : list nat; lclosed : bool }.
#[export] Instance eta_simpleVsockListener : Eta simpleVsockListener := fun l => mkListener (port l) (conns l) (lclosed l).

Record SimpleVsockBackend := mkBackend {
  listeners : gmap Z nat;
  allListeners : list simpleVsockListener;
  allConns : list simpleVsockConn;
}.
#[export] Instance eta_SimpleVsockBackend : Eta SimpleVsockBackend := fun b => mkBackend (listeners b) (allListeners b) (allConns b).

Inductive vsockError := PortInUse (p : Z) | NoListener (p : Z) | ListenerClosed | EndOfFile | PeerClosed | ConnClosed.
Abbreviation outcomes A := (list (SimpleVsockBackend * result vsockError A)).

Abbreviation readCapacity := 64%Z.
Abbreviation acceptCapacity := 16%Z.

Definition NewSimpleVsockBackend : SimpleVsockBackend := mkBackend ∅ [] [].

Definition Listen (p : Z) (b : SimpleVsockBackend) : SimpleVsockBackend * result vsockError nat :=
  match listeners b !! p with
  | Some _ => (b, Err (PortInUse p))
  | None =>
      let l := length (allListeners b) in
      (b <| listeners := <[p := l]> (listeners b) |> <| allListeners := allListeners b ++ [mkListener p [] false] |>, Ok l)
  end.

Definition onListener (i : nat) (f : simpleVsockListener -> simpleVsockListener) (b : SimpleVsockBackend) : SimpleVsockBackend :=
  b <| allListeners := alter f i (allListeners b) |>.
Definition onConn (i : nat) (f : simpleVsockConn -> simpleVsockConn) (b : SimpleVsockBackend) : SimpleVsockBackend :=
  b <| allConns := alter f i (allConns b) |>.

(** The two ends are made before the select. *)
Definition SimpleConnect (p : Z) (b : SimpleVsockBackend) : outcomes nat :=
  match listeners b !! p with
  | None => [(b, Err (NoListener p))]
  | Some i =>
      match allListeners b !! i with
      | None => []
      | Some l =>
          let client := length (allConns b) in
          let server := S client in
          let made := b <| allConns := allConns b ++ [mkSConn 0 p server [] false []; mkSConn p 0 client [] false []] |> in
          (if len (conns l) <? acceptCapacity then [(onListener i (fun l => l <| conns := conns l ++ [server] |>) made, Ok client)] else []) ++
          (if lclosed l then [(made, Err ListenerClosed)] else [])
      end
  end.

Definition Accept (i : nat) (b : SimpleVsockBackend) : outcomes nat :=
  match allListeners b !! i with
  | None => []
  | Some l =>
      match conns l with
      | c :: rest => [(onConn c (fun c => c <| readBuf := [] |>) (onListener i (fun l => l <| conns := rest |>) b), Ok c)]
      | [] => []
      end ++
      (if lclosed l then [(b, Err ListenerClosed)] else [])
  end.

Definition CloseListener (i : nat) (b : SimpleVsockBackend) : SimpleVsockBackend := onListener i (fun l => l <| lclosed := true |>) b.

Definition isClosed (i : nat) (b : SimpleVsockBackend) : bool :=
  match allConns b !! i with Some c => closed c | None => false end.

(** A read into a buffer of [n] bytes returns the bytes. *)
Definition ReadConn (i : nat) (n : Z) (b : SimpleVsockBackend) : outcomes bytes :=
  match allConns b !! i with
  | None => []
  | Some c =>
      if 0 <? len (readBuf c) then
        [(onConn i (fun c => c <| readBuf := drop (Z.to_nat n) (readBuf c) |>) b, Ok (take (Z.to_nat n) (readBuf c)))]
      else
        match readCh c with
        | data :: rest =>
            [(onConn i (fun c => c <| readCh := rest |> <| readBuf := if n <? len data then drop (Z.to_nat n) data else readBuf c |>) b,
              Ok (take (Z.to_nat n) data))]
        | [] => []
        end ++
        (if closed c then [(b, Err EndOfFile)] else []) ++
        (if isClosed (peer c) b then [(b, Err EndOfFile)] else [])
  end.

Definition WriteConn (i : nat) (data : bytes) (b : SimpleVsockBackend) : outcomes Z :=
  match allConns b !! i with
  | None => []
  | Some c =>
      match allConns b !! peer c with
      | None => []
      | Some p =>
          (if len (readCh p) <? readCapacity then [(onConn (peer c) (fun p => p <| readCh := readCh p ++ [data] |>) b, Ok (len data))] else []) ++
          (if closed p then [(b, Err PeerClosed)] else []) ++
          (if closed c then [(b, Err ConnClosed)] else [])
      end
  end.

Definition CloseConn (i : nat) (b : SimpleVsockBackend) : SimpleVsockBackend := onConn i (fun c => c <| closed := true |>) b.

(** * Runs *)

Inductive action := Wrote (i : nat) (data : bytes) | Got (i : nat) (data : bytes).

Definition writtenBy (i : nat) (tr : list action) : bytes :=
  concat ((fun a => match a with Wrote j data => if decide (i = j) then data else [] | Got _ _ => [] end) <$> tr).
Definition gotBy (i : nat) (tr : list action) : bytes :=
  concat ((fun a => match a with Got j data => if decide (i = j) then data else [] | Wrote _ _ => [] end) <$> tr).

(** The end waits in a listener: nobody has it yet. *)
Definition pending (i : nat) (b : SimpleVsockBackend) : Prop := exists l, l ∈ allListeners b /\ i ∈ conns l.

(** The calls in some order, each with one of its outcomes; whoever reads an end has been given it. *)
Inductive runs : SimpleVsockBackend -> list action -> Prop :=
| run_new : runs NewSimpleVsockBackend []
| run_listen p b tr : runs b tr -> runs (Listen p b).1 tr
| run_connect p b tr b' r : runs b tr -> (b', r) ∈ SimpleConnect p b -> runs b' tr
| run_accept i b tr b' r : runs b tr -> (b', r) ∈ Accept i b -> runs b' tr
| run_close_listener i b tr : runs b tr -> runs (CloseListener i b) tr
| run_read i n b tr b' data : runs b tr -> ~ pending i b -> (b', Ok data) ∈ ReadConn i n b -> runs b' (tr ++ [Got i data])
| run_read_fails i n b tr b' e : runs b tr -> (b', Err e) ∈ ReadConn i n b -> runs b' tr
| run_write i data b tr b' k : runs b tr -> (b', Ok k) ∈ WriteConn i data b -> runs b' (tr ++ [Wrote i data])
| run_write_fails i data b tr b' e : runs b tr -> (b', Err e) ∈ WriteConn i data b -> runs b' tr
| run_close i b tr : runs b tr -> runs (CloseConn i b) tr.

(** What an end has been sent and not yet returned. *)
Definition held (c : simpleVsockConn) : bytes := readBuf c ++ concat (readCh c).

Record endOK (b : SimpleVsockBackend) (tr : list action) (i : nat) (c : simpleVsockConn) : Prop := {
  end_peer : exists c', allConns b !! peer c = Some c' /\ peer c' = i;
  end_room : len (readCh c) <= readCapacity;
  end_stream : writtenBy (peer c) tr = gotBy i tr ++ held c;
}.

Record backendOK (b : SimpleVsockBackend) (tr : list action) : Prop := {
  ok_ends : forall i c, allConns b !! i = Some c -> endOK b tr i c;
  ok_pending : forall i, pending i b -> exists c, allConns b !! i = Some c /\ readBuf c = [];
  ok_fresh : forall i, (length (allConns b) <= i)%nat -> writtenBy i tr = [] /\ gotBy i tr = [];
}.

Lemma writtenBy_snoc i tr a : writtenBy i (tr ++ [a]) = writtenBy i tr ++ match a with Wrote j data => if decide (i = j) then data else [] | Got _ _ => [] end.
Proof. unfold writtenBy. rewrite fmap_app, concat_app. cbn. by rewrite app_nil_r. Qed.

Lemma gotBy_snoc i tr a : gotBy i (tr ++ [a]) = gotBy i tr ++ match a with Got j data => if decide (i = j) then data else [] | Wrote _ _ => [] end.
Proof. unfold gotBy. rewrite fmap_app, concat_app. cbn. by rewrite app_nil_r. Qed.

(** The other end of a connection is its only other end. *)
Lemma peer_peer b tr i c j d : backendOK b tr -> allConns b !! i = Some c -> allConns b !! j = Some d -> peer c = peer d -> i = j.
Proof.
  intros H Hi Hj E. destruct (end_peer _ _ _ _ (ok_ends _ _ H i c Hi)) as (c' & Hc' & Ec).
  destruct (end_peer _ _ _ _ (ok_ends _ _ H j d Hj)) as (d' & Hd' & Ed). congruence.
Qed.

(** A change of one end, with what happened to it. *)
Lemma onConn_ok k f b tr tr' : backendOK b tr -> (forall c, peer (f c) = peer c) ->
  (forall c, allConns b !! k = Some c -> len (readCh (f c)) <= readCapacity /\ writtenBy (peer c) tr' = gotBy k tr' ++ held (f c) /\
    (pending k b -> readBuf (f c) = [])) ->
  (forall j c, j <> k -> allConns b !! j = Some c -> writtenBy (peer c) tr' = writtenBy (peer c) tr /\ gotBy j tr' = gotBy j tr) ->
  (forall j, (length (allConns b) <= j)%nat -> writtenBy j tr' = [] /\ gotBy j tr' = []) ->
  backendOK (onConn k f b) tr'.
Proof.
  intros H Hf Hk Ho Hn.
  assert (Hl : forall j, allConns (onConn k f b) !! j = (if decide (j = k) then f else id) <$> allConns b !! j).
  { intros j. change (alter f k (allConns b) !! j = (if decide (j = k) then f else id) <$> allConns b !! j).
    case_decide; subst; [apply list_lookup_alter_eq|rewrite list_lookup_alter_ne by done; by destruct (allConns b !! j)]. }
  split.
  - intros j c Hj. rewrite Hl in Hj. apply fmap_Some in Hj as (c0 & Hj & ->). pose proof (ok_ends _ _ H j c0 Hj) as [(c' & Hc' & Hpc) Hr Hs].
    assert (Ep : peer ((if decide (j = k) then f else id) c0) = peer c0) by (case_decide; [apply Hf|done]).
    split; rewrite ?Ep.
    + exists ((if decide (peer c0 = k) then f else id) c'). rewrite Hl, Hc'. split; [done|]. destruct (decide (peer c0 = k)); [by rewrite Hf|done].
    + destruct (decide (j = k)) as [->|Hne]; [by apply Hk|done].
    + destruct (decide (j = k)) as [->|Hne]; [by apply Hk|]. destruct (Ho j c0) as [-> ->]; done.
  - intros j (l & Hl1 & Hl2). assert (Hpend : pending j b) by (exists l; done). destruct (ok_pending _ _ H j Hpend) as (c & Hc & Hb).
    exists ((if decide (j = k) then f else id) c). rewrite Hl, Hc. split; [done|]. case_decide; subst; [by apply Hk|done].
  - intros j Hj. apply Hn. cbn in Hj. by rewrite length_alter in Hj.
Qed.

(** Listeners do not touch the ends. *)
Lemma listeners_ok b b' tr : backendOK b tr -> allConns b' = allConns b -> (forall i, pending i b' -> pending i b) -> backendOK b' tr.
Proof.
  intros [H1 H2 H3] E Hp. split; rewrite ?E; [|auto..]. intros i c Hi. destruct (H1 i c Hi) as [A B C]. split; [by rewrite E|done|done].
Qed.

Lemma pending_listener i f b b' j : allListeners b' = alter f i (allListeners b) -> (forall l, conns (f l) ⊆ conns l) -> pending j b' -> pending j b.
Proof.
  intros E Hf (l & Hl & Hj). rewrite E in Hl. apply list_elem_of_lookup in Hl as [k Hk]. destruct (decide (k = i)) as [->|Hne].
  - rewrite list_lookup_alter_eq in Hk. apply fmap_Some in Hk as (l0 & Hk & ->). exists l0. split; [by eapply list_elem_of_lookup_2|set_solver].
  - rewrite list_lookup_alter_ne in Hk by done. exists l. split; [by eapply list_elem_of_lookup_2|done].
Qed.

(** * Every call keeps the invariant *)

Lemma listen_ok p b tr : backendOK b tr -> backendOK (Listen p b).1 tr.
Proof.
  intros H. unfold Listen. case_match; [done|]. eapply listeners_ok; [exact H|done|]. intros i (l & Hl & Hi). cbn in Hl.
  apply elem_of_app in Hl as [Hl|Hl]; [by exists l|]. apply list_elem_of_singleton in Hl as ->. by apply not_elem_of_nil in Hi.
Qed.

Lemma made_ok p b tr : backendOK b tr ->
  let n := length (allConns b) in
  backendOK (b <| allConns := allConns b ++ [mkSConn 0 p (S n) [] false []; mkSConn p 0 n [] false []] |>) tr.
Proof.
  intros H n. set (ends := [_; _]). assert (H0 : (allConns b ++ ends) !! n = Some (mkSConn 0 p (S n) [] false [])).
  { rewrite lookup_app_r by done. by replace (n - length (allConns b))%nat with 0%nat by (unfold n; lia). }
  assert (H1 : (allConns b ++ ends) !! S n = Some (mkSConn p 0 n [] false [])).
  { rewrite lookup_app_r by (unfold n; lia). by replace (S n - length (allConns b))%nat with 1%nat by (unfold n; lia). }
  destruct (ok_fresh _ _ H n) as [W0 G0]; [done|]. destruct (ok_fresh _ _ H (S n)) as [W1 G1]; [unfold n; lia|].
  split; change (allConns (b <| allConns := allConns b ++ ends |>)) with (allConns b ++ ends).
  - intros i c Hi. destruct (decide (i < n)%nat) as [Hlt|Hge].
    + rewrite lookup_app_l in Hi by done. destruct (ok_ends _ _ H i c Hi) as [(c' & Hc' & E) Hr Hs]. split; [|done|done].
      exists c'. split; [by apply lookup_app_l_Some|done].
    + assert (i = n \/ i = S n) as [->| ->] by (apply lookup_lt_Some in Hi; rewrite length_app in Hi; cbn in Hi; unfold n in *; lia).
      * rewrite H0 in Hi. injection Hi as <-. split; cbn [peer readCh]; [by eexists|done|by rewrite W1, G0].
      * rewrite H1 in Hi. injection Hi as <-. split; cbn [peer readCh]; [by eexists|done|by rewrite W0, G1].
  - intros i Hi. destruct (ok_pending _ _ H i Hi) as (c & Hc & E). exists c. split; [by apply lookup_app_l_Some|done].
  - intros i Hi. rewrite length_app in Hi. cbn in Hi. apply (ok_fresh _ _ H). lia.
Qed.

(** The outcomes of a method, one by one. *)
Ltac outcome H := repeat match type of H with
  | _ ∈ _ ++ _ => apply elem_of_app in H as [H|H]
  | _ ∈ (if ?c then _ else _) => destruct c eqn:?
  | _ ∈ [] => by apply not_elem_of_nil in H
  | _ ∈ [_] => apply list_elem_of_singleton in H; simplify_eq
  end.

Lemma connect_ok p b tr b' r : backendOK b tr -> (b', r) ∈ SimpleConnect p b -> backendOK b' tr.
Proof.
  intros H Hin. unfold SimpleConnect in Hin. destruct (listeners b !! p) as [i|]; [|outcome Hin; done].
  destruct (allListeners b !! i) as [l|] eqn:El; [|by apply not_elem_of_nil in Hin]. pose proof (made_ok p b tr H) as Hm. cbv zeta in Hin, Hm.
  outcome Hin; [|exact Hm]. set (made := b <| allConns := _ |>) in *. destruct Hm as [M1 M2 M3]. split; [|..|exact M3].
  - intros j c Hj. destruct (M1 j c Hj) as [A B C]. by split.
  - intros j (l' & Hl' & Hj). cbn in Hl'. apply list_elem_of_lookup in Hl' as [k Hk]. destruct (decide (k = i)) as [->|Hne].
    + rewrite list_lookup_alter_eq, El in Hk. injection Hk as <-. cbn in Hj. apply elem_of_app in Hj as [Hj|Hj].
      * apply M2. exists l. split; [by eapply list_elem_of_lookup_2|done].
      * apply list_elem_of_singleton in Hj as ->. exists (mkSConn p 0 (length (allConns b)) [] false []). split; [|done].
        change ((allConns b ++ [mkSConn 0 p (S (length (allConns b))) [] false []; mkSConn p 0 (length (allConns b)) [] false []]) !!
          S (length (allConns b)) = Some (mkSConn p 0 (length (allConns b)) [] false [])).
        rewrite lookup_app_r by lia. by replace (S (length (allConns b)) - length (allConns b))%nat with 1%nat by lia.
    + rewrite list_lookup_alter_ne in Hk by done. apply M2. exists l'. split; [by eapply list_elem_of_lookup_2|done].
Qed.

(** A change of an end that nothing happened to. *)
Lemma quiet_ok k f b tr : backendOK b tr -> (forall c, peer (f c) = peer c /\ readCh (f c) = readCh c) ->
  (forall c, allConns b !! k = Some c -> readBuf (f c) = readBuf c) -> backendOK (onConn k f b) tr.
Proof.
  intros H Hf Hb. eapply onConn_ok; [exact H|apply Hf| |done|apply (ok_fresh _ _ H)].
  intros c Hc. destruct (ok_ends _ _ H k c Hc) as [_ Hr Hs]. destruct (Hf c) as [_ E]. unfold held. rewrite E, Hb by done.
  split; [done|]. split; [done|]. intros Hp. destruct (ok_pending _ _ H k Hp) as (c' & Hc' & Ec). congruence.
Qed.

Lemma accept_ok i b tr b' r : backendOK b tr -> (b', r) ∈ Accept i b -> backendOK b' tr.
Proof.
  intros H Hin. unfold Accept in Hin. destruct (allListeners b !! i) as [l|] eqn:El; [|by apply not_elem_of_nil in Hin].
  destruct (conns l) as [|c rest] eqn:Ec; [outcome Hin; exact H|]. outcome Hin; [|exact H].
  assert (Hpend : pending c b) by (exists l; split; [by eapply list_elem_of_lookup_2|rewrite Ec; by left]).
  destruct (ok_pending _ _ H c Hpend) as (e & He & Eb).
  assert (H1 : backendOK (onListener i (fun l => l <| conns := rest |>) b) tr).
  { eapply listeners_ok; [exact H|done|]. intros j (l' & Hl' & Hj). cbn in Hl'. apply list_elem_of_lookup in Hl' as [k Hk].
    destruct (decide (k = i)) as [->|Hne].
    - rewrite list_lookup_alter_eq, El in Hk. injection Hk as <-. exists l. split; [by eapply list_elem_of_lookup_2|rewrite Ec; by right].
    - rewrite list_lookup_alter_ne in Hk by done. exists l'. split; [by eapply list_elem_of_lookup_2|done]. }
  apply quiet_ok; [done|done|]. intros e' He'. change (allConns (onListener i (fun l => l <| conns := rest |>) b)) with (allConns b) in He'.
  rewrite He in He'. injection He' as <-. done.
Qed.

(** What is taken from an end has been returned by it. *)
Lemma taken_ok i f data b tr c : backendOK b tr -> ~ pending i b -> allConns b !! i = Some c -> (forall c, peer (f c) = peer c) ->
  len (readCh (f c)) <= len (readCh c) -> held c = data ++ held (f c) -> backendOK (onConn i f b) (tr ++ [Got i data]).
Proof.
  intros H Hp Hc Hf Hl E. eapply onConn_ok; [exact H|exact Hf| | |].
  - intros c' Hc'. rewrite Hc in Hc'. injection Hc' as <-. destruct (ok_ends _ _ H i c Hc) as [_ Hr Hs]. split; [lia|].
    split; [|done]. rewrite writtenBy_snoc, gotBy_snoc, decide_True, app_nil_r, Hs, E by done. by rewrite app_assoc.
  - intros j d Hne _. rewrite writtenBy_snoc, gotBy_snoc, decide_False by done. by rewrite !app_nil_r.
  - intros j Hj. apply lookup_lt_Some in Hc. rewrite writtenBy_snoc, gotBy_snoc, decide_False by lia. rewrite !app_nil_r. by apply (ok_fresh _ _ H).
Qed.

Lemma read_ok i n b tr b' data : backendOK b tr -> ~ pending i b -> (b', Ok data) ∈ ReadConn i n b -> backendOK b' (tr ++ [Got i data]).
Proof.
  intros H Hp Hin. unfold ReadConn in Hin. destruct (allConns b !! i) as [c|] eqn:Hc; [|by apply not_elem_of_nil in Hin].
  destruct (0 <? len (readBuf c)) eqn:E0; [|destruct (readCh c) as [|d rest] eqn:Er]; outcome Hin; eapply taken_ok; try done.
  - unfold held. cbn. by rewrite app_assoc, take_drop.
  - rewrite Er. cbn [readCh set_field]. rewrite len_cons. lia.
  - assert (Eb : readBuf c = []) by (apply len_0_nil; pose proof (len_nonneg (readBuf c)); lia).
    unfold held. rewrite Er, Eb. cbn -[len Z.ltb app]. cbn [app concat]. rewrite app_assoc. f_equal.
    destruct (Z.ltb_spec n (len d)); [by rewrite take_drop|]. rewrite app_nil_r, take_ge; [done|]. unfold len in *. lia.
Qed.

Lemma write_ok i data b tr b' k : backendOK b tr -> (b', Ok k) ∈ WriteConn i data b -> backendOK b' (tr ++ [Wrote i data]).
Proof.
  intros H Hin. unfold WriteConn in Hin. destruct (allConns b !! i) as [c|] eqn:Hc; [|by apply not_elem_of_nil in Hin].
  destruct (allConns b !! peer c) as [p|] eqn:Hpc; [|by apply not_elem_of_nil in Hin]. outcome Hin.
  assert (Ei : peer p = i).
  { destruct (end_peer _ _ _ _ (ok_ends _ _ H i c Hc)) as (p' & Hp' & E). congruence. }
  eapply onConn_ok; [exact H|done| | |].
  - intros p' Hp'. rewrite Hpc in Hp'. injection Hp' as <-. destruct (ok_ends _ _ H _ p Hpc) as [_ Hr Hs]. cbn [readCh set_field].
    split; [rewrite len_app, len_cons, len_nil; lia|]. split.
    + rewrite writtenBy_snoc, gotBy_snoc, decide_True, app_nil_r, Hs by done. unfold held. cbn. rewrite concat_app. cbn. by rewrite !app_nil_r, !app_assoc.
    + intros Hp. destruct (ok_pending _ _ H _ Hp) as (p' & Hp' & E). cbn. congruence.
  - intros j d Hne Hj. rewrite writtenBy_snoc, gotBy_snoc, app_nil_r. rewrite decide_False; [by rewrite app_nil_r|].
    intros Ej. apply Hne. apply (peer_peer b tr j d (peer c) p H Hj Hpc). congruence.
  - intros j Hj. apply lookup_lt_Some in Hc. rewrite writtenBy_snoc, gotBy_snoc, decide_False by lia. rewrite !app_nil_r. by apply (ok_fresh _ _ H).
Qed.

(** A call that fails changes nothing. *)
Lemma failed_read i n b b' e : (b', Err e) ∈ ReadConn i n b -> b' = b.
Proof.
  unfold ReadConn. intros Hin. destruct (allConns b !! i); [|by apply not_elem_of_nil in Hin].
  case_match; [outcome Hin|]. case_match; outcome Hin; done.
Qed.

Lemma failed_write i data b b' e : (b', Err e) ∈ WriteConn i data b -> b' = b.
Proof.
  unfold WriteConn. intros Hin. destruct (allConns b !! i) as [c|]; [|by apply not_elem_of_nil in Hin].
  destruct (allConns b !! peer c); [|by apply not_elem_of_nil in Hin]. outcome Hin; done.
Qed.

Lemma runs_ok b tr : runs b tr -> backendOK b tr.
Proof.
  induction 1 as [|p b tr _ IH|p b tr b' r _ IH Hin|i b tr b' r _ IH Hin|i b tr _ IH|i n b tr b' data _ IH Hp Hin|i n b tr b' e _ IH Hin|i data b tr b' k _ IH Hin|i data b tr b' e _ IH Hin|i b tr _ IH].
  - split; [done| |done]. intros i (l & Hl & _). by apply not_elem_of_nil in Hl.
  - by apply listen_ok.
  - by eapply connect_ok.
  - by eapply accept_ok.
  - eapply listeners_ok; [exact IH|done|]. intros j. by eapply pending_listener.
  - by eapply read_ok.
  - by apply failed_read in Hin as ->.
  - by eapply write_ok.
  - by apply failed_write in Hin as ->.
  - by apply quiet_ok.
Qed.

(** C27: the in-memory sockets are streams.  Whatever calls are made in whatever order, with any outcome a select allows, the bytes
    an end of a connection has read so far, then those it holds, then those in its channel, are
    exactly the bytes written at the other end, in order: nothing is lost, repeated or
    reordered on the way.  The other end exists and has this one for its own, and the channel
    never holds more than 64 messages. *)
Theorem streams_in_order b tr i c : runs b tr -> allConns b !! i = Some c ->
  writtenBy (peer c) tr = gotBy i tr ++ held c /\ (exists c', allConns b !! peer c = Some c' /\ peer c' = i) /\ len (readCh c) <= readCapacity.
Proof. intros H%runs_ok Hc. destruct (ok_ends _ _ H i c Hc) as [A B C]. done. Qed.

(** * A run *)

(** The first outcome. *)
Definition firstOf {A} (os : outcomes A) : SimpleVsockBackend := match os with (b, _) :: _ => b | [] => NewSimpleVsockBackend end.

Definition listening : SimpleVsockBackend := (Listen 5 NewSimpleVsockBackend).1.
Definition connected : SimpleVsockBackend := firstOf (SimpleConnect 5 listening).
Definition accepted : SimpleVsockBackend := firstOf (Accept 0 connected).
Definition sent : SimpleVsockBackend := firstOf (WriteConn 0 [1; 2; 3] accepted).
Definition half : SimpleVsockBackend := firstOf (ReadConn 1 2 sent).

Lemma connected_runs : runs connected [].
Proof. eapply (run_connect 5 listening []); [apply run_listen, run_new|by left]. Qed.

Lemma half_runs : runs half [Wrote 0 [1; 2; 3]; Got 1 [1; 2]].
Proof.
  apply (run_read 1 2 sent [Wrote 0 [1; 2; 3]]); [|intros (l & Hl & Hi)|by left].
  - apply (run_write 0 [1; 2; 3] accepted [] sent 3); [|by left]. eapply (run_accept 0 connected); [apply connected_runs|by left].
  - apply list_elem_of_singleton in Hl as ->. by apply not_elem_of_nil in Hi.
Qed.

Lemma streams_in_order_witness : exists c, allConns half !! 1%nat = Some c /\ held c = [3] /\
  writtenBy (peer c) [Wrote 0 [1; 2; 3]; Got 1 [1; 2]] = gotBy 1 [Wrote 0 [1; 2; 3]; Got 1 [1; 2]] ++ held c.
Proof.
  exists (mkSConn 5 0 0 [] false [3]). split; [reflexivity|]. split; [reflexivity|].
  exact (proj1 (streams_in_order half _ 1 _ half_runs eq_refl)).
Defined.

(** * What is not promised *)

(** When an end has been closed, a read of the other end may report the end of the stream before it has returned what was written. *)
Theorem eof_overtakes_data : exists b, runs b [Wrote 0 [1; 2; 3]] /\ (b, Err EndOfFile) ∈ ReadConn 1 8 b /\
  exists b', (b', Ok [1; 2; 3]) ∈ ReadConn 1 8 b.
Proof.
  exists (CloseConn 0 sent). split; [|split].
  - apply run_close. apply (run_write 0 [1; 2; 3] accepted [] sent 3); [|by left]. eapply (run_accept 0 connected); [apply connected_runs|by left].
  - right. by left.
  - eexists. by left.
Qed.

(** A listener that is closed keeps its port. *)
Theorem closed_port_stays_taken p i b : listeners b !! p = Some i -> (Listen p (CloseListener i b)).2 = Err (PortInUse p).
Proof. intros H. unfold Listen, CloseListener, onListener. cbn -[lookup]. by rewrite H. Qed.

(** A connection to a closed listener may be made all the same; nobody will read it. *)
Theorem lost_connection : exists b', (b', Ok 0%nat) ∈ SimpleConnect 5 (CloseListener 0 listening) /\ pending 1 b'.
Proof. eexists. split; [by left|]. eexists. split; by left. Qed.

(** A write to an end that nobody reads blocks once the channel is full. *)
Theorem full_channel_blocks i data b c p : allConns b !! i = Some c -> allConns b !! peer c = Some p ->
  len (readCh p) = readCapacity -> closed p = false -> closed c = false -> WriteConn i data b = [].
Proof. intros Hc Hp Hl H1 H2. unfold WriteConn. by rewrite Hc, Hp, Hl, H1, H2. Qed.
