(* ===== verification/Nvme.v ===== *)
(** The NVMe controller: [src/internal/core/nvme/controller.go].

    [Controller] is the Go struct.  Queues are heap objects that the [queues] map
    points to: an admin command can change or unlink the queue whose commands
    are being processed, so the model keeps a heap and pointers.  Guest memory,
    the interrupt line and the disk are the interfaces of the code, as type
    classes.  The buffers [scratch] and [prps], which the code reuses from call to
    call, are overwritten before they are read; the model allocates them.  The
    trace output of [recordIOLocked] is left out.

    The loop over a submission queue takes fuel, and [None] is a run that has not
    returned; the other loops are bounded by their own counters. *)

From stdpp Require Import gmap.
From Stdlib Require Import String Ascii.
From S2P Require Import Prelude GuestMemory.

(** * The disk *)

Inductive diskError := EOF | DiskFailed.

(** [diskReadAt b p off] gives the buffer [p] after the call, the count and the
    error: Go's [io.ReaderAt] may use all of [p] as scratch space. *)
Class BlockBackend (B : Type) := {
  diskReadAt : B -> bytes -> Z -> bytes * Z * option diskError;
  diskWriteAt : B -> bytes -> Z -> B * Z * option diskError;
  diskSize : B -> Z;
}.

(** The documented contract of [io.ReaderAt]: the buffer keeps its length, the
    count is within it, and the bytes counted are the ones at that offset of the
    disk, whatever was in the buffer. *)
Class BlockBackendLaws (B : Type) `{BlockBackend B} := {
  disk_read_len b p off p' n e : diskReadAt b p off = (p', n, e) ->
    len p' = len p /\ 0 <= n <= len p;
  disk_read_same b p q off p' n e : len q = len p -> diskReadAt b p off = (p', n, e) ->
    exists q', diskReadAt b q off = (q', n, e) /\ slice q' 0 n = slice p' 0 n;
  disk_read_bytes b p off p' n e : is_bytes p -> diskReadAt b p off = (p', n, e) -> is_bytes p';
}.

(** * Constants and data *)

Abbreviation MMIOSize := 0x4000%Z.
Abbreviation regCAP := 0x00%Z.
Abbreviation regVS := 0x08%Z.
Abbreviation regINTMS := 0x0c%Z.
Abbreviation regINTMC := 0x10%Z.
Abbreviation regCC := 0x14%Z.
Abbreviation regCSTS := 0x1c%Z.
Abbreviation regAQA := 0x24%Z.
Abbreviation regASQ := 0x28%Z.
Abbreviation regACQ := 0x30%Z.
Abbreviation doorbellBase := 0x1000%Z.
Abbreviation adminQueueID := 0%Z.
Abbreviation blockSize := 512.
Abbreviation adminDeleteSQ := 0x00%Z.
Abbreviation adminCreateSQ := 0x01%Z.
Abbreviation adminGetLogPage := 0x02%Z.
Abbreviation adminDeleteCQ := 0x04%Z.
Abbreviation adminCreateCQ := 0x05%Z.
Abbreviation adminIdentify := 0x06%Z.
Abbreviation adminSetFeatures := 0x09%Z.
Abbreviation adminGetFeatures := 0x0a%Z.
Abbreviation adminAsyncEvent := 0x0c%Z.
Abbreviation ioFlush := 0x00%Z.
Abbreviation ioWrite := 0x01%Z.
Abbreviation ioRead := 0x02%Z.

Inductive nvmeError :=
| ErrMem (e : memError)
| ErrIRQ (e : irqError)
| ErrDisk (e : diskError)
| ErrReadSQ (qid head addr : Z) (e : memError)
| ErrWriteCQ (sqid cqid opcode cid : Z) (e : memError)
| ErrCompletionQueueMissing (cqID : Z)
| ErrMissingPRP1
| ErrListZero
| ErrPageTooSmall
| ErrChainedZero
| ErrPRPZero
| ErrPRPNotContiguous
| ErrShortWrite.

Record command := mkCommand {
  opcode : Z;
  cid : Z;
  nsid : Z;
  prp1 : Z;
  prp2 : Z;
  cdw10 : Z;
  cdw11 : Z;
  cdw12 : Z;
  cdw13 : Z;
}.

Record msiConfig := mkMSI {
  msiEnabled : bool;
  msiAddr : Z;
  msiData : Z;
}.

(** The fields of a 64-byte submission entry. *)
Definition parseCommand (raw : bytes) : command := {|
  opcode := at_ raw 0;
  cid := unle (slice raw 2 4);
  nsid := unle (slice raw 4 8);
  prp1 := unle (slice raw 24 32);
  prp2 := unle (slice raw 32 40);
  cdw10 := unle (slice raw 40 44);
  cdw11 := unle (slice raw 44 48);
  cdw12 := unle (slice raw 48 52);
  cdw13 := unle (slice raw 52 56);
|}.

Definition truncate (value sz : Z) : Z :=
  if 8 <=? sz then value
  else if sz <=? 0 then 0
  else Z.land value (wrap 64 (Z.shiftl 1 (sz * 8)) - 1).

Definition capability : Z :=
  Z.lor (Z.lor (Z.lor 0x3fff (Z.shiftl 1 16)) (Z.shiftl 0xf 24)) (Z.shiftl 1 37).

Fixpoint bytesOf (s : string) : bytes :=
  match s with
  | EmptyString => []
  | String c s => Z.of_N (N_of_ascii c) :: bytesOf s
  end.

Section nvme.
Context {G I B : Type} `{GM : GuestMemory G, IC : IRQController I, BB : BlockBackend B}.

Record queue := mkQueue {
  qid : Z;
  qsize : Z;
  sqAddr : Z;
  cqAddr : Z;
  cqID : Z;
  sqHead : Z;
  sqTail : Z;
  cqHead : Z;
  cqTail : Z;
  cqPending : Z;
  cqPhase : bool;
  interrupts : bool;
  sqMem : option window;
  cqMem : option window;
}.
#[export] Instance eta_queue : Eta queue := fun q =>
  mkQueue (qid q) (qsize q) (sqAddr q) (cqAddr q) (cqID q) (sqHead q) (sqTail q) (cqHead q)
    (cqTail q) (cqPending q) (cqPhase q) (interrupts q) (sqMem q) (cqMem q).

(** [&queue{id: n}]. *)
Definition newQueue (n : Z) : queue :=
  mkQueue n 0 0 0 0 0 0 0 0 0 false false None None.

Record Controller := mkController {
  Base : Z;
  Size : Z;
  IRQ : Z;
  cmem : option G;
  cirq : option I;
  backend : option B;
  cc : Z;
  csts : Z;
  intMask : Z;
  aqa : Z;
  asq : Z;
  acq : Z;
  pageSz : Z;
  irqHigh : bool;
  queues : gmap Z nat;
  heap : list queue;
  msi : msiConfig;
  readOps : Z;
  readBytes : Z;
  writeOps : Z;
  writeBytes : Z;
}.
#[export] Instance eta_controller : Eta Controller := fun c =>
  mkController (Base c) (Size c) (IRQ c) (cmem c) (cirq c) (backend c) (cc c) (csts c) (intMask c)
    (aqa c) (asq c) (acq c) (pageSz c) (irqHigh c) (queues c) (heap c) (msi c) (readOps c)
    (readBytes c) (writeOps c) (writeBytes c).

Abbreviation M := (proc Controller nvmeError).

(** * Heap, memory and interrupt line *)

Definition mapErr {E F A} (f : E -> F) (r : result E A) : result F A :=
  match r with Ok a => Ok a | Err e => Err (f e) | Panic => Panic end.

(** Reading a queue through its pointer; a nil pointer panics. *)
Definition deref (l : nat) : M queue := fun c =>
  match heap c !! l with Some q => (c, Ok q) | None => (c, Panic) end.

Definition update (l : nat) (f : queue -> queue) : M unit :=
  modify (fun c => c <| heap := alter f l (heap c) |>).

(** Methods of [c.mem]; calling one on a nil interface panics. *)
Definition readMem (wrapErr : memError -> nvmeError) (a n : Z) : M bytes := fun c =>
  match cmem c with
  | Some m => (c, mapErr wrapErr (ReadIPA a n m))
  | None => (c, Panic)
  end.

Definition writeMem (wrapErr : memError -> nvmeError) (a : Z) (d : bytes) : M unit := fun c =>
  match cmem c with
  | Some m => let '(m', r) := WriteIPA a d m in (c <| cmem := Some m' |>, mapErr wrapErr r)
  | None => (c, Panic)
  end.

(** [ReadIPAInto] where the memory has it, otherwise [ReadIPA] and a copy. *)
Definition readInto (a : Z) (dst : bytes) : M bytes := fun c =>
  match cmem c with
  | Some m =>
      match ReadIPAInto with
      | Some f => (c, mapErr ErrMem (f a (len dst) m))
      | None => (c, mapErr ErrMem (raw ← ReadIPA a (len dst) m; Ok (copy_into dst raw)))
      end
  | None => (c, Panic)
  end.

(** The methods of [c.irq], which may be nil. *)
Definition callIRQ (f : I -> I * result irqError unit) : M unit := fun c =>
  match cirq c with
  | Some i => let '(i', r) := f i in (c <| cirq := Some i' |>, mapErr ErrIRQ r)
  | None => (c, Ok tt)
  end.

(** * Interrupts *)

Definition raises (c : Controller) (l : nat) : bool :=
  match heap c !! l with
  | Some q => interrupts q && negb (cqPending q =? 0)
  | None => false
  end.

(** The level the line should have: some queue of the map with interrupts has
    completions the driver has not consumed. *)
Definition irqLevel (c : Controller) : bool :=
  negb (hasbits (intMask c) 1) && existsb (raises c) (map_to_list (queues c)).*2.

Definition updateIRQLocked : M unit :=
  c ← getState;
  let high := irqLevel c in
  if Bool.eqb high (irqHigh c) then mret tt
  else
    _ ← modify (fun c => c <| irqHigh := high |>);
    if msiEnabled (msi c) then
      if negb high then mret tt
      else
        match SetMSI with
        | Some f => callIRQ (f (msiAddr (msi c)) (msiData (msi c)))
        | None => mret tt
        end
    else callIRQ (SetIRQ (IRQ c) high).

(** * Pages of a transfer *)

Definition page (c : Controller) : Z := if pageSz c =? 0 then 4096 else pageSz c.

Definition transferPage (addr : Z) (data : bytes) (write : bool) : M bytes :=
  if addr =? 0 then throw ErrPRPZero
  else if write then _ ← writeMem ErrMem addr data; mret data
  else readInto addr data.

(** The entries of one PRP list page: [usable] of them from index [i]. *)
Fixpoint walkEntries {S} (usable : nat) (pg i : Z) (lst : bytes) (remaining : Z)
    (fn : S -> Z -> Z -> M S) (s : S) : M (S * Z) :=
  match usable with
  | O => mret (s, remaining)
  | Datatypes.S usable =>
      let addr := unle (slice lst (i * 8) (i * 8 + 8)) in
      let chunk := if remaining <? pg then remaining else pg in
      s ← fn s addr chunk;
      walkEntries usable pg (i + 1) lst (remaining - chunk) fn s
  end.

(** The loop over chained list pages; [fuel] bounds the entries that remain, of
    which every round uses at least one. *)
Fixpoint walkLists {S} (fuel : nat) (pg listAddr entriesRemaining remaining : Z)
    (fn : S -> Z -> Z -> M S) (s : S) : M S :=
  match fuel with
  | O => mret s
  | Datatypes.S fuel =>
      if entriesRemaining <=? 0 then mret s
      else
        let entriesPerList := pg / 8 in
        lst ← readInto listAddr (zeros pg);
        let hasNextList := entriesPerList <? entriesRemaining in
        let usable := if hasNextList then entriesPerList - 1 else entriesRemaining in
        '(s, remaining) ← walkEntries (Z.to_nat usable) pg 0 lst remaining fn s;
        if negb hasNextList then mret s
        else
          let next := unle (slice lst ((entriesPerList - 1) * 8) (entriesPerList * 8)) in
          if next =? 0 then throw ErrChainedZero
          else walkLists fuel pg next (entriesRemaining - usable) remaining fn s
  end.

Definition walkPRPListLocked {S} (listAddr remaining : Z) (fn : S -> Z -> Z -> M S) (s : S) : M S :=
  if remaining <=? 0 then mret s
  else if listAddr =? 0 then throw ErrListZero
  else
    c ← getState;
    let pg := page c in
    if pg / 8 <? 2 then throw ErrPageTooSmall
    else
      let entriesRemaining := godiv (remaining + pg - 1) pg in
      walkLists (Z.to_nat entriesRemaining) pg listAddr entriesRemaining remaining fn s.

(** The variables the callback of [transferPRP] captures. *)
Record run := mkRun {
  runAddr : Z;
  runOff : Z;
  runLen : Z;
  off : Z;
  rdata : bytes;
}.
#[export] Instance eta_run : Eta run := fun r =>
  mkRun (runAddr r) (runOff r) (runLen r) (off r) (rdata r).

Definition flushRun (write : bool) (r : run) : M run :=
  if runLen r =? 0 then mret r
  else
    d ← transferPage (runAddr r) (slice (rdata r) (runOff r) (runOff r + runLen r)) write;
    mret (r <| rdata := put (rdata r) (runOff r) d |> <| runLen := 0 |>).

Definition addSegment (write : bool) (r : run) (addr chunk : Z) : M run :=
  r ←
    (if runLen r =? 0 then
       mret (r <| runAddr := addr |> <| runOff := off r |> <| runLen := chunk |>)
     else if addr =? wrap 64 (runAddr r + runLen r) then
       mret (r <| runLen := runLen r + chunk |>)
     else
       r ← flushRun write r;
       mret (r <| runAddr := addr |> <| runOff := off r |> <| runLen := chunk |>));
  mret (r <| off := off r + chunk |>).

(** The data after the transfer: what was written, or what was read. *)
Definition transferPRP (prp1 prp2 : Z) (data : bytes) (write : bool) : M bytes :=
  if len data =? 0 then mret data
  else if prp1 =? 0 then throw ErrMissingPRP1
  else
    c ← getState;
    let pg := page c in
    let n := Z.min (pg - prp1 mod pg) (len data) in
    d ← transferPage prp1 (slice data 0 n) write;
    let data := put data 0 d in
    if len data <=? n then mret data
    else if len data - n <=? pg then
      d ← transferPage prp2 (slice data n (len data)) write;
      mret (put data n d)
    else
      r ← walkPRPListLocked prp2 (len data - n) (addSegment write) (mkRun 0 0 0 n data);
      r ← flushRun write r;
      mret (rdata r).

Definition readPRP (prp1 prp2 : Z) (dst : bytes) : M bytes := transferPRP prp1 prp2 dst false.

Definition writePRP (prp1 prp2 : Z) (src : bytes) : M unit :=
  _ ← transferPRP prp1 prp2 src true; mret tt.

(** The callback of [prpIsContiguousLocked]: [expected] is what it captures. *)
Definition expectPage (pg : Z) (expected addr chunk : Z) : M Z :=
  if negb (addr =? expected) then throw ErrPRPNotContiguous
  else mret (wrap 64 (expected + pg)).

Definition prpIsContiguousLocked (prp1 prp2 sz : Z) : M bool := fun c =>
  let pg := page c in
  let first := pg - prp1 mod pg in
  if sz <=? first then (c, Ok true)
  else
    let remaining := sz - first in
    let expected := wrap 64 (prp1 + first) in
    if remaining <=? pg then (c, Ok (prp2 =? expected))
    else
      match walkPRPListLocked prp2 remaining (expectPage pg) expected c with
      | (c, Ok _) => (c, Ok true)
      | (c, Err _) => (c, Ok false)
      | (c, Panic) => (c, Panic)
      end.

(** * Disk commands *)

(** Reads straight into guest memory when the transfer is one contiguous range;
    the flag says whether the command was handled. *)
Definition readBackendToPRP (offset sz prp1 prp2 : Z) : M (bool * option nvmeError) :=
  c ← getState;
  match cmem c, SliceIPA, backend c with
  | Some m, Some slicer, Some b =>
      if sz =? 0 then mret (false, None)
      else if prp1 =? 0 then mret (true, Some ErrMissingPRP1)
      else
        contiguous ← prpIsContiguousLocked prp1 prp2 sz;
        if negb contiguous then mret (false, None)
        else
          match slicer prp1 sz m with
          | Err _ => mret (false, None)
          | Panic => gopanic
          | Ok w =>
              let '(p, n, err) := diskReadAt b (sliceLoad w 0 (sliceLen w) m) offset in
              match err with
              | Some DiskFailed =>
                  _ ← modify (fun c => c <| cmem := Some (sliceStore w 0 p m) |>);
                  mret (true, Some (ErrDisk DiskFailed))
              | _ =>
                  let buf := slice p 0 n ++ zeros (sliceLen w - n) in
                  _ ← modify (fun c => c <| cmem := Some (sliceStore w 0 buf m) |>);
                  mret (true, None)
              end
          end
  | _, _, _ => mret (false, None)
  end.

Definition writeBackendFromPRP (offset sz prp1 prp2 : Z) : M (bool * option nvmeError) :=
  c ← getState;
  match cmem c, SliceIPA, backend c with
  | Some m, Some slicer, Some b =>
      if sz =? 0 then mret (false, None)
      else if prp1 =? 0 then mret (true, Some ErrMissingPRP1)
      else
        contiguous ← prpIsContiguousLocked prp1 prp2 sz;
        if negb contiguous then mret (false, None)
        else
          match slicer prp1 sz m with
          | Err _ => mret (false, None)
          | Panic => gopanic
          | Ok w =>
              let '(b', n, err) := diskWriteAt b (sliceLoad w 0 (sliceLen w) m) offset in
              _ ← modify (fun c => c <| backend := Some b' |>);
              match err with
              | Some e => mret (true, Some (ErrDisk e))
              | None =>
                  if negb (n =? sliceLen w) then mret (true, Some ErrShortWrite)
                  else mret (true, None)
              end
          end
  | _, _, _ => mret (false, None)
  end.

(** The counters of [recordIOLocked]. *)
Definition recordRead (sz : Z) : M unit := modify (fun c =>
  c <| readOps := wrap 64 (readOps c + 1) |> <| readBytes := wrap 64 (readBytes c + Z.max sz 0) |>).

Definition recordWrite (sz : Z) : M unit := modify (fun c =>
  c <| writeOps := wrap 64 (writeOps c + 1) |> <| writeBytes := wrap 64 (writeBytes c + Z.max sz 0) |>).

Definition ioOffset (cmd : command) : Z :=
  swrap 64 (wrap 64 (Z.lor (cdw10 cmd) (wrap 64 (Z.shiftl (cdw11 cmd) 32)) * blockSize)).

Definition ioCount (cmd : command) : Z := (Z.land (cdw12 cmd) 0xffff + 1) * blockSize.

(** The bounce-buffer path of a read and of a write. *)
Definition readBounce (b : B) (cmd : command) : M (Z * Z) :=
  let count := ioCount cmd in
  let '(p, n, err) := diskReadAt b (zeros count) (ioOffset cmd) in
  match err with
  | Some DiskFailed => mret (0, 1)
  | _ =>
      _ ← recordRead count;
      _ ← writePRP (prp1 cmd) (prp2 cmd) (slice p 0 n ++ zeros (count - n));
      mret (0, 0)
  end.

Definition writeBounce (cmd : command) : M (Z * Z) :=
  let count := ioCount cmd in
  buf ← readPRP (prp1 cmd) (prp2 cmd) (zeros count);
  c ← getState;
  match backend c with
  | None => gopanic
  | Some b =>
      let '(b', n, err) := diskWriteAt b buf (ioOffset cmd) in
      _ ← modify (fun c => c <| backend := Some b' |>);
      match err with
      | Some _ => mret (0, 1)
      | None => _ ← recordWrite count; mret (0, 0)
      end
  end.

Definition executeIOLocked (cmd : command) : M (Z * Z) :=
  c ← getState;
  match backend c with
  | None => mret (0, 1)
  | Some b =>
      if opcode cmd =? ioFlush then mret (0, 0)
      else if opcode cmd =? ioRead then
        '(ok, err) ← readBackendToPRP (ioOffset cmd) (ioCount cmd) (prp1 cmd) (prp2 cmd);
        if ok : bool then
          match err with
          | Some e => throw e
          | None => _ ← recordRead (ioCount cmd); mret (0, 0)
          end
        else readBounce b cmd
      else if opcode cmd =? ioWrite then
        '(ok, err) ← writeBackendFromPRP (ioOffset cmd) (ioCount cmd) (prp1 cmd) (prp2 cmd);
        if ok : bool then
          match err with
          | Some e => throw e
          | None => _ ← recordWrite (ioCount cmd); mret (0, 0)
          end
        else writeBounce cmd
      else mret (0, 1)
  end.

(** * Admin commands *)

Definition putLE (n : nat) (data : bytes) (o v : Z) : bytes := put data o (le n v).

Definition identifyController (data : bytes) : bytes :=
  let data := putLE 2 data 0 0x1b36 in
  let data := putLE 2 data 2 0x0010 in
  let data := put data 4 (take 20 (bytesOf "cc-nvme-000000000001")) in
  let data := put data 24 (take 40 (bytesOf "cc NVMe Block Device")) in
  let data := put data 64 (take 8 (bytesOf "0.1")) in
  let data := putLE 2 data 78 1 in
  let data := putLE 4 data 80 0x00010400 in
  let data := put data 512 [0x66] in
  let data := put data 513 [0x44] in
  putLE 4 data 516 1.

Definition identifyNamespace (b : option B) (data : bytes) : bytes :=
  let blocks :=
    match b with
    | Some b => if 0 <? diskSize b then diskSize b / blockSize else 0
    | None => 0
    end in
  let data := putLE 8 data 0 blocks in
  let data := putLE 8 data 8 blocks in
  let data := putLE 8 data 16 blocks in
  let data := put data 26 [0] in
  put data (128 + 2) [9].

(** One of the two assignments of [cacheQueueMemoryLocked]: a window of [n] bytes
    at [a], or the old one when [a] is zero or cannot be sliced. *)
Definition cacheWindow (f : Z -> Z -> G -> result memError window) (m : G) (a n : Z)
    (old : option window) : M (option window) :=
  if a =? 0 then mret old
  else
    match f a n m with
    | Ok w => mret (Some w)
    | Err _ => mret old
    | Panic => gopanic
    end.

Definition cacheQueueMemoryLocked (l : nat) : M unit :=
  c ← getState;
  q ← deref l;
  match cmem c, SliceIPA with
  | Some m, Some f =>
      if qsize q =? 0 then mret tt
      else
        w ← cacheWindow f m (sqAddr q) (qsize q * 64) (sqMem q);
        _ ← update l (fun q => q <| sqMem := w |>);
        w ← cacheWindow f m (cqAddr q) (qsize q * 16) (cqMem q);
        update l (fun q => q <| cqMem := w |>)
  | _, _ => mret tt
  end.

(** Storing a new queue in the heap. *)
Definition alloc (q : queue) : M nat := fun c =>
  (c <| heap := heap c ++ [q] |>, Ok (length (heap c))).

Definition findOrCreateQueue (n : Z) : M nat :=
  c ← getState;
  match queues c !! n with
  | Some l => mret l
  | None =>
      l ← alloc (newQueue n);
      _ ← modify (fun c => c <| queues := <[n := l]> (queues c) |>);
      mret l
  end.

Definition configureAdminQueueLocked : M unit :=
  c ← getState;
  let sqSize := wrap 16 (Z.land (aqa c) 0xfff + 1) in
  let cqSize := wrap 16 (Z.land (Z.shiftr (aqa c) 16) 0xfff + 1) in
  let sz := if cqSize <? sqSize then cqSize else sqSize in
  let sz := if sz =? 0 then 1 else sz in
  l ← alloc (newQueue adminQueueID <| qsize := sz |> <| sqAddr := asq c |> <| cqAddr := acq c |>
               <| cqPhase := true |> <| interrupts := true |>);
  _ ← cacheQueueMemoryLocked l;
  modify (fun c => c <| queues := <[adminQueueID := l]> (queues c) |>).

Definition identify (cmd : command) : M (Z * Z) :=
  c ← getState;
  let data := zeros 4096 in
  let cns := Z.land (cdw10 cmd) 0xff in
  if cns =? 0 then
    _ ← writePRP (prp1 cmd) (prp2 cmd) (identifyNamespace (backend c) data); mret (0, 0)
  else if cns =? 1 then
    _ ← writePRP (prp1 cmd) (prp2 cmd) (identifyController data); mret (0, 0)
  else if cns =? 2 then
    _ ← writePRP (prp1 cmd) (prp2 cmd) (putLE 4 data 0 1); mret (0, 0)
  else mret (0, 0).

Definition createCQ (cmd : command) : M (Z * Z) :=
  l ← findOrCreateQueue (wrap 16 (cdw10 cmd));
  _ ← update l (fun q => q <| qsize := wrap 16 (wrap 16 (Z.shiftr (cdw10 cmd) 16) + 1) |>
         <| cqAddr := prp1 cmd |> <| cqPhase := true |>
         <| interrupts := hasbits (cdw11 cmd) 2 |>);
  _ ← cacheQueueMemoryLocked l;
  mret (0, 0).

Definition createSQ (cmd : command) : M (Z * Z) :=
  l ← findOrCreateQueue (wrap 16 (cdw10 cmd));
  _ ← update l (fun q => q <| qsize := wrap 16 (wrap 16 (Z.shiftr (cdw10 cmd) 16) + 1) |>
         <| sqAddr := prp1 cmd |> <| cqID := wrap 16 (Z.shiftr (cdw11 cmd) 16) |>);
  _ ← cacheQueueMemoryLocked l;
  mret (0, 0).

Definition executeAdminLocked (cmd : command) : M (Z * Z) :=
  if opcode cmd =? adminIdentify then identify cmd
  else if opcode cmd =? adminCreateCQ then createCQ cmd
  else if opcode cmd =? adminCreateSQ then createSQ cmd
  else if (opcode cmd =? adminDeleteSQ) || (opcode cmd =? adminDeleteCQ) then
    _ ← modify (fun c => c <| queues := delete (wrap 16 (cdw10 cmd)) (queues c) |>);
    mret (0, 0)
  else if opcode cmd =? adminGetLogPage then
    _ ← writePRP (prp1 cmd) (prp2 cmd)
          (zeros ((Z.land (Z.shiftr (cdw10 cmd) 16) 0xfff + 1) * 4));
    mret (0, 0)
  else mret (0, 0).

Definition executeCommandLocked (q : queue) (cmd : command) : M (Z * Z) :=
  if qid q =? adminQueueID then executeAdminLocked cmd else executeIOLocked cmd.

(** * Submission and completion queues *)

(** The entry in the cached window, when it is inside it. *)
Definition queueSubmissionEntry (q : queue) (head : Z) (m : G) : option bytes :=
  let offset := head * 64 in
  match sqMem q with
  | Some w => if offset + 64 <=? sliceLen w then Some (sliceLoad w offset 64 m) else None
  | None => None
  end.

(** The 16 bytes of a completion entry. *)
Definition completionEntry (phase : bool) (sqid sqHead cid result status : Z) : bytes :=
  let statusField := Z.lor (wrap 16 (Z.shiftl status 1)) (if phase then 1 else 0) in
  le 4 result ++ zeros 4 ++ le 2 sqHead ++ le 2 sqid ++ le 2 cid ++ le 2 statusField.

Definition storeCompletion (wrapErr : memError -> nvmeError) (q : queue) (raw : bytes) : M unit :=
  let offset := cqTail q * 16 in
  let fallback := writeMem wrapErr (wrap 64 (cqAddr q + cqTail q * 16)) raw in
  match cqMem q with
  | Some w =>
      if offset + 16 <=? sliceLen w then
        modify (fun c => c <| cmem := sliceStore w offset raw <$> cmem c |>)
      else fallback
  | None => fallback
  end.

(** The ring state after one completion; the modulo panics for an empty ring. *)
Definition advanceTail (q : queue) : result nvmeError queue :=
  if qsize q =? 0 then Panic
  else
    let tail := wrap 16 (cqTail q + 1) mod qsize q in
    Ok (q <| cqTail := tail |>
          <| cqPending := if cqPending q <? qsize q then cqPending q + 1 else cqPending q |>
          <| cqPhase := if tail =? 0 then negb (cqPhase q) else cqPhase q |>).

Definition writeCompletionLocked (wrapErr : memError -> nvmeError) (l : nat)
    (sqid sqHead cid result status : Z) : M unit :=
  q ← deref l;
  _ ← storeCompletion wrapErr q (completionEntry (cqPhase q) sqid sqHead cid result status);
  q' ← lift (advanceTail q);
  update l (fun _ => q').

Definition advanceCompletionHeadLocked (head : Z) (q : queue) : queue :=
  if qsize q =? 0 then q <| cqHead := head |> <| cqPending := 0 |>
  else
    let oldHead := cqHead q in
    let newHead := head mod qsize q in
    let q := q <| cqHead := newHead |> in
    let consumed := if newHead <? oldHead then wrap 16 (qsize q - oldHead + newHead)
                    else wrap 16 (newHead - oldHead) in
    if (consumed =? 0) && (cqPending q =? qsize q) then q <| cqPending := 0 |>
    else if cqPending q <=? consumed then q <| cqPending := 0 |>
    else q <| cqPending := cqPending q - consumed |>.

(** [q.sqHead = (q.sqHead + 1) % q.size]. *)
Definition advanceSQ (l : nat) : M unit :=
  q ← deref l;
  if qsize q =? 0 then gopanic
  else update l (fun q => q <| sqHead := wrap 16 (sqHead q + 1) mod qsize q |>).

Definition fetchCommand (q : queue) : M bytes :=
  c ← getState;
  match cmem c ≫= queueSubmissionEntry q (sqHead q) with
  | Some raw => mret raw
  | None =>
      readMem (ErrReadSQ (qid q) (sqHead q) (sqAddr q)) (wrap 64 (sqAddr q + sqHead q * 64)) 64
  end.

(** The body of the loop of [processSubmissionQueueLocked]. *)
Definition processEntry (l : nat) : M unit :=
  q ← deref l;
  raw ← fetchCommand q;
  let cmd := parseCommand raw in
  if (qid q =? adminQueueID) && (opcode cmd =? adminAsyncEvent) then advanceSQ l
  else
    '(result, status) ← executeCommandLocked q cmd;
    _ ← advanceSQ l;
    q ← deref l;
    c ← getState;
    let cq := if qid q =? adminQueueID then Some l else queues c !! cqID q in
    match cq with
    | None => throw (ErrCompletionQueueMissing (cqID q))
    | Some k =>
        cqueue ← deref k;
        writeCompletionLocked (ErrWriteCQ (qid q) (qid cqueue) (opcode cmd) (cid cmd)) k
          (qid q) (sqHead q) (cid cmd) result status
    end.

Fixpoint processSubmissionQueueLocked (fuel : nat) (l : nat) (c : Controller)
  : option (Controller * result nvmeError unit) :=
  match fuel with
  | O => None
  | S fuel =>
      match heap c !! l with
      | None => Some (c, Panic)
      | Some q =>
          if sqHead q =? sqTail q then Some (updateIRQLocked c)
          else
            match processEntry l c with
            | (c, Ok _) => processSubmissionQueueLocked fuel l c
            | (c, Err e) => Some (c, Err e)
            | (c, Panic) => Some (c, Panic)
            end
      end
  end.

Definition writeDoorbellLocked (fuel : nat) (offset value : Z) (c : Controller)
  : option (Controller * result nvmeError unit) :=
  let index := offset / 4 in
  match queues c !! wrap 16 (index / 2) with
  | None => Some (c, Ok tt)
  | Some l =>
      if index mod 2 =? 0 then
        let c := (update l (fun q => q <| sqTail := wrap 16 value |>) c).1 in
        processSubmissionQueueLocked fuel l c
      else
        Some ((_ ← update l (advanceCompletionHeadLocked (wrap 16 value)); updateIRQLocked) c)
  end.

(** * Registers *)

Definition ReadMMIO (offset sz : Z) (c : Controller) : Z :=
  if offset =? regCAP then truncate capability sz
  else if offset =? regCAP + 4 then truncate (Z.shiftr capability 32) sz
  else if offset =? regVS then truncate 0x00010400 sz
  else if offset =? regINTMS then truncate (intMask c) sz
  else if offset =? regCC then truncate (cc c) sz
  else if offset =? regCSTS then truncate (csts c) sz
  else if offset =? regAQA then truncate (aqa c) sz
  else if offset =? regASQ then truncate (asq c) sz
  else if offset =? regASQ + 4 then truncate (Z.shiftr (asq c) 32) sz
  else if offset =? regACQ then truncate (acq c) sz
  else if offset =? regACQ + 4 then truncate (Z.shiftr (acq c) 32) sz
  else 0.

(** Assigning the low and the high half of a 64-bit register. *)
Definition setLow (v value : Z) : Z := Z.lor (Z.land v 0xffffffff00000000) (wrap 32 value).
Definition setHigh (v value : Z) : Z :=
  Z.lor (Z.land v 0xffffffff) (wrap 64 (Z.shiftl (wrap 32 value) 32)).

Definition writeCC (value : Z) : M unit :=
  c ← getState;
  let wasEnabled := hasbits (cc c) 1 in
  _ ← modify (fun c => c <| cc := wrap 32 value |>);
  if negb (hasbits (wrap 32 value) 1) then
    _ ← modify (fun c => c <| csts := 0 |>);
    if wasEnabled then
      _ ← modify (fun c => c <| queues := ∅ |> <| irqHigh := false |>);
      callIRQ (SetIRQ (IRQ c) false)
    else mret tt
  else
    let mps := Z.land (Z.shiftr (wrap 32 value) 7) 0xf in
    _ ← modify (fun c => c <| pageSz := wrap 64 (Z.shiftl 4096 mps) |>);
    _ ← configureAdminQueueLocked;
    modify (fun c => c <| csts := 1 |>).

Definition WriteMMIO (fuel : nat) (offset sz value : Z) (c : Controller)
  : option (Controller * result nvmeError unit) :=
  if offset =? regINTMS then
    Some ((_ ← modify (fun c => c <| intMask := Z.lor (intMask c) (wrap 32 value) |>);
           updateIRQLocked) c)
  else if offset =? regINTMC then
    Some ((_ ← modify (fun c => c <| intMask := Z.ldiff (intMask c) (wrap 32 value) |>);
           updateIRQLocked) c)
  else if offset =? regCC then Some (writeCC value c)
  else if offset =? regAQA then Some (c <| aqa := wrap 32 value |>, Ok tt)
  else if offset =? regASQ then Some (c <| asq := setLow (asq c) value |>, Ok tt)
  else if offset =? regASQ + 4 then Some (c <| asq := setHigh (asq c) value |>, Ok tt)
  else if offset =? regACQ then Some (c <| acq := setLow (acq c) value |>, Ok tt)
  else if offset =? regACQ + 4 then Some (c <| acq := setHigh (acq c) value |>, Ok tt)
  else if doorbellBase <=? offset then writeDoorbellLocked fuel (offset - doorbellBase) value c
  else Some (c, Ok tt).

Definition resetLocked (c : Controller) : Controller :=
  (callIRQ (SetIRQ (IRQ c) false)
     (c <| cc := 0 |> <| csts := 0 |> <| intMask := 0 |> <| aqa := 0 |> <| asq := 0 |> <| acq := 0 |>
        <| pageSz := 4096 |> <| queues := ∅ |> <| irqHigh := false |>)).1.

Definition NewController (b : option B) : Controller :=
  resetLocked (mkController 0 MMIOSize 0 None None b 0 0 0 0 0 0 4096 false ∅ [] (mkMSI false 0 0)
    0 0 0 0).

(** Called once, before the guest runs. *)
Definition Attach (m : G) (i : I) (c : Controller) : Controller :=
  c <| cmem := Some m |> <| cirq := Some i |>.

Definition ConfigureMSI (enabled : bool) (addr data : Z) (c : Controller) : Controller :=
  c <| msi := mkMSI enabled addr data |>.

End nvme.

(** * Disks for examples *)

(** A disk image in memory. *)
Record ramDisk := mkDisk { image : bytes }.

#[export] Instance ram_backend : BlockBackend ramDisk := {|
  diskReadAt b p off :=
    if off <? 0 then (p, 0, Some DiskFailed)
    else
      let n := Z.min (len p) (Z.max 0 (len (image b) - off)) in
      (put p 0 (slice (image b) off (off + n)), n, if n <? len p then Some EOF else None);
  diskWriteAt b p off :=
    if (off <? 0) || (len (image b) <? off + len p) then (b, 0, Some DiskFailed)
    else (mkDisk (put (image b) off p), len p, None);
  diskSize b := len (image b);
|}.

(** A disk that fails every access. *)
Record badDisk := mkBadDisk {}.

#[export] Instance bad_backend : BlockBackend badDisk := {|
  diskReadAt b p off := (p, 0, Some DiskFailed);
  diskWriteAt b p off := (b, 0, Some DiskFailed);
  diskSize b := 0;
|}.
