(* ===== verification/NvmeTransfer.v ===== *)
(** Data transfer of the NVMe controller ([Nvme]): the pages a command names.

    [prpSegments] is the meaning of a PRP pair and its chained lists, as a list of
    address ranges.  The theorems are that [transferPRP], which merges adjacent
    pages into runs, reads and writes exactly those ranges in order, and that
    the direct path of a disk read, which skips the bounce buffer, leaves guest
    memory as the bounce path does. *)

From stdpp Require Import gmap.
From S2P Require Import Prelude GuestMemory Nvme.

(** * The ranges a PRP pair names *)

Definition word (lst : bytes) (i : Z) : Z := unle (slice lst (i * 8) (i * 8 + 8)).

(** The first [n] page addresses of a PRP list at [listAddr] in the memory [f]: a
    list page that does not hold them all ends in the address of the next. *)
Fixpoint listAddrs (fuel : nat) (f : Z -> option Z) (pg listAddr n : Z) : option (list Z) :=
  match fuel with
  | O => Some []
  | S fuel =>
      if n <=? 0 then Some []
      else
        lst ← gather f listAddr pg;
        if pg / 8 <? n then
          let next := word lst (pg / 8 - 1) in
          if next =? 0 then None
          else
            rest ← listAddrs fuel f pg next (n - (pg / 8 - 1));
            Some (map (word lst) (seqZ 0 (pg / 8 - 1)) ++ rest)
        else Some (map (word lst) (seqZ 0 n))
  end.

(** Pages of [pg] bytes, the last of them possibly shorter. *)
Fixpoint chunks (pg rest : Z) (addrs : list Z) : list (Z * Z) :=
  match addrs with
  | [] => []
  | a :: addrs => (a, Z.min rest pg) :: chunks pg (rest - Z.min rest pg) addrs
  end.

Definition prpSegments (f : Z -> option Z) (pg prp1 prp2 n : Z) : option (list (Z * Z)) :=
  let first := Z.min (pg - prp1 mod pg) n in
  let rest := n - first in
  if rest <=? 0 then Some [(prp1, first)]
  else if rest <=? pg then Some [(prp1, first); (prp2, rest)]
  else if prp2 =? 0 then None
  else
    let entries := (rest + pg - 1) / pg in
    addrs ← listAddrs (Z.to_nat entries) f pg prp2 entries;
    Some ((prp1, first) :: chunks pg rest addrs).

(** The list pages the walk visits. *)
Fixpoint listPages (fuel : nat) (f : Z -> option Z) (pg listAddr n : Z) : list Z :=
  match fuel with
  | O => []
  | S fuel =>
      if n <=? 0 then []
      else
        listAddr ::
        match gather f listAddr pg with
        | Some lst =>
            if pg / 8 <? n then listPages fuel f pg (word lst (pg / 8 - 1)) (n - (pg / 8 - 1))
            else []
        | None => []
        end
  end.

#[local] Arguments total : simpl never.

Lemma chunks_app pg rest l k :
  chunks pg rest (l ++ k) =
  chunks pg rest l ++ chunks pg (rest - total (chunks pg rest l)) k.
Proof.
  revert rest. induction l as [|a l IH]; intros rest; cbn [app chunks].
  - by rewrite Z.sub_0_r.
  - rewrite IH, total_cons. cbn. do 3 f_equal. lia.
Qed.

(** With enough pages the chunks add up to what was asked for. *)
Lemma chunks_total pg rest addrs :
  0 < pg -> 0 <= rest <= pg * len addrs -> total (chunks pg rest addrs) = rest.
Proof.
  intros Hpg. revert rest. induction addrs as [|a addrs IH]; intros rest Hr.
  - change (len (@nil Z)) with 0 in Hr. change (0 = rest). lia.
  - rewrite len_cons in Hr. cbn [chunks]. rewrite total_cons. cbn [snd]. pose proof (len_nonneg addrs). rewrite IH by nia. lia.
Qed.

Lemma chunks_pos pg rest addrs :
  0 < pg -> rest <= 0 \/ pg * (len addrs - 1) < rest ->
  0 < rest -> Forall (fun s => 0 < s.2 <= pg) (chunks pg rest addrs).
Proof.
  intros Hpg. revert rest. induction addrs as [|a addrs IH]; intros rest [Hr|Hr] Hp; cbn [chunks];
    try lia; constructor; cbn [snd]; [lia|].
  rewrite len_cons in Hr. destruct addrs as [|b addrs]; [constructor|].
  apply IH; rewrite ?len_cons in *; pose proof (len_nonneg addrs); nia.
Qed.

Lemma word_width lst i : is_bytes lst -> in_width 64 (word lst i).
Proof.
  intros Hb. unfold word.
  assert (is_bytes (slice lst (i * 8) (i * 8 + 8))) as Hs
    by (unfold slice, is_bytes; apply Forall_take, Forall_drop, Hb).
  pose proof (unle_range _ Hs) as Hr. unfold in_width in *.
  assert (len (slice lst (i * 8) (i * 8 + 8)) <= 8)
    by (unfold len; rewrite length_slice; lia).
  pose proof (len_nonneg (slice lst (i * 8) (i * 8 + 8))).
  enough (2 ^ (8 * len (slice lst (i * 8) (i * 8 + 8))) <= 2 ^ 64) by lia.
  apply Z.pow_le_mono_r; lia.
Qed.

Section lists.
Context (f : Z -> option Z) (f_u8 : forall x y, f x = Some y -> is_u8 y).

Lemma listAddrs_width fuel pg la n addrs :
  listAddrs fuel f pg la n = Some addrs -> Forall (in_width 64) addrs.
Proof using f_u8.
  revert la n addrs. induction fuel as [|fuel IH]; intros la n addrs; cbn [listAddrs];
    [by intros [= <-]|].
  destruct (n <=? 0); [by intros [= <-]|].
  destruct (gather f la pg) as [lst|] eqn:El; [|done]. cbn.
  assert (forall k, Forall (in_width 64) (map (word lst) k)) as Hmap.
  { intros k. apply Forall_fmap, Forall_forall. intros x _. cbn.
    apply word_width. by eapply gather_bytes. }
  destruct (pg / 8 <? n); [|by intros [= <-]].
  destruct (_ =? 0); [done|].
  destruct (listAddrs fuel f pg _ _) as [more|] eqn:Em; [|done]. intros [= <-].
  apply Forall_app. eauto.
Qed.

Lemma listPages_width fuel pg la n :
  in_width 64 la -> Forall (in_width 64) (listPages fuel f pg la n).
Proof using f_u8.
  revert la n. induction fuel as [|fuel IH]; intros la n Hla; cbn [listPages]; [constructor|].
  destruct (n <=? 0); [constructor|]. constructor; [done|].
  destruct (gather f la pg) as [lst|] eqn:El; [|constructor].
  destruct (pg / 8 <? n); [|constructor]. apply IH, word_width. by eapply gather_bytes.
Qed.

Lemma listAddrs_len fuel pg la n addrs :
  16 <= pg -> 0 <= n <= Z.of_nat fuel -> listAddrs fuel f pg la n = Some addrs -> len addrs = n.
Proof.
  intros Hpg. revert la n addrs. induction fuel as [|fuel IH]; intros la n addrs Hn; cbn [listAddrs].
  - intros [= <-]. change (len (@nil Z)) with 0. lia.
  - destruct (Z.leb_spec n 0); [intros [= <-]; change (len (@nil Z)) with 0; lia|].
    destruct (gather f la pg) as [lst|]; [|done]. cbn.
    assert (2 <= pg / 8) by dlia.
    destruct (Z.ltb_spec (pg / 8) n).
    + destruct (_ =? 0); [done|].
      destruct (listAddrs fuel f pg _ _) as [more|] eqn:Em; [|done]. intros [= <-].
      apply IH in Em; [|lia]. rewrite len_app, Em. unfold len. rewrite length_map, length_seqZ. lia.
    + intros [= <-]. unfold len. rewrite length_map, length_seqZ. lia.
Qed.

(** The ranges of a well-formed PRP pair are not empty, are 64-bit addresses, and
    add up to the transfer. *)
Lemma prpSegments_inv pg prp1 prp2 n segs :
  16 <= pg -> 0 < n -> in_width 64 prp1 -> in_width 64 prp2 ->
  prpSegments f pg prp1 prp2 n = Some segs ->
  exists more, segs = (prp1, Z.min (pg - prp1 mod pg) n) :: more /\
    0 < Z.min (pg - prp1 mod pg) n /\ total more = n - Z.min (pg - prp1 mod pg) n /\
    Forall (fun s => in_width 64 s.1 /\ 0 < s.2) more.
Proof using f_u8.
  intros Hpg Hn H1 H2. unfold prpSegments.
  pose proof (Z.mod_pos_bound prp1 pg ltac:(lia)).
  remember (Z.min (pg - prp1 mod pg) n) as first.
  assert (0 < first) by lia.
  destruct (Z.leb_spec (n - first) 0).
  { intros [= <-]. exists []. repeat split; try done. change (0 = n - first). lia. }
  destruct (Z.leb_spec (n - first) pg).
  { intros [= <-]. exists [(prp2, n - first)]. split; [done|]. split; [done|].
    split; [rewrite total_cons; change (total []) with 0; cbn; lia|]. constructor; [|constructor]. cbn. split; [done|lia]. }
  destruct (prp2 =? 0); [done|].
  remember ((n - first + pg - 1) / pg) as e. assert (pg * e < n - first + pg <= pg * e + pg) by (subst e; dlia).
  destruct (listAddrs _ f pg prp2 e) as [addrs|] eqn:Ea; [|done]. intros [= <-].
  pose proof (listAddrs_width _ _ _ _ _ Ea) as Hw.
  apply listAddrs_len in Ea; [|done|nia].
  exists (chunks pg (n - first) addrs). split; [done|]. split; [done|]. split.
  - apply chunks_total; [lia|nia].
  - assert (Forall (fun s => 0 < s.2 <= pg) (chunks pg (n - first) addrs)) as Hc
      by (apply chunks_pos; [lia|right; nia|lia]).
    clear -Hw Hc. revert Hc. generalize (n - first). induction Hw; intros z Hc; cbn in *; [constructor|].
    apply Forall_cons in Hc as [Hc1 Hc]. constructor; [cbn in *; split; [done|lia]|auto].
Qed.

End lists.

Lemma put_prefix (l d : bytes) : len d <= len l -> slice (put l 0 d) 0 (len d) = d.
Proof. intros Hd. list_ext. Qed.

Lemma put_put_adjacent (l d e : bytes) :
  len d + len e = len l -> put (put l 0 d) (len d) e = d ++ e.
Proof. intros Hd. list_ext. Qed.

Section transfer.
Context {G I B : Type} `{GL : GuestMemoryLaws G} `{IC : IRQController I} `{BB : BlockBackend B}.

Abbreviation C := (@Controller G I B H).
Abbreviation M := (proc C nvmeError).

(** Walking a well-formed list makes one call per page, in order.  [Q s c segs]
    is an invariant of the captured variables, the controller and the pages still
    to come, under which a call succeeds and the list pages read as in [f]. *)
Section walk.
Context {S : Type} (Q : S -> C -> list (Z * Z) -> Prop) (fn : S -> Z -> Z -> M S).
Hypothesis fn_ok : forall s c a n segs, Q s c ((a, n) :: segs) ->
  exists s' c', fn s a n c = (c', Ok s') /\ Q s' c' segs.

Lemma walkEntries_run usable pg i lst rest more s c :
  let segs := chunks pg rest (map (word lst) (seqZ i (Z.of_nat usable))) in
  Q s c (segs ++ more) ->
  exists s' c', walkEntries usable pg i lst rest fn s c = (c', Ok (s', rest - total segs)) /\
    Q s' c' more.
Proof.
  revert i rest s c. induction usable as [|u IH]; intros i rest s c; cbn zeta.
  - change (seqZ i (Z.of_nat 0)) with (@nil Z). cbn. rewrite Z.sub_0_r. eauto.
  - rewrite seqZ_cons by lia. cbn [map chunks app walkEntries].
    replace (Z.pred (Z.of_nat (Datatypes.S u))) with (Z.of_nat u) by lia.
    change (Z.succ i) with (i + 1). fold (word lst i).
    replace (if rest <? pg then rest else pg) with (Z.min rest pg)
      by (destruct (Z.ltb_spec rest pg); lia).
    intros (s1 & c1 & Hcall & HQ)%fn_ok. destruct (IH _ _ _ _ HQ) as (s2 & c2 & Hw & HQ2).
    exists s2, c2. split; [|done]. cbv [mbind proc_bind]. rewrite Hcall, Hw, total_cons.
    cbn [snd]. by rewrite Z.sub_add_distr.
Qed.

Lemma walkLists_run f fuel pg listAddr n rest addrs s c :
  Forall (fun a => forall s c l segs, Q s c segs -> gather f a pg = Some l ->
            readInto a (zeros pg) c = (c, Ok l)) (listPages fuel f pg listAddr n) ->
  listAddrs fuel f pg listAddr n = Some addrs -> 16 <= pg ->
  Q s c (chunks pg rest addrs) ->
  exists s' c', walkLists fuel pg listAddr n rest fn s c = (c', Ok s') /\ Q s' c' [].
Proof.
  revert listAddr n rest addrs s c.
  induction fuel as [|fuel IH]; intros listAddr n rest addrs s c Hp Ha Hpg HQ;
    cbn [listAddrs listPages walkLists] in *; [simplify_eq; eauto|].
  destruct (n <=? 0) eqn:En; [simplify_eq; eauto|]. apply Z.leb_gt in En.
  apply Forall_cons in Hp as [Hread Hp].
  destruct (gather f listAddr pg) as [lst|] eqn:El; [|done]. cbn in Ha.
  specialize (Hread s c lst _ HQ eq_refl).
  cbv [mbind proc_bind]. rewrite Hread.
  assert (2 <= pg / 8) as Hq by dlia.
  destruct (Z.ltb_spec (pg / 8) n) as [Hmore|Hlast]; cbn [negb].
  - replace (slice lst ((pg / 8 - 1) * 8) (pg / 8 * 8))
      with (slice lst ((pg / 8 - 1) * 8) ((pg / 8 - 1) * 8 + 8)) by (f_equal; lia).
    fold (word lst (pg / 8 - 1)).
    destruct (word lst (pg / 8 - 1) =? 0); [done|].
    destruct (listAddrs fuel f pg _ _) as [more|] eqn:Em; [|done]. cbn in Ha. simplify_eq.
    rewrite chunks_app in HQ.
    replace (pg / 8 - 1) with (Z.of_nat (Z.to_nat (pg / 8 - 1))) in HQ by lia.
    destruct (walkEntries_run _ _ _ _ _ _ _ _ HQ) as (s1 & c1 & -> & HQ1).
    rewrite !Z2Nat.id in * by lia. by apply (IH _ _ _ more).
  - simplify_eq. rewrite <- (app_nil_r (chunks _ _ _)) in HQ.
    replace n with (Z.of_nat (Z.to_nat n)) in HQ by lia.
    destruct (walkEntries_run _ _ _ _ _ _ _ _ HQ) as (s1 & c1 & -> & HQ1). eauto.
Qed.

Lemma walkPRPListLocked_run f la rest addrs s c :
  let n := (rest + page c - 1) / page c in
  16 <= page c -> 0 < rest -> la <> 0 ->
  Forall (fun a => forall s c' l segs, Q s c' segs -> gather f a (page c) = Some l ->
            readInto a (zeros (page c)) c' = (c', Ok l)) (listPages (Z.to_nat n) f (page c) la n) ->
  listAddrs (Z.to_nat n) f (page c) la n = Some addrs ->
  Q s c (chunks (page c) rest addrs) ->
  exists s' c', walkPRPListLocked la rest fn s c = (c', Ok s') /\ Q s' c' [].
Proof.
  intros n Hpg Hr Hla Hp Ha HQ. unfold walkPRPListLocked.
  destruct (Z.leb_spec rest 0); [lia|]. destruct (Z.eqb_spec la 0); [done|].
  cbv [mbind proc_bind getState]. destruct (Z.ltb_spec (page c / 8) 2); [dlia|].
  unfold godiv. rewrite Z.quot_div_nonneg by lia. by apply (walkLists_run f _ _ _ _ _ addrs).
Qed.

End walk.

(** * Reading *)

Section with_memory.
Context (c0 : C) (m0 : G).
Hypothesis (Hmem : cmem c0 = Some m0) (Hok : memory_ok m0).

Lemma readInto_ok a dst d :
  in_width 64 a -> 0 < len dst < 2 ^ 63 -> gather (byteAt m0) a (len dst) = Some d ->
  readInto a dst c0 = (c0, Ok d).
Proof using Hmem Hok.
  intros Ha Hd Hg. unfold readInto. rewrite Hmem.
  destruct ReadIPAInto as [f|] eqn:Ef.
  - by rewrite (proj2 (readInto_law m0 a (len dst) d f Hok Ha Hd Ef) Hg).
  - rewrite (proj2 (read_law m0 a (len dst) d Hok Ha Hd) Hg). cbn.
    apply gather_len in Hg; [|lia]. by rewrite copy_into_exact.
Qed.

Lemma transferPage_read a dst d :
  a <> 0 -> in_width 64 a -> 0 < len dst < 2 ^ 63 -> gather (byteAt m0) a (len dst) = Some d ->
  transferPage a dst false c0 = (c0, Ok d).
Proof using Hmem Hok.
  intros Hz Ha Hd Hg. unfold transferPage. destruct (Z.eqb_spec a 0); [done|].
  by apply readInto_ok.
Qed.

(** The bytes already in place, and the pending run: [D] is the data to read. *)
Record readInv (D : bytes) (r : run) : Prop := {
  ri_len : len (rdata r) = len D;
  ri_off : 0 <= off r <= len D;
  ri_idle : runLen r = 0 -> slice (rdata r) 0 (off r) = slice D 0 (off r);
  ri_run : runLen r <> 0 ->
    0 < runLen r /\ 0 <= runOff r /\ off r = runOff r + runLen r /\
    slice (rdata r) 0 (runOff r) = slice D 0 (runOff r) /\
    runAddr r <> 0 /\ in_width 64 (runAddr r) /\
    gather (byteAt m0) (runAddr r) (runLen r) = Some (slice D (runOff r) (off r));
}.

Lemma flushRun_read D r :
  len D < 2 ^ 62 -> readInv D r ->
  exists r', flushRun false r c0 = (c0, Ok r') /\ readInv D r' /\ runLen r' = 0 /\ off r' = off r.
Proof using Hmem Hok.
  intros HD [Hl Ho Hi Hr]. unfold flushRun.
  destruct (Z.eqb_spec (runLen r) 0) as [E|E]; [exists r; split_and!; done|].
  destruct (Hr E) as (Hp & Hro & Hoff & Hpre & Hz & Hw & Hg). cbv [mbind proc_bind].
  rewrite (transferPage_read (runAddr r) _ (slice D (runOff r) (off r))); [|done|done|..].
  - eexists. split; [reflexivity|]. split_and!; try done. split; cbn; try done.
    + by rewrite len_put.
    + intros _. rewrite <- (slice_cat D 0 (runOff r) (off r)), <- Hpre by lia.
      clear -Hl Ho Hro Hoff Hp. list_ext.
  - rewrite len_slice by lia. lia.
  - rewrite len_slice by lia. by replace (runOff r + runLen r - runOff r) with (runLen r) by lia.
Qed.

(** A mapped range ends at most at the top of the address space. *)
Lemma mapped_end a n d :
  0 < n -> gather (byteAt m0) a n = Some d -> 0 <= a /\ a + n <= 2 ^ 64.
Proof using Hok.
  intros Hn Hg. assert (is_Some (gather (byteAt m0) a n)) as Hs by eauto.
  pose proof (byteAt_range m0 a Hok (proj1 (gather_is_Some _ _ _) Hs a ltac:(lia))).
  pose proof (byteAt_range m0 (a + n - 1) Hok (proj1 (gather_is_Some _ _ _) Hs (a + n - 1) ltac:(lia))).
  unfold in_width in *. lia.
Qed.

Lemma adjacent a n b d :
  0 < n -> gather (byteAt m0) a n = Some d -> b = wrap 64 (a + n) -> b <> 0 -> b = a + n.
Proof using Hok.
  intros Hn Hg Hb Hz. destruct (mapped_end a n d Hn Hg).
  destruct (decide (a + n = 2 ^ 64)) as [E|E].
  - rewrite E in Hb. exfalso. apply Hz. by rewrite Hb.
  - rewrite Hb, wrap_small; [done|unfold in_width; lia].
Qed.

Lemma addSegment_read D r a k :
  len D < 2 ^ 62 -> readInv D r -> a <> 0 -> in_width 64 a -> 0 < k -> off r + k <= len D ->
  gather (byteAt m0) a k = Some (slice D (off r) (off r + k)) ->
  exists r', addSegment false r a k c0 = (c0, Ok r') /\ readInv D r' /\ off r' = off r + k.
Proof using Hmem Hok.
  intros HD Hinv Hz Ha Hk Hend Hg.
  assert (forall r1, readInv D r1 -> runLen r1 = 0 -> off r1 = off r ->
            readInv D (r1 <| runAddr := a |> <| runOff := off r1 |> <| runLen := k |>
                          <| off := off r1 + k |>)) as Hnew.
  { intros r1 [Hl Ho Hi _] E Eo. split; cbn; [done|lia|lia|].
    intros _. rewrite Eo in *. split_and!; try done; try lia. auto. }
  unfold addSegment. cbv [mbind proc_bind].
  destruct (Z.eqb_spec (runLen r) 0) as [E|E].
  - eexists. split; [reflexivity|]. split; [exact (Hnew r Hinv E eq_refl)|done].
  - pose proof (ri_run D r Hinv E) as (Hp & Hro & Hoff & Hpre & Hz' & Hw & Hg').
    destruct (Z.eqb_spec a (wrap 64 (runAddr r + runLen r))) as [Ea|Ea].
    + eexists. split; [reflexivity|]. split; [|done].
      apply (adjacent _ _ _ _ Hp Hg') in Ea; [|done]. subst a.
      destruct Hinv as [Hl Ho _ _]. split; cbn; [done|lia|lia|]. intros _.
      split_and!; try done; try lia. rewrite gather_app, Hg' by lia. cbn. rewrite Hg. cbn.
      by rewrite slice_cat by lia.
    + destruct (flushRun_read D r HD Hinv) as (r1 & -> & Hinv1 & E1 & Eo).
      eexists. split; [reflexivity|]. split; [exact (Hnew r1 Hinv1 E1 Eo)|]. cbn. lia.
Qed.

(** The pages still to read hold the rest of [D]. *)
Definition readQ (D : bytes) (r : run) (c : C) (segs : list (Z * Z)) : Prop :=
  c = c0 /\ readInv D r /\ gatherAll (byteAt m0) segs = Some (slice D (off r) (len D)) /\
  Forall (fun s => s.1 <> 0 /\ in_width 64 s.1 /\ 0 < s.2) segs.

Lemma readQ_step D r c a k segs :
  len D < 2 ^ 62 -> readQ D r c ((a, k) :: segs) ->
  exists r' c', addSegment false r a k c = (c', Ok r') /\ readQ D r' c' segs.
Proof using Hmem Hok.
  intros HD (-> & Hinv & Hg & Hs). apply Forall_cons in Hs as [(Hz & Ha & Hk) Hs]. cbn in *.
  destruct (gather (byteAt m0) a k) as [d|] eqn:Ed; [|done]. cbn in Hg.
  destruct (gatherAll (byteAt m0) segs) as [e|] eqn:Ee; [|done]. cbn in Hg. injection Hg as Hg.
  pose proof (gather_len _ _ _ _ (Z.lt_le_incl _ _ Hk) Ed) as Hdl.
  pose proof (ri_off D r Hinv) as Ho.
  assert (len d + len e = len D - off r) as Hlen
    by (rewrite <- len_app, Hg; apply len_slice; lia).
  pose proof (len_nonneg e).
  rewrite <- (slice_cat D (off r) (off r + k) (len D)) in Hg by lia.
  apply app_inj_1 in Hg as [Hd He];
    [|rewrite length_slice; unfold len in *; lia].
  subst d. destruct (addSegment_read D r a k HD Hinv) as (r' & Hr' & Hinv' & Eo); try done; try lia.
  exists r', c0. split; [done|]. split; [done|]. split; [done|]. split; [|done].
  by rewrite Eo, Ee, He.
Qed.

Lemma page_read pg a l c segs D r :
  in_width 64 a -> 16 <= pg < 2 ^ 62 -> readQ D r c segs -> gather (byteAt m0) a pg = Some l ->
  readInto a (zeros pg) c = (c, Ok l).
Proof using Hmem Hok.
  intros Ha Hpg [-> _] Hl. apply readInto_ok; rewrite ?len_zeros by lia; try done. lia.
Qed.

(** The part of a transfer that goes through a PRP list. *)
Lemma list_read D data first prp2 addrs :
  let n := (len D - first + page c0 - 1) / page c0 in
  let segs := chunks (page c0) (len D - first) addrs in
  16 <= page c0 < 2 ^ 62 -> len data = len D -> 0 <= first < len D -> len D < 2 ^ 62 ->
  slice data 0 first = slice D 0 first -> in_width 64 prp2 -> prp2 <> 0 ->
  listAddrs (Z.to_nat n) (byteAt m0) (page c0) prp2 n = Some addrs ->
  gatherAll (byteAt m0) segs = Some (slice D first (len D)) ->
  Forall (fun s => s.1 <> 0 /\ in_width 64 s.1 /\ 0 < s.2) segs ->
  (r ← walkPRPListLocked prp2 (len D - first) (addSegment false) (mkRun 0 0 0 first data);
   r ← flushRun false r; mret (rdata r)) c0 = (c0, Ok D).
Proof using Hmem Hok.
  intros n segs Hpg Hl Hf HD Hpre Hw Hz Ha Hg Hs.
  assert (readQ D (mkRun 0 0 0 first data) c0 segs) as HQ.
  { split; [done|]. split; [|done]. split; cbn; try done; lia. }
  destruct (walkPRPListLocked_run (readQ D) (addSegment false)
              (fun s c a k sg => readQ_step D s c a k sg HD) (byteAt m0) prp2 (len D - first)
              addrs (mkRun 0 0 0 first data) c0 (proj1 Hpg) ltac:(lia) Hz) as (r & c & Hrun & HQ'); [|done..|].
  - eapply Forall_impl; [apply listPages_width; [|done]|].
    + intros x y. by apply byteAt_u8.
    + intros a Hwa s c l sg HQs. eapply page_read; done.
  - cbv [mbind proc_bind]. rewrite Hrun. destruct HQ' as (-> & Hinv & Hend & _).
    destruct (flushRun_read D r HD Hinv) as (r' & -> & Hinv' & E & Eo).
    cbv [mret proc_ret]. do 2 f_equal. cbn in Hend. injection Hend as Hend.
    assert (off r = len D) as Hoff.
    { pose proof (ri_off D r Hinv). apply (f_equal len) in Hend.
      rewrite len_slice in Hend by lia. change (len (@nil Z)) with 0 in Hend. lia. }
    pose proof (ri_idle D r' Hinv' E) as Hi. rewrite Eo, Hoff in Hi.
    rewrite <- (ri_len D r' Hinv') in Hi at 1. by rewrite !slice_full in Hi.
Qed.

End with_memory.

(** An NVMe data transfer from guest memory gathers, in order, exactly the
    ranges the PRP pair and its chained lists name, although the code merges
    adjacent pages into runs; it changes nothing else. *)
Theorem prp_read_gathers (c : C) (m : G) (prp1 prp2 : Z) (data d : bytes) segs :
  cmem c = Some m -> memory_ok m -> 16 <= page c < 2 ^ 62 ->
  in_width 64 prp1 -> in_width 64 prp2 -> 0 < len data < 2 ^ 62 ->
  prpSegments (byteAt m) (page c) prp1 prp2 (len data) = Some segs ->
  Forall (fun s => s.1 <> 0) segs ->
  gatherAll (byteAt m) segs = Some d ->
  readPRP prp1 prp2 data c = (c, Ok d).
Proof.
  intros Hm Hok Hpg H1 H2 Hn Hs Hz Hg.
  pose proof (byteAt_u8 m) as Hu8.
  destruct (prpSegments_inv (byteAt m) (fun x y => Hu8 x y Hok) _ _ _ _ _ (proj1 Hpg) (proj1 Hn) H1 H2 Hs)
    as (more & -> & Hf & Ht & Hmore).
  unfold prpSegments in Hs. revert Hs Hf Ht Hg Hz. unfold readPRP, transferPRP.
  remember (Z.min (page c - prp1 mod page c) (len data)) as first. intros Hs Hf Ht Hg Hz.
  assert (first <= len data) by lia.
  apply Forall_cons in Hz as [Hz1 Hz]. cbn [fst] in Hz1. cbn [gatherAll] in Hg.
  destruct (gather (byteAt m) prp1 first) as [d1|] eqn:E1; [|done]. cbn in Hg.
  destruct (gatherAll (byteAt m) more) as [d2|] eqn:E2; [|done]. injection Hg as <-.
  pose proof (gather_len _ _ _ _ (Z.lt_le_incl _ _ Hf) E1) as L1.
  pose proof (gatherAll_len _ _ _ Hmore E2) as L2.
  destruct (Z.eqb_spec (len data) 0); [lia|]. destruct (Z.eqb_spec prp1 0); [done|].
  cbv [mbind proc_bind getState]. rewrite <- Heqfirst.
  rewrite (transferPage_read c m Hm Hok prp1 _ d1); rewrite ?len_slice by lia; rewrite ?Z.sub_0_r;
    [|done|done|lia|done].
  assert (len (put data 0 d1) = len data) as Lp by apply len_put. rewrite Lp.
  destruct (Z.leb_spec (len data - first) 0) as [Hc|Hc].
  { destruct (Z.leb_spec (len data) first); [|lia]. injection Hs as <-. injection E2 as <-.
    cbv [mret proc_ret]. rewrite app_nil_r, put_full by lia. done. }
  destruct (Z.leb_spec (len data) first); [lia|].
  destruct (Z.leb_spec (len data - first) (page c)).
  - injection Hs as <-. apply Forall_cons in Hz as [Hz2 _]. cbn [gatherAll] in E2.
    destruct (gather (byteAt m) prp2 _) as [e|] eqn:E3; [|done]. cbn in E2. injection E2 as <-.
    rewrite (transferPage_read c m Hm Hok prp2 _ e); rewrite ?len_slice by lia; try done; [|lia].
    cbv [mret proc_ret]. do 2 f_equal. rewrite app_nil_r in *. rewrite <- L1.
    apply put_put_adjacent. rewrite total_cons in L2. change (total []) with 0 in L2. cbn in L2. lia.
  - destruct (Z.eqb_spec prp2 0); [done|].
    destruct (listAddrs _ _ _ _ _) as [addrs|] eqn:Ea; [|done]. injection Hs as <-.
    assert (len (d1 ++ d2) = len data) as LD by (rewrite len_app; lia).
    rewrite <- LD in *. apply (list_read c m Hm Hok (d1 ++ d2) _ first prp2 addrs); try done; try lia.
    + rewrite <- L1 at 1. rewrite put_prefix by lia. rewrite <- L1. by rewrite slice_app_l, slice_full by lia.
    + rewrite E2, slice_app_r by lia. replace (first - len d1) with 0 by lia.
      rewrite len_app. replace (len d1 + len d2 - len d1) with (len d2) by lia.
      by rewrite slice_full.
    + clear -Hz Hmore. apply Forall_and. split; [done|].
      eapply Forall_impl; [exact Hmore|]. cbn. tauto.
Qed.

(** * Writing *)

Lemma transferPage_write (c : C) m a d :
  cmem c = Some m -> memory_ok m -> a <> 0 -> in_width 64 a -> 0 < len d < 2 ^ 63 -> is_bytes d ->
  is_Some (gather (byteAt m) a (len d)) ->
  exists m', transferPage a d true c = (c <| cmem := Some m' |>, Ok d) /\ memory_ok m' /\
    forall x, byteAt m' x = scatter (byteAt m) a d x.
Proof.
  intros Hm Hok Hz Ha Hd Hb Hg. destruct (write_law m a d Hok Ha Hd Hb Hg) as (m' & Hw & Hok' & Hx).
  exists m'. split; [|done]. unfold transferPage. destruct (Z.eqb_spec a 0); [done|].
  cbv [mbind proc_bind writeMem]. by rewrite Hm, Hw.
Qed.

Section writing.
Context (c0 : C) (f0 : Z -> option Z) (data : bytes) (protected : Z -> Prop).
Hypothesis (Hbytes : is_bytes data) (Hlen : len data < 2 ^ 62).

(** No byte of the range is one of the protected addresses. *)
Definition avoids (a n : Z) : Prop := forall x, protected x -> ~ (a <= x < a + n).

(** The memory once the pending run has been written is [cur]. *)
Record writeInv (cur : Z -> option Z) (r : run) (m : G) : Prop := {
  wi_ok : memory_ok m;
  wi_data : rdata r = data;
  wi_off : 0 <= off r <= len data;
  wi_dom x : is_Some (byteAt m x) <-> is_Some (f0 x);
  wi_free x : protected x -> byteAt m x = f0 x;
  wi_idle : runLen r = 0 -> forall x, byteAt m x = cur x;
  wi_run : runLen r <> 0 ->
    0 < runLen r /\ 0 <= runOff r /\ off r = runOff r + runLen r /\
    runAddr r <> 0 /\ in_width 64 (runAddr r) /\ avoids (runAddr r) (runLen r) /\
    is_Some (gather f0 (runAddr r) (runLen r)) /\
    forall x, scatter (byteAt m) (runAddr r) (slice data (runOff r) (off r)) x = cur x;
}.

Lemma gather_dom m a n :
  (forall x, is_Some (byteAt m x) <-> is_Some (f0 x)) ->
  is_Some (gather f0 a n) -> is_Some (gather (byteAt m) a n).
Proof. intros Hd. rewrite !gather_is_Some. intros Hg x Hx. by apply Hd, Hg. Qed.

Lemma flushRun_write cur r m :
  writeInv cur r m ->
  exists r' m', flushRun true r (c0 <| cmem := Some m |>) = (c0 <| cmem := Some m' |>, Ok r') /\
    writeInv cur r' m' /\ runLen r' = 0 /\ off r' = off r.
Proof using Hbytes Hlen.
  intros Hinv. unfold flushRun. destruct (Z.eqb_spec (runLen r) 0) as [E|E].
  { exists r, m. by split_and!. }
  destruct (wi_run _ _ _ Hinv E) as (Hp & Hro & Hoff & Hz & Hw & Hav & Hg & Hcur).
  destruct Hinv as [Hok Hdata Ho Hdom Hfree _ _].
  rewrite Hdata, <- Hoff.
  assert (len (slice data (runOff r) (off r)) = runLen r) as Hl by (rewrite len_slice; lia).
  destruct (transferPage_write (c0 <| cmem := Some m |>) m (runAddr r) (slice data (runOff r) (off r)))
    as (m' & Hw' & Hok' & Hx); try done; [lia|by apply slice_is_bytes| |].
  { rewrite Hl. by apply gather_dom. }
  eexists _, m'. cbv [mbind proc_bind]. rewrite Hw'. split; [reflexivity|]. split; [|done].
  split; cbn; try done.
  - apply put_slice_same; lia.
  - intros x. rewrite Hx, scatter_dom, Hdom; [done|]. rewrite Hl. by apply gather_dom.
  - intros x Hpx. rewrite Hx, <- Hfree by done. unfold scatter. rewrite Hl.
    pose proof (Hav x Hpx).
    destruct (Z.leb_spec (runAddr r) x), (Z.ltb_spec x (runAddr r + runLen r)); done || lia.
  - intros _ x. by rewrite Hx, Hcur.
Qed.

Lemma addSegment_write cur r m a k :
  writeInv cur r m -> a <> 0 -> in_width 64 a -> 0 < k -> off r + k <= len data ->
  avoids a k -> is_Some (gather f0 a k) ->
  exists r' m', addSegment true r a k (c0 <| cmem := Some m |>) = (c0 <| cmem := Some m' |>, Ok r') /\
    writeInv (scatter cur a (slice data (off r) (off r + k))) r' m' /\ off r' = off r + k.
Proof using Hbytes Hlen.
  intros Hinv Hz Ha Hk Hend Hav Hg.
  assert (forall r1 m1, writeInv cur r1 m1 -> runLen r1 = 0 -> off r1 = off r ->
            writeInv (scatter cur a (slice data (off r) (off r + k)))
              (r1 <| runAddr := a |> <| runOff := off r1 |> <| runLen := k |>
                  <| off := off r1 + k |>) m1) as Hnew.
  { intros r1 m1 [Hok Hd Ho Hdom Hfr Hi _] E Eo. split; cbn; try done; try lia.
    intros _. rewrite Eo in *. split_and!; try done; try lia.
    intros x. apply scatter_ext. auto. }
  unfold addSegment. cbv [mbind proc_bind].
  destruct (Z.eqb_spec (runLen r) 0) as [E|E].
  - exists (r <| runAddr := a |> <| runOff := off r |> <| runLen := k |> <| off := off r + k |>), m.
    split; [reflexivity|]. split; [exact (Hnew r m Hinv E eq_refl)|done].
  - pose proof (wi_run _ _ _ Hinv E) as (Hp & Hro & Hoff & Hz' & Hw & Hav' & Hg' & Hcur).
    destruct (Z.eqb_spec a (wrap 64 (runAddr r + runLen r))) as [Ea|Ea].
    + exists (r <| runLen := runLen r + k |> <| off := off r + k |>), m.
      split; [reflexivity|]. split; [|done].
      destruct Hinv as [Hok Hd Ho Hdom Hfr _ _].
      destruct (gather_dom _ _ _ Hdom Hg') as [d' Hd'].
      apply (adjacent m Hok _ _ _ _ Hp Hd') in Ea; [|done]. subst a.
      split; cbn; try done; try lia. intros _.
      split_and!; try done; try lia.
      * intros x Hx. specialize (Hav x Hx). specialize (Hav' x Hx). lia.
      * rewrite gather_is_Some in *. intros x Hx.
        destruct (decide (x < runAddr r + runLen r)); [apply Hg'|apply Hg]; lia.
      * intros x. rewrite <- (slice_cat data (runOff r) (off r) (off r + k)) by lia.
        rewrite scatter_app, len_slice by lia.
        replace (runAddr r + (off r - runOff r)) with (runAddr r + runLen r) by lia.
        by apply scatter_ext.
    + destruct (flushRun_write cur r m Hinv) as (r1 & m1 & -> & Hinv1 & E1 & Eo).
      exists (r1 <| runAddr := a |> <| runOff := off r1 |> <| runLen := k |> <| off := off r1 + k |>), m1.
      split; [reflexivity|]. split; [exact (Hnew r1 m1 Hinv1 E1 Eo)|]. cbn. lia.
Qed.

(** The pages still to write take the rest of [data]; once they are written the
    memory is [final]. *)
Definition writeQ (final : Z -> option Z) (r : run) (c : C) (segs : list (Z * Z)) : Prop :=
  exists m cur, c = c0 <| cmem := Some m |> /\ writeInv cur r m /\
    (forall x, scatterAll cur segs (slice data (off r) (len data)) x = final x) /\
    total segs = len data - off r /\
    Forall (fun s => s.1 <> 0 /\ in_width 64 s.1 /\ 0 < s.2 /\ avoids s.1 s.2 /\
              is_Some (gather f0 s.1 s.2)) segs.

Lemma writeQ_step final r c a k segs :
  writeQ final r c ((a, k) :: segs) ->
  exists r' c', addSegment true r a k c = (c', Ok r') /\ writeQ final r' c' segs.
Proof using Hbytes Hlen.
  intros (m & cur & -> & Hinv & Hfin & Ht & Hs).
  apply Forall_cons in Hs as [(Hz & Ha & Hk & Hav & Hg) Hs]. cbn in Hz, Ha, Hk, Hav, Hg.
  rewrite total_cons in Ht. cbn in Ht. pose proof (wi_off _ _ _ Hinv).
  assert (0 <= total segs) by (apply total_nonneg; eapply Forall_impl; [exact Hs|cbn; tauto]).
  destruct (addSegment_write cur r m a k Hinv) as (r' & m' & Hr' & Hinv' & Eo); try done; try lia.
  exists r', (c0 <| cmem := Some m' |>). split; [done|].
  exists m', (scatter cur a (slice data (off r) (off r + k))). split_and!; try done; try lia.
  intros x. rewrite <- Hfin. cbn [scatterAll]. rewrite Eo.
  by rewrite take_slice, drop_slice by lia.
Qed.

Lemma page_write final pg a l r c segs :
  (forall x, a <= x < a + pg -> protected x) -> in_width 64 a -> 16 <= pg < 2 ^ 62 ->
  writeQ final r c segs -> gather f0 a pg = Some l -> readInto a (zeros pg) c = (c, Ok l).
Proof.
  intros Hpr Ha Hpg (m & cur & -> & Hinv & _) Hl.
  apply (readInto_ok _ m); rewrite ?len_zeros by lia; try done; [apply Hinv|lia|].
  rewrite <- Hl. apply gather_ext. intros x Hx. apply Hinv. auto.
Qed.

Lemma writeQ_done final r c :
  writeQ final r c [] ->
  exists r' m', flushRun true r c = (c0 <| cmem := Some m' |>, Ok r') /\ rdata r' = data /\
    memory_ok m' /\ forall x, byteAt m' x = final x.
Proof using Hbytes Hlen.
  intros (m & cur & -> & Hinv & Hfin & _).
  destruct (flushRun_write cur r m Hinv) as (r' & m' & Hr & Hinv' & E & _).
  exists r', m'. split; [done|]. split; [apply Hinv'|]. split; [apply Hinv'|].
  intros x. rewrite <- Hfin. by apply Hinv'.
Qed.

(** The part of a transfer that goes through a PRP list. *)
Lemma list_write final first prp2 addrs m :
  let n := (len data - first + page c0 - 1) / page c0 in
  let segs := chunks (page c0) (len data - first) addrs in
  16 <= page c0 < 2 ^ 62 -> 0 <= first < len data -> in_width 64 prp2 -> prp2 <> 0 ->
  Forall (fun a => in_width 64 a /\ forall x, a <= x < a + page c0 -> protected x)
    (listPages (Z.to_nat n) f0 (page c0) prp2 n) ->
  listAddrs (Z.to_nat n) f0 (page c0) prp2 n = Some addrs ->
  writeQ final (mkRun 0 0 0 first data) (c0 <| cmem := Some m |>) segs ->
  exists m', (r ← walkPRPListLocked prp2 (len data - first) (addSegment true) (mkRun 0 0 0 first data);
              r ← flushRun true r; mret (rdata r)) (c0 <| cmem := Some m |>)
             = (c0 <| cmem := Some m' |>, Ok data) /\
    memory_ok m' /\ forall x, byteAt m' x = final x.
Proof using Hbytes Hlen.
  intros n segs Hpg Hf Hw Hz Hp Ha HQ.
  pose proof (walkPRPListLocked_run (writeQ final) (addSegment true) (writeQ_step final) f0 prp2
              (len data - first) addrs (mkRun 0 0 0 first data) (c0 <| cmem := Some m |>)) as Hwalk.
  assert (page (c0 <| cmem := Some m |>) = page c0) as Ep by reflexivity. rewrite Ep in Hwalk.
  destruct (Hwalk (proj1 Hpg) ltac:(lia) Hz) as (r & c & Hrun & HQ'); [|exact Ha|exact HQ|].
  - eapply Forall_impl; [exact Hp|]. cbn beta. intros a [Hwa Hpa] s c l sg HQs.
    by apply (page_write final _ _ _ s c sg).
  - cbv [mbind proc_bind]. rewrite Hrun.
    destruct (writeQ_done final r c HQ') as (r' & m' & -> & Hd & Hok & Hx).
    exists m'. split; [|done]. cbv [mret proc_ret]. by rewrite Hd.
Qed.

End writing.

(** The addresses of a list of pages. *)
Definition within (pg : Z) (pages : list Z) (x : Z) : Prop :=
  Exists (fun a => a <= x < a + pg) pages.

Lemma within_avoids pg pages a n :
  Forall (fun p => p + pg <= a \/ a + n <= p) pages -> avoids (within pg pages) a n.
Proof.
  intros Hp x (p & Hin & Hx)%Exists_exists Ha. rewrite Forall_forall in Hp.
  specialize (Hp p Hin). lia.
Qed.

(** After the first page has been written, the run of list pages begins. *)
Lemma first_written (c : C) m m1 prp1 first data pages more :
  memory_ok m1 -> 0 < first <= len data ->
  is_Some (gather (byteAt m) prp1 first) ->
  (forall x, byteAt m1 x = scatter (byteAt m) prp1 (slice data 0 first) x) ->
  total more = len data - first ->
  Forall (fun s => in_width 64 s.1 /\ 0 < s.2) more ->
  Forall (fun s => s.1 <> 0 /\ is_Some (gather (byteAt m) s.1 s.2)) more ->
  Forall (fun a => Forall (fun s => a + page c <= s.1 \/ s.1 + s.2 <= a) ((prp1, first) :: more)) pages ->
  writeQ c (byteAt m) data (within (page c) pages)
    (scatterAll (byteAt m) ((prp1, first) :: more) data)
    (mkRun 0 0 0 first data) (c <| cmem := Some m1 |>) more.
Proof.
  intros Hok1 Hf Hg Hx1 Ht Hw Hz Hdis.
  assert (Forall (fun s => Forall (fun p => p + page c <= s.1 \/ s.1 + s.2 <= p) pages)
            ((prp1, first) :: more)) as Hav.
  { apply Forall_forall. intros s Hs. apply Forall_forall. intros p Hp.
    pose proof (proj1 (Forall_forall _ _) Hdis p Hp) as Hps. cbn beta in Hps.
    by apply (proj1 (Forall_forall _ _) Hps s). }
  apply Forall_cons in Hav as [Hav1 Hav]. cbn [fst snd] in Hav1. apply within_avoids in Hav1.
  assert (len (slice data 0 first) = first) as L1 by (rewrite len_slice; lia).
  exists m1, (byteAt m1). split; [done|]. split; [|split; [|split; [done|]]].
  - split; cbn; try done; [lia| |].
    + intros x. rewrite Hx1. apply scatter_dom. by rewrite L1.
    + intros x Hx. rewrite Hx1. unfold scatter. rewrite L1. specialize (Hav1 x Hx).
      destruct (Z.leb_spec prp1 x), (Z.ltb_spec x (prp1 + first)); done || lia.
  - intros x. cbn [scatterAll off]. rewrite (slice_to_end data) by lia.
    apply scatterAll_ext. intros y. by rewrite Hx1, slice_0.
  - rewrite !Forall_forall in *. intros s Hs. specialize (Hw s Hs). specialize (Hz s Hs).
    split_and!; try tauto. apply within_avoids, Hav, Hs.
Qed.

(** The pages that hold the PRP list, when the transfer needs one. *)
Definition prpPages (f : Z -> option Z) (pg prp1 prp2 n : Z) : list Z :=
  let rest := n - Z.min (pg - prp1 mod pg) n in
  let entries := (rest + pg - 1) / pg in
  if rest <=? pg then [] else listPages (Z.to_nat entries) f pg prp2 entries.

Lemma transferPRP_write (c : C) (m : G) (prp1 prp2 : Z) (data : bytes) segs :
  cmem c = Some m -> memory_ok m -> 16 <= page c < 2 ^ 62 ->
  in_width 64 prp1 -> in_width 64 prp2 -> 0 < len data < 2 ^ 62 -> is_bytes data ->
  prpSegments (byteAt m) (page c) prp1 prp2 (len data) = Some segs ->
  Forall (fun s => s.1 <> 0 /\ is_Some (gather (byteAt m) s.1 s.2)) segs ->
  Forall (fun a => Forall (fun s => a + page c <= s.1 \/ s.1 + s.2 <= a) segs)
    (prpPages (byteAt m) (page c) prp1 prp2 (len data)) ->
  exists m', transferPRP prp1 prp2 data true c = (c <| cmem := Some m' |>, Ok data) /\
    memory_ok m' /\ forall x, byteAt m' x = scatterAll (byteAt m) segs data x.
Proof.
  intros Hm Hok Hpg H1 H2 Hn Hb Hs Hz Hdis.
  pose proof (byteAt_u8 m) as Hu8.
  destruct (prpSegments_inv (byteAt m) (fun x y => Hu8 x y Hok) _ _ _ _ _ (proj1 Hpg) (proj1 Hn) H1 H2 Hs)
    as (more & -> & Hf & Ht & Hmore).
  unfold prpSegments in Hs. revert Hs Hf Ht Hz Hdis. unfold transferPRP, prpPages.
  remember (Z.min (page c - prp1 mod page c) (len data)) as first. intros Hs Hf Ht Hz Hdis.
  assert (first <= len data) by lia.
  apply Forall_cons in Hz as [[Hz1 Hg1] Hz]. cbn [fst snd] in Hz1, Hg1.
  destruct (Z.eqb_spec (len data) 0); [lia|]. destruct (Z.eqb_spec prp1 0); [done|].
  cbv [mbind proc_bind getState]. rewrite <- Heqfirst.
  assert (len (slice data 0 first) = first) as L1 by (rewrite len_slice; lia).
  destruct (transferPage_write c m prp1 (slice data 0 first)) as (m1 & -> & Hok1 & Hx1);
    rewrite ?L1; try done; [lia|by apply slice_is_bytes|].
  assert (put data 0 (slice data 0 first) = data) as -> by (apply put_slice_same; lia).
  assert (forall x, is_Some (byteAt m1 x) <-> is_Some (byteAt m x)) as Hdom.
  { intros x. rewrite Hx1. apply scatter_dom. by rewrite L1. }
  assert (forall y, scatter (byteAt m) prp1 (take (Z.to_nat first) data) y = byteAt m1 y) as Hfst.
  { intros y. by rewrite Hx1, slice_0. }
  destruct (Z.leb_spec (len data - first) 0).
  { destruct (Z.leb_spec (len data) first); [|lia]. injection Hs as <-.
    exists m1. split; [done|]. split; [done|]. intros x. by rewrite <- Hfst. }
  destruct (Z.leb_spec (len data) first); [lia|].
  destruct (Z.leb_spec (len data - first) (page c)).
  - injection Hs as <-. apply Forall_cons in Hz as [[Hz2 Hg2] _]. cbn [fst snd] in Hz2, Hg2.
    assert (len (slice data first (len data)) = len data - first) as L2 by (apply len_slice; lia).
    destruct (transferPage_write (c <| cmem := Some m1 |>) m1 prp2 (slice data first (len data)))
      as (m2 & -> & Hok2 & Hx2); rewrite ?L2; try done;
      [lia|by apply slice_is_bytes|by apply (gather_dom (byteAt m))|].
    exists m2. rewrite put_slice_same by lia. split; [done|]. split; [done|].
    intros x. rewrite Hx2. cbn [scatterAll]. by apply scatter_ext.
  - destruct (Z.eqb_spec prp2 0); [done|].
    destruct (listAddrs _ _ _ _ _) as [addrs|] eqn:Ea; [|done]. injection Hs as <-.
    remember ((len data - first + page c - 1) / page c) as e.
    remember (listPages (Z.to_nat e) (byteAt m) (page c) prp2 e) as pages.
    apply (list_write c (byteAt m) data (within (page c) pages) Hb (proj2 Hn) _ first prp2 addrs m1);
      rewrite <- ?Heqe, <- ?Heqpages; try done; [lia| |].
    + apply Forall_and. split; [subst pages; by apply listPages_width; eauto|].
      apply Forall_forall. intros a Ha x Hx. apply Exists_exists. eauto.
    + eapply first_written; eauto.
Qed.

(** C3: an NVMe data transfer to guest memory succeeds when every range the PRP
    pair names is mapped and no range overlaps the PRP list, and then stores the
    data in exactly those ranges, in order, although the code merges adjacent
    pages into runs. *)
Theorem prp_write_scatters (c : C) (m : G) (prp1 prp2 : Z) (data : bytes) segs :
  cmem c = Some m -> memory_ok m -> 16 <= page c < 2 ^ 62 ->
  in_width 64 prp1 -> in_width 64 prp2 -> 0 < len data < 2 ^ 62 -> is_bytes data ->
  prpSegments (byteAt m) (page c) prp1 prp2 (len data) = Some segs ->
  Forall (fun s => s.1 <> 0 /\ is_Some (gather (byteAt m) s.1 s.2)) segs ->
  Forall (fun a => Forall (fun s => a + page c <= s.1 \/ s.1 + s.2 <= a) segs)
    (prpPages (byteAt m) (page c) prp1 prp2 (len data)) ->
  exists m', writePRP prp1 prp2 data c = (c <| cmem := Some m' |>, Ok tt) /\
    memory_ok m' /\ forall x, byteAt m' x = scatterAll (byteAt m) segs data x.
Proof.
  intros. destruct (transferPRP_write c m prp1 prp2 data segs) as (m' & Hw & Hr); try done.
  exists m'. split; [|done]. unfold writePRP. cbv [mbind proc_bind]. by rewrite Hw.
Qed.

(** * The direct path of a disk read *)

(** Pages one after the other from [a]. *)
Fixpoint consecutive (pg a : Z) (addrs : list Z) : Prop :=
  match addrs with
  | [] => True
  | b :: addrs => b = a /\ consecutive pg (wrap 64 (a + pg)) addrs
  end.

Fixpoint advance (pg a : Z) (addrs : list Z) : Z :=
  match addrs with [] => a | _ :: addrs => advance pg (wrap 64 (a + pg)) addrs end.

Lemma consecutive_app pg a l k :
  consecutive pg a (l ++ k) <-> consecutive pg a l /\ consecutive pg (advance pg a l) k.
Proof. revert a. induction l as [|b l IH]; intros a; cbn; [tauto|]. rewrite IH. tauto. Qed.

(** Ranges that follow each other without a gap. *)
Fixpoint tiles (a : Z) (segs : list (Z * Z)) : Prop :=
  match segs with
  | [] => True
  | (b, k) :: segs => b = a /\ tiles (a + k) segs
  end.

Lemma chunks_tiles pg a rest addrs :
  0 < pg -> 0 <= a -> a + rest <= 2 ^ 64 -> pg * (len addrs - 1) < rest ->
  consecutive pg a addrs -> tiles a (chunks pg rest addrs).
Proof.
  intros Hpg. revert a rest. induction addrs as [|b addrs IH]; intros a rest Ha Hend Hr; cbn [chunks tiles];
    [done|]. intros [-> Hc]. split; [done|]. rewrite len_cons in Hr.
  destruct addrs as [|b addrs]; [done|]. rewrite len_cons in Hr. pose proof (len_nonneg addrs).
  assert (pg < rest) by nia. rewrite wrap_small in Hc by (unfold in_width; lia).
  rewrite Z.min_r by lia. apply IH; [lia|lia| |done]. rewrite len_cons. lia.
Qed.

Lemma scatterAll_tiles f a segs d x :
  tiles a segs -> Forall (fun s => 0 < s.2) segs -> total segs = len d ->
  scatterAll f segs d x = scatter f a d x.
Proof.
  revert f a d. induction segs as [|[b k] segs IH]; intros f a d Ht Hp Hd.
  - symmetry in Hd. apply len_0_nil in Hd as ->. cbn. unfold scatter. change (len (@nil Z)) with 0.
    destruct (Z.leb_spec a x), (Z.ltb_spec x (a + 0)); done || lia.
  - destruct Ht as [-> Ht]. apply Forall_cons in Hp as [Hk Hp]. cbn in Hk. rewrite total_cons in Hd.
    cbn in Hd. pose proof (total_nonneg segs Hp).
    cbn [scatterAll]. rewrite (IH _ (a + k)); [|done|done|rewrite len_drop; lia].
    rewrite <- (take_drop (Z.to_nat k) d) at 3. rewrite scatter_app, len_take.
    by replace (a + Z.min (Z.of_nat (Z.to_nat k)) (len d)) with (a + k) by lia.
Qed.

Lemma tiles_within a segs :
  tiles a segs -> Forall (fun s => 0 < s.2) segs ->
  Forall (fun s => a <= s.1 /\ s.1 + s.2 <= a + total segs) segs.
Proof.
  revert a. induction segs as [|[b k] segs IH]; intros a Ht Hp; [constructor|].
  destruct Ht as [-> Ht]. apply Forall_cons in Hp as [Hk Hp]. cbn in Hk.
  pose proof (total_nonneg segs Hp). rewrite total_cons. constructor; [cbn; lia|].
  eapply Forall_impl; [apply (IH _ Ht Hp)|]. cbn. lia.
Qed.

Section contiguous.
Context (c0 : C) (m0 : G).
Hypothesis (Hmem : cmem c0 = Some m0) (Hok : memory_ok m0).

Lemma readInto_inv a dst c' l :
  in_width 64 a -> 0 < len dst < 2 ^ 63 -> readInto a dst c0 = (c', Ok l) ->
  c' = c0 /\ gather (byteAt m0) a (len dst) = Some l.
Proof using Hmem Hok.
  intros Ha Hd. unfold readInto. rewrite Hmem. destruct ReadIPAInto as [f|] eqn:Ef.
  - intros [= <- Hr]. split; [done|]. apply (readInto_law m0 a (len dst) l f Hok Ha Hd Ef).
    destruct (f a (len dst) m0); by simplify_eq/=.
  - intros [= <- Hr]. split; [done|].
    destruct (ReadIPA a (len dst) m0) as [raw|e|] eqn:Er; simplify_eq/=.
    apply read_law in Er; [|done..]. rewrite Er. f_equal.
    apply gather_len in Er; [|lia]. by rewrite copy_into_exact.
Qed.

Lemma walkEntries_expect usable pg i lst rest expected c' e rest' :
  walkEntries usable pg i lst rest (expectPage pg) expected c0 = (c', Ok (e, rest')) ->
  let addrs := map (word lst) (seqZ i (Z.of_nat usable)) in
  c' = c0 /\ consecutive pg expected addrs /\ e = advance pg expected addrs.
Proof.
  revert i rest expected. induction usable as [|u IH]; intros i rest expected Hw.
  - change (seqZ i (Z.of_nat 0)) with (@nil Z). by injection Hw as <- <- <-.
  - cbn [walkEntries] in Hw. cbv [mbind proc_bind] in Hw. unfold expectPage in Hw at 1.
    rewrite seqZ_cons by lia. cbn [map consecutive advance].
    replace (Z.pred (Z.of_nat (Datatypes.S u))) with (Z.of_nat u) by lia.
    change (Z.succ i) with (i + 1). fold (word lst i) in Hw.
    destruct (Z.eqb_spec (word lst i) expected); [|done]. apply IH in Hw. tauto.
Qed.

(** A walk that finds every page where it expects it went over a well-formed
    list of consecutive pages. *)
Lemma walkLists_expect fuel pg la n rest expected c' e :
  16 <= pg < 2 ^ 62 -> in_width 64 la ->
  walkLists fuel pg la n rest (expectPage pg) expected c0 = (c', Ok e) ->
  c' = c0 /\ exists addrs, listAddrs fuel (byteAt m0) pg la n = Some addrs /\
    consecutive pg expected addrs.
Proof using Hmem Hok.
  intros Hpg. revert la n rest expected.
  induction fuel as [|fuel IH]; intros la n rest expected Hla Hw; cbn [walkLists listAddrs] in *.
  { injection Hw as <- <-. split; [done|]. by exists []. }
  destruct (Z.leb_spec n 0); [injection Hw as <- <-; split; [done|]; by exists []|].
  apply proc_bind_Ok in Hw as (c1 & lst & Hr & Hw).
  apply readInto_inv in Hr as [-> Hl]; rewrite ?len_zeros in * by lia; [|done|lia].
  rewrite Hl. cbn. apply proc_bind_Ok in Hw as (c1 & [e1 rest1] & He & Hw).
  apply walkEntries_expect in He as (-> & Hc & ->).
  assert (2 <= pg / 8) by dlia.
  destruct (Z.ltb_spec (pg / 8) n); cbn [negb] in Hw; rewrite Z2Nat.id in * by lia.
  - replace (slice lst ((pg / 8 - 1) * 8) (pg / 8 * 8))
      with (slice lst ((pg / 8 - 1) * 8) ((pg / 8 - 1) * 8 + 8)) in Hw by (f_equal; lia).
    fold (word lst (pg / 8 - 1)) in Hw. destruct (_ =? 0); [done|].
    apply IH in Hw as (-> & addrs & -> & Hc2).
    + split; [done|]. eexists. split; [done|]. by apply consecutive_app.
    + apply word_width. eapply gather_bytes; [|exact Hl]. intros x y. by apply byteAt_u8.
  - injection Hw as <- <-. split; [done|]. eauto.
Qed.

Lemma contiguous_segments prp1 prp2 n c' :
  16 <= page c0 < 2 ^ 62 -> in_width 64 prp1 -> in_width 64 prp2 -> 0 < n -> prp1 + n <= 2 ^ 64 ->
  prpIsContiguousLocked prp1 prp2 n c0 = (c', Ok true) ->
  c' = c0 /\ exists segs, prpSegments (byteAt m0) (page c0) prp1 prp2 n = Some segs /\ tiles prp1 segs.
Proof using Hmem Hok.
  intros Hpg H1 H2 Hn Hend. unfold prpIsContiguousLocked, prpSegments. cbv zeta.
  pose proof (Z.mod_pos_bound prp1 (page c0) ltac:(lia)). unfold in_width in H1.
  destruct (Z.leb_spec n (page c0 - prp1 mod page c0)) as [Hs|Hs].
  { intros [= <-]. split; [done|]. rewrite Z.min_r, Z.sub_diag by lia. by eexists. }
  rewrite Z.min_l by lia. remember (page c0 - prp1 mod page c0) as first.
  rewrite wrap_small by (unfold in_width; lia).
  destruct (Z.leb_spec (n - first) 0); [lia|].
  destruct (Z.leb_spec (n - first) (page c0)).
  { intros [= <- E%Z.eqb_eq]. split; [done|]. eexists. split; [done|]. by rewrite E. }
  destruct (walkPRPListLocked prp2 (n - first) _ _ c0) as [c1 [e|e|]] eqn:Hw; [|done..].
  intros [= <-]. unfold walkPRPListLocked in Hw.
  destruct (Z.leb_spec (n - first) 0); [lia|]. destruct (Z.eqb_spec prp2 0); [done|].
  cbv [mbind proc_bind getState] in Hw. destruct (page c0 / 8 <? 2); [done|].
  unfold godiv in Hw. rewrite Z.quot_div_nonneg in Hw by lia.
  remember ((n - first + page c0 - 1) / page c0) as k.
  assert (page c0 * k < n - first + page c0 <= page c0 * k + page c0) by (subst k; dlia).
  apply walkLists_expect in Hw as (-> & addrs & Ha & Hc); [|done..]. split; [done|].
  rewrite Ha. cbn. eexists. split; [done|]. split; [done|].
  apply listAddrs_len in Ha; [|lia|nia]. apply chunks_tiles; try lia; try done.
Qed.

End contiguous.

Context `{BL : !BlockBackendLaws B}.

Lemma ioCount_range cmd : 512 <= ioCount cmd <= 2 ^ 25.
Proof.
  unfold ioCount. change 0xffff with (Z.ones 16). rewrite Z.land_ones by lia.
  pose proof (Z.mod_pos_bound (cdw12 cmd) (2 ^ 16) ltac:(lia)). lia.
Qed.

(** What the direct path does when it handles the command. *)
Lemma direct_inv (c c1 : C) m b offset n prp1 prp2 :
  cmem c = Some m -> memory_ok m -> backend c = Some b -> 16 <= page c < 2 ^ 62 ->
  in_width 64 prp1 -> in_width 64 prp2 -> 0 < n < 2 ^ 62 ->
  readBackendToPRP offset n prp1 prp2 c = (c1, Ok (true, None)) ->
  prp1 <> 0 /\ exists w p k e segs,
    window_at m w prp1 n /\ prpSegments (byteAt m) (page c) prp1 prp2 n = Some segs /\
    tiles prp1 segs /\ prp1 + n <= 2 ^ 64 /\
    diskReadAt b (sliceLoad w 0 n m) offset = (p, k, e) /\ e <> Some DiskFailed /\
    c1 = c <| cmem := Some (sliceStore w 0 (slice p 0 k ++ zeros (n - k)) m) |>.
Proof.
  intros Hm Hok Hb Hpg H1 H2 Hn. unfold readBackendToPRP. cbv [mbind proc_bind getState].
  rewrite Hm, Hb. destruct SliceIPA as [f|] eqn:Ef; [|done].
  destruct (Z.eqb_spec n 0); [lia|]. destruct (Z.eqb_spec prp1 0); [done|].
  destruct (prpIsContiguousLocked prp1 prp2 n c) as [c' [ok|er|]] eqn:Hc; [|done..].
  destruct ok; cbn [negb]; [|done].
  destruct (f prp1 n m) as [w|er|] eqn:Ew; [|done..].
  apply slice_law in Ew; [|done|done|lia|done].
  rewrite (window_len _ _ _ _ Ew).
  pose proof (load_law m w prp1 n 0 n Hok Ew ltac:(lia) ltac:(lia) ltac:(lia)) as Hl.
  apply (mapped_end m Hok) in Hl; [|lia].
  apply (contiguous_segments c m Hm Hok) in Hc as (-> & segs & Hs & Ht); try done; [|lia..].
  destruct (diskReadAt b (sliceLoad w 0 n m) offset) as [[p k] e] eqn:Ed.
  intros Hr. split; [done|]. exists w, p, k, e, segs. split_and!; try done; [lia|..].
  - by intros ->.
  - destruct e as [[]|]; cbv [modify mret proc_ret] in Hr; congruence.
Qed.

(** Writing through a PRP pair whose pages are consecutive is one write. *)
Lemma tiled_write (c : C) m prp1 prp2 buf segs :
  cmem c = Some m -> memory_ok m -> 16 <= page c < 2 ^ 62 ->
  in_width 64 prp1 -> in_width 64 prp2 -> prp1 <> 0 -> 0 < len buf < 2 ^ 62 -> is_bytes buf ->
  prpSegments (byteAt m) (page c) prp1 prp2 (len buf) = Some segs -> tiles prp1 segs ->
  is_Some (gather (byteAt m) prp1 (len buf)) ->
  Forall (fun a => a + page c <= prp1 \/ prp1 + len buf <= a)
    (prpPages (byteAt m) (page c) prp1 prp2 (len buf)) ->
  exists m', transferPRP prp1 prp2 buf true c = (c <| cmem := Some m' |>, Ok buf) /\
    forall x, byteAt m' x = scatter (byteAt m) prp1 buf x.
Proof.
  intros Hm Hok Hpg H1 H2 Hz Hn Hb Hs Ht Hg Hdis.
  destruct (prpSegments_inv (byteAt m) (fun x y => byteAt_u8 m x y Hok) _ _ _ _ _ (proj1 Hpg)
              (proj1 Hn) H1 H2 Hs) as (more & E & Hf & Htot & Hmore).
  assert (Forall (fun s => 0 < s.2) segs) as Hpos.
  { rewrite E. constructor; [done|]. eapply Forall_impl; [exact Hmore|]. cbn. tauto. }
  assert (total segs = len buf) as Htn by (rewrite E, total_cons; cbn; lia).
  pose proof (tiles_within _ _ Ht Hpos) as Hin. rewrite Htn in Hin.
  destruct (transferPRP_write c m prp1 prp2 buf segs) as (m' & Hw & _ & Hx); try done.
  - eapply Forall_impl; [exact Hin|]. cbn. intros s Hsx. unfold in_width in H1. split; [lia|].
    apply gather_is_Some. intros x Hx. apply (proj1 (gather_is_Some _ _ _) Hg). lia.
  - eapply Forall_impl; [exact Hdis|]. cbn. intros a Ha. eapply Forall_impl; [exact Hin|]. cbn. lia.
  - exists m'. split; [done|]. intros x. rewrite Hx. by apply scatterAll_tiles.
Qed.

(** When a disk read is served straight into guest memory, memory ends up as
    the bounce-buffer path would have left it: the direct path is an optimisation
    (for a PRP list that the data does not overwrite). *)
Theorem direct_read_equals_bounce (c c1 : C) (m : G) (b : B) (cmd : command) :
  cmem c = Some m -> memory_ok m -> backend c = Some b -> 16 <= page c < 2 ^ 62 ->
  in_width 64 (prp1 cmd) -> in_width 64 (prp2 cmd) ->
  Forall (fun a => a + page c <= prp1 cmd \/ prp1 cmd + ioCount cmd <= a)
    (prpPages (byteAt m) (page c) (prp1 cmd) (prp2 cmd) (ioCount cmd)) ->
  readBackendToPRP (ioOffset cmd) (ioCount cmd) (prp1 cmd) (prp2 cmd) c = (c1, Ok (true, None)) ->
  exists c2 m1 m2, readBounce b cmd c = (c2, Ok (0, 0)) /\
    cmem c1 = Some m1 /\ cmem c2 = Some m2 /\ forall x, byteAt m1 x = byteAt m2 x.
Proof.
  intros Hm Hok Hb Hpg H1 H2 Hdis Hdir. pose proof (ioCount_range cmd) as Hn.
  apply (direct_inv c c1 m b) in Hdir; try done; [|lia].
  destruct Hdir as (Hz & w & p & k & e & segs & Hw & Hs & Ht & Hend & Hd & He & ->).
  remember (ioCount cmd) as n eqn:En.
  pose proof (load_law m w (prp1 cmd) n 0 n Hok Hw ltac:(lia) ltac:(lia) ltac:(lia)) as Hl.
  rewrite Z.add_0_r in Hl. pose proof (gather_len (byteAt m) (prp1 cmd) n _ ltac:(lia) Hl) as Ll.
  pose proof (disk_read_len b _ _ _ _ _ Hd) as [Lp Hk]. rewrite Ll in *.
  assert (len (zeros n) = len (sliceLoad w 0 n m)) as Lz by (rewrite len_zeros; lia).
  destruct (disk_read_same b _ (zeros n) _ _ _ _ Lz Hd) as (q & Hq & Eq).
  assert (is_bytes (slice p 0 k ++ zeros (n - k))) as Hbytes.
  { apply Forall_app. split; [|by apply Forall_replicate].
    eapply slice_is_bytes, disk_read_bytes; [|exact Hd].
    eapply gather_bytes; [|exact Hl]. intros x y. by apply byteAt_u8. }
  assert (len (slice p 0 k ++ zeros (n - k)) = n) as Ln
    by (rewrite len_app, len_slice, len_zeros by lia; lia).
  remember (slice p 0 k ++ zeros (n - k)) as buf.
  destruct (tiled_write (c <| readOps := wrap 64 (readOps c + 1) |>
              <| readBytes := wrap 64 (readBytes c + Z.max n 0) |>) m (prp1 cmd) (prp2 cmd) buf segs)
    as (m2 & Hw2 & Hx2); rewrite ?Ln; try done; [lia|].
  destruct (store_law m w (prp1 cmd) n 0 buf Hok Hw ltac:(lia) ltac:(lia) ltac:(lia) Hbytes)
    as (_ & Hst & _). rewrite Z.add_0_r in Hst.
  eexists _, _, m2. split; [|split; [done|split; [|intros x; by rewrite Hst, Hx2]]].
  - unfold readBounce. rewrite <- En, Hq, Eq, <- Heqbuf. unfold writePRP.
    destruct e as [[]|]; [|done|]; cbv [mbind proc_bind recordRead modify]; by rewrite Hw2.
  - done.
Qed.

(** What a failing disk means to the guest depends on the layout of its
    buffer: with consecutive pages the controller reports the failure as an error
    of the register write, with other layouts it completes the command with a
    failure status. *)
Theorem disk_error_depends_on_layout (c : C) (m : G) (b : B) f (cmd : command) (w : window)
    (contiguous : bool) :
  cmem c = Some m -> backend c = Some b -> SliceIPA = Some f ->
  f (prp1 cmd) (ioCount cmd) m = Ok w -> opcode cmd = ioRead -> prp1 cmd <> 0 ->
  (forall p, exists p' n, diskReadAt b p (ioOffset cmd) = (p', n, Some DiskFailed)) ->
  prpIsContiguousLocked (prp1 cmd) (prp2 cmd) (ioCount cmd) c = (c, Ok contiguous) ->
  (executeIOLocked cmd c).2 = if contiguous then Err (ErrDisk DiskFailed) else Ok (0, 1).
Proof.
  intros Hm Hb Hf Hw Hop Hz Hd Hc. unfold executeIOLocked. cbv [mbind proc_bind getState].
  rewrite Hb, Hop.
  change (ioRead =? ioFlush) with false. change (ioRead =? ioRead) with true. cbv iota.
  unfold readBackendToPRP.
  cbv [mbind proc_bind getState]. rewrite Hm, Hf, Hb. cbn iota.
  pose proof (ioCount_range cmd). destruct (Z.eqb_spec (ioCount cmd) 0); [lia|].
  destruct (Z.eqb_spec (prp1 cmd) 0); [done|]. rewrite Hc.
  destruct contiguous; cbn [negb].
  - rewrite Hw. by destruct (Hd (sliceLoad w 0 (sliceLen w) m)) as (p' & n' & ->).
  - cbv [mret proc_ret]. unfold readBounce. by destruct (Hd (zeros (ioCount cmd))) as (p' & n' & ->).
Qed.

End transfer.

(** * Examples *)

(** The bytes of the image must be bytes for the in-memory disk to meet the
    contract; the empty image does. *)
Record blankDisk := mkBlank { blankSize : Z }.

#[export] Instance blank_backend : BlockBackend blankDisk := {|
  diskReadAt b p off :=
    let n := Z.min (len p) (Z.max 0 (blankSize b - off)) in
    (put p 0 (zeros n), n, if n <? len p then Some EOF else None);
  diskWriteAt b p off := (b, 0, Some DiskFailed);
  diskSize b := blankSize b;
|}.

#[export] Instance blank_laws : BlockBackendLaws blankDisk.
Proof.
  split; cbn.
  - intros b p off p' n e [= <- <- <-]. rewrite len_put. pose proof (len_nonneg p). lia.
  - intros b p q off p' n e Hq [= <- <- <-]. rewrite Hq. eexists. split; [done|].
    pose proof (len_nonneg p). list_ext.
  - intros b p off p' n e Hp [= <- <- <-]. apply put_is_bytes; [done|]. by apply Forall_replicate.
Qed.

(** 32 KiB at 1 MiB: a PRP list in the first page names the third and the fourth. *)
Definition exampleRAM : VM :=
  mkRAM 0x100000 32768
    (put (put (zeros 32768) 0 (le 8 0x102000 ++ le 8 0x103000)) 4096 [7; 8; 9]).

Lemma exampleRAM_ok : vmOk exampleRAM.
Proof.
  repeat split; try (vm_compute; congruence).
  repeat apply put_is_bytes; try apply Forall_app; repeat split; try apply le_is_bytes.
  - by apply Forall_replicate.
  - repeat constructor; done.
Qed.

Definition exampleController : Controller :=
  Attach exampleRAM (mkLines []) (NewController (Some (mkBlank 1048576))).

Lemma prp_read_gathers_witness :
  readPRP 0x100ffe 0x101000 (zeros 5) exampleController
  = (exampleController, Ok [0; 0; 7; 8; 9]).
Proof.
  apply (prp_read_gathers exampleController exampleRAM 0x100ffe 0x101000 (zeros 5)
           [0; 0; 7; 8; 9] [(0x100ffe, 2); (0x101000, 3)]).
  - reflexivity.
  - exact exampleRAM_ok.
  - vm_compute; split; congruence.
  - vm_compute; split; congruence.
  - vm_compute; split; congruence.
  - vm_compute; split; congruence.
  - vm_compute; reflexivity.
  - repeat constructor; done.
  - vm_compute; reflexivity.
Defined.

Lemma prp_write_scatters_witness :
  exists m', writePRP 0x101ffe 0x103000 [1; 2; 3] exampleController
             = (exampleController <| cmem := Some m' |>, Ok tt) /\
    memory_ok m' /\ forall x, byteAt m' x =
      scatterAll (byteAt exampleRAM) [(0x101ffe, 2); (0x103000, 1)] [1; 2; 3] x.
Proof.
  apply (prp_write_scatters exampleController exampleRAM 0x101ffe 0x103000 [1; 2; 3]
           [(0x101ffe, 2); (0x103000, 1)]).
  - reflexivity.
  - exact exampleRAM_ok.
  - vm_compute; split; congruence.
  - vm_compute; split; congruence.
  - vm_compute; split; congruence.
  - vm_compute; split; congruence.
  - repeat constructor; done.
  - vm_compute; reflexivity.
  - repeat constructor; try done; eexists; vm_compute; reflexivity.
  - match goal with |- Forall _ ?l => assert (l = []) as -> by (vm_compute; reflexivity) end.
    constructor.
Defined.

(** Reading one block to the second page. *)
Definition exampleRead : command := mkCommand ioRead 1 1 0x101000 0 0 0 0 0.

Lemma direct_read_equals_bounce_witness :
  exists c2 m1 m2, readBounce (mkBlank 1048576) exampleRead exampleController = (c2, Ok (0, 0)) /\
    cmem (readBackendToPRP (ioOffset exampleRead) (ioCount exampleRead) (prp1 exampleRead)
            (prp2 exampleRead) exampleController).1 = Some m1 /\ cmem c2 = Some m2 /\
    forall x, byteAt m1 x = byteAt m2 x.
Proof.
  apply (direct_read_equals_bounce exampleController
           (readBackendToPRP (ioOffset exampleRead) (ioCount exampleRead) (prp1 exampleRead)
            (prp2 exampleRead) exampleController).1
           exampleRAM (mkBlank 1048576) exampleRead).
  - reflexivity.
  - exact exampleRAM_ok.
  - reflexivity.
  - vm_compute; split; congruence.
  - vm_compute; split; congruence.
  - vm_compute; split; congruence.
  - match goal with |- Forall _ ?l => assert (l = []) as -> by (vm_compute; reflexivity) end.
    constructor.
  - apply injective_projections; [reflexivity|vm_compute; reflexivity].
Defined.
