(* ===== verification/NvmeQueues.v ===== *)
(** Queues, interrupts and doorbells of the NVMe controller ([Nvme]).

    The completion ring in guest memory is a first-in first-out queue of the
    completions the driver has not consumed, up to a full ring
    ([completion_ring_fifo]); a post to a full ring overwrites the oldest one
    ([full_ring_overwritten]).  The interrupt line follows a driver's account of the
    completions it has been sent and has consumed, through every register write
    ([nvme_irq_level]); processing a submission queue ends for a doorbell inside
    the queue and cannot succeed for one outside it. *)

From stdpp Require Import gmap.
From S2P Require Import Prelude GuestMemory Nvme.

Create HintDb keeps.

(** What a driver knows of each queue, by its place in the heap: the head it has written to
    the doorbell last, and how many completions it has not consumed. *)
Abbreviation ledger := (list (Z * Z)).

Section queues.
Context {G I B : Type} `{GM : GuestMemory G} `{IC : IRQController I} `{BB : BlockBackend B}.

Abbreviation C := (@Controller G I B GM).
Abbreviation M := (proc C nvmeError).

(** * What a method leaves alone *)

(** [keeps p m]: the method [m] does not change the part [p] of the controller. *)
Definition keeps {X A} (p : C -> X) (m : M A) : Prop := forall c, p (m c).1 = p c.

Section keeping.
Context {X : Type} (p : C -> X).

Lemma keeps_ret {A} (a : A) : keeps p (mret a).
Proof. done. Qed.

Lemma keeps_lift {A} (r : result nvmeError A) : keeps p (lift r).
Proof. done. Qed.

Lemma keeps_throw {A} e : keeps p (@throw _ _ A e).
Proof. done. Qed.

Lemma keeps_panic {A} : keeps p (@gopanic _ _ A).
Proof. done. Qed.

Lemma keeps_getState : keeps p getState.
Proof. done. Qed.

Lemma keeps_deref l : keeps p (deref l).
Proof. intros c. unfold deref. by destruct (heap c !! l). Qed.

Lemma keeps_bind {A E} (m : M A) (k : A -> M E) :
  keeps p m -> (forall a, keeps p (k a)) -> keeps p (m ≫= k).
Proof.
  intros Hm Hk c. specialize (Hm c). cbv [mbind proc_bind].
  destruct (m c) as [c' [a|e|]]; cbn in *; [|done..]. by rewrite Hk.
Qed.

Lemma keeps_readMem w a n : keeps p (readMem w a n).
Proof. intros c. unfold readMem. by destruct (cmem c). Qed.

Lemma keeps_readInto a d : keeps p (readInto a d).
Proof. intros c. unfold readInto. by destruct (cmem c), ReadIPAInto. Qed.

End keeping.

#[local] Hint Resolve keeps_ret keeps_lift keeps_throw keeps_panic keeps_getState keeps_deref
  keeps_readMem keeps_readInto : keeps.

(** The steps of a method, one construct at a time. *)
Ltac keep_step :=
  lazymatch goal with
  | |- keeps _ (match ?x with _ => _ end) => destruct x
  | |- keeps _ (let '_ := ?x in _) => destruct x
  | |- keeps _ (_ ≫= _) => apply keeps_bind; [|intros ?]
  | |- keeps _ _ => solve [eauto with keeps | done]
  end.

Ltac keep := repeat (cbv zeta; keep_step).

(** Everything but memory, disk and counters: what a data transfer keeps. *)
Definition core (c : C) :=
  (IRQ c, cirq c, cc c, intMask c, pageSz c, irqHigh c, queues c, heap c, msi c).

(** What command processing keeps: the line, and who may drive it. *)
Definition line (c : C) := (IRQ c, cirq c, cc c, intMask c, irqHigh c, msi c).

Lemma core_line {A} (m : M A) : keeps core m -> keeps line m.
Proof. intros Hm c. specialize (Hm c). unfold core, line in *. congruence. Qed.


Lemma keeps_writeMem w a d : keeps core (writeMem w a d).
Proof. intros c. unfold writeMem. destruct (cmem c); [|done]. by destruct (WriteIPA a d g). Qed.

Lemma keeps_transferPage a d w : keeps core (transferPage a d w).
Proof. unfold transferPage. pose proof keeps_writeMem. keep. Qed.
#[local] Hint Resolve keeps_writeMem keeps_transferPage : keeps.

Lemma keeps_walkEntries {X S} (p : C -> X) n pg i lst r (fn : S -> Z -> Z -> M S) s :
  (forall s a k, keeps p (fn s a k)) -> keeps p (walkEntries n pg i lst r fn s).
Proof. intros Hf. revert i r s. induction n; intros i r s; cbn [walkEntries]; keep. Qed.

Lemma keeps_walkLists {X S} (p : C -> X) fuel pg la n r (fn : S -> Z -> Z -> M S) s :
  (forall s a k, keeps p (fn s a k)) -> keeps p (walkLists fuel pg la n r fn s).
Proof.
  intros Hf. revert la n r s. pose proof (@keeps_walkEntries X S p).
  induction fuel; intros la n r s; cbn [walkLists]; keep.
Qed.

Lemma keeps_walk {X S} (p : C -> X) la r (fn : S -> Z -> Z -> M S) s :
  (forall s a k, keeps p (fn s a k)) -> keeps p (walkPRPListLocked la r fn s).
Proof. intros Hf. pose proof (@keeps_walkLists X S p). unfold walkPRPListLocked. keep. Qed.

Lemma keeps_flushRun w r : keeps core (flushRun w r).
Proof. unfold flushRun. keep. Qed.
#[local] Hint Resolve keeps_flushRun : keeps.

Lemma keeps_addSegment w r a k : keeps core (addSegment w r a k).
Proof. unfold addSegment. keep. Qed.
#[local] Hint Resolve keeps_addSegment : keeps.

Lemma keeps_transferPRP p1 p2 d w : keeps core (transferPRP p1 p2 d w).
Proof. unfold transferPRP. pose proof (@keeps_walk _ run core). keep. Qed.
#[local] Hint Resolve keeps_transferPRP : keeps.

Lemma keeps_contiguous {X} (p : C -> X) p1 p2 n : keeps p (prpIsContiguousLocked p1 p2 n).
Proof.
  intros c. unfold prpIsContiguousLocked. cbv zeta. destruct (n <=? _); [done|].
  destruct (_ <=? page c); [done|].
  pose proof (@keeps_walk _ Z p p2 (n - (page c - p1 mod page c)) (expectPage (page c))
                (wrap 64 (p1 + (page c - p1 mod page c)))) as Hw.
  assert (forall s a k, keeps p (expectPage (page c) s a k)) as He
    by (intros s a k; unfold expectPage; keep).
  specialize (Hw He c). by destruct (walkPRPListLocked _ _ _ _ c) as [c' []].
Qed.
#[local] Hint Resolve keeps_contiguous : keeps.

(** Assignments to memory, disk and counters. *)
Lemma keeps_modify {X} (p : C -> X) f : (forall c, p (f c) = p c) -> keeps p (modify f).
Proof. intros Hf c. apply Hf. Qed.
#[local] Hint Extern 2 (keeps _ (modify _)) => apply keeps_modify; intros; reflexivity : keeps.

Lemma keeps_executeIO cmd : keeps core (executeIOLocked cmd).
Proof.
  unfold executeIOLocked, readBackendToPRP, writeBackendFromPRP, readBounce, writeBounce, recordRead,
    recordWrite, readPRP, writePRP. keep.
Qed.
#[local] Hint Resolve keeps_executeIO : keeps.

(** * Processing a submission queue *)

Lemma keeps_run {X A} (p : C -> X) (m : M A) c c' r : keeps p m -> m c = (c', r) -> p c' = p c.
Proof. intros Hm Hc. specialize (Hm c). by rewrite Hc in Hm. Qed.

Lemma keeps_fetchCommand {X} (p : C -> X) q : keeps p (fetchCommand q).
Proof. unfold fetchCommand. keep. Qed.

Lemma keeps_storeCompletion w q raw : keeps core (storeCompletion w q raw).
Proof. unfold storeCompletion. keep. Qed.

Lemma core_heap (c c' : C) : core c' = core c -> heap c' = heap c.
Proof. unfold core. congruence. Qed.

Lemma core_queues (c c' : C) : core c' = core c -> queues c' = queues c.
Proof. unfold core. congruence. Qed.

Lemma deref_inv (l : nat) (c c' : C) q : deref l c = (c', Ok q) -> c' = c /\ heap c !! l = Some q.
Proof. unfold deref. destruct (heap c !! l) eqn:E; intros; by simplify_eq. Qed.

Lemma writeCompletion_heap w k a b e d s (c c' : C) :
  writeCompletionLocked w k a b e d s c = (c', Ok tt) ->
  exists q q', heap c !! k = Some q /\ advanceTail q = Ok q' /\
    heap c' = <[k := q']> (heap c) /\ queues c' = queues c.
Proof.
  unfold writeCompletionLocked. intros H.
  apply proc_bind_Ok in H as (c1 & q & Hq & H). apply deref_inv in Hq as [-> Hq].
  apply proc_bind_Ok in H as (c2 & u & Hs & H).
  apply (keeps_run core) in Hs; [|apply keeps_storeCompletion].
  apply proc_bind_Ok in H as (c3 & q' & Ha & H). injection Ha as <- Ha. injection H as <-.
  exists q, q'. split; [done|]. split; [done|]. cbn.
  rewrite (core_heap _ _ Hs), list_insert_alter. split; [done|]. by apply core_queues.
Qed.

(** The submission side of a queue. *)
Definition sqSide (q : @queue G GM) := (qid q, qsize q, sqTail q, sqHead q).

Lemma advanceTail_sq q q' : advanceTail q = Ok q' -> sqSide q' = sqSide q.
Proof. unfold advanceTail. destruct (qsize q =? 0); [done|]. by intros [= <-]. Qed.

Lemma advanceSQ_inv l (c c' : C) q :
  heap c !! l = Some q -> advanceSQ l c = (c', Ok tt) ->
  qsize q <> 0 /\
  c' = c <| heap := <[l := q <| sqHead := wrap 16 (sqHead q + 1) mod qsize q |>]> (heap c) |>.
Proof.
  intros Hq H. unfold advanceSQ in H.
  apply proc_bind_Ok in H as (c1 & q1 & Hd & H). apply deref_inv in Hd as [-> Hd].
  rewrite Hq in Hd. injection Hd as <-. destruct (Z.eqb_spec (qsize q) 0); [done|].
  injection H as <-. split; [done|]. rewrite list_insert_alter.
  rewrite (list_alter_ext _ (fun _ => q <| sqHead := wrap 16 (sqHead q + 1) mod qsize q |>)
             (heap c) (heap c) l); [done| |done].
  intros x Hx. rewrite Hq in Hx. by injection Hx as <-.
Qed.

(** One I/O command moves the head of its queue and leaves the rest of the
    queue's submission side alone, even when the queue is its own completion queue. *)
Lemma processEntry_io l (c c' : C) q :
  heap c !! l = Some q -> qid q <> adminQueueID -> processEntry l c = (c', Ok tt) ->
  qsize q <> 0 /\ exists q', heap c' !! l = Some q' /\
    sqSide q' = (qid q, qsize q, sqTail q, wrap 16 (sqHead q + 1) mod qsize q).
Proof.
  intros Hq Hio H. unfold processEntry in H.
  apply proc_bind_Ok in H as (c1 & q1 & Hd & H). apply deref_inv in Hd as [-> Hd].
  rewrite Hq in Hd. injection Hd as <-.
  apply proc_bind_Ok in H as (c1 & raw & Hf & H).
  apply (keeps_run (fun c => c)) in Hf as ->; [|apply keeps_fetchCommand]. cbv zeta in H.
  apply Z.eqb_neq in Hio. rewrite Hio in H. cbn [andb] in H.
  apply proc_bind_Ok in H as (c1 & [res st] & He & H). unfold executeCommandLocked in He.
  rewrite Hio in He. apply (keeps_run core) in He; [|apply keeps_executeIO].
  apply proc_bind_Ok in H as (c2 & [] & Ha & H).
  apply (advanceSQ_inv l _ _ q) in Ha as [Hsz ->]; [|by rewrite (core_heap _ _ He)].
  split; [done|]. remember (q <| sqHead := _ |>) as qn.
  assert (Hl : (l < length (heap c))%nat) by (by apply lookup_lt_Some in Hq).
  apply proc_bind_Ok in H as (c3 & q2 & Hd & H). apply deref_inv in Hd as [-> Hd].
  cbn in Hd. rewrite (core_heap _ _ He), list_lookup_insert_eq in Hd by done. injection Hd as <-.
  apply proc_bind_Ok in H as (c4 & c5 & Hg & H). injection Hg as <- <-. cbv zeta in H.
  destruct (if qid qn =? adminQueueID then _ else _) as [k|]; [|done].
  apply proc_bind_Ok in H as (c6 & cq & Hd & H). apply deref_inv in Hd as [-> Hd].
  apply writeCompletion_heap in H as (qk & qk' & Hk & Hadv & Hh & _). rewrite Hh.
  cbn in Hk. cbn [heap]. cbv [set_field eta_controller]. cbn [heap]. rewrite (core_heap _ _ He) in *.
  assert (sqSide qn = (qid q, qsize q, sqTail q, wrap 16 (sqHead q + 1) mod qsize q)) as Hn
    by (subst qn; done).
  destruct (decide (k = l)) as [->|Hkl].
  - rewrite list_lookup_insert_eq by (by rewrite length_insert). exists qk'. split; [done|].
    rewrite list_lookup_insert_eq in Hk by done. injection Hk as <-. by rewrite (advanceTail_sq _ _ Hadv).
  - rewrite list_lookup_insert_ne, list_lookup_insert_eq by done. eauto.
Qed.

Lemma mod_sub_0 a b n : 0 <= a < n -> 0 <= b < n -> (a - b) mod n = 0 -> a = b.
Proof.
  intros Ha Hb Hm. destruct (Z.le_gt_cases b a).
  - rewrite Z.mod_small in Hm; lia.
  - rewrite <- (Z_mod_plus_full _ 1), Z.mod_small in Hm; lia.
Qed.

(** A queue of I/O commands whose head is inside the ring. *)
Definition ioQueue (c : C) (l : nat) (q : @queue G GM) : Prop :=
  heap c !! l = Some q /\ qid q <> adminQueueID /\ 0 < qsize q < 2 ^ 16 /\ 0 <= sqHead q < qsize q.

Lemma ioQueue_step l (c c' : C) q :
  ioQueue c l q -> processEntry l c = (c', Ok tt) ->
  exists q', ioQueue c' l q' /\ qsize q' = qsize q /\ sqTail q' = sqTail q /\
    sqHead q' = (sqHead q + 1) mod qsize q.
Proof.
  intros (Hq & Hio & Hsz & Hh) H.
  apply (processEntry_io l c c' q) in H as [_ (q' & Hq' & Hs)]; [|done..].
  unfold sqSide in Hs. injection Hs as E1 E2 E3 E4.
  rewrite wrap_small in E4 by (unfold in_width; lia).
  pose proof (Z.mod_pos_bound (sqHead q + 1) (qsize q) ltac:(lia)).
  exists q'. unfold ioQueue. rewrite E1, E2, E3, E4. auto.
Qed.

Lemma process_io_ends n : forall l (c : C) q,
  ioQueue c l q -> 0 <= sqTail q < qsize q ->
  (sqTail q - sqHead q) mod qsize q = Z.of_nat n ->
  exists r, processSubmissionQueueLocked (S n) l c = Some r.
Proof.
  induction n as [|n IH]; intros l c q Hio Ht Hn; pose proof Hio as (Hq & _ & Hsz & Hh);
    cbn [processSubmissionQueueLocked]; rewrite Hq.
  - rewrite (mod_sub_0 _ _ _ Ht Hh Hn).
    rewrite Z.eqb_refl. eauto.
  - destruct (Z.eqb_spec (sqHead q) (sqTail q)); [eauto|].
    destruct (processEntry l c) as [c' [[]|e|]] eqn:Hp; [|eauto..].
    destruct (ioQueue_step l c c' q Hio Hp) as (q' & Hio' & Es & Et & Eh).
    apply (IH l c' q' Hio'); rewrite Es, Et; [done|]. rewrite Eh. clear -Hn Hsz Hh Ht.
    rewrite Zminus_mod_idemp_r.
    replace (sqTail q - (sqHead q + 1)) with (sqTail q - sqHead q - 1) by lia.
    rewrite <- Zminus_mod_idemp_l, Hn. rewrite Z.mod_small; [lia|].
    pose proof (Z.mod_pos_bound (sqTail q - sqHead q) (qsize q) ltac:(lia)). lia.
Qed.

Lemma process_io_outside fuel : forall l (c c' : C) q,
  ioQueue c l q -> qsize q <= sqTail q ->
  processSubmissionQueueLocked fuel l c <> Some (c', Ok tt).
Proof.
  induction fuel as [|fuel IH]; intros l c c' q Hio Ht; pose proof Hio as (Hq & _ & Hsz & Hh); [done|].
  cbn [processSubmissionQueueLocked]. rewrite Hq. destruct (Z.eqb_spec (sqHead q) (sqTail q)); [lia|].
  destruct (processEntry l c) as [c1 [[]|e|]] eqn:Hp; [|congruence..].
  destruct (ioQueue_step l c c1 q Hio Hp) as (q' & Hio' & Es & Et & Eh).
  apply (IH l c1 c' q' Hio'). lia.
Qed.

Lemma doorbell_io (c : C) l q value :
  ioQueue c l q ->
  ioQueue (update l (fun q => q <| sqTail := wrap 16 value |>) c).1 l (q <| sqTail := wrap 16 value |>).
Proof.
  intros (Hq & Hrest). split; [|done]. cbn. by rewrite list_lookup_alter_eq, Hq.
Qed.

(** C38: ringing the doorbell of an I/O submission queue with a tail inside the
    queue always returns: the controller handles at most one command per slot. *)
Theorem doorbell_returns (c : C) (l : nat) q (offset value : Z) :
  queues c !! wrap 16 (offset / 4 / 2) = Some l -> offset / 4 mod 2 = 0 ->
  ioQueue c l q -> wrap 16 value < qsize q ->
  exists r, writeDoorbellLocked (S (Z.to_nat ((wrap 16 value - sqHead q) mod qsize q))) offset value c
            = Some r.
Proof.
  intros Hl He Hio Hv. unfold writeDoorbellLocked. rewrite Hl, He. cbn [Z.eqb].
  pose proof (wrap_range 16 value ltac:(lia)) as Hw. unfold in_width in Hw.
  pose proof Hio as (_ & _ & Hsz & _).
  eapply (process_io_ends _ l _ _ (doorbell_io c l q value Hio)); cbn; [lia|].
  pose proof (Z.mod_pos_bound (wrap 16 value - sqHead q) (qsize q) ltac:(lia)). lia.
Qed.

(** Ringing the doorbell of an I/O submission queue with a tail outside the
    queue never succeeds: the head goes round the ring without meeting the tail,
    so processing ends only with an error, and otherwise not at all. *)
Theorem doorbell_outside_never_succeeds (c c' : C) (l : nat) q (offset value : Z) (fuel : nat) :
  queues c !! wrap 16 (offset / 4 / 2) = Some l -> offset / 4 mod 2 = 0 ->
  ioQueue c l q -> qsize q <= wrap 16 value ->
  writeDoorbellLocked fuel offset value c <> Some (c', Ok tt).
Proof.
  intros Hl He Hio Hv. unfold writeDoorbellLocked. rewrite Hl, He. cbn [Z.eqb].
  by apply (process_io_outside _ l _ _ _ (doorbell_io c l q value Hio)).
Qed.

(** The pointer for queue [n], when there is one, is to a queue of that id. *)
Definition pointsTo (c : C) (n : Z) : Prop :=
  forall l, queues c !! n = Some l -> exists q, heap c !! l = Some q /\ qid q = n.

Lemma findOrCreateQueue_inv n (c c' : C) l :
  pointsTo c n -> findOrCreateQueue n c = (c', Ok l) ->
  queues c' !! n = Some l /\ exists q, heap c' !! l = Some q /\ qid q = n.
Proof.
  intros Hp. unfold findOrCreateQueue. cbv [mbind proc_bind getState].
  destruct (queues c !! n) as [k|] eqn:E.
  - intros [= <- <-]. eauto.
  - intros [= <- <-]. cbn. rewrite lookup_insert_eq. split; [done|].
    exists (newQueue n). split; [|done]. by rewrite list_lookup_middle.
Qed.

Lemma update_lookup l f (c c' : C) q :
  heap c !! l = Some q -> update l f c = (c', Ok tt) ->
  heap c' !! l = Some (f q) /\ queues c' = queues c.
Proof. intros Hq [= <-]. cbn. by rewrite list_lookup_alter_eq, Hq. Qed.

Lemma cache_empty l (c c' : C) q :
  heap c !! l = Some q -> qsize q = 0 -> cacheQueueMemoryLocked l c = (c', Ok tt) -> c' = c.
Proof.
  intros Hq Hz. unfold cacheQueueMemoryLocked, deref. cbv [mbind proc_bind getState].
  rewrite Hq, Hz. destruct (cmem c); [|by intros [= <-]].
  destruct SliceIPA; by intros [= <-].
Qed.

(** Creating a submission queue with the size field 0xffff makes a queue of
    size zero, because the size is incremented in 16 bits; a doorbell that leaves
    it commands to process then never succeeds (the modulo by the size panics). *)
Theorem create_queue_size_wraps (c c' c'' : C) (cmd : command) r (offset value : Z) (fuel : nat) :
  pointsTo c (wrap 16 (cdw10 cmd)) -> wrap 16 (cdw10 cmd) <> adminQueueID ->
  wrap 16 (Z.shiftr (cdw10 cmd) 16) = 0xffff -> createSQ cmd c = (c', Ok r) ->
  wrap 16 (offset / 4 / 2) = wrap 16 (cdw10 cmd) -> offset / 4 mod 2 = 0 ->
  exists l q, queues c' !! wrap 16 (cdw10 cmd) = Some l /\ heap c' !! l = Some q /\ qsize q = 0 /\
    (wrap 16 value <> sqHead q -> writeDoorbellLocked fuel offset value c' <> Some (c'', Ok tt)).
Proof.
  intros Hp Hadm Hsz H Hoff Heven. unfold createSQ in H.
  apply proc_bind_Ok in H as (c1 & l & Hf & H).
  apply findOrCreateQueue_inv in Hf as (Hl & q & Hq & Hid); [|done].
  apply proc_bind_Ok in H as (c2 & [] & Hu & H).
  apply (update_lookup _ _ _ _ _ Hq) in Hu as [Hq2 Hqs]. rewrite Hsz in Hq2.
  apply proc_bind_Ok in H as (c3 & [] & Hc & H). apply (cache_empty _ _ _ _ Hq2) in Hc as ->; [|done].
  injection H as <- _. eexists l, _. rewrite Hqs. split; [done|]. split; [exact Hq2|]. split; [done|].
  cbn. intros Hne. unfold writeDoorbellLocked. rewrite Hoff, Hqs, Hl, Heven. cbn [Z.eqb].
  destruct fuel as [|fuel]; [done|]. cbn [processSubmissionQueueLocked].
  cbn. rewrite list_lookup_alter_eq, Hq2. cbn.
  destruct (Z.eqb_spec (sqHead q) (wrap 16 value)); [congruence|].
  destruct (processEntry l _) as [c4 [[]|e|]] eqn:Hpe; [|congruence..].
  eapply processEntry_io in Hpe as [Hnz _]; [|cbn; by rewrite list_lookup_alter_eq, Hq2|cbn; congruence].
  by cbn in Hnz.
Qed.

(** * The interrupt line *)

#[local] Hint Extern 3 (keeps line _) => apply core_line; eauto with keeps : keeps.
#[local] Hint Resolve keeps_fetchCommand keeps_storeCompletion : keeps.

Lemma keeps_update l f : keeps line (update l f).
Proof. done. Qed.

Lemma keeps_alloc q : keeps line (alloc q).
Proof. done. Qed.
#[local] Hint Resolve keeps_update keeps_alloc : keeps.

Lemma keeps_cache l : keeps line (cacheQueueMemoryLocked l).
Proof. unfold cacheQueueMemoryLocked, cacheWindow. keep. Qed.

Lemma keeps_findOrCreate n : keeps line (findOrCreateQueue n).
Proof. unfold findOrCreateQueue. keep. Qed.
#[local] Hint Resolve keeps_cache keeps_findOrCreate : keeps.

Lemma keeps_processEntry l : keeps line (processEntry l).
Proof.
  unfold processEntry, advanceSQ, executeCommandLocked, executeAdminLocked, identify, createCQ,
    createSQ, writePRP, writeCompletionLocked. keep.
Qed.

Context `{IL : !IRQLaws I}.

(** The level the guest sees on a wired line is the one the controller believes. *)
Definition wired (c : C) : Prop :=
  msiEnabled (msi c) = false -> forall i, cirq c = Some i -> level i (IRQ c) = irqHigh c.

Definition enabled (c : C) : bool := hasbits (cc c) 1.

Record irqInv (c : C) : Prop := {
  inv_level : irqHigh c = irqLevel c;
  inv_wired : wired c;
  inv_idle : enabled c = false -> queues c = ∅;
}.

Lemma callIRQ_inv f (c c' : C) :
  callIRQ f c = (c', Ok tt) ->
  match cirq c with
  | None => c' = c
  | Some i => exists i', f i = (i', Ok tt) /\ c' = c <| cirq := Some i' |>
  end.
Proof.
  unfold callIRQ. destruct (cirq c) as [i|]; [|by intros [= <-]].
  destruct (f i) as [i' r] eqn:E. intros [= <- Hr]. exists i'. split; [|done].
  by destruct r as [[]|e|].
Qed.

Lemma updateIRQ_inv (c c' : C) :
  wired c -> updateIRQLocked c = (c', Ok tt) ->
  irqHigh c' = irqLevel c' /\ wired c' /\ cc c' = cc c /\ queues c' = queues c.
Proof.
  intros Hw. unfold updateIRQLocked. cbv [mbind proc_bind getState modify].
  destruct (Bool.eqb (irqLevel c) (irqHigh c)) eqn:E.
  { apply Bool.eqb_prop in E. by intros [= <-]. }
  assert (forall c1, c1 = c <| irqHigh := irqLevel c |> -> msiEnabled (msi c) = true ->
            irqHigh c1 = irqLevel c1 /\ wired c1 /\ cc c1 = cc c /\ queues c1 = queues c) as Hmsi.
  { intros c1 -> Hm. repeat split. intros Hm'. cbn in Hm'. congruence. }
  destruct (msiEnabled (msi c)) eqn:Hm.
  - destruct (negb (irqLevel c)); [intros [= <-]; by apply Hmsi|].
    destruct SetMSI; [|intros [= <-]; by apply Hmsi].
    intros H%callIRQ_inv. cbn in H. destruct (cirq c); [|by apply Hmsi].
    destruct H as (i' & _ & ->). repeat split. intros Hm'. cbn in Hm'. congruence.
  - intros H%callIRQ_inv. cbn in H. destruct (cirq c) as [i|] eqn:Ei.
    + destruct H as (i' & Hs & ->). repeat split. intros _ j [= <-]. cbn.
      by rewrite (setIRQ_law _ _ _ _ Hs), Z.eqb_refl.
    + subst c'. repeat split. intros _ j. cbn. congruence.
Qed.

Lemma process_irq fuel : forall l (c c' : C),
  wired c -> enabled c = true -> processSubmissionQueueLocked fuel l c = Some (c', Ok tt) -> irqInv c'.
Proof.
  induction fuel as [|fuel IH]; intros l c c' Hw He; cbn [processSubmissionQueueLocked]; [done|].
  destruct (heap c !! l) as [q|]; [|done]. destruct (_ =? _).
  - intros [= H]. destruct (updateIRQ_inv c c' Hw H) as (? & ? & Ec & ?).
    split; [done..|]. unfold enabled in *. congruence.
  - destruct (processEntry l c) as [c1 [[]|e|]] eqn:Hp; [|done..].
    apply (keeps_run line) in Hp; [|apply keeps_processEntry].
    unfold line in Hp. injection Hp as E1 E2 E3 E4 E5 E6. apply IH.
    + unfold wired in *. by rewrite E1, E2, E5, E6.
    + unfold enabled in *. by rewrite E3.
Qed.

(** What decides whether a queue raises the line. *)
Definition pend (c : C) := (fun q => (interrupts q, cqPending q)) <$> heap c.

Lemma raises_pend (c : C) l :
  raises c l = match pend c !! l with Some (i, n) => i && negb (n =? 0) | None => false end.
Proof. unfold raises, pend. rewrite list_lookup_fmap. by destruct (heap c !! l). Qed.

(** A part of the queues that an assignment does not touch. *)
Lemma side_update {X} (side : @queue G GM -> X) l f :
  (forall q, side (f q) = side q) -> keeps (fun c => (side <$> heap c, queues c)) (update l f).
Proof.
  intros Hf c. cbn. f_equal. generalize (heap c). intros h. revert l.
  induction h as [|q h IH]; intros [|l]; cbn; [done..| |]; [by rewrite Hf|]. f_equal. apply IH.
Qed.

Lemma cache_side {X} (side : @queue G GM -> X) l :
  (forall q w, side (q <| sqMem := w |>) = side q) -> (forall q w, side (q <| cqMem := w |>) = side q) ->
  keeps (fun c => (side <$> heap c, queues c)) (cacheQueueMemoryLocked l).
Proof.
  intros H1 H2. pose proof (fun f => side_update side l f) as Hu.
  unfold cacheQueueMemoryLocked, cacheWindow. keep.
  all: apply Hu; auto.
Qed.

Lemma cache_pend l : keeps (fun c => (pend c, queues c)) (cacheQueueMemoryLocked l).
Proof. by apply cache_side. Qed.

Lemma alloc_inv q (c c' : C) l :
  alloc q c = (c', Ok l) -> c' = c <| heap := heap c ++ [q] |> /\ l = length (heap c).
Proof. by intros [= <- <-]. Qed.

(** Enabling the controller makes an admin queue with nothing pending. *)
Lemma configure_irq (c c' : C) :
  queues c = ∅ -> configureAdminQueueLocked c = (c', Ok tt) ->
  line c' = line c /\ irqLevel c' = false.
Proof.
  intros Hq. unfold configureAdminQueueLocked. intros H.
  apply proc_bind_Ok in H as (c1 & c2 & Hg & H). injection Hg as <- <-. cbv zeta in H.
  apply proc_bind_Ok in H as (c2 & l & Ha & H).
  assert (line c2 = line c) as El by (by apply (keeps_run line) in Ha; [|apply keeps_alloc]).
  apply alloc_inv in Ha as [-> ->]. apply proc_bind_Ok in H as (c3 & [] & Hc & H). injection H as <-.
  pose proof (keeps_run _ _ _ _ _ (keeps_cache _) Hc) as El3.
  apply (keeps_run _ _ _ _ _ (cache_pend _)) in Hc. apply pair_equal_spec in Hc as [Ep Eq].
  split; [rewrite <- El, <- El3; done|]. unfold irqLevel. apply andb_false_intro2.
  cbn. rewrite Eq. cbn. rewrite Hq, insert_empty, map_to_list_singleton. cbn.
  rewrite orb_false_r, raises_pend.
  change (pend (c3 <| queues := _ |>)) with (pend c3). rewrite Ep. unfold pend. cbn.
  rewrite list_lookup_fmap, list_lookup_middle by done. cbn. done.
Qed.

Lemma writeCC_irq value (c c' : C) :
  irqInv c -> (enabled c = true -> hasbits (wrap 32 value) 1 = false) ->
  writeCC value c = (c', Ok tt) -> irqInv c'.
Proof.
  intros [Hl Hw Hi] Hcc H. unfold writeCC in H. cbv [mbind proc_bind getState modify] in H.
  fold (enabled c) in H. destruct (hasbits (wrap 32 value) 1) eqn:Ev; cbn [negb] in H.
  - destruct (enabled c); [by specialize (Hcc eq_refl)|]. specialize (Hi eq_refl).
    match type of H with context [configureAdminQueueLocked ?x] =>
      destruct (configureAdminQueueLocked x) as [c1 [[]|e|]] eqn:Hc; [|done..];
      apply configure_irq in Hc as [El Elv]; [|done] end.
    injection H as <-. unfold line in El. cbn in El. injection El as E1 E2 E3 E4 E5 E6.
    assert (irqHigh c = false) as Hlow.
    { rewrite Hl. unfold irqLevel. rewrite Hi, map_to_list_empty. by rewrite andb_false_r. }
    split.
    + cbn. change (irqLevel (c1 <| csts := 1 |>)) with (irqLevel c1). by rewrite E5, Elv.
    + unfold wired in *. cbn. by rewrite E1, E2, E5, E6.
    + unfold enabled. cbn. rewrite E3. congruence.
  - destruct (enabled c) eqn:Een.
    + apply callIRQ_inv in H. cbn in H. destruct (cirq c) as [i|] eqn:Ei.
      * destruct H as (i' & Hs & ->). split; cbn.
        -- unfold irqLevel. cbn. by rewrite andb_false_r.
        -- intros _ j [= <-]. cbn. by rewrite (setIRQ_law _ _ _ _ Hs), Z.eqb_refl.
        -- done.
      * subst c'. split; cbn; [|by intros _ j; cbn; congruence|done].
        unfold irqLevel. cbn. by rewrite andb_false_r.
    + injection H as <-. split; [done|done|]. intros _. by apply Hi.
Qed.

(** A register write of a driver that returns, and that does not enable a
    controller that is already enabled. *)
Inductive mmioStep (c c' : C) : Prop :=
| MMIOWrite fuel offset sz value :
    WriteMMIO fuel offset sz value c = Some (c', Ok tt) ->
    (offset = regCC -> enabled c = true -> hasbits (wrap 32 value) 1 = false) ->
    mmioStep c c'.

Lemma update_irq l f (c c' : C) :
  irqInv c -> enabled c = true ->
  (_ ← update l f; updateIRQLocked) c = (c', Ok tt) -> irqInv c'.
Proof.
  intros [Hl Hw Hi] He H. apply proc_bind_Ok in H as (c1 & [] & Hu & H). injection Hu as <-.
  apply updateIRQ_inv in H as (? & ? & Ec & _); [|done]. split; [done..|].
  unfold enabled in *. rewrite Ec. cbn. congruence.
Qed.

Lemma mask_irq f (c c' : C) :
  irqInv c -> (_ ← modify (fun c => c <| intMask := f c |>); updateIRQLocked) c = (c', Ok tt) ->
  irqInv c'.
Proof.
  intros [Hl Hw Hi] H. apply proc_bind_Ok in H as (c1 & [] & Hu & H). injection Hu as <-.
  apply updateIRQ_inv in H as (? & ? & Ec & Eq); [|done]. split; [done..|].
  unfold enabled in *. rewrite Ec, Eq. done.
Qed.

Lemma mmioStep_irq (c c' : C) : mmioStep c c' -> irqInv c -> irqInv c'.
Proof.
  intros [fuel offset sz value H Hcc] Hinv. unfold WriteMMIO in H.
  repeat match type of H with
  | (if ?b then _ else _) = _ => destruct b eqn:?
  end; try (injection H as H).
  all: try by (subst c'; destruct Hinv; split).
  - exact (mask_irq (fun c => Z.lor (intMask c) (wrap 32 value)) c c' Hinv H).
  - exact (mask_irq (fun c => Z.ldiff (intMask c) (wrap 32 value)) c c' Hinv H).
  - apply (writeCC_irq value c); try done. intros He. apply Hcc; [by apply Z.eqb_eq|done].
  - unfold writeDoorbellLocked in H.
    destruct (queues c !! _) as [l|] eqn:Eq; [|by injection H as <-].
    assert (enabled c = true) as He.
    { destruct (enabled c) eqn:He; [done|]. rewrite (inv_idle c Hinv He) in Eq. by rewrite lookup_empty in Eq. }
    destruct (_ mod 2 =? 0).
    + eapply process_irq; [| |exact H]; [apply Hinv|done].
    + injection H as H. by eapply update_irq.
Qed.

Lemma irqInv_initial (m : G) (i : I) (b : option B) (n : Z) :
  level i n = false -> irqInv (Attach m i (NewController b) <| IRQ := n |>).
Proof.
  intros Hlow. split.
  - change (false = irqLevel (Attach m i (NewController b) <| IRQ := n |>)). unfold irqLevel.
    assert (queues (Attach m i (NewController b) <| IRQ := n |>) = ∅) as -> by reflexivity.
    rewrite map_to_list_empty. symmetry. apply andb_false_r.
  - intros _ j Hj. change (Some i = Some j) in Hj. injection Hj as <-. exact Hlow.
  - reflexivity.
Qed.

(** * The driver's account of the completion queues *)

(** A completion arrives in a ring of [n] slots. *)
Definition arrive (n : Z) (e : Z * Z) : Z * Z := (e.1, if e.2 <? n then e.2 + 1 else e.2).

(** The driver moves the head of a ring of [n] slots to [h]: it has consumed as many
    completions as there are slots in between, a full ring if there are none and all slots
    were taken, and never more than there were. *)
Definition consume (n h : Z) (e : Z * Z) : Z * Z :=
  if n =? 0 then (h, 0)
  else
    let k := (h - e.1) mod n in
    (h mod n, if k =? 0 then (if e.2 =? n then 0 else e.2) else Z.max 0 (e.2 - k)).

Definition sizeAt (c : C) (l : nat) : Z := match heap c !! l with Some q => qsize q | None => 0 end.

(** Queues made meanwhile have no completions. *)
Definition extend (c : C) (led : ledger) : ledger := led ++ replicate (length (heap c) - length led) (0, 0).

(** No queue that has been used changes its size between two states. *)
Definition sizesKept (c c1 : C) (led : ledger) : bool :=
  forallb (fun l => (sizeAt c1 l =? sizeAt c l) || bool_decide (led !! l = Some (0, 0))) (seq 0 (length (heap c))).

(** The completion queue of the command at the head of [q], the queue at [l], once the command has been
    executed: asynchronous event requests are not completed. *)
Definition completesTo (l : nat) (q : @queue G GM) (c c1 : C) : option nat :=
  if qid q =? adminQueueID then
    match (fetchCommand q c).2 with
    | Ok raw => if opcode (parseCommand raw) =? adminAsyncEvent then None else Some l
    | _ => None
    end
  else queues c1 !! cqID q.

(** The account after the commands of a submission queue. *)
Fixpoint tally (fuel : nat) (l : nat) (c : C) (led : ledger) : option ledger :=
  match fuel, heap c !! l with
  | S fuel, Some q =>
      if sqHead q =? sqTail q then Some led
      else
        let c1 := (processEntry l c).1 in
        if sizesKept c c1 led then
          let led := extend c1 led in
          tally fuel l c1
            (match completesTo l q c c1 with Some k => alter (arrive (sizeAt c1 k)) k led | None => led end)
        else None
  | _, _ => None
  end.

(** The account after a register write. *)
Definition account (fuel : nat) (offset value : Z) (c c' : C) (led : ledger) : option ledger :=
  extend c' <$>
  (if offset <? doorbellBase then Some led
   else
     let index := (offset - doorbellBase) / 4 in
     match queues c !! wrap 16 (index / 2) with
     | None => Some led
     | Some l =>
         if index mod 2 =? 0 then tally fuel l (update l (fun q => q <| sqTail := wrap 16 value |>) c).1 led
         else Some (alter (consume (sizeAt c l) (wrap 16 value)) l led)
     end).

(** A register write with its account: it returns, does not enable a controller that is
    already enabled, and resizes no queue that has been used. *)
Inductive driverStep : C * ledger -> C * ledger -> Prop :=
| DriverWrite fuel offset sz value c c' led led' :
    WriteMMIO fuel offset sz value c = Some (c', Ok tt) ->
    (offset = regCC -> enabled c = true -> hasbits (wrap 32 value) 1 = false) ->
    account fuel offset value c c' led = Some led' -> driverStep (c, led) (c', led').

(** The part of a queue the account is about. *)
Definition ringSide (q : @queue G GM) : Z * Z * Z := (qsize q, cqHead q, cqPending q).
Definition rings (c : C) : list (Z * Z * Z) := ringSide <$> heap c.

Definition accounted (r : Z * Z * Z) (e : Z * Z) : Prop :=
  let '(n, h, k) := r in e = (h, k) /\ 0 <= n < 2 ^ 16 /\ 0 <= h /\ (n <> 0 -> h < n) /\ 0 <= k <= n.

Definition agrees (c : C) (led : ledger) : Prop := Forall2 accounted (rings c) led.

Lemma agrees_length c led : agrees c led -> length led = length (heap c).
Proof. intros H%Forall2_length. unfold rings in H. by rewrite length_fmap in H. Qed.

Lemma rings_heap (c c' : C) : heap c' = heap c -> rings c' = rings c.
Proof. unfold rings. by intros ->. Qed.

Lemma cache_rings l : keeps (fun c => (rings c, queues c)) (cacheQueueMemoryLocked l).
Proof. by apply cache_side. Qed.

Lemma sizeAt_rings (c c' : C) l : rings c' = rings c -> sizeAt c' l = sizeAt c l.
Proof.
  intros H. unfold sizeAt. apply (f_equal (fun r => r !! l)) in H. unfold rings in H. rewrite !list_lookup_fmap in H.
  destruct (heap c !! l), (heap c' !! l); cbn in H; unfold ringSide in H; congruence.
Qed.

Lemma rings_length (c : C) : length (rings c) = length (heap c).
Proof. unfold rings. apply length_fmap. Qed.

(** Queues are added empty, and sizes replaced. *)
Definition resized (r r' : Z * Z * Z) : Prop := r'.1.2 = r.1.2 /\ r'.2 = r.2 /\ (r'.1.1 = r.1.1 \/ in_width 16 r'.1.1).
Definition grows (rs rs' : list (Z * Z * Z)) : Prop :=
  exists kept new, rs' = kept ++ new /\ Forall2 resized rs kept /\ Forall (fun r => exists n, in_width 16 n /\ r = (n, 0, 0)) new.

Lemma resized_refl rs : Forall2 resized rs rs.
Proof. induction rs as [|r rs IH]; constructor; [|done]. split_and!; [done|done|by left]. Qed.

Lemma grows_same rs : grows rs rs.
Proof.
  exists rs, []. rewrite app_nil_r. split; [done|]. split; [apply resized_refl|constructor].
Qed.

(** The account after queues have been made, before a completion arrives. *)
Lemma agrees_grows (c c1 : C) led :
  agrees c led -> grows (rings c) (rings c1) -> sizesKept c c1 led = true -> agrees c1 (extend c1 led).
Proof.
  intros Ha (kept & new & Er & Hk & Hn) Hs. pose proof (agrees_length c led Ha) as Hlen.
  pose proof (Forall2_length _ _ _ Hk) as Hl1. rewrite rings_length in Hl1.
  unfold agrees, extend. rewrite Er. apply Forall2_app.
  - apply Forall2_lookup. intros l. unfold sizesKept in Hs. rewrite forallb_forall in Hs.
    pose proof (proj1 (Forall2_lookup _ _ _) Ha l) as Hal. pose proof (proj1 (Forall2_lookup _ _ _) Hk l) as Hkl. clear Ha Hk.
    inversion Hkl as [r r1 (E1 & E2 & E3) Hr Hr1|Hr Hr1]; rewrite <- Hr in Hal; inversion Hal as [? e He Hl0 Hle|Hl0 Hle]; subst; constructor.
    symmetry in Hr, Hr1, Hle. destruct r as [[n h] k], r1 as [[n1 h1] k1]. cbn in E1, E2, E3. subst h1 k1.
    destruct He as (-> & W & H0 & Hh & Hk0). split; [done|].
    assert (Hlt : (l < length (heap c))%nat) by (rewrite <- rings_length; by eapply lookup_lt_Some).
    assert (En : sizeAt c l = n).
    { unfold sizeAt. unfold rings in Hr. rewrite list_lookup_fmap in Hr. destruct (heap c !! l); [|done]. by injection Hr. }
    assert (En1 : sizeAt c1 l = n1).
    { assert (Hr' : rings c1 !! l = Some (n1, h, k)) by (rewrite Er; by apply lookup_app_l_Some).
      unfold sizeAt. unfold rings in Hr'. rewrite list_lookup_fmap in Hr'. destruct (heap c1 !! l); [|done]. by injection Hr'. }
    specialize (Hs l ltac:(apply in_seq; lia)). rewrite En, En1 in Hs. apply orb_true_iff in Hs as [Hs|Hs].
    + apply Z.eqb_eq in Hs. subst. split_and!; done || lia.
    + apply bool_decide_eq_true in Hs. rewrite Hle in Hs. injection Hs as -> ->. destruct E3 as [->|E3]; unfold in_width in *; lia.
  - apply (f_equal length) in Er. rewrite rings_length, length_app in Er. rewrite Hlen.
    replace (length (heap c1) - length (heap c))%nat with (length new) by lia. clear -Hn.
    induction Hn as [|r new (n & W & ->) _ IH]; [constructor|]. cbn. constructor; [|done]. unfold in_width in W. cbn. split_and!; done || lia.
Qed.

(** * Commands *)

Lemma alter_grows (c : C) l (f : @queue G GM -> @queue G GM) :
  (forall q, cqHead (f q) = cqHead q /\ cqPending (f q) = cqPending q /\ in_width 16 (qsize (f q))) ->
  grows (rings c) (ringSide <$> alter f l (heap c)).
Proof.
  intros Hf. exists (ringSide <$> alter f l (heap c)), []. rewrite app_nil_r. split; [done|]. split; [|constructor].
  unfold rings. apply Forall2_lookup. intros j. rewrite !list_lookup_fmap. destruct (decide (j = l)) as [->|Hne].
  - rewrite list_lookup_alter_eq. destruct (heap c !! l) as [q|]; cbn; constructor. destruct (Hf q) as (E1 & E2 & W). unfold resized. cbn. auto.
  - rewrite list_lookup_alter_ne by done. destruct (heap c !! j) as [q|]; cbn; constructor. split_and!; [done|done|by left].
Qed.

Lemma create_grows n (f : @queue G GM -> @queue G GM) (c c' : C) r :
  (forall q, cqHead (f q) = cqHead q /\ cqPending (f q) = cqPending q /\ in_width 16 (qsize (f q))) ->
  (l ← findOrCreateQueue n; _ ← update l f; _ ← cacheQueueMemoryLocked l; mret (0, 0)) c = (c', Ok r) ->
  grows (rings c) (rings c').
Proof.
  intros Hf H. apply proc_bind_Ok in H as (c1 & l & Hl & H). apply proc_bind_Ok in H as (c2 & [] & Hu & H). injection Hu as <-.
  apply proc_bind_Ok in H as (c3 & [] & Hc & H). injection H as <- _.
  apply (keeps_run _ _ _ _ _ (cache_rings l)) in Hc. apply pair_equal_spec in Hc as [-> _].
  unfold findOrCreateQueue in Hl. cbv [mbind proc_bind getState] in Hl. destruct (queues c !! n) as [k|].
  - injection Hl as <- <-. by apply alter_grows.
  - cbv [alloc modify mret proc_ret] in Hl. injection Hl as <- <-. unfold rings. cbn.
    exists (rings c), [ringSide (f (newQueue n))]. split.
    { change (rings c ++ [ringSide (f (newQueue n))]) with (rings c ++ (ringSide <$> [f (newQueue n)])). unfold rings.
      rewrite <- fmap_app. f_equal. generalize (heap c). intros h. induction h; cbn; congruence. }
    split.
    + apply resized_refl.
    + constructor; [|constructor]. destruct (Hf (newQueue n)) as (E1 & E2 & W). exists (qsize (f (newQueue n))). split; [done|].
      unfold ringSide. by rewrite E1, E2.
Qed.

Lemma admin_grows cmd (c c' : C) r : executeAdminLocked cmd c = (c', Ok r) -> grows (rings c) (rings c').
Proof.
  unfold executeAdminLocked. intros H.
  assert (Hcore : forall (m : M (Z * Z)), keeps core m -> m c = (c', Ok r) -> grows (rings c) (rings c')).
  { intros m Hm E. apply (keeps_run _ _ _ _ _ Hm), core_heap in E. rewrite (rings_heap _ _ E). apply grows_same. }
  assert (Hw : forall x, in_width 16 (wrap 16 x)) by (intros x; apply wrap_range; lia).
  destruct (_ =? adminIdentify); [eapply Hcore; [|exact H]; unfold identify, writePRP; keep|].
  destruct (_ =? adminCreateCQ); [eapply create_grows; [|exact H]; intros q; split_and!; [done|done|apply Hw]|].
  destruct (_ =? adminCreateSQ); [eapply create_grows; [|exact H]; intros q; split_and!; [done|done|apply Hw]|].
  destruct (_ || _); [injection H as <- _; apply grows_same|].
  destruct (_ =? adminGetLogPage); (eapply Hcore; [|exact H]; unfold writePRP; keep).
Qed.

(** The queues keep their identity, whatever is created. *)
Definition ids (c : C) : list Z := qid <$> heap c.

Lemma create_ids n (f : @queue G GM -> @queue G GM) (c c' : C) r : (forall q, qid (f q) = qid q) ->
  (l ← findOrCreateQueue n; _ ← update l f; _ ← cacheQueueMemoryLocked l; mret (0, 0)) c = (c', Ok r) ->
  ids c `prefix_of` ids c'.
Proof.
  intros Hf H. apply proc_bind_Ok in H as (c1 & l & Hl & H). apply proc_bind_Ok in H as (c2 & [] & Hu & H).
  apply proc_bind_Ok in H as (c3 & [] & Hc & H). injection H as <- _.
  apply (keeps_run _ _ _ _ _ (cache_side qid l ltac:(done) ltac:(done))) in Hc. apply pair_equal_spec in Hc as [Hc _].
  apply (keeps_run _ _ _ _ _ (side_update qid l f Hf)) in Hu. apply pair_equal_spec in Hu as [Hu _].
  unfold ids. rewrite Hc, Hu. unfold findOrCreateQueue in Hl. cbv [mbind proc_bind getState] in Hl. destruct (queues c !! n) as [k|].
  - by injection Hl as <- <-.
  - cbv [alloc modify mret proc_ret] in Hl. injection Hl as <- <-. cbn. rewrite fmap_app. by eexists.
Qed.

Lemma admin_ids cmd (c c' : C) r : executeAdminLocked cmd c = (c', Ok r) -> ids c `prefix_of` ids c'.
Proof.
  unfold executeAdminLocked. intros H.
  assert (Hcore : forall (m : M (Z * Z)), keeps core m -> m c = (c', Ok r) -> ids c `prefix_of` ids c').
  { intros m Hm E. apply (keeps_run _ _ _ _ _ Hm), core_heap in E. unfold ids. by rewrite E. }
  destruct (_ =? adminIdentify); [eapply Hcore; [|exact H]; unfold identify, writePRP; keep|].
  destruct (_ =? adminCreateCQ); [by eapply create_ids; [|exact H]|].
  destruct (_ =? adminCreateSQ); [by eapply create_ids; [|exact H]|].
  destruct (_ || _); [by injection H as <- _|].
  destruct (_ =? adminGetLogPage); (eapply Hcore; [|exact H]; unfold writePRP; keep).
Qed.

Lemma ids_lookup (c c' : C) l q : ids c `prefix_of` ids c' -> heap c !! l = Some q -> exists q', heap c' !! l = Some q' /\ qid q' = qid q.
Proof.
  intros [k E] Hq. assert (ids c' !! l = Some (qid q)) as H by (rewrite E; apply lookup_app_l_Some; unfold ids; by rewrite list_lookup_fmap, Hq).
  unfold ids in H. rewrite list_lookup_fmap in H. destruct (heap c' !! l) as [q'|]; [|done]. injection H as H. by exists q'.
Qed.

(** What a command does before its completion is posted. *)
Lemma execute_rings l q cmd (c c2 : C) r : heap c !! l = Some q -> executeCommandLocked q cmd c = (c2, Ok r) ->
  grows (rings c) (rings c2) /\ exists q2, heap c2 !! l = Some q2 /\ qid q2 = qid q /\
    ((qid q =? adminQueueID) = false -> q2 = q /\ queues c2 = queues c).
Proof.
  intros Hq He. unfold executeCommandLocked in He. destruct (qid q =? adminQueueID).
  - split; [by eapply admin_grows|]. destruct (ids_lookup c c2 l q) as (q2 & H2 & E2); [by eapply admin_ids|done|]. by exists q2.
  - apply (keeps_run core) in He; [|apply keeps_executeIO]. pose proof (core_heap _ _ He) as Eh.
    rewrite (rings_heap _ _ Eh). split; [apply grows_same|]. exists q. rewrite Eh. split_and!; try done. intros _. split; [done|by apply core_queues].
Qed.

(** A command of the admin queue or of an I/O queue: an asynchronous event request is kept,
    every other command is executed and one completion is posted. *)
Lemma processEntry_rings l (c c1 : C) q : heap c !! l = Some q -> processEntry l c = (c1, Ok tt) ->
  (completesTo l q c c1 = None /\ rings c1 = rings c) \/
  exists k c2 qk q', completesTo l q c c1 = Some k /\ grows (rings c) (rings c2) /\ heap c2 !! k = Some qk /\
    advanceTail qk = Ok q' /\ rings c1 = <[k := ringSide q']> (rings c2).
Proof.
  intros Hq H. unfold processEntry in H. apply proc_bind_Ok in H as (c0 & q1 & Hd & H). apply deref_inv in Hd as [-> Hd].
  rewrite Hq in Hd. injection Hd as <-. apply proc_bind_Ok in H as (c0 & raw & Hf & H). unfold completesTo. rewrite Hf.
  apply (keeps_run (fun c => c)) in Hf as ->; [|apply keeps_fetchCommand]. cbv zeta in H. cbn [snd].
  assert (Hsq : forall (c : C) q, heap c !! l = Some q -> ringSide <$> <[l := q <| sqHead := wrap 16 (sqHead q + 1) mod qsize q |>]> (heap c) = rings c).
  { intros d p Hp. unfold rings. rewrite list_fmap_insert. apply list_insert_id. by rewrite list_lookup_fmap, Hp. }
  destruct ((qid q =? adminQueueID) && (opcode (parseCommand raw) =? adminAsyncEvent)) eqn:Easync.
  { apply andb_true_iff in Easync as [-> ->]. left. split; [done|].
    apply (advanceSQ_inv l c c1 q Hq) in H as [_ ->]. by apply Hsq. }
  apply proc_bind_Ok in H as (c2 & [res st] & He & H). apply (execute_rings l q _ c c2 _ Hq) in He as [Hg (q2 & Hq2 & Eid & Hio)].
  apply proc_bind_Ok in H as (c3 & [] & Ha & H). apply (advanceSQ_inv l c2 c3 q2 Hq2) in Ha as [_ ->].
  assert (Hl : (l < length (heap c2))%nat) by (by apply lookup_lt_Some in Hq2).
  apply proc_bind_Ok in H as (c4 & q3 & Hd & H). apply deref_inv in Hd as [-> Hd]. cbn in Hd.
  rewrite list_lookup_insert_eq in Hd by done. injection Hd as <-.
  apply proc_bind_Ok in H as (c5 & c6 & Hgs & H). injection Hgs as <- <-. cbv zeta in H. cbn [qid cqID queues set_field] in H.
  destruct (if _ =? adminQueueID then Some l else _) as [k|] eqn:Ek; [|done].
  apply proc_bind_Ok in H as (c6 & cq & Hd & H). apply deref_inv in Hd as [-> _].
  apply writeCompletion_heap in H as (qk & q' & Hk & Hadv & Hh & Hqs). right.
  exists k, (c2 <| heap := <[l := q2 <| sqHead := wrap 16 (sqHead q2 + 1) mod qsize q2 |>]> (heap c2) |>), qk, q'.
  split; [|split; [|split; [exact Hk|split; [exact Hadv|]]]].
  - rewrite Eid in Ek. destruct (qid q =? adminQueueID) eqn:Eq.
    + cbn [andb] in Easync. by rewrite Easync.
    + destruct (Hio eq_refl) as [-> Eqs]. rewrite Hqs. exact Ek.
  - unfold rings at 2. cbn. rewrite Hsq by done. exact Hg.
  - unfold rings at 1. rewrite Hh. apply list_fmap_insert.
Qed.

(** * The account is right *)

Lemma arrive_ring (qk q' : @queue G GM) : advanceTail qk = Ok q' ->
  ringSide q' = (qsize qk, cqHead qk, if cqPending qk <? qsize qk then cqPending qk + 1 else cqPending qk).
Proof. unfold advanceTail. destruct (qsize qk =? 0); [done|]. by intros [= <-]. Qed.

Lemma sizeAt_ring (c : C) l : sizeAt c l = match rings c !! l with Some r => r.1.1 | None => 0 end.
Proof. unfold sizeAt, rings. rewrite list_lookup_fmap. by destruct (heap c !! l). Qed.

Lemma arrive_sizes (c2 c1 : C) k qk q' : heap c2 !! k = Some qk -> advanceTail qk = Ok q' ->
  rings c1 = <[k := ringSide q']> (rings c2) -> forall j, sizeAt c1 j = sizeAt c2 j.
Proof.
  intros Hk Hadv Hr j. assert (Hk2 : rings c2 !! k = Some (ringSide qk)) by (unfold rings; by rewrite list_lookup_fmap, Hk).
  rewrite !sizeAt_ring, Hr. destruct (decide (j = k)) as [->|Hne]; [|by rewrite list_lookup_insert_ne].
  rewrite list_lookup_insert_eq, Hk2, (arrive_ring qk q' Hadv) by (by eapply lookup_lt_Some). done.
Qed.

Lemma agrees_arrive (c2 c1 : C) led k qk q' : agrees c2 led -> heap c2 !! k = Some qk -> advanceTail qk = Ok q' ->
  rings c1 = <[k := ringSide q']> (rings c2) -> agrees c1 (alter (arrive (sizeAt c1 k)) k led).
Proof.
  intros Ha Hk Hadv Hr. assert (Hk2 : rings c2 !! k = Some (ringSide qk)) by (unfold rings; by rewrite list_lookup_fmap, Hk).
  rewrite (arrive_sizes c2 c1 k qk q' Hk Hadv Hr), sizeAt_ring, Hk2. unfold agrees in *. rewrite Hr.
  apply Forall2_lookup. intros j. pose proof (proj1 (Forall2_lookup _ _ _) Ha j) as Hj.
  destruct (decide (j = k)) as [->|Hne]; [|by rewrite list_lookup_insert_ne, list_lookup_alter_ne by done].
  rewrite list_lookup_insert_eq by (by eapply lookup_lt_Some). rewrite list_lookup_alter_eq.
  rewrite Hk2 in Hj. inversion Hj as [? e He E Hl|]; subst. constructor. rewrite (arrive_ring qk q' Hadv).
  destruct He as (-> & H1 & H2 & H3 & H4). cbn. split; [done|].
  destruct (Z.ltb_spec (cqPending qk) (qsize qk)); split_and!; done || lia.
Qed.

Lemma callIRQ_heap f (c : C) : heap (callIRQ f c).1 = heap c.
Proof. unfold callIRQ. destruct (cirq c) as [i|]; [|done]. by destruct (f i). Qed.

Lemma updateIRQ_heap (c : C) : heap (updateIRQLocked c).1 = heap c.
Proof.
  unfold updateIRQLocked. cbv [mbind proc_bind getState modify]. destruct (Bool.eqb _ _); [done|].
  destruct (msiEnabled (msi c)); [destruct (negb _); [done|]; destruct SetMSI; [|done]|]; by rewrite callIRQ_heap.
Qed.

Lemma sizesKept_ext (c c1 c2 : C) led : (forall j, sizeAt c1 j = sizeAt c2 j) -> sizesKept c c1 led = sizesKept c c2 led.
Proof. intros H. unfold sizesKept. induction (seq 0 (length (heap c))) as [|j js IH]; cbn; [done|]. by rewrite H, IH. Qed.

Lemma extend_same (c : C) led : length led = length (heap c) -> extend c led = led.
Proof. intros E. unfold extend. by rewrite E, Nat.sub_diag, app_nil_r. Qed.

Lemma process_agrees fuel : forall l (c c' : C) led led', agrees c led ->
  processSubmissionQueueLocked fuel l c = Some (c', Ok tt) -> tally fuel l c led = Some led' -> agrees c' led'.
Proof.
  induction fuel as [|fuel IH]; intros l c c' led led' Ha H Ht; [done|]. cbn [processSubmissionQueueLocked tally] in *.
  destruct (heap c !! l) as [q|] eqn:Hq; [|done]. destruct (sqHead q =? sqTail q).
  { injection Ht as <-. injection H as H. unfold agrees. rewrite (rings_heap c c'); [done|].
    by rewrite <- (updateIRQ_heap c), H. }
  destruct (processEntry l c) as [c1 [[]|e|]] eqn:Hp; [|done..]. cbn [fst] in Ht.
  destruct (sizesKept c c1 led) eqn:Hk; [|done]. eapply IH; [|exact H|exact Ht].
  destruct (processEntry_rings l c c1 q Hq Hp) as [[-> Er]|(k & c2 & qk & q' & -> & Hg & Hqk & Hadv & Er)].
  - rewrite extend_same; [unfold agrees; by rewrite Er|]. rewrite (agrees_length c led Ha), <- !rings_length. by rewrite Er.
  - assert (Hl : length (heap c1) = length (heap c2)) by (by rewrite <- !rings_length, Er, length_insert).
    rewrite (sizesKept_ext c c1 c2 led (arrive_sizes c2 c1 k qk q' Hqk Hadv Er)) in Hk. unfold extend at 1. rewrite Hl. fold (extend c2 led).
    by eapply agrees_arrive; [apply (agrees_grows c c2)|..].
Qed.

(** A head the driver writes. *)
Lemma consume_ring (q : @queue G GM) v e : 0 <= v < 2 ^ 16 -> accounted (ringSide q) e ->
  accounted (ringSide (advanceCompletionHeadLocked v q)) (consume (qsize q) v e).
Proof.
  intros Hv (-> & Hn & H0 & Hh & Hk). unfold advanceCompletionHeadLocked, consume. cbn [fst snd].
  destruct (Z.eqb_spec (qsize q) 0) as [E|Hnz]; [cbn; split_and!; try done || lia|]. specialize (Hh Hnz). cbv zeta.
  pose proof (Z.mod_pos_bound v (qsize q) ltac:(lia)) as Hb. set (h := v mod qsize q) in *.
  assert (Ek : (v - cqHead q) mod qsize q = if h <? cqHead q then qsize q - cqHead q + h else h - cqHead q).
  { rewrite <- Zminus_mod_idemp_l. fold h. destruct (Z.ltb_spec h (cqHead q)); [|apply Z.mod_small; lia].
    rewrite <- (Z_mod_plus_full _ 1), Z.mod_small; lia. }
  assert (Ew : (if h <? cqHead q then wrap 16 (qsize q - cqHead q + h) else wrap 16 (h - cqHead q)) = (v - cqHead q) mod qsize q).
  { rewrite Ek. destruct (Z.ltb_spec h (cqHead q)); apply wrap_small; unfold in_width; lia. }
  cbn [qsize cqHead cqPending set_field] in *.
  change (qsize (q <| cqHead := h |>)) with (qsize q). change (cqPending (q <| cqHead := h |>)) with (cqPending q). rewrite Ew.
  set (k := (v - cqHead q) mod qsize q) in *. pose proof (Z.mod_pos_bound (v - cqHead q) (qsize q) ltac:(lia)) as Hkb. fold k in Hkb.
  destruct (Z.eqb_spec k 0), (Z.eqb_spec (cqPending q) (qsize q)), (Z.leb_spec (cqPending q) k); cbn; split_and!; try done; try lia; f_equal; lia.
Qed.

Lemma consume_agrees (c : C) l v led : 0 <= v < 2 ^ 16 -> agrees c led ->
  Forall2 accounted (ringSide <$> alter (advanceCompletionHeadLocked v) l (heap c)) (alter (consume (sizeAt c l) v) l led).
Proof.
  intros Hv Ha. apply Forall2_lookup. intros j. pose proof (proj1 (Forall2_lookup _ _ _) Ha j) as Hj. unfold rings in Hj.
  rewrite list_lookup_fmap in *. destruct (decide (j = l)) as [->|Hne]; [|by rewrite !list_lookup_alter_ne].
  rewrite !list_lookup_alter_eq. unfold sizeAt. destruct (heap c !! l) as [q|]; cbn in Hj |- *.
  - inversion Hj as [? e He E Hl|]; subst. constructor. by apply consume_ring.
  - inversion Hj as [|E Hl]; subst. constructor.
Qed.

(** Enabling the controller adds the admin queue. *)
Lemma writeCC_rings value (c c' : C) : writeCC value c = (c', Ok tt) ->
  rings c' = rings c \/ exists n, in_width 16 n /\ rings c' = rings c ++ [(n, 0, 0)].
Proof.
  unfold writeCC. cbv [mbind proc_bind getState modify]. destruct (negb _).
  - destruct (hasbits (cc c) 1); [|intros [= <-]; by left]. intros H. left. apply rings_heap.
    match type of H with callIRQ ?f ?x = _ => pose proof (callIRQ_heap f x) as E end. rewrite H in E. exact E.
  - match goal with |- context [configureAdminQueueLocked ?x] => destruct (configureAdminQueueLocked x) as [c1 [[]|e|]] eqn:Hc end; [|done..].
    intros [= <-]. right. unfold configureAdminQueueLocked in Hc.
    apply proc_bind_Ok in Hc as (c2 & c3 & Hg & H). injection Hg as <- <-. cbv zeta in H.
    apply proc_bind_Ok in H as (c3 & l & Hl & H). apply alloc_inv in Hl as [-> ->].
    apply proc_bind_Ok in H as (c4 & [] & Hca & H). injection H as <-.
    apply (keeps_run _ _ _ _ _ (cache_rings _)) in Hca. apply pair_equal_spec in Hca as [Er _].
    eexists. split; [|change (rings (_ <| csts := 1 |>)) with (rings c4); rewrite Er; unfold rings; cbn; rewrite fmap_app; reflexivity].
    cbn. repeat match goal with |- context [if ?b then _ else _] => destruct b end; done || (apply wrap_range; lia).
Qed.

Lemma agrees_extend (c c' : C) led : rings c' = rings c -> agrees c led -> agrees c' (extend c' led).
Proof.
  intros Er Ha. rewrite extend_same; [unfold agrees; by rewrite Er|]. by rewrite (agrees_length c led Ha), <- !rings_length, Er.
Qed.

Lemma agrees_added (c c' : C) led n : in_width 16 n -> rings c' = rings c ++ [(n, 0, 0)] -> agrees c led -> agrees c' (extend c' led).
Proof.
  intros W Er Ha. pose proof (f_equal length Er) as El. rewrite length_app, !rings_length in El. cbn in El.
  unfold extend. rewrite (agrees_length c led Ha). replace (length (heap c') - length (heap c))%nat with 1%nat by lia.
  unfold agrees. rewrite Er. apply Forall2_app; [done|]. constructor; [|constructor]. unfold in_width in W. cbn. split_and!; done || lia.
Qed.

(** A register below the doorbells. *)
Lemma register_agrees fuel offset sz value (c c' : C) led : offset < doorbellBase ->
  WriteMMIO fuel offset sz value c = Some (c', Ok tt) -> agrees c led -> agrees c' (extend c' led).
Proof.
  intros Ho H Ha. unfold WriteMMIO in H.
  assert (Hirq : forall c0 : C, heap c0 = heap c -> updateIRQLocked c0 = (c', Ok tt) -> agrees c' (extend c' led)).
  { intros c0 E0 E1. apply (agrees_extend c); [|done]. apply rings_heap. by rewrite <- E0, <- (updateIRQ_heap c0), E1. }
  repeat match type of H with
  | (if ?b then _ else _) = _ => destruct b eqn:?
  end; try (injection H as H).
  all: try by (subst c'; apply (agrees_extend c)).
  - by apply (Hirq (c <| intMask := Z.lor (intMask c) (wrap 32 value) |>)).
  - by apply (Hirq (c <| intMask := Z.ldiff (intMask c) (wrap 32 value) |>)).
  - apply writeCC_rings in H as [Er|(n & W & Er)]; [by apply (agrees_extend c)|by apply (agrees_added c c' led n)].
  - lia.
Qed.

Lemma doorbell_agrees fuel offset value (c c' : C) led led' :
  writeDoorbellLocked fuel (offset - doorbellBase) value c = Some (c', Ok tt) -> doorbellBase <= offset ->
  account fuel offset value c c' led = Some led' -> agrees c led -> agrees c' led'.
Proof.
  intros H Ho Hacc Ha. unfold account in Hacc. rewrite (proj2 (Z.ltb_ge _ _) Ho) in Hacc. cbv zeta in Hacc.
  unfold writeDoorbellLocked in H. destruct (queues c !! _) as [l|]; [|injection H as <-; injection Hacc as <-; by apply (agrees_extend c)].
  destruct (_ mod 2 =? 0).
  - assert (Ha0 : agrees (update l (fun q => q <| sqTail := wrap 16 value |>) c).1 led).
    { unfold agrees. pose proof (side_update ringSide l (fun q => q <| sqTail := wrap 16 value |>) ltac:(done) c) as E.
      apply pair_equal_spec in E as [E _]. unfold rings. by rewrite E. }
    destruct (tally _ _ _ _) as [led1|] eqn:Ht; [|done]. injection Hacc as <-.
    pose proof (process_agrees _ _ _ _ _ _ Ha0 H Ht) as Ha1. by rewrite extend_same by (by apply agrees_length).
  - injection Hacc as <-. injection H as H. apply proc_bind_Ok in H as (c1 & [] & Hu & H). injection Hu as <-.
    apply (agrees_extend (c <| heap := alter (advanceCompletionHeadLocked (wrap 16 value)) l (heap c) |>)).
    + apply rings_heap. match type of H with updateIRQLocked ?x = _ => pose proof (updateIRQ_heap x) as E end. by rewrite H in E.
    + apply consume_agrees; [apply wrap_range; lia|done].
Qed.

Lemma driverStep_agrees s s' : driverStep s s' -> agrees s.1 s.2 -> agrees s'.1 s'.2.
Proof.
  intros [fuel offset sz value c c' led led' H _ Hacc] Ha. cbn [fst snd] in *.
  destruct (Z.lt_ge_cases offset doorbellBase) as [Ho|Ho].
  - unfold account in Hacc. rewrite (proj2 (Z.ltb_lt _ _) Ho) in Hacc. injection Hacc as <-. by eapply register_agrees.
  - unfold WriteMMIO in H. rewrite !(proj2 (Z.eqb_neq _ _)), (proj2 (Z.leb_le _ _) Ho) in H by lia. by eapply doorbell_agrees.
Qed.

Lemma driverSteps_irq (c0 c : C) led0 led : rtc driverStep (c0, led0) (c, led) -> irqInv c0 -> agrees c0 led0 -> irqInv c /\ agrees c led.
Proof.
  intros Hrun Hi Ha. split.
  - apply (rtc_preserves driverStep (fun s => irqInv s.1) (c0, led0) (c, led)) in Hrun; [done| |done].
    intros s s' [fuel offset sz value d d' l l' H Hcc _] Hd. cbn [fst] in *. eapply mmioStep_irq; [|exact Hd]. by econstructor.
  - by apply (rtc_preserves driverStep (fun s => agrees s.1 s.2) (c0, led0) (c, led) driverStep_agrees Hrun).
Qed.

(** C29: after any sequence of register writes that return without error (and neither set
    the enable bit of a controller already enabled nor resize a queue that has been used),
    the interrupt line of the NVMe controller is high exactly when interrupts are unmasked
    and there is a queue with interrupts that holds completions the driver has not consumed:
    by an account of the completions of the executed commands, one for each, at most as many
    as the ring has slots, less those between the heads the driver has written. *)
Theorem nvme_irq_level (m : G) (i : I) (b : option B) (n : Z) (c : C) (led : ledger) :
  level i n = false ->
  rtc driverStep (Attach m i (NewController b) <| IRQ := n |>, []) (c, led) ->
  (irqHigh c = true <->
    hasbits (intMask c) 1 = false /\ exists id l q head unread, queues c !! id = Some l /\ heap c !! l = Some q /\
      interrupts q = true /\ led !! l = Some (head, unread) /\ unread <> 0) /\
  (msiEnabled (msi c) = false -> forall i', cirq c = Some i' -> level i' (IRQ c) = irqHigh c).
Proof.
  intros Hlow Hrun. destruct (driverSteps_irq _ _ _ _ Hrun) as [[Hl Hw _] Ha]; [by apply irqInv_initial|constructor|].
  split; [|exact Hw]. rewrite Hl. unfold irqLevel. rewrite andb_true_iff, negb_true_iff. apply and_iff_compat_l.
  rewrite existsb_exists. split.
  - intros (l & Hin & Hr). apply list_elem_of_In, list_elem_of_fmap in Hin as ([id l'] & -> & Hin). apply elem_of_map_to_list in Hin.
    cbn [snd] in *. unfold raises in Hr. destruct (heap c !! l') as [q|] eqn:Hq; [|done]. apply andb_true_iff in Hr as [Hi Hp].
    apply negb_true_iff, Z.eqb_neq in Hp.
    assert (Hr : rings c !! l' = Some (ringSide q)) by (unfold rings; by rewrite list_lookup_fmap, Hq).
    destruct (Forall2_lookup_l _ _ _ _ _ Ha Hr) as (e & He & -> & _). by exists id, l', q, (cqHead q), (cqPending q).
  - intros (id & l & q & h & k & Hid & Hq & Hi & He & Hk). exists l. split.
    + apply list_elem_of_In, list_elem_of_fmap. exists (id, l). split; [done|]. by apply elem_of_map_to_list.
    + destruct (Forall2_lookup_r _ _ _ _ _ Ha He) as (r & Hr & Hacc). unfold rings in Hr. rewrite list_lookup_fmap, Hq in Hr.
      injection Hr as <-. destruct Hacc as ([= -> ->] & _). unfold raises. rewrite Hq, Hi. cbn. by apply negb_true_iff, Z.eqb_neq.
Qed.

(** * The completion ring *)

Context `{GL : !GuestMemoryLaws G}.

(** A completion, without the phase tag. *)
Record completion := mkCompletion {
  e_sqid : Z;
  e_sqHead : Z;
  e_cid : Z;
  e_result : Z;
  e_status : Z;
}.

Definition encode (phase : bool) (e : completion) : bytes :=
  completionEntry phase (e_sqid e) (e_sqHead e) (e_cid e) (e_result e) (e_status e).

Definition post (wrapErr : memError -> nvmeError) (l : nat) (e : completion) : M unit :=
  writeCompletionLocked wrapErr l (e_sqid e) (e_sqHead e) (e_cid e) (e_result e) (e_status e).

Lemma len_encode ph e : len (encode ph e) = 16.
Proof.
  unfold encode, completionEntry. rewrite !len_app, !len_le, len_zeros by lia. done.
Qed.

Lemma encode_bytes ph e : is_bytes (encode ph e).
Proof.
  unfold encode, completionEntry. repeat (apply Forall_app; split); try apply le_is_bytes.
  by apply Forall_replicate.
Qed.

(** The phase tag [i] slots after the head, whose own tag is [ph]. *)
Definition slotPhase (ph : bool) (head n i : Z) : bool := if head + i <? n then ph else negb ph.

(** [ringOk c l q ph es]: the queue [q] at [l] holds the unconsumed completions
    [es], oldest first, in guest memory, and the driver expects tag [ph] at the head. *)
Definition ringOk (c : C) (l : nat) (q : @queue G GM) (ph : bool) (es : list completion) : Prop :=
  heap c !! l = Some q /\
  0 < qsize q < 2 ^ 16 /\ 0 <= cqHead q < qsize q /\ len es <= qsize q /\
  cqPending q = len es /\ cqTail q = (cqHead q + len es) mod qsize q /\
  cqPhase q = slotPhase ph (cqHead q) (qsize q) (len es) /\
  exists m, cmem c = Some m /\ memory_ok m /\
    is_Some (gather (byteAt m) (cqAddr q) (16 * qsize q)) /\
    (forall w, cqMem q = Some w -> exists n, window_at m w (cqAddr q) n) /\
    forall i e, es !! i = Some e ->
      gather (byteAt m) (cqAddr q + 16 * ((cqHead q + Z.of_nat i) mod qsize q)) 16
      = Some (encode (slotPhase ph (cqHead q) (qsize q) (Z.of_nat i)) e).

Lemma mod_wrap x n : 0 <= x < 2 * n -> x mod n = if x <? n then x else x - n.
Proof.
  intros Hx. destruct (Z.ltb_spec x n); [apply Z.mod_small; lia|].
  rewrite <- (Z_mod_plus_full x (-1) n). apply Z.mod_small. lia.
Qed.

(** Both ways of storing an entry put it in the slot of the tail. *)
Lemma storeCompletion_ok w (q : @queue G GM) raw (c : C) m :
  cmem c = Some m -> memory_ok m -> 0 < qsize q < 2 ^ 16 -> 0 <= cqTail q < qsize q ->
  is_Some (gather (byteAt m) (cqAddr q) (16 * qsize q)) ->
  (forall w, cqMem q = Some w -> exists n, window_at m w (cqAddr q) n) ->
  len raw = 16 -> is_bytes raw ->
  exists m', storeCompletion w q raw c = (c <| cmem := Some m' |>, Ok tt) /\ memory_ok m' /\
    (forall x, byteAt m' x = scatter (byteAt m) (cqAddr q + 16 * cqTail q) raw x) /\
    forall v a n, window_at m v a n -> window_at m' v a n.
Proof.
  intros Hm Hok Hsz Ht Hmap Hwin Hl Hb. rewrite gather_is_Some in Hmap.
  assert (in_width 64 (cqAddr q + 16 * cqTail q)) as Ha.
  { eapply byteAt_range; [done|]. apply Hmap. lia. }
  assert (exists m', writeMem w (wrap 64 (cqAddr q + cqTail q * 16)) raw c
            = (c <| cmem := Some m' |>, Ok tt) /\ memory_ok m' /\
            (forall x, byteAt m' x = scatter (byteAt m) (cqAddr q + 16 * cqTail q) raw x) /\
            forall v a n, window_at m v a n -> window_at m' v a n) as Hfall.
  { replace (cqTail q * 16) with (16 * cqTail q) by lia. rewrite wrap_small by done.
    destruct (write_law m (cqAddr q + 16 * cqTail q) raw) as (m' & Hw & Hok' & Hx); try done; [lia| |].
    - rewrite Hl, gather_is_Some. intros x Hx. apply Hmap. lia.
    - exists m'. split; [unfold writeMem; by rewrite Hm, Hw|]. split; [done|]. split; [done|].
      intros v a n. by eapply write_keeps. }
  unfold storeCompletion. destruct (cqMem q) as [v|]; [|done].
  destruct (Z.leb_spec (cqTail q * 16 + 16) (sliceLen v)) as [Hin|]; [|done].
  destruct (Hwin v eq_refl) as [n Hv]. rewrite (window_len _ _ _ _ Hv) in Hin.
  destruct (store_law m v (cqAddr q) n (cqTail q * 16) raw) as (Hok' & Hx & Hk); try done; [lia..|].
  exists (sliceStore v (cqTail q * 16) raw m). split; [unfold modify; by rewrite Hm|].
  split; [done|]. split; [|done]. intros x. rewrite Hx. do 2 f_equal. lia.
Qed.

Lemma advanceTail_ring (q : @queue G GM) ph n :
  0 < qsize q < 2 ^ 16 -> 0 <= cqHead q < qsize q -> 0 <= n < qsize q -> cqPending q = n ->
  cqTail q = (cqHead q + n) mod qsize q -> cqPhase q = slotPhase ph (cqHead q) (qsize q) n ->
  exists q', advanceTail q = Ok q' /\ qsize q' = qsize q /\ cqHead q' = cqHead q /\
    cqAddr q' = cqAddr q /\ cqMem q' = cqMem q /\ cqPending q' = n + 1 /\
    cqTail q' = (cqHead q + (n + 1)) mod qsize q /\
    cqPhase q' = slotPhase ph (cqHead q) (qsize q) (n + 1).
Proof.
  intros Hsz Hh Hn Hp Ht Hph. unfold advanceTail. destruct (Z.eqb_spec (qsize q) 0); [lia|].
  pose proof (Z.mod_pos_bound (cqHead q + n) (qsize q) ltac:(lia)).
  eexists. split; [done|]. cbn. rewrite wrap_small by (unfold in_width; lia).
  destruct (Z.ltb_spec (cqPending q) (qsize q)); [|lia].
  split_and!; try done; [lia|rewrite Ht, Zplus_mod_idemp_l; f_equal; lia|].
  rewrite Hph, Ht, Zplus_mod_idemp_l. unfold slotPhase. rewrite mod_wrap by lia.
  destruct (Z.ltb_spec (cqHead q + n) (qsize q)), (Z.ltb_spec (cqHead q + n + 1) (qsize q)),
    (Z.ltb_spec (cqHead q + (n + 1)) (qsize q)); try lia.
  all: match goal with |- context [?x =? 0] => destruct (Z.eqb_spec x 0) end; try lia; done.
Qed.

(** A post always stores its completion in the slot behind the pending ones. *)
Lemma post_ok w (c : C) l q ph es e :
  ringOk c l q ph es ->
  exists c' m', post w l e c = (c', Ok tt) /\ cmem c' = Some m' /\
    gather (byteAt m') (cqAddr q + 16 * ((cqHead q + len es) mod qsize q)) 16
    = Some (encode (slotPhase ph (cqHead q) (qsize q) (len es)) e).
Proof.
  intros (Hq & Hsz & Hh & _ & Hp & Ht & Hph & m & Hm & Hok & Hmap & Hwin & _).
  assert (0 <= cqTail q < qsize q) as Htr by (rewrite Ht; apply Z.mod_pos_bound; lia).
  destruct (storeCompletion_ok w q (encode (cqPhase q) e) c m) as (m' & Hst & Hok' & Hx & _);
    try apply len_encode; try apply encode_bytes; try done.
  destruct (advanceTail q) as [q'| |] eqn:Ea; [|unfold advanceTail in Ea; destruct (Z.eqb_spec (qsize q) 0); lia || done..].
  exists (c <| cmem := Some m' |> <| heap := alter (fun _ => q') l (heap c) |>), m'. split; [|split; [done|]].
  { unfold post, writeCompletionLocked. cbv [mbind proc_bind]. unfold deref. rewrite Hq.
    fold (encode (cqPhase q) e). rewrite Hst. unfold lift. by rewrite Ea. }
  rewrite <- Ht, <- Hph. rewrite (gather_ext _ (scatter (byteAt m) (cqAddr q + 16 * cqTail q) (encode (cqPhase q) e)))
    by (intros; apply Hx).
  rewrite <- (len_encode (cqPhase q) e) at 2. apply gather_scatter.
Qed.

Lemma ring_post w (c : C) l q ph es e :
  ringOk c l q ph es -> len es < qsize q ->
  exists c' q', post w l e c = (c', Ok tt) /\ ringOk c' l q' ph (es ++ [e]) /\
    qsize q' = qsize q /\ cqHead q' = cqHead q.
Proof.
  intros (Hq & Hsz & Hh & _ & Hp & Ht & Hph & m & Hm & Hok & Hmap & Hwin & Hes) Hroom.
  pose proof (len_nonneg es).
  assert (0 <= cqTail q < qsize q) as Htr by (rewrite Ht; apply Z.mod_pos_bound; lia).
  destruct (storeCompletion_ok w q (encode (cqPhase q) e) c m) as (m' & Hst & Hok' & Hx & Hk);
    try apply len_encode; try apply encode_bytes; try done.
  destruct (advanceTail_ring q ph (len es)) as (q' & Ha & Es & Eh & Ead & Ew & Ep & Et & Eph); [done..|].
  exists (c <| cmem := Some m' |> <| heap := alter (fun _ => q') l (heap c) |>), q'.
  split.
  { unfold post, writeCompletionLocked. cbv [mbind proc_bind]. unfold deref. rewrite Hq.
    fold (encode (cqPhase q) e). rewrite Hst. unfold lift. by rewrite Ha. }
  split; [|done]. split; [cbn; by rewrite list_lookup_alter_eq, Hq|].
  rewrite Es, Eh, Ead, Ew, Ep, Et, Eph, len_app. change (len [e]) with 1.
  split_and!; try done; [lia..|]. exists m'. split_and!; try done.
  - rewrite gather_is_Some in *. intros x Hxr. rewrite Hx. apply scatter_dom; [|by apply Hmap].
    rewrite len_encode, gather_is_Some. intros y Hy. apply Hmap. lia.
  - intros v Hv. destruct (Hwin v Hv) as [n Hn]. eauto.
  - intros i e' [Hi|[Hi He']]%lookup_app_Some.
    + rewrite (gather_ext _ (scatter (byteAt m) (cqAddr q + 16 * cqTail q) (encode (cqPhase q) e)))
        by (intros; apply Hx).
      rewrite gather_scatter_other; [by apply Hes|]. rewrite len_encode, Ht.
      apply lookup_lt_Some in Hi. unfold len in *. rewrite !mod_wrap by lia.
      destruct (Z.ltb_spec (cqHead q + Z.of_nat i) (qsize q)),
        (Z.ltb_spec (cqHead q + Z.of_nat (length es)) (qsize q)); lia.
    + assert (i = length es) as -> by (apply lookup_lt_Some in He'; cbn in He'; lia).
      rewrite Nat.sub_diag in He'. injection He' as <-. fold (len es). rewrite <- Ht.
      rewrite (gather_ext _ (scatter (byteAt m) (cqAddr q + 16 * cqTail q) (encode (cqPhase q) e)))
        by (intros; apply Hx).
      rewrite <- (len_encode (cqPhase q) e) at 2. by rewrite gather_scatter, Hph.
Qed.

(** Writing the new head after consuming [k] entries; a head that has not moved means none
    of them, or all of a full ring. *)
Lemma advanceHead_ring (q : @queue G GM) n k :
  0 < qsize q < 2 ^ 16 -> 0 <= cqHead q < qsize q -> 0 <= k <= n -> n <= qsize q ->
  (k = 0 -> n < qsize q) -> cqPending q = n ->
  advanceCompletionHeadLocked ((cqHead q + k) mod qsize q) q =
  q <| cqHead := (cqHead q + k) mod qsize q |> <| cqPending := n - k |>.
Proof.
  intros Hsz Hh Hk Hn Hz Hp. unfold advanceCompletionHeadLocked.
  destruct (Z.eqb_spec (qsize q) 0); [lia|]. cbv zeta.
  rewrite Zmod_mod, mod_wrap by lia.
  match goal with |- context [if ?b then wrap 16 ?x else wrap 16 ?y] =>
    assert ((if b then wrap 16 x else wrap 16 y) = if k =? qsize q then 0 else k) as -> end.
  { cbn. destruct (Z.ltb_spec (cqHead q + k) (qsize q)).
    - destruct (Z.ltb_spec (cqHead q + k) (cqHead q)); [lia|]. destruct (Z.eqb_spec k (qsize q)); [lia|].
      rewrite wrap_small; [lia|unfold in_width; lia].
    - destruct (Z.ltb_spec (cqHead q + k - qsize q) (cqHead q)), (Z.eqb_spec k (qsize q)); try lia;
        (rewrite wrap_small; [lia|unfold in_width; lia]). }
  cbn. rewrite Hp. destruct (Z.eqb_spec k (qsize q)) as [Ek|Ek].
  - rewrite Z.eqb_refl. destruct (Z.eqb_spec n (qsize q)); [|lia]. cbn. by replace (n - k) with 0 by lia.
  - destruct (Z.eqb_spec k 0), (Z.eqb_spec n (qsize q)); cbn [andb]; try lia.
    all: destruct (Z.leb_spec n k); [|done]; by replace (n - k) with 0 by lia.
Qed.

Lemma ring_ack (c : C) l q ph es k :
  ringOk c l q ph es -> 0 <= k <= len es -> (k = 0 -> len es < qsize q) ->
  exists c' q', update l (advanceCompletionHeadLocked ((cqHead q + k) mod qsize q)) c = (c', Ok tt) /\
    ringOk c' l q' (slotPhase ph (cqHead q) (qsize q) k) (drop (Z.to_nat k) es) /\
    qsize q' = qsize q /\ cqHead q' = (cqHead q + k) mod qsize q.
Proof.
  intros (Hq & Hsz & Hh & Hle & Hp & Ht & Hph & m & Hm & Hok & Hmap & Hwin & Hes) Hk Hroom.
  pose proof (advanceHead_ring q (len es) k Hsz Hh Hk Hle Hroom Hp) as Hadv.
  eexists _, _. split; [reflexivity|]. split.
  - split; [cbn; by rewrite list_lookup_alter_eq, Hq|]. rewrite Hadv. cbn.
    pose proof (Z.mod_pos_bound (cqHead q + k) (qsize q) ltac:(lia)). rewrite len_drop, Z2Nat.id by lia.
    split; [done|]. split; [lia|]. split; [lia|]. split; [lia|].
    replace (Z.max 0 (len es - k)) with (len es - k) by lia. split; [|split].
    + rewrite Zplus_mod_idemp_l, Ht. f_equal. lia.
    + rewrite Hph. unfold slotPhase. rewrite mod_wrap by lia.
      destruct (Z.ltb_spec (cqHead q + len es) (qsize q)), (Z.ltb_spec (cqHead q + k) (qsize q)); try lia;
        match goal with |- context [?x <? qsize q] => destruct (Z.ltb_spec x (qsize q)) end; try lia;
        by destruct ph.
    + exists m. split_and!; try done. intros i e Hi. rewrite lookup_drop in Hi.
      pose proof (lookup_lt_Some _ _ _ Hi) as Hil. specialize (Hes _ _ Hi). unfold len in *.
      rewrite Zplus_mod_idemp_l.
      replace (cqHead q + k + Z.of_nat i) with (cqHead q + Z.of_nat (Z.to_nat k + i)) by lia.
      rewrite Hes. do 2 f_equal. unfold slotPhase. rewrite mod_wrap by lia.
      destruct (Z.ltb_spec (cqHead q + k) (qsize q)),
        (Z.ltb_spec (cqHead q + Z.of_nat (Z.to_nat k + i)) (qsize q)); try lia;
        match goal with |- context [?x <? qsize q] => destruct (Z.ltb_spec x (qsize q)) end; try lia;
        by destruct ph.
  - by rewrite Hadv.
Qed.

(** What the two sides do to the ring: the controller posts while a slot is free, and the
    driver consumes some of the completions and writes the new head to the doorbell.  A head
    that has not moved says that a full ring has been consumed. *)
Inductive ringStep (w : memError -> nvmeError) (l : nat)
  : C * bool * list completion -> C * bool * list completion -> Prop :=
| RingPost c ph es e q c' r :
    heap c !! l = Some q -> len es < qsize q -> post w l e c = (c', r) ->
    ringStep w l (c, ph, es) (c', ph, es ++ [e])
| RingAck c ph es k q c' r :
    heap c !! l = Some q -> 0 <= k <= len es -> (k = 0 -> len es < qsize q) ->
    update l (advanceCompletionHeadLocked ((cqHead q + k) mod qsize q)) c = (c', r) ->
    ringStep w l (c, ph, es)
      (c', slotPhase ph (cqHead q) (qsize q) k, drop (Z.to_nat k) es).

Definition ringInv (l : nat) (s : C * bool * list completion) : Prop :=
  exists q, ringOk s.1.1 l q s.1.2 s.2.

Lemma ringStep_inv w l s s' : ringStep w l s s' -> ringInv l s -> ringInv l s'.
Proof.
  intros [c ph es e q c' r Hq Hroom Hpost|c ph es k q c' r Hq Hk Hz Hup] (q0 & Hr);
    cbn [fst snd] in *; assert (q0 = q) as -> by (destruct Hr as [Hq0 _]; congruence).
  - destruct (ring_post w c l q ph es e Hr Hroom) as (c1 & q' & Hp & Hr' & _).
    rewrite Hpost in Hp. injection Hp as -> _. by exists q'.
  - destruct (ring_ack c l q ph es k Hr Hk Hz) as (c1 & q' & Hp & Hr' & _).
    rewrite Hup in Hp. injection Hp as -> _. by exists q'.
Qed.

(** A completion queue nothing has been posted to: in guest memory, with a cached view that
    is of this memory. *)
Definition freshRing (c : C) (l : nat) : Prop :=
  exists q m, heap c !! l = Some q /\ 0 < qsize q < 2 ^ 16 /\ cqHead q = 0 /\ cqTail q = 0 /\ cqPending q = 0 /\
    cqPhase q = true /\ cmem c = Some m /\ memory_ok m /\ is_Some (gather (byteAt m) (cqAddr q) (16 * qsize q)) /\
    (forall w, cqMem q = Some w -> exists n, window_at m w (cqAddr q) n).

Lemma fresh_ring c l : freshRing c l -> ringInv l (c, true, []).
Proof.
  intros (q & m & Hq & Hsz & Hh & Ht & Hp & Hph & Hm & Hok & Hmap & Hwin). exists q. cbn [fst snd].
  split; [done|]. split; [done|]. split; [lia|]. change (len (@nil completion)) with 0. split; [lia|]. split; [done|].
  split; [rewrite Hh, Z.mod_small; lia|]. split; [unfold slotPhase; rewrite Hh; by destruct (Z.ltb_spec (0 + 0) (qsize q)); [|lia]|].
  exists m. by split_and!.
Qed.

(** The admin queue of a controller that has just been enabled, and a new completion queue,
    are such queues. *)
Lemma cache_fresh (c c' : C) l q m : heap c !! l = Some q -> cmem c = Some m -> memory_ok m -> in_width 64 (cqAddr q) ->
  0 < qsize q < 2 ^ 16 -> cqMem q = None -> cqHead q = 0 -> cqTail q = 0 -> cqPending q = 0 -> cqPhase q = true ->
  is_Some (gather (byteAt m) (cqAddr q) (16 * qsize q)) -> cacheQueueMemoryLocked l c = (c', Ok tt) ->
  freshRing c' l /\ queues c' = queues c.
Proof.
  intros Hq Hm Hok Ha Hsz Hw Hh Ht Hp Hph Hmap. unfold cacheQueueMemoryLocked. rewrite (proc_bind_run getState _ c c c) by done.
  rewrite (proc_bind_run (deref l) _ c c q) by (unfold deref; by rewrite Hq). rewrite Hm.
  destruct SliceIPA as [f|] eqn:Ef.
  2: { intros [= <-]. split; [|done]. exists q, m. split_and!; try done || lia. congruence. }
  destruct (Z.eqb_spec (qsize q) 0); [lia|]. intros H. apply proc_bind_Ok in H as (c1 & w1 & H1 & H).
  assert (c1 = c) as ->.
  { revert H1. unfold cacheWindow. destruct (sqAddr q =? 0); [by intros [= <-]|].
    destruct (f _ _ m); [by intros [= <-]..|]. intros E. injection E. discriminate. }
  apply proc_bind_Ok in H as (c2 & [] & H2 & H). injection H2 as <-.
  apply proc_bind_Ok in H as (c3 & w2 & H3 & H). injection H as <-.
  assert (c3 = c <| heap := alter (fun q => q <| sqMem := w1 |>) l (heap c) |> /\
    forall w, w2 = Some w -> exists n, window_at m w (cqAddr q) n) as [-> Hwin].
  { revert H3. unfold cacheWindow. rewrite Hw. destruct (cqAddr q =? 0); [by intros [= <- <-]|].
    destruct (f _ _ m) as [w| |] eqn:Ew; [|by intros [= <- <-]|intros E; injection E; discriminate].
    intros [= <- <-]. split; [done|]. intros v [= <-]. exists (qsize q * 16). eapply slice_law; [done|done|lia|exact Ef|done]. }
  split; [|done]. eexists _, m. cbn. rewrite !list_lookup_alter_eq, Hq. split; [reflexivity|]. cbn. split_and!; try done || lia.
Qed.

Lemma admin_ring_fresh (c c' : C) m sz : cmem c = Some m -> memory_ok m -> in_width 64 (acq c) ->
  sz = Z.min (Z.land (aqa c) 0xfff + 1) (Z.land (Z.shiftr (aqa c) 16) 0xfff + 1) ->
  is_Some (gather (byteAt m) (acq c) (16 * sz)) -> configureAdminQueueLocked c = (c', Ok tt) ->
  exists l, queues c' !! adminQueueID = Some l /\ freshRing c' l.
Proof.
  intros Hm Hok Ha Hsz Hmap H. unfold configureAdminQueueLocked in H.
  apply proc_bind_Ok in H as (c1 & c2 & Hg & H). injection Hg as <- <-. cbv zeta in H.
  assert (Hland : forall x, 0 <= Z.land x 0xfff < 2 ^ 12).
  { intros x. change 0xfff with (Z.ones 12). rewrite Z.land_ones by lia. apply Z.mod_pos_bound. lia. }
  pose proof (Hland (aqa c)). pose proof (Hland (Z.shiftr (aqa c) 16)).
  rewrite !wrap_small in H by (unfold in_width; lia).
  assert (Es : (if Z.land (Z.shiftr (aqa c) 16) 4095 + 1 <? Z.land (aqa c) 4095 + 1 then Z.land (Z.shiftr (aqa c) 16) 4095 + 1
      else Z.land (aqa c) 4095 + 1) = sz).
  { destruct (Z.ltb_spec (Z.land (Z.shiftr (aqa c) 16) 4095 + 1) (Z.land (aqa c) 4095 + 1)); lia. }
  rewrite Es in H. destruct (Z.eqb_spec sz 0); [lia|]. apply proc_bind_Ok in H as (c2 & l & Hl & H).
  apply alloc_inv in Hl as [-> ->]. apply proc_bind_Ok in H as (c3 & [] & Hc & H). injection H as <-.
  eapply cache_fresh in Hc as [(q & m' & F) _];
    [|cbn; by rewrite list_lookup_middle|exact Hm|done|done|cbn; lia|done|done|done|done|done|done].
  exists (length (heap c)). cbn. rewrite lookup_insert_eq. split; [done|]. by exists q, m'.
Qed.

Lemma created_ring_fresh (c c' : C) m cmd r (n := wrap 16 (cdw10 cmd)) (sz := wrap 16 (Z.shiftr (cdw10 cmd) 16) + 1) :
  queues c !! n = None -> cmem c = Some m -> memory_ok m -> in_width 64 (prp1 cmd) -> sz < 2 ^ 16 ->
  is_Some (gather (byteAt m) (prp1 cmd) (16 * sz)) -> createCQ cmd c = (c', Ok r) ->
  exists l, queues c' !! n = Some l /\ freshRing c' l.
Proof.
  intros Hn Hm Hok Ha Hsz Hmap H. unfold createCQ in H. fold n sz in H.
  pose proof (wrap_range 16 (Z.shiftr (cdw10 cmd) 16) ltac:(lia)) as W. unfold in_width in W.
  apply proc_bind_Ok in H as (c1 & l & Hf & H). unfold findOrCreateQueue in Hf. cbv [mbind proc_bind getState] in Hf. rewrite Hn in Hf.
  cbv [alloc modify mret proc_ret] in Hf. injection Hf as <- <-.
  apply proc_bind_Ok in H as (c2 & [] & Hu & H). injection Hu as <-. apply proc_bind_Ok in H as (c3 & [] & Hc & H). injection H as <- _.
  rewrite (wrap_small 16 sz) in Hc by (unfold in_width, sz; lia).
  eapply cache_fresh in Hc as [F Hqs];
    [|cbn; rewrite list_lookup_alter_eq, list_lookup_middle by done; reflexivity|exact Hm|done|done|cbn; unfold sz; lia|done|done|done|done|done|done].
  exists (length (heap c)). rewrite Hqs. cbn. by rewrite lookup_insert_eq.
Qed.


(** A completion posted while the ring is full replaces the oldest one the driver has not
    consumed, under the tag of the next round, so that the driver finds the ring empty. *)
Theorem full_ring_overwritten (w : memError -> nvmeError) (l : nat) (c c' : C) (ph : bool) (es : list completion) e q :
  freshRing c l -> rtc (ringStep w l) (c, true, []) (c', ph, es) -> heap c' !! l = Some q -> len es = qsize q ->
  exists c'' m, post w l e c' = (c'', Ok tt) /\ cmem c'' = Some m /\
    gather (byteAt m) (cqAddr q + 16 * cqHead q) 16 = Some (encode (negb ph) e).
Proof.
  intros Hfresh Hrun Hq Hfull.
  assert (ringInv l (c', ph, es)) as (q0 & Hr)
    by (apply (rtc_preserves (ringStep w l) (ringInv l) _ _ (ringStep_inv w l) Hrun), fresh_ring, Hfresh).
  cbn [fst snd] in Hr. pose proof Hr as (Hq0 & Hsz & Hh & _). assert (q0 = q) as -> by congruence.
  destruct (post_ok w c' l q ph es e Hr) as (c'' & m & Hpost & Hm & Hg). exists c'', m. split; [done|]. split; [done|].
  rewrite Hfull in Hg. rewrite mod_wrap in Hg by lia. unfold slotPhase in Hg.
  destruct (Z.ltb_spec (cqHead q + qsize q) (qsize q)); [lia|]. by replace (cqHead q + qsize q - qsize q) with (cqHead q) in Hg by lia.
Qed.

End queues.

(** * Examples *)

(** An I/O queue of four slots at 4 KiB, with its completion ring behind it. *)
Definition sampleQueue : @queue VM vm_memory :=
  newQueue 1 <| qsize := 4 |> <| sqAddr := 0x1000 |> <| cqAddr := 0x1100 |> <| cqID := 1 |>
    <| cqPhase := true |> <| interrupts := true |>.

Definition sampleMem : VM := mkRAM 0x1000 320 (zeros 320).

Definition sampleNvme : @Controller VM lines ramDisk vm_memory :=
  Attach sampleMem (mkLines []) (NewController (Some (mkDisk (zeros 512))))
    <| cc := 1 |> <| heap := [sampleQueue] |> <| queues := {[1 := 0%nat]} |>.

Lemma sampleMem_ok : vmOk sampleMem.
Proof. repeat split; try (vm_compute; congruence). by apply Forall_replicate. Qed.

Lemma sample_ioQueue : ioQueue sampleNvme 0 sampleQueue.
Proof. split; [reflexivity|]. vm_compute. repeat split; congruence. Qed.

Lemma doorbell_returns_witness : exists r, writeDoorbellLocked 3 8 2 sampleNvme = Some r.
Proof.
  apply (doorbell_returns sampleNvme 0 sampleQueue 8 2).
  - vm_compute; reflexivity.
  - reflexivity.
  - exact sample_ioQueue.
  - vm_compute; reflexivity.
Defined.

(** A command that creates submission queue 2 with the size field 0xffff. *)
Definition sampleCreate : command := mkCommand adminCreateSQ 1 0 0x1000 0 0xffff0002 1 0 0.

(** One admin command of a kind the controller only acknowledges, in slot 0. *)
Definition commandMem : VM := mkRAM 0x1000 320 (put (zeros 320) 0 [0x7f; 0; 7; 0]).

(** A controller on line 5 with this memory. *)
Definition sampleFresh : @Controller VM lines ramDisk vm_memory :=
  Attach commandMem (mkLines []) (NewController (Some (mkDisk (zeros 512)))) <| IRQ := 5 |>.

(** Register writes with their account. *)
Fixpoint drive (ws : list (Z * Z)) (s : @Controller VM lines ramDisk vm_memory * ledger)
  : option (@Controller VM lines ramDisk vm_memory * ledger) :=
  match ws with
  | [] => Some s
  | (offset, value) :: ws =>
      if (offset =? regCC) && enabled s.1 && hasbits (wrap 32 value) 1 then None
      else
        match WriteMMIO 8 offset 4 value s.1 with
        | Some (c, Ok _) => led ← account 8 offset value s.1 c s.2; drive ws (c, led)
        | _ => None
        end
  end.

Lemma drive_steps ws : forall s s', drive ws s = Some s' -> rtc driverStep s s'.
Proof.
  induction ws as [|[offset value] ws IH]; intros [c led] s'; cbn [drive fst snd].
  { intros [= <-]. apply rtc_refl. }
  destruct ((offset =? regCC) && enabled c && hasbits (wrap 32 value) 1) eqn:Ecc; [done|].
  destruct (WriteMMIO 8 offset 4 value c) as [[c1 [[]|e|]]|] eqn:Ew; [|done..].
  destruct (account 8 offset value c c1 led) as [led1|] eqn:Ea; [|done]. intros H. eapply rtc_l; [|by apply IH].
  eapply DriverWrite; [exact Ew| |exact Ea]. intros -> He. rewrite He in Ecc. exact Ecc.
Qed.

(** A driver that sets up the admin queue, enables the controller and rings the doorbell
    for one command. *)
Definition sampleWrites : list (Z * Z) := [(regAQA, 0x30003); (regASQ, 0x1000); (regACQ, 0x1100); (regCC, 1); (doorbellBase, 1)].

Lemma nvme_irq_level_witness : exists c, rtc driverStep (sampleFresh, []) (c, [(0, 1)]) /\ irqHigh c = true.
Proof.
  assert (F : (fun s => (s.2, hasbits (intMask s.1) 1, queues s.1 !! 0, interrupts <$> heap s.1 !! 0%nat)) <$>
    drive sampleWrites (sampleFresh, []) = Some ([(0, 1)], false, Some 0%nat, Some true)) by (vm_compute; reflexivity).
  destruct (drive sampleWrites (sampleFresh, [])) as [[c led]|] eqn:E; [|discriminate F].
  cbn [fmap option_fmap option_map fst snd] in F. injection F as -> F2 F3 F4. destruct (heap c !! 0%nat) as [q|] eqn:Hq; [|done]. injection F4 as F4.
  apply drive_steps in E. exists c. split; [exact E|].
  apply (nvme_irq_level commandMem (mkLines []) (Some (mkDisk (zeros 512))) 5 c [(0, 1)]); [reflexivity|exact E|].
  split; [exact F2|]. by exists 0, 0%nat, q, 0, 1.
Defined.

(** A completion queue of two slots at 0x1100 gets four when the submission queue of the
    same number has four. *)
Theorem submission_size_replaces :
  let made := (createCQ (mkCommand adminCreateCQ 1 0 0x1100 0 0x10003 3 0 0) sampleNvme).1 in
  let both := (createSQ (mkCommand adminCreateSQ 2 0 0x1000 0 0x30003 0x30000 0 0) made).1 in
  let ring c := queues c !! 3 ≫= fun l => (fun q => (cqAddr q, qsize q)) <$> heap c !! l in
  ring made = Some (0x1100, 2) /\ ring both = Some (0x1100, 4).
Proof. split; vm_compute; reflexivity. Qed.

Lemma sample_ring : freshRing sampleNvme 0.
Proof.
  exists sampleQueue, sampleMem. split; [reflexivity|]. split; [vm_compute; split; congruence|].
  do 4 (split; [reflexivity|]). split; [reflexivity|]. split; [exact sampleMem_ok|].
  split; [eexists; vm_compute; reflexivity|done].
Qed.

Definition sampleCompletion : completion := mkCompletion 1 1 7 0 0.

(** The ring of four slots is filled, and consumed up to the last entry. *)
Definition posted (n : nat) (c : @Controller VM lines ramDisk vm_memory) : @Controller VM lines ramDisk vm_memory :=
  Nat.iter n (fun c => (post ErrMem 0 sampleCompletion c).1) c.
Definition sampleDrained : @Controller VM lines ramDisk vm_memory :=
  (update 0 (advanceCompletionHeadLocked 3) (posted 4 sampleNvme)).1.

Lemma posted_steps n : (n <= 4)%nat ->
  rtc (ringStep ErrMem 0) (sampleNvme, true, []) (posted n sampleNvme, true, replicate n sampleCompletion).
Proof.
  induction n as [|n IH]; intros Hn; [apply rtc_refl|]. eapply rtc_r; [apply IH; lia|].
  replace (S n) with (n + 1)%nat at 2 by lia. rewrite replicate_add.
  assert (qsize <$> heap (posted n sampleNvme) !! 0%nat = Some 4) as Es
    by (destruct n as [|[|[|[|n]]]]; [vm_compute; reflexivity..|lia]).
  destruct (heap (posted n sampleNvme) !! 0%nat) as [q|] eqn:Hq; [|done]. injection Es as Es.
  apply (RingPost ErrMem 0 _ true _ sampleCompletion q _ (post ErrMem 0 sampleCompletion (posted n sampleNvme)).2); [done| |].
  - unfold len. rewrite length_replicate. lia.
  - apply surjective_pairing.
Qed.

